(* ===== verification/_CoqProject ===== *)
-Q . S2P
Prelude.v
Ord.v
Terms.v
Query.v
QueryFacts.v
QueryOrder.v
Spec.v
Index.v
Kernel.v
LegacyStore.v
LegacyDb.v
Bytes.v
SharedTypes.v
SharedStore.v
SharedDb.v
KernelProps.v
Conformance.v
ConformanceProps.v
Frames.v
VmProjection.v
Worlds.v
WorldFacts.v
WorldProps.v
Intents.v
Epochs.v
Codec.v
FileStore.v
FileProps.v
MmapFormat.v
MmapStore.v
MmapProps.v
EpochCodec.v
EpochStore.v
EpochStoreFacts.v
EpochStoreProps.v
StackVm.v
StackVmFacts.v
StackVmTrial.v
StackVmRoots.v
StackVmProps.v
EpochProps.v
VmEpochs.v
VmVocabulary.v
VmEpochFacts.v
VmEpochProps.v
Parser.v
Isa.v
IntentStream.v
IntentCodec.v
Journal.v
SnapshotFormat.v
SnapshotFormatFacts.v
MmapSnapshot.v
SnapshotLayout.v
SnapshotRep.v
SnapshotBuild.v
SnapshotSafety.v
SnapshotRoot.v
SnapshotProps.v
IoUring.v
IoUringFacts.v
AdmissionWorker.v
AdmissionPlans.v
AdmissionRun.v
AdmissionController.v
AdmissionProps.v
AdmissionSnapshot.v
Ast.v
AstFacts.v
AstProps.v
MixedEpochs.v
MixedFacts.v
MixedProps.v
Batching.v
QueuedController.v
QueuedProps.v
DurableController.v
DurableProps.v
SpeculativeProps.v
