(* ===== verification/Prelude.v ===== *)
(** * A verification development for forthdb

    forthdb is a small fact database written in Rust: a kernel of slots that
    hold stacks of (subject, predicate, object) facts, with pattern queries;
    worlds, which are immutable states of a kernel identified by the hash of
    their history and advanced by optimistic transactions or by epochs of queued
    intents; stores and a journal that make commits and intents durable; and a
    token VM that executes intents against slot heads without a kernel.  This
    library models the crates [forthdb-core], [forthdb-world] and
    [forthdb-conformance] (under src/rust/crates) and proves what makes them correct.  Nothing is assumed
    globally; third-party code is a parameter with its laws.

    ** The parts and how they fit

    - The abstract kernel.  [Spec]: a history of define and forget events
      determines everything a kernel reports; a slot is a stack, defining
      pushes, forgetting pops and reveals.
    - The kernel interface.  [Kernel]: the public API of a [ForthDb] as the class
      [Kernel], what it promises as [KernelLaws], and the operations written on
      top of it (display names, symbols, pattern compilation).  Worlds are proved
      against this interface only.
    - Two kernels.  [LegacyStore] and [LegacyDb] (forthdb-core/src/lib.rs): log,
      head map and a view of seven hash indexes.  [SharedTypes], [SharedStore] and
      [SharedDb] (shared_types_v5.rs, shared_view_v2.rs, shared_db_v2.rs): chunked
      log, sharded persistent maps, linked slot histories, in-place index
      replacement, active-set signatures.  Both are instances of [KernelLaws].
    - The query engine.  [Query] (lib.rs): the one walker that the repository
      writes four times, over the candidates an engine supplies; the class
      [CandSource] is their contract, [QueryFacts] proves the engine against
      the declarative [solution]s, and [QueryOrder] says what is left of the
      answers when candidates come in another order.  [Index] holds what all three sets of
      secondary indexes share.
    - Worlds.  [Frames] (operations, commit frames, identity), [VmProjection]
      (the native query projection) and [Worlds] (worlds and their caches,
      candidates, transactions, the database), all from
      forthdb-world/src/lib.rs.  The kernel, the mapped snapshot
      ([MappedRoot]) and the commit store ([CommitStore]) are interfaces;
      [WorldFacts] holds the invariant [world_ok]: a world, its caches included,
      is a function of its commit frames.
    - The file store.  [Codec] (payload codec) and [FileStore] (records, opening,
      appending, rollback), from forthdb-world/src/file_store.rs; an instance of
      [CommitStore] whose I/O outcomes come from the environment.
    - The memory-mapped store.  [MmapFormat] (mmap_format.rs: its own copy of the
      frame decoder, with the span of each record) and [MmapStore] (mmap_store.rs:
      opening, remapping after an append, refreshing), the other instance of
      [CommitStore]; [MmapProps] relates it to the file store.
    - Mapped snapshots (mmap_vm_snapshot.rs).  [SnapshotFormat] (tables, records,
      indexes and the encoded history as bytes) and [MmapSnapshot] (writing the
      image of a projection, opening it with its checks, reading and querying it).
      [SnapshotLayout] is the content an image file has, [SnapshotRep] what it is
      for a content to represent a history and how the mapped indexes answer
      queries about it, [SnapshotBuild] that writing gives such a content and
      opening shows it, [SnapshotSafety] that neither writing nor reading panics.  [SnapshotRoot] makes opened
      snapshots instances of [MappedRoot], [MappedVocabulary] and [MappedJournal],
      so that what is proved of worlds, materializers and journals over those
      interfaces holds over snapshots, and resumes the VM from one;
      [SnapshotProps] has the theorems.
    - The token VM.  [StackVm] (forthdb-world/src/stack_vm.rs): arenas, trials,
      published roots, index deltas, compacted bases, layered snapshots.
      [StackVmFacts] gives the abstract machine on slot stacks, [StackVmTrial] the
      simulation with acceptance, rollback and how far each arena grows,
      [StackVmRoots] the reads of published roots and of layered snapshots.
    - The Semantic ISA stream.  [Isa] (forthdb-world/src/semantic_isa.rs) over
      the parser monad of [Parser].
    - Queued intents.  [Intents] (intents with temporary entities, preconditions,
      resolution) and [Epochs] (the planner with a world per intent, the planner
      with one world per epoch, publication), from forthdb-world/src/queued.rs;
      [EpochProps] relates the planners to transactions.
    - The VM materializer of the same file: [VmEpochs] (the vocabularies, the
      compilation of operations to VM programs, the epoch planner on the VM,
      replay of published history).  A mapped base is the interface
      [MappedVocabulary].  [VmVocabulary] holds the invariant of the
      vocabularies, [VmEpochFacts] the simulation of a kernel
      world by a materializer, [VmEpochProps] the theorems.
    - Transactions (transaction_ast.rs).  [Ast]: a transaction as a tree of
      operations on named slots, literals and allocated symbols, and its lowering
      to an ISA frame through sorted references, next to the reference lowering
      that the tests keep.  [AstFacts] runs the two in step, [AstProps] has the
      machine a transaction means, the simulation by the VM and the theorems.
    - Mixed epochs (queued.rs).  [MixedEpochs]: the trial vocabulary, which
      compiles a transaction without committing its names, the planner for queued
      intents and transactions, with and without validators, and publication.
      [MixedFacts] relates a trial to the vocabulary it stands for, says what a
      transaction does to a history and compiles it, [MixedProps] runs it and has
      the planner on histories, the theorem and the behaviours outside its
      assumptions.
    - The epoch store.  [EpochCodec] (file_epoch_store.rs has its own copy of the
      frame codec) and [EpochStore] (validation, one write per epoch or per
      frame, barriers, repair, poisoning).  The file is the interface
      [EpochFileIo]; [EpochStoreFacts] proves the store from [EpochFileIoLaws]
      and gives the two files that meet them (a file of bytes, and one whose
      calls fail by a script), [EpochStoreProps] has the theorems.
    - Admission (admission_epoch.rs).  An intent is made durable before it is
      executed: [IntentStream] compiles it to an ISA frame and reads it back
      (queued.rs), [IntentCodec] is the other byte format of intents, [Journal]
      frames epochs of intents, recovers them from a file and replays them into a
      world.  [IoUring] (io_uring_epoch_io.rs) submits one queue entry per
      record with a final barrier and validates the completions; the ring of the
      Linux kernel is the interface [Ring] with [RingLaws], and [IoUringFacts] has a ring
      that meets them.  [AdmissionWorker] is the worker thread's loop over an
      arbitrary arrival order and the lock through which validators are
      registered while it runs; [AdmissionController] opens the journal, starts the
      worker and accepts intents.  [AdmissionPlans] and [AdmissionRun] hold the worker's invariant [settled], [AdmissionProps] the
      theorems.  [AdmissionSnapshot] is the call that writes a snapshot of a
      running controller, with the recovery that uses it.
    - The queued controllers.  A controller accepts intents from many threads
      through a bounded channel, and its worker commits one epoch per batch.
      [Batching]: commands, the policies by which a batch is sealed and the loops
      that collect it, which both controllers have; what a controller supplies is
      the class [BatchHost], and what a platform can reserve and which instants it
      has the class [Platform].  What a worker meets on its channel is a script:
      commands that arrive, moments at which it finds the channel quiet, and the
      shutdown that another thread begins.  [QueuedController]
      (queued_controller.rs): tickets, counters, admission as steps that threads
      interleave, the worker over mixed epochs in memory; [QueuedProps] has the
      theorems.  [DurableController] (file_epoch_controller.rs): the states of a
      controller, admission, shutdown, the worker that persists an epoch in the
      epoch store before it publishes it, and the worker that derives one epoch
      ahead while io_uring writes the last; [DurableProps] has the theorems on the
      first worker, [SpeculativeProps] those on the second.
    - Conformance (crates/forthdb-conformance).  [Conformance]: a fixture of cases
      and steps, its validation and its execution on any kernel;
      [ConformanceProps] says what a case asserts of a history.
    - Shared ground.  This file (machine integers, outcomes, generic lemmas),
      [Ord] (derived orders), [Terms] (identifiers, atoms, facts, patterns),
      [Bytes] (little endian, UTF-8, FNV-1a).  [SharedTypes] also shows that
      association lists meet the laws assumed of the [im] crate.

    ** How code is modelled

    A [u64], [u32] or [usize] is an [N] (or a [nat] for a length or index that
    memory bounds), with the wrap-around written out where the code wraps.  A
    panic is [None], or [Panic] where the code also returns errors ([outcome]
    below).  Operations on [&mut self] return the new state.  Loops are folds or
    structural recursions; where the code recurses on data that is not
    structurally smaller the model takes fuel, and the theorems show that the
    fuel given (the number of patterns for the query walker, the log length for
    the walks along head links, the byte length for the file and journal readers,
    the length of the buffer for the write loop, three steps per arrival and one
    more for the admission worker, two per arrival and one more for the workers of
    the controllers) is enough: exhaustion would be a panic, and
    the results are proved not to be panics.  [Arc] sharing is invisible to a
    value's owner and is not modelled; hash maps are [gmap]s, so that nothing may
    depend on their iteration order, and wherever the code sorts the model sorts
    too.  Hypotheses of the form [u64_ok n] bound what memory and the allocator
    bound in the code.  The global counter of intent namespaces is an argument
    and a result of the operations that read or raise it.

    ** What the theorems show

    - Kernels ([KernelProps]): each kernel computes the abstract history on every
      event sequence without panicking; they answer alike, metrics included;
      queries are sound and complete; join order does not show; limits cut;
      forgetting undoes defining; names and symbols are variables; the sharded
      map is a finite map and the chunked log a list.
    - Conformance ([ConformanceProps]): a fixture passes on a kernel exactly when
      its cases hold of the history they make; a validated fixture fails only at
      an assertion, an unbound symbol or an unknown metric; the checked-in cases
      pass on both kernels.
    - Worlds ([WorldProps], [Frames]): commits are atomic, stale transactions are
      refused, a database is recovered from its store, reconstruction accepts
      exactly the valid histories, VM epochs extend worlds validly, the query
      projection agrees with the kernel, the identity covers the whole commit.
    - Durability ([Codec], [FileProps]): the codec is exact, opening is exact and
      idempotent, a torn tail is recovered, an acknowledged commit within the
      reader's limit on operations survives a crash at any byte of the next
      append.  Two lemmas show where the guarantee ends: an append whose rollback
      fails, and a commit with more operations than the reader accepts.
    - The memory-mapped store ([MmapProps]): it opens what the file store opens,
      commits what it commits, and shows each frame through its mapping; after a
      failed remapping a refresh brings the mapping back, and until then the
      next append misplaces the records.
    - Mapped snapshots ([SnapshotProps], [AdmissionSnapshot]): what is written
      opens on its journal, or on a longer one, as the world that was written;
      any bytes are opened or refused, and read, without a panic; queries have
      only solutions of the history, and without a limit all of them; a world
      that was opened from a snapshot cannot be written again; the stack VM resumes from the image
      with its whole capacity; and a journal reopens from its snapshot, exactly on
      the bytes it was written for.  The lemmas after them show a limit that
      cuts in another order, a section that opening does not check, an epoch that
      the unlocked call of the controller loses, and a call that panics.
    - The VM ([StackVmProps]): an intent is a transaction refining the abstract
      machine; published roots are immutable; layered snapshots read as their
      root; and locals are not cleared between intents.
    - The ISA stream ([Isa]): its codec is exact.
    - Epochs ([EpochProps], [VmEpochProps]): an epoch is the sequence of its
      intents as transactions; the collapsing planner and the VM planner accept
      the same intents and reach the same events; handles stay in their intent;
      a materializer is rebuilt from its world by replay.
    - Transactions ([AstProps]): lowering never panics and agrees with the
      reference, whatever the context held; the lowered program does what the
      transaction means.  The lemmas after them show two transactions that lower
      to one program and a symbol read before it is allocated.
    - Mixed epochs ([MixedProps]): without validators, an epoch accepts and
      rejects as the planner on histories and leaves database and materializer in
      step, if each transaction first uses its names in the order of their
      spelling and expects no world (which the planner on histories compares
      and the code does not).  The lemmas after it show what happens otherwise, and what the
      path with validators does differently.
    - The epoch store ([EpochStoreProps]): an append is all, nothing or
      poisoning; the file of a healthy store is the encoding of its frames
      whatever fails; a poisoned store is fenced; the write loop ends; the store
      reads the files of the file commit store and no others.
    - Admission ([AdmissionProps]): a journal torn at any byte is recovered
      exactly; the worker ends on every arrival order and every failure of its
      transport, acknowledges only what the journal holds, and without failures
      serves every intent once, in order, each epoch under the validators that
      the lock held for it; within the format, the bytes of its file decode to the
      epochs it admitted, whose replay, if no validator was registered meanwhile,
      gives its world.  The
      lemmas after them show an entity identifier that the journal confuses with
      a literal, and what that does to a reopened world.

    - The controller in memory ([QueuedProps]): the worker's thread ends; unless
      it dies, at an epoch that cannot be committed or a batch that cannot be
      opened, it serves every intent once and in order; under the conditions of
      mixed epochs it does not die and commits what the planner on histories
      decides; the depth of its queue counts the reservations under every
      interleaving.  The lemmas after them show a policy whose batches exceed its
      maximum, policies whose first batch kills the worker, a gauge that wraps,
      and a dead worker that reports a full queue.
    - The durable controller ([DurableProps]): the worker ends however the file
      fails and whenever a shutdown comes, and answers all it took, but for the
      intent whose batch cannot be opened; what was acknowledged is in the store
      and begins its file; and its epochs are the planner's on the published
      world without its slots.  The lemmas after them show what that does to slot
      preconditions and to the counts of a world, and two races with a shutdown.
    - The speculative worker ([SpeculativeProps]): it does what a worker would that
      waits for each epoch, and loses no acknowledged commit.

    ** What is not modelled, and why

    The deferred reaper (shared_reaped.rs) only moves deallocation to a thread.
    The system calls of memory mapping, file locks, thread creation, leases and
    timers are operating-system effects: where their answers matter they are
    arguments.  Threads are interleaved where they share a counter or the channel
    (submissions of the controller in memory) and else enter a worker's script;
    locks held for a single step, the parking of a waiting thread, the text a
    panic carries and the feature that injects failures are left out.
    The path of a mixed epoch with validators is a definition without a theorem:
    it judges candidates on the base of the epoch.
    The reading of the admission counters is left out, and so is an allocation that
    fails, except where a batch is opened: a decoder that reserves room for a count
    it has read, or a channel as large as a constructor is asked for, may fail to
    get its memory.  Benchmarks, demonstrations and the Python prototype
    are drivers around the modelled code. *)
From Stdlib Require Import NArith ZArith Lia.
From stdpp Require Import sorting base gmap strings pretty option list list_numbers.

(** * Machine integers

    A [u64] (and, on the 64-bit targets the crates are built for, a [usize])
    is an [N] below [u64_modulus]; the wrap-around is written out. *)

Definition u64_modulus : N := (2 ^ 64)%N.
Definition u32_modulus : N := (2 ^ 32)%N.
Definition u64_max : N := (u64_modulus - 1)%N.

Definition u64_wrap (n : N) : N := (n mod u64_modulus)%N.
Definition u64_add (a b : N) : N := u64_wrap (a + b).
Definition u64_sub (a b : N) : N := u64_wrap (a + (u64_modulus - u64_wrap b)).
Definition u64_mul (a b : N) : N := u64_wrap (a * b).

(** [checked_add] on a 64-bit unsigned integer. *)
Definition u64_checked_add (a b : N) : option N :=
  if (a + b <? u64_modulus)%N then Some (a + b)%N else None.

(** [saturating_add] on a 64-bit unsigned integer. *)
Definition u64_saturating_add (a b : N) : N := N.min (a + b) u64_max.

(** The length of a collection, as the [usize] the code reads. *)
Definition usize_of (n : nat) : N := u64_wrap (N.of_nat n).

Definition u64_ok (n : N) : Prop := (n < u64_modulus)%N.
Definition u32_ok (n : N) : Prop := (n < u32_modulus)%N.

#[export] Instance u64_ok_dec n : Decision (u64_ok n).
Proof. unfold u64_ok. apply _. Defined.
#[export] Instance u32_ok_dec n : Decision (u32_ok n).
Proof. unfold u32_ok. apply _. Defined.

Lemma u64_modulus_pos : (0 < u64_modulus)%N.
Proof. reflexivity. Qed.

Lemma u64_wrap_ok n : u64_ok (u64_wrap n).
Proof. unfold u64_ok, u64_wrap. apply N.mod_lt. discriminate. Qed.

Lemma u64_wrap_small n : u64_ok n → u64_wrap n = n.
Proof. intros H. apply N.mod_small, H. Qed.

Lemma u64_wrap_wrap n : u64_wrap (u64_wrap n) = u64_wrap n.
Proof. apply u64_wrap_small, u64_wrap_ok. Qed.

Lemma u64_wrap_add_l a b : u64_wrap (u64_wrap a + b) = u64_wrap (a + b).
Proof. unfold u64_wrap. apply N.Div0.add_mod_idemp_l. Qed.

Lemma u64_wrap_add_r a b : u64_wrap (a + u64_wrap b) = u64_wrap (a + b).
Proof. unfold u64_wrap. apply N.Div0.add_mod_idemp_r. Qed.

Lemma u64_add_small a b : u64_ok (a + b) → u64_add a b = (a + b)%N.
Proof. apply u64_wrap_small. Qed.

Lemma u64_add_comm a b : u64_add a b = u64_add b a.
Proof. unfold u64_add. by rewrite N.add_comm. Qed.

Lemma u64_add_sub a b : u64_sub (u64_add a b) b = u64_wrap a.
Proof.
  unfold u64_sub, u64_add. rewrite u64_wrap_add_l.
  pose proof (u64_wrap_ok b) as Hb. unfold u64_ok in Hb.
  rewrite <- N.add_assoc, <- u64_wrap_add_r.
  replace (u64_wrap (b + (u64_modulus - u64_wrap b))) with 0%N.
  - by rewrite N.add_0_r.
  - rewrite <- u64_wrap_add_l.
    replace (u64_wrap b + (u64_modulus - u64_wrap b))%N with u64_modulus by lia.
    done.
Qed.

Lemma u64_add_assoc a b c : u64_add (u64_add a b) c = u64_add a (u64_add b c).
Proof. unfold u64_add. rewrite u64_wrap_add_l, u64_wrap_add_r. f_equal. lia. Qed.

Lemma u64_add_sub_assoc a b c : u64_sub (u64_add a b) c = u64_add (u64_sub a c) b.
Proof.
  unfold u64_sub, u64_add. rewrite !u64_wrap_add_l. f_equal. lia.
Qed.

Lemma u64_sub_add a b : u64_ok a → u64_add (u64_sub a b) b = a.
Proof. intros Ha. rewrite <- u64_add_sub_assoc, u64_add_sub. by apply u64_wrap_small. Qed.

Lemma usize_of_S n : usize_of (S n) = u64_add (usize_of n) 1.
Proof. unfold usize_of, u64_add. rewrite u64_wrap_add_l. f_equal. lia. Qed.

Lemma usize_of_pred n : u64_sub (usize_of (S n)) 1 = usize_of n.
Proof. rewrite usize_of_S, u64_add_sub. apply u64_wrap_wrap. Qed.

(** * Outcomes

    A computation of the code returns a value, returns an error of type [E],
    or panics (an index out of range, a failed [expect]). *)

Inductive outcome (E A : Type) : Type :=
| Ok (a : A)
| Err (e : E)
| Panic.
Arguments Ok {E A} a.
Arguments Err {E A} e.
Arguments Panic {E A}.

Definition outcome_bind {E A B} (m : outcome E A) (k : A → outcome E B) : outcome E B :=
  match m with
  | Ok a => k a
  | Err e => Err e
  | Panic => Panic
  end.

(** [map_err]. *)
Definition map_err {E F A} (f : E → F) (m : outcome E A) : outcome F A :=
  match m with
  | Ok a => Ok a
  | Err e => Err (f e)
  | Panic => Panic
  end.

(** A value whose absence is a panic ([unwrap], [expect], indexing). *)
Definition or_panic {E A} (o : option A) : outcome E A :=
  match o with Some a => Ok a | None => Panic end.

(** [ok_or]. *)
Definition ok_or {E A} (o : option A) (e : E) : outcome E A :=
  match o with Some a => Ok a | None => Err e end.

Declare Scope fdb_scope.
Delimit Scope fdb_scope with fdb.
Notation "'let*' x := m 'in' k" := (outcome_bind m (λ x, k))
  (at level 10, x pattern, m at level 100, k at level 200) : fdb_scope.
Open Scope fdb_scope.

(** [for x in l { s = f(s, x)? }]. *)
Fixpoint outcome_fold {E A S} (f : S → A → outcome E S) (l : list A) (s : S) : outcome E S :=
  match l with
  | [] => Ok s
  | x :: l => let* s' := f s x in outcome_fold f l s'
  end.

Lemma outcome_bind_ok {E A B} (m : outcome E A) (k : A → outcome E B) b :
  outcome_bind m k = Ok b ↔ ∃ a, m = Ok a ∧ k a = Ok b.
Proof. destruct m; simpl; naive_solver. Qed.

Lemma outcome_fold_app {E A S} (f : S → A → outcome E S) l1 l2 s :
  outcome_fold f (l1 ++ l2) s =
  let* s' := outcome_fold f l1 s in outcome_fold f l2 s'.
Proof.
  revert s. induction l1 as [|x l1 IH]; intros s; simpl; [done|].
  destruct (f s x); simpl; auto.
Qed.

(** * Lists *)

(** [iter().enumerate().min_by_key(f).map(|(i, _)| i).unwrap_or(0)]: the index
    of the first element whose key is least. *)
Fixpoint min_index_from {A} (f : A → nat) (i best : nat) (best_key : nat) (l : list A) : nat :=
  match l with
  | [] => best
  | x :: l =>
      if f x <? best_key then min_index_from f (S i) i (f x) l
      else min_index_from f (S i) best best_key l
  end.

Definition min_by_key_index {A} (f : A → nat) (l : list A) : nat :=
  match l with
  | [] => 0
  | x :: l => min_index_from f 1 0 (f x) l
  end.

Lemma min_index_from_bound {A} (f : A → nat) l i best k :
  best < i → min_index_from f i best k l < i + length l.
Proof.
  revert i best k. induction l as [|x l IH]; intros i best k H; simpl; [lia|].
  case_match; eapply Nat.lt_le_trans; try apply IH; lia.
Qed.

Lemma min_by_key_index_bound {A} (f : A → nat) l :
  l ≠ [] → min_by_key_index f l < length l.
Proof.
  destruct l as [|x l]; [done|]. intros _. simpl.
  pose proof (min_index_from_bound f l 1 0 (f x)). lia.
Qed.

Lemma min_index_from_fmap {A} (f : A → nat) l i best k :
  min_index_from id i best k (f <$> l) = min_index_from f i best k l.
Proof.
  revert i best k. induction l as [|x l IH]; intros; simpl; [done|].
  unfold id at 1. case_match; apply IH.
Qed.

Lemma min_by_key_index_fmap {A} (f : A → nat) l :
  min_by_key_index id (f <$> l) = min_by_key_index f l.
Proof. destruct l; simpl; [done|]. apply min_index_from_fmap. Qed.

(** Record identifiers in ascending order: a [BTreeSet] iteration, or a vector
    after [sort_unstable]. *)
Definition sort_ids (l : list nat) : list nat := merge_sort (≤) l.

Lemma sort_ids_Permutation l : sort_ids l ≡ₚ l.
Proof. apply merge_sort_Permutation. Qed.

Lemma elem_of_sort_ids l i : i ∈ sort_ids l ↔ i ∈ l.
Proof. by rewrite sort_ids_Permutation. Qed.

Lemma sort_ids_unique l1 l2 : l1 ≡ₚ l2 → Sorted (≤) l2 → sort_ids l1 = l2.
Proof.
  intros Hp Hs. apply (Sorted_unique (≤)).
  - apply Sorted_merge_sort. apply _.
  - done.
  - by rewrite sort_ids_Permutation.
Qed.

#[export] Instance sort_ids_proper : Proper ((≡ₚ) ==> (=)) sort_ids.
Proof.
  intros l1 l2 Hl. apply sort_ids_unique; [by rewrite Hl, sort_ids_Permutation|].
  apply Sorted_merge_sort, _.
Qed.

Lemma option_bind_Some {A B} (x : A) (k : A → option B) : (Some x ≫= k) = k x.
Proof. done. Qed.

Lemma Sorted_sort_ids l : Sorted (≤) (sort_ids l).
Proof. apply Sorted_merge_sort, _. Qed.

Lemma StronglySorted_filter {A} (R : relation A) (P : A → Prop) `{!∀ x, Decision (P x)} l :
  StronglySorted R l → StronglySorted R (filter P l).
Proof.
  induction 1 as [|x l Hl IH Hx]; [constructor|]. rewrite filter_cons.
  case_decide; [|done]. constructor; [done|].
  apply Forall_forall. intros y [_ Hy]%list_elem_of_filter.
  by eapply Forall_forall in Hx.
Qed.

Lemma filter_ext_in {A} (P Q : A → Prop) `{!∀ x, Decision (P x), !∀ x, Decision (Q x)} (l : list A) :
  (∀ x, x ∈ l → P x ↔ Q x) → filter P l = filter Q l.
Proof.
  induction l as [|x l IH]; intros Heq; [done|]. rewrite !filter_cons.
  rewrite IH by (intros; apply Heq; by right).
  destruct (Heq x) as [H1 H2]; [by left|].
  destruct (decide (P x)), (decide (Q x)); naive_solver.
Qed.

Lemma omap_ext_in {A B} (f g : A → option B) (l : list A) :
  (∀ x, x ∈ l → f x = g x) → omap f l = omap g l.
Proof.
  induction l as [|x l IH]; intros Heq; [done|].
  change (omap f (x :: l)) with (match f x with Some y => y :: omap f l | None => omap f l end).
  change (omap g (x :: l)) with (match g x with Some y => y :: omap g l | None => omap g l end).
  rewrite (Heq x) by left. rewrite IH; [done|]. intros. apply Heq. by right.
Qed.

Lemma lookup_snoc_length {A} (l : list A) x : (l ++ [x]) !! length l = Some x.
Proof. by rewrite lookup_app_r, Nat.sub_diag by lia. Qed.

Lemma lookup_snoc_Some {A} (l : list A) x i y :
  (l ++ [x]) !! i = Some y ↔ l !! i = Some y ∨ (i = length l ∧ x = y).
Proof.
  rewrite lookup_app_Some, list_lookup_singleton_Some.
  split; intros [?|[? ?]]; naive_solver lia.
Qed.

(** * Automation *)

Create HintDb fdb.
Create Rewrite HintDb fdb.
#[export] Hint Resolve u64_wrap_ok u64_modulus_pos lookup_snoc_length : fdb.
#[export] Hint Rewrite @lookup_snoc_length @u64_wrap_wrap @length_app : fdb.

(** Split the conjunctions and existentials of the context. *)
Ltac split_hyps := repeat match goal with
  | H : _ ∧ _ |- _ => destruct H
  | H : ∃ _, _ |- _ => destruct H
  end.

(** Invert [outcome_bind m k = Ok b] hypotheses. *)
Ltac inv_outcome := repeat match goal with
  | H : outcome_bind _ _ = Ok _ |- _ => apply outcome_bind_ok in H as (? & ? & ?)
  | H : Ok _ = Ok _ |- _ => injection H as H; subst
  | H : Err _ = Ok _ |- _ => discriminate H
  | H : Panic = Ok _ |- _ => discriminate H
  end.
