(* ===== verification/Ord.v ===== *)
(** Rust's [Ord] trait: three-way comparison with its laws, the derived
    (lexicographic) instances the crates use, and the sorting of lists by such
    an order ([sort_by], [BTreeSet] and [BTreeMap] iteration). *)
From Stdlib Require Import NArith Lia.
From stdpp Require Import sorting base gmap list strings.
From S2P Require Import Prelude.

Class Ord (A : Type) := cmp : A → A → comparison.

Class OrdLaws (A : Type) `{Ord A} := {
  cmp_eq : ∀ x y : A, cmp x y = Eq ↔ x = y;
  cmp_opp : ∀ x y : A, cmp y x = CompOpp (cmp x y);
  cmp_trans : ∀ x y z : A, cmp x y = Lt → cmp y z = Lt → cmp x z = Lt;
}.

(** [Ordering::then]. *)
Definition cmp_then (c d : comparison) : comparison :=
  match c with Eq => d | _ => c end.

Definition ord_le {A} `{Ord A} (x y : A) : Prop := cmp x y ≠ Gt.

#[export] Instance comparison_eq_dec : EqDecision comparison.
Proof. solve_decision. Defined.
#[export] Instance ord_le_dec {A} `{Ord A} : RelDecision (ord_le (A := A)).
Proof. intros x y. unfold ord_le. apply _. Defined.

Section ord_le.
Context {A : Type} `{OrdLaws A}.

Lemma cmp_refl (x : A) : cmp x x = Eq.
Proof. by apply cmp_eq. Qed.

Lemma cmp_gt (x y : A) : cmp x y = Gt ↔ cmp y x = Lt.
Proof. rewrite (cmp_opp x y). destruct (cmp x y); naive_solver. Qed.

#[export] Instance ord_le_total : Total (ord_le (A := A)).
Proof.
  intros x y. unfold ord_le. rewrite (cmp_opp x y).
  destruct (cmp x y); simpl; auto.
Qed.

#[export] Instance ord_le_antisymm : AntiSymm (=) (ord_le (A := A)).
Proof.
  intros x y. unfold ord_le. rewrite (cmp_opp x y).
  destruct (cmp x y) eqn:E; simpl; try done. intros _ _. by apply cmp_eq.
Qed.

#[export] Instance ord_le_trans : Transitive (ord_le (A := A)).
Proof.
  intros x y z. unfold ord_le.
  destruct (cmp x y) eqn:E1; [apply cmp_eq in E1 as ->; done| |done].
  destruct (cmp y z) eqn:E2; [apply cmp_eq in E2 as ->; congruence| |done].
  by rewrite (cmp_trans x y z).
Qed.
End ord_le.

(** Stable [sort_by]; for an antisymmetric order the result is the only sorted
    permutation, so stability does not show. *)
Definition ord_sort {A} `{Ord A} (l : list A) : list A := merge_sort ord_le l.

Lemma ord_sort_Permutation {A} `{Ord A} (l : list A) : ord_sort l ≡ₚ l.
Proof. apply merge_sort_Permutation. Qed.

Lemma elem_of_ord_sort {A} `{Ord A} (l : list A) x : x ∈ ord_sort l ↔ x ∈ l.
Proof. by rewrite ord_sort_Permutation. Qed.

Lemma ord_sort_unique {A} `{OrdLaws A} (l1 l2 : list A) :
  l1 ≡ₚ l2 → ord_sort l1 = ord_sort l2.
Proof.
  intros Hp. apply (Sorted_unique ord_le).
  - apply Sorted_merge_sort, _.
  - apply Sorted_merge_sort, _.
  - by rewrite !ord_sort_Permutation.
Qed.

(** ** Instances *)

#[export] Instance N_ord : Ord N := N.compare.
#[export] Instance string_ord : Ord string := String.compare.
#[export] Instance prod_ord {A B} `{Ord A, Ord B} : Ord (A * B) := λ x y,
  cmp_then (cmp x.1 y.1) (cmp x.2 y.2).

Fixpoint list_cmp {A} `{Ord A} (l1 l2 : list A) : comparison :=
  match l1, l2 with
  | [], [] => Eq
  | [], _ :: _ => Lt
  | _ :: _, [] => Gt
  | x :: l1, y :: l2 => cmp_then (cmp x y) (list_cmp l1 l2)
  end.
#[export] Instance list_ord {A} `{Ord A} : Ord (list A) := list_cmp.

#[export] Instance N_ord_laws : OrdLaws N.
Proof.
  split; unfold cmp, N_ord.
  - apply N.compare_eq_iff.
  - intros x y. apply N.compare_antisym.
  - intros x y z. rewrite !N.compare_lt_iff. lia.
Qed.

#[export] Instance string_ord_laws : OrdLaws string.
Proof.
  assert (∀ x, String.compare x x = Eq) as Hrefl.
  { intros x. pose proof (reflexivity x : String.le x x) as Hx.
    unfold String.le, String.leb in Hx.
    pose proof (String.compare_antisym x x) as Ha.
    destruct (String.compare x x); done. }
  split; unfold cmp, string_ord.
  - intros x y; split; [apply String.compare_eq_iff|by intros ->].
  - intros x y. apply String.compare_antisym.
  - intros x y z Hxy Hyz.
    assert (String.le x z) as Hle.
    { etrans; [instantiate (1 := y)|]; unfold String.le, String.leb;
        [by rewrite Hxy|by rewrite Hyz]. }
    unfold String.le, String.leb in Hle.
    destruct (String.compare x z) eqn:E; [|done|done].
    apply String.compare_eq_iff in E as ->.
    rewrite String.compare_antisym, Hyz in Hxy. done.
Qed.

Lemma cmp_then_opp c d : cmp_then (CompOpp c) (CompOpp d) = CompOpp (cmp_then c d).
Proof. by destruct c. Qed.

Lemma prod_cmp {A B} `{Ord A, Ord B} (x1 y1 : A) (x2 y2 : B) :
  cmp (x1, x2) (y1, y2) = cmp_then (cmp x1 y1) (cmp x2 y2).
Proof. done. Qed.

#[export] Instance prod_ord_laws {A B} `{OrdLaws A, OrdLaws B} : OrdLaws (A * B).
Proof.
  split.
  - intros [x1 x2] [y1 y2]. rewrite prod_cmp. split.
    + destruct (cmp x1 y1) eqn:E; simpl; try done.
      intros E2. apply cmp_eq in E, E2. by subst.
    + intros [= -> ->]. by rewrite !cmp_refl.
  - intros [x1 x2] [y1 y2]. rewrite !prod_cmp.
    by rewrite (cmp_opp x1 y1), (cmp_opp x2 y2), cmp_then_opp.
  - intros [x1 x2] [y1 y2] [z1 z2]. rewrite !prod_cmp.
    destruct (cmp x1 y1) eqn:E1; simpl; try done.
    + apply cmp_eq in E1 as ->. destruct (cmp y1 z1) eqn:E2; simpl; try done.
      apply cmp_trans.
    + intros _. destruct (cmp y1 z1) eqn:E2; simpl; try done.
      * apply cmp_eq in E2 as ->. by rewrite E1.
      * by rewrite (cmp_trans x1 y1 z1).
Qed.

#[export] Instance list_ord_laws {A} `{OrdLaws A} : OrdLaws (list A).
Proof.
  split; unfold cmp, list_ord.
  - intros x. induction x as [|a x IH]; intros [|b y]; simpl; try done.
    split.
    + destruct (cmp a b) eqn:E; simpl; try done.
      intros E2%IH. apply cmp_eq in E. by subst.
    + intros [= -> ->]. rewrite cmp_refl. by apply IH.
  - intros x. induction x as [|a x IH]; intros [|b y]; simpl; try done.
    by rewrite IH, (cmp_opp a b), cmp_then_opp.
  - intros x. induction x as [|a x IH]; intros [|b y] [|c z]; simpl; try done.
    destruct (cmp a b) eqn:E1; simpl; try done.
    + apply cmp_eq in E1 as ->. destruct (cmp b c); simpl; try done. apply IH.
    + intros _. destruct (cmp b c) eqn:E2; simpl; try done.
      * apply cmp_eq in E2 as ->. by rewrite E1.
      * by rewrite (cmp_trans a b c).
Qed.

(** An order pulled back along an injection (a derived [Ord] on a newtype). *)
Lemma ord_laws_inj {A B} `{Ord A} `{OrdLaws B} (f : A → B) `{!Inj (=) (=) f} :
  (∀ x y, cmp x y = cmp (f x) (f y)) → OrdLaws A.
Proof.
  intros Hf. split.
  - intros x y. rewrite Hf, cmp_eq. split; [apply (inj f)|by intros ->].
  - intros x y. by rewrite !Hf, (cmp_opp (f x) (f y)).
  - intros x y z. rewrite !Hf. apply cmp_trans.
Qed.
