(* ===== verification/Terms.v ===== *)
(** The vocabulary of the kernel: identifiers, atoms, facts, patterns, bound
    values and log records (forthdb-core/src/lib.rs, lines 5-273), with the
    equality, ordering and countability the crates derive. *)
From Stdlib Require Import NArith Lia Ascii.
From stdpp Require Import base list gmap strings pretty countable.
From S2P Require Import Prelude Ord.
Local Open Scope string_scope.

(** ** Newtypes *)

Record EntityId := EntityId_new { entity_value : N }.
Record SlotId := SlotId_new { slot_str : string }.
Record Literal := Literal_new { literal_str : string }.
Record Predicate := Predicate_new { predicate_str : string }.
Record Symbol := Symbol_new { symbol_str : string }.
Record QVariable := QVariable_mk { variable_str : string }.
Record InvalidVariable := InvalidVariable_mk { invalid_variable_str : string }.

(** [RecordId(usize)]: the position of a record in the log. *)
Abbreviation RecordId := nat (only parsing).

(** [value.starts_with('?')]. *)
Definition starts_with_question (s : string) : bool :=
  match s with
  | String c _ => bool_decide (c = "?"%char)
  | EmptyString => false
  end.

Definition QVariable_new (value : string) : outcome InvalidVariable QVariable :=
  if bool_decide (value = "") || starts_with_question value
  then Err (InvalidVariable_mk value)
  else Ok (QVariable_mk value).

(** ** Sum types *)

Inductive Atom :=
| AEntity (e : EntityId)
| ALiteral (l : Literal).

Inductive Term :=
| TAtom (a : Atom)
| TVariable (v : QVariable).

Inductive PredicateTerm :=
| PPredicate (p : Predicate)
| PVariable (v : QVariable).

Inductive SourceTerm :=
| SAtom (a : Atom)
| SVariable (v : QVariable)
| SSymbol (s : Symbol).

Record Fact := Fact_new {
  fact_subject : Atom;
  fact_predicate : Predicate;
  fact_object : Atom;
}.

Record Pattern := Pattern_new {
  pat_subject : Term;
  pat_predicate : PredicateTerm;
  pat_object : Term;
}.

Inductive BoundValue :=
| BEntity (e : EntityId)
| BLiteral (l : Literal)
| BPredicate (p : Predicate).

(** [impl From<Atom> for BoundValue]. *)
Definition BoundValue_from (a : Atom) : BoundValue :=
  match a with
  | AEntity e => BEntity e
  | ALiteral l => BLiteral l
  end.

Definition as_atom (v : BoundValue) : option Atom :=
  match v with
  | BEntity e => Some (AEntity e)
  | BLiteral l => Some (ALiteral l)
  | BPredicate _ => None
  end.

Definition as_predicate (v : BoundValue) : option Predicate :=
  match v with
  | BPredicate p => Some p
  | BEntity _ | BLiteral _ => None
  end.

Inductive RecordKind := Define | Forget.

Definition RecordKind_as_str (k : RecordKind) : string :=
  match k with
  | Define => "define"
  | Forget => "forget"
  end.

Record LogRecord := LogRecord_mk {
  rec_id : RecordId;
  rec_kind : RecordKind;
  rec_slot : SlotId;
  rec_fact : option Fact;
  rec_previous_head : option RecordId;
  rec_resulting_head : option RecordId;
}.

(** [impl Display for EntityId]: the decimal value after a fixed prefix. *)
Definition EntityId_display (e : EntityId) : string := "Entity_" +:+ pretty (entity_value e).

(** [impl Display for Variable]. *)
Definition QVariable_display (v : QVariable) : string := "?" +:+ variable_str v.

(** ** Decidable equality *)

#[export] Instance EntityId_eq_dec : EqDecision EntityId.
Proof. solve_decision. Defined.
#[export] Instance SlotId_eq_dec : EqDecision SlotId.
Proof. solve_decision. Defined.
#[export] Instance Literal_eq_dec : EqDecision Literal.
Proof. solve_decision. Defined.
#[export] Instance Predicate_eq_dec : EqDecision Predicate.
Proof. solve_decision. Defined.
#[export] Instance Symbol_eq_dec : EqDecision Symbol.
Proof. solve_decision. Defined.
#[export] Instance Variable_eq_dec : EqDecision QVariable.
Proof. solve_decision. Defined.
#[export] Instance Atom_eq_dec : EqDecision Atom.
Proof. solve_decision. Defined.
#[export] Instance Term_eq_dec : EqDecision Term.
Proof. solve_decision. Defined.
#[export] Instance PredicateTerm_eq_dec : EqDecision PredicateTerm.
Proof. solve_decision. Defined.
#[export] Instance Fact_eq_dec : EqDecision Fact.
Proof. solve_decision. Defined.
#[export] Instance Pattern_eq_dec : EqDecision Pattern.
Proof. solve_decision. Defined.
#[export] Instance BoundValue_eq_dec : EqDecision BoundValue.
Proof. solve_decision. Defined.
#[export] Instance RecordKind_eq_dec : EqDecision RecordKind.
Proof. solve_decision. Defined.
#[export] Instance LogRecord_eq_dec : EqDecision LogRecord.
Proof. solve_decision. Defined.

(** ** Countability (keys of the finite maps) *)

#[export] Instance EntityId_countable : Countable EntityId.
Proof. by apply (inj_countable' entity_value EntityId_new); intros []. Defined.
#[export] Instance SlotId_countable : Countable SlotId.
Proof. by apply (inj_countable' slot_str SlotId_new); intros []. Defined.
#[export] Instance Literal_countable : Countable Literal.
Proof. by apply (inj_countable' literal_str Literal_new); intros []. Defined.
#[export] Instance Predicate_countable : Countable Predicate.
Proof. by apply (inj_countable' predicate_str Predicate_new); intros []. Defined.

Definition atom_to_sum (a : Atom) : EntityId + Literal :=
  match a with AEntity e => inl e | ALiteral l => inr l end.
Definition atom_of_sum (s : EntityId + Literal) : Atom :=
  match s with inl e => AEntity e | inr l => ALiteral l end.

#[export] Instance Atom_countable : Countable Atom.
Proof. by apply (inj_countable' atom_to_sum atom_of_sum); intros []. Defined.

Definition fact_to_tuple (f : Fact) : Atom * Predicate * Atom :=
  (fact_subject f, fact_predicate f, fact_object f).
Definition fact_of_tuple (t : Atom * Predicate * Atom) : Fact :=
  Fact_new t.1.1 t.1.2 t.2.

#[export] Instance Fact_countable : Countable Fact.
Proof. by apply (inj_countable' fact_to_tuple fact_of_tuple); intros []. Defined.

(** ** Derived [Ord]: variants in declaration order, then their contents *)

Definition bound_value_key (v : BoundValue) : N * N * string :=
  match v with
  | BEntity e => (0%N, entity_value e, "")
  | BLiteral l => (1%N, 0%N, literal_str l)
  | BPredicate p => (2%N, 0%N, predicate_str p)
  end.

#[export] Instance BoundValue_ord : Ord BoundValue := λ x y,
  cmp (bound_value_key x) (bound_value_key y).
#[export] Instance SlotId_ord : Ord SlotId := λ x y, cmp (slot_str x) (slot_str y).
#[export] Instance Predicate_ord : Ord Predicate := λ x y, cmp (predicate_str x) (predicate_str y).
#[export] Instance Literal_ord : Ord Literal := λ x y, cmp (literal_str x) (literal_str y).

#[export] Instance bound_value_key_inj : Inj (=) (=) bound_value_key.
Proof. intros [[]|[]|[]] [[]|[]|[]] [=]; by subst. Qed.
#[export] Instance slot_str_inj : Inj (=) (=) slot_str.
Proof. intros [] [] [=]; by subst. Qed.
#[export] Instance predicate_str_inj : Inj (=) (=) predicate_str.
Proof. intros [] [] [=]; by subst. Qed.
#[export] Instance literal_str_inj : Inj (=) (=) literal_str.
Proof. intros [] [] [=]; by subst. Qed.

#[export] Instance BoundValue_ord_laws : OrdLaws BoundValue.
Proof. by apply (ord_laws_inj bound_value_key). Qed.
#[export] Instance SlotId_ord_laws : OrdLaws SlotId.
Proof. by apply (ord_laws_inj slot_str). Qed.
#[export] Instance Predicate_ord_laws : OrdLaws Predicate.
Proof. by apply (ord_laws_inj predicate_str). Qed.
#[export] Instance Literal_ord_laws : OrdLaws Literal.
Proof. by apply (ord_laws_inj literal_str). Qed.

(** ** Lemmas *)

#[export] Instance BoundValue_from_inj : Inj (=) (=) BoundValue_from.
Proof. intros [] [] [=]; by subst. Qed.

Lemma as_atom_from a : as_atom (BoundValue_from a) = Some a.
Proof. by destruct a. Qed.

Lemma as_atom_Some v a : as_atom v = Some a ↔ v = BoundValue_from a.
Proof. destruct v, a; simpl; naive_solver. Qed.

Lemma as_predicate_Some v p : as_predicate v = Some p ↔ v = BPredicate p.
Proof. destruct v; simpl; naive_solver. Qed.

#[export] Hint Rewrite as_atom_from : fdb.

(** [Variable::new] accepts exactly the nonempty names without a leading
    question mark, and keeps the name. *)
Lemma QVariable_new_ok s v :
  QVariable_new s = Ok v ↔
  v = QVariable_mk s ∧ s ≠ "" ∧ starts_with_question s = false.
Proof.
  unfold QVariable_new. case_bool_decide as E; simpl; [naive_solver|].
  destruct (starts_with_question s); naive_solver.
Qed.
