(* ===== verification/Query.v ===== *)
(** Pattern queries (forthdb-core/src/lib.rs, lines 521-567 and 722-930).

    The three query engines of the repository (the legacy kernel, the
    structurally shared kernel and the query projection of VM-backed worlds)
    run the same walker over different index structures.  The walker is
    defined here once over the two operations it uses, [candidates] and
    [entry]; each engine instantiates it with its own.

    [QuerySource] is the interface between the walker and an engine: the
    candidates of a pattern are exactly the active entries that agree with the
    positions the binding resolves, in record order.  Under that contract every
    engine computes [spec_query] of its active entries, and [spec_query] is
    proved sound and complete for the declarative [solution]s of a query. *)
From Stdlib Require Import NArith Lia.
From stdpp Require Import sorting base gmap list strings fin_maps fin_map_dom option list_monad.
From S2P Require Import Prelude Ord Terms.

(** [BTreeMap<String, BoundValue>]: extensional lookup, ordered iteration. *)
Abbreviation Binding := (gmap string BoundValue) (only parsing).

Definition binding_entries (b : Binding) : list (string * BoundValue) :=
  ord_sort (map_to_list b).

Record QueryMetrics := QueryMetrics_mk {
  candidate_facts : N;
  bindings_emitted : N;
}.

Definition QueryMetrics_default : QueryMetrics := QueryMetrics_mk 0 0.

Record QueryRow := QueryRow_mk {
  row_binding : Binding;
  row_provenance : list SlotId;
}.

Record QueryResult := QueryResult_mk {
  result_rows : list QueryRow;
  chosen_first_path : list Pattern;
  result_metrics : QueryMetrics;
}.

Record QueryOptions := QueryOptions_mk {
  opt_optimize : bool;
  opt_distinct : bool;
  opt_include_provenance : bool;
  opt_limit : option nat;
}.

Definition QueryOptions_default : QueryOptions := QueryOptions_mk true true false None.

(** [Frame] of the legacy kernel, [QueryFrame] of the other engines. *)
Record QueryFrame := QueryFrame_mk {
  frame_binding : Binding;
  frame_provenance : list SlotId;
}.

#[export] Instance QueryFrame_eq_dec : EqDecision QueryFrame.
Proof. solve_decision. Defined.

(** ** Resolution and unification *)

Definition resolved_atom (term : Term) (binding : Binding) : option Atom :=
  match term with
  | TAtom atom => Some atom
  | TVariable v => binding !! variable_str v ≫= as_atom
  end.

Definition resolved_predicate (term : PredicateTerm) (binding : Binding) : option Predicate :=
  match term with
  | PPredicate p => Some p
  | PVariable v => binding !! variable_str v ≫= as_predicate
  end.

Definition unify_variable (v : QVariable) (value : BoundValue) (binding : Binding) : option Binding :=
  match binding !! variable_str v with
  | Some existing => if decide (existing = value) then Some binding else None
  | None => Some (<[variable_str v := value]> binding)
  end.

Definition unify_term (term : Term) (value : BoundValue) (binding : Binding) : option Binding :=
  match term with
  | TAtom atom => if decide (as_atom value = Some atom) then Some binding else None
  | TVariable v => unify_variable v value binding
  end.

Definition unify_predicate (term : PredicateTerm) (value : BoundValue) (binding : Binding) :
    option Binding :=
  match term with
  | PPredicate p => if decide (as_predicate value = Some p) then Some binding else None
  | PVariable v => unify_variable v value binding
  end.

Definition unify_pattern (p : Pattern) (f : Fact) (binding : Binding) : option Binding :=
  binding ← unify_term (pat_subject p) (BoundValue_from (fact_subject f)) binding;
  binding ← unify_predicate (pat_predicate p) (BPredicate (fact_predicate f)) binding;
  unify_term (pat_object p) (BoundValue_from (fact_object f)) binding.

(** ** Ordering and deduplication of the output *)

Definition frame_key (f : QueryFrame) : list (string * BoundValue) * list SlotId :=
  (binding_entries (frame_binding f), frame_provenance f).

#[export] Instance QueryFrame_ord : Ord QueryFrame := λ x y, cmp (frame_key x) (frame_key y).

(** [output.retain(|frame| seen.insert(frame.binding.clone()))]. *)
Fixpoint retain_distinct (seen : list Binding) (l : list QueryFrame) : list QueryFrame :=
  match l with
  | [] => []
  | f :: l =>
      if decide (frame_binding f ∈ seen) then retain_distinct seen l
      else f :: retain_distinct (frame_binding f :: seen) l
  end.

(** ** The walker *)

Record walk_state := WalkState {
  ws_output : list QueryFrame;
  ws_first_path : list Pattern;
  ws_metrics : QueryMetrics;
}.

Definition ws_push (f : QueryFrame) (st : walk_state) : walk_state :=
  WalkState (ws_output st ++ [f]) (ws_first_path st) (ws_metrics st).

Definition ws_choose (depth : nat) (p : Pattern) (st : walk_state) : walk_state :=
  if decide (depth = length (ws_first_path st))
  then WalkState (ws_output st) (ws_first_path st ++ [p]) (ws_metrics st)
  else st.

Definition ws_count_candidates (n : nat) (st : walk_state) : walk_state :=
  WalkState (ws_output st) (ws_first_path st)
    (QueryMetrics_mk (u64_add (candidate_facts (ws_metrics st)) (usize_of n))
       (bindings_emitted (ws_metrics st))).

Definition ws_count_binding (st : walk_state) : walk_state :=
  WalkState (ws_output st) (ws_first_path st)
    (QueryMetrics_mk (candidate_facts (ws_metrics st))
       (u64_add (bindings_emitted (ws_metrics st)) 1)).

Definition limit_reached (options : QueryOptions) (st : walk_state) : bool :=
  match opt_limit options with
  | Some limit => limit <=? length (ws_output st)
  | None => false
  end.

Section walker.
(** [None]: an index structure panicked. *)
Context (candidates : Pattern → Binding → option (list nat)).
Context (entry : nat → option (SlotId * Fact)).

(** The body of [for record_id in candidates]: [None] is the panic of a
    record that is missing or has no fact. *)
Fixpoint walk_candidates (walk : QueryFrame → walk_state → option (walk_state * bool))
    (chosen : Pattern) (frame : QueryFrame) (ids : list nat) (st : walk_state) :
    option (walk_state * bool) :=
  match ids with
  | [] => Some (st, false)
  | id :: ids =>
      '(slot, fact) ← entry id;
      match unify_pattern chosen fact (frame_binding frame) with
      | Some binding =>
          let frame' := QueryFrame_mk binding (frame_provenance frame ++ [slot]) in
          '(st', stop) ← walk frame' (ws_count_binding st);
          if (stop : bool) then Some (st', true)
          else walk_candidates walk chosen frame ids st'
      | None => walk_candidates walk chosen frame ids st
      end
  end.

Definition choose_index (options : QueryOptions) (frame : QueryFrame)
    (remaining : list Pattern) : option nat :=
  if opt_optimize options
  then keys ← mapM (λ p, length <$> candidates p (frame_binding frame)) remaining;
       Some (min_by_key_index id keys)
  else Some 0.

(** [fuel] is the number of remaining patterns; it decreases with them. *)
Fixpoint walk_query (fuel : nat) (options : QueryOptions) (frame : QueryFrame)
    (remaining : list Pattern) (depth : nat) (st : walk_state) : option (walk_state * bool) :=
  match remaining with
  | [] => let st := ws_push frame st in Some (st, limit_reached options st)
  | _ :: _ =>
      match fuel with
      | 0 => None
      | S fuel =>
          index ← choose_index options frame remaining;
          chosen ← remaining !! index;
          let st := ws_choose depth chosen st in
          let rest := delete index remaining in
          ids ← candidates chosen (frame_binding frame);
          let st := ws_count_candidates (length ids) st in
          walk_candidates
            (λ frame' st', walk_query fuel options frame' rest (S depth) st')
            chosen frame ids st
      end
  end.

Definition empty_frame : QueryFrame := QueryFrame_mk ∅ [].
Definition empty_state : walk_state := WalkState [] [] QueryMetrics_default.

Definition finish_query (options : QueryOptions) (st : walk_state) : QueryResult :=
  let output := ws_output st in
  let output := if opt_distinct options then retain_distinct [] output else output in
  let output := ord_sort output in
  let row f := QueryRow_mk (frame_binding f)
    (if opt_include_provenance options then frame_provenance f else []) in
  QueryResult_mk (row <$> output) (ws_first_path st) (ws_metrics st).

Definition query (patterns : list Pattern) (options : QueryOptions) : option QueryResult :=
  '(st, _) ← walk_query (length patterns) options empty_frame patterns 0 empty_state;
  Some (finish_query options st).
End walker.

(** ** The contract of an index structure *)

(** A fact agrees with the positions of a pattern that a binding resolves. *)
Definition cand_match (p : Pattern) (b : Binding) (f : Fact) : Prop :=
  (∀ a, resolved_atom (pat_subject p) b = Some a → fact_subject f = a) ∧
  (∀ q, resolved_predicate (pat_predicate p) b = Some q → fact_predicate f = q) ∧
  (∀ a, resolved_atom (pat_object p) b = Some a → fact_object f = a).

Definition agrees {A} `{EqDecision A} (o : option A) (x : A) : bool :=
  match o with Some a => bool_decide (x = a) | None => true end.

Definition cand_matchb (p : Pattern) (b : Binding) (f : Fact) : bool :=
  agrees (resolved_atom (pat_subject p) b) (fact_subject f) &&
  agrees (resolved_predicate (pat_predicate p) b) (fact_predicate f) &&
  agrees (resolved_atom (pat_object p) b) (fact_object f).

Definition spec_candidates (entries : list (SlotId * Fact)) (p : Pattern) (b : Binding) :
    list (SlotId * Fact) :=
  filter (λ e, cand_matchb p b e.2 = true) entries.

Class QuerySource (candidates : Pattern → Binding → option (list nat))
    (entry : nat → option (SlotId * Fact)) (entries : list (SlotId * Fact)) : Prop :=
  query_source p b : (candidates p b ≫= mapM entry) = Some (spec_candidates entries p b).

(** ** The specification walker: the same search over lists of entries

    [cands] says which entries are tried for a pattern under a binding, and in
    which order. *)

Section cand.
Context (cands : Pattern → Binding → list (SlotId * Fact)).

Fixpoint cand_walk_entries (walk : QueryFrame → walk_state → walk_state * bool)
    (chosen : Pattern) (frame : QueryFrame) (es : list (SlotId * Fact)) (st : walk_state) :
    walk_state * bool :=
  match es with
  | [] => (st, false)
  | (slot, fact) :: es =>
      match unify_pattern chosen fact (frame_binding frame) with
      | Some binding =>
          let '(st', stop) := walk (QueryFrame_mk binding (frame_provenance frame ++ [slot]))
            (ws_count_binding st) in
          if (stop : bool) then (st', true)
          else cand_walk_entries walk chosen frame es st'
      | None => cand_walk_entries walk chosen frame es st
      end
  end.

Definition cand_choose_index (options : QueryOptions) (frame : QueryFrame)
    (remaining : list Pattern) : nat :=
  if opt_optimize options
  then min_by_key_index (λ p, length (cands p (frame_binding frame))) remaining
  else 0.

Fixpoint cand_walk (fuel : nat) (options : QueryOptions) (frame : QueryFrame)
    (remaining : list Pattern) (depth : nat) (st : walk_state) : walk_state * bool :=
  match remaining, fuel with
  | [], _ => let st := ws_push frame st in (st, limit_reached options st)
  | _ :: _, 0 => (st, false)
  | _ :: _, S fuel =>
      let index := cand_choose_index options frame remaining in
      match remaining !! index with
      | None => (st, false)
      | Some chosen =>
          let es := cands chosen (frame_binding frame) in
          cand_walk_entries
            (λ frame' st', cand_walk fuel options frame' (delete index remaining) (S depth) st')
            chosen frame es (ws_count_candidates (length es) (ws_choose depth chosen st))
      end
  end.

Definition cand_query (patterns : list Pattern) (options : QueryOptions) : QueryResult :=
  finish_query options
    (cand_walk (length patterns) options empty_frame patterns 0 empty_state).1.

(** The frames of the search in the order it emits them, no limit applied. *)
Fixpoint frames_of (fuel : nat) (options : QueryOptions) (frame : QueryFrame)
    (remaining : list Pattern) : list QueryFrame :=
  match remaining, fuel with
  | [], _ => [frame]
  | _ :: _, 0 => []
  | _ :: _, S fuel =>
      let index := cand_choose_index options frame remaining in
      match remaining !! index with
      | None => []
      | Some chosen =>
          '(slot, fact) ← cands chosen (frame_binding frame);
          match unify_pattern chosen fact (frame_binding frame) with
          | Some binding =>
              frames_of fuel options (QueryFrame_mk binding (frame_provenance frame ++ [slot]))
                (delete index remaining)
          | None => []
          end
      end
  end.

Definition all_frames (options : QueryOptions) (patterns : list Pattern) : list QueryFrame :=
  frames_of (length patterns) options empty_frame patterns.
End cand.

(** What every engine computes: the candidates are the active entries that
    agree with the resolved positions, in record order. *)
Definition spec_query (entries : list (SlotId * Fact)) : list Pattern → QueryOptions → QueryResult :=
  cand_query (spec_candidates entries).

(** ** Declarative meaning *)

Definition term_holds (b : Binding) (t : Term) (v : BoundValue) : Prop :=
  match t with
  | TAtom a => v = BoundValue_from a
  | TVariable x => b !! variable_str x = Some v
  end.

Definition predicate_holds (b : Binding) (t : PredicateTerm) (v : BoundValue) : Prop :=
  match t with
  | PPredicate p => v = BPredicate p
  | PVariable x => b !! variable_str x = Some v
  end.

Definition pattern_holds (b : Binding) (p : Pattern) (f : Fact) : Prop :=
  term_holds b (pat_subject p) (BoundValue_from (fact_subject f)) ∧
  predicate_holds b (pat_predicate p) (BPredicate (fact_predicate f)) ∧
  term_holds b (pat_object p) (BoundValue_from (fact_object f)).

Definition term_vars (t : Term) : gset string :=
  match t with TAtom _ => ∅ | TVariable x => {[variable_str x]} end.
Definition predicate_vars (t : PredicateTerm) : gset string :=
  match t with PPredicate _ => ∅ | PVariable x => {[variable_str x]} end.
Definition pattern_vars (p : Pattern) : gset string :=
  term_vars (pat_subject p) ∪ predicate_vars (pat_predicate p) ∪ term_vars (pat_object p).
Definition patterns_vars (ps : list Pattern) : gset string := ⋃ (pattern_vars <$> ps).

(** A binding answers a query when it binds exactly the query's variables and
    makes every pattern an active fact. *)
Definition solution (entries : list (SlotId * Fact)) (ps : list Pattern) (b : Binding) : Prop :=
  dom b = patterns_vars ps ∧
  ∀ p, p ∈ ps → ∃ e, e ∈ entries ∧ pattern_holds b p e.2.
