(* ===== verification/QueryFacts.v ===== *)
(** Lemmas on the query walker: every engine that meets the [QuerySource]
    contract computes [spec_query]; [spec_query] is sound and complete for
    [solution]; a limit cuts the search to a prefix; for distinct queries the
    join order does not show in the rows. *)
From Stdlib Require Import NArith Lia.
From stdpp Require Import sorting base gmap list strings fin_maps fin_map_dom option list_monad.
From S2P Require Import Prelude Ord Terms Query.

(** The index of the chosen pattern is in range, whatever the candidates. *)
Lemma choose_index_bound cands options frame p ps :
  cand_choose_index cands options frame (p :: ps) < length (p :: ps).
Proof.
  unfold cand_choose_index. destruct (opt_optimize options); [|simpl; lia].
  by apply min_by_key_index_bound.
Qed.

(** ** Engines that meet the contract compute [spec_query] *)

Section source.
Context (candidates : Pattern → Binding → option (list nat)).
Context (entry : nat → option (SlotId * Fact)) (entries : list (SlotId * Fact)).
Context `{!QuerySource candidates entry entries}.

Lemma candidates_source p b :
  ∃ ids, candidates p b = Some ids ∧ mapM entry ids = Some (spec_candidates entries p b) ∧
    length ids = length (spec_candidates entries p b).
Proof.
  pose proof (query_source p b) as H. apply bind_Some in H as (ids & Hc & Hm).
  exists ids. split_and!; [done..|]. by apply length_mapM in Hm.
Qed.

Lemma walk_candidates_spec walk swalk chosen frame ids es st :
  (∀ f s, walk f s = Some (swalk f s)) →
  mapM entry ids = Some es →
  walk_candidates entry walk chosen frame ids st =
  Some (cand_walk_entries swalk chosen frame es st).
Proof.
  intros Hwalk. revert es st.
  induction ids as [|id ids IH]; intros es st Hm; [by injection Hm as <-|].
  cbn in Hm. apply bind_Some in Hm as ([slot fact] & He & Hm).
  apply bind_Some in Hm as (es' & Hes & [= <-]). simpl. rewrite He. simpl.
  destruct (unify_pattern _ _ _); simpl; [|by apply IH].
  rewrite Hwalk. simpl. destruct (swalk _ _) as [st' []]; [done|by apply IH].
Qed.

Lemma choose_index_spec options frame remaining :
  choose_index candidates options frame remaining =
  Some (cand_choose_index (spec_candidates entries) options frame remaining).
Proof.
  unfold choose_index, cand_choose_index. destruct (opt_optimize options); [|done].
  assert (mapM (λ p, length <$> candidates p (frame_binding frame)) remaining =
    Some ((λ p, length (spec_candidates entries p (frame_binding frame))) <$> remaining)) as ->.
  { induction remaining as [|p ps IH]; [done|]. simpl.
    destruct (candidates_source p (frame_binding frame)) as (ids & -> & _ & Hl). simpl.
    by rewrite IH, Hl. }
  simpl. by rewrite min_by_key_index_fmap.
Qed.

Lemma walk_query_spec fuel options frame remaining depth st :
  length remaining ≤ fuel →
  walk_query candidates entry fuel options frame remaining depth st =
  Some (cand_walk (spec_candidates entries) fuel options frame remaining depth st).
Proof.
  revert frame remaining depth st.
  induction fuel as [|fuel IH]; intros frame [|p ps] depth st Hlen; try done.
  { simpl in Hlen. lia. }
  cbn [walk_query cand_walk]. rewrite choose_index_spec.
  pose proof (choose_index_bound (spec_candidates entries) options frame p ps) as Hb.
  destruct (lookup_lt_is_Some_2 _ _ Hb) as [chosen Hc].
  destruct (candidates_source chosen (frame_binding frame)) as (ids & Hids & Hm & Hl).
  cbn [mbind option_bind]. rewrite Hc. cbn [mbind option_bind]. rewrite Hids.
  cbn [mbind option_bind]. rewrite Hl.
  apply walk_candidates_spec; [|done].
  intros f s. apply IH. rewrite length_delete by eauto. simpl in *. lia.
Qed.

Lemma query_spec patterns options :
  query candidates entry patterns options = Some (spec_query entries patterns options).
Proof.
  unfold query, spec_query, cand_query. rewrite walk_query_spec by done. simpl.
  by destruct (cand_walk _ _ _ _ _ _ _).
Qed.
End source.

(** ** Unification *)

Lemma unify_variable_Some x v b b' :
  unify_variable x v b = Some b' ↔
  b ⊆ b' ∧ b' !! variable_str x = Some v ∧ dom b' = dom b ∪ {[variable_str x]}.
Proof.
  unfold unify_variable. destruct (b !! variable_str x) as [w|] eqn:Hx.
  - assert (variable_str x ∈ dom b) by (apply elem_of_dom; eauto).
    case_decide; subst; split.
    + intros [= <-]. repeat split; [done|done|set_solver].
    + intros (Hsub & Hv & Hdom). f_equal. apply map_eq. intros k.
      destruct (b !! k) as [u|] eqn:Hk; [symmetry; by eapply lookup_weaken|].
      symmetry. apply not_elem_of_dom. rewrite Hdom.
      apply not_elem_of_dom in Hk. set_solver.
    + done.
    + intros (Hsub & Hv & _). eapply lookup_weaken in Hx; [|done]. congruence.
  - split.
    + intros [= <-]. repeat split.
      * by apply insert_subseteq.
      * by rewrite lookup_insert_eq.
      * rewrite dom_insert_L. set_solver.
    + intros (Hsub & Hv & Hdom). f_equal. apply map_eq. intros k.
      destruct (decide (k = variable_str x)) as [->|Hne]; [by rewrite lookup_insert_eq|].
      rewrite lookup_insert_ne by done.
      destruct (b !! k) as [u|] eqn:Hk; [symmetry; by eapply lookup_weaken|].
      symmetry. apply not_elem_of_dom. rewrite Hdom.
      apply not_elem_of_dom in Hk. set_solver.
Qed.

(** A binding and an extension of it with the same domain are equal. *)
Lemma binding_eq (b b' : Binding) : b ⊆ b' → dom b' = dom b → b = b'.
Proof.
  intros Hsub Hdom. apply map_eq. intros k.
  destruct (b !! k) as [u|] eqn:Hk; [symmetry; by eapply lookup_weaken|].
  symmetry. apply not_elem_of_dom. rewrite Hdom. by apply not_elem_of_dom.
Qed.

Lemma unify_term_Some t v b b' :
  unify_term t v b = Some b' ↔ b ⊆ b' ∧ term_holds b' t v ∧ dom b' = dom b ∪ term_vars t.
Proof.
  destruct t as [a|x]; simpl; [|apply unify_variable_Some].
  case_decide as Ha; rewrite as_atom_Some in Ha; split.
  - intros [= <-]. set_solver.
  - intros (Hsub & _ & Hdom). f_equal. apply binding_eq; [done|set_solver].
  - done.
  - naive_solver.
Qed.

Lemma unify_predicate_Some t v b b' :
  unify_predicate t v b = Some b' ↔
  b ⊆ b' ∧ predicate_holds b' t v ∧ dom b' = dom b ∪ predicate_vars t.
Proof.
  destruct t as [a|x]; simpl; [|apply unify_variable_Some].
  case_decide as Ha; rewrite as_predicate_Some in Ha; split.
  - intros [= <-]. set_solver.
  - intros (Hsub & _ & Hdom). f_equal. apply binding_eq; [done|set_solver].
  - done.
  - naive_solver.
Qed.

Lemma term_holds_mono b b' t v : b ⊆ b' → term_holds b t v → term_holds b' t v.
Proof. destruct t; simpl; eauto using lookup_weaken. Qed.
Lemma predicate_holds_mono b b' t v : b ⊆ b' → predicate_holds b t v → predicate_holds b' t v.
Proof. destruct t; simpl; eauto using lookup_weaken. Qed.
Lemma pattern_holds_mono b b' p f : b ⊆ b' → pattern_holds b p f → pattern_holds b' p f.
Proof.
  intros Hs (? & ? & ?). split_and!; eauto using term_holds_mono, predicate_holds_mono.
Qed.

#[export] Hint Resolve term_holds_mono predicate_holds_mono pattern_holds_mono : fdb.

Lemma unify_pattern_sound p f b b' :
  unify_pattern p f b = Some b' →
  b ⊆ b' ∧ pattern_holds b' p f ∧ dom b' = dom b ∪ pattern_vars p.
Proof.
  unfold unify_pattern. intros H.
  apply bind_Some in H as (b1 & (H1 & H1' & H1'')%unify_term_Some & H).
  apply bind_Some in H as (b2 & (H2 & H2' & H2'')%unify_predicate_Some & H).
  apply unify_term_Some in H as (H3 & H3' & H3'').
  unfold pattern_holds, pattern_vars. split_and!.
  - by do 2 (etrans; [done|]).
  - eapply term_holds_mono; [|done]. by etrans.
  - eapply predicate_holds_mono; [|done]. done.
  - done.
  - rewrite H3'', H2'', H1''. clear. set_solver.
Qed.

Lemma restrict_holds (b b' : Binding) (X : gset string) :
  b ⊆ b' → X ⊆ dom b' → ∃ b1, b ⊆ b1 ∧ b1 ⊆ b' ∧ dom b1 = dom b ∪ X.
Proof.
  intros Hsub HX. exists (filter (λ kv, kv.1 ∈ dom b ∪ X) b'). split_and!.
  - apply map_subseteq_spec. intros k v Hk. apply map_lookup_filter_Some. simpl. split.
    + by eapply lookup_weaken.
    + apply elem_of_union_l, elem_of_dom. eauto.
  - apply map_filter_subseteq.
  - apply set_eq. intros k. rewrite elem_of_dom. split.
    + intros [v Hv]. by apply map_lookup_filter_Some in Hv as [_ ?].
    + intros Hk. assert (k ∈ dom b') as [v Hv]%elem_of_dom.
      { apply elem_of_union in Hk as [Hk|Hk]; [|by apply HX].
        apply subseteq_dom in Hsub. by apply Hsub. }
      exists v. by apply map_lookup_filter_Some.
Qed.

Lemma term_holds_vars b t v : term_holds b t v → term_vars t ⊆ dom b.
Proof.
  destruct t; simpl; [set_solver|]. intros H. apply singleton_subseteq_l, elem_of_dom. eauto.
Qed.
Lemma predicate_holds_vars b t v : predicate_holds b t v → predicate_vars t ⊆ dom b.
Proof.
  destruct t; simpl; [set_solver|]. intros H. apply singleton_subseteq_l, elem_of_dom. eauto.
Qed.

Lemma term_holds_anti b1 b t v :
  b1 ⊆ b → term_vars t ⊆ dom b1 → term_holds b t v → term_holds b1 t v.
Proof.
  destruct t as [a|x]; simpl; [done|].
  intros Hs [w Hw]%singleton_subseteq_l%elem_of_dom Hv.
  pose proof (lookup_weaken _ _ _ _ Hw Hs). congruence.
Qed.
Lemma predicate_holds_anti b1 b t v :
  b1 ⊆ b → predicate_vars t ⊆ dom b1 → predicate_holds b t v → predicate_holds b1 t v.
Proof.
  destruct t as [a|x]; simpl; [done|].
  intros Hs [w Hw]%singleton_subseteq_l%elem_of_dom Hv.
  pose proof (lookup_weaken _ _ _ _ Hw Hs). congruence.
Qed.

(** A binding that makes the pattern hold extends the unifier. *)
Lemma unify_pattern_complete p f b b' :
  b ⊆ b' → pattern_holds b' p f →
  ∃ b1, unify_pattern p f b = Some b1 ∧ b1 ⊆ b'.
Proof.
  intros Hsub (Hs & Hp & Ho).
  destruct (restrict_holds b b' (term_vars (pat_subject p))) as (b1 & ? & ? & D1);
    [done|by eapply term_holds_vars|].
  destruct (restrict_holds b1 b' (predicate_vars (pat_predicate p))) as (b2 & ? & ? & D2);
    [done|by eapply predicate_holds_vars|].
  destruct (restrict_holds b2 b' (term_vars (pat_object p))) as (b3 & ? & ? & D3);
    [done|by eapply term_holds_vars|].
  exists b3. split; [|done]. unfold pattern_vars, unify_pattern.
  rewrite (proj2 (unify_term_Some _ _ b b1)); [simpl|].
  2:{ split_and!; [done| |done]. apply (term_holds_anti _ b'); [done|set_solver|done]. }
  rewrite (proj2 (unify_predicate_Some _ _ b1 b2)); [simpl|].
  2:{ split_and!; [done| |done]. apply (predicate_holds_anti _ b'); [done|set_solver|done]. }
  apply unify_term_Some. split_and!; [done| |done].
  apply (term_holds_anti _ b'); [done|set_solver|done].
Qed.

Lemma agrees_true {A} `{EqDecision A} (o : option A) x :
  agrees o x = true ↔ ∀ a, o = Some a → x = a.
Proof. destruct o; simpl; [rewrite bool_decide_eq_true|]; naive_solver. Qed.

Lemma cand_matchb_spec p b f : cand_matchb p b f = true ↔ cand_match p b f.
Proof. unfold cand_matchb, cand_match. rewrite !andb_true_iff, !agrees_true. tauto. Qed.

Lemma term_holds_resolved (b b' : Binding) t x :
  b ⊆ b' → term_holds b' t (BoundValue_from x) → ∀ a, resolved_atom t b = Some a → x = a.
Proof.
  intros Hsub Ht a Ha. apply (inj BoundValue_from). destruct t; simpl in *; [congruence|].
  apply bind_Some in Ha as (w & Hw & Ha%as_atom_Some).
  eapply lookup_weaken in Hw; [|done]. congruence.
Qed.

(** The index never hides a fact that unifies. *)
Lemma unify_pattern_candidate p f b b' :
  unify_pattern p f b = Some b' → cand_matchb p b f = true.
Proof.
  intros (Hsub & (Hs & Hp & Ho) & _)%unify_pattern_sound.
  apply cand_matchb_spec. split_and!.
  - eapply term_holds_resolved; eauto.
  - intros q Hq. destruct (pat_predicate p); simpl in *; [congruence|].
    apply bind_Some in Hq as (w & Hw & Hq%as_predicate_Some).
    eapply lookup_weaken in Hw; [|done]. congruence.
  - eapply term_holds_resolved; eauto.
Qed.

(** ** Soundness and completeness of the search *)

(** Candidates that come from the entries and hide none that unifies. *)
Class CandSource (cands : Pattern → Binding → list (SlotId * Fact))
    (entries : list (SlotId * Fact)) : Prop := {
  cand_source_sound p b e : e ∈ cands p b → e ∈ entries;
  cand_source_complete p b e b' : e ∈ entries → unify_pattern p e.2 b = Some b' → e ∈ cands p b;
}.

Lemma elem_of_spec_candidates entries p b e :
  e ∈ spec_candidates entries p b ↔ e ∈ entries ∧ cand_matchb p b e.2 = true.
Proof. unfold spec_candidates. rewrite list_elem_of_filter. naive_solver. Qed.

#[export] Instance spec_candidates_source entries : CandSource (spec_candidates entries) entries.
Proof.
  split; [by intros p b e [He _]%elem_of_spec_candidates|].
  intros p b e b' He Hu. apply elem_of_spec_candidates. split; [done|].
  by eapply unify_pattern_candidate.
Qed.

Section search.
Context (cands : Pattern → Binding → list (SlotId * Fact)).
Context (entries : list (SlotId * Fact)) (options : QueryOptions).

Context `{!CandSource cands entries}.

Lemma patterns_vars_cons p ps : patterns_vars (p :: ps) = pattern_vars p ∪ patterns_vars ps.
Proof. done. Qed.

Lemma elem_of_patterns_vars ps x :
  x ∈ patterns_vars ps ↔ ∃ p, p ∈ ps ∧ x ∈ pattern_vars p.
Proof.
  induction ps as [|p ps IH]; simpl.
  - unfold patterns_vars. simpl. split; [by intros ?%elem_of_empty|].
    intros (p & Hp & _). by apply not_elem_of_nil in Hp.
  - rewrite patterns_vars_cons, elem_of_union, IH. setoid_rewrite elem_of_cons. naive_solver.
Qed.

Lemma patterns_vars_perm ps qs : ps ≡ₚ qs → patterns_vars ps = patterns_vars qs.
Proof.
  intros Hp. apply set_eq. intros x. rewrite !elem_of_patterns_vars. by setoid_rewrite Hp.
Qed.

Lemma frames_of_sound fuel frame ps f :
  length ps ≤ fuel → f ∈ frames_of cands fuel options frame ps →
  frame_binding frame ⊆ frame_binding f ∧
  dom (frame_binding f) = dom (frame_binding frame) ∪ patterns_vars ps ∧
  ∀ p, p ∈ ps → ∃ e, e ∈ entries ∧ pattern_holds (frame_binding f) p e.2.
Proof.
  revert frame ps. induction fuel as [|fuel IH]; intros frame [|q ps] Hlen Hf;
    cbn [frames_of] in Hf.
  1,3: apply list_elem_of_singleton in Hf as ->; split_and!;
    [done|unfold patterns_vars; simpl; set_solver|intros p []%not_elem_of_nil].
  { by apply not_elem_of_nil in Hf. }
  set (index := cand_choose_index _ _ _ _) in Hf.
  destruct ((q :: ps) !! index) as [chosen|] eqn:Hc; [|by apply not_elem_of_nil in Hf].
  pose proof (delete_Permutation _ _ _ Hc) as Hperm.
  apply list_elem_of_bind in Hf as ([slot fact] & Hf & He).
  apply cand_source_sound in He.
  destruct (unify_pattern _ _ _) as [b|] eqn:Hu; [|by apply not_elem_of_nil in Hf].
  apply unify_pattern_sound in Hu as (Hsub & Hh & Hdom).
  apply IH in Hf as (Hsub' & Hdom' & Hall); simpl in *.
  2:{ apply Permutation_length in Hperm. simpl in Hperm. lia. }
  split_and!.
  - by etrans.
  - rewrite (patterns_vars_perm _ _ Hperm), patterns_vars_cons, Hdom', Hdom.
    by rewrite (assoc_L (∪)).
  - intros p. rewrite Hperm, elem_of_cons. intros [->|Hp]; [|by apply Hall].
    exists (slot, fact). split; [done|]. by eapply pattern_holds_mono.
Qed.

Lemma frames_of_complete fuel frame ps b :
  length ps ≤ fuel → frame_binding frame ⊆ b →
  dom b = dom (frame_binding frame) ∪ patterns_vars ps →
  (∀ p, p ∈ ps → ∃ e, e ∈ entries ∧ pattern_holds b p e.2) →
  ∃ f, f ∈ frames_of cands fuel options frame ps ∧ frame_binding f = b.
Proof.
  revert frame ps. induction fuel as [|fuel IH]; intros frame [|q ps] Hlen Hsub Hdom Hall;
    cbn [frames_of].
  1,3: exists frame; split; [by apply list_elem_of_singleton|];
    apply binding_eq; [done|]; rewrite Hdom; unfold patterns_vars; simpl; set_solver.
  { simpl in Hlen. lia. }
  pose proof (choose_index_bound cands options frame q ps) as Hb.
  destruct (lookup_lt_is_Some_2 _ _ Hb) as [chosen Hc]. rewrite Hc.
  pose proof (delete_Permutation _ _ _ Hc) as Hperm.
  destruct (Hall chosen) as ([slot fact] & He & Hh); [by rewrite Hperm; left|].
  destruct (unify_pattern_complete chosen fact (frame_binding frame) b) as (b1 & Hu & Hb1);
    [done|done|].
  pose proof (unify_pattern_sound _ _ _ _ Hu) as (_ & _ & Hd1).
  edestruct (IH (QueryFrame_mk b1 (frame_provenance frame ++ [slot])))
    as (f & Hf & <-); [..|exists f; split; [|done]]; simpl.
  5:{ apply list_elem_of_bind. exists (slot, fact). rewrite Hu. split; [exact Hf|].
      by eapply cand_source_complete. }
  - apply Permutation_length in Hperm. simpl in *. lia.
  - done.
  - rewrite Hdom, Hd1, (patterns_vars_perm _ _ Hperm), patterns_vars_cons.
    by rewrite (assoc_L (∪)).
  - intros p Hp. apply Hall. rewrite Hperm. by right.
Qed.
End search.

(** ** The limit *)

(** The walker tests the limit after it has pushed a frame, so a limit of zero
    still lets one frame through. *)
Definition effective_limit (limit : nat) : nat := Nat.max 1 limit.

Section limit.
Context (options : QueryOptions).

Definition not_full (out : list QueryFrame) : Prop :=
  match opt_limit options with
  | None => True
  | Some k => length out < effective_limit k
  end.

Definition fullb (out : list QueryFrame) : bool :=
  match opt_limit options with
  | None => false
  | Some k => effective_limit k <=? length out
  end.

Definition capped (out : list QueryFrame) : list QueryFrame :=
  match opt_limit options with
  | None => out
  | Some k => take (effective_limit k) out
  end.

Lemma capped_not_full out : fullb out = false → capped out = out ∧ not_full out.
Proof.
  unfold fullb, capped, not_full. destruct (opt_limit options); [|done].
  intros H%Nat.leb_gt. split; [apply take_ge; lia|done].
Qed.

Lemma capped_full out out' : fullb out = true → capped out = capped (out ++ out').
Proof.
  unfold fullb, capped. destruct (opt_limit options); [|done].
  intros H%Nat.leb_le. by rewrite take_app_le.
Qed.

Lemma fullb_app out out' : fullb out = true → fullb (out ++ out') = true.
Proof.
  unfold fullb. destruct (opt_limit options); [|done].
  rewrite !Nat.leb_le, length_app. lia.
Qed.

Lemma not_full_capped out : not_full out → capped out = out ∧ fullb out = false.
Proof.
  unfold fullb, capped, not_full. destruct (opt_limit options); [|done].
  intros H. split; [apply take_ge; lia|by apply Nat.leb_gt].
Qed.

(** A search step that appends [F f] to the output, up to the limit. *)
Definition emits (r : walk_state * bool) (st : walk_state) (fs : list QueryFrame) : Prop :=
  ws_output r.1 = capped (ws_output st ++ fs) ∧ r.2 = fullb (ws_output st ++ fs).

Lemma cand_walk_entries_emits walk (F : QueryFrame → list QueryFrame) chosen frame es st :
  (∀ f s, not_full (ws_output s) → emits (walk f s) s (F f)) →
  not_full (ws_output st) →
  emits (cand_walk_entries walk chosen frame es st) st
    ('(slot, fact) ← es;
     match unify_pattern chosen fact (frame_binding frame) with
     | Some b => F (QueryFrame_mk b (frame_provenance frame ++ [slot]))
     | None => []
     end).
Proof.
  intros Hwalk. revert st. induction es as [|[slot fact] es IH]; intros st Hst; simpl.
  { unfold emits. rewrite app_nil_r. simpl. destruct (not_full_capped _ Hst). naive_solver. }
  destruct (unify_pattern _ _ _) as [b|]; [|by apply IH].
  set (f := QueryFrame_mk _ _).
  destruct (Hwalk f (ws_count_binding st) Hst) as [H1 H2].
  destruct (walk f (ws_count_binding st)) as [st' stop]; simpl in *.
  unfold emits. rewrite (assoc_L (++)). destruct stop.
  - rewrite fullb_app by done. rewrite <- capped_full by done. done.
  - destruct (capped_not_full _ (eq_sym H2)) as [Hc Hn]. rewrite Hc in H1.
    rewrite <- H1. apply IH. by rewrite H1.
Qed.

Lemma ws_choose_output d p st : ws_output (ws_choose d p st) = ws_output st.
Proof. unfold ws_choose. by case_decide. Qed.

Lemma limit_reached_push f st :
  not_full (ws_output st) → emits (ws_push f st, limit_reached options (ws_push f st)) st [f].
Proof.
  intros Hst. unfold emits, capped, fullb, limit_reached, not_full in *. simpl in *.
  destruct (opt_limit options) as [k|]; [|done].
  rewrite length_app in *; simpl in *. unfold effective_limit in *.
  split; [rewrite take_ge; [done|rewrite length_app; simpl; lia]|].
  destruct (k <=? _) eqn:E1; destruct (Nat.max 1 k <=? _) eqn:E2; try done;
    rewrite ?Nat.leb_le, ?Nat.leb_gt in *; lia.
Qed.

Lemma cand_walk_emits cands fuel frame ps depth st :
  length ps ≤ fuel → not_full (ws_output st) →
  emits (cand_walk cands fuel options frame ps depth st) st
    (frames_of cands fuel options frame ps).
Proof.
  revert frame ps depth st. induction fuel as [|fuel IH]; intros frame [|q ps] depth st Hlen Hst;
    cbn [cand_walk frames_of].
  1,3: by apply limit_reached_push.
  { simpl in Hlen. lia. }
  pose proof (choose_index_bound cands options frame q ps) as Hb.
  destruct (lookup_lt_is_Some_2 _ _ Hb) as [chosen Hc]. rewrite Hc.
  pose proof (delete_Permutation _ _ _ Hc) as Hperm%Permutation_length.
  set (st1 := ws_count_candidates _ _).
  assert (ws_output st1 = ws_output st) as Heq by apply ws_choose_output.
  unfold emits. rewrite <- Heq.
  apply (cand_walk_entries_emits _
    (λ f, frames_of cands fuel options f (delete (cand_choose_index cands options frame (q :: ps)) (q :: ps)))).
  - intros f s Hs. apply IH; [simpl in *; lia|done].
  - by rewrite Heq.
Qed.

Lemma not_full_empty : not_full [].
Proof. unfold not_full, effective_limit. destruct (opt_limit options); simpl; [lia|done]. Qed.

(** The output of the search: all frames, cut at the limit. *)
Lemma cand_walk_output cands ps :
  ws_output (cand_walk cands (length ps) options empty_frame ps 0 empty_state).1 =
  capped (all_frames cands options ps).
Proof.
  destruct (cand_walk_emits cands (length ps) empty_frame ps 0 empty_state) as [-> _];
    [done|apply not_full_empty|done].
Qed.
End limit.

(** ** Rows *)

Lemma retain_distinct_spec seen l :
  (∀ b, b ∈ frame_binding <$> retain_distinct seen l ↔ b ∈ frame_binding <$> l ∧ b ∉ seen) ∧
  NoDup (frame_binding <$> retain_distinct seen l).
Proof.
  revert seen. induction l as [|f l IH]; intros seen; simpl.
  { split; [|constructor]. intros b. rewrite elem_of_nil. naive_solver. }
  case_decide as Hd.
  - destruct (IH seen) as [H1 H2]. split; [|done]. intros b.
    rewrite H1, elem_of_cons. naive_solver.
  - destruct (IH (frame_binding f :: seen)) as [H1 H2]. simpl. split.
    + intros b. rewrite !elem_of_cons, H1, elem_of_cons.
      destruct (decide (b = frame_binding f)); naive_solver.
    + constructor; [|done]. rewrite H1. intros [_ Hn]. apply Hn. by left.
Qed.

Lemma binding_entries_inj : Inj (=) (=) binding_entries.
Proof.
  intros b1 b2 Heq. apply (map_to_list_inj (M := gmap string)).
  etrans; [symmetry; apply ord_sort_Permutation|].
  change (binding_entries b1 ≡ₚ map_to_list b2). rewrite Heq. apply ord_sort_Permutation.
Qed.
#[export] Existing Instance binding_entries_inj.

#[export] Instance frame_key_inj : Inj (=) (=) frame_key.
Proof. intros [b1 p1] [b2 p2] [= Hb ->]. simpl in Hb. by apply (inj binding_entries) in Hb as ->. Qed.

#[export] Instance QueryFrame_ord_laws : OrdLaws QueryFrame.
Proof. by apply (ord_laws_inj frame_key). Qed.

#[export] Instance binding_ord : Ord Binding := λ x y, cmp (binding_entries x) (binding_entries y).
#[export] Instance binding_ord_laws : OrdLaws Binding.
Proof. by apply (ord_laws_inj binding_entries). Qed.

Lemma elem_of_rows cands ps options b :
  b ∈ row_binding <$> result_rows (cand_query cands ps options) ↔
  b ∈ frame_binding <$> capped options (all_frames cands options ps).
Proof.
  unfold cand_query, finish_query. rewrite cand_walk_output. simpl.
  rewrite <- list_fmap_compose.
  assert (∀ l, b ∈ (row_binding ∘ (λ f, QueryRow_mk (frame_binding f)
      (if opt_include_provenance options then frame_provenance f else []))) <$> ord_sort l
    ↔ b ∈ frame_binding <$> l) as Hsort.
  { intros l. by rewrite ord_sort_Permutation. }
  rewrite Hsort. destruct (opt_distinct options); [|done].
  rewrite (proj1 (retain_distinct_spec [] _)). rewrite elem_of_nil. tauto.
Qed.

(** The bindings of an unlimited query are exactly the solutions. *)
Lemma cand_query_solutions cands entries `{!CandSource cands entries} ps options b :
  opt_limit options = None →
  b ∈ row_binding <$> result_rows (cand_query cands ps options) ↔ solution entries ps b.
Proof.
  intros Hlim. rewrite elem_of_rows. unfold capped. rewrite Hlim. split.
  - intros (f & -> & Hf)%list_elem_of_fmap.
    destruct (frames_of_sound cands entries options _ _ _ _ (Nat.le_refl _) Hf) as (_ & Hd & Ha). split; [|done].
    rewrite Hd. simpl. by rewrite dom_empty_L, (left_id_L ∅ (∪)).
  - intros [Hd Ha].
    destruct (frames_of_complete cands entries options (length ps) empty_frame ps b) as (f & Hf & <-);
      [done|apply map_empty_subseteq| |done|].
    + simpl. by rewrite dom_empty_L, (left_id_L ∅ (∪)).
    + by apply list_elem_of_fmap_2.
Qed.

Lemma spec_query_solutions entries ps options b :
  opt_limit options = None →
  b ∈ row_binding <$> result_rows (spec_query entries ps options) ↔ solution entries ps b.
Proof. apply cand_query_solutions, _. Qed.

(** ** Join order *)

Definition with_optimize (b : bool) (o : QueryOptions) : QueryOptions :=
  QueryOptions_mk b (opt_distinct o) (opt_include_provenance o) (opt_limit o).

Lemma ord_le_frame_binding f g : ord_le f g → ord_le (frame_binding f) (frame_binding g).
Proof.
  unfold ord_le, cmp, QueryFrame_ord, binding_ord, frame_key. rewrite prod_cmp.
  by destruct (cmp (binding_entries _) _).
Qed.

Lemma Sorted_frame_bindings l :
  Sorted ord_le (frame_binding <$> ord_sort (A := QueryFrame) l).
Proof.
  apply (Sorted_fmap frame_binding ord_le).
  { intros f g. apply ord_le_frame_binding. }
  apply Sorted_merge_sort, _.
Qed.

Lemma distinct_rows_unique cands1 cands2 o1 o2 ps :
  opt_distinct o1 = true → opt_distinct o2 = true →
  opt_include_provenance o1 = false → opt_include_provenance o2 = false →
  (∀ b, b ∈ row_binding <$> result_rows (cand_query cands1 ps o1) ↔
        b ∈ row_binding <$> result_rows (cand_query cands2 ps o2)) →
  result_rows (cand_query cands1 ps o1) = result_rows (cand_query cands2 ps o2).
Proof.
  unfold cand_query, finish_query. intros -> -> -> ->. simpl.
  rewrite <- !list_fmap_compose. intros Hb.
  set (l1 := retain_distinct [] _) in *. set (l2 := retain_distinct [] _) in *.
  assert (∀ l, (λ f, QueryRow_mk (frame_binding f) []) <$> ord_sort l =
    (λ b, QueryRow_mk b []) <$> (frame_binding <$> ord_sort l)) as Hmap.
  { intros l. by rewrite <- list_fmap_compose. }
  rewrite !Hmap. f_equal.
  apply (Sorted_unique ord_le); [apply Sorted_frame_bindings..|].
  apply NoDup_Permutation.
  - rewrite ord_sort_Permutation. apply retain_distinct_spec.
  - rewrite ord_sort_Permutation. apply retain_distinct_spec.
  - exact Hb.
Qed.

(** ** Limited and unlimited queries *)

Definition with_limit (k : option nat) (o : QueryOptions) : QueryOptions :=
  QueryOptions_mk (opt_optimize o) (opt_distinct o) (opt_include_provenance o) k.

Lemma frames_of_limit cands o k fuel frame ps :
  frames_of cands fuel (with_limit k o) frame ps = frames_of cands fuel o frame ps.
Proof.
  revert frame ps. induction fuel as [|fuel IH]; intros frame [|p ps]; try done.
  cbn [frames_of]. change (cand_choose_index cands (with_limit k o)) with (cand_choose_index cands o).
  destruct (_ !! _) as [chosen|]; [|done].
  apply list_bind_ext; [|done]. intros [slot fact]. by destruct (unify_pattern _ _ _).
Qed.

Lemma all_frames_limit cands o k ps :
  all_frames cands (with_limit k o) ps = all_frames cands o ps.
Proof. apply frames_of_limit. Qed.

Lemma length_rows cands ps o :
  length (result_rows (cand_query cands ps o)) =
  length (if opt_distinct o then retain_distinct [] (capped o (all_frames cands o ps))
          else capped o (all_frames cands o ps)).
Proof.
  unfold cand_query, finish_query. rewrite cand_walk_output. simpl.
  rewrite length_fmap. by rewrite ord_sort_Permutation.
Qed.

Lemma length_retain_distinct seen l : length (retain_distinct seen l) ≤ length l.
Proof.
  revert seen. induction l as [|f l IH]; intros seen; simpl; [done|].
  case_decide; simpl; [pose proof (IH seen)|pose proof (IH (frame_binding f :: seen))]; lia.
Qed.

Lemma cand_query_limit cands ps o k :
  let limited := cand_query cands ps (with_limit (Some k) o) in
  let full := cand_query cands ps (with_limit None o) in
  length (result_rows limited) ≤ effective_limit k ∧
  (opt_distinct o = false →
   length (result_rows limited) = Nat.min (effective_limit k) (length (result_rows full))) ∧
  (∀ b, b ∈ row_binding <$> result_rows limited → b ∈ row_binding <$> result_rows full).
Proof.
  cbv zeta. rewrite !length_rows. unfold capped; cbn [opt_limit opt_distinct with_limit].
  rewrite !all_frames_limit. split_and!.
  - destruct (opt_distinct o).
    + etrans; [apply length_retain_distinct|]. rewrite length_take. lia.
    + rewrite length_take. lia.
  - intros ->. by rewrite length_take.
  - intros b. rewrite !elem_of_rows. unfold capped; cbn [opt_limit with_limit].
    rewrite !all_frames_limit.
    intros (f & -> & Hf)%list_elem_of_fmap. apply list_elem_of_fmap_2.
    by eapply elem_of_take in Hf as (? & ?%list_elem_of_lookup_2 & _).
Qed.
