(* ===== verification/QueryOrder.v ===== *)
(** Queries whose candidates come in another order.

    An engine whose indexes are ordered by key (the memory-mapped snapshot) tries
    the candidates of a pattern in another order than record order, and none at
    all where a variable bound to a predicate is used as an atom or the
    reverse.  [OrderSource] is what such an engine promises, [query_agrees] what
    its answers still have in common with [spec_query]: the solutions always;
    the rows, up to the choice of a provenance; and, when no variable is used
    both ways, the metrics and the rows with their duplicates, or their number
    when a limit cuts them. *)
From Stdlib Require Import NArith Lia.
From stdpp Require Import sorting base gmap list strings fin_maps fin_map_dom option list_monad.
From S2P Require Import Prelude Ord Terms Query QueryFacts.

(** ** Variables used one way *)

Definition atom_vars (p : Pattern) : gset string :=
  term_vars (pat_subject p) ∪ term_vars (pat_object p).

(** No variable stands for an atom here and for a predicate there. *)
Definition sorted_query (ps : list Pattern) : Prop :=
  ∀ p q, p ∈ ps → q ∈ ps → atom_vars p ## predicate_vars (pat_predicate q).

(** The positions of the pattern that the binding resolves have a value of
    their sort. *)
Definition sorted_at (p : Pattern) (b : Binding) : Prop :=
  (∀ x v, x ∈ atom_vars p → b !! x = Some v → is_Some (as_atom v)) ∧
  (∀ x v, x ∈ predicate_vars (pat_predicate p) → b !! x = Some v → is_Some (as_predicate v)).

(** What an engine with ordered indexes promises. *)
Class OrderSource (cands : Pattern → Binding → list (SlotId * Fact))
    (entries : list (SlotId * Fact)) : Prop := {
  #[global] order_cand_source :: CandSource cands entries;
  order_source_perm p b : sorted_at p b → cands p b ≡ₚ spec_candidates entries p b;
}.

#[export] Instance spec_order_source entries : OrderSource (spec_candidates entries) entries.
Proof. split; [apply _|done]. Qed.

Lemma unify_pattern_new_vars p f b b' x v :
  unify_pattern p f b = Some b' → b' !! x = Some v → b !! x = None →
  (x ∈ atom_vars p ∧ is_Some (as_atom v)) ∨
  (x ∈ predicate_vars (pat_predicate p) ∧ is_Some (as_predicate v)).
Proof.
  intros (Hsub & (Hs & Hp & Ho) & Hdom)%unify_pattern_sound Hx Hn.
  assert (x ∈ pattern_vars p) as Hv.
  { assert (x ∈ dom b') as Hin by (apply elem_of_dom; eauto). rewrite Hdom in Hin.
    apply elem_of_union in Hin as [[? ?]%elem_of_dom|?]; [congruence|done]. }
  unfold pattern_vars, atom_vars in *. destruct p as [s q o]; simpl in *.
  assert (∀ t w, x ∈ term_vars t → term_holds b' t (BoundValue_from w) → is_Some (as_atom v)) as Ht.
  { intros [a|y] w Hy Hh; simpl in *; [set_solver|].
    apply elem_of_singleton in Hy as ->. rewrite Hx in Hh. injection Hh as ->.
    rewrite as_atom_from. eauto. }
  assert (x ∈ predicate_vars q → is_Some (as_predicate v)) as Hpr.
  { destruct q as [a|y]; simpl in *; [set_solver|].
    intros ->%elem_of_singleton. rewrite Hx in Hp. injection Hp as ->. eauto. }
  apply elem_of_union in Hv as [[Hv|Hv]%elem_of_union|Hv].
  - left. split; [by apply elem_of_union_l|]. by apply (Ht s (fact_subject f)).
  - right. split; [done|]. by apply Hpr.
  - left. split; [by apply elem_of_union_r|]. by apply (Ht o (fact_object f)).
Qed.

Lemma sorted_at_unify ps p q f b b' :
  sorted_query ps → p ∈ ps → q ∈ ps → (∀ r, r ∈ ps → sorted_at r b) →
  unify_pattern p f b = Some b' → sorted_at q b'.
Proof.
  intros Hs Hp Hq Hb Hu. pose proof (unify_pattern_sound _ _ _ _ Hu) as (Hsub & _ & _).
  split; intros x v Hx Hv; (destruct (b !! x) as [w|] eqn:Hw;
    [pose proof (lookup_weaken _ _ _ _ Hw Hsub); assert (w = v) as -> by congruence;
     by eapply (Hb q Hq)|]);
    destruct (unify_pattern_new_vars _ _ _ _ _ _ Hu Hv Hw) as [[Hx' ?]|[Hx' ?]]; try done.
  - by destruct (proj1 (elem_of_disjoint _ _) (Hs q p Hq Hp) x).
  - by destruct (proj1 (elem_of_disjoint _ _) (Hs p q Hp Hq) x).
Qed.

(** ** The same frames in another order *)

(** The number of candidates tried and of bindings emitted by a search. *)
Fixpoint search_cost (cands : Pattern → Binding → list (SlotId * Fact)) (fuel : nat)
    (options : QueryOptions) (frame : QueryFrame) (remaining : list Pattern) : nat * nat :=
  match remaining, fuel with
  | [], _ | _ :: _, 0 => (0, 0)
  | _ :: _, S fuel =>
      let index := cand_choose_index cands options frame remaining in
      match remaining !! index with
      | None => (0, 0)
      | Some chosen =>
          let es := cands chosen (frame_binding frame) in
          let below (e : SlotId * Fact) := match unify_pattern chosen e.2 (frame_binding frame) with
            | Some b =>
                let c := search_cost cands fuel options
                  (QueryFrame_mk b (frame_provenance frame ++ [e.1])) (delete index remaining) in
                (c.1, S c.2)
            | None => (0, 0)
            end in
          (length es + sum_list_with (λ e, (below e).1) es, sum_list_with (λ e, (below e).2) es)
      end
  end.

Lemma bind_perm {A B} (f g : A → list B) l k :
  l ≡ₚ k → (∀ x, x ∈ l → f x ≡ₚ g x) → (l ≫= f) ≡ₚ (k ≫= g).
Proof.
  intros Hl Hfg. etrans; [|by apply bind_Permutation]. clear Hl k.
  induction l as [|x l IH]; [done|]. rewrite !bind_cons. apply Permutation_app.
  - apply Hfg. by left.
  - apply IH. intros. apply Hfg. by right.
Qed.

Lemma sum_list_perm {A} (f g : A → nat) l k :
  l ≡ₚ k → (∀ x, x ∈ l → f x = g x) → sum_list_with f l = sum_list_with g k.
Proof.
  intros Hl Hfg. rewrite <- Hl. clear Hl k.
  induction l as [|x l IH]; [done|]. simpl. rewrite Hfg by left. f_equal.
  apply IH. intros. apply Hfg. by right.
Qed.

Lemma min_by_key_index_ext {A} (f g : A → nat) l :
  (∀ x, x ∈ l → f x = g x) → min_by_key_index f l = min_by_key_index g l.
Proof.
  intros H. rewrite <- (min_by_key_index_fmap f), <- (min_by_key_index_fmap g). f_equal.
  induction l as [|x l IH]; [done|]. csimpl. rewrite H by left. f_equal.
  apply IH. intros. apply H. by right.
Qed.

Lemma choose_index_perm cands entries `{!OrderSource cands entries} options frame ps :
  (∀ p, p ∈ ps → sorted_at p (frame_binding frame)) →
  cand_choose_index cands options frame ps =
  cand_choose_index (spec_candidates entries) options frame ps.
Proof.
  intros Hs. unfold cand_choose_index. destruct (opt_optimize options); [|done].
  apply min_by_key_index_ext. intros p Hp. by rewrite (order_source_perm p _ (Hs p Hp)).
Qed.

Lemma search_perm cands entries `{!OrderSource cands entries} options fuel frame ps :
  sorted_query ps → (∀ p, p ∈ ps → sorted_at p (frame_binding frame)) →
  frames_of cands fuel options frame ps ≡ₚ
    frames_of (spec_candidates entries) fuel options frame ps ∧
  search_cost cands fuel options frame ps =
    search_cost (spec_candidates entries) fuel options frame ps.
Proof.
  revert frame ps. induction fuel as [|fuel IH]; intros frame [|q ps] Hs Hb; try done.
  cbn [frames_of search_cost]. rewrite (choose_index_perm cands entries options frame _ Hb).
  set (index := cand_choose_index _ _ _ _).
  destruct ((q :: ps) !! index) as [chosen|] eqn:Hc; [|done].
  pose proof (list_elem_of_lookup_2 _ _ _ Hc) as Hin.
  assert (∀ p, p ∈ delete index (q :: ps) → p ∈ q :: ps) as Hdel.
  { intros p Hp. rewrite (delete_Permutation _ _ _ Hc). by right. }
  pose proof (order_source_perm _ _ (Hb chosen Hin)) as Hperm.
  assert (∀ e b, unify_pattern chosen e (frame_binding frame) = Some b → ∀ slot : SlotId,
    frames_of cands fuel options (QueryFrame_mk b (frame_provenance frame ++ [slot]))
      (delete index (q :: ps)) ≡ₚ
    frames_of (spec_candidates entries) fuel options
      (QueryFrame_mk b (frame_provenance frame ++ [slot])) (delete index (q :: ps)) ∧
    search_cost cands fuel options (QueryFrame_mk b (frame_provenance frame ++ [slot]))
      (delete index (q :: ps)) =
    search_cost (spec_candidates entries) fuel options
      (QueryFrame_mk b (frame_provenance frame ++ [slot])) (delete index (q :: ps))) as Hrec.
  { intros e b Hu slot. apply IH.
    - intros p r Hp Hr. by apply Hs; apply Hdel.
    - intros p Hp. simpl. by eapply (sorted_at_unify (q :: ps) chosen p); eauto. }
  split.
  - apply bind_perm; [done|]. intros [slot fact] _.
    destruct (unify_pattern _ _ _) as [b|] eqn:Hu; [|done]. by destruct (Hrec _ _ Hu slot).
  - cbv zeta. f_equal; [f_equal; [by rewrite Hperm|]|]; (apply sum_list_perm; [done|]);
      intros [slot fact] _; cbn [fst snd];
      (destruct (unify_pattern _ _ _) as [b|] eqn:Hu; [|done]);
      by destruct (Hrec _ _ Hu slot) as [_ ->].
Qed.

(** ** Metrics of an unlimited search *)

Definition metrics_add (m : QueryMetrics) (c : nat * nat) : QueryMetrics :=
  QueryMetrics_mk (u64_wrap (candidate_facts m + N.of_nat c.1))
    (u64_wrap (bindings_emitted m + N.of_nat c.2)).

Definition metrics_ok (m : QueryMetrics) : Prop :=
  u64_ok (candidate_facts m) ∧ u64_ok (bindings_emitted m).

Lemma metrics_add_zero m : metrics_ok m → metrics_add m (0, 0) = m.
Proof.
  intros [H1 H2]. unfold metrics_add. cbn. rewrite !N.add_0_r, !u64_wrap_small by done. by destruct m.
Qed.

Lemma metrics_add_ok m c : metrics_ok (metrics_add m c).
Proof. split; apply u64_wrap_ok. Qed.

Lemma metrics_add_add m c d : metrics_add (metrics_add m c) d = metrics_add m (c.1 + d.1, c.2 + d.2).
Proof.
  unfold metrics_add. cbn. rewrite !u64_wrap_add_l, !Nat2N.inj_add. do 2 f_equal; lia.
Qed.

Lemma ws_count_candidates_metrics n st :
  ws_metrics (ws_count_candidates n st) = metrics_add (ws_metrics st) (n, 0) ∨
  ¬ metrics_ok (ws_metrics st).
Proof.
  destruct (decide (bindings_emitted (ws_metrics st) < u64_modulus)%N) as [H|H].
  - left. unfold ws_count_candidates, metrics_add, u64_add, usize_of. cbn.
    rewrite u64_wrap_add_r, N.add_0_r. by rewrite (u64_wrap_small (bindings_emitted _)).
  - right. intros [_ Hok]. by apply H.
Qed.

Section cost.
Context (cands : Pattern → Binding → list (SlotId * Fact)) (options : QueryOptions).
Context (Hlimit : opt_limit options = None).

(** A walk that runs to its end adds its cost to the metrics. *)
Definition costs (r : walk_state * bool) (st : walk_state) (c : nat * nat) : Prop :=
  r.2 = false ∧ ws_metrics r.1 = metrics_add (ws_metrics st) c.

Lemma cand_walk_entries_costs walk (F : QueryFrame → nat * nat) chosen frame es st :
  (∀ f s, metrics_ok (ws_metrics s) → costs (walk f s) s (F f)) →
  metrics_ok (ws_metrics st) →
  let below (e : SlotId * Fact) := match unify_pattern chosen e.2 (frame_binding frame) with
    | Some b => let c := F (QueryFrame_mk b (frame_provenance frame ++ [e.1])) in (c.1, S c.2)
    | None => (0, 0)
    end in
  costs (cand_walk_entries walk chosen frame es st) st
    (sum_list_with (λ e, (below e).1) es, sum_list_with (λ e, (below e).2) es).
Proof.
  intros Hwalk. cbv zeta. revert st. induction es as [|[slot fact] es IH]; intros st Hst.
  { split; [done|]. cbn. by rewrite metrics_add_zero. }
  cbn [cand_walk_entries sum_list_with fst snd].
  destruct (unify_pattern _ _ _) as [b|]; cbn [fst snd]; [|by apply IH].
  set (f := QueryFrame_mk _ _).
  assert (ws_metrics (ws_count_binding st) = metrics_add (ws_metrics st) (0, 1)) as Hc.
  { destruct Hst as [H1 _]. unfold ws_count_binding, metrics_add. cbn. f_equal.
    by rewrite N.add_0_r, u64_wrap_small. }
  destruct (Hwalk f (ws_count_binding st)) as [H1 H2]; [rewrite Hc; apply metrics_add_ok|].
  destruct (walk f (ws_count_binding st)) as [st' stop]. cbn [fst snd] in *. subst stop.
  rewrite Hc, metrics_add_add in H2. cbn [fst snd] in H2.
  destruct (IH st') as [H3 H4]; [rewrite H2; apply metrics_add_ok|].
  split; [done|]. by rewrite H4, H2, metrics_add_add.
Qed.

Lemma cand_walk_costs fuel frame ps depth st :
  length ps ≤ fuel → metrics_ok (ws_metrics st) →
  costs (cand_walk cands fuel options frame ps depth st) st (search_cost cands fuel options frame ps).
Proof.
  revert frame ps depth st. induction fuel as [|fuel IH]; intros frame [|q ps] depth st Hlen Hst;
    cbn [cand_walk search_cost].
  1,3: split; [unfold limit_reached; by rewrite Hlimit|]; cbn; by rewrite metrics_add_zero.
  { simpl in Hlen. lia. }
  pose proof (choose_index_bound cands options frame q ps) as Hb.
  destruct (lookup_lt_is_Some_2 _ _ Hb) as [chosen Hc]. rewrite Hc.
  pose proof (delete_Permutation _ _ _ Hc) as Hperm%Permutation_length.
  set (es := cands chosen (frame_binding frame)).
  assert (ws_metrics (ws_count_candidates (length es) (ws_choose depth chosen st)) =
    metrics_add (ws_metrics st) (length es, 0)) as Hm.
  { assert (ws_metrics (ws_choose depth chosen st) = ws_metrics st) as Heq
      by (unfold ws_choose; by case_decide).
    destruct (ws_count_candidates_metrics (length es) (ws_choose depth chosen st)) as [->|[]];
      by rewrite Heq. }
  destruct (cand_walk_entries_costs
    (λ frame' st', cand_walk cands fuel options frame'
       (delete (cand_choose_index cands options frame (q :: ps)) (q :: ps)) (S depth) st')
    (λ f, search_cost cands fuel options f
       (delete (cand_choose_index cands options frame (q :: ps)) (q :: ps)))
    chosen frame es (ws_count_candidates (length es) (ws_choose depth chosen st))) as [H1 H2].
  - intros f s Hs. apply IH; [simpl in *; lia|done].
  - rewrite Hm. apply metrics_add_ok.
  - split; [done|]. rewrite H2, Hm, metrics_add_add. done.
Qed.

Lemma cand_query_metrics ps :
  result_metrics (cand_query cands ps options) =
  metrics_add QueryMetrics_default (search_cost cands (length ps) options empty_frame ps).
Proof.
  unfold cand_query, finish_query. cbn [result_metrics].
  by destruct (cand_walk_costs (length ps) empty_frame ps 0 empty_state) as [_ ->].
Qed.
End cost.

(** ** Agreement *)

Record query_agrees (entries : list (SlotId * Fact)) (ps : list Pattern) (o : QueryOptions)
    (r : QueryResult) : Prop := {
  qa_sound b : b ∈ row_binding <$> result_rows r → solution entries ps b;
  qa_complete b : opt_limit o = None → solution entries ps b → b ∈ row_binding <$> result_rows r;
  qa_distinct : opt_limit o = None → opt_distinct o = true →
    row_binding <$> result_rows r = row_binding <$> result_rows (spec_query entries ps o) ∧
    (opt_include_provenance o = false → result_rows r = result_rows (spec_query entries ps o));
  qa_sorted : sorted_query ps → opt_limit o = None →
    result_metrics r = result_metrics (spec_query entries ps o) ∧
    (opt_distinct o = false → result_rows r = result_rows (spec_query entries ps o));
  qa_limit : sorted_query ps → opt_distinct o = false →
    length (result_rows r) = length (result_rows (spec_query entries ps o));
}.

Lemma sorted_at_empty p : sorted_at p ∅.
Proof. split; intros x v _; by rewrite lookup_empty. Qed.

Lemma cand_query_sound cands entries `{!CandSource cands entries} ps o b :
  b ∈ row_binding <$> result_rows (cand_query cands ps o) → solution entries ps b.
Proof.
  intros Hb. apply (cand_query_solutions cands entries ps (with_limit None o)); [done|].
  destruct (opt_limit o) as [k|] eqn:Hk.
  - apply (cand_query_limit cands ps o k). by replace (with_limit (Some k) o) with o
      by (destruct o; cbn in Hk; by subst).
  - by replace (with_limit None o) with o by (destruct o; cbn in Hk; by subst).
Qed.

Lemma distinct_bindings_unique cands1 cands2 o ps :
  opt_distinct o = true →
  (∀ b, b ∈ row_binding <$> result_rows (cand_query cands1 ps o) ↔
        b ∈ row_binding <$> result_rows (cand_query cands2 ps o)) →
  row_binding <$> result_rows (cand_query cands1 ps o) =
  row_binding <$> result_rows (cand_query cands2 ps o).
Proof.
  unfold cand_query, finish_query. intros ->. cbn [result_rows]. rewrite <- !list_fmap_compose.
  set (l1 := retain_distinct [] _). set (l2 := retain_distinct [] _). intros Hb.
  apply (Sorted_unique ord_le); [apply Sorted_frame_bindings..|].
  apply NoDup_Permutation.
  - rewrite ord_sort_Permutation. apply retain_distinct_spec.
  - rewrite ord_sort_Permutation. apply retain_distinct_spec.
  - exact Hb.
Qed.

Lemma cand_query_agrees cands entries `{!OrderSource cands entries} ps o :
  query_agrees entries ps o (cand_query cands ps o).
Proof.
  assert (∀ b, opt_limit o = None →
    (b ∈ row_binding <$> result_rows (cand_query cands ps o) ↔
     b ∈ row_binding <$> result_rows (spec_query entries ps o))) as Hset.
  { intros b Hl. etrans; [by apply (cand_query_solutions cands entries)|].
    symmetry. by apply spec_query_solutions. }
  assert (sorted_query ps → all_frames cands o ps ≡ₚ all_frames (spec_candidates entries) o ps ∧
    search_cost cands (length ps) o empty_frame ps =
    search_cost (spec_candidates entries) (length ps) o empty_frame ps) as Hperm.
  { intros Hs. apply search_perm; [apply _|done|]. intros p _. apply sorted_at_empty. }
  split.
  - intros b Hb. exact (cand_query_sound cands entries ps o b Hb).
  - intros b Hl Hb. by apply (cand_query_solutions cands entries _ _ b Hl).
  - intros Hl Hd. split.
    + apply distinct_bindings_unique; [done|]. intros b. by apply Hset.
    + intros Hp. apply distinct_rows_unique; [done..|]. intros b. by apply Hset.
  - intros Hs Hl. destruct (Hperm Hs) as [Hf Hc]. split.
    + unfold spec_query. by rewrite !cand_query_metrics, Hc by done.
    + intros Hd. unfold spec_query, cand_query, finish_query. cbn [result_rows].
      rewrite !cand_walk_output, Hd. unfold capped. rewrite Hl. f_equal. by apply ord_sort_unique.
  - intros Hs Hd. unfold spec_query. rewrite !length_rows, Hd. destruct (Hperm Hs) as [Hf _].
    unfold capped. destruct (opt_limit o); [|by rewrite Hf].
    by rewrite !length_take, Hf.
Qed.

Lemma spec_query_agrees entries ps o : query_agrees entries ps o (spec_query entries ps o).
Proof. apply cand_query_agrees, _. Qed.
