(* ===== verification/Spec.v ===== *)
(** The abstract kernel: a history of define and forget events.

    Everything a kernel reports is a function of this history.  A slot holds a
    stack of definitions: defining pushes, forgetting pops and so reveals the
    definition beneath.  Both kernels, the query projection and the token VM
    are proved to compute this function. *)
From Stdlib Require Import NArith Lia.
From stdpp Require Import sorting base gmap list strings fin_maps option list_monad.
From S2P Require Import Prelude Ord Terms Query QueryFacts.

Inductive Event :=
| EvDefine (slot : SlotId) (fact : Fact)
| EvForget (slot : SlotId).

#[export] Instance Event_eq_dec : EqDecision Event.
Proof. solve_decision. Defined.

Definition event_slot (ev : Event) : SlotId :=
  match ev with EvDefine s _ => s | EvForget s => s end.

Definition event_kind (ev : Event) : RecordKind :=
  match ev with EvDefine _ _ => Define | EvForget _ => Forget end.

Definition event_fact (ev : Event) : option Fact :=
  match ev with EvDefine _ f => Some f | EvForget _ => None end.

(** The definitions of a slot, newest first, each with its record id. *)
Abbreviation Stack := (list (nat * Fact)) (only parsing).

Definition get_stack (m : gmap SlotId Stack) (s : SlotId) : Stack := default [] (m !! s).

Definition set_stack (m : gmap SlotId Stack) (s : SlotId) (l : Stack) : gmap SlotId Stack :=
  match l with [] => delete s m | _ => <[s := l]> m end.

#[global] Arguments set_stack : simpl never.

Definition stack_step (m : gmap SlotId Stack) (i : nat) (ev : Event) : gmap SlotId Stack :=
  match ev with
  | EvDefine s f => set_stack m s ((i, f) :: get_stack m s)
  | EvForget s => set_stack m s (tail (get_stack m s))
  end.

Fixpoint run_events (m : gmap SlotId Stack) (i : nat) (evs : list Event) : gmap SlotId Stack :=
  match evs with
  | [] => m
  | ev :: evs => run_events (stack_step m i ev) (S i) evs
  end.

Definition stacks (evs : list Event) : gmap SlotId Stack := run_events ∅ 0 evs.
Definition stack (evs : list Event) (s : SlotId) : Stack := get_stack (stacks evs) s.
Definition top (evs : list Event) (s : SlotId) : option (nat * Fact) := head (stack evs s).
Definition head_id (evs : list Event) (s : SlotId) : option nat := fst <$> top evs s.

(** ** What a kernel reports *)

Definition spec_resolve (evs : list Event) (s : SlotId) : option Fact := snd <$> top evs s.
Definition spec_definitions (evs : list Event) (s : SlotId) : list Fact := snd <$> stack evs s.
Definition spec_active_count (evs : list Event) : nat := size (stacks evs).

(** The log record of the [i]-th event. *)
Definition record_at (evs : list Event) (i : nat) : option LogRecord :=
  ev ← evs !! i;
  Some (LogRecord_mk i (event_kind ev) (event_slot ev) (event_fact ev)
    (head_id (take i evs) (event_slot ev))
    (head_id (take (S i) evs) (event_slot ev))).

Definition slot_ids (evs : list Event) (s : SlotId) : list nat :=
  filter (λ i, event_slot <$> evs !! i = Some s) (seq 0 (length evs)).

Definition spec_history (evs : list Event) (s : SlotId) : list LogRecord :=
  omap (record_at evs) (slot_ids evs s).

Definition event_entry (evs : list Event) (i : nat) : option (SlotId * Fact) :=
  match evs !! i with
  | Some (EvDefine s f) => Some (s, f)
  | _ => None
  end.

(** The active definitions in record order. *)
Definition active_ids (evs : list Event) : list nat :=
  sort_ids (omap (λ kv : SlotId * Stack, fst <$> head kv.2) (map_to_list (stacks evs))).

Definition active_entries (evs : list Event) : list (SlotId * Fact) :=
  omap (event_entry evs) (active_ids evs).

(** Record [i] is active and states [f]. *)
Definition active (evs : list Event) (i : nat) (f : Fact) : Prop := ∃ s, top evs s = Some (i, f).

(** ** Laws of the stacks *)

Lemma run_events_app m i evs1 evs2 :
  run_events m i (evs1 ++ evs2) = run_events (run_events m i evs1) (i + length evs1) evs2.
Proof.
  revert m i. induction evs1 as [|ev evs1 IH]; intros m i; simpl.
  - by rewrite Nat.add_0_r.
  - rewrite IH. f_equal. lia.
Qed.

Lemma stacks_snoc evs ev : stacks (evs ++ [ev]) = stack_step (stacks evs) (length evs) ev.
Proof. unfold stacks. by rewrite run_events_app. Qed.

Lemma get_set_stack m s l s' :
  get_stack (set_stack m s l) s' = if decide (s' = s) then l else get_stack m s'.
Proof.
  unfold get_stack, set_stack. destruct l as [|x l].
  - case_decide; subst; [by rewrite lookup_delete_eq|by rewrite lookup_delete_ne].
  - case_decide; subst; [by rewrite lookup_insert_eq|by rewrite lookup_insert_ne].
Qed.

Lemma stack_snoc evs ev s :
  stack (evs ++ [ev]) s =
  if decide (s = event_slot ev)
  then match ev with
       | EvDefine _ f => (length evs, f) :: stack evs s
       | EvForget _ => tail (stack evs s)
       end
  else stack evs s.
Proof.
  unfold stack. rewrite stacks_snoc.
  destruct ev; simpl; rewrite get_set_stack; case_decide; by subst.
Qed.

Lemma stack_nil s : stack [] s = [].
Proof. done. Qed.

Lemma set_stack_nonempty m s l :
  (∀ s, m !! s ≠ Some []) → ∀ s', set_stack m s l !! s' ≠ Some [].
Proof.
  intros Hm s'. unfold set_stack. destruct l; [|].
  - rewrite lookup_delete. case_decide; [done|apply Hm].
  - rewrite lookup_insert. case_decide; [done|apply Hm].
Qed.

Lemma stacks_nonempty evs s : stacks evs !! s ≠ Some [].
Proof.
  revert s. induction evs as [|ev evs IH] using rev_ind; intros s; [done|].
  rewrite stacks_snoc. destruct ev; by apply set_stack_nonempty.
Qed.

Lemma stacks_lookup evs s l : stacks evs !! s = Some l ↔ stack evs s = l ∧ l ≠ [].
Proof.
  unfold stack, get_stack. pose proof (stacks_nonempty evs s).
  destruct (stacks evs !! s) as [[|]|]; simpl; naive_solver.
Qed.

(** The stack below a definition is the stack the definition was pushed on. *)
Lemma stack_cons evs s i f l :
  stack evs s = (i, f) :: l →
  i < length evs ∧ evs !! i = Some (EvDefine s f) ∧ l = stack (take i evs) s.
Proof.
  remember (length evs) as n eqn:Hn. revert evs s i f l Hn.
  induction (lt_wf n) as [n _ IH]. intros evs s i f l -> Hs.
  destruct evs as [|ev evs _] using rev_ind; [done|].
  rewrite stack_snoc in Hs. rewrite length_app in *; simpl in *.
  assert (∀ i', i' ≤ length evs → take i' (evs ++ [ev]) = take i' evs) as Htake.
  { intros i' Hi'. by rewrite take_app_le. }
  assert (stack evs s = (i, f) :: l → i < length evs + 1 ∧
    (evs ++ [ev]) !! i = Some (EvDefine s f) ∧ l = stack (take i (evs ++ [ev])) s) as Hold.
  { intros H'. apply (IH (length evs)) in H' as (? & ? & ->); [|lia|done].
    split_and!; [lia|by apply lookup_app_l_Some|by rewrite Htake by lia]. }
  case_decide as Hev; [|by apply Hold].
  destruct ev as [s' f'|s']; simpl in *; subst s'.
  - injection Hs as <- <- <-. split_and!; [lia|apply lookup_snoc_length|].
    by rewrite Htake, take_ge by lia.
  - destruct (stack evs s) as [|[j g] l'] eqn:Hst; [done|]. simpl in Hs. subst l'.
    apply (IH (length evs)) in Hst as (Hj & _ & Hst); [|lia|done].
    symmetry in Hst. apply (IH (length (take j evs))) in Hst as (Hi & Hl & ->);
      [|rewrite length_take; lia|done].
    rewrite length_take in Hi. rewrite lookup_take_lt in Hl by lia.
    split_and!; [lia|by apply lookup_app_l_Some|].
    by rewrite Htake, take_take, Nat.min_l by lia.
Qed.

Lemma top_Some evs s i f :
  top evs s = Some (i, f) → i < length evs ∧ evs !! i = Some (EvDefine s f).
Proof.
  unfold top. destruct (stack evs s) as [|[j g] l] eqn:Hs; [done|].
  intros [= -> ->]. apply stack_cons in Hs. naive_solver.
Qed.

Lemma active_lookup evs i f :
  active evs i f → i < length evs ∧ ∃ s, evs !! i = Some (EvDefine s f) ∧ top evs s = Some (i, f).
Proof. intros [s Hs]. pose proof (top_Some _ _ _ _ Hs). naive_solver. Qed.

Lemma active_functional evs i f g : active evs i f → active evs i g → f = g.
Proof. intros (_ & s & H1 & _)%active_lookup (_ & s' & H2 & _)%active_lookup. congruence. Qed.

(** A record is the head of one slot at most. *)
Lemma top_slot_unique evs s1 s2 i f1 f2 :
  top evs s1 = Some (i, f1) → top evs s2 = Some (i, f2) → s1 = s2.
Proof. intros [_ H1]%top_Some [_ H2]%top_Some. congruence. Qed.

Lemma top_snoc evs ev s :
  top (evs ++ [ev]) s =
  if decide (s = event_slot ev)
  then match ev with
       | EvDefine _ f => Some (length evs, f)
       | EvForget _ => head (tail (stack evs s))
       end
  else top evs s.
Proof. unfold top. rewrite stack_snoc. case_decide; [|done]. by destruct ev. Qed.

(** ** Active records *)

Lemma elem_of_active_ids evs i : i ∈ active_ids evs ↔ ∃ f, active evs i f.
Proof.
  unfold active_ids, active, top. rewrite elem_of_sort_ids, list_elem_of_omap. split.
  - intros ([s l] & Hin & Hh). apply elem_of_map_to_list, stacks_lookup in Hin as [<- _].
    simpl in Hh. destruct (head (stack evs s)) as [[j f]|] eqn:E; simplify_eq/=. eauto.
  - intros (f & s & Hs). exists (s, stack evs s). simpl. rewrite Hs. split; [|done].
    apply elem_of_map_to_list, stacks_lookup. split; [done|]. by intros Hn; rewrite Hn in Hs.
Qed.

Lemma NoDup_active_ids evs : NoDup (active_ids evs).
Proof.
  unfold active_ids. rewrite sort_ids_Permutation.
  assert (∀ l : list (SlotId * Stack), NoDup l.*1 →
    (∀ s st, (s, st) ∈ l → stack evs s = st) →
    NoDup (omap (λ kv : SlotId * Stack, fst <$> head kv.2) l)) as Hgen.
  { induction l as [|[s st] l IH]; intros Hnd Hin; simpl in *; [constructor|].
    apply NoDup_cons in Hnd as [Hs Hnd].
    assert (NoDup (omap (λ kv : SlotId * Stack, fst <$> head kv.2) l)) as Hl.
    { apply IH; [done|]. intros. apply Hin. by right. }
    destruct st as [|[i f] st]; simpl; [done|]. constructor; [|done].
    intros ([s' st'] & Hin' & Hh)%list_elem_of_omap. simpl in Hh.
    destruct st' as [|[i' f'] st']; simplify_eq/=.
    assert (s = s') as <-.
    { apply (top_slot_unique evs _ _ i f f'); unfold top.
      - rewrite (Hin s ((i, f) :: st)); [done|by left].
      - rewrite (Hin s' ((i, f') :: st')); [done|by right]. }
    apply Hs, list_elem_of_fmap. exists (s, (i, f') :: st'). done. }
  apply Hgen; [apply NoDup_fst_map_to_list|].
  intros s st Hin. apply elem_of_map_to_list, stacks_lookup in Hin. naive_solver.
Qed.

Lemma Sorted_active_ids evs : Sorted (≤) (active_ids evs).
Proof. apply Sorted_sort_ids. Qed.

Lemma active_event_entry evs i f :
  active evs i f → ∃ s, event_entry evs i = Some (s, f) ∧ top evs s = Some (i, f).
Proof. intros (_ & s & H & ?)%active_lookup. exists s. unfold event_entry. by rewrite H. Qed.

Lemma active_ids_entry evs i : i ∈ active_ids evs → is_Some (event_entry evs i).
Proof. intros (f & (s & -> & _)%active_event_entry)%elem_of_active_ids. done. Qed.

Lemma elem_of_active_entries evs s f :
  (s, f) ∈ active_entries evs ↔ spec_resolve evs s = Some f.
Proof.
  unfold active_entries, spec_resolve. rewrite list_elem_of_omap. split.
  - intros (i & [g Hg]%elem_of_active_ids & He).
    apply active_event_entry in Hg as (s' & He' & Ht). rewrite He in He'.
    simplify_eq. by rewrite Ht.
  - destruct (top evs s) as [[i g]|] eqn:Ht; simpl; [intros [= ->]|done].
    exists i. split.
    + apply elem_of_active_ids. exists f. by exists s.
    + unfold event_entry. by rewrite (proj2 (top_Some _ _ _ _ Ht)).
Qed.

Definition entry_test (evs : list Event) (P : Fact → bool) (i : nat) : bool :=
  match event_entry evs i with Some (_, f) => P f | None => false end.

(** A list of ids that selects active records by a test on their facts is, once
    sorted, the filtered list of active ids. *)
Lemma ids_filter_unique evs (ids : list nat) (P : Fact → bool) :
  NoDup ids →
  (∀ i, i ∈ ids ↔ ∃ f, active evs i f ∧ P f = true) →
  sort_ids ids = filter (λ i, entry_test evs P i = true) (active_ids evs).
Proof.
  intros Hnd Hids. apply sort_ids_unique.
  - apply NoDup_Permutation; [done|apply NoDup_filter, NoDup_active_ids|].
    intros i. rewrite Hids, list_elem_of_filter, elem_of_active_ids. unfold entry_test. split.
    + intros (f & Ha & HP). destruct (active_event_entry _ _ _ Ha) as (s & -> & _). eauto.
    + intros (HP & f & Ha). destruct (active_event_entry _ _ _ Ha) as (s & He & _).
      rewrite He in HP. eauto.
  - apply StronglySorted_Sorted, StronglySorted_filter, Sorted_StronglySorted, Sorted_active_ids.
    apply _.
Qed.

Lemma mapM_entry_filter evs P :
  mapM (event_entry evs) (filter (λ i, entry_test evs P i = true) (active_ids evs)) =
  Some (filter (λ e : SlotId * Fact, P e.2 = true) (active_entries evs)).
Proof.
  unfold active_entries.
  assert (∀ i, i ∈ active_ids evs → is_Some (event_entry evs i)) as Hsome
    by apply active_ids_entry.
  induction (active_ids evs) as [|i ids IH]; [done|].
  destruct (Hsome i) as [[s f] He]; [by left|].
  specialize (IH (λ j Hj, Hsome j (list_elem_of_further _ _ _ Hj))).
  assert (entry_test evs P i = P f) as Ht by (unfold entry_test; by rewrite He).
  simpl. rewrite He, !filter_cons. simpl.
  destruct (decide (entry_test evs P i = true)), (decide (P f = true)); try congruence;
    [|exact IH].
  simpl. by rewrite He, IH.
Qed.

(** An index structure over record ids meets the query contract as soon as its
    candidates are the active records that match. *)
Lemma query_source_ids evs (candidates : Pattern → Binding → option (list nat))
    (entry : nat → option (SlotId * Fact)) :
  (∀ p b, candidates p b = Some (filter (λ i, entry_test evs (cand_matchb p b) i = true) (active_ids evs))) →
  (∀ i, i ∈ active_ids evs → entry i = event_entry evs i) →
  QuerySource candidates entry (active_entries evs).
Proof.
  intros Hc He p b. rewrite Hc. simpl. unfold spec_candidates. rewrite <- mapM_entry_filter.
  apply Forall_mapM_ext, Forall_forall. intros i [_ Hi]%list_elem_of_filter. auto.
Qed.

(** ** Records and histories *)

Lemma head_id_snoc_define evs s f : head_id (evs ++ [EvDefine s f]) s = Some (length evs).
Proof. unfold head_id. rewrite top_snoc. simpl. by rewrite decide_True. Qed.

Lemma head_id_snoc_ne evs ev s : s ≠ event_slot ev → head_id (evs ++ [ev]) s = head_id evs s.
Proof. intros H. unfold head_id. rewrite top_snoc. by rewrite decide_False. Qed.

Lemma record_at_snoc evs ev i :
  record_at (evs ++ [ev]) i =
  if decide (i = length evs)
  then Some (LogRecord_mk i (event_kind ev) (event_slot ev) (event_fact ev)
    (head_id evs (event_slot ev)) (head_id (evs ++ [ev]) (event_slot ev)))
  else record_at evs i.
Proof.
  unfold record_at. case_decide as Hi.
  - subst. rewrite lookup_snoc_length. simpl. rewrite take_app_length.
    by rewrite take_ge by (rewrite length_app; simpl; lia).
  - destruct (decide (i < length evs)).
    + rewrite lookup_app_l by done. by rewrite !take_app_le by lia.
    + rewrite !lookup_ge_None_2; [done|lia|rewrite length_app; simpl; lia].
Qed.

Lemma record_at_Some evs i r :
  record_at evs i = Some r →
  rec_id r = i ∧ ∃ ev, evs !! i = Some ev ∧ rec_kind r = event_kind ev ∧
    rec_slot r = event_slot ev ∧ rec_fact r = event_fact ev ∧
    rec_previous_head r = head_id (take i evs) (event_slot ev).
Proof.
  unfold record_at. destruct (evs !! i) as [ev|]; simpl; [|done].
  intros [= <-]. naive_solver.
Qed.

Lemma record_at_is_Some evs i : i < length evs → is_Some (record_at evs i).
Proof. intros H. unfold record_at. destruct (lookup_lt_is_Some_2 _ _ H) as [? ->]. done. Qed.

Lemma record_at_active evs s i f :
  top evs s = Some (i, f) →
  ∃ r, record_at evs i = Some r ∧ rec_kind r = Define ∧ rec_slot r = s ∧ rec_fact r = Some f.
Proof.
  intros [Hi He]%top_Some. destruct (record_at_is_Some _ _ Hi) as [r Hr].
  exists r. destruct (record_at_Some _ _ _ Hr) as (_ & ev & Hev & ? & ? & ? & _). naive_solver.
Qed.

Lemma slot_ids_snoc evs ev s :
  slot_ids (evs ++ [ev]) s =
  if decide (s = event_slot ev) then slot_ids evs s ++ [length evs] else slot_ids evs s.
Proof.
  unfold slot_ids. rewrite length_app. simpl. rewrite Nat.add_1_r, seq_S, filter_app. simpl.
  assert (filter (λ i, event_slot <$> (evs ++ [ev]) !! i = Some s) (seq 0 (length evs)) =
    filter (λ i, event_slot <$> evs !! i = Some s) (seq 0 (length evs))) as ->.
  { apply filter_ext_in. intros i Hi%elem_of_seq. by rewrite lookup_app_l by lia. }
  rewrite filter_cons, lookup_snoc_length. simpl.
  destruct (decide (Some (event_slot ev) = Some s)), (decide (s = event_slot ev)); try congruence;
    simpl; by rewrite ?app_nil_r.
Qed.

Lemma elem_of_slot_ids evs s i : i ∈ slot_ids evs s → i < length evs.
Proof. intros [_ ?%elem_of_seq]%list_elem_of_filter. lia. Qed.

Lemma stack_length evs s : length (stack evs s) ≤ length evs.
Proof.
  induction evs as [|ev evs IH] using rev_ind; [done|].
  rewrite stack_snoc, length_app. simpl. case_decide; [|lia].
  destruct ev; simpl; [lia|]. destruct (stack evs s); simpl in *; lia.
Qed.

Lemma head_id_Some evs s i : head_id evs s = Some i ↔ ∃ f, top evs s = Some (i, f).
Proof. unfold head_id. destruct (top evs s) as [[]|]; naive_solver. Qed.

Lemma top_head_id evs s : head_id evs s = None ↔ top evs s = None.
Proof. unfold head_id. by destruct (top evs s). Qed.

(** What forgetting reveals, in terms of the log: the previous head of the
    current head's record. *)
Lemma previous_head_revealed evs s i f :
  top evs s = Some (i, f) → head_id (take i evs) s = head_id (evs ++ [EvForget s]) s.
Proof.
  unfold head_id. rewrite top_snoc. unfold top. simpl. rewrite decide_True by done.
  destruct (stack evs s) as [|[j g] l] eqn:Hs; [done|]. intros [= -> ->].
  apply stack_cons in Hs as (_ & _ & ->). done.
Qed.

(** One step down a stack, as a kernel finds it in the log. *)
Lemma stack_chain evs s n i f l :
  stack (take n evs) s = (i, f) :: l →
  ∃ r, record_at evs i = Some r ∧ rec_fact r = Some f ∧
    rec_previous_head r = head_id (take i evs) s ∧ l = stack (take i evs) s.
Proof.
  intros (Hi & He & Hl)%stack_cons. rewrite length_take in Hi.
  rewrite take_take, Nat.min_l in Hl by lia. rewrite lookup_take_lt in He by lia.
  destruct (record_at_is_Some evs i ltac:(lia)) as [r Hr]. exists r.
  destruct (record_at_Some _ _ _ Hr) as (_ & ev & He' & _ & Hs & Hf & Hp).
  rewrite He in He'. injection He' as <-. simpl in *. by subst.
Qed.

(** ** Head tables *)

Lemma head_table_size (g : gmap SlotId nat) evs :
  (∀ s, g !! s = head_id evs s) → size g = spec_active_count evs.
Proof.
  intros Hg. unfold spec_active_count. rewrite <- !size_dom. f_equal.
  apply set_eq. intros s. rewrite !elem_of_dom, Hg. unfold head_id, top, stack, get_stack.
  pose proof (stacks_nonempty evs s).
  destruct (stacks evs !! s) as [[|]|]; simpl; split; try done; by intros [].
Qed.

(** The head ids of any head table that agrees with the history. *)
Lemma head_values_active (m : gmap SlotId nat) evs :
  (∀ s, m !! s = head_id evs s) →
  ∀ i, i ∈ (map_to_list m).*2 ↔ i ∈ active_ids evs.
Proof.
  intros Hm i. rewrite elem_of_active_ids, list_elem_of_fmap. split.
  - intros ([s j] & -> & Hin%elem_of_map_to_list). rewrite Hm in Hin.
    apply head_id_Some in Hin as (f & Hf). exists f. by exists s.
  - intros (f & s & Hs). exists (s, i). split; [done|]. apply elem_of_map_to_list.
    rewrite Hm. apply head_id_Some. eauto.
Qed.

Lemma head_values_NoDup (m : gmap SlotId nat) evs :
  (∀ s, m !! s = head_id evs s) → NoDup (map_to_list m).*2.
Proof.
  intros Hm. apply NoDup_fmap_2_strong; [|apply NoDup_map_to_list].
  intros [s1 i1] [s2 i2] H1%elem_of_map_to_list H2%elem_of_map_to_list Heq. simpl in Heq. subst i2.
  rewrite Hm in H1, H2. apply head_id_Some in H1 as [f1 H1], H2 as [f2 H2].
  by rewrite (top_slot_unique _ _ _ _ _ _ H1 H2).
Qed.

Lemma head_values_Permutation (m : gmap SlotId nat) evs :
  (∀ s, m !! s = head_id evs s) → (map_to_list m).*2 ≡ₚ active_ids evs.
Proof.
  intros Hm. apply NoDup_Permutation.
  - by eapply head_values_NoDup.
  - apply NoDup_active_ids.
  - by apply head_values_active.
Qed.

Lemma head_table_exists evs : ∃ g : gmap SlotId nat, ∀ s, g !! s = head_id evs s.
Proof.
  exists (omap (λ st : Stack, fst <$> head st) (stacks evs)). intros s.
  rewrite lookup_omap. unfold head_id, top, stack, get_stack. by destruct (stacks evs !! s).
Qed.

Lemma length_active_ids evs : length (active_ids evs) = spec_active_count evs.
Proof.
  destruct (head_table_exists evs) as [g Hg].
  rewrite <- (head_values_Permutation _ _ Hg), length_fmap, length_map_to_list.
  by apply head_table_size.
Qed.

Lemma spec_active_count_le evs : spec_active_count evs ≤ length evs.
Proof.
  rewrite <- length_active_ids.
  rewrite <- (length_seq (length evs) 0). apply submseteq_length, NoDup_submseteq.
  - apply NoDup_active_ids.
  - intros i (f & Hf)%elem_of_active_ids. apply active_lookup in Hf as [? _].
    apply elem_of_seq. lia.
Qed.

Lemma sort_ids_active (l : list nat) evs :
  (∀ i, i ∈ l ↔ i ∈ active_ids evs) →
  sort_ids (elements (list_to_set (C := gset nat) l)) = active_ids evs.
Proof.
  intros Hl. apply sort_ids_unique; [|apply Sorted_active_ids].
  apply NoDup_Permutation; [apply NoDup_elements|apply NoDup_active_ids|].
  intros i. by rewrite elem_of_elements, elem_of_list_to_set.
Qed.

Lemma mapM_records (get : nat → option LogRecord) evs ids :
  (∀ i, get i = record_at evs i) → (∀ i, i ∈ ids → i < length evs) →
  mapM get ids = Some (omap (record_at evs) ids).
Proof.
  intros Hget. induction ids as [|i ids IH]; intros Hids; [done|].
  simpl. rewrite Hget.
  destruct (record_at_is_Some evs i) as [r Hr]; [apply Hids; by left|]. rewrite Hr. simpl.
  rewrite IH by (intros; apply Hids; by right). done.
Qed.
