(* ===== verification/Index.v ===== *)
(** Secondary indexes: what an index from keys to buckets of record ids must
    satisfy, and that bucket insertion, removal and replacement keep it.

    The indexes are described by their lookup functions, so the legacy view
    (standard hash maps), the shared view (sharded persistent maps) and the
    query projection use the same laws. *)
From Stdlib Require Import NArith Lia.
From stdpp Require Import sorting base gmap list strings fin_maps option list_monad.
From S2P Require Import Prelude Ord Terms Query QueryFacts Spec.

Abbreviation Bucket := (gset nat) (only parsing).

(** The relation between record ids and the facts they index. *)
Abbreviation Indexed := (nat → Fact → Prop) (only parsing).

Definition idx_ok {K} (proj : Fact → K) (lk : K → option Bucket) (A : Indexed) : Prop :=
  (∀ k X, lk k = Some X → X ≠ ∅) ∧
  (∀ k i, i ∈ default ∅ (lk k) ↔ ∃ f, A i f ∧ proj f = k).

Definition indexed_iff (A B : Indexed) : Prop := ∀ i f, A i f ↔ B i f.
Definition indexed_functional (A : Indexed) : Prop := ∀ i f g, A i f → A i g → f = g.
Definition add_indexed (A : Indexed) (i : nat) (f : Fact) : Indexed :=
  λ j g, A j g ∨ (j = i ∧ g = f).
Definition del_indexed (A : Indexed) (i : nat) : Indexed := λ j g, A j g ∧ j ≠ i.

#[export] Instance indexed_iff_equiv : Equivalence indexed_iff.
Proof. unfold indexed_iff. split; [firstorder|firstorder|]. intros A B C H1 H2 i f. by rewrite H1. Qed.

#[export] Instance idx_ok_proper {K} (proj : Fact → K) :
  Proper (pointwise_relation K eq ==> indexed_iff ==> iff) (idx_ok proj).
Proof.
  assert (∀ lk1 lk2 A B, pointwise_relation K eq lk1 lk2 → indexed_iff A B →
    idx_ok proj lk1 A → idx_ok proj lk2 B) as Hhalf.
  { intros lk1 lk2 A B Hlk HA [H1 H2]. split.
    - intros k X. rewrite <- (Hlk k). apply H1.
    - intros k i. rewrite <- (Hlk k), H2. by setoid_rewrite (HA i). }
  intros lk1 lk2 Hlk A B HA. split; apply Hhalf; try done; by symmetry.
Qed.

Section operations.
Context {K : Type} `{EqDecision K} (proj : Fact → K).

(** What [insert_index], [remove_index] and [replace_index] do to lookups. *)
Definition lk_insert (lk : K → option Bucket) (k : K) (i : nat) : K → option Bucket :=
  λ k', if decide (k' = k) then Some ({[i]} ∪ default ∅ (lk k)) else lk k'.

Definition lk_remove (lk : K → option Bucket) (k : K) (i : nat) : K → option Bucket :=
  λ k', if decide (k' = k)
        then (X ← lk k; let X := X ∖ {[i]} in if decide (X = ∅) then None else Some X)
        else lk k'.

Definition lk_replace (lk : K → option Bucket) (k : K) (i j : nat) : K → option Bucket :=
  λ k', if decide (k' = k) then (X ← lk k; Some ({[j]} ∪ X ∖ {[i]})) else lk k'.

Lemma idx_empty : idx_ok proj (λ _, None) (λ _ _, False).
Proof. split; [done|]. intros k i. simpl. rewrite elem_of_empty. naive_solver. Qed.

Lemma idx_insert lk A i f :
  idx_ok proj lk A → idx_ok proj (lk_insert lk (proj f) i) (add_indexed A i f).
Proof.
  unfold lk_insert, add_indexed. intros [H1 H2]. split; intros k.
  - intros X. case_decide; [|apply H1]. intros [= <-]. set_solver.
  - intros j. case_decide as Hk; simpl.
    + subst k. rewrite elem_of_union, elem_of_singleton, H2. naive_solver.
    + rewrite H2. naive_solver.
Qed.

Lemma lk_remove_elem lk k i k' j :
  j ∈ default ∅ (lk_remove lk k i k') ↔ j ∈ default ∅ (lk k') ∧ ¬ (k' = k ∧ j = i).
Proof.
  unfold lk_remove. case_decide as Hk; [subst k'|naive_solver].
  destruct (lk k) as [X|]; simpl; [|set_solver].
  case_decide as HX; simpl.
  - rewrite elem_of_empty. split; [done|]. intros [Hj Hn].
    assert (j ∈ X ∖ {[i]}) as Hj' by (apply elem_of_difference; set_solver).
    by rewrite HX in Hj'.
  - rewrite elem_of_difference, elem_of_singleton. naive_solver.
Qed.

Lemma idx_remove lk A i f :
  indexed_functional A → A i f →
  idx_ok proj lk A → idx_ok proj (lk_remove lk (proj f) i) (del_indexed A i).
Proof.
  intros Hfun Hi [H1 H2]. split; intros k.
  - intros X. unfold lk_remove. case_decide; [|apply H1].
    destruct (lk (proj f)); simpl; [|done]. case_decide; naive_solver.
  - intros j. rewrite lk_remove_elem, H2. unfold del_indexed. split.
    + intros [(g & Hg & <-) Hn]. exists g. split_and!; [done| |done].
      intros ->. apply Hn. by rewrite (Hfun i g f).
    + intros (g & [Hg Hj] & <-). split; [eauto|]. naive_solver.
Qed.

(** Replacing in place is removing and inserting, when the bucket has the
    old id. *)
Lemma idx_replace lk A i j f g :
  indexed_functional A → A i f → proj g = proj f → i ≠ j →
  idx_ok proj lk A →
  idx_ok proj (lk_replace lk (proj f) i j) (add_indexed (del_indexed A i) j g).
Proof.
  intros Hfun Hi Hp Hij Hok.
  pose proof (idx_insert _ _ j g (idx_remove _ _ i f Hfun Hi Hok)) as H.
  rewrite Hp in H. revert H. apply idx_ok_proper; [|done]. intros k.
  destruct Hok as [_ H2]. specialize (H2 (proj f) i).
  unfold lk_replace, lk_insert, lk_remove. case_decide; [|done].
  rewrite decide_True by done.
  destruct (lk (proj f)) as [X|]; simpl in *.
  - f_equal. case_decide as HX; simpl; set_solver.
  - assert (i ∈ (∅ : gset nat)) by (apply H2; eauto). set_solver.
Qed.
End operations.

(** ** The seven indexes of a view *)

Record lookups := Lookups {
  lk_subject : Atom → option Bucket;
  lk_predicate : Predicate → option Bucket;
  lk_object : Atom → option Bucket;
  lk_subject_predicate : Atom * Predicate → option Bucket;
  lk_subject_object : Atom * Atom → option Bucket;
  lk_predicate_object : Predicate * Atom → option Bucket;
  lk_exact : Fact → option Bucket;
}.

Definition proj_sp (f : Fact) := (fact_subject f, fact_predicate f).
Definition proj_so (f : Fact) := (fact_subject f, fact_object f).
Definition proj_po (f : Fact) := (fact_predicate f, fact_object f).

Definition lookups_ok (L : lookups) (A : Indexed) : Prop :=
  idx_ok fact_subject (lk_subject L) A ∧
  idx_ok fact_predicate (lk_predicate L) A ∧
  idx_ok fact_object (lk_object L) A ∧
  idx_ok proj_sp (lk_subject_predicate L) A ∧
  idx_ok proj_so (lk_subject_object L) A ∧
  idx_ok proj_po (lk_predicate_object L) A ∧
  idx_ok id (lk_exact L) A.

#[export] Instance lookups_ok_proper : Proper (eq ==> indexed_iff ==> iff) lookups_ok.
Proof.
  intros L ? <- A B HAB. unfold lookups_ok.
  repeat f_equiv; done.
Qed.

(** The bucket the candidates come from; [None] asks for all active records. *)
Definition pick (L : lookups) (s : option Atom) (p : option Predicate) (o : option Atom) :
    option (option Bucket) :=
  match s, p, o with
  | Some s, Some p, Some o => Some (lk_exact L (Fact_new s p o))
  | Some s, Some p, None => Some (lk_subject_predicate L (s, p))
  | Some s, None, Some o => Some (lk_subject_object L (s, o))
  | None, Some p, Some o => Some (lk_predicate_object L (p, o))
  | Some s, None, None => Some (lk_subject L s)
  | None, Some p, None => Some (lk_predicate L p)
  | None, None, Some o => Some (lk_object L o)
  | None, None, None => None
  end.

Definition pick_for (L : lookups) (p : Pattern) (b : Binding) : option (option Bucket) :=
  pick L (resolved_atom (pat_subject p) b) (resolved_predicate (pat_predicate p) b)
    (resolved_atom (pat_object p) b).

Lemma pick_ok L A p b X i :
  lookups_ok L A → pick_for L p b = Some X →
  i ∈ default ∅ X ↔ ∃ f, A i f ∧ cand_matchb p b f = true.
Proof.
  unfold lookups_ok, pick_for. intros (H1 & H2 & H3 & H4 & H5 & H6 & H7).
  setoid_rewrite cand_matchb_spec. unfold cand_match.
  destruct (resolved_atom (pat_subject p) b) as [s|],
    (resolved_predicate (pat_predicate p) b) as [q|],
    (resolved_atom (pat_object p) b) as [o|]; simpl; try done; intros [= <-];
    [rewrite (proj2 H7)|rewrite (proj2 H4)|rewrite (proj2 H5)|rewrite (proj2 H1)
    |rewrite (proj2 H6)|rewrite (proj2 H2)|rewrite (proj2 H3)];
    unfold proj_sp, proj_so, proj_po; f_equiv; intros [fs fp fo]; simpl; naive_solver.
Qed.

Lemma pick_none L p b :
  pick_for L p b = None → ∀ f, cand_matchb p b f = true.
Proof.
  unfold pick_for, cand_matchb.
  by destruct (resolved_atom (pat_subject p) b), (resolved_predicate (pat_predicate p) b),
    (resolved_atom (pat_object p) b).
Qed.

(** ** Candidates *)

Lemma active_functional' evs : indexed_functional (active evs).
Proof. intros i f g. apply active_functional. Qed.

Lemma candidates_ok L evs p b :
  lookups_ok L (active evs) →
  match pick_for L p b with
  | Some X => sort_ids (elements (default ∅ X))
  | None => active_ids evs
  end = filter (λ i, entry_test evs (cand_matchb p b) i = true) (active_ids evs).
Proof.
  intros HL. destruct (pick_for L p b) as [X|] eqn:Hp.
  - apply ids_filter_unique; [apply NoDup_elements|].
    intros i. rewrite elem_of_elements. by eapply pick_ok.
  - rewrite <- ids_filter_unique with (ids := active_ids evs).
    + symmetry. by apply sort_ids_unique, Sorted_active_ids.
    + apply NoDup_active_ids.
    + intros i. rewrite elem_of_active_ids. f_equiv. intros f.
      pose proof (pick_none _ _ _ Hp f). naive_solver.
Qed.

(** ** How the active records change *)

Lemma active_define_new evs s f :
  head_id evs s = None →
  indexed_iff (active (evs ++ [EvDefine s f])) (add_indexed (active evs) (length evs) f).
Proof.
  unfold head_id, active, add_indexed. intros Hh i g. setoid_rewrite top_snoc. simpl. split.
  - intros (s' & Hs). case_decide; naive_solver.
  - intros [(s' & Hs)|[-> ->]].
    + exists s'. case_decide; [|done]. subst. by rewrite Hs in Hh.
    + exists s. by rewrite decide_True.
Qed.

Lemma active_del_slot evs s i f :
  top evs s = Some (i, f) →
  ∀ j g, del_indexed (active evs) i j g ↔ ∃ s', s' ≠ s ∧ top evs s' = Some (j, g).
Proof.
  intros Ht j g. unfold del_indexed, active. split.
  - intros [(s' & Hs') Hj]. exists s'. split; [|done]. intros ->. naive_solver.
  - intros (s' & Hne & Hs'). split; [eauto|]. intros ->.
    apply Hne. by apply (top_slot_unique evs _ _ i g f).
Qed.

Lemma active_define_over evs s i f g :
  top evs s = Some (i, g) →
  indexed_iff (active (evs ++ [EvDefine s f]))
    (add_indexed (del_indexed (active evs) i) (length evs) f).
Proof.
  intros Ht j h. unfold add_indexed. rewrite (active_del_slot _ _ _ _ Ht).
  unfold active. setoid_rewrite top_snoc. simpl. split.
  - intros (s' & Hs). case_decide; naive_solver.
  - intros [(s' & Hne & Hs)|[-> ->]].
    + exists s'. by rewrite decide_False.
    + exists s. by rewrite decide_True.
Qed.

Lemma active_forget_none evs s :
  head_id evs s = None → indexed_iff (active (evs ++ [EvForget s])) (active evs).
Proof.
  unfold head_id, top. intros Hh i f. unfold active. f_equiv. intros s'.
  rewrite top_snoc. simpl. case_decide; [|done]. subst s'. unfold top.
  by destruct (stack evs s).
Qed.

Lemma active_forget_last evs s i f :
  stack evs s = [(i, f)] →
  indexed_iff (active (evs ++ [EvForget s])) (del_indexed (active evs) i).
Proof.
  intros Hs j g. rewrite (active_del_slot evs s i f) by (unfold top; by rewrite Hs).
  unfold active. f_equiv. intros s'. rewrite top_snoc. simpl.
  case_decide; [subst; rewrite Hs|]; naive_solver.
Qed.

Lemma active_forget_reveal evs s i f j g l :
  stack evs s = (i, f) :: (j, g) :: l →
  indexed_iff (active (evs ++ [EvForget s])) (add_indexed (del_indexed (active evs) i) j g).
Proof.
  intros Hs k h. unfold add_indexed.
  rewrite (active_del_slot evs s i f) by (unfold top; by rewrite Hs).
  unfold active. setoid_rewrite top_snoc. simpl. split.
  - intros (s' & Ht). case_decide; [subst; rewrite Hs in Ht|]; naive_solver.
  - intros [(s' & Hne & Ht)|[-> ->]].
    + exists s'. by rewrite decide_False.
    + exists s. by rewrite decide_True, Hs.
Qed.
