(* ===== verification/Kernel.v ===== *)
(** The kernel interface.

    [Kernel] is the public API of a [ForthDb]; [KernelLaws] is what a kernel
    promises its clients: every operation succeeds (no panic), and everything
    it reports is the function of the event history that [Spec] defines.  The
    legacy kernel and the structurally shared kernel are instances; worlds are
    written and proved against the interface.

    The convenience operations on top of [define] and [resolve] (display
    names, symbols, pattern compilation; lib.rs, lines 640-722 and 832-838, and
    verbatim in shared_db_v2.rs) are defined here once over the interface. *)
From Stdlib Require Import NArith Lia.
From stdpp Require Import sorting base gmap list strings pretty fin_maps option list_monad.
From S2P Require Import Prelude Ord Terms Query QueryFacts Spec Index.

(** In the results, [None] is a panic (index out of range, failed [expect]). *)
Class Kernel (D : Type) := {
  kernel_new : D;
  kernel_entity : D → EntityId * D;
  kernel_define : D → SlotId → Fact → option (nat * D);
  kernel_forget : D → SlotId → option (nat * D);
  kernel_resolve : D → SlotId → option (option Fact);
  kernel_definitions : D → SlotId → option (list Fact);
  kernel_history : D → SlotId → option (list LogRecord);
  kernel_active_slot_count : D → N;
  kernel_record_count : D → nat;
  kernel_query : D → list Pattern → QueryOptions → option QueryResult;
  kernel_validate : D → outcome string unit;
}.

(** [k_rep d evs n]: the kernel [d] has seen the events [evs] and will mint
    entity [n] next. *)
Class KernelLaws (D : Type) `{Kernel D} := {
  k_rep : D → list Event → N → Prop;
  k_rep_new : k_rep kernel_new [] 1;
  k_rep_entity d evs n : k_rep d evs n →
    (kernel_entity d).1 = EntityId_new n ∧ k_rep (kernel_entity d).2 evs (u64_add n 1);
  k_rep_define d evs n s f : k_rep d evs n →
    ∃ d', kernel_define d s f = Some (length evs, d') ∧ k_rep d' (evs ++ [EvDefine s f]) n;
  k_rep_forget d evs n s : k_rep d evs n →
    ∃ d', kernel_forget d s = Some (length evs, d') ∧ k_rep d' (evs ++ [EvForget s]) n;
  k_rep_resolve d evs n s : k_rep d evs n → kernel_resolve d s = Some (spec_resolve evs s);
  k_rep_definitions d evs n s : k_rep d evs n →
    kernel_definitions d s = Some (spec_definitions evs s);
  k_rep_history d evs n s : k_rep d evs n → kernel_history d s = Some (spec_history evs s);
  k_rep_active_slot_count d evs n : k_rep d evs n →
    kernel_active_slot_count d = usize_of (spec_active_count evs);
  k_rep_record_count d evs n : k_rep d evs n → kernel_record_count d = length evs;
  k_rep_query d evs n ps o : k_rep d evs n →
    kernel_query d ps o = Some (spec_query (active_entries evs) ps o);
  k_rep_validate d evs n : k_rep d evs n → kernel_validate d = Ok tt;
}.

(** ** The operations built on the interface *)

Definition display_slot (e : EntityId) : SlotId :=
  SlotId_new ("display/" +:+ pretty (entity_value e)).

Definition symbol_slot (namespace : string) (symbol : Symbol) : SlotId :=
  SlotId_new ("namespace/" +:+ namespace +:+ "/" +:+ symbol_str symbol).

Definition display_name_predicate : Predicate := Predicate_new "display_name".
Definition resolves_to_predicate : Predicate := Predicate_new "resolves_to".

Section names.
Context {D : Type} `{Kernel D}.

Definition define_display_name (d : D) (e : EntityId) (name : string) : option (nat * D) :=
  kernel_define d (display_slot e)
    (Fact_new (AEntity e) display_name_predicate (ALiteral (Literal_new name))).

Definition display_name (d : D) (e : EntityId) : option string :=
  r ← kernel_resolve d (display_slot e);
  Some (default (EntityId_display e)
    (fact ← r;
     match fact_object fact with
     | ALiteral l => Some (literal_str l)
     | AEntity _ => None
     end)).

Definition bind_symbol (d : D) (namespace : string) (symbol : Symbol) (e : EntityId) :
    option (nat * D) :=
  kernel_define d (symbol_slot namespace symbol)
    (Fact_new (ALiteral (Literal_new (namespace +:+ ":" +:+ symbol_str symbol)))
       resolves_to_predicate (AEntity e)).

Definition resolve_symbol (d : D) (namespace : string) (symbol : Symbol) :
    option (option EntityId) :=
  r ← kernel_resolve d (symbol_slot namespace symbol);
  Some (fact ← r;
    match fact_object fact with
    | AEntity e => Some e
    | ALiteral _ => None
    end).

Definition compile_term (d : D) (namespace : string) (term : SourceTerm) : outcome string Term :=
  match term with
  | SAtom a => Ok (TAtom a)
  | SVariable v => Ok (TVariable v)
  | SSymbol symbol =>
      let* r := or_panic (resolve_symbol d namespace symbol) in
      ok_or ((λ e, TAtom (AEntity e)) <$> r)
        ("unbound symbol " +:+ namespace +:+ ":" +:+ symbol_str symbol)
  end.

Definition compile_pattern (d : D) (namespace : string) (subject : SourceTerm)
    (predicate : Predicate) (object : SourceTerm) : outcome string Pattern :=
  let* subject := compile_term d namespace subject in
  let* object := compile_term d namespace object in
  Ok (Pattern_new subject (PPredicate predicate) object).

Definition render_value (d : D) (v : BoundValue) : option string :=
  match v with
  | BEntity e => display_name d e
  | BLiteral l => Some (literal_str l)
  | BPredicate p => Some (predicate_str p)
  end.

(** Applying a history of events to a kernel. *)
Definition kernel_apply (d : D) (ev : Event) : option D :=
  match ev with
  | EvDefine s f => snd <$> kernel_define d s f
  | EvForget s => snd <$> kernel_forget d s
  end.

Fixpoint kernel_run (d : D) (evs : list Event) : option D :=
  match evs with
  | [] => Some d
  | ev :: evs => d' ← kernel_apply d ev; kernel_run d' evs
  end.
End names.

(** ** Consequences of the laws *)

Section laws.
Context {D : Type} `{KernelLaws D}.

Lemma k_rep_apply d evs n ev :
  k_rep d evs n → ∃ d', kernel_apply d ev = Some d' ∧ k_rep d' (evs ++ [ev]) n.
Proof.
  intros Hd. destruct ev as [s f|s]; simpl.
  - destruct (k_rep_define d evs n s f Hd) as (d' & -> & ?). eauto.
  - destruct (k_rep_forget d evs n s Hd) as (d' & -> & ?). eauto.
Qed.

Lemma k_rep_run d evs n evs' :
  k_rep d evs n → ∃ d', kernel_run d evs' = Some d' ∧ k_rep d' (evs ++ evs') n.
Proof.
  revert d evs. induction evs' as [|ev evs' IH]; intros d evs Hd; simpl.
  { rewrite app_nil_r. eauto. }
  destruct (k_rep_apply d evs n ev Hd) as (d1 & -> & H1). simpl.
  destruct (IH _ _ H1) as (d2 & ? & H2). exists d2.
  by rewrite <- (assoc_L (++)) in H2.
Qed.

Lemma resolve_symbol_spec d evs n ns sym :
  k_rep d evs n →
  resolve_symbol d ns sym =
  Some (f ← spec_resolve evs (symbol_slot ns sym);
        match fact_object f with AEntity e => Some e | ALiteral _ => None end).
Proof. intros Hd. unfold resolve_symbol. by erewrite k_rep_resolve by done. Qed.

Lemma compile_term_ok d evs n ns t :
  k_rep d evs n →
  match t with
  | SAtom a => compile_term d ns t = Ok (TAtom a)
  | SVariable v => compile_term d ns t = Ok (TVariable v)
  | SSymbol sym =>
      (∃ e, resolve_symbol d ns sym = Some (Some e) ∧ compile_term d ns t = Ok (TAtom (AEntity e))) ∨
      (resolve_symbol d ns sym = Some None ∧
       compile_term d ns t = Err ("unbound symbol " +:+ ns +:+ ":" +:+ symbol_str sym))
  end.
Proof.
  intros Hd. destruct t as [| |sym]; simpl; try done.
  erewrite resolve_symbol_spec by done.
  destruct (spec_resolve _ _ ≫= _) as [e|]; simpl; eauto.
Qed.
End laws.

(** ** Laws of the specification *)

Lemma stacks_define_forget evs s f s' :
  stack (evs ++ [EvDefine s f; EvForget s]) s' = stack evs s'.
Proof.
  change [EvDefine s f; EvForget s] with ([EvDefine s f] ++ [EvForget s]).
  rewrite (assoc_L (++)), !stack_snoc. simpl. by case_decide.
Qed.

Lemma spec_resolve_snoc evs ev s :
  s ≠ event_slot ev → spec_resolve (evs ++ [ev]) s = spec_resolve evs s.
Proof. intros Hs. unfold spec_resolve. by rewrite top_snoc, decide_False. Qed.

Lemma spec_resolve_define evs s f : spec_resolve (evs ++ [EvDefine s f]) s = Some f.
Proof. unfold spec_resolve. by rewrite top_snoc, decide_True. Qed.

(** Two histories whose tops agree have the same active entries. *)
Lemma active_entries_ext evs1 evs2 :
  (∀ s, top evs1 s = top evs2 s) → active_entries evs1 = active_entries evs2.
Proof.
  intros Htop.
  assert (∀ i f, active evs1 i f ↔ active evs2 i f) as Hact.
  { intros i f. unfold active. by setoid_rewrite Htop. }
  assert (active_ids evs1 = active_ids evs2) as Hids.
  { apply (Sorted_unique (≤)); [apply Sorted_active_ids..|].
    apply NoDup_Permutation; [apply NoDup_active_ids..|].
    intros i. rewrite !elem_of_active_ids. by setoid_rewrite Hact. }
  unfold active_entries. rewrite Hids.
  assert (∀ i, i ∈ active_ids evs2 → event_entry evs1 i = event_entry evs2 i) as Hent.
  { intros i [f Hf]%elem_of_active_ids. pose proof (proj2 (Hact i f) Hf) as Hf1.
    apply active_event_entry in Hf as (s & -> & Ht), Hf1 as (s' & -> & Ht').
    rewrite Htop in Ht'. by rewrite (top_slot_unique _ _ _ _ _ _ Ht Ht'). }
  by apply omap_ext_in.
Qed.

Lemma active_entries_define_forget evs s f :
  active_entries (evs ++ [EvDefine s f; EvForget s]) = active_entries evs.
Proof. apply active_entries_ext. intros s'. unfold top. by rewrite stacks_define_forget. Qed.

(** Everything a kernel reports agrees with a history of events. *)
Record kernel_observes {D : Type} `{Kernel D} (d : D) (evs : list Event) : Prop := {
  obs_resolve s : kernel_resolve d s = Some (spec_resolve evs s);
  obs_definitions s : kernel_definitions d s = Some (spec_definitions evs s);
  obs_history s : kernel_history d s = Some (spec_history evs s);
  obs_active_slot_count : kernel_active_slot_count d = usize_of (spec_active_count evs);
  obs_record_count : kernel_record_count d = length evs;
  obs_query ps o : kernel_query d ps o = Some (spec_query (active_entries evs) ps o);
  obs_validate : kernel_validate d = Ok tt;
}.

Lemma k_rep_observes {D : Type} `{KernelLaws D} d evs n : k_rep d evs n → kernel_observes d evs.
Proof.
  intros Hd. split; intros.
  - by eapply k_rep_resolve.
  - by eapply k_rep_definitions.
  - by eapply k_rep_history.
  - by eapply k_rep_active_slot_count.
  - by eapply k_rep_record_count.
  - by eapply k_rep_query.
  - by eapply k_rep_validate.
Qed.

Lemma kernel_run_observes {D : Type} `{KernelLaws D} evs :
  ∃ d : D, kernel_run kernel_new evs = Some d ∧ k_rep d evs 1.
Proof. apply (k_rep_run _ [] 1 evs k_rep_new). Qed.

(** The kernel reached after more events. *)
Lemma kernel_run_app {D : Type} `{Kernel D} (d : D) evs1 evs2 :
  kernel_run d (evs1 ++ evs2) = d' ← kernel_run d evs1; kernel_run d' evs2.
Proof.
  revert d. induction evs1 as [|ev evs1 IH]; intros d; simpl; [done|].
  destruct (kernel_apply d ev); simpl; [apply IH|done].
Qed.
