(* ===== verification/LegacyStore.v ===== *)
(** The legacy [DefinitionStore] (forthdb-core/src/lib.rs, lines 274-371): an
    append-only log of records, the head record of every defined slot and the
    record ids of every slot, refined to the event history. *)
From Stdlib Require Import NArith Lia.
From stdpp Require Import sorting base gmap list strings fin_maps option list_monad.
From S2P Require Import Prelude Ord Terms Query QueryFacts Spec Index Kernel.

Record DefinitionStore := DefinitionStore_mk {
  log : list LogRecord;
  head_map : gmap SlotId nat;
  slot_history : gmap SlotId (list nat);
}.

Definition DefinitionStore_default : DefinitionStore := DefinitionStore_mk [] ∅ ∅.

(** [&self.log[record_id.value()]]: [None] is the index panic. *)
Definition record (st : DefinitionStore) (i : nat) : option LogRecord := log st !! i.

(** [entry(slot).or_default().push(record_id)]. *)
Definition push_history (m : gmap SlotId (list nat)) (s : SlotId) (i : nat) :
    gmap SlotId (list nat) :=
  <[s := default [] (m !! s) ++ [i]]> m.

Definition append_define (st : DefinitionStore) (s : SlotId) (f : Fact) :
    DefinitionStore * (nat * option nat) :=
  let previous_head := head_map st !! s in
  let record_id := length (log st) in
  (DefinitionStore_mk
     (log st ++ [LogRecord_mk record_id Define s (Some f) previous_head (Some record_id)])
     (<[s := record_id]> (head_map st))
     (push_history (slot_history st) s record_id),
   (record_id, previous_head)).

Definition append_forget (st : DefinitionStore) (s : SlotId) :
    option (DefinitionStore * (nat * option nat * option nat)) :=
  let current := head_map st !! s in
  revealed ← match current with
             | Some record_id => r ← record st record_id; Some (rec_previous_head r)
             | None => Some None
             end;
  let record_id := length (log st) in
  Some (DefinitionStore_mk
     (log st ++ [LogRecord_mk record_id Forget s None current revealed])
     (match revealed with
      | Some revealed => <[s := revealed]> (head_map st)
      | None => delete s (head_map st)
      end)
     (push_history (slot_history st) s record_id),
   (record_id, current, revealed)).

(** The outer option is the panic, the inner one the result. *)
Definition resolve_record (st : DefinitionStore) (s : SlotId) : option (option LogRecord) :=
  match head_map st !! s with
  | Some record_id => Some <$> record st record_id
  | None => Some None
  end.

(** [while let Some(current) = record_id]. *)
Fixpoint definitions_loop (fuel : nat) (st : DefinitionStore) (record_id : option nat) :
    option (list LogRecord) :=
  match record_id, fuel with
  | None, _ => Some []
  | Some _, 0 => None
  | Some current, S fuel =>
      r ← record st current;
      rest ← definitions_loop fuel st (rec_previous_head r);
      Some (r :: rest)
  end.

(** A chain of previous heads visits a record once, so the length of the log
    bounds the loop. *)
Definition definitions (st : DefinitionStore) (s : SlotId) : option (list LogRecord) :=
  definitions_loop (length (log st)) st (head_map st !! s).

Definition history (st : DefinitionStore) (s : SlotId) : option (list LogRecord) :=
  mapM (record st) (default [] (slot_history st !! s)).

Definition active_slot_count (st : DefinitionStore) : N := usize_of (size (head_map st)).
Definition record_count (st : DefinitionStore) : nat := length (log st).

(** [head.values().copied().collect::<BTreeSet<_>>()], in iteration order. *)
Definition active_record_ids (st : DefinitionStore) : list nat :=
  sort_ids (elements (list_to_set (C := gset nat) (map_to_list (head_map st)).*2)).

#[global] Arguments append_define : simpl never.
#[global] Arguments append_forget : simpl never.

(** ** Refinement *)

Record store_rep (st : DefinitionStore) (evs : list Event) : Prop := {
  sr_length : length (log st) = length evs;
  sr_record i : record st i = record_at evs i;
  sr_head s : head_map st !! s = head_id evs s;
  sr_history s : default [] (slot_history st !! s) = slot_ids evs s;
}.

Lemma store_rep_default : store_rep DefinitionStore_default [].
Proof. split; done. Qed.

Lemma push_history_lookup m s i s' :
  default [] (push_history m s i !! s') =
  if decide (s' = s) then default [] (m !! s') ++ [i] else default [] (m !! s').
Proof.
  unfold push_history. rewrite lookup_insert.
  destruct (decide (s = s')), (decide (s' = s)); naive_solver.
Qed.

(** The common part of both appends. *)
Lemma store_rep_append st evs ev hd' :
  store_rep st evs →
  (∀ s, hd' !! s = head_id (evs ++ [ev]) s) →
  store_rep (DefinitionStore_mk
    (log st ++ [LogRecord_mk (length (log st)) (event_kind ev) (event_slot ev) (event_fact ev)
       (head_map st !! event_slot ev) (hd' !! event_slot ev)])
    hd' (push_history (slot_history st) (event_slot ev) (length (log st))))
    (evs ++ [ev]).
Proof.
  intros [Hlen Hrec Hhd Hhist] Hhd'. split; simpl.
  - by rewrite !length_app, Hlen.
  - intros i. unfold record in *. simpl. rewrite record_at_snoc. case_decide as Hi.
    + subst i. rewrite <- Hlen, lookup_snoc_length, Hhd, Hhd'. done.
    + rewrite <- Hrec. destruct (decide (i < length (log st))).
      * by apply lookup_app_l.
      * rewrite !lookup_ge_None_2; [done|lia|rewrite length_app; simpl; lia].
  - done.
  - intros s. rewrite push_history_lookup, slot_ids_snoc, Hhist, Hlen. done.
Qed.

Lemma append_define_rep st evs s f :
  store_rep st evs →
  ∃ st', append_define st s f = (st', (length evs, head_id evs s)) ∧
    store_rep st' (evs ++ [EvDefine s f]).
Proof.
  intros Hst. unfold append_define.
  rewrite (sr_head _ _ Hst), (sr_length _ _ Hst). eexists. split; [done|].
  pose proof (store_rep_append st evs (EvDefine s f) (<[s := length evs]> (head_map st)) Hst) as Hr.
  simpl in Hr. rewrite lookup_insert_eq, (sr_head _ _ Hst), (sr_length _ _ Hst) in Hr.
  apply Hr. intros s'. destruct (decide (s' = s)) as [->|Hne].
  - by rewrite lookup_insert_eq, head_id_snoc_define.
  - rewrite lookup_insert_ne by done. rewrite head_id_snoc_ne by done. apply Hst.
Qed.

(** The record of a head tells what forgetting reveals. *)
Lemma head_record st evs s i :
  store_rep st evs → head_id evs s = Some i →
  ∃ r, record st i = Some r ∧ rec_kind r = Define ∧ rec_slot r = s ∧
    rec_previous_head r = head_id (evs ++ [EvForget s]) s.
Proof.
  intros Hst (f & Ht)%head_id_Some.
  destruct (record_at_active _ _ _ _ Ht) as (r & Hr & Hk & Hs & _).
  exists r. rewrite (sr_record _ _ Hst). split_and!; [done..|].
  rewrite <- (previous_head_revealed _ _ _ _ Ht).
  destruct (record_at_Some _ _ _ Hr) as (_ & ev & _ & _ & Hs' & _ & ->). congruence.
Qed.

Lemma append_forget_rep st evs s :
  store_rep st evs →
  ∃ st', append_forget st s =
      Some (st', (length evs, head_id evs s, head_id (evs ++ [EvForget s]) s)) ∧
    store_rep st' (evs ++ [EvForget s]).
Proof.
  intros Hst. unfold append_forget. rewrite (sr_head _ _ Hst).
  set (revealed := head_id (evs ++ [EvForget s]) s).
  assert (match head_id evs s with
    | Some i => r ← record st i; Some (rec_previous_head r)
    | None => Some None
    end = Some revealed) as Hrev.
  { destruct (head_id evs s) as [i|] eqn:Hh.
    - destruct (head_record _ _ _ _ Hst Hh) as (r & -> & _ & _ & Hp). simpl. by rewrite Hp.
    - f_equal. subst revealed. unfold head_id, top in *. rewrite stack_snoc. simpl.
      rewrite decide_True by done. by destruct (stack evs s). }
  rewrite Hrev. simpl. rewrite (sr_length _ _ Hst). eexists. split; [done|].
  set (hd' := match revealed with Some j => _ | None => _ end).
  assert (∀ s', hd' !! s' = head_id (evs ++ [EvForget s]) s') as Hhd'.
  { intros s'. subst hd'. destruct (decide (s' = s)) as [->|Hne].
    - fold revealed. destruct revealed; [apply lookup_insert_eq|apply lookup_delete_eq].
    - rewrite head_id_snoc_ne, <- (sr_head _ _ Hst) by done.
      destruct revealed; [by apply lookup_insert_ne|by apply lookup_delete_ne]. }
  pose proof (store_rep_append st evs (EvForget s) hd' Hst Hhd') as Hr.
  simpl in Hr. rewrite Hhd', (sr_head _ _ Hst), (sr_length _ _ Hst) in Hr. exact Hr.
Qed.

Lemma resolve_record_rep st evs s :
  store_rep st evs →
  ∃ r, resolve_record st s = Some r ∧ (r ≫= rec_fact) = spec_resolve evs s.
Proof.
  intros Hst. unfold resolve_record, spec_resolve. rewrite (sr_head _ _ Hst). unfold head_id.
  destruct (top evs s) as [[i f]|] eqn:Ht; simpl; [|eauto].
  rewrite (sr_record _ _ Hst).
  destruct (record_at_active _ _ _ _ Ht) as (r & -> & _ & _ & Hf). exists (Some r). simpl. eauto.
Qed.

Lemma definitions_loop_rep st evs s n fuel :
  store_rep st evs → length (stack (take n evs) s) ≤ fuel →
  ∃ rs, definitions_loop fuel st (head_id (take n evs) s) = Some rs ∧
    omap rec_fact rs = (stack (take n evs) s).*2.
Proof.
  intros Hst. unfold head_id, top. revert n.
  induction fuel as [|fuel IH]; intros n Hlen.
  { destruct (stack (take n evs) s); simpl in *; [eauto|lia]. }
  destruct (stack (take n evs) s) as [|[i f] l] eqn:Hs; simpl; [eauto|].
  destruct (stack_chain _ _ _ _ _ _ Hs) as (r & Hr & Hf & Hp & Hl).
  rewrite (sr_record _ _ Hst), Hr. simpl. rewrite Hp.
  destruct (IH i) as (rs & Hrs & Hfs). { subst l. simpl in Hlen. lia. }
  unfold head_id, top. rewrite Hrs. simpl.
  eexists. split; [done|]. simpl. rewrite Hf. subst l. by f_equal.
Qed.

Lemma definitions_rep st evs s :
  store_rep st evs →
  ∃ rs, definitions st s = Some rs ∧ omap rec_fact rs = spec_definitions evs s.
Proof.
  intros Hst. unfold definitions, spec_definitions. rewrite (sr_head _ _ Hst), (sr_length _ _ Hst).
  pose proof (definitions_loop_rep st evs s (length evs) (length evs) Hst) as Hr.
  rewrite firstn_all in Hr. apply Hr, stack_length.
Qed.

Lemma history_rep st evs s :
  store_rep st evs → history st s = Some (spec_history evs s).
Proof.
  intros Hst. unfold history. rewrite (sr_history _ _ Hst).
  apply mapM_records; [apply Hst|apply elem_of_slot_ids].
Qed.

Lemma head_map_size st evs :
  store_rep st evs → size (head_map st) = spec_active_count evs.
Proof. intros Hst. apply head_table_size, Hst. Qed.

Lemma active_record_ids_rep st evs :
  store_rep st evs → active_record_ids st = active_ids evs.
Proof. intros Hst. apply sort_ids_active, head_values_active, Hst. Qed.
