(* ===== verification/LegacyDb.v ===== *)
(** The legacy kernel (forthdb-core/src/lib.rs): the current view with its
    seven hash indexes (lines 373-519) and the [ForthDb] on top of it
    (lines 568-859), as an instance of the kernel interface. *)
From Stdlib Require Import NArith Lia.
From stdpp Require Import sorting base gmap list strings fin_maps option list_monad.
From S2P Require Import Prelude Ord Terms Query QueryFacts Spec Index Kernel LegacyStore.

Record CurrentView := CurrentView_mk {
  by_subject : gmap Atom Bucket;
  by_predicate : gmap Predicate Bucket;
  by_object : gmap Atom Bucket;
  by_subject_predicate : gmap (Atom * Predicate) Bucket;
  by_subject_object : gmap (Atom * Atom) Bucket;
  by_predicate_object : gmap (Predicate * Atom) Bucket;
  by_exact : gmap Fact Bucket;
}.

Definition CurrentView_default : CurrentView := CurrentView_mk ∅ ∅ ∅ ∅ ∅ ∅ ∅.

(** [index.entry(key).or_default().insert(record_id)]. *)
Definition insert_index {K} `{Countable K} (m : gmap K Bucket) (k : K) (i : nat) : gmap K Bucket :=
  <[k := {[i]} ∪ default ∅ (m !! k)]> m.

Definition remove_index {K} `{Countable K} (m : gmap K Bucket) (k : K) (i : nat) : gmap K Bucket :=
  match m !! k with
  | Some bucket =>
      let bucket := bucket ∖ {[i]} in
      if decide (bucket = ∅) then delete k m else <[k := bucket]> m
  | None => m
  end.

(** [None]: a record without a fact, the [expect] panic. *)
Definition record_fact (st : DefinitionStore) (i : nat) : option Fact := record st i ≫= rec_fact.

Definition view_add (v : CurrentView) (i : nat) (st : DefinitionStore) : option CurrentView :=
  fact ← record_fact st i;
  let s := fact_subject fact in
  let p := fact_predicate fact in
  let o := fact_object fact in
  Some (CurrentView_mk
    (insert_index (by_subject v) s i)
    (insert_index (by_predicate v) p i)
    (insert_index (by_object v) o i)
    (insert_index (by_subject_predicate v) (s, p) i)
    (insert_index (by_subject_object v) (s, o) i)
    (insert_index (by_predicate_object v) (p, o) i)
    (insert_index (by_exact v) fact i)).

Definition view_remove (v : CurrentView) (i : nat) (st : DefinitionStore) : option CurrentView :=
  fact ← record_fact st i;
  let s := fact_subject fact in
  let p := fact_predicate fact in
  let o := fact_object fact in
  Some (CurrentView_mk
    (remove_index (by_subject v) s i)
    (remove_index (by_predicate v) p i)
    (remove_index (by_object v) o i)
    (remove_index (by_subject_predicate v) (s, p) i)
    (remove_index (by_subject_object v) (s, o) i)
    (remove_index (by_predicate_object v) (p, o) i)
    (remove_index (by_exact v) fact i)).

Definition candidates (v : CurrentView) (st : DefinitionStore) (p : Pattern) (b : Binding) :
    list nat :=
  let subject := resolved_atom (pat_subject p) b in
  let predicate := resolved_predicate (pat_predicate p) b in
  let object := resolved_atom (pat_object p) b in
  let collect (values : option Bucket) := sort_ids (elements (default ∅ values)) in
  match subject, predicate, object with
  | Some s, Some p, Some o => collect (by_exact v !! Fact_new s p o)
  | Some s, Some p, None => collect (by_subject_predicate v !! (s, p))
  | Some s, None, Some o => collect (by_subject_object v !! (s, o))
  | None, Some p, Some o => collect (by_predicate_object v !! (p, o))
  | Some s, None, None => collect (by_subject v !! s)
  | None, Some p, None => collect (by_predicate v !! p)
  | None, None, Some o => collect (by_object v !! o)
  | None, None, None => active_record_ids st
  end.

Definition indexed_ids (m : gmap (Atom * Predicate) Bucket) : gset nat :=
  ⋃ (map_to_list m).*2.

Definition view_validate (v : CurrentView) (st : DefinitionStore) : outcome string unit :=
  if decide (active_record_ids st = sort_ids (elements (indexed_ids (by_subject_predicate v))))
  then Ok tt
  else Err "current indexes do not match active slot heads"%string.

(** ** [ForthDb] *)

Record ForthDb := ForthDb_mk {
  db_store : DefinitionStore;
  db_view : CurrentView;
  next_entity : N;
}.

Definition new : ForthDb := ForthDb_mk DefinitionStore_default CurrentView_default 1.

Definition entity (d : ForthDb) : EntityId * ForthDb :=
  (EntityId_new (next_entity d),
   ForthDb_mk (db_store d) (db_view d) (u64_add (next_entity d) 1)).

Definition define (d : ForthDb) (s : SlotId) (f : Fact) : option (nat * ForthDb) :=
  view ← match head_map (db_store d) !! s with
         | Some old_head => view_remove (db_view d) old_head (db_store d)
         | None => Some (db_view d)
         end;
  let '(store, (record_id, _)) := append_define (db_store d) s f in
  view ← view_add view record_id store;
  Some (record_id, ForthDb_mk store view (next_entity d)).

Definition forget (d : ForthDb) (s : SlotId) : option (nat * ForthDb) :=
  view ← match head_map (db_store d) !! s with
         | Some current => view_remove (db_view d) current (db_store d)
         | None => Some (db_view d)
         end;
  '(store, (record_id, _, revealed)) ← append_forget (db_store d) s;
  view ← match revealed with
         | Some revealed => view_add view revealed store
         | None => Some view
         end;
  Some (record_id, ForthDb_mk store view (next_entity d)).

Definition db_resolve (d : ForthDb) (s : SlotId) : option (option Fact) :=
  r ← resolve_record (db_store d) s; Some (r ≫= rec_fact).

Definition db_definitions (d : ForthDb) (s : SlotId) : option (list Fact) :=
  (λ rs : list LogRecord, omap rec_fact rs) <$> definitions (db_store d) s.

Definition db_history (d : ForthDb) (s : SlotId) : option (list LogRecord) :=
  history (db_store d) s.

Definition db_active_slot_count (d : ForthDb) : N := active_slot_count (db_store d).
Definition db_record_count (d : ForthDb) : nat := record_count (db_store d).

(** The slot and the fact of a candidate, as the walker reads them. *)
Definition db_entry (d : ForthDb) (i : nat) : option (SlotId * Fact) :=
  r ← record (db_store d) i; f ← rec_fact r; Some (rec_slot r, f).

Definition db_query (d : ForthDb) (ps : list Pattern) (o : QueryOptions) : option QueryResult :=
  query (λ p b, Some (candidates (db_view d) (db_store d) p b)) (db_entry d) ps o.

(** [for record_id in self.store.head.values()]: the head check of [validate]. *)
Fixpoint check_heads (st : DefinitionStore) (ids : list nat) : outcome string unit :=
  match ids with
  | [] => Ok tt
  | i :: ids =>
      let* r := or_panic (record st i) in
      if decide (rec_kind r = Define) then
        match rec_fact r with
        | Some _ => check_heads st ids
        | None => Err "slot heads must be definition records"%string
        end
      else Err "slot heads must be definition records"%string
  end.

Definition db_validate (d : ForthDb) : outcome string unit :=
  let* _ := check_heads (db_store d) (map_to_list (head_map (db_store d))).*2 in
  view_validate (db_view d) (db_store d).

#[export] Instance legacy_kernel : Kernel ForthDb := {
  kernel_new := new;
  kernel_entity := entity;
  kernel_define := define;
  kernel_forget := forget;
  kernel_resolve := db_resolve;
  kernel_definitions := db_definitions;
  kernel_history := db_history;
  kernel_active_slot_count := db_active_slot_count;
  kernel_record_count := db_record_count;
  kernel_query := db_query;
  kernel_validate := db_validate;
}.

(** ** The view *)

Definition view_lookups (v : CurrentView) : lookups :=
  Lookups (by_subject v !!.) (by_predicate v !!.) (by_object v !!.) (by_subject_predicate v !!.)
    (by_subject_object v !!.) (by_predicate_object v !!.) (by_exact v !!.).

Definition view_rep (v : CurrentView) (A : Indexed) : Prop := lookups_ok (view_lookups v) A.

#[export] Instance view_rep_proper : Proper (eq ==> indexed_iff ==> iff) view_rep.
Proof. intros v ? <- A B HAB. unfold view_rep. by rewrite HAB. Qed.

Section index.
Context {K : Type} `{Countable K}.

Lemma insert_index_lookup (m : gmap K Bucket) k i k' :
  insert_index m k i !! k' = lk_insert (m !!.) k i k'.
Proof.
  unfold insert_index, lk_insert. rewrite lookup_insert.
  destruct (decide (k = k')), (decide (k' = k)); by subst.
Qed.

Lemma remove_index_lookup (m : gmap K Bucket) k i k' :
  remove_index m k i !! k' = lk_remove (m !!.) k i k'.
Proof.
  unfold remove_index, lk_remove.
  destruct (m !! k) as [X|] eqn:Hk; simpl.
  - destruct (decide (X ∖ {[i]} = ∅)).
    + rewrite lookup_delete. destruct (decide (k = k')), (decide (k' = k)); by subst.
    + rewrite lookup_insert. destruct (decide (k = k')), (decide (k' = k)); by subst.
  - case_decide; by subst.
Qed.

Lemma insert_index_ok (proj : Fact → K) (m : gmap K Bucket) A i f :
  idx_ok proj (m !!.) A →
  idx_ok proj (insert_index m (proj f) i !!.) (add_indexed A i f).
Proof.
  intros Hok. eapply idx_ok_proper; [|done|by apply idx_insert].
  intros k. apply insert_index_lookup.
Qed.

Lemma remove_index_ok (proj : Fact → K) (m : gmap K Bucket) A i f :
  indexed_functional A → A i f → idx_ok proj (m !!.) A →
  idx_ok proj (remove_index m (proj f) i !!.) (del_indexed A i).
Proof.
  intros ???. eapply idx_ok_proper; [|done|by apply idx_remove].
  intros k. apply remove_index_lookup.
Qed.
End index.

Lemma view_rep_default : view_rep CurrentView_default (λ _ _, False).
Proof.
  unfold view_rep, lookups_ok. simpl.
  split_and!; (split; intros k; [intros X|intros i]; rewrite lookup_empty; simpl); set_solver.
Qed.

Lemma view_add_ok v A i st f :
  view_rep v A → record_fact st i = Some f →
  ∃ v', view_add v i st = Some v' ∧ view_rep v' (add_indexed A i f).
Proof.
  intros (H1 & H2 & H3 & H4 & H5 & H6 & H7) Hf. unfold view_add. rewrite Hf. simpl.
  eexists. split; [done|]. split_and!; simpl.
  - by apply (insert_index_ok fact_subject).
  - by apply (insert_index_ok fact_predicate).
  - by apply (insert_index_ok fact_object).
  - by apply (insert_index_ok proj_sp).
  - by apply (insert_index_ok proj_so).
  - by apply (insert_index_ok proj_po).
  - by apply (insert_index_ok id).
Qed.

Lemma view_remove_ok v A i st f :
  view_rep v A → indexed_functional A → A i f → record_fact st i = Some f →
  ∃ v', view_remove v i st = Some v' ∧ view_rep v' (del_indexed A i).
Proof.
  intros (H1 & H2 & H3 & H4 & H5 & H6 & H7) Hfun Hi Hf. unfold view_remove. rewrite Hf. simpl.
  eexists. split; [done|]. split_and!; simpl.
  - by apply (remove_index_ok fact_subject).
  - by apply (remove_index_ok fact_predicate).
  - by apply (remove_index_ok fact_object).
  - by apply (remove_index_ok proj_sp).
  - by apply (remove_index_ok proj_so).
  - by apply (remove_index_ok proj_po).
  - by apply (remove_index_ok id).
Qed.

Lemma candidates_pick v st p b :
  candidates v st p b =
  match pick_for (view_lookups v) p b with
  | Some X => sort_ids (elements (default ∅ X))
  | None => active_record_ids st
  end.
Proof.
  unfold candidates, pick_for.
  by destruct (resolved_atom (pat_subject p) b), (resolved_predicate (pat_predicate p) b),
    (resolved_atom (pat_object p) b).
Qed.

(** The union of the buckets of an index holds the indexed ids. *)
Lemma idx_union {K} `{Countable K} (proj : Fact → K) (m : gmap K Bucket) A i :
  idx_ok proj (m !!.) A →
  i ∈ ⋃ (map_to_list m).*2 ↔ ∃ f, A i f.
Proof.
  intros [_ Hok]. rewrite elem_of_union_list. split.
  - intros (X & ([k X'] & -> & Hin)%list_elem_of_fmap & Hi). apply elem_of_map_to_list in Hin.
    destruct (Hok k i) as [Hf _]. rewrite Hin in Hf. destruct (Hf Hi) as (f & ? & _). eauto.
  - intros (f & Hf). destruct (Hok (proj f) i) as [_ Hi]. specialize (Hi ltac:(eauto)).
    destruct (m !! proj f) as [X|] eqn:Hk; simpl in Hi; [|set_solver].
    exists X. split; [|done]. apply list_elem_of_fmap. exists (proj f, X). split; [done|].
    by apply elem_of_map_to_list.
Qed.

(** ** The kernel *)

Record legacy_rep (d : ForthDb) (evs : list Event) (n : N) : Prop := {
  lr_store : store_rep (db_store d) evs;
  lr_view : view_rep (db_view d) (active evs);
  lr_next : next_entity d = n;
}.

Lemma record_fact_top st evs s i f :
  store_rep st evs → top evs s = Some (i, f) → record_fact st i = Some f.
Proof.
  intros Hst Ht. unfold record_fact. rewrite (sr_record _ _ Hst).
  by destruct (record_at_active _ _ _ _ Ht) as (r & -> & _ & _ & Hf).
Qed.

(** [record_fact] does not change when the log grows. *)
Lemma record_fact_event st evs s i f :
  store_rep st evs → evs !! i = Some (EvDefine s f) → record_fact st i = Some f.
Proof.
  intros Hst He. unfold record_fact. rewrite (sr_record _ _ Hst). unfold record_at.
  by rewrite He.
Qed.

Lemma define_rep d evs n s f :
  legacy_rep d evs n →
  ∃ d', define d s f = Some (length evs, d') ∧ legacy_rep d' (evs ++ [EvDefine s f]) n.
Proof.
  intros [Hst Hv Hn]. unfold define. rewrite (sr_head _ _ Hst).
  destruct (append_define_rep _ _ s f Hst) as (st' & Happ & Hst').
  pose proof (record_fact_event _ _ s (length evs) f Hst' (lookup_snoc_length _ _)) as Hf.
  destruct (head_id evs s) as [i|] eqn:Hh.
  - apply head_id_Some in Hh as (g & Ht).
    destruct (view_remove_ok _ _ i (db_store d) g Hv) as (v1 & -> & Hv1);
      [apply active_functional'|by exists s|by eapply record_fact_top|].
    rewrite option_bind_Some. rewrite Happ. destruct (view_add_ok _ _ _ _ _ Hv1 Hf) as (v2 & -> & Hv2). simpl.
    eexists. split; [done|]. split; [done| |done]. simpl.
    by rewrite (active_define_over _ _ _ _ _ Ht).
  - rewrite option_bind_Some. rewrite Happ. destruct (view_add_ok _ _ _ _ _ Hv Hf) as (v2 & -> & Hv2). simpl.
    eexists. split; [done|]. split; [done| |done]. simpl. by rewrite (active_define_new _ _ _ Hh).
Qed.

Lemma forget_rep d evs n s :
  legacy_rep d evs n →
  ∃ d', forget d s = Some (length evs, d') ∧ legacy_rep d' (evs ++ [EvForget s]) n.
Proof.
  intros [Hst Hv Hn]. unfold forget. rewrite (sr_head _ _ Hst).
  destruct (append_forget_rep _ _ s Hst) as (st' & Happ & Hst').
  destruct (stack evs s) as [|[i f] l] eqn:Hs.
  - assert (head_id evs s = None) as Hh by (unfold head_id, top; by rewrite Hs).
    assert (head_id (evs ++ [EvForget s]) s = None) as Hr.
    { unfold head_id, top. rewrite stack_snoc. simpl. by rewrite decide_True, Hs. }
    rewrite Hh, Hr in *. rewrite option_bind_Some. rewrite Happ. simpl.
    eexists. split; [done|]. split; [done| |done]. simpl. by rewrite (active_forget_none _ _ Hh).
  - assert (top evs s = Some (i, f)) as Ht by (unfold top; by rewrite Hs).
    assert (head_id evs s = Some i) as Hh by (apply head_id_Some; eauto).
    rewrite Hh in *. destruct (view_remove_ok _ _ i (db_store d) f Hv) as (v1 & -> & Hv1);
      [apply active_functional'|by exists s|by eapply record_fact_top|].
    rewrite option_bind_Some. rewrite Happ. simpl.
    destruct l as [|[j g] l].
    + assert (head_id (evs ++ [EvForget s]) s = None) as ->.
      { unfold head_id, top. rewrite stack_snoc. simpl. by rewrite decide_True, Hs. }
      simpl. eexists. split; [done|]. split; [done| |done]. simpl.
      by rewrite (active_forget_last _ _ _ _ Hs).
    + assert (top (evs ++ [EvForget s]) s = Some (j, g)) as Ht'.
      { unfold top. rewrite stack_snoc. simpl. by rewrite decide_True, Hs. }
      assert (head_id (evs ++ [EvForget s]) s = Some j) as -> by (apply head_id_Some; eauto).
      simpl. destruct (view_add_ok _ _ j st' g Hv1) as (v2 & -> & Hv2);
        [by eapply record_fact_top|].
      simpl. eexists. split; [done|]. split; [done| |done]. simpl.
      by rewrite (active_forget_reveal _ _ _ _ _ _ _ Hs).
Qed.

(** The index structure meets the contract of the query walker. *)
Lemma legacy_query_source d evs n :
  legacy_rep d evs n →
  QuerySource (λ p b, Some (candidates (db_view d) (db_store d) p b)) (db_entry d)
    (active_entries evs).
Proof.
  intros [Hst Hv _]. apply query_source_ids.
  - intros p b. rewrite candidates_pick, (active_record_ids_rep _ _ Hst). f_equal.
    by apply candidates_ok.
  - intros i (f & Ha)%elem_of_active_ids. destruct (active_event_entry _ _ _ Ha) as (s & -> & Ht).
    unfold db_entry. rewrite (sr_record _ _ Hst).
    destruct (record_at_active _ _ _ _ Ht) as (r & -> & _ & Hs & Hf). simpl. by rewrite Hf, Hs.
Qed.

Lemma check_heads_ok st evs ids :
  store_rep st evs → (∀ i, i ∈ ids → i ∈ active_ids evs) → check_heads st ids = Ok tt.
Proof.
  intros Hst. induction ids as [|i ids IH]; intros Hids; simpl; [done|].
  destruct (proj1 (elem_of_active_ids evs i)) as (f & s & Ht); [apply Hids; by left|].
  rewrite (sr_record _ _ Hst).
  destruct (record_at_active _ _ _ _ Ht) as (r & -> & Hk & _ & Hf). simpl.
  rewrite decide_True, Hf by done. apply IH. intros. apply Hids. by right.
Qed.

Lemma validate_rep d evs n : legacy_rep d evs n → db_validate d = Ok tt.
Proof.
  intros [Hst Hv _]. unfold db_validate. erewrite check_heads_ok; [|done|].
  - simpl. unfold view_validate. rewrite decide_True; [done|].
    rewrite (active_record_ids_rep _ _ Hst). symmetry.
    apply sort_ids_unique; [|apply Sorted_active_ids].
    apply NoDup_Permutation; [apply NoDup_elements|apply NoDup_active_ids|].
    intros i. rewrite elem_of_elements, elem_of_active_ids. unfold indexed_ids.
    apply (idx_union proj_sp), Hv.
  - intros i. apply head_values_active, Hst.
Qed.

#[export] Program Instance legacy_kernel_laws : KernelLaws ForthDb := {
  k_rep := legacy_rep;
}.
Next Obligation.
  split; simpl; [apply store_rep_default| |done].
  apply (proj2 (view_rep_proper _ _ eq_refl (active []) (λ _ _, False) ltac:(by intros i f; split; [intros []|]))).
  apply view_rep_default.
Qed.
Next Obligation. intros d evs n [Hst Hv <-]. done. Qed.
Next Obligation. apply define_rep. Qed.
Next Obligation. apply forget_rep. Qed.
Next Obligation.
  intros d evs n s [Hst _ _]. simpl. unfold db_resolve.
  destruct (resolve_record_rep _ _ s Hst) as (r & -> & <-). done.
Qed.
Next Obligation.
  intros d evs n s [Hst _ _]. simpl. unfold db_definitions.
  destruct (definitions_rep _ _ s Hst) as (r & -> & <-). done.
Qed.
Next Obligation. intros d evs n s [Hst _ _]. by apply history_rep. Qed.
Next Obligation.
  intros d evs n [Hst _ _]. simpl. unfold db_active_slot_count, active_slot_count.
  by rewrite (head_map_size _ _ Hst).
Qed.
Next Obligation. intros d evs n [Hst _ _]. apply Hst. Qed.
Next Obligation.
  intros d evs n ps o Hd. simpl. unfold db_query.
  pose proof (legacy_query_source _ _ _ Hd). by apply query_spec.
Qed.
Next Obligation. apply validate_rep. Qed.
