(* ===== verification/Bytes.v ===== *)
(** Bytes: little-endian integers, strings as UTF-8 byte sequences, the
    standard library's UTF-8 validity check and the FNV-1a hash that the
    sharded maps, the world identities and the file formats use. *)
From Stdlib Require Import NArith Lia.
From Stdlib Require Import Strings.Byte.
From Stdlib Require Strings.String.
From stdpp Require Import base list strings option list_monad.
From S2P Require Import Prelude.

Abbreviation u8 := Byte.byte (only parsing).

#[export] Instance byte_eq_dec' : EqDecision Byte.byte := Byte.byte_eq_dec.

Definition byte_of_N (n : N) : u8 := default x00 (Byte.of_N (n mod 256)).

Lemma byte_to_N_of_N n : Byte.to_N (byte_of_N n) = (n mod 256)%N.
Proof.
  unfold byte_of_N. destruct (Byte.of_N (n mod 256)) as [b|] eqn:E; simpl.
  - by apply Byte.to_of_N.
  - apply Byte.of_N_None_iff in E. pose proof (N.mod_lt n 256). lia.
Qed.

Lemma byte_to_N_bound b : (Byte.to_N b < 256)%N.
Proof. pose proof (Byte.to_N_bounded b). lia. Qed.

Lemma byte_of_N_to_N b : byte_of_N (Byte.to_N b) = b.
Proof.
  unfold byte_of_N. rewrite N.mod_small by apply byte_to_N_bound. by rewrite Byte.of_to_N.
Qed.

#[export] Instance byte_to_N_inj : Inj (=) (=) Byte.to_N.
Proof. intros b c H. by rewrite <- (byte_of_N_to_N b), H, byte_of_N_to_N. Qed.

(** ** Little-endian integers: [to_le_bytes] and [from_le_bytes] *)

Fixpoint le_bytes (k : nat) (n : N) : list u8 :=
  match k with
  | 0 => []
  | S k => byte_of_N n :: le_bytes k (n / 256)
  end.

Fixpoint le_N (bs : list u8) : N :=
  match bs with
  | [] => 0
  | b :: bs => Byte.to_N b + 256 * le_N bs
  end.

Definition u64_bytes (n : N) : list u8 := le_bytes 8 n.
Definition u32_bytes (n : N) : list u8 := le_bytes 4 n.

Lemma length_le_bytes k n : length (le_bytes k n) = k.
Proof. revert n. induction k as [|k IH]; intros n; simpl; [done|]. by rewrite IH. Qed.

Lemma le_N_bytes k n : le_N (le_bytes k n) = (n mod 256 ^ N.of_nat k)%N.
Proof.
  revert n. induction k as [|k IH]; intros n; [simpl; by rewrite N.mod_1_r|].
  cbn [le_bytes le_N]. rewrite IH, byte_to_N_of_N, Nat2N.inj_succ, N.pow_succ_r'.
  by rewrite N.Div0.mod_mul_r.
Qed.

Lemma le_bytes_N bs : le_bytes (length bs) (le_N bs) = bs.
Proof.
  induction bs as [|b bs IH]; simpl; [done|].
  pose proof (byte_to_N_bound b) as Hb. f_equal.
  - rewrite <- (byte_of_N_to_N b) at 2. unfold byte_of_N. do 2 f_equal.
    rewrite N.mul_comm, N.Div0.mod_add. done.
  - rewrite N.mul_comm, N.div_add by done. by rewrite N.div_small, N.add_0_l.
Qed.

Lemma le_N_u64_bytes n : u64_ok n → le_N (u64_bytes n) = n.
Proof. intros H. unfold u64_bytes. rewrite le_N_bytes. by apply N.mod_small. Qed.

Lemma le_N_u32_bytes n : u32_ok n → le_N (u32_bytes n) = n.
Proof. intros H. unfold u32_bytes. rewrite le_N_bytes. by apply N.mod_small. Qed.

Lemma le_N_bound bs : (le_N bs < 256 ^ N.of_nat (length bs))%N.
Proof.
  rewrite <- (le_bytes_N bs) at 1. rewrite le_N_bytes.
  apply N.mod_lt. by apply N.pow_nonzero.
Qed.

(** ** Strings *)

Definition string_bytes (s : string) : list u8 := String.list_byte_of_string s.
Definition bytes_string (bs : list u8) : string := String.string_of_list_byte bs.

Lemma bytes_string_bytes s : bytes_string (string_bytes s) = s.
Proof. apply String.string_of_list_byte_of_string. Qed.

Lemma string_bytes_string bs : string_bytes (bytes_string bs) = bs.
Proof. apply String.list_byte_of_string_of_list_byte. Qed.

(** The bytes [core::str::from_utf8] accepts: well-formed UTF-8 (Unicode
    table 3-7: no overlong forms, no surrogates, nothing above U+10FFFF). *)
Definition in_range (lo hi : N) (b : u8) : bool :=
  ((lo <=? Byte.to_N b) && (Byte.to_N b <=? hi))%N.

Definition utf8_tail : u8 → bool := in_range 0x80 0xBF.

Fixpoint utf8_valid (bs : list u8) : bool :=
  match bs with
  | [] => true
  | b0 :: rest =>
      if in_range 0x00 0x7F b0 then utf8_valid rest
      else if in_range 0xC2 0xDF b0 then
        match rest with
        | b1 :: rest => utf8_tail b1 && utf8_valid rest
        | _ => false
        end
      else if in_range 0xE0 0xEF b0 then
        match rest with
        | b1 :: b2 :: rest =>
            in_range (if (Byte.to_N b0 =? 0xE0)%N then 0xA0 else 0x80)
                     (if (Byte.to_N b0 =? 0xED)%N then 0x9F else 0xBF) b1 &&
            utf8_tail b2 && utf8_valid rest
        | _ => false
        end
      else if in_range 0xF0 0xF4 b0 then
        match rest with
        | b1 :: b2 :: b3 :: rest =>
            in_range (if (Byte.to_N b0 =? 0xF0)%N then 0x90 else 0x80)
                     (if (Byte.to_N b0 =? 0xF4)%N then 0x8F else 0xBF) b1 &&
            utf8_tail b2 && utf8_tail b3 && utf8_valid rest
        | _ => false
        end
      else false
  end.

(** A Rust [String]: its bytes are valid UTF-8. *)
Definition string_ok (s : string) : Prop := utf8_valid (string_bytes s) = true.

#[export] Instance string_ok_dec s : Decision (string_ok s).
Proof. unfold string_ok. apply _. Defined.

(** [String::from_utf8]. *)
Definition from_utf8 (bs : list u8) : option string :=
  if utf8_valid bs then Some (bytes_string bs) else None.

Lemma from_utf8_bytes s : string_ok s → from_utf8 (string_bytes s) = Some s.
Proof. intros H. unfold from_utf8. by rewrite H, bytes_string_bytes. Qed.

Lemma from_utf8_Some bs s : from_utf8 bs = Some s → string_bytes s = bs ∧ string_ok s.
Proof.
  unfold from_utf8, string_ok. destruct (utf8_valid bs) eqn:E; [|done].
  intros [= <-]. by rewrite string_bytes_string.
Qed.

(** ** FNV-1a *)

Definition FNV_OFFSET_BASIS : N := 0xcbf29ce484222325.
Definition FNV_PRIME : N := 0x100000001b3.

(** [self.0 ^= byte; self.0 = self.0.wrapping_mul(FNV_PRIME)]. *)
Definition fnv_step (h : N) (b : u8) : N := u64_mul (N.lxor h (Byte.to_N b)) FNV_PRIME.

Definition fnv_write (h : N) (bs : list u8) : N := foldl fnv_step h bs.

Lemma fnv_write_app h bs1 bs2 : fnv_write h (bs1 ++ bs2) = fnv_write (fnv_write h bs1) bs2.
Proof. apply foldl_app. Qed.

Lemma fnv_write_ok h bs : u64_ok h → u64_ok (fnv_write h bs).
Proof.
  revert h. induction bs as [|b bs IH]; intros h Hh; simpl; [done|].
  apply IH. unfold fnv_step, u64_mul. apply u64_wrap_ok.
Qed.

#[global] Arguments fnv_write : simpl never.
#[global] Arguments u64_bytes : simpl never.
#[global] Arguments u32_bytes : simpl never.
#[global] Arguments le_bytes : simpl never.

(** ** Self-delimiting encodings *)

(** No encoding of a valid value is a proper prefix of another: what follows
    is recovered together with the value. *)
Definition prefix_inj {A} (P : A → Prop) (enc : A → list u8) : Prop :=
  ∀ x y r1 r2, P x → P y → enc x ++ r1 = enc y ++ r2 → x = y ∧ r1 = r2.

Lemma u64_prefix_inj : prefix_inj u64_ok u64_bytes.
Proof.
  intros x y r1 r2 Hx Hy Heq. apply app_inj_1 in Heq as [H1 H2].
  - split; [|done]. by rewrite <- (le_N_u64_bytes x), <- (le_N_u64_bytes y), H1.
  - unfold u64_bytes. by rewrite !length_le_bytes.
Qed.

Lemma u32_prefix_inj : prefix_inj u32_ok u32_bytes.
Proof.
  intros x y r1 r2 Hx Hy Heq. apply app_inj_1 in Heq as [H1 H2].
  - split; [|done]. by rewrite <- (le_N_u32_bytes x), <- (le_N_u32_bytes y), H1.
  - unfold u32_bytes. by rewrite !length_le_bytes.
Qed.

(** A length-prefixed string: [(len as u64).to_le_bytes()] and the bytes. *)
Definition string_field (s : string) : list u8 :=
  u64_bytes (usize_of (length (string_bytes s))) ++ string_bytes s.

#[global] Arguments string_field : simpl never.

(** The length of the string fits a [usize]. *)
Definition string_fits (s : string) : Prop := u64_ok (N.of_nat (length (string_bytes s))).

Lemma string_prefix_inj : prefix_inj string_fits string_field.
Proof.
  intros x y r1 r2 Hx Hy Heq. unfold string_field in Heq. rewrite <- !(assoc_L (++)) in Heq.
  apply u64_prefix_inj in Heq as [Hlen Heq]; [|apply u64_wrap_ok..].
  unfold usize_of in Hlen. rewrite !u64_wrap_small in Hlen by done.
  apply app_inj_1 in Heq as [Hs ->]; [|lia]. split; [|done].
  by rewrite <- (bytes_string_bytes x), Hs, bytes_string_bytes.
Qed.

Lemma list_prefix_inj {A} (P : A → Prop) (enc : A → list u8) (l1 l2 : list A) r1 r2 :
  prefix_inj P enc → Forall P l1 → Forall P l2 → length l1 = length l2 →
  (x ← l1; enc x) ++ r1 = (x ← l2; enc x) ++ r2 → l1 = l2 ∧ r1 = r2.
Proof.
  intros Henc. revert l2. induction l1 as [|x l1 IH]; intros [|y l2] H1 H2 Hlen Heq; try done.
  inversion_clear H1. inversion_clear H2. csimpl in Heq. rewrite <- !(assoc_L (++)) in Heq.
  apply Henc in Heq as [-> Heq]; [|done..]. injection Hlen as Hlen.
  by apply IH in Heq as [-> ->].
Qed.

#[export] Hint Rewrite length_le_bytes bytes_string_bytes string_bytes_string : fdb.
#[export] Hint Resolve fnv_write_ok : fdb.
