(* ===== verification/SharedTypes.v ===== *)
(** The building blocks of the structurally shared kernel
    (forthdb-core/src/shared_types_v5.rs, lines 1-251): the active-set
    signature, the chunked log, the FNV hashing of keys and the sharded map.

    The persistent map and set of the [im] crate are parameters
    ([PersistentMap], [PersistentSet]) with their documented laws; an
    association-list instance shows that the laws can be met.  [Arc] sharing is
    invisible to a value's owner ([Arc::make_mut] copies on write), so values
    are modelled without it. *)
From Stdlib Require Import NArith Lia.
From Stdlib Require Import Strings.Byte.
From stdpp Require Import sorting base gmap list strings fin_maps option list_monad.
From S2P Require Import Prelude Ord Terms Bytes.
From S2P Require Import Query QueryFacts Spec Index.

Definition LOG_CHUNK_CAPACITY : nat := 1024.
Definition HEAD_SHARDS : N := 4096.
Definition HISTORY_SHARDS : N := 1024.
Definition INDEX_SHARDS : N := 4096.
Definition SHARD_GROUP_SIZE : N := 64.

Record StructuralMetrics := StructuralMetrics_mk {
  log_chunks : nat;
  active_head_shards : nat;
  slot_history_shards : nat;
  index_shards : nat;
}.

(** ** [ActiveSignature] *)

Record ActiveSignature := ActiveSignature_mk {
  sig_count : N;
  sig_xor : N;
  sig_sum : N;
}.

#[export] Instance ActiveSignature_eq_dec : EqDecision ActiveSignature.
Proof. solve_decision. Defined.

Definition ActiveSignature_default : ActiveSignature := ActiveSignature_mk 0 0 0.

Definition record_token (i : nat) : N :=
  let value := u64_add (usize_of i) 0x9e3779b97f4a7c15 in
  let value := u64_mul (N.lxor value (N.shiftr value 30)) 0xbf58476d1ce4e5b9 in
  let value := u64_mul (N.lxor value (N.shiftr value 27)) 0x94d049bb133111eb in
  N.lxor value (N.shiftr value 31).

Definition sig_add (sg : ActiveSignature) (i : nat) : ActiveSignature :=
  let token := record_token i in
  ActiveSignature_mk (u64_add (sig_count sg) 1) (N.lxor (sig_xor sg) token)
    (u64_add (sig_sum sg) token).

Definition sig_remove (sg : ActiveSignature) (i : nat) : ActiveSignature :=
  let token := record_token i in
  ActiveSignature_mk (u64_sub (sig_count sg) 1) (N.lxor (sig_xor sg) token)
    (u64_sub (sig_sum sg) token).

(** ** [ChunkedLog] *)

Record ChunkedLog (T : Type) := ChunkedLog_mk {
  chunks : list (list T);
  log_len : nat;
}.
Arguments ChunkedLog_mk {T} _ _.
Arguments chunks {T} _.
Arguments log_len {T} _.

Definition ChunkedLog_default {T} : ChunkedLog T := ChunkedLog_mk [] 0.

Definition chunk_count {T} (l : ChunkedLog T) : nat := length (chunks l).

(** [None] is the index panic. *)
Definition log_get {T} (l : ChunkedLog T) (index : nat) : option T :=
  let chunk_index := index / LOG_CHUNK_CAPACITY in
  let offset := index mod LOG_CHUNK_CAPACITY in
  chunk ← chunks l !! chunk_index; chunk !! offset.

Fixpoint push_chunk {T} (cs : list (list T)) (value : T) : list (list T) :=
  match cs with
  | [] => [[value]]
  | [last] =>
      if length last <? LOG_CHUNK_CAPACITY then [last ++ [value]] else [last; [value]]
  | c :: cs => c :: push_chunk cs value
  end.

Definition log_push {T} (l : ChunkedLog T) (value : T) : ChunkedLog T * nat :=
  (ChunkedLog_mk (push_chunk (chunks l) value) (S (log_len l)), log_len l).

(** A slot's history, newest record first. *)
#[warnings="-register-all"]
Inductive SlotHistoryNode :=
| SlotHistoryNode_mk (record_id : nat) (previous : option SlotHistoryNode).

(** ** Hashing keys *)

(** The bytes [Hash::hash] feeds to the hasher: eight little-endian bytes for
    an integer or an enum discriminant, the bytes and a terminator for a
    string, the fields in order for a derived instance. *)
Class HashKey (K : Type) := hash_bytes : K → list u8.

Definition str_hash_bytes (s : string) : list u8 := string_bytes s ++ [xff].

#[export] Instance EntityId_hash : HashKey EntityId := λ e, u64_bytes (entity_value e).
#[export] Instance SlotId_hash : HashKey SlotId := λ s, str_hash_bytes (slot_str s).
#[export] Instance Literal_hash : HashKey Literal := λ l, str_hash_bytes (literal_str l).
#[export] Instance Predicate_hash : HashKey Predicate := λ p, str_hash_bytes (predicate_str p).
#[export] Instance Atom_hash : HashKey Atom := λ a,
  match a with
  | AEntity e => u64_bytes 0 ++ hash_bytes e
  | ALiteral l => u64_bytes 1 ++ hash_bytes l
  end.
#[export] Instance pair_hash {A B} `{HashKey A, HashKey B} : HashKey (A * B) := λ p,
  hash_bytes p.1 ++ hash_bytes p.2.
#[export] Instance Fact_hash : HashKey Fact := λ f,
  hash_bytes (fact_subject f) ++ hash_bytes (fact_predicate f) ++ hash_bytes (fact_object f).

(** [FnvHasher]: [write] and [finish]. *)
Definition fnv_hash {K} `{HashKey K} (k : K) : N := fnv_write FNV_OFFSET_BASIS (hash_bytes k).

(** ** The persistent collections of [im] *)

Class PersistentMap (M : Set → Set → Set) := {
  pm_default {K V : Set} : M K V;
  pm_get {K V : Set} `{EqDecision K, HashKey K} : M K V → K → option V;
  pm_insert {K V : Set} `{EqDecision K, HashKey K} : M K V → K → V → M K V;
  pm_remove {K V : Set} `{EqDecision K, HashKey K} : M K V → K → M K V;
  pm_is_empty {K V : Set} : M K V → bool;
  pm_iter {K V : Set} : M K V → list (K * V);
}.

Class PersistentMapLaws (M : Set → Set → Set) `{PersistentMap M} : Prop := {
  pm_get_default {K V : Set} `{EqDecision K, HashKey K} (k : K) :
    pm_get (V := V) pm_default k = None;
  pm_get_insert {K V : Set} `{EqDecision K, HashKey K} (m : M K V) k v k' :
    pm_get (pm_insert m k v) k' = if decide (k' = k) then Some v else pm_get m k';
  pm_get_remove {K V : Set} `{EqDecision K, HashKey K} (m : M K V) k k' :
    pm_get (pm_remove m k) k' = if decide (k' = k) then None else pm_get m k';
  pm_elem_of_iter {K V : Set} `{EqDecision K, HashKey K} (m : M K V) k v :
    (k, v) ∈ pm_iter m ↔ pm_get m k = Some v;
  pm_NoDup_iter {K V : Set} (m : M K V) : NoDup (pm_iter m);
  pm_is_empty_iter {K V : Set} (m : M K V) : pm_is_empty m = true ↔ pm_iter m = [];
}.

(** [PersistentHashSet<RecordId>]. *)
Class PersistentSet (S : Set) := {
  ps_default : S;
  ps_insert : S → nat → S;
  ps_remove : S → nat → S;
  ps_is_empty : S → bool;
  ps_iter : S → list nat;
}.

Class PersistentSetLaws (S : Set) `{PersistentSet S} : Prop := {
  ps_iter_default : ps_iter ps_default = [];
  ps_elem_of_insert s i j : j ∈ ps_iter (ps_insert s i) ↔ j = i ∨ j ∈ ps_iter s;
  ps_elem_of_remove s i j : j ∈ ps_iter (ps_remove s i) ↔ j ≠ i ∧ j ∈ ps_iter s;
  ps_is_empty_iter s : ps_is_empty s = true ↔ ps_iter s = [];
  ps_NoDup_iter s : NoDup (ps_iter s);
}.

(** ** [ShardedMap] *)

Record ShardedMap (M : Set → Set → Set) (K V : Set) : Set := ShardedMap_mk {
  groups : list (option (list (option (M K V))));
  map_len : N;
}.
Arguments ShardedMap_mk {M K V} _ _.
Arguments groups {M K V} _.
Arguments map_len {M K V} _.

Section sharded.
Context {M : Set → Set → Set} `{PersistentMap M}.
Context (SHARDS : N).
Context {K V : Set} `{EqDecision K, HashKey K}.

(** The assertions of [default]. *)
Definition shards_ok : bool :=
  ((N.land SHARDS (SHARDS - 1) =? 0) && (SHARD_GROUP_SIZE <=? SHARDS) &&
   (SHARDS mod SHARD_GROUP_SIZE =? 0))%N.

Definition sharded_default : ShardedMap M K V :=
  ShardedMap_mk (replicate (N.to_nat (SHARDS / SHARD_GROUP_SIZE)) None) 0.

Definition shard_index (key : K) : N := N.land (fnv_hash key) (SHARDS - 1).

Definition directory_indices (key : K) : nat * nat :=
  let shard_index := shard_index key in
  (N.to_nat (shard_index / SHARD_GROUP_SIZE), N.to_nat (N.land shard_index (SHARD_GROUP_SIZE - 1))).

(** In all the results, [None] is an index panic. *)
Definition sharded_get (m : ShardedMap M K V) (key : K) : option (option V) :=
  let '(group_index, local_index) := directory_indices key in
  group ← groups m !! group_index;
  match group with
  | None => Some None
  | Some group =>
      shard ← group !! local_index;
      match shard with
      | None => Some None
      | Some shard => Some (pm_get shard key)
      end
  end.

(** [get_mut]: the value and the write-back through the reference. *)
Definition sharded_get_mut (m : ShardedMap M K V) (key : K) :
    option (option (V * (V → ShardedMap M K V))) :=
  let '(group_index, local_index) := directory_indices key in
  group ← groups m !! group_index;
  match group with
  | None => Some None
  | Some group =>
      shard ← group !! local_index;
      match shard with
      | None => Some None
      | Some shard =>
          Some ((λ v, (v, λ v',
            ShardedMap_mk
              (<[group_index := Some (<[local_index := Some (pm_insert shard key v')]> group)]> (groups m))
              (map_len m))) <$> pm_get shard key)
      end
  end.

Definition sharded_insert (m : ShardedMap M K V) (key : K) (value : V) :
    option (ShardedMap M K V * option V) :=
  let '(group_index, local_index) := directory_indices key in
  group ← groups m !! group_index;
  let group := default (replicate (N.to_nat SHARD_GROUP_SIZE) None) group in
  shard ← group !! local_index;
  let shard := default pm_default shard in
  let previous := pm_get shard key in
  let group := <[local_index := Some (pm_insert shard key value)]> group in
  Some (ShardedMap_mk (<[group_index := Some group]> (groups m))
          (match previous with None => u64_add (map_len m) 1 | Some _ => map_len m end),
        previous).

Definition sharded_remove (m : ShardedMap M K V) (key : K) :
    option (ShardedMap M K V * option V) :=
  let '(group_index, local_index) := directory_indices key in
  group ← groups m !! group_index;
  match group with
  | None => Some (m, None)
  | Some group =>
      shard ← group !! local_index;
      match shard with
      | None => Some (m, None)
      | Some shard =>
          let previous := pm_get shard key in
          let shard := pm_remove shard key in
          let len := match previous with Some _ => u64_sub (map_len m) 1 | None => map_len m end in
          let group := <[local_index := if pm_is_empty shard then None else Some shard]> group in
          let group := if forallb (λ s, match s with None => true | Some _ => false end) group
                       then None else Some group in
          Some (ShardedMap_mk (<[group_index := group]> (groups m)) len, previous)
      end
  end.

Definition flat_shards (m : ShardedMap M K V) : list (M K V) :=
  group ← omap id (groups m); omap id group.

Definition populated_shards (m : ShardedMap M K V) : nat := length (flat_shards m).

Definition sharded_iter (m : ShardedMap M K V) : list (K * V) := shard ← flat_shards m; pm_iter (M := M) shard.

Definition sharded_values (m : ShardedMap M K V) : list V := (sharded_iter m).*2.
End sharded.

(** The building blocks of the shared kernel meet their specifications: the
    signature identifies the active set it is folded from (and is undone by
    removal), the chunked log is a list, the sharded map is a finite map. *)

(** ** Signatures *)

Definition sig_of (ids : list nat) : ActiveSignature :=
  foldr (λ i sg, sig_add sg i) ActiveSignature_default ids.

Lemma sig_add_comm sg i j : sig_add (sig_add sg i) j = sig_add (sig_add sg j) i.
Proof.
  unfold sig_add. simpl. f_equal.
  - rewrite !N.lxor_assoc. f_equal. apply N.lxor_comm.
  - rewrite !u64_add_assoc. f_equal. apply u64_add_comm.
Qed.

#[export] Instance sig_of_proper : Proper ((≡ₚ) ==> (=)) sig_of.
Proof.
  intros l1 l2 Hl. unfold sig_of. induction Hl; simpl; [done|by rewrite IHHl| |congruence].
  apply sig_add_comm.
Qed.

Definition sig_ok (sg : ActiveSignature) : Prop := u64_ok (sig_count sg) ∧ u64_ok (sig_sum sg).

Lemma sig_of_ok ids : sig_ok (sig_of ids).
Proof. destruct ids; simpl; split; try apply u64_wrap_ok; reflexivity. Qed.

Lemma sig_remove_add sg i : sig_ok sg → sig_remove (sig_add sg i) i = sg.
Proof.
  intros [Hc Hs]. destruct sg as [c x s]. unfold sig_remove, sig_add. simpl in *.
  rewrite !u64_add_sub, !u64_wrap_small by done.
  by rewrite N.lxor_assoc, N.lxor_nilpotent, N.lxor_0_r.
Qed.

Lemma sig_of_count ids : sig_count (sig_of ids) = usize_of (length ids).
Proof. induction ids as [|i ids IH]; simpl; [done|]. by rewrite IH, usize_of_S. Qed.

(** A signature tracks a set of active records. *)
Definition sig_rep (sg : ActiveSignature) (A : Indexed) : Prop :=
  ∃ ids, NoDup ids ∧ (∀ i, i ∈ ids ↔ ∃ f, A i f) ∧ sg = sig_of ids.

#[export] Instance sig_rep_proper : Proper ((=) ==> indexed_iff ==> iff) sig_rep.
Proof.
  intros sg ? <- A B HAB. unfold sig_rep. f_equiv. intros ids.
  split; intros (? & Hids & ?); (split_and!; [done| |done]); intros i; rewrite Hids;
    f_equiv; intros f; by rewrite (HAB i f).
Qed.

Lemma sig_rep_unique sg1 sg2 A : sig_rep sg1 A → sig_rep sg2 A → sg1 = sg2.
Proof.
  intros (l1 & ? & H1 & ->) (l2 & ? & H2 & ->).
  assert (l1 ≡ₚ l2) as ->; [|done].
  apply NoDup_Permutation; [done..|]. intros i. by rewrite H1, H2.
Qed.

Lemma sig_rep_default : sig_rep ActiveSignature_default (λ _ _, False).
Proof.
  exists []. split_and!; [constructor| |done]. intros i. rewrite elem_of_nil.
  split; [done|by intros []].
Qed.

Lemma sig_rep_add sg A i f :
  (∀ g, ¬ A i g) → sig_rep sg A → sig_rep (sig_add sg i) (add_indexed A i f).
Proof.
  intros Hi (ids & Hnd & Hids & ->). exists (i :: ids). split_and!; [|intros j|done].
  - constructor; [|done]. rewrite Hids. by intros (g & ?%Hi).
  - rewrite elem_of_cons, Hids. unfold add_indexed. naive_solver.
Qed.

Lemma sig_rep_remove sg A i f :
  A i f → sig_rep sg A → sig_rep (sig_remove sg i) (del_indexed A i).
Proof.
  intros Hi (ids & Hnd & Hids & ->).
  assert (i ∈ ids) as (ids' & Hp)%elem_of_Permutation by (apply Hids; eauto).
  rewrite Hp in Hnd. apply NoDup_cons in Hnd as [Hn Hnd].
  exists ids'. split_and!; [done|intros j|].
  - unfold del_indexed. split.
    + intros Hj. destruct (proj1 (Hids j)) as (g & Hg).
      { rewrite Hp. by right. }
      exists g. split; [done|]. by intros ->.
    + intros (g & Hg & Hne).
      assert (j ∈ ids) as Hj by (apply Hids; eauto). rewrite Hp in Hj.
      apply elem_of_cons in Hj as [?|?]; [done|done].
  - rewrite Hp. simpl. apply sig_remove_add, sig_of_ok.
Qed.

(** ** The chunked log *)

Fixpoint chunks_ok {T} (cs : list (list T)) : Prop :=
  match cs with
  | [] => True
  | c :: rest =>
      match rest with
      | [] => 0 < length c ≤ LOG_CHUNK_CAPACITY
      | _ :: _ => length c = LOG_CHUNK_CAPACITY ∧ chunks_ok rest
      end
  end.

Definition log_rep {T} (l : ChunkedLog T) (xs : list T) : Prop :=
  chunks_ok (chunks l) ∧ concat (chunks l) = xs ∧ log_len l = length xs.

Lemma capacity_pos : 0 < LOG_CHUNK_CAPACITY.
Proof. unfold LOG_CHUNK_CAPACITY. lia. Qed.

#[local] Opaque LOG_CHUNK_CAPACITY.

Lemma chunks_lookup {T} (cs : list (list T)) i :
  chunks_ok cs →
  (c ← cs !! (i / LOG_CHUNK_CAPACITY); c !! (i mod LOG_CHUNK_CAPACITY)) = concat cs !! i.
Proof.
  pose proof capacity_pos as HC. revert i. induction cs as [|c cs IH]; intros i Hok; [done|].
  destruct (decide (i < LOG_CHUNK_CAPACITY)) as [Hi|Hi].
  - rewrite Nat.div_small, Nat.mod_small by done. simpl.
    destruct cs as [|c' cs]; simpl.
    + by rewrite app_nil_r.
    + destruct Hok as [Hc _]. by rewrite lookup_app_l by lia.
  - replace i with ((i - LOG_CHUNK_CAPACITY) + 1 * LOG_CHUNK_CAPACITY) by lia.
    rewrite Nat.div_add, Nat.Div0.mod_add by lia. rewrite Nat.add_1_r. simpl.
    destruct cs as [|c' cs].
    + rewrite lookup_nil. simpl in *. rewrite app_nil_r.
      by rewrite lookup_ge_None_2 by lia.
    + destruct Hok as [Hc Hok]. rewrite IH by done.
      rewrite lookup_app_r by lia. f_equal. lia.
Qed.

Lemma push_chunk_ok {T} (cs : list (list T)) x :
  chunks_ok cs → chunks_ok (push_chunk cs x) ∧ concat (push_chunk cs x) = concat cs ++ [x].
Proof.
  pose proof capacity_pos as HC.
  induction cs as [|c cs IH]; intros Hok; [simpl; split; [lia|done]|].
  destruct cs as [|c' cs].
  - cbn [push_chunk]. destruct (length c <? LOG_CHUNK_CAPACITY) eqn:E.
    + apply Nat.ltb_lt in E. simpl in *. rewrite length_app, !app_nil_r. simpl. split; [lia|done].
    + apply Nat.ltb_ge in E. simpl in *. rewrite app_nil_r. split; [lia|done].
  - destruct Hok as [Hc Hok]. destruct (IH Hok) as [H1 H2].
    change (push_chunk (c :: c' :: cs) x) with (c :: push_chunk (c' :: cs) x).
    split.
    + destruct (push_chunk (c' :: cs) x) eqn:E; [|by split].
      exfalso. apply (f_equal length) in H2. rewrite length_app in H2.
      cbn [length concat] in H2. lia.
    + cbn [concat]. rewrite H2. by rewrite (assoc_L (++)).
Qed.

Lemma log_rep_default {T} : log_rep (T := T) ChunkedLog_default [].
Proof. done. Qed.

Lemma log_get_rep {T} (l : ChunkedLog T) xs i : log_rep l xs → log_get l i = xs !! i.
Proof. intros (Hok & <- & _). by apply chunks_lookup. Qed.

Lemma log_push_rep {T} (l : ChunkedLog T) xs x :
  log_rep l xs → (log_push l x).2 = length xs ∧ log_rep (log_push l x).1 (xs ++ [x]).
Proof.
  intros (Hok & <- & Hlen). destruct (push_chunk_ok _ x Hok) as [H1 H2].
  split; [done|]. split_and!; [done|done|]. simpl. rewrite length_app, Hlen. simpl. lia.
Qed.

(** The number of chunks is the length divided by the capacity, rounded up. *)
Lemma chunk_count_rep {T} (l : ChunkedLog T) xs :
  log_rep l xs →
  length xs ≤ chunk_count l * LOG_CHUNK_CAPACITY ∧
  (chunk_count l - 1) * LOG_CHUNK_CAPACITY ≤ length xs.
Proof.
  pose proof capacity_pos as HC. unfold chunk_count. intros (Hok & <- & _).
  induction (chunks l) as [|c cs IH]; [simpl; lia|].
  destruct cs as [|c' cs]; simpl in *; rewrite ?length_app in *; simpl; [lia|].
  destruct Hok as [Hc Hok]. specialize (IH Hok). lia.
Qed.

(** ** The sharded map *)

(** [NoDup] of a flattened list whose parts at different positions are disjoint. *)
Lemma NoDup_bind_pos {A B} (f : A → list B) (l : list A) :
  (∀ i j x y b, l !! i = Some x → l !! j = Some y → b ∈ f x → b ∈ f y → i = j) →
  (∀ x, x ∈ l → NoDup (f x)) → NoDup (l ≫= f).
Proof.
  induction l as [|x l IH]; intros Hdisj Hnd; csimpl; [constructor|].
  apply NoDup_app. split_and!.
  - apply Hnd. by left.
  - intros b Hb (y & Hb' & [j Hj]%list_elem_of_lookup)%list_elem_of_bind.
    by specialize (Hdisj 0 (S j) x y b eq_refl Hj Hb Hb').
  - apply IH; [|intros; apply Hnd; by right]. intros i j y z b Hy Hz Hby Hbz.
    specialize (Hdisj (S i) (S j) y z b Hy Hz Hby Hbz). lia.
Qed.

Lemma omap_id_bind {A B} (f : A → list B) (l : list (option A)) :
  omap id l ≫= f = l ≫= λ o, match o with Some x => f x | None => [] end.
Proof. induction l as [|[x|] l IH]; csimpl; [done|by rewrite IH|done]. Qed.

Lemma bind_bind {A B C} (f : A → list B) (g : B → list C) (l : list A) :
  (l ≫= f) ≫= g = l ≫= λ x, f x ≫= g.
Proof. induction l as [|x l IH]; csimpl; [done|]. by rewrite bind_app, IH. Qed.

Section sharded.
Context {M : Set → Set → Set} `{PersistentMapLaws M}.
Context (SHARDS : N) (HS : shards_ok SHARDS = true).
Context {K V : Set} `{Countable K, HashKey K}.

Implicit Types (m : ShardedMap M K V) (g : gmap K V).

Abbreviation dir := (directory_indices SHARDS (K := K)).

Definition group_count : nat := N.to_nat (SHARDS / SHARD_GROUP_SIZE).
Definition group_size : nat := N.to_nat SHARD_GROUP_SIZE.

Definition shard_at m (p : nat * nat) : option (M K V) :=
  group ← groups m !! p.1; group ← group; shard ← group !! p.2; shard.

Definition dims_ok m : Prop :=
  length (groups m) = group_count ∧
  ∀ i group, groups m !! i = Some (Some group) → length group = group_size.

Definition shard_get (c : option (M K V)) (k : K) : option V := s ← c; pm_get (M := M) s k.

Record sharded_rep m g : Prop := {
  smr_dims : dims_ok m;
  smr_nonempty p s : shard_at m p = Some s → pm_is_empty s = false;
  smr_dir p s k v : shard_at m p = Some s → pm_get s k = Some v → dir k = p;
  smr_get k : shard_get (shard_at m (dir k)) k = g !! k;
  smr_len : map_len m = usize_of (size g);
}.

Lemma dir_bounds k : (dir k).1 < group_count ∧ (dir k).2 < group_size.
Proof using HS.
  unfold directory_indices, group_count, group_size, shard_index. simpl.
  unfold shards_ok in HS. rewrite !andb_true_iff, N.leb_le, !N.eqb_eq in HS.
  destruct HS as [[_ Hle] Hmod]. unfold SHARD_GROUP_SIZE in *.
  pose proof (N.div_mod SHARDS 64 ltac:(lia)) as Hd. rewrite Hmod in Hd.
  assert (∀ a b, N.land a b ≤ b)%N as Hland.
  { intros a b. apply N.ldiff_le. apply N.bits_inj_iff. intros i.
    rewrite N.ldiff_spec, N.land_spec, N.bits_0. by destruct (N.testbit a i), (N.testbit b i). }
  split.
  - assert (N.land (fnv_hash k) (SHARDS - 1) / 64 < SHARDS / 64)%N; [|lia].
    apply N.Div0.div_lt_upper_bound.
    pose proof (Hland (fnv_hash k) (SHARDS - 1)%N). lia.
  - change (64 - 1)%N with 63%N.
    pose proof (Hland (N.land (fnv_hash k) (SHARDS - 1)) 63%N). lia.
Qed.

Lemma group_size_eq : N.to_nat SHARD_GROUP_SIZE = group_size.
Proof. done. Qed.

#[local] Opaque group_size directory_indices.

Lemma groups_lookup m k : dims_ok m → is_Some (groups m !! (dir k).1).
Proof using HS.
  intros [Hlen _]. apply lookup_lt_is_Some_2. rewrite Hlen. apply dir_bounds.
Qed.

Lemma sharded_get_at m k :
  dims_ok m → sharded_get SHARDS m k = Some (shard_get (shard_at m (dir k)) k).
Proof using HS.
  intros Hd. pose proof (groups_lookup m k Hd) as [group Hg].
  pose proof (dir_bounds k) as [_ Hj].
  unfold sharded_get, shard_get, shard_at. destruct (dir k) as [i j]; simpl in *.
  rewrite Hg. simpl. destruct group as [group|]; simpl; [|done].
  destruct Hd as [_ Hsz]. apply Hsz in Hg.
  destruct (lookup_lt_is_Some_2 group j) as [shard Hs]; [lia|].
  rewrite Hs. simpl. by destruct shard.
Qed.

(** Writing one cell of the two-level directory. *)
Definition cell_group m (i : nat) : list (option (M K V)) :=
  default (replicate group_size None) (g ← groups m !! i; g).

Lemma cell_group_length m i : dims_ok m → length (cell_group m i) = group_size.
Proof.
  intros [_ Hsz]. unfold cell_group. destruct (groups m !! i) as [[group|]|] eqn:E; simpl.
  - by eapply Hsz.
  - apply length_replicate.
  - apply length_replicate.
Qed.

Lemma cell_group_lookup m i j :
  dims_ok m → j < group_size → cell_group m i !! j = Some (shard_at m (i, j)).
Proof.
  intros Hd Hj. pose proof (cell_group_length m i Hd) as Hl.
  destruct (lookup_lt_is_Some_2 (cell_group m i) j) as [c Hc]; [lia|]. rewrite Hc. f_equal.
  unfold cell_group, shard_at in *. simpl.
  destruct (groups m !! i) as [[group|]|]; simpl in *.
  - by rewrite Hc.
  - apply lookup_replicate in Hc as [-> _]. done.
  - apply lookup_replicate in Hc as [-> _]. done.
Qed.

Lemma write_cell m i j c group' len' m' :
  dims_ok m → i < group_count → j < group_size →
  (group' = Some (<[j := c]> (cell_group m i)) ∨
   (group' = None ∧ ∀ x, x ∈ <[j := c]> (cell_group m i) → x = None)) →
  m' = ShardedMap_mk (<[i := group']> (groups m)) len' →
  dims_ok m' ∧ ∀ p, shard_at m' p = if decide (p = (i, j)) then c else shard_at m p.
Proof.
  intros Hd Hi Hj Hg ->. pose proof Hd as [Hlen Hsz].
  pose proof (cell_group_length m i Hd) as Hcl. split.
  - split; simpl; [by rewrite length_insert|]. intros i' group Hgr.
    apply list_lookup_insert_Some in Hgr as [(_ & Heq & _)|(_ & Hgr)]; [|by eapply Hsz].
    destruct Hg as [->|[-> _]]; [|done]. injection Heq as <-. by rewrite length_insert.
  - intros [i' j']. unfold shard_at at 1. simpl.
    destruct (decide (i' = i)) as [->|Hi'].
    + rewrite list_lookup_insert_eq by lia. simpl.
      assert ((g0 ← group'; s ← g0 !! j'; s) = s ← <[j := c]> (cell_group m i) !! j'; s) as Hg'.
      { destruct Hg as [->|[-> Hnone]]; simpl; [done|].
        destruct (<[j := c]> (cell_group m i) !! j') as [x|] eqn:Hx; simpl; [|done].
        symmetry. apply Hnone. by eapply list_elem_of_lookup_2. }
      rewrite Hg'. destruct (decide (j' = j)) as [->|Hj'].
      * rewrite list_lookup_insert_eq by lia. by rewrite decide_True.
      * rewrite list_lookup_insert_ne, decide_False by congruence.
        destruct (decide (j' < group_size)).
        -- by rewrite cell_group_lookup.
        -- rewrite lookup_ge_None_2 by lia. unfold shard_at. simpl.
           destruct (groups m !! i) as [[group|]|] eqn:E; simpl; [|done|done].
           apply Hsz in E. by rewrite lookup_ge_None_2 by lia.
    + rewrite list_lookup_insert_ne, decide_False by congruence. done.
Qed.

(** An update of the cell of a key updates the finite map at the key. *)
Lemma sharded_rep_update m g m' k (ov : option V) (c : option (M K V)) :
  sharded_rep m g →
  dims_ok m' →
  (∀ p, shard_at m' p = if decide (p = dir k) then c else shard_at m p) →
  (∀ s, c = Some s → pm_is_empty s = false) →
  (∀ k', shard_get c k' = if decide (k' = k) then ov else shard_get (shard_at m (dir k)) k') →
  map_len m' = usize_of (size (partial_alter (λ _, ov) k g)) →
  sharded_rep m' (partial_alter (λ _, ov) k g).
Proof.
  intros Hm Hd Hat Hne Hget Hlen. split; [done| | | |done].
  - intros p s Hs. rewrite Hat in Hs. case_decide; [by apply Hne|by eapply (smr_nonempty _ _ Hm)].
  - intros p s k' v Hs Hv. rewrite Hat in Hs. case_decide as Hp; [|by eapply (smr_dir _ _ Hm)].
    subst p. specialize (Hget k'). rewrite Hs in Hget. unfold shard_get at 1 in Hget. simpl in Hget.
    rewrite Hv in Hget. case_decide as Hk; [by subst|]. unfold shard_get in Hget.
    destruct (shard_at m (dir k)) as [s'|] eqn:Hs'; simpl in Hget; [|done].
    by eapply (smr_dir _ _ Hm).
  - intros k'. rewrite Hat. destruct (decide (k' = k)) as [->|Hk].
    + rewrite decide_True, Hget, decide_True by done. by rewrite lookup_partial_alter_eq.
    + rewrite lookup_partial_alter_ne by done. rewrite <- (smr_get _ _ Hm).
      case_decide as Hp; [|done]. by rewrite Hget, decide_False, Hp.
Qed.

Lemma sharded_get_rep m g k : sharded_rep m g → sharded_get SHARDS m k = Some (g !! k).
Proof using HS. intros Hm. rewrite sharded_get_at by apply Hm. by rewrite (smr_get _ _ Hm). Qed.

Lemma sharded_rep_default : sharded_rep (sharded_default SHARDS) ∅.
Proof.
  assert (∀ p, shard_at (sharded_default SHARDS) p = None) as Hat.
  { intros [i j]. unfold shard_at. simpl. fold group_count.
    destruct (replicate group_count None !! i) as [x|] eqn:E; simpl; [|done].
    apply lookup_replicate in E as [-> _]. done. }
  split.
  - split; simpl; [apply length_replicate|]. intros i group [? _]%lookup_replicate. done.
  - intros p s. by rewrite Hat.
  - intros p s k v. by rewrite Hat.
  - intros k. by rewrite Hat, lookup_empty.
  - done.
Qed.

Lemma nonempty_get (s : M K V) k v : pm_get s k = Some v → pm_is_empty s = false.
Proof.
  intros Hs%pm_elem_of_iter. destruct (pm_is_empty s) eqn:E; [|done].
  apply pm_is_empty_iter in E. rewrite E in Hs. by apply elem_of_nil in Hs.
Qed.

Lemma size_insert_len g k v :
  usize_of (size (<[k := v]> g)) =
  match g !! k with None => u64_add (usize_of (size g)) 1 | Some _ => usize_of (size g) end.
Proof.
  rewrite map_size_insert. destruct (g !! k); [done|]. by rewrite usize_of_S.
Qed.

Lemma size_delete_len g k :
  usize_of (size (delete k g)) =
  match g !! k with Some _ => u64_sub (usize_of (size g)) 1 | None => usize_of (size g) end.
Proof.
  rewrite map_size_delete. destruct (g !! k) as [v|] eqn:E; [|done].
  assert (size g ≠ 0) as Hs. { intros ->%map_size_empty_inv. by rewrite lookup_empty in E. }
  destruct (size g) as [|n]; [done|]. rewrite usize_of_pred. done.
Qed.

Lemma sharded_insert_rep m g k v :
  sharded_rep m g →
  ∃ m', sharded_insert SHARDS m k v = Some (m', g !! k) ∧ sharded_rep m' (<[k := v]> g).
Proof using HS H0.
  intros Hm. pose proof (smr_dims _ _ Hm) as Hd.
  pose proof (groups_lookup m k Hd) as [group Hg]. pose proof (dir_bounds k) as [Hi Hj].
  pose proof (smr_get _ _ Hm k) as Hgk.
  pose proof (cell_group_lookup m (dir k).1 (dir k).2 Hd Hj) as Hcell.
  unfold sharded_insert. rewrite (surjective_pairing (dir k)), Hg. cbn [mbind option_bind].
  assert (default (replicate (N.to_nat SHARD_GROUP_SIZE) None) group = cell_group m (dir k).1) as Hdef.
  { unfold cell_group. by rewrite Hg, group_size_eq. }
  rewrite <- surjective_pairing in Hcell. rewrite Hdef, Hcell. cbn [mbind option_bind].
  set (c := shard_at m (dir k)) in *.
  assert (pm_get (default pm_default c) k = g !! k) as Hprev.
  { rewrite <- Hgk. unfold shard_get. destruct c; simpl; [done|apply pm_get_default]. }
  rewrite Hprev. eexists. split; [done|].
  destruct (write_cell m (dir k).1 (dir k).2 (Some (pm_insert (default pm_default c) k v))
    (Some (<[(dir k).2 := Some (pm_insert (default pm_default c) k v)]> (cell_group m (dir k).1)))
    (match g !! k with None => u64_add (map_len m) 1 | Some _ => map_len m end) _ Hd Hi Hj
    (or_introl eq_refl) eq_refl) as [Hd' Hat].
  rewrite <- surjective_pairing in Hat.
  apply (sharded_rep_update m g _ k (Some v) _ Hm Hd' Hat).
  - intros s [= <-]. apply (nonempty_get _ k v). rewrite pm_get_insert. by rewrite decide_True.
  - intros k'. unfold shard_get at 1. simpl. rewrite pm_get_insert.
    case_decide; [done|]. unfold shard_get. fold c. destruct c; simpl; [done|apply pm_get_default].
  - simpl. change (partial_alter _ k g) with (<[k := v]> g).
    rewrite size_insert_len, (smr_len _ _ Hm). done.
Qed.

Lemma sharded_remove_rep m g k :
  sharded_rep m g →
  ∃ m', sharded_remove SHARDS m k = Some (m', g !! k) ∧ sharded_rep m' (delete k g).
Proof using HS H0.
  intros Hm. pose proof (smr_dims _ _ Hm) as Hd.
  pose proof (groups_lookup m k Hd) as [group Hg]. pose proof (dir_bounds k) as [Hi Hj].
  pose proof (smr_get _ _ Hm k) as Hgk.
  pose proof (cell_group_lookup m (dir k).1 (dir k).2 Hd Hj) as Hcell.
  unfold sharded_remove. rewrite (surjective_pairing (dir k)), Hg. simpl.
  rewrite <- surjective_pairing in Hcell.
  assert (shard_at m (dir k) = None → g !! k = None ∧ delete k g = g) as Hnone.
  { intros Hn. rewrite Hn in Hgk. simpl in Hgk. split; [done|]. by apply delete_id. }
  destruct group as [group|].
  2: { unfold shard_at in Hnone. rewrite Hg in Hnone. destruct (Hnone eq_refl) as [-> ->]. eauto. }
  assert (cell_group m (dir k).1 = group) as Hgr by (unfold cell_group; by rewrite Hg).
  rewrite Hgr in Hcell. rewrite Hcell. simpl.
  destruct (shard_at m (dir k)) as [s|] eqn:Hs.
  2: { destruct (Hnone eq_refl) as [-> ->]. eauto. }
  clear Hnone. unfold shard_get in Hgk. simpl in Hgk. rewrite Hgk.
  set (c := if pm_is_empty (pm_remove s k) then None else Some (pm_remove s k)).
  set (len' := match g !! k with Some _ => _ | None => _ end).
  set (group' := if forallb _ _ then None else Some _).
  eexists. split; [done|].
  destruct (write_cell m (dir k).1 (dir k).2 c group' len'
    (ShardedMap_mk (<[(dir k).1 := group']> (groups m)) len') Hd Hi Hj) as [Hd' Hat]; [|done|].
  { subst group'. rewrite Hgr. destruct (forallb _ _) eqn:Hall; [right|by left].
    split; [done|]. intros x Hx. rewrite forallb_forall in Hall.
    specialize (Hall x ltac:(by apply list_elem_of_In)). by destruct x. }
  rewrite <- surjective_pairing in Hat.
  change (delete k g) with (partial_alter (λ _, None) k g).
  apply (sharded_rep_update m g _ k None _ Hm Hd' Hat).
  - subst c. intros s'. destruct (pm_is_empty (pm_remove s k)) eqn:E; [done|]. by intros [= <-].
  - intros k'. rewrite Hs. unfold shard_get. simpl. subst c.
    assert (pm_get (pm_remove s k) k' = if decide (k' = k) then None else pm_get s k') as Hr
      by apply pm_get_remove.
    destruct (pm_is_empty (pm_remove s k)) eqn:E; simpl; [|done].
    destruct (pm_get (pm_remove s k) k') eqn:E2; [|done].
    apply nonempty_get in E2. congruence.
  - simpl. change (partial_alter _ k g) with (delete k g). subst len'.
    rewrite size_delete_len, (smr_len _ _ Hm). done.
Qed.

Lemma sharded_get_mut_rep m g k :
  sharded_rep m g →
  match g !! k with
  | Some v => ∃ write, sharded_get_mut SHARDS m k = Some (Some (v, write)) ∧
      ∀ v', sharded_rep (write v') (<[k := v']> g)
  | None => sharded_get_mut SHARDS m k = Some None
  end.
Proof using HS H0.
  intros Hm. pose proof (smr_dims _ _ Hm) as Hd.
  pose proof (groups_lookup m k Hd) as [group Hg]. pose proof (dir_bounds k) as [Hi Hj].
  pose proof (smr_get _ _ Hm k) as Hgk.
  pose proof (cell_group_lookup m (dir k).1 (dir k).2 Hd Hj) as Hcell.
  unfold sharded_get_mut. rewrite (surjective_pairing (dir k)), Hg. simpl.
  rewrite <- surjective_pairing in Hcell.
  destruct group as [group|].
  2: { unfold shard_at in Hgk. rewrite Hg in Hgk. simpl in Hgk. by rewrite <- Hgk. }
  assert (cell_group m (dir k).1 = group) as Hgr by (unfold cell_group; by rewrite Hg).
  rewrite Hgr in Hcell. rewrite Hcell. simpl.
  destruct (shard_at m (dir k)) as [s|] eqn:Hs; simpl in *; [|by rewrite <- Hgk].
  unfold shard_get in Hgk. simpl in Hgk. rewrite Hgk.
  destruct (g !! k) as [v|] eqn:Hv; simpl; [|done]. eexists. split; [done|]. intros v'.
  destruct (write_cell m (dir k).1 (dir k).2 (Some (pm_insert s k v'))
    (Some (<[(dir k).2 := Some (pm_insert s k v')]> group)) (map_len m)
    (ShardedMap_mk (<[(dir k).1 := Some (<[(dir k).2 := Some (pm_insert s k v')]> group)]> (groups m))
       (map_len m)) Hd Hi Hj) as [Hd' Hat];
    [left; by rewrite Hgr|done|].
  rewrite <- surjective_pairing in Hat.
  apply (sharded_rep_update m g _ k (Some v') _ Hm Hd' Hat).
  - intros s' [= <-]. apply (nonempty_get _ k v'). rewrite pm_get_insert. by rewrite decide_True.
  - intros k'. rewrite Hs. unfold shard_get. simpl. by rewrite pm_get_insert.
  - simpl. change (partial_alter _ k g) with (<[k := v']> g).
    by rewrite size_insert_len, Hv, (smr_len _ _ Hm).
Qed.

Lemma sharded_iter_flat m :
  sharded_iter m = groups m ≫= λ og,
    match og with
    | Some group => group ≫= λ os, match os with Some s => pm_iter s | None => [] end
    | None => []
    end.
Proof.
  unfold sharded_iter, flat_shards. rewrite bind_bind, omap_id_bind.
  apply list_bind_ext; [|done]. intros [group|]; [|done]. apply omap_id_bind.
Qed.

Lemma elem_of_shard m i j group s :
  groups m !! i = Some (Some group) → group !! j = Some (Some s) → shard_at m (i, j) = Some s.
Proof. intros Hi Hj. unfold shard_at. simpl. rewrite Hi. simpl. by rewrite Hj. Qed.

(** Iteration visits every entry of the finite map exactly once. *)
Lemma sharded_iter_rep m g : sharded_rep m g → sharded_iter m ≡ₚ map_to_list g.
Proof using H0.
  intros Hm. rewrite sharded_iter_flat. apply NoDup_Permutation; [|apply NoDup_map_to_list|].
  - assert (∀ i j i' j' group group' s s' kv,
      groups m !! i = Some (Some group) → group !! j = Some (Some s) →
      groups m !! i' = Some (Some group') → group' !! j' = Some (Some s') →
      kv ∈ pm_iter s → kv ∈ pm_iter s' → i = i' ∧ j = j') as Hpos.
    { intros i j i' j' group group' s s' [k v] Hi Hj Hi' Hj' Hs%pm_elem_of_iter Hs'%pm_elem_of_iter.
      pose proof (smr_dir _ _ Hm _ _ _ _ (elem_of_shard _ _ _ _ _ Hi Hj) Hs) as H3.
      pose proof (smr_dir _ _ Hm _ _ _ _ (elem_of_shard _ _ _ _ _ Hi' Hj') Hs') as H4.
      split; congruence. }
    apply NoDup_bind_pos.
    + intros i i' [group|] [group'|] kv Hi Hi'; try (by intros []%not_elem_of_nil);
        try (by intros _ []%not_elem_of_nil).
      intros ([s|] & Hs & [j Hj]%list_elem_of_lookup)%list_elem_of_bind; [|by apply elem_of_nil in Hs].
      intros ([s'|] & Hs' & [j' Hj']%list_elem_of_lookup)%list_elem_of_bind;
        [|by apply elem_of_nil in Hs'].
      by destruct (Hpos i j i' j' group group' s s' kv).
    + intros [group|] [i Hi]%list_elem_of_lookup; [|constructor].
      apply NoDup_bind_pos.
      * intros j j' [s|] [s'|] kv Hj Hj' Hs Hs'; try (by apply elem_of_nil in Hs);
          try (by apply elem_of_nil in Hs').
        by destruct (Hpos i j i j' group group s s' kv).
      * intros [s|] _; [apply pm_NoDup_iter|constructor].
  - intros [k v]. rewrite elem_of_map_to_list, <- (smr_get _ _ Hm), list_elem_of_bind. split.
    + intros ([group|] & Hkv & [i Hi]%list_elem_of_lookup); [|by apply elem_of_nil in Hkv].
      apply list_elem_of_bind in Hkv as ([s|] & Hkv & [j Hj]%list_elem_of_lookup);
        [|by apply elem_of_nil in Hkv].
      apply pm_elem_of_iter in Hkv. pose proof (elem_of_shard _ _ _ _ _ Hi Hj) as Hs.
      rewrite (smr_dir _ _ Hm _ _ _ _ Hs Hkv). unfold shard_get. by rewrite Hs.
    + unfold shard_get, shard_at. intros Hs.
      destruct (groups m !! (dir k).1) as [[group|]|] eqn:Hi; simpl in Hs; try done.
      destruct (group !! (dir k).2) as [[s|]|] eqn:Hj; simpl in Hs; try done.
      exists (Some group). split; [|by eapply list_elem_of_lookup_2].
      apply list_elem_of_bind. exists (Some s). split; [by apply pm_elem_of_iter|].
      by eapply list_elem_of_lookup_2.
Qed.
End sharded.

(** ** Association lists

    They meet the laws assumed of the [im] crate's persistent map and set, so the
    hypotheses of the shared kernel can be discharged and its definitions
    evaluated. *)

Section assoc.
Context {K V : Set} `{EqDecision K}.

Fixpoint assoc_get (m : list (K * V)) (k : K) : option V :=
  match m with
  | [] => None
  | (k', v) :: m => if decide (k' = k) then Some v else assoc_get m k
  end.

Definition assoc_remove (m : list (K * V)) (k : K) : list (K * V) :=
  filter (λ kv, kv.1 ≠ k) m.
End assoc.

(** A map keeps each key once. *)
Record UniqueMap (K V : Set) : Set := UniqueMap_mk {
  unique_list : list (K * V);
  unique_keys : NoDup unique_list.*1;
}.
Arguments UniqueMap_mk {K V} _ _.
Arguments unique_list {K V} _.
Arguments unique_keys {K V} _.

Section unique.
Context {K V : Set} `{EqDecision K}.

Lemma assoc_remove_fst (l : list (K * V)) k k' :
  k' ∈ (assoc_remove l k).*1 → k' ≠ k ∧ k' ∈ l.*1.
Proof.
  intros ([k1 v] & -> & [Hne Hin]%list_elem_of_filter)%list_elem_of_fmap.
  split; [done|]. apply list_elem_of_fmap. by exists (k1, v).
Qed.

Lemma assoc_remove_NoDup (l : list (K * V)) k : NoDup l.*1 → NoDup (assoc_remove l k).*1.
Proof.
  unfold assoc_remove. induction l as [|[k' v] l IH]; intros Hnd; [done|].
  simpl in Hnd. apply NoDup_cons in Hnd as [Hn Hnd]. rewrite filter_cons.
  case_decide; [|by apply IH]. simpl. constructor; [|by apply IH].
  intros ([k1 v1] & Heq & [_ Hin]%list_elem_of_filter)%list_elem_of_fmap. simpl in Heq. subst k1.
  apply Hn, list_elem_of_fmap. by exists (k', v1).
Qed.

Definition unique_empty : UniqueMap K V := UniqueMap_mk [] (NoDup_nil_2).

Definition unique_remove (m : UniqueMap K V) (k : K) : UniqueMap K V :=
  UniqueMap_mk (assoc_remove (unique_list m) k) (assoc_remove_NoDup _ k (unique_keys m)).

Lemma unique_insert_NoDup (m : UniqueMap K V) k v :
  NoDup ((k, v) :: assoc_remove (unique_list m) k).*1.
Proof.
  simpl. constructor; [|apply assoc_remove_NoDup, unique_keys].
  by intros [? _]%assoc_remove_fst.
Qed.

Definition unique_insert (m : UniqueMap K V) (k : K) (v : V) : UniqueMap K V :=
  UniqueMap_mk ((k, v) :: assoc_remove (unique_list m) k) (unique_insert_NoDup m k v).

Lemma assoc_get_remove (l : list (K * V)) k k' :
  assoc_get (assoc_remove l k) k' = if decide (k' = k) then None else assoc_get l k'.
Proof.
  unfold assoc_remove. induction l as [|[k1 v] l IH]; simpl; [by case_decide|].
  rewrite filter_cons. simpl. destruct (decide (k1 ≠ k)) as [Hne|Heq].
  - simpl. rewrite IH. destruct (decide (k1 = k')), (decide (k' = k)); congruence.
  - rewrite IH. destruct (decide (k' = k)) as [|Hne]; [done|].
    destruct (decide (k1 = k')); [|done]. exfalso. apply Heq. congruence.
Qed.

Lemma elem_of_assoc (l : list (K * V)) k v :
  NoDup l.*1 → (k, v) ∈ l ↔ assoc_get l k = Some v.
Proof.
  induction l as [|[k' v'] l IH]; intros Hnd; simpl in *.
  { rewrite elem_of_nil. done. }
  apply NoDup_cons in Hnd as [Hn Hnd]. rewrite elem_of_cons.
  case_decide as Hk; [subst k'|].
  - split; [|intros [= ->]; by left]. intros [[= ->]|Hin]; [done|].
    exfalso. apply Hn, list_elem_of_fmap. by exists (k, v).
  - rewrite <- IH by done. split; [|by right]. by intros [[= -> ->]|].
Qed.
End unique.

#[export] Instance unique_map : PersistentMap UniqueMap := {
  pm_default K V := unique_empty;
  pm_get K V _ _ m k := assoc_get (unique_list m) k;
  pm_insert K V _ _ m k v := unique_insert m k v;
  pm_remove K V _ _ m k := unique_remove m k;
  pm_is_empty K V m := match unique_list m with [] => true | _ => false end;
  pm_iter K V m := unique_list m;
}.

#[export] Instance unique_map_laws : PersistentMapLaws UniqueMap.
Proof.
  split; simpl.
  - done.
  - intros K V EqD Hh m k v k'. rewrite assoc_get_remove. simpl.
    destruct (decide (k = k')), (decide (k' = k)); congruence.
  - intros K V EqD Hh m k k'. apply assoc_get_remove.
  - intros K V EqD Hh m k v. apply elem_of_assoc, unique_keys.
  - intros K V m. eapply NoDup_fmap_1, unique_keys.
  - intros K V m. by destruct (unique_list m).
Qed.

(** Sets of record ids. *)
Record UniqueSet : Set := UniqueSet_mk {
  set_list : list nat;
  set_NoDup : NoDup set_list;
}.

Lemma remove_NoDup (s : UniqueSet) i : NoDup (filter (λ j, j ≠ i) (set_list s)).
Proof. apply NoDup_filter, set_NoDup. Qed.

Lemma insert_NoDup (s : UniqueSet) i : NoDup (i :: filter (λ j, j ≠ i) (set_list s)).
Proof. constructor; [|apply remove_NoDup]. by intros [? _]%list_elem_of_filter. Qed.

#[export] Instance unique_set : PersistentSet UniqueSet := {
  ps_default := UniqueSet_mk [] (NoDup_nil_2);
  ps_insert s i := UniqueSet_mk (i :: filter (λ j, j ≠ i) (set_list s)) (insert_NoDup s i);
  ps_remove s i := UniqueSet_mk (filter (λ j, j ≠ i) (set_list s)) (remove_NoDup s i);
  ps_is_empty s := match set_list s with [] => true | _ => false end;
  ps_iter := set_list;
}.

#[export] Instance unique_set_laws : PersistentSetLaws UniqueSet.
Proof.
  split; simpl.
  - done.
  - intros s i j. rewrite elem_of_cons, list_elem_of_filter. destruct (decide (j = i)); tauto.
  - intros s i j. by rewrite list_elem_of_filter.
  - intros s. by destruct (set_list s).
  - apply set_NoDup.
Qed.
