(* ===== verification/SharedStore.v ===== *)
(** The structurally shared definition store
    (forthdb-core/src/shared_types_v5.rs, lines 252-392), refined to the event
    history: chunked log, sharded head table, linked slot histories and the
    incremental signature of the active set. *)
From Stdlib Require Import NArith Lia.
From stdpp Require Import sorting base gmap list strings fin_maps option list_monad.
From S2P Require Import Prelude Ord Terms Bytes Query QueryFacts Spec Index Kernel.
From S2P Require Import SharedTypes.

Section store.
Context {M : Set → Set → Set} `{PersistentMap M}.

Record SharedDefinitionStore := SharedDefinitionStore_mk {
  ss_log : ChunkedLog LogRecord;
  ss_head : ShardedMap M SlotId nat;
  ss_history : ShardedMap M SlotId SlotHistoryNode;
  ss_signature : ActiveSignature;
}.

Definition store_default : SharedDefinitionStore :=
  SharedDefinitionStore_mk ChunkedLog_default (sharded_default HEAD_SHARDS)
    (sharded_default HISTORY_SHARDS) ActiveSignature_default.

Definition record (st : SharedDefinitionStore) (i : nat) : option LogRecord :=
  log_get (ss_log st) i.

Definition append_slot_history (st : SharedDefinitionStore) (s : SlotId) (i : nat) :
    option SharedDefinitionStore :=
  previous ← sharded_get HISTORY_SHARDS (ss_history st) s;
  '(hist, _) ← sharded_insert HISTORY_SHARDS (ss_history st) s (SlotHistoryNode_mk i previous);
  Some (SharedDefinitionStore_mk (ss_log st) (ss_head st) hist (ss_signature st)).

Definition replace_head (st : SharedDefinitionStore) (s : SlotId) (new_head : option nat) :
    option SharedDefinitionStore :=
  previous ← sharded_get HEAD_SHARDS (ss_head st) s;
  let signature := match previous with
                   | Some previous => sig_remove (ss_signature st) previous
                   | None => ss_signature st
                   end in
  match new_head with
  | Some record_id =>
      '(hd, _) ← sharded_insert HEAD_SHARDS (ss_head st) s record_id;
      Some (SharedDefinitionStore_mk (ss_log st) hd (ss_history st) (sig_add signature record_id))
  | None =>
      '(hd, _) ← sharded_remove HEAD_SHARDS (ss_head st) s;
      Some (SharedDefinitionStore_mk (ss_log st) hd (ss_history st) signature)
  end.

Definition push_record (st : SharedDefinitionStore) (r : LogRecord) : SharedDefinitionStore :=
  SharedDefinitionStore_mk (log_push (ss_log st) r).1 (ss_head st) (ss_history st)
    (ss_signature st).

Definition append_define (st : SharedDefinitionStore) (s : SlotId) (f : Fact) :
    option (SharedDefinitionStore * nat) :=
  previous_head ← sharded_get HEAD_SHARDS (ss_head st) s;
  let record_id := log_len (ss_log st) in
  let st := push_record st
    (LogRecord_mk record_id Define s (Some f) previous_head (Some record_id)) in
  st ← append_slot_history st s record_id;
  st ← replace_head st s (Some record_id);
  Some (st, record_id).

Definition append_forget (st : SharedDefinitionStore) (s : SlotId) :
    option (SharedDefinitionStore * (nat * option nat)) :=
  current ← sharded_get HEAD_SHARDS (ss_head st) s;
  revealed ← match current with
             | Some record_id => r ← record st record_id; Some (rec_previous_head r)
             | None => Some None
             end;
  let record_id := log_len (ss_log st) in
  let st := push_record st (LogRecord_mk record_id Forget s None current revealed) in
  st ← append_slot_history st s record_id;
  st ← replace_head st s revealed;
  Some (st, (record_id, revealed)).

Definition resolve_record (st : SharedDefinitionStore) (s : SlotId) :
    option (option LogRecord) :=
  current ← sharded_get HEAD_SHARDS (ss_head st) s;
  match current with
  | Some record_id => Some <$> record st record_id
  | None => Some None
  end.

Fixpoint definitions_loop (fuel : nat) (st : SharedDefinitionStore) (record_id : option nat) :
    option (list LogRecord) :=
  match record_id, fuel with
  | None, _ => Some []
  | Some _, 0 => None
  | Some current, S fuel =>
      r ← record st current;
      rest ← definitions_loop fuel st (rec_previous_head r);
      Some (r :: rest)
  end.

Definition definitions (st : SharedDefinitionStore) (s : SlotId) : option (list LogRecord) :=
  current ← sharded_get HEAD_SHARDS (ss_head st) s;
  definitions_loop (log_len (ss_log st)) st current.

(** [while let Some(current) = node { ids.push(..); node = previous }]. *)
Fixpoint node_ids (n : SlotHistoryNode) : list nat :=
  match n with
  | SlotHistoryNode_mk i previous =>
      i :: match previous with Some n => node_ids n | None => [] end
  end.

Definition history (st : SharedDefinitionStore) (s : SlotId) : option (list LogRecord) :=
  node ← sharded_get HISTORY_SHARDS (ss_history st) s;
  let ids := match node with Some n => node_ids n | None => [] end in
  mapM (record st) (reverse ids).

Definition active_slot_count (st : SharedDefinitionStore) : N := map_len (ss_head st).
Definition record_count (st : SharedDefinitionStore) : nat := log_len (ss_log st).

Definition store_validate_fast (st : SharedDefinitionStore) : outcome string unit :=
  if decide (map_len (ss_head st) ≠ sig_count (ss_signature st))
  then Err "active-head count does not match tracked signature"%string
  else if decide (N.of_nat (log_len (ss_log st)) < sig_count (ss_signature st))%N
  then Err "active-head count exceeds record count"%string
  else Ok tt.

Fixpoint check_heads (st : SharedDefinitionStore) (ids : list nat) : outcome string unit :=
  match ids with
  | [] => Ok tt
  | i :: ids =>
      let* r := or_panic (record st i) in
      if decide (rec_kind r = Define) then
        match rec_fact r with
        | Some _ => check_heads st ids
        | None => Err "slot heads must be definition records"%string
        end
      else Err "slot heads must be definition records"%string
  end.

Definition store_validate_full (st : SharedDefinitionStore) : outcome string unit :=
  let* _ := check_heads st (sharded_values (ss_head st)) in
  let signature := foldl sig_add ActiveSignature_default (sharded_values (ss_head st)) in
  if decide (signature = ss_signature st) then Ok tt
  else Err "active-head signature does not match full audit"%string.

Definition active_record_ids (st : SharedDefinitionStore) : list nat :=
  sort_ids (elements (list_to_set (C := gset nat) (sharded_values (ss_head st)))).
End store.
Arguments SharedDefinitionStore : clear implicits.
#[global] Arguments append_define : simpl never.
#[global] Arguments append_forget : simpl never.

Section refinement.
Context {M : Set → Set → Set} `{PersistentMapLaws M}.
Implicit Types (st : SharedDefinitionStore M) (evs : list Event).

Record store_rep st evs : Prop := {
  sr_log : ∃ xs, log_rep (ss_log st) xs ∧ length xs = length evs ∧
    ∀ i, xs !! i = record_at evs i;
  sr_head : ∃ g, sharded_rep HEAD_SHARDS (ss_head st) g ∧ ∀ s, g !! s = head_id evs s;
  sr_history : ∃ g, sharded_rep HISTORY_SHARDS (ss_history st) g ∧
    ∀ s, reverse (match g !! s with Some n => node_ids n | None => [] end) = slot_ids evs s;
  sr_signature : sig_rep (ss_signature st) (active evs);
}.

Lemma head_shards_ok : shards_ok HEAD_SHARDS = true.
Proof. reflexivity. Qed.
Lemma history_shards_ok : shards_ok HISTORY_SHARDS = true.
Proof. reflexivity. Qed.

Lemma shared_store_rep_default : store_rep store_default [].
Proof.
  split.
  - exists []. done.
  - exists ∅. split; [apply sharded_rep_default|done].
  - exists ∅. split; [apply sharded_rep_default|]. intros s. by rewrite lookup_empty.
  - exists []. split_and!; [constructor| |done]. intros i. rewrite elem_of_nil.
    split; [done|]. by intros (f & s & ?).
Qed.

Lemma record_rep st evs i : store_rep st evs → record st i = record_at evs i.
Proof.
  intros Hst. destruct (sr_log _ _ Hst) as (xs & Hl & _ & Hx).
  unfold record. rewrite (log_get_rep _ _ _ Hl). apply Hx.
Qed.

Lemma log_len_rep st evs : store_rep st evs → log_len (ss_log st) = length evs.
Proof. intros Hst. destruct (sr_log _ _ Hst) as (xs & (_ & _ & ->) & ? & _). done. Qed.

Lemma head_rep st evs s :
  store_rep st evs → sharded_get HEAD_SHARDS (ss_head st) s = Some (head_id evs s).
Proof.
  intros Hst. destruct (sr_head _ _ Hst) as (g & Hg & <-).
  by apply (sharded_get_rep _ head_shards_ok).
Qed.

(** The signature after the head of a slot changes, as [replace_head]
    computes it. *)
Definition next_signature (sg : ActiveSignature) (old new : option nat) : ActiveSignature :=
  let sg := match old with Some i => sig_remove sg i | None => sg end in
  match new with Some j => sig_add sg j | None => sg end.

Lemma next_signature_define sg evs s f :
  sig_rep sg (active evs) →
  sig_rep (next_signature sg (head_id evs s) (Some (length evs))) (active (evs ++ [EvDefine s f])).
Proof.
  intros Hsg. unfold next_signature.
  assert (∀ g, ¬ active evs (length evs) g) as Hnew by (intros g [? _]%active_lookup; lia).
  destruct (head_id evs s) as [i|] eqn:Hh.
  - apply head_id_Some in Hh as (g & Ht). rewrite (active_define_over _ _ _ _ _ Ht).
    apply sig_rep_add; [by intros h [?%Hnew _]|]. apply (sig_rep_remove _ _ _ g); [by exists s|done].
  - rewrite (active_define_new _ _ _ Hh). by apply sig_rep_add.
Qed.

Lemma head_forget evs s :
  head_id (evs ++ [EvForget s]) s = fst <$> head (tail (stack evs s)).
Proof. unfold head_id. rewrite top_snoc. simpl. by rewrite decide_True. Qed.

Lemma next_signature_forget sg evs s :
  sig_rep sg (active evs) →
  sig_rep (next_signature sg (head_id evs s) (head_id (evs ++ [EvForget s]) s))
    (active (evs ++ [EvForget s])).
Proof.
  intros Hsg. rewrite head_forget. unfold next_signature.
  assert (head_id evs s = fst <$> head (stack evs s)) as Hh by done.
  destruct (stack evs s) as [|[i f] l] eqn:Hs; simpl in Hh; rewrite Hh; simpl.
  - by rewrite (active_forget_none _ _ Hh).
  - assert (active evs i f) as Hi by (exists s; unfold top; by rewrite Hs).
    destruct l as [|[j g] l]; simpl.
    + rewrite (active_forget_last _ _ _ _ Hs). by eapply sig_rep_remove.
    + rewrite (active_forget_reveal _ _ _ _ _ _ _ Hs).
      apply sig_rep_add; [|by eapply sig_rep_remove].
      intros h Hj. apply (active_del_slot evs s i f) in Hj as (s' & Hne & Hs');
        [|unfold top; by rewrite Hs].
      apply Hne. apply top_Some in Hs' as [_ Hs'].
      pose proof Hs as (_ & _ & Hl)%stack_cons. symmetry in Hl.
      apply stack_cons in Hl as (Hj & Hl & _). rewrite length_take in Hj.
      rewrite lookup_take_lt in Hl by lia. congruence.
Qed.

(** Appending a record, its history entry and its head. *)
Lemma store_append st evs ev new :
  store_rep st evs →
  head_id (evs ++ [ev]) (event_slot ev) = new →
  sig_rep (next_signature (ss_signature st) (head_id evs (event_slot ev)) new)
    (active (evs ++ [ev])) →
  ∃ st1 st2,
    append_slot_history (push_record st
      (LogRecord_mk (log_len (ss_log st)) (event_kind ev) (event_slot ev) (event_fact ev)
         (head_id evs (event_slot ev)) new)) (event_slot ev) (log_len (ss_log st)) = Some st1 ∧
    replace_head st1 (event_slot ev) new = Some st2 ∧
    store_rep st2 (evs ++ [ev]).
Proof.
  intros Hst Hnew Hsig. set (s := event_slot ev) in *.
  pose proof (log_len_rep _ _ Hst) as Hlen.
  destruct (sr_log _ _ Hst) as (xs & Hl & Hxl & Hx).
  destruct (sr_head _ _ Hst) as (gh & Hgh & Hh).
  destruct (sr_history _ _ Hst) as (gn & Hgn & Hn).
  unfold append_slot_history. simpl.
  rewrite (sharded_get_rep _ history_shards_ok _ _ s Hgn). simpl.
  destruct (sharded_insert_rep _ history_shards_ok _ _ s
    (SlotHistoryNode_mk (log_len (ss_log st)) (gn !! s)) Hgn) as (hist & -> & Hhist). simpl.
  set (r := LogRecord_mk _ _ _ _ _ _).
  exists (SharedDefinitionStore_mk (log_push (ss_log st) r).1 (ss_head st) hist (ss_signature st)).
  unfold replace_head. simpl.
  rewrite (sharded_get_rep _ head_shards_ok _ _ s Hgh), Hh. simpl.
  assert (∃ xs', log_rep (log_push (ss_log st) r).1 xs' ∧ length xs' = length (evs ++ [ev]) ∧
    ∀ i, xs' !! i = record_at (evs ++ [ev]) i) as Hlog.
  { destruct (log_push_rep _ _ r Hl) as [_ Hl']. exists (xs ++ [r]). split_and!; [done| |].
    - by rewrite !length_app, Hxl.
    - intros i. rewrite record_at_snoc. case_decide as Hi.
      + subst i. rewrite <- Hxl, lookup_snoc_length, Hxl. unfold r. by rewrite Hlen, <- Hnew.
      + rewrite <- Hx. destruct (decide (i < length xs)); [by apply lookup_app_l|].
        rewrite !lookup_ge_None_2; [done|lia|rewrite length_app; simpl; lia]. }
  assert (∃ g, sharded_rep HISTORY_SHARDS hist g ∧
    ∀ s0, reverse (match g !! s0 with Some n => node_ids n | None => [] end) =
      slot_ids (evs ++ [ev]) s0) as Hhist'.
  { eexists. split; [done|]. intros s0. rewrite slot_ids_snoc. fold s.
    destruct (decide (s0 = s)) as [->|Hne].
    - rewrite lookup_insert_eq. simpl. rewrite reverse_cons, Hlen, <- Hn. done.
    - by rewrite lookup_insert_ne, Hn by done. }
  unfold next_signature in Hsig.
  destruct new as [j|].
  - destruct (sharded_insert_rep _ head_shards_ok _ _ s j Hgh) as (hd & -> & Hhd). simpl.
    eexists. split_and!; [done|done|]. split; [done| |done|done]. eexists. split; [done|].
    intros s0. destruct (decide (s0 = s)) as [->|Hne].
    + by rewrite lookup_insert_eq.
    + by rewrite lookup_insert_ne, head_id_snoc_ne.
  - destruct (sharded_remove_rep _ head_shards_ok _ _ s Hgh) as (hd & -> & Hhd). simpl.
    eexists. split_and!; [done|done|]. split; [done| |done|done]. eexists. split; [done|].
    intros s0. destruct (decide (s0 = s)) as [->|Hne].
    + by rewrite lookup_delete_eq.
    + by rewrite lookup_delete_ne, head_id_snoc_ne.
Qed.

Lemma shared_append_define_rep st evs s f :
  store_rep st evs →
  ∃ st', append_define st s f = Some (st', length evs) ∧ store_rep st' (evs ++ [EvDefine s f]).
Proof.
  intros Hst. unfold append_define. rewrite (head_rep _ _ s Hst). simpl.
  destruct (store_append st evs (EvDefine s f) (Some (length evs)) Hst) as (st1 & st2 & H1 & H2 & H3).
  - apply head_id_snoc_define.
  - apply next_signature_define, Hst.
  - simpl in *. rewrite (log_len_rep _ _ Hst) in *. rewrite H1. simpl. rewrite H2. simpl. eauto.
Qed.

Lemma revealed_rep st evs s :
  store_rep st evs →
  match head_id evs s with
  | Some i => r ← record st i; Some (rec_previous_head r)
  | None => Some None
  end = Some (head_id (evs ++ [EvForget s]) s).
Proof.
  intros Hst. destruct (head_id evs s) as [i|] eqn:Hh.
  - apply head_id_Some in Hh as (f & Ht). rewrite (record_rep _ _ _ Hst).
    destruct (record_at_active _ _ _ _ Ht) as (r & Hr & _ & Hs & _). rewrite Hr. simpl.
    rewrite <- (previous_head_revealed _ _ _ _ Ht).
    destruct (record_at_Some _ _ _ Hr) as (_ & ev & _ & _ & Hs' & _ & ->). congruence.
  - rewrite head_forget. unfold head_id, top in Hh. by destruct (stack evs s).
Qed.

Lemma shared_append_forget_rep st evs s :
  store_rep st evs →
  ∃ st', append_forget st s = Some (st', (length evs, head_id (evs ++ [EvForget s]) s)) ∧
    store_rep st' (evs ++ [EvForget s]).
Proof.
  intros Hst. unfold append_forget. rewrite (head_rep _ _ s Hst). simpl.
  rewrite (revealed_rep _ _ s Hst). simpl.
  destruct (store_append st evs (EvForget s) _ Hst eq_refl) as (st1 & st2 & H1 & H2 & H3).
  - apply next_signature_forget, Hst.
  - simpl in *. rewrite (log_len_rep _ _ Hst) in *. rewrite H1. simpl. rewrite H2. simpl. eauto.
Qed.

Lemma shared_resolve_record_rep st evs s :
  store_rep st evs →
  ∃ r, resolve_record st s = Some r ∧ (r ≫= rec_fact) = spec_resolve evs s.
Proof.
  intros Hst. unfold resolve_record, spec_resolve. rewrite (head_rep _ _ s Hst). simpl.
  unfold head_id. destruct (top evs s) as [[i f]|] eqn:Ht; simpl; [|eauto].
  rewrite (record_rep _ _ _ Hst).
  destruct (record_at_active _ _ _ _ Ht) as (r & -> & _ & _ & Hf). exists (Some r). simpl. eauto.
Qed.

Lemma shared_definitions_loop_rep st evs s n fuel :
  store_rep st evs → length (stack (take n evs) s) ≤ fuel →
  ∃ rs, definitions_loop fuel st (head_id (take n evs) s) = Some rs ∧
    omap rec_fact rs = (stack (take n evs) s).*2.
Proof.
  intros Hst. unfold head_id, top. revert n.
  induction fuel as [|fuel IH]; intros n Hlen.
  { destruct (stack (take n evs) s); simpl in *; [eauto|lia]. }
  destruct (stack (take n evs) s) as [|[i f] l] eqn:Hs; simpl; [eauto|].
  destruct (stack_chain _ _ _ _ _ _ Hs) as (r & Hr & Hf & Hp & Hl).
  rewrite (record_rep _ _ _ Hst), Hr. simpl. rewrite Hp.
  destruct (IH i) as (rs & Hrs & Hfs). { subst l. simpl in Hlen. lia. }
  unfold head_id, top. rewrite Hrs. simpl.
  eexists. split; [done|]. simpl. rewrite Hf. subst l. by f_equal.
Qed.

Lemma shared_definitions_rep st evs s :
  store_rep st evs →
  ∃ rs, definitions st s = Some rs ∧ omap rec_fact rs = spec_definitions evs s.
Proof.
  intros Hst. unfold definitions, spec_definitions.
  rewrite (head_rep _ _ s Hst), (log_len_rep _ _ Hst). simpl.
  pose proof (shared_definitions_loop_rep st evs s (length evs) (length evs) Hst) as Hr.
  rewrite firstn_all in Hr. apply Hr, stack_length.
Qed.

Lemma shared_history_rep st evs s : store_rep st evs → history st s = Some (spec_history evs s).
Proof.
  intros Hst. unfold history. destruct (sr_history _ _ Hst) as (g & Hg & Hn).
  rewrite (sharded_get_rep _ history_shards_ok _ _ s Hg). simpl. rewrite Hn.
  apply mapM_records; [intros i; by apply record_rep|apply elem_of_slot_ids].
Qed.

Lemma head_values_rep st evs :
  store_rep st evs → ∃ g : gmap SlotId nat,
    sharded_values (ss_head st) ≡ₚ (map_to_list g).*2 ∧
    (∀ s, g !! s = head_id evs s) ∧ map_len (ss_head st) = usize_of (size g).
Proof.
  intros Hst. destruct (sr_head _ _ Hst) as (g & Hg & Hh). exists g. split_and!; [|done|apply Hg].
  unfold sharded_values. by rewrite (sharded_iter_rep _ _ _ Hg).
Qed.

Lemma head_len_rep st evs :
  store_rep st evs → map_len (ss_head st) = usize_of (spec_active_count evs).
Proof.
  intros (g & _ & Hh & ->)%head_values_rep. by rewrite (head_table_size g evs Hh).
Qed.

Lemma shared_active_record_ids_rep st evs : store_rep st evs → active_record_ids st = active_ids evs.
Proof.
  intros (g & Hp & Hh & _)%head_values_rep. apply sort_ids_active.
  intros i. rewrite Hp. by apply head_values_active.
Qed.

Lemma head_values_ids st evs : store_rep st evs → sharded_values (ss_head st) ≡ₚ active_ids evs.
Proof.
  intros (g & Hp & Hh & _)%head_values_rep. rewrite Hp. by apply head_values_Permutation.
Qed.

(** The signature is the fold over the active records. *)
Lemma signature_rep sg evs : sig_rep sg (active evs) → sg = sig_of (active_ids evs).
Proof.
  intros Hsg. apply (sig_rep_unique _ _ _ Hsg). exists (active_ids evs).
  split_and!; [apply NoDup_active_ids|apply elem_of_active_ids|done].
Qed.

Lemma foldl_sig_add sg l : foldl sig_add sg l = foldr (λ i sg, sig_add sg i) sg l.
Proof.
  revert sg. induction l as [|i l IH]; intros sg; simpl; [done|]. rewrite IH. clear IH.
  induction l as [|j l IH]; simpl; [done|]. rewrite IH. apply sig_add_comm.
Qed.

Lemma store_validate_fast_rep st evs : store_rep st evs → store_validate_fast st = Ok tt.
Proof.
  intros Hst. unfold store_validate_fast.
  rewrite (head_len_rep _ _ Hst), (log_len_rep _ _ Hst).
  rewrite (signature_rep _ _ (sr_signature _ _ Hst)), sig_of_count, length_active_ids.
  rewrite decide_False by naive_solver. rewrite decide_False; [done|].
  pose proof (spec_active_count_le evs). unfold usize_of, u64_wrap.
  pose proof (N.Div0.mod_le (N.of_nat (spec_active_count evs)) u64_modulus). lia.
Qed.

Lemma store_validate_full_rep st evs : store_rep st evs → store_validate_full st = Ok tt.
Proof.
  intros Hst. unfold store_validate_full.
  assert (∀ ids, (∀ i, i ∈ ids → i ∈ active_ids evs) → check_heads st ids = Ok tt) as Hck.
  { induction ids as [|i ids IH]; intros Hids; simpl; [done|].
    destruct (proj1 (elem_of_active_ids evs i)) as (f & s & Ht); [apply Hids; by left|].
    rewrite (record_rep _ _ _ Hst).
    destruct (record_at_active _ _ _ _ Ht) as (r & -> & Hk & _ & Hf). simpl.
    rewrite decide_True, Hf by done. apply IH. intros. apply Hids. by right. }
  rewrite Hck by (intros i; by rewrite (head_values_ids _ _ Hst)). simpl.
  rewrite foldl_sig_add. change (foldr _ _ ?l) with (sig_of l).
  rewrite decide_True; [done|]. rewrite (head_values_ids _ _ Hst).
  symmetry. apply signature_rep, Hst.
Qed.
End refinement.
