(* ===== verification/SharedDb.v ===== *)
(** The structurally shared kernel: the current view over sharded indexes
    (forthdb-core/src/shared_view_v2.rs) and the [ForthDb] on top of it
    (shared_db_v2.rs), as an instance of the kernel interface. *)
From Stdlib Require Import NArith Lia.
From stdpp Require Import sorting base gmap list strings fin_maps option list_monad.
From S2P Require Import Prelude Ord Terms Bytes Query QueryFacts Spec Index Kernel.
From S2P Require Import SharedTypes SharedStore.

Section view.
Context {M : Set → Set → Set} {S : Set} `{PersistentMap M, PersistentSet S}.

Abbreviation IndexMap K := (ShardedMap M K S) (only parsing).

Record SharedCurrentView := SharedCurrentView_mk {
  by_subject : IndexMap Atom;
  by_predicate : IndexMap Predicate;
  by_object : IndexMap Atom;
  by_subject_predicate : IndexMap (Atom * Predicate)%type;
  by_subject_object : IndexMap (Atom * Atom)%type;
  by_predicate_object : IndexMap (Predicate * Atom)%type;
  by_exact : IndexMap Fact;
  sv_signature : ActiveSignature;
}.

Definition view_default : SharedCurrentView :=
  SharedCurrentView_mk (sharded_default INDEX_SHARDS) (sharded_default INDEX_SHARDS)
    (sharded_default INDEX_SHARDS) (sharded_default INDEX_SHARDS) (sharded_default INDEX_SHARDS)
    (sharded_default INDEX_SHARDS) (sharded_default INDEX_SHARDS) ActiveSignature_default.

Definition insert_index {K : Set} `{EqDecision K, HashKey K} (m : IndexMap K) (key : K) (i : nat) :
    option (IndexMap K) :=
  bucket ← sharded_get_mut INDEX_SHARDS m key;
  match bucket with
  | Some (bucket, write) => Some (write (ps_insert bucket i))
  | None => fst <$> sharded_insert INDEX_SHARDS m key (ps_insert ps_default i)
  end.

Definition remove_index {K : Set} `{EqDecision K, HashKey K} (m : IndexMap K) (key : K) (i : nat) :
    option (IndexMap K) :=
  bucket ← sharded_get_mut INDEX_SHARDS m key;
  match bucket with
  | Some (bucket, write) =>
      let bucket := ps_remove bucket i in
      let m := write bucket in
      if ps_is_empty bucket then fst <$> sharded_remove INDEX_SHARDS m key else Some m
  | None => Some m
  end.

Definition replace_index {K : Set} `{EqDecision K, HashKey K} (m : IndexMap K) (key : K)
    (old new : nat) : option (IndexMap K) :=
  bucket ← sharded_get_mut INDEX_SHARDS m key;
  match bucket with
  | Some (bucket, write) => Some (write (ps_insert (ps_remove bucket old) new))
  | None => Some m
  end.

(** [if old_key == new_key { replace_index } else { remove_index; insert_index }],
    the seven-fold body of [replace]. *)
Definition update_index {K : Set} `{EqDecision K, HashKey K} (m : IndexMap K)
    (old_key new_key : K) (old new : nat) : option (IndexMap K) :=
  if decide (old_key = new_key) then replace_index m old_key old new
  else m ← remove_index m old_key old; insert_index m new_key new.

Definition record_fact (st : SharedDefinitionStore M) (i : nat) : option Fact :=
  record st i ≫= rec_fact.

Definition view_add (v : SharedCurrentView) (i : nat) (st : SharedDefinitionStore M) :
    option SharedCurrentView :=
  fact ← record_fact st i;
  let s := fact_subject fact in
  let p := fact_predicate fact in
  let o := fact_object fact in
  v1 ← insert_index (by_subject v) s i;
  v2 ← insert_index (by_predicate v) p i;
  v3 ← insert_index (by_object v) o i;
  v4 ← insert_index (by_subject_predicate v) (s, p) i;
  v5 ← insert_index (by_subject_object v) (s, o) i;
  v6 ← insert_index (by_predicate_object v) (p, o) i;
  v7 ← insert_index (by_exact v) fact i;
  Some (SharedCurrentView_mk v1 v2 v3 v4 v5 v6 v7 (sig_add (sv_signature v) i)).

Definition view_remove (v : SharedCurrentView) (i : nat) (st : SharedDefinitionStore M) :
    option SharedCurrentView :=
  fact ← record_fact st i;
  let s := fact_subject fact in
  let p := fact_predicate fact in
  let o := fact_object fact in
  v1 ← remove_index (by_subject v) s i;
  v2 ← remove_index (by_predicate v) p i;
  v3 ← remove_index (by_object v) o i;
  v4 ← remove_index (by_subject_predicate v) (s, p) i;
  v5 ← remove_index (by_subject_object v) (s, o) i;
  v6 ← remove_index (by_predicate_object v) (p, o) i;
  v7 ← remove_index (by_exact v) fact i;
  Some (SharedCurrentView_mk v1 v2 v3 v4 v5 v6 v7 (sig_remove (sv_signature v) i)).

Definition view_replace (v : SharedCurrentView) (old new : nat) (st : SharedDefinitionStore M) :
    option SharedCurrentView :=
  old_fact ← record_fact st old;
  new_fact ← record_fact st new;
  let '(s, p, o) := (fact_subject old_fact, fact_predicate old_fact, fact_object old_fact) in
  let '(s', p', o') := (fact_subject new_fact, fact_predicate new_fact, fact_object new_fact) in
  v1 ← update_index (by_subject v) s s' old new;
  v2 ← update_index (by_predicate v) p p' old new;
  v3 ← update_index (by_object v) o o' old new;
  v4 ← update_index (by_subject_predicate v) (s, p) (s', p') old new;
  v5 ← update_index (by_subject_object v) (s, o) (s', o') old new;
  v6 ← update_index (by_predicate_object v) (p, o) (p', o') old new;
  v7 ← update_index (by_exact v) old_fact new_fact old new;
  Some (SharedCurrentView_mk v1 v2 v3 v4 v5 v6 v7
    (sig_add (sig_remove (sv_signature v) old) new)).

Definition collect (values : option (option S)) : option (list nat) :=
  bucket ← values; Some (sort_ids (match bucket with Some b => ps_iter b | None => [] end)).

Definition candidates (v : SharedCurrentView) (st : SharedDefinitionStore M)
    (p : Pattern) (b : Binding) : option (list nat) :=
  let subject := resolved_atom (pat_subject p) b in
  let predicate := resolved_predicate (pat_predicate p) b in
  let object := resolved_atom (pat_object p) b in
  match subject, predicate, object with
  | Some s, Some p, Some o => collect (sharded_get INDEX_SHARDS (by_exact v) (Fact_new s p o))
  | Some s, Some p, None => collect (sharded_get INDEX_SHARDS (by_subject_predicate v) (s, p))
  | Some s, None, Some o => collect (sharded_get INDEX_SHARDS (by_subject_object v) (s, o))
  | None, Some p, Some o => collect (sharded_get INDEX_SHARDS (by_predicate_object v) (p, o))
  | Some s, None, None => collect (sharded_get INDEX_SHARDS (by_subject v) s)
  | None, Some p, None => collect (sharded_get INDEX_SHARDS (by_predicate v) p)
  | None, None, Some o => collect (sharded_get INDEX_SHARDS (by_object v) o)
  | None, None, None => Some (active_record_ids st)
  end.

Definition view_validate_fast (v : SharedCurrentView) (st : SharedDefinitionStore M) :
    outcome string unit :=
  if decide (sv_signature v ≠ ss_signature st)
  then Err "current indexes do not match active slot signature"%string
  else Ok tt.

(** [by_subject_predicate.values().flat_map(..).collect::<BTreeSet<_>>()]. *)
Definition indexed_ids (v : SharedCurrentView) : list nat :=
  sort_ids (elements (list_to_set (C := gset nat)
    (bucket ← sharded_values (by_subject_predicate v); ps_iter (S := S) bucket))).

Definition view_validate_full (v : SharedCurrentView) (st : SharedDefinitionStore M) :
    outcome string unit :=
  if decide (active_record_ids st ≠ indexed_ids v)
  then Err "current indexes do not match active slot heads"%string
  else if decide (foldl sig_add ActiveSignature_default (indexed_ids v) ≠ sv_signature v)
  then Err "current-index signature does not match full audit"%string
  else Ok tt.

Definition view_populated_shards (v : SharedCurrentView) : nat :=
  populated_shards (by_subject v) + populated_shards (by_predicate v) +
  populated_shards (by_object v) + populated_shards (by_subject_predicate v) +
  populated_shards (by_subject_object v) + populated_shards (by_predicate_object v) +
  populated_shards (by_exact v).

(** ** [ForthDb] *)

Record ForthDb := ForthDb_mk {
  db_store : SharedDefinitionStore M;
  db_view : SharedCurrentView;
  next_entity : N;
}.

Definition new : ForthDb := ForthDb_mk store_default view_default 1.

Definition structural_metrics (d : ForthDb) : StructuralMetrics :=
  StructuralMetrics_mk (chunk_count (ss_log (db_store d)))
    (populated_shards (ss_head (db_store d))) (populated_shards (ss_history (db_store d)))
    (view_populated_shards (db_view d)).

Definition entity (d : ForthDb) : EntityId * ForthDb :=
  (EntityId_new (next_entity d),
   ForthDb_mk (db_store d) (db_view d) (u64_add (next_entity d) 1)).

Definition define (d : ForthDb) (s : SlotId) (f : Fact) : option (nat * ForthDb) :=
  old_head ← sharded_get HEAD_SHARDS (ss_head (db_store d)) s;
  '(store, record_id) ← append_define (db_store d) s f;
  view ← match old_head with
         | Some old_head => view_replace (db_view d) old_head record_id store
         | None => view_add (db_view d) record_id store
         end;
  Some (record_id, ForthDb_mk store view (next_entity d)).

Definition forget (d : ForthDb) (s : SlotId) : option (nat * ForthDb) :=
  old_head ← sharded_get HEAD_SHARDS (ss_head (db_store d)) s;
  '(store, (record_id, revealed)) ← append_forget (db_store d) s;
  view ← match old_head, revealed with
         | Some old_head, Some revealed => view_replace (db_view d) old_head revealed store
         | Some old_head, None => view_remove (db_view d) old_head store
         | None, Some revealed => view_add (db_view d) revealed store
         | None, None => Some (db_view d)
         end;
  Some (record_id, ForthDb_mk store view (next_entity d)).

Definition db_resolve (d : ForthDb) (s : SlotId) : option (option Fact) :=
  r ← resolve_record (db_store d) s; Some (r ≫= rec_fact).

Definition db_definitions (d : ForthDb) (s : SlotId) : option (list Fact) :=
  (λ rs : list LogRecord, omap rec_fact rs) <$> definitions (db_store d) s.

Definition db_history (d : ForthDb) (s : SlotId) : option (list LogRecord) :=
  history (db_store d) s.

Definition db_active_slot_count (d : ForthDb) : N := active_slot_count (db_store d).
Definition db_record_count (d : ForthDb) : nat := record_count (db_store d).

Definition db_entry (d : ForthDb) (i : nat) : option (SlotId * Fact) :=
  r ← record (db_store d) i; f ← rec_fact r; Some (rec_slot r, f).

Definition db_query (d : ForthDb) (ps : list Pattern) (o : QueryOptions) : option QueryResult :=
  query (candidates (db_view d) (db_store d)) (db_entry d) ps o.

Definition db_validate (d : ForthDb) : outcome string unit :=
  let* _ := store_validate_fast (db_store d) in
  view_validate_fast (db_view d) (db_store d).

Definition db_validate_full (d : ForthDb) : outcome string unit :=
  let* _ := store_validate_full (db_store d) in
  view_validate_full (db_view d) (db_store d).
End view.
Arguments SharedCurrentView : clear implicits.
Arguments ForthDb : clear implicits.

#[export] Instance shared_kernel {M : Set → Set → Set} {S : Set} `{PersistentMap M, PersistentSet S} :
    Kernel (ForthDb M S) := {
  kernel_new := new;
  kernel_entity := entity;
  kernel_define := define;
  kernel_forget := forget;
  kernel_resolve := db_resolve;
  kernel_definitions := db_definitions;
  kernel_history := db_history;
  kernel_active_slot_count := db_active_slot_count;
  kernel_record_count := db_record_count;
  kernel_query := db_query;
  kernel_validate := db_validate;
}.

(** ** The view *)

Section refinement.
Context {M : Set → Set → Set} {S : Set} `{PersistentMapLaws M, PersistentSetLaws S}.

Lemma index_shards_ok : shards_ok INDEX_SHARDS = true.
Proof. reflexivity. Qed.

Definition bucket_set (s : S) : Bucket := list_to_set (ps_iter s).

(** An index refines the finite map of its buckets, and that map indexes [A]. *)
Definition index_ok {K : Set} `{Countable K, HashKey K} (proj : Fact → K)
    (m : ShardedMap M K S) (A : Indexed) : Prop :=
  ∃ g : gmap K S, sharded_rep INDEX_SHARDS m g ∧ idx_ok proj (λ k, bucket_set <$> g !! k) A.

Section index.
Context {K : Set} `{Countable K, HashKey K} (proj : Fact → K).

#[export] Instance index_ok_proper m :
  Proper (indexed_iff ==> iff) (index_ok proj m).
Proof. intros A B HAB. unfold index_ok. f_equiv. intros g. by rewrite HAB. Qed.

Lemma bucket_set_insert s i : bucket_set (ps_insert s i) = {[i]} ∪ bucket_set s.
Proof.
  unfold bucket_set. apply set_eq. intros j.
  rewrite elem_of_union, !elem_of_list_to_set, elem_of_singleton. apply ps_elem_of_insert.
Qed.

Lemma bucket_set_remove s i : bucket_set (ps_remove s i) = bucket_set s ∖ {[i]}.
Proof.
  unfold bucket_set. apply set_eq. intros j.
  rewrite elem_of_difference, !elem_of_list_to_set, elem_of_singleton, ps_elem_of_remove. tauto.
Qed.

Lemma bucket_set_default : bucket_set ps_default = ∅.
Proof. unfold bucket_set. by rewrite ps_iter_default. Qed.

Lemma bucket_set_empty s : ps_is_empty s = true ↔ bucket_set s = ∅.
Proof.
  rewrite ps_is_empty_iter. unfold bucket_set. split; [by intros ->|].
  destruct (ps_iter s); [done|]. simpl. set_solver.
Qed.

Lemma shared_insert_index_ok m A i f :
  index_ok proj m A →
  ∃ m', insert_index m (proj f) i = Some m' ∧ index_ok proj m' (add_indexed A i f).
Proof.
  intros (g & Hg & Hok). unfold insert_index.
  pose proof (idx_insert proj _ _ i f Hok) as Hok'.
  pose proof (sharded_get_mut_rep _ index_shards_ok _ _ (proj f) Hg) as Hmut.
  destruct (g !! proj f) as [bucket|] eqn:Hb.
  - destruct Hmut as (write & -> & Hw). simpl. eexists. split; [done|].
    eexists. split; [apply Hw|]. eapply idx_ok_proper; [|done|apply Hok'].
    intros k. unfold lk_insert. rewrite lookup_insert.
    destruct (decide (proj f = k)), (decide (k = proj f)); try congruence.
    simpl. by rewrite bucket_set_insert, Hb.
  - rewrite Hmut. simpl.
    destruct (sharded_insert_rep _ index_shards_ok _ _ (proj f) (ps_insert ps_default i) Hg)
      as (m' & -> & Hm'). simpl. eexists. split; [done|].
    eexists. split; [apply Hm'|]. eapply idx_ok_proper; [|done|apply Hok'].
    intros k. unfold lk_insert. rewrite lookup_insert.
    destruct (decide (proj f = k)), (decide (k = proj f)); try congruence.
    simpl. by rewrite bucket_set_insert, bucket_set_default, Hb.
Qed.

Lemma shared_remove_index_ok m A i f :
  indexed_functional A → A i f → index_ok proj m A →
  ∃ m', remove_index m (proj f) i = Some m' ∧ index_ok proj m' (del_indexed A i).
Proof.
  intros Hfun Hi (g & Hg & Hok). unfold remove_index.
  pose proof (idx_remove proj _ _ i f Hfun Hi Hok) as Hok'.
  pose proof (sharded_get_mut_rep _ index_shards_ok _ _ (proj f) Hg) as Hmut.
  destruct (g !! proj f) as [bucket|] eqn:Hb.
  - destruct Hmut as (write & -> & Hw). simpl.
    destruct (ps_is_empty (ps_remove bucket i)) eqn:Hem.
    + destruct (sharded_remove_rep _ index_shards_ok _ _ (proj f) (Hw (ps_remove bucket i)))
        as (m' & -> & Hm'). simpl. eexists. split; [done|].
      eexists. split; [apply Hm'|]. eapply idx_ok_proper; [|done|apply Hok'].
      apply bucket_set_empty in Hem. rewrite bucket_set_remove in Hem.
      intros k. unfold lk_remove. rewrite lookup_delete, lookup_insert.
      destruct (decide (proj f = k)), (decide (k = proj f)); try congruence.
      rewrite Hb. simpl. by rewrite decide_True.
    + eexists. split; [done|]. eexists. split; [apply Hw|].
      eapply idx_ok_proper; [|done|apply Hok'].
      assert (bucket_set bucket ∖ {[i]} ≠ ∅) as Hne.
      { rewrite <- bucket_set_remove. intros E%bucket_set_empty. congruence. }
      intros k. unfold lk_remove. rewrite lookup_insert.
      destruct (decide (proj f = k)), (decide (k = proj f)); try congruence.
      rewrite Hb. simpl. by rewrite bucket_set_remove, decide_False.
  - exfalso. destruct Hok as [_ Hok]. specialize (Hok (proj f) i). rewrite Hb in Hok.
    simpl in Hok. assert (i ∈ (∅ : Bucket)) by (apply Hok; eauto). set_solver.
Qed.

Lemma update_index_ok m A i j f f' :
  indexed_functional A → A i f → i ≠ j → index_ok proj m A →
  ∃ m', update_index m (proj f) (proj f') i j = Some m' ∧
    index_ok proj m' (add_indexed (del_indexed A i) j f').
Proof.
  intros Hfun Hi Hij Hm. unfold update_index. case_decide as Heq.
  - destruct Hm as (g & Hg & Hok). unfold replace_index.
    pose proof (idx_replace proj _ _ i j f f' Hfun Hi (eq_sym Heq) Hij Hok) as Hok'.
    pose proof (sharded_get_mut_rep _ index_shards_ok _ _ (proj f) Hg) as Hmut.
    destruct (g !! proj f) as [bucket|] eqn:Hb.
    + destruct Hmut as (write & -> & Hw). simpl. eexists. split; [done|].
      eexists. split; [apply Hw|]. eapply idx_ok_proper; [|done|apply Hok'].
      intros k. unfold lk_replace. rewrite lookup_insert.
      destruct (decide (proj f = k)), (decide (k = proj f)); try congruence.
      rewrite Hb. simpl. by rewrite bucket_set_insert, bucket_set_remove.
    + exfalso. destruct Hok as [_ Hok]. specialize (Hok (proj f) i). rewrite Hb in Hok.
      simpl in Hok. assert (i ∈ (∅ : Bucket)) by (apply Hok; eauto). set_solver.
  - destruct (shared_remove_index_ok m A i f Hfun Hi Hm) as (m1 & -> & Hm1). simpl.
    by apply shared_insert_index_ok.
Qed.
End index.

Record view_rep (v : SharedCurrentView M S) (A : Indexed) : Prop := {
  vr_subject : index_ok fact_subject (by_subject v) A;
  vr_predicate : index_ok fact_predicate (by_predicate v) A;
  vr_object : index_ok fact_object (by_object v) A;
  vr_subject_predicate : index_ok proj_sp (by_subject_predicate v) A;
  vr_subject_object : index_ok proj_so (by_subject_object v) A;
  vr_predicate_object : index_ok proj_po (by_predicate_object v) A;
  vr_exact : index_ok id (by_exact v) A;
  vr_signature : sig_rep (sv_signature v) A;
}.

#[export] Instance view_rep_proper v : Proper (indexed_iff ==> iff) (view_rep v).
Proof.
  assert (∀ A B, indexed_iff A B → view_rep v A → view_rep v B) as Hhalf.
  { intros A B HAB [H1' H2' H3' H4' H5' H6' H7' H8'].
    split; by rewrite <- HAB. }
  intros A B HAB. split; apply Hhalf; [done|by symmetry].
Qed.

Lemma shared_view_rep_default : view_rep view_default (λ _ _, False).
Proof.
  assert (∀ (K : Set) `{Countable K, HashKey K} (proj : Fact → K),
    index_ok proj (sharded_default (M := M) INDEX_SHARDS) (λ _ _, False)) as Hd.
  { intros. exists ∅. split; [apply sharded_rep_default|]. split.
    - intros k X. by rewrite lookup_empty.
    - intros k i. rewrite lookup_empty. simpl. set_solver. }
  split; try apply Hd. apply sig_rep_default.
Qed.

Lemma shared_view_add_ok v A i st f :
  view_rep v A → (∀ g, ¬ A i g) → record_fact st i = Some f →
  ∃ v', view_add v i st = Some v' ∧ view_rep v' (add_indexed A i f).
Proof.
  intros [H1' H2' H3' H4' H5' H6' H7' H8'] Hi Hf. unfold view_add. rewrite Hf. simpl.
  destruct (shared_insert_index_ok fact_subject _ _ i f H1') as (m1 & -> & ?). simpl.
  destruct (shared_insert_index_ok fact_predicate _ _ i f H2') as (m2 & -> & ?). simpl.
  destruct (shared_insert_index_ok fact_object _ _ i f H3') as (m3 & -> & ?). simpl.
  destruct (shared_insert_index_ok proj_sp _ _ i f H4') as (m4 & Hm4 & ?).
  unfold proj_sp in Hm4 at 1. rewrite Hm4. simpl.
  destruct (shared_insert_index_ok proj_so _ _ i f H5') as (m5 & Hm5 & ?).
  unfold proj_so in Hm5 at 1. rewrite Hm5. simpl.
  destruct (shared_insert_index_ok proj_po _ _ i f H6') as (m6 & Hm6 & ?).
  unfold proj_po in Hm6 at 1. rewrite Hm6. simpl.
  destruct (shared_insert_index_ok id _ _ i f H7') as (m7 & Hm7 & ?).
  unfold id in Hm7 at 1. rewrite Hm7. simpl.
  eexists. split; [done|]. split; try done. by apply sig_rep_add.
Qed.

Lemma shared_view_remove_ok v A i st f :
  view_rep v A → indexed_functional A → A i f → record_fact st i = Some f →
  ∃ v', view_remove v i st = Some v' ∧ view_rep v' (del_indexed A i).
Proof.
  intros [H1' H2' H3' H4' H5' H6' H7' H8'] Hfun Hi Hf. unfold view_remove. rewrite Hf. simpl.
  destruct (shared_remove_index_ok fact_subject _ _ i f Hfun Hi H1') as (m1 & -> & ?). simpl.
  destruct (shared_remove_index_ok fact_predicate _ _ i f Hfun Hi H2') as (m2 & -> & ?). simpl.
  destruct (shared_remove_index_ok fact_object _ _ i f Hfun Hi H3') as (m3 & -> & ?). simpl.
  destruct (shared_remove_index_ok proj_sp _ _ i f Hfun Hi H4') as (m4 & Hm4 & ?).
  unfold proj_sp in Hm4 at 1. rewrite Hm4. simpl.
  destruct (shared_remove_index_ok proj_so _ _ i f Hfun Hi H5') as (m5 & Hm5 & ?).
  unfold proj_so in Hm5 at 1. rewrite Hm5. simpl.
  destruct (shared_remove_index_ok proj_po _ _ i f Hfun Hi H6') as (m6 & Hm6 & ?).
  unfold proj_po in Hm6 at 1. rewrite Hm6. simpl.
  destruct (shared_remove_index_ok id _ _ i f Hfun Hi H7') as (m7 & Hm7 & ?).
  unfold id in Hm7 at 1. rewrite Hm7. simpl.
  eexists. split; [done|]. split; try done. by eapply sig_rep_remove.
Qed.

Lemma view_replace_ok v A i j st f f' :
  view_rep v A → indexed_functional A → A i f → i ≠ j →
  (∀ g, ¬ del_indexed A i j g) →
  record_fact st i = Some f → record_fact st j = Some f' →
  ∃ v', view_replace v i j st = Some v' ∧ view_rep v' (add_indexed (del_indexed A i) j f').
Proof.
  intros [H1' H2' H3' H4' H5' H6' H7' H8'] Hfun Hi Hij Hj Hf Hf'.
  unfold view_replace. rewrite Hf, Hf'. cbn [mbind option_bind].
  destruct (update_index_ok fact_subject _ _ i j f f' Hfun Hi Hij H1') as (m1 & -> & ?). simpl.
  destruct (update_index_ok fact_predicate _ _ i j f f' Hfun Hi Hij H2') as (m2 & -> & ?). simpl.
  destruct (update_index_ok fact_object _ _ i j f f' Hfun Hi Hij H3') as (m3 & -> & ?). simpl.
  destruct (update_index_ok proj_sp _ _ i j f f' Hfun Hi Hij H4') as (m4 & Hm4 & ?).
  unfold proj_sp in Hm4 at 1 2. rewrite Hm4. simpl.
  destruct (update_index_ok proj_so _ _ i j f f' Hfun Hi Hij H5') as (m5 & Hm5 & ?).
  unfold proj_so in Hm5 at 1 2. rewrite Hm5. simpl.
  destruct (update_index_ok proj_po _ _ i j f f' Hfun Hi Hij H6') as (m6 & Hm6 & ?).
  unfold proj_po in Hm6 at 1 2. rewrite Hm6. simpl.
  destruct (update_index_ok id _ _ i j f f' Hfun Hi Hij H7') as (m7 & Hm7 & ?).
  unfold id in Hm7 at 1 2. rewrite Hm7. simpl.
  eexists. split; [done|]. split; try done. simpl.
  apply sig_rep_add; [done|]. by eapply sig_rep_remove.
Qed.

Lemma shared_record_fact_event (st : SharedDefinitionStore M) evs s i f :
  store_rep st evs → evs !! i = Some (EvDefine s f) → record_fact st i = Some f.
Proof.
  intros Hst He. unfold record_fact. rewrite (record_rep _ _ _ Hst). unfold record_at.
  by rewrite He.
Qed.

Lemma index_get {K : Set} `{Countable K, HashKey K} (proj : Fact → K)
    (m : ShardedMap M K S) A k :
  index_ok proj m A →
  ∃ X : option Bucket, collect (sharded_get INDEX_SHARDS m k) = Some (sort_ids (elements (default ∅ X))) ∧
    ∀ i, i ∈ default ∅ X ↔ ∃ f, A i f ∧ proj f = k.
Proof.
  intros (g & Hg & _ & Hok). rewrite (sharded_get_rep _ index_shards_ok _ _ k Hg).
  exists (bucket_set <$> g !! k). split; [|apply Hok]. unfold collect. simpl. f_equal.
  destruct (g !! k) as [b|]; simpl.
  - apply sort_ids_proper. unfold bucket_set. symmetry. apply elements_list_to_set, ps_NoDup_iter.
  - by rewrite elements_empty.
Qed.

Lemma candidates_rep (d : ForthDb M S) evs p b :
  store_rep (db_store d) evs → view_rep (db_view d) (active evs) →
  candidates (db_view d) (db_store d) p b =
  Some (filter (λ i, entry_test evs (cand_matchb p b) i = true) (active_ids evs)).
Proof.
  intros Hst [H1' H2' H3' H4' H5' H6' H7' _].
  unfold candidates.
  assert (∀ X : option Bucket,
    (∀ i, i ∈ default ∅ X ↔ ∃ f, active evs i f ∧ cand_matchb p b f = true) →
    Some (sort_ids (elements (default ∅ X))) =
    Some (filter (λ i, entry_test evs (cand_matchb p b) i = true) (active_ids evs))) as Hgen.
  { intros X HX. f_equal. apply ids_filter_unique; [apply NoDup_elements|].
    intros i. by rewrite elem_of_elements. }
  revert Hgen. setoid_rewrite cand_matchb_spec. unfold cand_match.
  destruct (resolved_atom (pat_subject p) b) as [s|] eqn:E1,
    (resolved_predicate (pat_predicate p) b) as [q|] eqn:E2,
    (resolved_atom (pat_object p) b) as [o|] eqn:E3; simpl; intros Hgen;
    [destruct (index_get id _ _ (Fact_new s q o) H7') as (X & -> & HX)
    |destruct (index_get proj_sp _ _ (s, q) H4') as (X & -> & HX)
    |destruct (index_get proj_so _ _ (s, o) H5') as (X & -> & HX)
    |destruct (index_get fact_subject _ _ s H1') as (X & -> & HX)
    |destruct (index_get proj_po _ _ (q, o) H6') as (X & -> & HX)
    |destruct (index_get fact_predicate _ _ q H2') as (X & -> & HX)
    |destruct (index_get fact_object _ _ o H3') as (X & -> & HX)
    |];
    [apply Hgen; intros i; rewrite HX; unfold proj_sp, proj_so, proj_po; f_equiv;
       intros [fs fp fo]; simpl; naive_solver..|].
  rewrite (shared_active_record_ids_rep _ _ Hst). f_equal.
  rewrite <- ids_filter_unique with (ids := active_ids evs).
  - symmetry. by apply sort_ids_unique, Sorted_active_ids.
  - apply NoDup_active_ids.
  - intros i. rewrite elem_of_active_ids. f_equiv. intros f.
    rewrite cand_matchb_spec. unfold cand_match. rewrite E1, E2, E3. naive_solver.
Qed.

(** ** The kernel *)

Record shared_rep (d : ForthDb M S) (evs : list Event) (n : N) : Prop := {
  sh_store : store_rep (db_store d) evs;
  sh_view : view_rep (db_view d) (active evs);
  sh_next : next_entity d = n;
}.

Lemma shared_query_source d evs n :
  shared_rep d evs n →
  QuerySource (candidates (db_view d) (db_store d)) (db_entry d) (active_entries evs).
Proof.
  intros [Hst Hv _]. apply query_source_ids.
  - intros p b. by apply candidates_rep.
  - intros i (f & Ha)%elem_of_active_ids. destruct (active_event_entry _ _ _ Ha) as (s & -> & Ht).
    unfold db_entry. rewrite (record_rep _ _ _ Hst).
    destruct (record_at_active _ _ _ _ Ht) as (r & -> & _ & Hs & Hf). simpl. by rewrite Hf, Hs.
Qed.

Lemma not_active_new evs g : ¬ active evs (length evs) g.
Proof. intros [? _]%active_lookup. lia. Qed.

Lemma shared_define_rep d evs n s f :
  shared_rep d evs n →
  ∃ d', define d s f = Some (length evs, d') ∧ shared_rep d' (evs ++ [EvDefine s f]) n.
Proof.
  intros [Hst Hv Hn]. unfold define. rewrite (head_rep _ _ s Hst), option_bind_Some.
  destruct (shared_append_define_rep _ _ s f Hst) as (st' & Happ & Hst'). rewrite Happ. simpl.
  pose proof (shared_record_fact_event _ _ s (length evs) f Hst' (lookup_snoc_length _ _)) as Hf.
  destruct (head_id evs s) as [i|] eqn:Hh.
  - apply head_id_Some in Hh as (g & Ht). pose proof (top_Some _ _ _ _ Ht) as [Hi He].
    destruct (view_replace_ok _ _ i (length evs) st' g f Hv) as (v' & -> & Hv').
    + apply active_functional'.
    + by exists s.
    + lia.
    + by intros h [?%not_active_new _].
    + apply (shared_record_fact_event _ _ s _ _ Hst'). by apply lookup_app_l_Some.
    + done.
    + simpl. eexists. split; [done|]. split; [done| |done]. simpl.
      by rewrite (active_define_over _ _ _ _ _ Ht).
  - destruct (shared_view_add_ok _ _ _ _ _ Hv (not_active_new evs) Hf) as (v' & -> & Hv'). simpl.
    eexists. split; [done|]. split; [done| |done]. simpl. by rewrite (active_define_new _ _ _ Hh).
Qed.

Lemma shared_forget_rep d evs n s :
  shared_rep d evs n →
  ∃ d', forget d s = Some (length evs, d') ∧ shared_rep d' (evs ++ [EvForget s]) n.
Proof.
  intros [Hst Hv Hn]. unfold forget. rewrite (head_rep _ _ s Hst), option_bind_Some.
  destruct (shared_append_forget_rep _ _ s Hst) as (st' & Happ & Hst'). rewrite Happ. simpl.
  rewrite head_forget. change (head_id evs s) with (fst <$> head (stack evs s)).
  destruct (stack evs s) as [|[i f] l] eqn:Hs; simpl.
  - eexists. split; [done|]. split; [done| |done]. simpl.
    rewrite (active_forget_none evs s); [done|]. unfold head_id, top. by rewrite Hs.
  - assert (top evs s = Some (i, f)) as Ht by (unfold top; by rewrite Hs).
    pose proof (top_Some _ _ _ _ Ht) as [Hi He].
    assert (record_fact st' i = Some f) as Hf.
    { apply (shared_record_fact_event _ _ s _ _ Hst'). by apply lookup_app_l_Some. }
    destruct l as [|[j g] l]; simpl.
    + destruct (shared_view_remove_ok _ _ i st' f Hv) as (v' & -> & Hv');
        [apply active_functional'|by exists s|done|].
      simpl. eexists. split; [done|]. split; [done| |done]. simpl.
      by rewrite (active_forget_last _ _ _ _ Hs).
    + pose proof Hs as (_ & _ & Hl)%stack_cons. symmetry in Hl.
      apply stack_cons in Hl as (Hj & Hl & _). rewrite length_take in Hj.
      rewrite lookup_take_lt in Hl by lia.
      destruct (view_replace_ok _ _ i j st' f g Hv) as (v' & -> & Hv').
      * apply active_functional'.
      * by exists s.
      * lia.
      * intros h Hd. apply (active_del_slot evs s i f Ht) in Hd as (s' & Hne & Hs').
        apply Hne. apply top_Some in Hs' as [_ Hs']. congruence.
      * done.
      * apply (shared_record_fact_event _ _ s _ _ Hst'). by apply lookup_app_l_Some.
      * simpl. eexists. split; [done|]. split; [done| |done]. simpl.
        by rewrite (active_forget_reveal _ _ _ _ _ _ _ Hs).
Qed.

Lemma shared_validate_rep d evs n : shared_rep d evs n → db_validate d = Ok tt.
Proof.
  intros [Hst Hv _]. unfold db_validate. rewrite (store_validate_fast_rep _ _ Hst). simpl.
  unfold view_validate_fast. rewrite decide_False; [done|]. intros Hne. apply Hne.
  eapply sig_rep_unique; [apply Hv|apply Hst].
Qed.

Lemma indexed_ids_rep v evs : view_rep v (active evs) → indexed_ids v = active_ids evs.
Proof.
  intros Hv. apply sort_ids_active. intros i.
  destruct (vr_subject_predicate _ _ Hv) as (g & Hg & Hok).
  rewrite elem_of_active_ids, list_elem_of_bind. unfold sharded_values.
  setoid_rewrite (sharded_iter_rep _ _ _ Hg). destruct Hok as [_ Hok]. split.
  - intros (bucket & Hi & ([k b'] & -> & Hin)%list_elem_of_fmap).
    apply elem_of_map_to_list in Hin. specialize (Hok k i). rewrite Hin in Hok.
    destruct (proj1 Hok) as (f & Hf & _); [|eauto]. by apply elem_of_list_to_set.
  - intros (f & Hf). specialize (Hok (proj_sp f) i).
    destruct (g !! proj_sp f) as [b|] eqn:Hb; simpl in Hok.
    + exists b. split; [apply (elem_of_list_to_set (C := Bucket)), Hok; eauto|].
      apply list_elem_of_fmap. exists (proj_sp f, b). split; [done|]. by apply elem_of_map_to_list.
    + assert (i ∈ (∅ : Bucket)) by (apply Hok; eauto). set_solver.
Qed.

Lemma validate_full_rep d evs n : shared_rep d evs n → db_validate_full d = Ok tt.
Proof.
  intros [Hst Hv _]. unfold db_validate_full. rewrite (store_validate_full_rep _ _ Hst). simpl.
  unfold view_validate_full. rewrite (indexed_ids_rep _ _ Hv).
  rewrite decide_False by (rewrite (shared_active_record_ids_rep _ _ Hst); naive_solver).
  rewrite foldl_sig_add. change (foldr _ _ ?l) with (sig_of l).
  rewrite decide_False; [done|]. intros Hne. apply Hne. symmetry. apply signature_rep, Hv.
Qed.

#[export] Program Instance shared_kernel_laws : KernelLaws (ForthDb M S) := {
  k_rep := shared_rep;
}.
Next Obligation.
  split; [apply shared_store_rep_default| |done]. simpl.
  assert (indexed_iff (active []) (λ _ _, False)) as -> by (intros i f; split; [by intros []|done]).
  apply shared_view_rep_default.
Qed.
Next Obligation. intros d evs n [Hst Hv <-]. done. Qed.
Next Obligation. apply shared_define_rep. Qed.
Next Obligation. apply shared_forget_rep. Qed.
Next Obligation.
  intros d evs n s [Hst _ _]. simpl. unfold db_resolve.
  destruct (shared_resolve_record_rep _ _ s Hst) as (r & -> & <-). done.
Qed.
Next Obligation.
  intros d evs n s [Hst _ _]. simpl. unfold db_definitions.
  destruct (shared_definitions_rep _ _ s Hst) as (r & -> & <-). done.
Qed.
Next Obligation. intros d evs n s [Hst _ _]. by apply shared_history_rep. Qed.
Next Obligation.
  intros d evs n [Hst _ _]. by apply head_len_rep.
Qed.
Next Obligation. intros d evs n [Hst _ _]. by apply log_len_rep. Qed.
Next Obligation.
  intros d evs n ps o Hd. simpl. unfold db_query.
  pose proof (shared_query_source _ _ _ Hd). by apply query_spec.
Qed.
Next Obligation. apply shared_validate_rep. Qed.
End refinement.
