(* ===== verification/KernelProps.v ===== *)
(** The properties of the two kernels: they never panic and report exactly the
    event history, they agree with each other, their queries are sound and
    complete, and forgetting undoes defining. *)
From Stdlib Require Import NArith Lia.
From stdpp Require Import sorting base gmap list strings pretty fin_maps option list_monad.
From S2P Require Import Prelude Ord Terms Bytes Query QueryFacts Spec Index Kernel.
From S2P Require Import SharedTypes.
From S2P Require Import LegacyDb SharedStore SharedDb.

(** ** Concrete histories for the witnesses *)

Definition slot_a : SlotId := SlotId_new "a".
Definition slot_b : SlotId := SlotId_new "b".
Definition fact_1 : Fact :=
  Fact_new (AEntity (EntityId_new 1)) (Predicate_new "likes") (AEntity (EntityId_new 2)).
Definition fact_2 : Fact :=
  Fact_new (AEntity (EntityId_new 2)) (Predicate_new "likes") (ALiteral (Literal_new "tea")).
Definition sample_events : list Event :=
  [EvDefine slot_a fact_1; EvDefine slot_b fact_2; EvDefine slot_a fact_2; EvForget slot_a].
Definition var_x : QVariable := QVariable_mk "x".
Definition sample_pattern : Pattern :=
  Pattern_new (TVariable var_x) (PPredicate (Predicate_new "likes")) (TVariable (QVariable_mk "y")).
Definition sample_join : list Pattern :=
  [sample_pattern;
   Pattern_new (TVariable (QVariable_mk "y")) (PPredicate (Predicate_new "likes"))
     (TVariable (QVariable_mk "z"))].

(** ** The legacy kernel *)

Section legacy.
Abbreviation DB := LegacyDb.ForthDb.

(** C1: The legacy kernel, run on any history of defines and forgets, never
    panics, and its resolve, definitions, history, counts, queries and
    validation report exactly what the abstract history says (slots are
    stacks: define pushes, forget pops and reveals). *)
Theorem legacy_refines_history (evs : list Event) :
  ∃ d : DB, kernel_run LegacyDb.new evs = Some d ∧ kernel_observes d evs.
Proof.
  destruct (kernel_run_observes (D := DB) evs) as (d & Hrun & Hd).
  exists d. split; [done|]. by eapply k_rep_observes.
Qed.
End legacy.

(** ** The shared kernel *)

(** C2: The structurally shared kernel (chunked log, sharded persistent maps,
    linked histories, in-place index replacement), run on any history, never
    panics, reports exactly the abstract history, and passes both its
    constant-time signature validation and its full audit. *)
Theorem shared_refines_history {M : Set → Set → Set} {S : Set}
    `{PersistentMapLaws M, PersistentSetLaws S} (evs : list Event) :
  ∃ d : SharedDb.ForthDb M S, kernel_run SharedDb.new evs = Some d ∧ kernel_observes d evs ∧
    SharedDb.db_validate_full d = Ok tt.
Proof.
  destruct (kernel_run_observes (D := SharedDb.ForthDb M S) evs) as (d & Hrun & Hd).
  exists d. split_and!; [done| |by eapply SharedDb.validate_full_rep]. by eapply k_rep_observes.
Qed.

Lemma shared_refines_history_witness :
  ∃ d : SharedDb.ForthDb UniqueMap UniqueSet,
    kernel_run SharedDb.new sample_events = Some d ∧ kernel_observes d sample_events ∧
    SharedDb.db_validate_full d = Ok tt.
Proof. apply (shared_refines_history (M := UniqueMap) (S := UniqueSet) sample_events). Defined.

(** C3: After the same history the legacy and the shared kernel give the same
    answer to every query, the search metrics and the chosen join path
    included, and the same history of every slot. *)
Theorem kernels_agree {M : Set → Set → Set} {S : Set}
    `{PersistentMapLaws M, PersistentSetLaws S} (evs : list Event) :
  ∃ (l : LegacyDb.ForthDb) (d : SharedDb.ForthDb M S),
    kernel_run LegacyDb.new evs = Some l ∧ kernel_run SharedDb.new evs = Some d ∧
    (∀ ps o, LegacyDb.db_query l ps o = SharedDb.db_query d ps o) ∧
    (∀ s, LegacyDb.db_history l s = SharedDb.db_history d s) ∧
    (∀ s, LegacyDb.db_definitions l s = SharedDb.db_definitions d s).
Proof.
  destruct (kernel_run_observes (D := LegacyDb.ForthDb) evs) as (l & Hl & Hlr).
  destruct (kernel_run_observes (D := SharedDb.ForthDb M S) evs) as (d & Hd & Hdr).
  exists l, d. split_and!; [done|done|intros ps o|intros s|intros s].
  - rewrite (k_rep_query _ _ _ ps o Hlr : LegacyDb.db_query l ps o = _).
    by rewrite (k_rep_query _ _ _ ps o Hdr : SharedDb.db_query d ps o = _).
  - rewrite (k_rep_history _ _ _ s Hlr : LegacyDb.db_history l s = _).
    by rewrite (k_rep_history _ _ _ s Hdr : SharedDb.db_history d s = _).
  - rewrite (k_rep_definitions _ _ _ s Hlr : LegacyDb.db_definitions l s = _).
    by rewrite (k_rep_definitions _ _ _ s Hdr : SharedDb.db_definitions d s = _).
Qed.

Lemma kernels_agree_witness :
  ∃ (l : LegacyDb.ForthDb) (d : SharedDb.ForthDb UniqueMap UniqueSet),
    kernel_run LegacyDb.new sample_events = Some l ∧
    kernel_run SharedDb.new sample_events = Some d ∧
    (∀ ps o, LegacyDb.db_query l ps o = SharedDb.db_query d ps o) ∧
    (∀ s, LegacyDb.db_history l s = SharedDb.db_history d s) ∧
    (∀ s, LegacyDb.db_definitions l s = SharedDb.db_definitions d s).
Proof. apply (kernels_agree (M := UniqueMap) (S := UniqueSet) sample_events). Defined.

(** ** Queries *)

(** C5: A query without a limit returns exactly the solutions: a binding is in
    a row if and only if it binds the variables of the patterns and no others
    and makes every pattern a fact that some slot currently resolves to. *)
Theorem query_sound_complete (evs : list Event) (d : LegacyDb.ForthDb) ps o :
  kernel_run LegacyDb.new evs = Some d → opt_limit o = None →
  ∃ res, LegacyDb.db_query d ps o = Some res ∧
    ∀ b, b ∈ row_binding <$> result_rows res ↔
      dom b = patterns_vars ps ∧
      ∀ p, p ∈ ps → ∃ s f, LegacyDb.db_resolve d s = Some (Some f) ∧ pattern_holds b p f.
Proof.
  intros Hrun Hlim. destruct (kernel_run_observes (D := LegacyDb.ForthDb) evs) as (d' & Hrun' & Hd).
  change kernel_new with LegacyDb.new in Hrun'. rewrite Hrun in Hrun'. injection Hrun' as <-.
  eexists. split; [apply (k_rep_query _ _ _ ps o Hd)|]. intros b.
  rewrite spec_query_solutions by done. unfold solution.
  assert (∀ s f, (s, f) ∈ active_entries evs ↔ LegacyDb.db_resolve d s = Some (Some f)) as Hent.
  { intros s f. rewrite elem_of_active_entries.
    rewrite (k_rep_resolve _ _ _ s Hd : LegacyDb.db_resolve d s = _).
    split; [by intros ->|by intros [= ->]]. }
  split; intros [Hdom Hall]; (split; [done|]); intros p Hp.
  - destruct (Hall p Hp) as ([s f] & Hin & Hh). exists s, f. by rewrite <- Hent.
  - destruct (Hall p Hp) as (s & f & Hin & Hh). exists (s, f). by rewrite Hent.
Qed.

Lemma sample_db_runs : ∃ d, kernel_run LegacyDb.new sample_events = Some d.
Proof.
  destruct (kernel_run_observes (D := LegacyDb.ForthDb) sample_events) as (d & Hrun & _).
  exists d. exact Hrun.
Qed.

Lemma query_sound_complete_witness :
  ∃ d res, kernel_run LegacyDb.new sample_events = Some d ∧
    LegacyDb.db_query d sample_join QueryOptions_default = Some res ∧
    ∀ b, b ∈ row_binding <$> result_rows res ↔
      dom b = patterns_vars sample_join ∧
      ∀ p, p ∈ sample_join → ∃ s f, LegacyDb.db_resolve d s = Some (Some f) ∧ pattern_holds b p f.
Proof.
  destruct sample_db_runs as (d & Hd).
  destruct (query_sound_complete sample_events d sample_join QueryOptions_default Hd eq_refl)
    as (res & Hres & Hb).
  exists d, res. split_and!; [exact Hd|exact Hres|exact Hb].
Defined.

(** Join-order optimisation does not show: with duplicates removed and
    without provenance or limit, the rows (order included) are the same
    whether the walker picks the pattern with fewest candidates or the first. *)
Theorem query_join_order_irrelevant (evs : list Event) (d : LegacyDb.ForthDb) ps o :
  kernel_run LegacyDb.new evs = Some d →
  opt_limit o = None → opt_distinct o = true → opt_include_provenance o = false →
  ∃ r1 r2, LegacyDb.db_query d ps (with_optimize true o) = Some r1 ∧
    LegacyDb.db_query d ps (with_optimize false o) = Some r2 ∧
    result_rows r1 = result_rows r2.
Proof.
  intros Hrun Hlim Hdis Hprov.
  destruct (kernel_run_observes (D := LegacyDb.ForthDb) evs) as (d' & Hrun' & Hd).
  change kernel_new with LegacyDb.new in Hrun'. rewrite Hrun in Hrun'. injection Hrun' as <-.
  do 2 eexists. split_and!; [apply (k_rep_query _ _ _ ps _ Hd)|apply (k_rep_query _ _ _ ps _ Hd)|].
  apply distinct_rows_unique; [done..|]. intros b.
  etrans; [|symmetry]; by apply spec_query_solutions.
Qed.

Lemma query_join_order_irrelevant_witness :
  ∃ d r1 r2, kernel_run LegacyDb.new sample_events = Some d ∧
    LegacyDb.db_query d sample_join (with_optimize true QueryOptions_default) = Some r1 ∧
    LegacyDb.db_query d sample_join (with_optimize false QueryOptions_default) = Some r2 ∧
    result_rows r1 = result_rows r2.
Proof.
  destruct sample_db_runs as (d & Hd).
  destruct (query_join_order_irrelevant sample_events d sample_join QueryOptions_default
    Hd eq_refl eq_refl eq_refl) as (r1 & r2 & H1 & H2 & H3).
  exists d, r1, r2. split_and!; [exact Hd|exact H1|exact H2|exact H3].
Defined.

(** C29: A limit of [k] cuts the result to at most [max 1 k] rows (a limit of
    zero still yields a row, because the walker tests the limit after it pushes
    a frame), keeps as many rows as there are up to that bound when duplicates
    are kept, and invents no binding. *)
Theorem query_limit (evs : list Event) (d : LegacyDb.ForthDb) ps o k :
  kernel_run LegacyDb.new evs = Some d →
  ∃ limited full,
    LegacyDb.db_query d ps (with_limit (Some k) o) = Some limited ∧
    LegacyDb.db_query d ps (with_limit None o) = Some full ∧
    length (result_rows limited) ≤ Nat.max 1 k ∧
    (opt_distinct o = false →
     length (result_rows limited) = Nat.min (Nat.max 1 k) (length (result_rows full))) ∧
    (∀ b, b ∈ row_binding <$> result_rows limited → b ∈ row_binding <$> result_rows full).
Proof.
  intros Hrun. destruct (kernel_run_observes (D := LegacyDb.ForthDb) evs) as (d' & Hrun' & Hd).
  change kernel_new with LegacyDb.new in Hrun'. rewrite Hrun in Hrun'. injection Hrun' as <-.
  do 2 eexists. split_and!; [apply (k_rep_query _ _ _ ps _ Hd)|apply (k_rep_query _ _ _ ps _ Hd)|..];
    apply (cand_query_limit (spec_candidates _)).
Qed.

Lemma query_limit_witness :
  ∃ d limited full, kernel_run LegacyDb.new sample_events = Some d ∧
    LegacyDb.db_query d [sample_pattern] (with_limit (Some 0) QueryOptions_default) = Some limited ∧
    LegacyDb.db_query d [sample_pattern] (with_limit None QueryOptions_default) = Some full ∧
    length (result_rows limited) ≤ 1 ∧
    (false = true → length (result_rows limited) = Nat.min 1 (length (result_rows full))) ∧
    (∀ b, b ∈ row_binding <$> result_rows limited → b ∈ row_binding <$> result_rows full).
Proof.
  destruct sample_db_runs as (d & Hd).
  destruct (query_limit sample_events d [sample_pattern] QueryOptions_default 0 Hd)
    as (r1 & r2 & H1 & H2 & H3 & _ & H5).
  exists d, r1, r2. split_and!; [exact Hd|exact H1|exact H2|exact H3|discriminate|exact H5].
Defined.

(** A limit of zero returns a row of the sample database. *)
Lemma limit_zero_returns_a_row :
  (d ← kernel_run LegacyDb.new sample_events;
   r ← LegacyDb.db_query d [sample_pattern] (with_limit (Some 0) QueryOptions_default);
   Some (length (result_rows r))) = Some 1.
Proof. vm_compute. reflexivity. Qed.

(** ** Shadowing *)

(** Forgetting a slot right after defining it restores what every slot
    resolves to, every definition stack and the answer to every query; only
    the log has grown, by the two records. *)
Theorem forget_undoes_define {M : Set → Set → Set} {S : Set}
    `{PersistentMapLaws M, PersistentSetLaws S} (evs : list Event) (d : SharedDb.ForthDb M S) s f :
  kernel_run SharedDb.new evs = Some d →
  ∃ d1 d2 i j, SharedDb.define d s f = Some (i, d1) ∧ SharedDb.forget d1 s = Some (j, d2) ∧
    (∀ s', SharedDb.db_resolve d2 s' = SharedDb.db_resolve d s') ∧
    (∀ s', SharedDb.db_definitions d2 s' = SharedDb.db_definitions d s') ∧
    (∀ ps o, SharedDb.db_query d2 ps o = SharedDb.db_query d ps o) ∧
    SharedDb.db_record_count d2 = SharedDb.db_record_count d + 2.
Proof.
  intros Hrun. destruct (kernel_run_observes (D := SharedDb.ForthDb M S) evs) as (d' & Hrun' & Hd).
  change kernel_new with (SharedDb.new (M := M) (S := S)) in Hrun'.
  rewrite Hrun in Hrun'. injection Hrun' as <-.
  destruct (SharedDb.shared_define_rep _ _ _ s f Hd) as (d1 & Hdef & Hd1).
  destruct (SharedDb.shared_forget_rep _ _ _ s Hd1) as (d2 & Hfor & Hd2).
  rewrite <- (assoc_L (++)) in Hd2. simpl in Hd2.
  pose proof (k_rep_observes _ _ _ Hd) as [Or Od _ _ On Oq _].
  pose proof (k_rep_observes (D := SharedDb.ForthDb M S) _ _ _ Hd2) as [Or2 Od2 _ _ On2 Oq2 _]. simpl in *.
  exists d1, d2, (length evs), (length (evs ++ [EvDefine s f])). split_and!; [done|done| | | |].
  - intros s'. rewrite Or, Or2. unfold spec_resolve, top. by rewrite stacks_define_forget.
  - intros s'. rewrite Od, Od2. unfold spec_definitions. by rewrite stacks_define_forget.
  - intros ps o. by rewrite Oq, Oq2, active_entries_define_forget.
  - rewrite On, On2, length_app. done.
Qed.

Abbreviation SampleDb := (SharedDb.ForthDb UniqueMap UniqueSet) (only parsing).

Lemma sample_shared_runs : ∃ d : SampleDb, kernel_run SharedDb.new sample_events = Some d.
Proof.
  destruct (kernel_run_observes (D := SampleDb) sample_events) as (d & Hrun & _).
  exists d. exact Hrun.
Qed.

Lemma forget_undoes_define_witness :
  ∃ (d : SampleDb) d1 d2 i j, kernel_run SharedDb.new sample_events = Some d ∧
    SharedDb.define d slot_a fact_2 = Some (i, d1) ∧ SharedDb.forget d1 slot_a = Some (j, d2) ∧
    (∀ s', SharedDb.db_resolve d2 s' = SharedDb.db_resolve d s') ∧
    (∀ s', SharedDb.db_definitions d2 s' = SharedDb.db_definitions d s') ∧
    (∀ ps o, SharedDb.db_query d2 ps o = SharedDb.db_query d ps o) ∧
    SharedDb.db_record_count d2 = SharedDb.db_record_count d + 2.
Proof.
  destruct sample_shared_runs as (d & Hd).
  destruct (forget_undoes_define (M := UniqueMap) (S := UniqueSet) sample_events d slot_a fact_2 Hd) as (d1 & d2 & i & j & Hrest).
  exists d, d1, d2, i, j. split; [exact Hd|exact Hrest].
Defined.

(** ** Names and symbols *)

Lemma display_slot_inj e1 e2 : display_slot e1 = display_slot e2 → e1 = e2.
Proof.
  destruct e1 as [n1], e2 as [n2]. unfold display_slot. simpl. intros [= Heq].
  f_equal. by apply (inj pretty).
Qed.

Section names.
Context {D : Type} `{KernelLaws D}.
Implicit Types (d : D).

Lemma bind_symbol_rep d evs n ns sym e :
  k_rep d evs n →
  ∃ d', bind_symbol d ns sym e = Some (length evs, d') ∧
    (∀ ns' sym', resolve_symbol d' ns' sym' =
       if decide (symbol_slot ns' sym' = symbol_slot ns sym) then Some (Some e)
       else resolve_symbol d ns' sym').
Proof.
  intros Hd. unfold bind_symbol.
  destruct (k_rep_define d evs n (symbol_slot ns sym) (Fact_new
    (ALiteral (Literal_new (ns +:+ ":" +:+ symbol_str sym))) resolves_to_predicate (AEntity e)) Hd)
    as (d' & Hdef & Hd').
  exists d'. split; [exact Hdef|]. intros ns' sym'.
  rewrite (resolve_symbol_spec _ _ _ _ _ Hd'), (resolve_symbol_spec _ _ _ _ _ Hd).
  case_decide as Heq.
  - by rewrite Heq, spec_resolve_define.
  - by rewrite spec_resolve_snoc.
Qed.

Lemma display_name_spec d evs n e :
  k_rep d evs n →
  display_name d e = Some (default (EntityId_display e)
    (f ← spec_resolve evs (display_slot e);
     match fact_object f with ALiteral l => Some (literal_str l) | AEntity _ => None end)).
Proof. intros Hd. unfold display_name. by erewrite k_rep_resolve by done. Qed.

Lemma define_display_name_rep d evs n e name :
  k_rep d evs n →
  ∃ d', define_display_name d e name = Some (length evs, d') ∧
    ∀ e', display_name d' e' = if decide (e' = e) then Some name else display_name d e'.
Proof.
  intros Hd. unfold define_display_name.
  destruct (k_rep_define d evs n (display_slot e)
    (Fact_new (AEntity e) display_name_predicate (ALiteral (Literal_new name))) Hd)
    as (d' & Hdef & Hd').
  exists d'. split; [exact Hdef|]. intros e'.
  rewrite (display_name_spec _ _ _ _ Hd'), (display_name_spec _ _ _ _ Hd).
  case_decide as Heq.
  - subst e'. by rewrite spec_resolve_define.
  - rewrite spec_resolve_snoc; [done|]. simpl. by intros ?%display_slot_inj.
Qed.
End names.

(** Names and symbols behave like variables: defining a display name or
    binding a symbol succeeds, is read back, and changes no other entity's name
    and no symbol with another slot; compiling a pattern replaces a bound symbol
    by its entity and reports an unbound one as an error. *)
Theorem names_and_symbols (evs : list Event) (d : LegacyDb.ForthDb) :
  kernel_run LegacyDb.new evs = Some d →
  (∀ e name, ∃ i d', define_display_name d e name = Some (i, d') ∧
     ∀ e', display_name d' e' = if decide (e' = e) then Some name else display_name d e') ∧
  (∀ ns sym e, ∃ i d', bind_symbol d ns sym e = Some (i, d') ∧
     (∀ ns' sym', resolve_symbol d' ns' sym' =
        if decide (symbol_slot ns' sym' = symbol_slot ns sym) then Some (Some e)
        else resolve_symbol d ns' sym') ∧
     ∀ p a, compile_pattern d' ns (SSymbol sym) p (SAtom a) =
       Ok (Pattern_new (TAtom (AEntity e)) (PPredicate p) (TAtom a))) ∧
  (∀ ns sym p o, resolve_symbol d ns sym = Some None →
     compile_pattern d ns (SSymbol sym) p o =
     Err ("unbound symbol " +:+ ns +:+ ":" +:+ symbol_str sym)%string).
Proof.
  intros Hrun. destruct (kernel_run_observes (D := LegacyDb.ForthDb) evs) as (d' & Hrun' & Hd).
  change kernel_new with LegacyDb.new in Hrun'. rewrite Hrun in Hrun'. injection Hrun' as <-.
  split_and!.
  - intros e name. destruct (define_display_name_rep d evs 1 e name Hd) as (d1 & ? & ?). eauto.
  - intros ns sym e. destruct (bind_symbol_rep d evs 1 ns sym e Hd) as (d1 & Hb & Hr).
    exists (length evs), d1. split_and!; [done|done|]. intros p a.
    unfold compile_pattern. cbn [compile_term]. rewrite Hr, decide_True by done. done.
  - intros ns sym p o Hn. unfold compile_pattern. cbn [compile_term]. by rewrite Hn.
Qed.

Lemma names_and_symbols_witness :
  ∃ d, kernel_run LegacyDb.new sample_events = Some d ∧
    ∃ i d', bind_symbol d "main" (Symbol_new "alice") (EntityId_new 7) = Some (i, d') ∧
      (∀ ns' sym', resolve_symbol d' ns' sym' =
         if decide (symbol_slot ns' sym' = symbol_slot "main" (Symbol_new "alice"))
         then Some (Some (EntityId_new 7)) else resolve_symbol d ns' sym') ∧
      ∀ p a, compile_pattern d' "main" (SSymbol (Symbol_new "alice")) p (SAtom a) =
        Ok (Pattern_new (TAtom (AEntity (EntityId_new 7))) (PPredicate p) (TAtom a)).
Proof.
  destruct sample_db_runs as (d & Hd).
  destruct (names_and_symbols sample_events d Hd) as (_ & Hb & _).
  exists d. split; [exact Hd|]. apply Hb.
Defined.

(** Namespaces are not isolated: a slash in a namespace or a symbol makes two
    different symbols share a slot. *)
Lemma symbol_slots_collide :
  symbol_slot "a/b" (Symbol_new "c") = symbol_slot "a" (Symbol_new "b/c").
Proof. reflexivity. Qed.

(** ** Building blocks of the shared kernel *)

(** The chunked log is a list: after any sequence of pushes the element at
    an index is the one pushed at that position (out of range is a panic), the
    length is the number of pushes, and the chunk count is that length over
    1024, rounded up. *)
Theorem chunked_log_is_list {T : Type} (xs : list T) :
  let l := foldl (λ l x, (log_push l x).1) ChunkedLog_default xs in
  (∀ i, log_get l i = xs !! i) ∧ log_len l = length xs ∧
  length xs ≤ chunk_count l * LOG_CHUNK_CAPACITY ∧
  (chunk_count l - 1) * LOG_CHUNK_CAPACITY ≤ length xs.
Proof.
  intros l.
  assert (log_rep l xs) as Hl.
  { subst l. induction xs as [|x xs IH] using rev_ind; [apply log_rep_default|].
    rewrite foldl_app. simpl. by apply log_push_rep. }
  split_and!; [intros i; by apply log_get_rep|apply Hl|by apply chunk_count_rep..].
Qed.

Inductive map_op (K V : Set) :=
| MapInsert (k : K) (v : V)
| MapRemove (k : K).
Arguments MapInsert {K V} k v.
Arguments MapRemove {K V} k.

Definition sharded_apply {M : Set → Set → Set} `{PersistentMap M} {K V : Set}
    `{EqDecision K, HashKey K} (SHARDS : N) (m : ShardedMap M K V) (op : map_op K V) :
    option (ShardedMap M K V) :=
  match op with
  | MapInsert k v => fst <$> sharded_insert SHARDS m k v
  | MapRemove k => fst <$> sharded_remove SHARDS m k
  end.

Definition sharded_run {M : Set → Set → Set} `{PersistentMap M} {K V : Set}
    `{EqDecision K, HashKey K} (SHARDS : N) (m : ShardedMap M K V) (ops : list (map_op K V)) :
    option (ShardedMap M K V) :=
  foldl (λ om op, m ← om; sharded_apply SHARDS m op) (Some m) ops.

Definition gmap_run {K V : Set} `{Countable K} (ops : list (map_op K V)) : gmap K V :=
  foldl (λ g op, match op with MapInsert k v => <[k := v]> g | MapRemove k => delete k g end) ∅ ops.

(** The sharded map is a finite map: after any sequence of insertions and
    removals no directory access panics, lookups agree with the finite map,
    [len] is its size and iteration yields each entry exactly once. *)
Theorem sharded_map_is_map {M : Set → Set → Set} `{PersistentMapLaws M} {K V : Set}
    `{Countable K, HashKey K} (SHARDS : N) (ops : list (map_op K V)) :
  shards_ok SHARDS = true →
  ∃ m : ShardedMap M K V, sharded_run SHARDS (sharded_default SHARDS) ops = Some m ∧
    (∀ k, sharded_get SHARDS m k = Some (gmap_run ops !! k)) ∧
    map_len m = usize_of (size (gmap_run ops)) ∧
    sharded_iter m ≡ₚ map_to_list (gmap_run ops).
Proof.
  intros HS.
  assert (∃ m : ShardedMap M K V, sharded_run SHARDS (sharded_default SHARDS) ops = Some m ∧
    sharded_rep SHARDS m (gmap_run ops)) as (m & Hrun & Hm).
  { induction ops as [|op ops (m & Hrun & Hm)] using rev_ind.
    { exists (sharded_default SHARDS). split; [done|]. by apply sharded_rep_default. }
    unfold sharded_run, gmap_run in *. rewrite !foldl_app, Hrun. simpl. destruct op as [k v|k]; simpl.
    - destruct (sharded_insert_rep SHARDS HS m _ k v Hm) as (m' & -> & ?). eauto.
    - destruct (sharded_remove_rep SHARDS HS m _ k Hm) as (m' & -> & ?). eauto. }
  exists m. split_and!; [done|intros k; by apply sharded_get_rep|apply Hm|].
  by eapply sharded_iter_rep.
Qed.

Definition sample_ops : list (map_op SlotId nat) :=
  [MapInsert slot_a 1; MapInsert slot_b 2; MapInsert slot_a 3; MapRemove slot_b].

Lemma sharded_map_is_map_witness :
  ∃ m : ShardedMap UniqueMap SlotId nat,
    sharded_run 64 (sharded_default 64) sample_ops = Some m ∧
    (∀ k, sharded_get 64 m k = Some (gmap_run sample_ops !! k)) ∧
    map_len m = usize_of (size (gmap_run sample_ops)) ∧
    sharded_iter m ≡ₚ map_to_list (gmap_run sample_ops).
Proof. apply (sharded_map_is_map (M := UniqueMap) 64 sample_ops). reflexivity. Defined.
