(* ===== verification/Conformance.v ===== *)
(** Conformance fixtures (crates/forthdb-conformance: lib.rs and executor.rs): the
    checks a fixture passes before it runs, and its execution on a kernel.

    The records of one field that the JSON has for references are their string, a
    [BTreeMap] is a [gmap] iterated in the order of its keys, and a message is a
    constructor with the values that its text formats; the text of an error of
    another crate is a string.  Reading the file and parsing the JSON are
    arguments. *)
From Stdlib Require Import NArith Lia.
From stdpp Require Import base gmap list strings option.
From S2P Require Import Prelude Ord Terms Query Kernel.

(** ** Errors *)

(** [format!("case {:?}, step {}")]. *)
Record Context := Context_mk { ctx_case : string; ctx_step : nat }.

(** What a check or an assertion is about: a context and words, or words alone. *)
Inductive Place := Plain (what : string) | At (context : Context) (what : string).

(** A row as the executor compares it. *)
Abbreviation CanonicalRow := (list (string * BoundValue) * list string)%type (only parsing).

(** The two sides of a mismatch. *)
Inductive Observed :=
| SawFact (fact : option Fact)
| SawFacts (facts : list Fact)
| SawKinds (kinds : list string)
| SawName (name : string)
| SawRows (rows : list CanonicalRow)
| SawMetric (metric : string) (value : N).

Inductive FixtureMessage :=
(* lib.rs *)
| UnsupportedSchema (version : N)
| NoCases
| MustNotBeEmpty (at_ : Place)
| DuplicateCase (name : string)
| NoSteps (case : string)
| DuplicateEntity (case entity : string)
| NoPatterns (context : Context)
| MetricNotRequested (context : Context) (metric : string)
| ProvenanceNotIncluded (context : Context)
| UnsupportedHistoryKind (context : Context) (kind : string)
| ReusedAlias (context : Context) (alias : string)
| UndefinedAlias (context : Context) (alias : string)
| UndeclaredEntity (context : Context) (entity : string)
| InvalidVariableAt (context : Context) (error : InvalidVariable)
| SymbolOutsideCompile (context : Context)
| NoRuntimeEntity (entity : string)
| InvalidVariableName (error : InvalidVariable)
| UnresolvedSymbol (symbol : string)
(* executor.rs *)
| Mismatch (context : Context) (name : string) (expected actual : Observed)
| CompileFailed (context : Context) (error : string)
| UnavailablePattern (context : Context) (alias : string)
| UnsupportedMetric (context : Context) (metric : string)
| UnavailableEntity (context : Context) (name : string)
| CaseInvalid (case : string) (error : string).

Inductive FixtureError :=
| FixtureIo (error : string)
| FixtureJson (error : string)
| Validation (message : FixtureMessage).

Abbreviation checked := (outcome FixtureError) (only parsing).

(** ** Maps and loops *)

(** [for x in l { f(x)?; }]. *)
Definition for_each {A} (f : A → checked unit) (l : list A) : checked unit := outcome_fold (λ _ x, f x) l tt.

(** [l.iter().map(f).collect::<Result<Vec<_>, _>>()]. *)
Fixpoint try_map {A B} (f : A → checked B) (l : list A) : checked (list B) :=
  match l with
  | [] => Ok []
  | x :: l => let* y := f x in let* ys := try_map f l in Ok (y :: ys)
  end.

(** The keys and the entries of a [BTreeMap<String, V>] in order. *)
Definition map_keys {V} (m : gmap string V) : list string := ord_sort (elements (dom m)).
Definition map_entries {V} (m : gmap string V) : list (string * V) :=
  omap (λ k, (k,.) <$> m !! k) (map_keys m).

(** ** Fixtures *)

Inductive AtomSpec := AtomEntity (entity : string) | AtomLiteral (literal : string).
Inductive TermSpec :=
| TermEntity (entity : string)
| TermLiteral (literal : string)
| TermVariable (variable : string)
| TermSymbol (symbol : string).

Record FactSpec := FactSpec_mk { fs_subject : AtomSpec; fs_predicate : string; fs_object : AtomSpec }.
Record InlinePatternSpec := InlinePatternSpec_mk { ip_subject : TermSpec; ip_predicate : string; ip_object : TermSpec }.

Inductive PatternSourceSpec := Compiled (compiled : string) | Inline (pattern : InlinePatternSpec).
Inductive ExpectedValueSpec :=
| ExpectedEntity (entity : string)
| ExpectedLiteral (literal : string)
| ExpectedPredicate (predicate : string).

Record ExpectedRow := ExpectedRow_mk { er_binding : gmap string ExpectedValueSpec; er_provenance : list string }.
Record QueryExpectation := QueryExpectation_mk { qe_rows : list ExpectedRow; qe_metrics : gmap string N }.

Inductive Step :=
| StepDefine (slot : string) (fact : FactSpec)
| StepQuery (name : string) (patterns : list PatternSourceSpec) (distinct include_provenance : option bool)
    (metrics : list string) (expect : QueryExpectation)
| StepResolve (name slot : string) (expect : FactSpec)
| StepDefinitions (name slot : string) (expect : list FactSpec)
| StepForget (slot : string)
| StepHistoryKinds (name slot : string) (expect : list string)
| StepDisplayName (entity value : string)
| StepBindSymbol (namespace symbol entity : string)
| StepCompile (alias namespace : string) (subject : TermSpec) (predicate : string) (object : TermSpec)
| StepDisplayNameValue (name entity expect : string).

Record KernelCase := KernelCase_mk { case_name : string; case_entities : list string; case_steps : list Step }.
Record KernelFixture := KernelFixture_mk { schema_version : N; fixture_cases : list KernelCase }.

Definition case_count (f : KernelFixture) : nat := length (fixture_cases f).
Definition step_count (f : KernelFixture) : nat := sum_list_with (λ c, length (case_steps c)) (fixture_cases f).

(** ** Validation *)

Definition require_nonempty (value : string) (at_ : Place) : checked unit :=
  if decide (value = ""%string) then Err (Validation (MustNotBeEmpty at_)) else Ok tt.

Definition require_entity (entity : string) (entities : gset string) (context : Context) : checked unit :=
  let* _ := require_nonempty entity (At context "entity reference") in
  if decide (entity ∈ entities) then Ok tt else Err (Validation (UndeclaredEntity context entity)).

Definition atom_validate (a : AtomSpec) (entities : gset string) (context : Context) : checked unit :=
  match a with
  | AtomEntity entity => require_entity entity entities context
  | AtomLiteral literal => require_nonempty literal (At context "literal")
  end.

Definition term_validate (t : TermSpec) (entities : gset string) (symbols_allowed : bool) (context : Context) :
    checked unit :=
  match t with
  | TermEntity entity => require_entity entity entities context
  | TermLiteral literal => require_nonempty literal (At context "literal")
  | TermVariable variable =>
      let* _ := map_err (λ e, Validation (InvalidVariableAt context e)) (QVariable_new variable) in Ok tt
  | TermSymbol symbol =>
      if symbols_allowed then require_nonempty symbol (At context "symbol")
      else Err (Validation (SymbolOutsideCompile context))
  end.

Definition fact_validate (f : FactSpec) (entities : gset string) (context : Context) : checked unit :=
  let* _ := atom_validate (fs_subject f) entities context in
  let* _ := require_nonempty (fs_predicate f) (At context "predicate") in
  atom_validate (fs_object f) entities context.

Definition inline_validate (p : InlinePatternSpec) (entities : gset string) (context : Context) : checked unit :=
  let* _ := term_validate (ip_subject p) entities false context in
  let* _ := require_nonempty (ip_predicate p) (At context "predicate") in
  term_validate (ip_object p) entities false context.

Definition source_validate (p : PatternSourceSpec) (entities compiled_patterns : gset string) (context : Context) :
    checked unit :=
  match p with
  | Compiled alias =>
      let* _ := require_nonempty alias (At context "compiled alias") in
      if decide (alias ∈ compiled_patterns) then Ok tt else Err (Validation (UndefinedAlias context alias))
  | Inline pattern => inline_validate pattern entities context
  end.

Definition value_validate (v : ExpectedValueSpec) (entities : gset string) (context : Context) : checked unit :=
  match v with
  | ExpectedEntity entity => require_entity entity entities context
  | ExpectedLiteral literal => require_nonempty literal (At context "literal")
  | ExpectedPredicate predicate => require_nonempty predicate (At context "predicate")
  end.

Definition row_validate (entities : gset string) (context : Context) (row : ExpectedRow) : checked unit :=
  let* _ := for_each (λ e, let* _ := require_nonempty e.1 (At context "binding name") in
                           value_validate e.2 entities context) (map_entries (er_binding row)) in
  for_each (λ slot, require_nonempty slot (At context "provenance slot")) (er_provenance row).

Definition expectation_validate (e : QueryExpectation) (entities : gset string) (context : Context) : checked unit :=
  let* _ := for_each (row_validate entities context) (qe_rows e) in
  for_each (λ metric, require_nonempty metric (At context "metric name")) (map_keys (qe_metrics e)).

(** The arm of [Step::Query]. *)
Definition query_validate (name : string) (patterns : list PatternSourceSpec) (include_provenance : option bool)
    (metrics : list string) (expect : QueryExpectation) (entities compiled_patterns : gset string)
    (context : Context) : checked unit :=
  let* _ := require_nonempty name (At context "query name") in
  let* _ := if decide (patterns = []) then Err (Validation (NoPatterns context)) else Ok tt in
  let* _ := for_each (λ p, source_validate p entities compiled_patterns context) patterns in
  let* _ := for_each (λ metric, require_nonempty metric (At context "metric name")) metrics in
  let* _ := expectation_validate expect entities context in
  let requested : gset string := list_to_set metrics in
  let* _ := for_each (λ metric, if decide (metric ∈ requested) then Ok tt
                                else Err (Validation (MetricNotRequested context metric)))
              (map_keys (qe_metrics expect)) in
  if negb (default false include_provenance) && existsb (λ row, negb (bool_decide (er_provenance row = []))) (qe_rows expect)
  then Err (Validation (ProvenanceNotIncluded context)) else Ok tt.

(** [Step::validate]: the compiled patterns afterwards. *)
Definition step_validate (s : Step) (entities compiled_patterns : gset string) (context : Context) :
    checked (gset string) :=
  match s with
  | StepDefine slot fact =>
      let* _ := require_nonempty slot (At context "slot") in
      let* _ := fact_validate fact entities context in
      Ok compiled_patterns
  | StepQuery name patterns _ include_provenance metrics expect =>
      let* _ := query_validate name patterns include_provenance metrics expect entities compiled_patterns context in
      Ok compiled_patterns
  | StepResolve name slot expect =>
      let* _ := require_nonempty name (At context "assertion name") in
      let* _ := require_nonempty slot (At context "slot") in
      let* _ := fact_validate expect entities context in
      Ok compiled_patterns
  | StepDefinitions name slot expect =>
      let* _ := require_nonempty name (At context "assertion name") in
      let* _ := require_nonempty slot (At context "slot") in
      let* _ := for_each (λ fact, fact_validate fact entities context) expect in
      Ok compiled_patterns
  | StepForget slot =>
      let* _ := require_nonempty slot (At context "slot") in Ok compiled_patterns
  | StepHistoryKinds name slot expect =>
      let* _ := require_nonempty name (At context "assertion name") in
      let* _ := require_nonempty slot (At context "slot") in
      let* _ := for_each (λ kind, if decide (kind ≠ "define"%string ∧ kind ≠ "forget"%string)
                                  then Err (Validation (UnsupportedHistoryKind context kind)) else Ok tt) expect in
      Ok compiled_patterns
  | StepDisplayName entity value =>
      let* _ := require_entity entity entities context in
      let* _ := require_nonempty value (At context "display name") in
      Ok compiled_patterns
  | StepBindSymbol namespace symbol entity =>
      let* _ := require_nonempty namespace (At context "namespace") in
      let* _ := require_nonempty symbol (At context "symbol") in
      let* _ := require_entity entity entities context in
      Ok compiled_patterns
  | StepCompile alias namespace subject predicate object =>
      let* _ := require_nonempty alias (At context "compiled alias") in
      let* _ := require_nonempty namespace (At context "namespace") in
      let* _ := require_nonempty predicate (At context "predicate") in
      let* _ := term_validate subject entities true context in
      let* _ := term_validate object entities true context in
      if decide (alias ∈ compiled_patterns) then Err (Validation (ReusedAlias context alias))
      else Ok ({[alias]} ∪ compiled_patterns)
  | StepDisplayNameValue name entity expect =>
      let* _ := require_nonempty name (At context "assertion name") in
      let* _ := require_entity entity entities context in
      let* _ := require_nonempty expect (At context "expected display name") in
      Ok compiled_patterns
  end.

(** The loop over the steps, numbered from [index]. *)
Fixpoint steps_validate (case : string) (index : nat) (steps : list Step) (entities compiled_patterns : gset string) :
    checked unit :=
  match steps with
  | [] => Ok tt
  | step :: steps =>
      let* compiled_patterns := step_validate step entities compiled_patterns (Context_mk case (index + 1)) in
      steps_validate case (S index) steps entities compiled_patterns
  end.

Definition entities_validate (case : string) (names : list string) : checked (gset string) :=
  outcome_fold (λ entities entity,
    let* _ := require_nonempty entity (Plain "entity label") in
    if decide (entity ∈ entities) then Err (Validation (DuplicateEntity case entity)) else Ok ({[entity]} ∪ entities))
    names ∅.

Definition case_validate (c : KernelCase) : checked unit :=
  if decide (length (case_steps c) = 0) then Err (Validation (NoSteps (case_name c)))
  else
    let* entities := entities_validate (case_name c) (case_entities c) in
    steps_validate (case_name c) 0 (case_steps c) entities ∅.

Definition fixture_validate (f : KernelFixture) : checked unit :=
  if decide (schema_version f ≠ 1%N) then Err (Validation (UnsupportedSchema (schema_version f)))
  else if decide (length (fixture_cases f) = 0) then Err (Validation NoCases)
  else
    let* _ := outcome_fold (λ names c,
      let* _ := require_nonempty (case_name c) (Plain "case name") in
      if decide (case_name c ∈ names) then Err (Validation (DuplicateCase (case_name c)))
      else let* _ := case_validate c in Ok ({[case_name c]} ∪ names)) (fixture_cases f) (∅ : gset string) in
    Ok tt.

(** [load_fixture] on the result of reading the file, with the parser. *)
Definition load_fixture (contents : outcome string string) (from_str : string → outcome string KernelFixture) :
    checked KernelFixture :=
  let* contents := map_err FixtureIo contents in
  let* fixture := map_err FixtureJson (from_str contents) in
  let* _ := fixture_validate fixture in
  Ok fixture.

(** ** Materialization *)

Abbreviation Entities := (gmap string EntityId) (only parsing).

Definition atom_materialize (a : AtomSpec) (entities : Entities) : checked Atom :=
  match a with
  | AtomEntity entity => ok_or (AEntity <$> entities !! entity) (Validation (NoRuntimeEntity entity))
  | AtomLiteral literal => Ok (ALiteral (Literal_new literal))
  end.

Definition term_materialize (t : TermSpec) (entities : Entities) : checked Term :=
  match t with
  | TermEntity entity => ok_or ((λ e, TAtom (AEntity e)) <$> entities !! entity) (Validation (NoRuntimeEntity entity))
  | TermLiteral literal => Ok (TAtom (ALiteral (Literal_new literal)))
  | TermVariable variable =>
      let* v := map_err (λ e, Validation (InvalidVariableName e)) (QVariable_new variable) in Ok (TVariable v)
  | TermSymbol symbol => Err (Validation (UnresolvedSymbol symbol))
  end.

Definition fact_materialize (f : FactSpec) (entities : Entities) : checked Fact :=
  let* subject := atom_materialize (fs_subject f) entities in
  let* object := atom_materialize (fs_object f) entities in
  Ok (Fact_new subject (Predicate_new (fs_predicate f)) object).

Definition inline_materialize (p : InlinePatternSpec) (entities : Entities) : checked Pattern :=
  let* subject := term_materialize (ip_subject p) entities in
  let* object := term_materialize (ip_object p) entities in
  Ok (Pattern_new subject (PPredicate (Predicate_new (ip_predicate p))) object).

(** ** Execution *)

Definition executor_entity (name : string) (entities : Entities) (context : Context) : checked EntityId :=
  ok_or (entities !! name) (Validation (UnavailableEntity context name)).

Definition source_term (t : TermSpec) (entities : Entities) (context : Context) : checked SourceTerm :=
  match t with
  | TermEntity entity => let* e := executor_entity entity entities context in Ok (SAtom (AEntity e))
  | TermLiteral literal => Ok (SAtom (ALiteral (Literal_new literal)))
  | TermVariable variable =>
      let* v := map_err (λ e, Validation (InvalidVariableAt context e)) (QVariable_new variable) in Ok (SVariable v)
  | TermSymbol symbol => Ok (SSymbol (Symbol_new symbol))
  end.

Definition expected_value (v : ExpectedValueSpec) (entities : Entities) (context : Context) : checked BoundValue :=
  match v with
  | ExpectedEntity entity => let* e := executor_entity entity entities context in Ok (BEntity e)
  | ExpectedLiteral literal => Ok (BLiteral (Literal_new literal))
  | ExpectedPredicate predicate => Ok (BPredicate (Predicate_new predicate))
  end.

Definition mismatch (context : Context) (name : string) (expected actual : Observed) : FixtureError :=
  Validation (Mismatch context name expected actual).

Definition actual_row (row : QueryRow) : CanonicalRow :=
  (binding_entries (row_binding row), slot_str <$> row_provenance row).

Definition expected_row (context : Context) (entities : Entities) (row : ExpectedRow) : checked CanonicalRow :=
  let* binding := try_map (λ e, let* value := expected_value e.2 entities context in Ok (e.1, value))
                    (map_entries (er_binding row)) in
  Ok (binding_entries (list_to_map binding), er_provenance row).

Definition compare_rows (context : Context) (name : string) (actual : list QueryRow) (expected : list ExpectedRow)
    (entities : Entities) : checked unit :=
  let actual_rows := actual_row <$> actual in
  let* expected_rows := try_map (expected_row context entities) expected in
  let actual_rows := ord_sort actual_rows in
  let expected_rows := ord_sort expected_rows in
  if decide (actual_rows ≠ expected_rows)
  then Err (mismatch context name (SawRows expected_rows) (SawRows actual_rows)) else Ok tt.

Definition compare_metric (context : Context) (name : string) (metrics : QueryMetrics) (e : string * N) : checked unit :=
  let* actual :=
    if decide (e.1 = "candidate_facts"%string) then Ok (candidate_facts metrics)
    else if decide (e.1 = "bindings_emitted"%string) then Ok (bindings_emitted metrics)
    else Err (Validation (UnsupportedMetric context e.1)) in
  if decide (actual ≠ e.2) then Err (mismatch context name (SawMetric e.1 e.2) (SawMetric e.1 actual)) else Ok tt.

Section executor.
Context {D : Type} `{Kernel D}.

Record Execution := Execution_mk {
  ex_db : D;
  ex_compiled : gmap string Pattern;
  ex_assertions : nat;
}.

Definition with_db (d : D) (x : Execution) : Execution := Execution_mk d (ex_compiled x) (ex_assertions x).
Definition passed (n : nat) (x : Execution) : Execution :=
  Execution_mk (ex_db x) (ex_compiled x) (ex_assertions x + n).

(** An assertion that compares two values. *)
Definition assert_eq {A} `{EqDecision A} (context : Context) (name : string) (saw : A → Observed)
    (expected actual : A) (x : Execution) : checked Execution :=
  if decide (actual ≠ expected) then Err (mismatch context name (saw expected) (saw actual)) else Ok (passed 1 x).

Definition execute_query (context : Context) (entities : Entities) (name : string)
    (patterns : list PatternSourceSpec) (distinct include_provenance : option bool) (expect : QueryExpectation)
    (x : Execution) : checked Execution :=
  let* patterns := try_map (λ p, match p with
    | Inline pattern => inline_materialize pattern entities
    | Compiled alias => ok_or (ex_compiled x !! alias) (Validation (UnavailablePattern context alias))
    end) patterns in
  let* result := or_panic (kernel_query (ex_db x) patterns
    (QueryOptions_mk (opt_optimize QueryOptions_default) (default true distinct) (default false include_provenance)
       (opt_limit QueryOptions_default))) in
  let* _ := compare_rows context name (result_rows result) (qe_rows expect) entities in
  let* _ := for_each (compare_metric context name (result_metrics result)) (map_entries (qe_metrics expect)) in
  Ok (passed (1 + size (qe_metrics expect)) x).

Definition execute_step (context : Context) (entities : Entities) (step : Step) (x : Execution) : checked Execution :=
  match step with
  | StepDefine slot fact =>
      let* fact := fact_materialize fact entities in
      let* r := or_panic (kernel_define (ex_db x) (SlotId_new slot) fact) in
      Ok (with_db r.2 x)
  | StepForget slot =>
      let* r := or_panic (kernel_forget (ex_db x) (SlotId_new slot)) in
      Ok (with_db r.2 x)
  | StepResolve name slot expect =>
      let* expected := fact_materialize expect entities in
      let* actual := or_panic (kernel_resolve (ex_db x) (SlotId_new slot)) in
      assert_eq context name SawFact (Some expected) actual x
  | StepDefinitions name slot expect =>
      let* expected := try_map (λ fact, fact_materialize fact entities) expect in
      let* actual := or_panic (kernel_definitions (ex_db x) (SlotId_new slot)) in
      assert_eq context name SawFacts expected actual x
  | StepHistoryKinds name slot expect =>
      let* records := or_panic (kernel_history (ex_db x) (SlotId_new slot)) in
      assert_eq context name SawKinds expect ((λ r, RecordKind_as_str (rec_kind r)) <$> records) x
  | StepDisplayName entity value =>
      let* e := executor_entity entity entities context in
      let* r := or_panic (define_display_name (ex_db x) e value) in
      Ok (with_db r.2 x)
  | StepDisplayNameValue name entity expect =>
      let* e := executor_entity entity entities context in
      let* actual := or_panic (display_name (ex_db x) e) in
      assert_eq context name SawName expect actual x
  | StepBindSymbol namespace symbol entity =>
      let* e := executor_entity entity entities context in
      let* r := or_panic (bind_symbol (ex_db x) namespace (Symbol_new symbol) e) in
      Ok (with_db r.2 x)
  | StepCompile alias namespace subject predicate object =>
      let* subject := source_term subject entities context in
      let* object := source_term object entities context in
      let* pattern := map_err (λ e, Validation (CompileFailed context e))
        (compile_pattern (ex_db x) namespace subject (Predicate_new predicate) object) in
      Ok (Execution_mk (ex_db x) (<[alias := pattern]> (ex_compiled x)) (ex_assertions x))
  | StepQuery name patterns distinct include_provenance _ expect =>
      execute_query context entities name patterns distinct include_provenance expect x
  end.

Fixpoint execute_steps (case : string) (index : nat) (entities : Entities) (steps : list Step) (x : Execution) :
    checked Execution :=
  match steps with
  | [] => Ok x
  | step :: steps =>
      let* x := execute_step (Context_mk case (index + 1)) entities step x in
      execute_steps case (S index) entities steps x
  end.

(** [map(|name| (name.clone(), db.entity())).collect()]: a later name replaces an
    earlier one. *)
Fixpoint mint_entities (names : list string) (entities : Entities) (d : D) : Entities * D :=
  match names with
  | [] => (entities, d)
  | name :: names => let '(e, d) := kernel_entity d in mint_entities names (<[name := e]> entities) d
  end.

Definition execute_case (c : KernelCase) : checked nat :=
  let '(entities, d) := mint_entities (case_entities c) ∅ kernel_new in
  let* x := execute_steps (case_name c) 0 entities (case_steps c) (Execution_mk d ∅ 0) in
  let* _ := map_err (λ e, Validation (CaseInvalid (case_name c) e)) (kernel_validate (ex_db x)) in
  Ok (ex_assertions x).
End executor.
Arguments Execution : clear implicits.

Record CaseReport := CaseReport_mk { cr_name : string; cr_assertions : nat; cr_status : string }.
Record ExecutionReport := ExecutionReport_mk {
  rp_implementation : string;
  rp_scope : string;
  rp_schema_version : N;
  rp_cases : nat;
  rp_steps : nat;
  rp_assertions : nat;
  rp_case_reports : list CaseReport;
  rp_status : string;
}.

(** [execute_fixture] on the kernel [D]. *)
Definition execute_fixture (D : Type) `{Kernel D} (f : KernelFixture) : checked ExecutionReport :=
  let* r := outcome_fold (λ r c,
    let* assertions := execute_case (D := D) c in
    Ok (r.1 ++ [CaseReport_mk (case_name c) assertions "passed"], r.2 + assertions)) (fixture_cases f) ([], 0) in
  Ok (ExecutionReport_mk "rust" "in-memory-semantic-kernel" (schema_version f) (case_count f) (step_count f) r.2 r.1
        "passed").
