(* ===== verification/ConformanceProps.v ===== *)
(** What a conformance fixture decides: the history that it describes, whatever
    kernel it runs on; and what its validation rules out. *)
From Stdlib Require Import NArith Lia.
From stdpp Require Import sorting base gmap list strings option fin_maps fin_map_dom.
From S2P Require Import Prelude Ord Terms Query QueryFacts Spec Index Kernel LegacyDb SharedTypes SharedDb.
From S2P Require Import Conformance.

(** ** Fixtures are about histories *)

(** A history of events, with the next entity, is a kernel. *)
Abbreviation History := (list Event * N)%type (only parsing).

#[local] Instance history_kernel : Kernel History := {
  kernel_new := ([], 1%N);
  kernel_entity h := (EntityId_new h.2, (h.1, u64_add h.2 1));
  kernel_define h s f := Some (length h.1, (h.1 ++ [EvDefine s f], h.2));
  kernel_forget h s := Some (length h.1, (h.1 ++ [EvForget s], h.2));
  kernel_resolve h s := Some (spec_resolve h.1 s);
  kernel_definitions h s := Some (spec_definitions h.1 s);
  kernel_history h s := Some (spec_history h.1 s);
  kernel_active_slot_count h := usize_of (spec_active_count h.1);
  kernel_record_count h := length h.1;
  kernel_query h ps o := Some (spec_query (active_entries h.1) ps o);
  kernel_validate _ := Ok tt;
}.

#[local] Instance history_kernel_laws : KernelLaws History.
Proof.
  unshelve refine {| k_rep h evs n := h = (evs, n) |}; try (by intros; subst).
  - intros d evs n s f ->. by eexists.
  - intros d evs n s ->. by eexists.
Defined.

Lemma bare_history_rep (h : History) : k_rep h h.1 h.2.
Proof. by destruct h. Qed.

(** Two outcomes of which one simulates the other. *)
Definition agrees {E A B} (R : A → B → Prop) (x : outcome E A) (y : outcome E B) : Prop :=
  match x, y with
  | Ok a, Ok b => R a b
  | Err e, Err e' => e = e'
  | Panic, Panic => True
  | _, _ => False
  end.

Lemma agrees_bind {E A B A' B'} (R : A → B → Prop) (S : A' → B' → Prop) (x : outcome E A) (y : outcome E B) f g :
  agrees R x y → (∀ a b, R a b → agrees S (f a) (g b)) → agrees S (outcome_bind x f) (outcome_bind y g).
Proof. destruct x, y; cbn; naive_solver. Qed.

Lemma agrees_refl {E A} (x : outcome E A) : agrees eq x x.
Proof. by destruct x. Qed.

(** The same computation of a value before two that agree. *)
Lemma agrees_after {E A B C} (R : B → C → Prop) (x : outcome E A) f g :
  (∀ a, agrees R (f a) (g a)) → agrees R (outcome_bind x f) (outcome_bind x g).
Proof. intros Hfg. by destruct x; cbn. Qed.

Section history.
Context {D : Type} `{KernelLaws D}.

(** The execution on a kernel stands where the one on histories does. *)
Record follows (x : Execution D) (y : Execution History) : Prop := {
  fo_rep : k_rep (ex_db x) (ex_db y).1 (ex_db y).2;
  fo_compiled : ex_compiled x = ex_compiled y;
  fo_assertions : ex_assertions x = ex_assertions y;
}.

Lemma follows_define x y s f : follows x y →
  agrees (λ r r', follows (with_db r.2 x) (with_db r'.2 y))
    (or_panic (E := FixtureError) (kernel_define (ex_db x) s f)) (or_panic (kernel_define (ex_db y) s f)).
Proof.
  intros [Hr Hc Ha]. destruct (k_rep_define _ _ _ s f Hr) as (d' & -> & Hd'). by split.
Qed.

Lemma follows_forget x y s : follows x y →
  agrees (λ r r', follows (with_db r.2 x) (with_db r'.2 y))
    (or_panic (E := FixtureError) (kernel_forget (ex_db x) s)) (or_panic (kernel_forget (ex_db y) s)).
Proof.
  intros [Hr Hc Ha]. destruct (k_rep_forget _ _ _ s Hr) as (d' & -> & Hd'). by split.
Qed.

Lemma follows_compile_term x y ns t : follows x y → compile_term (ex_db x) ns t = compile_term (ex_db y) ns t.
Proof.
  intros [Hr _ _]. destruct t as [a|v|s]; [done..|]. unfold compile_term.
  by rewrite (resolve_symbol_spec _ _ _ ns s Hr), (resolve_symbol_spec (ex_db y) _ _ ns s (bare_history_rep _)).
Qed.

Lemma follows_display_name x y e : follows x y → display_name (ex_db x) e = display_name (ex_db y) e.
Proof. intros [Hr _ _]. unfold display_name. by rewrite (k_rep_resolve _ _ _ _ Hr). Qed.

Lemma follows_assert {A} `{EqDecision A} context name (saw : A → Observed) expected actual x y : follows x y →
  agrees follows (assert_eq context name saw expected actual x) (assert_eq context name saw expected actual y).
Proof.
  intros [Hr Hc Ha]. unfold assert_eq. case_decide; [done|]. split; [done|done|]. cbn. by rewrite Ha.
Qed.

(** One step on the kernel is the step on histories. *)
Lemma step_follows context entities step x y : follows x y →
  agrees follows (execute_step context entities step x) (execute_step context entities step y).
Proof.
  intros Hf. pose proof (fo_rep _ _ Hf) as Hr.
  destruct step as [slot fact|name ps ds ip ms ex|name slot fact|name slot facts|slot|name slot kinds|entity value
    |ns sym entity|alias ns s p o|name entity ex]; cbn [execute_step].
  - apply agrees_after. intros f. eapply agrees_bind; [by apply follows_define|]. by intros.
  - unfold execute_query. rewrite (fo_compiled _ _ Hf). apply agrees_after. intros patterns.
    rewrite (k_rep_query _ _ _ _ _ Hr). apply agrees_after. intros r. apply agrees_after. intros _. apply agrees_after.
    intros _. destruct Hf as [_ Hc Ha]. split; cbn; [done|done|by rewrite Ha].
  - apply agrees_after. intros f. rewrite (k_rep_resolve _ _ _ _ Hr). apply agrees_after. intros a.
    by apply follows_assert.
  - apply agrees_after. intros f. rewrite (k_rep_definitions _ _ _ _ Hr). apply agrees_after. intros a.
    by apply follows_assert.
  - eapply agrees_bind; [by apply follows_forget|]. by intros.
  - rewrite (k_rep_history _ _ _ _ Hr). apply agrees_after. intros a. by apply follows_assert.
  - apply agrees_after. intros e. eapply agrees_bind; [by apply follows_define|]. by intros.
  - apply agrees_after. intros e. eapply agrees_bind; [by apply follows_define|]. by intros.
  - apply agrees_after. intros st. apply agrees_after. intros ot. unfold compile_pattern.
    rewrite (follows_compile_term _ _ _ _ Hf), (follows_compile_term _ _ _ ot Hf). apply agrees_after. intros pattern.
    destruct Hf as [_ Hc Ha]. split; cbn; [done|by rewrite Hc|done].
  - apply agrees_after. intros e. rewrite (follows_display_name _ _ e Hf). apply agrees_after. intros a.
    by apply follows_assert.
Qed.

Lemma steps_follow case entities steps : ∀ index x y, follows x y →
  agrees follows (execute_steps case index entities steps x) (execute_steps case index entities steps y).
Proof.
  induction steps as [|step steps IH]; intros index x y Hf; [done|]. cbn [execute_steps].
  eapply agrees_bind; [by apply step_follows|]. intros a b Hab. by apply IH.
Qed.

Lemma mint_follows names : ∀ entities (d : D) (h : History), k_rep d h.1 h.2 →
  (mint_entities names entities d).1 = (mint_entities names entities h).1 ∧
  k_rep (mint_entities names entities d).2 (mint_entities names entities h).2.1 (mint_entities names entities h).2.2.
Proof.
  induction names as [|name names IH]; intros entities d h Hr; [done|]. cbn [mint_entities].
  destruct (k_rep_entity _ _ _ Hr) as [He Hr']. destruct (kernel_entity d) as [e d'] eqn:E. cbn [fst snd] in He, Hr'.
  rewrite He. cbn [kernel_entity history_kernel]. by apply IH.
Qed.

Lemma case_follows c : execute_case (D := D) c = execute_case (D := History) c.
Proof.
  unfold execute_case.
  pose proof (mint_follows (case_entities c) ∅ kernel_new kernel_new k_rep_new) as [He Hr].
  destruct (mint_entities (case_entities c) ∅ (kernel_new : D)) as [entities d].
  destruct (mint_entities (case_entities c) ∅ (kernel_new : History)) as [entities' h]. cbn [fst snd] in He, Hr. subst.
  pose proof (steps_follow (case_name c) entities' (case_steps c) 0 (Execution_mk d ∅ 0) (Execution_mk h ∅ 0)) as Hs.
  specialize (Hs ltac:(by split)).
  destruct (execute_steps _ _ _ _ (Execution_mk d ∅ 0)) as [x|e|], (execute_steps _ _ _ _ (Execution_mk h ∅ 0)) as [y|e'|];
    cbn [agrees] in Hs; try done; [|by subst].
  destruct Hs as [Hr' _ Ha]. cbn [outcome_bind]. by rewrite (k_rep_validate _ _ _ Hr'), Ha.
Qed.
End history.

Lemma fixture_follows (D : Type) `{KernelLaws D} (f : KernelFixture) :
  execute_fixture D f = execute_fixture History f.
Proof.
  unfold execute_fixture. f_equal.
  generalize (@nil CaseReport, 0). induction (fixture_cases f) as [|c cs IH]; intros r; [done|].
  cbn [outcome_fold]. rewrite (case_follows c). destruct (execute_case (D := History) c) as [n|e|]; cbn [outcome_bind]; [|done..].
  apply IH.
Qed.

(** ** What a case says *)

(** The events, and the compiled patterns, after a step and what it asserts. *)
Abbreviation Said := (list Event * gmap string Pattern)%type (only parsing).

(** A term to compile, as the symbols of the history resolve. *)
Definition compiled_as (evs : list Event) (namespace : string) (t : SourceTerm) : option Term :=
  match t with
  | SAtom a => Some (TAtom a)
  | SVariable v => Some (TVariable v)
  | SSymbol s =>
      f ← spec_resolve evs (symbol_slot namespace s);
      match fact_object f with AEntity e => Some (TAtom (AEntity e)) | ALiteral _ => None end
  end.

Definition displayed_as (evs : list Event) (e : EntityId) : string :=
  match fact_object <$> spec_resolve evs (display_slot e) with
  | Some (ALiteral l) => literal_str l
  | _ => EntityId_display e
  end.

(** The answer to a query has these rows, in any order, and these metrics. *)
Record answers (context : Context) (entities : gmap string EntityId) (r : QueryResult) (expect : QueryExpectation) :
    Prop := {
  an_rows : ∃ rows, try_map (expected_row context entities) (qe_rows expect) = Ok rows ∧
    (actual_row <$> result_rows r) ≡ₚ rows;
  an_metrics k n : qe_metrics expect !! k = Some n →
    (k = "candidate_facts"%string ∧ n = candidate_facts (result_metrics r)) ∨
    (k = "bindings_emitted"%string ∧ n = bindings_emitted (result_metrics r));
}.

Definition pattern_of (context : Context) (entities : gmap string EntityId) (ps : gmap string Pattern)
    (p : PatternSourceSpec) : outcome FixtureError Pattern :=
  match p with
  | Inline pattern => inline_materialize pattern entities
  | Compiled alias => ok_or (ps !! alias) (Validation (UnavailablePattern context alias))
  end.

Inductive says (context : Context) (entities : gmap string EntityId) : Step → Said → Said → Prop :=
| says_define slot fact f evs ps : fact_materialize fact entities = Ok f →
    says context entities (StepDefine slot fact) (evs, ps) (evs ++ [EvDefine (SlotId_new slot) f], ps)
| says_forget slot evs ps :
    says context entities (StepForget slot) (evs, ps) (evs ++ [EvForget (SlotId_new slot)], ps)
| says_resolve name slot fact f evs ps : fact_materialize fact entities = Ok f →
    spec_resolve evs (SlotId_new slot) = Some f →
    says context entities (StepResolve name slot fact) (evs, ps) (evs, ps)
| says_definitions name slot facts fs evs ps : try_map (λ f, fact_materialize f entities) facts = Ok fs →
    spec_definitions evs (SlotId_new slot) = fs →
    says context entities (StepDefinitions name slot facts) (evs, ps) (evs, ps)
| says_history name slot kinds evs ps :
    (λ r, RecordKind_as_str (rec_kind r)) <$> spec_history evs (SlotId_new slot) = kinds →
    says context entities (StepHistoryKinds name slot kinds) (evs, ps) (evs, ps)
| says_display_name entity value e evs ps : entities !! entity = Some e →
    says context entities (StepDisplayName entity value) (evs, ps)
      (evs ++ [EvDefine (display_slot e) (Fact_new (AEntity e) display_name_predicate (ALiteral (Literal_new value)))], ps)
| says_displayed name entity expect e evs ps : entities !! entity = Some e → displayed_as evs e = expect →
    says context entities (StepDisplayNameValue name entity expect) (evs, ps) (evs, ps)
| says_bind namespace symbol entity e evs ps : entities !! entity = Some e →
    says context entities (StepBindSymbol namespace symbol entity) (evs, ps)
      (evs ++ [EvDefine (symbol_slot namespace (Symbol_new symbol))
         (Fact_new (ALiteral (Literal_new (namespace +:+ ":" +:+ symbol))) resolves_to_predicate (AEntity e))], ps)
| says_compile alias namespace subject predicate object s o st ot evs ps :
    source_term subject entities context = Ok s → source_term object entities context = Ok o →
    compiled_as evs namespace s = Some st → compiled_as evs namespace o = Some ot →
    says context entities (StepCompile alias namespace subject predicate object) (evs, ps)
      (evs, <[alias := Pattern_new st (PPredicate (Predicate_new predicate)) ot]> ps)
| says_query name patterns distinct provenance metrics expect qs evs ps :
    try_map (pattern_of context entities ps) patterns = Ok qs →
    answers context entities (spec_query (active_entries evs) qs
      (QueryOptions_mk true (default true distinct) (default false provenance) None)) expect →
    says context entities (StepQuery name patterns distinct provenance metrics expect) (evs, ps) (evs, ps).

(** The steps of a case, numbered from [index], one after the other. *)
Inductive says_all (case : string) (entities : gmap string EntityId) : nat → list Step → Said → Said → Prop :=
| says_nil index x : says_all case entities index [] x x
| says_cons index step steps x y z : says (Context_mk case (index + 1)) entities step x y →
    says_all case entities (S index) steps y z → says_all case entities index (step :: steps) x z.

(** A case holds: its labels are the first entities, in order. *)
Definition case_holds (c : KernelCase) : Prop :=
  ∃ final, says_all (case_name c) (mint_entities (case_entities c) ∅ (kernel_new : History)).1 0 (case_steps c)
    ([], ∅) final.

Lemma ok_or_ok {E A} (o : option A) (e : E) a : ok_or o e = Ok a ↔ o = Some a.
Proof. destruct o; naive_solver. Qed.

Lemma map_err_ok {E F A} (f : E → F) (m : outcome E A) a : map_err f m = Ok a ↔ m = Ok a.
Proof. destruct m; naive_solver. Qed.

Lemma compare_rows_ok context name actual expected entities :
  compare_rows context name actual expected entities = Ok tt ↔
  ∃ rows, try_map (expected_row context entities) expected = Ok rows ∧ (actual_row <$> actual) ≡ₚ rows.
Proof.
  unfold compare_rows. destruct (try_map _ expected) as [rows|e|]; cbn [outcome_bind]; [|naive_solver..]. split.
  - case_decide as Hd; [done|]. intros _. exists rows. split; [done|].
    rewrite <- (ord_sort_Permutation (actual_row <$> actual)), Hd. apply ord_sort_Permutation.
  - intros (rows' & [= <-] & Hp). rewrite decide_False; [done|]. intros Hne. apply Hne. by apply ord_sort_unique.
Qed.

Lemma compare_metric_ok context name metrics e : compare_metric context name metrics e = Ok tt ↔
  (e.1 = "candidate_facts"%string ∧ e.2 = candidate_facts metrics) ∨
  (e.1 = "bindings_emitted"%string ∧ e.2 = bindings_emitted metrics).
Proof.
  destruct e as [k n]. unfold compare_metric. cbn [fst snd].
  repeat (case_decide; cbn [outcome_bind]); subst; naive_solver.
Qed.

Lemma for_each_ok_iff {A} (f : A → outcome FixtureError unit) l : for_each f l = Ok tt ↔ Forall (λ x, f x = Ok tt) l.
Proof.
  unfold for_each. assert (∀ u, outcome_fold (λ _ x, f x) l u = Ok tt ↔ Forall (λ x, f x = Ok tt) l) as Hl; [|apply Hl].
  induction l as [|x l IH]; intros []; cbn [outcome_fold]; [by split|]. rewrite Forall_cons, outcome_bind_ok.
  setoid_rewrite IH. split; [intros ([] & ? & ?)|intros []]; naive_solver.
Qed.

Lemma elem_of_map_entries {V} (m : gmap string V) k v : (k, v) ∈ map_entries m ↔ m !! k = Some v.
Proof.
  unfold map_entries, map_keys. rewrite list_elem_of_omap. split.
  - intros (k' & _ & Hk). destruct (m !! k') eqn:E; naive_solver.
  - intros Hk. exists k. rewrite Hk. split; [|done]. rewrite elem_of_ord_sort, elem_of_elements. by apply elem_of_dom_2 in Hk.
Qed.

Lemma execute_query_ok context entities name patterns distinct provenance expect evs next ps n x :
  execute_query context entities name patterns distinct provenance expect (Execution_mk (D := History) (evs, next) ps n) = Ok x ↔
  (∃ qs, try_map (pattern_of context entities ps) patterns = Ok qs ∧
     answers context entities (spec_query (active_entries evs) qs
       (QueryOptions_mk true (default true distinct) (default false provenance) None)) expect) ∧
  x = Execution_mk (evs, next) ps (n + (1 + size (qe_metrics expect))).
Proof.
  unfold execute_query. change (try_map _ patterns) with (try_map (pattern_of context entities ps) patterns).
  destruct (try_map _ patterns) as [qs|e|]; cbn [outcome_bind]; [|naive_solver..].
  cbn [or_panic kernel_query history_kernel outcome_bind fst ex_db]. split.
  - intros ([] & Hr%compare_rows_ok & ([] & Hm%for_each_ok_iff & [= <-])%outcome_bind_ok)%outcome_bind_ok. split; [|done]. exists qs. split; [done|].
    split; [exact Hr|]. intros k v Hk%elem_of_map_entries. rewrite Forall_forall in Hm. specialize (Hm _ Hk).
    by apply compare_metric_ok in Hm.
  - intros [(qs' & [= <-] & [Hr Hm]) ->]. apply outcome_bind_ok. exists tt. split; [by apply compare_rows_ok|].
    apply outcome_bind_ok. exists tt. split; [|done].
    apply for_each_ok_iff, Forall_forall. intros [k v] Hk%elem_of_map_entries. apply compare_metric_ok. by apply Hm.
Qed.

(** What a step adds to the count of assertions. *)
Definition step_assertions (s : Step) : nat :=
  match s with
  | StepResolve _ _ _ | StepDefinitions _ _ _ | StepHistoryKinds _ _ _ | StepDisplayNameValue _ _ _ => 1
  | StepQuery _ _ _ _ _ expect => 1 + size (qe_metrics expect)
  | _ => 0
  end.
Definition case_assertions (c : KernelCase) : nat := sum_list_with step_assertions (case_steps c).

Lemma compiled_as_spec (h : History) ns t :
  (λ r, Ok (E := string) r) <$> compiled_as h.1 ns t =
  match compile_term h ns t with Ok r => Some (Ok r) | _ => None end.
Proof.
  destruct t as [a|v|s]; [done..|]. cbn [compiled_as compile_term].
  rewrite (resolve_symbol_spec _ _ _ ns s (bare_history_rep h)). destruct (spec_resolve _ _) as [f|]; [|done].
  by destruct f as [? ? [e|l]].
Qed.

Lemma compile_term_says (h : History) ns t r : compile_term h ns t = Ok r ↔ compiled_as h.1 ns t = Some r.
Proof.
  pose proof (compiled_as_spec h ns t) as E.
  destruct (compile_term h ns t), (compiled_as h.1 ns t); naive_solver.
Qed.

Lemma display_name_says (h : History) e : display_name h e = Some (displayed_as h.1 e).
Proof.
  unfold display_name, displayed_as. rewrite (k_rep_resolve _ _ _ _ (bare_history_rep h)). cbn.
  destruct (spec_resolve _ _) as [f|]; [|done]. by destruct f as [? ? [e'|l]].
Qed.

Lemma assert_eq_ok {A} `{EqDecision A} context name (saw : A → Observed) expected actual (x y : Execution History) :
  assert_eq context name saw expected actual x = Ok y ↔ actual = expected ∧ y = passed 1 x.
Proof. unfold assert_eq. case_decide; naive_solver. Qed.

Ltac destruct_units := repeat match goal with u : unit |- _ => destruct u end.

(** Running a step whose outcome is known, and reading what it says. *)
Ltac run_step :=
  intros Hx; inv_outcome; unfold executor_entity in *;
  repeat match goal with
  | E : ok_or _ _ = Ok _ |- _ => apply ok_or_ok in E
  | E : map_err _ _ = Ok _ |- _ => apply map_err_ok in E
  | E : or_panic (display_name _ _) = Ok _ |- _ => rewrite display_name_says in E
  | E : assert_eq _ _ _ _ _ _ = Ok _ |- _ => apply assert_eq_ok in E as [? ->]
  end; simplify_eq/=; eexists _, _; (split; [|reflexivity]).
Ltac read_step :=
  intros (evs' & ps' & Hs & ->); inversion Hs; subst; unfold executor_entity;
  repeat match goal with
  | E : ?x = Ok _ |- context [outcome_bind ?x _] => rewrite E
  | E : _ !! _ = Some _ |- _ => rewrite E
  end; cbn [ok_or outcome_bind].

(** A step runs on a history exactly when what it says holds. *)
Lemma step_says context entities step evs next ps n x :
  execute_step context entities step (Execution_mk (D := History) (evs, next) ps n) = Ok x ↔
  ∃ evs' ps', says context entities step (evs, ps) (evs', ps') ∧
    x = Execution_mk (evs', next) ps' (n + step_assertions step).
Proof.
  destruct step as [slot fact|name qs ds ip ms ex|name slot fact|name slot facts|slot|name slot kinds|entity value
    |ns sym entity|alias ns s p o|name entity ex]; cbn [execute_step step_assertions]; rewrite ?Nat.add_0_r.
  - split; [run_step; by constructor|by read_step].
  - rewrite execute_query_ok. split.
    + intros [(qs' & E & Ha) ->]. eexists _, _. split; [by econstructor|done].
    + intros (evs' & ps' & Hs & ->). inversion Hs; subst. split; [by eexists|done].
  - split; [run_step; by econstructor|read_step; by apply assert_eq_ok].
  - split; [run_step; by econstructor|read_step; by apply assert_eq_ok].
  - split; [run_step; by constructor|by read_step].
  - split; [run_step; by constructor|read_step; by apply assert_eq_ok].
  - split; [run_step; by constructor|by read_step].
  - split; [run_step; by constructor|by read_step].
  - split.
    + run_step. unfold compile_pattern in *. inv_outcome. simplify_eq.
      repeat match goal with E : compile_term _ _ _ = Ok _ |- _ => apply compile_term_says in E end. by econstructor.
    + read_step. unfold compile_pattern. cbn [ex_db ex_compiled ex_assertions].
      repeat match goal with E : compiled_as _ _ _ = Some _ |- _ => apply (compile_term_says (evs', next)) in E; rewrite E; clear E end.
      done.
  - split; [run_step; by econstructor|read_step; rewrite display_name_says; by apply assert_eq_ok].
Qed.

Lemma steps_say case entities steps : ∀ index evs next ps n x,
  execute_steps case index entities steps (Execution_mk (D := History) (evs, next) ps n) = Ok x ↔
  ∃ evs' ps', says_all case entities index steps (evs, ps) (evs', ps') ∧
    x = Execution_mk (evs', next) ps' (n + sum_list_with step_assertions steps).
Proof.
  induction steps as [|step steps IH]; intros index evs next ps n x; cbn [execute_steps sum_list_with].
  { rewrite Nat.add_0_r. split; [intros [= <-]; eexists _, _; by split; [constructor|]|].
    intros (evs' & ps' & Hs & ->). by inversion Hs. }
  rewrite outcome_bind_ok. split.
  - intros (y & (evs1 & ps1 & Hs & ->)%step_says & (evs2 & ps2 & Hss & ->)%IH). exists evs2, ps2.
    split; [by econstructor|by rewrite Nat.add_assoc].
  - intros (evs2 & ps2 & Hs & ->). inversion Hs as [|? ? ? ? [evs1 ps1] ? Hs1 Hs2]; subst.
    eexists. split; [apply step_says; by eexists _, _|]. apply IH. eexists _, _. by rewrite Nat.add_assoc.
Qed.

Lemma case_says c n : execute_case (D := History) c = Ok n ↔ case_holds c ∧ n = case_assertions c.
Proof.
  unfold execute_case, case_holds, case_assertions.
  assert (∃ next, (mint_entities (case_entities c) ∅ (kernel_new : History)).2 = ([], next)) as [next E].
  { cbn [kernel_new history_kernel]. generalize (∅ : gmap string EntityId), 1%N.
    induction (case_entities c) as [|name names IH]; intros entities k; cbn; [by eexists|]. apply IH. }
  destruct (mint_entities (case_entities c) ∅ (kernel_new : History)) as [entities h]. cbn [fst snd] in *. subst h.
  rewrite outcome_bind_ok. split.
  - intros (x & (evs & ps & Hs & ->)%steps_say & E). injection E as <-. split; [by eexists|done].
  - intros [[[evs ps] Hs] ->]. eexists. split; [apply steps_say; by eexists _, _|done].
Qed.

Lemma cases_say cs : ∀ r : list CaseReport * nat,
  (∃ r', outcome_fold (λ r c,
     let* assertions := execute_case (D := History) c in
     Ok (r.1 ++ [CaseReport_mk (case_name c) assertions "passed"], r.2 + assertions)) cs r = Ok (E := FixtureError) r') ↔
  Forall case_holds cs.
Proof.
  induction cs as [|c cs IH]; intros r; cbn [outcome_fold]; [split; [done|by eexists]|]. rewrite Forall_cons. split.
  - intros (r' & (r1 & (n & [Hc _]%case_says & _)%outcome_bind_ok & Hr)%outcome_bind_ok). split; [done|].
    eapply IH. by eexists.
  - intros [Hc Hcs]. assert (execute_case (D := History) c = Ok (case_assertions c)) as -> by by apply case_says.
    cbn [outcome_bind]. by apply IH.
Qed.

Lemma fixture_says f : (∃ report, execute_fixture History f = Ok report) ↔ Forall case_holds (fixture_cases f).
Proof.
  unfold execute_fixture. rewrite <- (cases_say (fixture_cases f) ([], 0)). split.
  - intros (report & (r & E & _)%outcome_bind_ok). by eexists.
  - intros [r ->]. by eexists.
Qed.

(** C4: A fi A fixture judges the history it describes.  On every kernel that keeps the
    kernel interface it passes exactly when each of its cases holds of the bare
    history of events that its definitions, forgets, names and symbols make: what
    resolves, the stacks of definitions, the history of a slot, the display names
    and the compiled patterns are what the steps say, and each query has the rows
    they say, in any order, and the metrics.  When it fails, it fails with the same
    first message on every such kernel. *)
Theorem fixtures_judge_history (D D' : Type) `{KernelLaws D, KernelLaws D'} (f : KernelFixture) :
  ((∃ report, execute_fixture D f = Ok report) ↔ Forall case_holds (fixture_cases f)) ∧
  execute_fixture D f = execute_fixture D' f.
Proof. rewrite (fixture_follows D), (fixture_follows D'). split; [apply fixture_says|done]. Qed.

(** ** What validation rules out *)

(** A failure that is about what the kernel answered, not about the fixture. *)
Definition asserted (m : FixtureMessage) : Prop :=
  match m with Mismatch _ _ _ _ | CompileFailed _ _ | UnsupportedMetric _ _ => True | _ => False end.

(** A computation that returns as [R] says, or fails at an assertion. *)
Definition runs {A} (R : A → Prop) (o : outcome FixtureError A) : Prop :=
  match o with
  | Ok a => R a
  | Err (Validation m) => asserted m
  | _ => False
  end.

Lemma runs_bind {A B} (R : A → Prop) (S : B → Prop) (x : outcome FixtureError A) f :
  runs R x → (∀ a, R a → runs S (f a)) → runs S (outcome_bind x f).
Proof. destruct x; cbn; naive_solver. Qed.

Lemma runs_try_map {A B} (f : A → outcome FixtureError B) l :
  Forall (λ x, runs (λ _, True) (f x)) l → runs (λ _, True) (try_map f l).
Proof.
  induction 1 as [|x l Hx _ IH]; [done|]. cbn [try_map]. eapply runs_bind; [done|]. intros y _.
  by eapply runs_bind.
Qed.

Lemma runs_for_each {A} (f : A → outcome FixtureError unit) l :
  (∀ x, runs (λ _, True) (f x)) → runs (λ _, True) (for_each f l).
Proof.
  intros Hf. unfold for_each. generalize tt. induction l as [|x l IH]; intros []; [done|].
  cbn [outcome_fold]. eapply runs_bind; [apply Hf|]. by intros [] _.
Qed.

Lemma for_each_ok {A} (f : A → outcome FixtureError unit) l : for_each f l = Ok tt → Forall (λ x, f x = Ok tt) l.
Proof.
  unfold for_each. generalize tt at 1. induction l as [|x l IH]; intros u Hl; [done|].
  cbn [outcome_fold] in Hl. destruct (f x) as [[]|e|] eqn:E; [|done..]. constructor; [done|by eapply IH].
Qed.

(** Mapping what a loop has validated. *)
Lemma try_map_validated {A B} (f : A → outcome FixtureError B) (check : A → outcome FixtureError unit) l :
  for_each check l = Ok tt → (∀ x, check x = Ok tt → runs (λ _, True) (f x)) → runs (λ _, True) (try_map f l).
Proof. intros Hl Hf. apply runs_try_map. eapply Forall_impl; [by apply for_each_ok|]. cbn. done. Qed.

Lemma require_entity_ok e entities context : require_entity e entities context = Ok tt → e ∈ entities.
Proof. unfold require_entity, require_nonempty. case_decide; [done|]. cbn. by case_decide. Qed.

Section valid.
Context {D : Type} `{KernelLaws D}.

(** Every declared label has its identifier. *)
Definition declares (declared : gset string) (entities : gmap string EntityId) : Prop := declared ⊆ dom entities.

Lemma declared_lookup declared entities e : declares declared entities → e ∈ declared → is_Some (entities !! e).
Proof. intros Hd He. apply elem_of_dom. by apply Hd. Qed.

Lemma atom_runs a declared entities context : declares declared entities →
  atom_validate a declared context = Ok tt → runs (λ _, True) (atom_materialize a entities).
Proof.
  intros Hd. destruct a as [e|l]; cbn; [|done]. intros He%require_entity_ok.
  by destruct (declared_lookup _ _ _ Hd He) as [i ->].
Qed.

Lemma fact_runs f declared entities context : declares declared entities →
  fact_validate f declared context = Ok tt → runs (λ _, True) (fact_materialize f entities).
Proof.
  intros Hd Hv. unfold fact_validate in Hv. inv_outcome. destruct_units. unfold fact_materialize.
  eapply runs_bind; [by eapply atom_runs|]. intros s _. eapply runs_bind; [by eapply atom_runs|]. done.
Qed.

Lemma term_runs t declared entities context : declares declared entities →
  term_validate t declared false context = Ok tt → runs (λ _, True) (term_materialize t entities).
Proof.
  intros Hd. destruct t as [e|l|v|s]; cbn; [|done| |done].
  - intros He%require_entity_ok. by destruct (declared_lookup _ _ _ Hd He) as [i ->].
  - by destruct (QVariable_new v).
Qed.

Lemma source_term_runs t declared entities context : declares declared entities →
  term_validate t declared true context = Ok tt → runs (λ _, True) (source_term t entities context).
Proof.
  intros Hd. destruct t as [e|l|v|s]; cbn; [|done| |done].
  - intros He%require_entity_ok. unfold executor_entity. by destruct (declared_lookup _ _ _ Hd He) as [i ->].
  - by destruct (QVariable_new v).
Qed.

Lemma entity_runs e declared entities context : declares declared entities →
  require_entity e declared context = Ok tt → runs (λ _, True) (executor_entity e entities context).
Proof. intros Hd He%require_entity_ok. unfold executor_entity. by destruct (declared_lookup _ _ _ Hd He) as [i ->]. Qed.

Lemma value_runs v declared entities context : declares declared entities →
  value_validate v declared context = Ok tt → runs (λ _, True) (expected_value v entities context).
Proof.
  intros Hd. destruct v as [e|l|p]; cbn; [|done|done]. intros He.
  eapply runs_bind; [by eapply entity_runs|done].
Qed.

Lemma row_runs row declared entities context : declares declared entities →
  row_validate declared context row = Ok tt → runs (λ _, True) (expected_row context entities row).
Proof.
  intros Hd Hv. unfold row_validate in Hv. inv_outcome. destruct_units. unfold expected_row.
  eapply runs_bind; [|done]. eapply try_map_validated; [done|]. cbn.
  intros [name v] Hx. inv_outcome. destruct_units. eapply runs_bind; [by eapply value_runs|done].
Qed.

(** An execution whose kernel keeps its laws and which has compiled what the
    validation has seen compiled. *)
Record sound (compiled : gset string) (n : nat) (x : Execution D) : Prop := {
  so_rep : ∃ evs next, k_rep (ex_db x) evs next;
  so_compiled : dom (ex_compiled x) = compiled;
  so_assertions : ex_assertions x = n;
}.

Lemma assert_runs {A} `{EqDecision A} context name (saw : A → Observed) expected actual compiled n x :
  sound compiled n x → runs (sound compiled (n + 1)) (assert_eq context name saw expected actual x).
Proof.
  intros [Hr Hc Ha]. unfold assert_eq. case_decide; [done|]. split; cbn; [done|done|by rewrite Ha].
Qed.

Lemma define_runs s f compiled n (x : Execution D) : sound compiled n x →
  runs (λ r, sound compiled n (with_db r.2 x)) (or_panic (kernel_define (ex_db x) s f)).
Proof.
  intros [(evs & next & Hr) Hc Ha]. destruct (k_rep_define _ _ _ s f Hr) as (d' & -> & Hd').
  split; cbn; [by eexists _, _|done|done].
Qed.

Lemma forget_runs s compiled n (x : Execution D) : sound compiled n x →
  runs (λ r, sound compiled n (with_db r.2 x)) (or_panic (kernel_forget (ex_db x) s)).
Proof.
  intros [(evs & next & Hr) Hc Ha]. destruct (k_rep_forget _ _ _ s Hr) as (d' & -> & Hd').
  split; cbn; [by eexists _, _|done|done].
Qed.

Lemma compare_rows_runs context name actual expected declared entities : declares declared entities →
  Forall (λ row, row_validate declared context row = Ok tt) expected →
  runs (λ _, True) (compare_rows context name actual expected entities).
Proof.
  intros Hd Hv. unfold compare_rows. eapply runs_bind.
  - apply runs_try_map. eapply Forall_impl; [done|]. intros row Hrow. by eapply row_runs.
  - intros rows _. by case_decide.
Qed.

Lemma compare_metric_runs context name metrics e : runs (λ _, True) (compare_metric context name metrics e).
Proof. unfold compare_metric. repeat (case_decide; cbn [outcome_bind]); done. Qed.

Lemma query_runs context declared compiled entities name ps ds ip ms ex n x : declares declared entities →
  sound compiled n x → query_validate name ps ip ms ex declared compiled context = Ok tt →
  runs (sound compiled (n + (1 + size (qe_metrics ex)))) (execute_query context entities name ps ds ip ex x).
Proof.
  intros Hd [(evs & next & Hr) Hc Ha] Hv. unfold query_validate in Hv. inv_outcome.
  destruct_units. unfold execute_query. eapply (runs_bind (λ _, True)).
  - eapply try_map_validated; [done|]. cbn. intros [alias|p] Hp; cbn in Hp; inv_outcome.
    + case_decide as Hin; [|done]. rewrite <- Hc in Hin. apply elem_of_dom in Hin as [q ->]. done.
    + unfold inline_validate in Hp. inv_outcome. destruct_units. unfold inline_materialize. eapply runs_bind; [by eapply term_runs|]. intros s _.
      eapply runs_bind; [by eapply term_runs|done].
  - intros patterns _. rewrite (k_rep_query _ _ _ _ _ Hr). cbn [or_panic outcome_bind].
    eapply (runs_bind (λ _, True)).
    + eapply compare_rows_runs; [done|]. unfold expectation_validate in *. inv_outcome. destruct_units. by apply for_each_ok.
    + intros _ _. eapply (runs_bind (λ _, True)); [apply runs_for_each; intros e; apply compare_metric_runs|].
      intros _ _. split; cbn; [by eexists _, _|done|by rewrite Ha].
Qed.

(** A validated step returns or fails at its assertion; the validation has kept
    the patterns it has compiled and counted what it asserts. *)
Lemma step_runs context declared compiled compiled' entities step n x : declares declared entities →
  sound compiled n x → step_validate step declared compiled context = Ok compiled' →
  runs (sound compiled' (n + step_assertions step)) (execute_step context entities step x).
Proof.
  intros Hd Hx Hv. pose proof (so_rep _ _ _ Hx) as (evs & next & Hr).
  destruct step as [slot fact|name ps ds ip ms ex|name slot fact|name slot facts|slot|name slot kinds|entity value
    |ns sym entity|alias ns s p o|name entity ex]; cbn [step_validate] in Hv; inv_outcome; destruct_units;
    cbn [execute_step step_assertions]; rewrite ?Nat.add_0_r;
    repeat match goal with E : Ok _ = Ok _ |- _ => injection E as <- end.
  - eapply (runs_bind (λ _, True)); [by eapply fact_runs|]. intros f _. eapply runs_bind; [by apply define_runs|done].
  - by eapply query_runs.
  - eapply (runs_bind (λ _, True)); [by eapply fact_runs|]. intros f _. rewrite (k_rep_resolve _ _ _ _ Hr).
    cbn [or_panic outcome_bind]. by apply assert_runs.
  - eapply (runs_bind (λ _, True)).
    { eapply try_map_validated; [done|]. cbn. intros f Hf. by eapply fact_runs. }
    intros f _. rewrite (k_rep_definitions _ _ _ _ Hr). cbn [or_panic outcome_bind]. by apply assert_runs.
  - eapply runs_bind; [by apply forget_runs|done].
  - rewrite (k_rep_history _ _ _ _ Hr). cbn [or_panic outcome_bind]. by apply assert_runs.
  - eapply (runs_bind (λ _, True)); [by eapply entity_runs|]. intros e _. eapply runs_bind; [by apply define_runs|done].
  - eapply (runs_bind (λ _, True)); [by eapply entity_runs|]. intros e _. eapply runs_bind; [by apply define_runs|done].
  - case_decide; [done|]. simplify_eq. eapply (runs_bind (λ _, True)); [by eapply source_term_runs|]. intros st _.
    eapply (runs_bind (λ _, True)); [by eapply source_term_runs|]. intros ot _. unfold compile_pattern.
    destruct Hx as [_ Hc Ha].
    assert (∀ t : SourceTerm, compile_term (ex_db x) ns t ≠ Panic) as Hok.
    { intros t. pose proof (compile_term_ok _ _ _ ns t Hr) as Ht. destruct t as [a|v|sym]; [done|done|].
      by destruct Ht as [(e & _ & ->)|[_ ->]]. }
    pose proof (Hok st). pose proof (Hok ot).
    destruct (compile_term (ex_db x) ns st); cbn; [|done..]. destruct (compile_term (ex_db x) ns ot); cbn; [|done..].
    split; cbn; [by eexists _, _|by rewrite dom_insert_L, Hc|done].
  - eapply (runs_bind (λ _, True)); [by eapply entity_runs|]. intros e _. unfold display_name.
    rewrite (k_rep_resolve _ _ _ _ Hr). cbn [or_panic outcome_bind]. by apply assert_runs.
Qed.

Lemma steps_run case declared entities steps : ∀ index compiled n x, declares declared entities →
  sound compiled n x → steps_validate case index steps declared compiled = Ok tt →
  runs (λ x, ∃ compiled', sound compiled' (n + sum_list_with step_assertions steps) x)
    (execute_steps case index entities steps x).
Proof.
  induction steps as [|step steps IH]; intros index compiled n x Hd Hx Hv; cbn [steps_validate execute_steps] in *.
  { exists compiled. cbn. by rewrite Nat.add_0_r. }
  inv_outcome. eapply runs_bind; [by eapply step_runs|]. intros x1 Hx1. cbn [sum_list_with].
  rewrite Nat.add_assoc. by eapply IH.
Qed.

Lemma entities_validate_ok case names declared : entities_validate case names = Ok declared →
  declared = list_to_set names.
Proof.
  unfold entities_validate. assert (declared = list_to_set names ∪ ∅ ↔ declared = list_to_set names) as <-.
  { by rewrite (right_id_L ∅ (∪)). }
  generalize (∅ : gset string). induction names as [|name names IH]; intros seen; cbn [outcome_fold list_to_set].
  { intros [= <-]. by rewrite (left_id_L ∅ (∪)). }
  unfold require_nonempty. case_decide; [done|]. cbn [outcome_bind]. case_decide; [done|]. cbn [outcome_bind].
  intros ->%IH. set_solver.
Qed.

Lemma mint_declares names : ∀ (entities : gmap string EntityId) (d : D) evs next, k_rep d evs next →
  dom (mint_entities names entities d).1 = list_to_set names ∪ dom entities ∧
  ∃ next', k_rep (mint_entities names entities d).2 evs next'.
Proof.
  induction names as [|name names IH]; intros entities d evs next Hr; cbn [mint_entities].
  { split; [set_solver|by eexists]. }
  destruct (k_rep_entity _ _ _ Hr) as [_ Hr']. destruct (kernel_entity d) as [e d'].
  destruct (IH (<[name:=e]> entities) d' evs _ Hr') as [-> Hk]. split; [|done]. rewrite dom_insert_L. set_solver.
Qed.

Lemma case_runs c : case_validate c = Ok tt → runs (λ n, n = case_assertions c) (execute_case (D := D) c).
Proof.
  unfold case_validate, execute_case. case_decide; [done|]. intros Hv. inv_outcome.
  destruct (mint_declares (case_entities c) ∅ (kernel_new : D) [] 1 k_rep_new) as [Hdom [next Hr]].
  destruct (mint_entities _ _ _) as [entities d]. cbn [fst snd] in *.
  eapply runs_bind.
  - eapply (steps_run (case_name c) _ entities (case_steps c) 0 ∅ 0 (Execution_mk d ∅ 0)); [|by split; [by eexists _, _|..]|done].
    unfold declares. rewrite Hdom. match goal with E : entities_validate _ _ = Ok _ |- _ => rewrite (entities_validate_ok _ _ _ E) end.
    set_solver.
  - intros x1 [compiled [(evs & next' & Hr') _ Ha]]. by rewrite (k_rep_validate _ _ _ Hr').
Qed.

(** What a report has to say of a fixture that passes. *)
Definition report_of (f : KernelFixture) : ExecutionReport :=
  ExecutionReport_mk "rust" "in-memory-semantic-kernel" 1 (case_count f) (step_count f)
    (sum_list_with case_assertions (fixture_cases f))
    ((λ c, CaseReport_mk (case_name c) (case_assertions c) "passed") <$> fixture_cases f) "passed".

Lemma cases_run cs : ∀ names names' reports n,
  outcome_fold (λ (names : gset string) c,
      let* _ := require_nonempty (case_name c) (Plain "case name") in
      if decide (case_name c ∈ names) then Err (Validation (DuplicateCase (case_name c)))
      else let* _ := case_validate c in Ok ({[case_name c]} ∪ names)) cs names = Ok names' →
  runs (λ r, r = (reports ++ ((λ c, CaseReport_mk (case_name c) (case_assertions c) "passed") <$> cs),
                  n + sum_list_with case_assertions cs))
    (outcome_fold (λ r c,
       let* assertions := execute_case (D := D) c in
       Ok (r.1 ++ [CaseReport_mk (case_name c) assertions "passed"], r.2 + assertions)) cs (reports, n)).
Proof.
  induction cs as [|c cs IH]; intros names names' reports n Hv; cbn [outcome_fold] in *.
  { cbn. by rewrite app_nil_r, Nat.add_0_r. }
  inv_outcome. case_decide; [done|]. inv_outcome. destruct_units. eapply runs_bind.
  { eapply runs_bind; [by apply case_runs|]. intros k ->. exact (eq_refl (_, _)). }
  intros r <-. cbn [fst snd fmap list_fmap sum_list_with]. rewrite Nat.add_assoc, cons_middle, (assoc_L (++)). by eapply IH.
Qed.
End valid.

(** C28: A fixture that passes validation runs.  On every kernel that keeps the
    interface, its execution never panics and never misses an entity, a variable,
    a symbol or a compiled pattern: it fails only where an assertion does not
    hold, a symbol to compile is unbound, or a metric is not one of the two the
    executor knows.  When it passes, the report counts every assertion of every
    case. *)
Theorem valid_fixture_runs (D : Type) `{KernelLaws D} (f : KernelFixture) :
  fixture_validate f = Ok tt → runs (λ report, report = report_of f) (execute_fixture D f).
Proof.
  unfold fixture_validate, execute_fixture. case_decide as Hs; [done|]. case_decide; [done|]. intros Hv. inv_outcome.
  eapply runs_bind; [by eapply (cases_run (D := D) _ _ _ [] 0)|]. intros r ->. cbn [fst snd app runs].
  unfold report_of. f_equal. by destruct (decide (schema_version f = 1%N)).
Qed.

(** The kernel cases of conformance/v1. *)
Definition v1_kernel_cases : KernelFixture := KernelFixture_mk 1 [
  KernelCase_mk "current-head-history-and-join" ["work"; "copy_1"; "copy_2"; "shelf_a"; "shelf_b"] [
     StepDefine "work/copy/1" (FactSpec_mk (AtomEntity "work") "has_copy" (AtomEntity "copy_1"));
     StepDefine "work/copy/2" (FactSpec_mk (AtomEntity "work") "has_copy" (AtomEntity "copy_2"));
     StepDefine "copy/1/location" (FactSpec_mk (AtomEntity "copy_1") "located_at" (AtomEntity "shelf_a"));
     StepDefine "copy/2/location" (FactSpec_mk (AtomEntity "copy_2") "located_at" (AtomEntity "shelf_b"));
     StepQuery "two-hop join"
       [Inline (InlinePatternSpec_mk (TermEntity "work") "has_copy" (TermVariable "copy")); Inline
         (InlinePatternSpec_mk (TermVariable "copy") "located_at" (TermVariable "shelf"))] None None []
       (QueryExpectation_mk [ExpectedRow_mk (list_to_map [("copy", ExpectedEntity "copy_1");
         ("shelf", ExpectedEntity "shelf_a")]) []; ExpectedRow_mk (list_to_map [("copy", ExpectedEntity "copy_2");
         ("shelf", ExpectedEntity "shelf_b")]) []] (list_to_map []));
     StepDefine "copy/1/location" (FactSpec_mk (AtomEntity "copy_1") "located_at" (AtomEntity "shelf_b"));
     StepResolve "redefinition becomes current" "copy/1/location" (FactSpec_mk (AtomEntity "copy_1") "located_at"
       (AtomEntity "shelf_b"));
     StepDefinitions "definition chain is newest first" "copy/1/location"
       [(FactSpec_mk (AtomEntity "copy_1") "located_at" (AtomEntity "shelf_b")); (FactSpec_mk
         (AtomEntity "copy_1") "located_at" (AtomEntity "shelf_a"))];
     StepForget "copy/1/location";
     StepResolve "forget reveals prior definition" "copy/1/location" (FactSpec_mk (AtomEntity "copy_1") "located_at"
       (AtomEntity "shelf_a"));
     StepHistoryKinds "history records every operation" "copy/1/location" ["define"; "define"; "forget"]];
  KernelCase_mk "compiled-symbol-identity" ["john"; "bob"; "other"] [
     StepDisplayName "john" "John";
     StepDisplayName "bob" "Bob";
     StepDisplayName "other" "Other Bob";
     StepBindSymbol "global" "John" "john";
     StepBindSymbol "global" "Bob" "bob";
     StepDefine "relationship/john-bob" (FactSpec_mk (AtomEntity "john") "friend" (AtomEntity "bob"));
     StepCompile "old" "global" (TermSymbol "John") "friend" (TermSymbol "Bob");
     StepDisplayName "bob" "Robert";
     StepBindSymbol "global" "Bob" "other";
     StepQuery "old compiled pattern keeps stable identity"
       [Compiled "old"] None None []
       (QueryExpectation_mk [ExpectedRow_mk (list_to_map []) []] (list_to_map []));
     StepCompile "new" "global" (TermSymbol "John") "friend" (TermSymbol "Bob");
     StepQuery "new compilation sees symbol rebinding"
       [Compiled "new"] None None []
       (QueryExpectation_mk [] (list_to_map []));
     StepDisplayNameValue "display name is independent of identity" "bob" "Robert"];
  KernelCase_mk "duplicate-provenance" ["work"; "copy"] [
     StepDefine "assertion/a" (FactSpec_mk (AtomEntity "work") "has_copy" (AtomEntity "copy"));
     StepDefine "assertion/b" (FactSpec_mk (AtomEntity "work") "has_copy" (AtomEntity "copy"));
     StepQuery "distinct bindings collapse duplicate assertions"
       [Inline (InlinePatternSpec_mk (TermEntity "work") "has_copy" (TermVariable "copy"))] None None []
       (QueryExpectation_mk [ExpectedRow_mk (list_to_map [("copy", ExpectedEntity "copy")]) []] (list_to_map []));
     StepQuery "provenance preserves duplicate assertions"
       [Inline (InlinePatternSpec_mk (TermEntity "work") "has_copy" (TermVariable "copy"))] (Some false)
         (Some true) []
       (QueryExpectation_mk [ExpectedRow_mk (list_to_map [("copy", ExpectedEntity "copy")]) ["assertion/a"];
         ExpectedRow_mk (list_to_map [("copy", ExpectedEntity "copy")]) ["assertion/b"]] (list_to_map []))];
  KernelCase_mk "literal-current-index" [] [
     StepDefine "deep/state" (FactSpec_mk (AtomLiteral "deep") "state" (AtomLiteral "v0"));
     StepDefine "deep/state" (FactSpec_mk (AtomLiteral "deep") "state" (AtomLiteral "v1"));
     StepDefine "deep/state" (FactSpec_mk (AtomLiteral "deep") "state" (AtomLiteral "v2"));
     StepQuery "query examines only the active head"
       [Inline (InlinePatternSpec_mk (TermLiteral "deep") "state"
         (TermVariable "value"))] None None ["candidate_facts"]
       (QueryExpectation_mk [ExpectedRow_mk (list_to_map [("value", ExpectedLiteral "v2")]) []]
         (list_to_map [("candidate_facts", 1%N)]));
     StepDefinitions "history remains reachable" "deep/state"
       [(FactSpec_mk (AtomLiteral "deep") "state" (AtomLiteral "v2")); (FactSpec_mk (AtomLiteral "deep") "state"
         (AtomLiteral "v1")); (FactSpec_mk (AtomLiteral "deep") "state" (AtomLiteral "v0"))]]]%string.

Lemma valid_fixture_runs_witness :
  fixture_validate v1_kernel_cases = Ok tt ∧
  runs (λ report, report = report_of v1_kernel_cases) (execute_fixture LegacyDb.ForthDb v1_kernel_cases).
Proof.
  assert (fixture_validate v1_kernel_cases = Ok tt) as Hv by (vm_compute; reflexivity).
  split; [exact Hv|]. exact (valid_fixture_runs LegacyDb.ForthDb v1_kernel_cases Hv).
Defined.

(** They pass: four cases of 33 steps and 13 assertions, on both kernels. *)
Example kernels_conform :
  execute_fixture LegacyDb.ForthDb v1_kernel_cases = Ok (report_of v1_kernel_cases) ∧
  execute_fixture (SharedDb.ForthDb UniqueMap UniqueSet) v1_kernel_cases = Ok (report_of v1_kernel_cases) ∧
  rp_cases (report_of v1_kernel_cases) = 4 ∧ rp_steps (report_of v1_kernel_cases) = 33 ∧
  rp_assertions (report_of v1_kernel_cases) = 13.
Proof.
  assert (execute_fixture LegacyDb.ForthDb v1_kernel_cases = Ok (report_of v1_kernel_cases)) as E
    by (vm_compute; reflexivity).
  split_and!; [exact E| |vm_compute; reflexivity..].
  rewrite (fixture_follows (SharedDb.ForthDb UniqueMap UniqueSet)), <- (fixture_follows LegacyDb.ForthDb). exact E.
Qed.
