(* ===== verification/Frames.v ===== *)
(** Operations, commit frames and world identity
    (forthdb-world/src/lib.rs, lines 15-112 and 1183-1308): the data that
    worlds exchange with stores, the application of an operation to a kernel
    with its allocator checks, and the FNV-1a identity of a world. *)
From Stdlib Require Import NArith Lia.
From Stdlib Require Import Strings.Byte.
From stdpp Require Import base gmap list strings option list_monad.
From S2P Require Import Prelude Ord Terms Bytes Query QueryFacts Spec Index Kernel.

Record WorldId := WorldId_new { world_value : N }.

#[export] Instance WorldId_eq_dec : EqDecision WorldId.
Proof. solve_decision. Defined.

Definition GENESIS : WorldId := WorldId_new FNV_OFFSET_BASIS.

Inductive Operation :=
| AllocateEntity (entity : EntityId)
| OpDefine (slot : SlotId) (fact : Fact)
| OpForget (slot : SlotId).

#[export] Instance Operation_eq_dec : EqDecision Operation.
Proof. solve_decision. Defined.

Record CommitFrame := CommitFrame_mk {
  parent_world : WorldId;
  resulting_world : WorldId;
  parent_version : N;
  resulting_version : N;
  resulting_allocator : N;
  frame_operations : list Operation;
}.

#[export] Instance CommitFrame_eq_dec : EqDecision CommitFrame.
Proof. solve_decision. Defined.

Inductive CandidateError :=
| HistoryParentMismatch (expected actual : WorldId)
| HistoryVersionMismatch (expected actual : N)
| AllocatorOperationMismatch (expected actual : N)
| AllocatorStateMismatch (expected actual : N)
| WorldIdentityMismatch (expected actual : WorldId)
| BaseWorldMismatch (expected actual : WorldId)
| KernelInvariant (message : string).

(** ** The stable hasher *)

Definition hash_byte (h : N) (b : N) : N := fnv_step h (byte_of_N b).
Definition hash_u64 (h : N) (n : N) : N := fnv_write h (u64_bytes n).
Definition hash_string (h : N) (s : string) : N :=
  fnv_write (hash_u64 h (usize_of (length (string_bytes s)))) (string_bytes s).

Definition hash_atom (h : N) (a : Atom) : N :=
  match a with
  | AEntity e => hash_u64 (hash_byte h 0) (entity_value e)
  | ALiteral l => hash_string (hash_byte h 1) (literal_str l)
  end.

Definition hash_fact (h : N) (f : Fact) : N :=
  hash_atom (hash_string (hash_atom h (fact_subject f)) (predicate_str (fact_predicate f)))
    (fact_object f).

Definition hash_operation (h : N) (op : Operation) : N :=
  match op with
  | AllocateEntity e => hash_u64 (hash_byte h 0) (entity_value e)
  | OpDefine s f => hash_fact (hash_string (hash_byte h 1) (slot_str s)) f
  | OpForget s => hash_string (hash_byte h 2) (slot_str s)
  end.

Definition calculate_world_id (parent : WorldId) (version allocator : N) (ops : list Operation) :
    WorldId :=
  let h := hash_u64 FNV_OFFSET_BASIS (world_value parent) in
  let h := hash_u64 h version in
  let h := hash_u64 h allocator in
  let h := hash_u64 h (usize_of (length ops)) in
  WorldId_new (foldl hash_operation h ops).

(** ** Applying operations to a kernel *)

Section apply.
Context {D : Type} `{Kernel D}.

Definition apply_operation (st : D * N) (op : Operation) : outcome CandidateError (D * N) :=
  let '(kernel, next_entity) := st in
  match op with
  | AllocateEntity entity =>
      if decide (entity_value entity ≠ next_entity)
      then Err (AllocatorOperationMismatch next_entity (entity_value entity))
      else
        let '(actual, kernel) := kernel_entity kernel in
        if decide (actual ≠ entity)
        then Err (AllocatorOperationMismatch (entity_value entity) (entity_value actual))
        else Ok (kernel, u64_add next_entity 1)
  | OpDefine slot fact =>
      let* r := or_panic (kernel_define kernel slot fact) in Ok (r.2, next_entity)
  | OpForget slot =>
      let* r := or_panic (kernel_forget kernel slot) in Ok (r.2, next_entity)
  end.

(** [for operation in operations { apply_operation(..)?; }]. *)
Definition apply_operations (kernel : D) (next_entity : N) (ops : list Operation) :
    outcome CandidateError (D * N) :=
  outcome_fold apply_operation ops (kernel, next_entity).
End apply.

(** ** Specification *)

Definition operation_event (op : Operation) : option Event :=
  match op with
  | AllocateEntity _ => None
  | OpDefine s f => Some (EvDefine s f)
  | OpForget s => Some (EvForget s)
  end.

Definition events_of (ops : list Operation) : list Event := omap operation_event ops.

(** The allocator after the operations, or the mismatch that stops them. *)
Fixpoint allocate (n : N) (ops : list Operation) : outcome CandidateError N :=
  match ops with
  | [] => Ok n
  | AllocateEntity e :: ops =>
      if decide (entity_value e ≠ n) then Err (AllocatorOperationMismatch n (entity_value e))
      else allocate (u64_add n 1) ops
  | _ :: ops => allocate n ops
  end.

Definition frame_events (fs : list CommitFrame) : list Event :=
  events_of (f ← fs; frame_operations f).

Lemma events_of_app ops1 ops2 : events_of (ops1 ++ ops2) = events_of ops1 ++ events_of ops2.
Proof. apply omap_app. Qed.

Lemma frame_events_snoc fs f :
  frame_events (fs ++ [f]) = frame_events fs ++ events_of (frame_operations f).
Proof. unfold frame_events. rewrite bind_app, events_of_app. simpl. by rewrite app_nil_r. Qed.

Lemma allocate_app n ops1 ops2 :
  allocate n (ops1 ++ ops2) = let* n' := allocate n ops1 in allocate n' ops2.
Proof.
  revert n. induction ops1 as [|[e|s f|s] ops1 IH]; intros n; simpl; [done| |apply IH..].
  case_decide; [done|apply IH].
Qed.

Lemma allocate_not_panic n ops : allocate n ops ≠ Panic.
Proof.
  revert n. induction ops as [|[e|s f|s] ops IH]; intros n; simpl; [done| |apply IH..].
  case_decide; [done|apply IH].
Qed.

Section spec.
Context {D : Type} `{KernelLaws D}.

Lemma apply_operations_spec (k : D) evs n ops :
  k_rep k evs n →
  match allocate n ops with
  | Ok n' => ∃ k', apply_operations k n ops = Ok (k', n') ∧ k_rep k' (evs ++ events_of ops) n'
  | Err e => apply_operations k n ops = Err e
  | Panic => False
  end.
Proof.
  unfold apply_operations, events_of. revert k evs n.
  induction ops as [|op ops IH]; intros k evs n Hk.
  { simpl. exists k. by rewrite app_nil_r. }
  cbn [outcome_fold allocate]. destruct op as [e|s f|s]; cbn [apply_operation].
  - case_decide as He; [done|].
    destruct (k_rep_entity _ _ _ Hk) as [H1 H2]. destruct (kernel_entity k) as [a k'].
    simpl in H1, H2. subst a. rewrite decide_False.
    + cbn [outcome_bind]. specialize (IH k' evs (u64_add n 1) H2). exact IH.
    + intros Hne. apply Hne. destruct e as [v]. simpl in *. f_equal.
      destruct (decide (v = n)); [done|]. by exfalso.
  - destruct (k_rep_define _ _ _ s f Hk) as (k' & -> & Hk'). cbn.
    specialize (IH k' _ n Hk'). by rewrite <- (assoc_L (++)) in IH.
  - destruct (k_rep_forget _ _ _ s Hk) as (k' & -> & Hk'). cbn.
    specialize (IH k' _ n Hk'). by rewrite <- (assoc_L (++)) in IH.
Qed.

Lemma apply_operations_ok (k : D) evs n ops n' :
  k_rep k evs n → allocate n ops = Ok n' →
  ∃ k', apply_operations k n ops = Ok (k', n') ∧ k_rep k' (evs ++ events_of ops) n'.
Proof. intros Hk Ha. pose proof (apply_operations_spec k evs n ops Hk) as Hs. by rewrite Ha in Hs. Qed.
End spec.

(** ** What the identity covers *)

(** The bytes the hasher absorbs. *)
Definition atom_field (a : Atom) : list u8 :=
  match a with
  | AEntity e => x00 :: u64_bytes (entity_value e)
  | ALiteral l => x01 :: string_field (literal_str l)
  end.

Definition fact_field (f : Fact) : list u8 :=
  atom_field (fact_subject f) ++ string_field (predicate_str (fact_predicate f)) ++
  atom_field (fact_object f).

Definition operation_field (op : Operation) : list u8 :=
  match op with
  | AllocateEntity e => x00 :: u64_bytes (entity_value e)
  | OpDefine s f => x01 :: string_field (slot_str s) ++ fact_field f
  | OpForget s => x02 :: string_field (slot_str s)
  end.

Definition identity_bytes (parent : WorldId) (version allocator : N) (ops : list Operation) :
    list u8 :=
  u64_bytes (world_value parent) ++ u64_bytes version ++ u64_bytes allocator ++
  u64_bytes (usize_of (length ops)) ++ (op ← ops; operation_field op).

Lemma hash_string_field h s : hash_string h s = fnv_write h (string_field s).
Proof. unfold hash_string, string_field, hash_u64. by rewrite fnv_write_app. Qed.

Lemma fnv_write_cons h b bs : fnv_write h (b :: bs) = fnv_write (fnv_step h b) bs.
Proof. done. Qed.

Lemma hash_atom_field h a : hash_atom h a = fnv_write h (atom_field a).
Proof. destruct a; unfold atom_field; rewrite fnv_write_cons; [done|apply hash_string_field]. Qed.

Lemma hash_fact_field h f : hash_fact h f = fnv_write h (fact_field f).
Proof.
  unfold hash_fact, fact_field.
  by rewrite !hash_atom_field, hash_string_field, !fnv_write_app.
Qed.

Lemma hash_operation_field h op : hash_operation h op = fnv_write h (operation_field op).
Proof.
  destruct op; unfold operation_field; rewrite fnv_write_cons; [done| |apply hash_string_field].
  rewrite fnv_write_app. cbn [hash_operation]. rewrite hash_fact_field, hash_string_field. done.
Qed.

Lemma world_id_bytes parent version allocator ops :
  calculate_world_id parent version allocator ops =
  WorldId_new (fnv_write FNV_OFFSET_BASIS (identity_bytes parent version allocator ops)).
Proof.
  unfold calculate_world_id, identity_bytes, hash_u64. rewrite !fnv_write_app. f_equal.
  generalize (fnv_write (fnv_write (fnv_write (fnv_write FNV_OFFSET_BASIS
    (u64_bytes (world_value parent))) (u64_bytes version)) (u64_bytes allocator))
    (u64_bytes (usize_of (length ops)))). intros h.
  revert h. induction ops as [|op ops IH]; intros h; csimpl; [done|].
  by rewrite IH, hash_operation_field, fnv_write_app.
Qed.

Lemma calculate_world_id_ok parent version allocator ops :
  u64_ok (world_value (calculate_world_id parent version allocator ops)).
Proof. rewrite world_id_bytes. cbn [world_value]. apply fnv_write_ok. reflexivity. Qed.

Definition atom_fits (a : Atom) : Prop :=
  match a with AEntity e => u64_ok (entity_value e) | ALiteral l => string_fits (literal_str l) end.
Definition fact_fits (f : Fact) : Prop :=
  atom_fits (fact_subject f) ∧ string_fits (predicate_str (fact_predicate f)) ∧
  atom_fits (fact_object f).
Definition operation_fits (op : Operation) : Prop :=
  match op with
  | AllocateEntity e => u64_ok (entity_value e)
  | OpDefine s f => string_fits (slot_str s) ∧ fact_fits f
  | OpForget s => string_fits (slot_str s)
  end.

Lemma cons_app_inj {A} (x y : A) l1 l2 r1 r2 :
  (x :: l1) ++ r1 = (y :: l2) ++ r2 → x = y ∧ l1 ++ r1 = l2 ++ r2.
Proof. by intros [= -> ->]. Qed.

Lemma atom_prefix_inj : prefix_inj atom_fits atom_field.
Proof.
  intros [[e1]|[l1]] [[e2]|[l2]] r1 r2 H1 H2 Heq; simpl in H1, H2;
    apply cons_app_inj in Heq as [? Heq]; try done.
  - apply u64_prefix_inj in Heq as [Hv ->]; [|done..]. simpl in Hv. by subst.
  - apply string_prefix_inj in Heq as [Hs ->]; [|done..]. simpl in Hs. by subst.
Qed.

Lemma fact_prefix_inj : prefix_inj fact_fits fact_field.
Proof.
  intros [s1 [p1] o1] [s2 [p2] o2] r1 r2 (H1 & H2 & H3) (H4 & H5 & H6) Heq.
  unfold fact_field in Heq. cbn [fact_subject fact_predicate fact_object predicate_str] in *. rewrite <- !(assoc_L (++)) in Heq.
  apply atom_prefix_inj in Heq as [-> Heq]; [|done..].
  apply string_prefix_inj in Heq as [-> Heq]; [|done..].
  by apply atom_prefix_inj in Heq as [-> ->].
Qed.

Lemma operation_prefix_inj : prefix_inj operation_fits operation_field.
Proof.
  intros [[e1]|[s1] f1|[s1]] [[e2]|[s2] f2|[s2]] r1 r2 H1 H2 Heq; simpl in H1, H2;
    apply cons_app_inj in Heq as [? Heq]; try done.
  - apply u64_prefix_inj in Heq as [Hv ->]; [|done..]. simpl in Hv. by subst.
  - destruct H1 as [H1 Hf1], H2 as [H2 Hf2]. rewrite <- !(assoc_L (++)) in Heq.
    apply string_prefix_inj in Heq as [Hs Heq]; [|done..]. simpl in Hs. subst s2.
    by apply fact_prefix_inj in Heq as [-> ->].
  - apply string_prefix_inj in Heq as [Hs ->]; [|done..]. simpl in Hs. by subst.
Qed.

#[global] Arguments fact_field : simpl never.

(** The identity of a world covers everything it is computed from: the
    hashed byte string determines the parent, the version, the allocator and
    every operation, so two different commits share an identity only if FNV-1a
    collides on different byte strings. *)
Theorem identity_covers_commit p1 v1 a1 ops1 p2 v2 a2 ops2 :
  u64_ok (world_value p1) → u64_ok v1 → u64_ok a1 → Forall operation_fits ops1 →
  u64_ok (N.of_nat (length ops1)) →
  u64_ok (world_value p2) → u64_ok v2 → u64_ok a2 → Forall operation_fits ops2 →
  u64_ok (N.of_nat (length ops2)) →
  (calculate_world_id p1 v1 a1 ops1 =
     WorldId_new (fnv_write FNV_OFFSET_BASIS (identity_bytes p1 v1 a1 ops1))) ∧
  (identity_bytes p1 v1 a1 ops1 = identity_bytes p2 v2 a2 ops2 →
   p1 = p2 ∧ v1 = v2 ∧ a1 = a2 ∧ ops1 = ops2).
Proof.
  intros Hp1 Hv1 Ha1 Ho1 Hl1 Hp2 Hv2 Ha2 Ho2 Hl2. split; [apply world_id_bytes|].
  unfold identity_bytes. intros Heq.
  apply u64_prefix_inj in Heq as [Hp Heq]; [|done..].
  apply u64_prefix_inj in Heq as [Hv Heq]; [|done..].
  apply u64_prefix_inj in Heq as [Ha Heq]; [|done..].
  apply u64_prefix_inj in Heq as [Hl Heq]; [|apply u64_wrap_ok..].
  unfold usize_of in Hl. rewrite !u64_wrap_small in Hl by done. apply Nat2N.inj in Hl.
  rewrite <- (app_nil_r (op ← ops1; operation_field op)),
    <- (app_nil_r (op ← ops2; operation_field op)) in Heq.
  apply (list_prefix_inj operation_fits) in Heq as [-> _]; [|apply operation_prefix_inj|done..].
  destruct p1, p2. simpl in Hp. by subst.
Qed.

Definition sample_operations : list Operation :=
  [AllocateEntity (EntityId_new 1);
   OpDefine (SlotId_new "s") (Fact_new (AEntity (EntityId_new 1)) (Predicate_new "p")
     (ALiteral (Literal_new "x")));
   OpForget (SlotId_new "s")].

Lemma identity_covers_commit_witness :
  (calculate_world_id GENESIS 1 2 sample_operations =
     WorldId_new (fnv_write FNV_OFFSET_BASIS (identity_bytes GENESIS 1 2 sample_operations))) ∧
  (identity_bytes GENESIS 1 2 sample_operations = identity_bytes GENESIS 1 2 sample_operations →
   GENESIS = GENESIS ∧ 1%N = 1%N ∧ 2%N = 2%N ∧ sample_operations = sample_operations).
Proof.
  apply (identity_covers_commit GENESIS 1 2 sample_operations GENESIS 1 2 sample_operations);
    try reflexivity; repeat constructor; reflexivity.
Defined.
