(* ===== verification/VmProjection.v ===== *)
(** The native query projection of VM-backed worlds
    (forthdb-world/src/lib.rs, lines 163-478): definition stacks, the active
    facts in record order and seven indexes of positions, built from the
    commit frames in one pass.  A projection may instead wrap a mapped
    snapshot, an implementation of [MappedRoot]. *)
From Stdlib Require Import NArith Lia.
From stdpp Require Import sorting base gmap list strings fin_maps option list_monad.
From S2P Require Import Prelude Ord Terms Bytes Query QueryFacts Spec Index Kernel Frames.

(** What worlds use of a memory-mapped snapshot (mmap_vm_snapshot.rs). *)
Class MappedRoot (P : Type) := {
  mr_frames : P → list CommitFrame;
  mr_resolve : P → SlotId → option Fact;
  mr_definitions : P → SlotId → list Fact;
  mr_query : P → list Pattern → QueryOptions → option QueryResult;
  mr_world_id : P → WorldId;
  mr_world_version : P → N;
  mr_next_entity : P → N;
  mr_operation_count : P → nat;
  mr_active_slot_count : P → N;
  mr_record_count : P → nat;
}.

Record ProjectedFact := ProjectedFact_mk {
  pf_record_id : nat;
  pf_slot : SlotId;
  pf_fact : Fact;
}.

Section projection.
Context {P : Type} `{MappedRoot P}.

Record VmQueryProjection := VmQueryProjection_mk {
  vq_mapped : option P;
  vq_definitions : gmap SlotId (list ProjectedFact);
  vq_active : list ProjectedFact;
  vq_subject : gmap Atom (list nat);
  vq_predicate : gmap Predicate (list nat);
  vq_object : gmap Atom (list nat);
  vq_subject_predicate : gmap (Atom * Predicate) (list nat);
  vq_subject_object : gmap (Atom * Atom) (list nat);
  vq_predicate_object : gmap (Predicate * Atom) (list nat);
  vq_exact : gmap Fact (list nat);
}.

Definition projection_from_mmap (snapshot : P) : VmQueryProjection :=
  VmQueryProjection_mk (Some snapshot) ∅ [] ∅ ∅ ∅ ∅ ∅ ∅ ∅.

(** One operation of the first loop of [from_frames]. *)
Definition project_operation (st : gmap SlotId (list ProjectedFact) * nat) (op : Operation) :
    gmap SlotId (list ProjectedFact) * nat :=
  let '(definitions, record_id) := st in
  match op with
  | AllocateEntity _ => (definitions, record_id)
  | OpDefine slot fact =>
      (<[slot := default [] (definitions !! slot) ++ [ProjectedFact_mk record_id slot fact]]>
         definitions, S record_id)
  | OpForget slot =>
      (match definitions !! slot with
       | Some stack =>
           let stack := take (length stack - 1) stack in
           match stack with [] => delete slot definitions | _ => <[slot := stack]> definitions end
       | None => definitions
       end, S record_id)
  end.

Definition push_index {K} `{Countable K} (m : gmap K (list nat)) (k : K) (i : nat) :
    gmap K (list nat) :=
  <[k := default [] (m !! k) ++ [i]]> m.

(** The body of [for index in 0..projection.active.len()]. *)
Definition index_active (vq : VmQueryProjection) (index : nat) (fact : Fact) : VmQueryProjection :=
  let s := fact_subject fact in
  let p := fact_predicate fact in
  let o := fact_object fact in
  VmQueryProjection_mk (vq_mapped vq) (vq_definitions vq) (vq_active vq)
    (push_index (vq_subject vq) s index)
    (push_index (vq_predicate vq) p index)
    (push_index (vq_object vq) o index)
    (push_index (vq_subject_predicate vq) (s, p) index)
    (push_index (vq_subject_object vq) (s, o) index)
    (push_index (vq_predicate_object vq) (p, o) index)
    (push_index (vq_exact vq) fact index).

Fixpoint index_all (vq : VmQueryProjection) (index : nat) (entries : list ProjectedFact) :
    VmQueryProjection :=
  match entries with
  | [] => vq
  | e :: entries => index_all (index_active vq index (pf_fact e)) (S index) entries
  end.

Definition record_id_le (x y : ProjectedFact) : Prop := pf_record_id x ≤ pf_record_id y.

#[export] Instance record_id_le_dec : RelDecision record_id_le.
Proof. intros x y. unfold record_id_le. apply _. Defined.

Definition projection_from_frames (frames : list CommitFrame) : VmQueryProjection :=
  let '(definitions, _) :=
    foldl (λ st frame, foldl project_operation st (frame_operations frame)) (∅, 0) frames in
  let active := merge_sort record_id_le
    (omap (λ kv : SlotId * list ProjectedFact, last kv.2) (map_to_list definitions)) in
  index_all (VmQueryProjection_mk None definitions active ∅ ∅ ∅ ∅ ∅ ∅ ∅) 0 active.

Definition projection_resolve (vq : VmQueryProjection) (s : SlotId) : option Fact :=
  match vq_mapped vq with
  | Some mapped => mr_resolve mapped s
  | None => stack ← vq_definitions vq !! s; e ← last stack; Some (pf_fact e)
  end.

Definition projection_definitions (vq : VmQueryProjection) (s : SlotId) : list Fact :=
  match vq_mapped vq with
  | Some mapped => mr_definitions mapped s
  | None => pf_fact <$> reverse (default [] (vq_definitions vq !! s))
  end.

Definition projection_candidates (vq : VmQueryProjection) (p : Pattern) (b : Binding) : list nat :=
  let subject := resolved_atom (pat_subject p) b in
  let predicate := resolved_predicate (pat_predicate p) b in
  let object := resolved_atom (pat_object p) b in
  match subject, predicate, object with
  | Some s, Some p, Some o => default [] (vq_exact vq !! Fact_new s p o)
  | Some s, Some p, None => default [] (vq_subject_predicate vq !! (s, p))
  | Some s, None, Some o => default [] (vq_subject_object vq !! (s, o))
  | None, Some p, Some o => default [] (vq_predicate_object vq !! (p, o))
  | Some s, None, None => default [] (vq_subject vq !! s)
  | None, Some p, None => default [] (vq_predicate vq !! p)
  | None, None, Some o => default [] (vq_object vq !! o)
  | None, None, None => seq 0 (length (vq_active vq))
  end.

(** [&self.active[index]]. *)
Definition projection_entry (vq : VmQueryProjection) (i : nat) : option (SlotId * Fact) :=
  e ← vq_active vq !! i; Some (pf_slot e, pf_fact e).

Definition projection_query (vq : VmQueryProjection) (ps : list Pattern) (o : QueryOptions) :
    option QueryResult :=
  match vq_mapped vq with
  | Some mapped => mr_query mapped ps o
  | None => query (λ p b, Some (projection_candidates vq p b)) (projection_entry vq) ps o
  end.
End projection.
Arguments VmQueryProjection : clear implicits.

(** ** Definition stacks *)

Definition pf_top (e : ProjectedFact) : nat * Fact := (pf_record_id e, pf_fact e).

Record definitions_rep (m : gmap SlotId (list ProjectedFact)) (evs : list Event) : Prop := {
  dr_nonempty s : m !! s ≠ Some [];
  dr_slots s l e : m !! s = Some l → e ∈ l → pf_slot e = s;
  dr_stack s : pf_top <$> reverse (default [] (m !! s)) = stack evs s;
}.

Lemma removelast_take {A} (l : list A) (x : A) : take (length (l ++ [x]) - 1) (l ++ [x]) = l.
Proof. rewrite length_app. simpl. rewrite Nat.add_sub. by rewrite take_app_length. Qed.

Lemma project_operation_rep m evs op :
  definitions_rep m evs →
  definitions_rep (project_operation (m, length evs) op).1 (evs ++ events_of [op]) ∧
  (project_operation (m, length evs) op).2 = length (evs ++ events_of [op]).
Proof.
  intros [Hne Hsl Hst]. destruct op as [e|s f|s]; simpl; unfold events_of; simpl.
  - rewrite app_nil_r. done.
  - split; [|rewrite length_app; simpl; lia]. split.
    + intros s'. destruct (decide (s' = s)) as [->|]; [rewrite lookup_insert_eq|by rewrite lookup_insert_ne].
      intros [=]. by destruct (default [] (m !! s)).
    + intros s' l e. destruct (decide (s' = s)) as [->|Hs].
      * rewrite lookup_insert_eq. intros [= <-] [He|He%list_elem_of_singleton]%elem_of_app; [|by subst].
        destruct (m !! s) as [l|] eqn:Hm; simpl in He; [by eapply Hsl|by apply elem_of_nil in He].
      * rewrite lookup_insert_ne by done. apply Hsl.
    + intros s'. rewrite stack_snoc. simpl. destruct (decide (s' = s)) as [->|Hs].
      * rewrite lookup_insert_eq. simpl. by rewrite reverse_snoc, fmap_cons, Hst.
      * by rewrite lookup_insert_ne by done.
  - split; [|rewrite length_app; simpl; lia].
    assert (∀ s', s' ≠ s → stack (evs ++ [EvForget s]) s' = stack evs s') as Hother.
    { intros s' Hs'. by rewrite stack_snoc, decide_False. }
    assert (stack (evs ++ [EvForget s]) s = tail (stack evs s)) as Hself.
    { by rewrite stack_snoc, decide_True. }
    destruct (m !! s) as [l|] eqn:Hm.
    + assert (∃ l' x, l = l' ++ [x]) as (l' & x & ->).
      { destruct l as [|x l _] using rev_ind; [by destruct (Hne s)|eauto]. }
      rewrite removelast_take. pose proof (Hst s) as Hs. rewrite Hm in Hs. simpl in Hs.
      rewrite reverse_snoc, fmap_cons in Hs. rewrite <- Hs in Hself. simpl in Hself.
      assert (∀ s', default [] (match l' with [] => delete s m | _ => <[s := l']> m end !! s') =
        if decide (s' = s) then l' else default [] (m !! s')) as Hlk.
      { intros s'. case_decide as Hd; [subst s'|].
        - destruct l'; [by rewrite lookup_delete_eq|by rewrite lookup_insert_eq].
        - destruct l'; [by rewrite lookup_delete_ne|by rewrite lookup_insert_ne]. }
      split.
      * intros s'. destruct (decide (s' = s)) as [->|Hs'].
        -- destruct l'; [by rewrite lookup_delete_eq|by rewrite lookup_insert_eq].
        -- destruct l'; [rewrite lookup_delete_ne by done|rewrite lookup_insert_ne by done]; apply Hne.
      * intros s' l e Hl He. destruct (decide (s' = s)) as [->|Hs'].
        -- apply (Hsl s (l' ++ [x])); [done|]. apply elem_of_app. left.
           specialize (Hlk s). rewrite Hl, decide_True in Hlk by done. simpl in Hlk. by subst.
        -- destruct l'; [rewrite lookup_delete_ne in Hl by done|rewrite lookup_insert_ne in Hl by done];
             by eapply Hsl.
      * intros s'. rewrite Hlk. case_decide as Hd; [by subst|]. by rewrite Hother.
    + split; [done|done|]. intros s'. destruct (decide (s' = s)) as [->|Hs'].
      * rewrite Hself, <- Hst, Hm. done.
      * by rewrite Hother.
Qed.

Lemma project_operations_rep m evs ops :
  definitions_rep m evs →
  definitions_rep (foldl project_operation (m, length evs) ops).1 (evs ++ events_of ops) ∧
  (foldl project_operation (m, length evs) ops).2 = length (evs ++ events_of ops).
Proof.
  revert m evs. induction ops as [|op ops IH]; intros m evs Hm; cbn [foldl].
  { by rewrite app_nil_r. }
  rewrite (events_of_app [op] ops : events_of (op :: ops) = _).
  destruct (project_operation_rep m evs op Hm) as [H1 H2].
  destruct (project_operation (m, length evs) op) as [m' i']. simpl in *. subst i'.
  destruct (IH _ _ H1) as [H3 H4].
  by rewrite <- (assoc_L (++)) in H3, H4.
Qed.

Lemma project_frames_rep m evs fs :
  definitions_rep m evs →
  let st := foldl (λ st frame, foldl project_operation st (frame_operations frame)) (m, length evs) fs in
  definitions_rep st.1 (evs ++ frame_events fs) ∧ st.2 = length (evs ++ frame_events fs).
Proof.
  revert m evs. induction fs as [|f fs IH]; intros m evs Hm; simpl.
  { by rewrite app_nil_r. }
  destruct (project_operations_rep m evs (frame_operations f) Hm) as [H1 H2].
  destruct (foldl project_operation _ _) as [m' i']. simpl in *. subst i'.
  destruct (IH _ _ H1) as [H3 H4]. rewrite <- (assoc_L (++)) in H3, H4.
  unfold frame_events in *. csimpl. by rewrite events_of_app.
Qed.

Lemma definitions_rep_empty : definitions_rep ∅ [].
Proof.
  split; [intros s|intros s l e|intros s].
  - by rewrite lookup_empty.
  - by rewrite lookup_empty.
  - by rewrite lookup_empty.
Qed.

(** ** The active facts *)

#[export] Instance record_id_le_total : Total record_id_le.
Proof. intros x y. unfold record_id_le. lia. Qed.
#[export] Instance record_id_le_trans : Transitive record_id_le.
Proof. intros x y z. unfold record_id_le. lia. Qed.

Definition active_of (m : gmap SlotId (list ProjectedFact)) : list ProjectedFact :=
  merge_sort record_id_le (omap (λ kv : SlotId * list ProjectedFact, last kv.2) (map_to_list m)).

Lemma definitions_top m evs s :
  definitions_rep m evs → (l ← m !! s; pf_top <$> last l) = top evs s.
Proof.
  intros [Hne _ Hst]. unfold top. rewrite <- Hst.
  destruct (m !! s) as [l|]; simpl; [|done].
  rewrite <- head_reverse. by destruct (reverse l).
Qed.

Lemma elem_of_active_of m evs e :
  definitions_rep m evs →
  e ∈ active_of m ↔ top evs (pf_slot e) = Some (pf_record_id e, pf_fact e).
Proof.
  intros Hm. unfold active_of. rewrite merge_sort_Permutation, list_elem_of_omap. split.
  - intros ([s l] & Hin%elem_of_map_to_list & Hl). simpl in Hl.
    assert (pf_slot e = s) as -> by (eapply (dr_slots _ _ Hm); [done|by apply last_Some_elem_of]).
    rewrite <- (definitions_top _ _ _ Hm), Hin. simpl. by rewrite Hl.
  - intros Ht. rewrite <- (definitions_top _ _ _ Hm) in Ht.
    destruct (m !! pf_slot e) as [l|] eqn:Hl; simpl in Ht; [|done].
    destruct (last l) as [e'|] eqn:He; simpl in Ht; [|done].
    exists (pf_slot e, l). split; [by apply elem_of_map_to_list|]. simpl. rewrite He.
    assert (pf_slot e' = pf_slot e) as Hs
      by (eapply (dr_slots _ _ Hm); [done|by apply last_Some_elem_of]).
    destruct e, e'. unfold pf_top in Ht. simpl in *. naive_solver.
Qed.

Lemma NoDup_last_ids m evs :
  definitions_rep m evs →
  NoDup (pf_record_id <$> omap (λ kv : SlotId * list ProjectedFact, last kv.2) (map_to_list m)).
Proof.
  intros Hm.
  assert (∀ l : list (SlotId * list ProjectedFact), NoDup l.*1 →
    (∀ s st, (s, st) ∈ l → m !! s = Some st) →
    NoDup (pf_record_id <$> omap (λ kv : SlotId * list ProjectedFact, last kv.2) l)) as Hgen.
  { induction l as [|[s st] l IH]; intros Hnd Hin; simpl in *; [constructor|].
    apply NoDup_cons in Hnd as [Hs Hnd].
    specialize (IH Hnd (λ s' st' H', Hin s' st' (list_elem_of_further _ _ _ H'))).
    destruct (last st) as [e|] eqn:He; simpl; [|done]. constructor; [|done].
    intros (e' & Heq & ([s' st'] & Hin' & He')%list_elem_of_omap)%list_elem_of_fmap. simpl in He'.
    pose proof (Hin s st ltac:(by left)) as Hms. pose proof (Hin s' st' ltac:(by right)) as Hms'.
    pose proof (definitions_top _ _ s Hm) as Ht. pose proof (definitions_top _ _ s' Hm) as Ht'.
    rewrite Hms in Ht. rewrite Hms' in Ht'. simpl in Ht, Ht'. rewrite He in Ht. rewrite He' in Ht'.
    simpl in Ht, Ht'. unfold pf_top in Ht, Ht'. rewrite Heq in Ht.
    assert (s = s') as <- by (eapply top_slot_unique; by symmetry).
    apply Hs, list_elem_of_fmap. by exists (s, st'). }
  apply Hgen; [apply NoDup_fst_map_to_list|]. intros s st. apply elem_of_map_to_list.
Qed.

Lemma active_of_ids m evs : definitions_rep m evs → pf_record_id <$> active_of m = active_ids evs.
Proof.
  intros Hm. apply (Sorted_unique (≤)).
  - apply (Sorted_fmap pf_record_id record_id_le); [done|]. apply Sorted_merge_sort, _.
  - apply Sorted_active_ids.
  - apply NoDup_Permutation.
    + unfold active_of. rewrite merge_sort_Permutation. by eapply NoDup_last_ids.
    + apply NoDup_active_ids.
    + intros i. rewrite elem_of_active_ids, list_elem_of_fmap. split.
      * intros (e & -> & He%(elem_of_active_of _ _ _ Hm)). exists (pf_fact e). by exists (pf_slot e).
      * intros (f & s & Ht). exists (ProjectedFact_mk i s f). split; [done|].
        by apply (elem_of_active_of _ _ _ Hm).
Qed.

Definition pf_entry (e : ProjectedFact) : SlotId * Fact := (pf_slot e, pf_fact e).

Lemma active_of_entries m evs :
  definitions_rep m evs → pf_entry <$> active_of m = active_entries evs.
Proof.
  intros Hm. unfold active_entries. rewrite <- (active_of_ids _ _ Hm).
  assert (∀ e, e ∈ active_of m → event_entry evs (pf_record_id e) = Some (pf_entry e)) as He.
  { intros e Ht%(elem_of_active_of _ _ _ Hm). unfold event_entry.
    by rewrite (proj2 (top_Some _ _ _ _ Ht)). }
  induction (active_of m) as [|e l IH]; [done|]. csimpl.
  rewrite He by left. f_equal. apply IH. intros. apply He. by right.
Qed.

(** ** Positional indexes *)

(** The positions whose element satisfies a test, in order. *)
Definition positions {A} (Q : A → bool) (l : list A) : list nat :=
  filter (λ i, (Q <$> l !! i) = Some true) (seq 0 (length l)).

Lemma positions_snoc {A} (Q : A → bool) (l : list A) x :
  positions Q (l ++ [x]) = positions Q l ++ if Q x then [length l] else [].
Proof.
  unfold positions. rewrite length_app. simpl. rewrite Nat.add_1_r, seq_S, filter_app. f_equal.
  - apply filter_ext_in. intros i Hi%elem_of_seq. by rewrite lookup_app_l by lia.
  - change (0 + length l) with (length l). rewrite filter_cons.
    assert ((Q <$> (l ++ [x]) !! length l) = Some (Q x)) as HQ by (by rewrite lookup_snoc_length).
    destruct (decide (_ = Some true)) as [Ht|Ht]; rewrite HQ in Ht; destruct (Q x); done.
Qed.

Lemma mapM_positions {A B} (g : A → B) (Q : A → bool) (l : list A) :
  mapM (λ i, e ← l !! i; Some (g e)) (positions Q l) = Some (g <$> filter (λ x, Q x = true) l).
Proof.
  induction l as [|x l IH] using rev_ind; [done|].
  rewrite positions_snoc, filter_app.
  assert (mapM (λ i, e ← (l ++ [x]) !! i; Some (g e)) (positions Q l) =
    Some (g <$> filter (λ x, Q x = true) l)) as Hl.
  { rewrite <- IH. apply Forall_mapM_ext, Forall_forall.
    intros i [_ Hi%elem_of_seq]%list_elem_of_filter. by rewrite lookup_app_l by lia. }
  assert (∀ k1 k2 r1 r2, mapM (λ i, e ← (l ++ [x]) !! i; Some (g e)) k1 = Some r1 →
    mapM (λ i, e ← (l ++ [x]) !! i; Some (g e)) k2 = Some r2 →
    mapM (λ i, e ← (l ++ [x]) !! i; Some (g e)) (k1 ++ k2) = Some (r1 ++ r2)) as Happ.
  { intros k1 k2 r1 r2 H1%mapM_Some H2%mapM_Some. apply mapM_Some. by apply Forall2_app. }
  rewrite fmap_app. apply Happ; [done|]. rewrite filter_cons.
  destruct (Q x); [rewrite decide_True by done|rewrite decide_False by done].
  - csimpl. by rewrite lookup_snoc_length.
  - done.
Qed.

(** What the index of a projection of facts holds after the first entries. *)
Definition positions_ok {K} `{Countable K} (proj : Fact → K) (m : gmap K (list nat))
    (l : list ProjectedFact) : Prop :=
  ∀ k, default [] (m !! k) = positions (λ e, bool_decide (proj (pf_fact e) = k)) l.

Lemma push_index_ok {K} `{Countable K} (proj : Fact → K) m l e :
  positions_ok proj m l →
  positions_ok proj (push_index m (proj (pf_fact e)) (length l)) (l ++ [e]).
Proof.
  intros Hok k. unfold push_index. rewrite positions_snoc, lookup_insert.
  destruct (decide (proj (pf_fact e) = k)) as [<-|Hne]; simpl.
  - by rewrite bool_decide_true, Hok.
  - by rewrite bool_decide_false, app_nil_r, Hok.
Qed.

Section projection_ok.
Context {P : Type} `{MappedRoot P}.
Implicit Types (vq : VmQueryProjection P).

Record indexes_ok vq (l : list ProjectedFact) : Prop := {
  io_subject : positions_ok fact_subject (vq_subject vq) l;
  io_predicate : positions_ok fact_predicate (vq_predicate vq) l;
  io_object : positions_ok fact_object (vq_object vq) l;
  io_subject_predicate : positions_ok proj_sp (vq_subject_predicate vq) l;
  io_subject_object : positions_ok proj_so (vq_subject_object vq) l;
  io_predicate_object : positions_ok proj_po (vq_predicate_object vq) l;
  io_exact : positions_ok id (vq_exact vq) l;
}.

Lemma index_active_ok vq l e :
  indexes_ok vq l → indexes_ok (index_active vq (length l) (pf_fact e)) (l ++ [e]).
Proof.
  intros [H1 H2 H3 H4 H5 H6 H7]. split; simpl.
  - by apply (push_index_ok fact_subject).
  - by apply (push_index_ok fact_predicate).
  - by apply (push_index_ok fact_object).
  - by apply (push_index_ok proj_sp).
  - by apply (push_index_ok proj_so).
  - by apply (push_index_ok proj_po).
  - by apply (push_index_ok id).
Qed.

Lemma index_all_ok vq l1 l2 :
  indexes_ok vq l1 →
  indexes_ok (index_all vq (length l1) l2) (l1 ++ l2) ∧
  vq_mapped (index_all vq (length l1) l2) = vq_mapped vq ∧
  vq_definitions (index_all vq (length l1) l2) = vq_definitions vq ∧
  vq_active (index_all vq (length l1) l2) = vq_active vq.
Proof.
  revert vq l1. induction l2 as [|e l2 IH]; intros vq l1 Hok; simpl.
  { by rewrite app_nil_r. }
  destruct (IH (index_active vq (length l1) (pf_fact e)) (l1 ++ [e])) as (H1 & H2 & H3 & H4).
  { by apply index_active_ok. }
  rewrite length_app in H1, H2, H3, H4. simpl in H1, H2, H3, H4.
  rewrite Nat.add_1_r in H1, H2, H3, H4. rewrite <- (assoc_L (++)) in H1. done.
Qed.

(** A projection built from frames represents their events. *)
Record projection_rep vq (evs : list Event) : Prop := {
  pr_mapped : vq_mapped vq = None;
  pr_definitions : definitions_rep (vq_definitions vq) evs;
  pr_active : vq_active vq = active_of (vq_definitions vq);
  pr_indexes : indexes_ok vq (vq_active vq);
}.

Lemma projection_from_frames_rep fs :
  projection_rep (projection_from_frames fs) (frame_events fs).
Proof.
  unfold projection_from_frames.
  destruct (project_frames_rep ∅ [] fs definitions_rep_empty) as [Hd _]. simpl in Hd.
  change (length []) with 0 in Hd.
  destruct (foldl _ (∅, 0) fs) as [definitions n]. simpl in Hd. fold (active_of definitions).
  destruct (index_all_ok (VmQueryProjection_mk None definitions (active_of definitions)
    ∅ ∅ ∅ ∅ ∅ ∅ ∅) [] (active_of definitions)) as (H1 & H2 & H3 & H4).
  { split; intros k; simpl; by rewrite lookup_empty. }
  split; simpl in *.
  - by rewrite H2.
  - by rewrite H3.
  - by rewrite H4, H3.
  - by rewrite H4.
Qed.

Lemma projection_resolve_rep vq evs s :
  projection_rep vq evs → projection_resolve vq s = spec_resolve evs s.
Proof.
  intros [Hm Hd _ _]. unfold projection_resolve, spec_resolve. rewrite Hm.
  rewrite <- (definitions_top _ _ s Hd).
  destruct (vq_definitions vq !! s) as [l|]; simpl; [|done]. by destruct (last l).
Qed.

Lemma projection_definitions_rep vq evs s :
  projection_rep vq evs → projection_definitions vq s = spec_definitions evs s.
Proof.
  intros [Hm Hd _ _]. unfold projection_definitions, spec_definitions. rewrite Hm.
  rewrite <- (dr_stack _ _ Hd), <- list_fmap_compose. done.
Qed.

Lemma positions_all {A} (Q : A → bool) (l : list A) :
  (∀ x, Q x = true) → positions Q l = seq 0 (length l).
Proof.
  intros HQ. unfold positions.
  assert (∀ i, i ∈ seq 0 (length l) → (Q <$> l !! i) = Some true) as Hall.
  { intros i Hi%elem_of_seq. destruct (lookup_lt_is_Some_2 l i) as [x Hx]; [lia|].
    rewrite Hx. simpl. by rewrite HQ. }
  induction (seq 0 (length l)) as [|i rest IH]; [done|]. rewrite filter_cons.
  rewrite decide_True by (apply Hall; by left). f_equal. apply IH. intros. apply Hall. by right.
Qed.

Lemma positions_ext {A} (Q1 Q2 : A → bool) (l : list A) :
  (∀ x, Q1 x = Q2 x) → positions Q1 l = positions Q2 l.
Proof.
  intros HQ. apply filter_ext_in. intros i _. destruct (l !! i) as [x|]; simpl; [|done].
  by rewrite HQ.
Qed.

Lemma projection_candidates_rep vq evs p b :
  projection_rep vq evs →
  projection_candidates vq p b = positions (λ e, cand_matchb p b (pf_fact e)) (vq_active vq).
Proof.
  intros [_ _ _ [H1 H2 H3 H4 H5 H6 H7]]. unfold projection_candidates, cand_matchb, agrees.
  destruct (resolved_atom (pat_subject p) b) as [s|],
    (resolved_predicate (pat_predicate p) b) as [q|],
    (resolved_atom (pat_object p) b) as [o|]; simpl;
    rewrite ?H1, ?H2, ?H3, ?H4, ?H5, ?H6, ?H7; try apply positions_ext;
    try (symmetry; by apply positions_all);
    intros [i sl [fs fp fo]]; unfold proj_sp, proj_so, proj_po; simpl;
    repeat case_bool_decide; simpl; naive_solver.
Qed.

Lemma projection_query_source vq evs :
  projection_rep vq evs →
  QuerySource (λ p b, Some (projection_candidates vq p b)) (projection_entry vq)
    (active_entries evs).
Proof.
  intros Hvq p b. rewrite option_bind_Some, (projection_candidates_rep _ _ _ _ Hvq).
  etrans; [apply (mapM_positions pf_entry (λ e, cand_matchb p b (pf_fact e)) (vq_active vq))|].
  f_equal. unfold spec_candidates.
  rewrite <- (active_of_entries _ _ (pr_definitions _ _ Hvq)), <- (pr_active _ _ Hvq).
  induction (vq_active vq) as [|e l IH]; [done|]. rewrite !filter_cons. simpl.
  rewrite filter_cons. simpl. case_decide; [|done]. simpl. by f_equal.
Qed.

Lemma projection_query_rep vq evs ps o :
  projection_rep vq evs →
  projection_query vq ps o = Some (spec_query (active_entries evs) ps o).
Proof.
  intros Hvq. unfold projection_query. rewrite (pr_mapped _ _ Hvq).
  pose proof (projection_query_source _ _ Hvq). by apply query_spec.
Qed.
End projection_ok.
