(* ===== verification/Worlds.v ===== *)
(** Worlds, candidates, transactions and the database
    (forthdb-world/src/lib.rs, lines 86-170 and 536-1098).

    A world owns its kernel ([eager]) or is backed by its commit history, from
    which a legacy kernel ([lazy]) and a query projection are materialized on
    demand and cached.  The kernel, the mapped snapshot and the commit store
    are interfaces ([Kernel], [MappedRoot], [CommitStore]). *)
From Stdlib Require Import NArith Lia.
From stdpp Require Import sorting base gmap list strings fin_maps option list_monad.
From S2P Require Import Prelude Ord Terms Bytes Query QueryFacts Spec Index Kernel Frames VmProjection.

(** [trait CommitStore]. *)
Class CommitStore (S E : Type) := {
  store_append : S → CommitFrame → outcome E unit * S;
  store_frames : S → list CommitFrame;
  store_len : S → nat;
}.

(** A store keeps what it accepts, in order, and keeps nothing it rejects. *)
Class CommitStoreLaws (S E : Type) `{CommitStore S E} : Prop := {
  store_append_ok s f s' : store_append s f = (Ok tt, s') →
    store_frames s' = store_frames s ++ [f];
  store_append_err s f e s' : store_append s f = (Err e, s') → store_frames s' = store_frames s;
  store_append_panic s f : (store_append s f).1 ≠ Panic;
  store_len_frames s : store_len s = length (store_frames s);
}.

(** [MemoryCommitStore]: [append] cannot fail. *)
Definition MemoryCommitStore := list CommitFrame.

#[export] Instance memory_store : CommitStore MemoryCommitStore Empty_set := {
  store_append s f := (Ok tt, s ++ [f]);
  store_frames s := s;
  store_len s := length s;
}.

#[export] Instance memory_store_laws : CommitStoreLaws MemoryCommitStore Empty_set.
Proof. split; simpl; naive_solver. Qed.

Inductive CommitError (E : Type) :=
| StaleTransaction (based_on current : WorldId)
| CandidateFailed (error : CandidateError)
| ValidationFailed (message : string)
| StoreFailed (error : E).
Arguments StaleTransaction {E} _ _.
Arguments CandidateFailed {E} _.
Arguments ValidationFailed {E} _.
Arguments StoreFailed {E} _.

(** A commit history, newest frame first. *)
#[warnings="-register-all"]
Inductive HistoryNode :=
| HistoryNode_mk (parent : option HistoryNode) (frame : CommitFrame).

Fixpoint node_frames (n : HistoryNode) : list CommitFrame :=
  match n with
  | HistoryNode_mk parent frame =>
      frame :: match parent with Some n => node_frames n | None => [] end
  end.

Definition history_frames (h : option HistoryNode) : list CommitFrame :=
  match h with Some n => node_frames n | None => [] end.

Section world.
Context {D P : Type} `{Kernel D, MappedRoot P}.

Record ProjectionBase := ProjectionBase_mk {
  pb_kernel : D;
  pb_version : N;
  pb_next_entity : N;
}.

(** [while let Some(node) = cursor]: the frames newer than the base. *)
Fixpoint pending_frames (projected_version : N) (n : HistoryNode) : list CommitFrame :=
  match n with
  | HistoryNode_mk parent frame =>
      if (resulting_version frame <=? projected_version)%N then []
      else frame :: match parent with
                    | Some n => pending_frames projected_version n
                    | None => []
                    end
  end.

(** [.expect("... must materialize deterministically")]: an error is a panic. *)
Definition expect_state (r : outcome CandidateError (D * N)) : option (D * N) :=
  match r with Ok st => Some st | _ => None end.

Definition replay_frames (st : D * N) (frames : list CommitFrame) : option (D * N) :=
  foldl (λ st frame, st ← st; expect_state (apply_operations st.1 st.2 (frame_operations frame)))
    (Some st) frames.

Definition materialize_kernel (n : HistoryNode) (projected : option ProjectionBase) : option D :=
  let projected_version := match projected with Some base => pb_version base | None => 0%N end in
  let pending := pending_frames projected_version n in
  let start := match projected with
               | Some base => (pb_kernel base, pb_next_entity base)
               | None => (kernel_new, 1%N)
               end in
  fst <$> replay_frames start (reverse pending).

Record World := World_mk {
  w_id : WorldId;
  w_version : N;
  w_next_entity : N;
  w_operation_count : nat;
  w_active_slot_count : N;
  w_record_count : nat;
  w_eager_kernel : option D;
  w_lazy_kernel : option D;
  w_vm_query : option (VmQueryProjection P);
  w_projection_base : option ProjectionBase;
  w_history : option HistoryNode;
  w_history_prefix : option P;
}.

Definition genesis : World :=
  World_mk GENESIS 0 1 0 0 0 (Some kernel_new) None None None None None.

Definition world_frames (w : World) : list CommitFrame :=
  match w_history_prefix w with Some p => mr_frames p | None => [] end ++
  reverse (history_frames (w_history w)).

(** The caches. *)
Definition set_lazy_kernel (w : World) (k : D) : World :=
  World_mk (w_id w) (w_version w) (w_next_entity w) (w_operation_count w) (w_active_slot_count w)
    (w_record_count w) (w_eager_kernel w) (Some k) (w_vm_query w) (w_projection_base w)
    (w_history w) (w_history_prefix w).

Definition set_vm_query (w : World) (q : VmQueryProjection P) : World :=
  World_mk (w_id w) (w_version w) (w_next_entity w) (w_operation_count w) (w_active_slot_count w)
    (w_record_count w) (w_eager_kernel w) (w_lazy_kernel w) (Some q) (w_projection_base w)
    (w_history w) (w_history_prefix w).

(** [World::kernel]: the kernel and the world with its cache filled. *)
Definition world_kernel (w : World) : option (D * World) :=
  match w_eager_kernel w with
  | Some k => Some (k, w)
  | None =>
      match w_lazy_kernel w with
      | Some k => Some (k, w)
      | None =>
          k ← match w_history_prefix w with
              | Some _ => fst <$> replay_frames (kernel_new, 1%N) (world_frames w)
              | None => n ← w_history w; materialize_kernel n (w_projection_base w)
              end;
          Some (k, set_lazy_kernel w k)
      end
  end.

(** [World::vm_query]: mapped roots preinstall it, so history is present when
    it has to be built (the assertion). *)
Definition world_vm_query (w : World) : option (VmQueryProjection P * World) :=
  match w_vm_query w with
  | Some q => Some (q, w)
  | None =>
      match w_history w with
      | Some _ =>
          let q := projection_from_frames (world_frames w) in Some (q, set_vm_query w q)
      | None => None
      end
  end.

Definition world_resolve (w : World) (s : SlotId) : option (option Fact * World) :=
  match w_eager_kernel w with
  | None => '(q, w) ← world_vm_query w; Some (projection_resolve q s, w)
  | Some _ => '(k, w) ← world_kernel w; r ← kernel_resolve k s; Some (r, w)
  end.

Definition world_definitions (w : World) (s : SlotId) : option (list Fact * World) :=
  match w_eager_kernel w with
  | None => '(q, w) ← world_vm_query w; Some (projection_definitions q s, w)
  | Some _ => '(k, w) ← world_kernel w; r ← kernel_definitions k s; Some (r, w)
  end.

Definition world_query (w : World) (ps : list Pattern) (o : QueryOptions) :
    option (QueryResult * World) :=
  match w_eager_kernel w with
  | None => '(q, w) ← world_vm_query w; r ← projection_query q ps o; Some (r, w)
  | Some _ => '(k, w) ← world_kernel w; r ← kernel_query k ps o; Some (r, w)
  end.

Definition world_display_name (w : World) (e : EntityId) : option (string * World) :=
  match w_eager_kernel w with
  | None =>
      '(r, w) ← world_resolve w (display_slot e);
      Some (default (EntityId_display e)
        (fact ← r;
         match fact_object fact with ALiteral l => Some (literal_str l) | AEntity _ => None end), w)
  | Some _ => '(k, w) ← world_kernel w; r ← display_name k e; Some (r, w)
  end.

Definition is_query_projection_materialized (w : World) : bool :=
  match w_eager_kernel w, w_vm_query w with None, None => false | _, _ => true end.

Definition is_legacy_query_projection_materialized (w : World) : bool :=
  match w_eager_kernel w, w_lazy_kernel w with None, None => false | _, _ => true end.

Definition materialize_query_projection (w : World) : option World :=
  match w_eager_kernel w with
  | None => snd <$> world_vm_query w
  | Some _ => snd <$> world_kernel w
  end.

Definition world_from_mmap (snapshot : P) : World :=
  World_mk (mr_world_id snapshot) (mr_world_version snapshot) (mr_next_entity snapshot)
    (mr_operation_count snapshot) (mr_active_slot_count snapshot) (mr_record_count snapshot)
    None None (Some (projection_from_mmap snapshot)) None None (Some snapshot).

(** One iteration of [for frame in frames] in [World::reconstruct]; the state
    is the world and the kernel being rebuilt. *)
Definition reconstruct_frame (st : World * D) (frame : CommitFrame) :
    outcome CandidateError (World * D) :=
  let '(world, kernel) := st in
  if decide (parent_world frame ≠ w_id world)
  then Err (HistoryParentMismatch (w_id world) (parent_world frame))
  else if decide (parent_version frame ≠ w_version world)
  then Err (HistoryVersionMismatch (w_version world) (parent_version frame))
  else
    let* st := apply_operations kernel (w_next_entity world) (frame_operations frame) in
    let '(kernel, next_entity) := st in
    if decide (next_entity ≠ resulting_allocator frame)
    then Err (AllocatorStateMismatch (resulting_allocator frame) next_entity)
    else
      let* _ := map_err KernelInvariant (kernel_validate kernel) in
      let expected_world := calculate_world_id (parent_world frame) (resulting_version frame)
        (resulting_allocator frame) (frame_operations frame) in
      if decide (expected_world ≠ resulting_world frame)
      then Err (WorldIdentityMismatch expected_world (resulting_world frame))
      else
        Ok (World_mk (resulting_world frame) (resulting_version frame) (resulting_allocator frame)
              (w_operation_count world + length (frame_operations frame))
              (kernel_active_slot_count kernel) (kernel_record_count kernel)
              None None None (w_projection_base world)
              (Some (HistoryNode_mk (w_history world) frame)) None,
            kernel).

Definition set_eager_kernel (w : World) (k : D) : World :=
  World_mk (w_id w) (w_version w) (w_next_entity w) (w_operation_count w) (w_active_slot_count w)
    (w_record_count w) (Some k) (w_lazy_kernel w) (w_vm_query w) (w_projection_base w)
    (w_history w) (w_history_prefix w).

Definition reconstruct (frames : list CommitFrame) : outcome CandidateError World :=
  let* st := outcome_fold reconstruct_frame frames (genesis, kernel_new) in
  Ok (set_eager_kernel st.1 st.2).

Definition from_vm_epoch (base : World) (operations : list Operation) (next_entity : N)
    (active_slot_count : N) (record_count : nat) : World * CommitFrame :=
  let kernel := match w_lazy_kernel base with Some k => Some k | None => w_eager_kernel base end in
  let projection_base :=
    match kernel with
    | Some k => Some (ProjectionBase_mk k (w_version base) (w_next_entity base))
    | None => w_projection_base base
    end in
  let version := u64_add (w_version base) 1 in
  let id := calculate_world_id (w_id base) version next_entity operations in
  let frame := CommitFrame_mk (w_id base) id (w_version base) version next_entity operations in
  (World_mk id version next_entity (w_operation_count base + length operations)
     active_slot_count record_count None None None projection_base
     (Some (HistoryNode_mk (w_history base) frame)) (w_history_prefix base),
   frame).

(** ** Candidates *)

Record CandidateWorld := CandidateWorld_mk {
  c_base_world : WorldId;
  c_base_version : N;
  c_id : WorldId;
  c_version : N;
  c_next_entity : N;
  c_base_operation_count : nat;
  c_operations : list Operation;
  c_kernel : D;
}.

Definition construct_from_state (base_world : WorldId) (base_version base_next_entity : N)
    (base_operation_count : nat) (base_kernel : D) (operations : list Operation) :
    outcome CandidateError CandidateWorld :=
  let* st := apply_operations base_kernel base_next_entity operations in
  let '(kernel, next_entity) := st in
  let* _ := map_err KernelInvariant (kernel_validate kernel) in
  let version := u64_add base_version 1 in
  let id := calculate_world_id base_world version next_entity operations in
  Ok (CandidateWorld_mk base_world base_version id version next_entity base_operation_count
        operations kernel).

Definition construct (base : World) (operations : list Operation) :
    outcome CandidateError CandidateWorld :=
  let* k := or_panic (world_kernel base) in
  construct_from_state (w_id base) (w_version base) (w_next_entity base)
    (w_operation_count base) k.1 operations.

Definition into_materialized_state (c : CandidateWorld) :
    WorldId * N * N * nat * list Operation * D :=
  (c_id c, c_version c, c_next_entity c, c_base_operation_count c + length (c_operations c),
   c_operations c, c_kernel c).

Definition commit_frame (c : CandidateWorld) : CommitFrame :=
  CommitFrame_mk (c_base_world c) (c_id c) (c_base_version c) (c_version c) (c_next_entity c)
    (c_operations c).

Definition into_world (c : CandidateWorld) (frame : CommitFrame)
    (parent_history : option HistoryNode) : World :=
  World_mk (c_id c) (c_version c) (c_next_entity c)
    (c_base_operation_count c + length (c_operations c))
    (kernel_active_slot_count (c_kernel c)) (kernel_record_count (c_kernel c))
    (Some (c_kernel c)) None None None (Some (HistoryNode_mk parent_history frame)) None.

(** ** Transactions *)

Record Transaction := Transaction_mk {
  tx_base : World;
  tx_next_entity : N;
  tx_operations : list Operation;
}.

Definition tx_new (base : World) : Transaction := Transaction_mk base (w_next_entity base) [].

Definition tx_push (t : Transaction) (op : Operation) : Transaction :=
  Transaction_mk (tx_base t) (tx_next_entity t) (tx_operations t ++ [op]).

Definition tx_entity (t : Transaction) : EntityId * Transaction :=
  let entity := EntityId_new (tx_next_entity t) in
  (entity, Transaction_mk (tx_base t) (u64_add (tx_next_entity t) 1)
             (tx_operations t ++ [AllocateEntity entity])).

Definition tx_define (t : Transaction) (s : SlotId) (f : Fact) : Transaction :=
  tx_push t (OpDefine s f).

Definition tx_forget (t : Transaction) (s : SlotId) : Transaction := tx_push t (OpForget s).

Definition tx_define_display_name (t : Transaction) (e : EntityId) (name : string) : Transaction :=
  tx_define t (display_slot e)
    (Fact_new (AEntity e) display_name_predicate (ALiteral (Literal_new name))).

Definition tx_bind_symbol (t : Transaction) (namespace : string) (symbol : Symbol) (e : EntityId) :
    Transaction :=
  tx_define t (symbol_slot namespace symbol)
    (Fact_new (ALiteral (Literal_new (namespace +:+ ":" +:+ symbol_str symbol)))
       resolves_to_predicate (AEntity e)).

Definition tx_candidate (t : Transaction) : outcome CandidateError CandidateWorld :=
  construct (tx_base t) (tx_operations t).

(** ** The database *)

Section database.
Context {S E : Type} `{CommitStore S E}.

(** [dyn Fn(&CandidateWorld) -> Result<(), String>]. *)
Abbreviation Validator := (CandidateWorld → outcome string unit) (only parsing).

Record Database := Database_mk {
  db_current : World;
  db_store : S;
  db_validators : list Validator;
}.

Definition database_new (store : S) : outcome CandidateError Database :=
  let* world := reconstruct (store_frames store) in
  Ok (Database_mk world store []).

Definition begin (db : Database) : Transaction := tx_new (db_current db).

Definition register_validator (db : Database) (v : Validator) : Database :=
  Database_mk (db_current db) (db_store db) (db_validators db ++ [v]).

Definition db_frames (db : Database) : list CommitFrame := store_frames (db_store db).
Definition db_frame_count (db : Database) : nat := store_len (db_store db).

Definition run_validators (validators : list Validator) (c : CandidateWorld) :
    outcome string unit :=
  outcome_fold (λ _ validator, validator c) validators tt.

(** [Database::commit] under the commit lock; an error leaves the state as
    the failing step left it. *)
Definition commit (db : Database) (t : Transaction) :
    outcome (CommitError E) World * Database :=
  let current := db_current db in
  if decide (w_id (tx_base t) ≠ w_id current)
  then (Err (StaleTransaction (w_id (tx_base t)) (w_id current)), db)
  else
    match tx_candidate t with
    | Err e => (Err (CandidateFailed e), db)
    | Panic => (Panic, db)
    | Ok candidate =>
        match run_validators (db_validators db) candidate with
        | Err message => (Err (ValidationFailed message), db)
        | Panic => (Panic, db)
        | Ok _ =>
            let frame := commit_frame candidate in
            match store_append (db_store db) frame with
            | (Err e, store) =>
                (Err (StoreFailed e), Database_mk current store (db_validators db))
            | (Panic, store) => (Panic, Database_mk current store (db_validators db))
            | (Ok _, store) =>
                let world := into_world candidate frame (w_history current) in
                (Ok world, Database_mk world store (db_validators db))
            end
        end
    end.
End database.
End world.
Arguments World : clear implicits.
Arguments CandidateWorld : clear implicits.
Arguments Transaction : clear implicits.
Arguments ProjectionBase : clear implicits.
Arguments Database : clear implicits.
