(* ===== verification/WorldFacts.v ===== *)
(** The invariant of worlds: a world is a function of its commit frames, its
    caches included; materialization, reconstruction, candidates, commits and
    VM epochs keep it. *)
From Stdlib Require Import NArith Lia.
From stdpp Require Import sorting base gmap list strings fin_maps option list_monad.
From S2P Require Import Prelude Ord Terms Bytes Query QueryFacts QueryOrder Spec Index Kernel Frames VmProjection Worlds.

(** ** Valid chains of frames *)

Definition chain_state : Type := WorldId * N * N.

(** The checks [World::reconstruct] makes of a frame, on the identity, the
    version and the allocator alone. *)
Definition check_frame (st : chain_state) (f : CommitFrame) : outcome CandidateError chain_state :=
  let '(id, version, next_entity) := st in
  if decide (parent_world f ≠ id) then Err (HistoryParentMismatch id (parent_world f))
  else if decide (parent_version f ≠ version)
  then Err (HistoryVersionMismatch version (parent_version f))
  else
    let* n := allocate next_entity (frame_operations f) in
    if decide (n ≠ resulting_allocator f) then Err (AllocatorStateMismatch (resulting_allocator f) n)
    else
      let expected := calculate_world_id (parent_world f) (resulting_version f)
        (resulting_allocator f) (frame_operations f) in
      if decide (expected ≠ resulting_world f)
      then Err (WorldIdentityMismatch expected (resulting_world f))
      else Ok (resulting_world f, resulting_version f, resulting_allocator f).

Definition genesis_state : chain_state := (GENESIS, 0%N, 1%N).

Definition check_chain (fs : list CommitFrame) : outcome CandidateError chain_state :=
  outcome_fold check_frame fs genesis_state.

Lemma check_frame_not_panic st f : check_frame st f ≠ Panic.
Proof.
  destruct st as [[id v] n]. unfold check_frame. case_decide; [done|]. case_decide; [done|].
  pose proof (allocate_not_panic n (frame_operations f)).
  destruct (allocate n (frame_operations f)) as [n'| |]; simpl; [|done|congruence].
  case_decide; [done|]. by case_decide.
Qed.

Lemma check_frame_ok st f st' :
  check_frame st f = Ok st' →
  st = (parent_world f, parent_version f, st.2) ∧
  st' = (resulting_world f, resulting_version f, resulting_allocator f) ∧
  allocate st.2 (frame_operations f) = Ok (resulting_allocator f) ∧
  resulting_world f = calculate_world_id (parent_world f) (resulting_version f)
    (resulting_allocator f) (frame_operations f).
Proof.
  destruct st as [[id v] n]. unfold check_frame.
  case_decide as H1; [done|]. case_decide as H2; [done|].
  destruct (allocate n (frame_operations f)) as [n'| |] eqn:Ha; simpl; try done.
  case_decide as H3; [done|]. case_decide as H4; [done|]. intros [= <-].
  assert (parent_world f = id) as <- by (destruct (decide (parent_world f = id)); tauto).
  assert (parent_version f = v) as <- by (destruct (decide (parent_version f = v)); tauto).
  assert (n' = resulting_allocator f) as -> by (destruct (decide (n' = resulting_allocator f)); tauto).
  split_and!; [done|done|done|].
  symmetry. destruct (decide (calculate_world_id (parent_world f) (resulting_version f)
    (resulting_allocator f) (frame_operations f) = resulting_world f)); tauto.
Qed.

Lemma check_chain_snoc fs f :
  check_chain (fs ++ [f]) = let* st := check_chain fs in check_frame st f.
Proof.
  unfold check_chain. rewrite outcome_fold_app. destruct (outcome_fold _ fs _); simpl; [|done..].
  by destruct (check_frame _ f).
Qed.

Lemma check_chain_not_panic fs : check_chain fs ≠ Panic.
Proof.
  induction fs as [|f fs IH] using rev_ind; [done|].
  rewrite check_chain_snoc. destruct (check_chain fs); simpl; [|done..].
  apply check_frame_not_panic.
Qed.

Lemma check_chain_last fs st f :
  check_chain fs = Ok st → last fs = Some f →
  st = (resulting_world f, resulting_version f, resulting_allocator f).
Proof.
  destruct fs as [|f' fs _] using rev_ind; [done|].
  rewrite check_chain_snoc, last_snoc. destruct (check_chain fs); simpl; try done.
  intros (_ & -> & _)%check_frame_ok [= ->]. done.
Qed.

(** The operations of a history in order. *)
Definition chain_operations (fs : list CommitFrame) : list Operation := f ← fs; frame_operations f.

Lemma chain_operations_snoc fs f :
  chain_operations (fs ++ [f]) = chain_operations fs ++ frame_operations f.
Proof. unfold chain_operations. rewrite bind_app. csimpl. by rewrite app_nil_r. Qed.

Lemma chain_operations_app fs1 fs2 :
  chain_operations (fs1 ++ fs2) = chain_operations fs1 ++ chain_operations fs2.
Proof. unfold chain_operations. by rewrite bind_app. Qed.

Lemma check_chain_allocate fs st :
  check_chain fs = Ok st → allocate 1 (chain_operations fs) = Ok st.2.
Proof.
  revert st. induction fs as [|f fs IH] using rev_ind; intros st; [by intros [= <-]|].
  rewrite check_chain_snoc. destruct (check_chain fs) as [st1| |]; simpl; try done.
  intros (_ & -> & Ha & _)%check_frame_ok. rewrite chain_operations_snoc, allocate_app.
  by rewrite (IH _ eq_refl).
Qed.

Lemma frame_events_ops fs : frame_events fs = events_of (chain_operations fs).
Proof. done. Qed.

Lemma frame_events_app fs1 fs2 : frame_events (fs1 ++ fs2) = frame_events fs1 ++ frame_events fs2.
Proof. rewrite !frame_events_ops, chain_operations_app. apply events_of_app. Qed.

Lemma history_frames_push h f :
  reverse (history_frames (Some (HistoryNode_mk h f))) = reverse (history_frames h) ++ [f].
Proof. unfold history_frames at 1. simpl. by rewrite reverse_cons. Qed.

#[global] Arguments history_frames : simpl never.

(** ** The mapped-root interface *)

Class MappedRootLaws (P : Type) `{MappedRoot P} := {
  mr_ok : P → Prop;
  mr_resolve_ok p s : mr_ok p → mr_resolve p s = spec_resolve (frame_events (mr_frames p)) s;
  mr_definitions_ok p s : mr_ok p →
    mr_definitions p s = spec_definitions (frame_events (mr_frames p)) s;
  mr_query_ok p ps o : mr_ok p →
    ∃ r, mr_query p ps o = Some r ∧
      query_agrees (active_entries (frame_events (mr_frames p))) ps o r;
  mr_chain_ok p : mr_ok p →
    check_chain (mr_frames p) = Ok (mr_world_id p, mr_world_version p, mr_next_entity p);
  mr_operation_count_ok p : mr_ok p → mr_operation_count p = length (chain_operations (mr_frames p));
  mr_active_ok p : mr_ok p →
    mr_active_slot_count p = usize_of (spec_active_count (frame_events (mr_frames p)));
  mr_record_count_ok p : mr_ok p → mr_record_count p = length (frame_events (mr_frames p));
}.

Section world.
Context {D P : Type} `{KernelLaws D, MappedRootLaws P}.
Implicit Types (w : World D P) (fs : list CommitFrame).

Definition vq_ok (q : VmQueryProjection P) (evs : list Event) : Prop :=
  projection_rep q evs ∨
  ∃ p, vq_mapped q = Some p ∧ mr_ok p ∧ frame_events (mr_frames p) = evs.

(** A materialized prefix of the history: newer frames have newer versions. *)
Definition base_ok (b : ProjectionBase D) fs : Prop :=
  ∃ fs1 fs2, fs = fs1 ++ fs2 ∧
    k_rep (pb_kernel b) (frame_events fs1) (pb_next_entity b) ∧
    (∃ id, check_chain fs1 = Ok (id, pb_version b, pb_next_entity b)) ∧
    Forall (λ f, pb_version b < resulting_version f)%N fs2.

Record world_ok w fs : Prop := {
  wo_frames : world_frames w = fs;
  wo_chain : check_chain fs = Ok (w_id w, w_version w, w_next_entity w);
  wo_operations : w_operation_count w = length (chain_operations fs);
  wo_active : w_active_slot_count w = usize_of (spec_active_count (frame_events fs));
  wo_records : w_record_count w = length (frame_events fs);
  wo_eager k : w_eager_kernel w = Some k → k_rep k (frame_events fs) (w_next_entity w);
  wo_lazy k : w_lazy_kernel w = Some k → k_rep k (frame_events fs) (w_next_entity w);
  wo_query q : w_vm_query w = Some q → vq_ok q (frame_events fs);
  wo_base b : w_projection_base w = Some b → w_history_prefix w = None → base_ok b fs;
  wo_versions : w_eager_kernel w = None → w_projection_base w = None →
    w_history_prefix w = None → Forall (λ f, 0 < resulting_version f)%N fs;
  wo_history : w_eager_kernel w = None → w_history w = None →
    is_Some (w_vm_query w) ∧ is_Some (w_history_prefix w);
}.

(** The queries of the world are answered by a mapped snapshot. *)
Definition reads_mapped w : Prop :=
  w_eager_kernel w = None ∧ ∃ q, w_vm_query w = Some q ∧ is_Some (vq_mapped q).

(** What clients see of a world agrees with its frames; the order in which a
    mapped snapshot tries candidates shows in its queries (QueryOrder.v). *)
Record world_observes w fs : Prop := {
  wob_resolve s : ∃ w', world_resolve w s = Some (spec_resolve (frame_events fs) s, w') ∧ world_ok w' fs;
  wob_definitions s : ∃ w', world_definitions w s =
    Some (spec_definitions (frame_events fs) s, w') ∧ world_ok w' fs;
  wob_query ps o : ∃ r w', world_query w ps o = Some (r, w') ∧ world_ok w' fs ∧
    query_agrees (active_entries (frame_events fs)) ps o r ∧
    (¬ reads_mapped w → r = spec_query (active_entries (frame_events fs)) ps o);
}.

(** ** Replaying frames *)

Lemma replay_frames_ok (k : D) evs n fs n' :
  k_rep k evs n → allocate n (chain_operations fs) = Ok n' →
  ∃ k', replay_frames (k, n) fs = Some (k', n') ∧ k_rep k' (evs ++ frame_events fs) n'.
Proof.
  unfold replay_frames. revert k evs n. induction fs as [|f fs IH]; intros k evs n Hk Ha.
  { simpl in Ha. injection Ha as ->. exists k. by rewrite app_nil_r. }
  unfold chain_operations in Ha. csimpl. csimpl in Ha. rewrite allocate_app in Ha.
  destruct (allocate n (frame_operations f)) as [n1| |] eqn:Ha1; simpl in Ha; try done.
  destruct (apply_operations_ok k evs n (frame_operations f) n1 Hk Ha1) as (k1 & -> & Hk1). simpl.
  destruct (IH k1 _ n1 Hk1 Ha) as (k2 & Hr & Hk2). exists k2. split; [exact Hr|].
  rewrite (frame_events_app [f] fs : frame_events (f :: fs) = _).
  rewrite <- (assoc_L (++)) in Hk2. unfold frame_events at 1. csimpl. by rewrite app_nil_r.
Qed.

(** The pending frames of a history are the suffix the base lacks. *)
Lemma pending_frames_split v (h : HistoryNode) fs1 fs2 :
  reverse (node_frames h) = fs1 ++ fs2 →
  Forall (λ f, v < resulting_version f)%N fs2 →
  (∀ f, last fs1 = Some f → resulting_version f ≤ v)%N →
  reverse (pending_frames v h) = fs2.
Proof.
  revert h. induction fs2 as [|f fs2 IH] using rev_ind; intros h Hh Hall Hlast.
  - rewrite app_nil_r in Hh. destruct h as [parent frame].
    assert (∃ fs', fs1 = fs' ++ [frame]) as [fs' ->].
    { rewrite <- Hh. cbn [node_frames]. rewrite reverse_cons. eauto. }
    specialize (Hlast frame ltac:(by rewrite last_snoc)).
    cbn [pending_frames]. apply N.leb_le in Hlast. by rewrite Hlast.
  - destruct h as [parent frame]. cbn [node_frames] in Hh. rewrite reverse_cons in Hh.
    rewrite (assoc_L (++)) in Hh. apply app_inj_tail in Hh as [Hh ->].
    apply Forall_app in Hall as [Hall Hf]. apply Forall_cons in Hf as [Hf _].
    cbn [pending_frames]. apply N.leb_gt in Hf. rewrite Hf, reverse_cons. f_equal.
    destruct parent as [n|]; [by apply IH|].
    symmetry in Hh. apply app_eq_nil in Hh as [_ ->]. done.
Qed.

Lemma materialize_kernel_ok (h : HistoryNode) (b : option (ProjectionBase D)) fs n :
  reverse (node_frames h) = fs → allocate 1 (chain_operations fs) = Ok n →
  match b with
  | Some b => base_ok b fs
  | None => Forall (λ f, 0 < resulting_version f)%N fs
  end →
  ∃ k, materialize_kernel h b = Some k ∧ k_rep k (frame_events fs) n.
Proof.
  intros Hh Ha Hb. unfold materialize_kernel. destruct b as [b|].
  - destruct Hb as (fs1 & fs2 & -> & Hk & [id Hc] & Hall).
    pose proof (check_chain_allocate _ _ Hc) as Ha1. simpl in Ha1.
    rewrite (pending_frames_split _ _ _ _ Hh Hall);
      [|intros f Hf; pose proof (check_chain_last _ _ _ Hc Hf) as Hl; injection Hl as _ -> _; done].
    rewrite chain_operations_app, allocate_app, Ha1 in Ha. simpl in Ha.
    destruct (replay_frames_ok _ _ _ _ _ Hk Ha) as (k & -> & Hk').
    exists k. split; [done|]. by rewrite frame_events_app.
  - rewrite (pending_frames_split 0 h [] fs Hh Hb) by done.
    destruct (replay_frames_ok kernel_new [] 1 fs n k_rep_new Ha) as (k & -> & Hk'). eauto.
Qed.

(** ** Reading a world *)

Lemma set_lazy_ok w fs k :
  world_ok w fs → k_rep k (frame_events fs) (w_next_entity w) → world_ok (set_lazy_kernel w k) fs.
Proof. intros [] Hk. split; simpl; try done. by intros k' [= <-]. Qed.

Lemma set_vm_query_ok w fs q :
  world_ok w fs → vq_ok q (frame_events fs) → world_ok (set_vm_query w q) fs.
Proof.
  intros [] Hq. split; simpl; try done; [by intros q' [= <-]|].
  intros He Hh. split; [done|]. by apply wo_history0.
Qed.

Lemma world_kernel_ok w fs :
  world_ok w fs →
  ∃ k w', world_kernel w = Some (k, w') ∧ k_rep k (frame_events fs) (w_next_entity w) ∧
    world_ok w' fs.
Proof.
  intros Hw. unfold world_kernel.
  destruct (w_eager_kernel w) as [k|] eqn:He; [exists k, w; split_and!; [done|by apply (wo_eager _ _ Hw)|done]|].
  destruct (w_lazy_kernel w) as [k|] eqn:Hl; [exists k, w; split_and!; [done|by apply (wo_lazy _ _ Hw)|done]|].
  pose proof (check_chain_allocate _ _ (wo_chain _ _ Hw)) as Ha. simpl in Ha.
  assert (∃ k, match w_history_prefix w with
    | Some _ => fst <$> replay_frames (kernel_new, 1%N) (world_frames w)
    | None => n ← w_history w; materialize_kernel n (w_projection_base w)
    end = Some k ∧ k_rep k (frame_events fs) (w_next_entity w)) as (k & -> & Hk).
  { destruct (w_history_prefix w) as [p|] eqn:Hp.
    - rewrite (wo_frames _ _ Hw).
      destruct (replay_frames_ok kernel_new [] 1 fs _ k_rep_new Ha) as (k & -> & Hk). eauto.
    - destruct (w_history w) as [h|] eqn:Hh.
      + apply (materialize_kernel_ok h (w_projection_base w) fs); [|done|].
        * rewrite <- (wo_frames _ _ Hw). unfold world_frames. by rewrite Hp, Hh.
        * destruct (w_projection_base w) as [b|] eqn:Hb; [by apply (wo_base _ _ Hw)|].
          by apply (wo_versions _ _ Hw).
      + destruct (wo_history _ _ Hw He Hh) as [_ [? ?]]. congruence. }
  simpl. do 2 eexists. split_and!; [done|done|]. by apply set_lazy_ok.
Qed.

Lemma world_vm_query_ok w fs :
  world_ok w fs → w_eager_kernel w = None →
  ∃ q w', world_vm_query w = Some (q, w') ∧ vq_ok q (frame_events fs) ∧ world_ok w' fs ∧
    (is_Some (vq_mapped q) → reads_mapped w).
Proof.
  intros Hw He. unfold world_vm_query.
  destruct (w_vm_query w) as [q|] eqn:Hq; [exists q, w; split_and!; [done|by apply (wo_query _ _ Hw)|done|intros Hm; split; [done|by exists q]]|].
  destruct (w_history w) as [h|] eqn:Hh.
  - do 2 eexists. split; [done|]. rewrite (wo_frames _ _ Hw).
    assert (vq_ok (projection_from_frames fs) (frame_events fs)) as Hv
      by (left; apply projection_from_frames_rep).
    split; [done|]. split; [by apply set_vm_query_ok|].
    rewrite (pr_mapped _ _ (projection_from_frames_rep fs)). by intros [].
  - destruct (wo_history _ _ Hw He Hh) as [[? ?] _]. congruence.
Qed.

Lemma vq_resolve_ok (q : VmQueryProjection P) evs s :
  vq_ok q evs → projection_resolve q s = spec_resolve evs s.
Proof.
  intros [Hq|(p & Hm & Hp & <-)]; [by apply projection_resolve_rep|].
  unfold projection_resolve. rewrite Hm. by apply mr_resolve_ok.
Qed.

Lemma vq_definitions_ok (q : VmQueryProjection P) evs s :
  vq_ok q evs → projection_definitions q s = spec_definitions evs s.
Proof.
  intros [Hq|(p & Hm & Hp & <-)]; [by apply projection_definitions_rep|].
  unfold projection_definitions. rewrite Hm. by apply mr_definitions_ok.
Qed.

Lemma vq_query_ok (q : VmQueryProjection P) evs ps o :
  vq_ok q evs → ∃ r, projection_query q ps o = Some r ∧ query_agrees (active_entries evs) ps o r ∧
    (¬ is_Some (vq_mapped q) → r = spec_query (active_entries evs) ps o).
Proof.
  intros [Hq|(p & Hm & Hp & <-)].
  - eexists. split; [by apply projection_query_rep|]. split; [apply spec_query_agrees|done].
  - unfold projection_query. rewrite Hm. destruct (mr_query_ok p ps o Hp) as (r & -> & Hr).
    exists r. split_and!; [done|done|]. intros []. eauto.
Qed.

Lemma world_ok_observes w fs : world_ok w fs → world_observes w fs.
Proof.
  intros Hw. destruct (world_kernel_ok _ _ Hw) as (k & w1 & Hk & Hr & Hw1).
  destruct (w_eager_kernel w) as [k0|] eqn:He.
  - split; intros.
    + exists w1. unfold world_resolve. rewrite He, Hk. simpl.
      by rewrite (k_rep_resolve _ _ _ s Hr).
    + exists w1. unfold world_definitions. rewrite He, Hk. simpl.
      by rewrite (k_rep_definitions _ _ _ s Hr).
    + do 2 eexists. unfold world_query. rewrite He, Hk. simpl.
      rewrite (k_rep_query _ _ _ ps o Hr). split_and!; [done|done|apply spec_query_agrees|done].
  - destruct (world_vm_query_ok _ _ Hw He) as (q & w2 & Hq & Hv & Hw2 & Hmap). split; intros.
    + exists w2. unfold world_resolve. rewrite He, Hq. simpl. by rewrite (vq_resolve_ok _ _ _ Hv).
    + exists w2. unfold world_definitions. rewrite He, Hq. simpl.
      by rewrite (vq_definitions_ok _ _ _ Hv).
    + destruct (vq_query_ok q _ ps o Hv) as (r & Hr' & Hag & Hex). exists r, w2.
      unfold world_query. rewrite He, Hq. simpl. rewrite Hr'. split_and!; [done|done|done|].
      intros Hn. apply Hex. intros Hm. by apply Hn, Hmap.
Qed.

(** ** Reconstruction *)

(** The world and the kernel in the middle of [reconstruct]. *)
Record rebuild_ok (w : World D P) (k : D) fs : Prop := {
  ro_frames : reverse (history_frames (w_history w)) = fs;
  ro_chain : check_chain fs = Ok (w_id w, w_version w, w_next_entity w);
  ro_operations : w_operation_count w = length (chain_operations fs);
  ro_active : w_active_slot_count w = usize_of (spec_active_count (frame_events fs));
  ro_records : w_record_count w = length (frame_events fs);
  ro_kernel : k_rep k (frame_events fs) (w_next_entity w);
  ro_lazy : w_lazy_kernel w = None;
  ro_query : w_vm_query w = None;
  ro_base : w_projection_base w = None;
  ro_prefix : w_history_prefix w = None;
}.

Lemma rebuild_genesis : rebuild_ok genesis kernel_new [].
Proof. split; try done. apply k_rep_new. Qed.

Lemma reconstruct_frame_ok w k fs f :
  rebuild_ok w k fs →
  match check_frame (w_id w, w_version w, w_next_entity w) f with
  | Ok st => ∃ w' k', reconstruct_frame (w, k) f = Ok (w', k') ∧ rebuild_ok w' k' (fs ++ [f])
  | Err e => reconstruct_frame (w, k) f = Err e
  | Panic => False
  end.
Proof.
  intros Hw. destruct (check_frame _ f) as [st|e|] eqn:Hck.
  - pose proof (check_frame_ok _ _ _ Hck) as ([= Hid Hv] & -> & Ha & Hc). simpl in Ha.
    unfold reconstruct_frame.
    rewrite decide_False by (intros Hne; by apply Hne).
    rewrite decide_False by (intros Hne; by apply Hne).
    destruct (apply_operations_ok k _ _ _ _ (ro_kernel _ _ _ Hw) Ha) as (k' & -> & Hk'). simpl.
    rewrite decide_False by (intros Hne; by apply Hne).
    rewrite (k_rep_validate _ _ _ Hk'). simpl.
    rewrite decide_False by (intros Hne; by apply Hne).
    do 2 eexists. split; [done|]. rewrite <- frame_events_snoc in Hk'. split; simpl.
    + by rewrite history_frames_push, (ro_frames _ _ _ Hw).
    + rewrite check_chain_snoc, (ro_chain _ _ _ Hw). cbn [outcome_bind].
      by rewrite Hck.
    + by rewrite (ro_operations _ _ _ Hw), chain_operations_snoc, length_app.
    + by apply (k_rep_active_slot_count _ _ _ Hk').
    + by apply (k_rep_record_count _ _ _ Hk').
    + done.
    + done.
    + done.
    + apply Hw.
    + done.
  - revert Hck. unfold check_frame, reconstruct_frame.
    case_decide; [by intros [= <-]|]. case_decide; [by intros [= <-]|].
    pose proof (apply_operations_spec k _ _ (frame_operations f) (ro_kernel _ _ _ Hw)) as Hs.
    destruct (allocate _ _) as [n| |] eqn:Ha; simpl; [|intros [= <-]; by rewrite Hs|done].
    destruct Hs as (k' & -> & Hk'). simpl. case_decide; [by intros [= <-]|].
    rewrite (k_rep_validate _ _ _ Hk'). simpl. case_decide; [by intros [= <-]|done].
  - by apply check_frame_not_panic in Hck.
Qed.

Lemma reconstruct_fold fs0 w k fs :
  rebuild_ok w k fs0 →
  match outcome_fold check_frame fs (w_id w, w_version w, w_next_entity w) with
  | Ok st => ∃ w' k', outcome_fold reconstruct_frame fs (w, k) = Ok (w', k') ∧
      rebuild_ok w' k' (fs0 ++ fs)
  | Err e => outcome_fold reconstruct_frame fs (w, k) = Err e
  | Panic => False
  end.
Proof.
  revert fs0 w k. induction fs as [|f fs IH]; intros fs0 w k Hw; cbn [outcome_fold].
  { exists w, k. by rewrite app_nil_r. }
  pose proof (reconstruct_frame_ok w k fs0 f Hw) as Hf.
  destruct (check_frame _ f) as [st|e|] eqn:Hck; cbn [outcome_bind].
  - destruct Hf as (w1 & k1 & -> & Hw1). cbn [outcome_bind].
    specialize (IH _ _ _ Hw1). rewrite <- (assoc_L (++)) in IH.
    pose proof (ro_chain _ _ _ Hw1) as Hc. rewrite check_chain_snoc, (ro_chain _ _ _ Hw) in Hc.
    cbn [outcome_bind] in Hc. rewrite Hck in Hc. injection Hc as ->. exact IH.
  - by rewrite Hf.
  - done.
Qed.

(** [reconstruct] accepts exactly the valid chains; its errors are the first
    failing check. *)
Lemma reconstruct_ok fs :
  match check_chain fs with
  | Ok (id, version, next_entity) =>
      ∃ w, reconstruct fs = Ok w ∧ world_ok w fs ∧
        w_id w = id ∧ w_version w = version ∧ w_next_entity w = next_entity ∧
        w_history_prefix w = None
  | Err e => reconstruct (D := D) (P := P) fs = Err e
  | Panic => False
  end.
Proof.
  pose proof (reconstruct_fold [] genesis kernel_new fs rebuild_genesis) as Hr.
  change (outcome_fold check_frame fs _) with (check_chain fs) in Hr. unfold reconstruct.
  destruct (check_chain fs) as [[[id v] n]|e|] eqn:Hc; [|by rewrite Hr|done].
  destruct Hr as (w & k & -> & Hw). cbn [outcome_bind app fst snd] in *.
  pose proof (ro_chain _ _ _ Hw) as Hc'. rewrite Hc in Hc'. injection Hc' as -> -> ->.
  eexists. split; [done|]. split; [|split_and!; [done..|apply Hw]].
  split; simpl; try (by apply Hw).
  - unfold world_frames. simpl. by rewrite (ro_prefix _ _ _ Hw), (ro_frames _ _ _ Hw).
  - intros k' [= <-]. apply Hw.
  - intros k'. by rewrite (ro_lazy _ _ _ Hw).
  - intros q. by rewrite (ro_query _ _ _ Hw).
  - intros b. by rewrite (ro_base _ _ _ Hw).
  - done.
  - done.
Qed.

(** ** Candidates and commits *)

Lemma construct_ok w fs ops :
  world_ok w fs →
  match allocate (w_next_entity w) ops with
  | Ok n => ∃ c, construct w ops = Ok c ∧
      commit_frame c = CommitFrame_mk (w_id w) (c_id c) (w_version w) (u64_add (w_version w) 1) n ops ∧
      c_id c = calculate_world_id (w_id w) (u64_add (w_version w) 1) n ops ∧
      c_base_operation_count c = w_operation_count w ∧
      k_rep (c_kernel c) (frame_events fs ++ events_of ops) n
  | Err e => construct w ops = Err e
  | Panic => False
  end.
Proof.
  intros Hw. destruct (world_kernel_ok _ _ Hw) as (k & w1 & Hk & Hr & _).
  unfold construct, construct_from_state. rewrite Hk. cbn [or_panic outcome_bind fst].
  pose proof (apply_operations_spec k _ _ ops Hr) as Hs.
  destruct (allocate _ ops) as [n|e|]; [|by rewrite Hs|done].
  destruct Hs as (k' & -> & Hk'). cbn [outcome_bind].
  rewrite (k_rep_validate _ _ _ Hk'). cbn [map_err outcome_bind].
  eexists. split; [done|]. done.
Qed.

(** The frame of a candidate extends the history its base world has. *)
Lemma candidate_chain w fs ops n :
  world_ok w fs → allocate (w_next_entity w) ops = Ok n →
  check_chain (fs ++ [CommitFrame_mk (w_id w)
    (calculate_world_id (w_id w) (u64_add (w_version w) 1) n ops) (w_version w)
    (u64_add (w_version w) 1) n ops]) =
  Ok (calculate_world_id (w_id w) (u64_add (w_version w) 1) n ops, u64_add (w_version w) 1, n).
Proof.
  intros Hw Ha. rewrite check_chain_snoc, (wo_chain _ _ Hw). cbn [outcome_bind]. unfold check_frame.
  cbn [parent_world parent_version frame_operations resulting_allocator resulting_version resulting_world].
  rewrite !decide_False by (intros Hne; by apply Hne). rewrite Ha. cbn [outcome_bind].
  by rewrite !decide_False by (intros Hne; by apply Hne).
Qed.

(** A candidate that continues a world. *)
Record candidate_ok (w : World D P) fs (c : CandidateWorld D) : Prop := {
  co_frame : commit_frame c = CommitFrame_mk (w_id w)
    (calculate_world_id (w_id w) (u64_add (w_version w) 1) (c_next_entity c) (c_operations c))
    (w_version w) (u64_add (w_version w) 1) (c_next_entity c) (c_operations c);
  co_count : c_base_operation_count c = w_operation_count w;
  co_allocate : allocate (w_next_entity w) (c_operations c) = Ok (c_next_entity c);
  co_kernel : k_rep (c_kernel c) (frame_events fs ++ events_of (c_operations c)) (c_next_entity c);
}.

Lemma construct_candidate w fs ops c :
  world_ok w fs → construct w ops = Ok c → candidate_ok w fs c ∧ c_operations c = ops.
Proof.
  intros Hw Hc. pose proof (construct_ok w fs ops Hw) as Hs.
  destruct (allocate _ _) as [n|e|] eqn:Ha; [|by rewrite Hc in Hs|done].
  destruct Hs as (c' & Hc' & Hf & Hid & Hops & Hk). rewrite Hc in Hc'. injection Hc' as <-.
  pose proof Hf as Hf'. unfold commit_frame in Hf'. injection Hf' as Hb Hbv Hv Hn Ho.
  rewrite Hid in Hf. split; [|done]. split; rewrite ?Hn, ?Ho; done.
Qed.

Lemma candidate_into_world w fs c :
  world_ok w fs → w_history_prefix w = None → candidate_ok w fs c →
  world_ok (into_world c (commit_frame c) (w_history w)) (fs ++ [commit_frame c]).
Proof.
  intros Hw Hp [Hf Hops Ha Hk].
  pose proof (candidate_chain w fs _ _ Hw Ha) as Hch. rewrite <- Hf in Hch.
  assert (c_version c = u64_add (w_version w) 1 ∧ c_id c = calculate_world_id (w_id w)
    (u64_add (w_version w) 1) (c_next_entity c) (c_operations c)) as [Hv Hid]
    by (unfold commit_frame in Hf; by injection Hf).
  assert (frame_events fs ++ events_of (c_operations c) = frame_events (fs ++ [commit_frame c]))
    as Hev by (by rewrite frame_events_snoc).
  rewrite Hev in Hk. split; simpl.
  - unfold world_frames. simpl. rewrite history_frames_push.
    pose proof (wo_frames _ _ Hw) as Hfr. unfold world_frames in Hfr. rewrite Hp in Hfr.
    simpl in Hfr. by rewrite Hfr.
  - by rewrite Hv, Hid.
  - by rewrite Hops, (wo_operations _ _ Hw), chain_operations_snoc, length_app.
  - by apply (k_rep_active_slot_count _ _ _ Hk).
  - by apply (k_rep_record_count _ _ _ Hk).
  - by intros k [= <-].
  - done.
  - done.
  - done.
  - done.
  - done.
Qed.

Lemma into_world_ok w fs ops n c :
  world_ok w fs → w_history_prefix w = None →
  allocate (w_next_entity w) ops = Ok n → construct w ops = Ok c →
  world_ok (into_world c (commit_frame c) (w_history w)) (fs ++ [commit_frame c]).
Proof. intros Hw Hp _ Hc. apply candidate_into_world; [done..|]. by apply (construct_candidate w fs ops). Qed.

(** ** VM epochs *)

Lemma check_chain_version fs st f2 fs1 fs2 v id n :
  check_chain fs = Ok st → fs = fs1 ++ fs2 → check_chain fs1 = Ok (id, v, n) →
  Forall (λ f, v < resulting_version f)%N fs2 → f2 = st.1.2 → (v ≤ f2)%N.
Proof.
  intros Hc -> Hc1 Hall ->. destruct fs2 as [|f fs2 _] using rev_ind.
  - rewrite app_nil_r, Hc1 in Hc. by injection Hc as <-.
  - rewrite (assoc_L (++)) in Hc. rewrite (check_chain_last _ _ f Hc) by apply last_snoc. simpl.
    apply Forall_app in Hall as [_ Hf]. apply Forall_cons in Hf as [Hf _]. lia.
Qed.

Lemma from_vm_epoch_ok (base : World D P) fs ops n active records :
  world_ok base fs → u64_ok (w_version base + 1) →
  allocate (w_next_entity base) ops = Ok n →
  active = usize_of (spec_active_count (frame_events fs ++ events_of ops)) →
  records = length (frame_events fs ++ events_of ops) →
  let r := from_vm_epoch base ops n active records in
  world_ok r.1 (fs ++ [r.2]) ∧ frame_operations r.2 = ops.
Proof.
  intros Hw Hv Ha Hact Hrec. unfold from_vm_epoch.
  set (version := u64_add (w_version base) 1).
  set (f := CommitFrame_mk _ _ _ _ _ _). cbn [fst snd]. split; [|done].
  assert (version = w_version base + 1)%N as Hver by by apply u64_add_small.
  pose proof (candidate_chain base fs ops n Hw Ha) as Hch. fold version in Hch. fold f in Hch.
  assert (frame_events fs ++ events_of ops = frame_events (fs ++ [f])) as Hev
    by (by rewrite frame_events_snoc).
  rewrite Hev in *. split; simpl.
  - pose proof (wo_frames _ _ Hw) as Hfr. unfold world_frames in *. simpl.
    rewrite history_frames_push, (assoc_L (++)). by rewrite Hfr.
  - done.
  - by rewrite (wo_operations _ _ Hw), chain_operations_snoc, length_app.
  - done.
  - done.
  - done.
  - done.
  - done.
  - intros b Hb Hp. unfold base_ok.
    assert (∀ k, k_rep k (frame_events fs) (w_next_entity base) →
      ∃ fs1 fs2, fs ++ [f] = fs1 ++ fs2 ∧
        k_rep k (frame_events fs1) (w_next_entity base) ∧
        (∃ id, check_chain fs1 = Ok (id, w_version base, w_next_entity base)) ∧
        Forall (λ f0, w_version base < resulting_version f0)%N fs2) as Hfull.
    { intros k Hk. exists fs, [f]. split_and!; [done|done| |].
      - exists (w_id base). apply Hw.
      - apply Forall_singleton. simpl. lia. }
    destruct (w_lazy_kernel base) as [k|] eqn:Hl;
      [injection Hb as <-; by apply Hfull, (wo_lazy _ _ Hw)|].
    destruct (w_eager_kernel base) as [k|] eqn:He;
      [injection Hb as <-; by apply Hfull, (wo_eager _ _ Hw)|].
    destruct (wo_base _ _ Hw b Hb Hp) as (fs1 & fs2 & Hfs & Hk & [id Hc1] & Hall).
    exists fs1, (fs2 ++ [f]). split_and!; [by rewrite Hfs, (assoc_L (++))|done|eauto|].
    apply Forall_app. split; [done|]. apply Forall_singleton. simpl.
    pose proof (check_chain_version _ _ _ _ _ _ _ _ (wo_chain _ _ Hw) Hfs Hc1 Hall eq_refl). simpl in *. lia.
  - intros _ Hb Hp.
    destruct (w_lazy_kernel base) eqn:Hl; [done|]. destruct (w_eager_kernel base) eqn:He; [done|].
    apply Forall_app. split; [by apply (wo_versions _ _ Hw)|]. apply Forall_singleton. simpl. lia.
  - done.
Qed.
End world.
