(* ===== verification/WorldProps.v ===== *)
(** The properties of worlds and of the database: commits are atomic and
    optimistic, a database is recovered from its store, only valid histories are
    accepted, VM-backed worlds and their query projection agree with the
    kernel. *)
From Stdlib Require Import NArith Lia.
From stdpp Require Import sorting base gmap list strings fin_maps option list_monad.
From S2P Require Import Prelude Ord Terms Bytes Query QueryFacts Spec Index Kernel.
From S2P Require Import SharedTypes.
From S2P Require Import LegacyDb SharedStore SharedDb KernelProps.
From S2P Require Import Frames VmProjection Worlds WorldFacts.

(** A database without mapped snapshots. *)
#[export] Instance no_mapped : MappedRoot Empty_set := {
  mr_frames p := match p with end;
  mr_resolve p _ := match p with end;
  mr_definitions p _ := match p with end;
  mr_query p _ _ := match p with end;
  mr_world_id p := match p with end;
  mr_world_version p := match p with end;
  mr_next_entity p := match p with end;
  mr_operation_count p := match p with end;
  mr_active_slot_count p := match p with end;
  mr_record_count p := match p with end;
}.

#[export] Program Instance no_mapped_laws : MappedRootLaws Empty_set := { mr_ok p := True }.
Solve All Obligations with by intros [].

Section database.
Context {D P S E : Type} `{KernelLaws D, MappedRootLaws P, CommitStoreLaws S E}.

Abbreviation DB := (Database D P S).

(** The store holds the history of the published world. *)
Record db_ok (db : DB) (fs : list CommitFrame) : Prop := {
  dbo_store : store_frames (db_store db) = fs;
  dbo_world : world_ok (db_current db) fs;
  dbo_prefix : w_history_prefix (db_current db) = None;
}.

Lemma database_new_ok (store : S) :
  match check_chain (store_frames store) with
  | Ok (id, version, next_entity) =>
      ∃ db : DB, database_new store = Ok db ∧ db_ok db (store_frames store) ∧
        w_id (db_current db) = id ∧ w_version (db_current db) = version ∧
        w_next_entity (db_current db) = next_entity
  | Err e => database_new (D := D) (P := P) store = Err e
  | Panic => False
  end.
Proof.
  pose proof (reconstruct_ok (D := D) (P := P) (store_frames store)) as Hr.
  unfold database_new. destruct (check_chain _) as [[[id v] n]|e|] eqn:Hc; [|by rewrite Hr|done].
  destruct Hr as (w & -> & Hok & Hid & Hv & Hn & Hp). cbn [outcome_bind].
  eexists. split; [done|]. split; [|done]. by split.
Qed.

(** What a commit of a transaction on the current world does. *)
Lemma commit_current (db : DB) fs (t : Transaction D P) :
  db_ok db fs → tx_base t = db_current db →
  match allocate (w_next_entity (db_current db)) (tx_operations t) with
  | Err e => commit (E := E) db t = (Err (CandidateFailed e), db)
  | Panic => False
  | Ok n =>
      let w := db_current db in
      let version := u64_add (w_version w) 1 in
      let id := calculate_world_id (w_id w) version n (tx_operations t) in
      let f := CommitFrame_mk (w_id w) id (w_version w) version n (tx_operations t) in
      ∃ c, tx_candidate t = Ok c ∧ commit_frame c = f ∧
        match run_validators (db_validators db) c with
        | Err m => commit (E := E) db t = (Err (ValidationFailed m), db)
        | Panic => commit (E := E) db t = (Panic, db)
        | Ok _ =>
            match store_append (db_store db) f with
            | (Ok _, store) => ∃ w' db', commit (E := E) db t = (Ok w', db') ∧
                db_current db' = w' ∧ db_validators db' = db_validators db ∧ db_store db' = store ∧
                w_id w' = id ∧ w_version w' = version ∧ w_next_entity w' = n ∧
                db_ok db' (fs ++ [f])
            | (Err e, store) => ∃ db', commit (E := E) db t = (Err (StoreFailed e), db') ∧
                db_current db' = db_current db ∧ db_validators db' = db_validators db ∧
                db_store db' = store ∧ db_ok db' fs
            | (Panic, _) => False
            end
        end
  end.
Proof.
  intros [Hst Hw Hp] Hb. unfold commit, tx_candidate. rewrite Hb.
  rewrite decide_False by (intros Hne; by apply Hne).
  pose proof (construct_ok _ _ (tx_operations t) Hw) as Hc.
  destruct (allocate _ _) as [n|e|] eqn:Ha; [|by rewrite Hc|done].
  destruct Hc as (c & Hc & Hf & Hid & Hops & Hk). exists c. split; [done|].
  rewrite <- Hid, <- Hf. split; [done|]. rewrite Hc.
  destruct (run_validators _ c) as [u|m|]; [|done|done].
  destruct (store_append _ (commit_frame c)) as [[[]|e|] store] eqn:Happ.
  - do 2 eexists. split; [done|]. simpl. split_and!; [done|done|done|done| |..].
    + unfold commit_frame in Hf. by injection Hf.
    + unfold commit_frame in Hf. by injection Hf.
    + split; simpl; [|by apply (into_world_ok _ _ (tx_operations t) n)|done].
      by rewrite (store_append_ok _ _ _ Happ), Hst.
  - eexists. split; [done|]. simpl. split_and!; [done|done|done|]. split; [|done|done].
    by rewrite <- Hst; apply (store_append_err _ _ _ _ Happ).
  - by pose proof (store_append_panic (db_store db) (commit_frame c)) as Hn; rewrite Happ in Hn.
Qed.

Lemma commit_stale (db : DB) (t : Transaction D P) :
  w_id (tx_base t) ≠ w_id (db_current db) →
  commit (E := E) db t = (Err (StaleTransaction (w_id (tx_base t)) (w_id (db_current db))), db).
Proof. intros Hne. unfold commit. by rewrite decide_True. Qed.

(** The states a database goes through when transactions are committed in any
    order: each was begun on the world that is now current, or its identity
    is stale. *)
Inductive db_step : DB → DB → Prop :=
| step_commit db t : tx_base t = db_current db → db_step db (commit (E := E) db t).2
| step_stale db t : w_id (tx_base t) ≠ w_id (db_current db) →
    db_step db (commit (E := E) db t).2
| step_validator db v : db_step db (register_validator db v).

Inductive db_reachable (store : S) : DB → Prop :=
| reach_new db : database_new store = Ok db → db_reachable store db
| reach_step db db' : db_reachable store db → db_step db db' → db_reachable store db'.

Lemma db_step_ok db db' fs : db_ok db fs → db_step db db' → ∃ fs', db_ok db' fs'.
Proof.
  intros Hdb Hstep. destruct Hstep as [db t Hb|db t Hne|db v].
  - pose proof (commit_current db fs t Hdb Hb) as Hc.
    destruct (allocate _ _) as [n|e|]; [|rewrite Hc; eauto|done].
    destruct Hc as (c & _ & _ & Hc).
    destruct (run_validators _ c) as [u|m|]; [|rewrite Hc; eauto..].
    destruct (store_append _ _) as [[u'|e|] store]; [| |done].
    + destruct Hc as (w' & db' & -> & _ & _ & _ & _ & _ & _ & Hok). eauto.
    + destruct Hc as (db' & -> & _ & _ & _ & Hok). eauto.
  - rewrite commit_stale by done. eauto.
  - destruct Hdb. exists fs. by split.
Qed.

Lemma db_reachable_ok store db : db_reachable store db → ∃ fs, db_ok db fs.
Proof.
  induction 1 as [db Hnew|db db' _ [fs Hok] Hstep]; [|by eapply db_step_ok].
  pose proof (database_new_ok store) as Hn. rewrite Hnew in Hn.
  destruct (check_chain _) as [[[id v] n]|e|]; [|done|done].
  destruct Hn as (db' & [= <-] & Hok & _). eauto.
Qed.
End database.

(** C6: A commit is atomic.  For a transaction begun on the current world:
    either it succeeds, and then the store has exactly one more frame, the new
    world is published, its identity, version and allocator are the
    transaction's, and everything it reports is the old history extended by the
    transaction's operations; or it fails at the allocator, a validator or the
    store, and then the published world is the old one and the store holds the
    old frames.  It panics only if a validator does. *)
Theorem commit_atomic {D P S E : Type} `{KernelLaws D, MappedRootLaws P, CommitStoreLaws S E}
    (db : Database D P S) fs t :
  db_ok db fs → tx_base t = db_current db →
  match commit (E := E) db t with
  | (Ok w, db') => ∃ n f,
      allocate (w_next_entity (db_current db)) (tx_operations t) = Ok n ∧
      f = CommitFrame_mk (w_id (db_current db)) (w_id w) (w_version (db_current db)) (w_version w) n
            (tx_operations t) ∧
      w_version w = u64_add (w_version (db_current db)) 1 ∧ w_next_entity w = n ∧
      db_current db' = w ∧ db_ok db' (fs ++ [f]) ∧ world_observes w (fs ++ [f])
  | (Err e, db') => db_current db' = db_current db ∧ db_ok db' fs
  | (Panic, db') => db' = db ∧ ∃ c, run_validators (db_validators db) c = Panic
  end.
Proof.
  intros Hdb Hb. pose proof (commit_current db fs t Hdb Hb) as Hc.
  destruct (allocate _ _) as [n|e|] eqn:Ha; [|by rewrite Hc|done].
  destruct Hc as (c & _ & _ & Hc).
  destruct (run_validators _ c) as [u|m|] eqn:Hv; [|by rewrite Hc|rewrite Hc; eauto].
  destruct (store_append _ _) as [[u'|e|] store]; [| |done].
  - destruct Hc as (w' & db' & -> & Hcur & _ & _ & Hid & Hver & Hn & Hok). subst w'.
    do 2 eexists. split; [done|]. split; [by rewrite Hid, Hver|].
    split_and!; [done|done|done| |].
    + exact Hok.
    + apply world_ok_observes, Hok.
  - destruct Hc as (db' & -> & Hcur & _ & _ & Hok). done.
Qed.

Abbreviation MemoryDb := (Database LegacyDb.ForthDb Empty_set MemoryCommitStore) (only parsing).

(** The database over an empty store. *)
Definition fresh : MemoryDb := Database_mk (set_eager_kernel genesis kernel_new) [] [].

Lemma fresh_new : database_new [] = Ok fresh.
Proof. reflexivity. Qed.

Lemma fresh_ok : db_ok (E := Empty_set) fresh [].
Proof.
  pose proof (database_new_ok (D := LegacyDb.ForthDb) (P := Empty_set) (S := MemoryCommitStore)
    (E := Empty_set) []) as Hn.
  destruct Hn as (db & Hnew & Hok & _).
  pose proof (eq_trans (eq_sym Hnew) fresh_new) as Heq. by injection Heq as ->.
Qed.

Definition sample_transaction {D P} (w : World D P) : Transaction D P :=
  let '(e, t) := tx_entity (tx_new w) in
  tx_define t slot_a (Fact_new (AEntity e) (Predicate_new "p") (ALiteral (Literal_new "x"))).

Definition sample_tx : Transaction LegacyDb.ForthDb Empty_set := sample_transaction (db_current fresh).

Lemma sample_commit :
  ∃ w db', commit (E := Empty_set) fresh sample_tx = (Ok w, db') ∧
    w_id w = calculate_world_id GENESIS 1 2 (tx_operations sample_tx) ∧ db_current db' = w.
Proof.
  pose proof (commit_current fresh [] sample_tx fresh_ok eq_refl) as Hc.
  change (allocate _ _) with (Ok 2%N : outcome CandidateError N) in Hc.
  destruct Hc as (c & _ & _ & Hc). simpl in Hc.
  destruct Hc as (w & db' & Hc & Hcur & _ & _ & Hid & _). exists w, db'.
  split_and!; [exact Hc|exact Hid|exact Hcur].
Qed.

Lemma commit_atomic_witness :
  match commit (E := Empty_set) fresh sample_tx with
  | (Ok w, db') => ∃ n f,
      allocate (w_next_entity (db_current fresh)) (tx_operations sample_tx) = Ok n ∧
      f = CommitFrame_mk (w_id (db_current fresh)) (w_id w) (w_version (db_current fresh))
            (w_version w) n (tx_operations sample_tx) ∧
      w_version w = u64_add (w_version (db_current fresh)) 1 ∧ w_next_entity w = n ∧
      db_current db' = w ∧ db_ok (E := Empty_set) db' ([] ++ [f]) ∧ world_observes w ([] ++ [f])
  | (Err e, db') => db_current db' = db_current fresh ∧ db_ok (E := Empty_set) db' []
  | (Panic, db') => db' = fresh ∧ ∃ c, run_validators (db_validators fresh) c = Panic
  end.
Proof. apply (commit_atomic fresh [] sample_tx fresh_ok). reflexivity. Defined.

(** Optimistic concurrency, first committer wins.  Of two transactions
    begun on the same world, once one has committed (and changed the identity)
    the other is refused as stale with both identities reported, and the
    database is left exactly as it was. *)
Theorem first_committer_wins {D P S E : Type} `{Kernel D, MappedRoot P, CommitStore S E}
    (db db' : Database D P S) (t1 t2 : Transaction D P) w :
  tx_base t1 = db_current db → tx_base t2 = db_current db →
  commit (E := E) db t1 = (Ok w, db') → w_id w ≠ w_id (db_current db) →
  commit (E := E) db' t2 = (Err (StaleTransaction (w_id (db_current db)) (w_id w)), db').
Proof.
  intros Hb1 Hb2 Hc Hid.
  assert (db_current db' = w) as Hcur.
  { revert Hc. unfold commit. case_decide; [done|].
    destruct (tx_candidate t1) as [c| |]; try done.
    destruct (run_validators _ c); try done.
    destruct (store_append _ _) as [[] store]; try done. by intros [= <- <-]. }
  unfold commit at 1. rewrite Hb2, Hcur. by rewrite decide_True.
Qed.

Lemma first_committer_wins_witness :
  ∃ w db', commit (E := Empty_set) fresh sample_tx = (Ok w, db') ∧
    commit (E := Empty_set) db' (tx_new (db_current fresh)) =
      (Err (StaleTransaction (w_id (db_current fresh)) (w_id w)), db').
Proof.
  destruct sample_commit as (w & db' & Hc & Hid & _).
  exists w, db'. split; [exact Hc|].
  apply (first_committer_wins fresh db' sample_tx (tx_new (db_current fresh)) w eq_refl eq_refl Hc).
  rewrite Hid. vm_compute. discriminate.
Defined.

(** C8: Recovery.  Whatever sequence of commits (successful, rejected, stale)
    and validator registrations a database went through, opening a database on
    its store succeeds and yields a world with the same identity, version,
    allocator and counts that answers every resolve, definitions and query
    alike. *)
Theorem recovery {D P S E : Type} `{KernelLaws D, MappedRootLaws P, CommitStoreLaws S E}
    (store : S) (db : Database D P S) :
  db_reachable (E := E) store db →
  ∃ fs (db' : Database D P S), database_new (E := E) (db_store db) = Ok db' ∧
    store_frames (db_store db) = fs ∧
    w_id (db_current db') = w_id (db_current db) ∧
    w_version (db_current db') = w_version (db_current db) ∧
    w_next_entity (db_current db') = w_next_entity (db_current db) ∧
    w_operation_count (db_current db') = w_operation_count (db_current db) ∧
    w_active_slot_count (db_current db') = w_active_slot_count (db_current db) ∧
    w_record_count (db_current db') = w_record_count (db_current db) ∧
    world_observes (db_current db) fs ∧ world_observes (db_current db') fs.
Proof.
  intros [fs Hdb]%db_reachable_ok. pose proof (dbo_world _ _ Hdb) as Hw.
  pose proof (database_new_ok (D := D) (P := P) (E := E) (db_store db)) as Hn.
  rewrite (dbo_store _ _ Hdb), (wo_chain _ _ Hw) in Hn.
  destruct Hn as (db' & Hnew & Hdb' & Hid & Hv & Hnx). pose proof (dbo_world _ _ Hdb') as Hw'.
  exists fs, db'. split_and!; try done; [by apply Hdb|..].
  - by rewrite (wo_operations _ _ Hw), (wo_operations _ _ Hw').
  - by rewrite (wo_active _ _ Hw), (wo_active _ _ Hw').
  - by rewrite (wo_records _ _ Hw), (wo_records _ _ Hw').
  - by apply world_ok_observes.
  - by apply world_ok_observes.
Qed.

Lemma recovery_witness :
  ∃ (db : MemoryDb) fs (db' : MemoryDb),
    db = (commit (E := Empty_set) fresh sample_tx).2 ∧
    database_new (E := Empty_set) (db_store db) = Ok db' ∧ store_frames (db_store db) = fs ∧
    w_id (db_current db') = w_id (db_current db) ∧
    w_version (db_current db') = w_version (db_current db) ∧
    w_next_entity (db_current db') = w_next_entity (db_current db) ∧
    w_operation_count (db_current db') = w_operation_count (db_current db) ∧
    w_active_slot_count (db_current db') = w_active_slot_count (db_current db) ∧
    w_record_count (db_current db') = w_record_count (db_current db) ∧
    world_observes (db_current db) fs ∧ world_observes (db_current db') fs.
Proof.
  exists (commit (E := Empty_set) fresh sample_tx).2.
  destruct (recovery (E := Empty_set) [] (commit (E := Empty_set) fresh sample_tx).2)
    as (fs & db' & H).
  - apply (reach_step [] fresh); [by apply reach_new|]. by apply step_commit.
  - exists fs, db'. split; [reflexivity|exact H].
Defined.

(** C9: Reconstruction accepts exactly the valid histories.  A list of frames
    is rebuilt into the world it describes when every frame names its parent's
    identity and version, its allocations are consecutive and end at its
    recorded allocator, and its identity is the hash of its content; otherwise
    the error is that of the first failing check of the first failing frame,
    and there is never a panic. *)
Theorem reconstruct_checks_history {D P : Type} `{KernelLaws D, MappedRootLaws P}
    (fs : list CommitFrame) :
  match check_chain fs with
  | Ok (id, version, next_entity) => ∃ w : World D P,
      reconstruct fs = Ok w ∧ w_id w = id ∧ w_version w = version ∧
      w_next_entity w = next_entity ∧ world_observes w fs
  | Err e => reconstruct (D := D) (P := P) fs = Err e
  | Panic => False
  end.
Proof.
  pose proof (reconstruct_ok (D := D) (P := P) fs) as Hr.
  destruct (check_chain fs) as [[[id v] n]|e|]; [|done|done].
  destruct Hr as (w & Hw & Hok & Hid & Hv & Hn & _). exists w. split_and!; try done.
  by apply world_ok_observes.
Qed.

(** A frame whose identity does not match its content. *)
Definition tampered_frame : CommitFrame := CommitFrame_mk GENESIS GENESIS 0 1 1 [OpForget slot_a].

Lemma reconstruct_checks_history_witness :
  match check_chain [tampered_frame] with
  | Ok (id, version, next_entity) => ∃ w : World LegacyDb.ForthDb Empty_set,
      reconstruct [tampered_frame] = Ok w ∧ w_id w = id ∧ w_version w = version ∧
      w_next_entity w = next_entity ∧ world_observes w [tampered_frame]
  | Err e => reconstruct (D := LegacyDb.ForthDb) (P := Empty_set) [tampered_frame] = Err e
  | Panic => False
  end.
Proof. apply (reconstruct_checks_history (D := LegacyDb.ForthDb) (P := Empty_set) [tampered_frame]). Defined.

(** VM epochs.  The world a committed VM epoch publishes carries neither a
    kernel nor a projection, yet its frame extends the history validly, and
    both views that can be materialized from it later, the native query
    projection and the legacy kernel rebuilt from a cached base, report exactly
    the base history followed by the epoch's operations. *)
Theorem vm_epoch_world {D P : Type} `{KernelLaws D, MappedRootLaws P} (base : World D P) fs ops n
    active records :
  world_ok base fs → u64_ok (w_version base + 1) →
  allocate (w_next_entity base) ops = Ok n →
  active = usize_of (spec_active_count (frame_events fs ++ events_of ops)) →
  records = length (frame_events fs ++ events_of ops) →
  let r := from_vm_epoch base ops n active records in
  check_chain (fs ++ [r.2]) = Ok (w_id r.1, w_version r.1, n) ∧
  is_query_projection_materialized r.1 = false ∧
  is_legacy_query_projection_materialized r.1 = false ∧
  world_frames r.1 = fs ++ [r.2] ∧
  world_observes r.1 (fs ++ [r.2]) ∧
  ∃ k w', world_kernel r.1 = Some (k, w') ∧ kernel_observes k (frame_events fs ++ events_of ops) ∧
    world_observes w' (fs ++ [r.2]).
Proof.
  intros Hw Hv Ha Hact Hrec.
  destruct (from_vm_epoch_ok base fs ops n active records Hw Hv Ha Hact Hrec) as [Hok Hops].
  cbv zeta. destruct (world_kernel_ok _ _ Hok) as (k & w' & Hk & Hr & Hw').
  split_and!; [apply Hok|done|done|apply Hok|by apply world_ok_observes|].
  exists k, w'. split_and!; [done| |by apply world_ok_observes].
  rewrite frame_events_snoc, Hops in Hr. by apply (k_rep_observes _ _ _ Hr).
Qed.

Lemma vm_epoch_world_witness :
  let r := from_vm_epoch (db_current fresh) (tx_operations sample_tx) 2 1 1 in
  check_chain ([] ++ [r.2]) = Ok (w_id r.1, w_version r.1, 2%N) ∧
  is_query_projection_materialized r.1 = false ∧
  is_legacy_query_projection_materialized r.1 = false ∧
  world_frames r.1 = [] ++ [r.2] ∧
  world_observes r.1 ([] ++ [r.2]) ∧
  ∃ k w', world_kernel r.1 = Some (k, w') ∧
    kernel_observes k (frame_events [] ++ events_of (tx_operations sample_tx)) ∧
    world_observes w' ([] ++ [r.2]).
Proof.
  apply (vm_epoch_world (db_current fresh) [] (tx_operations sample_tx) 2 1 1).
  - apply fresh_ok.
  - reflexivity.
  - reflexivity.
  - vm_compute. reflexivity.
  - reflexivity.
Defined.

(** The native query projection, built in one pass over the commit frames,
    and the legacy kernel, run on the events of those frames, give the same
    answer to every resolve, definitions and query, metrics and chosen join
    path included. *)
Theorem projection_matches_kernel (fs : list CommitFrame) :
  let q := projection_from_frames (P := Empty_set) fs in
  ∃ d : LegacyDb.ForthDb, kernel_run LegacyDb.new (frame_events fs) = Some d ∧
    (∀ s, LegacyDb.db_resolve d s = Some (projection_resolve q s)) ∧
    (∀ s, LegacyDb.db_definitions d s = Some (projection_definitions q s)) ∧
    (∀ ps o, LegacyDb.db_query d ps o = projection_query q ps o).
Proof.
  cbv zeta. destruct (kernel_run_observes (D := LegacyDb.ForthDb) (frame_events fs)) as (d & Hrun & Hd).
  pose proof (projection_from_frames_rep (P := Empty_set) fs) as Hq.
  exists d. split_and!; [exact Hrun|intros s|intros s|intros ps o].
  - rewrite (projection_resolve_rep _ _ s Hq). apply (k_rep_resolve _ _ _ s Hd).
  - rewrite (projection_definitions_rep _ _ s Hq). apply (k_rep_definitions _ _ _ s Hd).
  - rewrite (projection_query_rep _ _ ps o Hq). apply (k_rep_query _ _ _ ps o Hd).
Qed.
