(* ===== verification/Intents.v ===== *)
(** Queued intents (forthdb-world/src/queued.rs, lines 13-190 and 2488-2559): the
    operations of an intent over temporary entities local to it, the builder
    that hands temporaries out, and the resolution of an intent into
    operations on the entities the allocator will mint. *)
From Stdlib Require Import NArith Lia.
From stdpp Require Import base gmap countable list strings option list_monad.
From S2P Require Import Prelude Ord Terms Query Spec Index Kernel Frames.

(** ** Data *)

Record TempEntity := TempEntity_mk { te_namespace : N; te_index : N }.

#[export] Instance TempEntity_eq_dec : EqDecision TempEntity.
Proof. solve_decision. Defined.
#[export] Instance TempEntity_countable : Countable TempEntity.
Proof.
  by apply (inj_countable' (λ t, (te_namespace t, te_index t)) (λ p, TempEntity_mk p.1 p.2)); intros [].
Defined.

Inductive IntentAtom :=
| IEntity (e : EntityId)
| ITemporary (t : TempEntity)
| ILiteral (l : Literal).

(** [impl From<Atom> for IntentAtom]. *)
Definition IntentAtom_from (a : Atom) : IntentAtom :=
  match a with AEntity e => IEntity e | ALiteral l => ILiteral l end.

Record IntentFact := IntentFact_new {
  if_subject : IntentAtom;
  if_predicate : Predicate;
  if_object : IntentAtom;
}.

(** [impl From<Fact> for IntentFact]. *)
Definition IntentFact_from (f : Fact) : IntentFact :=
  IntentFact_new (IntentAtom_from (fact_subject f)) (fact_predicate f)
    (IntentAtom_from (fact_object f)).

Inductive IntentPrecondition :=
| ExpectedWorld (w : WorldId)
| ExpectedSlot (slot : SlotId) (expected : option Fact).

Inductive IntentOperation :=
| IAllocate (t : TempEntity)
| IDefine (slot : SlotId) (fact : IntentFact)
| IForget (slot : SlotId).

Record QueuedIntent := QueuedIntent_mk {
  qi_namespace : N;
  qi_next_temporary : N;
  qi_preconditions : list IntentPrecondition;
  qi_operations : list IntentOperation;
}.

#[export] Instance IntentAtom_eq_dec : EqDecision IntentAtom.
Proof. solve_decision. Defined.
#[export] Instance IntentFact_eq_dec : EqDecision IntentFact.
Proof. solve_decision. Defined.
#[export] Instance IntentPrecondition_eq_dec : EqDecision IntentPrecondition.
Proof. solve_decision. Defined.
#[export] Instance IntentOperation_eq_dec : EqDecision IntentOperation.
Proof. solve_decision. Defined.
#[export] Instance QueuedIntent_eq_dec : EqDecision QueuedIntent.
Proof. solve_decision. Defined.

(** ** The builder *)

(** [NEXT_INTENT_NAMESPACE.fetch_add(1)], wrapping. *)
Definition intent_new (counter : N) : QueuedIntent * N :=
  (QueuedIntent_mk counter 0 [] [], u64_add counter 1).

Definition push_precondition (i : QueuedIntent) (p : IntentPrecondition) : QueuedIntent :=
  QueuedIntent_mk (qi_namespace i) (qi_next_temporary i) (qi_preconditions i ++ [p])
    (qi_operations i).

Definition push_operation (i : QueuedIntent) (op : IntentOperation) : QueuedIntent :=
  QueuedIntent_mk (qi_namespace i) (qi_next_temporary i) (qi_preconditions i)
    (qi_operations i ++ [op]).

Definition expect_world (i : QueuedIntent) (w : WorldId) : QueuedIntent :=
  push_precondition i (ExpectedWorld w).
Definition expect_value (i : QueuedIntent) (slot : SlotId) (fact : Fact) : QueuedIntent :=
  push_precondition i (ExpectedSlot slot (Some fact)).
Definition expect_absent (i : QueuedIntent) (slot : SlotId) : QueuedIntent :=
  push_precondition i (ExpectedSlot slot None).

(** [checked_add(1).expect("... overflow")] on a [u32]. *)
Definition intent_entity (i : QueuedIntent) : option (TempEntity * QueuedIntent) :=
  let temporary := TempEntity_mk (qi_namespace i) (qi_next_temporary i) in
  if (qi_next_temporary i + 1 <? u32_modulus)%N
  then Some (temporary,
    QueuedIntent_mk (qi_namespace i) (qi_next_temporary i + 1) (qi_preconditions i)
      (qi_operations i ++ [IAllocate temporary]))
  else None.

Definition intent_define (i : QueuedIntent) (slot : SlotId) (fact : IntentFact) : QueuedIntent :=
  push_operation i (IDefine slot fact).
Definition intent_define_fact (i : QueuedIntent) (slot : SlotId) (fact : Fact) : QueuedIntent :=
  intent_define i slot (IntentFact_from fact).
Definition intent_forget (i : QueuedIntent) (slot : SlotId) : QueuedIntent :=
  push_operation i (IForget slot).

(** ** Resolution *)

Inductive IntentRejection :=
| WorldPrecondition (expected actual : WorldId)
| SlotPrecondition (slot : SlotId) (expected actual : option Fact)
| UnknownTemporaryEntity (t : TempEntity)
| IntentCandidate (error : CandidateError)
| IntentValidation (message : string).

Abbreviation Entities := (gmap TempEntity EntityId) (only parsing).

Definition resolve_atom (a : IntentAtom) (namespace : N) (entities : Entities) :
    outcome IntentRejection Atom :=
  match a with
  | IEntity e => Ok (AEntity e)
  | ITemporary t =>
      if decide (te_namespace t ≠ namespace) then Err (UnknownTemporaryEntity t)
      else ok_or (AEntity <$> entities !! t) (UnknownTemporaryEntity t)
  | ILiteral l => Ok (ALiteral l)
  end.

Definition resolve_fact (f : IntentFact) (namespace : N) (entities : Entities) :
    outcome IntentRejection Fact :=
  let* subject := resolve_atom (if_subject f) namespace entities in
  let* object := resolve_atom (if_object f) namespace entities in
  Ok (Fact_new subject (if_predicate f) object).

(** One iteration of the loop of [resolve_operations_from]; the state is the
    allocator, the entities and the operations so far. *)
Definition resolve_operation (namespace : N) (st : N * Entities * list Operation)
    (op : IntentOperation) : outcome IntentRejection (N * Entities * list Operation) :=
  let '(next_entity, entities, operations) := st in
  match op with
  | IAllocate t =>
      if decide (te_namespace t ≠ namespace) then Err (UnknownTemporaryEntity t)
      else
        let entity := EntityId_new next_entity in
        let* next_entity := or_panic (u64_checked_add next_entity 1) in
        Ok (next_entity, <[t := entity]> entities, operations ++ [AllocateEntity entity])
  | IDefine slot fact =>
      let* fact := resolve_fact fact namespace entities in
      Ok (next_entity, entities, operations ++ [OpDefine slot fact])
  | IForget slot => Ok (next_entity, entities, operations ++ [OpForget slot])
  end.

Definition resolve_operations_from (next_entity namespace : N) (ops : list IntentOperation) :
    outcome IntentRejection (list Operation * Entities) :=
  let* st := outcome_fold (resolve_operation namespace) ops (next_entity, ∅, []) in
  Ok (st.2, st.1.2).

(** ** What resolution guarantees *)

Lemma resolve_operation_allocates namespace st op st' n :
  resolve_operation namespace st op = Ok st' → allocate n st.2 = Ok st.1.1 →
  allocate n st'.2 = Ok st'.1.1.
Proof.
  destruct st as [[next es] ops], op as [t|slot f|slot]; simpl; intros Hr Ha.
  - case_decide; [done|]. unfold u64_checked_add in Hr. case_match; [|done].
    injection Hr as <-. simpl. rewrite allocate_app, Ha. simpl.
    rewrite decide_False by (simpl; congruence). f_equal.
    unfold u64_add. rewrite u64_wrap_small; [done|]. by apply N.ltb_lt.
  - destruct (resolve_fact _ _ _); simpl in Hr; [|done..]. injection Hr as <-.
    simpl. by rewrite allocate_app, Ha.
  - injection Hr as <-. simpl. by rewrite allocate_app, Ha.
Qed.

(** The operations of a resolved intent allocate consecutive entities. *)
Lemma resolve_fold_allocate next namespace ops st st' :
  allocate next st.2 = Ok st.1.1 → outcome_fold (resolve_operation namespace) ops st = Ok st' →
  allocate next st'.2 = Ok st'.1.1.
Proof.
  revert st. induction ops as [|op ops IH]; simpl; intros st Ha Hf; [by simplify_eq|].
  inv_outcome. eapply IH; [|done]. by eapply resolve_operation_allocates.
Qed.

(** An atom that uses only temporaries of the scope [known]. *)
Definition atom_scoped (known : gset TempEntity) (a : IntentAtom) : Prop :=
  match a with ITemporary t => t ∈ known | _ => True end.

Definition fact_scoped (known : gset TempEntity) (f : IntentFact) : Prop :=
  atom_scoped known (if_subject f) ∧ atom_scoped known (if_object f).

(** The intents a client can build with the handles it was given. *)
Inductive intent_built : QueuedIntent → gset TempEntity → Prop :=
| built_new counter : intent_built (intent_new counter).1 ∅
| built_precondition i known p : intent_built i known → intent_built (push_precondition i p) known
| built_entity i known t i' : intent_built i known → intent_entity i = Some (t, i') →
    intent_built i' ({[ t ]} ∪ known)
| built_define i known slot f : intent_built i known → fact_scoped known f →
    intent_built (intent_define i slot f) known
| built_forget i known slot : intent_built i known → intent_built (intent_forget i slot) known.

(** What the resolution of a built intent yields: temporary [j] is the [j]-th
    entity the allocator mints. *)
Record resolved (next : N) (i : QueuedIntent) (known : gset TempEntity)
    (st : N * Entities * list Operation) : Prop := {
  rs_next : st.1.1 = (next + qi_next_temporary i)%N;
  rs_entities t : st.1.2 !! t =
    if decide (te_namespace t = qi_namespace i ∧ (te_index t < qi_next_temporary i)%N)
    then Some (EntityId_new (next + te_index t)) else None;
  rs_known t : t ∈ known ↔ te_namespace t = qi_namespace i ∧ (te_index t < qi_next_temporary i)%N;
}.

Lemma resolve_atom_scoped next i known st a :
  resolved next i known st → atom_scoped known a →
  ∃ a', resolve_atom a (qi_namespace i) st.1.2 = Ok a'.
Proof.
  intros [] Ha. destruct a as [e|t|l]; simpl in *; [by eexists| |by eexists].
  apply rs_known0 in Ha as Ht. destruct Ht. rewrite decide_False by naive_solver.
  rewrite rs_entities0, decide_True by done. by eexists.
Qed.

Lemma intent_built_resolves next i known :
  intent_built i known → (next + qi_next_temporary i < u64_modulus)%N →
  ∃ st, outcome_fold (resolve_operation (qi_namespace i)) (qi_operations i) (next, ∅, []) = Ok st ∧
    resolved next i known st.
Proof.
  induction 1 as [counter|i known p _ IH|i known t i' _ IH He|i known slot f _ IH Hf|i known slot _ IH];
    cbn [intent_new qi_next_temporary push_precondition intent_define intent_forget push_operation
      qi_namespace qi_operations fst]; intros Hlt.
  - eexists. split; [done|]. split; simpl; [lia| |].
    + intros t. rewrite lookup_empty, decide_False; [done|]. lia.
    + intros t. set_solver by lia.
  - destruct (IH Hlt) as (st & Hst & []). exists st. split; [done|]. by split.
  - unfold intent_entity in He. case_match; [|done]. simplify_eq/=.
    destruct IH as ([[n es] ops] & Hst & []); [lia|]. simpl in *. subst n.
    eexists. rewrite outcome_fold_app, Hst. cbn [outcome_bind outcome_fold resolve_operation te_namespace].
    rewrite decide_False by naive_solver. unfold u64_checked_add.
    rewrite (proj2 (N.ltb_lt _ _)) by lia. cbn [or_panic outcome_bind]. split; [done|].
    split; simpl; [lia| |].
    + intros t. destruct (decide (t = TempEntity_mk (qi_namespace i) (qi_next_temporary i))) as [->|Hne].
      * rewrite lookup_insert_eq. simpl. by rewrite decide_True by lia.
      * rewrite lookup_insert_ne, rs_entities0 by done.
        apply decide_ext. destruct t as [ns j]. simpl.
        assert (ns = qi_namespace i → j ≠ qi_next_temporary i) by naive_solver. lia.
    + intros t. rewrite elem_of_union, elem_of_singleton, rs_known0. destruct t as [ns j].
      simpl. split; [intros [[= -> ->]|?]; lia|]. intros [-> Hj].
      destruct (decide (j = qi_next_temporary i)) as [->|]; [by left|right; lia].
  - destruct (IH Hlt) as (st & Hst & Hr). destruct Hf as [Hs Ho].
    destruct (resolve_atom_scoped _ _ _ _ _ Hr Hs) as (s & Hs').
    destruct (resolve_atom_scoped _ _ _ _ _ Hr Ho) as (o & Ho').
    destruct st as [[n es] ops]. eexists. rewrite outcome_fold_app, Hst.
    cbn [outcome_bind outcome_fold resolve_operation]. unfold resolve_fact. simpl in Hs', Ho'.
    rewrite Hs', Ho'. split; [done|]. by destruct Hr; split.
  - destruct (IH Hlt) as ([[n es] ops] & Hst & []). eexists. rewrite outcome_fold_app, Hst.
    split; [done|]. by split.
Qed.
