(* ===== verification/Epochs.v ===== *)
(** Epochs of queued intents (forthdb-world/src/queued.rs, lines 724-1004,
    2247-2487 and 2563-2643): the chain of private successor worlds, the single
    collapsed world of an epoch, and the in-memory publication of an epoch.

    A read of a shared world may fill its caches; the filled world is
    discarded, the caches being a function of the history. *)
From Stdlib Require Import NArith Lia.
From stdpp Require Import base gmap list strings option list_monad.
From S2P Require Import Prelude Ord Terms Bytes Query QueryFacts Spec Index Kernel Frames.
From S2P Require Import VmProjection Worlds WorldFacts Intents.

Section epoch.
Context {D P : Type} `{Kernel D, MappedRoot P}.

Abbreviation W := (World D P) (only parsing).
Abbreviation Validator := (CandidateWorld D → outcome string unit) (only parsing).

Record AcceptedIntent := AcceptedIntent_mk {
  ai_position : nat;
  ai_world : W;
  ai_frame : CommitFrame;
  ai_entities : gmap TempEntity EntityId;
}.

Record RejectedIntent := RejectedIntent_mk {
  ri_position : nat;
  ri_error : IntentRejection;
}.

Inductive EpochOutcome :=
| EpochAccepted (a : AcceptedIntent)
| EpochRejected (r : RejectedIntent).

Definition outcome_position (o : EpochOutcome) : nat :=
  match o with EpochAccepted a => ai_position a | EpochRejected r => ri_position r end.

Record EpochPlan := EpochPlan_mk {
  ep_base : W;
  ep_tail : W;
  ep_outcomes : list EpochOutcome;
  ep_frames : list CommitFrame;
}.

Definition accepted_count (p : EpochPlan) : nat := length (ep_frames p).
Definition rejected_count (p : EpochPlan) : nat := length (ep_outcomes p) - length (ep_frames p).
Definition plan_is_empty (p : EpochPlan) : bool :=
  match ep_frames p with [] => true | _ => false end.

(** ** The chain of private worlds *)

Definition check_precondition (predecessor : W) (p : IntentPrecondition) :
    outcome IntentRejection unit :=
  match p with
  | ExpectedWorld expected =>
      if decide (expected ≠ w_id predecessor)
      then Err (WorldPrecondition expected (w_id predecessor)) else Ok tt
  | ExpectedSlot slot expected =>
      let* r := or_panic (world_resolve predecessor slot) in
      let actual := r.1 in
      if decide (actual ≠ expected) then Err (SlotPrecondition slot expected actual) else Ok tt
  end.

Definition check_preconditions (predecessor : W) (ps : list IntentPrecondition) :
    outcome IntentRejection unit :=
  outcome_fold (λ _ p, check_precondition predecessor p) ps tt.

Definition resolve_operations (predecessor : W) (namespace : N) (ops : list IntentOperation) :
    outcome IntentRejection (list Operation * gmap TempEntity EntityId) :=
  resolve_operations_from (w_next_entity predecessor) namespace ops.

Definition derive_intent (predecessor : W) (intent : QueuedIntent) (validators : list Validator) :
    outcome IntentRejection (W * CommitFrame * gmap TempEntity EntityId) :=
  let* _ := check_preconditions predecessor (qi_preconditions intent) in
  let* r := resolve_operations predecessor (qi_namespace intent) (qi_operations intent) in
  let '(operations, entities) := r in
  let* candidate := map_err IntentCandidate (construct predecessor operations) in
  let* _ := map_err IntentValidation (run_validators validators candidate) in
  let frame := commit_frame candidate in
  Ok (into_world candidate frame (w_history predecessor), frame, entities).

(** The loop of [derive_epoch] from [position] on. *)
Fixpoint derive_loop (validators : list Validator) (position : nat) (predecessor : W)
    (intents : list QueuedIntent) : option (W * list EpochOutcome * list CommitFrame) :=
  match intents with
  | [] => Some (predecessor, [], [])
  | intent :: intents =>
      match derive_intent predecessor intent validators with
      | Ok (world, frame, entities) =>
          '(tail, outcomes, frames) ← derive_loop validators (S position) world intents;
          Some (tail, EpochAccepted (AcceptedIntent_mk position world frame entities) :: outcomes,
            frame :: frames)
      | Err error =>
          '(tail, outcomes, frames) ← derive_loop validators (S position) predecessor intents;
          Some (tail, EpochRejected (RejectedIntent_mk position error) :: outcomes, frames)
      | Panic => None
      end
  end.

Definition derive_epoch (base : W) (intents : list QueuedIntent) (validators : list Validator) :
    option EpochPlan :=
  '(tail, outcomes, frames) ← derive_loop validators 0 base intents;
  Some (EpochPlan_mk base tail outcomes frames).

(** ** The epoch workspace *)

Inductive WorkspaceOutcome :=
| WorkspaceAccepted (position : nat) (entities : gmap TempEntity EntityId)
| WorkspaceRejected (r : RejectedIntent).

(** The evolving state of [derive_epoch_world]. *)
Record EpochState := EpochState_mk {
  es_id : WorldId;
  es_version : N;
  es_next_entity : N;
  es_operation_count : nat;
  es_kernel : D;
}.

Definition check_workspace_precondition (predecessor_id : WorldId) (kernel : D)
    (p : IntentPrecondition) : outcome IntentRejection unit :=
  match p with
  | ExpectedWorld expected =>
      if decide (expected ≠ predecessor_id)
      then Err (WorldPrecondition expected predecessor_id) else Ok tt
  | ExpectedSlot slot expected =>
      let* actual := or_panic (kernel_resolve kernel slot) in
      if decide (actual ≠ expected) then Err (SlotPrecondition slot expected actual) else Ok tt
  end.

Definition check_workspace_preconditions (predecessor_id : WorldId) (kernel : D)
    (ps : list IntentPrecondition) : outcome IntentRejection unit :=
  outcome_fold (λ _ p, check_workspace_precondition predecessor_id kernel p) ps tt.

(** The closure that tries one intent. *)
Definition workspace_trial (st : EpochState) (intent : QueuedIntent)
    (validators : list Validator) :
    outcome IntentRejection (CandidateWorld D * gmap TempEntity EntityId) :=
  let* _ := check_workspace_preconditions (es_id st) (es_kernel st) (qi_preconditions intent) in
  let* r := resolve_operations_from (es_next_entity st) (qi_namespace intent)
              (qi_operations intent) in
  let '(operations, entities) := r in
  let* candidate := map_err IntentCandidate
    (construct_from_state (es_id st) (es_version st) (es_next_entity st) (es_operation_count st)
       (es_kernel st) operations) in
  let* _ := map_err IntentValidation (run_validators validators candidate) in
  Ok (candidate, entities).

Fixpoint workspace_loop (validators : list Validator) (position : nat) (st : EpochState)
    (intents : list QueuedIntent) :
    option (EpochState * list Operation * list WorkspaceOutcome) :=
  match intents with
  | [] => Some (st, [], [])
  | intent :: intents =>
      match workspace_trial st intent validators with
      | Ok (candidate, entities) =>
          let '(id, version, next_entity, count, accepted, kernel) :=
            into_materialized_state candidate in
          '(st, operations, outcomes) ← workspace_loop validators (S position)
            (EpochState_mk id version next_entity count kernel) intents;
          Some (st, accepted ++ operations, WorkspaceAccepted position entities :: outcomes)
      | Err error =>
          '(st, operations, outcomes) ← workspace_loop validators (S position) st intents;
          Some (st, operations, WorkspaceRejected (RejectedIntent_mk position error) :: outcomes)
      | Panic => None
      end
  end.

Definition workspace_accepted (o : WorkspaceOutcome) : bool :=
  match o with WorkspaceAccepted _ _ => true | WorkspaceRejected _ => false end.

(** [unreachable!()] on an accepted intent. *)
Definition only_rejected (o : WorkspaceOutcome) : option EpochOutcome :=
  match o with WorkspaceAccepted _ _ => None | WorkspaceRejected r => Some (EpochRejected r) end.

Definition published_outcome (world : W) (frame : CommitFrame) (o : WorkspaceOutcome) :
    EpochOutcome :=
  match o with
  | WorkspaceAccepted position entities =>
      EpochAccepted (AcceptedIntent_mk position world frame entities)
  | WorkspaceRejected r => EpochRejected r
  end.

Definition derive_epoch_world (base : W) (intents : list QueuedIntent)
    (validators : list Validator) : option EpochPlan :=
  '(kernel, _) ← world_kernel base;
  '(st, operations, outcomes) ← workspace_loop validators 0
    (EpochState_mk (w_id base) (w_version base) (w_next_entity base) (w_operation_count base)
       kernel) intents;
  if decide (length (filter workspace_accepted outcomes) = 0)
  then outcomes ← mapM only_rejected outcomes; Some (EpochPlan_mk base base outcomes [])
  else
    let version := u64_add (w_version base) 1 in
    let id := calculate_world_id (w_id base) version (es_next_entity st) operations in
    let candidate := CandidateWorld_mk (w_id base) (w_version base) id version (es_next_entity st)
      (w_operation_count base) operations (es_kernel st) in
    let frame := commit_frame candidate in
    let world := into_world candidate frame (w_history base) in
    Some (EpochPlan_mk base world (published_outcome world frame <$> outcomes) [frame]).
End epoch.
Arguments AcceptedIntent : clear implicits.
Arguments EpochOutcome : clear implicits.
Arguments EpochPlan : clear implicits.
Arguments EpochState : clear implicits.

(** ** In-memory publication *)

Section publish.
Context {D P : Type} `{Kernel D, MappedRoot P}.

Abbreviation MemoryDatabase := (Database D P MemoryCommitStore) (only parsing).

(** [store.append(frame)] for every frame of the plan; the error type is
    uninhabited. *)
Definition append_all (store : MemoryCommitStore) (frames : list CommitFrame) : MemoryCommitStore :=
  foldl (λ s f, (store_append s f).2) store frames.

(** [Database::commit_queued_epoch]: the plan ([None] when a validator or the
    allocator panics) and the database. *)
Definition commit_queued_epoch (db : MemoryDatabase) (intents : list QueuedIntent) :
    option (EpochPlan D P) * MemoryDatabase :=
  match derive_epoch (db_current db) intents (db_validators db) with
  | None => (None, db)
  | Some plan =>
      (Some plan,
       if plan_is_empty plan then db
       else Database_mk (ep_tail plan) (append_all (db_store db) (ep_frames plan)) (db_validators db))
  end.
End publish.

(** The epoch planners against the worlds: the trial of the epoch workspace is the
    derivation of a private world, the chain of private worlds extends the
    history, and the two loops decide alike. *)

Section facts.
Context {D P : Type} `{KernelLaws D, MappedRootLaws P}.
Implicit Types (w : World D P) (fs : list CommitFrame).

Lemma genesis_ok : world_ok (genesis (D := D) (P := P)) [].
Proof. split; simpl; try done. intros k [= <-]. apply k_rep_new. Qed.

(** The workspace state that corresponds to a world with kernel [k]. *)
Definition state_of w (k : D) : EpochState D :=
  EpochState_mk (w_id w) (w_version w) (w_next_entity w) (w_operation_count w) k.

Lemma world_resolve_spec w fs s :
  world_ok w fs → ∃ w', world_resolve w s = Some (spec_resolve (frame_events fs) s, w').
Proof. intros Hw. destruct (wob_resolve _ _ (world_ok_observes _ _ Hw) s) as (w' & -> & _). eauto. Qed.

Lemma check_preconditions_workspace w fs k w' ps :
  world_ok w fs → world_kernel w = Some (k, w') →
  check_preconditions w ps = check_workspace_preconditions (w_id w) k ps.
Proof.
  intros Hw Hk. destruct (world_kernel_ok _ _ Hw) as (k' & w1 & Hk' & Hr & _). simplify_eq.
  unfold check_preconditions, check_workspace_preconditions.
  induction ps as [|[e|slot expected] ps IH]; simpl; [done| |].
  - case_decide; [done|apply IH].
  - destruct (world_resolve_spec w fs slot Hw) as [w2 ->].
    rewrite (k_rep_resolve _ _ _ slot Hr). simpl. case_decide; [done|apply IH].
Qed.

Lemma derive_intent_workspace w fs k w' intent validators :
  world_ok w fs → world_kernel w = Some (k, w') →
  derive_intent w intent validators =
  let* r := workspace_trial (state_of w k) intent validators in
  Ok (into_world r.1 (commit_frame r.1) (w_history w), commit_frame r.1, r.2).
Proof.
  intros Hw Hk. unfold derive_intent, workspace_trial, resolve_operations, construct.
  rewrite (check_preconditions_workspace _ _ _ _ _ Hw Hk), Hk. cbn [or_panic outcome_bind fst].
  destruct (check_workspace_preconditions _ _ _); [|done..]. cbn [outcome_bind].
  destruct (resolve_operations_from _ _ _) as [[ops es]|e|]; [|done..]. cbn [outcome_bind].
  cbn [state_of es_id es_version es_next_entity es_operation_count es_kernel].
  destruct (construct_from_state _ _ _ _ _ _) as [c|e|]; [|done..]. cbn [map_err outcome_bind].
  by destruct (run_validators validators c).
Qed.

Lemma workspace_trial_ok w fs k w' intent validators c es :
  world_ok w fs → world_kernel w = Some (k, w') →
  workspace_trial (state_of w k) intent validators = Ok (c, es) → candidate_ok w fs c.
Proof.
  intros Hw Hk Ht. unfold workspace_trial in Ht. inv_outcome.
  destruct x0 as [ops es']. inv_outcome. simplify_eq.
  match goal with H : map_err _ _ = Ok _ |- _ =>
    destruct (construct_from_state _ _ _ _ _ _) as [c'|e|] eqn:Hc; simplify_eq/= end.
  apply (construct_candidate w fs ops); [done|]. unfold construct. by rewrite Hk.
Qed.

(** The state a workspace moves to is that of the world that is derived. *)
Lemma into_world_state w fs c :
  world_ok w fs → w_history_prefix w = None → candidate_ok w fs c →
  let w' := into_world c (commit_frame c) (w_history w) in
  world_ok w' (fs ++ [commit_frame c]) ∧ w_history_prefix w' = None ∧
  world_kernel w' = Some (c_kernel c, w') ∧
  into_materialized_state c =
    (w_id w', w_version w', w_next_entity w', w_operation_count w', c_operations c, c_kernel c).
Proof. intros Hw Hp Hc. simpl. split_and!; [by apply candidate_into_world|done..]. Qed.

Definition same_decision (o : EpochOutcome D P) (wo : WorkspaceOutcome) : Prop :=
  match o, wo with
  | EpochAccepted a, WorkspaceAccepted position entities =>
      ai_position a = position ∧ ai_entities a = entities
  | EpochRejected r, WorkspaceRejected r' => r = r'
  | _, _ => False
  end.

(** Where both loops stand after the same intents. *)
Record loops_agree fs (r1 : World D P * list (EpochOutcome D P) * list CommitFrame)
    (r2 : EpochState D * list Operation * list WorkspaceOutcome) : Prop := {
  la_world : world_ok r1.1.1 (fs ++ r1.2);
  la_prefix : w_history_prefix r1.1.1 = None;
  la_kernel : ∃ w', world_kernel r1.1.1 = Some (es_kernel r2.1.1, w');
  la_state : r2.1.1 = state_of r1.1.1 (es_kernel r2.1.1);
  la_operations : r2.1.2 = chain_operations r1.2;
  la_outcomes : Forall2 same_decision r1.1.2 r2.2;
  la_count : length (filter workspace_accepted r2.2) = length r1.2;
}.

Lemma loops_ok validators intents position w fs k w' :
  world_ok w fs → w_history_prefix w = None → world_kernel w = Some (k, w') →
  match derive_loop validators position w intents,
        workspace_loop validators position (state_of w k) intents with
  | Some r1, Some r2 => loops_agree fs r1 r2
  | None, None => True
  | _, _ => False
  end.
Proof.
  revert position w fs k w'. induction intents as [|intent intents IH]; intros position w fs k w' Hw Hp Hk.
  { simpl. split; simpl; rewrite ?app_nil_r; eauto. }
  cbn [derive_loop workspace_loop]. rewrite (derive_intent_workspace _ _ _ _ _ _ Hw Hk).
  destruct (workspace_trial _ _ _) as [[c es]|e|] eqn:Ht; cbn [outcome_bind fst snd]; [| |done].
  - pose proof (workspace_trial_ok _ _ _ _ _ _ _ _ Hw Hk Ht) as Hc.
    destruct (into_world_state _ _ _ Hw Hp Hc) as (Hw1 & Hp1 & Hk1 & ->).
    set (w1 := into_world c (commit_frame c) (w_history w)) in *. clearbody w1.
    specialize (IH (S position) _ _ _ _ Hw1 Hp1 Hk1). unfold state_of in IH at 1.
    destruct (derive_loop _ _ _ _) as [[[tail outs] frames]|],
      (workspace_loop _ _ _ _) as [[[st ops] wouts]|]; simpl; try done.
    destruct IH as [HA HB HC HD HE HF HG]; simpl in *. split; simpl; try done.
    + by rewrite <- (assoc_L (++)) in HA.
    + by rewrite HE.
    + by constructor.
    + by f_equal.
  - specialize (IH (S position) _ _ _ _ Hw Hp Hk).
    destruct (derive_loop _ _ _ _) as [[[tail outs] frames]|],
      (workspace_loop _ _ _ _) as [[[st ops] wouts]|]; simpl; try done.
    destruct IH as [HA HB HC HD HE HF HG]; simpl in *. split; simpl; try done.
    by constructor.
Qed.

(** The operations accepted by an epoch continue the allocator of its base. *)
Lemma epoch_allocate w w' fs frames :
  world_ok w fs → world_ok w' (fs ++ frames) →
  allocate (w_next_entity w) (chain_operations frames) = Ok (w_next_entity w').
Proof.
  intros Hw Hw'. pose proof (check_chain_allocate _ _ (wo_chain _ _ Hw')) as Ha.
  pose proof (check_chain_allocate _ _ (wo_chain _ _ Hw)) as Hb. simpl in *.
  by rewrite chain_operations_app, allocate_app, Hb in Ha.
Qed.

(** The candidate of a collapsed epoch continues its base. *)
Lemma collapsed_candidate w w' fs frames k w1 :
  world_ok w fs → world_ok w' (fs ++ frames) → world_kernel w' = Some (k, w1) →
  let version := u64_add (w_version w) 1 in
  candidate_ok w fs (CandidateWorld_mk (w_id w) (w_version w)
    (calculate_world_id (w_id w) version (w_next_entity w') (chain_operations frames)) version
    (w_next_entity w') (w_operation_count w) (chain_operations frames) k).
Proof.
  intros Hw Hw' Hk. simpl. split; simpl; [done|done|by apply (epoch_allocate w w' fs)|].
  destruct (world_kernel_ok _ _ Hw') as (k' & w2 & Hk' & Hr & _). simplify_eq.
  by rewrite frame_events_app, (frame_events_ops frames) in Hr.
Qed.
End facts.
