(* ===== verification/Codec.v ===== *)
(** The payload codec of commit frames (forthdb-world/src/file_store.rs,
    lines 325-531): the writers [put_u64], [put_string], [put_atom], the
    [Decoder] cursor, and the encoding of frames, with the round trip.

    Decoding errors are the code's messages, one constructor per message with
    the values the message prints. *)
From Stdlib Require Import NArith Lia.
From Stdlib Require Import Strings.Byte.
From stdpp Require Import base gmap list strings option list_monad.
From S2P Require Import Prelude Ord Terms Bytes Query QueryFacts Spec Index Kernel Frames.

Definition MAX_FRAME_BYTES : N := 64 * 1024 * 1024.
Definition MAX_OPERATIONS_PER_FRAME : N := 1000000.

Inductive DecodeError :=
| PayloadCursorOverflow
| UnexpectedEnd (position : nat) (length : N)
| InvalidUtf8
| UnknownAtomTag (tag : u8)
| UnknownOperationTag (tag : u8)
| OperationCountExceedsLimit (operation_count : N)
| TrailingBytes (remaining : nat).

(** ** The decoder *)

Record Decoder := Decoder_mk {
  d_bytes : list u8;
  d_position : nat;
}.

Definition Decoder_new (bytes : list u8) : Decoder := Decoder_mk bytes 0.

(** A decoding step: a value and the advanced decoder, or an error. *)
Abbreviation dec A := (Decoder → outcome DecodeError (A * Decoder)) (only parsing).

Definition d_take (len : N) : dec (list u8) := λ d,
  match u64_checked_add (N.of_nat (d_position d)) len with
  | None => Err PayloadCursorOverflow
  | Some e =>
      if (N.of_nat (length (d_bytes d)) <? e)%N
      then Err (UnexpectedEnd (d_position d) len)
      else Ok (take (N.to_nat len) (drop (d_position d) (d_bytes d)),
               Decoder_mk (d_bytes d) (N.to_nat e))
  end.

Definition d_byte : dec u8 := λ d,
  let* r := d_take 1 d in
  let* b := or_panic (r.1 !! 0) in
  Ok (b, r.2).

Definition d_u64 : dec N := λ d,
  let* r := d_take 8 d in Ok (le_N r.1, r.2).

Definition d_string : dec string := λ d,
  let* r := d_u64 d in
  let* r := d_take r.1 r.2 in
  let* s := ok_or (from_utf8 r.1) InvalidUtf8 in
  Ok (s, r.2).

Definition d_atom : dec Atom := λ d,
  let* r := d_byte d in
  match Byte.to_N r.1 with
  | 0%N => let* r := d_u64 r.2 in Ok (AEntity (EntityId_new r.1), r.2)
  | 1%N => let* r := d_string r.2 in Ok (ALiteral (Literal_new r.1), r.2)
  | _ => Err (UnknownAtomTag r.1)
  end.

Definition d_finish (d : Decoder) : outcome DecodeError unit :=
  if decide (d_position d = length (d_bytes d)) then Ok tt
  else Err (TrailingBytes (length (d_bytes d) - d_position d)).

(** ** Writers: the bytes appended to the output *)

Definition put_u64 (n : N) : list u8 := u64_bytes n.
Definition put_string (s : string) : list u8 :=
  put_u64 (usize_of (length (string_bytes s))) ++ string_bytes s.
Definition put_atom (a : Atom) : list u8 :=
  match a with
  | AEntity e => [x00] ++ put_u64 (entity_value e)
  | ALiteral l => [x01] ++ put_string (literal_str l)
  end.

Definition put_operation (op : Operation) : list u8 :=
  match op with
  | AllocateEntity e => [x00] ++ put_u64 (entity_value e)
  | OpDefine s f =>
      [x01] ++ put_string (slot_str s) ++ put_atom (fact_subject f) ++
      put_string (predicate_str (fact_predicate f)) ++ put_atom (fact_object f)
  | OpForget s => [x02] ++ put_string (slot_str s)
  end.

Definition encode_payload (f : CommitFrame) : list u8 :=
  put_u64 (world_value (parent_world f)) ++
  put_u64 (world_value (resulting_world f)) ++
  put_u64 (parent_version f) ++
  put_u64 (resulting_version f) ++
  put_u64 (resulting_allocator f) ++
  put_u64 (usize_of (length (frame_operations f))) ++
  (op ← frame_operations f; put_operation op).

Definition d_operation : dec Operation := λ d,
  let* r := d_byte d in
  match Byte.to_N r.1 with
  | 0%N => let* r := d_u64 r.2 in Ok (AllocateEntity (EntityId_new r.1), r.2)
  | 1%N =>
      let* slot := d_string r.2 in
      let* subject := d_atom slot.2 in
      let* predicate := d_string subject.2 in
      let* object := d_atom predicate.2 in
      Ok (OpDefine (SlotId_new slot.1)
            (Fact_new subject.1 (Predicate_new predicate.1) object.1), object.2)
  | 2%N => let* r := d_string r.2 in Ok (OpForget (SlotId_new r.1), r.2)
  | _ => Err (UnknownOperationTag r.1)
  end.

(** [for _ in 0..operation_count]. *)
Fixpoint d_operations (n : nat) (d : Decoder) : outcome DecodeError (list Operation * Decoder) :=
  match n with
  | 0 => Ok ([], d)
  | S n =>
      let* op := d_operation d in
      let* rest := d_operations n op.2 in
      Ok (op.1 :: rest.1, rest.2)
  end.

Definition decode_payload (payload : list u8) : outcome DecodeError CommitFrame :=
  let d := Decoder_new payload in
  let* parent_world := d_u64 d in
  let* resulting_world := d_u64 parent_world.2 in
  let* parent_version := d_u64 resulting_world.2 in
  let* resulting_version := d_u64 parent_version.2 in
  let* resulting_allocator := d_u64 resulting_version.2 in
  let* operation_count := d_u64 resulting_allocator.2 in
  if (MAX_OPERATIONS_PER_FRAME <? operation_count.1)%N
  then Err (OperationCountExceedsLimit operation_count.1)
  else
    let* operations := d_operations (N.to_nat operation_count.1) operation_count.2 in
    let* _ := d_finish operations.2 in
    Ok (CommitFrame_mk (WorldId_new parent_world.1) (WorldId_new resulting_world.1)
          parent_version.1 resulting_version.1 resulting_allocator.1 operations.1).

(** ** Round trip *)

(** A decoder whose remaining input is [rest]. *)
Definition dec_at (d : Decoder) (rest : list u8) : Prop :=
  d_position d ≤ length (d_bytes d) ∧ drop (d_position d) (d_bytes d) = rest ∧
  u64_ok (N.of_nat (length (d_bytes d))).

(** [get] reads back what [put] wrote and stops right after it. *)
Definition reads {A} (get : dec A) (bytes : list u8) (x : A) : Prop :=
  ∀ d rest, dec_at d (bytes ++ rest) → ∃ d', get d = Ok (x, d') ∧ dec_at d' rest.

Lemma dec_at_new bytes : u64_ok (N.of_nat (length bytes)) → dec_at (Decoder_new bytes) bytes.
Proof. intros H. split_and!; simpl; [lia|done|done]. Qed.

Lemma dec_at_length d rest : dec_at d rest → length rest = length (d_bytes d) - d_position d.
Proof. intros (H1 & <- & _). by rewrite length_drop. Qed.

Lemma d_take_reads bytes : reads (d_take (N.of_nat (length bytes))) bytes bytes.
Proof.
  intros d rest Hd. pose proof (dec_at_length _ _ Hd) as Hl. rewrite length_app in Hl.
  destruct Hd as (H1 & H2 & H3). unfold d_take, u64_checked_add.
  assert (N.of_nat (d_position d) + N.of_nat (length bytes) <=
    N.of_nat (length (d_bytes d)))%N as Hle by lia.
  unfold u64_ok in H3. assert (N.of_nat (d_position d) + N.of_nat (length bytes) <
    u64_modulus)%N as Hlt%N.ltb_lt by lia. rewrite Hlt.
  apply N.ltb_ge in Hle. rewrite Hle. eexists. split.
  - f_equal. f_equal. rewrite Nat2N.id, H2. apply take_app_length.
  - split_and!; simpl; [lia| |done].
    replace (N.to_nat (N.of_nat (d_position d) + N.of_nat (length bytes)))
      with (d_position d + length bytes) by lia.
    rewrite <- drop_drop, H2. apply drop_app_length.
Qed.

Lemma d_take_reads' bytes n : n = N.of_nat (length bytes) → reads (d_take n) bytes bytes.
Proof. intros ->. apply d_take_reads. Qed.

Lemma d_byte_reads b : reads d_byte [b] b.
Proof.
  intros d rest Hd. unfold d_byte.
  destruct (d_take_reads' [b] 1 eq_refl d rest Hd) as (d' & -> & Hd'). simpl. eauto.
Qed.

Lemma d_u64_reads n : u64_ok n → reads d_u64 (put_u64 n) n.
Proof.
  intros Hn d rest Hd. unfold d_u64.
  destruct (d_take_reads' (put_u64 n) 8 eq_refl d rest Hd) as (d' & -> & Hd').
  cbn [outcome_bind fst snd]. unfold put_u64. rewrite le_N_u64_bytes by done. eauto.
Qed.

Lemma d_string_reads s : string_ok s → string_fits s → reads d_string (put_string s) s.
Proof.
  intros Hok Hfit d rest Hd. unfold d_string, put_string in *. rewrite <- (assoc_L (++)) in Hd.
  destruct (d_u64_reads (usize_of (length (string_bytes s))) (u64_wrap_ok _) d _ Hd)
    as (d1 & -> & Hd1). cbn [outcome_bind fst snd].
  destruct (d_take_reads' (string_bytes s) (usize_of (length (string_bytes s)))
    (u64_wrap_small _ Hfit) d1 rest Hd1) as (d2 & -> & Hd2). cbn [outcome_bind fst snd].
  rewrite from_utf8_bytes by done. simpl. eauto.
Qed.

(** Values as Rust's types have them: integers in range, strings valid UTF-8. *)
Definition str_wf (s : string) : Prop := string_ok s ∧ string_fits s.
Definition atom_wf (a : Atom) : Prop :=
  match a with AEntity e => u64_ok (entity_value e) | ALiteral l => str_wf (literal_str l) end.
Definition fact_wf (f : Fact) : Prop :=
  atom_wf (fact_subject f) ∧ str_wf (predicate_str (fact_predicate f)) ∧ atom_wf (fact_object f).
Definition operation_wf (op : Operation) : Prop :=
  match op with
  | AllocateEntity e => u64_ok (entity_value e)
  | OpDefine s f => str_wf (slot_str s) ∧ fact_wf f
  | OpForget s => str_wf (slot_str s)
  end.
Definition frame_wf (f : CommitFrame) : Prop :=
  u64_ok (world_value (parent_world f)) ∧ u64_ok (world_value (resulting_world f)) ∧
  u64_ok (parent_version f) ∧ u64_ok (resulting_version f) ∧ u64_ok (resulting_allocator f) ∧
  Forall operation_wf (frame_operations f).

Lemma d_atom_reads a : atom_wf a → reads d_atom (put_atom a) a.
Proof.
  intros Ha d rest Hd. unfold d_atom.
  destruct a as [[v]|[s]]; cbn [put_atom] in Hd; rewrite <- (assoc_L (++)) in Hd;
    destruct (d_byte_reads _ d _ Hd) as (d1 & -> & Hd1); cbn [outcome_bind fst snd].
  - destruct (d_u64_reads v Ha d1 rest Hd1) as (d2 & -> & Hd2). cbn [outcome_bind fst snd]. eauto.
  - destruct Ha as [H1 H2]. destruct (d_string_reads s H1 H2 d1 rest Hd1) as (d2 & -> & Hd2). cbn [outcome_bind fst snd]. eauto.
Qed.

Lemma d_operation_reads op : operation_wf op → reads d_operation (put_operation op) op.
Proof.
  intros Hop d rest Hd. unfold d_operation.
  destruct op as [[v]|[s] [fs [p] fo]|[s]]; cbn in Hop; cbn [put_operation] in Hd;
    rewrite <- !(assoc_L (++)) in Hd; destruct (d_byte_reads _ d _ Hd) as (d1 & -> & Hd1); cbn [outcome_bind fst snd].
  - destruct (d_u64_reads v Hop d1 rest Hd1) as (d2 & -> & Hd2). cbn [outcome_bind fst snd]. eauto.
  - destruct Hop as ([H1 H2] & H3 & [H4 H5] & H6). cbn in *.
    destruct (d_string_reads s H1 H2 _ _ Hd1) as (d2 & -> & Hd2). cbn [outcome_bind fst snd].
    destruct (d_atom_reads fs H3 _ _ Hd2) as (d3 & -> & Hd3). cbn [outcome_bind fst snd].
    destruct (d_string_reads p H4 H5 _ _ Hd3) as (d4 & -> & Hd4). cbn [outcome_bind fst snd].
    destruct (d_atom_reads fo H6 _ _ Hd4) as (d5 & -> & Hd5). cbn [outcome_bind fst snd]. eauto.
  - destruct Hop as [H1 H2]. destruct (d_string_reads s H1 H2 _ _ Hd1) as (d2 & -> & Hd2). cbn [outcome_bind fst snd]. eauto.
Qed.

Lemma d_operations_reads ops :
  Forall operation_wf ops → reads (d_operations (length ops)) (op ← ops; put_operation op) ops.
Proof.
  induction 1 as [|op ops Hop Hops IH]; intros d rest Hd; cbn [length d_operations].
  - by exists d.
  - csimpl in Hd. rewrite <- (assoc_L (++)) in Hd.
    destruct (d_operation_reads op Hop _ _ Hd) as (d1 & -> & Hd1). cbn [outcome_bind fst snd].
    destruct (IH _ _ Hd1) as (d2 & -> & Hd2). cbn [outcome_bind fst snd]. eauto.
Qed.

Lemma d_finish_ok d : dec_at d [] → d_finish d = Ok tt.
Proof.
  intros Hd. pose proof (dec_at_length _ _ Hd) as Hl. destruct Hd as (H1 & _ & _).
  unfold d_finish. rewrite decide_True; [done|]. simpl in Hl. lia.
Qed.

(** Reading the six words in front of the operations. *)
Lemma decode_payload_header f :
  frame_wf f → u64_ok (N.of_nat (length (frame_operations f))) →
  u64_ok (N.of_nat (length (encode_payload f))) →
  ∃ d, dec_at d (op ← frame_operations f; put_operation op) ∧
  decode_payload (encode_payload f) =
  (let n := N.of_nat (length (frame_operations f)) in
   if (MAX_OPERATIONS_PER_FRAME <? n)%N then Err (OperationCountExceedsLimit n)
   else
     let* operations := d_operations (length (frame_operations f)) d in
     let* _ := d_finish operations.2 in
     Ok (CommitFrame_mk (parent_world f) (resulting_world f) (parent_version f)
           (resulting_version f) (resulting_allocator f) operations.1)).
Proof.
  intros (H1 & H2 & H3 & H4 & H5 & _) Hn Hlen.
  pose proof (dec_at_new _ Hlen) as Hd. unfold decode_payload. remember (Decoder_new _) as d eqn:E.
  clear E. unfold encode_payload in Hd.
  destruct (d_u64_reads _ H1 _ _ Hd) as (d1 & -> & Hd1). cbn [outcome_bind fst snd].
  destruct (d_u64_reads _ H2 _ _ Hd1) as (d2 & -> & Hd2). cbn [outcome_bind fst snd].
  destruct (d_u64_reads _ H3 _ _ Hd2) as (d3 & -> & Hd3). cbn [outcome_bind fst snd].
  destruct (d_u64_reads _ H4 _ _ Hd3) as (d4 & -> & Hd4). cbn [outcome_bind fst snd].
  destruct (d_u64_reads _ H5 _ _ Hd4) as (d5 & -> & Hd5). cbn [outcome_bind fst snd].
  destruct (d_u64_reads (usize_of (length (frame_operations f))) (u64_wrap_ok _) _ _ Hd5) as (d6 & -> & Hd6). cbn [outcome_bind fst snd].
  exists d6. split; [exact Hd6|]. unfold usize_of. rewrite (u64_wrap_small _ Hn), Nat2N.id.
  by destruct (parent_world f), (resulting_world f).
Qed.

Lemma decode_encode_payload f :
  frame_wf f → (N.of_nat (length (frame_operations f)) <= MAX_OPERATIONS_PER_FRAME)%N →
  u64_ok (N.of_nat (length (encode_payload f))) →
  decode_payload (encode_payload f) = Ok f.
Proof.
  intros Hf Hn Hlen.
  assert (u64_ok (N.of_nat (length (frame_operations f)))) as Hn'.
  { unfold u64_ok. eapply N.le_lt_trans; [exact Hn|reflexivity]. }
  destruct (decode_payload_header f Hf Hn' Hlen) as (d & Hd & ->). cbv zeta.
  apply N.ltb_ge in Hn. rewrite Hn.
  destruct Hf as (_ & _ & _ & _ & _ & Hops).
  rewrite <- (app_nil_r (op ← frame_operations f; put_operation op)) in Hd.
  destruct (d_operations_reads _ Hops _ _ Hd) as (d' & -> & Hd'). cbn [outcome_bind fst snd].
  rewrite (d_finish_ok _ Hd'). cbn [outcome_bind]. by destruct f.
Qed.

(** A frame with too many operations is written but cannot be read back. *)
Lemma decode_too_many_operations f :
  frame_wf f → (MAX_OPERATIONS_PER_FRAME < N.of_nat (length (frame_operations f)))%N →
  u64_ok (N.of_nat (length (frame_operations f))) →
  u64_ok (N.of_nat (length (encode_payload f))) →
  decode_payload (encode_payload f) =
  Err (OperationCountExceedsLimit (N.of_nat (length (frame_operations f)))).
Proof.
  intros Hf Hn Hn' Hlen. destruct (decode_payload_header f Hf Hn' Hlen) as (d & _ & ->).
  cbv zeta. apply N.ltb_lt in Hn. by rewrite Hn.
Qed.

(** Every operation takes a byte of the payload. *)
Lemma operations_fit_payload f : length (frame_operations f) ≤ length (encode_payload f).
Proof.
  unfold encode_payload. rewrite !length_app.
  enough (length (frame_operations f) ≤ length (op ← frame_operations f; put_operation op)) by lia.
  induction (frame_operations f) as [|op ops IH]; [done|].
  rewrite bind_cons, length_app. cbn [length].
  assert (1 ≤ length (put_operation op)); [|lia].
  destruct op; cbn [put_operation app length]; lia.
Qed.

(** ** Decoding accepts canonical encodings only *)

(** What [get] accepts it would have written, and the value is well formed. *)
Definition canonical {A} (get : dec A) (put : A → list u8) (wf : A → Prop) : Prop :=
  ∀ d rest, dec_at d rest →
    match get d with
    | Ok (x, d') => wf x ∧ ∃ rest', rest = put x ++ rest' ∧ dec_at d' rest'
    | Err _ => True
    | Panic => False
    end.

Lemma d_take_canonical n :
  canonical (d_take n) id (λ bytes, N.of_nat (length bytes) = n).
Proof.
  intros d rest Hd. pose proof (dec_at_length _ _ Hd) as Hl.
  destruct Hd as (H1 & H2 & H3). unfold d_take, u64_checked_add.
  destruct (_ <? u64_modulus)%N; [|done].
  destruct (_ <? _)%N eqn:E; [done|]. apply N.ltb_ge in E. rewrite H2.
  assert (length (take (N.to_nat n) rest) = N.to_nat n) as Htl.
  { rewrite length_take. lia. }
  split; [lia|]. exists (drop (N.to_nat n) rest). split; [symmetry; apply take_drop|].
  split_and!; simpl; [lia| |done].
  rewrite <- H2, drop_drop. f_equal. lia.
Qed.

Lemma d_byte_canonical : canonical d_byte (λ b, [b]) (λ _, True).
Proof.
  intros d rest Hd. unfold d_byte. pose proof (d_take_canonical 1 d rest Hd) as Ht.
  destruct (d_take 1 d) as [[bs d']|e|]; cbn [outcome_bind fst snd]; [|done|done].
  destruct Ht as (Hl & rest' & -> & Hd'). destruct bs as [|b [|c bs]]; simpl in *; try lia.
  split; [done|]. eauto.
Qed.

Lemma d_u64_canonical : canonical d_u64 put_u64 u64_ok.
Proof.
  intros d rest Hd. unfold d_u64. pose proof (d_take_canonical 8 d rest Hd) as Ht.
  destruct (d_take 8 d) as [[bs d']|e|]; cbn [outcome_bind fst snd]; [|done|done].
  destruct Ht as (Hl & rest' & -> & Hd'). assert (length bs = 8) as Hlen by lia. split.
  - pose proof (le_N_bound bs) as Hb. by rewrite Hlen in Hb.
  - exists rest'. split; [|done]. unfold put_u64, u64_bytes. by rewrite <- Hlen, le_bytes_N.
Qed.

Lemma d_string_canonical : canonical d_string put_string str_wf.
Proof.
  intros d rest Hd. unfold d_string. pose proof (d_u64_canonical d rest Hd) as Hu.
  destruct (d_u64 d) as [[n d1]|e|]; cbn [outcome_bind fst snd]; [|done|done].
  destruct Hu as (Hn & rest1 & -> & Hd1). pose proof (d_take_canonical n d1 rest1 Hd1) as Ht.
  destruct (d_take n d1) as [[bs d2]|e|]; cbn [outcome_bind fst snd]; [|done|done].
  destruct Ht as (Hl & rest2 & -> & Hd2).
  destruct (from_utf8 bs) as [s|] eqn:Hs; cbn [ok_or outcome_bind fst snd]; [|done].
  apply from_utf8_Some in Hs as [<- Hok]. unfold str_wf, string_fits. rewrite Hl.
  split; [done|]. exists rest2. split; [|done]. unfold put_string, usize_of.
  rewrite Hl, u64_wrap_small by done. by rewrite <- (assoc_L (++)).
Qed.

Lemma byte_is b n : Byte.to_N b = n → b = byte_of_N n.
Proof. intros <-. by rewrite byte_of_N_to_N. Qed.

Lemma d_atom_canonical : canonical d_atom put_atom atom_wf.
Proof.
  intros d rest Hd. unfold d_atom. pose proof (d_byte_canonical d rest Hd) as Hb.
  destruct (d_byte d) as [[b d1]|e|]; cbn [outcome_bind fst snd]; [|done|done].
  destruct Hb as (_ & rest1 & -> & Hd1).
  destruct (Byte.to_N b) as [|[p|p|]] eqn:Eb; try done; apply byte_is in Eb as ->.
  - pose proof (d_u64_canonical d1 rest1 Hd1) as Hu.
    destruct (d_u64 d1) as [[n d2]|e|]; cbn [outcome_bind fst snd]; [|done|done].
    destruct Hu as (Hn & rest2 & -> & Hd2). split; [done|]. exists rest2. split; [|done].
    cbn [put_atom]. by rewrite <- (assoc_L (++)).
  - pose proof (d_string_canonical d1 rest1 Hd1) as Hu.
    destruct (d_string d1) as [[s d2]|e|]; cbn [outcome_bind fst snd]; [|done|done].
    destruct Hu as (Hn & rest2 & -> & Hd2). split; [done|]. exists rest2. split; [|done].
    cbn [put_atom]. by rewrite <- (assoc_L (++)).
Qed.

Lemma d_operation_canonical : canonical d_operation put_operation operation_wf.
Proof.
  intros d rest Hd. unfold d_operation. pose proof (d_byte_canonical d rest Hd) as Hb.
  destruct (d_byte d) as [[b d1]|e|]; cbn [outcome_bind fst snd]; [|done|done].
  destruct Hb as (_ & rest1 & -> & Hd1).
  destruct (Byte.to_N b) as [|[p|[p|p|]|]] eqn:Eb; try done; apply byte_is in Eb as ->.
  - pose proof (d_u64_canonical d1 rest1 Hd1) as Hu.
    destruct (d_u64 d1) as [[n d2]|e|]; cbn [outcome_bind fst snd]; [|done|done].
    destruct Hu as (Hn & rest2 & -> & Hd2). split; [done|]. exists rest2. split; [|done].
    cbn [put_operation]. by rewrite <- (assoc_L (++)).
  - pose proof (d_string_canonical d1 rest1 Hd1) as Hu.
    destruct (d_string d1) as [[s d2]|e|]; cbn [outcome_bind fst snd]; [|done|done].
    destruct Hu as (Hn & rest2 & -> & Hd2). split; [done|]. exists rest2. split; [|done].
    cbn [put_operation]. by rewrite <- (assoc_L (++)).
  - pose proof (d_string_canonical d1 rest1 Hd1) as Hu.
    destruct (d_string d1) as [[s d2]|e|]; cbn [outcome_bind fst snd]; [|done|done].
    destruct Hu as (Hs & rest2 & -> & Hd2). pose proof (d_atom_canonical d2 rest2 Hd2) as Ha.
    destruct (d_atom d2) as [[fs d3]|e|]; cbn [outcome_bind fst snd]; [|done|done].
    destruct Ha as (Hfs & rest3 & -> & Hd3). pose proof (d_string_canonical d3 rest3 Hd3) as Hp.
    destruct (d_string d3) as [[p d4]|e|]; cbn [outcome_bind fst snd]; [|done|done].
    destruct Hp as (Hp & rest4 & -> & Hd4). pose proof (d_atom_canonical d4 rest4 Hd4) as Ho.
    destruct (d_atom d4) as [[fo d5]|e|]; cbn [outcome_bind fst snd]; [|done|done].
    destruct Ho as (Hfo & rest5 & -> & Hd5). split; [done|]. exists rest5. split; [|done].
    cbn [put_operation slot_str fact_subject fact_predicate fact_object predicate_str].
    by rewrite <- !(assoc_L (++)).
Qed.

Lemma d_operations_canonical n :
  canonical (d_operations n) (λ ops, op ← ops; put_operation op)
    (λ ops, Forall operation_wf ops ∧ length ops = n).
Proof.
  induction n as [|n IH]; intros d rest Hd; cbn [d_operations].
  { split; [done|]. exists rest. done. }
  pose proof (d_operation_canonical d rest Hd) as Ho.
  destruct (d_operation d) as [[op d1]|e|]; cbn [outcome_bind fst snd]; [|done|done].
  destruct Ho as (Hop & rest1 & -> & Hd1). specialize (IH d1 rest1 Hd1).
  destruct (d_operations n d1) as [[ops d2]|e|]; cbn [outcome_bind fst snd]; [|done|done].
  destruct IH as ([Hops Hlen] & rest2 & -> & Hd2). split.
  - split; [by constructor|]. simpl. by rewrite Hlen.
  - exists rest2. split; [|done]. csimpl. by rewrite <- (assoc_L (++)).
Qed.

Lemma decode_payload_canonical payload :
  u64_ok (N.of_nat (length payload)) →
  match decode_payload payload with
  | Ok f => payload = encode_payload f ∧ frame_wf f ∧
      (N.of_nat (length (frame_operations f)) <= MAX_OPERATIONS_PER_FRAME)%N
  | Err _ => True
  | Panic => False
  end.
Proof.
  intros Hlen. pose proof (dec_at_new payload Hlen) as Hd0. unfold decode_payload.
  pose proof (d_u64_canonical _ _ Hd0) as Hu.
  destruct (d_u64 _) as [[w1 d1]|e|]; cbn [outcome_bind fst snd]; [|done|done].
  destruct Hu as (H1 & r1 & -> & Hd1). pose proof (d_u64_canonical _ _ Hd1) as Hu.
  destruct (d_u64 d1) as [[w2 d2]|e|]; cbn [outcome_bind fst snd]; [|done|done].
  destruct Hu as (H2 & r2 & -> & Hd2). pose proof (d_u64_canonical _ _ Hd2) as Hu.
  destruct (d_u64 d2) as [[w3 d3]|e|]; cbn [outcome_bind fst snd]; [|done|done].
  destruct Hu as (H3 & r3 & -> & Hd3). pose proof (d_u64_canonical _ _ Hd3) as Hu.
  destruct (d_u64 d3) as [[w4 d4]|e|]; cbn [outcome_bind fst snd]; [|done|done].
  destruct Hu as (H4 & r4 & -> & Hd4). pose proof (d_u64_canonical _ _ Hd4) as Hu.
  destruct (d_u64 d4) as [[w5 d5]|e|]; cbn [outcome_bind fst snd]; [|done|done].
  destruct Hu as (H5 & r5 & -> & Hd5). pose proof (d_u64_canonical _ _ Hd5) as Hu.
  destruct (d_u64 d5) as [[w6 d6]|e|]; cbn [outcome_bind fst snd]; [|done|done].
  destruct Hu as (H6 & r6 & -> & Hd6).
  destruct (_ <? w6)%N eqn:Hmax; [done|]. apply N.ltb_ge in Hmax.
  pose proof (d_operations_canonical (N.to_nat w6) _ _ Hd6) as Ho.
  destruct (d_operations _ d6) as [[ops d7]|e|]; cbn [outcome_bind fst snd]; [|done|done].
  destruct Ho as ([Hops Hol] & r7 & -> & Hd7).
  unfold d_finish. case_decide as Hfin; cbn [outcome_bind]; [|done].
  pose proof (dec_at_length _ _ Hd7) as Hr7. rewrite Hfin, Nat.sub_diag in Hr7.
  apply length_zero_iff_nil in Hr7 as ->. rewrite app_nil_r.
  assert (usize_of (length ops) = w6) as Hw6.
  { unfold usize_of. rewrite Hol, N2Nat.id. by apply u64_wrap_small. }
  split_and!; [|done|simpl; lia].
  unfold encode_payload. simpl. by rewrite Hw6.
Qed.

(** C26: The frame codec is exact.  On any payload shorter than [2^64] bytes the
    decoder returns a frame or an error, never panicking; a frame it returns is
    well formed and encodes to those very bytes; and every well-formed frame
    with at most a million operations is decoded from its encoding. *)
Theorem codec_exact (payload : list u8) (f : CommitFrame) :
  u64_ok (N.of_nat (length payload)) →
  decode_payload payload ≠ Panic ∧
  (decode_payload payload = Ok f ↔
   payload = encode_payload f ∧ frame_wf f ∧
   (N.of_nat (length (frame_operations f)) <= MAX_OPERATIONS_PER_FRAME)%N).
Proof.
  intros Hlen. pose proof (decode_payload_canonical payload Hlen) as Hdec. split; [|split].
  - by destruct (decode_payload payload).
  - intros Hf. by rewrite Hf in Hdec.
  - intros (-> & Hwf & Hops). by apply decode_encode_payload.
Qed.

Lemma codec_exact_witness :
  let f := CommitFrame_mk GENESIS GENESIS 0 1 1 [OpForget (SlotId_new "a")] in
  decode_payload (encode_payload f) ≠ Panic ∧
  (decode_payload (encode_payload f) = Ok f ↔
   encode_payload f = encode_payload f ∧ frame_wf f ∧
   (N.of_nat (length (frame_operations f)) <= MAX_OPERATIONS_PER_FRAME)%N).
Proof. apply codec_exact. vm_compute. reflexivity. Defined.
