(* ===== verification/FileStore.v ===== *)
(** The file commit store (forthdb-world/src/file_store.rs): the file format,
    opening with recovery of a torn tail, appending with rollback.

    The file is the byte string a reader would see.  The outcomes of the
    write, the sync and the rollback of an append come from the environment
    ([append_io]); an interrupted process leaves a prefix of what it was
    writing. *)
From Stdlib Require Import NArith Lia.
From Stdlib Require Import Strings.Byte.
From stdpp Require Import base gmap list strings option list_monad.
From S2P Require Import Prelude Ord Terms Bytes Query QueryFacts Spec Index Kernel Frames.
From S2P Require Import VmProjection Worlds WorldFacts Codec.

Definition FILE_MAGIC : list u8 := string_bytes "FTHDB001".
Definition FILE_VERSION : N := 1.
Definition FILE_FLAGS : N := 0.
Definition FILE_HEADER_LEN : nat := 16.
Definition FRAME_MAGIC : list u8 := string_bytes "FRM1".
Definition FRAME_TRAILER : list u8 := string_bytes "END1".
Definition FRAME_PREFIX_LEN : nat := 20.
Definition FRAME_TRAILER_LEN : nat := 4.

(** The formatted reasons of [CorruptFrame], with the values they print. *)
Inductive CorruptReason :=
| FrameMagicMismatch
| PayloadExceedsLimit (payload_len : N)
| RecordLengthOverflow
| TrailerMismatch
| ChecksumMismatch (expected actual : N)
| InvalidPayload (e : DecodeError)
| UnexpectedParent (expected actual : WorldId)
| UnexpectedParentVersion (expected actual : N)
| WorldVersionOverflow
| UnexpectedResultingVersion (expected actual : N)
(* of the memory-mapped store only (mmap_format.rs, mmap_store.rs) *)
| AppendedPrefixIncomplete
| AppendedExceedsLimit
| AppendedRecordEnd (record_end mapped_len : N)
| AppendedChecksumMismatch
| RefreshIncompleteTail.

Inductive InvalidHeaderReason :=
| HeaderIncomplete
| HeaderMagicMismatch
| UnsupportedFlags (flags : N).

(** The formatted reasons of [NonLinearAppend]. *)
Inductive NonLinearReason :=
| AppendParent (expected actual : WorldId)
| AppendParentVersion (expected actual : N)
| AppendVersionOverflow
| AppendResultingVersion (expected actual : N)
| AppendPayloadTooLong (len : N).

Inductive FileCommitStoreError :=
| Io
| InvalidHeader (reason : InvalidHeaderReason)
| UnsupportedFormat (version : N)
| CorruptFrame (offset : N) (reason : CorruptReason)
| NonLinearAppend (reason : NonLinearReason)
| History (error : CandidateError).

(** [write_file_header]. *)
Definition file_header : list u8 := FILE_MAGIC ++ u32_bytes FILE_VERSION ++ u32_bytes FILE_FLAGS.

Definition checksum (bytes : list u8) : N := fnv_write FNV_OFFSET_BASIS bytes.

(** [&bytes[start..start + len]]: [None] is the slice panic. *)
Definition slice (bytes : list u8) (start len : nat) : option (list u8) :=
  if start + len <=? length bytes then Some (take len (drop start bytes)) else None.

Definition encode_record (f : CommitFrame) : outcome FileCommitStoreError (list u8) :=
  let payload := encode_payload f in
  if (MAX_FRAME_BYTES <? N.of_nat (length payload))%N
  then Err (NonLinearAppend (AppendPayloadTooLong (N.of_nat (length payload))))
  else Ok (FRAME_MAGIC ++ u64_bytes (N.of_nat (length payload)) ++ u64_bytes (checksum payload) ++
           payload ++ FRAME_TRAILER).

(** The identity and version the next frame must name. *)
Definition expected_position (frames : list CommitFrame) : WorldId * N :=
  match last frames with
  | Some current => (resulting_world current, resulting_version current)
  | None => (GENESIS, 0%N)
  end.

Definition corrupt {A} (offset : nat) (reason : CorruptReason) : outcome FileCommitStoreError A :=
  Err (CorruptFrame (N.of_nat offset) reason).

Definition validate_decoded_position (frames : list CommitFrame) (f : CommitFrame) (offset : nat) :
    outcome FileCommitStoreError unit :=
  let '(expected_parent, expected_version) := expected_position frames in
  if decide (parent_world f ≠ expected_parent)
  then corrupt offset (UnexpectedParent expected_parent (parent_world f))
  else if decide (parent_version f ≠ expected_version)
  then corrupt offset (UnexpectedParentVersion expected_version (parent_version f))
  else
    match u64_checked_add expected_version 1 with
    | None => corrupt offset WorldVersionOverflow
    | Some expected =>
        if decide (resulting_version f ≠ expected)
        then corrupt offset (UnexpectedResultingVersion expected (resulting_version f))
        else Ok tt
    end.

(** One iteration of [while offset < bytes.len()]: [None] is the break of an
    incomplete record, otherwise the frame and the length of its record. *)
Definition decode_record (bytes : list u8) (frames : list CommitFrame) (offset : nat) :
    outcome FileCommitStoreError (option (CommitFrame * nat)) :=
  let remaining := length bytes - offset in
  if remaining <? FRAME_PREFIX_LEN then Ok None
  else
    let* magic := or_panic (slice bytes offset 4) in
    if decide (magic ≠ FRAME_MAGIC) then corrupt offset FrameMagicMismatch
    else
      let* len := or_panic (slice bytes (offset + 4) 8) in
      let payload_len := le_N len in
      if (MAX_FRAME_BYTES <? payload_len)%N then corrupt offset (PayloadExceedsLimit payload_len)
      else
        let* total_len := ok_or
          (n ← u64_checked_add (N.of_nat FRAME_PREFIX_LEN) payload_len;
           u64_checked_add n (N.of_nat FRAME_TRAILER_LEN))
          (CorruptFrame (N.of_nat offset) RecordLengthOverflow) in
        if (N.of_nat remaining <? total_len)%N then Ok None
        else
          let payload_len := N.to_nat payload_len in
          let* expected := or_panic (slice bytes (offset + 12) 8) in
          let expected_checksum := le_N expected in
          let payload_start := offset + FRAME_PREFIX_LEN in
          let* trailer := or_panic (slice bytes (payload_start + payload_len) FRAME_TRAILER_LEN) in
          if decide (trailer ≠ FRAME_TRAILER) then corrupt offset TrailerMismatch
          else
            let* payload := or_panic (slice bytes payload_start payload_len) in
            let actual_checksum := checksum payload in
            if decide (actual_checksum ≠ expected_checksum)
            then corrupt offset (ChecksumMismatch expected_checksum actual_checksum)
            else
              let* f := map_err (λ e, CorruptFrame (N.of_nat offset) (InvalidPayload e))
                (decode_payload payload) in
              let* _ := validate_decoded_position frames f offset in
              Ok (Some (f, N.to_nat total_len)).

(** The loop; every iteration that continues advances by a whole record. *)
Fixpoint decode_loop (fuel : nat) (bytes : list u8) (frames : list CommitFrame) (offset : nat) :
    outcome FileCommitStoreError (list CommitFrame * nat) :=
  if length bytes <=? offset then Ok (frames, offset)
  else
    match fuel with
    | 0 => Panic
    | S fuel =>
        let* r := decode_record bytes frames offset in
        match r with
        | None => Ok (frames, offset)
        | Some (f, total_len) => decode_loop fuel bytes (frames ++ [f]) (offset + total_len)
        end
    end.

Definition decode_file (bytes : list u8) : outcome FileCommitStoreError (list CommitFrame * nat) :=
  if length bytes <? FILE_HEADER_LEN then Err (InvalidHeader HeaderIncomplete)
  else
    let* magic := or_panic (slice bytes 0 8) in
    if decide (magic ≠ FILE_MAGIC) then Err (InvalidHeader HeaderMagicMismatch)
    else
      let* version := or_panic (slice bytes 8 4) in
      let version := le_N version in
      if decide (version ≠ FILE_VERSION) then Err (UnsupportedFormat version)
      else
        let* flags := or_panic (slice bytes 12 4) in
        let flags := le_N flags in
        if decide (flags ≠ FILE_FLAGS) then Err (InvalidHeader (UnsupportedFlags flags))
        else decode_loop (length bytes) bytes [] FILE_HEADER_LEN.

(** ** The store *)

Record FileCommitStore := FileCommitStore_mk {
  file_bytes : list u8;
  file_frames : list CommitFrame;
  recovered_tail_bytes : N;
}.

Section open.
Context {D P : Type} `{Kernel D, MappedRoot P}.

(** [FileCommitStore::open] on a file with the given content (empty for a
    file it creates); also the content it leaves. *)
Definition open_store (bytes : list u8) :
    outcome FileCommitStoreError FileCommitStore * list u8 :=
  let bytes := if length bytes =? 0 then file_header else bytes in
  match decode_file bytes with
  | Err e => (Err e, bytes)
  | Panic => (Panic, bytes)
  | Ok (frames, last_good_offset) =>
      let recovered := N.of_nat (length bytes - last_good_offset) in
      let bytes := if (recovered =? 0)%N then bytes else take last_good_offset bytes in
      (let* _ := map_err History (reconstruct (D := D) (P := P) frames) in
       Ok (FileCommitStore_mk bytes frames recovered), bytes)
  end.
End open.

(** ** Opening with the answers of the file system *)

(** The first call of [FileCommitStore::open] that fails, when one does; the
    write of the header may stop after some bytes. *)
Inductive open_io :=
| OpenIoOk
| OpenFails
| MetadataFails
| HeaderWriteFails (written : nat)
| HeaderSyncFails
| SeekStartFails
| ReadFails
| TruncateFails
| TruncateSyncFails
| SeekEndFails.

#[export] Instance open_io_eq_dec : EqDecision open_io.
Proof. solve_decision. Defined.

(** The header of an empty file: [write_file_header] and its sync. *)
Definition initialise_file (io : open_io) (bytes : list u8) :
    outcome FileCommitStoreError unit * list u8 :=
  if length bytes =? 0 then
    match io with
    | HeaderWriteFails written => (Err Io, take (written `min` 15) file_header)
    | HeaderSyncFails => (Err Io, file_header)
    | _ => (Ok tt, file_header)
    end
  else (Ok tt, bytes).

(** Cutting a torn tail off: [set_len] and its sync. *)
Definition truncate_tail (io : open_io) (bytes : list u8) (last_good_offset : nat) :
    outcome FileCommitStoreError unit * list u8 :=
  if length bytes - last_good_offset =? 0 then (Ok tt, bytes)
  else
    match io with
    | TruncateFails => (Err Io, bytes)
    | TruncateSyncFails => (Err Io, take last_good_offset bytes)
    | _ => (Ok tt, take last_good_offset bytes)
    end.

Section open_io.
Context {D P : Type} `{Kernel D, MappedRoot P}.

(** [FileCommitStore::open] with every exit of its file calls, and the content
    it leaves.  [open_store] is the run in which none of them fails. *)
Definition open_file_store (io : open_io) (bytes : list u8) :
    outcome FileCommitStoreError FileCommitStore * list u8 :=
  if decide (io = OpenFails ∨ io = MetadataFails) then (Err Io, bytes)
  else
    let '(initialised, bytes) := initialise_file io bytes in
    match initialised with
    | Err e => (Err e, bytes)
    | Panic => (Panic, bytes)
    | Ok _ =>
        if decide (io = SeekStartFails ∨ io = ReadFails) then (Err Io, bytes)
        else
          match decode_file bytes with
          | Err e => (Err e, bytes)
          | Panic => (Panic, bytes)
          | Ok (frames, last_good_offset) =>
              let recovered := N.of_nat (length bytes - last_good_offset) in
              let '(truncated, bytes) := truncate_tail io bytes last_good_offset in
              (let* _ := truncated in
               let* _ := map_err History (reconstruct (D := D) (P := P) frames) in
               if decide (io = SeekEndFails) then Err Io
               else Ok (FileCommitStore_mk bytes frames recovered), bytes)
          end
    end.

Lemma open_file_store_ok bytes : open_file_store OpenIoOk bytes = open_store (D := D) (P := P) bytes.
Proof.
  unfold open_file_store, open_store, initialise_file, truncate_tail.
  assert (∀ io io', io ≠ OpenIoOk → io' ≠ OpenIoOk → ¬ (OpenIoOk = io ∨ OpenIoOk = io')) as Hne
    by naive_solver.
  rewrite decide_False by (by apply Hne).
  assert ((if length bytes =? 0 then (Ok tt, file_header) else (Ok tt, bytes)) =
    (Ok (E := FileCommitStoreError) tt, if length bytes =? 0 then file_header else bytes)) as ->
    by (by destruct (_ =? _)).
  rewrite decide_False by (by apply Hne).
  destruct (decode_file _) as [[frames last]|e|]; [|done..].
  set (n := _ - last). destruct (Nat.eqb_spec n 0) as [->|Hn]; [done|].
  by rewrite (proj2 (N.eqb_neq (N.of_nat n) 0)) by lia.
Qed.
End open_io.

Definition file_len (s : FileCommitStore) : N := N.of_nat (length (file_bytes s)).

Definition validate_append (s : FileCommitStore) (f : CommitFrame) :
    outcome FileCommitStoreError unit :=
  let '(expected_parent, expected_version) := expected_position (file_frames s) in
  if decide (parent_world f ≠ expected_parent)
  then Err (NonLinearAppend (AppendParent expected_parent (parent_world f)))
  else if decide (parent_version f ≠ expected_version)
  then Err (NonLinearAppend (AppendParentVersion expected_version (parent_version f)))
  else
    match u64_checked_add expected_version 1 with
    | None => Err (NonLinearAppend AppendVersionOverflow)
    | Some expected =>
        if decide (resulting_version f ≠ expected)
        then Err (NonLinearAppend (AppendResultingVersion expected (resulting_version f)))
        else Ok tt
    end.

(** What the file system answers to an append: everything succeeds; the seek
    fails; the write fails after some bytes or the sync fails, and the truncation
    of the rollback succeeds or fails. *)
Inductive append_io :=
| IoOk
| IoSeekFails
| IoWriteFails (written : nat) (rolled_back : bool)
| IoSyncFails (rolled_back : bool).

(** [rollback_failed_append]: errors are ignored, so a failed truncation leaves
    the written bytes in the file. *)
Definition rollback_failed_append (s : FileCommitStore) (written : list u8) (ok : bool) :
    FileCommitStore :=
  if ok then s
  else FileCommitStore_mk (file_bytes s ++ written) (file_frames s) (recovered_tail_bytes s).

Definition file_append (io : append_io) (s : FileCommitStore) (f : CommitFrame) :
    outcome FileCommitStoreError unit * FileCommitStore :=
  match validate_append s f with
  | Err e => (Err e, s)
  | Panic => (Panic, s)
  | Ok _ =>
      match encode_record f with
      | Err e => (Err e, s)
      | Panic => (Panic, s)
      | Ok record =>
          match io with
          | IoSeekFails => (Err Io, s)
          | IoWriteFails written ok => (Err Io, rollback_failed_append s (take written record) ok)
          | IoSyncFails ok => (Err Io, rollback_failed_append s record ok)
          | IoOk => (Ok tt, FileCommitStore_mk (file_bytes s ++ record) (file_frames s ++ [f]) 0)
          end
      end
  end.

(** A store together with the answers its file system will give. *)
Record FileStoreEnv := FileStoreEnv_mk {
  env_store : FileCommitStore;
  env_io : list append_io;
}.

#[export] Instance file_store : CommitStore FileStoreEnv FileCommitStoreError := {
  store_append s f :=
    let '(r, st) := file_append (default IoOk (head (env_io s))) (env_store s) f in
    (r, FileStoreEnv_mk st (tail (env_io s)));
  store_frames s := file_frames (env_store s);
  store_len s := length (file_frames (env_store s));
}.

Lemma validate_append_not_panic s f : validate_append s f ≠ Panic.
Proof.
  unfold validate_append. destruct (expected_position _) as [w v].
  case_decide; [done|]. case_decide; [done|]. destruct (u64_checked_add v 1); [|done].
  by case_decide.
Qed.

Lemma encode_record_not_panic f : encode_record f ≠ Panic.
Proof. unfold encode_record. by destruct (_ <? _)%N. Qed.

#[export] Instance file_store_laws : CommitStoreLaws FileStoreEnv FileCommitStoreError.
Proof.
  split.
  - intros s f s'. simpl. unfold file_append.
    destruct (validate_append _ f); try done. destruct (encode_record f); try done.
    destruct (default IoOk _); try done. by intros [= <-].
  - intros s f e s'. simpl. unfold file_append.
    destruct (validate_append _ f); try done; [|by intros [= _ <-]].
    destruct (encode_record f); try done; [|by intros [= _ <-]].
    destruct (default IoOk _) as [| |n b|b]; try done; intros [= _ <-]; try done; by destruct b.
  - intros s f. simpl. unfold file_append. pose proof (validate_append_not_panic (env_store s) f).
    destruct (validate_append _ f); try done.
    pose proof (encode_record_not_panic f). destruct (encode_record f); try done.
    by destruct (default IoOk _).
  - done.
Qed.

(** ** The format *)

Definition record_bytes (f : CommitFrame) : list u8 :=
  FRAME_MAGIC ++ u64_bytes (N.of_nat (length (encode_payload f))) ++
  u64_bytes (checksum (encode_payload f)) ++ encode_payload f ++ FRAME_TRAILER.

(** The file that holds a history and nothing else. *)
Definition file_of (fs : list CommitFrame) : list u8 := file_header ++ (f ← fs; record_bytes f).

(** A frame the format can represent. *)
Definition storable (f : CommitFrame) : Prop :=
  frame_wf f ∧ (N.of_nat (length (frame_operations f)) <= MAX_OPERATIONS_PER_FRAME)%N ∧
  (N.of_nat (length (encode_payload f)) <= MAX_FRAME_BYTES)%N.

(** The frame continues the history. *)
Definition continues (fs : list CommitFrame) (f : CommitFrame) : Prop :=
  let '(parent, version) := expected_position fs in
  parent_world f = parent ∧ parent_version f = version ∧
  (version + 1 < u64_modulus)%N ∧ resulting_version f = (version + 1)%N.

Inductive linear : list CommitFrame → Prop :=
| linear_nil : linear []
| linear_snoc fs f : linear fs → continues fs f → storable f → linear (fs ++ [f]).

Lemma decide_neq {A B} `{EqDecision A} (x y : A) (a b : B) :
  (if decide (x ≠ y) then a else b) = (if decide (x = y) then b else a).
Proof. destruct (decide (x ≠ y)), (decide (x = y)); naive_solver. Qed.

Lemma validate_position_ok fs f offset :
  validate_decoded_position fs f offset = Ok tt ↔ continues fs f.
Proof.
  unfold validate_decoded_position, continues, corrupt, u64_checked_add.
  destruct (expected_position fs) as [w v]. rewrite !decide_neq.
  destruct (decide (parent_world f = w)); [|naive_solver].
  destruct (decide (parent_version f = v)); [|naive_solver].
  destruct (v + 1 <? u64_modulus)%N eqn:E.
  - apply N.ltb_lt in E. rewrite decide_neq. case_decide; naive_solver.
  - apply N.ltb_ge in E. split; [done|]. intros (_ & _ & ? & _). lia.
Qed.

Lemma validate_position_not_panic fs f offset : validate_decoded_position fs f offset ≠ Panic.
Proof.
  unfold validate_decoded_position, corrupt. destruct (expected_position fs) as [w v].
  case_decide; [done|]. case_decide; [done|]. destruct (u64_checked_add v 1); [|done].
  by case_decide.
Qed.

Lemma validate_append_ok s f :
  validate_append s f = Ok tt ↔ continues (file_frames s) f.
Proof.
  unfold validate_append, continues, u64_checked_add.
  destruct (expected_position _) as [w v]. rewrite !decide_neq.
  destruct (decide (parent_world f = w)); [|naive_solver].
  destruct (decide (parent_version f = v)); [|naive_solver].
  destruct (v + 1 <? u64_modulus)%N eqn:E.
  - apply N.ltb_lt in E. rewrite decide_neq. case_decide; naive_solver.
  - apply N.ltb_ge in E. split; [done|]. intros (_ & _ & ? & _). lia.
Qed.

Lemma slice_app a b c n : n = length b → slice (a ++ b ++ c) (length a) n = Some b.
Proof.
  intros ->. unfold slice. rewrite !length_app.
  assert ((length a + length b <=? length a + (length b + length c)) = true) as -> by (apply Nat.leb_le; lia).
  by rewrite drop_app_length, take_app_length.
Qed.

(** Slicing at an offset written as a sum of the parts before it. *)
Lemma slice_at pre b rest bytes start n :
  bytes = pre ++ b ++ rest → start = length pre → n = length b → slice bytes start n = Some b.
Proof. intros -> -> ->. by apply slice_app. Qed.

Lemma length_u64_bytes n : length (u64_bytes n) = 8.
Proof. apply length_le_bytes. Qed.

Lemma record_length f : length (record_bytes f) = 24 + length (encode_payload f).
Proof. unfold record_bytes. rewrite !length_app, !length_u64_bytes. simpl. lia. Qed.

Lemma checksum_ok bytes : u64_ok (checksum bytes).
Proof. apply fnv_write_ok. reflexivity. Qed.

Lemma le_N_inv bs n : length bs = 8 → le_N bs = n → bs = u64_bytes n.
Proof. intros Hl <-. unfold u64_bytes. by rewrite <- Hl, le_bytes_N. Qed.

#[local] Opaque encode_payload checksum le_N u64_bytes.

Lemma max_frame_u64 n : (n <= MAX_FRAME_BYTES)%N → u64_ok n.
Proof. intros H. unfold u64_ok. eapply N.le_lt_trans; [exact H|reflexivity]. Qed.

Lemma total_len_ok n :
  (n <= MAX_FRAME_BYTES)%N →
  (m ← u64_checked_add (N.of_nat FRAME_PREFIX_LEN) n; u64_checked_add m (N.of_nat FRAME_TRAILER_LEN)) =
  Some (24 + n)%N.
Proof.
  intros H. unfold MAX_FRAME_BYTES in H. unfold u64_checked_add, FRAME_PREFIX_LEN, FRAME_TRAILER_LEN.
  change (N.of_nat 20) with 20%N. change (N.of_nat 4) with 4%N. unfold u64_modulus.
  assert (20 + n < 2 ^ 64)%N as H1%N.ltb_lt by lia. rewrite H1. cbn [mbind option_bind].
  assert (20 + n + 4 < 2 ^ 64)%N as H2%N.ltb_lt by lia. rewrite H2. f_equal. lia.
Qed.

(** On a complete record all checks but those of the payload pass. *)
Lemma decode_record_payload pre fs f post :
  (N.of_nat (length (encode_payload f)) <= MAX_FRAME_BYTES)%N →
  decode_record (pre ++ record_bytes f ++ post) fs (length pre) =
  (let* g := map_err (λ e, CorruptFrame (N.of_nat (length pre)) (InvalidPayload e))
     (decode_payload (encode_payload f)) in
   let* _ := validate_decoded_position fs g (length pre) in
   Ok (Some (g, length (record_bytes f)))).
Proof.
  intros Hlen. unfold decode_record.
  set (payload := encode_payload f) in *.
  assert (length (pre ++ record_bytes f ++ post) - length pre = length (record_bytes f) + length post)
    as -> by (rewrite !length_app; lia).
  assert (length (record_bytes f) + length post = 24 + length payload + length post) as ->
    by (by rewrite record_length).
  assert ((24 + length payload + length post <? FRAME_PREFIX_LEN) = false) as ->
    by (apply Nat.ltb_ge; unfold FRAME_PREFIX_LEN; lia).
  assert (record_bytes f ++ post = FRAME_MAGIC ++ u64_bytes (N.of_nat (length payload)) ++
    u64_bytes (checksum payload) ++ payload ++ FRAME_TRAILER ++ post) as ->
    by (unfold record_bytes; by rewrite <- !(assoc_L (++))).
  rewrite (slice_at pre FRAME_MAGIC
    (u64_bytes (N.of_nat (length payload)) ++ u64_bytes (checksum payload) ++ payload ++ FRAME_TRAILER ++ post))
    by done.
  cbn [or_panic outcome_bind]. rewrite decide_False by (intros Hne; by apply Hne).
  rewrite (slice_at (pre ++ FRAME_MAGIC) (u64_bytes (N.of_nat (length payload)))
    (u64_bytes (checksum payload) ++ payload ++ FRAME_TRAILER ++ post));
    [|by rewrite <- !(assoc_L (++))|rewrite length_app; done|by rewrite length_u64_bytes].
  cbn [or_panic outcome_bind]. rewrite le_N_u64_bytes by (by apply max_frame_u64).
  pose proof Hlen as Hmax%N.ltb_ge. rewrite Hmax, total_len_ok by done.
  cbn [ok_or outcome_bind].
  assert ((N.of_nat (24 + length payload + length post) <? 24 + N.of_nat (length payload)) = false)%N
    as -> by (apply N.ltb_ge; lia).
  rewrite Nat2N.id.
  rewrite (slice_at (pre ++ FRAME_MAGIC ++ u64_bytes (N.of_nat (length payload)))
    (u64_bytes (checksum payload)) (payload ++ FRAME_TRAILER ++ post));
    [|by rewrite <- !(assoc_L (++))|rewrite !length_app, length_u64_bytes; done|by rewrite length_u64_bytes].
  cbn [or_panic outcome_bind]. rewrite le_N_u64_bytes by apply checksum_ok.
  rewrite (slice_at (pre ++ FRAME_MAGIC ++ u64_bytes (N.of_nat (length payload)) ++
    u64_bytes (checksum payload) ++ payload) FRAME_TRAILER post);
    [|by rewrite <- !(assoc_L (++))
     |rewrite !length_app, !length_u64_bytes; unfold FRAME_PREFIX_LEN; simpl; lia|done].
  cbn [or_panic outcome_bind]. rewrite decide_False by (intros Hne; by apply Hne).
  rewrite (slice_at (pre ++ FRAME_MAGIC ++ u64_bytes (N.of_nat (length payload)) ++
    u64_bytes (checksum payload)) payload (FRAME_TRAILER ++ post));
    [|by rewrite <- !(assoc_L (++))
     |rewrite !length_app, !length_u64_bytes; unfold FRAME_PREFIX_LEN; simpl; lia|done].
  cbn [or_panic outcome_bind]. rewrite decide_False by (intros Hne; by apply Hne).
  by rewrite record_length, N2Nat.inj_add, Nat2N.id.
Qed.

(** A complete record is decoded. *)
Lemma decode_record_complete pre fs f post :
  storable f → continues fs f →
  decode_record (pre ++ record_bytes f ++ post) fs (length pre) =
  Ok (Some (f, length (record_bytes f))).
Proof.
  intros (Hwf & Hops & Hlen) Hcont. rewrite decode_record_payload by done.
  rewrite decode_encode_payload by (done || by apply max_frame_u64).
  cbn [map_err outcome_bind]. by rewrite (proj2 (validate_position_ok fs f (length pre)) Hcont).
Qed.

(** A torn record (a proper prefix of one) ends the loop. *)
Lemma decode_record_torn pre fs f n :
  (N.of_nat (length (encode_payload f)) <= MAX_FRAME_BYTES)%N →
  n < length (record_bytes f) →
  decode_record (pre ++ take n (record_bytes f)) fs (length pre) = Ok None.
Proof.
  intros Hlen Hn. unfold decode_record.
  assert (length (pre ++ take n (record_bytes f)) - length pre = n) as ->
    by (rewrite length_app, length_take; lia).
  destruct (n <? FRAME_PREFIX_LEN) eqn:En; [done|]. apply Nat.ltb_ge in En.
  unfold FRAME_PREFIX_LEN in En.
  set (payload := encode_payload f) in *.
  assert (∃ tl, take n (record_bytes f) = FRAME_MAGIC ++ u64_bytes (N.of_nat (length payload)) ++ tl)
    as [tl ->].
  { exists (take (n - 12) (u64_bytes (checksum payload) ++ payload ++ FRAME_TRAILER)).
    unfold record_bytes. fold payload. rewrite take_app_ge by (simpl; lia). f_equal.
    rewrite take_app_ge by (rewrite length_u64_bytes; simpl; lia). f_equal.
    rewrite length_u64_bytes. f_equal. simpl. lia. }
  rewrite (slice_at pre FRAME_MAGIC (u64_bytes (N.of_nat (length payload)) ++ tl)) by done.
  cbn [or_panic outcome_bind]. rewrite decide_False by (intros Hne; by apply Hne).
  rewrite (slice_at (pre ++ FRAME_MAGIC) (u64_bytes (N.of_nat (length payload))) tl);
    [|by rewrite <- !(assoc_L (++))|rewrite length_app; done|by rewrite length_u64_bytes].
  cbn [or_panic outcome_bind]. rewrite le_N_u64_bytes by (by apply max_frame_u64).
  pose proof Hlen as Hmax%N.ltb_ge. rewrite Hmax, total_len_ok by done.
  cbn [ok_or outcome_bind]. rewrite record_length in Hn. fold payload in Hn.
  assert ((N.of_nat n <? 24 + N.of_nat (length payload)) = true)%N as -> by (apply N.ltb_lt; lia).
  done.
Qed.

Lemma slice_Some bytes start n b :
  slice bytes start n = Some b →
  start + n ≤ length bytes ∧ length b = n ∧ drop start bytes = b ++ drop (start + n) bytes.
Proof.
  unfold slice. destruct (_ <=? _) eqn:E; [|done]. apply Nat.leb_le in E. intros [= <-].
  split_and!; [done|rewrite length_take, length_drop; lia|].
  rewrite <- drop_drop. by rewrite take_drop.
Qed.

Lemma slice_in_range bytes start n : start + n ≤ length bytes → is_Some (slice bytes start n).
Proof. intros H. unfold slice. apply Nat.leb_le in H. by rewrite H. Qed.

(** What is decoded is a record that was written, byte for byte; no file makes
    the decoder panic. *)
Lemma decode_record_inv bytes fs offset :
  offset ≤ length bytes →
  match decode_record bytes fs offset with
  | Ok (Some (f, n)) => n = length (record_bytes f) ∧ storable f ∧ continues fs f ∧
      drop offset bytes = record_bytes f ++ drop (offset + n) bytes
  | Ok None | Err _ => True
  | Panic => False
  end.
Proof.
  intros Hoff. unfold decode_record.
  destruct (_ <? FRAME_PREFIX_LEN) eqn:E1; [done|]. apply Nat.ltb_ge in E1.
  unfold FRAME_PREFIX_LEN in E1.
  destruct (slice_in_range bytes offset 4 ltac:(lia)) as [magic Hs1]. rewrite Hs1.
  cbn [or_panic outcome_bind]. rewrite decide_neq. case_decide as Hmagic; [|done].
  destruct (slice_in_range bytes (offset + 4) 8 ltac:(lia)) as [len Hs2]. rewrite Hs2.
  cbn [or_panic outcome_bind]. destruct (_ <? le_N len)%N eqn:E2; [done|].
  apply N.ltb_ge in E2. rewrite total_len_ok by done. cbn [ok_or outcome_bind].
  destruct (_ <? 24 + le_N len)%N eqn:E3; [done|]. apply N.ltb_ge in E3.
  destruct (slice_in_range bytes (offset + 12) 8 ltac:(lia)) as [exp Hs3]. rewrite Hs3.
  cbn [or_panic outcome_bind].
  destruct (slice_in_range bytes (offset + FRAME_PREFIX_LEN + N.to_nat (le_N len)) FRAME_TRAILER_LEN)
    as [trailer Hs4]; [unfold FRAME_PREFIX_LEN, FRAME_TRAILER_LEN; lia|]. rewrite Hs4.
  cbn [or_panic outcome_bind]. rewrite decide_neq. case_decide as Htrailer; [|done].
  destruct (slice_in_range bytes (offset + FRAME_PREFIX_LEN) (N.to_nat (le_N len)))
    as [payload Hs5]; [unfold FRAME_PREFIX_LEN; lia|]. rewrite Hs5.
  cbn [or_panic outcome_bind]. rewrite decide_neq. case_decide as Hck; [|done].
  apply slice_Some in Hs1 as (_ & _ & D1), Hs2 as (_ & L2 & D2), Hs3 as (_ & L3 & D3),
    Hs4 as (_ & L4 & D4), Hs5 as (_ & L5 & D5).
  assert (N.of_nat (length payload) = le_N len) as Hpl by lia.
  pose proof (decode_payload_canonical payload) as Hdec.
  destruct (decode_payload payload) as [f|e|]; cbn [map_err outcome_bind];
    [|done|apply Hdec, max_frame_u64; lia].
  destruct Hdec as (-> & Hwf & Hops); [apply max_frame_u64; lia|].
  destruct (validate_decoded_position fs f offset) as [[]|e|] eqn:Hv; cbn [outcome_bind];
    [|done|by apply validate_position_not_panic in Hv].
  apply validate_position_ok in Hv. split_and!.
  - rewrite record_length. lia.
  - split_and!; [done|done|lia].
  - done.
  - unfold record_bytes. rewrite Hpl.
    rewrite <- (le_N_inv len (le_N len) L2 eq_refl).
    rewrite <- (le_N_inv exp (checksum (encode_payload f)) L3) by congruence.
    rewrite <- Hmagic, <- Htrailer, <- !(assoc_L (++)).
    rewrite D1. f_equal. rewrite D2. f_equal.
    replace (offset + 4 + 8) with (offset + 12) by lia. rewrite D3. f_equal.
    replace (offset + 12 + 8) with (offset + FRAME_PREFIX_LEN) by (unfold FRAME_PREFIX_LEN; lia).
    rewrite D5. f_equal. rewrite D4. f_equal. f_equal.
    unfold FRAME_PREFIX_LEN, FRAME_TRAILER_LEN. lia.
Qed.

Lemma linear_snoc_inv fs f : linear (fs ++ [f]) → linear fs ∧ continues fs f ∧ storable f.
Proof.
  intros H. inversion H as [Hn|fs' f' H1 H2 H3 Heq]; [by destruct fs|].
  by apply app_inj_tail in Heq as [-> ->].
Qed.

Lemma linear_app_inv fs fs' : linear (fs ++ fs') → linear fs.
Proof.
  induction fs' as [|f fs' IH] using rev_ind; [by rewrite app_nil_r|].
  rewrite (assoc_L (++)). intros H%linear_snoc_inv. apply IH, H.
Qed.

Lemma file_of_snoc fs f : file_of (fs ++ [f]) = file_of fs ++ record_bytes f.
Proof. unfold file_of. rewrite bind_app. csimpl. by rewrite app_nil_r, (assoc_L (++)). Qed.

(** ** The loop *)

(** From any point the loop decodes the records that are there. *)
Lemma decode_loop_prefix fuel fs fs' tail :
  linear (fs ++ fs') →
  decode_loop (length fs' + fuel) (file_of (fs ++ fs') ++ tail) fs (length (file_of fs)) =
  decode_loop fuel (file_of (fs ++ fs') ++ tail) (fs ++ fs') (length (file_of (fs ++ fs'))).
Proof.
  revert fs. induction fs' as [|f fs' IH]; intros fs Hlin; [by rewrite app_nil_r|].
  cbn [length Nat.add]. unfold decode_loop at 1; fold decode_loop.
  assert (fs ++ f :: fs' = (fs ++ [f]) ++ fs') as Hfs by (by rewrite <- (assoc_L (++))).
  assert (∃ tl, file_of (fs ++ f :: fs') = file_of fs ++ record_bytes f ++ tl) as [tl Hfile].
  { exists (g ← fs'; record_bytes g). unfold file_of. rewrite bind_app. csimpl.
    by rewrite <- !(assoc_L (++)). }
  assert (storable f ∧ continues fs f) as [Hst Hc].
  { rewrite Hfs in Hlin. apply linear_app_inv, linear_snoc_inv in Hlin. tauto. }
  pose proof (record_length f) as Hrl.
  destruct (_ <=? _) eqn:E; [apply Nat.leb_le in E; rewrite Hfile, !length_app in E; lia|].
  rewrite Hfile at 1. rewrite <- !(assoc_L (++)).
  rewrite (decode_record_complete (file_of fs) fs f (tl ++ tail) Hst Hc). cbn [outcome_bind].
  replace (length (file_of fs) + length (record_bytes f)) with (length (file_of (fs ++ [f])))
    by (by rewrite file_of_snoc, length_app).
  rewrite Hfs in *. by apply IH.
Qed.

Lemma length_file_header : length file_header = FILE_HEADER_LEN.
Proof. reflexivity. Qed.

(** The header checks pass on a file that starts with the header. *)
Lemma decode_file_header rest :
  decode_file (file_header ++ rest) =
  decode_loop (length (file_header ++ rest)) (file_header ++ rest) [] FILE_HEADER_LEN.
Proof.
  unfold decode_file. rewrite length_app, length_file_header.
  assert ((FILE_HEADER_LEN + length rest <? FILE_HEADER_LEN) = false) as -> by (apply Nat.ltb_ge; lia).
  unfold file_header. rewrite <- !(assoc_L (++)).
  rewrite (slice_at [] FILE_MAGIC (u32_bytes FILE_VERSION ++ u32_bytes FILE_FLAGS ++ rest)) by done.
  cbn [or_panic outcome_bind]. rewrite decide_False by (intros Hne; by apply Hne).
  rewrite (slice_at FILE_MAGIC (u32_bytes FILE_VERSION) (u32_bytes FILE_FLAGS ++ rest)) by done.
  cbn [or_panic outcome_bind]. rewrite (le_N_u32_bytes FILE_VERSION) by reflexivity.
  rewrite decide_False by (intros Hne; by apply Hne).
  rewrite (slice_at (FILE_MAGIC ++ u32_bytes FILE_VERSION) (u32_bytes FILE_FLAGS) rest) by done.
  cbn [or_panic outcome_bind]. rewrite (le_N_u32_bytes FILE_FLAGS) by reflexivity.
  rewrite decide_False by (intros Hne; by apply Hne). done.
Qed.

Lemma length_file_of fs : length fs < length (file_of fs).
Proof.
  induction fs as [|f fs IH] using rev_ind; [unfold file_of; rewrite length_app, length_file_header; simpl; lia|].
  rewrite file_of_snoc, !length_app, record_length. cbn [length]. lia.
Qed.

(** A file that starts with a history decodes as its first byte after it does. *)
Lemma decode_file_prefix fs tail :
  linear fs → ∃ fuel, (tail ≠ [] → 0 < fuel) ∧
  decode_file (file_of fs ++ tail) =
  decode_loop fuel (file_of fs ++ tail) fs (length (file_of fs)).
Proof.
  intros Hlin. pose proof (length_file_of fs) as Hl.
  exists (length (file_of fs ++ tail) - length fs). split.
  { intros Ht. rewrite length_app. destruct tail; [done|]. cbn [length]. lia. }
  unfold file_of at 1. rewrite <- (assoc_L (++)), decode_file_header, (assoc_L (++)). fold (file_of fs).
  rewrite <- (decode_loop_prefix _ [] fs tail Hlin). f_equal. rewrite length_app. lia.
Qed.

Lemma decode_file_of fs tail :
  linear fs →
  (tail = [] ∨ decode_record (file_of fs ++ tail) fs (length (file_of fs)) = Ok None) →
  decode_file (file_of fs ++ tail) = Ok (fs, length (file_of fs)).
Proof.
  intros Hlin Htail. destruct (decode_file_prefix fs tail Hlin) as (fuel & Hfuel & ->).
  destruct Htail as [->|Hdec].
  - rewrite app_nil_r. destruct fuel; cbn [decode_loop]; by rewrite (proj2 (Nat.leb_le _ _)).
  - destruct fuel as [|fuel]; cbn [decode_loop].
    + destruct tail; [|exfalso; specialize (Hfuel ltac:(done)); lia]. rewrite app_nil_r.
      by rewrite (proj2 (Nat.leb_le _ _)).
    + destruct (_ <=? _); [done|]. by rewrite Hdec.
Qed.

(** A record that is refused makes the whole file refused. *)
Lemma decode_file_refused fs tail e :
  linear fs → tail ≠ [] → decode_record (file_of fs ++ tail) fs (length (file_of fs)) = Err e →
  decode_file (file_of fs ++ tail) = Err e.
Proof.
  intros Hlin Hne Hdec. destruct (decode_file_prefix fs tail Hlin) as (fuel & Hfuel & ->).
  destruct fuel as [|fuel]; [by specialize (Hfuel Hne); lia|]. cbn [decode_loop].
  destruct (_ <=? _) eqn:E; [|by rewrite Hdec].
  apply Nat.leb_le in E. rewrite length_app in E. destruct tail; [done|]. simpl in E. lia.
Qed.

(** ** What a file that decodes holds *)

Lemma le_N_inv32 bs n : length bs = 4 → le_N bs = n → bs = u32_bytes n.
Proof. intros Hl <-. unfold u32_bytes. by rewrite <- Hl, le_bytes_N. Qed.

Lemma take_length_le_prefix {A} (l p : list A) n : take n l = p → n ≤ length l → length p = n.
Proof. intros <- ?. rewrite length_take. lia. Qed.

(** Reading a record extends the history that was read. *)
Lemma take_record bytes fs f offset :
  take offset bytes = file_of fs → offset ≤ length bytes →
  drop offset bytes = record_bytes f ++ drop (offset + length (record_bytes f)) bytes →
  offset + length (record_bytes f) ≤ length bytes ∧
  take (offset + length (record_bytes f)) bytes = file_of (fs ++ [f]).
Proof.
  intros Htake Hoff Hdrop. split.
  - apply (f_equal length) in Hdrop. rewrite length_drop, length_app, length_drop in Hdrop.
    pose proof (record_length f). lia.
  - rewrite <- (take_drop offset bytes) at 1. rewrite Hdrop, Htake.
    rewrite <- (take_length_le_prefix _ _ _ Htake Hoff).
    by rewrite file_of_snoc, take_app_add, take_app_length.
Qed.

Lemma decode_loop_inv fuel bytes fs offset :
  linear fs → offset ≤ length bytes → take offset bytes = file_of fs →
  length bytes - offset < fuel →
  match decode_loop fuel bytes fs offset with
  | Ok (fs', n) => linear fs' ∧ n ≤ length bytes ∧ take n bytes = file_of fs'
  | Err _ => True
  | Panic => False
  end.
Proof.
  revert fs offset. induction fuel as [|fuel IH]; intros fs offset Hlin Hoff Htake Hfuel; [lia|].
  cbn [decode_loop]. destruct (_ <=? _) eqn:E; [done|]. apply Nat.leb_gt in E.
  pose proof (decode_record_inv bytes fs offset Hoff) as Hrec.
  destruct (decode_record bytes fs offset) as [[[f n]|]|e|]; [|done..].
  destruct Hrec as (-> & Hst & Hc & Hdrop). cbn [outcome_bind].
  destruct (take_record bytes fs f offset Htake Hoff Hdrop) as [Hle Htake'].
  apply IH; [by constructor|done|done|rewrite record_length; lia].
Qed.

(** The header checks leave the empty history. *)
Lemma take_header bytes magic version flags :
  slice bytes 0 8 = Some magic → slice bytes 8 4 = Some version → slice bytes 12 4 = Some flags →
  magic = FILE_MAGIC → le_N version = FILE_VERSION → le_N flags = FILE_FLAGS →
  take FILE_HEADER_LEN bytes = file_of [].
Proof.
  intros (_ & _ & D1)%slice_Some (_ & L2 & D2)%slice_Some (_ & L3 & D3)%slice_Some
    Hmagic Hversion Hflags.
  apply (le_N_inv32 _ _ L2) in Hversion. apply (le_N_inv32 _ _ L3) in Hflags. subst.
  change (drop 0 bytes) with bytes in D1. rewrite D1. cbn [Nat.add] in D1, D2, D3 |- *.
  rewrite D2, D3. unfold file_of. cbn [mbind list_bind]. rewrite app_nil_r, !(assoc_L (++)).
  by rewrite take_app_length'.
Qed.

Lemma decode_file_inv bytes :
  match decode_file bytes with
  | Ok (fs, n) => linear fs ∧ n ≤ length bytes ∧ take n bytes = file_of fs
  | Err _ => True
  | Panic => False
  end.
Proof.
  unfold decode_file. destruct (_ <? FILE_HEADER_LEN) eqn:E; [done|]. apply Nat.ltb_ge in E.
  unfold FILE_HEADER_LEN in E.
  destruct (slice_in_range bytes 0 8 ltac:(lia)) as [magic Hs1]. rewrite Hs1.
  cbn [or_panic outcome_bind]. rewrite decide_neq. case_decide as Hmagic; [|done].
  destruct (slice_in_range bytes 8 4 ltac:(lia)) as [version Hs2]. rewrite Hs2.
  cbn [or_panic outcome_bind]. rewrite decide_neq. case_decide as Hversion; [|done].
  destruct (slice_in_range bytes 12 4 ltac:(lia)) as [flags Hs3]. rewrite Hs3.
  cbn [or_panic outcome_bind]. rewrite decide_neq. case_decide as Hflags; [|done].
  apply decode_loop_inv; [constructor|done| |unfold FILE_HEADER_LEN; lia].
  by apply (take_header bytes magic version flags).
Qed.
