(* ===== verification/FileProps.v ===== *)
(** The properties of the file commit store: what opening accepts, recovery of a
    torn tail, durability of commits through a crash at any byte of the next
    append, and what is left when the rollback of a failed append fails. *)
From Stdlib Require Import NArith Lia.
From Stdlib Require Import Strings.Byte.
From stdpp Require Import base gmap list strings option list_monad.
From S2P Require Import Prelude Ord Terms Bytes Query QueryFacts Spec Index Kernel LegacyDb.
From S2P Require Import KernelProps Frames VmProjection Worlds WorldFacts WorldProps Codec FileStore.

(** The file holds the frames of the store and nothing else. *)
Record file_ok (s : FileCommitStore) : Prop := {
  fo_bytes : file_bytes s = file_of (file_frames s);
  fo_linear : linear (file_frames s);
}.

Definition opened (fs : list CommitFrame) (recovered : N) : FileCommitStore :=
  FileCommitStore_mk (file_of fs) fs recovered.

Lemma opened_ok fs n : linear fs → file_ok (opened fs n).
Proof. by split. Qed.

Lemma file_ok_opened s : file_ok s → s = opened (file_frames s) (recovered_tail_bytes s).
Proof. intros [H _]. destruct s. unfold opened. simpl in *. by subst. Qed.

Lemma file_of_not_empty fs tail : (length (file_of fs ++ tail) =? 0) = false.
Proof. apply Nat.eqb_neq. rewrite length_app. pose proof (length_file_of fs). lia. Qed.

Section open.
Context {D P : Type} `{KernelLaws D, MappedRootLaws P}.

Lemma reconstruct_accepts fs st :
  check_chain fs = Ok st → ∃ w : World D P, reconstruct fs = Ok w.
Proof.
  intros Hc. pose proof (reconstruct_ok (D := D) (P := P) fs) as Hr. rewrite Hc in Hr.
  destruct st as [[id v] n]. destruct Hr as (w & Hw & _). eauto.
Qed.

(** Opening a file that decodes to [fs] with [tail] left over. *)
Lemma open_store_decoded fs tail st :
  decode_file (file_of fs ++ tail) = Ok (fs, length (file_of fs)) →
  check_chain fs = Ok st →
  open_store (D := D) (P := P) (file_of fs ++ tail) =
    (Ok (opened fs (N.of_nat (length tail))), file_of fs).
Proof.
  intros Hdec [w Hw]%reconstruct_accepts. unfold open_store.
  rewrite file_of_not_empty, Hdec, Hw. cbn [map_err outcome_bind].
  assert (length (file_of fs ++ tail) - length (file_of fs) = length tail) as ->
    by (rewrite length_app; lia).
  assert ((if (N.of_nat (length tail) =? 0)%N then file_of fs ++ tail
    else take (length (file_of fs)) (file_of fs ++ tail)) = file_of fs) as ->; [|done].
  destruct tail; simpl; [by rewrite app_nil_r|by rewrite take_app_length].
Qed.

Lemma open_store_torn fs f n st :
  linear fs → check_chain fs = Ok st →
  (N.of_nat (length (encode_payload f)) <= MAX_FRAME_BYTES)%N → n < length (record_bytes f) →
  open_store (D := D) (P := P) (file_of fs ++ take n (record_bytes f)) =
    (Ok (opened fs (N.of_nat n)), file_of fs).
Proof.
  intros Hlin Hc Hmax Hn.
  rewrite (open_store_decoded fs (take n (record_bytes f)) st); [|..|done].
  - by rewrite length_take, Nat.min_l by lia.
  - apply decode_file_of; [done|]. right. by apply decode_record_torn.
Qed.

Lemma open_store_clean fs st :
  linear fs → check_chain fs = Ok st →
  open_store (D := D) (P := P) (file_of fs) = (Ok (opened fs 0), file_of fs).
Proof.
  intros Hlin Hc. rewrite <- (app_nil_r (file_of fs)) at 1.
  rewrite (open_store_decoded fs [] st); [done| |done].
  apply decode_file_of; [done|by left].
Qed.
End open.

(** ** Appending *)

(** The rollback of a failed append succeeds. *)
Definition rolls_back (io : append_io) : Prop :=
  match io with IoWriteFails _ ok | IoSyncFails ok => ok = true | _ => True end.

Lemma encode_record_Ok f record :
  encode_record f = Ok record →
  record = record_bytes f ∧ (N.of_nat (length (encode_payload f)) <= MAX_FRAME_BYTES)%N.
Proof.
  unfold encode_record. destruct (_ <? _)%N eqn:E; [done|]. apply N.ltb_ge in E. by intros [= <-].
Qed.

(** A frame of the world layer: everything in range except its byte length. *)
Definition frame_small (f : CommitFrame) : Prop :=
  frame_wf f ∧ (N.of_nat (length (frame_operations f)) <= MAX_OPERATIONS_PER_FRAME)%N.

(** A successful append: the position is checked, the size is checked, and the
    record is written; the number of operations is not looked at. *)
Lemma file_append_writes io s f s' :
  file_append io s f = (Ok tt, s') →
  continues (file_frames s) f ∧ (N.of_nat (length (encode_payload f)) <= MAX_FRAME_BYTES)%N ∧
  s' = FileCommitStore_mk (file_bytes s ++ record_bytes f) (file_frames s ++ [f]) 0.
Proof.
  unfold file_append. intros Ha.
  destruct (validate_append s f) as [[]|e|] eqn:Hv; [|done..]. apply validate_append_ok in Hv.
  destruct (encode_record f) as [record|e|] eqn:He; [|done..].
  apply encode_record_Ok in He as [-> Hlen].
  destruct io; try done. by injection Ha as <-.
Qed.

Lemma file_append_Ok io s f s' :
  file_append io s f = (Ok tt, s') → file_ok s → frame_small f →
  s' = opened (file_frames s ++ [f]) 0 ∧ linear (file_frames s ++ [f]).
Proof.
  intros (Hc & Hlen & ->)%file_append_writes [Hb Hlin] [Hwf Hops]. split.
  - unfold opened. by rewrite file_of_snoc, Hb.
  - constructor; [done|done|]. by split_and!.
Qed.

Lemma file_append_Err io s f e s' :
  file_append io s f = (Err e, s') → rolls_back io → s' = s.
Proof.
  unfold file_append. intros Ha Hio.
  destruct (validate_append s f); try done; [|by injection Ha].
  destruct (encode_record f); try done; [|by injection Ha].
  destruct io as [| |n ok|ok]; simpl in Hio; subst; try done; by injection Ha.
Qed.

(** ** Frames of the world layer are in range *)

Lemma allocate_ok n ops n' : u64_ok n → allocate n ops = Ok n' → u64_ok n'.
Proof.
  revert n. induction ops as [|[e|s f|s] ops IH]; simpl; intros n Hn; [by intros [= <-]| |eauto..].
  case_decide; [done|]. apply IH, u64_wrap_ok.
Qed.

Lemma check_chain_wf fs id version next_entity :
  linear fs → check_chain fs = Ok (id, version, next_entity) →
  u64_ok (world_value id) ∧ u64_ok version ∧ u64_ok next_entity ∧ expected_position fs = (id, version).
Proof.
  intros Hlin. destruct Hlin as [|fs f Hlin Hc (Hwf & _)]; intros Hchain.
  - injection Hchain as <- <- <-. split_and!; reflexivity.
  - rewrite check_chain_snoc in Hchain. destruct (check_chain fs) as [st|e|]; [|done..].
    apply check_frame_ok in Hchain as (_ & [= -> -> ->] & _). destruct Hwf as (_ & H2 & _ & H4 & H5 & _).
    split_and!; [done..|]. unfold expected_position. by rewrite last_snoc.
Qed.

(** What is on disk and what the world layer knows agree. *)
Record durable {D P} `{KernelLaws D, MappedRootLaws P} (db : Database D P FileStoreEnv) (fs : list CommitFrame) :
    Prop := {
  du_db : db_ok db fs;
  du_file : file_ok (env_store (db_store db));
  du_io : Forall rolls_back (env_io (db_store db));
}.

Section durable.
Context {D P : Type} `{KernelLaws D, MappedRootLaws P}.

(** The file, torn at any byte of the record of a next frame, reopens to the
    same world. *)
Lemma durable_reopens (db : Database D P FileStoreEnv) fs g n io :
  durable db fs → (N.of_nat (length (encode_payload g)) <= MAX_FRAME_BYTES)%N →
  n < length (record_bytes g) →
  ∃ store (db' : Database D P FileStoreEnv),
    open_store (D := D) (P := P) (file_bytes (env_store (db_store db)) ++ take n (record_bytes g)) =
      (Ok store, file_bytes (env_store (db_store db))) ∧
    database_new (FileStoreEnv_mk store io) = Ok db' ∧ db_ok db' fs ∧
    w_id (db_current db') = w_id (db_current db) ∧
    w_version (db_current db') = w_version (db_current db) ∧
    w_next_entity (db_current db') = w_next_entity (db_current db) ∧
    world_observes (db_current db') fs.
Proof.
  intros [Hdb [Hb Hlin] Hio] Hg Hn. pose proof (dbo_world _ _ Hdb) as Hw.
  pose proof (dbo_store _ _ Hdb) as Hst. simpl in Hst. rewrite Hst in Hb, Hlin.
  rewrite Hb. exists (opened fs (N.of_nat n)).
  pose proof (database_new_ok (D := D) (P := P) (FileStoreEnv_mk (opened fs (N.of_nat n)) io)) as Hnew.
  change (store_frames _) with fs in Hnew. rewrite (wo_chain _ _ Hw) in Hnew.
  destruct Hnew as (db' & Hnew & Hok & Hid & Hv & Hx). exists db'.
  split_and!; [by apply (open_store_torn fs g n _ Hlin (wo_chain _ _ Hw))|done..|].
  apply world_ok_observes, Hok.
Qed.

Lemma commit_frame_wf (w : World D P) fs ops n :
  world_ok w fs → linear fs → allocate (w_next_entity w) ops = Ok n →
  Forall operation_wf ops →
  frame_wf (CommitFrame_mk (w_id w)
    (calculate_world_id (w_id w) (u64_add (w_version w) 1) n ops) (w_version w)
    (u64_add (w_version w) 1) n ops).
Proof.
  intros Hw Hlin Ha Hops.
  destruct (check_chain_wf _ _ _ _ Hlin (wo_chain _ _ Hw)) as (Hid & Hv & Hn & _).
  split_and!; simpl; [done|apply calculate_world_id_ok|done| | |done].
  - apply u64_wrap_ok.
  - by eapply allocate_ok.
Qed.

Lemma commit_frame_small (w : World D P) fs ops n :
  world_ok w fs → linear fs → allocate (w_next_entity w) ops = Ok n →
  Forall operation_wf ops → (N.of_nat (length ops) <= MAX_OPERATIONS_PER_FRAME)%N →
  frame_small (CommitFrame_mk (w_id w)
    (calculate_world_id (w_id w) (u64_add (w_version w) 1) n ops) (w_version w)
    (u64_add (w_version w) 1) n ops).
Proof. intros Hw Hlin Ha Hops Hlen. split; [by eapply commit_frame_wf|done]. Qed.

(** A commit appends the frame of its operations, or leaves database and file
    as they were. *)
Lemma commit_appends (db : Database D P FileStoreEnv) fs t :
  durable db fs → tx_base t = db_current db → Forall operation_wf (tx_operations t) →
  match commit (E := FileCommitStoreError) db t with
  | (Ok w, db') => db_current db' = w ∧ ∃ f io, frame_operations f = tx_operations t ∧ frame_wf f ∧
      file_append io (env_store (db_store db)) f = (Ok tt, env_store (db_store db')) ∧
      db_ok db' (fs ++ [f]) ∧ Forall rolls_back (env_io (db_store db'))
  | (_, db') => db_current db' = db_current db ∧ durable db' fs
  end.
Proof.
  intros [Hdb Hfile Hio] Hb Hops. pose proof (commit_current db fs t Hdb Hb) as Hc.
  destruct (allocate _ _) as [n|e|] eqn:Ha; [|rewrite Hc; done|done].
  destruct Hc as (c & _ & _ & Hc).
  destruct (run_validators _ c) as [u|m|]; [|rewrite Hc; done..].
  pose proof (dbo_store _ _ Hdb) as Hfs. simpl in Hfs.
  assert (linear fs) as Hlin by (rewrite <- Hfs; apply Hfile).
  pose proof (commit_frame_wf _ _ _ _ (dbo_world _ _ Hdb) Hlin Ha Hops) as Hwf.
  revert Hc. simpl. destruct (db_store db) as [s io] eqn:Hs. simpl in *.
  set (f := CommitFrame_mk _ _ _ _ _ _) in *.
  assert (Forall rolls_back (tail io)) as Hio' by (destruct Hio; [constructor|done]).
  destruct (file_append (default IoOk (head io)) s f) as [[[]|e|] s'] eqn:Happ; [| |done].
  - intros (w' & db' & -> & Hcur & _ & Hst & _ & _ & _ & Hok). split; [done|].
    exists f, (default IoOk (head io)). rewrite Hst. by split_and!.
  - intros (db' & -> & Hcur & _ & Hst & Hok). split; [done|].
    split; [done|rewrite Hst..]; simpl; [|done].
    rewrite (file_append_Err _ _ _ _ _ Happ); [done|]. by destruct Hio.
Qed.

(** A record with more operations than the reader allows. *)
Lemma open_store_oversized fs f :
  linear fs → frame_wf f → (N.of_nat (length (encode_payload f)) <= MAX_FRAME_BYTES)%N →
  (MAX_OPERATIONS_PER_FRAME < N.of_nat (length (frame_operations f)))%N →
  open_store (D := D) (P := P) (file_of fs ++ record_bytes f) =
    (Err (CorruptFrame (N.of_nat (length (file_of fs)))
       (InvalidPayload (OperationCountExceedsLimit (N.of_nat (length (frame_operations f)))))),
     file_of fs ++ record_bytes f).
Proof.
  intros Hlin Hwf Hlen Hops. unfold open_store. rewrite file_of_not_empty.
  pose proof (operations_fit_payload f) as Hfit.
  rewrite (decode_file_refused fs (record_bytes f)
    (CorruptFrame (N.of_nat (length (file_of fs))) (InvalidPayload
      (OperationCountExceedsLimit (N.of_nat (length (frame_operations f))))))); [done|done|..].
  - intros Hn%(f_equal length). rewrite record_length in Hn. simpl in Hn. lia.
  - rewrite <- (app_nil_r (record_bytes f)), decode_record_payload by done.
    rewrite (decode_too_many_operations f Hwf Hops); [done|apply max_frame_u64; lia|
      by apply max_frame_u64].
Qed.
End durable.

(** The file keeps the history [fs]: database and file agree on it, and a
    process killed at any byte of a later append and restarted finds the world
    of [fs] again. *)
Definition survives {D P} `{KernelLaws D, MappedRootLaws P} (db : Database D P FileStoreEnv) fs : Prop :=
  durable db fs ∧
  ∀ g n io, (N.of_nat (length (encode_payload g)) <= MAX_FRAME_BYTES)%N →
    n < length (record_bytes g) →
    let file := file_bytes (env_store (db_store db)) in
    ∃ store (db' : Database D P FileStoreEnv),
      open_store (D := D) (P := P) (file ++ take n (record_bytes g)) = (Ok store, file) ∧
      database_new (FileStoreEnv_mk store io) = Ok db' ∧
      w_id (db_current db') = w_id (db_current db) ∧
      w_version (db_current db') = w_version (db_current db) ∧
      world_observes (db_current db') fs.

Lemma durable_survives {D P} `{KernelLaws D, MappedRootLaws P} (db : Database D P FileStoreEnv) fs :
  durable db fs → survives db fs.
Proof.
  intros Hd. split; [done|]. intros g n io Hg Hn.
  destruct (durable_reopens db fs g n io Hd Hg Hn) as (s & db' & H4 & H5 & _ & H6 & H7 & _ & H8).
  by exists s, db'.
Qed.

(** Opening when the file system fails: the answer and the file are those of
    [open_store], or an I/O error with the file as it was, as [open_store] leaves
    it, or, for a new file, with a part of its header. *)
Lemma open_file_store_cases {D P : Type} `{KernelLaws D, MappedRootLaws P} io bytes :
  open_file_store (D := D) (P := P) io bytes = open_store (D := D) (P := P) bytes ∨
  ∃ left, open_file_store (D := D) (P := P) io bytes = (Err Io, left) ∧
    (left = bytes ∨ left = snd (open_store (D := D) (P := P) bytes) ∨
     bytes = [] ∧ ∃ k, k < FILE_HEADER_LEN ∧ left = take k file_header).
Proof.
  rewrite <- open_file_store_ok. unfold open_file_store.
  destruct (decide (io = OpenFails ∨ io = MetadataFails)) as [|Hio]; [eauto|].
  rewrite decide_False by (by intros [|]). unfold initialise_file.
  destruct (length bytes =? 0) eqn:E.
  - apply Nat.eqb_eq, nil_length_inv in E as ->.
    assert (decode_file file_header = Ok ([], 16)) as Hdec by (by vm_compute).
    destruct io; cbn [initialise_file length Nat.eqb]; rewrite ?Hdec; try (by left); right;
      eexists; (split; [reflexivity|]); auto.
    right; right. split; [done|]. exists (written `min` 15). split; [unfold FILE_HEADER_LEN; lia|done].
  - destruct (decide (io = SeekStartFails ∨ io = ReadFails)) as [|Hio']; [eauto|].
    rewrite (decide_False (P := OpenIoOk = _ ∨ _)) by (by intros [|]).
    destruct (decode_file bytes) as [[frames last]|e|]; [|by left..]. unfold truncate_tail.
    destruct (_ - _ =? 0); destruct io; cbn [outcome_bind fst snd];
      destruct (map_err History _); cbn [outcome_bind fst snd decide]; eauto 8.
Qed.

(** C14: Opening reads back exactly what was written.  Whatever bytes a file
    holds, opening it never panics; when it succeeds the file it leaves is the
    canonical encoding of a linear, valid history, which is the prefix of the
    old content up to the recovered tail, and opening that file again yields the
    same frames with nothing to recover; when it fails the file keeps its
    complete frames (it is only ever cut back to them). *)
Theorem open_is_exact {D P : Type} `{KernelLaws D, MappedRootLaws P} (bytes : list u8) :
  let content := if decide (bytes = []) then file_header else bytes in
  match open_store (D := D) (P := P) bytes with
  | (Ok s, kept) => file_ok s ∧ file_bytes s = kept ∧
      content = kept ++ drop (length kept) content ∧
      recovered_tail_bytes s = N.of_nat (length content - length kept) ∧
      (∃ st, check_chain (file_frames s) = Ok st) ∧
      open_store (D := D) (P := P) kept = (Ok (opened (file_frames s) 0), kept)
  | (Err _, kept) => kept = content ∨ ∃ fs, linear fs ∧ kept = file_of fs ∧
      content = kept ++ drop (length kept) content
  | (Panic, _) => False
  end.
Proof.
  cbv zeta. set (content := if decide (bytes = []) then file_header else bytes).
  assert ((if length bytes =? 0 then file_header else bytes) = content) as Hc by (by destruct bytes).
  unfold open_store at 1. rewrite Hc. clearbody content. clear Hc.
  pose proof (decode_file_inv content) as Hinv.
  destruct (decode_file content) as [[fs n]|e|]; [|by left|done].
  destruct Hinv as (Hlin & Hn & Htake). pose proof (take_length_le_prefix _ _ _ Htake Hn) as Hl.
  assert ((if (N.of_nat (length content - n) =? 0)%N then content else take n content) = file_of fs) as ->.
  { destruct (N.eqb_spec (N.of_nat (length content - n)) 0); [|done].
    rewrite <- Htake, take_ge; [done|lia]. }
  assert (content = file_of fs ++ drop (length (file_of fs)) content) as Hcontent
    by (rewrite Hl, <- Htake; symmetry; apply take_drop).
  pose proof (reconstruct_ok (D := D) (P := P) fs) as Hr.
  destruct (check_chain fs) as [[[id v] x]|e|] eqn:Hchain; [| |done].
  - destruct Hr as (w & -> & _). cbn [map_err outcome_bind file_bytes file_frames recovered_tail_bytes].
    split_and!; [by apply opened_ok|done|done|by rewrite Hl|by eexists|].
    by apply (open_store_clean fs _ Hlin Hchain).
  - rewrite Hr. right. by exists fs.
Qed.

Lemma open_is_exact_witness :
  let bytes : list u8 := file_of [] ++ FRAME_MAGIC in
  let content := if decide (bytes = []) then file_header else bytes in
  match open_store (D := LegacyDb.ForthDb) (P := Empty_set) bytes with
  | (Ok s, kept) => file_ok s ∧ file_bytes s = kept ∧
      content = kept ++ drop (length kept) content ∧
      recovered_tail_bytes s = N.of_nat (length content - length kept) ∧
      (∃ st, check_chain (file_frames s) = Ok st) ∧
      open_store (D := LegacyDb.ForthDb) (P := Empty_set) kept = (Ok (opened (file_frames s) 0), kept)
  | (Err _, kept) => kept = content ∨ ∃ fs, linear fs ∧ kept = file_of fs ∧
      content = kept ++ drop (length kept) content
  | (Panic, _) => False
  end.
Proof. apply (open_is_exact (D := LegacyDb.ForthDb) (P := Empty_set) (file_of [] ++ FRAME_MAGIC)). Defined.

(** Recovery of a torn tail.  A file that ends in the middle of a record, at
    any byte, opens to the frames before it, and the file is cut back to them;
    with nothing torn ([n = 0]) the file opens unchanged.  Only a file torn
    inside its own header is refused. *)
Theorem torn_tail_recovery {D P : Type} `{KernelLaws D, MappedRootLaws P} fs st f n k :
  linear fs → check_chain fs = Ok st →
  (N.of_nat (length (encode_payload f)) <= MAX_FRAME_BYTES)%N → n < length (record_bytes f) →
  0 < k < FILE_HEADER_LEN →
  open_store (D := D) (P := P) (file_of fs ++ take n (record_bytes f)) =
    (Ok (opened fs (N.of_nat n)), file_of fs) ∧
  open_store (D := D) (P := P) (take k file_header) =
    (Err (InvalidHeader HeaderIncomplete), take k file_header).
Proof.
  intros Hlin Hc Hmax Hn Hk. split; [by apply (open_store_torn fs f n st)|].
  unfold open_store, decode_file.
  assert (length (take k file_header) = k) as ->
    by (rewrite length_take, length_file_header; lia).
  assert ((k =? 0) = false) as -> by (apply Nat.eqb_neq; lia).
  rewrite length_take, length_file_header, Nat.min_l by lia.
  by assert ((k <? FILE_HEADER_LEN) = true) as -> by (apply Nat.ltb_lt; lia).
Qed.

Lemma torn_tail_recovery_witness :
  open_store (D := LegacyDb.ForthDb) (P := Empty_set) (file_of [] ++ take 30 (record_bytes tampered_frame)) =
    (Ok (opened [] 30), file_of []) ∧
  open_store (D := LegacyDb.ForthDb) (P := Empty_set) (take 8 file_header) =
    (Err (InvalidHeader HeaderIncomplete), take 8 file_header).
Proof.
  apply (torn_tail_recovery [] genesis_state tampered_frame 30 8).
  - constructor.
  - reflexivity.
  - vm_compute. discriminate.
  - apply Nat.ltb_lt. vm_compute. reflexivity.
  - unfold FILE_HEADER_LEN. lia.
Defined.

(** C7: Durability, and the one commit that is not durable.  A database over a
    file whose rollbacks succeed.  A commit that does not return [Ok] leaves the
    published world and keeps the history on the file as it was; one that
    returns [Ok] appends exactly the record of its operations.  With at most
    MAX_OPERATIONS_PER_FRAME operations the file then keeps the longer history:
    a process killed at any byte of a later append and restarted finds that
    world.  With more operations (the writer does not count them, the reader
    does) the acknowledged commit leaves a file that can no longer be opened. *)
Theorem durable_commit {D P : Type} `{KernelLaws D, MappedRootLaws P}
    (db : Database D P FileStoreEnv) fs t :
  durable db fs → tx_base t = db_current db → Forall operation_wf (tx_operations t) →
  let '(r, db') := commit (E := FileCommitStoreError) db t in
  let count := N.of_nat (length (tx_operations t)) in
  let file := file_bytes (env_store (db_store db)) in
  let file' := file_bytes (env_store (db_store db')) in
  match r with
  | Ok w => db_current db' = w ∧
      ∃ f, frame_operations f = tx_operations t ∧ file' = file ++ record_bytes f ∧
        if (count <=? MAX_OPERATIONS_PER_FRAME)%N then survives db' (fs ++ [f])
        else open_store (D := D) (P := P) file' =
          (Err (CorruptFrame (N.of_nat (length file))
             (InvalidPayload (OperationCountExceedsLimit count))), file')
  | _ => db_current db' = db_current db ∧ survives db' fs
  end.
Proof.
  intros Hd Hb Hops. pose proof (commit_appends db fs t Hd Hb Hops) as Hc.
  destruct (commit db t) as [[w|e|] db']; cbv zeta;
    [|by destruct Hc; split; [|apply durable_survives]..].
  destruct Hc as (Hcur & f & io & Hf & Hwf & Ha & Hok & Hio). split; [done|]. exists f.
  pose proof (file_append_writes _ _ _ _ Ha) as (_ & Hlen & Hs').
  destruct Hd as [Hdb [Hfb Hlin] _]. pose proof (dbo_store _ _ Hdb) as Hst. simpl in Hst.
  rewrite Hst in Hfb, Hlin.
  split_and!; [done|by rewrite Hs'|]. rewrite <- Hf. destruct (_ <=? _)%N eqn:E.
  - apply N.leb_le in E. apply durable_survives. split; [done| |done].
    destruct (file_append_Ok _ _ _ _ Ha ltac:(split; rewrite ?Hst; done) ltac:(by split)) as [-> Hl].
    by apply opened_ok.
  - apply N.leb_gt in E. rewrite Hs'. cbn [file_bytes]. rewrite Hfb.
    by apply open_store_oversized.
Qed.

(** The database on a new file. *)
Definition fresh_file (io : list append_io) : Database LegacyDb.ForthDb Empty_set FileStoreEnv :=
  Database_mk (set_eager_kernel genesis kernel_new) (FileStoreEnv_mk (opened [] 0) io) [].

Lemma fresh_file_durable io : Forall rolls_back io → durable (fresh_file io) [].
Proof.
  intros Hio. split; [|apply opened_ok; constructor|exact Hio].
  pose proof (database_new_ok (D := LegacyDb.ForthDb) (P := Empty_set)
    (FileStoreEnv_mk (opened [] 0) io)) as (db & Hnew & Hok & _).
  assert (database_new (E := FileCommitStoreError) (FileStoreEnv_mk (opened [] 0) io) =
    Ok (fresh_file io)) as Heq by reflexivity.
  pose proof (eq_trans (eq_sym Hnew) Heq) as Heq'. by injection Heq' as ->.
Qed.

Definition sample_file_db : Database LegacyDb.ForthDb Empty_set FileStoreEnv :=
  fresh_file [IoWriteFails 7 true; IoOk].
Definition sample_file_tx : Transaction LegacyDb.ForthDb Empty_set :=
  sample_transaction (db_current sample_file_db).

Lemma durable_commit_witness :
  let '(r, db') := commit (E := FileCommitStoreError) sample_file_db sample_file_tx in
  let count := N.of_nat (length (tx_operations sample_file_tx)) in
  let file := file_bytes (env_store (db_store sample_file_db)) in
  let file' := file_bytes (env_store (db_store db')) in
  match r with
  | Ok w => db_current db' = w ∧
      ∃ f, frame_operations f = tx_operations sample_file_tx ∧ file' = file ++ record_bytes f ∧
        if (count <=? MAX_OPERATIONS_PER_FRAME)%N then survives db' ([] ++ [f])
        else open_store (D := LegacyDb.ForthDb) (P := Empty_set) file' =
          (Err (CorruptFrame (N.of_nat (length file))
             (InvalidPayload (OperationCountExceedsLimit count))), file')
  | _ => db_current db' = db_current sample_file_db ∧ survives db' []
  end.
Proof.
  apply (durable_commit sample_file_db [] sample_file_tx).
  - apply fresh_file_durable. repeat constructor.
  - reflexivity.
  - repeat constructor.
Defined.

(** ** Where durability ends *)

Lemma record_bytes_head f : ∃ rest, record_bytes f = FRAME_MAGIC ++ rest ∧ length rest = 20 + length (encode_payload f).
Proof.
  eexists. split; [reflexivity|]. rewrite !length_app, !length_u64_bytes. simpl. lia.
Qed.

Lemma slice_4 pre a b c d rest :
  slice (pre ++ a :: b :: c :: d :: rest) (length pre) 4 = Some [a; b; c; d].
Proof. by apply (slice_app pre [a; b; c; d] rest). Qed.

(** A stray byte in front of a record makes the record unreadable. *)
Lemma decode_record_shifted pre f fs :
  decode_record (pre ++ x46 :: record_bytes f) fs (length pre) = corrupt (length pre) FrameMagicMismatch.
Proof.
  unfold decode_record. rewrite length_app. cbn [length]. rewrite record_length.
  assert ((length pre + S (24 + length (encode_payload f)) - length pre <? FRAME_PREFIX_LEN) = false)
    as -> by (apply Nat.ltb_ge; unfold FRAME_PREFIX_LEN; lia).
  destruct (record_bytes_head f) as (rest & -> & _).
  change (x46 :: FRAME_MAGIC ++ rest) with (x46 :: x46 :: x52 :: x4d :: (drop 3 FRAME_MAGIC ++ rest)).
  rewrite slice_4. cbn [or_panic outcome_bind]. by rewrite decide_True by done.
Qed.

(** An append whose rollback fails.  The error of the truncation is ignored
    and the store keeps accepting appends, so that (a) when the sync failed the
    commit reported as failed is there after a restart, and (b) when the write
    failed after its first byte, the next append is acknowledged as durable, and
    the file can no longer be opened. *)
Theorem failed_rollback {D P : Type} `{KernelLaws D, MappedRootLaws P} (s : FileCommitStore) f st :
  file_ok s → storable f → continues (file_frames s) f →
  check_chain (file_frames s ++ [f]) = Ok st →
  (∃ s', file_append (IoSyncFails false) s f = (Err Io, s') ∧ file_frames s' = file_frames s ∧
    open_store (D := D) (P := P) (file_bytes s') =
      (Ok (opened (file_frames s ++ [f]) 0), file_bytes s')) ∧
  (∃ s' s'', file_append (IoWriteFails 1 false) s f = (Err Io, s') ∧
    file_append IoOk s' f = (Ok tt, s'') ∧ file_frames s'' = file_frames s ++ [f] ∧
    open_store (D := D) (P := P) (file_bytes s'') =
      (Err (CorruptFrame (N.of_nat (length (file_bytes s))) FrameMagicMismatch), file_bytes s'')).
Proof.
  intros [Hb Hlin] Hst Hc Hchain.
  assert (encode_record f = Ok (record_bytes f)) as He.
  { unfold encode_record. destruct Hst as (_ & _ & Hlen%N.ltb_ge). by rewrite Hlen. }
  assert (∀ bytes, validate_append (FileCommitStore_mk bytes (file_frames s) (recovered_tail_bytes s)) f =
    Ok tt) as Hv' by (intros bytes; by apply validate_append_ok).
  pose proof (proj2 (validate_append_ok s f) Hc) as Hv. split.
  - eexists. split; [unfold file_append; rewrite Hv, He; reflexivity|]. split; [done|].
    cbn [rollback_failed_append file_bytes]. rewrite Hb, <- file_of_snoc.
    by apply (open_store_clean _ st); [by constructor|].
  - do 2 eexists. split; [unfold file_append; rewrite Hv, He; reflexivity|].
    split; [unfold file_append; cbn [rollback_failed_append]; rewrite Hv', He; reflexivity|].
    split; [done|]. cbn [file_bytes rollback_failed_append]. rewrite Hb, <- (assoc_L (++)).
    assert (take 1 (record_bytes f) = [x46]) as -> by done. cbn [app].
    unfold open_store. rewrite file_of_not_empty.
    rewrite (decode_file_refused (file_frames s) (x46 :: record_bytes f) _ Hlin ltac:(discriminate)
      (decode_record_shifted _ f _)). reflexivity.
Qed.

(** The frame of the sample transaction. *)
Definition sample_frame : CommitFrame :=
  CommitFrame_mk GENESIS (calculate_world_id GENESIS 1 2 (tx_operations sample_tx)) 0 1 2
    (tx_operations sample_tx).

Lemma sample_storable : storable sample_frame ∧ continues [] sample_frame.
Proof.
  split; [|by repeat split]. split_and!.
  - split_and!; [reflexivity|apply calculate_world_id_ok|reflexivity..|]. repeat constructor.
  - vm_compute. discriminate.
  - vm_compute. discriminate.
Qed.

Lemma sample_chain :
  check_chain [sample_frame] = Ok (resulting_world sample_frame, 1%N, 2%N).
Proof. reflexivity. Qed.

Lemma failed_rollback_witness :
  (∃ s', file_append (IoSyncFails false) (opened [] 0) sample_frame = (Err Io, s') ∧ file_frames s' = [] ∧
    open_store (D := LegacyDb.ForthDb) (P := Empty_set) (file_bytes s') =
      (Ok (opened ([] ++ [sample_frame]) 0), file_bytes s')) ∧
  (∃ s' s'', file_append (IoWriteFails 1 false) (opened [] 0) sample_frame = (Err Io, s') ∧
    file_append IoOk s' sample_frame = (Ok tt, s'') ∧ file_frames s'' = [] ++ [sample_frame] ∧
    open_store (D := LegacyDb.ForthDb) (P := Empty_set) (file_bytes s'') =
      (Err (CorruptFrame (N.of_nat (length (file_bytes (opened [] 0)))) FrameMagicMismatch),
       file_bytes s'')).
Proof.
  destruct sample_storable as [Hs Hc].
  apply (failed_rollback (D := LegacyDb.ForthDb) (P := Empty_set) (opened [] 0) sample_frame
    (resulting_world sample_frame, 1%N, 2%N)); [apply opened_ok; constructor|exact Hs|exact Hc|
    exact sample_chain].
Defined.

(** A transaction of more than a million operations.  If its record is
    under the size limit the append succeeds, the commit is durable, and the file
    can never be opened again: the writer does not enforce the limit that the
    reader does. *)
Theorem oversized_commit {D P : Type} `{KernelLaws D, MappedRootLaws P} (s : FileCommitStore) f :
  file_ok s → frame_wf f → continues (file_frames s) f →
  (N.of_nat (length (encode_payload f)) <= MAX_FRAME_BYTES)%N →
  (MAX_OPERATIONS_PER_FRAME < N.of_nat (length (frame_operations f)))%N →
  ∃ s', file_append IoOk s f = (Ok tt, s') ∧ file_frames s' = file_frames s ++ [f] ∧
    open_store (D := D) (P := P) (file_bytes s') =
      (Err (CorruptFrame (N.of_nat (length (file_bytes s)))
         (InvalidPayload (OperationCountExceedsLimit (N.of_nat (length (frame_operations f)))))),
       file_bytes s').
Proof.
  intros [Hb Hlin] Hwf Hc Hlen Hops.
  pose proof (proj2 (validate_append_ok s f) Hc) as Hv.
  assert (encode_record f = Ok (record_bytes f)) as He.
  { unfold encode_record. pose proof Hlen as Hlen'%N.ltb_ge. by rewrite Hlen'. }
  eexists. split; [unfold file_append; rewrite Hv, He; reflexivity|]. split; [done|].
  cbn [file_bytes]. rewrite Hb. by apply open_store_oversized.
Qed.

(** A transaction of [k] forgets. *)
Definition many_forgets (k : nat) : CommitFrame :=
  CommitFrame_mk GENESIS GENESIS 0 1 1 (replicate k (OpForget (SlotId_new ""))).

Lemma many_forgets_length k : length (encode_payload (many_forgets k)) = 48 + 9 * k.
Proof.
  unfold encode_payload, many_forgets. cbn [frame_operations].
  assert (length (op ← replicate k (OpForget (SlotId_new "")); put_operation op) = 9 * k) as Hl.
  { induction k as [|k IH]; [done|]. cbn [replicate]. rewrite bind_cons, length_app, IH.
    change (length _) with 9. lia. }
  rewrite !length_app, Hl. unfold put_u64. rewrite !length_u64_bytes. lia.
Qed.

Lemma oversized_commit_witness :
  let f := many_forgets (N.to_nat 1000001) in
  ∃ s', file_append IoOk (opened [] 0) f = (Ok tt, s') ∧ file_frames s' = [] ++ [f] ∧
    open_store (D := LegacyDb.ForthDb) (P := Empty_set) (file_bytes s') =
      (Err (CorruptFrame (N.of_nat (length (file_bytes (opened [] 0))))
         (InvalidPayload (OperationCountExceedsLimit (N.of_nat (length (frame_operations f)))))),
       file_bytes s').
Proof.
  assert (N.of_nat (N.to_nat 1000001) = 1000001%N) as Hk by apply N2Nat.id.
  revert Hk. generalize (N.to_nat 1000001). intros k Hk.
  assert (N.of_nat (length (frame_operations (many_forgets k))) = 1000001%N) as Hn.
  { cbn [many_forgets frame_operations]. by rewrite length_replicate. }
  apply (oversized_commit (D := LegacyDb.ForthDb) (P := Empty_set) (opened [] 0) (many_forgets k)).
  - apply opened_ok. constructor.
  - split_and!; [reflexivity..|]. apply Forall_replicate. by split.
  - split_and!; reflexivity.
  - rewrite many_forgets_length. unfold MAX_FRAME_BYTES. lia.
  - rewrite Hn. reflexivity.
Defined.
