(* ===== verification/MmapFormat.v ===== *)
(** The file format as the memory-mapped store reads it
    (forthdb-world/src/mmap_format.rs): the decoder of mmap_format.rs is a copy
    of the one of file_store.rs which also records where each record and its
    payload lie ([FrameSpan]), and [decode_complete_span] finds the span of a
    record that has just been appended.  The lemmas relate it to the decoder of
    FileStore.v. *)
From Stdlib Require Import NArith Lia.
From Stdlib Require Import Strings.Byte.
From stdpp Require Import base gmap list strings option list_monad.
From S2P Require Import Prelude Ord Terms Bytes Query QueryFacts Spec Index Kernel Frames.
From S2P Require Import VmProjection Worlds WorldFacts Codec FileStore.

(** ** The payload decoder of mmap_format.rs *)

Definition cursor_take (len : N) : dec (list u8) := λ d,
  match u64_checked_add (N.of_nat (d_position d)) len with
  | None => Err PayloadCursorOverflow
  | Some e =>
      if (N.of_nat (length (d_bytes d)) <? e)%N
      then Err (UnexpectedEnd (d_position d) len)
      else Ok (list.take (N.to_nat len) (drop (d_position d) (d_bytes d)),
               Decoder_mk (d_bytes d) (N.to_nat e))
  end.

Definition cursor_byte : dec u8 := λ d,
  let* r := cursor_take 1 d in
  let* b := or_panic (r.1 !! 0) in
  Ok (b, r.2).

Definition cursor_u64 : dec N := λ d,
  let* r := cursor_take 8 d in Ok (le_N r.1, r.2).

Definition cursor_string : dec String.string := λ d,
  let* length := cursor_u64 d in
  let* bytes := cursor_take length.1 length.2 in
  let* value := ok_or (from_utf8 bytes.1) InvalidUtf8 in
  Ok (value, bytes.2).

Definition cursor_atom : dec Atom := λ d,
  let* tag := cursor_byte d in
  match Byte.to_N tag.1 with
  | 0%N => let* e := cursor_u64 tag.2 in Ok (AEntity (EntityId_new e.1), e.2)
  | 1%N => let* s := cursor_string tag.2 in Ok (ALiteral (Literal_new s.1), s.2)
  | _ => Err (UnknownAtomTag tag.1)
  end.

Definition cursor_finish (d : Decoder) : outcome DecodeError unit :=
  if decide (d_position d = length (d_bytes d)) then Ok tt
  else Err (TrailingBytes (length (d_bytes d) - d_position d)).

(** The body of [for _ in 0..operation_count]. *)
Definition cursor_operation : dec Operation := λ d,
  let* tag := cursor_byte d in
  match Byte.to_N tag.1 with
  | 0%N => let* e := cursor_u64 tag.2 in Ok (AllocateEntity (EntityId_new e.1), e.2)
  | 1%N =>
      let* slot := cursor_string tag.2 in
      let* subject := cursor_atom slot.2 in
      let* predicate := cursor_string subject.2 in
      let* object := cursor_atom predicate.2 in
      Ok (OpDefine (SlotId_new slot.1)
            (Fact_new subject.1 (Predicate_new predicate.1) object.1), object.2)
  | 2%N => let* slot := cursor_string tag.2 in Ok (OpForget (SlotId_new slot.1), slot.2)
  | _ => Err (UnknownOperationTag tag.1)
  end.

Fixpoint cursor_operations (n : nat) (d : Decoder) : outcome DecodeError (list Operation * Decoder) :=
  match n with
  | 0 => Ok ([], d)
  | S n =>
      let* op := cursor_operation d in
      let* rest := cursor_operations n op.2 in
      Ok (op.1 :: rest.1, rest.2)
  end.

Definition cursor_decode_payload (payload : list u8) : outcome DecodeError CommitFrame :=
  let decoder := Decoder_new payload in
  let* parent_world := cursor_u64 decoder in
  let* resulting_world := cursor_u64 parent_world.2 in
  let* parent_version := cursor_u64 resulting_world.2 in
  let* resulting_version := cursor_u64 parent_version.2 in
  let* resulting_allocator := cursor_u64 resulting_version.2 in
  let* operation_count := cursor_u64 resulting_allocator.2 in
  if (MAX_OPERATIONS_PER_FRAME <? operation_count.1)%N
  then Err (OperationCountExceedsLimit operation_count.1)
  else
    let* ops := cursor_operations (N.to_nat operation_count.1) operation_count.2 in
    let* _ := cursor_finish ops.2 in
    Ok (CommitFrame_mk (WorldId_new parent_world.1) (WorldId_new resulting_world.1)
          parent_version.1 resulting_version.1 resulting_allocator.1 ops.1).

(** ** Spans *)

Record FrameSpan := FrameSpan_mk {
  record_start : nat;
  payload_start : nat;
  payload_end : nat;
  record_end : nat;
}.

#[export] Instance FrameSpan_eq_dec : EqDecision FrameSpan.
Proof. solve_decision. Defined.

(** [&bytes[start..end]]. *)
Definition range (bytes : list u8) (start end_ : nat) : option (list u8) :=
  if start <=? end_ then slice bytes start (end_ - start) else None.

Definition validate_decoded_position (frames : list CommitFrame) (f : CommitFrame) (offset : nat) :
    outcome FileCommitStoreError unit :=
  let '(expected_parent, expected_parent_version) := expected_position frames in
  if decide (parent_world f ≠ expected_parent)
  then corrupt offset (UnexpectedParent expected_parent (parent_world f))
  else if decide (parent_version f ≠ expected_parent_version)
  then corrupt offset (UnexpectedParentVersion expected_parent_version (parent_version f))
  else
    match u64_checked_add expected_parent_version 1 with
    | None => corrupt offset WorldVersionOverflow
    | Some expected =>
        if decide (resulting_version f ≠ expected)
        then corrupt offset (UnexpectedResultingVersion expected (resulting_version f))
        else Ok tt
    end.

(** One iteration of the loop of [decode_file]: [None] is its break; otherwise
    the frame, its span and the length of its record. *)
Definition decode_record (bytes : list u8) (frames : list CommitFrame) (offset : nat) :
    outcome FileCommitStoreError (option (CommitFrame * FrameSpan * nat)) :=
  let remaining := length bytes - offset in
  if remaining <? FRAME_PREFIX_LEN then Ok None
  else
    let* magic := or_panic (range bytes offset (offset + 4)) in
    if decide (magic ≠ FRAME_MAGIC) then corrupt offset FrameMagicMismatch
    else
      let* len := or_panic (range bytes (offset + 4) (offset + 12)) in
      let payload_len := le_N len in
      if (MAX_FRAME_BYTES <? payload_len)%N then corrupt offset (PayloadExceedsLimit payload_len)
      else
        let* total_len := ok_or
          (n ← u64_checked_add (N.of_nat FRAME_PREFIX_LEN) payload_len;
           u64_checked_add n (N.of_nat FRAME_TRAILER_LEN))
          (CorruptFrame (N.of_nat offset) RecordLengthOverflow) in
        if (N.of_nat remaining <? total_len)%N then Ok None
        else
          let* expected := or_panic (range bytes (offset + 12) (offset + 20)) in
          let expected_checksum := le_N expected in
          let payload_start := offset + FRAME_PREFIX_LEN in
          let payload_end := payload_start + N.to_nat payload_len in
          let trailer_end := payload_end + FRAME_TRAILER_LEN in
          let* trailer := or_panic (range bytes payload_end trailer_end) in
          if decide (trailer ≠ FRAME_TRAILER) then corrupt offset TrailerMismatch
          else
            let* payload := or_panic (range bytes payload_start payload_end) in
            let actual_checksum := checksum payload in
            if decide (actual_checksum ≠ expected_checksum)
            then corrupt offset (ChecksumMismatch expected_checksum actual_checksum)
            else
              let* frame := map_err (λ e, CorruptFrame (N.of_nat offset) (InvalidPayload e))
                (cursor_decode_payload payload) in
              let* _ := validate_decoded_position frames frame offset in
              Ok (Some (frame, FrameSpan_mk offset payload_start payload_end trailer_end,
                        N.to_nat total_len)).

Fixpoint decode_loop (fuel : nat) (bytes : list u8) (frames : list CommitFrame)
    (spans : list FrameSpan) (offset last_good_offset : nat) :
    outcome FileCommitStoreError (list CommitFrame * list FrameSpan * nat) :=
  if length bytes <=? offset then Ok (frames, spans, last_good_offset)
  else
    match fuel with
    | 0 => Panic
    | S fuel =>
        let* r := decode_record bytes frames offset in
        match r with
        | None => Ok (frames, spans, last_good_offset)
        | Some (frame, span, total_len) =>
            decode_loop fuel bytes (frames ++ [frame]) (spans ++ [span])
              (offset + total_len) (offset + total_len)
        end
    end.

Definition decode_file (bytes : list u8) :
    outcome FileCommitStoreError (list CommitFrame * list FrameSpan * nat) :=
  if length bytes <? FILE_HEADER_LEN then Err (InvalidHeader HeaderIncomplete)
  else
    let* magic := or_panic (range bytes 0 8) in
    if decide (magic ≠ FILE_MAGIC) then Err (InvalidHeader HeaderMagicMismatch)
    else
      let* version := or_panic (range bytes 8 12) in
      let version := le_N version in
      if decide (version ≠ FILE_VERSION) then Err (UnsupportedFormat version)
      else
        let* flags := or_panic (range bytes 12 16) in
        let flags := le_N flags in
        if decide (flags ≠ FILE_FLAGS) then Err (InvalidHeader (UnsupportedFlags flags))
        else decode_loop (length bytes) bytes [] [] FILE_HEADER_LEN FILE_HEADER_LEN.

Definition decode_complete_span (bytes : list u8) (offset : nat) :
    outcome FileCommitStoreError FrameSpan :=
  let remaining := length bytes - offset in
  if remaining <? FRAME_PREFIX_LEN then corrupt offset AppendedPrefixIncomplete
  else
    let* magic := or_panic (range bytes offset (offset + 4)) in
    if decide (magic ≠ FRAME_MAGIC) then corrupt offset FrameMagicMismatch
    else
      let* len := or_panic (range bytes (offset + 4) (offset + 12)) in
      let payload_len := le_N len in
      if (MAX_FRAME_BYTES <? payload_len)%N then corrupt offset AppendedExceedsLimit
      else
        let payload_start := offset + FRAME_PREFIX_LEN in
        let* payload_end := ok_or (u64_checked_add (N.of_nat payload_start) payload_len)
          (CorruptFrame (N.of_nat offset) RecordLengthOverflow) in
        let* record_end := ok_or (u64_checked_add payload_end (N.of_nat FRAME_TRAILER_LEN))
          (CorruptFrame (N.of_nat offset) RecordLengthOverflow) in
        if decide (record_end ≠ N.of_nat (length bytes))
        then corrupt offset (AppendedRecordEnd record_end (N.of_nat (length bytes)))
        else
          let payload_end := N.to_nat payload_end in
          let record_end := N.to_nat record_end in
          let* trailer := or_panic (range bytes payload_end record_end) in
          if decide (trailer ≠ FRAME_TRAILER) then corrupt offset TrailerMismatch
          else
            let* expected := or_panic (range bytes (offset + 12) (offset + 20)) in
            let expected_checksum := le_N expected in
            let* payload := or_panic (range bytes payload_start payload_end) in
            let actual_checksum := checksum payload in
            if decide (actual_checksum ≠ expected_checksum)
            then corrupt offset AppendedChecksumMismatch
            else Ok (FrameSpan_mk offset payload_start payload_end record_end).

(** ** Agreement with the decoder of the file store *)

Lemma cursor_decodes payload : cursor_decode_payload payload = decode_payload payload.
Proof. reflexivity. Qed.

Lemma mmap_validate_position fs f offset :
  validate_decoded_position fs f offset = FileStore.validate_decoded_position fs f offset.
Proof. reflexivity. Qed.

Lemma range_slice bytes a b n : a + n = b → range bytes a b = slice bytes a n.
Proof.
  intros <-. unfold range. rewrite (proj2 (Nat.leb_le a (a + n)) ltac:(lia)). f_equal. lia.
Qed.

(** The span of a frame whose record starts at [start]. *)
Definition span_at (start : nat) (f : CommitFrame) : FrameSpan :=
  let stop := start + FRAME_PREFIX_LEN + length (encode_payload f) in
  FrameSpan_mk start (start + FRAME_PREFIX_LEN) stop (stop + FRAME_TRAILER_LEN).

(** The spans of consecutive records. *)
Fixpoint spans_from (start : nat) (fs : list CommitFrame) : list FrameSpan :=
  match fs with
  | [] => []
  | f :: fs => span_at start f :: spans_from (start + length (record_bytes f)) fs
  end.

Definition spans_of : list CommitFrame → list FrameSpan := spans_from FILE_HEADER_LEN.

#[local] Opaque encode_payload checksum le_N u64_bytes.

Lemma decode_record_agrees bytes fs offset :
  offset ≤ length bytes →
  decode_record bytes fs offset =
  (let* r := FileStore.decode_record bytes fs offset in
   Ok ((λ '(f, n), (f, span_at offset f, n)) <$> r)).
Proof.
  intros Hoff. pose proof (decode_record_inv bytes fs offset Hoff) as Hinv. revert Hinv.
  unfold decode_record, FileStore.decode_record.
  destruct (_ <? FRAME_PREFIX_LEN); [done|].
  rewrite (range_slice bytes offset (offset + 4) 4), (range_slice bytes (offset + 4) (offset + 12) 8)
    by lia.
  destruct (slice bytes offset 4) as [magic|]; cbn [or_panic outcome_bind]; [|done].
  case_decide; [done|].
  destruct (slice bytes (offset + 4) 8) as [len|]; cbn [or_panic outcome_bind]; [|done].
  destruct (_ <? le_N len)%N eqn:E; [done|]. apply N.ltb_ge in E. rewrite total_len_ok by done.
  cbn [ok_or outcome_bind]. destruct (_ <? 24 + le_N len)%N; [done|].
  rewrite (range_slice bytes (offset + 12) (offset + 20) 8) by lia.
  destruct (slice bytes (offset + 12) 8) as [ex|]; cbn [or_panic outcome_bind]; [|done].
  rewrite (range_slice bytes (offset + FRAME_PREFIX_LEN + N.to_nat (le_N len)) _ FRAME_TRAILER_LEN) by lia.
  destruct (slice bytes (offset + _ + _) FRAME_TRAILER_LEN) as [tr|]; cbn [or_panic outcome_bind]; [|done].
  case_decide; [done|].
  rewrite (range_slice bytes (offset + FRAME_PREFIX_LEN) _ (N.to_nat (le_N len))) by lia.
  destruct (slice bytes (offset + FRAME_PREFIX_LEN) _) as [payload|]; cbn [or_panic outcome_bind]; [|done].
  case_decide; [done|]. change (cursor_decode_payload payload) with (decode_payload payload).
  destruct (decode_payload payload) as [f|e|]; cbn [map_err outcome_bind]; [|done..].
  change (validate_decoded_position fs f offset) with (FileStore.validate_decoded_position fs f offset).
  destruct (FileStore.validate_decoded_position fs f offset); cbn [outcome_bind]; [|done..].
  intros (Hn & _). rewrite record_length in Hn. cbn [fmap option_fmap option_map].
  unfold span_at. do 5 f_equal; unfold FRAME_TRAILER_LEN, FRAME_PREFIX_LEN; lia.
Qed.

Lemma spans_from_snoc start fs f :
  spans_from start (fs ++ [f]) =
  spans_from start fs ++ [span_at (start + length (g ← fs; record_bytes g)) f].
Proof.
  revert start. induction fs as [|g fs IH]; intros start; cbn [app spans_from].
  - by rewrite Nat.add_0_r.
  - by rewrite IH, bind_cons, length_app, Nat.add_assoc.
Qed.

Lemma spans_of_snoc fs f : spans_of (fs ++ [f]) = spans_of fs ++ [span_at (length (file_of fs)) f].
Proof. unfold spans_of, file_of. by rewrite spans_from_snoc, length_app, length_file_header. Qed.

Lemma length_spans_of fs : length (spans_of fs) = length fs.
Proof.
  induction fs as [|f fs IH] using rev_ind; [done|]. rewrite spans_of_snoc, !length_app, IH. done.
Qed.

Lemma decode_loop_agrees fuel bytes fs offset :
  linear fs → offset ≤ length bytes → list.take offset bytes = file_of fs →
  decode_loop fuel bytes fs (spans_of fs) offset offset =
  (let* r := FileStore.decode_loop fuel bytes fs offset in Ok (r.1, spans_of r.1, r.2)).
Proof.
  revert fs offset. induction fuel as [|fuel IH]; intros fs offset Hlin Hoff Htake;
    cbn [decode_loop FileStore.decode_loop]; destruct (_ <=? _); try done.
  rewrite decode_record_agrees by done. pose proof (decode_record_inv bytes fs offset Hoff) as Hrec.
  destruct (FileStore.decode_record bytes fs offset) as [[[f n]|]|e|]; try done.
  destruct Hrec as (-> & Hst & Hc & Hdrop).
  destruct (take_record bytes fs f offset Htake Hoff Hdrop) as [Hle Htake'].
  cbn [outcome_bind fmap option_fmap option_map].
  rewrite <- IH by (by first [constructor|idtac]). f_equal.
  rewrite spans_of_snoc, <- Htake, length_take. do 2 f_equal. f_equal. lia.
Qed.

(** The two decoders of the format read every file the same way, errors and
    offsets included; the spans are those of the frames read. *)
Lemma decode_file_agrees bytes :
  decode_file bytes =
  (let* r := FileStore.decode_file bytes in Ok (r.1, spans_of r.1, r.2)).
Proof.
  unfold decode_file, FileStore.decode_file. destruct (_ <? _) eqn:E; [done|].
  apply Nat.ltb_ge in E. unfold FILE_HEADER_LEN in E.
  rewrite (range_slice bytes 0 8 8), (range_slice bytes 8 12 4), (range_slice bytes 12 16 4) by lia.
  destruct (slice bytes 0 8) as [magic|] eqn:Hs1; cbn [or_panic outcome_bind]; [|done].
  rewrite !decide_neq. case_decide as Hmagic; [|done].
  destruct (slice bytes 8 4) as [version|] eqn:Hs2; cbn [or_panic outcome_bind]; [|done].
  rewrite !decide_neq. case_decide as Hversion; [|done].
  destruct (slice bytes 12 4) as [flags|] eqn:Hs3; cbn [or_panic outcome_bind]; [|done].
  rewrite !decide_neq. case_decide as Hflags; [|done].
  apply decode_loop_agrees; [constructor|done|]. by apply (take_header bytes magic version flags).
Qed.

(** ** What the spans delimit *)

Lemma spans_of_lookup fs i f :
  fs !! i = Some f →
  ∃ start rest, spans_of fs !! i = Some (span_at start f) ∧
    start = length (file_of (list.take i fs)) ∧
    file_of fs = file_of (list.take i fs) ++ record_bytes f ++ rest.
Proof.
  revert i. induction fs as [|g fs IH] using rev_ind; intros i Hi; [done|].
  rewrite spans_of_snoc. pose proof (length_spans_of fs) as Hl.
  destruct (decide (i < length fs)) as [Hlt|Hge].
  - rewrite lookup_app_l in Hi by done. destruct (IH _ Hi) as (start & rest & Hs & -> & Hf).
    rewrite take_app_le by lia. eexists _, (rest ++ record_bytes g).
    split_and!; [rewrite lookup_app_l by lia; exact Hs|done|].
    by rewrite file_of_snoc, Hf, <- !(assoc_L (++)).
  - rewrite lookup_app_r in Hi by lia. destruct (i - length fs) as [|k] eqn:Ek; [|done].
    assert (i = length fs) as -> by lia. injection Hi as <-. rewrite take_app_length.
    exists (length (file_of fs)), []. split_and!; [|done|by rewrite file_of_snoc, app_nil_r].
    rewrite lookup_app_r by lia. by rewrite Hl, Nat.sub_diag.
Qed.

Lemma range_at pre b rest bytes start stop :
  bytes = pre ++ b ++ rest → start = length pre → stop = length pre + length b →
  range bytes start stop = Some b.
Proof.
  intros -> -> ->. rewrite (range_slice _ _ _ (length b)) by lia. by apply slice_app.
Qed.

(** A span cuts its record, and the payload in it, out of the file. *)
Lemma span_record pre f rest :
  let s := span_at (length pre) f in
  let bytes := pre ++ record_bytes f ++ rest in
  range bytes (record_start s) (record_end s) = Some (record_bytes f) ∧
  range bytes (payload_start s) (payload_end s) = Some (encode_payload f).
Proof.
  cbv zeta. unfold span_at. cbn [record_start record_end payload_start payload_end]. split.
  - apply (range_at pre _ rest); [done|done|]. rewrite record_length.
    unfold FRAME_PREFIX_LEN, FRAME_TRAILER_LEN. lia.
  - apply (range_at (pre ++ FRAME_MAGIC ++ u64_bytes (N.of_nat (length (encode_payload f))) ++
      u64_bytes (checksum (encode_payload f))) _ (FRAME_TRAILER ++ rest)).
    + unfold record_bytes. by rewrite <- !(assoc_L (++)).
    + rewrite !length_app, !length_u64_bytes. done.
    + rewrite !length_app, !length_u64_bytes. done.
Qed.

(** The span of a record that is the last of the file. *)
Lemma decode_complete_span_at pre f :
  (N.of_nat (length (encode_payload f)) <= MAX_FRAME_BYTES)%N →
  u64_ok (N.of_nat (length (pre ++ record_bytes f))) →
  decode_complete_span (pre ++ record_bytes f) (length pre) = Ok (span_at (length pre) f).
Proof.
  intros Hlen Hu. unfold decode_complete_span. rewrite length_app, record_length in *.
  set (payload := encode_payload f) in *.
  rewrite (proj2 (Nat.ltb_ge _ _)) by (unfold FRAME_PREFIX_LEN; lia).
  assert (pre ++ record_bytes f = pre ++ FRAME_MAGIC ++ u64_bytes (N.of_nat (length payload)) ++
    u64_bytes (checksum payload) ++ payload ++ FRAME_TRAILER) as -> by done.
  rewrite (range_at pre FRAME_MAGIC (u64_bytes (N.of_nat (length payload)) ++
    u64_bytes (checksum payload) ++ payload ++ FRAME_TRAILER)) by done.
  cbn [or_panic outcome_bind]. rewrite decide_False by (intros Hne; by apply Hne).
  rewrite (range_at (pre ++ FRAME_MAGIC) (u64_bytes (N.of_nat (length payload)))
    (u64_bytes (checksum payload) ++ payload ++ FRAME_TRAILER));
    [|by rewrite <- !(assoc_L (++))|rewrite length_app; done
     |rewrite length_app, length_u64_bytes; simpl; lia].
  cbn [or_panic outcome_bind]. rewrite le_N_u64_bytes by (by apply max_frame_u64).
  pose proof Hlen as Hmax%N.ltb_ge. rewrite Hmax. unfold u64_checked_add, u64_ok in *.
  rewrite (proj2 (N.ltb_lt _ _)) by (unfold FRAME_PREFIX_LEN; lia). cbn [ok_or outcome_bind].
  rewrite (proj2 (N.ltb_lt _ _)) by (unfold FRAME_PREFIX_LEN, FRAME_TRAILER_LEN; lia).
  cbn [ok_or outcome_bind]. rewrite decide_False
    by (intros Hne; apply Hne; unfold FRAME_PREFIX_LEN, FRAME_TRAILER_LEN; lia).
  rewrite (range_at (pre ++ FRAME_MAGIC ++ u64_bytes (N.of_nat (length payload)) ++
    u64_bytes (checksum payload) ++ payload) FRAME_TRAILER []);
    [|by rewrite <- !(assoc_L (++)), app_nil_r
     |rewrite !length_app, !length_u64_bytes; unfold FRAME_PREFIX_LEN; simpl; lia
     |rewrite !length_app, !length_u64_bytes; unfold FRAME_PREFIX_LEN, FRAME_TRAILER_LEN; simpl; lia].
  cbn [or_panic outcome_bind]. rewrite decide_False by (intros Hne; by apply Hne).
  rewrite (range_at (pre ++ FRAME_MAGIC ++ u64_bytes (N.of_nat (length payload)))
    (u64_bytes (checksum payload)) (payload ++ FRAME_TRAILER));
    [|by rewrite <- !(assoc_L (++))|rewrite !length_app, !length_u64_bytes; simpl; lia
     |rewrite !length_app, !length_u64_bytes; simpl; lia].
  cbn [or_panic outcome_bind]. rewrite le_N_u64_bytes by apply checksum_ok.
  rewrite (range_at (pre ++ FRAME_MAGIC ++ u64_bytes (N.of_nat (length payload)) ++
    u64_bytes (checksum payload)) payload FRAME_TRAILER);
    [|by rewrite <- !(assoc_L (++))
     |rewrite !length_app, !length_u64_bytes; unfold FRAME_PREFIX_LEN; simpl; lia
     |rewrite !length_app, !length_u64_bytes; unfold FRAME_PREFIX_LEN; simpl; lia].
  cbn [or_panic outcome_bind]. rewrite decide_False by (intros Hne; by apply Hne).
  f_equal. unfold span_at. fold payload. f_equal; unfold FRAME_PREFIX_LEN, FRAME_TRAILER_LEN; lia.
Qed.

Lemma range_in_range bytes a b : a ≤ b → b ≤ length bytes → is_Some (range bytes a b).
Proof.
  intros H1 H2. rewrite (range_slice _ _ _ (b - a)) by lia. apply slice_in_range. lia.
Qed.

Lemma decode_complete_span_not_panic bytes offset : decode_complete_span bytes offset ≠ Panic.
Proof.
  unfold decode_complete_span, corrupt. destruct (_ <? FRAME_PREFIX_LEN) eqn:E; [done|].
  apply Nat.ltb_ge in E. unfold FRAME_PREFIX_LEN in *.
  destruct (range_in_range bytes offset (offset + 4)) as [? ->]; [lia..|]. cbn [or_panic outcome_bind].
  case_decide; [done|].
  destruct (range_in_range bytes (offset + 4) (offset + 12)) as [len ->]; [lia..|]. cbn [or_panic outcome_bind].
  destruct (_ <? le_N len)%N; [done|].
  destruct (u64_checked_add _ _) as [pe|] eqn:Hpe; cbn [ok_or outcome_bind]; [|done].
  destruct (u64_checked_add pe _) as [re|] eqn:Hre; cbn [ok_or outcome_bind]; [|done].
  unfold u64_checked_add in *. destruct (_ <? _)%N in Hpe; [|done]. injection Hpe as <-.
  destruct (_ <? _)%N in Hre; [|done]. injection Hre as <-. rewrite decide_neq.
  case_decide as Hend; [|done]. unfold FRAME_TRAILER_LEN in *.
  match goal with |- context [range bytes ?a ?b] => destruct (range_in_range bytes a b) as [? ->]; [lia..|] end.
  cbn [or_panic outcome_bind]. case_decide; [done|].
  destruct (range_in_range bytes (offset + 12) (offset + 20)) as [? ->]; [lia..|]. cbn [or_panic outcome_bind].
  match goal with |- context [range bytes ?a ?b] => destruct (range_in_range bytes a b) as [? ->]; [lia..|] end.
  cbn [or_panic outcome_bind]. by case_decide.
Qed.
