(* ===== verification/MmapStore.v ===== *)
(** The memory-mapped commit store (forthdb-world/src/mmap_store.rs): reads
    come from a mapping of the file and the spans of its records, writes go
    through a [FileCommitStore] that is opened on the same path at the first
    append.

    The state holds the content of the file, which the writer shares; a mapping
    is the content of the file when it was made.  The answers of the operating
    system to [metadata], to the opening of the writer, to the write and to the
    mapping come from the environment. *)
From Stdlib Require Import NArith Lia.
From stdpp Require Import base gmap list strings option list_monad.
From S2P Require Import Prelude Ord Terms Bytes Query QueryFacts Spec Index Kernel Frames.
From S2P Require Import VmProjection Worlds WorldFacts Codec FileStore MmapFormat.

(** The writer's own frames and its [recovered_tail_bytes]. *)
Record Writer := Writer_mk {
  writer_frames : list CommitFrame;
  writer_recovered : N;
}.

Record MmapCommitStore := MmapCommitStore_mk {
  mm_file : list u8;
  mm_mapping : option (list u8);
  mm_frames : list CommitFrame;
  mm_spans : list FrameSpan;
  mm_recovered_tail_bytes : N;
  mm_writer : option Writer;
  last_remap_error : option FileCommitStoreError;
}.

(** [map_file]. *)
Definition map_file (answer : bool) (bytes : list u8) : outcome FileCommitStoreError (list u8) :=
  if answer then Ok bytes else Err Io.

(** ** Accessors *)

(** [self.file.metadata()]. *)
Definition file_metadata (answer : bool) (s : MmapCommitStore) : outcome FileCommitStoreError N :=
  if answer then Ok (N.of_nat (length (mm_file s))) else Err Io.

Definition mapped_len (s : MmapCommitStore) : nat :=
  match mm_mapping s with Some mapping => length mapping | None => 0 end.

Definition mapping_is_current (answer : bool) (s : MmapCommitStore) : bool :=
  match mm_mapping s, file_metadata answer s with
  | Some mapping, Ok metadata => (N.of_nat (length mapping) =? metadata)%N
  | _, _ => false
  end.

Definition mapped_frame_count (s : MmapCommitStore) : nat :=
  match mm_mapping s with Some _ => length (mm_spans s) | None => 0 end.

(** [Panic] is a span that is not in the mapping. *)
Definition mapped_record (s : MmapCommitStore) (index : nat) :
    outcome FileCommitStoreError (option (list u8)) :=
  match mm_mapping s with
  | None => Ok None
  | Some mapping =>
      match mm_spans s !! index with
      | None => Ok None
      | Some span =>
          let* bytes := or_panic (range mapping (record_start span) (record_end span)) in
          Ok (Some bytes)
      end
  end.

Definition mapped_payload (s : MmapCommitStore) (index : nat) :
    outcome FileCommitStoreError (option (list u8)) :=
  match mm_mapping s with
  | None => Ok None
  | Some mapping =>
      match mm_spans s !! index with
      | None => Ok None
      | Some span =>
          let* bytes := or_panic (range mapping (payload_start span) (payload_end span)) in
          Ok (Some bytes)
      end
  end.

Definition mmap_validate_append (s : MmapCommitStore) (f : CommitFrame) :
    outcome FileCommitStoreError unit :=
  let '(expected_parent, expected_parent_version) := expected_position (mm_frames s) in
  if decide (parent_world f ≠ expected_parent)
  then Err (NonLinearAppend (AppendParent expected_parent (parent_world f)))
  else if decide (parent_version f ≠ expected_parent_version)
  then Err (NonLinearAppend (AppendParentVersion expected_parent_version (parent_version f)))
  else
    match u64_checked_add expected_parent_version 1 with
    | None => Err (NonLinearAppend AppendVersionOverflow)
    | Some expected =>
        if decide (resulting_version f ≠ expected)
        then Err (NonLinearAppend (AppendResultingVersion expected (resulting_version f)))
        else Ok tt
    end.

(** ** Opening and refreshing *)

Section mmap.
Context {D P : Type} `{Kernel D, MappedRoot P}.

(** [MmapCommitStore::open] on a file with the given content (empty for a file
    it creates), with the answers to its two mappings; also the content it
    leaves. *)
Definition mmap_open (first second : bool) (bytes : list u8) :
    outcome FileCommitStoreError MmapCommitStore * list u8 :=
  let bytes := if length bytes =? 0 then file_header else bytes in
  match (let* mapping := map_file first bytes in
         let* decoded := decode_file mapping in Ok (mapping, decoded)) with
  | Err e => (Err e, bytes)
  | Panic => (Panic, bytes)
  | Ok (mapping, (frames, spans, last_good_offset)) =>
      let recovered := N.of_nat (length mapping - last_good_offset) in
      let '(mapping, bytes) :=
        if (recovered =? 0)%N then (Ok mapping, bytes)
        else
          let bytes := take last_good_offset bytes in
          (map_file second bytes, bytes) in
      (let* mapping := mapping in
       let* _ := map_err History (reconstruct (D := D) (P := P) frames) in
       Ok (MmapCommitStore_mk bytes (Some mapping) frames spans recovered None None), bytes)
  end.

Definition refresh_mapping (answer : bool) (s : MmapCommitStore) :
    outcome FileCommitStoreError unit * MmapCommitStore :=
  let unmapped := MmapCommitStore_mk (mm_file s) None (mm_frames s) (mm_spans s)
    (mm_recovered_tail_bytes s) (mm_writer s) (last_remap_error s) in
  match (let* mapping := map_file answer (mm_file s) in
         let* decoded := decode_file mapping in
         let '(frames, spans, last_good_offset) := decoded in
         let* _ := if decide (last_good_offset ≠ length mapping)
                   then corrupt last_good_offset RefreshIncompleteTail else Ok tt in
         let* _ := map_err History (reconstruct (D := D) (P := P) frames) in
         Ok (mapping, frames, spans)) with
  | Err e => (Err e, unmapped)
  | Panic => (Panic, unmapped)
  | Ok (mapping, frames, spans) =>
      (Ok tt, MmapCommitStore_mk (mm_file s) (Some mapping) frames spans
                (mm_recovered_tail_bytes s) None None)
  end.

(** ** Appending *)

Definition remap_after_durable_append (answer : bool) (start : nat) (s : MmapCommitStore) :
    MmapCommitStore :=
  let failed e := MmapCommitStore_mk (mm_file s) None (mm_frames s) (mm_spans s)
    (mm_recovered_tail_bytes s) (mm_writer s) (Some e) in
  match map_file answer (mm_file s) with
  | Ok mapping =>
      match decode_complete_span mapping start with
      | Ok span => MmapCommitStore_mk (mm_file s) (Some mapping) (mm_frames s)
          (mm_spans s ++ [span]) (mm_recovered_tail_bytes s) (mm_writer s) None
      | Err e => failed e
      | Panic => s
      end
  | Err e => failed e
  | Panic => s
  end.

(** What the operating system answers during an append. *)
Record mmap_io := mmap_io_mk {
  metadata_ok : bool;
  reopen_ok : bool;
  write_io : append_io;
  remap_ok : bool;
}.

Definition all_ok : mmap_io := mmap_io_mk true true IoOk true.

(** The writer, opened on the path if there is none; opening it may cut the
    file. *)
Definition open_writer (answer : bool) (s : MmapCommitStore) :
    outcome FileCommitStoreError Writer * list u8 :=
  match mm_writer s with
  | Some w => (Ok w, mm_file s)
  | None =>
      if answer then
        let '(opened, bytes) := open_store (D := D) (P := P) (mm_file s) in
        (let* st := opened in Ok (Writer_mk (file_frames st) (recovered_tail_bytes st)), bytes)
      else (Err Io, mm_file s)
  end.

Definition mmap_append (io : mmap_io) (s : MmapCommitStore) (f : CommitFrame) :
    outcome FileCommitStoreError unit * MmapCommitStore :=
  match (let* _ := mmap_validate_append s f in file_metadata (metadata_ok io) s) with
  | Err e => (Err e, s)
  | Panic => (Panic, s)
  | Ok start =>
      let '(writer, bytes) := open_writer (reopen_ok io) s in
      let with_writer bytes w := MmapCommitStore_mk bytes (mm_mapping s) (mm_frames s)
        (mm_spans s) (mm_recovered_tail_bytes s) w (last_remap_error s) in
      match writer with
      | Err e => (Err e, with_writer bytes (mm_writer s))
      | Panic => (Panic, with_writer bytes (mm_writer s))
      | Ok w =>
          let '(appended, store) := file_append (write_io io)
            (FileCommitStore_mk bytes (writer_frames w) (writer_recovered w)) f in
          let w := Some (Writer_mk (file_frames store) (recovered_tail_bytes store)) in
          match appended with
          | Err e => (Err e, with_writer (file_bytes store) w)
          | Panic => (Panic, with_writer (file_bytes store) w)
          | Ok _ =>
              let s := MmapCommitStore_mk (file_bytes store) (mm_mapping s) (mm_frames s ++ [f])
                (mm_spans s) 0 w (last_remap_error s) in
              (Ok tt, remap_after_durable_append (remap_ok io) (N.to_nat start) s)
          end
      end
  end.
End mmap.

(** A store with the answers its operating system will give; the kernel with
    which it checks histories is a parameter of the store. *)
Record MmapStoreEnv (D P : Type) := MmapStoreEnv_mk {
  menv_store : MmapCommitStore;
  menv_io : list mmap_io;
}.
Arguments MmapStoreEnv_mk {_ _} _ _.
Arguments menv_store {_ _} _.
Arguments menv_io {_ _} _.

#[export] Instance mmap_store {D P} `{Kernel D, MappedRoot P} :
    CommitStore (MmapStoreEnv D P) FileCommitStoreError := {
  store_append s f :=
    let '(r, st) := mmap_append (D := D) (P := P) (default all_ok (head (menv_io s))) (menv_store s) f in
    (r, MmapStoreEnv_mk st (tail (menv_io s)));
  store_frames s := mm_frames (menv_store s);
  store_len s := length (mm_frames (menv_store s));
}.

(** ** What an append does to the frames *)

Section facts.
Context {D P : Type} `{KernelLaws D, MappedRootLaws P}.

Lemma open_store_not_panic bytes : (open_store (D := D) (P := P) bytes).1 ≠ Panic.
Proof.
  unfold open_store. set (content := if length bytes =? 0 then file_header else bytes).
  pose proof (decode_file_inv content) as Hinv.
  destruct (FileStore.decode_file content) as [[fs n]|e|]; [|done|done].
  pose proof (reconstruct_ok (D := D) (P := P) fs) as Hr.
  destruct (check_chain fs) as [[[id v] x]|e|]; [|by rewrite Hr|done].
  destruct Hr as (w & -> & _). done.
Qed.

Lemma remap_frames answer start s :
  mm_frames (remap_after_durable_append answer start s) = mm_frames s.
Proof.
  unfold remap_after_durable_append, map_file. destruct answer; [|done].
  by destruct (decode_complete_span _ start).
Qed.

#[export] Instance mmap_store_laws : CommitStoreLaws (MmapStoreEnv D P) FileCommitStoreError.
Proof.
  split.
  - intros s f s'. simpl. unfold mmap_append.
    destruct (let* _ := mmap_validate_append _ f in _); try done.
    destruct (open_writer _ _) as [[w|e|] bytes]; try done.
    destruct (file_append _ _ f) as [[[]|e|] st]; try done.
    intros [= <-]. simpl. by rewrite remap_frames.
  - intros s f e s'. simpl. unfold mmap_append.
    destruct (let* _ := mmap_validate_append _ f in _); try done; [|by intros [= _ <-]].
    destruct (open_writer _ _) as [[w|e'|] bytes]; try done; [|by intros [= _ <-]].
    destruct (file_append _ _ f) as [[[]|e'|] st]; try done. by intros [= _ <-].
  - intros s f. simpl. unfold mmap_append.
    assert (mmap_validate_append (menv_store s) f ≠ Panic) as Hv.
    { unfold mmap_validate_append. destruct (expected_position _) as [w v].
      case_decide; [done|]. case_decide; [done|]. destruct (u64_checked_add v 1); [|done].
      by case_decide. }
    destruct (mmap_validate_append _ f); try done. cbn [outcome_bind]. unfold file_metadata.
    destruct (metadata_ok _); [|done]. unfold open_writer.
    pose proof (open_store_not_panic (mm_file (menv_store s))) as Ho.
    destruct (mm_writer (menv_store s)) as [w|].
    2: destruct (reopen_ok _); [|done]; destruct (open_store _) as [[st|e|] bytes]; try done;
      cbn [outcome_bind writer_frames writer_recovered].
    all: match goal with |- context [file_append ?io ?st ?g] =>
        let Hl := fresh in
        pose proof (store_append_panic (FileStoreEnv_mk st [io]) g) as Hl; simpl in Hl;
        destruct (file_append io st g) as [[[]|e'|] st'] end; simpl in *; congruence.
  - done.
Qed.
End facts.
