(* ===== verification/MmapProps.v ===== *)
(** The properties of the memory-mapped commit store: it refines the file
    commit store, its mapping shows the canonical records of its frames, a
    refresh restores the mapping, and what a failed remapping leaves behind. *)
From Stdlib Require Import NArith Lia.
From stdpp Require Import base gmap list strings option list_monad.
From S2P Require Import Prelude Ord Terms Bytes Query QueryFacts Spec Index Kernel LegacyDb.
From S2P Require Import KernelProps Frames VmProjection Worlds WorldFacts WorldProps Codec FileStore.
From S2P Require Import FileProps MmapFormat MmapStore.

(** The file store a memory-mapped store stands for: same file, same frames; a
    writer knows the frames, and without a writer the file opens. *)
Record mmap_rel (m : MmapCommitStore) (s : FileCommitStore) : Prop := {
  mrel_file : mm_file m = file_bytes s;
  mrel_frames : mm_frames m = file_frames s;
  mrel_recovered : mm_recovered_tail_bytes m = recovered_tail_bytes s;
  mrel_writer : match mm_writer m with
    | Some w => writer_frames w = file_frames s
    | None => file_ok s ∧ ∃ st, check_chain (file_frames s) = Ok st
    end;
}.

(** The mapping shows the whole file, and the spans are those of the frames. *)
Record mapped (m : MmapCommitStore) : Prop := {
  ma_mapping : mm_mapping m = Some (mm_file m);
  ma_file : mm_file m = file_of (mm_frames m);
  ma_spans : mm_spans m = spans_of (mm_frames m);
}.

(** What a reader of the mapping sees. *)
Definition mapping_shows (m : MmapCommitStore) : Prop :=
  mapping_is_current true m = true ∧ mapped_len m = length (mm_file m) ∧
  mapped_frame_count m = length (mm_frames m) ∧
  ∀ i, mapped_record m i = Ok (record_bytes <$> mm_frames m !! i) ∧
    mapped_payload m i = Ok (encode_payload <$> mm_frames m !! i).

Lemma mapped_shows m : mapped m → mapping_shows m.
Proof.
  intros [Hm Hf Hs]. unfold mapping_shows, mapping_is_current, file_metadata, mapped_len,
    mapped_frame_count, mapped_record, mapped_payload. rewrite Hm, N.eqb_refl, Hs, length_spans_of.
  split_and!; [done..|]. intros i. destruct (mm_frames m !! i) as [f|] eqn:Hi.
  - destruct (spans_of_lookup _ _ _ Hi) as (start & rest & -> & -> & Hfile).
    destruct (span_record (file_of (take i (mm_frames m))) f rest) as [H1 H2].
    rewrite Hf, Hfile, H1, H2. done.
  - assert (spans_of (mm_frames m) !! i = None) as ->; [|done].
    apply lookup_ge_None. rewrite length_spans_of. by apply lookup_ge_None.
Qed.

(** The answers of an append do not depend on the recovered tail. *)
Lemma file_append_recovered io bytes fs n k f :
  let '(r, s) := file_append io (FileCommitStore_mk bytes fs n) f in
  file_append io (FileCommitStore_mk bytes fs k) f =
    (r, FileCommitStore_mk (file_bytes s) (file_frames s)
      match r with Ok _ => 0 | _ => k end) ∧
  recovered_tail_bytes s = match r with Ok _ => 0%N | _ => n end.
Proof.
  unfold file_append.
  change (validate_append (FileCommitStore_mk bytes fs k) f)
    with (validate_append (FileCommitStore_mk bytes fs n) f).
  destruct (validate_append _ f) as [[]|e|]; [|by split..].
  destruct (encode_record f) as [record|e|]; [|by split..].
  by destruct io as [| |written []|[]]; split.
Qed.

Section props.
Context {D P : Type} `{KernelLaws D, MappedRootLaws P}.

(** [open_store] on a clean file, as the lazy opening of the writer does. *)
Lemma open_writer_rel m s :
  mmap_rel m s → ∃ n, open_writer (D := D) (P := P) true m = (Ok (Writer_mk (file_frames s) n), file_bytes s).
Proof.
  intros [Hf _ _ Hw]. unfold open_writer. rewrite Hf. destruct (mm_writer m) as [[fs n]|].
  - simpl in Hw. subst. by exists n.
  - destruct Hw as [[Hb Hlin] [st Hc]]. rewrite Hb.
    rewrite (open_store_clean (D := D) (P := P) _ st Hlin Hc). by exists 0%N.
Qed.

Lemma remap_rel answer start m s :
  mmap_rel m s → mmap_rel (remap_after_durable_append answer start m) s.
Proof.
  intros Hrel. unfold remap_after_durable_append, map_file.
  destruct answer; [destruct (decode_complete_span _ start)|];
    try done; by destruct Hrel; split.
Qed.

Lemma remap_mapped m f start :
  start = length (file_of (mm_frames m)) →
  (N.of_nat (length (encode_payload f)) <= MAX_FRAME_BYTES)%N →
  u64_ok (N.of_nat (length (file_of (mm_frames m ++ [f])))) →
  mm_spans m = spans_of (mm_frames m) →
  let m' := remap_after_durable_append true start
    (MmapCommitStore_mk (file_of (mm_frames m ++ [f])) (mm_mapping m) (mm_frames m ++ [f])
       (mm_spans m) 0 (mm_writer m) (last_remap_error m)) in
  mapped m' ∧ last_remap_error m' = None.
Proof.
  intros -> Hlen Hu Hs. cbv zeta. unfold remap_after_durable_append. cbn [map_file mm_file].
  rewrite file_of_snoc in *. rewrite decode_complete_span_at by done. split; [|done].
  split; cbn [mm_mapping mm_file mm_frames mm_spans]; [done|by rewrite file_of_snoc|].
  by rewrite spans_of_snoc, Hs.
Qed.

(** One append, its answers and the store it stands for. *)
Lemma mmap_append_file io m s f :
  mmap_rel m s → metadata_ok io = true → reopen_ok io = true →
  let '(r, m') := mmap_append (D := D) (P := P) io m f in
  let '(r', s') := file_append (write_io io) s f in
  r = r' ∧ mmap_rel m' s' ∧
  match r with
  | Ok _ => ∃ w, m' = remap_after_durable_append (remap_ok io) (length (mm_file m))
      (MmapCommitStore_mk (file_bytes s') (mm_mapping m) (mm_frames m ++ [f]) (mm_spans m) 0
         (Some w) (last_remap_error m))
  | _ => mm_mapping m' = mm_mapping m ∧ mm_spans m' = mm_spans m
  end.
Proof.
  intros Hrel Hmeta Hre. unfold mmap_append, file_metadata. rewrite Hmeta, Hre.
  destruct (open_writer_rel m s Hrel) as [n ->].
  assert (mmap_validate_append m f = validate_append s f) as ->.
  { unfold mmap_validate_append, validate_append. by rewrite (mrel_frames _ _ Hrel). }
  destruct (validate_append s f) as [[]|e|] eqn:Hv; cbn [outcome_bind];
    [|unfold file_append; by rewrite Hv..].
  cbn [writer_frames writer_recovered]. destruct s as [bytes fs k]. cbn [file_bytes file_frames] in *.
  pose proof (file_append_recovered (write_io io) bytes fs k n f) as Hx.
  destruct (file_append (write_io io) (FileCommitStore_mk bytes fs k) f) as [r s'] eqn:Ha.
  destruct Hx as [-> Hrec].
  assert (match r with Ok _ => file_frames s' = fs ++ [f] | _ => file_frames s' = fs end) as Hfr.
  { pose proof (store_append_ok (FileStoreEnv_mk (FileCommitStore_mk bytes fs k) [write_io io]) f) as Hok.
    pose proof (store_append_err (FileStoreEnv_mk (FileCommitStore_mk bytes fs k) [write_io io]) f) as Herr.
    pose proof (store_append_panic (FileStoreEnv_mk (FileCommitStore_mk bytes fs k) [write_io io]) f) as Hp.
    simpl in Hok, Herr, Hp. rewrite Ha in Hok, Herr, Hp.
    destruct r as [[]|e|]; [exact (Hok _ eq_refl)|exact (Herr _ _ eq_refl)|done]. }
  pose proof Hrel as [Hr1 Hr2 Hr3 Hr4]. simpl in Hr1, Hr2, Hr3.
  destruct r as [[]|e|]; cbn [file_bytes file_frames recovered_tail_bytes].
  - split_and!; [done| |].
    + apply remap_rel. split; cbn; [done|by rewrite Hr2, Hfr|done|done].
    + eexists. by rewrite Nat2N.id.
  - split_and!; [done| |done|done].
    split; cbn; [done|by rewrite Hr2, Hfr|by rewrite Hr3, Hrec|done].
  - split_and!; [done| |done|done].
    split; cbn; [done|by rewrite Hr2, Hfr|by rewrite Hr3, Hrec|done].
Qed.

(** Refreshing a store whose file is a valid history. *)
Lemma refresh_ok m st :
  mm_file m = file_of (mm_frames m) → linear (mm_frames m) → check_chain (mm_frames m) = Ok st →
  ∃ m', refresh_mapping (D := D) (P := P) true m = (Ok tt, m') ∧ mapped m' ∧
    mm_frames m' = mm_frames m ∧ mm_file m' = mm_file m ∧ last_remap_error m' = None ∧
    mmap_rel m' (opened (mm_frames m) (mm_recovered_tail_bytes m)).
Proof.
  intros Hf Hlin Hc. unfold refresh_mapping. cbn [map_file outcome_bind].
  assert (FileStore.decode_file (mm_file m) = Ok (mm_frames m, length (mm_file m))) as Hdec.
  { rewrite Hf, <- (app_nil_r (file_of _)). rewrite decode_file_of by (done || by left).
    by rewrite app_nil_r. }
  rewrite decode_file_agrees, Hdec. cbn [outcome_bind fst snd].
  rewrite decide_False by (intros Hne; by apply Hne). cbn [outcome_bind].
  destruct (reconstruct_accepts (D := D) (P := P) _ _ Hc) as [w ->]. cbn [map_err outcome_bind].
  eexists. split; [done|]. cbn. split_and!; try done. split; cbn; try done.
  split; [by apply opened_ok|eauto].
Qed.
End props.

(** Opening through the mapping is opening the file.  On every content,
    [MmapCommitStore::open] answers what [FileCommitStore::open] answers, with
    the same error or the same frames and recovered tail, and leaves the same
    file; the opened store then shows, through its mapping, exactly the record
    and the payload of each frame. *)
Theorem mmap_open_agrees {D P : Type} `{KernelLaws D, MappedRootLaws P} (bytes : list u8) :
  match mmap_open (D := D) (P := P) true true bytes, open_store (D := D) (P := P) bytes with
  | (Ok m, kept), (Ok s, kept') => kept = kept' ∧ mmap_rel m s ∧ mapped m ∧ mapping_shows m
  | (Err e, kept), (Err e', kept') => e = e' ∧ kept = kept'
  | _, _ => False
  end.
Proof.
  unfold mmap_open, open_store.
  set (content := if length bytes =? 0 then file_header else bytes). clearbody content.
  cbn [map_file outcome_bind]. rewrite decode_file_agrees. pose proof (decode_file_inv content) as Hinv.
  destruct (FileStore.decode_file content) as [[fs n]|e|]; [|done|done].
  destruct Hinv as (Hlin & Hn & Htake). cbn [outcome_bind fst snd].
  assert (take n content = file_of fs) as Htk by done. clear Htake.
  assert ((N.of_nat (length content - n) =? 0)%N = true → content = file_of fs) as Hwhole.
  { intros E%N.eqb_eq. rewrite <- Htk, take_ge; [done|lia]. }
  assert (∀ k, mapped (MmapCommitStore_mk (file_of fs) (Some (file_of fs)) fs (spans_of fs) k None None))
    as Hm by (intros k; by split).
  pose proof (reconstruct_ok (D := D) (P := P) fs) as Hr.
  destruct (_ =? 0)%N; [rewrite (Hwhole eq_refl)|rewrite Htk]; cbn [map_file outcome_bind];
    (destruct (check_chain fs) as [[[id v] x]|e|] eqn:Hc; [|by rewrite Hr|done];
     destruct Hr as (w & -> & _); cbn [map_err outcome_bind];
     split_and!; [done| |by apply Hm|by apply mapped_shows, Hm];
     split; cbn; try done; split; [by split|eauto]).
Qed.

(** The mapping through an append.  On a store whose mapping is complete,
    over a file whose rollbacks succeed: a refused append leaves the mapping as
    it is; an accepted one is shown by the new mapping; when the new mapping
    cannot be made the append still succeeds, the store records the error and
    has no mapping, and a refresh brings back the whole mapping. *)
Theorem mmap_append_shows {D P : Type} `{KernelLaws D, MappedRootLaws P} io m s f st :
  mmap_rel m s → file_ok s → mapped m → metadata_ok io = true → reopen_ok io = true →
  rolls_back (write_io io) → frame_small f →
  check_chain (mm_frames m ++ [f]) = Ok st →
  u64_ok (N.of_nat (length (file_of (mm_frames m ++ [f])))) →
  let '(r, m') := mmap_append (D := D) (P := P) io m f in
  match r with
  | Ok _ => mm_frames m' = mm_frames m ++ [f] ∧ mm_file m' = file_of (mm_frames m ++ [f]) ∧
      if remap_ok io then mapping_shows m' ∧ last_remap_error m' = None
      else mm_mapping m' = None ∧ last_remap_error m' = Some Io ∧ mapped_frame_count m' = 0 ∧
        ∃ m'', refresh_mapping (D := D) (P := P) true m' = (Ok tt, m'') ∧
          mm_frames m'' = mm_frames m ++ [f] ∧ mapping_shows m''
  | Err _ => mapping_shows m' ∧ mm_frames m' = mm_frames m
  | Panic => False
  end.
Proof.
  intros Hrel Hok Hm Hmeta Hre Hroll Hsmall Hc Hu.
  pose proof (mmap_append_file io m s f Hrel Hmeta Hre) as Ha.
  pose proof (store_append_panic (FileStoreEnv_mk s [write_io io]) f) as Hp. simpl in Hp.
  destruct (mmap_append io m f) as [r m'].
  destruct (file_append (write_io io) s f) as [r' s'] eqn:Hf. destruct Ha as (<- & Hrel' & Hr).
  pose proof Hrel as [Hr1 Hr2 _ _]. destruct r as [[]|e|]; [| |done].
  - destruct (file_append_Ok _ _ _ _ Hf Hok Hsmall) as [-> Hlin]. rewrite <- Hr2 in *.
    destruct Hr as [w ->]. cbn [file_bytes opened].
    assert (length (mm_file m) = length (file_of (mm_frames m))) as -> by (by rewrite (ma_file _ Hm)).
    assert ((N.of_nat (length (encode_payload f)) <= MAX_FRAME_BYTES)%N) as Hlen
      by apply (linear_snoc_inv _ _ Hlin).
    split; [by rewrite remap_frames|]. split.
    { unfold remap_after_durable_append. destruct (map_file _ _); try done.
      by destruct (decode_complete_span _ _). }
    destruct (remap_ok io).
    + destruct (remap_mapped (MmapCommitStore_mk (mm_file m) (mm_mapping m) (mm_frames m)
        (mm_spans m) (mm_recovered_tail_bytes m) (Some w) (last_remap_error m)) f _ eq_refl Hlen Hu
        (ma_spans _ Hm)) as [Hm' He']. split; [by apply mapped_shows|exact He'].
    + split_and!; [done..|]. cbn.
      destruct (refresh_ok (D := D) (P := P) (MmapCommitStore_mk (file_of (mm_frames m ++ [f])) None
        (mm_frames m ++ [f]) (mm_spans m) 0 (Some w) (Some Io)) st eq_refl Hlin Hc)
        as (m'' & Hm1 & Hm2 & Hm3 & _).
      exists m''. split_and!; [exact Hm1|exact Hm3|by apply mapped_shows].
  - destruct Hr as [Hr3 Hr4]. apply (file_append_Err _ _ _ _ _ Hf) in Hroll as ->.
    assert (mm_frames m' = mm_frames m) as Hfr by (by rewrite (mrel_frames _ _ Hrel')).
    split; [|done]. apply mapped_shows. destruct Hm as [Hm1 Hm2 Hm3].
    assert (mm_file m' = mm_file m) as Hfile by (by rewrite (mrel_file _ _ Hrel')).
    split; congruence.
Qed.

(** A freshly created store, mapped. *)
Definition fresh_mmap : MmapCommitStore :=
  MmapCommitStore_mk (file_of []) (Some (file_of [])) [] [] 0 None None.

Lemma fresh_mmap_rel : mmap_rel fresh_mmap (opened [] 0) ∧ file_ok (opened [] 0) ∧ mapped fresh_mmap.
Proof.
  assert (file_ok (opened [] 0)) as Hok by (apply opened_ok; constructor).
  split_and!; [|done|by split]. split; try done. split; [done|by eexists].
Qed.

Lemma mmap_append_shows_witness :
  let io := mmap_io_mk true true IoOk false in
  let '(r, m') := mmap_append (D := LegacyDb.ForthDb) (P := Empty_set) io fresh_mmap sample_frame in
  match r with
  | Ok _ => mm_frames m' = mm_frames fresh_mmap ++ [sample_frame] ∧
      mm_file m' = file_of (mm_frames fresh_mmap ++ [sample_frame]) ∧
      if remap_ok io then mapping_shows m' ∧ last_remap_error m' = None
      else mm_mapping m' = None ∧ last_remap_error m' = Some Io ∧ mapped_frame_count m' = 0 ∧
        ∃ m'', refresh_mapping (D := LegacyDb.ForthDb) (P := Empty_set) true m' = (Ok tt, m'') ∧
          mm_frames m'' = mm_frames fresh_mmap ++ [sample_frame] ∧ mapping_shows m''
  | Err _ => mapping_shows m' ∧ mm_frames m' = mm_frames fresh_mmap
  | Panic => False
  end.
Proof.
  destruct fresh_mmap_rel as (Hrel & Hok & Hm). destruct sample_storable as [(Hwf & Hops & Hlen) Hc].
  apply (mmap_append_shows (D := LegacyDb.ForthDb) (P := Empty_set) (mmap_io_mk true true IoOk false)
    fresh_mmap (opened [] 0) sample_frame _ Hrel Hok Hm eq_refl eq_refl I (conj Hwf Hops) sample_chain).
  reflexivity.
Defined.

(** Two databases over the same file, one through a mapping. *)
Record dbs_rel {D P} (db : Database D P (MmapStoreEnv D P)) (db' : Database D P FileStoreEnv) : Prop := {
  dr_current : db_current db = db_current db';
  dr_validators : db_validators db = db_validators db';
  dr_store : mmap_rel (menv_store (db_store db)) (env_store (db_store db'));
  dr_io : write_io <$> menv_io (db_store db) = env_io (db_store db');
  dr_ok : Forall (λ io, metadata_ok io = true ∧ reopen_ok io = true) (menv_io (db_store db));
}.

(** C36: A database over the memory-mapped store commits what a database over
    the file store commits: for every transaction, every validator and every
    outcome of the write, the same answer, the same current world, and stores
    that still stand for each other, whether or not the remapping succeeds; so
    what is proved of commits to a file, durability included, holds of it. *)
Theorem mmap_commit_refines {D P : Type} `{KernelLaws D, MappedRootLaws P}
    (db : Database D P (MmapStoreEnv D P)) (db' : Database D P FileStoreEnv) t :
  dbs_rel db db' →
  let '(r, d) := commit (E := FileCommitStoreError) db t in
  let '(r', d') := commit (E := FileCommitStoreError) db' t in
  r = r' ∧ dbs_rel d d'.
Proof.
  intros [Hcur Hval Hst Hios Henv]. unfold commit. rewrite Hcur, Hval. case_decide; [done|].
  destruct (tx_candidate t) as [c|e|]; [|done..].
  destruct (run_validators (db_validators db') c) as [u|e|]; [|done..].
  set (f := commit_frame c). clearbody f.
  assert (metadata_ok (default all_ok (head (menv_io (db_store db)))) = true ∧
    reopen_ok (default all_ok (head (menv_io (db_store db)))) = true) as [Hmeta Hre]
    by (destruct Henv; [done|done]).
  pose proof (mmap_append_file _ _ _ f Hst Hmeta Hre) as Ha.
  assert (write_io (default all_ok (head (menv_io (db_store db)))) =
    default IoOk (head (env_io (db_store db')))) as Hio
    by (rewrite <- Hios; by destruct (menv_io (db_store db))).
  rewrite Hio in Ha. cbn [store_append mmap_store file_store].
  destruct (mmap_append (default all_ok (head (menv_io (db_store db)))) (menv_store (db_store db)) f)
    as [r m'].
  destruct (file_append (default IoOk (head (env_io (db_store db')))) (env_store (db_store db')) f)
    as [r' s'].
  destruct Ha as (<- & Hrel & _).
  assert (write_io <$> tail (menv_io (db_store db)) = tail (env_io (db_store db'))) as Ht
    by (rewrite <- Hios; by destruct (menv_io (db_store db))).
  assert (Forall (λ io, metadata_ok io = true ∧ reopen_ok io = true) (tail (menv_io (db_store db)))) as Hf
    by (destruct Henv; done).
  destruct r as [u'|e|]; split; done.
Qed.

Lemma mmap_commit_refines_witness :
  let io := [mmap_io_mk true true (IoWriteFails 3 true) true; mmap_io_mk true true IoOk false] in
  let fresh : Database LegacyDb.ForthDb Empty_set (MmapStoreEnv LegacyDb.ForthDb Empty_set) :=
    Database_mk genesis (MmapStoreEnv_mk fresh_mmap io) [] in
  let '(r, d) := commit (E := FileCommitStoreError) fresh sample_file_tx in
  let '(r', d') := commit (E := FileCommitStoreError) (fresh_file (write_io <$> io)) sample_file_tx in
  r = r' ∧ dbs_rel d d'.
Proof.
  set (io := [mmap_io_mk true true (IoWriteFails 3 true) true; mmap_io_mk true true IoOk false]).
  apply (mmap_commit_refines (D := LegacyDb.ForthDb) (P := Empty_set)
    (Database_mk genesis (MmapStoreEnv_mk fresh_mmap io) []) (fresh_file (write_io <$> io))).
  split; [reflexivity|reflexivity|apply fresh_mmap_rel|reflexivity|].
  repeat constructor.
Defined.

(** Where the mapping lies.  After an append whose remapping failed, the
    next append that can be mapped clears the error and reports a current
    mapping, but the span of the first frame was never recorded: the records
    are shown one position too early, so that the position of the first frame
    shows the second, and the last frame has none. *)
Theorem remap_gap {D P : Type} `{KernelLaws D, MappedRootLaws P} m s f g :
  mmap_rel m s → file_ok s → mapped m → storable f → storable g →
  continues (mm_frames m) f → continues (mm_frames m ++ [f]) g →
  u64_ok (N.of_nat (length (file_of (mm_frames m ++ [f; g])))) →
  ∃ m' m'', mmap_append (D := D) (P := P) (mmap_io_mk true true IoOk false) m f = (Ok tt, m') ∧
    mmap_append (D := D) (P := P) all_ok m' g = (Ok tt, m'') ∧
    mm_frames m'' = mm_frames m ++ [f; g] ∧ last_remap_error m'' = None ∧
    mapping_is_current true m'' = true ∧ mapped_frame_count m'' = S (length (mm_frames m)) ∧
    mapped_record m'' (length (mm_frames m)) = Ok (Some (record_bytes g)) ∧
    mapped_record m'' (S (length (mm_frames m))) = Ok None.
Proof.
  intros Hrel Hok Hm Hsf Hsg Hcf Hcg Hu.
  assert (∀ fs h n, storable h → continues fs h →
    file_append IoOk (opened fs n) h = (Ok tt, opened (fs ++ [h]) 0)) as Happ.
  { intros fs h n Hs Hc. unfold file_append.
    rewrite (proj2 (validate_append_ok (opened fs n) h) Hc). unfold encode_record.
    destruct Hs as (_ & _ & Hl%N.ltb_ge). rewrite Hl. unfold opened. by rewrite file_of_snoc. }
  pose proof (mmap_append_file (D := D) (P := P) (mmap_io_mk true true IoOk false) m s f Hrel
    eq_refl eq_refl) as Ha.
  rewrite (file_ok_opened _ Hok), <- (mrel_frames _ _ Hrel) in Ha. cbn [write_io] in Ha.
  rewrite (Happ _ f _ Hsf Hcf) in Ha.
  destruct (mmap_append (mmap_io_mk true true IoOk false) m f) as [r m1] eqn:E1.
  destruct Ha as (-> & Hrel1 & [w1 Hm1]).
  pose proof (mmap_append_file (D := D) (P := P) all_ok m1 _ g Hrel1 eq_refl eq_refl) as Hb.
  cbn [write_io all_ok] in Hb. rewrite (Happ _ g _ Hsg Hcg) in Hb.
  destruct (mmap_append all_ok m1 g) as [r2 m2] eqn:E2. destruct Hb as (-> & Hrel2 & [w2 Hm2]).
  exists m1, m2. split; [done|]. split; [done|].
  assert (mm_spans m1 = mm_spans m ∧ mm_file m1 = file_of (mm_frames m ++ [f])) as [Hs1 Hf1]
    by (rewrite Hm1; done).
  assert ((mm_frames m ++ [f]) ++ [g] = mm_frames m ++ [f; g]) as Hfs by (by rewrite <- (assoc_L (++))).
  pose proof Hsg as (_ & _ & Hlg).
  pose proof (decode_complete_span_at (file_of (mm_frames m ++ [f])) g Hlg) as Hspan.
  rewrite <- file_of_snoc, Hfs in Hspan. specialize (Hspan Hu).
  assert (m2 = MmapCommitStore_mk (file_of (mm_frames m ++ [f; g])) (Some (file_of (mm_frames m ++ [f; g])))
    (mm_frames m ++ [f; g]) (spans_of (mm_frames m) ++ [span_at (length (file_of (mm_frames m ++ [f]))) g])
    0 (Some w2) None) as ->.
  { rewrite Hm2. unfold remap_after_durable_append. cbn [map_file remap_ok all_ok mm_file file_bytes opened].
    rewrite Hfs, Hf1, Hspan. cbn. rewrite Hs1, (ma_spans _ Hm).
    by rewrite (mrel_frames _ _ Hrel1), <- Hfs. }
  split_and!; try done.
  - unfold mapping_is_current, file_metadata. cbn. apply N.eqb_refl.
  - unfold mapped_frame_count. cbn. rewrite length_app, length_spans_of. cbn. lia.
  - unfold mapped_record. cbn [mm_mapping mm_spans].
    rewrite lookup_app_r by (rewrite length_spans_of; lia). rewrite length_spans_of, Nat.sub_diag.
    cbn [lookup list_lookup].
    rewrite <- Hfs, file_of_snoc. rewrite <- (app_nil_r (_ ++ _)), <- (assoc_L (++)).
    by destruct (span_record (file_of (mm_frames m ++ [f])) g []) as [-> _].
  - unfold mapped_record. cbn [mm_mapping mm_spans].
    rewrite lookup_app_r by (rewrite length_spans_of; lia). rewrite length_spans_of.
    replace (S (length (mm_frames m)) - length (mm_frames m)) with 1 by lia. done.
Qed.

Definition second_frame : CommitFrame :=
  CommitFrame_mk (resulting_world sample_frame) GENESIS 1 2 2 [].

Lemma remap_gap_witness :
  ∃ m' m'', mmap_append (D := LegacyDb.ForthDb) (P := Empty_set) (mmap_io_mk true true IoOk false)
      fresh_mmap sample_frame = (Ok tt, m') ∧
    mmap_append (D := LegacyDb.ForthDb) (P := Empty_set) all_ok m' second_frame = (Ok tt, m'') ∧
    mm_frames m'' = mm_frames fresh_mmap ++ [sample_frame; second_frame] ∧ last_remap_error m'' = None ∧
    mapping_is_current true m'' = true ∧ mapped_frame_count m'' = S (length (mm_frames fresh_mmap)) ∧
    mapped_record m'' (length (mm_frames fresh_mmap)) = Ok (Some (record_bytes second_frame)) ∧
    mapped_record m'' (S (length (mm_frames fresh_mmap))) = Ok None.
Proof.
  destruct fresh_mmap_rel as (Hrel & Hok & Hm). destruct sample_storable as [Hs Hc].
  apply (remap_gap (D := LegacyDb.ForthDb) (P := Empty_set) fresh_mmap (opened [] 0) sample_frame
    second_frame Hrel Hok Hm Hs).
  - split_and!; [|vm_compute; discriminate|vm_compute; discriminate].
    split_and!; [apply calculate_world_id_ok|reflexivity..|constructor].
  - exact Hc.
  - split_and!; reflexivity.
  - reflexivity.
Defined.
