(* ===== verification/EpochCodec.v ===== *)
(** The epoch store's own copy of the file format
    (forthdb-world/src/file_epoch_store.rs, lines 755-1061): [digest], the
    [EpochDecoder], [inspect_file] and the encoder, and their agreement with
    the file commit store.

    The names are those of the source, so they shadow the file commit store's
    where both are loaded. *)
From Stdlib Require Import NArith Lia.
From Stdlib Require Import Strings.Byte.
From stdpp Require Import base gmap list strings option list_monad.
From S2P Require Import Prelude Ord Terms Bytes Query QueryFacts Spec Index Kernel Frames.
From S2P Require Import VmProjection Worlds WorldFacts Codec FileStore.

(** The messages of [EpochDecoder]. *)
Inductive EpochDecodeError :=
| PayloadEnd
| OffsetOverflow
| StringOffsetOverflow
| StringEnd
| EpochInvalidUtf8
| EpochUnknownAtomTag (tag : u8)
| EpochUnknownOperationTag (tag : u8)
| EpochOperationCount
| EpochTrailingBytes (remaining : nat).

(** The [FileCommitStoreError]s this file builds, with the values they print. *)
Inductive EpochCorruptReason :=
| EpochFrameMagic
| EpochPayloadLimit (payload_len : N)
| EpochRecordLength
| EpochTrailer
| EpochChecksum
| EpochPayload (e : EpochDecodeError)
| EpochParentNonlinear
| EpochVersionNonlinear.

Inductive EpochFileError :=
| EpochInvalidHeader (reason : InvalidHeaderReason)
| EpochUnsupportedFormat (version : N)
| EpochCorruptFrame (offset : N) (reason : EpochCorruptReason)
| EpochNonLinear (reason : NonLinearReason)
| EpochHistory (error : CandidateError)
| ColdOpen (e : FileCommitStoreError).

Definition digest_extend (value : N) (bytes : list u8) : N :=
  foldl (λ value byte, u64_mul (N.lxor value (Byte.to_N byte)) FNV_PRIME) value bytes.

Definition digest (bytes : list u8) : N := digest_extend FNV_OFFSET_BASIS bytes.

(** ** The decoder *)

Record EpochDecoder := EpochDecoder_mk { ed_bytes : list u8; ed_offset : nat }.

Abbreviation edec A := (EpochDecoder → outcome EpochDecodeError (A * EpochDecoder)) (only parsing).

(** [bytes.get(start..end)]. *)
Definition get_range (bytes : list u8) (start end_ : N) : option (list u8) :=
  if (start <=? end_)%N && (end_ <=? N.of_nat (length bytes))%N
  then Some (take (N.to_nat (end_ - start)) (drop (N.to_nat start) bytes)) else None.

Definition e_byte : edec u8 := λ d,
  let* value := ok_or (ed_bytes d !! ed_offset d) PayloadEnd in
  Ok (value, EpochDecoder_mk (ed_bytes d) (ed_offset d + 1)).

Definition e_u64 : edec N := λ d,
  let* end_ := ok_or (u64_checked_add (N.of_nat (ed_offset d)) 8) OffsetOverflow in
  let* slice := ok_or (get_range (ed_bytes d) (N.of_nat (ed_offset d)) end_) PayloadEnd in
  Ok (le_N slice, EpochDecoder_mk (ed_bytes d) (N.to_nat end_)).

Definition e_string : edec string := λ d,
  let* length := e_u64 d in
  let d := length.2 in
  let* end_ := ok_or (u64_checked_add (N.of_nat (ed_offset d)) length.1) StringOffsetOverflow in
  let* slice := ok_or (get_range (ed_bytes d) (N.of_nat (ed_offset d)) end_) StringEnd in
  let* s := ok_or (from_utf8 slice) EpochInvalidUtf8 in
  Ok (s, EpochDecoder_mk (ed_bytes d) (N.to_nat end_)).

Definition e_atom : edec Atom := λ d,
  let* r := e_byte d in
  match Byte.to_N r.1 with
  | 0%N => let* r := e_u64 r.2 in Ok (AEntity (EntityId_new r.1), r.2)
  | 1%N => let* r := e_string r.2 in Ok (ALiteral (Literal_new r.1), r.2)
  | _ => Err (EpochUnknownAtomTag r.1)
  end.

Definition e_finish (d : EpochDecoder) : outcome EpochDecodeError unit :=
  if decide (ed_offset d = length (ed_bytes d)) then Ok tt
  else Err (EpochTrailingBytes (length (ed_bytes d) - ed_offset d)).

Definition e_operation : edec Operation := λ d,
  let* r := e_byte d in
  match Byte.to_N r.1 with
  | 0%N => let* r := e_u64 r.2 in Ok (AllocateEntity (EntityId_new r.1), r.2)
  | 1%N =>
      let* slot := e_string r.2 in
      let* subject := e_atom slot.2 in
      let* predicate := e_string subject.2 in
      let* object := e_atom predicate.2 in
      Ok (OpDefine (SlotId_new slot.1)
            (Fact_new subject.1 (Predicate_new predicate.1) object.1), object.2)
  | 2%N => let* r := e_string r.2 in Ok (OpForget (SlotId_new r.1), r.2)
  | _ => Err (EpochUnknownOperationTag r.1)
  end.

(** [for _ in 0..operation_count]. *)
Fixpoint e_operations (n : nat) (d : EpochDecoder) :
    outcome EpochDecodeError (list Operation * EpochDecoder) :=
  match n with
  | 0 => Ok ([], d)
  | S n =>
      let* op := e_operation d in
      let* rest := e_operations n op.2 in
      Ok (op.1 :: rest.1, rest.2)
  end.

Definition decode_payload (payload : list u8) : outcome EpochDecodeError CommitFrame :=
  let d := EpochDecoder_mk payload 0 in
  let* parent_world := e_u64 d in
  let* resulting_world := e_u64 parent_world.2 in
  let* parent_version := e_u64 resulting_world.2 in
  let* resulting_version := e_u64 parent_version.2 in
  let* resulting_allocator := e_u64 resulting_version.2 in
  let* operation_count := e_u64 resulting_allocator.2 in
  if (MAX_OPERATIONS_PER_FRAME <? operation_count.1)%N
  then Err EpochOperationCount
  else
    let* operations := e_operations (N.to_nat operation_count.1) operation_count.2 in
    let* _ := e_finish operations.2 in
    Ok (CommitFrame_mk (WorldId_new parent_world.1) (WorldId_new resulting_world.1)
          parent_version.1 resulting_version.1 resulting_allocator.1 operations.1).

(** ** The encoder *)

Definition put_u64 (n : N) : list u8 := u64_bytes n.
Definition put_string (s : string) : list u8 :=
  put_u64 (usize_of (length (string_bytes s))) ++ string_bytes s.
Definition put_atom (a : Atom) : list u8 :=
  match a with
  | AEntity e => [x00] ++ put_u64 (entity_value e)
  | ALiteral l => [x01] ++ put_string (literal_str l)
  end.
Definition put_operation (op : Operation) : list u8 :=
  match op with
  | AllocateEntity e => [x00] ++ put_u64 (entity_value e)
  | OpDefine s f =>
      [x01] ++ put_string (slot_str s) ++ put_atom (fact_subject f) ++
      put_string (predicate_str (fact_predicate f)) ++ put_atom (fact_object f)
  | OpForget s => [x02] ++ put_string (slot_str s)
  end.

Definition encode_payload (f : CommitFrame) : list u8 :=
  put_u64 (world_value (parent_world f)) ++
  put_u64 (world_value (resulting_world f)) ++
  put_u64 (parent_version f) ++
  put_u64 (resulting_version f) ++
  put_u64 (resulting_allocator f) ++
  put_u64 (usize_of (length (frame_operations f))) ++
  (op ← frame_operations f; put_operation op).

Definition encode_record (f : CommitFrame) : outcome EpochFileError (list u8) :=
  let payload := encode_payload f in
  if (MAX_FRAME_BYTES <? N.of_nat (length payload))%N
  then Err (EpochNonLinear (AppendPayloadTooLong (N.of_nat (length payload))))
  else Ok (FRAME_MAGIC ++ u64_bytes (N.of_nat (length payload)) ++ u64_bytes (digest payload) ++
           payload ++ FRAME_TRAILER).

(** ** Inspecting a file *)

Definition corrupt {A} (offset : nat) (reason : EpochCorruptReason) : outcome EpochFileError A :=
  Err (EpochCorruptFrame (N.of_nat offset) reason).

(** The version is incremented without a check. *)
Definition validate_decoded_position (frames : list CommitFrame) (f : CommitFrame) (offset : nat) :
    outcome EpochFileError unit :=
  let '(expected_parent, expected_version) := expected_position frames in
  if decide (parent_world f ≠ expected_parent) then corrupt offset EpochParentNonlinear
  else if decide (parent_version f ≠ expected_version ∨
                  resulting_version f ≠ u64_add expected_version 1)
  then corrupt offset EpochVersionNonlinear
  else Ok tt.

(** One iteration of [while offset < bytes.len()]. *)
Definition inspect_record (bytes : list u8) (frames : list CommitFrame) (offset : nat) :
    outcome EpochFileError (option (CommitFrame * nat)) :=
  let remaining := length bytes - offset in
  if remaining <? FRAME_PREFIX_LEN then Ok None
  else
    let* magic := or_panic (slice bytes offset 4) in
    if decide (magic ≠ FRAME_MAGIC) then corrupt offset EpochFrameMagic
    else
      let* len := or_panic (slice bytes (offset + 4) 8) in
      let payload_len := le_N len in
      if (MAX_FRAME_BYTES <? payload_len)%N then corrupt offset (EpochPayloadLimit payload_len)
      else
        let* total_len := ok_or
          (n ← u64_checked_add (N.of_nat FRAME_PREFIX_LEN) payload_len;
           u64_checked_add n (N.of_nat FRAME_TRAILER_LEN))
          (EpochCorruptFrame (N.of_nat offset) EpochRecordLength) in
        if (N.of_nat remaining <? total_len)%N then Ok None
        else
          let payload_len := N.to_nat payload_len in
          let* expected := or_panic (slice bytes (offset + 12) 8) in
          let payload_start := offset + FRAME_PREFIX_LEN in
          let* trailer := or_panic (slice bytes (payload_start + payload_len) FRAME_TRAILER_LEN) in
          if decide (trailer ≠ FRAME_TRAILER) then corrupt offset EpochTrailer
          else
            let* payload := or_panic (slice bytes payload_start payload_len) in
            if decide (digest payload ≠ le_N expected) then corrupt offset EpochChecksum
            else
              let* f := map_err (λ e, EpochCorruptFrame (N.of_nat offset) (EpochPayload e))
                (decode_payload payload) in
              let* _ := validate_decoded_position frames f offset in
              Ok (Some (f, N.to_nat total_len)).

Fixpoint inspect_loop (fuel : nat) (bytes : list u8) (frames : list CommitFrame) (offset : nat) :
    outcome EpochFileError (list CommitFrame * nat) :=
  if length bytes <=? offset then Ok (frames, offset)
  else
    match fuel with
    | 0 => Panic
    | S fuel =>
        let* r := inspect_record bytes frames offset in
        match r with
        | None => Ok (frames, offset)
        | Some (f, total_len) => inspect_loop fuel bytes (frames ++ [f]) (offset + total_len)
        end
    end.

(** A [FileInspection]: the frames and [last_good_offset]. *)
Definition inspect_file (bytes : list u8) : outcome EpochFileError (list CommitFrame * nat) :=
  if length bytes <? FILE_HEADER_LEN then Err (EpochInvalidHeader HeaderIncomplete)
  else
    let* magic := or_panic (slice bytes 0 8) in
    if decide (magic ≠ FILE_MAGIC) then Err (EpochInvalidHeader HeaderMagicMismatch)
    else
      let* version := or_panic (slice bytes 8 4) in
      let version := le_N version in
      if decide (version ≠ FILE_VERSION) then Err (EpochUnsupportedFormat version)
      else
        let* flags := or_panic (slice bytes 12 4) in
        let flags := le_N flags in
        if decide (flags ≠ FILE_FLAGS) then Err (EpochInvalidHeader (UnsupportedFlags flags))
        else inspect_loop (length bytes) bytes [] FILE_HEADER_LEN.

(** ** Agreement with the file commit store *)

Definition outcomes_agree {E1 E2 A B} (Q : E1 → E2 → Prop) (R : A → B → Prop)
    (r1 : outcome E1 A) (r2 : outcome E2 B) : Prop :=
  match r1, r2 with
  | Ok a, Ok b => R a b
  | Err e1, Err e2 => Q e1 e2
  | Panic, Panic => True
  | _, _ => False
  end.

Lemma agree_bind {E1 E2 A B C D} Q (R : A → B → Prop) (T : C → D → Prop)
    (m1 : outcome E1 A) (m2 : outcome E2 B) k1 k2 :
  outcomes_agree Q R m1 m2 → (∀ a b, R a b → outcomes_agree Q T (k1 a) (k2 b)) →
  outcomes_agree Q T (outcome_bind m1 k1) (outcome_bind m2 k2).
Proof. destruct m1, m2; simpl; naive_solver. Qed.

(** The same cursor; the bytes fit a [u64]. *)
Definition same_cursor {A} (r1 : A * EpochDecoder) (r2 : A * Decoder) : Prop :=
  r1.1 = r2.1 ∧ r2.2 = Decoder_mk (ed_bytes r1.2) (ed_offset r1.2) ∧
  u64_ok (N.of_nat (length (ed_bytes r1.2))).

Abbreviation decoders_agree get1 get2 := (∀ d d', same_cursor (tt, d) (tt, d') →
  outcomes_agree (λ _ _, True) same_cursor (get1 d) (get2 d')) (only parsing).

(** Taking [n] bytes both ways. *)
Lemma take_agree d n :
  match u64_checked_add (N.of_nat (ed_offset d)) n with
  | None => d_take n (Decoder_mk (ed_bytes d) (ed_offset d)) = Err PayloadCursorOverflow
  | Some e =>
      match get_range (ed_bytes d) (N.of_nat (ed_offset d)) e with
      | Some bs => d_take n (Decoder_mk (ed_bytes d) (ed_offset d)) =
          Ok (bs, Decoder_mk (ed_bytes d) (N.to_nat e))
      | None => ∃ err, d_take n (Decoder_mk (ed_bytes d) (ed_offset d)) = Err err
      end
  end.
Proof.
  unfold d_take. cbn [d_position d_bytes]. unfold u64_checked_add.
  destruct (_ <? u64_modulus)%N; [|done]. unfold get_range.
  rewrite (proj2 (N.leb_le (N.of_nat (ed_offset d)) _)) by lia. cbn [andb].
  destruct (_ <=? _)%N eqn:E.
  - apply N.leb_le in E. rewrite (proj2 (N.ltb_ge _ _)) by done.
    replace (N.of_nat (ed_offset d) + n - N.of_nat (ed_offset d))%N with n by lia. by rewrite Nat2N.id.
  - apply N.leb_gt in E. rewrite (proj2 (N.ltb_lt _ _)) by done. eauto.
Qed.

Ltac start_agree := intros d d' (_ & Hd' & Hok); cbn [fst snd] in Hd', Hok; rewrite Hd'; clear d' Hd'.

Lemma byte_agree : decoders_agree e_byte d_byte.
Proof.
  start_agree. unfold e_byte, d_byte.
  pose proof (take_agree d 1) as Ht. unfold u64_checked_add, get_range in Ht.
  destruct (ed_bytes d !! ed_offset d) as [b|] eqn:E; cbn [ok_or outcome_bind].
  - pose proof (lookup_lt_Some _ _ _ E) as Hlt. unfold u64_ok in Hok.
    rewrite (proj2 (N.ltb_lt _ _)) in Ht by lia.
    rewrite (proj2 (N.leb_le _ _)), (proj2 (N.leb_le _ _)) in Ht by lia. cbn [andb] in Ht. rewrite Ht.
    cbn [outcome_bind fst snd]. replace (N.to_nat (N.of_nat (ed_offset d) + 1 - _)) with 1 by lia.
    rewrite Nat2N.id. rewrite (drop_S _ _ _ E). cbn.
    split_and!; [done| |done]. cbn. f_equal. lia.
  - apply lookup_ge_None in E. destruct (_ <? u64_modulus)%N; [|by rewrite Ht].
    rewrite (proj2 (N.leb_gt (N.of_nat (ed_offset d) + 1) _)), andb_false_r in Ht by lia.
    by destruct Ht as [err ->].
Qed.

Lemma u64_agree : decoders_agree e_u64 d_u64.
Proof.
  start_agree. unfold e_u64, d_u64. pose proof (take_agree d 8) as Ht.
  destruct (u64_checked_add _ 8) as [e|]; [|by rewrite Ht].
  cbn [ok_or outcome_bind]. destruct (get_range _ _ e) as [bs|]; [|by destruct Ht as [err ->]].
  rewrite Ht. cbn [ok_or outcome_bind]. by split_and!.
Qed.

Lemma string_agree : decoders_agree e_string d_string.
Proof.
  intros d d' Hd. unfold e_string, d_string. eapply agree_bind; [by apply u64_agree|].
  intros [n d1] [n' d2] (Hn & Hd1 & Hok). cbn [fst snd] in *. subst n' d2.
  pose proof (take_agree d1 n) as Ht.
  destruct (u64_checked_add _ n) as [e|]; [|by rewrite Ht].
  cbn [ok_or outcome_bind]. destruct (get_range _ _ e) as [bs|]; [|by destruct Ht as [err ->]].
  rewrite Ht. cbn [ok_or outcome_bind fst snd]. destruct (from_utf8 bs); [|done].
  cbn [ok_or outcome_bind]. by split_and!.
Qed.

Lemma same_cursor_tt {A} (r1 : A * EpochDecoder) (r2 : A * Decoder) :
  same_cursor r1 r2 → same_cursor (tt, r1.2) (tt, r2.2).
Proof. intros (_ & H1 & H2). by split. Qed.

(** One decoding step after another. *)
Ltac agree_step H := eapply agree_bind; [apply H; by eapply same_cursor_tt|];
  let r1 := fresh "r" in let r2 := fresh "r" in let Hr := fresh "Hr" in
  intros r1 r2 Hr; pose proof Hr as (<- & _).

Lemma atom_agree : decoders_agree e_atom d_atom.
Proof.
  intros d d' Hd. unfold e_atom, d_atom. eapply agree_bind; [by apply byte_agree|].
  intros r1 r2 Hr. pose proof Hr as (<- & _).
  destruct (Byte.to_N r1.1) as [|[]]; try done.
  - agree_step u64_agree. by destruct Hr0 as (_ & ? & ?).
  - agree_step string_agree. by destruct Hr0 as (_ & ? & ?).
Qed.

Lemma operation_agree : decoders_agree e_operation d_operation.
Proof.
  intros d d' Hd. unfold e_operation, d_operation. eapply agree_bind; [by apply byte_agree|].
  intros r1 r2 Hr. pose proof Hr as (<- & _).
  destruct (Byte.to_N r1.1) as [|[|[]|]]; try done.
  - agree_step u64_agree. by destruct Hr0 as (_ & ? & ?).
  - agree_step string_agree. by destruct Hr0 as (_ & ? & ?).
  - agree_step string_agree. agree_step atom_agree. agree_step string_agree. agree_step atom_agree.
    by destruct Hr3 as (_ & ? & ?).
Qed.

Lemma operations_agree n : decoders_agree (e_operations n) (d_operations n).
Proof.
  induction n as [|n IH]; intros d d' Hd; cbn [e_operations d_operations].
  { destruct Hd as (_ & ? & ?). by split_and!. }
  eapply agree_bind; [by apply operation_agree|]. intros r1 r2 Hr. pose proof Hr as (<- & _).
  agree_step IH. by destruct Hr0 as (_ & ? & ?).
Qed.

Lemma payload_agree payload :
  u64_ok (N.of_nat (length payload)) →
  outcomes_agree (λ _ _, True) eq (decode_payload payload) (Codec.decode_payload payload).
Proof.
  intros Hok. unfold decode_payload, Codec.decode_payload. cbv zeta.
  assert (same_cursor (tt, EpochDecoder_mk payload 0) (tt, Decoder_new payload)) as H0 by done.
  eapply agree_bind; [by apply u64_agree|]. intros r1 r1' Hr1. pose proof Hr1 as (<- & _).
  agree_step u64_agree. agree_step u64_agree. agree_step u64_agree. agree_step u64_agree.
  agree_step u64_agree. destruct (_ <? _)%N; [done|]. agree_step operations_agree.
  match goal with Hr : @same_cursor (list Operation) _ _ |- _ => destruct Hr as (_ & -> & _) end.
  unfold e_finish, d_finish. cbn [d_position d_bytes]. by case_decide.
Qed.

Lemma digest_checksum bytes : digest bytes = checksum bytes.
Proof. reflexivity. Qed.

Lemma digest_app a b : digest (a ++ b) = digest_extend (digest a) b.
Proof. apply foldl_app. Qed.

Lemma encode_payload_same f : encode_payload f = Codec.encode_payload f.
Proof. reflexivity. Qed.

(** The same class of error at the same place. *)
Definition same_error (e1 : EpochFileError) (e2 : FileCommitStoreError) : Prop :=
  match e1, e2 with
  | EpochInvalidHeader r1, InvalidHeader r2 => r1 = r2
  | EpochUnsupportedFormat v1, UnsupportedFormat v2 => v1 = v2
  | EpochCorruptFrame o1 _, CorruptFrame o2 _ => o1 = o2
  | EpochNonLinear r1, NonLinearAppend r2 => r1 = r2
  | EpochHistory e1, History e2 => e1 = e2
  | ColdOpen e1, e2 => e1 = e2
  | _, _ => False
  end.

(** In a linear history the version is the number of frames. *)
Lemma linear_version fs : linear fs → (expected_position fs).2 = N.of_nat (length fs).
Proof.
  induction 1 as [|fs f Hlin IH Hc _]; [done|]. unfold expected_position. rewrite last_snoc. cbn [snd].
  unfold continues in Hc. destruct (expected_position fs) as [w v]. simpl in IH.
  destruct Hc as (_ & _ & _ & ->). rewrite length_app. simpl. lia.
Qed.

Lemma position_agree fs f offset :
  linear fs → (N.of_nat (length fs) + 1 < u64_modulus)%N →
  outcomes_agree same_error eq (validate_decoded_position fs f offset)
    (FileStore.validate_decoded_position fs f offset).
Proof.
  intros Hlin%linear_version Hlt.
  unfold validate_decoded_position, FileStore.validate_decoded_position, corrupt, FileStore.corrupt.
  destruct (expected_position fs) as [w v]. simpl in Hlin. subst v.
  case_decide; [done|]. unfold u64_checked_add. rewrite (proj2 (N.ltb_lt _ _)) by done.
  unfold u64_add. rewrite u64_wrap_small by done.
  destruct (decide (parent_version f ≠ _)); [by rewrite decide_True by tauto|].
  destruct (decide (resulting_version f ≠ _)); [by rewrite decide_True by tauto|].
  by rewrite decide_False by tauto.
Qed.

Lemma record_agree bytes fs offset :
  linear fs → u64_ok (N.of_nat (length bytes)) → length fs < offset ≤ length bytes →
  outcomes_agree same_error eq (inspect_record bytes fs offset) (decode_record bytes fs offset).
Proof.
  intros Hlin Hok Hoff. unfold inspect_record, decode_record.
  destruct (_ <? _); [done|].
  destruct (slice bytes offset 4); [|done]. cbn [or_panic outcome_bind]. case_decide; [done|].
  destruct (slice bytes (offset + 4) 8) as [len|]; [|done]. cbn [or_panic outcome_bind].
  destruct (_ <? _)%N; [done|]. destruct (n ← _; _) as [total|]; [|done]. cbn [ok_or outcome_bind].
  destruct (_ <? _)%N; [done|]. destruct (slice bytes (offset + 12) 8) as [expected|]; [|done].
  cbn [or_panic outcome_bind]. destruct (slice bytes _ FRAME_TRAILER_LEN); [|done].
  cbn [or_panic outcome_bind]. case_decide; [done|].
  destruct (slice bytes _ (N.to_nat (le_N len))) as [payload|] eqn:Hs; [|done].
  cbn [or_panic outcome_bind]. rewrite digest_checksum. case_decide; [done|].
  assert (u64_ok (N.of_nat (length payload))) as Hp.
  { apply slice_Some in Hs as (? & ? & _). unfold u64_ok in *. lia. }
  pose proof (payload_agree payload Hp) as Ha. unfold u64_ok in Hok.
  destruct (decode_payload payload), (Codec.decode_payload payload); simpl in Ha; try done.
  subst. cbn [map_err outcome_bind].
  eapply agree_bind; [apply position_agree; [done|lia]|]. by intros [] [] _.
Qed.

Lemma loop_agree fuel bytes fs offset :
  linear fs → u64_ok (N.of_nat (length bytes)) → offset ≤ length bytes →
  take offset bytes = file_of fs →
  outcomes_agree same_error eq (inspect_loop fuel bytes fs offset) (decode_loop fuel bytes fs offset).
Proof.
  revert fs offset. induction fuel as [|fuel IH]; intros fs offset Hlin Hok Hoff Htake;
    cbn [inspect_loop decode_loop]; (destruct (_ <=? _) eqn:E; [done|]); [done|].
  apply Nat.leb_gt in E. pose proof (length_file_of fs) as Hl.
  rewrite <- Htake, length_take in Hl.
  pose proof (record_agree bytes fs offset Hlin Hok ltac:(lia)) as Ha.
  pose proof (decode_record_inv bytes fs offset Hoff) as Hrec.
  destruct (inspect_record bytes fs offset) as [[[f n]|]|e|],
    (decode_record bytes fs offset) as [[[f' n']|]|e'|]; simpl in Ha; try done.
  injection Ha as -> ->. destruct Hrec as (-> & Hst & Hc & Hdrop). cbn [outcome_bind].
  destruct (take_record bytes fs f' offset Htake Hoff Hdrop) as [Hle Htake'].
  apply IH; [by constructor|done..].
Qed.

(** The epoch store reads a file as the file commit store does. *)
Lemma inspect_agree bytes :
  u64_ok (N.of_nat (length bytes)) →
  outcomes_agree same_error eq (inspect_file bytes) (decode_file bytes).
Proof.
  intros Hok. unfold inspect_file, decode_file. destruct (_ <? FILE_HEADER_LEN) eqn:E; [done|].
  apply Nat.ltb_ge in E. unfold FILE_HEADER_LEN in E.
  destruct (slice_in_range bytes 0 8 ltac:(lia)) as [magic Hs1]. rewrite Hs1.
  cbn [or_panic outcome_bind]. rewrite !decide_neq. case_decide as Hmagic; [|done].
  destruct (slice_in_range bytes 8 4 ltac:(lia)) as [version Hs2]. rewrite Hs2.
  cbn [or_panic outcome_bind]. rewrite !decide_neq. case_decide as Hversion; [|done].
  destruct (slice_in_range bytes 12 4 ltac:(lia)) as [flags Hs3]. rewrite Hs3.
  cbn [or_panic outcome_bind]. rewrite !decide_neq. case_decide as Hflags; [|done].
  apply loop_agree; [constructor|done|unfold FILE_HEADER_LEN; lia|].
  by apply (take_header bytes magic version flags).
Qed.
