(* ===== verification/EpochStore.v ===== *)
(** The file epoch store (forthdb-world/src/file_epoch_store.rs, lines 19-753):
    appending an epoch of frames with one or many synchronisation barriers,
    and the repair state machine behind a failed epoch.

    The syscall boundary [EpochFileIo] is an interface: any state that answers
    its calls.  The path of the file is not modelled. *)
From Stdlib Require Import NArith Lia.
From Stdlib Require Import Strings.Byte.
From stdpp Require Import base gmap list strings option list_monad.
From S2P Require Import Prelude Ord Terms Bytes Query QueryFacts Spec Index Kernel Frames.
From S2P Require Import VmProjection Worlds WorldFacts Codec FileStore EpochCodec.

Inductive EpochIoPhase :=
| EpochStart | EpochWrite | EpochSync | RepairTruncate | RepairSync | VerifyLength | VerifyRead.

#[export] Instance EpochIoPhase_eq_dec : EqDecision EpochIoPhase.
Proof. solve_decision. Defined.

Inductive FileEpochState := Healthy | Repairing | Poisoned.
Inductive FileEpochSyncPolicy := PerFrame | PerEpoch.

(** [std::io::Error]: the one this file builds, and those of the system. *)
Inductive io_error := WriteZero | OsError (errno : N) | CustomError (message : string).

Record EpochPersistMetrics := EpochPersistMetrics_mk {
  pm_data_writes : N;
  pm_data_syncs : N;
  pm_bytes_written : N;
  pm_submission_calls : N;
  pm_completion_events : N;
  pm_maximum_in_flight_writes : N;
  pm_iovecs_submitted : N;
  pm_arena_bytes_copied : N;
}.

Record FileEpochMetrics := FileEpochMetrics_mk {
  epoch_attempts : N;
  epochs_committed : N;
  frames_committed : N;
  data_writes : N;
  data_syncs : N;
  repair_syncs : N;
  repairs_succeeded : N;
  repairs_failed : N;
  bytes_written : N;
  submission_calls : N;
  completion_events : N;
  maximum_in_flight_writes : N;
  iovecs_submitted : N;
  arena_bytes_copied : N;
}.

Definition metrics_default : FileEpochMetrics :=
  FileEpochMetrics_mk 0 0 0 0 0 0 0 0 0 0 0 0 0 0.

Definition record_persist (p : EpochPersistMetrics) (m : FileEpochMetrics) : FileEpochMetrics :=
  FileEpochMetrics_mk (epoch_attempts m) (epochs_committed m) (frames_committed m)
    (u64_add (data_writes m) (pm_data_writes p)) (u64_add (data_syncs m) (pm_data_syncs p))
    (repair_syncs m) (repairs_succeeded m) (repairs_failed m)
    (u64_add (bytes_written m) (pm_bytes_written p))
    (u64_add (submission_calls m) (pm_submission_calls p))
    (u64_add (completion_events m) (pm_completion_events p))
    (N.max (maximum_in_flight_writes m) (pm_maximum_in_flight_writes p))
    (u64_add (iovecs_submitted m) (pm_iovecs_submitted p))
    (u64_add (arena_bytes_copied m) (pm_arena_bytes_copied p)).

(** The counters this file increments. *)
Definition count_attempt (m : FileEpochMetrics) : FileEpochMetrics :=
  FileEpochMetrics_mk (u64_add (epoch_attempts m) 1) (epochs_committed m) (frames_committed m)
    (data_writes m) (data_syncs m) (repair_syncs m) (repairs_succeeded m) (repairs_failed m)
    (bytes_written m) (submission_calls m) (completion_events m) (maximum_in_flight_writes m)
    (iovecs_submitted m) (arena_bytes_copied m).
Definition count_committed (frames : N) (m : FileEpochMetrics) : FileEpochMetrics :=
  FileEpochMetrics_mk (epoch_attempts m) (u64_add (epochs_committed m) 1)
    (u64_add (frames_committed m) frames)
    (data_writes m) (data_syncs m) (repair_syncs m) (repairs_succeeded m) (repairs_failed m)
    (bytes_written m) (submission_calls m) (completion_events m) (maximum_in_flight_writes m)
    (iovecs_submitted m) (arena_bytes_copied m).
Definition count_io (writes syncs repairs bytes : N) (m : FileEpochMetrics) : FileEpochMetrics :=
  FileEpochMetrics_mk (epoch_attempts m) (epochs_committed m) (frames_committed m)
    (u64_add (data_writes m) writes) (u64_add (data_syncs m) syncs) (u64_add (repair_syncs m) repairs)
    (repairs_succeeded m) (repairs_failed m)
    (u64_add (bytes_written m) bytes) (submission_calls m) (completion_events m)
    (maximum_in_flight_writes m) (iovecs_submitted m) (arena_bytes_copied m).
Definition count_repair (succeeded : bool) (m : FileEpochMetrics) : FileEpochMetrics :=
  FileEpochMetrics_mk (epoch_attempts m) (epochs_committed m) (frames_committed m)
    (data_writes m) (data_syncs m) (repair_syncs m)
    (u64_add (repairs_succeeded m) (if succeeded then 1 else 0))
    (u64_add (repairs_failed m) (if succeeded then 0 else 1))
    (bytes_written m) (submission_calls m) (completion_events m) (maximum_in_flight_writes m)
    (iovecs_submitted m) (arena_bytes_copied m).

Abbreviation io_result I A := (outcome io_error A * I)%type (only parsing).
Abbreviation phase_error := (EpochIoPhase * io_error)%type (only parsing).

(** The trait; the result of [write_at] is a [usize]. *)
Class EpochFileIo (I : Type) := {
  persist_epoch : N → list (list u8) → I → option (EpochPersistMetrics * outcome phase_error unit) * I;
  io_len : EpochIoPhase → I → io_result I N;
  io_write_at : EpochIoPhase → N → list u8 → I → io_result I nat;
  io_sync_data : EpochIoPhase → I → io_result I unit;
  io_set_len : EpochIoPhase → N → I → io_result I unit;
  io_read_all : EpochIoPhase → I → io_result I (list u8);
}.

(** The messages of a failed repair. *)
Inductive RepairReason :=
| RepairIo (e : io_error)
| RepairLength (expected actual : N)
| RepairDigest
| RepairInspect (e : EpochFileError)
| RepairTail
| RepairFrameCount (expected found : nat)
| RepairPosition (world : WorldId) (version : N) (found_world : WorldId) (found_version : N)
| RepairHistory (e : CandidateError).

Inductive PoisonReason :=
| PoisonRepair (primary_phase : EpochIoPhase) (primary : io_error)
    (repair_phase : EpochIoPhase) (repair : RepairReason)
| PoisonExternal (reason : string)
| StillRepairing
| RepairUnverified.

Inductive VerificationReason :=
| UnverifiedTrailing (bytes : nat)
| IncompleteTail.

Inductive FileEpochStoreError :=
| EpochFile (e : EpochFileError)
| EpochIo (phase : EpochIoPhase) (source : io_error)
| EpochRepaired (phase : EpochIoPhase) (source : io_error)
| RepairFailed (primary_phase : EpochIoPhase) (primary : io_error)
    (repair_phase : EpochIoPhase) (repair : RepairReason)
| Verification (m : VerificationReason)
| StorePoisoned (r : PoisonReason).

Record EpochCheckpoint := EpochCheckpoint_mk {
  ck_start_offset : N;
  ck_frame_count : nat;
  ck_world_id : WorldId;
  ck_world_version : N;
  ck_prefix_digest : N;
}.

Record PreparedFileEpoch := PreparedFileEpoch_mk {
  pe_checkpoint : EpochCheckpoint;
  pe_frames : list CommitFrame;
  pe_records : list (list u8);
}.

Section store.
Context {D P I : Type} `{Kernel D, MappedRoot P, EpochFileIo I}.

Record FileEpochStore := FileEpochStore_mk {
  fe_io : I;
  fe_frames : list CommitFrame;
  fe_policy : FileEpochSyncPolicy;
  fe_state : FileEpochState;
  fe_poison_reason : option PoisonReason;
  fe_prefix_digest : N;
  fe_recovered_tail_bytes : N;
  fe_metrics : FileEpochMetrics;
}.

Definition set_io (io : I) (s : FileEpochStore) : FileEpochStore :=
  FileEpochStore_mk io (fe_frames s) (fe_policy s) (fe_state s) (fe_poison_reason s)
    (fe_prefix_digest s) (fe_recovered_tail_bytes s) (fe_metrics s).
Definition set_metrics (f : FileEpochMetrics → FileEpochMetrics) (s : FileEpochStore) : FileEpochStore :=
  FileEpochStore_mk (fe_io s) (fe_frames s) (fe_policy s) (fe_state s) (fe_poison_reason s)
    (fe_prefix_digest s) (fe_recovered_tail_bytes s) (f (fe_metrics s)).
Definition set_state (state : FileEpochState) (reason : option PoisonReason) (s : FileEpochStore) :
    FileEpochStore :=
  FileEpochStore_mk (fe_io s) (fe_frames s) (fe_policy s) state reason
    (fe_prefix_digest s) (fe_recovered_tail_bytes s) (fe_metrics s).

(** A method on [&mut self]. *)
Definition ep (E A : Type) : Type := FileEpochStore → outcome E A * FileEpochStore.

#[export] Instance ep_ret E : MRet (ep E) := λ A a s, (Ok a, s).
#[export] Instance ep_bind E : MBind (ep E) := λ A B k c s,
  match c s with
  | (Ok a, s) => k a s
  | (Err e, s) => (Err e, s)
  | (Panic, s) => (Panic, s)
  end.

Definition ep_of {E A} (r : FileEpochStore → outcome E A) : ep E A := λ s, (r s, s).
Definition ep_modify {E} (f : FileEpochStore → FileEpochStore) : ep E unit := λ s, (Ok tt, f s).

(** A call of the file, its error wrapped. *)
Definition ep_io {E A} (wrap : io_error → E) (call : I → io_result I A) : ep E A := λ s,
  let '(r, io) := call (fe_io s) in (map_err wrap r, set_io io s).

Definition from_io (io : I) (policy : FileEpochSyncPolicy) :
    outcome FileEpochStoreError FileEpochStore * I :=
  let '(r, io) := io_read_all VerifyRead io in
  (let* bytes := map_err (EpochIo VerifyRead) r in
   let* inspection := map_err EpochFile (inspect_file bytes) in
   if decide (inspection.2 ≠ length bytes)
   then Err (Verification (UnverifiedTrailing (length bytes - inspection.2)))
   else
     let* _ := map_err (λ e, EpochFile (EpochHistory e))
       (reconstruct (D := D) (P := P) inspection.1) in
     Ok (FileEpochStore_mk io inspection.1 policy Healthy None (digest bytes) 0 metrics_default), io).

Definition ensure_healthy (s : FileEpochStore) : outcome FileEpochStoreError unit :=
  match fe_state s with
  | Healthy => Ok tt
  | Repairing => Err (StorePoisoned StillRepairing)
  | Poisoned => Err (StorePoisoned (default RepairUnverified (fe_poison_reason s)))
  end.

Definition poison_external (reason : string) (s : FileEpochStore) : FileEpochStore :=
  set_state Poisoned (Some (PoisonExternal reason)) s.

Definition epoch_file_len : ep FileEpochStoreError N :=
  _ ← ep_of ensure_healthy;
  ep_io (EpochIo VerifyLength) (io_len VerifyLength).

Definition physical_frames : ep FileEpochStoreError (list CommitFrame) :=
  _ ← ep_of ensure_healthy;
  bytes ← ep_io (EpochIo VerifyRead) (io_read_all VerifyRead);
  ep_of (λ _,
    let* inspection := map_err EpochFile (inspect_file bytes) in
    if decide (inspection.2 ≠ length bytes) then Err (Verification IncompleteTail)
    else Ok inspection.1).

Definition checkpoint (start_offset : N) (s : FileEpochStore) : EpochCheckpoint :=
  let '(world_id, world_version) := expected_position (fe_frames s) in
  EpochCheckpoint_mk start_offset (length (fe_frames s)) world_id world_version (fe_prefix_digest s).

(** One step of the loop of [validate_epoch], from the position expected. *)
Definition validate_epoch_frame (position : WorldId * N) (f : CommitFrame) :
    outcome FileEpochStoreError (WorldId * N) :=
  let '(expected_parent, expected_version) := position in
  let nonlinear {A} r : outcome FileEpochStoreError A := Err (EpochFile (EpochNonLinear r)) in
  if decide (parent_world f ≠ expected_parent)
  then nonlinear (AppendParent expected_parent (parent_world f))
  else if decide (parent_version f ≠ expected_version)
  then nonlinear (AppendParentVersion expected_version (parent_version f))
  else
    match u64_checked_add expected_version 1 with
    | None => nonlinear AppendVersionOverflow
    | Some resulting =>
        if decide (resulting_version f ≠ resulting)
        then nonlinear (AppendResultingVersion resulting (resulting_version f))
        else Ok (resulting_world f, resulting_version f)
    end.

Definition validate_epoch (s : FileEpochStore) (frames : list CommitFrame) :
    outcome FileEpochStoreError unit :=
  let* _ := outcome_fold validate_epoch_frame frames (expected_position (fe_frames s)) in Ok tt.

(** [.map(encode_record).collect::<Result<_, _>>()]. *)
Fixpoint encode_records (frames : list CommitFrame) : outcome FileEpochStoreError (list (list u8)) :=
  match frames with
  | [] => Ok []
  | f :: frames =>
      let* record := map_err EpochFile (encode_record f) in
      let* records := encode_records frames in
      Ok (record :: records)
  end.

Definition prepare_epoch (frames : list CommitFrame) : ep FileEpochStoreError PreparedFileEpoch :=
  _ ← ep_of ensure_healthy;
  match frames with
  | [] => ep_of (λ s, Ok (PreparedFileEpoch_mk (checkpoint 0 s) [] []))
  | _ =>
      _ ← ep_of (λ s, validate_epoch s frames);
      records ← ep_of (λ _, encode_records frames);
      start_offset ← ep_io (EpochIo EpochStart) (io_len EpochStart);
      _ ← ep_modify (set_metrics count_attempt);
      ep_of (λ s, Ok (PreparedFileEpoch_mk (checkpoint start_offset s) frames records))
  end.

(** ** Writing *)

(** The loop of [write_all_at]: [None] when the fuel runs out.  A write reported
    longer than its buffer is the slice panic. *)
Fixpoint write_loop (fuel : nat) (offset : N) (bytes : list u8) (s : FileEpochStore) :
    option (outcome phase_error unit * FileEpochStore) :=
  match bytes with
  | [] => Some (Ok tt, s)
  | _ =>
      match fuel with
      | 0 => None
      | S fuel =>
          let s := set_metrics (count_io 1 0 0 0) s in
          let '(r, io) := io_write_at EpochWrite offset bytes (fe_io s) in
          let s := set_io io s in
          match r with
          | Ok 0 => Some (Err (EpochWrite, WriteZero), s)
          | Ok written =>
              let s := set_metrics (count_io 0 0 0 (N.of_nat written)) s in
              if length bytes <? written then Some (Panic, s)
              else write_loop fuel (u64_add offset (N.of_nat written)) (drop written bytes) s
          | Err source => Some (Err (EpochWrite, source), s)
          | Panic => Some (Panic, s)
          end
      end
  end.

Definition write_all_at (offset : N) (bytes : list u8) : ep phase_error unit := λ s,
  default (Panic, s) (write_loop (length bytes) offset bytes s).

Definition sync_epoch : ep phase_error unit :=
  _ ← ep_modify (set_metrics (count_io 0 1 0 0));
  ep_io (pair EpochSync) (io_sync_data EpochSync).

Definition write_one_epoch (start_offset : N) (records : list (list u8)) : ep phase_error unit :=
  _ ← write_all_at start_offset (concat records);
  sync_epoch.

Fixpoint write_per_frame (offset : N) (records : list (list u8)) : ep phase_error unit :=
  match records with
  | [] => mret tt
  | record :: records =>
      _ ← write_all_at offset record;
      _ ← sync_epoch;
      write_per_frame (u64_add offset (N.of_nat (length record))) records
  end.

(** ** Repair *)

(** The verification of the repaired bytes. *)
Definition verify_repaired (checkpoint : EpochCheckpoint) (bytes : list u8) :
    outcome (EpochIoPhase * RepairReason) unit :=
  let fail {A} r : outcome (EpochIoPhase * RepairReason) A := Err (VerifyRead, r) in
  if decide (digest bytes ≠ ck_prefix_digest checkpoint) then fail RepairDigest
  else
    let* inspection := map_err (λ e, (VerifyRead, RepairInspect e)) (inspect_file bytes) in
    let '(frames, last_good_offset) := inspection in
    if decide (last_good_offset ≠ length bytes) then fail RepairTail
    else if decide (length frames ≠ ck_frame_count checkpoint)
    then fail (RepairFrameCount (ck_frame_count checkpoint) (length frames))
    else
      let '(actual_world, actual_version) := expected_position frames in
      if decide (actual_world ≠ ck_world_id checkpoint ∨ actual_version ≠ ck_world_version checkpoint)
      then fail (RepairPosition (ck_world_id checkpoint) (ck_world_version checkpoint)
                   actual_world actual_version)
      else
        let* _ := map_err (λ e, (VerifyRead, RepairHistory e))
          (reconstruct (D := D) (P := P) frames) in
        Ok tt.

Definition repair (checkpoint : EpochCheckpoint) : ep (EpochIoPhase * RepairReason) unit :=
  let repair_io {A} phase (call : I → io_result I A) := ep_io (λ e, (phase, RepairIo e)) call in
  _ ← repair_io RepairTruncate (io_set_len RepairTruncate (ck_start_offset checkpoint));
  _ ← ep_modify (set_metrics (count_io 0 0 1 0));
  _ ← repair_io RepairSync (io_sync_data RepairSync);
  actual_len ← repair_io VerifyLength (io_len VerifyLength);
  if decide (actual_len ≠ ck_start_offset checkpoint)
  then ep_of (λ _, Err (VerifyLength, RepairLength (ck_start_offset checkpoint) actual_len))
  else
    bytes ← repair_io VerifyRead (io_read_all VerifyRead);
    ep_of (λ _, verify_repaired checkpoint bytes).

(** The error it returns; [None] when the file panics. *)
Definition handle_primary_failure (checkpoint : EpochCheckpoint) (primary_phase : EpochIoPhase)
    (primary : io_error) (s : FileEpochStore) : option FileEpochStoreError * FileEpochStore :=
  match repair checkpoint (set_state Repairing (fe_poison_reason s) s) with
  | (Ok _, s) =>
      (Some (EpochRepaired primary_phase primary),
       set_metrics (count_repair true) (set_state Healthy (fe_poison_reason s) s))
  | (Err (repair_phase, repair), s) =>
      (Some (RepairFailed primary_phase primary repair_phase repair),
       set_metrics (count_repair false)
         (set_state Poisoned (Some (PoisonRepair primary_phase primary repair_phase repair)) s))
  | (Panic, s) => (None, s)
  end.

Definition finish_prepared_epoch (prepared : PreparedFileEpoch) (result : outcome phase_error unit) :
    ep FileEpochStoreError unit := λ s,
  match pe_frames prepared with
  | [] => (Ok tt, s)
  | _ =>
      match result with
      | Panic => (Panic, s)
      | Err (phase, source) =>
          match handle_primary_failure (pe_checkpoint prepared) phase source s with
          | (Some e, s) => (Err e, s)
          | (None, s) => (Panic, s)
          end
      | Ok _ =>
          (Ok tt,
           FileEpochStore_mk (fe_io s) (fe_frames s ++ pe_frames prepared) (fe_policy s) (fe_state s)
             (fe_poison_reason s) (foldl digest_extend (fe_prefix_digest s) (pe_records prepared)) 0
             (count_committed (N.of_nat (length (pe_records prepared))) (fe_metrics s)))
      end
  end.

(** What [append_epoch] does between preparing and finishing. *)
Definition persist_prepared (prepared : PreparedFileEpoch) (s : FileEpochStore) :
    outcome phase_error unit * FileEpochStore :=
  let start_offset := ck_start_offset (pe_checkpoint prepared) in
  match persist_epoch start_offset (pe_records prepared) (fe_io s) with
  | (Some (transport_metrics, result), io) =>
      (result, set_metrics (record_persist transport_metrics) (set_io io s))
  | (None, io) =>
      (match fe_policy s with
       | PerFrame => write_per_frame start_offset (pe_records prepared)
       | PerEpoch => write_one_epoch start_offset (pe_records prepared)
       end) (set_io io s)
  end.

Definition append_epoch (frames : list CommitFrame) : ep FileEpochStoreError unit :=
  prepared ← prepare_epoch frames;
  match pe_frames prepared with
  | [] => mret tt
  | _ => λ s, let '(result, s) := persist_prepared prepared s in finish_prepared_epoch prepared result s
  end.

#[export] Instance epoch_store : CommitStore FileEpochStore FileEpochStoreError := {
  store_append s f := append_epoch [f] s;
  store_frames s := fe_frames s;
  store_len s := length (fe_frames s);
}.

(** [FileEpochStore::open] on a file with the given content: the cold open of the
    file commit store, then the file it left, as [open_file] opens it. *)
Definition epoch_open (open_file : list u8 → outcome io_error I) (bytes : list u8)
    (policy : FileEpochSyncPolicy) : outcome FileEpochStoreError FileEpochStore :=
  let '(cold, bytes) := open_store (D := D) (P := P) bytes in
  let* cold := map_err (λ e, EpochFile (ColdOpen e)) cold in
  let* io := map_err (EpochIo VerifyRead) (open_file bytes) in
  let* s := (from_io io policy).1 in
  Ok (FileEpochStore_mk (fe_io s) (fe_frames s) (fe_policy s) (fe_state s) (fe_poison_reason s)
        (fe_prefix_digest s) (recovered_tail_bytes cold) (fe_metrics s)).
End store.
Arguments FileEpochStore : clear implicits.
Arguments ep : clear implicits.
