(* ===== verification/EpochStoreFacts.v ===== *)
(** The file epoch store over a file that behaves as documented: writing,
    appending an epoch, repairing a failed one. *)
From Stdlib Require Import NArith Lia.
From Stdlib Require Import Strings.Byte.
From stdpp Require Import base gmap list strings option list_monad.
From S2P Require Import Prelude Ord Terms Bytes Query QueryFacts Spec Index Kernel Frames.
From S2P Require Import VmProjection Worlds WorldFacts Codec FileStore EpochCodec EpochStore.

(** [bytes] written over [content] from [offset] on. *)
Definition overwrite (content : list u8) (offset : nat) (bytes : list u8) : list u8 :=
  take offset content ++ bytes ++ drop (offset + length bytes) content.

(** A file: reads and lengths tell the truth, a write reports how much of the
    buffer it wrote, and a call that fails may have had any effect from its
    offset on. *)
Class EpochFileIoLaws (I : Type) `{EpochFileIo I} := {
  io_content : I → list u8;
  io_good : I → Prop;
  il_size io : io_good io → u64_ok (N.of_nat (length (io_content io)));
  il_len io phase : io_good io → phase = EpochStart ∨ phase = VerifyLength →
    let '(r, io') := io_len phase io in
    io_good io' ∧ io_content io' = io_content io ∧ r ≠ Panic ∧
    ∀ n, r = Ok n → n = N.of_nat (length (io_content io));
  il_read io : io_good io →
    let '(r, io') := io_read_all VerifyRead io in
    io_good io' ∧ io_content io' = io_content io ∧ r ≠ Panic ∧
    ∀ bytes, r = Ok bytes → bytes = io_content io;
  il_sync io phase : io_good io → phase = EpochSync ∨ phase = RepairSync →
    let '(r, io') := io_sync_data phase io in
    io_good io' ∧ io_content io' = io_content io ∧ r ≠ Panic;
  il_write io offset bytes : io_good io → N.to_nat offset ≤ length (io_content io) →
    let '(r, io') := io_write_at EpochWrite offset bytes io in
    io_good io' ∧
    match r with
    | Ok n => n ≤ length bytes ∧
        io_content io' = overwrite (io_content io) (N.to_nat offset) (take n bytes)
    | Err _ => take (N.to_nat offset) (io_content io) `prefix_of` io_content io'
    | Panic => False
    end;
  il_set_len io n : io_good io → N.to_nat n ≤ length (io_content io) →
    let '(r, io') := io_set_len RepairTruncate n io in
    io_good io' ∧
    match r with
    | Ok _ => io_content io' = take (N.to_nat n) (io_content io)
    | Err _ => take (N.to_nat n) (io_content io) `prefix_of` io_content io'
    | Panic => False
    end;
  il_persist io offset records : io_good io → N.to_nat offset ≤ length (io_content io) →
    let '(r, io') := persist_epoch offset records io in
    io_good io' ∧
    match r with
    | None => io_content io' = io_content io
    | Some (_, Ok _) => io_content io' = overwrite (io_content io) (N.to_nat offset) (concat records)
    | Some (_, Err _) => take (N.to_nat offset) (io_content io) `prefix_of` io_content io'
    | Some (_, Panic) => False
    end;
}.

Lemma overwrite_end content bytes : overwrite content (length content) bytes = content ++ bytes.
Proof.
  unfold overwrite. rewrite firstn_all, drop_ge by lia. by rewrite app_nil_r.
Qed.

Section store.
Context {D P I : Type} `{KernelLaws D, MappedRootLaws P, EpochFileIoLaws I}.
Implicit Types (s : FileEpochStore I) (bytes : list u8).

Definition content s : list u8 := io_content (fe_io s).
Definition good s : Prop := io_good (fe_io s).

(** Only the file and the counters may differ. *)
Record same_logic s s' : Prop := {
  sl_frames : fe_frames s' = fe_frames s;
  sl_policy : fe_policy s' = fe_policy s;
  sl_state : fe_state s' = fe_state s;
  sl_reason : fe_poison_reason s' = fe_poison_reason s;
  sl_digest : fe_prefix_digest s' = fe_prefix_digest s;
}.

#[export] Instance same_logic_preorder : PreOrder same_logic.
Proof. split; [by intros s; split|]. intros s1 s2 s3 [] []. split; congruence. Qed.

Lemma same_logic_io s io : same_logic s (set_io io s).
Proof. by split. Qed.
Lemma same_logic_metrics s f : same_logic s (set_metrics f s).
Proof. by split. Qed.

(** ** Writing *)

(** The outcome of writing [bytes] at the end of the file. *)
Record wrote_out s bytes (r : outcome (EpochIoPhase * io_error) unit) s' : Prop := {
  wo_good : good s';
  wo_logic : same_logic s s';
  wo_content : match r with
    | Ok _ => content s' = content s ++ bytes
    | Err _ => content s `prefix_of` content s'
    | Panic => False
    end;
}.

Lemma write_loop_ok fuel offset bytes s :
  length bytes ≤ fuel → good s → N.to_nat offset = length (content s) →
  ∃ r s', write_loop fuel offset bytes s = Some (r, s') ∧ wrote_out s bytes r s'.
Proof.
  revert offset bytes s. induction fuel as [|fuel IH]; intros offset bytes s Hf Hg Hoff;
    (destruct bytes as [|b bytes]; [do 2 eexists; split; [done|];
      split; [done|done|by rewrite app_nil_r]|]); [simpl in Hf; lia|].
  cbn [write_loop]. remember (b :: bytes) as bs eqn:Hbs.
  pose proof (il_write (fe_io s) offset bs Hg ltac:(unfold content in Hoff; lia)) as Hw.
  cbn [set_metrics fe_io]. destruct (io_write_at _ _ _ _) as [[n|e|] io]; [| |by destruct Hw].
  - destruct Hw as (Hg' & Hn & Hc). rewrite Hoff in Hc. fold (content s) in Hc.
    rewrite overwrite_end in Hc. destruct n as [|n].
    + do 2 eexists. split; [done|]. split; [done|by split|].
      exists []. rewrite app_nil_r. exact (eq_trans Hc (app_nil_r _)).
    + rewrite (proj2 (Nat.ltb_ge _ _)) by done.
      pose proof (il_size io Hg') as Hsz. rewrite Hc, length_app, length_take in Hsz.
      unfold u64_ok in Hsz. rewrite Hbs in Hf. cbn [length] in Hf.
      set (s1 := set_metrics _ (set_io io _)).
      destruct (IH (u64_add offset (N.of_nat (S n))) (drop (S n) bs) s1) as (r & s' & -> & [W1 W2 W3]).
      * rewrite length_drop, Hbs. cbn [length]. lia.
      * done.
      * change (content s1) with (io_content io). rewrite Hc, length_app, length_take.
        unfold u64_add. rewrite u64_wrap_small by (unfold u64_ok; lia). lia.
      * exists r, s'. split; [done|]. change (content s1) with (io_content io) in W3. rewrite Hc in W3.
        split; [done|etrans; [|done]; by split|]. destruct r; [|by eapply prefix_app_l|done].
        by rewrite W3, <- (assoc_L (++)), take_drop.
  - destruct Hw as (Hg' & Hc). do 2 eexists. split; [done|]. split; [done|by split|].
    rewrite Hoff in Hc. fold (content s) in Hc. by rewrite firstn_all in Hc.
Qed.

Lemma ep_bind_Ok {E A B} (c : ep I E A) (k : A → ep I E B) s a s' :
  c s = (Ok a, s') → (c ≫= k) s = k a s'.
Proof. intros Hc. unfold mbind, ep_bind. by rewrite Hc. Qed.
Lemma ep_bind_Err {E A B} (c : ep I E A) (k : A → ep I E B) s e s' :
  c s = (Err e, s') → (c ≫= k) s = (Err e, s').
Proof. intros Hc. unfold mbind, ep_bind. by rewrite Hc. Qed.

Lemma ep_bind_of {E A B} (r : FileEpochStore I → outcome E A) (k : A → ep I E B) s :
  (ep_of r ≫= k) s =
  match r s with Ok a => k a s | Err e => (Err e, s) | Panic => (Panic, s) end.
Proof. unfold mbind, ep_bind, ep_of. by destruct (r s). Qed.

Lemma write_all_ok offset bytes s :
  good s → N.to_nat offset = length (content s) →
  ∃ r s', write_all_at offset bytes s = (r, s') ∧ wrote_out s bytes r s'.
Proof.
  intros Hg Hoff. unfold write_all_at.
  destruct (write_loop_ok (length bytes) offset bytes s) as (r & s' & -> & Hw); [done..|]. eauto.
Qed.

Lemma sync_ok s :
  good s → ∃ r s', sync_epoch s = (r, s') ∧ wrote_out s [] r s'.
Proof.
  intros Hg. unfold sync_epoch. erewrite ep_bind_Ok by done. unfold ep_io. cbn [set_metrics fe_io].
  pose proof (il_sync (fe_io s) EpochSync Hg (or_introl eq_refl)) as Hs.
  destruct (io_sync_data EpochSync (fe_io s)) as [r io]. destruct Hs as (Hg' & Hc & Hp).
  do 2 eexists. split; [done|]. split; [done|by split|]. unfold content. cbn [set_io fe_io].
  rewrite Hc. destruct r; simpl; [by rewrite app_nil_r|done|done].
Qed.

Lemma wrote_out_trans s1 b1 s2 b2 r s3 :
  wrote_out s1 b1 (Ok tt) s2 → wrote_out s2 b2 r s3 → wrote_out s1 (b1 ++ b2) r s3.
Proof.
  intros [A1 A2 A3] [B1 B2 B3]. split; [done|by etrans|]. rewrite A3 in B3.
  destruct r; [by rewrite B3, (assoc_L (++))|by eapply prefix_app_l|done].
Qed.

Lemma wrote_out_Err s b1 b2 e s' : wrote_out s b1 (Err e) s' → wrote_out s b2 (Err e) s'.
Proof. by intros []. Qed.

Lemma write_one_ok records s :
  good s → ∃ r s', write_one_epoch (N.of_nat (length (content s))) records s = (r, s') ∧
    wrote_out s (concat records) r s'.
Proof.
  intros Hg. unfold write_one_epoch.
  destruct (write_all_ok (N.of_nat (length (content s))) (concat records) s Hg ltac:(lia))
    as ([[]|e|] & s1 & E1 & Hw); [| |by destruct Hw].
  - rewrite (ep_bind_Ok _ _ _ _ _ E1). destruct (sync_ok s1) as (r & s2 & -> & Hs); [apply Hw|].
    do 2 eexists. split; [done|]. rewrite <- (app_nil_r (concat records)). by eapply wrote_out_trans.
  - rewrite (ep_bind_Err _ _ _ _ _ E1). eauto.
Qed.

Lemma write_per_frame_ok records : ∀ offset s,
  good s → N.to_nat offset = length (content s) →
  ∃ r s', write_per_frame offset records s = (r, s') ∧ wrote_out s (concat records) r s'.
Proof.
  induction records as [|record records IH]; intros offset s Hg Hoff; cbn [write_per_frame concat].
  { do 2 eexists. split; [done|]. split; [done|done|by rewrite app_nil_r]. }
  destruct (write_all_ok offset record s Hg Hoff) as ([[]|e|] & s1 & E1 & Hw); [| |by destruct Hw].
  2: { rewrite (ep_bind_Err _ _ _ _ _ E1). eauto using wrote_out_Err. }
  rewrite (ep_bind_Ok _ _ _ _ _ E1).
  destruct (sync_ok s1) as ([[]|e|] & s2 & E2 & Hs); [apply Hw| | |by destruct Hs].
  2: { rewrite (ep_bind_Err _ _ _ _ _ E2). do 2 eexists. split; [done|].
       by eapply wrote_out_Err, wrote_out_trans. }
  rewrite (ep_bind_Ok _ _ _ _ _ E2). pose proof (wrote_out_trans _ _ _ _ _ _ Hw Hs) as Hws.
  rewrite app_nil_r in Hws. pose proof Hws as [Hg2 _ Hc2].
  destruct (IH (u64_add offset (N.of_nat (length record))) s2) as (r & s3 & -> & Hw3); [done| |].
  - pose proof (il_size _ Hg2) as Hsz. fold (content s2) in Hsz. rewrite Hc2, length_app in *.
    unfold u64_ok in Hsz. unfold u64_add. rewrite u64_wrap_small by (unfold u64_ok; lia). lia.
  - do 2 eexists. split; [done|]. by eapply wrote_out_trans.
Qed.

Lemma persist_ok prepared s :
  good s → ck_start_offset (pe_checkpoint prepared) = N.of_nat (length (content s)) →
  ∃ r s', persist_prepared prepared s = (r, s') ∧ wrote_out s (concat (pe_records prepared)) r s'.
Proof.
  intros Hg Hoff. unfold persist_prepared. cbv zeta. rewrite Hoff.
  pose proof (il_persist (fe_io s) (N.of_nat (length (content s))) (pe_records prepared) Hg) as Hp.
  rewrite Nat2N.id in Hp. specialize (Hp ltac:(done)).
  destruct (persist_epoch _ _ _) as [[[pm r]|] io].
  - destruct Hp as [Hg' Hc]. do 2 eexists. split; [done|]. split; [done|by split|].
    change (content (set_metrics (record_persist pm) (set_io io s))) with (io_content io).
    fold (content s) in Hc. rewrite overwrite_end, firstn_all in Hc. exact Hc.
  - destruct Hp as [Hg' Hc]. fold (content s) in Hc.
    assert (∀ r s', wrote_out (set_io io s) (concat (pe_records prepared)) r s' →
      wrote_out s (concat (pe_records prepared)) r s') as Hio.
    { intros r s' [W1 W2 W3]. change (content (set_io io s)) with (io_content io) in W3.
      rewrite Hc in W3. split; [done|etrans; [|done]; by split|done]. }
    assert (length (content s) = length (content (set_io io s))) as Hl
      by (change (content (set_io io s)) with (io_content io); by rewrite Hc).
    destruct (fe_policy s).
    + destruct (write_per_frame_ok (pe_records prepared) (N.of_nat (length (content s))) (set_io io s))
        as (r & s' & -> & Hw); [done|by rewrite Nat2N.id|]. eauto.
    + rewrite Hl. destruct (write_one_ok (pe_records prepared) (set_io io s)) as (r & s' & -> & Hw); [done|].
      eauto.
Qed.

#[local] Opaque Codec.encode_payload checksum digest le_N u64_bytes.

(** ** Validating and encoding *)

(** What a frame must be for the format, its size apart. *)
Definition encodable (f : CommitFrame) : Prop :=
  frame_wf f ∧ (N.of_nat (length (frame_operations f)) <= MAX_OPERATIONS_PER_FRAME)%N.

Lemma validate_frame_ok fs f p :
  validate_epoch_frame (expected_position fs) f = Ok p → continues fs f ∧ p = expected_position (fs ++ [f]).
Proof.
  unfold validate_epoch_frame, continues, u64_checked_add. destruct (expected_position fs) as [w v].
  rewrite !decide_neq. destruct (decide (parent_world f = w)); [|done].
  destruct (decide (parent_version f = v)); [|done].
  destruct (v + 1 <? u64_modulus)%N eqn:E; [|done]. apply N.ltb_lt in E.
  rewrite decide_neq. case_decide; [|done]. intros [= <-]. split; [done|].
  unfold expected_position. by rewrite last_snoc.
Qed.

Lemma validate_frame_not_panic p f : validate_epoch_frame p f ≠ Panic.
Proof.
  unfold validate_epoch_frame. destruct p as [w v]. case_decide; [done|]. case_decide; [done|].
  destruct (u64_checked_add v 1); [|done]. by case_decide.
Qed.

Lemma validate_epoch_not_panic s frames : validate_epoch s frames ≠ Panic.
Proof.
  unfold validate_epoch. generalize (expected_position (fe_frames s)).
  induction frames as [|f frames IH]; intros p; [done|]. cbn [outcome_fold].
  pose proof (validate_frame_not_panic p f). destruct (validate_epoch_frame p f); [apply IH|done..].
Qed.

Lemma encode_records_ok frames :
  match encode_records frames with
  | Ok records => records = record_bytes <$> frames ∧
      Forall (λ f, N.of_nat (length (Codec.encode_payload f)) <= MAX_FRAME_BYTES)%N frames
  | Err _ => True
  | Panic => False
  end.
Proof.
  induction frames as [|f frames IH]; [done|]. cbn [encode_records]. unfold encode_record.
  rewrite encode_payload_same. cbv zeta. destruct (_ <? _)%N eqn:E; [exact Logic.I|]. cbn [map_err outcome_bind].
  apply N.ltb_ge in E. destruct (encode_records frames); [|done..]. destruct IH as [-> Hall].
  cbn [outcome_bind]. rewrite digest_checksum. split; [reflexivity|constructor; assumption].
Qed.

Lemma validate_linear frames : ∀ fs p,
  linear fs → outcome_fold validate_epoch_frame frames (expected_position fs) = Ok p →
  Forall encodable frames →
  Forall (λ f, N.of_nat (length (Codec.encode_payload f)) <= MAX_FRAME_BYTES)%N frames →
  linear (fs ++ frames).
Proof.
  induction frames as [|f frames IH]; intros fs p Hlin Hv He Hs; [by rewrite app_nil_r|].
  cbn [outcome_fold] in Hv. apply outcome_bind_ok in Hv as (p1 & Hf & Hv).
  apply validate_frame_ok in Hf as [Hc ->].
  apply Forall_cons in He as [[Hwf Hops] He]. apply Forall_cons in Hs as [Hsz Hs].
  change (f :: frames) with ([f] ++ frames). rewrite (assoc_L (++)). eapply IH; [|done..]. by constructor.
Qed.

Lemma file_of_app fs frames : file_of (fs ++ frames) = file_of fs ++ concat (record_bytes <$> frames).
Proof.
  revert fs. induction frames as [|f frames IH]; intros fs; [simpl; by rewrite !app_nil_r|].
  change (f :: frames) with ([f] ++ frames). rewrite (assoc_L (++)), IH, file_of_snoc.
  rewrite fmap_app, concat_app. cbn [fmap list_fmap concat]. by rewrite app_nil_r, (assoc_L (++)).
Qed.

Lemma digest_records d records : foldl digest_extend d records = digest_extend d (concat records).
Proof.
  revert d. induction records as [|r records IH]; intros d; [done|]. cbn [foldl concat].
  rewrite IH. unfold digest_extend. by rewrite foldl_app.
Qed.

(** ** Repair *)

Lemma ep_io_ok {E A} (wrap : io_error → E) (call : I → outcome io_error A * I) s :
  ep_io wrap call s = (map_err wrap (call (fe_io s)).1, set_io (call (fe_io s)).2 s).
Proof. unfold ep_io. by destruct (call (fe_io s)). Qed.

(** A verification that finds the checkpoint's history passes. *)
Lemma verify_repaired_ok fs st (s : FileEpochStore I) :
  linear fs → check_chain fs = Ok st → u64_ok (N.of_nat (length (file_of fs))) →
  fe_frames s = fs → fe_prefix_digest s = digest (file_of fs) →
  verify_repaired (D := D) (P := P) (checkpoint (N.of_nat (length (file_of fs))) s) (file_of fs) = Ok tt.
Proof.
  intros Hlin Hst Hsz Hfs Hd. unfold verify_repaired, checkpoint. rewrite Hfs, Hd.
  destruct (expected_position fs) as [w v] eqn:Hp. cbv zeta. cbn [ck_prefix_digest ck_frame_count
    ck_world_id ck_world_version]. rewrite decide_False by tauto.
  pose proof (inspect_agree (file_of fs) Hsz) as Ha.
  pose proof (decode_file_of fs [] Hlin (or_introl eq_refl)) as Hdec. rewrite app_nil_r in Hdec.
  rewrite Hdec in Ha. destruct (inspect_file (file_of fs)) as [r|e|]; [|done..]. simpl in Ha. subst r.
  cbn [map_err outcome_bind]. rewrite decide_False by tauto. rewrite decide_False by tauto.
  rewrite Hp. rewrite decide_False by naive_solver.
  pose proof (reconstruct_ok (D := D) (P := P) fs) as Hr. rewrite Hst in Hr.
  destruct st as [[id version] n]. destruct Hr as (w' & -> & _). done.
Qed.

Lemma verify_repaired_not_panic ck bytes :
  u64_ok (N.of_nat (length bytes)) → verify_repaired (D := D) (P := P) ck bytes ≠ Panic.
Proof.
  intros Hsz. unfold verify_repaired. cbv zeta. case_decide; [done|].
  pose proof (inspect_agree bytes Hsz) as Ha. pose proof (decode_file_inv bytes) as Hi.
  destruct (inspect_file bytes) as [[fs n]|e|], (decode_file bytes) as [[fs' n']|e'|]; try done.
  cbn [map_err outcome_bind]. case_decide; [done|]. case_decide; [done|].
  destruct (expected_position fs). case_decide; [done|].
  pose proof (reconstruct_ok (D := D) (P := P) fs) as Hr.
  destruct (check_chain fs) as [[[? ?] ?]|?|]; [destruct Hr as (? & -> & _)|by rewrite Hr|]; done.
Qed.

Lemma repair_ok ck base s :
  good s → base `prefix_of` content s → ck_start_offset ck = N.of_nat (length base) →
  ∃ r s', repair (D := D) (P := P) ck s = (r, s') ∧ good s' ∧ same_logic s s' ∧ base `prefix_of` content s' ∧
    match r with
    | Ok _ => content s' = base
    | Err (_, reason) => (∃ e, reason = RepairIo e) ∨
        ∃ phase, verify_repaired (D := D) (P := P) ck base = Err (phase, reason)
    | Panic => False
    end.
Proof.
  intros Hg [rest Hc] Hck. unfold repair. rewrite Hck.
  assert (length base ≤ length (content s)) as Hle by (rewrite Hc, length_app; lia).
  pose proof (il_set_len (fe_io s) (N.of_nat (length base)) Hg) as HR1.
  rewrite Nat2N.id in HR1. specialize (HR1 Hle). unfold mbind at 1, ep_bind at 1. rewrite ep_io_ok.
  destruct (io_set_len _ _ _) as [[[]|e|] io1]; [| |by destruct HR1]; destruct HR1 as [G1 C1]; cbn [fst snd map_err].
  2: { do 2 eexists. split; [done|]. fold (content s) in C1. rewrite Hc, take_app_length in C1.
       split_and!; [done|by split|done|]. left. eauto. }
  fold (content s) in C1. rewrite Hc, take_app_length in C1.
  unfold mbind at 1, ep_bind at 1. cbn [ep_modify]. unfold mbind at 1, ep_bind at 1. rewrite ep_io_ok.
  cbn [set_metrics set_io fe_io].
  pose proof (il_sync io1 RepairSync G1 (or_intror eq_refl)) as HR2.
  destruct (io_sync_data RepairSync io1) as [[[]|e|] io2]; [| |by destruct HR2 as (_ & _ & [])];
    destruct HR2 as (G2 & C2 & _); cbn [fst snd map_err].
  2: { do 2 eexists. split; [done|]. assert (base `prefix_of` io_content io2) by (exists []; by rewrite app_nil_r, C2).
       split_and!; [done|by split|done|]. left. eauto. }
  unfold mbind at 1, ep_bind at 1. rewrite ep_io_ok. cbn [set_io fe_io].
  pose proof (il_len io2 VerifyLength G2 (or_intror eq_refl)) as HR3.
  destruct (io_len VerifyLength io2) as [[n|e|] io3]; [| |by destruct HR3 as (_ & _ & [] & _)];
    destruct HR3 as (G3 & C3 & _ & Hn); cbn [fst snd map_err].
  2: { do 2 eexists. split; [done|]. assert (base `prefix_of` io_content io3) by (exists []; by rewrite app_nil_r, C3, C2).
       split_and!; [done|by split|done|]. left. eauto. }
  rewrite (Hn n eq_refl), C2, C1, decide_False by tauto.
  unfold mbind at 1, ep_bind at 1. rewrite ep_io_ok. cbn [set_io fe_io].
  pose proof (il_read io3 G3) as HR4.
  destruct (io_read_all VerifyRead io3) as [[bs|e|] io4]; [| |by destruct HR4 as (_ & _ & [] & _)];
    destruct HR4 as (G4 & C4 & _ & Hbs); cbn [fst snd map_err];
    assert (base `prefix_of` io_content io4) as Hpre by (exists []; by rewrite app_nil_r, C4, C3, C2).
  2: { do 2 eexists. split; [done|]. split_and!; [done|by split|done|]. left. eauto. }
  assert (bs = base) as -> by (rewrite (Hbs bs eq_refl); congruence).
  do 2 eexists. split; [done|]. split_and!; [done|by split|done|].
  pose proof (il_size io4 G4) as Hsz. rewrite C4, C3, C2, C1 in Hsz.
  pose proof (verify_repaired_not_panic ck base Hsz).
  destruct (verify_repaired ck base) as [[]|[phase reason]|] eqn:Hv; [|right; by exists phase|done].
  change (io_content io4 = base). congruence.
Qed.
End store.

(** Ordinary files as an [EpochFileIo] (forthdb-world/src/file_epoch_store.rs):
    [StdEpochFileIo] (lines 123-169) over a byte string, and the fault-injecting
    [ScriptedIo] the tests wrap around it (lines 1074-1181).

    What the operating system does with a seek, a write or a truncation is
    written out on the byte string; a write that would make the file longer
    than a [u64] can say fails with EFBIG. *)

Definition EFBIG : N := 27.

(** [seek] and [write]: a gap past the end is filled with zeros. *)
Definition std_write_at (offset : nat) (bytes content : list u8) : outcome io_error nat * list u8 :=
  if (N.of_nat (length content + offset + length bytes) <? u64_modulus)%N
  then (Ok (length bytes),
        take offset content ++ replicate (offset - length content) x00 ++ bytes ++
        drop (offset + length bytes) content)
  else (Err (OsError EFBIG), content).

Definition std_set_len (len : nat) (content : list u8) : list u8 :=
  take len content ++ replicate (len - length content) x00.

Inductive FaultAction :=
| FaultFail (errno : N)
| WritePrefixThenFail (bytes : nat) (errno : N)
| ApplyThenFail (errno : N)
| ReportLength (len : N).

Record ScriptedIo := ScriptedIo_mk {
  si_content : list u8;
  si_rules : list (EpochIoPhase * FaultAction);
}.

(** [take]: the first rule of the phase, which is removed. *)
Fixpoint take_rule (phase : EpochIoPhase) (rules : list (EpochIoPhase * FaultAction)) :
    option FaultAction * list (EpochIoPhase * FaultAction) :=
  match rules with
  | [] => (None, [])
  | (p, action) :: rules =>
      if decide (p = phase) then (Some action, rules)
      else let '(found, rest) := take_rule phase rules in (found, (p, action) :: rest)
  end.

Definition scripted_len (phase : EpochIoPhase) (io : ScriptedIo) : outcome io_error N * ScriptedIo :=
  let '(action, rules) := take_rule phase (si_rules io) in
  let io := ScriptedIo_mk (si_content io) rules in
  match action with
  | Some (FaultFail errno) => (Err (OsError errno), io)
  | Some (ReportLength length) => (Ok length, io)
  | Some _ => (Panic, io)
  | None => (Ok (N.of_nat (length (si_content io))), io)
  end.

Definition scripted_write_at (phase : EpochIoPhase) (offset : N) (bytes : list u8) (io : ScriptedIo) :
    outcome io_error nat * ScriptedIo :=
  let '(action, rules) := take_rule phase (si_rules io) in
  let write bytes := std_write_at (N.to_nat offset) bytes (si_content io) in
  let then_fail errno (r : outcome io_error nat * list u8) :=
    (match r.1 with Err e => Err e | _ => Err (OsError errno) end, ScriptedIo_mk r.2 rules) in
  match action with
  | Some (FaultFail errno) => (Err (OsError errno), ScriptedIo_mk (si_content io) rules)
  | Some (WritePrefixThenFail count errno) =>
      if Nat.min count (length bytes) =? 0
      then (Err (OsError errno), ScriptedIo_mk (si_content io) rules)
      else then_fail errno (write (take count bytes))
  | Some (ApplyThenFail errno) => then_fail errno (write bytes)
  | Some (ReportLength _) => (Panic, ScriptedIo_mk (si_content io) rules)
  | None => let r := write bytes in (r.1, ScriptedIo_mk r.2 rules)
  end.

Definition scripted_sync_data (phase : EpochIoPhase) (io : ScriptedIo) :
    outcome io_error unit * ScriptedIo :=
  let '(action, rules) := take_rule phase (si_rules io) in
  let io := ScriptedIo_mk (si_content io) rules in
  match action with
  | Some (FaultFail errno) | Some (ApplyThenFail errno) => (Err (OsError errno), io)
  | Some _ => (Panic, io)
  | None => (Ok tt, io)
  end.

Definition scripted_set_len (phase : EpochIoPhase) (len : N) (io : ScriptedIo) :
    outcome io_error unit * ScriptedIo :=
  let '(action, rules) := take_rule phase (si_rules io) in
  let cut := ScriptedIo_mk (std_set_len (N.to_nat len) (si_content io)) rules in
  match action with
  | Some (FaultFail errno) => (Err (OsError errno), ScriptedIo_mk (si_content io) rules)
  | Some (ApplyThenFail errno) => (Err (OsError errno), cut)
  | Some _ => (Panic, ScriptedIo_mk (si_content io) rules)
  | None => (Ok tt, cut)
  end.

Definition scripted_read_all (phase : EpochIoPhase) (io : ScriptedIo) :
    outcome io_error (list u8) * ScriptedIo :=
  let '(action, rules) := take_rule phase (si_rules io) in
  let io := ScriptedIo_mk (si_content io) rules in
  match action with
  | Some (FaultFail errno) => (Err (OsError errno), io)
  | Some _ => (Panic, io)
  | None => (Ok (si_content io), io)
  end.

#[export] Instance scripted_io : EpochFileIo ScriptedIo := {
  persist_epoch _ _ io := (None, io);
  io_len := scripted_len;
  io_write_at := scripted_write_at;
  io_sync_data := scripted_sync_data;
  io_set_len := scripted_set_len;
  io_read_all := scripted_read_all;
}.

(** ** The documented behaviour *)

(** A rule that injects a failure its phase can have, rather than a panic of the
    harness or a lie about the length. *)
Definition rule_ok (rule : EpochIoPhase * FaultAction) : Prop :=
  match rule with
  | (_, FaultFail _) => True
  | (EpochWrite, WritePrefixThenFail _ _) | (EpochWrite, ApplyThenFail _) => True
  | (EpochSync, ApplyThenFail _) | (RepairSync, ApplyThenFail _) => True
  | (RepairTruncate, ApplyThenFail _) => True
  | _ => False
  end.

Lemma take_rule_ok phase rules :
  Forall rule_ok rules →
  Forall rule_ok (take_rule phase rules).2 ∧
  ∀ action, (take_rule phase rules).1 = Some action → rule_ok (phase, action).
Proof.
  induction 1 as [|[p a] rules Hr Hrs [IH1 IH2]]; [by split|]. cbn [take_rule].
  case_decide as Hp; [rewrite <- Hp; cbn [fst snd]; split; [done|]; by intros ? [= <-]|].
  destruct (take_rule phase rules) as [found rest]. cbn [fst snd] in *. split; [by constructor|done].
Qed.

Lemma std_write_overwrite offset bytes content :
  offset ≤ length content →
  match std_write_at offset bytes content with
  | (Ok n, content') => n = length bytes ∧ content' = overwrite content offset bytes ∧
      u64_ok (N.of_nat (length content'))
  | (Err _, content') => content' = content
  | (Panic, _) => False
  end.
Proof.
  intros Hle. unfold std_write_at. destruct (_ <? _)%N eqn:E; [|done]. apply N.ltb_lt in E.
  replace (offset - length content) with 0 by lia. cbn [replicate app]. split_and!; [done|done|].
  unfold overwrite, u64_ok. rewrite !length_app, length_take, length_drop. lia.
Qed.

Lemma overwrite_prefix content offset bytes :
  take offset content `prefix_of` overwrite content offset bytes.
Proof. by eexists. Qed.

Lemma std_set_len_take len content : len ≤ length content → std_set_len len content = take len content.
Proof. intros H. unfold std_set_len. replace (len - length content) with 0 by lia. apply app_nil_r. Qed.

(** The script of a call: the action of its phase, allowed by the rules. *)
Ltac scripted io phase Hrules :=
  destruct (take_rule_ok phase (si_rules io) Hrules) as [Hrest Haction];
  destruct (take_rule phase (si_rules io)) as [action rules]; cbn [fst snd] in Hrest, Haction;
  destruct action as [action|];
  [specialize (Haction action eq_refl); destruct action; cbn in Haction; try done|clear Haction].

#[export] Program Instance scripted_io_laws : EpochFileIoLaws ScriptedIo := {
  io_content := si_content;
  io_good io := Forall rule_ok (si_rules io) ∧ u64_ok (N.of_nat (length (si_content io)));
}.
Next Obligation. by intros io [_ ?]. Qed.
Next Obligation.
  intros io phase [Hrules Hsz] Hphase. unfold io_len, scripted_io, scripted_len. cbv zeta.
  destruct Hphase as [-> | ->]; [scripted io EpochStart Hrules|scripted io VerifyLength Hrules];
    split_and!; try done; by intros n [= <-].
Qed.
Next Obligation.
  intros io [Hrules Hsz]. unfold io_read_all, scripted_io, scripted_read_all. cbv zeta.
  scripted io VerifyRead Hrules; split_and!; try done; by intros n [= <-].
Qed.
Next Obligation.
  intros io phase [Hrules Hsz] Hphase. unfold io_sync_data, scripted_io, scripted_sync_data. cbv zeta.
  by destruct Hphase as [-> | ->]; [scripted io EpochSync Hrules|scripted io RepairSync Hrules].
Qed.
Next Obligation.
  intros io offset bytes [Hrules Hsz] Hoff. unfold io_write_at, scripted_io, scripted_write_at. cbv zeta.
  scripted io EpochWrite Hrules.
  - split; [done|]. by apply prefix_take.
  - destruct (_ =? 0); [split; [done|]; by apply prefix_take|].
    pose proof (std_write_overwrite (N.to_nat offset) (take bytes0 bytes) (si_content io) Hoff) as Hw.
    destruct (std_write_at _ _ _) as [[k|e|] c]; [| |done]; cbn [fst snd si_content si_rules].
    + destruct Hw as (_ & -> & Hok). split; [done|apply overwrite_prefix].
    + subst c. split; [done|by apply prefix_take].
  - pose proof (std_write_overwrite (N.to_nat offset) bytes (si_content io) Hoff) as Hw.
    destruct (std_write_at _ _ _) as [[k|e|] c]; [| |done]; cbn [fst snd si_content si_rules].
    + destruct Hw as (_ & -> & Hok). split; [done|apply overwrite_prefix].
    + subst c. split; [done|by apply prefix_take].
  - pose proof (std_write_overwrite (N.to_nat offset) bytes (si_content io) Hoff) as Hw.
    destruct (std_write_at _ _ _) as [[k|e|] c]; [| |done]; cbn [fst snd si_content si_rules].
    + destruct Hw as (-> & -> & Hok). split; [done|]. by rewrite firstn_all.
    + subst c. split; [done|by apply prefix_take].
Qed.
Next Obligation.
  intros io n [Hrules Hsz] Hn. unfold io_set_len, scripted_io, scripted_set_len. cbv zeta.
  rewrite std_set_len_take by done.
  assert (u64_ok (N.of_nat (length (take (N.to_nat n) (si_content io))))) as Hok.
  { unfold u64_ok in *. rewrite length_take. lia. }
  scripted io RepairTruncate Hrules; (split; [done|]); first [done|by apply prefix_take].
Qed.
Next Obligation. intros io offset records Hg _. done. Qed.
