(* ===== verification/EpochStoreProps.v ===== *)
(** The properties of the file epoch store: its reader is the file commit
    store's, an epoch is all or nothing, a healthy store's file is exactly its
    frames, a poisoned store is fenced, and writing terminates. *)
From Stdlib Require Import NArith Lia.
From Stdlib Require Import Strings.Byte.
From stdpp Require Import base gmap list strings option list_monad relations.
From S2P Require Import Prelude Ord Terms Bytes Query QueryFacts Spec Index Kernel LegacyDb Frames.
From S2P Require Import KernelProps VmProjection Worlds WorldFacts WorldProps Codec FileStore FileProps.
From S2P Require Import EpochCodec EpochStore EpochStoreFacts.

Section props.
Context {D P I : Type} `{KernelLaws D, MappedRootLaws P, EpochFileIoLaws I}.
Implicit Types (s : FileEpochStore I) (bytes : list u8).

#[local] Opaque Codec.encode_payload checksum digest le_N u64_bytes.

(** A store's file begins with its frames; a healthy store's holds nothing else. *)
Record epoch_ok s : Prop := {
  ek_good : good s;
  ek_kept : file_of (fe_frames s) `prefix_of` content s;
  ek_file : fe_state s = Healthy → content s = file_of (fe_frames s);
  ek_linear : linear (fe_frames s);
  ek_digest : fe_state s = Healthy → fe_prefix_digest s = digest (content s);
}.

Lemma ensure_healthy_ok s : fe_state s = Healthy → ensure_healthy s = Ok tt.
Proof. unfold ensure_healthy. by intros ->. Qed.

(** Errors before anything is written. *)
Definition early_error (e : FileEpochStoreError) : Prop :=
  match e with EpochFile _ | EpochIo _ _ => True | _ => False end.

Record prepared_ok s frames (p : PreparedFileEpoch) : Prop := {
  po_frames : pe_frames p = frames;
  po_records : pe_records p = record_bytes <$> frames;
  po_checkpoint : pe_checkpoint p = checkpoint (N.of_nat (length (content s))) s;
  po_linear : linear (fe_frames s) → Forall encodable frames → linear (fe_frames s ++ frames);
}.

Lemma prepare_ok frames s :
  good s → fe_state s = Healthy →
  ∃ r s', prepare_epoch frames s = (r, s') ∧ good s' ∧ same_logic s s' ∧ content s' = content s ∧
    match r with
    | Ok p => pe_frames p = frames ∧ (frames ≠ [] → prepared_ok s frames p)
    | Err e => early_error e
    | Panic => False
    end.
Proof.
  intros Hg Hh. unfold prepare_epoch.
  rewrite ep_bind_of, ensure_healthy_ok by done.
  destruct frames as [|f fs]; [do 2 eexists; split; [done|]; by split_and!|].
  remember (f :: fs) as frames eqn:Hfs. pose proof (validate_epoch_not_panic s frames) as Hvp.
  rewrite ep_bind_of. destruct (validate_epoch s frames) as [[]|e|] eqn:Hv; [| |done].
  2: { do 2 eexists. split; [done|].
       split_and!; [done..|]. clear Hvp. revert Hv. unfold validate_epoch.
       generalize (expected_position (fe_frames s)). clear Hfs. induction frames as [|g gs IH]; intros p; [done|].
       cbn [outcome_fold]. destruct (validate_epoch_frame p g) as [p'|e'|] eqn:Hf; [apply IH| |done].
       intros [= <-]. revert Hf. unfold validate_epoch_frame. destruct p.
       repeat (case_decide; [by intros [= <-]|]). destruct (u64_checked_add _ 1); [|by intros [= <-]].
       case_decide; [by intros [= <-]|done]. }
  pose proof (encode_records_ok frames) as He.
  rewrite ep_bind_of. destruct (encode_records frames) as [records|e|] eqn:Her; [| |done].
  2: { do 2 eexists. split; [done|].
       split_and!; [done..|]. clear -Her. revert e Her. induction frames as [|g gs IH]; intros e; [done|].
       cbn [encode_records]. destruct (encode_record g); cbn [map_err outcome_bind]; [|by intros [= <-]|done].
       destruct (encode_records gs); cbn [outcome_bind]; [done| |done]. intros [= <-]. by apply IH. }
  pose proof (il_len (fe_io s) EpochStart Hg (or_introl eq_refl)) as Hl. unfold mbind at 1, ep_bind at 1. rewrite ep_io_ok.
  destruct (io_len EpochStart (fe_io s)) as [[n|e|] io]; [| |by destruct Hl as (_ & _ & [] & _)];
    destruct Hl as (Hg' & Hc & _ & Hn); cbn [fst snd map_err].
  2: { do 2 eexists. split; [done|]. by split_and!. }
  erewrite ep_bind_Ok by done. do 2 eexists. split; [done|].
  split_and!; [done|by split|done|done|]. intros _. destruct He as [-> Hsz].
  specialize (Hn n eq_refl). fold (content s) in Hn. subst n. split; [done..|].
  intros Hlin Henc. unfold validate_epoch in Hv. apply outcome_bind_ok in Hv as (p & Hv & _).
  by eapply validate_linear.
Qed.

(** What an append leaves behind. *)
Definition append_outcome s frames (r : outcome FileEpochStoreError unit) s' : Prop :=
  match r with
  | Ok _ => fe_state s' = Healthy ∧ fe_frames s' = fe_frames s ++ frames ∧
      content s' = content s ++ concat (record_bytes <$> frames)
  | Err (RepairFailed _ _ _ reason) => fe_state s' = Poisoned ∧ fe_frames s' = fe_frames s ∧
      content s `prefix_of` content s' ∧ ((∃ st, check_chain (fe_frames s) = Ok st) → ∃ e, reason = RepairIo e)
  | Err _ => fe_state s' = Healthy ∧ fe_frames s' = fe_frames s ∧ content s' = content s
  | Panic => False
  end.

Lemma unchanged_ok s s' :
  epoch_ok s → good s' → same_logic s s' → content s' = content s → epoch_ok s'.
Proof.
  intros [] Hg [] Hc. split; [done|..]; rewrite ?Hc, ?sl_frames, ?sl_state, ?sl_digest; auto.
Qed.

(** Poisoned, with the frames it had. *)
Lemma poisoned_ok s s' : epoch_ok s → good s' → fe_frames s' = fe_frames s → content s `prefix_of` content s' →
  fe_state s' ≠ Healthy → epoch_ok s'.
Proof. intros [] Hg Hf Hc Hs. split; rewrite ?Hf; try done. by etrans. Qed.

(** A failed epoch is repaired or the store is poisoned. *)
Lemma failure_ok s s1 start phase source :
  epoch_ok s → fe_state s = Healthy → good s1 → same_logic s s1 → content s `prefix_of` content s1 →
  start = N.of_nat (length (content s)) →
  match handle_primary_failure (D := D) (P := P) (checkpoint start s) phase source s1 with
  | (Some e, s') => epoch_ok s' ∧ append_outcome s [] (Err e) s'
  | (None, _) => False
  end.
Proof.
  intros Hok Hh Hg [Hf _ Hst Hr Hd] Hp ->. unfold handle_primary_failure.
  destruct (repair_ok (D := D) (P := P) (checkpoint (N.of_nat (length (content s))) s) (content s)
    (set_state Repairing (fe_poison_reason s1) s1)) as (r & s' & -> & Hg' & [L1 L2 L3 L4 L5] & Hc);
    [done|done| |].
  { unfold checkpoint. by destruct (expected_position _). }
  destruct Hc as [Hpre Hc]. cbn [set_state fe_frames fe_prefix_digest] in L1, L5. destruct r as [[]|[ph reason]|]; [| |done].
  - assert (content (set_metrics (count_repair true) (set_state Healthy (fe_poison_reason s') s')) = content s)
      as Hc' by exact Hc.
    split; [|split_and!; [done|cbn; congruence|done]].
    destruct Hok. split; [done|..]; rewrite ?Hc'; cbn; rewrite ?L1, ?L5, ?Hf, ?Hd; auto.
  - split; [eapply (poisoned_ok s); [done|done|cbn; congruence|done|done]|].
    split_and!; [done|cbn; congruence|exact Hpre|]. intros [st Hchain]. destruct Hc as [?|[ph' Hv]]; [done|exfalso].
    rewrite (ek_file _ Hok Hh) in Hv.
    assert (u64_ok (N.of_nat (length (file_of (fe_frames s))))) as Hsz
      by (rewrite <- (ek_file _ Hok Hh); apply il_size, Hok).
    rewrite (verify_repaired_ok (fe_frames s) st) in Hv; [done|by apply Hok|done|done|done|].
    rewrite <- (ek_file _ Hok Hh). by apply (ek_digest _ Hok).
Qed.

Lemma append_ok s frames :
  epoch_ok s → fe_state s = Healthy → Forall encodable frames →
  match append_epoch (D := D) (P := P) frames s with
  | (r, s') => epoch_ok s' ∧ append_outcome s frames r s'
  end.
Proof.
  intros Hok Hh Henc. unfold append_epoch.
  destruct (prepare_ok frames s) as (r & s1 & E1 & Hg1 & Hl1 & Hc1 & Hr); [apply Hok|done|].
  pose proof (unchanged_ok _ _ Hok Hg1 Hl1 Hc1) as Hok1. pose proof Hl1 as [Hf1 _ Hs1 _ _].
  destruct r as [p|e|]; [| |done].
  2: { rewrite (ep_bind_Err _ _ _ _ _ E1). split; [done|].
       destruct e; try done; cbn; rewrite Hs1, Hf1, Hc1; done. }
  rewrite (ep_bind_Ok _ _ _ _ _ E1). destruct Hr as [Hpf Hp]. rewrite Hpf.
  destruct frames as [|f fs].
  { split; [done|]. cbn. by rewrite Hs1, Hf1, Hc1, !app_nil_r. }
  remember (f :: fs) as frames eqn:Hfs. destruct Hp as [P1 P2 P3 P4]; [by subst|].
  destruct (persist_ok p s1) as (result & s2 & -> & [W1 W2 W3]); [done| |].
  { rewrite P3, Hc1. unfold checkpoint. by destruct (expected_position _). }
  rewrite P2 in W3. unfold finish_prepared_epoch. rewrite P1, Hfs. cbv iota. rewrite <- Hfs.
  pose proof (transitivity Hl1 W2) as Hl2. pose proof Hl2 as [Hf2 _ Hs2 _ Hd2].
  rewrite Hc1 in W3. destruct result as [[]|[phase source]|]; [| |done].
  - set (s3 := FileEpochStore_mk _ _ _ _ _ _ _ _).
    assert (content s3 = content s ++ concat (record_bytes <$> frames)) as Hc3 by exact W3.
    assert (fe_frames s3 = fe_frames s ++ frames) as Hf3 by (cbn; congruence).
    assert (fe_state s3 = Healthy) as Hs3 by (cbn; congruence).
    split; [|by split_and!]. destruct Hok.
    assert (content s3 = file_of (fe_frames s3)) as Hc4 by (rewrite Hc3, Hf3, file_of_app; by rewrite ek_file0).
    split; [done|by exists []; rewrite app_nil_r|done|rewrite Hf3; auto|]; intros _.
    + rewrite Hc3, digest_app. cbn. by rewrite Hd2, P2, digest_records, ek_digest0.
  - rewrite P3. pose proof (failure_ok s s2 _ phase source Hok Hh W1 Hl2 W3 eq_refl) as Hfail.
    destruct (handle_primary_failure _ _ _ s2) as [[e|] s3]; [|done].
    destruct Hfail as [Ho Ha]. split; [done|]. destruct e; cbn in *; done.
Qed.
End props.

(** C30: An epoch is all or nothing.  Appended to a healthy store, an epoch of
    encodable frames is either acknowledged and the file then holds exactly the
    old frames and the new ones; or it fails, and either the store stays healthy
    with its frames and the file byte for byte as they were (rolled back, if
    anything had been written), or the store is poisoned and keeps its last
    frames, with all that the file held still at its beginning, which happens, on
    a valid history, only if a call of the repair itself failed.  The file behaves as documented but may fail any call and
    leave any part of a failed write behind. *)
Theorem epoch_all_or_nothing {D P I : Type} `{KernelLaws D, MappedRootLaws P, EpochFileIoLaws I}
    (s : FileEpochStore I) (frames : list CommitFrame) :
  epoch_ok s → fe_state s = Healthy → Forall encodable frames →
  let '(r, s') := append_epoch (D := D) (P := P) frames s in
  epoch_ok s' ∧
  match r with
  | Ok _ => fe_state s' = Healthy ∧ fe_frames s' = fe_frames s ++ frames ∧
      content s' = file_of (fe_frames s ++ frames)
  | Err (RepairFailed _ _ _ reason) => fe_state s' = Poisoned ∧ fe_frames s' = fe_frames s ∧
      content s `prefix_of` content s' ∧ ((∃ st, check_chain (fe_frames s) = Ok st) → ∃ e, reason = RepairIo e)
  | Err _ => fe_state s' = Healthy ∧ fe_frames s' = fe_frames s ∧ content s' = content s
  | Panic => False
  end.
Proof.
  intros Hok Hh Henc. pose proof (append_ok (D := D) (P := P) s frames Hok Hh Henc) as Ha.
  destruct (append_epoch frames s) as [r s']. destruct Ha as [Hok' Ha]. split; [done|].
  destruct r as [[]|[]|]; try done. destruct Ha as (H1' & H2' & H3'). split_and!; [done..|].
  rewrite <- H2'. by apply Hok'.
Qed.

Section sample.

(** An empty store over a scripted file. *)
Definition scripted_store (policy : FileEpochSyncPolicy) (rules : list (EpochIoPhase * FaultAction)) :
    FileEpochStore ScriptedIo :=
  FileEpochStore_mk (ScriptedIo_mk (file_of []) rules) [] policy Healthy None (digest (file_of [])) 0
    metrics_default.

Lemma scripted_store_ok policy rules : Forall rule_ok rules → epoch_ok (scripted_store policy rules).
Proof. intros Hr. split; [by split|done|done|constructor|done]. Qed.

Lemma sample_encodable : Forall encodable [sample_frame].
Proof. constructor; [|constructor]. destruct sample_storable as [(? & ? & _) _]. by split. Qed.

(** The write tears, the repair succeeds; the next epoch gets through. *)
Definition torn_rules : list (EpochIoPhase * FaultAction) :=
  [(EpochWrite, WritePrefixThenFail 30 28); (RepairSync, ApplyThenFail 5)].
End sample.

Lemma epoch_all_or_nothing_witness :
  let '(r, s') := append_epoch (D := LegacyDb.ForthDb) (P := Empty_set) [sample_frame]
    (scripted_store PerEpoch torn_rules) in
  epoch_ok s' ∧
  match r with
  | Ok _ => fe_state s' = Healthy ∧ fe_frames s' = [] ++ [sample_frame] ∧
      content s' = file_of ([] ++ [sample_frame])
  | Err (RepairFailed _ _ _ reason) => fe_state s' = Poisoned ∧ fe_frames s' = [] ∧
      content (scripted_store PerEpoch torn_rules) `prefix_of` content s' ∧
      ((∃ st, check_chain [] = Ok st) → ∃ e, reason = RepairIo e)
  | Err _ => fe_state s' = Healthy ∧ fe_frames s' = [] ∧
      content s' = content (scripted_store PerEpoch torn_rules)
  | Panic => False
  end.
Proof.
  apply (epoch_all_or_nothing (scripted_store PerEpoch torn_rules) [sample_frame]).
  - apply scripted_store_ok. repeat constructor.
  - reflexivity.
  - apply sample_encodable.
Defined.

(** ** Histories of a store *)

Section steps.
Context {D P I : Type} `{KernelLaws D, MappedRootLaws P, EpochFileIoLaws I}.
Implicit Types (s : FileEpochStore I).

(** What can happen to a store. *)
Inductive epoch_step : FileEpochStore I → FileEpochStore I → Prop :=
| step_append s frames : Forall encodable frames →
    epoch_step s (append_epoch (D := D) (P := P) frames s).2
| step_physical_frames s : epoch_step s (physical_frames s).2
| step_file_len s : epoch_step s (epoch_file_len s).2
| step_poison s reason : epoch_step s (poison_external reason s).

Lemma fenced s A (m : ep I FileEpochStoreError A) :
  fe_state s ≠ Healthy →
  ∃ reason, (_ ← ep_of ensure_healthy; m) s = (Err (StorePoisoned reason), s).
Proof.
  intros Hs. unfold mbind, ep_bind, ep_of, ensure_healthy. destruct (fe_state s); [done|by eexists..].
Qed.

Lemma append_fenced s frames :
  fe_state s ≠ Healthy →
  ∃ reason, append_epoch (D := D) (P := P) frames s = (Err (StorePoisoned reason), s).
Proof.
  intros Hs. assert (∃ reason, prepare_epoch frames s = (Err (StorePoisoned reason), s)) as [reason Hr].
  { unfold prepare_epoch. by apply fenced. }
  exists reason. unfold append_epoch. by rewrite (ep_bind_Err _ _ _ _ _ Hr).
Qed.

(** Reading the length or the frames of a healthy store. *)
Lemma read_logic s :
  good s → fe_state s = Healthy →
  (∃ r s', epoch_file_len s = (r, s') ∧ good s' ∧ same_logic s s' ∧ content s' = content s) ∧
  (∃ r s', physical_frames s = (r, s') ∧ good s' ∧ same_logic s s' ∧ content s' = content s ∧
    ∀ fs, r = Ok fs → ∃ n, inspect_file (content s) = Ok (fs, n) ∧ n = length (content s)).
Proof.
  intros Hg Hs. unfold epoch_file_len, physical_frames. rewrite !ep_bind_of, !ensure_healthy_ok by done. split.
  - pose proof (il_len (fe_io s) VerifyLength Hg (or_intror eq_refl)) as Hl. rewrite ep_io_ok.
    destruct (io_len _ _) as [r io]. destruct Hl as (Hg' & Hc & _ & _). do 2 eexists. split; [done|].
    split_and!; [done|by split|done].
  - pose proof (il_read (fe_io s) Hg) as Hr. unfold mbind, ep_bind. rewrite ep_io_ok.
    destruct (io_read_all _ _) as [[bytes|e|] io]; destruct Hr as (Hg' & Hc & _ & Hb);
      cbn [fst snd map_err]; [|do 2 eexists; split; [done|]; by split_and!..].
    rewrite (Hb bytes eq_refl). unfold ep_of. do 2 eexists. split; [done|].
    split_and!; [done|by split|done|]. intros fs. fold (content s).
    destruct (inspect_file (content s)) as [[fs' n]|e|]; [|done..]. cbn [map_err outcome_bind].
    rewrite decide_neq. case_decide as Hn; [|done]. intros [= <-]. by exists n.
Qed.

(** Steps keep the file and the frames together, never lose a frame, and never
    leave the poisoned state. *)
Record evolves s s' : Prop := {
  ev_frames : fe_frames s `prefix_of` fe_frames s';
  ev_poisoned : fe_state s = Poisoned → fe_state s' = Poisoned ∧ fe_frames s' = fe_frames s;
  ev_settled : fe_state s ≠ Repairing → fe_state s' ≠ Repairing;
}.

#[export] Instance evolves_preorder : PreOrder evolves.
Proof.
  split; [by intros s; split|]. intros s1 s2 s3 [A1 A2 A3] [B1 B2 B3]. split; [by etrans| |auto].
  intros Hs. destruct (A2 Hs) as [Hs2 Hf2], (B2 Hs2) as [Hs3 Hf3]. split; congruence.
Qed.

Lemma same_logic_evolves s s' : same_logic s s' → evolves s s'.
Proof. intros [Hf _ Hs _ _]. split; rewrite ?Hf, ?Hs; auto. Qed.

Lemma step_ok s s' : epoch_step s s' → epoch_ok s → epoch_ok s' ∧ evolves s s'.
Proof.
  assert (∀ s, fe_state s = Healthy ∨ fe_state s ≠ Healthy) as Hcases
    by (intros s0; destruct (fe_state s0); auto).
  intros Hstep Hok. destruct Hstep as [s frames Henc|s|s|s reason].
  - destruct (Hcases s) as [Hs|Hs].
    + pose proof (append_ok (D := D) (P := P) s frames Hok Hs Henc) as Ha.
      destruct (append_epoch frames s) as [r s']. destruct Ha as [Hok' Ha]. split; [done|].
      assert (fe_state s ≠ Poisoned) by congruence.
      destruct r as [[]|[]|]; cbn in Ha; [| | | | | | |done];
        destruct Ha as (HA & HB & _); (split; cbn [snd]; rewrite ?HB, ?HA; [first [done|by eexists]|congruence|congruence]).
    + destruct (append_fenced s frames Hs) as [reason ->]. split; [done|]. cbn. reflexivity.
  - destruct (Hcases s) as [Hs|Hs].
    + destruct (read_logic s) as [_ (r & s' & -> & Hg & Hl & Hc & _)]; [apply Hok|done|].
      split; [by eapply unchanged_ok|by apply same_logic_evolves].
    + unfold physical_frames. edestruct (fenced s) as [reason ->]; [done|]. split; [done|]. cbn. reflexivity.
  - destruct (Hcases s) as [Hs|Hs].
    + destruct (read_logic s) as [(r & s' & -> & Hg & Hl & Hc) _]; [apply Hok|done|].
      split; [by eapply unchanged_ok|by apply same_logic_evolves].
    + unfold epoch_file_len. edestruct (fenced s) as [reason ->]; [done|]. split; [done|]. cbn. reflexivity.
  - split; [by apply (poisoned_ok s); [|apply Hok|..]|]. by split.
Qed.

Lemma steps_ok s s' : rtc epoch_step s s' → epoch_ok s → epoch_ok s' ∧ evolves s s'.
Proof.
  induction 1 as [s|s1 s2 s3 Hstep _ IH]; intros Hok; [by split|].
  destruct (step_ok _ _ Hstep Hok) as [Hok2 He]. destruct (IH Hok2) as [Hok3 He3].
  split; [done|by etrans].
Qed.
End steps.

(** C31: A healthy store is its file.  Whatever epochs, reads and external
    poisonings a store goes through, on a file that may fail at any call, no
    acknowledged frame is ever lost from the store, no operation leaves it in
    the repairing state, a poisoned store stays poisoned with its frames, and
    while it is healthy its file is byte for byte the encoding of its frames, so
    that reading the physical frames back gives the logical ones. *)
Theorem healthy_store_is_its_file {D P I : Type} `{KernelLaws D, MappedRootLaws P, EpochFileIoLaws I}
    (s s' : FileEpochStore I) :
  epoch_ok s → fe_state s = Healthy → rtc (epoch_step (D := D) (P := P)) s s' →
  fe_frames s `prefix_of` fe_frames s' ∧ fe_state s' ≠ Repairing ∧
  (fe_state s' = Healthy → content s' = file_of (fe_frames s') ∧
     ∀ fs s'', physical_frames s' = (Ok fs, s'') → fs = fe_frames s') ∧
  (fe_state s' = Poisoned → ∀ s'', rtc (epoch_step (D := D) (P := P)) s' s'' →
     fe_state s'' = Poisoned ∧ fe_frames s'' = fe_frames s').
Proof.
  intros Hok Hs Hsteps. destruct (steps_ok _ _ Hsteps Hok) as [Hok' [E1 _ E3]].
  split_and!; [done|apply E3; congruence| |].
  - intros Hs'. split; [by apply Hok'|]. intros fs s'' Hp.
    destruct (read_logic s') as [_ (r & s1 & Hr & _ & _ & _ & Hfs)]; [apply Hok'|done|].
    rewrite Hr in Hp. injection Hp as -> <-. destruct (Hfs fs eq_refl) as (n & Hi & Hn).
    pose proof (inspect_agree (content s') (il_size _ (ek_good _ Hok'))) as Ha. rewrite Hi in Ha.
    pose proof (decode_file_of (fe_frames s') [] (ek_linear _ Hok') (or_introl eq_refl)) as Hdec.
    rewrite app_nil_r in Hdec. rewrite (ek_file _ Hok' Hs'), Hdec in Ha. simpl in Ha. by injection Ha.
  - intros Hp s'' Hsteps'. destruct (steps_ok _ _ Hsteps' Hok') as [_ [_ E2 _]]. by apply E2.
Qed.

Lemma healthy_store_is_its_file_witness :
  let s := scripted_store PerFrame torn_rules in
  let s' := (append_epoch (D := LegacyDb.ForthDb) (P := Empty_set) [sample_frame] s).2 in
  fe_frames s `prefix_of` fe_frames s' ∧ fe_state s' ≠ Repairing ∧
  (fe_state s' = Healthy → content s' = file_of (fe_frames s') ∧
     ∀ fs s'', physical_frames s' = (Ok fs, s'') → fs = fe_frames s') ∧
  (fe_state s' = Poisoned →
     ∀ s'', rtc (epoch_step (D := LegacyDb.ForthDb) (P := Empty_set)) s' s'' →
     fe_state s'' = Poisoned ∧ fe_frames s'' = fe_frames s').
Proof.
  apply (healthy_store_is_its_file (D := LegacyDb.ForthDb) (P := Empty_set)
    (scripted_store PerFrame torn_rules)).
  - apply scripted_store_ok. repeat constructor.
  - reflexivity.
  - apply rtc_once, step_append, sample_encodable.
Defined.

(** A poisoned store is fenced.  Over any file at all, once a store is
    poisoned or found in the middle of a repair, appending an epoch, asking for
    the file's length and reading the physical frames are refused with the
    reason, without a call of the file or any change. *)
Theorem poisoned_store_is_fenced {D P I : Type} `{Kernel D, MappedRoot P, EpochFileIo I}
    (s : FileEpochStore I) :
  fe_state s ≠ Healthy →
  ∃ reason, (∀ frames, append_epoch (D := D) (P := P) frames s = (Err (StorePoisoned reason), s)) ∧
    epoch_file_len s = (Err (StorePoisoned reason), s) ∧
    physical_frames s = (Err (StorePoisoned reason), s).
Proof.
  intros Hs. exists (match fe_state s with
    | Repairing => StillRepairing | _ => default RepairUnverified (fe_poison_reason s) end).
  unfold append_epoch, prepare_epoch, epoch_file_len, physical_frames, mbind, ep_bind, ep_of,
    ensure_healthy.
  by destruct (fe_state s).
Qed.

Lemma poisoned_store_is_fenced_witness :
  let s := poison_external "writer lost" (scripted_store PerEpoch []) in
  ∃ reason,
    (∀ frames, append_epoch (D := LegacyDb.ForthDb) (P := Empty_set) frames s =
       (Err (StorePoisoned reason), s)) ∧
    epoch_file_len s = (Err (StorePoisoned reason), s) ∧
    physical_frames s = (Err (StorePoisoned reason), s).
Proof.
  apply (poisoned_store_is_fenced (poison_external "writer lost" (scripted_store PerEpoch []))).
  discriminate.
Defined.

Lemma u64_add_add a b c : u64_add (u64_add a b) c = u64_add a (b + c).
Proof. unfold u64_add, u64_wrap. by rewrite N.Div0.add_mod_idemp_l, N.add_assoc. Qed.

Lemma u64_wrap_add a : u64_wrap a = u64_add a 0.
Proof. unfold u64_add. by rewrite N.add_0_r. Qed.

(** How the loop ends: the outcome, the number of calls and the counters. *)
Record loop_ends {I : Type} `{EpochFileIo I} (s : FileEpochStore I) (offset : N) (bytes : list u8)
    (r : outcome (EpochIoPhase * io_error) unit) (s' : FileEpochStore I) (calls : nat) : Prop := {
  le_loop fuel : length bytes ≤ fuel → write_loop fuel offset bytes s = Some (r, s');
  le_calls : calls ≤ length bytes;
  le_writes : u64_wrap (data_writes (fe_metrics s')) =
    u64_add (data_writes (fe_metrics s)) (N.of_nat calls);
  le_bytes : r = Ok tt → u64_wrap (bytes_written (fe_metrics s')) =
    u64_add (bytes_written (fe_metrics s)) (N.of_nat (length bytes));
}.

Section termination.
Context {I : Type} `{EpochFileIo I}.
Implicit Types (s : FileEpochStore I).

(** The store when a write returns. *)
Definition called s (io : I) : FileEpochStore I := set_io io (set_metrics (count_io 1 0 0 0) s).
Definition advanced s (io : I) (written : nat) : FileEpochStore I :=
  set_metrics (count_io 0 0 0 (N.of_nat written)) (called s io).

Lemma write_loop_step s offset bytes r io fuel :
  bytes ≠ [] → io_write_at EpochWrite offset bytes (fe_io s) = (r, io) →
  write_loop (S fuel) offset bytes s = match r with
  | Ok 0 => Some (Err (EpochWrite, WriteZero), called s io)
  | Ok written =>
      if length bytes <? written then Some (Panic, advanced s io written)
      else write_loop fuel (u64_add offset (N.of_nat written)) (drop written bytes) (advanced s io written)
  | Err source => Some (Err (EpochWrite, source), called s io)
  | Panic => Some (Panic, called s io)
  end.
Proof.
  intros Hne Hio. destruct bytes as [|b bytes]; [done|]. cbn [write_loop set_metrics fe_io].
  rewrite Hio. by destruct r as [[|w]|e|].
Qed.

Lemma loop_ends_nil s offset : loop_ends s offset [] (Ok tt) s 0.
Proof. split; [by intros [|fuel] _|done|apply u64_wrap_add|intros _; apply u64_wrap_add]. Qed.

(** A call after which the loop stops. *)
Lemma loop_ends_call s offset bytes r s' :
  bytes ≠ [] → (∀ fuel, write_loop (S fuel) offset bytes s = Some (r, s')) → r ≠ Ok tt →
  u64_wrap (data_writes (fe_metrics s')) = u64_add (data_writes (fe_metrics s)) 1 →
  loop_ends s offset bytes r s' 1.
Proof.
  intros Hne Hr Hok Hw. split; [|destruct bytes; [done|cbn; lia]|done|done].
  intros [|fuel] Hl; [destruct bytes; [done|cbn in Hl; lia]|done].
Qed.

Lemma write_loop_ends n : ∀ bytes offset s,
  length bytes ≤ n → ∃ r s' calls, loop_ends s offset bytes r s' calls.
Proof.
  induction n as [|n IH]; intros bytes offset s Hn; (destruct (decide (bytes = [])) as [->|Hne];
    [do 3 eexists; apply loop_ends_nil|]); [destruct bytes; [done|cbn in Hn; lia]|].
  destruct (io_write_at EpochWrite offset bytes (fe_io s)) as [r io] eqn:Hio.
  pose proof (λ fuel, write_loop_step s offset bytes r io fuel Hne Hio) as Hstep.
  destruct r as [[|w]|e|]; [| |do 3 eexists; apply loop_ends_call; [done|exact Hstep|done|]..];
    [do 3 eexists; apply loop_ends_call; [done|exact Hstep|done|]| | |];
    try (cbn; by rewrite u64_wrap_add, u64_add_add).
  destruct (length bytes <? S w) eqn:E.
  { do 3 eexists. apply loop_ends_call; [done|exact Hstep|done|]. cbn. by rewrite u64_wrap_add, !u64_add_add. }
  apply Nat.ltb_ge in E.
  destruct (IH (drop (S w) bytes) (u64_add offset (N.of_nat (S w))) (advanced s io (S w)))
    as (r & s' & calls & [Hr Hc Hw Hb]); [rewrite length_drop; lia|].
  rewrite length_drop in Hr, Hc, Hb. exists r, s', (S calls). split; [|lia| |].
  - intros [|fuel] Hl; [lia|]. rewrite Hstep. apply Hr. lia.
  - rewrite Hw. cbn. rewrite !u64_add_add. f_equal. lia.
  - intros Hok. rewrite (Hb Hok). cbn. rewrite !u64_add_add. f_equal. lia.
Qed.
End termination.

(** C33: Writing a buffer terminates.  Whatever the file answers, the write loop
    ends after at most one call per byte of the buffer, so that any fuel from
    the buffer's length on gives the same outcome; the counter of writes
    advances by the number of calls, and when the loop succeeds the counter of
    bytes advances by the length of the buffer. *)
Theorem write_loop_terminates {I : Type} `{EpochFileIo I} (s : FileEpochStore I) fuel offset bytes :
  length bytes ≤ fuel →
  ∃ r s' calls, write_loop fuel offset bytes s = Some (r, s') ∧
    write_all_at offset bytes s = (r, s') ∧ calls ≤ length bytes ∧
    u64_wrap (data_writes (fe_metrics s')) =
      u64_add (data_writes (fe_metrics s)) (N.of_nat calls) ∧
    (r = Ok tt → u64_wrap (bytes_written (fe_metrics s')) =
      u64_add (bytes_written (fe_metrics s)) (N.of_nat (length bytes))).
Proof.
  intros Hf. destruct (write_loop_ends (length bytes) bytes offset s) as (r & s' & calls & [Hr Hc Hw Hb]);
    [done|]. exists r, s', calls. unfold write_all_at. by rewrite !Hr.
Qed.

Lemma write_loop_terminates_witness :
  let s := scripted_store PerEpoch torn_rules in
  ∃ r s' calls, write_loop 5 40 [x01; x02] s = Some (r, s') ∧
    write_all_at 40 [x01; x02] s = (r, s') ∧ calls ≤ 2 ∧
    u64_wrap (data_writes (fe_metrics s')) =
      u64_add (data_writes (fe_metrics s)) (N.of_nat calls) ∧
    (r = Ok tt → u64_wrap (bytes_written (fe_metrics s')) =
      u64_add (bytes_written (fe_metrics s)) (N.of_nat 2)).
Proof. apply (write_loop_terminates (scripted_store PerEpoch torn_rules) 5 40 [x01; x02]). cbn. lia. Defined.

(** ** Opening *)

Section open.
Context {D P I : Type} `{KernelLaws D, MappedRootLaws P, EpochFileIoLaws I}.

#[local] Opaque Codec.encode_payload checksum digest le_N u64_bytes.

Lemma open_store_ok bytes :
  u64_ok (N.of_nat (length bytes)) →
  match open_store (D := D) (P := P) bytes with
  | (Ok cold, kept) => linear (file_frames cold) ∧ kept = file_of (file_frames cold) ∧
      u64_ok (N.of_nat (length kept)) ∧ ∃ st, check_chain (file_frames cold) = Ok st
  | (Err _, _) => True
  | (Panic, _) => False
  end.
Proof.
  intros Hsz. unfold open_store. cbv zeta.
  set (all := if length bytes =? 0 then file_header else bytes).
  assert (u64_ok (N.of_nat (length all))) as Hall by (subst all; by destruct (_ =? 0)).
  clearbody all. pose proof (decode_file_inv all) as Hinv.
  destruct (decode_file all) as [[fs n]|e|]; [|done..]. destruct Hinv as (Hlin & Hn & Htake).
  assert ((if (N.of_nat (length all - n) =? 0)%N then all else take n all) = file_of fs) as ->.
  { destruct (N.eqb_spec (N.of_nat (length all - n)) 0); [|done]. rewrite <- Htake, take_ge; [done|lia]. }
  pose proof (reconstruct_ok (D := D) (P := P) fs) as Hr.
  destruct (check_chain fs) as [[[id v] x]|e|] eqn:Hchain; [|by rewrite Hr|done].
  destruct Hr as (w & -> & _). cbn [map_err outcome_bind file_frames]. split_and!; [done..| |by eexists].
  rewrite <- Htake, length_take. unfold u64_ok in *. lia.
Qed.

(** A file that holds a valid history opens. *)
Lemma from_io_ok (io : I) policy fs st :
  io_good io → io_content io = file_of fs → linear fs → check_chain fs = Ok st →
  let '(r, io') := from_io (D := D) (P := P) io policy in
  match (io_read_all VerifyRead io).1 with
  | Ok _ => ∃ s, r = Ok s ∧ epoch_ok s ∧ fe_state s = Healthy ∧ fe_frames s = fs ∧ content s = file_of fs
  | _ => True
  end.
Proof.
  intros Hg Hc Hlin Hst. unfold from_io. pose proof (il_read io Hg) as Hr.
  destruct (io_read_all VerifyRead io) as [[bytes|e|] io']; cbn [fst]; [|done..].
  destruct Hr as (Hg' & Hc' & _ & Hb). rewrite (Hb bytes eq_refl), Hc. cbn [map_err outcome_bind].
  pose proof (inspect_agree (file_of fs) ltac:(rewrite <- Hc; by apply il_size)) as Ha.
  pose proof (decode_file_of fs [] Hlin (or_introl eq_refl)) as Hdec. rewrite app_nil_r in Hdec.
  rewrite Hdec in Ha. destruct (inspect_file (file_of fs)) as [r|e|]; [|done..]. simpl in Ha. subst r.
  cbn [map_err outcome_bind fst snd]. rewrite decide_False by tauto.
  pose proof (reconstruct_ok (D := D) (P := P) fs) as Hrec. rewrite Hst in Hrec. destruct st as [[id v] x].
  destruct Hrec as (w & -> & _). cbn [map_err outcome_bind].
  assert (io_content io' = file_of fs) as Hcio by congruence.
  eexists. split; [done|]. split; [|done].
  split; [done|exists []; by rewrite app_nil_r|done|done|intros _].
  unfold content. cbn [fe_io fe_prefix_digest]. by rewrite Hcio.
Qed.
End open.

(** C32: The two readers agree.  On every byte string of at most 2^64 - 1 bytes
    the epoch store's copy of the format accepts what the file commit store
    accepts, with the same frames and the same last good offset, and refuses
    the rest with the same class of error at the same offset; its encoder
    produces the same records.  Hence opening an epoch store succeeds exactly
    when the file commit store opens, with its frames, its recovered tail and a
    file that is the encoding of the frames. *)
Theorem epoch_open_agrees {D P I : Type} `{KernelLaws D, MappedRootLaws P, EpochFileIoLaws I}
    (bytes : list u8) (open_file : list u8 → outcome io_error I) policy :
  u64_ok (N.of_nat (length bytes)) →
  (∀ kept, u64_ok (N.of_nat (length kept)) → ∃ io, open_file kept = Ok io ∧ io_good io ∧
     io_content io = kept ∧ (io_read_all VerifyRead io).1 = Ok kept) →
  outcomes_agree same_error eq (inspect_file bytes) (decode_file bytes) ∧
  (∀ f, outcomes_agree same_error eq (EpochCodec.encode_record f) (FileStore.encode_record f)) ∧
  match open_store (D := D) (P := P) bytes with
  | (Ok cold, kept) => ∃ s, epoch_open (D := D) (P := P) open_file bytes policy = Ok s ∧
      epoch_ok s ∧ fe_state s = Healthy ∧ fe_frames s = file_frames cold ∧ content s = kept ∧
      fe_recovered_tail_bytes s = recovered_tail_bytes cold
  | (Err e, _) => epoch_open (D := D) (P := P) open_file bytes policy = Err (EpochFile (ColdOpen e))
  | (Panic, _) => False
  end.
Proof.
  intros Hsz Hopen. split_and!; [by apply inspect_agree| |].
  { intros f. unfold EpochCodec.encode_record, FileStore.encode_record. rewrite encode_payload_same. cbv zeta.
    destruct (_ <? _)%N; [done|]. cbn. by rewrite digest_checksum. }
  pose proof (open_store_ok (D := D) (P := P) bytes Hsz) as Ho. unfold epoch_open.
  destruct (open_store bytes) as [[cold|e|] kept]; [|done|done]. destruct Ho as (Hlin & -> & Hk & st & Hst).
  destruct (Hopen _ Hk) as (io & -> & Hg & Hc & Hr). cbn [map_err outcome_bind].
  pose proof (from_io_ok (D := D) (P := P) io policy _ st Hg Hc Hlin Hst) as Hf.
  destruct (from_io io policy) as [r io']. cbn [fst]. rewrite Hr in Hf.
  destruct Hf as (s & -> & [F1 F2 F3 F4] & Hs & Hfr & Hcs). cbn [outcome_bind].
  eexists. split; [done|]. split_and!; [by split|done..].
Qed.

Lemma epoch_open_agrees_witness :
  outcomes_agree same_error eq (inspect_file (file_of [sample_frame])) (decode_file (file_of [sample_frame])) ∧
  (∀ f, outcomes_agree same_error eq (EpochCodec.encode_record f) (FileStore.encode_record f)) ∧
  match open_store (D := LegacyDb.ForthDb) (P := Empty_set) (file_of [sample_frame]) with
  | (Ok cold, kept) => ∃ s : FileEpochStore ScriptedIo,
      epoch_open (D := LegacyDb.ForthDb) (P := Empty_set) (λ kept, Ok (ScriptedIo_mk kept []))
        (file_of [sample_frame]) PerEpoch = Ok s ∧
      epoch_ok s ∧ fe_state s = Healthy ∧ fe_frames s = file_frames cold ∧ content s = kept ∧
      fe_recovered_tail_bytes s = recovered_tail_bytes cold
  | (Err e, _) =>
      epoch_open (I := ScriptedIo) (D := LegacyDb.ForthDb) (P := Empty_set)
        (λ kept, Ok (ScriptedIo_mk kept [])) (file_of [sample_frame]) PerEpoch =
      Err (EpochFile (ColdOpen e))
  | (Panic, _) => False
  end.
Proof.
  apply (epoch_open_agrees (file_of [sample_frame]) (λ kept, Ok (ScriptedIo_mk kept [])) PerEpoch).
  - by vm_compute.
  - intros kept Hk. exists (ScriptedIo_mk kept []). by split_and!.
Defined.
