(* ===== verification/StackVm.v ===== *)
(** The semantic stack VM (forthdb-world/src/stack_vm.rs): instructions, arenas
    that are only rolled back by moving a frontier, the epoch workspace and the
    execution of intents as trials, published roots, index deltas, compacted
    bases and layered snapshots.

    [Cell] and [SlotToken] are transparent wrappers around a [u64] and a [u32]
    and are modelled by the integer itself; a [None] or [Panic] is a panic of
    the code (a failed [assert!], an index or slice out of range). *)
From Stdlib Require Import NArith ZArith Lia.
From Stdlib Require Import Strings.Byte.
From stdpp Require Import sorting base option list strings list_monad.
From S2P Require Import Prelude Ord Bytes.

Abbreviation Cell := N (only parsing).
Abbreviation SlotToken := N (only parsing).

(** [u32::MAX]. *)
Definition NONE : N := 0xFFFFFFFF.

(** [n as u32]. *)
Definition as_u32 (n : nat) : N := (N.of_nat n mod u32_modulus)%N.

Inductive Opcode :=
| ExpectObject
| Allocate
| AllocateDiscard
| LoadLocal
| StoreLocal
| PushCell
| VmDefine
| VmForget
| Reject.

#[export] Instance Opcode_eq_dec : EqDecision Opcode.
Proof. solve_decision. Defined.

(** [self.opcode as u8]. *)
Definition opcode_u8 (o : Opcode) : N :=
  match o with
  | ExpectObject => 0
  | Allocate => 1
  | AllocateDiscard => 2
  | LoadLocal => 3
  | StoreLocal => 4
  | PushCell => 5
  | VmDefine => 6
  | VmForget => 7
  | Reject => 8
  end.

Definition opcode_from_u8 (value : N) : option Opcode :=
  match value with
  | 0 => Some ExpectObject
  | 1 => Some Allocate
  | 2 => Some AllocateDiscard
  | 3 => Some LoadLocal
  | 4 => Some StoreLocal
  | 5 => Some PushCell
  | 6 => Some VmDefine
  | 7 => Some VmForget
  | 8 => Some Reject
  | _ => None
  end%N.

(** [Instruction::raw] builds any of them. *)
Record Instruction := Instruction_raw {
  opcode : Opcode;
  argument : N;
  immediate : N;
}.

#[export] Instance Instruction_eq_dec : EqDecision Instruction.
Proof. solve_decision. Defined.

Definition i_expect_object (slot : SlotToken) (expected : Cell) : Instruction :=
  Instruction_raw ExpectObject slot expected.
Definition i_allocate : Instruction := Instruction_raw Allocate 0 0.
Definition i_allocate_discard : Instruction := Instruction_raw AllocateDiscard 0 0.
Definition i_load_local (local : N) : Instruction := Instruction_raw LoadLocal local 0.
Definition i_store_local (local : N) : Instruction := Instruction_raw StoreLocal local 0.
Definition i_push (cell : Cell) : Instruction := Instruction_raw PushCell 0 cell.
Definition i_define (slot : SlotToken) : Instruction := Instruction_raw VmDefine slot 0.
Definition i_forget (slot : SlotToken) : Instruction := Instruction_raw VmForget slot 0.
Definition i_reject : Instruction := Instruction_raw Reject 0 0.

Record IntentProgram := IntentProgram_new {
  local_count : N;
  instructions : list Instruction;
}.

Inductive VmRecordKind := KDefine | KForget.

#[export] Instance VmRecordKind_eq_dec : EqDecision VmRecordKind.
Proof. solve_decision. Defined.

(** [record.kind as u64]. *)
Definition kind_u64 (k : VmRecordKind) : N := match k with KDefine => 0 | KForget => 1 end.

Record FactRecord := FactRecord_mk {
  fr_kind : VmRecordKind;
  fr_slot : SlotToken;
  fr_subject : Cell;
  fr_predicate : Cell;
  fr_object : Cell;
  fr_previous_visible : N;
  fr_resulting_visible : N;
}.

Record SlotDelta := SlotDelta_mk {
  sd_slot : SlotToken;
  sd_previous_visible : N;
  sd_resulting_visible : N;
}.

Inductive IndexPermutation := Spo | Pos | Osp.

#[export] Instance IndexPermutation_eq_dec : EqDecision IndexPermutation.
Proof. solve_decision. Defined.

Record IndexDelta := IndexDelta_mk {
  id_permutation : IndexPermutation;
  id_added : bool;
  id_first : Cell;
  id_second : Cell;
  id_third : Cell;
  id_record : N;
  id_slot : SlotToken;
}.

Record WorldRoot := WorldRoot_mk {
  wr_parent : N;
  wr_version : N;
  wr_record_frontier : N;
  wr_slot_delta_frontier : N;
  wr_index_delta_frontier : N;
  wr_allocator_head : N;
  wr_world_id : N;
}.

(** ** [PodArena] *)

Record PodArena (T : Type) := PodArena_mk {
  pa_data : list T;
  pa_frontier : nat;
}.
Arguments PodArena_mk {T}.
Arguments pa_data {T}.
Arguments pa_frontier {T}.

Definition pa_with_capacity {T} : PodArena T := PodArena_mk [] 0.

Definition pa_restore {T} (a : PodArena T) (frontier : nat) : PodArena T :=
  PodArena_mk (pa_data a) frontier.

Definition pa_push {T} (a : PodArena T) (value : T) : option (N * PodArena T) :=
  let index := pa_frontier a in
  if (N.of_nat index <? NONE)%N then
    if decide (index = length (pa_data a))
    then Some (as_u32 index, PodArena_mk (pa_data a ++ [value]) (S index))
    else if index <? length (pa_data a)
    then Some (as_u32 index, PodArena_mk (<[index := value]> (pa_data a)) (S index))
    else None
  else None.

Definition pa_get {T} (a : PodArena T) (index : N) : option T :=
  if N.to_nat index <? pa_frontier a then pa_data a !! N.to_nat index else None.

Definition pa_active {T} (a : PodArena T) : option (list T) :=
  if pa_frontier a <=? length (pa_data a) then Some (take (pa_frontier a) (pa_data a)) else None.

(** [active()[from..]] and [active()[..to]]. *)
Definition pa_since {T} (a : PodArena T) (from : nat) : option (list T) :=
  l ← pa_active a; if from <=? length l then Some (drop from l) else None.
Definition pa_until {T} (a : PodArena T) (to : nat) : option (list T) :=
  l ← pa_active a; if to <=? length l then Some (take to l) else None.

Inductive ExecError :=
| ExplicitRejection
| MissingExpectedValue
| ExpectedValueMismatch
| StackUnderflow
| StackOverflow
| InvalidLocal
| InvalidSlot.

#[export] Instance ExecError_eq_dec : EqDecision ExecError.
Proof. solve_decision. Defined.

Inductive ExecutionOutcome := Accepted | Rejected (e : ExecError).

(** ** The workspace *)

Record Workspace := Workspace_mk {
  vm_stack : list Cell;
  vm_sp : nat;  (* stack_pointer *)
  vm_fb : nat;  (* frame_base *)
  vm_records : PodArena FactRecord;
  vm_deltas : PodArena SlotDelta;
  vm_index_deltas : PodArena IndexDelta;
  vm_roots : PodArena WorldRoot;
  vm_heads : list N;  (* accepted_heads *)
  vm_next : N;  (* next_entity *)
  vm_last_root : N;
  vm_version : N;
  vm_hash : N;  (* semantic_hash *)
  vm_track : bool;  (* track_indexes *)
  vm_hist : nat;  (* historical_delta_offset *)
}.

Definition set_stack (x : list Cell) (w : Workspace) : Workspace :=
  Workspace_mk x (vm_sp w) (vm_fb w) (vm_records w) (vm_deltas w) (vm_index_deltas w) (vm_roots
    w) (vm_heads w) (vm_next w) (vm_last_root w) (vm_version w) (vm_hash w) (vm_track w)
    (vm_hist w).
Definition set_sp (x : nat) (w : Workspace) : Workspace :=
  Workspace_mk (vm_stack w) x (vm_fb w) (vm_records w) (vm_deltas w) (vm_index_deltas w)
    (vm_roots w) (vm_heads w) (vm_next w) (vm_last_root w) (vm_version w) (vm_hash w) (vm_track
    w) (vm_hist w).
Definition set_fb (x : nat) (w : Workspace) : Workspace :=
  Workspace_mk (vm_stack w) (vm_sp w) x (vm_records w) (vm_deltas w) (vm_index_deltas w)
    (vm_roots w) (vm_heads w) (vm_next w) (vm_last_root w) (vm_version w) (vm_hash w) (vm_track
    w) (vm_hist w).
Definition set_records (x : PodArena FactRecord) (w : Workspace) : Workspace :=
  Workspace_mk (vm_stack w) (vm_sp w) (vm_fb w) x (vm_deltas w) (vm_index_deltas w) (vm_roots w)
    (vm_heads w) (vm_next w) (vm_last_root w) (vm_version w) (vm_hash w) (vm_track w) (vm_hist
    w).
Definition set_deltas (x : PodArena SlotDelta) (w : Workspace) : Workspace :=
  Workspace_mk (vm_stack w) (vm_sp w) (vm_fb w) (vm_records w) x (vm_index_deltas w) (vm_roots
    w) (vm_heads w) (vm_next w) (vm_last_root w) (vm_version w) (vm_hash w) (vm_track w)
    (vm_hist w).
Definition set_index_deltas (x : PodArena IndexDelta) (w : Workspace) : Workspace :=
  Workspace_mk (vm_stack w) (vm_sp w) (vm_fb w) (vm_records w) (vm_deltas w) x (vm_roots w)
    (vm_heads w) (vm_next w) (vm_last_root w) (vm_version w) (vm_hash w) (vm_track w) (vm_hist
    w).
Definition set_roots (x : PodArena WorldRoot) (w : Workspace) : Workspace :=
  Workspace_mk (vm_stack w) (vm_sp w) (vm_fb w) (vm_records w) (vm_deltas w) (vm_index_deltas w)
    x (vm_heads w) (vm_next w) (vm_last_root w) (vm_version w) (vm_hash w) (vm_track w) (vm_hist
    w).
Definition set_heads (x : list N) (w : Workspace) : Workspace :=
  Workspace_mk (vm_stack w) (vm_sp w) (vm_fb w) (vm_records w) (vm_deltas w) (vm_index_deltas w)
    (vm_roots w) x (vm_next w) (vm_last_root w) (vm_version w) (vm_hash w) (vm_track w) (vm_hist
    w).
Definition set_next (x : N) (w : Workspace) : Workspace :=
  Workspace_mk (vm_stack w) (vm_sp w) (vm_fb w) (vm_records w) (vm_deltas w) (vm_index_deltas w)
    (vm_roots w) (vm_heads w) x (vm_last_root w) (vm_version w) (vm_hash w) (vm_track w)
    (vm_hist w).
Definition set_last_root (x : N) (w : Workspace) : Workspace :=
  Workspace_mk (vm_stack w) (vm_sp w) (vm_fb w) (vm_records w) (vm_deltas w) (vm_index_deltas w)
    (vm_roots w) (vm_heads w) (vm_next w) x (vm_version w) (vm_hash w) (vm_track w) (vm_hist w).
Definition set_version (x : N) (w : Workspace) : Workspace :=
  Workspace_mk (vm_stack w) (vm_sp w) (vm_fb w) (vm_records w) (vm_deltas w) (vm_index_deltas w)
    (vm_roots w) (vm_heads w) (vm_next w) (vm_last_root w) x (vm_hash w) (vm_track w) (vm_hist
    w).
Definition set_hash (x : N) (w : Workspace) : Workspace :=
  Workspace_mk (vm_stack w) (vm_sp w) (vm_fb w) (vm_records w) (vm_deltas w) (vm_index_deltas w)
    (vm_roots w) (vm_heads w) (vm_next w) (vm_last_root w) (vm_version w) x (vm_track w)
    (vm_hist w).

(** A step of a trial: a value or an error, and the workspace it leaves. *)
Definition vm (A : Type) : Type := Workspace → outcome ExecError A * Workspace.

#[export] Instance vm_ret : MRet vm := λ A a w, (Ok a, w).
#[export] Instance vm_bind : MBind vm := λ A B k m w,
  match m w with
  | (Ok a, w) => k a w
  | (Err e, w) => (Err e, w)
  | (Panic, w) => (Panic, w)
  end.

Definition vm_err {A} (e : ExecError) : vm A := λ w, (Err e, w).
Definition vm_gets {A} (f : Workspace → outcome ExecError A) : vm A := λ w, (f w, w).
Definition vm_modify (f : Workspace → Workspace) : vm unit := λ w, (Ok tt, f w).
(** Push on an arena of the workspace. *)
Definition vm_push_arena {T} (get : Workspace → PodArena T) (set : PodArena T → Workspace → Workspace)
    (value : T) : vm N := λ w,
  match pa_push (get w) value with
  | Some (index, a) => (Ok index, set a w)
  | None => (Panic, w)
  end.

Definition SEMANTIC_SEED : N := 0xcbf29ce484222325.

Definition Workspace_new (slot_count stack_capacity record_capacity delta_capacity : nat)
    (track_indexes : bool) : Workspace :=
  Workspace_mk (replicate stack_capacity 0%N) 0 0 pa_with_capacity pa_with_capacity
    pa_with_capacity pa_with_capacity (replicate slot_count NONE) 1 NONE 0 SEMANTIC_SEED
    track_indexes 0.

Definition with_capacity (slot_count stack_capacity record_capacity delta_capacity : nat) : Workspace :=
  Workspace_new slot_count stack_capacity record_capacity delta_capacity false.
Definition with_indexes (slot_count stack_capacity record_capacity delta_capacity : nat) : Workspace :=
  Workspace_new slot_count stack_capacity record_capacity delta_capacity true.
Definition with_indexes_from (next_entity : N)
    (slot_count stack_capacity record_capacity delta_capacity : nat) : Workspace :=
  set_next next_entity (Workspace_new slot_count stack_capacity record_capacity delta_capacity true).

Definition hash_record (hash : N) (record : FactRecord) : N :=
  foldl (λ hash value, u64_mul (N.lxor hash value) FNV_PRIME) hash
    [kind_u64 (fr_kind record); fr_slot record; fr_subject record; fr_predicate record;
     fr_object record; fr_previous_visible record; fr_resulting_visible record].

(** *** Trials *)

Record TrialCheckpoint := TrialCheckpoint_mk {
  tc_stack_pointer : nat;
  tc_frame_base : nat;
  tc_record_frontier : nat;
  tc_delta_frontier : nat;
  tc_index_delta_frontier : nat;
  tc_next_entity : N;
}.

Definition checkpoint (w : Workspace) : TrialCheckpoint :=
  TrialCheckpoint_mk (vm_sp w) (vm_fb w) (pa_frontier (vm_records w)) (pa_frontier (vm_deltas w))
    (pa_frontier (vm_index_deltas w)) (vm_next w).

Definition rollback (c : TrialCheckpoint) (w : Workspace) : Workspace :=
  set_next (tc_next_entity c)
    (set_index_deltas (pa_restore (vm_index_deltas w) (tc_index_delta_frontier c))
      (set_deltas (pa_restore (vm_deltas w) (tc_delta_frontier c))
        (set_records (pa_restore (vm_records w) (tc_record_frontier c))
          (set_fb (tc_frame_base c) (set_sp (tc_stack_pointer c) w))))).

(** [self.accepted_heads[slot] = resulting]: [None] is the index panic. *)
Definition set_head (heads : list N) (d : SlotDelta) : option (list N) :=
  if N.to_nat (sd_slot d) <? length heads
  then Some (<[N.to_nat (sd_slot d) := sd_resulting_visible d]> heads) else None.

Fixpoint apply_deltas (ds : list SlotDelta) (heads : list N) : option (list N) :=
  match ds with
  | [] => Some heads
  | d :: ds => heads ← set_head heads d; apply_deltas ds heads
  end.

Definition accept (c : TrialCheckpoint) (w : Workspace) : option Workspace :=
  ds ← pa_since (vm_deltas w) (tc_delta_frontier c);
  heads ← apply_deltas ds (vm_heads w);
  rs ← pa_since (vm_records w) (tc_record_frontier c);
  Some (set_fb (tc_frame_base c)
    (set_sp (tc_stack_pointer c)
      (set_hash (foldl hash_record (vm_hash w) rs) (set_heads heads w)))).

Definition accepted_head (slot : SlotToken) (w : Workspace) : outcome ExecError N :=
  ok_or (vm_heads w !! N.to_nat slot) InvalidSlot.

(** The first of the trial's deltas, newest first, on the slot. *)
Definition last_delta (slot : SlotToken) (ds : list SlotDelta) : option SlotDelta :=
  find (λ d, (sd_slot d =? slot)%N) (rev ds).

Definition resolve_trial_head (slot : SlotToken) (frontier : nat) (w : Workspace) :
    outcome ExecError N :=
  let* _ := accepted_head slot w in
  let* ds := or_panic (pa_since (vm_deltas w) frontier) in
  match last_delta slot ds with
  | Some d => Ok (sd_resulting_visible d)
  | None => accepted_head slot w
  end.

Definition resolve_trial_object (slot : SlotToken) (frontier : nat) (w : Workspace) :
    outcome ExecError (option Cell) :=
  let* head := resolve_trial_head slot frontier w in
  if decide (head = NONE) then Ok None
  else let* r := or_panic (pa_get (vm_records w) head) in Ok (Some (fr_object r)).

(** *** The operand stack *)

Definition reserve (cells : nat) : vm unit := λ w,
  if length (vm_stack w) <? vm_sp w + cells then (Err StackOverflow, w)
  else (Ok tt, set_sp (vm_sp w + cells) w).

Definition vm_push (value : Cell) : vm unit := λ w,
  if decide (vm_sp w = length (vm_stack w)) then (Err StackOverflow, w)
  else if vm_sp w <? length (vm_stack w)
  then (Ok tt, set_sp (S (vm_sp w)) (set_stack (<[vm_sp w := value]> (vm_stack w)) w))
  else (Panic, w).

Definition vm_pop : vm Cell := λ w,
  if vm_sp w <=? vm_fb w then (Err StackUnderflow, w)
  else
    let w := set_sp (vm_sp w - 1) w in
    (or_panic (vm_stack w !! vm_sp w), w).

Definition vm_local (local : nat) : vm Cell := λ w,
  let index := vm_fb w + local in
  if vm_sp w <=? index then (Err InvalidLocal, w)
  else (or_panic (vm_stack w !! index), w).

Definition vm_set_local (local : nat) (value : Cell) : vm unit := λ w,
  let index := vm_fb w + local in
  if vm_sp w <=? index then (Err InvalidLocal, w)
  else if index <? length (vm_stack w)
  then (Ok tt, set_stack (<[index := value]> (vm_stack w)) w)
  else (Panic, w).

(** *** Records, deltas and index deltas *)

Definition append_fact_indexes (fact : FactRecord) (record : N) (added : bool) : vm unit :=
  let push d := vm_push_arena vm_index_deltas set_index_deltas d in
  _ ← push (IndexDelta_mk Spo added (fr_subject fact) (fr_predicate fact) (fr_object fact) record
    (fr_slot fact));
  _ ← push (IndexDelta_mk Pos added (fr_predicate fact) (fr_object fact) (fr_subject fact) record
    (fr_slot fact));
  _ ← push (IndexDelta_mk Osp added (fr_object fact) (fr_subject fact) (fr_predicate fact) record
    (fr_slot fact));
  mret tt.

Definition index_record (record : N) (added : bool) : vm unit :=
  if decide (record = NONE) then mret tt
  else
    fact ← vm_gets (λ w, or_panic (pa_get (vm_records w) record));
    append_fact_indexes fact record added.

Definition append_index_transition (previous resulting : N) : vm unit := λ w,
  if vm_track w
  then (_ ← index_record previous false; index_record resulting true) w
  else (Ok tt, w).

Definition vm_define (slot : SlotToken) (subject predicate object : Cell) (frontier : nat) : vm unit :=
  previous ← vm_gets (resolve_trial_head slot frontier);
  record_index ← vm_gets (λ w, Ok (as_u32 (pa_frontier (vm_records w))));
  _ ← vm_push_arena vm_records set_records
    (FactRecord_mk KDefine slot subject predicate object previous record_index);
  _ ← vm_push_arena vm_deltas set_deltas (SlotDelta_mk slot previous record_index);
  append_index_transition previous record_index.

Definition vm_forget (slot : SlotToken) (frontier : nat) : vm unit :=
  previous ← vm_gets (resolve_trial_head slot frontier);
  revealed ← vm_gets (λ w,
    if decide (previous = NONE) then Ok NONE
    else let* r := or_panic (pa_get (vm_records w) previous) in Ok (fr_previous_visible r));
  _ ← vm_push_arena vm_records set_records (FactRecord_mk KForget slot 0 0 0 previous revealed);
  _ ← vm_push_arena vm_deltas set_deltas (SlotDelta_mk slot previous revealed);
  append_index_transition previous revealed.

(** *** Execution *)

Definition execute_instruction (i : Instruction) (frontier : nat) : vm unit :=
  match opcode i with
  | ExpectObject =>
      let expected := immediate i in
      if decide (argument i = NONE)
      then λ w, if decide (vm_hash w ≠ expected) then (Err ExpectedValueMismatch, w) else (Ok tt, w)
      else
        actual ← vm_gets (resolve_trial_object (argument i) frontier);
        match actual with
        | Some actual => if decide (actual = expected) then mret tt else vm_err ExpectedValueMismatch
        | None => vm_err MissingExpectedValue
        end
  | Allocate => λ w, vm_push (vm_next w) (set_next (u64_saturating_add (vm_next w) 1) w)
  | AllocateDiscard => vm_modify (λ w, set_next (u64_saturating_add (vm_next w) 1) w)
  | LoadLocal => value ← vm_local (N.to_nat (argument i)); vm_push value
  | StoreLocal => value ← vm_pop; vm_set_local (N.to_nat (argument i)) value
  | PushCell => vm_push (immediate i)
  | VmDefine =>
      object ← vm_pop;
      predicate ← vm_pop;
      subject ← vm_pop;
      vm_define (argument i) subject predicate object frontier
  | VmForget => vm_forget (argument i) frontier
  | Reject => vm_err ExplicitRejection
  end.

Fixpoint execute_loop (prog : list Instruction) (frontier : nat) : vm unit :=
  match prog with
  | [] => mret tt
  | i :: prog => _ ← execute_instruction i frontier; execute_loop prog frontier
  end.

(** [None] is a panic. *)
Definition execute_instructions (local_count : N) (prog : list Instruction) (w : Workspace) :
    option (ExecutionOutcome * Workspace) :=
  let c := checkpoint w in
  let w := set_fb (vm_sp w) w in
  match reserve (N.to_nat local_count) w with
  | (Err _, w) => Some (Rejected StackOverflow, rollback c w)
  | (Panic, _) => None
  | (Ok _, w) =>
      match execute_loop prog (tc_delta_frontier c) w with
      | (Ok _, w) => w ← accept c w; Some (Accepted, w)
      | (Err e, w) => Some (Rejected e, rollback c w)
      | (Panic, _) => None
      end
  end.

Definition execute (p : IntentProgram) (w : Workspace) : option (ExecutionOutcome * Workspace) :=
  execute_instructions (local_count p) (instructions p) w.

(** ** Reading the accepted state *)

(** [.ok()?]; [None] outside is a panic. *)
Definition resolve_object (slot : SlotToken) (w : Workspace) : option (option Cell) :=
  match accepted_head slot w with
  | Ok head =>
      if decide (head = NONE) then Some None
      else r ← pa_get (vm_records w) head; Some (Some (fr_object r))
  | _ => Some None
  end.

Definition resolve_fact_cells (slot : SlotToken) (w : Workspace) : option (option (Cell * Cell * Cell)) :=
  match accepted_head slot w with
  | Ok head =>
      if decide (head = NONE) then Some None
      else
        r ← pa_get (vm_records w) head;
        Some (Some (fr_subject r, fr_predicate r, fr_object r))
  | _ => Some None
  end.

Definition ensure_slot_count (slot_count : nat) (w : Workspace) : Workspace :=
  if length (vm_heads w) <? slot_count
  then set_heads (vm_heads w ++ replicate (slot_count - length (vm_heads w)) NONE) w
  else w.

Definition vm_record_count (w : Workspace) : nat := pa_frontier (vm_records w).
Definition vm_delta_count (w : Workspace) : nat := vm_hist w + pa_frontier (vm_deltas w).
Definition vm_index_delta_count (w : Workspace) : nat := pa_frontier (vm_index_deltas w).
Definition vm_active_slot_count (w : Workspace) : nat :=
  length (filter (λ head, head ≠ NONE) (vm_heads w)).

(** [from_physical_snapshot]; the error is its message. *)
Inductive SnapshotError :=
| RetainedExceedTotal
| InvalidPhysicalRecord (index : nat)
| HeadExceedsArena.

Definition physical_record_ok (slots index : nat) (r : FactRecord) : bool :=
  bool_decide (fr_kind r = KDefine) &&
  (fr_resulting_visible r =? as_u32 index)%N &&
  ((fr_previous_visible r =? NONE)%N || (fr_previous_visible r <? N.of_nat index)%N) &&
  (fr_slot r <? N.of_nat slots)%N.

Fixpoint check_physical (slots index : nat) (rs : list FactRecord) : outcome SnapshotError unit :=
  match rs with
  | [] => Ok tt
  | r :: rs =>
      if physical_record_ok slots index r then check_physical slots (S index) rs
      else Err (InvalidPhysicalRecord index)
  end.

Definition from_physical_snapshot (next_entity : N) (records : list FactRecord)
    (accepted_heads : list N) (total_record_count : nat) : outcome SnapshotError Workspace :=
  if total_record_count <? length records then Err RetainedExceedTotal
  else
    let* _ := check_physical (length accepted_heads) 0 records in
    if forallb (λ head, (head =? NONE)%N || (head <? N.of_nat (length records))%N) accepted_heads
    then Ok (Workspace_mk (replicate 32 0%N) 0 0 (PodArena_mk records (length records))
      pa_with_capacity pa_with_capacity pa_with_capacity accepted_heads next_entity NONE 0
      (foldl hash_record SEMANTIC_SEED records) true total_record_count)
    else Err HeadExceedsArena.

(** ** Published roots *)

(** The outer [None] is a panic. *)
Definition publish_epoch (w : Workspace) : option (option WorldRoot * Workspace) :=
  previous ← (if decide (vm_last_root w = NONE) then Some 0
    else r ← pa_get (vm_roots w) (vm_last_root w); Some (N.to_nat (wr_record_frontier r)));
  if decide (pa_frontier (vm_records w) = previous) then Some (None, w)
  else
    let version := u64_add (vm_version w) 1 in
    let root := WorldRoot_mk (vm_last_root w) version (as_u32 (pa_frontier (vm_records w)))
      (as_u32 (pa_frontier (vm_deltas w))) (as_u32 (pa_frontier (vm_index_deltas w)))
      (vm_next w) (vm_hash w) in
    '(index, roots) ← pa_push (vm_roots w) root;
    Some (Some root, set_last_root index (set_roots roots (set_version version w))).

Definition resolve_object_at (root : WorldRoot) (slot : SlotToken) (w : Workspace) :
    option (option Cell) :=
  ds ← pa_until (vm_deltas w) (N.to_nat (wr_slot_delta_frontier root));
  match last_delta slot ds with
  | None => Some None
  | Some d =>
      if decide (sd_resulting_visible d = NONE) then Some None
      else r ← pa_get (vm_records w) (sd_resulting_visible d); Some (Some (fr_object r))
  end.

(** ** Index queries *)

Inductive QueryPattern :=
| QSubject (s : Cell)
| QPredicate (p : Cell)
| QObject (o : Cell)
| QSubjectPredicate (s p : Cell)
| QSubjectObject (s o : Cell)
| QPredicateObject (p o : Cell)
| QExact (s p o : Cell).

Definition perm_is (d : IndexDelta) (p : IndexPermutation) : bool := bool_decide (id_permutation d = p).

Definition matches_index (d : IndexDelta) (p : QueryPattern) : bool :=
  match p with
  | QSubject s => perm_is d Spo && (id_first d =? s)
  | QPredicate p => perm_is d Pos && (id_first d =? p)
  | QObject o => perm_is d Osp && (id_first d =? o)
  | QSubjectPredicate s p => perm_is d Spo && (id_first d =? s) && (id_second d =? p)
  | QSubjectObject s o => perm_is d Osp && (id_first d =? o) && (id_second d =? s)
  | QPredicateObject p o => perm_is d Pos && (id_first d =? p) && (id_second d =? o)
  | QExact s p o => perm_is d Spo && (id_first d =? s) && (id_second d =? p) && (id_third d =? o)
  end%N.

(** [swap_remove] at an index in range. *)
Definition swap_remove {A} (i : nat) (l : list A) : list A :=
  match last l with
  | Some x => take (length l - 1) (<[i := x]> l)
  | None => l
  end.

(** [iter().position(|x| f(x))]. *)
Fixpoint position {A} (f : A → bool) (l : list A) : option nat :=
  match l with
  | [] => None
  | x :: l => if f x then Some 0 else S <$> position f l
  end.

Definition replay_delta (p : QueryPattern) (active : list (N * SlotToken)) (d : IndexDelta) :
    list (N * SlotToken) :=
  if negb (matches_index d p) then active
  else if id_added d then active ++ [(id_record d, id_slot d)]
  else
    match position (λ e, (e.1 =? id_record d)%N) active with
    | Some i => swap_remove i active
    | None => active
    end.

(** [sort_unstable] on slots. *)
Definition sort_slots (l : list SlotToken) : list SlotToken := merge_sort N.le l.

(** [Workspace::query_slots] keeps the records only and reads each slot from its
    record. *)
Definition replay_record (p : QueryPattern) (active : list N) (d : IndexDelta) : list N :=
  if negb (matches_index d p) then active
  else if id_added d then active ++ [id_record d]
  else
    match position (λ r, (r =? id_record d)%N) active with
    | Some i => swap_remove i active
    | None => active
    end.

Definition query_slots (root : WorldRoot) (p : QueryPattern) (w : Workspace) :
    option (list SlotToken) :=
  ds ← pa_until (vm_index_deltas w) (N.to_nat (wr_index_delta_frontier root));
  slots ← mapM (λ r, fr_slot <$> pa_get (vm_records w) r) (foldl (replay_record p) [] ds);
  Some (sort_slots slots).

(** ** Compaction and layered snapshots *)

Record CompactIndexEntry := CompactIndexEntry_mk {
  ce_first : Cell;
  ce_second : Cell;
  ce_third : Cell;
  ce_record : N;
  ce_slot : SlotToken;
}.

(** The derived order: lexicographic on the fields. *)
Definition ce_key (e : CompactIndexEntry) : list N :=
  [ce_first e; ce_second e; ce_third e; ce_record e; ce_slot e].
#[export] Instance CompactIndexEntry_ord : Ord CompactIndexEntry := λ x y, cmp (ce_key x) (ce_key y).

Record CompactBase := CompactBase_mk {
  cb_root : WorldRoot;
  cb_spo : list CompactIndexEntry;
  cb_pos : list CompactIndexEntry;
  cb_osp : list CompactIndexEntry;
}.

Record LayeredSnapshot := LayeredSnapshot_mk {
  ls_base : CompactBase;
  ls_root : WorldRoot;
  ls_tail : list IndexDelta;
}.

(** The [BTreeMap] of active deltas, in key order. *)
Fixpoint btree_insert (d : IndexDelta) (l : list IndexDelta) : list IndexDelta :=
  match l with
  | [] => [d]
  | e :: l =>
      match (id_record d ?= id_record e)%N with
      | Lt => d :: e :: l
      | Eq => d :: l
      | Gt => e :: btree_insert d l
      end
  end.

Definition btree_remove (r : N) (l : list IndexDelta) : list IndexDelta :=
  filter (λ e, id_record e ≠ r) l.

Definition compact_step (active : list IndexDelta) (d : IndexDelta) : list IndexDelta :=
  if decide (id_permutation d ≠ Spo) then active
  else if id_added d then btree_insert d active else btree_remove (id_record d) active.

Definition spo_entry (d : IndexDelta) : CompactIndexEntry :=
  CompactIndexEntry_mk (id_first d) (id_second d) (id_third d) (id_record d) (id_slot d).
Definition pos_entry (d : IndexDelta) : CompactIndexEntry :=
  CompactIndexEntry_mk (id_second d) (id_third d) (id_first d) (id_record d) (id_slot d).
Definition osp_entry (d : IndexDelta) : CompactIndexEntry :=
  CompactIndexEntry_mk (id_third d) (id_first d) (id_second d) (id_record d) (id_slot d).

Definition compact_base (root : WorldRoot) (w : Workspace) : option CompactBase :=
  ds ← pa_until (vm_index_deltas w) (N.to_nat (wr_index_delta_frontier root));
  let active := foldl compact_step [] ds in
  Some (CompactBase_mk root (ord_sort (spo_entry <$> active)) (ord_sort (pos_entry <$> active))
    (ord_sort (osp_entry <$> active))).

Definition layered_snapshot (base : CompactBase) (root : WorldRoot) (w : Workspace) :
    option LayeredSnapshot :=
  let first := wr_index_delta_frontier (cb_root base) in
  if (first <=? wr_index_delta_frontier root)%N then
    l ← pa_until (vm_index_deltas w) (N.to_nat (wr_index_delta_frontier root));
    Some (LayeredSnapshot_mk base root (drop (N.to_nat first) l))
  else None.

Definition query_key (p : QueryPattern) : IndexPermutation * list Cell :=
  match p with
  | QSubject s => (Spo, [s])
  | QPredicate p => (Pos, [p])
  | QObject o => (Osp, [o])
  | QSubjectPredicate s p => (Spo, [s; p])
  | QSubjectObject s o => (Osp, [o; s])
  | QPredicateObject p o => (Pos, [p; o])
  | QExact s p o => (Spo, [s; p; o])
  end.

(** The first [length key] components of the entry against the key. *)
Definition compare_prefix (e : CompactIndexEntry) (key : list Cell) : comparison :=
  cmp (take (length key) [ce_first e; ce_second e; ce_third e]) key.

(** [partition_point] on a slice that is partitioned by the predicate. *)
Fixpoint partition_point {A} (f : A → bool) (l : list A) : nat :=
  match l with
  | [] => 0
  | x :: l => if f x then S (partition_point f l) else 0
  end.

Definition compact_prefix_range (entries : list CompactIndexEntry) (key : list Cell) : nat * nat :=
  (partition_point (λ e, bool_decide (compare_prefix e key = Lt)) entries,
   partition_point (λ e, negb (bool_decide (compare_prefix e key = Gt))) entries).

Definition base_entries (s : LayeredSnapshot) (p : QueryPattern) : list CompactIndexEntry * list Cell :=
  let '(permutation, key) := query_key p in
  (match permutation with
   | Spo => cb_spo (ls_base s)
   | Pos => cb_pos (ls_base s)
   | Osp => cb_osp (ls_base s)
   end, key).

(** [entries[range]]: the start is never past the end here. *)
Definition base_range (s : LayeredSnapshot) (p : QueryPattern) : list CompactIndexEntry :=
  let '(entries, key) := base_entries s p in
  let '(first, past) := compact_prefix_range entries key in
  drop first (take past entries).

Definition count_delta (p : QueryPattern) (count : Z) (d : IndexDelta) : Z :=
  if matches_index d p then (if id_added d then count + 1 else count - 1)%Z else count.

Definition snapshot_query_count (s : LayeredSnapshot) (p : QueryPattern) : N :=
  let '(entries, key) := base_entries s p in
  let '(first, past) := compact_prefix_range entries key in
  Z.to_N (foldl (count_delta p) (Z.of_nat past - Z.of_nat first) (ls_tail s) mod 2 ^ 64)%Z.

Definition snapshot_query_slots (s : LayeredSnapshot) (p : QueryPattern) : list SlotToken :=
  let active := (λ e, (ce_record e, ce_slot e)) <$> base_range s p in
  sort_slots (snd <$> foldl (replay_delta p) active (ls_tail s)).
