(* ===== verification/StackVmFacts.v ===== *)
(** The stack VM against its specification: arenas are lists, trials are runs of
    an abstract machine over slot stacks, a rejected trial leaves no trace, and
    the index deltas replay to the visible facts. *)
From Stdlib Require Import NArith ZArith Lia.
From stdpp Require Import sorting base option list strings list_monad.
From S2P Require Import Prelude Ord Bytes StackVm.

(** ** Arenas *)

Definition arena_ok {T} (a : PodArena T) : Prop := pa_frontier a ≤ length (pa_data a).
(** What an arena holds. *)
Definition pa_list {T} (a : PodArena T) : list T := take (pa_frontier a) (pa_data a).

Definition in_u32 (n : nat) : Prop := (N.of_nat n < NONE)%N.

Lemma as_u32_small n : in_u32 n → as_u32 n = N.of_nat n.
Proof. intros H. apply N.mod_small. unfold in_u32, NONE, u32_modulus in *. lia. Qed.

Section arena.
Context {T : Type}.
Implicit Types (a : PodArena T).

Lemma pa_list_length a : arena_ok a → length (pa_list a) = pa_frontier a.
Proof. unfold arena_ok, pa_list. rewrite length_take. lia. Qed.

Lemma pa_active_ok a : arena_ok a → pa_active a = Some (pa_list a).
Proof. unfold arena_ok, pa_active. intros H%Nat.leb_le. by rewrite H. Qed.

Lemma pa_since_ok a k : arena_ok a → k ≤ pa_frontier a → pa_since a k = Some (drop k (pa_list a)).
Proof.
  intros Ha Hk. unfold pa_since. rewrite pa_active_ok by done. rewrite option_bind_Some.
  rewrite pa_list_length by done. apply Nat.leb_le in Hk. by rewrite Hk.
Qed.

Lemma pa_until_ok a k : arena_ok a → k ≤ pa_frontier a → pa_until a k = Some (take k (pa_list a)).
Proof.
  intros Ha Hk. unfold pa_until. rewrite pa_active_ok by done. rewrite option_bind_Some.
  rewrite pa_list_length by done. apply Nat.leb_le in Hk. by rewrite Hk.
Qed.

Lemma pa_get_ok a i : arena_ok a → pa_get a i = pa_list a !! N.to_nat i.
Proof.
  intros Ha. unfold pa_get, pa_list. destruct (_ <? _) eqn:E.
  - apply Nat.ltb_lt in E. by rewrite lookup_take_lt.
  - apply Nat.ltb_ge in E. by rewrite lookup_take_ge.
Qed.

Lemma pa_push_ok a x :
  arena_ok a → in_u32 (pa_frontier a) →
  ∃ a', pa_push a x = Some (N.of_nat (pa_frontier a), a') ∧ arena_ok a' ∧
    pa_list a' = pa_list a ++ [x] ∧ pa_frontier a' = S (pa_frontier a).
Proof.
  intros Ha Hu. unfold pa_push. pose proof Hu as Hu'%N.ltb_lt. rewrite Hu'.
  rewrite as_u32_small by done. unfold arena_ok in *. case_decide as Hl.
  - eexists. split; [done|]. simpl. unfold pa_list. cbn [pa_data pa_frontier].
    rewrite length_app. simpl. split_and!; [lia| |done]. rewrite Hl.
    rewrite !take_ge; [done|done|rewrite length_app; simpl; lia].
  - assert (pa_frontier a < length (pa_data a)) as Hlt by lia.
    pose proof Hlt as Hlt'%Nat.ltb_lt. rewrite Hlt'.
    eexists. split; [done|]. simpl. unfold pa_list. cbn [pa_data pa_frontier].
    rewrite length_insert. split_and!; [lia| |done].
    assert (<[pa_frontier a:=x]> (pa_data a) !! pa_frontier a = Some x) as Hx
      by (by apply list_lookup_insert_eq).
    rewrite (take_S_r _ _ x Hx). by rewrite take_insert_ge.
Qed.

Lemma pa_restore_ok a k :
  arena_ok a → k ≤ pa_frontier a →
  arena_ok (pa_restore a k) ∧ pa_list (pa_restore a k) = take k (pa_list a).
Proof.
  unfold arena_ok, pa_restore, pa_list. simpl. intros Ha Hk.
  split; [lia|]. by rewrite take_take, Nat.min_l.
Qed.
End arena.

(** ** The specification *)

(** A slot's definitions, the visible one first. *)
Abbreviation vfact := (Cell * Cell * Cell)%type (only parsing).
Abbreviation vm_stacks := (list (list (Cell * Cell * Cell))) (only parsing).

(** The state of an abstract trial: the frame (locals, then operands), the slot
    stacks and the allocator. *)
Record Trial := Trial_mk {
  t_cells : list Cell;
  t_stacks : vm_stacks;
  t_next : N;
}.

Section spec.
(** The room of a frame and the identity of the accepted state. *)
Context (capacity : nat) (hash : N).

Definition t_push (v : Cell) (t : Trial) : outcome ExecError Trial :=
  if length (t_cells t) <? capacity
  then Ok (Trial_mk (t_cells t ++ [v]) (t_stacks t) (t_next t)) else Err StackOverflow.

Definition t_pop (t : Trial) : outcome ExecError (Cell * Trial) :=
  match last (t_cells t) with
  | Some v => Ok (v, Trial_mk (take (length (t_cells t) - 1) (t_cells t)) (t_stacks t) (t_next t))
  | None => Err StackUnderflow
  end.

Definition t_set_stack (slot : SlotToken) (f : list vfact → list vfact) (t : Trial) :
    outcome ExecError Trial :=
  let* st := ok_or (t_stacks t !! N.to_nat slot) InvalidSlot in
  Ok (Trial_mk (t_cells t) (<[N.to_nat slot := f st]> (t_stacks t)) (t_next t)).

Definition spec_instruction (i : Instruction) (t : Trial) : outcome ExecError Trial :=
  match opcode i with
  | ExpectObject =>
      if decide (argument i = NONE)
      then if decide (hash = immediate i) then Ok t else Err ExpectedValueMismatch
      else
        let* st := ok_or (t_stacks t !! N.to_nat (argument i)) InvalidSlot in
        match st with
        | [] => Err MissingExpectedValue
        | (_, _, o) :: _ => if decide (o = immediate i) then Ok t else Err ExpectedValueMismatch
        end
  | Allocate =>
      t_push (t_next t) (Trial_mk (t_cells t) (t_stacks t) (u64_saturating_add (t_next t) 1))
  | AllocateDiscard => Ok (Trial_mk (t_cells t) (t_stacks t) (u64_saturating_add (t_next t) 1))
  | LoadLocal =>
      let* v := ok_or (t_cells t !! N.to_nat (argument i)) InvalidLocal in
      t_push v t
  | StoreLocal =>
      let* r := t_pop t in
      if N.to_nat (argument i) <? length (t_cells r.2)
      then Ok (Trial_mk (<[N.to_nat (argument i) := r.1]> (t_cells r.2)) (t_stacks r.2) (t_next r.2))
      else Err InvalidLocal
  | PushCell => t_push (immediate i) t
  | VmDefine =>
      let* o := t_pop t in
      let* p := t_pop o.2 in
      let* s := t_pop p.2 in
      t_set_stack (argument i) (λ st, (s.1, p.1, o.1) :: st) s.2
  | VmForget => t_set_stack (argument i) tail t
  | Reject => Err ExplicitRejection
  end.

Definition spec_loop (prog : list Instruction) (t : Trial) : outcome ExecError Trial :=
  outcome_fold (λ t i, spec_instruction i t) prog t.
End spec.

(** ** Heads and chains *)

(** The chain of definitions a head points to, in an arena of records. *)
Inductive chain (rs : list FactRecord) (slot : nat) : N → list vfact → Prop :=
| chain_nil : chain rs slot NONE []
| chain_cons i r st :
    i ≠ NONE → rs !! N.to_nat i = Some r → N.to_nat (fr_slot r) = slot →
    chain rs slot (fr_previous_visible r) st →
    chain rs slot i ((fr_subject r, fr_predicate r, fr_object r) :: st).

Lemma chain_app rs l slot i st : chain rs slot i st → chain (rs ++ l) slot i st.
Proof.
  induction 1 as [|i r st Hi Hr Hs _ IH]; [constructor|].
  eapply (chain_cons _ _ i r); [done| |done|done]. by apply lookup_app_l_Some.
Qed.

(** The heads point to the stacks. *)
Definition heads_rep (rs : list FactRecord) (hs : list N) (sts : vm_stacks) : Prop :=
  length hs = length sts ∧
  ∀ slot h st, hs !! slot = Some h → sts !! slot = Some st → chain rs slot h st.

Lemma heads_rep_app rs l hs sts : heads_rep rs hs sts → heads_rep (rs ++ l) hs sts.
Proof. intros [Hl H]. split; [done|]. intros. eapply chain_app, H; done. Qed.

Lemma heads_rep_lookup rs hs sts slot :
  heads_rep rs hs sts →
  match hs !! slot with
  | Some h => ∃ st, sts !! slot = Some st ∧ chain rs slot h st
  | None => sts !! slot = None
  end.
Proof.
  intros [Hl H]. destruct (hs !! slot) as [h|] eqn:Hh.
  - destruct (lookup_lt_is_Some_2 sts slot) as [st Hst].
    { rewrite <- Hl. by eapply lookup_lt_Some. }
    eauto.
  - apply lookup_ge_None in Hh. apply lookup_ge_None. lia.
Qed.

Lemma heads_rep_insert rs hs sts slot h st :
  heads_rep rs hs sts → chain rs slot h st →
  heads_rep rs (<[slot := h]> hs) (<[slot := st]> sts).
Proof.
  intros [Hl H] Hc. split; [by rewrite !length_insert|].
  intros i h' st' Hh Hst. destruct (decide (i = slot)) as [->|Hne].
  - apply list_lookup_insert_Some in Hh as [(_ & -> & _)|[? _]]; [|done].
    apply list_lookup_insert_Some in Hst as [(_ & -> & _)|[? _]]; done.
  - rewrite list_lookup_insert_ne in Hh by done. rewrite list_lookup_insert_ne in Hst by done.
    by eapply H.
Qed.

(** ** Deltas and trial heads *)

Lemma apply_deltas_app ds1 ds2 hs :
  apply_deltas (ds1 ++ ds2) hs = hs' ← apply_deltas ds1 hs; apply_deltas ds2 hs'.
Proof.
  revert hs. induction ds1 as [|d ds1 IH]; intros hs; [done|]. simpl.
  destruct (set_head hs d); simpl; [apply IH|done].
Qed.

Lemma set_head_Some hs d hs' :
  set_head hs d = Some hs' ↔
  N.to_nat (sd_slot d) < length hs ∧ hs' = <[N.to_nat (sd_slot d) := sd_resulting_visible d]> hs.
Proof.
  unfold set_head. destruct (_ <? _) eqn:E.
  - apply Nat.ltb_lt in E. split; [by intros [= <-]|by intros [_ ->]].
  - apply Nat.ltb_ge in E. split; [done|]. intros [? _]. lia.
Qed.

Lemma apply_deltas_length ds hs hs' : apply_deltas ds hs = Some hs' → length hs' = length hs.
Proof.
  revert hs. induction ds as [|d ds IH]; intros hs; simpl; [by intros [= ->]|].
  destruct (set_head hs d) as [hs1|] eqn:E; [|done]. simpl. intros H%IH.
  apply set_head_Some in E as [_ ->]. by rewrite H, length_insert.
Qed.

Lemma last_delta_snoc slot ds d :
  last_delta slot (ds ++ [d]) = if (sd_slot d =? slot)%N then Some d else last_delta slot ds.
Proof. unfold last_delta. by rewrite rev_app_distr. Qed.

(** The head a trial sees is the accepted head updated by its deltas. *)
Lemma apply_deltas_lookup ds hs hs' slot :
  apply_deltas ds hs = Some hs' →
  hs' !! N.to_nat slot =
  match last_delta slot ds with
  | Some d => Some (sd_resulting_visible d)
  | None => hs !! N.to_nat slot
  end.
Proof.
  revert hs'. induction ds as [|d ds IH] using rev_ind; intros hs'; simpl; [by intros [= ->]|].
  rewrite apply_deltas_app, last_delta_snoc. destruct (apply_deltas ds hs) as [hs1|] eqn:E; [|done].
  simpl. destruct (set_head hs1 d) as [hs2|] eqn:Hd; [|done]. intros [= <-].
  apply set_head_Some in Hd as [Hlt ->]. destruct (N.eqb_spec (sd_slot d) slot) as [<-|Hne].
  - by apply list_lookup_insert_eq.
  - rewrite list_lookup_insert_ne by (by intros ?%N2Nat.inj). by apply IH.
Qed.

(** ** Index deltas replay to the visible facts *)

Definition fact_matches (p : QueryPattern) (f : FactRecord) : bool :=
  match p with
  | QSubject s => fr_subject f =? s
  | QPredicate p => fr_predicate f =? p
  | QObject o => fr_object f =? o
  | QSubjectPredicate s p => (fr_subject f =? s) && (fr_predicate f =? p)
  | QSubjectObject s o => (fr_object f =? o) && (fr_subject f =? s)
  | QPredicateObject p o => (fr_predicate f =? p) && (fr_object f =? o)
  | QExact s p o => (fr_subject f =? s) && (fr_predicate f =? p) && (fr_object f =? o)
  end%N.

Definition record_matches (rs : list FactRecord) (p : QueryPattern) (r : N) : bool :=
  match rs !! N.to_nat r with Some f => fact_matches p f | None => false end.

Definition visible (hs : list N) : list N := filter (λ h, h ≠ NONE) hs.

Abbreviation matching rs p hs := (filter (λ r, record_matches rs p r = true) (visible hs)) (only parsing).

Definition record_slot (rs : list FactRecord) (r : N) : SlotToken :=
  match rs !! N.to_nat r with Some f => fr_slot f | None => 0%N end.

(** The first delta of a visible record. *)
Definition spo_delta (rs : list FactRecord) (r : N) : IndexDelta :=
  match rs !! N.to_nat r with
  | Some f => IndexDelta_mk Spo true (fr_subject f) (fr_predicate f) (fr_object f) r (fr_slot f)
  | None => IndexDelta_mk Spo true 0 0 0 r 0
  end.

(** Every way the code reads a stream of index deltas gives the visible
    records: the replay of a pattern, its count, and compaction. *)
Record index_rep (rs : list FactRecord) (hs : list N) (ds : list IndexDelta) : Prop := {
  ir_replay : ∀ p, foldl (replay_record p) [] ds ≡ₚ matching rs p hs;
  ir_count : ∀ p, foldl (count_delta p) 0%Z ds = Z.of_nat (length (matching rs p hs));
  ir_compact : foldl compact_step [] ds ≡ₚ spo_delta rs <$> visible hs;
  ir_nodup : NoDup (visible hs);
  ir_slots : Forall (λ d, fr_slot <$> rs !! N.to_nat (id_record d) = Some (id_slot d)) ds;
}.

(** The three deltas of a fact. *)
Definition fact_deltas (f : FactRecord) (r : N) (added : bool) : list IndexDelta :=
  [IndexDelta_mk Spo added (fr_subject f) (fr_predicate f) (fr_object f) r (fr_slot f);
   IndexDelta_mk Pos added (fr_predicate f) (fr_object f) (fr_subject f) r (fr_slot f);
   IndexDelta_mk Osp added (fr_object f) (fr_subject f) (fr_predicate f) r (fr_slot f)].

(** Exactly one of the three concerns a pattern. *)
Lemma replay_fact {S} (p : QueryPattern) (step : S → IndexDelta → S) f r added act
    (apply : S → IndexDelta → S) :
  (∀ s d, step s d = if negb (matches_index d p) then s else apply s d) →
  foldl step act (fact_deltas f r added) =
  if fact_matches p f
  then apply act (nth (match (query_key p).1 with Spo => 0 | Pos => 1 | Osp => 2 end)
    (fact_deltas f r added) (IndexDelta_mk Spo added 0 0 0 r 0))
  else act.
Proof.
  intros Hstep. unfold fact_deltas. cbn [foldl]. rewrite !Hstep.
  destruct p; unfold matches_index, perm_is; cbn;
    repeat match goal with |- context [(?a =? ?b)%N] => destruct (a =? b)%N; cbn end; reflexivity.
Qed.

Lemma position_Permutation {A} (f : A → bool) l :
  match position f l with
  | Some i => ∃ x, l !! i = Some x ∧ f x = true
  | None => Forall (λ x, f x = false) l
  end.
Proof.
  induction l as [|x l IH]; simpl; [constructor|].
  destruct (f x) eqn:Hf; [by exists x|].
  destruct (position f l) as [i|]; simpl; [done|by constructor].
Qed.

Lemma delete_insert_same {A} (l : list A) i x : delete i (<[i := x]> l) = delete i l.
Proof. revert i. induction l as [|y l IH]; intros [|i]; simpl; [done..|]. f_equal. apply IH. Qed.

Lemma insert_delete_Permutation {A} (l : list A) i x :
  i < length l → <[i := x]> l ≡ₚ x :: delete i l.
Proof.
  intros Hi. rewrite (delete_Permutation (<[i:=x]> l) i x) by (by apply list_lookup_insert_eq).
  f_equiv. by rewrite delete_insert_same.
Qed.

Lemma swap_remove_Permutation {A} (l : list A) i x :
  l !! i = Some x → l ≡ₚ x :: swap_remove i l.
Proof.
  intros Hi. unfold swap_remove. destruct l as [|z l _] using rev_ind; [done|].
  rewrite last_snoc, length_app. simpl. replace (length l + 1 - 1) with (length l) by lia.
  apply lookup_snoc_Some in Hi as [Hi|[-> ->]].
  - pose proof (lookup_lt_Some _ _ _ Hi). rewrite take_insert_lt by done.
    rewrite take_app_length. rewrite (delete_Permutation l i x Hi) at 1.
    rewrite (insert_delete_Permutation l i z) by done.
    simpl. f_equiv. by rewrite Permutation_app_comm.
  - rewrite take_insert_ge, take_app_length by lia. by rewrite Permutation_app_comm.
Qed.

Lemma remove_position {A} (key : A → N) r (act X : list A) x :
  act ≡ₚ x :: X → key x = r → (∀ y, y ∈ act → key y = r → y = x) →
  (match position (λ e, (key e =? r)%N) act with
   | Some i => swap_remove i act
   | None => act
   end) ≡ₚ X.
Proof.
  intros Hp Hx Huniq. pose proof (position_Permutation (λ e, (key e =? r)%N) act) as Hpos.
  destruct (position _ act) as [i|].
  - destruct Hpos as (y & Hy & Hk%N.eqb_eq). pose proof (list_elem_of_lookup_2 _ _ _ Hy) as Hin.
    rewrite (Huniq y Hin Hk) in Hy. apply swap_remove_Permutation in Hy.
    rewrite Hp in Hy at 1. by apply Permutation_cons_inv in Hy.
  - exfalso. rewrite Forall_forall in Hpos. specialize (Hpos x). simpl in Hpos.
    rewrite Hx, N.eqb_refl in Hpos. discriminate Hpos. rewrite Hp. by left.
Qed.

Definition replay_apply (act : list N) (d : IndexDelta) : list N :=
  if id_added d then act ++ [id_record d]
  else
    match position (λ r, (r =? id_record d)%N) act with
    | Some i => swap_remove i act
    | None => act
    end.

Lemma replay_record_fact p f r added act :
  foldl (replay_record p) act (fact_deltas f r added) =
  if fact_matches p f
  then if added then act ++ [r]
    else match position (λ x, (x =? r)%N) act with Some i => swap_remove i act | None => act end
  else act.
Proof.
  rewrite (replay_fact p _ f r added act replay_apply) by done.
  destruct (fact_matches p f); [|done]. by destruct p, added.
Qed.

(** The deltas of a head that is replaced or removed, and of one that appears. *)
Definition head_deltas (rs : list FactRecord) (h : N) (added : bool) : list IndexDelta :=
  if decide (h = NONE) then []
  else match rs !! N.to_nat h with Some f => fact_deltas f h added | None => [] end.

Lemma visible_cons h X : visible (h :: X) = if decide (h = NONE) then visible X else h :: visible X.
Proof. unfold visible. rewrite filter_cons. destruct (decide (h = NONE)), (decide (h ≠ NONE)); tauto. Qed.

Lemma filter_matches_cons rs p h l :
  filter (λ r, record_matches rs p r = true) (h :: l) =
  if record_matches rs p h then h :: filter (λ r, record_matches rs p r = true) l
  else filter (λ r, record_matches rs p r = true) l.
Proof. rewrite filter_cons. by destruct (record_matches rs p h). Qed.

Lemma index_remove rs p act h X :
  act ≡ₚ filter (λ r, record_matches rs p r = true) (visible (h :: X)) →
  (h ≠ NONE → is_Some (rs !! N.to_nat h)) →
  foldl (replay_record p) act (head_deltas rs h false) ≡ₚ
  filter (λ r, record_matches rs p r = true) (visible X).
Proof.
  unfold head_deltas. rewrite visible_cons. intros Hact Hh.
  destruct (decide (h = NONE)) as [|Hn]; [done|]. destruct (Hh Hn) as [f Hf].
  rewrite Hf, replay_record_fact. rewrite filter_matches_cons in Hact.
  unfold record_matches at 1 in Hact. rewrite Hf in Hact.
  destruct (fact_matches p f); [|done].
  apply (remove_position id h act _ h); [done|done|]. intros y _ Hy. exact Hy.
Qed.

Lemma index_add rs p act h X :
  act ≡ₚ filter (λ r, record_matches rs p r = true) (visible X) →
  (h ≠ NONE → is_Some (rs !! N.to_nat h)) →
  foldl (replay_record p) act (head_deltas rs h true) ≡ₚ
  filter (λ r, record_matches rs p r = true) (visible (h :: X)).
Proof.
  unfold head_deltas. rewrite visible_cons. intros Hact Hh.
  destruct (decide (h = NONE)) as [|Hn]; [done|]. destruct (Hh Hn) as [f Hf].
  rewrite Hf, replay_record_fact, filter_matches_cons. unfold record_matches at 1. rewrite Hf.
  destruct (fact_matches p f); [|done]. rewrite Hact. by rewrite Permutation_app_comm.
Qed.

Lemma count_fact p c f r added :
  foldl (count_delta p) c (fact_deltas f r added) =
  if fact_matches p f then (if added then c + 1 else c - 1)%Z else c.
Proof.
  rewrite (replay_fact p _ f r added c
    (λ c d, if id_added d then (c + 1)%Z else (c - 1)%Z)).
  - destruct (fact_matches p f); [|done]. by destruct p, added.
  - intros c' d. unfold count_delta. by destruct (matches_index d p).
Qed.

Lemma count_remove rs p h X :
  (h ≠ NONE → is_Some (rs !! N.to_nat h)) →
  foldl (count_delta p) (Z.of_nat (length (matching rs p (h :: X)))) (head_deltas rs h false) =
  Z.of_nat (length (matching rs p X)).
Proof.
  unfold head_deltas. rewrite visible_cons. intros Hh.
  destruct (decide (h = NONE)) as [|Hn]; [done|]. destruct (Hh Hn) as [f Hf].
  assert (record_matches rs p h = fact_matches p f) as Hm by (unfold record_matches; by rewrite Hf).
  rewrite Hf, count_fact, filter_matches_cons, Hm.
  destruct (fact_matches p f); [|done]. simpl. lia.
Qed.

Lemma count_add rs p h X :
  (h ≠ NONE → is_Some (rs !! N.to_nat h)) →
  foldl (count_delta p) (Z.of_nat (length (matching rs p X))) (head_deltas rs h true) =
  Z.of_nat (length (matching rs p (h :: X))).
Proof.
  unfold head_deltas. rewrite visible_cons. intros Hh.
  destruct (decide (h = NONE)) as [|Hn]; [done|]. destruct (Hh Hn) as [f Hf].
  assert (record_matches rs p h = fact_matches p f) as Hm by (unfold record_matches; by rewrite Hf).
  rewrite Hf, count_fact, filter_matches_cons, Hm.
  destruct (fact_matches p f); [|done]. simpl. lia.
Qed.

Lemma btree_insert_Permutation d l :
  Forall (λ e, id_record e ≠ id_record d) l → btree_insert d l ≡ₚ d :: l.
Proof.
  induction 1 as [|e l He _ IH]; [done|]. simpl.
  destruct (id_record d ?= id_record e)%N eqn:E; [|done|].
  - by apply N.compare_eq in E.
  - rewrite IH. by constructor.
Qed.

Lemma spo_delta_record rs r : id_record (spo_delta rs r) = r.
Proof. unfold spo_delta. by destruct (rs !! N.to_nat r). Qed.

Lemma compact_remove rs act h X :
  act ≡ₚ spo_delta rs <$> visible (h :: X) → NoDup (visible (h :: X)) →
  (h ≠ NONE → is_Some (rs !! N.to_nat h)) →
  foldl compact_step act (head_deltas rs h false) ≡ₚ spo_delta rs <$> visible X.
Proof.
  unfold head_deltas. rewrite visible_cons. intros Hact Hnd Hh.
  destruct (decide (h = NONE)) as [|Hn]; [done|]. destruct (Hh Hn) as [f Hf]. rewrite Hf.
  apply NoDup_cons in Hnd as [Hnin Hnd].
  change (btree_remove h act ≡ₚ spo_delta rs <$> visible X). unfold btree_remove. rewrite Hact.
  csimpl. rewrite filter_cons, spo_delta_record. rewrite decide_False by (intros Hne; by apply Hne).
  apply reflexive_eq. clear -Hnin. induction (visible X) as [|x l IH]; [done|]. csimpl.
  apply not_elem_of_cons in Hnin as [Hx Hl]. rewrite filter_cons, spo_delta_record.
  rewrite decide_True by done. f_equal. by apply IH.
Qed.

Lemma compact_add rs act h X :
  act ≡ₚ spo_delta rs <$> visible X → (h ≠ NONE → h ∉ X) →
  (h ≠ NONE → is_Some (rs !! N.to_nat h)) →
  foldl compact_step act (head_deltas rs h true) ≡ₚ spo_delta rs <$> visible (h :: X).
Proof.
  unfold head_deltas. rewrite visible_cons. intros Hact Hnin Hh.
  destruct (decide (h = NONE)) as [|Hn]; [done|]. destruct (Hh Hn) as [f Hf]. rewrite Hf.
  assert (foldl compact_step act (fact_deltas f h true) = btree_insert (spo_delta rs h) act) as ->.
  { unfold spo_delta. by rewrite Hf. }
  rewrite btree_insert_Permutation; [by rewrite Hact|].
  apply Forall_forall. intros d Hd. rewrite Hact, spo_delta_record in *.
  apply list_elem_of_fmap in Hd as (r & -> & [_ Hr]%list_elem_of_filter). rewrite spo_delta_record.
  intros ->. by apply Hnin.
Qed.

Lemma head_deltas_slots rs h added :
  Forall (λ d, fr_slot <$> rs !! N.to_nat (id_record d) = Some (id_slot d)) (head_deltas rs h added).
Proof.
  unfold head_deltas. case_decide; [constructor|]. destruct (rs !! N.to_nat h) as [f|] eqn:Hf; [|constructor].
  unfold fact_deltas. repeat constructor; simpl; by rewrite Hf.
Qed.

Lemma index_transition rs hs ds i h h' :
  index_rep rs hs ds → hs !! i = Some h →
  (h ≠ NONE → is_Some (rs !! N.to_nat h)) → (h' ≠ NONE → is_Some (rs !! N.to_nat h')) →
  (h' ≠ NONE → h' ∉ delete i hs) →
  index_rep rs (<[i := h']> hs) (ds ++ head_deltas rs h false ++ head_deltas rs h' true).
Proof.
  intros [] Hi Hh Hh' Hfresh.
  assert (visible hs ≡ₚ visible (h :: delete i hs)) as Hold.
  { unfold visible. by rewrite <- (delete_Permutation hs i h Hi). }
  assert (visible (<[i:=h']> hs) ≡ₚ visible (h' :: delete i hs)) as Hnew.
  { unfold visible. rewrite (insert_delete_Permutation hs i h'); [done|]. by eapply lookup_lt_Some. }
  split.
  - intros p. rewrite !foldl_app, Hnew. apply index_add; [|done].
    apply index_remove; [|done]. by rewrite <- Hold, (ir_replay0 p).
  - intros p. rewrite !foldl_app, (ir_count0 p), Hold, count_remove, count_add by done. by rewrite Hnew.
  - rewrite !foldl_app, Hnew. apply compact_add; [|done|done].
    apply compact_remove; [by rewrite <- Hold|by rewrite <- Hold|done].
  - rewrite Hnew, visible_cons. rewrite Hold in ir_nodup0. rewrite visible_cons in ir_nodup0.
    assert (NoDup (visible (delete i hs))) as Hd.
    { destruct (decide (h = NONE)); [done|]. by apply NoDup_cons in ir_nodup0 as [_ ?]. }
    destruct (decide (h' = NONE)) as [|Hn]; [done|]. constructor; [|done].
    intros [_ Hin]%list_elem_of_filter. by apply (Hfresh Hn).
  - rewrite !Forall_app. split_and!; [done|apply head_deltas_slots..].
Qed.

Lemma index_rep_app rs l hs ds :
  index_rep rs hs ds → (∀ h, h ∈ hs → h ≠ NONE → is_Some (rs !! N.to_nat h)) →
  index_rep (rs ++ l) hs ds.
Proof.
  intros [] Hhs.
  assert (∀ p, matching (rs ++ l) p hs = matching rs p hs) as Hm.
  { intros p. apply filter_ext_in. intros h [Hn Hin]%list_elem_of_filter. unfold record_matches.
    destruct (Hhs h Hin Hn) as [f Hf]. by rewrite (lookup_app_l_Some _ _ _ _ Hf), Hf. }
  split; [intros p; by rewrite Hm|intros p; by rewrite Hm| |done|].
  - rewrite ir_compact0. apply reflexive_eq, list_fmap_ext. intros _ h Hin%list_elem_of_lookup_2.
    apply list_elem_of_filter in Hin as [Hn Hin]. destruct (Hhs h Hin Hn) as [f Hf].
    unfold spo_delta. by rewrite (lookup_app_l_Some _ _ _ _ Hf), Hf.
  - eapply Forall_impl; [exact ir_slots0|]. intros d Hd. simpl in *.
    destruct (rs !! N.to_nat (id_record d)) as [f|] eqn:Hf; [|done].
    by rewrite (lookup_app_l_Some _ _ _ _ Hf).
Qed.

(** A head of one slot is not the head of another. *)
Lemma heads_fresh rs hs sts i h st :
  heads_rep rs hs sts → chain rs i h st → h ≠ NONE → h ∉ delete i hs.
Proof.
  intros [Hl H] Hc Hn [j Hj]%list_elem_of_lookup. rewrite list_lookup_delete in Hj.
  set (k := if decide (j < i) then j else S j) in *.
  assert (k ≠ i) as Hk by (unfold k; case_decide; lia).
  destruct (lookup_lt_is_Some_2 sts k) as [st' Hst]; [rewrite <- Hl; by eapply lookup_lt_Some|].
  pose proof (H _ _ _ Hj Hst) as Hc'. destruct Hc as [|h r st _ Hr Hs _]; [done|].
  inversion Hc' as [|h2 r2 st2 _ Hr2 Hs2 _]; subst; [done|].
  rewrite Hr in Hr2. injection Hr2 as <-. by apply Hk.
Qed.

Lemma visible_app hs1 hs2 : visible (hs1 ++ hs2) = visible hs1 ++ visible hs2.
Proof. apply filter_app. Qed.

Lemma visible_replicate n : visible (replicate n NONE) = [].
Proof. induction n as [|n IH]; [done|]. by rewrite replicate_S, visible_cons. Qed.

Lemma index_rep_empty n : index_rep [] (replicate n NONE) [].
Proof. split; intros; rewrite ?visible_replicate; try done; constructor. Qed.

Lemma index_rep_slots rs hs ds n : index_rep rs hs ds → index_rep rs (hs ++ replicate n NONE) ds.
Proof. intros []. by split; intros; rewrite ?visible_app, ?visible_replicate, ?app_nil_r. Qed.
