(* ===== verification/StackVmTrial.v ===== *)
(** Trials of the stack VM simulate the abstract machine, and never touch what
    was accepted before them. *)
From Stdlib Require Import NArith ZArith Lia.
From stdpp Require Import sorting base option list strings list_monad.
From S2P Require Import Prelude Ord Bytes StackVm StackVmFacts.

(** ** What a trial may change *)

Definition arena_grows {T} (a a' : PodArena T) : Prop :=
  arena_ok a → arena_ok a' ∧ ∃ l, pa_list a' = pa_list a ++ l.

#[export] Instance arena_grows_preorder T : PreOrder (@arena_grows T).
Proof.
  split.
  - intros a Ha. split; [done|]. exists []. by rewrite app_nil_r.
  - intros a b c Hab Hbc [Hb [l1 H1]]%Hab. destruct (Hbc Hb) as [Hc [l2 H2]].
    split; [done|]. exists (l1 ++ l2). by rewrite H2, H1, (assoc_L (++)).
Qed.

Record grows (w w' : Workspace) : Prop := {
  g_heads : vm_heads w' = vm_heads w;
  g_hash : vm_hash w' = vm_hash w;
  g_roots : vm_roots w' = vm_roots w;
  g_last_root : vm_last_root w' = vm_last_root w;
  g_version : vm_version w' = vm_version w;
  g_track : vm_track w' = vm_track w;
  g_hist : vm_hist w' = vm_hist w;
  g_fb : vm_fb w' = vm_fb w;
  g_stack : length (vm_stack w') = length (vm_stack w);
  g_below : take (vm_fb w) (vm_stack w') = take (vm_fb w) (vm_stack w);
  g_records : arena_grows (vm_records w) (vm_records w');
  g_deltas : arena_grows (vm_deltas w) (vm_deltas w');
  g_index : arena_grows (vm_index_deltas w) (vm_index_deltas w');
}.

#[export] Instance grows_preorder : PreOrder grows.
Proof.
  split.
  - intros w. by split.
  - intros w1 w2 w3 [] []. split; try congruence; by etrans.
Qed.

(** Room for [n] more records, deltas and index transitions. *)
Definition room (w : Workspace) (n : nat) : Prop :=
  (N.of_nat (pa_frontier (vm_records w)) + N.of_nat n <= NONE)%N ∧
  (N.of_nat (pa_frontier (vm_deltas w)) + N.of_nat n <= NONE)%N ∧
  (N.of_nat (pa_frontier (vm_index_deltas w)) + 6 * N.of_nat n <= NONE)%N.

Section trials.
  (** Whether the index deltas are known to cover every visible fact: not after
      [from_physical_snapshot], which restores records without them. *)
  Context (ix : bool).

Record trial_at (w : Workspace) (F : nat) (hs : list N) (t : Trial) : Prop := {
  ta_records : arena_ok (vm_records w);
  ta_deltas : arena_ok (vm_deltas w);
  ta_index : arena_ok (vm_index_deltas w);
  ta_fb : vm_fb w ≤ vm_sp w;
  ta_sp : vm_sp w ≤ length (vm_stack w);
  ta_cells : t_cells t = drop (vm_fb w) (take (vm_sp w) (vm_stack w));
  ta_F : F ≤ pa_frontier (vm_deltas w);
  ta_heads : apply_deltas (drop F (pa_list (vm_deltas w))) (vm_heads w) = Some hs;
  ta_rep : heads_rep (pa_list (vm_records w)) hs (t_stacks t);
  ta_next : t_next t = vm_next w;
  ta_idx : ix = true →
    vm_track w = true ∧ index_rep (pa_list (vm_records w)) hs (pa_list (vm_index_deltas w));
}.

Definition trial (w : Workspace) (F n : nat) (t : Trial) : Prop :=
  room w n ∧ ∃ hs, trial_at w F hs t.

Definition frame_capacity (w : Workspace) : nat := length (vm_stack w) - vm_fb w.

(** A step of the code against a step of the abstract machine. *)
Definition sim {A B} (w : Workspace) (r : outcome ExecError A * Workspace) (s : outcome ExecError B)
    (R : A → B → Workspace → Prop) : Prop :=
  match r, s with
  | (Ok a, w'), Ok b => grows w w' ∧ R a b w'
  | (Err e, w'), Err e' => e = e' ∧ grows w w'
  | _, _ => False
  end.

Lemma sim_bind {A B C D} w (m : vm A) (k : A → vm C) s (ks : B → outcome ExecError D) R Q :
  sim w (m w) s R →
  (∀ a b w', grows w w' → R a b w' → sim w' (k a w') (ks b) Q) →
  sim w ((m ≫= k) w) (outcome_bind s ks) Q.
Proof.
  unfold sim, mbind, vm_bind. destruct (m w) as [[a|e|] w1]; destruct s as [b|e'|]; try done.
  intros [Hg HR] Hk. specialize (Hk a b w1 Hg HR). cbn [outcome_bind].
  destruct (k a w1) as [[c|e|] w2]; destruct (ks b) as [d|e'|]; try done.
  - destruct Hk as [Hg' HQ]. split; [by etrans|done].
  - destruct Hk as [-> Hg']. split; [done|by etrans].
Qed.

Lemma sim_ret {A B} w (a : A) (b : B) (R : A → B → Workspace → Prop) :
  R a b w → sim w (Ok a, w) (Ok b) R.
Proof. by split. Qed.

Lemma sim_err {A B} w e (R : A → B → Workspace → Prop) : sim w (Err e, w) (Err e) R.
Proof. by split. Qed.

Lemma grows_capacity w w' : grows w w' → frame_capacity w' = frame_capacity w.
Proof. intros []. unfold frame_capacity. congruence. Qed.

Lemma cells_length w F hs t : trial_at w F hs t → length (t_cells t) = vm_sp w - vm_fb w.
Proof. intros []. rewrite ta_cells0, length_drop, length_take. lia. Qed.

(** Two workspaces that differ in the stack pointer and the frame's cells. *)
Lemma trial_set_cells w F n hs t sp stack cells :
  trial_at w F hs t → room w n →
  length stack = length (vm_stack w) → take (vm_fb w) stack = take (vm_fb w) (vm_stack w) →
  vm_fb w ≤ sp → sp ≤ length stack → cells = drop (vm_fb w) (take sp stack) →
  grows w (set_sp sp (set_stack stack w)) ∧
  trial (set_sp sp (set_stack stack w)) F n (Trial_mk cells (t_stacks t) (t_next t)).
Proof.
  intros [] Hroom Hl Hb H1 H2 ->. split; [by split|]. split; [done|]. exists hs. split; simpl; done.
Qed.

Section steps.
Context (F n : nat).

Lemma push_sim w t v :
  trial w F n t →
  sim w (vm_push v w) (t_push (frame_capacity w) v t) (λ _ t' w', trial w' F n t').
Proof.
  intros [Hroom [hs Ht]]. pose proof (cells_length _ _ _ _ Ht) as Hl.
  pose proof (ta_sp _ _ _ _ Ht) as Hsp. pose proof (ta_fb _ _ _ _ Ht) as Hfb.
  unfold vm_push, t_push. rewrite Hl. unfold frame_capacity. case_decide as Hfull.
  - assert ((vm_sp w - vm_fb w <? length (vm_stack w) - vm_fb w) = false) as ->
      by (apply Nat.ltb_ge; lia). apply sim_err.
  - assert ((vm_sp w - vm_fb w <? length (vm_stack w) - vm_fb w) = true) as ->
      by (apply Nat.ltb_lt; lia).
    assert ((vm_sp w <? length (vm_stack w)) = true) as -> by (apply Nat.ltb_lt; lia).
    unfold sim. apply (trial_set_cells w F n hs t); [done|done|..].
    + by rewrite length_insert.
    + by rewrite take_insert_ge by lia.
    + lia.
    + rewrite length_insert. lia.
    + assert (<[vm_sp w:=v]> (vm_stack w) !! vm_sp w = Some v) as Hv
        by (apply list_lookup_insert_eq; lia).
      rewrite (take_S_r _ _ v Hv), take_insert_ge by lia.
      rewrite drop_app_le by (rewrite length_take; lia). by rewrite (ta_cells _ _ _ _ Ht).
Qed.

Lemma pop_sim w t :
  trial w F n t →
  sim w (vm_pop w) (t_pop t) (λ v r w', v = r.1 ∧ trial w' F n r.2).
Proof.
  intros [Hroom [hs Ht]]. pose proof (cells_length _ _ _ _ Ht) as Hl.
  pose proof (ta_sp _ _ _ _ Ht) as Hsp. pose proof (ta_fb _ _ _ _ Ht) as Hfb.
  unfold vm_pop, t_pop. destruct (vm_sp w <=? vm_fb w) eqn:E.
  - apply Nat.leb_le in E. destruct (t_cells t); simpl in Hl; [|lia]. apply sim_err.
  - apply Nat.leb_gt in E. rewrite last_lookup, Hl.
    replace (Nat.pred (vm_sp w - vm_fb w)) with (vm_sp w - 1 - vm_fb w) by lia.
    rewrite (ta_cells _ _ _ _ Ht) at 1. rewrite lookup_drop, lookup_take_lt by lia.
    replace (vm_fb w + (vm_sp w - 1 - vm_fb w)) with (vm_sp w - 1) by lia.
    change (vm_stack (set_sp (vm_sp w - 1) w)) with (vm_stack w).
    change (vm_sp (set_sp (vm_sp w - 1) w)) with (vm_sp w - 1).
    destruct (lookup_lt_is_Some_2 (vm_stack w) (vm_sp w - 1)) as [v Hv]; [lia|]. rewrite Hv.
    unfold sim, or_panic.
    destruct (trial_set_cells w F n hs t (vm_sp w - 1) (vm_stack w)
      (take (vm_sp w - vm_fb w - 1) (t_cells t))) as [Hg Ht']; [done|done|done|done|lia|lia| |].
    + rewrite (ta_cells _ _ _ _ Ht), take_drop_commute, take_take. f_equal. f_equal. lia.
    + split; [exact Hg|]. split; [done|]. exact Ht'.
Qed.

Lemma local_sim w t local :
  trial w F n t →
  sim w (vm_local local w) (ok_or (t_cells t !! local) InvalidLocal)
    (λ v v' w', v = v' ∧ w' = w).
Proof.
  intros [Hroom [hs Ht]]. pose proof (ta_sp _ _ _ _ Ht) as Hsp. pose proof (ta_fb _ _ _ _ Ht) as Hfb.
  unfold vm_local. rewrite (ta_cells _ _ _ _ Ht), lookup_drop.
  destruct (vm_sp w <=? vm_fb w + local) eqn:E.
  - apply Nat.leb_le in E. rewrite lookup_take_ge by lia. apply sim_err.
  - apply Nat.leb_gt in E. rewrite lookup_take_lt by lia.
    destruct (lookup_lt_is_Some_2 (vm_stack w) (vm_fb w + local)) as [v Hv]; [lia|]. rewrite Hv.
    by apply sim_ret.
Qed.

Lemma set_local_sim w t local v :
  trial w F n t →
  sim w (vm_set_local local v w)
    (if local <? length (t_cells t)
     then Ok (Trial_mk (<[local := v]> (t_cells t)) (t_stacks t) (t_next t)) else Err InvalidLocal)
    (λ _ t' w', trial w' F n t').
Proof.
  intros [Hroom [hs Ht]]. pose proof (cells_length _ _ _ _ Ht) as Hl. rewrite Hl.
  pose proof (ta_sp _ _ _ _ Ht) as Hsp. pose proof (ta_fb _ _ _ _ Ht) as Hfb.
  unfold vm_set_local. destruct (vm_sp w <=? vm_fb w + local) eqn:E.
  - apply Nat.leb_le in E.
    assert ((local <? vm_sp w - vm_fb w) = false) as -> by (apply Nat.ltb_ge; lia). apply sim_err.
  - apply Nat.leb_gt in E.
    assert ((local <? vm_sp w - vm_fb w) = true) as -> by (apply Nat.ltb_lt; lia).
    assert ((vm_fb w + local <? length (vm_stack w)) = true) as -> by (apply Nat.ltb_lt; lia).
    unfold sim.
    replace (set_stack (<[vm_fb w + local:=v]> (vm_stack w)) w)
      with (set_sp (vm_sp w) (set_stack (<[vm_fb w + local:=v]> (vm_stack w)) w)) by (by destruct w).
    apply (trial_set_cells w F n hs t); [done|done|by rewrite length_insert| |done| |].
    + by rewrite take_insert_ge by lia.
    + by rewrite length_insert.
    + rewrite take_insert_lt, drop_insert_ge by lia. rewrite (ta_cells _ _ _ _ Ht). f_equal. lia.
Qed.
End steps.

(** ** Records, deltas and index deltas *)

Lemma push_arena_ok {T} (get : Workspace → PodArena T) set x w :
  arena_ok (get w) → in_u32 (pa_frontier (get w)) →
  ∃ a, vm_push_arena get set x w = (Ok (N.of_nat (pa_frontier (get w))), set a w) ∧ arena_ok a ∧
    pa_list a = pa_list (get w) ++ [x] ∧ pa_frontier a = S (pa_frontier (get w)).
Proof.
  intros Ha Hu. destruct (pa_push_ok (get w) x Ha Hu) as (a & Hp & H).
  exists a. split; [|done]. unfold vm_push_arena. by rewrite Hp.
Qed.

Lemma vm_bind_Ok {A B} (m : vm A) (k : A → vm B) w a w' :
  m w = (Ok a, w') → (m ≫= k) w = k a w'.
Proof. intros H. unfold mbind, vm_bind. by rewrite H. Qed.

Lemma append_fact_ok f r added w :
  arena_ok (vm_index_deltas w) → (N.of_nat (pa_frontier (vm_index_deltas w)) + 3 <= NONE)%N →
  ∃ a, append_fact_indexes f r added w = (Ok tt, set_index_deltas a w) ∧ arena_ok a ∧
    pa_list a = pa_list (vm_index_deltas w) ++ fact_deltas f r added.
Proof.
  intros Ha Hroom. unfold append_fact_indexes.
  destruct (push_arena_ok vm_index_deltas set_index_deltas (IndexDelta_mk Spo added (fr_subject f)
    (fr_predicate f) (fr_object f) r (fr_slot f)) w) as (a1 & E1 & H1 & L1 & F1); [done|unfold in_u32; lia|].
  rewrite (vm_bind_Ok _ _ _ _ _ E1).
  destruct (push_arena_ok vm_index_deltas set_index_deltas (IndexDelta_mk Pos added (fr_predicate f)
    (fr_object f) (fr_subject f) r (fr_slot f)) (set_index_deltas a1 w)) as (a2 & E2 & H2 & L2 & F2);
    [done|unfold in_u32; simpl; lia|].
  rewrite (vm_bind_Ok _ _ _ _ _ E2).
  destruct (push_arena_ok vm_index_deltas set_index_deltas (IndexDelta_mk Osp added (fr_object f)
    (fr_subject f) (fr_predicate f) r (fr_slot f)) (set_index_deltas a2 (set_index_deltas a1 w)))
    as (a3 & E3 & H3 & L3 & F3); [done|unfold in_u32; simpl in *; lia|].
  rewrite (vm_bind_Ok _ _ _ _ _ E3). exists a3. split; [done|]. split; [done|].
  simpl in *. by rewrite L3, L2, L1, <- !(assoc_L (++)).
Qed.

Lemma index_record_ok h added w :
  arena_ok (vm_records w) → arena_ok (vm_index_deltas w) →
  (N.of_nat (pa_frontier (vm_index_deltas w)) + 3 <= NONE)%N →
  (h ≠ NONE → is_Some (pa_list (vm_records w) !! N.to_nat h)) →
  ∃ a, index_record h added w = (Ok tt, set_index_deltas a w) ∧ arena_ok a ∧
    pa_list a = pa_list (vm_index_deltas w) ++ head_deltas (pa_list (vm_records w)) h added.
Proof.
  intros Hr Ha Hroom Hh. unfold index_record, head_deltas. destruct (decide (h = NONE)) as [|Hn].
  - exists (vm_index_deltas w). split; [by destruct w|]. by rewrite app_nil_r.
  - destruct (Hh Hn) as [f Hf]. rewrite Hf.
    assert (vm_gets (λ w, or_panic (pa_get (vm_records w) h)) w = (Ok f, w)) as E.
    { unfold vm_gets. by rewrite pa_get_ok, Hf by done. }
    rewrite (vm_bind_Ok _ _ _ _ _ E). by apply append_fact_ok.
Qed.

Lemma head_deltas_length rs h added : length (head_deltas rs h added) ≤ 3.
Proof. unfold head_deltas. case_decide; [simpl; lia|]. destruct (rs !! _); simpl; lia. Qed.

Lemma transition_ok h h' w :
  arena_ok (vm_records w) → arena_ok (vm_index_deltas w) →
  (N.of_nat (pa_frontier (vm_index_deltas w)) + 6 <= NONE)%N →
  (h ≠ NONE → is_Some (pa_list (vm_records w) !! N.to_nat h)) →
  (h' ≠ NONE → is_Some (pa_list (vm_records w) !! N.to_nat h')) →
  ∃ a l, append_index_transition h h' w = (Ok tt, set_index_deltas a w) ∧ arena_ok a ∧
    pa_list a = pa_list (vm_index_deltas w) ++ l ∧ length l ≤ 6 ∧
    (vm_track w = true → l = head_deltas (pa_list (vm_records w)) h false ++
                             head_deltas (pa_list (vm_records w)) h' true).
Proof.
  intros Hr Ha Hroom Hh Hh'. unfold append_index_transition. destruct (vm_track w) eqn:Ht.
  - destruct (index_record_ok h false w) as (a1 & E1 & H1 & L1); [done|done|lia|done|].
    pose proof (head_deltas_length (pa_list (vm_records w)) h false) as Hl1.
    pose proof (head_deltas_length (pa_list (vm_records w)) h' true) as Hl2.
    assert (pa_frontier a1 ≤ pa_frontier (vm_index_deltas w) + 3) as Hf1.
    { rewrite <- (pa_list_length a1), L1, length_app, (pa_list_length _ Ha) by done. lia. }
    destruct (index_record_ok h' true (set_index_deltas a1 w)) as (a2 & E2 & H2 & L2);
      [done|done|simpl; lia|done|].
    rewrite (vm_bind_Ok _ _ _ _ _ E1), E2. simpl in *.
    exists a2. eexists. split; [done|]. split; [done|].
    rewrite L2, L1, <- (assoc_L (++)). split; [done|]. split; [|done]. rewrite length_app. lia.
  - exists (vm_index_deltas w), []. split; [by destruct w|]. rewrite app_nil_r.
    split_and!; [done|done|simpl; lia|done].
Qed.

Lemma chain_head_valid rs slot h st : chain rs slot h st → h ≠ NONE → is_Some (rs !! N.to_nat h).
Proof. by destruct 1; intros; [|eauto]. Qed.

Lemma heads_rep_valid rs hs sts h :
  heads_rep rs hs sts → h ∈ hs → h ≠ NONE → is_Some (rs !! N.to_nat h).
Proof.
  intros [Hl H] [i Hi]%list_elem_of_lookup Hn.
  destruct (lookup_lt_is_Some_2 sts i) as [st Hst]; [rewrite <- Hl; by eapply lookup_lt_Some|].
  by apply (chain_head_valid _ _ _ _ (H _ _ _ Hi Hst)).
Qed.

(** Replacing the head of a slot: the common end of [vm_define] and
    [vm_forget]. *)
Lemma slot_step w F n hs t slot rec h h' st' :
  trial_at w F hs t → room w (S n) → hs !! N.to_nat slot = Some h →
  chain (pa_list (vm_records w) ++ [rec]) (N.to_nat slot) h' st' →
  ∃ w',
    (_ ← vm_push_arena vm_records set_records rec;
     _ ← vm_push_arena vm_deltas set_deltas (SlotDelta_mk slot h h');
     append_index_transition h h') w = (Ok tt, w') ∧
    grows w w' ∧
    trial w' F n (Trial_mk (t_cells t) (<[N.to_nat slot := st']> (t_stacks t)) (t_next t)).
Proof.
  intros Ht (Hr1 & Hr2 & Hr3) Hh Hc. destruct Ht.
  destruct (push_arena_ok vm_records set_records rec w) as (ra & E1 & Hra & Lra & Fra);
    [done|unfold in_u32; lia|].
  destruct (push_arena_ok vm_deltas set_deltas (SlotDelta_mk slot h h') (set_records ra w))
    as (da & E2 & Hda & Lda & Fda); [done|unfold in_u32; simpl; lia|]. simpl in Lda, Fda.
  assert (h ∈ hs) as Hin by (by eapply list_elem_of_lookup_2).
  assert (h ≠ NONE → is_Some ((pa_list (vm_records w) ++ [rec]) !! N.to_nat h)) as Hv.
  { intros Hn. destruct (heads_rep_valid _ _ _ _ ta_rep0 Hin Hn) as [f Hf].
    exists f. by apply lookup_app_l_Some. }
  destruct (transition_ok h h' (set_deltas da (set_records ra w)))
    as (ia & l & E3 & Hia & Lia & Hll & Htr); simpl in *;
    [done|done|lia|by rewrite Lra|rewrite Lra; by eapply chain_head_valid|].
  rewrite (vm_bind_Ok _ _ _ _ _ E1), (vm_bind_Ok _ _ _ _ _ E2), E3.
  eexists. split; [done|].
  assert (pa_frontier ia ≤ pa_frontier (vm_index_deltas w) + 6) as Fia.
  { rewrite <- (pa_list_length ia), Lia, length_app, pa_list_length by done. lia. }
  split.
  - split; simpl; try done; intros _; (split; [done|]); eauto.
  - split; [split_and!; simpl; lia|]. exists (<[N.to_nat slot := h']> hs).
    split; simpl; try done.
    + lia.
    + rewrite Lda, drop_app_le by (rewrite pa_list_length; done). rewrite apply_deltas_app, ta_heads0.
      simpl. unfold set_head. simpl. apply lookup_lt_Some in Hh as Hlt.
      apply Nat.ltb_lt in Hlt. by rewrite Hlt.
    + rewrite Lra. apply heads_rep_insert; [by apply heads_rep_app|done].
    + intros [Htrack Hidx]%ta_idx0. split; [done|]. rewrite Lra, Lia, (Htr Htrack), Lra.
      apply index_transition; [|done|done|by eapply chain_head_valid|].
      2: { eapply heads_fresh; [|exact Hc]. by apply heads_rep_app. }
      apply index_rep_app; [done|]. intros h1 Hin1 Hn1. by eapply heads_rep_valid.
Qed.

Section steps2.
Context (F n : nat).

Lemma trial_head_ok w hs t slot :
  trial_at w F hs t → resolve_trial_head slot F w = ok_or (hs !! N.to_nat slot) InvalidSlot.
Proof.
  intros []. unfold resolve_trial_head, accepted_head.
  pose proof (apply_deltas_lookup _ _ _ slot ta_heads0) as Hl.
  pose proof (apply_deltas_length _ _ _ ta_heads0) as Hlen.
  rewrite pa_since_ok by done. cbn [or_panic outcome_bind].
  destruct (vm_heads w !! N.to_nat slot) as [h|] eqn:Hh; cbn [ok_or outcome_bind].
  - destruct (last_delta slot _); by rewrite Hl.
  - assert (hs !! N.to_nat slot = None) as -> by
      (apply lookup_ge_None in Hh; apply lookup_ge_None; lia). done.
Qed.

Lemma define_sim w t slot s p o :
  trial w F (S n) t →
  sim w (vm_define slot s p o F w) (t_set_stack slot (λ st, (s, p, o) :: st) t)
    (λ _ t' w', trial w' F n t').
Proof.
  intros [Hroom [hs Ht]]. unfold vm_define, t_set_stack.
  assert (∀ B (k : N → vm B), (vm_gets (resolve_trial_head slot F) ≫= k) w =
    match hs !! N.to_nat slot with Some h => k h w | None => (Err InvalidSlot, w) end) as ->.
  { intros B k. unfold mbind, vm_bind, vm_gets. rewrite (trial_head_ok _ _ _ slot Ht).
    by destruct (hs !! N.to_nat slot). }
  pose proof (heads_rep_lookup _ _ _ (N.to_nat slot) (ta_rep _ _ _ _ Ht)) as Hl.
  destruct (hs !! N.to_nat slot) as [h|] eqn:Hh.
  - destruct Hl as (st & Hst & Hc). rewrite Hst. cbn [ok_or outcome_bind].
    assert (vm_gets (λ w, Ok (as_u32 (pa_frontier (vm_records w)))) w =
      (Ok (N.of_nat (length (pa_list (vm_records w)))), w)) as E.
    { unfold vm_gets. destruct Hroom as (Hr & _). rewrite as_u32_small by (unfold in_u32; lia).
      by rewrite pa_list_length by apply Ht. }
    rewrite (vm_bind_Ok _ _ _ _ _ E).
    edestruct (slot_step w F n hs t slot) as (w' & Hw' & Hg & Ht'); [done|done|done| |].
    2: { rewrite Hw'. split; [done|exact Ht']. }
    eapply (chain_cons _ _ _ (FactRecord_mk KDefine slot s p o h _)); [|by rewrite Nat2N.id, lookup_snoc_length|done|].
    + destruct Hroom as (Hr & _). rewrite pa_list_length by apply Ht. lia.
    + by apply chain_app.
  - rewrite Hl. apply sim_err.
Qed.

Lemma forget_sim w t slot :
  trial w F (S n) t →
  sim w (vm_forget slot F w) (t_set_stack slot tail t) (λ _ t' w', trial w' F n t').
Proof.
  intros [Hroom [hs Ht]]. unfold vm_forget, t_set_stack.
  assert (∀ B (k : N → vm B), (vm_gets (resolve_trial_head slot F) ≫= k) w =
    match hs !! N.to_nat slot with Some h => k h w | None => (Err InvalidSlot, w) end) as ->.
  { intros B k. unfold mbind, vm_bind, vm_gets. rewrite (trial_head_ok _ _ _ slot Ht).
    by destruct (hs !! N.to_nat slot). }
  pose proof (heads_rep_lookup _ _ _ (N.to_nat slot) (ta_rep _ _ _ _ Ht)) as Hl.
  destruct (hs !! N.to_nat slot) as [h|] eqn:Hh; [|rewrite Hl; apply sim_err].
  destruct Hl as (st & Hst & Hc). rewrite Hst. cbn [ok_or outcome_bind].
  assert (∃ h', vm_gets (λ w, if decide (h = NONE) then Ok NONE
    else let* r := or_panic (pa_get (vm_records w) h) in Ok (fr_previous_visible r)) w = (Ok h', w) ∧
    chain (pa_list (vm_records w)) (N.to_nat slot) h' (tail st)) as (h' & E & Hc').
  { unfold vm_gets. destruct Hc as [|i r st Hi Hr Hs Hc]; [exists NONE; split; [by rewrite decide_True|constructor]|].
    rewrite decide_False by done. rewrite pa_get_ok, Hr by apply Ht.
    exists (fr_previous_visible r). split; [done|exact Hc]. }
  rewrite (vm_bind_Ok _ _ _ _ _ E).
  destruct (slot_step w F n hs t slot (FactRecord_mk KForget slot 0 0 0 h h') h h' (tail st))
    as (w' & Hw' & Hg & Ht'); [done|done|done|by apply chain_app|].
  rewrite Hw'. split; [done|exact Ht'].
Qed.

Lemma expect_sim w t slot :
  trial w F (S n) t →
  resolve_trial_object slot F w =
    let* st := ok_or (t_stacks t !! N.to_nat slot) InvalidSlot in
    Ok (match st with [] => None | (_, _, o) :: _ => Some o end).
Proof.
  intros [_ [hs Ht]]. unfold resolve_trial_object. rewrite (trial_head_ok _ _ _ slot Ht).
  pose proof (heads_rep_lookup _ _ _ (N.to_nat slot) (ta_rep _ _ _ _ Ht)) as Hl.
  destruct (hs !! N.to_nat slot) as [h|]; [|by rewrite Hl]. destruct Hl as (st & -> & Hc).
  cbn [ok_or outcome_bind]. destruct Hc as [|i r st Hi Hr Hs Hc]; [done|].
  rewrite decide_False by done. by rewrite pa_get_ok, Hr by apply Ht.
Qed.
End steps2.

(** ** Execution *)

Lemma trial_weaken w F n m t : m ≤ n → trial w F n t → trial w F m t.
Proof. intros Hm [(H1 & H2 & H3) Ht]. split; [|done]. split_and!; lia. Qed.

Lemma trial_set_next w F n t next :
  trial w F n t →
  grows w (set_next next w) ∧ trial (set_next next w) F n (Trial_mk (t_cells t) (t_stacks t) next).
Proof. intros [Hr [hs []]]. split; [by split|]. split; [done|]. exists hs. by split. Qed.

Lemma sim_step {A B} w w1 (r : outcome ExecError A * Workspace) (s : outcome ExecError B) R :
  grows w w1 → sim w1 r s R → sim w r s R.
Proof.
  unfold sim. intros Hg. destruct r as [[a|e|] w']; destruct s as [b|e'|]; try done.
  - intros [Hg' HR]. split; [by etrans|done].
  - intros [-> Hg']. split; [done|by etrans].
Qed.

Lemma sim_mono {A B} w (r : outcome ExecError A * Workspace) (s : outcome ExecError B)
    (R Q : A → B → Workspace → Prop) :
  (∀ a b w', R a b w' → Q a b w') → sim w r s R → sim w r s Q.
Proof. unfold sim. intros H. destruct r as [[a|e|] w'], s as [b|e'|]; naive_solver. Qed.

Lemma instruction_sim F n w i t :
  trial w F (S n) t →
  sim w (execute_instruction i F w) (spec_instruction (frame_capacity w) (vm_hash w) i t)
    (λ _ t' w', trial w' F n t').
Proof.
  intros Ht. assert (trial w F n t) as Hn by (eapply trial_weaken; [|exact Ht]; lia).
  unfold execute_instruction, spec_instruction. destruct (opcode i).
  - destruct (decide (argument i = NONE)).
    + destruct (decide (vm_hash w = immediate i)) as [He|He];
        [rewrite decide_False by (intros Hne; by apply Hne); by apply sim_ret
        |rewrite decide_True by done; apply sim_err].
    + unfold mbind, vm_bind, vm_gets. rewrite (expect_sim F n w t _ Ht).
      destruct (t_stacks t !! N.to_nat (argument i)) as [st|]; [|apply sim_err].
      cbn [ok_or outcome_bind]. destruct st as [|[[s p] o] st]; [apply sim_err|].
      case_decide; [by apply sim_ret|apply sim_err].
  - destruct (trial_set_next w F n t (u64_saturating_add (vm_next w) 1) Hn) as [Hg Ht'].
    assert (t_next t = vm_next w) as -> by (destruct Ht as [_ [hs []]]; done).
    eapply sim_step; [exact Hg|]. apply (push_sim F n _ _ (vm_next w) Ht').
  - destruct (trial_set_next w F n t (u64_saturating_add (vm_next w) 1) Hn) as [Hg Ht'].
    assert (t_next t = vm_next w) as -> by (destruct Ht as [_ [hs []]]; done). by split.
  - eapply (sim_bind w _ _ _ _ _ _ (local_sim F n w t _ Hn)). intros v v' w' _ [-> ->].
    by apply push_sim.
  - eapply (sim_bind w _ _ _ _ _ _ (pop_sim F n w t Hn)). intros v r w' _ [-> Ht'].
    by apply set_local_sim.
  - by apply push_sim.
  - eapply (sim_bind w _ _ _ _ _ _ (pop_sim F (S n) w t Ht)). intros o ro w1 _ [-> H1].
    eapply (sim_bind w1 _ _ _ _ _ _ (pop_sim F (S n) w1 _ H1)). intros p rp w2 _ [-> H2].
    eapply (sim_bind w2 _ _ _ _ _ _ (pop_sim F (S n) w2 _ H2)). intros s rs w3 _ [-> H3].
    by apply define_sim.
  - by apply forget_sim.
  - apply sim_err.
Qed.

Lemma loop_sim F prog : ∀ w t,
  trial w F (length prog) t →
  sim w (execute_loop prog F w) (spec_loop (frame_capacity w) (vm_hash w) prog t)
    (λ _ t' w', trial w' F 0 t').
Proof.
  induction prog as [|i prog IH]; intros w t Ht; [by apply sim_ret|].
  cbn [execute_loop]. unfold spec_loop. cbn [outcome_fold]. fold (spec_loop (frame_capacity w) (vm_hash w)).
  eapply sim_bind; [by apply (instruction_sim F (length prog))|].
  intros [] t' w' Hg Ht'. rewrite <- (grows_capacity _ _ Hg), <- (g_hash _ _ Hg). by apply IH.
Qed.
End trials.

(** Executing an intent on a workspace: acceptance, rejection and rollback against
    the abstract machine. *)

Section trials.
  Context (ix : bool).

(** A workspace between intents: its arenas and heads represent the stacks. *)
Record vm_ok (w : Workspace) (sts : vm_stacks) : Prop := {
  vo_records : arena_ok (vm_records w);
  vo_deltas : arena_ok (vm_deltas w);
  vo_index : arena_ok (vm_index_deltas w);
  vo_sp : vm_sp w ≤ length (vm_stack w);
  vo_rep : heads_rep (pa_list (vm_records w)) (vm_heads w) sts;
  vo_idx : ix = true →
    vm_track w = true ∧ index_rep (pa_list (vm_records w)) (vm_heads w) (pa_list (vm_index_deltas w));
}.

(** Indistinguishable but for the arena cells past the frontiers and the stack
    cells past the stack pointer. *)
Record same_state (w w' : Workspace) : Prop := {
  ss_sp : vm_sp w' = vm_sp w;
  ss_fb : vm_fb w' = vm_fb w;
  ss_stack : take (vm_sp w) (vm_stack w') = take (vm_sp w) (vm_stack w) ∧
    length (vm_stack w') = length (vm_stack w);
  ss_records : pa_list (vm_records w') = pa_list (vm_records w);
  ss_deltas : pa_list (vm_deltas w') = pa_list (vm_deltas w);
  ss_index : pa_list (vm_index_deltas w') = pa_list (vm_index_deltas w);
  ss_roots : vm_roots w' = vm_roots w ∧ vm_last_root w' = vm_last_root w ∧ vm_version w' = vm_version w;
  ss_heads : vm_heads w' = vm_heads w;
  ss_next : vm_next w' = vm_next w;
  ss_hash : vm_hash w' = vm_hash w;
  ss_flags : vm_track w' = vm_track w ∧ vm_hist w' = vm_hist w;
}.

Lemma vm_new_ok slots stack rc dc track :
  (ix = true → track = true) →
  vm_ok (Workspace_new slots stack rc dc track) (replicate slots []).
Proof.
  intros Htrack. split; simpl; try done; try lia.
  - unfold arena_ok. simpl. lia.
  - unfold arena_ok. simpl. lia.
  - unfold arena_ok. simpl. lia.
  - split; [by rewrite !length_replicate|]. intros i h st Hh Hst.
    apply lookup_replicate in Hh as [-> _]. apply lookup_replicate in Hst as [-> _]. constructor.
  - intros Hix. split; [by apply Htrack|]. apply index_rep_empty.
Qed.

(** A trial that is rolled back. *)
Lemma rollback_same w w' :
  arena_ok (vm_records w) → arena_ok (vm_deltas w) → arena_ok (vm_index_deltas w) →
  grows (set_fb (vm_sp w) w) w' → same_state w (rollback (checkpoint w) w').
Proof.
  intros Hr Hd Hi [].
  destruct g_records0 as [Hr' [l1 L1]]; [done|]. destruct g_deltas0 as [Hd' [l2 L2]]; [done|].
  destruct g_index0 as [Hi' [l3 L3]]; [done|]. simpl in *.
  assert (∀ T (a a' : PodArena T) l, arena_ok a → arena_ok a' → pa_list a' = pa_list a ++ l →
    pa_list (pa_restore a' (pa_frontier a)) = pa_list a) as Hrestore.
  { intros T a a' l Ha Ha' Hl. pose proof (pa_list_length a' Ha') as Hlen.
    rewrite Hl, length_app, (pa_list_length a Ha) in Hlen.
    destruct (pa_restore_ok a' (pa_frontier a) Ha') as [_ ->]; [lia|].
    rewrite Hl, take_app_le by (by rewrite pa_list_length). by rewrite <- (pa_list_length a Ha), firstn_all. }
  split; simpl; try done; by eapply Hrestore.
Qed.

Lemma rollback_arenas w w' :
  arena_ok (vm_records w) → arena_ok (vm_deltas w) → arena_ok (vm_index_deltas w) →
  grows (set_fb (vm_sp w) w) w' →
  let w'' := rollback (checkpoint w) w' in
  arena_ok (vm_records w'') ∧ arena_ok (vm_deltas w'') ∧ arena_ok (vm_index_deltas w'').
Proof.
  intros Hr Hd Hi [].
  destruct g_records0 as [Hr' [l1 L1]]; [done|]. destruct g_deltas0 as [Hd' [l2 L2]]; [done|].
  destruct g_index0 as [Hi' [l3 L3]]; [done|]. simpl in *.
  assert (∀ T (a a' : PodArena T) l, arena_ok a → arena_ok a' → pa_list a' = pa_list a ++ l →
    arena_ok (pa_restore a' (pa_frontier a))) as Hrestore.
  { intros T a a' l Ha Ha' Hl. pose proof (pa_list_length a' Ha') as Hlen.
    rewrite Hl, length_app, (pa_list_length a Ha) in Hlen.
    apply (pa_restore_ok a' (pa_frontier a) Ha'). lia. }
  split_and!; by eapply Hrestore.
Qed.

Lemma same_state_ok w w' sts :
  same_state w w' → vm_ok w sts →
  arena_ok (vm_records w') → arena_ok (vm_deltas w') → arena_ok (vm_index_deltas w') → vm_ok w' sts.
Proof.
  intros [] [] Hr Hd Hi. split; try done.
  - destruct ss_stack0. congruence.
  - by rewrite ss_records0, ss_heads0.
  - destruct ss_flags0 as [-> _]. by rewrite ss_records0, ss_heads0, ss_index0.
Qed.

Lemma trial_start w sts n sp :
  vm_ok w sts → room w n → vm_sp w ≤ sp → sp ≤ length (vm_stack w) →
  trial ix (set_sp sp (set_fb (vm_sp w) w)) (pa_frontier (vm_deltas w)) n
    (Trial_mk (drop (vm_sp w) (take sp (vm_stack w))) sts (vm_next w)).
Proof.
  intros [] Hroom H1 H2. split; [done|]. exists (vm_heads w). split; simpl; try done.
  by rewrite drop_ge by (rewrite pa_list_length; done).
Qed.

(** What accepting an intent may change: the arenas and the heads grow by the
    trial's records and deltas. *)
Record extends (w w' : Workspace) : Prop := {
  ex_sp : vm_sp w' = vm_sp w;
  ex_fb : vm_fb w' = vm_fb w;
  ex_stack : take (vm_sp w) (vm_stack w') = take (vm_sp w) (vm_stack w);
  ex_roots : vm_roots w' = vm_roots w ∧ vm_last_root w' = vm_last_root w ∧ vm_version w' = vm_version w;
  ex_flags : vm_track w' = vm_track w ∧ vm_hist w' = vm_hist w;
  ex_records : pa_list (vm_records w) `prefix_of` pa_list (vm_records w');
  ex_deltas : ∃ l, pa_list (vm_deltas w') = pa_list (vm_deltas w) ++ l ∧
    apply_deltas l (vm_heads w) = Some (vm_heads w');
  ex_index : pa_list (vm_index_deltas w) `prefix_of` pa_list (vm_index_deltas w');
}.

Lemma accept_ok w w' t :
  arena_ok (vm_records w) → arena_ok (vm_deltas w) → arena_ok (vm_index_deltas w) →
  grows (set_fb (vm_sp w) w) w' → trial ix w' (pa_frontier (vm_deltas w)) 0 t → vm_sp w ≤ length (vm_stack w) →
  ∃ w'', accept (checkpoint w) w' = Some w'' ∧ vm_ok w'' (t_stacks t) ∧ vm_next w'' = t_next t ∧
    extends w w'' ∧ room w'' 0.
Proof.
  intros Hr Hd Hi [] [Hroom [hs []]] Hsp.
  destruct g_records0 as [Hr' [l1 L1]]; [done|]. destruct g_deltas0 as [Hd' [l2 L2]]; [done|].
  destruct g_index0 as [Hi' [l3 L3]]; [done|]. simpl in *.
  unfold accept. simpl. rewrite (pa_since_ok (vm_deltas w')) by done. rewrite option_bind_Some.
  rewrite ta_heads0, option_bind_Some, (pa_since_ok (vm_records w')); [|done|].
  2: { rewrite <- (pa_list_length _ Hr), <- (pa_list_length _ Hr'), L1, length_app. lia. }
  rewrite option_bind_Some. eexists. split; [done|]. split_and!; simpl; try done.
  - split; simpl; try done. by rewrite g_stack0.
  - split; simpl; try done; [by exists l1| |by exists l3].
    exists l2. split; [done|]. rewrite <- g_heads0. rewrite <- (pa_list_length _ Hd), L2, drop_app_length in ta_heads0.
    exact ta_heads0.
Qed.

(** What the machine starts an intent with: its frame holds whatever was left in
    the reserved cells. *)
Definition start_trial (w : Workspace) (locals : N) (sts : vm_stacks) : Trial :=
  Trial_mk (drop (vm_sp w) (take (vm_sp w + N.to_nat locals) (vm_stack w))) sts (vm_next w).

Lemma execute_spec w sts locals prog :
  vm_ok w sts → room w (length prog) →
  match execute_instructions locals prog w with
  | Some (Accepted, w') => vm_sp w + N.to_nat locals ≤ length (vm_stack w) ∧
      ∃ t, spec_loop (length (vm_stack w) - vm_sp w) (vm_hash w) prog (start_trial w locals sts) = Ok t ∧
        vm_ok w' (t_stacks t) ∧ vm_next w' = t_next t ∧ extends w w' ∧ room w' 0
  | Some (Rejected e, w') => same_state w w' ∧ vm_ok w' sts ∧
      if length (vm_stack w) <? vm_sp w + N.to_nat locals then e = StackOverflow
      else spec_loop (length (vm_stack w) - vm_sp w) (vm_hash w) prog (start_trial w locals sts) = Err e
  | None => False
  end.
Proof.
  intros Hok Hroom. unfold execute_instructions, reserve. simpl.
  assert (∀ w' sts', grows (set_fb (vm_sp w) w) w' → vm_ok w sts' →
    same_state w (rollback (checkpoint w) w') ∧ vm_ok (rollback (checkpoint w) w') sts') as Hback.
  { intros w' sts' Hg []. pose proof (rollback_same w w' ltac:(done) ltac:(done) ltac:(done) Hg) as Hs.
    split; [done|]. destruct (rollback_arenas w w') as (H1 & H2 & H3); [done..|].
    by apply (same_state_ok w). }
  destruct (length (vm_stack w) <? vm_sp w + N.to_nat locals) eqn:E.
  - destruct (Hback (set_fb (vm_sp w) w) sts) as [H1 H2]; [done|done|]. done.
  - apply Nat.ltb_ge in E.
    pose proof (trial_start w sts (length prog) (vm_sp w + N.to_nat locals) Hok Hroom ltac:(lia) E) as Ht.
    pose proof (loop_sim ix (pa_frontier (vm_deltas w)) prog _ _ Ht) as Hsim.
    set (w1 := set_sp (vm_sp w + N.to_nat locals) (set_fb (vm_sp w) w)) in *.
    change (set_sp (vm_sp (set_fb (vm_sp w) w) + N.to_nat locals) (set_fb (vm_sp w) w)) with w1.
    assert (grows (set_fb (vm_sp w) w) w1) as Hg1 by (by split).
    change (frame_capacity w1) with (length (vm_stack w) - vm_sp w) in Hsim.
    change (vm_hash w1) with (vm_hash w) in Hsim. fold (start_trial w locals sts) in Hsim.
    unfold sim in Hsim.
    destruct (execute_loop prog _ w1) as [[u|e|] w2]; [| |done];
      destruct (spec_loop _ _ prog (start_trial w locals sts)) as [t|e'|]; try done.
    + destruct Hsim as [Hg Ht'].
      destruct (accept_ok w w2 t) as (w3 & -> & H1 & H2 & H3 & H4);
        [apply Hok|apply Hok|apply Hok|by etrans|done|apply Hok|].
      cbn [mbind option_bind]. split; [done|]. by exists t.
    + destruct Hsim as [<- Hg]. destruct (Hback w2 sts) as [H1 H2]; [by etrans|done|done].
Qed.
End trials.

(** How far an accepted intent moves the frontiers of the stack VM: one record and
    one slot delta per define or forget, at most six index deltas each. *)

Definition instruction_writes (i : Instruction) : nat :=
  match opcode i with VmDefine | VmForget => 1 | _ => 0 end.
Definition program_writes (prog : list Instruction) : nat := sum_list (instruction_writes <$> prog).

(** [n] writes lead from [w] to [w']. *)
Record wrote (n : nat) (w w' : Workspace) : Prop := {
  wr_records : pa_frontier (vm_records w') = n + pa_frontier (vm_records w);
  wr_deltas : pa_frontier (vm_deltas w') = n + pa_frontier (vm_deltas w);
  wr_index : pa_frontier (vm_index_deltas w') ≤ 6 * n + pa_frontier (vm_index_deltas w);
  wr_stack : length (vm_stack w') = length (vm_stack w);
}.

Lemma wrote_refl w : wrote 0 w w.
Proof. by split. Qed.

Lemma wrote_trans n m w1 w2 w3 : wrote n w1 w2 → wrote m w2 w3 → wrote (n + m) w1 w3.
Proof. intros [] []. split; lia. Qed.

Lemma wrote_trans' n m k w1 w2 w3 : k = n + m → wrote n w1 w2 → wrote m w2 w3 → wrote k w1 w3.
Proof. intros ->. apply wrote_trans. Qed.

Lemma pa_push_frontier {T} (a : PodArena T) x i a' :
  pa_push a x = Some (i, a') → pa_frontier a' = S (pa_frontier a).
Proof. unfold pa_push. repeat case_match; intros; simplify_eq/=; done. Qed.

(** Pushing on one arena moves no other frontier. *)
Lemma push_index_wrote d i w w' :
  vm_push_arena vm_index_deltas set_index_deltas d w = (Ok i, w') →
  pa_frontier (vm_records w') = pa_frontier (vm_records w) ∧
  pa_frontier (vm_deltas w') = pa_frontier (vm_deltas w) ∧
  pa_frontier (vm_index_deltas w') = S (pa_frontier (vm_index_deltas w)) ∧
  length (vm_stack w') = length (vm_stack w).
Proof.
  unfold vm_push_arena. destruct (pa_push _ _) as [[j a]|] eqn:Hp; [|done].
  apply pa_push_frontier in Hp. intros [= <- <-]. done.
Qed.

(** Only index deltas were pushed, at most [n]. *)
Record indexed (n : nat) (w w' : Workspace) : Prop := {
  in_records : pa_frontier (vm_records w') = pa_frontier (vm_records w);
  in_deltas : pa_frontier (vm_deltas w') = pa_frontier (vm_deltas w);
  in_index : pa_frontier (vm_index_deltas w') ≤ n + pa_frontier (vm_index_deltas w);
  in_stack : length (vm_stack w') = length (vm_stack w);
}.

Lemma vm_bind_inv {A B} (m : vm A) (k : A → vm B) w b w' :
  (m ≫= k) w = (Ok b, w') → ∃ a w1, m w = (Ok a, w1) ∧ k a w1 = (Ok b, w').
Proof. unfold mbind, vm_bind. destruct (m w) as [[a|e|] w1]; [|done..]. eauto. Qed.

Ltac inv_vm := repeat match goal with
  | H : (_ ≫= _) _ = (Ok _, _) |- _ => apply vm_bind_inv in H as (? & ? & ? & ?)
  | H : mret _ _ = (Ok _, _) |- _ => injection H as ? ?; subst
  | H : vm_gets _ _ = (Ok _, _) |- _ => injection H as ? ?; subst
  end.

Lemma append_fact_indexes_indexed f r b u w w' :
  append_fact_indexes f r b w = (Ok u, w') → indexed 3 w w'.
Proof.
  unfold append_fact_indexes. intros Hr. inv_vm.
  repeat match goal with H : vm_push_arena _ _ _ _ = _ |- _ =>
    apply push_index_wrote in H as (? & ? & ? & ?) end.
  split; lia.
Qed.

Lemma index_record_indexed r b u w w' : index_record r b w = (Ok u, w') → indexed 3 w w'.
Proof.
  unfold index_record. case_decide; intros Hr; inv_vm; [split; lia|].
  by eapply append_fact_indexes_indexed.
Qed.

Lemma append_index_transition_indexed p r u w w' :
  append_index_transition p r w = (Ok u, w') → indexed 6 w w'.
Proof.
  unfold append_index_transition. destruct (vm_track w).
  - intros Hr. inv_vm. repeat match goal with H : index_record _ _ _ = _ |- _ =>
      apply index_record_indexed in H as [] end. split; lia.
  - intros [= _ <-]. split; lia.
Qed.

(** A record and a slot delta, then the index deltas. *)
Lemma write_wrote r d i j k p q w w1 w2 w3 :
  vm_push_arena vm_records set_records r w = (Ok i, w1) →
  vm_push_arena vm_deltas set_deltas d w1 = (Ok j, w2) →
  append_index_transition p q w2 = (Ok k, w3) → wrote 1 w w3.
Proof.
  unfold vm_push_arena. destruct (pa_push (vm_records w) _) as [[? a]|] eqn:Hp; [|done].
  intros [= _ <-]. destruct (pa_push (vm_deltas _) _) as [[? b]|] eqn:Hd; [|done].
  intros [= _ <-]. intros [H1 H2 H3 H4]%append_index_transition_indexed.
  apply pa_push_frontier in Hp, Hd. simpl in *. split; lia.
Qed.

Lemma vm_pop_wrote v w w' : vm_pop w = (Ok v, w') → wrote 0 w w'.
Proof. unfold vm_pop. case_match; [done|]. intros [= _ <-]. by split. Qed.

Lemma vm_push_wrote v u w w' : vm_push v w = (Ok u, w') → wrote 0 w w'.
Proof.
  unfold vm_push. case_decide; [done|]. case_match; [|done]. intros [= _ <-].
  split; simpl; rewrite ?length_insert; lia.
Qed.

Lemma vm_local_wrote n v w w' : vm_local n w = (Ok v, w') → wrote 0 w w'.
Proof. unfold vm_local. case_match; [done|]. intros [= _ <-]. by split. Qed.

Lemma vm_set_local_wrote n v u w w' : vm_set_local n v w = (Ok u, w') → wrote 0 w w'.
Proof.
  unfold vm_set_local. case_match; [done|]. case_match; [|done]. intros [= _ <-].
  split; simpl; rewrite ?length_insert; lia.
Qed.

Lemma instruction_wrote i F u w w' :
  execute_instruction i F w = (Ok u, w') → wrote (instruction_writes i) w w'.
Proof.
  unfold execute_instruction, instruction_writes. destruct (opcode i).
  - case_decide.
    + case_decide; [done|]. intros [= _ <-]. apply wrote_refl.
    + intros Hr. inv_vm. destruct x as [c|]; [case_decide|]; [|done..]. inv_vm. apply wrote_refl.
  - intros Hr%vm_push_wrote. by destruct Hr.
  - intros [= _ <-]. by split.
  - intros Hr. inv_vm. eapply (wrote_trans 0 0); [by eapply vm_local_wrote|by eapply vm_push_wrote].
  - intros Hr. inv_vm. eapply (wrote_trans 0 0); [by eapply vm_pop_wrote|by eapply vm_set_local_wrote].
  - by intros Hr%vm_push_wrote.
  - unfold vm_define. intros Hr. inv_vm.
    do 3 (eapply (wrote_trans 0 1); [by eapply vm_pop_wrote|]). by eapply write_wrote.
  - unfold vm_forget. intros Hr. inv_vm. by eapply write_wrote.
  - done.
Qed.

Lemma loop_wrote prog F u w w' :
  execute_loop prog F w = (Ok u, w') → wrote (program_writes prog) w w'.
Proof.
  revert w. induction prog as [|i prog IH]; intros w Hr; cbn [execute_loop] in Hr; inv_vm.
  - apply wrote_refl.
  - eapply (wrote_trans (instruction_writes i)); [by eapply instruction_wrote|by apply IH].
Qed.

Lemma execute_wrote locals prog w w' :
  execute_instructions locals prog w = Some (Accepted, w') → wrote (program_writes prog) w w'.
Proof.
  unfold execute_instructions, reserve. cbv zeta. destruct (_ <? _); [done|].
  destruct (execute_loop _ _ _) as [[u|e|] w1] eqn:Hl; [|done..].
  apply loop_wrote in Hl as [H1 H2 H3 H4]. unfold accept.
  destruct (pa_since (vm_deltas w1) _); [|done]. cbn [mbind option_bind].
  destruct (apply_deltas _ _); [|done]. cbn [mbind option_bind].
  destruct (pa_since (vm_records w1) _); [|done]. intros [= <-]. by split.
Qed.

(** An accepted intent uses up the room of its writes only. *)
Lemma wrote_room n m w w' : wrote n w w' → room w (n + m) → room w' m.
Proof. unfold room. intros [-> -> ? _] (? & ? & ?). lia. Qed.
