(* ===== verification/StackVmRoots.v ===== *)
(** Published roots of the stack VM: what a root reads as, and that it keeps
    reading so while the workspace goes on. *)
From Stdlib Require Import NArith ZArith Lia.
From stdpp Require Import sorting base option list strings list_monad relations.
From S2P Require Import Prelude Ord Bytes StackVm StackVmFacts StackVmTrial.

(** ** The specification of reads *)

Definition vfact_matches (p : QueryPattern) (f : Cell * Cell * Cell) : bool :=
  let '(s, q, o) := f in
  match p with
  | QSubject s' => s =? s'
  | QPredicate q' => q =? q'
  | QObject o' => o =? o'
  | QSubjectPredicate s' q' => (s =? s') && (q =? q')
  | QSubjectObject s' o' => (s =? s') && (o =? o')
  | QPredicateObject q' o' => (q =? q') && (o =? o')
  | QExact s' q' o' => (s =? s') && (q =? q') && (o =? o')
  end%N.

#[global] Arguments vfact_matches : simpl never.

Definition top_matches (p : QueryPattern) (st : list vfact) : bool :=
  match st with f :: _ => vfact_matches p f | [] => false end.

(** The slots whose visible fact matches, in ascending order. *)
Definition matching_slots_from (k : nat) (p : QueryPattern) (sts : vm_stacks) : list SlotToken :=
  concat (imap (λ i st, if top_matches p st then [N.of_nat (k + i)] else []) sts).
Definition matching_slots := matching_slots_from 0.

Definition visible_object (sts : vm_stacks) (slot : SlotToken) : option Cell :=
  st ← sts !! N.to_nat slot; snd <$> head st.

Lemma fact_matches_vfact p f :
  fact_matches p f = vfact_matches p (fr_subject f, fr_predicate f, fr_object f).
Proof. unfold vfact_matches. destruct p; simpl; try done; apply andb_comm. Qed.

(** ** The invariant of a workspace that tracks its indexes *)

Record vm_full (w : Workspace) (sts : vm_stacks) : Prop := {
  vf_ok : vm_ok true w sts;
  vf_room : room w 0;
  vf_deltas : apply_deltas (pa_list (vm_deltas w)) (replicate (length (vm_heads w)) NONE) =
    Some (vm_heads w);
}.

Lemma with_indexes_full slots stack rc dc :
  vm_full (with_indexes slots stack rc dc) (replicate slots []).
Proof.
  split; [by apply vm_new_ok|by split_and!|]. simpl. by rewrite length_replicate.
Qed.

Lemma apply_deltas_extend ds hs hs' more :
  apply_deltas ds hs = Some hs' → apply_deltas ds (hs ++ more) = Some (hs' ++ more).
Proof.
  revert hs. induction ds as [|d ds IH]; intros hs; simpl; [by intros [= ->]|].
  destruct (set_head hs d) as [hs1|] eqn:E; [|done]. simpl. intros H.
  apply set_head_Some in E as [Hlt ->]. unfold set_head.
  assert ((N.to_nat (sd_slot d) <? length (hs ++ more)) = true) as ->
    by (apply Nat.ltb_lt; rewrite length_app; lia).
  cbn [mbind option_bind]. rewrite insert_app_l by done. by apply IH.
Qed.

Lemma ensure_slot_count_ok ix w sts n :
  vm_ok ix w sts → vm_ok ix (ensure_slot_count n w) (sts ++ replicate (n - length sts) []).
Proof.
  intros []. unfold ensure_slot_count. pose proof (proj1 vo_rep) as Hlen.
  destruct (length (vm_heads w) <? n) eqn:E.
  - split; simpl; try done.
    + split; [rewrite !length_app, !length_replicate; lia|].
      intros i h st Hh Hst. apply lookup_app_Some in Hh as [Hh|[Hi Hh]].
      * rewrite lookup_app_l in Hst by (rewrite <- Hlen; by eapply lookup_lt_Some).
        by eapply (proj2 vo_rep).
      * rewrite lookup_app_r in Hst by lia. apply lookup_replicate in Hh as [-> _].
        apply lookup_replicate in Hst as [-> _]. constructor.
    + intros [Ht Hidx]%vo_idx. split; [done|]. by apply index_rep_slots.
  - apply Nat.ltb_ge in E. replace (n - length sts) with 0 by lia. rewrite app_nil_r. by split.
Qed.

Lemma ensure_slot_count_full w sts n :
  vm_full w sts → vm_full (ensure_slot_count n w) (sts ++ replicate (n - length sts) []).
Proof.
  intros [Hok Hroom Hd]. split; [by apply ensure_slot_count_ok|..]; unfold ensure_slot_count.
  - by destruct (_ <? n).
  - destruct (_ <? n) eqn:E; [|done]. simpl. rewrite length_app, length_replicate, replicate_add.
    by apply apply_deltas_extend.
Qed.

(** ** Execution preserves the invariant *)

Lemma execute_full w sts locals prog r w' :
  vm_full w sts → room w (length prog) → execute_instructions locals prog w = Some (r, w') →
  ∃ sts', vm_full w' sts'.
Proof.
  intros [Hok Hroom Hd] Hr He. pose proof (execute_spec true w sts locals prog Hok Hr) as Hs.
  rewrite He in Hs. destruct r as [|e].
  - destruct Hs as (_ & t & _ & Hok' & _ & [] & Hroom'). exists (t_stacks t). split; [done|done|].
    destruct ex_deltas as (l & -> & Hl). rewrite apply_deltas_app.
    rewrite (apply_deltas_length _ _ _ Hl), Hd. by rewrite option_bind_Some.
  - destruct Hs as ([] & Hok' & _). exists sts. split; [done| |by rewrite ss_deltas, ss_heads].
    destruct Hok, Hok'. unfold room in *.
    rewrite <- (pa_list_length (vm_records w')), <- (pa_list_length (vm_deltas w')),
      <- (pa_list_length (vm_index_deltas w')), ss_records, ss_deltas, ss_index by done.
    by rewrite !pa_list_length by done.
Qed.

Lemma publish_same w r w' :
  publish_epoch w = Some (r, w') →
  vm_records w' = vm_records w ∧ vm_deltas w' = vm_deltas w ∧
  vm_index_deltas w' = vm_index_deltas w ∧ vm_heads w' = vm_heads w ∧
  vm_stack w' = vm_stack w ∧ vm_sp w' = vm_sp w ∧ vm_track w' = vm_track w.
Proof.
  unfold publish_epoch. destruct (if decide _ then _ else _) as [prev|]; [|done].
  rewrite option_bind_Some. case_decide; [by intros [= _ <-]|].
  destruct (pa_push _ _) as [[i a]|]; [|done]. by intros [= _ <-].
Qed.

Lemma publish_full w sts r w' : vm_full w sts → publish_epoch w = Some (r, w') → vm_full w' sts.
Proof.
  intros [[] Hroom Hd] (H1 & H2 & H3 & H4 & H5 & H6 & H7)%publish_same.
  split; [split|..]; unfold room in *; by rewrite ?H1, ?H2, ?H3, ?H4, ?H5, ?H6, ?H7.
Qed.

(** ** Steps of a workspace *)

Inductive vm_step : Workspace → Workspace → Prop :=
| vm_step_execute w locals prog r w' :
    room w (length prog) → execute_instructions locals prog w = Some (r, w') → vm_step w w'
| vm_step_publish w r w' : publish_epoch w = Some (r, w') → vm_step w w'
| vm_step_slots w n : vm_step w (ensure_slot_count n w).

(** The arenas a later state has: those of the earlier one, extended. *)
Record later (w w' : Workspace) : Prop := {
  lt_records : pa_list (vm_records w) `prefix_of` pa_list (vm_records w');
  lt_deltas : pa_list (vm_deltas w) `prefix_of` pa_list (vm_deltas w');
  lt_index : pa_list (vm_index_deltas w) `prefix_of` pa_list (vm_index_deltas w');
}.

#[export] Instance later_preorder : PreOrder later.
Proof. split; [by intros w; split|]. intros ? ? ? [] []. split; by etrans. Qed.

Lemma vm_step_full w w' sts : vm_full w sts → vm_step w w' → later w w' ∧ ∃ sts', vm_full w' sts'.
Proof.
  intros Hf Hstep. destruct Hstep as [w locals prog r w' Hr He|w r w' Hp|w n].
  - split; [|by eapply execute_full].
    pose proof (execute_spec true w sts locals prog (vf_ok _ _ Hf) Hr) as Hs. rewrite He in Hs.
    destruct r as [|e].
    + destruct Hs as (_ & t & _ & _ & _ & [] & _). destruct ex_deltas as (l & Hl & _).
      split; [done|by exists l|done].
    + destruct Hs as ([] & _). split; [by rewrite ss_records|by rewrite ss_deltas|by rewrite ss_index].
  - split; [|by eexists; eapply publish_full]. apply publish_same in Hp as (H1 & H2 & H3 & _).
    split; by rewrite ?H1, ?H2, ?H3.
  - split; [|by eexists; apply ensure_slot_count_full]. unfold ensure_slot_count.
    by destruct (_ <? n); split.
Qed.

Lemma vm_steps_full w w' sts : vm_full w sts → rtc vm_step w w' → later w w' ∧ ∃ sts', vm_full w' sts'.
Proof.
  intros Hf Hs. revert sts Hf. induction Hs as [w|w w1 w2 Hstep _ IH]; intros sts Hf; [split; [done|by exists sts]|].
  destruct (vm_step_full _ _ _ Hf Hstep) as [Hl [sts1 Hf1]].
  destruct (IH _ Hf1) as [Hl2 H]. split; [by etrans|done].
Qed.

(** ** What a root reads *)

(** The root is that of the state [w]. *)
Definition root_of (root : WorldRoot) (w : Workspace) : Prop :=
  N.to_nat (wr_slot_delta_frontier root) = length (pa_list (vm_deltas w)) ∧
  N.to_nat (wr_index_delta_frontier root) = length (pa_list (vm_index_deltas w)).

Lemma publish_root_of w sts root w' :
  vm_full w sts → publish_epoch w = Some (Some root, w') → root_of root w.
Proof.
  intros [[] (_ & H2 & H3) _]. unfold publish_epoch.
  destruct (if decide _ then _ else _) as [prev|]; [|done]. rewrite option_bind_Some.
  case_decide; [done|]. destruct (pa_push _ _) as [[i a]|]; [|done]. intros [= <- _].
  unfold root_of. simpl. rewrite !pa_list_length by done. unfold as_u32.
  rewrite !N.mod_small by (unfold NONE, u32_modulus in *; lia). by rewrite !Nat2N.id.
Qed.

Lemma prefix_until {T} (a : PodArena T) (l : list T) n :
  arena_ok a → l `prefix_of` pa_list a → n = length l → pa_until a n = Some l.
Proof.
  intros Ha [k Hk] ->. pose proof (pa_list_length a Ha) as Hl. rewrite Hk, length_app in Hl.
  rewrite pa_until_ok by (done || lia). by rewrite Hk, take_app_length.
Qed.

(** The visible records that match, with their slots, against the stacks. *)
Lemma visible_matching rs p k hs sts :
  length hs = length sts →
  (∀ i h st, hs !! i = Some h → sts !! i = Some st → chain rs (k + i) h st) →
  Forall (λ r, ∃ f, rs !! N.to_nat r = Some f)
    (filter (λ r, record_matches rs p r = true) (visible hs)) ∧
  omap (λ r, fr_slot <$> rs !! N.to_nat r)
    (filter (λ r, record_matches rs p r = true) (visible hs)) =
  matching_slots_from k p sts.
Proof.
  revert k sts. induction hs as [|h hs IH]; intros k sts Hl Hc; [by destruct sts|].
  destruct sts as [|st sts]; [done|]. simpl in Hl.
  destruct (IH (S k) sts) as [IH1 IH2]; [lia| |].
  { intros i h1 st1 H1 H2. replace (S k + i) with (k + S i) by lia. by apply Hc. }
  assert (matching_slots_from k p (st :: sts) =
    (if top_matches p st then [N.of_nat k] else []) ++ matching_slots_from (S k) p sts) as ->.
  { unfold matching_slots_from. simpl. rewrite Nat.add_0_r. do 2 f_equal. apply imap_ext.
    intros i x _. simpl. by replace (k + S i) with (S (k + i)) by lia. }
  rewrite <- IH2. pose proof (Hc 0 h st eq_refl eq_refl) as Hch. rewrite Nat.add_0_r in Hch.
  rewrite visible_cons. destruct Hch as [|i r st Hi Hr Hs Hch]; [done|].
  rewrite decide_False by done. rewrite filter_matches_cons.
  assert (record_matches rs p i = vfact_matches p (fr_subject r, fr_predicate r, fr_object r)) as ->
    by (unfold record_matches; by rewrite Hr, fact_matches_vfact).
  unfold top_matches.
  destruct (vfact_matches p _); [|done]. split; [constructor; [by exists r|done]|].
  simpl. rewrite Hr. simpl. f_equal. rewrite <- Hs. by rewrite N2Nat.id.
Qed.

Lemma matching_slots_sorted k p sts : Sorted N.le (matching_slots_from k p sts).
Proof.
  apply StronglySorted_Sorted. revert k. induction sts as [|st sts IH]; intros k; [constructor|].
  assert (matching_slots_from k p (st :: sts) =
    (if top_matches p st then [N.of_nat k] else []) ++ matching_slots_from (S k) p sts) as ->.
  { unfold matching_slots_from. simpl. rewrite Nat.add_0_r. do 2 f_equal. apply imap_ext.
    intros i x _. simpl. by replace (k + S i) with (S (k + i)) by lia. }
  destruct (top_matches p st); [|apply IH]. simpl. constructor; [apply IH|].
  apply Forall_forall. intros x Hx. unfold matching_slots_from in Hx.
  apply list_elem_of_In, in_concat in Hx as (l & Hl%list_elem_of_In & Hx%list_elem_of_In).
  apply elem_of_lookup_imap in Hl as (i & y & -> & _).
  destruct (top_matches p y); [|by apply elem_of_nil in Hx].
  apply list_elem_of_singleton in Hx as ->. lia.
Qed.

Lemma sort_slots_unique l1 l2 : l1 ≡ₚ l2 → Sorted N.le l2 → sort_slots l1 = l2.
Proof.
  intros Hp Hs. apply (Sorted_unique N.le); [apply Sorted_merge_sort, _|done|].
  unfold sort_slots. by rewrite merge_sort_Permutation.
Qed.

Lemma mapM_omap {A B} (f : A → option B) l :
  Forall (λ x, is_Some (f x)) l → mapM f l = Some (omap f l).
Proof.
  induction 1 as [|x l [y Hy] _ IH]; [done|]. simpl. rewrite Hy. cbn [mbind option_bind].
  by rewrite IH.
Qed.

Lemma last_delta_head w sts slot :
  vm_full w sts →
  match last_delta slot (pa_list (vm_deltas w)) with
  | Some d => vm_heads w !! N.to_nat slot = Some (sd_resulting_visible d)
  | None => default NONE (vm_heads w !! N.to_nat slot) = NONE
  end.
Proof.
  intros [_ _ Hd]. pose proof (apply_deltas_lookup _ _ _ slot Hd) as Hl.
  destruct (last_delta slot _); [done|]. rewrite Hl.
  destruct (replicate (length (vm_heads w)) NONE !! N.to_nat slot) eqn:E; [|done].
  by apply lookup_replicate in E as [-> _].
Qed.

Lemma chain_object rs slot h st :
  chain rs slot h st →
  (if decide (h = NONE) then None else fr_object <$> rs !! N.to_nat h) = snd <$> head st.
Proof.
  destruct 1 as [|i r st Hi Hr Hs Hc]; [by rewrite decide_True|].
  rewrite decide_False by done. by rewrite Hr.
Qed.

(** Reading the object a head points to. *)
Lemma object_of_head w sts slot :
  vm_full w sts →
  (if decide (default NONE (vm_heads w !! N.to_nat slot) = NONE) then None
   else fr_object <$> pa_list (vm_records w) !! N.to_nat (default NONE (vm_heads w !! N.to_nat slot))) =
  visible_object sts slot ∧
  (default NONE (vm_heads w !! N.to_nat slot) ≠ NONE →
   is_Some (pa_list (vm_records w) !! N.to_nat (default NONE (vm_heads w !! N.to_nat slot)))).
Proof.
  intros [[] _ _]. unfold visible_object.
  pose proof (heads_rep_lookup _ _ _ (N.to_nat slot) vo_rep) as Hl.
  destruct (vm_heads w !! N.to_nat slot) as [h|]; [|by rewrite Hl]. simpl.
  destruct Hl as (st & -> & Hc). rewrite option_bind_Some.
  split; [by apply (chain_object _ (N.to_nat slot))|by eapply chain_head_valid].
Qed.

Lemma root_reads w sts root w' sts' :
  vm_full w sts → root_of root w → later w w' → vm_full w' sts' →
  (∀ slot, resolve_object_at root slot w' = Some (visible_object sts slot)) ∧
  (∀ p, query_slots root p w' = Some (matching_slots p sts)).
Proof.
  intros Hf [R1 R2] [[l1 L1] [l2 L2] [l3 L3]] [[Hra Hda Hia _ _ _] _ _]. split.
  - intros slot. unfold resolve_object_at.
    rewrite (prefix_until (vm_deltas w') (pa_list (vm_deltas w))); [|done|by exists l2|done].
    rewrite option_bind_Some. destruct (object_of_head w sts slot Hf) as [Ho Hv].
    pose proof (last_delta_head w sts slot Hf) as Hl. rewrite <- Ho. clear Ho.
    destruct (last_delta slot _) as [d|]; [|by rewrite Hl, decide_True].
    rewrite Hl in Hv |- *. simpl in *. case_decide as Hn; [done|].
    destruct (Hv Hn) as [r Hr]. rewrite pa_get_ok by done.
    rewrite L1, (lookup_app_l_Some _ _ _ _ Hr), Hr. done.
  - intros p. unfold query_slots.
    rewrite (prefix_until (vm_index_deltas w') (pa_list (vm_index_deltas w))); [|done|by exists l3|done].
    rewrite option_bind_Some. destruct (vo_idx _ _ _ (vf_ok _ _ Hf) eq_refl) as [_ Hidx].
    pose proof (vo_rep _ _ _ (vf_ok _ _ Hf)) as [Hlen Hrep].
    destruct (visible_matching (pa_list (vm_records w)) p 0 (vm_heads w) sts Hlen) as [Hall Hm];
      [by intros; eapply Hrep|].
    assert (∀ r, r ∈ foldl (replay_record p) [] (pa_list (vm_index_deltas w)) →
      ∃ f, pa_list (vm_records w) !! N.to_nat r = Some f) as Hin.
    { intros r Hr. rewrite (ir_replay _ _ _ Hidx p) in Hr. exact (proj1 (Forall_forall _ _) Hall r Hr). }
    rewrite mapM_omap.
    + rewrite option_bind_Some. f_equal. apply sort_slots_unique; [|apply matching_slots_sorted].
      unfold matching_slots. rewrite <- Hm, <- (ir_replay _ _ _ Hidx p). apply reflexive_eq, omap_ext_in. intros r Hr.
      destruct (Hin r Hr) as [f Hf']. rewrite pa_get_ok by done.
      by rewrite L1, (lookup_app_l_Some _ _ _ _ Hf'), Hf'.
    + apply Forall_forall. intros r Hr. destruct (Hin r Hr) as [f Hf']. rewrite pa_get_ok by done.
      rewrite L1, (lookup_app_l_Some _ _ _ _ Hf'). by eexists.
Qed.

(** Compacted bases and layered snapshots of the stack VM: the binary prefix
    search finds the matching entries, and the delta tail brings them up to the
    root. *)

(** ** The prefix search *)

(** On a list sorted by class the two partition points delimit the middle
    class. *)
Lemma partition_range {A} (c : A → comparison) (l : list A) :
  StronglySorted (λ x y, (c x = Eq → c y ≠ Lt) ∧ (c x = Gt → c y = Gt)) l →
  drop (partition_point (λ x, bool_decide (c x = Lt)) l)
    (take (partition_point (λ x, negb (bool_decide (c x = Gt))) l) l) =
  filter (λ x, c x = Eq) l ∧
  partition_point (λ x, bool_decide (c x = Lt)) l ≤
  partition_point (λ x, negb (bool_decide (c x = Gt))) l ≤ length l.
Proof.
  induction 1 as [|x l Hl [IH1 IH2] Hx]; [simpl; split; [done|lia]|]. simpl. rewrite filter_cons.
  rewrite Forall_forall in Hx. destruct (c x) eqn:Hc; simpl.
  - split; [|lia]. f_equal. rewrite <- IH1.
    assert (partition_point (λ x, bool_decide (c x = Lt)) l = 0) as ->; [|done].
    destruct l as [|y l]; [done|]. simpl. destruct (Hx y) as [Hy _]; [by left|].
    by rewrite bool_decide_false by (by apply Hy).
  - split; [exact IH1|lia].
  - split; [|lia]. symmetry.
    assert (∀ y, y ∈ l → c y = Gt) as Hall by (intros y Hy; by apply (Hx y Hy)).
    clear -Hall. induction l as [|y l IH]; [done|]. rewrite filter_cons.
    rewrite (Hall y) by left. rewrite decide_False by done. apply IH. intros z Hz. apply Hall. by right.
Qed.

Lemma list_cmp_take n : ∀ k1 k2 : list N, cmp k1 k2 ≠ Gt → cmp (take n k1) (take n k2) ≠ Gt.
Proof.
  unfold cmp, list_ord. induction n as [|n IH]; intros k1 k2; [done|].
  destruct k1 as [|a k1], k2 as [|b k2]; simpl; try done.
  destruct (cmp a b); simpl; try done. apply IH.
Qed.

(** The entries by the length of the key that is compared. *)
Lemma prefix_sorted key l :
  length key ≤ 3 → Sorted ord_le l →
  StronglySorted (λ x y, (compare_prefix x key = Eq → compare_prefix y key ≠ Lt) ∧
    (compare_prefix x key = Gt → compare_prefix y key = Gt)) l.
Proof.
  intros Hk Hs. assert (Transitive (ord_le (A := CompactIndexEntry))) as Htrans.
  { intros x y z. exact (ord_le_trans (A := list N) (ce_key x) (ce_key y) (ce_key z)). }
  apply Sorted_StronglySorted in Hs; [|done].
  induction Hs as [|x l Hl IH Hx]; constructor; [done|]. eapply Forall_impl; [exact Hx|].
  intros y Hy. unfold compare_prefix.
  assert (cmp (take (length key) [ce_first x; ce_second x; ce_third x])
    (take (length key) [ce_first y; ce_second y; ce_third y]) ≠ Gt) as Hle.
  { assert (∀ e, take (length key) [ce_first e; ce_second e; ce_third e] = take (length key) (ce_key e)) as Ht.
    { intros e. unfold ce_key. by destruct key as [|a [|b [|c [|]]]]; simpl in *; try lia. }
    rewrite !Ht. by apply list_cmp_take. }
  revert Hle. generalize (take (length key) [ce_first x; ce_second x; ce_third x]).
  generalize (take (length key) [ce_first y; ce_second y; ce_third y]). intros k2 k1 Hle. split.
  - intros ->%cmp_eq Hlt. apply Hle. by apply cmp_gt.
  - intros Hgt%cmp_gt. apply cmp_gt. destruct (cmp k1 k2) eqn:E; [by apply cmp_eq in E as ->| |done].
    by eapply cmp_trans.
Qed.

#[export] Instance CompactIndexEntry_ord_laws : OrdLaws CompactIndexEntry.
Proof.
  assert (Inj (=) (=) ce_key) by (intros [] []; by intros [= -> -> -> -> ->]).
  by apply (ord_laws_inj ce_key).
Qed.

Lemma prefix_range_filter key l :
  length key ≤ 3 → Sorted ord_le l →
  let '(first, past) := compact_prefix_range l key in
  drop first (take past l) = filter (λ e, compare_prefix e key = Eq) l ∧ first ≤ past ≤ length l.
Proof. intros Hk Hs. exact (partition_range _ l (prefix_sorted key l Hk Hs)). Qed.

(** ** The base of a root *)

Definition perm_entry (p : IndexPermutation) : IndexDelta → CompactIndexEntry :=
  match p with Spo => spo_entry | Pos => pos_entry | Osp => osp_entry end.

Definition base_of (b : CompactBase) (p : IndexPermutation) : list CompactIndexEntry :=
  match p with Spo => cb_spo b | Pos => cb_pos b | Osp => cb_osp b end.

(** The base holds the visible records of the state [w]. *)
Definition base_rep (b : CompactBase) (w : Workspace) : Prop :=
  root_of (cb_root b) w ∧
  ∀ p, Sorted ord_le (base_of b p) ∧
    base_of b p ≡ₚ perm_entry p <$> (spo_delta (pa_list (vm_records w)) <$> visible (vm_heads w)).

Lemma query_key_length p : length (query_key p).2 ≤ 3.
Proof. destruct p; simpl; lia. Qed.

Lemma compare_one (a b : N) (l : comparison) : cmp_then (cmp a b) l = Eq ↔ (a =? b)%N = true ∧ l = Eq.
Proof.
  rewrite N.eqb_eq, <- (cmp_eq a b). destruct (cmp a b); simpl; naive_solver.
Qed.

(** An entry has the key of a pattern when its fact matches. *)
Lemma compare_prefix_matches rs r f p :
  rs !! N.to_nat r = Some f →
  compare_prefix (perm_entry (query_key p).1 (spo_delta rs r)) (query_key p).2 = Eq ↔
  record_matches rs p r = true.
Proof.
  intros Hf. unfold record_matches, compare_prefix, spo_delta. rewrite Hf.
  destruct p; simpl; unfold cmp, list_ord; simpl; rewrite ?compare_one, ?andb_true_iff; tauto.
Qed.

Lemma entry_pair p d : (ce_record (perm_entry p d), ce_slot (perm_entry p d)) = (id_record d, id_slot d).
Proof. by destruct p. Qed.

Definition record_pair (rs : list FactRecord) (r : N) : N * SlotToken := (r, record_slot rs r).

Lemma base_range_rep b w sts root tail p :
  base_rep b w → vm_full w sts →
  let s := LayeredSnapshot_mk b root tail in
  let '(entries, key) := base_entries s p in
  let '(first, past) := compact_prefix_range entries key in
  (λ e, (ce_record e, ce_slot e)) <$> base_range s p ≡ₚ
    record_pair (pa_list (vm_records w)) <$> matching (pa_list (vm_records w)) p (vm_heads w) ∧
  (Z.of_nat past - Z.of_nat first)%Z =
    Z.of_nat (length (matching (pa_list (vm_records w)) p (vm_heads w))).
Proof.
  intros [_ Hb] [[] _ _]. unfold base_range, base_entries. cbn [ls_base].
  pose proof (query_key_length p) as Hkl. pose proof (compare_prefix_matches (pa_list (vm_records w))) as Hcm.
  destruct (query_key p) as [perm key] eqn:Hq. simpl in Hkl.
  specialize (Hb perm) as [Hsorted Hperm].
  change (match perm with Spo => cb_spo b | Pos => cb_pos b | Osp => cb_osp b end) with (base_of b perm).
  pose proof (prefix_range_filter key (base_of b perm) Hkl Hsorted) as Hrange.
  destruct (compact_prefix_range (base_of b perm) key) as [first past] eqn:Hcr.
  destruct Hrange as [Hrange Hbound].
  set (rs := pa_list (vm_records w)) in *.
  assert (filter (λ e, compare_prefix e key = Eq) (base_of b perm) ≡ₚ
    (λ r, perm_entry perm (spo_delta rs r)) <$> matching rs p (vm_heads w)) as Hf.
  { rewrite Hperm, <- list_fmap_compose. apply reflexive_eq.
    assert (∀ r, r ∈ visible (vm_heads w) → is_Some (rs !! N.to_nat r)) as Hv.
    { intros r [Hn Hin]%list_elem_of_filter. by eapply heads_rep_valid. }
    revert Hv. generalize (visible (vm_heads w)). intros l Hv.
    induction l as [|r l IH]; [done|]. csimpl. rewrite filter_cons, filter_matches_cons.
    rewrite IH by (intros; apply Hv; by right).
    destruct (Hv r) as [f Hf]; [by left|]. specialize (Hcm r f p Hf). rewrite Hq in Hcm. simpl in Hcm.
    destruct (record_matches rs p r); [rewrite decide_True by tauto; done|].
    rewrite decide_False; [done|]. rewrite Hcm. done. }
  split.
  - rewrite Hrange, Hf, <- list_fmap_compose. apply reflexive_eq, list_fmap_ext.
    intros i r Hi%list_elem_of_lookup_2. unfold compose. rewrite entry_pair. unfold record_pair, record_slot.
    apply list_elem_of_filter in Hi as [_ [Hn Hin]%list_elem_of_filter].
    destruct (heads_rep_valid _ _ _ r vo_rep Hin Hn) as [f Hr]. fold rs in Hr. unfold spo_delta. by rewrite Hr.
  - rewrite <- (length_fmap (λ r, perm_entry perm (spo_delta rs r))), <- Hf, <- Hrange.
    rewrite length_drop, length_take. lia.
Qed.

Lemma compact_base_rep root w sts w' sts' :
  vm_full w sts → root_of root w → later w w' → vm_full w' sts' →
  ∃ b, compact_base root w' = Some b ∧ cb_root b = root ∧ base_rep b w.
Proof.
  intros Hf Hroot [_ _ [l3 L3]] [[_ _ Hia _ _ _] _ _]. unfold compact_base.
  rewrite (prefix_until (vm_index_deltas w') (pa_list (vm_index_deltas w)));
    [|done|by exists l3|apply Hroot].
  rewrite option_bind_Some. eexists. split; [done|]. split; [done|]. split; [exact Hroot|].
  destruct (vo_idx _ _ _ (vf_ok _ _ Hf) eq_refl) as [_ Hidx].
  intros p. assert (∀ f : IndexDelta → CompactIndexEntry,
    Sorted ord_le (ord_sort (f <$> foldl compact_step [] (pa_list (vm_index_deltas w)))) ∧
    ord_sort (f <$> foldl compact_step [] (pa_list (vm_index_deltas w))) ≡ₚ
      f <$> (spo_delta (pa_list (vm_records w)) <$> visible (vm_heads w))) as H.
  { intros f. split; [apply Sorted_merge_sort, _|].
    by rewrite ord_sort_Permutation, (ir_compact _ _ _ Hidx). }
  destruct p; apply H.
Qed.

(** ** The tail *)

Lemma position_None_absent {A} (key : A → N) r (l : list A) :
  (∀ y, y ∈ l → key y ≠ r) → position (λ e, (key e =? r)%N) l = None.
Proof.
  induction l as [|x l IH]; intros H; [done|]. simpl.
  destruct (N.eqb_spec (key x) r) as [Heq|_]; [by apply H in Heq; [|left]|].
  rewrite IH; [done|]. intros y Hy. apply H. by right.
Qed.

Lemma replay_delta_pairs rs p d pairs recs :
  fr_slot <$> rs !! N.to_nat (id_record d) = Some (id_slot d) →
  pairs ≡ₚ record_pair rs <$> recs →
  replay_delta p pairs d ≡ₚ record_pair rs <$> replay_record p recs d.
Proof.
  intros Hd Hp. unfold replay_delta, replay_record. destruct (negb _); [done|].
  assert (record_pair rs (id_record d) = (id_record d, id_slot d)) as Hpair.
  { unfold record_pair, record_slot. destruct (rs !! _); [|done]. simpl in Hd. by injection Hd as ->. }
  destruct (id_added d).
  - rewrite fmap_app, Hp. csimpl. by rewrite Hpair.
  - destruct (decide (id_record d ∈ recs)) as [Hin|Hnin].
    + apply elem_of_Permutation in Hin as [X HX].
      assert (pairs ≡ₚ record_pair rs (id_record d) :: (record_pair rs <$> X)) as HpX
        by (by rewrite Hp, HX).
      rewrite (remove_position fst (id_record d) pairs _ _ HpX);
        [|by rewrite Hpair|].
      * f_equiv. symmetry. apply (remove_position id (id_record d) recs X _ HX); [done|].
        intros y _ Hy. exact Hy.
      * intros y Hy Hkey. rewrite Hp in Hy. apply list_elem_of_fmap in Hy as (r & -> & _).
        simpl in Hkey. by rewrite Hkey.
    + rewrite (position_None_absent fst), (position_None_absent id); [done|..].
      * intros y Hy Heq. apply Hnin. rewrite <- Heq. exact Hy.
      * intros y Hy Heq. rewrite Hp in Hy. apply list_elem_of_fmap in Hy as (r & -> & Hr).
        simpl in Heq. subst. by apply Hnin.
Qed.

Lemma replay_pairs rs p ds : ∀ pairs recs,
  Forall (λ d, fr_slot <$> rs !! N.to_nat (id_record d) = Some (id_slot d)) ds →
  pairs ≡ₚ record_pair rs <$> recs →
  foldl (replay_delta p) pairs ds ≡ₚ record_pair rs <$> foldl (replay_record p) recs ds.
Proof.
  induction ds as [|d ds IH]; intros pairs recs Hds Hp; [done|].
  apply Forall_cons in Hds as [Hd Hds]. simpl. apply IH; [done|]. by apply replay_delta_pairs.
Qed.

(** Replaying deltas respects the order of the active records up to
    permutation. *)
Lemma replay_record_proper p ds : ∀ r1 r2,
  r1 ≡ₚ r2 → foldl (replay_record p) r1 ds ≡ₚ foldl (replay_record p) r2 ds.
Proof.
  induction ds as [|d ds IH]; intros r1 r2 Hr; [done|]. simpl. apply IH.
  unfold replay_record. destruct (negb _); [done|]. destruct (id_added d); [by rewrite Hr|].
  destruct (decide (id_record d ∈ r1)) as [Hin|Hnin].
  - apply elem_of_Permutation in Hin as [X HX].
    rewrite (remove_position id (id_record d) r1 X _ HX); [|done|by intros y _ Hy; exact Hy].
    symmetry. apply (remove_position id (id_record d) r2 X (id_record d)); [by rewrite <- Hr|done|].
    intros y _ Hy. exact Hy.
  - rewrite (position_None_absent id), (position_None_absent id); [done|..];
      intros y Hy Heq; apply Hnin; rewrite <- Heq; [by rewrite Hr|exact Hy].
Qed.

(** ** Snapshots read as their root *)

Lemma snapshot_reads b root w1 sts1 w2 sts2 w3 sts3 :
  base_rep b w1 → vm_full w1 sts1 → later w1 w2 → vm_full w2 sts2 → root_of root w2 →
  later w2 w3 → vm_full w3 sts3 →
  ∃ s, layered_snapshot b root w3 = Some s ∧
    (∀ p, snapshot_query_slots s p = matching_slots p sts2) ∧
    (∀ p, snapshot_query_count s p = usize_of (length (matching_slots p sts2))).
Proof.
  intros Hb Hf1 [[l1 L1] _ [l3 L3]] Hf2 Hroot [_ _ [l4 L4]] [[_ _ Hia _ _ _] _ _].
  pose proof (proj2 (proj1 Hb)) as Hfirst. pose proof (proj2 Hroot) as Hlast.
  unfold layered_snapshot. rewrite (prefix_until (vm_index_deltas w3) (pa_list (vm_index_deltas w2)));
    [|done|by exists l4|done].
  assert ((wr_index_delta_frontier (cb_root b) <=? wr_index_delta_frontier root)%N = true) as ->.
  { apply N.leb_le. apply (f_equal length) in L3. rewrite length_app in L3. lia. }
  rewrite option_bind_Some. eexists. split; [done|]. rewrite Hfirst, L3, drop_app_length.
  destruct (vo_idx _ _ _ (vf_ok _ _ Hf1) eq_refl) as [_ Hidx1].
  destruct (vo_idx _ _ _ (vf_ok _ _ Hf2) eq_refl) as [_ Hidx2].
  pose proof (vo_rep _ _ _ (vf_ok _ _ Hf2)) as [Hlen2 Hrep2].
  set (rs1 := pa_list (vm_records w1)) in *. set (rs2 := pa_list (vm_records w2)) in *.
  assert (∀ p, Forall (λ r, ∃ f, rs2 !! N.to_nat r = Some f) (matching rs2 p (vm_heads w2)) ∧
    omap (λ r, fr_slot <$> rs2 !! N.to_nat r) (matching rs2 p (vm_heads w2)) = matching_slots p sts2) as Hm.
  { intros p. apply (visible_matching rs2 p 0); [done|]. intros i h st H1 H2. exact (Hrep2 i h st H1 H2). }
  assert (∀ p, record_slot rs2 <$> matching rs2 p (vm_heads w2) = matching_slots p sts2) as Hslots.
  { intros p. destruct (Hm p) as [Hall <-]. induction Hall as [|r l [f Hr] _ IH]; [done|].
    csimpl. unfold record_slot at 1. rewrite Hr. simpl. by rewrite IH. }
  split; intros p.
  - unfold snapshot_query_slots. apply sort_slots_unique; [|apply matching_slots_sorted].
    pose proof (base_range_rep b w1 sts1 root l3 p Hb Hf1) as Hr. cbv zeta in Hr.
    destruct (base_entries _ p) as [entries key]. destruct (compact_prefix_range entries key) as [first past].
    destruct Hr as [Hr _]. cbn [ls_tail].
    rewrite (replay_pairs rs2 p l3 _ (matching rs1 p (vm_heads w1))).
    + rewrite (replay_record_proper p l3 _ (foldl (replay_record p) [] (pa_list (vm_index_deltas w1))))
        by (by rewrite (ir_replay _ _ _ Hidx1 p)).
      rewrite <- foldl_app, <- L3, (ir_replay _ _ _ Hidx2 p), <- list_fmap_compose.
      apply reflexive_eq. rewrite <- Hslots. done.
    + pose proof (ir_slots _ _ _ Hidx2) as Hs. rewrite L3 in Hs. by apply Forall_app in Hs as [_ ?].
    + rewrite Hr. apply reflexive_eq, list_fmap_ext. intros i r Hi%list_elem_of_lookup_2.
      apply list_elem_of_filter in Hi as [_ [Hn Hin]%list_elem_of_filter].
      destruct (heads_rep_valid _ _ _ r (vo_rep _ _ _ (vf_ok _ _ Hf1)) Hin Hn) as [f Hf].
      unfold record_pair, record_slot. rewrite Hf, L1. unfold rs1. by rewrite (lookup_app_l_Some _ _ _ _ Hf).
  - unfold snapshot_query_count.
    pose proof (base_range_rep b w1 sts1 root l3 p Hb Hf1) as Hr. cbv zeta in Hr.
    destruct (base_entries _ p) as [entries key]. destruct (compact_prefix_range entries key) as [first past].
    destruct Hr as [_ ->]. cbn [ls_tail]. fold rs1. rewrite <- (ir_count _ _ _ Hidx1 p), <- foldl_app, <- L3.
    rewrite (ir_count _ _ _ Hidx2 p), <- Hslots, length_fmap. unfold usize_of, u64_wrap, u64_modulus.
    rewrite <- (N2Z.id (_ mod _)%N), N2Z.inj_mod, nat_N_Z. done.
Qed.
