(* ===== verification/StackVmProps.v ===== *)
(** The properties of the stack VM: intents are transactions that refine the
    abstract machine, published roots are immutable, compacted snapshots read as
    their root, and what a rejected intent leaves behind. *)
From Stdlib Require Import NArith ZArith Lia.
From stdpp Require Import sorting base option list strings list_monad relations.
From S2P Require Import Prelude Ord Bytes StackVm StackVmFacts StackVmTrial StackVmRoots.

Lemma resolve_object_ok ix w sts slot :
  vm_ok ix w sts → resolve_object slot w = Some (visible_object sts slot).
Proof.
  intros []. unfold resolve_object, accepted_head, visible_object.
  pose proof (heads_rep_lookup _ _ _ (N.to_nat slot) vo_rep) as Hl.
  destruct (vm_heads w !! N.to_nat slot) as [h|]; cbn [ok_or]; [|by rewrite Hl].
  destruct Hl as (st & -> & Hc). rewrite option_bind_Some.
  destruct Hc as [|i r st Hi Hr _ _]; [done|]. rewrite decide_False by done.
  by rewrite pa_get_ok, Hr.
Qed.

(** C15: An intent is a transaction on the slot stacks.  If it is accepted, its
    effect is that of the abstract machine run from the accepted stacks: every
    slot then resolves to the top of its new stack and the allocator advanced as
    the run says.  If it is rejected, it is for the error of the run (or for
    lack of stack), and the workspace is the old one but for cells past the
    stack pointer and past the frontiers: every slot resolves as before.  With
    room in the arenas it never panics. *)
Theorem intent_transaction (ix : bool) (w : Workspace) (sts : vm_stacks) (locals : N)
    (prog : list Instruction) :
  vm_ok ix w sts → room w (length prog) →
  let run := spec_loop (length (vm_stack w) - vm_sp w) (vm_hash w) prog (start_trial w locals sts) in
  match execute_instructions locals prog w with
  | Some (Accepted, w') => ∃ t, run = Ok t ∧ vm_ok ix w' (t_stacks t) ∧
      (∀ slot, resolve_object slot w' = Some (visible_object (t_stacks t) slot)) ∧
      vm_next w' = t_next t ∧ extends w w'
  | Some (Rejected e, w') => same_state w w' ∧ vm_ok ix w' sts ∧
      (∀ slot, resolve_object slot w' = resolve_object slot w) ∧
      (if length (vm_stack w) <? vm_sp w + N.to_nat locals then e = StackOverflow else run = Err e)
  | None => False
  end.
Proof.
  intros Hok Hroom. cbv zeta. pose proof (execute_spec ix w sts locals prog Hok Hroom) as Hs.
  destruct (execute_instructions locals prog w) as [[[|e] w']|]; [| |done].
  - destruct Hs as (_ & t & Ht & Hok' & Hn & Hx & _). exists t. split_and!; try done.
    intros slot. by apply (resolve_object_ok ix).
  - destruct Hs as (Hs & Hok' & He). split_and!; try done.
    intros slot. by rewrite (resolve_object_ok ix w' sts), (resolve_object_ok ix w sts).
Qed.

(** Allocate an entity and define slot 0 with it. *)
Definition define_program (object : Cell) : list Instruction :=
  [i_allocate; i_store_local 0; i_load_local 0; i_push 7; i_push object; i_define 0].

Definition sample_workspace : Workspace := with_indexes 1 8 4 4.

Lemma intent_transaction_witness :
  let w := sample_workspace in
  let run := spec_loop (length (vm_stack w) - vm_sp w) (vm_hash w) (define_program 9)
    (start_trial w 1 (replicate 1 [])) in
  match execute_instructions 1 (define_program 9) w with
  | Some (Accepted, w') => ∃ t, run = Ok t ∧ vm_ok true w' (t_stacks t) ∧
      (∀ slot, resolve_object slot w' = Some (visible_object (t_stacks t) slot)) ∧
      vm_next w' = t_next t ∧ extends w w'
  | Some (Rejected e, w') => same_state w w' ∧ vm_ok true w' (replicate 1 []) ∧
      (∀ slot, resolve_object slot w' = resolve_object slot w) ∧
      (if length (vm_stack w) <? vm_sp w + N.to_nat 1 then e = StackOverflow else run = Err e)
  | None => False
  end.
Proof.
  apply (intent_transaction true sample_workspace (replicate 1 []) 1 (define_program 9)).
  - by apply vm_new_ok.
  - split_and!; vm_compute; discriminate.
Defined.

(** Reachable from a new workspace that tracks its indexes. *)
Definition vm_reachable (w : Workspace) : Prop :=
  ∃ slots stack rc dc, rtc vm_step (with_indexes slots stack rc dc) w.

Lemma vm_reachable_full w : vm_reachable w → ∃ sts, vm_full w sts.
Proof.
  intros (slots & stack & rc & dc & Hs).
  by apply (vm_steps_full _ _ _ (with_indexes_full slots stack rc dc) Hs).
Qed.

(** C16: A published root is an immutable snapshot.  Whatever the workspace does
    after publishing it (more intents, accepted or rejected, more roots, more
    slots), reading a slot at the root gives what the slot resolved to when the
    root was published, and a query of the root gives the slots whose visible
    fact matched then, in ascending order. *)
Theorem published_root_is_immutable (w w1 w2 : Workspace) (root : WorldRoot) :
  vm_reachable w → publish_epoch w = Some (Some root, w1) → rtc vm_step w1 w2 →
  ∃ sts, vm_ok true w sts ∧
    (∀ slot, resolve_object_at root slot w2 = resolve_object slot w) ∧
    (∀ slot, resolve_object slot w = Some (visible_object sts slot)) ∧
    (∀ p, query_slots root p w2 = Some (matching_slots p sts)).
Proof.
  intros [sts Hf]%vm_reachable_full Hp Hsteps.
  pose proof (publish_root_of _ _ _ _ Hf Hp) as Hroot.
  pose proof (publish_full _ _ _ _ Hf Hp) as Hf1.
  destruct (vm_step_full _ _ _ Hf (vm_step_publish _ _ _ Hp)) as [Hl1 _].
  destruct (vm_steps_full _ _ _ Hf1 Hsteps) as [Hl2 [sts2 Hf2]].
  destruct (root_reads w sts root w2 sts2 Hf Hroot) as [H1 H2]; [by etrans|done|].
  exists sts. split_and!; [apply Hf| |intros slot; by apply (resolve_object_ok true w sts), Hf|exact H2].
  intros slot. rewrite H1. symmetry. by apply (resolve_object_ok true w sts), Hf.
Qed.

(** A workspace that has accepted one definition. *)
Definition defined_workspace : Workspace :=
  match execute_instructions 1 (define_program 9) sample_workspace with
  | Some (_, w) => w
  | None => sample_workspace
  end.

Lemma defined_reachable : vm_reachable defined_workspace.
Proof.
  exists 1, 8, 4, 4. eapply rtc_l; [|apply rtc_refl].
  apply (vm_step_execute _ 1 (define_program 9) Accepted).
  - split_and!; vm_compute; discriminate.
  - vm_compute. reflexivity.
Qed.

Definition published : option WorldRoot * Workspace :=
  match publish_epoch defined_workspace with Some r => r | None => (None, defined_workspace) end.

Lemma published_root_is_immutable_witness :
  ∃ root w1, publish_epoch defined_workspace = Some (Some root, w1) ∧
  ∃ sts, vm_ok true defined_workspace sts ∧
    (∀ slot, resolve_object_at root slot (ensure_slot_count 3 w1) = resolve_object slot defined_workspace) ∧
    (∀ slot, resolve_object slot defined_workspace = Some (visible_object sts slot)) ∧
    (∀ p, query_slots root p (ensure_slot_count 3 w1) = Some (matching_slots p sts)).
Proof.
  destruct (publish_epoch defined_workspace) as [[[root|] w1]|] eqn:Hp; [|vm_compute in Hp; discriminate Hp..].
  exists root, w1. split; [reflexivity|].
  apply (published_root_is_immutable defined_workspace w1 (ensure_slot_count 3 w1) root).
  - exact defined_reachable.
  - exact Hp.
  - eapply rtc_l; [apply vm_step_slots|apply rtc_refl].
Defined.

(** Layered snapshots read as their root.  A base compacted from one
    published root, with the delta tail up to a later root, answers every query
    (slots and counts, by binary search in the sorted base corrected by the
    tail) as the later root itself does, even when base and snapshot are built
    long after both roots were published. *)
Theorem snapshot_reads_as_root (w w1 w2 w3 w4 : Workspace) (root1 root2 : WorldRoot) :
  vm_reachable w → publish_epoch w = Some (Some root1, w1) → rtc vm_step w1 w2 →
  publish_epoch w2 = Some (Some root2, w3) → rtc vm_step w3 w4 →
  ∃ base s, compact_base root1 w4 = Some base ∧ layered_snapshot base root2 w4 = Some s ∧
    ∀ p, ∃ slots, query_slots root2 p w4 = Some slots ∧ snapshot_query_slots s p = slots ∧
      snapshot_query_count s p = usize_of (length slots).
Proof.
  intros [sts Hf]%vm_reachable_full Hp1 Hs1 Hp2 Hs2.
  pose proof (publish_full _ _ _ _ Hf Hp1) as Hf1.
  destruct (vm_step_full _ _ _ Hf (vm_step_publish _ _ _ Hp1)) as [Hl1 _].
  destruct (vm_steps_full _ _ _ Hf1 Hs1) as [Hl2 [sts2 Hf2]].
  pose proof (publish_full _ _ _ _ Hf2 Hp2) as Hf3.
  destruct (vm_step_full _ _ _ Hf2 (vm_step_publish _ _ _ Hp2)) as [Hl3 _].
  destruct (vm_steps_full _ _ _ Hf3 Hs2) as [Hl4 [sts4 Hf4]].
  assert (later w w2) as Hl02 by (by etrans). assert (later w2 w4) as Hl24 by (by etrans).
  destruct (compact_base_rep root1 w sts w4 sts4 Hf) as (b & Hb & Hr & Hrep);
    [by eapply publish_root_of|by etrans|done|].
  pose proof (publish_root_of _ _ _ _ Hf2 Hp2) as Hroot2.
  destruct (snapshot_reads b root2 w sts w2 sts2 w4 sts4) as (s & Hs & Hslots & Hcount); [done..|].
  exists b, s. split_and!; [done|done|]. intros p. exists (matching_slots p sts2).
  split_and!; [|apply Hslots|apply Hcount].
  apply (root_reads w2 sts2 root2 w4 sts4 Hf2 Hroot2 Hl24 Hf4).
Qed.

Lemma snapshot_reads_as_root_witness :
  ∃ root1 w1, publish_epoch defined_workspace = Some (Some root1, w1) ∧
  ∃ w2, execute_instructions 1 (define_program 10) w1 = Some (Accepted, w2) ∧
  ∃ root2 w3, publish_epoch w2 = Some (Some root2, w3) ∧
  ∃ base s, compact_base root1 w3 = Some base ∧ layered_snapshot base root2 w3 = Some s ∧
    ∀ p, ∃ slots, query_slots root2 p w3 = Some slots ∧ snapshot_query_slots s p = slots ∧
      snapshot_query_count s p = usize_of (length slots).
Proof.
  destruct (publish_epoch defined_workspace) as [[[root1|] w1]|] eqn:Hp; [|vm_compute in Hp; discriminate Hp..].
  exists root1, w1. split; [reflexivity|]. pose proof Hp as Hw1. vm_compute in Hw1.
  injection Hw1 as Hr Hw. destruct (execute_instructions 1 (define_program 10) w1) as [[[|e] w2]|] eqn:He;
    [|rewrite <- Hw in He; vm_compute in He; discriminate He..].
  exists w2. split; [reflexivity|]. pose proof He as Hw2. rewrite <- Hw in Hw2. vm_compute in Hw2.
  injection Hw2 as Hw2. destruct (publish_epoch w2) as [[[root2|] w3]|] eqn:Hp2;
    [|rewrite <- Hw2 in Hp2; vm_compute in Hp2; discriminate Hp2..].
  exists root2, w3. split; [reflexivity|].
  apply (snapshot_reads_as_root defined_workspace w1 w2 w3 w3 root1 root2 defined_reachable Hp);
    [|exact Hp2|apply rtc_refl].
  eapply rtc_l; [|apply rtc_refl]. eapply vm_step_execute; [|exact He].
  rewrite <- Hw. split_and!; vm_compute; discriminate.
Defined.

(** A rejected intent is not entirely forgotten.  Locals are reserved
    without being cleared, so an intent that reads a local it never stored
    observes the cells a previous intent left on the stack, a rejected one
    included: the accepted facts then depend on the rejected input. *)
Theorem rejected_intent_leaks_locals (v : Cell) :
  let leak := [i_push v; i_reject] in
  let probe := [i_load_local 0; i_push 7; i_push 8; i_define 0] in
  ∃ w1 w2 w3, execute_instructions 0 leak sample_workspace = Some (Rejected ExplicitRejection, w1) ∧
    same_state sample_workspace w1 ∧
    execute_instructions 1 probe w1 = Some (Accepted, w2) ∧
    resolve_fact_cells 0 w2 = Some (Some (v, 7%N, 8%N)) ∧
    execute_instructions 1 probe sample_workspace = Some (Accepted, w3) ∧
    resolve_fact_cells 0 w3 = Some (Some (0%N, 7%N, 8%N)).
Proof.
  cbv zeta. do 3 eexists. split; [cbv -[hash_record]; reflexivity|]. split; [by split|].
  split; [cbv -[hash_record]; reflexivity|]. split; [reflexivity|].
  split; [cbv -[hash_record]; reflexivity|]. reflexivity.
Qed.
