(* ===== verification/EpochProps.v ===== *)
(** The properties of epochs of queued intents: an epoch is its intents committed
    one by one, the collapsed epoch decides alike and reaches the same state,
    and the handles of an intent resolve in their own scope only. *)
From Stdlib Require Import NArith Lia.
From stdpp Require Import base gmap list strings option list_monad.
From S2P Require Import Prelude Ord Terms Bytes Query QueryFacts Spec Index Kernel.
From S2P Require Import LegacyDb KernelProps Frames VmProjection Worlds WorldFacts WorldProps.
From S2P Require Import Intents Epochs.

(** ** The reference: one transaction per intent *)

Section sequential.
Context {D P : Type} `{Kernel D, MappedRoot P}.

Abbreviation MemoryDatabase := (Database D P MemoryCommitStore) (only parsing).

(** An intent as a transaction on the current world of the database. *)
Definition commit_alone (db : MemoryDatabase) (intent : QueuedIntent) :
    outcome IntentRejection (World D P * gmap TempEntity EntityId) * MemoryDatabase :=
  let w := db_current db in
  match
    let* _ := check_preconditions w (qi_preconditions intent) in
    resolve_operations w (qi_namespace intent) (qi_operations intent)
  with
  | Err e => (Err e, db)
  | Panic => (Panic, db)
  | Ok (operations, entities) =>
      match commit db (foldl tx_push (begin db) operations) with
      | (Ok w', db') => (Ok (w', entities), db')
      | (Err (CandidateFailed e), db') => (Err (IntentCandidate e), db')
      | (Err (ValidationFailed m), db') => (Err (IntentValidation m), db')
      | (_, db') => (Panic, db')
      end
  end.

(** The frame a commit appended. *)
Definition newest_frame (db : MemoryDatabase) : option CommitFrame := last (db_frames db).

Fixpoint commit_each (position : nat) (db : MemoryDatabase) (intents : list QueuedIntent) :
    option (list (EpochOutcome D P) * MemoryDatabase) :=
  match intents with
  | [] => Some ([], db)
  | intent :: intents =>
      match commit_alone db intent with
      | (Ok (w, entities), db') =>
          frame ← newest_frame db';
          '(outcomes, db'') ← commit_each (S position) db' intents;
          Some (EpochAccepted (AcceptedIntent_mk position w frame entities) :: outcomes, db'')
      | (Err e, db') =>
          '(outcomes, db'') ← commit_each (S position) db' intents;
          Some (EpochRejected (RejectedIntent_mk position e) :: outcomes, db'')
      | (Panic, _) => None
      end
  end.

Lemma tx_push_all (t : Transaction D P) ops :
  tx_base (foldl tx_push t ops) = tx_base t ∧
  tx_operations (foldl tx_push t ops) = tx_operations t ++ ops.
Proof.
  revert t. induction ops as [|op ops IH]; intros t; simpl; [by rewrite app_nil_r|].
  destruct (IH (tx_push t op)) as [-> ->]. simpl. by rewrite <- (assoc_L (++)).
Qed.

(** A lone commit is the derivation of the successor, stored and published. *)
Lemma commit_alone_derive (db : MemoryDatabase) intent :
  commit_alone db intent =
  match derive_intent (db_current db) intent (db_validators db) with
  | Ok (w, frame, entities) =>
      (Ok (w, entities), Database_mk w (db_store db ++ [frame]) (db_validators db))
  | Err e => (Err e, db)
  | Panic => (Panic, db)
  end.
Proof.
  unfold commit_alone, derive_intent.
  destruct (check_preconditions _ _) as [[]|e|]; [|done..]. cbn [outcome_bind].
  destruct (resolve_operations _ _ _) as [[ops es]|e|]; [|done..]. cbn [outcome_bind].
  destruct (tx_push_all (begin db) ops) as [Hb Ho]. unfold commit, tx_candidate.
  rewrite Hb, Ho. simpl. rewrite decide_False by auto.
  destruct (construct (db_current db) ops) as [c|e|]; [|done..]. cbn [map_err outcome_bind].
  by destruct (run_validators _ c) as [[]|m|].
Qed.

Lemma append_all_app (store : MemoryCommitStore) frames : append_all store frames = store ++ frames.
Proof.
  revert store. induction frames as [|f frames IH]; intros store; simpl; [by rewrite app_nil_r|].
  rewrite IH. by rewrite <- (assoc_L (++)).
Qed.

Lemma commit_each_derive position (db : MemoryDatabase) intents :
  commit_each position db intents =
  match derive_loop (db_validators db) position (db_current db) intents with
  | Some (tail, outcomes, frames) =>
      Some (outcomes, Database_mk tail (db_store db ++ frames) (db_validators db))
  | None => None
  end.
Proof.
  revert position db. induction intents as [|intent intents IH]; intros position db; simpl.
  { by destruct db; rewrite app_nil_r. }
  rewrite commit_alone_derive. destruct (derive_intent _ _ _) as [[[w f] es]|e|]; [| |done].
  - unfold newest_frame, db_frames. simpl. rewrite last_snoc. simpl. rewrite IH. simpl.
    destruct (derive_loop _ _ _ _) as [[[tail outs] frames]|]; [|done]. simpl.
    by rewrite <- (assoc_L (++)).
  - rewrite IH. by destruct (derive_loop _ _ _ _) as [[[tail outs] frames]|].
Qed.

Lemma derive_loop_empty (vs : list (CandidateWorld D → outcome string unit)) position
    (w : World D P) intents tail outs :
  derive_loop vs position w intents = Some (tail, outs, []) → tail = w.
Proof.
  revert position outs. induction intents as [|intent intents IH]; intros position outs; simpl;
    [by intros [= <-]|].
  destruct (derive_intent _ _ _) as [[[w' f] es]|e|]; [| |done];
    destruct (derive_loop _ _ _ _) as [[[tail' outs'] frames']|] eqn:Hl; simpl; try done.
  intros [= -> <- ->]. by eapply IH.
Qed.
End sequential.

(** C17: Committing an epoch of queued intents is committing the intents one by
    one as transactions, each on the world its predecessor left: the same
    outcomes (worlds, frames, entities, rejections), the same published world
    and the same stored frames.  If deriving any intent panics, nothing at all
    is published or stored. *)
Theorem epoch_is_sequential {D P : Type} `{Kernel D, MappedRoot P}
    (db : Database D P MemoryCommitStore) (intents : list QueuedIntent) :
  match commit_each 0 db intents with
  | Some (outcomes, db') => ∃ frames,
      commit_queued_epoch db intents =
        (Some (EpochPlan_mk (db_current db) (db_current db') outcomes frames), db') ∧
      db_frames db' = db_frames db ++ frames
  | None => commit_queued_epoch db intents = (None, db)
  end.
Proof.
  rewrite commit_each_derive. unfold commit_queued_epoch, derive_epoch.
  destruct (derive_loop _ _ _ _) as [[[tail outs] frames]|] eqn:Hl; [|done].
  exists frames. cbn [mbind option_bind ep_frames ep_tail db_current]. split; [|done].
  destruct frames as [|f frames]; cbn [plan_is_empty ep_frames].
  - rewrite app_nil_r. apply derive_loop_empty in Hl as ->. by destruct db.
  - by rewrite append_all_app.
Qed.

Section collapse.
Context {D P : Type} `{KernelLaws D, MappedRootLaws P}.

(** The same decision on an intent, wherever it is published. *)
Definition decides_alike (o1 o2 : EpochOutcome D P) : Prop :=
  match o1, o2 with
  | EpochAccepted a1, EpochAccepted a2 =>
      ai_position a1 = ai_position a2 ∧ ai_entities a1 = ai_entities a2
  | EpochRejected r1, EpochRejected r2 => r1 = r2
  | _, _ => False
  end.

(** The outcome carries the epoch's one world and frame. *)
Definition published_as (w : World D P) (f : CommitFrame) (o : EpochOutcome D P) : Prop :=
  match o with EpochAccepted a => ai_world a = w ∧ ai_frame a = f | EpochRejected _ => True end.

Lemma published_alike (w : World D P) f outs wouts :
  Forall2 same_decision outs wouts →
  Forall2 decides_alike outs (published_outcome w f <$> wouts) ∧
  Forall (published_as w f) (published_outcome w f <$> wouts).
Proof.
  induction 1 as [|o wo outs wouts Ho _ [IH1 IH2]]; simpl; [done|].
  split; constructor; try done; by destruct o, wo; simpl in *.
Qed.

Lemma only_rejected_alike outs wouts :
  Forall2 (@same_decision D P) outs wouts → length (filter workspace_accepted wouts) = 0 →
  ∃ os, mapM only_rejected wouts = Some os ∧ Forall2 decides_alike outs os.
Proof.
  induction 1 as [|o wo outs wouts Ho _ IH]; simpl; [by exists []|]. intros Hlen.
  destruct wo as [pos es|r]; [done|]. destruct o as [a|r']; simpl in *; [done|]. subst r'.
  destruct (IH Hlen) as (os & -> & Hos). eexists. split; [done|]. by constructor.
Qed.
End collapse.

(** Collapsing an epoch into one world changes no decision.  On any world
    and intents, the planner that collapses an epoch into a single frame
    accepts and rejects the same intents as the planner that derives a world
    per intent, with the same entities and the same rejections; its one frame
    holds the operations of all accepted intents in order, and both tails have
    valid histories with the same events and allocator, so that they answer
    every read alike.  With nothing accepted it keeps the base. *)
Theorem epoch_world_collapses {D P : Type} `{KernelLaws D, MappedRootLaws P} (base : World D P) fs
    intents (vs : list (CandidateWorld D → outcome string unit)) :
  world_ok base fs → w_history_prefix base = None →
  match derive_epoch base intents vs, derive_epoch_world base intents vs with
  | Some p, Some c =>
      Forall2 decides_alike (ep_outcomes p) (ep_outcomes c) ∧
      world_ok (ep_tail p) (fs ++ ep_frames p) ∧ world_ok (ep_tail c) (fs ++ ep_frames c) ∧
      chain_operations (ep_frames c) = chain_operations (ep_frames p) ∧
      w_next_entity (ep_tail c) = w_next_entity (ep_tail p) ∧
      match ep_frames p with
      | [] => ep_tail c = base ∧ ep_frames c = []
      | _ => ∃ f, ep_frames c = [f] ∧ Forall (published_as (ep_tail c) f) (ep_outcomes c)
      end
  | None, None => True
  | _, _ => False
  end.
Proof.
  intros Hw Hp. destruct (world_kernel_ok _ _ Hw) as (k & w1 & Hk & _).
  unfold derive_epoch, derive_epoch_world. rewrite Hk. cbn [mbind option_bind].
  pose proof (loops_ok vs intents 0 _ _ _ _ Hw Hp Hk) as Hl. unfold state_of in Hl at 1.
  destruct (derive_loop _ _ _ _) as [[[tail outs] frames]|],
    (workspace_loop _ _ _ _) as [[[st ops] wouts]|]; cbn [mbind option_bind]; try done.
  destruct Hl as [Htail Htp [w2 Hk2] Hst Hops Houts Hcount]; cbn [fst snd] in *. subst ops.
  rewrite Hst. cbn [state_of es_next_entity es_kernel].
  case_decide as Hlen.
  - destruct (only_rejected_alike _ _ Houts Hlen) as (os & -> & Hos).
    rewrite Hlen in Hcount. symmetry in Hcount. apply nil_length_inv in Hcount as ->.
    cbn [mbind option_bind ep_outcomes ep_tail ep_frames]. split_and!; try done.
    + by rewrite app_nil_r.
    + pose proof (epoch_allocate _ _ _ _ Hw Htail) as Ha. simpl in Ha. by injection Ha.
  - pose proof (collapsed_candidate _ _ _ _ _ _ Hw Htail Hk2) as Hc.
    set (c := CandidateWorld_mk _ _ _ _ _ _ _ _) in *.
    destruct (into_world_state _ _ _ Hw Hp Hc) as (Hw' & _).
    destruct (published_alike (into_world c (commit_frame c) (w_history base)) (commit_frame c) _ _
      Houts) as [Ho1 Ho2].
    cbn [ep_outcomes ep_tail ep_frames]. split_and!; try done.
    + simpl. by rewrite app_nil_r.
    + destruct frames; [by rewrite Hcount in Hlen|]. by eexists.
Qed.

(** The collapsed world of a mapped base has lost the mapped frames: only the
    epoch's own frame is left of its history. *)
Lemma mapped_history_is_lost {D P : Type} `{KernelLaws D, MappedRootLaws P} (p : P) intents
    (vs : list (CandidateWorld D → outcome string unit)) plan :
  derive_epoch_world (world_from_mmap p) intents vs = Some plan → ep_frames plan ≠ [] →
  world_frames (world_from_mmap (D := D) p) = mr_frames p ∧
  world_frames (ep_tail plan) = ep_frames plan.
Proof.
  intros Hd Hf. split; [apply app_nil_r|]. revert Hd Hf. unfold derive_epoch_world.
  destruct (world_kernel (world_from_mmap p)) as [[k w]|]; [|done]. cbn [mbind option_bind].
  destruct (workspace_loop _ _ _ _) as [[[st ops] outs]|]; [|done]. cbn [mbind option_bind].
  case_decide; [|by intros [= <-]]. destruct (mapM only_rejected outs); [|done].
  by intros [= <-] [].
Qed.

Definition sample_intent : QueuedIntent :=
  let i := (intent_new 7).1 in
  match intent_entity i with
  | Some (t, i) =>
      intent_define i slot_a (IntentFact_new (ITemporary t) (Predicate_new "p") (ILiteral (Literal_new "v")))
  | None => i
  end.

Definition sample_epoch : list QueuedIntent :=
  [sample_intent; expect_absent (intent_new 8).1 slot_a; sample_intent].

Lemma epoch_world_collapses_witness :
  match derive_epoch (genesis (D := LegacyDb.ForthDb) (P := Empty_set)) sample_epoch [],
        derive_epoch_world genesis sample_epoch [] with
  | Some p, Some c =>
      Forall2 decides_alike (ep_outcomes p) (ep_outcomes c) ∧
      world_ok (ep_tail p) ([] ++ ep_frames p) ∧ world_ok (ep_tail c) ([] ++ ep_frames c) ∧
      chain_operations (ep_frames c) = chain_operations (ep_frames p) ∧
      w_next_entity (ep_tail c) = w_next_entity (ep_tail p) ∧
      match ep_frames p with
      | [] => ep_tail c = genesis ∧ ep_frames c = []
      | _ => ∃ f, ep_frames c = [f] ∧ Forall (published_as (ep_tail c) f) (ep_outcomes c)
      end
  | None, None => True
  | _, _ => False
  end.
Proof.
  apply (epoch_world_collapses genesis [] sample_epoch []); [apply genesis_ok|done].
Defined.

(** C25: The handles of an intent are well scoped.  An intent built through the
    API with the handles it was given always resolves, as long as the allocator
    has room: its [j]-th handle becomes the [j]-th entity minted, the
    operations allocate exactly these.  An intent that uses any other handle,
    of another intent or not yet allocated, is rejected for that handle. *)
Theorem handles_are_scoped (i : QueuedIntent) (known : gset TempEntity) (next : N) :
  intent_built i known → (next + qi_next_temporary i < u64_modulus)%N →
  (∃ ops entities,
    resolve_operations_from next (qi_namespace i) (qi_operations i) = Ok (ops, entities) ∧
    dom entities = known ∧
    (∀ t, t ∈ known → entities !! t = Some (EntityId_new (next + te_index t))) ∧
    allocate next ops = Ok (next + qi_next_temporary i)%N) ∧
  (∀ t slot p o, t ∉ known →
    let i' := intent_define i slot (IntentFact_new (ITemporary t) p o) in
    resolve_operations_from next (qi_namespace i') (qi_operations i') =
    Err (UnknownTemporaryEntity t)).
Proof.
  intros Hi Hlt. destruct (intent_built_resolves next i known Hi Hlt) as ([[n es] ops] & Hst & []).
  simpl in *. split.
  - exists ops, es. unfold resolve_operations_from. rewrite Hst. cbn [outcome_bind fst snd].
    split_and!; [done| | |].
    + apply set_eq. intros t. rewrite elem_of_dom, rs_entities, rs_known. unfold is_Some.
      case_decide; naive_solver.
    + intros t Ht. rewrite rs_entities, decide_True by by apply rs_known. done.
    + rewrite <- rs_next. change n with (n, es, ops).1.1. change ops with (n, es, ops).2 at 1.
      eapply resolve_fold_allocate; [|exact Hst]. done.
  - intros t slot p o Ht. unfold resolve_operations_from, intent_define, push_operation. simpl.
    rewrite outcome_fold_app, Hst. cbn [outcome_bind outcome_fold resolve_operation].
    unfold resolve_fact. cbn [if_subject resolve_atom]. case_decide as Hn; [done|].
    rewrite rs_entities, decide_False by (by rewrite <- rs_known). done.
Qed.

Lemma handles_are_scoped_witness :
  ∃ ops entities, resolve_operations_from 5 7 (qi_operations sample_intent) = Ok (ops, entities) ∧
    entities !! TempEntity_mk 7 0 = Some (EntityId_new 5).
Proof.
  assert (intent_built sample_intent {[ TempEntity_mk 7 0 ]}) as Hb.
  { rewrite <- (right_id_L ∅ (∪) {[ TempEntity_mk 7 0 ]}). apply built_define; [|split; simpl; set_solver].
    by eapply built_entity; [apply (built_new 7)|]. }
  destruct (handles_are_scoped sample_intent {[ TempEntity_mk 7 0 ]} 5 Hb ltac:(done))
    as [(ops & es & Hr & _ & He & _) _].
  exists ops, es. split; [exact Hr|]. by apply (He (TempEntity_mk 7 0)), elem_of_singleton.
Defined.
