(* ===== verification/VmEpochs.v ===== *)
(** The VM epoch materializer (forthdb-world/src/queued.rs, lines 1004-1101 and
    1712-2017): the vocabularies that turn slots, predicates and literals into
    tokens and cells, the compilation of operations to VM programs, and the
    derivation of an epoch by executing them.

    A mapped snapshot contributes its own tokens below those of the
    vocabularies; it is the interface [MappedVocabulary]. *)
From Stdlib Require Import NArith ZArith Lia.
From stdpp Require Import base gmap list strings option list_monad.
From S2P Require Import Prelude Ord Terms Bytes Query QueryFacts Spec Index Kernel Frames.
From S2P Require Import VmProjection Worlds Intents Epochs StackVm.

(** What the materializer uses of a memory-mapped snapshot
    (mmap_vm_snapshot.rs); tokens are [u32]s. *)
Class MappedVocabulary (P : Type) := {
  mv_slot_token : P → string → option N;
  mv_predicate_token : P → string → option N;
  mv_literal_token : P → string → option N;
  mv_slot_count : P → nat;
  mv_predicate_count : P → nat;
  mv_literal_count : P → nat;
  mv_predicate_value : P → nat → option Predicate;
  mv_literal_value : P → nat → option Literal;
  mv_workspace_image : P → outcome string (list FactRecord * list N);
}.

Definition VM_LITERAL_BASE : N := 2 ^ 63.

(** One constructor per message. *)
Inductive MaterializeError :=
| AllocatorDiverged (vm published : N)
| IntentRejectedByVm (e : ExecError)
| CommittedRejectedByVm (e : ExecError)
| AllocatorExhausted
| EntityOverlapsLiterals
| LiteralTokenOverflow
| CannotRewind
| SnapshotImage (message : string)
| SnapshotInvalid (e : SnapshotError).

Section materializer.
Context {D P : Type} `{Kernel D, MappedRoot P, MappedVocabulary P}.

Record VmEpochMaterializer := VmEpochMaterializer_mk {
  m_workspace : Workspace;
  m_version : N;
  m_mapped : option P;
  m_slots : gmap SlotId SlotToken;
  m_predicates : gmap Predicate Cell;
  m_predicate_values : list Predicate;
  m_literals : gmap Literal Cell;
  m_literal_values : list Literal;
}.

(** Field updates. *)
Definition m_set_workspace (w : Workspace) (m : VmEpochMaterializer) : VmEpochMaterializer :=
  VmEpochMaterializer_mk w (m_version m) (m_mapped m) (m_slots m) (m_predicates m)
    (m_predicate_values m) (m_literals m) (m_literal_values m).
Definition m_set_version (v : N) (m : VmEpochMaterializer) : VmEpochMaterializer :=
  VmEpochMaterializer_mk (m_workspace m) v (m_mapped m) (m_slots m) (m_predicates m)
    (m_predicate_values m) (m_literals m) (m_literal_values m).
Definition m_set_slots (s : gmap SlotId SlotToken) (m : VmEpochMaterializer) : VmEpochMaterializer :=
  VmEpochMaterializer_mk (m_workspace m) (m_version m) (m_mapped m) s (m_predicates m)
    (m_predicate_values m) (m_literals m) (m_literal_values m).
Definition m_set_predicates (p : gmap Predicate Cell) (vs : list Predicate)
    (m : VmEpochMaterializer) : VmEpochMaterializer :=
  VmEpochMaterializer_mk (m_workspace m) (m_version m) (m_mapped m) (m_slots m) p vs
    (m_literals m) (m_literal_values m).
Definition m_set_literals (l : gmap Literal Cell) (vs : list Literal)
    (m : VmEpochMaterializer) : VmEpochMaterializer :=
  VmEpochMaterializer_mk (m_workspace m) (m_version m) (m_mapped m) (m_slots m) (m_predicates m)
    (m_predicate_values m) l vs.

Definition materializer_new (next_entity : N) : VmEpochMaterializer :=
  VmEpochMaterializer_mk (with_indexes_from next_entity 0 32 1024 1024) 0 None ∅ ∅ [] ∅ [].

Definition materializer_from_mmap (snapshot : P) : outcome MaterializeError VmEpochMaterializer :=
  let* image := map_err SnapshotImage (mv_workspace_image snapshot) in
  let '(records, heads) := image in
  let* workspace := map_err SnapshotInvalid
    (from_physical_snapshot (mr_next_entity snapshot) records heads (mr_record_count snapshot)) in
  Ok (VmEpochMaterializer_mk workspace 0 (Some snapshot) ∅ ∅ [] ∅ []).

(** A method on [&mut self] that may fail. *)
Definition mat (A : Type) : Type :=
  VmEpochMaterializer → outcome MaterializeError A * VmEpochMaterializer.

#[export] Instance mat_ret : MRet mat := λ A a m, (Ok a, m).
#[export] Instance mat_bind : MBind mat := λ A B k c m,
  match c m with
  | (Ok a, m) => k a m
  | (Err e, m) => (Err e, m)
  | (Panic, m) => (Panic, m)
  end.

Definition mat_get : mat VmEpochMaterializer := λ m, (Ok m, m).
Definition mat_modify (f : VmEpochMaterializer → VmEpochMaterializer) : mat unit := λ m, (Ok tt, f m).
Definition mat_err {A} (e : MaterializeError) : mat A := λ m, (Err e, m).

(** ** Vocabularies *)

Definition base_slot_count (m : VmEpochMaterializer) : nat :=
  match m_mapped m with Some b => mv_slot_count b | None => 0 end.
Definition base_predicate_count (m : VmEpochMaterializer) : nat :=
  match m_mapped m with Some b => mv_predicate_count b | None => 0 end.
Definition base_literal_count (m : VmEpochMaterializer) : nat :=
  match m_mapped m with Some b => mv_literal_count b | None => 0 end.

(** [self.slots.get(slot).copied().or_else(|| base.slot_token(..))]. *)
Definition lookup_slot (m : VmEpochMaterializer) (slot : SlotId) : option SlotToken :=
  match m_slots m !! slot with
  | Some token => Some token
  | None => base ← m_mapped m; mv_slot_token base (slot_str slot)
  end.

Definition slot_token (slot : SlotId) : mat SlotToken := λ m,
  match lookup_slot m slot with
  | Some token => (Ok token, m)
  | None =>
      let token := as_u32 (base_slot_count m + size (m_slots m)) in
      let slots := <[slot := token]> (m_slots m) in
      (Ok token,
       m_set_workspace (ensure_slot_count (base_slot_count m + size slots) (m_workspace m))
         (m_set_slots slots m))
  end.

Definition predicate_cell (predicate : Predicate) : mat Cell := λ m,
  match m_predicates m !! predicate with
  | Some cell => (Ok cell, m)
  | None =>
      match base ← m_mapped m; mv_predicate_token base (predicate_str predicate) with
      | Some token => (Ok token, m)
      | None =>
          let cell := N.of_nat (base_predicate_count m + size (m_predicates m)) in
          (Ok cell, m_set_predicates (<[predicate := cell]> (m_predicates m))
                      (m_predicate_values m ++ [predicate]) m)
      end
  end.

Definition atom_cell (atom : Atom) : mat Cell := λ m,
  match atom with
  | AEntity entity =>
      if (entity_value entity <? VM_LITERAL_BASE)%N then (Ok (entity_value entity), m)
      else (Err EntityOverlapsLiterals, m)
  | ALiteral literal =>
      match m_literals m !! literal with
      | Some cell => (Ok cell, m)
      | None =>
          match base ← m_mapped m; mv_literal_token base (literal_str literal) with
          | Some token => (Ok (VM_LITERAL_BASE + token)%N, m)
          | None =>
              let offset := N.of_nat (base_literal_count m + length (m_literal_values m)) in
              match u64_checked_add VM_LITERAL_BASE offset with
              | Some cell =>
                  (Ok cell, m_set_literals (<[literal := cell]> (m_literals m))
                              (m_literal_values m ++ [literal]) m)
              | None => (Err LiteralTokenOverflow, m)
              end
          end
      end
  end.

Definition atom_from_cell (m : VmEpochMaterializer) (cell : Cell) : option Atom :=
  if (cell <? VM_LITERAL_BASE)%N then Some (AEntity (EntityId_new cell))
  else
    let token := N.to_nat (cell - VM_LITERAL_BASE) in
    match m_mapped m with
    | Some base =>
        if token <? mv_literal_count base then ALiteral <$> mv_literal_value base token
        else ALiteral <$> m_literal_values m !! (token - mv_literal_count base)
    | None => ALiteral <$> m_literal_values m !! token
    end.

Definition predicate_from_cell (m : VmEpochMaterializer) (cell : Cell) : option Predicate :=
  let token := N.to_nat cell in
  match m_mapped m with
  | Some base =>
      if token <? mv_predicate_count base then mv_predicate_value base token
      else m_predicate_values m !! (token - mv_predicate_count base)
  | None => m_predicate_values m !! token
  end.

Definition fact_from_cells (m : VmEpochMaterializer) (c : Cell * Cell * Cell) : option Fact :=
  let '(subject, predicate, object) := c in
  s ← atom_from_cell m subject;
  p ← predicate_from_cell m predicate;
  o ← atom_from_cell m object;
  Some (Fact_new s p o).

(** The outer [None] is a panic. *)
Definition materializer_resolve_fact (m : VmEpochMaterializer) (slot : SlotId) :
    option (option Fact) :=
  match lookup_slot m slot with
  | None => Some None
  | Some token =>
      cells ← resolve_fact_cells token (m_workspace m);
      Some (c ← cells; fact_from_cells m c)
  end.

(** ** Compilation *)

Definition compile_operation (op : Operation) : mat (list Instruction) :=
  match op with
  | AllocateEntity entity =>
      if (VM_LITERAL_BASE <=? entity_value entity)%N then mat_err AllocatorExhausted
      else mret [i_allocate_discard]
  | OpDefine slot fact =>
      slot ← slot_token slot;
      subject ← atom_cell (fact_subject fact);
      predicate ← predicate_cell (fact_predicate fact);
      object ← atom_cell (fact_object fact);
      mret [i_push subject; i_push predicate; i_push object; i_define slot]
  | OpForget slot =>
      slot ← slot_token slot;
      mret [i_forget slot]
  end.

Fixpoint compile_loop (ops : list Operation) : mat (list Instruction) :=
  match ops with
  | [] => mret []
  | op :: ops =>
      code1 ← compile_operation op;
      code2 ← compile_loop ops;
      mret (code1 ++ code2)
  end.

Definition compile_operations (ops : list Operation) : mat IntentProgram :=
  code ← compile_loop ops; mret (IntentProgram_new 0 code).

(** [self.workspace.execute(&program)]. *)
Definition run_program (p : IntentProgram) : mat ExecutionOutcome := λ m,
  match execute p (m_workspace m) with
  | Some (r, w) => (Ok r, m_set_workspace w m)
  | None => (Panic, m)
  end.

Definition apply_committed (ops : list Operation) : mat unit :=
  program ← compile_operations ops;
  r ← run_program program;
  match r with
  | Accepted => mret tt
  | Rejected e => mat_err (CommittedRejectedByVm e)
  end.

(** One frame of the loop of [synchronize_to]. *)
Definition synchronize_frame (f : CommitFrame) : mat unit := λ m,
  let frame_version := u64_add (parent_version f) 1 in
  if (m_version m <? frame_version)%N
  then (_ ← apply_committed (frame_operations f); mat_modify (m_set_version frame_version)) m
  else (Ok tt, m).

Fixpoint synchronize_frames (fs : list CommitFrame) : mat unit :=
  match fs with
  | [] => mret tt
  | f :: fs => _ ← synchronize_frame f; synchronize_frames fs
  end.

Definition synchronize_to (base : World D P) : mat unit := λ m,
  if (w_version base <? m_version m)%N then (Err CannotRewind, m)
  else if (m_version m =? w_version base)%N then (Ok tt, m)
  else
    let m := if ((m_version m =? 0) && (0 <? w_version base))%N
             then m_set_workspace (with_indexes_from 1 0 32 1024 1024) m else m in
    synchronize_frames (world_frames base) m.

Definition materializer_from_world (base : World D P) : outcome MaterializeError VmEpochMaterializer :=
  match synchronize_to base (materializer_new (w_next_entity base)) with
  | (Ok _, m) => Ok m
  | (Err e, _) => Err e
  | (Panic, _) => Panic
  end.

(** ** The epoch *)

Definition check_vm_precondition (m : VmEpochMaterializer) (predecessor_id : WorldId)
    (p : IntentPrecondition) : outcome IntentRejection unit :=
  match p with
  | ExpectedWorld expected =>
      if decide (expected ≠ predecessor_id)
      then Err (WorldPrecondition expected predecessor_id) else Ok tt
  | ExpectedSlot slot expected =>
      let* actual := or_panic (materializer_resolve_fact m slot) in
      if decide (actual ≠ expected) then Err (SlotPrecondition slot expected actual) else Ok tt
  end.

Definition check_vm_preconditions (m : VmEpochMaterializer) (predecessor_id : WorldId)
    (ps : list IntentPrecondition) : outcome IntentRejection unit :=
  outcome_fold (λ _ p, check_vm_precondition m predecessor_id p) ps tt.

(** What the loop does before it compiles: preconditions and resolution. *)
Definition vm_resolve_intent (m : VmEpochMaterializer) (predecessor_id : WorldId)
    (intent : QueuedIntent) : outcome IntentRejection (list Operation * gmap TempEntity EntityId) :=
  let* _ := check_vm_preconditions m predecessor_id (qi_preconditions intent) in
  resolve_operations_from (vm_next (m_workspace m)) (qi_namespace intent) (qi_operations intent).

(** The loop of [derive_vm_epoch] from [position] on: the accepted operations
    and the outcomes. *)
Fixpoint vm_loop (position : nat) (predecessor_id : WorldId) (predecessor_version : N)
    (intents : list QueuedIntent) : mat (list Operation * list WorkspaceOutcome) :=
  match intents with
  | [] => mret ([], [])
  | intent :: intents => λ m,
      match vm_resolve_intent m predecessor_id intent with
      | Err error =>
          (r ← vm_loop (S position) predecessor_id predecessor_version intents;
           mret (r.1, WorkspaceRejected (RejectedIntent_mk position error) :: r.2)) m
      | Panic => (Panic, m)
      | Ok (operations, entities) =>
          (program ← compile_operations operations;
           r ← run_program program;
           match r with
           | Accepted =>
               m ← mat_get;
               let version := u64_saturating_add predecessor_version 1 in
               let id := calculate_world_id predecessor_id version (vm_next (m_workspace m))
                 operations in
               r ← vm_loop (S position) id version intents;
               mret (operations ++ r.1, WorkspaceAccepted position entities :: r.2)
           | Rejected e => mat_err (IntentRejectedByVm e)
           end) m
      end
  end.

Definition derive_vm_epoch (base : World D P) (intents : list QueuedIntent) : mat (EpochPlan D P) :=
  λ m,
  if decide (vm_next (m_workspace m) ≠ w_next_entity base)
  then (Err (AllocatorDiverged (vm_next (m_workspace m)) (w_next_entity base)), m)
  else
    match vm_loop 0 (w_id base) (w_version base) intents m with
    | (Err e, m) => (Err e, m)
    | (Panic, m) => (Panic, m)
    | (Ok (operations, outcomes), m) =>
        if decide (length (filter workspace_accepted outcomes) = 0)
        then
          match mapM only_rejected outcomes with
          | Some outcomes => (Ok (EpochPlan_mk base base outcomes []), m)
          | None => (Panic, m)
          end
        else
          let '(world, frame) := from_vm_epoch base operations (vm_next (m_workspace m))
            (usize_of (vm_active_slot_count (m_workspace m))) (vm_delta_count (m_workspace m)) in
          (Ok (EpochPlan_mk base world (published_outcome world frame <$> outcomes) [frame]), m)
    end.

(** [materialize]: with validators the world planner decides and the VM follows;
    the flag tells whether the VM decided. *)
Definition materialize (base : World D P) (intents : list QueuedIntent)
    (validators : list (CandidateWorld D → outcome string unit)) : mat (EpochPlan D P * bool) :=
  match validators with
  | _ :: _ => λ m,
      match derive_epoch_world base intents validators with
      | None => (Panic, m)
      | Some plan =>
          (_ ← match head (ep_frames plan) with
               | Some frame => apply_committed (frame_operations frame)
               | None => mat_modify id
               end;
           mret (plan, false)) m
      end
  | [] => plan ← derive_vm_epoch base intents; mret (plan, true)
  end.
End materializer.
Arguments VmEpochMaterializer : clear implicits.
#[global] Arguments fact_from_cells : simpl never.

(** ** One outcome per intent, in both planners *)

Section lengths.
Context {D P : Type} `{Kernel D, MappedRoot P, MappedVocabulary P}.

Lemma workspace_loop_length (vs : list (CandidateWorld D → outcome string unit)) intents : ∀ position (st : EpochState D) st' ops outcomes,
  workspace_loop vs position st intents = Some (st', ops, outcomes) → length outcomes = length intents.
Proof.
  induction intents as [|i intents IH]; intros position st st' ops outcomes Hl; cbn [workspace_loop] in Hl.
  - by injection Hl as _ _ <-.
  - destruct (workspace_trial st i vs) as [[candidate entities]|e|]; [| |done].
    + destruct (into_materialized_state candidate) as [[[[[id v] n] c] acc] k].
      apply bind_Some in Hl as ([[st1 ops1] outs1] & Hrec & Hl). injection Hl as _ _ <-.
      cbn [length]. f_equal. by eapply IH.
    + apply bind_Some in Hl as ([[st1 ops1] outs1] & Hrec & Hl). injection Hl as _ _ <-.
      cbn [length]. f_equal. by eapply IH.
Qed.

Lemma vm_loop_length intents : ∀ position id version m m' ops outcomes,
  vm_loop (P := P) position id version intents m = (Ok (ops, outcomes), m') →
  length outcomes = length intents.
Proof.
  induction intents as [|i intents IH]; intros position id version m m' ops outcomes Hl.
  - cbn in Hl. by injection Hl as _ <- _.
  - cbn [vm_loop] in Hl. destruct (vm_resolve_intent m id i) as [[rops entities]|e|]; [| |done].
    + unfold mbind, mat_bind in Hl. destruct (compile_operations rops m) as [[prog|e|] m1]; [|done..].
      destruct (run_program prog m1) as [[[|e]|e|] m2]; [|done..]. cbn [mat_get] in Hl.
      destruct (vm_loop _ _ _ intents m2) as [[[ops1 outs1]|e|] m3] eqn:Hrec; [|done..].
      injection Hl as _ <- _. cbn [length]. f_equal. by eapply IH.
    + unfold mbind, mat_bind in Hl.
      destruct (vm_loop _ _ _ intents m) as [[[ops1 outs1]|e'|] m3] eqn:Hrec; [|done..].
      injection Hl as _ <- _. cbn [length]. f_equal. by eapply IH.
Qed.
End lengths.
