(* ===== verification/VmVocabulary.v ===== *)
(** The vocabularies of the VM epoch materializer: tokens are injective and in
    range, cells decode to what they encode, and a vocabulary only grows. *)
From Stdlib Require Import NArith ZArith Lia.
From stdpp Require Import base gmap list strings option list_monad.
From S2P Require Import Prelude Ord Terms Bytes Query QueryFacts Spec Index Kernel Frames.
From S2P Require Import VmProjection Worlds Intents Epochs StackVm StackVmFacts StackVmTrial.
From S2P Require Import StackVmRoots VmEpochs.

(** What a mapped snapshot promises of its tables. *)
Class MappedVocabularyLaws (P : Type) `{MappedVocabulary P} : Prop := {
  mv_slot_token_range p s t : mv_slot_token p s = Some t → N.to_nat t < mv_slot_count p;
  mv_slot_token_inj p s1 s2 t : mv_slot_token p s1 = Some t → mv_slot_token p s2 = Some t → s1 = s2;
  mv_predicate_decodes p s t : mv_predicate_token p s = Some t →
    N.to_nat t < mv_predicate_count p ∧ mv_predicate_value p (N.to_nat t) = Some (Predicate_new s);
  mv_literal_decodes p s t : mv_literal_token p s = Some t →
    N.to_nat t < mv_literal_count p ∧ mv_literal_value p (N.to_nat t) = Some (Literal_new s);
  mv_literal_complete p i l : i < mv_literal_count p → mv_literal_value p i = Some l →
    mv_literal_token p (literal_str l) = Some (N.of_nat i);
}.

Section vocabulary.
Context {P : Type} `{MappedVocabularyLaws P}.
Implicit Types (m : VmEpochMaterializer P).

Record voc_ok m : Prop := {
  vk_heads : base_slot_count m + size (m_slots m) ≤ length (vm_heads (m_workspace m));
  vk_slots s t : m_slots m !! s = Some t →
    base_slot_count m ≤ N.to_nat t < base_slot_count m + size (m_slots m);
  vk_slots_inj s1 s2 t : m_slots m !! s1 = Some t → m_slots m !! s2 = Some t → s1 = s2;
  vk_predicates : size (m_predicates m) = length (m_predicate_values m);
  vk_predicate p c : m_predicates m !! p = Some c →
    ∃ i, c = N.of_nat (base_predicate_count m + i) ∧ m_predicate_values m !! i = Some p;
  vk_literal l c : m_literals m !! l = Some c →
    ∃ i, c = (VM_LITERAL_BASE + N.of_nat (base_literal_count m + i))%N ∧
      m_literal_values m !! i = Some l;
  vk_literal_value i l : m_literal_values m !! i = Some l →
    m_literals m !! l = Some (VM_LITERAL_BASE + N.of_nat (base_literal_count m + i))%N ∧
    (base ← m_mapped m; mv_literal_token base (literal_str l)) = None;
}.

Lemma lookup_slot_range m s t :
  voc_ok m → lookup_slot m s = Some t → N.to_nat t < length (vm_heads (m_workspace m)).
Proof.
  intros Hm. unfold lookup_slot. pose proof (vk_heads m Hm) as Hh.
  destruct (m_slots m !! s) eqn:E; [intros [= ->]; apply (vk_slots m Hm) in E; lia|].
  unfold base_slot_count in Hh. destruct (m_mapped m) as [b|]; [|done]. simpl.
  intros Ht%mv_slot_token_range. lia.
Qed.

(** The next token is free. *)
Lemma lookup_slot_bound m s t :
  voc_ok m → lookup_slot m s = Some t → N.to_nat t < base_slot_count m + size (m_slots m).
Proof.
  intros Hm. unfold lookup_slot.
  destruct (m_slots m !! s) eqn:E; [intros [= ->]; apply (vk_slots m Hm) in E; lia|].
  unfold base_slot_count. destruct (m_mapped m) as [b|]; [|done]. simpl.
  intros Ht%mv_slot_token_range. lia.
Qed.

Lemma lookup_slot_inj m s1 s2 t :
  voc_ok m → lookup_slot m s1 = Some t → lookup_slot m s2 = Some t → s1 = s2.
Proof.
  intros Hm. unfold lookup_slot.
  assert (∀ s b, m_slots m !! s = Some t → m_mapped m = Some b → mv_slot_count b ≤ N.to_nat t) as Hge.
  { intros s b Hs Hb. apply (vk_slots m Hm) in Hs. unfold base_slot_count in Hs. rewrite Hb in Hs. lia. }
  destruct (m_slots m !! s1) eqn:E1, (m_slots m !! s2) eqn:E2;
    destruct (m_mapped m) as [b|] eqn:Hb; simpl; intros H1 H2; simplify_eq.
  - by eapply vk_slots_inj.
  - by eapply vk_slots_inj.
  - apply mv_slot_token_range in H2. specialize (Hge s1 b). naive_solver lia.
  - apply mv_slot_token_range in H1. specialize (Hge s2 b). naive_solver lia.
  - destruct s1 as [s1], s2 as [s2]. f_equal. by eapply mv_slot_token_inj.
Qed.

(** An atom has one cell. *)
Lemma atom_from_cell_inj m c1 c2 a :
  voc_ok m → atom_from_cell m c1 = Some a → atom_from_cell m c2 = Some a → c1 = c2.
Proof.
  intros Hm.
  assert (∀ c l, (VM_LITERAL_BASE <= c)%N → atom_from_cell m c = Some (ALiteral l) →
    match m_literals m !! l with
    | Some c' => c = c'
    | None => ∃ t, (base ← m_mapped m; mv_literal_token base (literal_str l)) = Some t ∧ c = (VM_LITERAL_BASE + t)%N
    end) as Hcell.
  { intros c l Hc. unfold atom_from_cell. rewrite (proj2 (N.ltb_ge _ _)) by done.
    assert (∀ i, N.to_nat (c - VM_LITERAL_BASE) = base_literal_count m + i → m_literal_values m !! i = Some l →
      match m_literals m !! l with
      | Some c' => c = c'
      | None => ∃ t, (base ← m_mapped m; mv_literal_token base (literal_str l)) = Some t ∧ c = (VM_LITERAL_BASE + t)%N
      end) as Hown.
    { intros i Hi Hl. destruct (vk_literal_value m Hm i l Hl) as [-> _]. lia. }
    unfold base_literal_count in Hown. destruct (m_mapped m) as [b|] eqn:Hb.
    - destruct (_ <? mv_literal_count b) eqn:Hlt; intros (l' & Hl & [= ->])%fmap_Some.
      + apply Nat.ltb_lt in Hlt. pose proof (mv_literal_complete b _ _ Hlt Hl) as Ht.
        destruct (m_literals m !! l') as [c'|] eqn:E.
        * apply (vk_literal m Hm) in E as (i & -> & Hi).
          destruct (vk_literal_value m Hm i l' Hi) as [_ Hnone]. rewrite Hb in Hnone. simpl in Hnone. congruence.
        * simpl. rewrite Ht. eexists. split; [done|]. lia.
      + apply Nat.ltb_ge in Hlt. apply (Hown (N.to_nat (c - VM_LITERAL_BASE) - mv_literal_count b)); [lia|done].
    - intros (l' & Hl & [= ->])%fmap_Some. by apply (Hown (N.to_nat (c - VM_LITERAL_BASE))). }
  assert (∀ c, (c < VM_LITERAL_BASE)%N → atom_from_cell m c = Some (AEntity (EntityId_new c))) as Hent
    by (intros c Hc; unfold atom_from_cell; by rewrite (proj2 (N.ltb_lt _ _))).
  assert (∀ c, (VM_LITERAL_BASE <= c)%N → ∀ e, atom_from_cell m c ≠ Some (AEntity e)) as Hlit.
  { intros c Hc e. unfold atom_from_cell. rewrite (proj2 (N.ltb_ge _ _)) by done.
    destruct (m_mapped m); [case_match|]; by intros (? & _ & ?)%fmap_Some. }
  intros H1 H2. destruct (N.lt_ge_cases c1 VM_LITERAL_BASE) as [L1|L1], (N.lt_ge_cases c2 VM_LITERAL_BASE) as [L2|L2].
  - rewrite Hent in H1, H2 by done. congruence.
  - rewrite (Hent c1) in H1 by done. injection H1 as <-. by destruct (Hlit c2 L2 (EntityId_new c1)).
  - rewrite (Hent c2) in H2 by done. injection H2 as <-. by destruct (Hlit c1 L1 (EntityId_new c2)).
  - destruct a as [e|l]; [by destruct (Hlit c1 L1 e)|].
    specialize (Hcell c1 l L1 H1) as E1. specialize (Hcell c2 l L2 H2) as E2.
    destruct (m_literals m !! l); [congruence|]. destruct E1 as (t1 & T1 & ->), E2 as (t2 & T2 & ->). congruence.
Qed.

(** ** Growth *)

Record voc_le m m' : Prop := {
  vl_mapped : m_mapped m' = m_mapped m;
  vl_slots s t : lookup_slot m s = Some t → lookup_slot m' s = Some t;
  vl_predicates : m_predicate_values m `prefix_of` m_predicate_values m';
  vl_literals : m_literal_values m `prefix_of` m_literal_values m';
}.

#[export] Instance voc_le_preorder : PreOrder voc_le.
Proof.
  split; [intros m; by split|]. intros m1 m2 m3 [] []. split; [congruence|auto|by etrans..].
Qed.

Lemma voc_le_atom m m' c a : voc_le m m' → atom_from_cell m c = Some a → atom_from_cell m' c = Some a.
Proof.
  intros []. unfold atom_from_cell. rewrite vl_mapped0. case_match; [done|].
  destruct (m_mapped m) as [b|]; [case_match; [done|]|];
    intros (l & Hl & ->)%fmap_Some; by erewrite prefix_lookup_Some.
Qed.

Lemma voc_le_predicate m m' c p :
  voc_le m m' → predicate_from_cell m c = Some p → predicate_from_cell m' c = Some p.
Proof.
  intros []. unfold predicate_from_cell. rewrite vl_mapped0.
  destruct (m_mapped m) as [b|]; [case_match; [done|]|]; intros Hl; by erewrite prefix_lookup_Some.
Qed.

Lemma voc_le_fact m m' c f : voc_le m m' → fact_from_cells m c = Some f → fact_from_cells m' c = Some f.
Proof.
  intros Hle. destruct c as [[s p] o]. unfold fact_from_cells.
  destruct (atom_from_cell m s) as [a|] eqn:E1; [|done]. rewrite !option_bind_Some.
  destruct (predicate_from_cell m p) as [q|] eqn:E2; [|done]. rewrite !option_bind_Some.
  destruct (atom_from_cell m o) as [b|] eqn:E3; [|done]. rewrite !option_bind_Some. intros [= <-].
  rewrite (voc_le_atom _ _ _ _ Hle E1), (voc_le_predicate _ _ _ _ Hle E2),
    (voc_le_atom _ _ _ _ Hle E3). done.
Qed.

(** What compiling leaves alone: everything but the vocabularies and the number
    of slots. *)
Definition quiet m m' : Prop :=
  m_version m' = m_version m ∧ ∃ h, m_workspace m' = set_heads h (m_workspace m).

Lemma quiet_same m m' : m_version m' = m_version m → m_workspace m' = m_workspace m → quiet m m'.
Proof.
  unfold quiet. intros Hv ->. split; [done|]. exists (vm_heads (m_workspace m)). by destruct (m_workspace m).
Qed.

Lemma quiet_refl m : quiet m m.
Proof. by apply quiet_same. Qed.

Lemma quiet_trans m1 m2 m3 : quiet m1 m2 → quiet m2 m3 → quiet m1 m3.
Proof. intros [H1 [h1 E1]] [H2 [h2 E2]]. split; [congruence|]. exists h2. by rewrite E2, E1. Qed.

(** Only cells of predicates and literals were added. *)
Record cells_only m m' : Prop := {
  cl_workspace : m_workspace m' = m_workspace m;
  cl_slots : m_slots m' = m_slots m;
  cl_version : m_version m' = m_version m;
  cl_le : voc_le m m';
}.

#[export] Instance cells_only_preorder : PreOrder cells_only.
Proof. split; [by intros m; split|]. intros m1 m2 m3 [] []. split; [congruence..|by etrans]. Qed.

Lemma cells_only_quiet m m' : cells_only m m' → quiet m m'.
Proof. intros []. by apply quiet_same. Qed.

Lemma cells_only_lookup m m' s : cells_only m m' → lookup_slot m' s = lookup_slot m s.
Proof. intros [_ Hs _ []]. unfold lookup_slot. by rewrite Hs, vl_mapped0. Qed.

(** ** Room in the vocabularies *)

(** Room for [n] more operations: a slot and two literals each. *)
Record voc_room m (n : nat) : Prop := {
  vr_slots : (N.of_nat (base_slot_count m + size (m_slots m) + n) <= u32_modulus)%N;
  vr_literals :
    (VM_LITERAL_BASE + N.of_nat (base_literal_count m + length (m_literal_values m) + 2 * n) <=
     u64_modulus)%N;
}.

(** [m'] has taken in at most [s] slots and [l] literals. *)
Record voc_grown (s l : nat) m m' : Prop := {
  vg_mapped : m_mapped m' = m_mapped m;
  vg_slots : size (m_slots m') ≤ s + size (m_slots m);
  vg_literals : length (m_literal_values m') ≤ l + length (m_literal_values m);
}.

Lemma voc_grown_trans s1 l1 s2 l2 m1 m2 m3 :
  voc_grown s1 l1 m1 m2 → voc_grown s2 l2 m2 m3 → voc_grown (s1 + s2) (l1 + l2) m1 m3.
Proof. intros [] []. split; [congruence|lia..]. Qed.

Lemma voc_room_grown m m' n k : voc_grown k (2 * k) m m' → voc_room m (k + n) → voc_room m' n.
Proof.
  intros [] []. unfold base_slot_count, base_literal_count in *.
  split; unfold base_slot_count, base_literal_count; rewrite vg_mapped0; lia.
Qed.

(** ** The lookups that may extend a vocabulary *)

Lemma predicate_cell_ok m p :
  voc_ok m →
  ∃ c m', predicate_cell p m = (Ok c, m') ∧ voc_ok m' ∧ cells_only m m' ∧
    voc_grown 0 0 m m' ∧ predicate_from_cell m' c = Some p.
Proof.
  intros Hm. unfold predicate_cell. destruct (m_predicates m !! p) as [c|] eqn:E.
  { exists c, m. split_and!; [done|done|done|by split|].
    apply (vk_predicate m Hm) in E as (i & -> & Hi). unfold predicate_from_cell, base_predicate_count.
    rewrite Nat2N.id. destruct (m_mapped m) as [b|]; simpl; [|done].
    rewrite (proj2 (Nat.ltb_ge _ _)) by lia. by replace (_ + i - _) with i by lia. }
  destruct (m_mapped m ≫= _) as [t|] eqn:Ht.
  { exists t, m. split_and!; [done|done|done|by split|].
    destruct (m_mapped m) as [b|] eqn:Hb; [|done]. simpl in Ht.
    apply mv_predicate_decodes in Ht as [Hlt Hv]. unfold predicate_from_cell. rewrite Hb.
    rewrite (proj2 (Nat.ltb_lt _ _)) by done. by destruct p. }
  do 2 eexists. split; [done|]. destruct Hm. split_and!.
  - split; simpl; try done.
    + rewrite (map_size_insert_None _ _ _ E), length_app. simpl. lia.
    + intros q c. rewrite lookup_insert_Some. intros [[<- <-]|[Hne Hq]].
      * exists (length (m_predicate_values m)). split; [|apply list_lookup_middle; done].
        by rewrite vk_predicates0.
      * apply vk_predicate0 in Hq as (i & -> & Hi). exists i. split; [done|].
        by apply lookup_app_l_Some.
  - split; simpl; try done. split; simpl; try done. by apply prefix_app_r.
  - by split.
  - unfold predicate_from_cell, base_predicate_count. simpl. rewrite Nat2N.id.
    destruct (m_mapped m) as [b|]; simpl.
    + rewrite (proj2 (Nat.ltb_ge _ _)) by lia. rewrite vk_predicates0.
      replace (_ + length _ - _) with (length (m_predicate_values m)) by lia. by apply list_lookup_middle.
    + rewrite vk_predicates0. by apply list_lookup_middle.
Qed.

Lemma atom_cell_ok m a n :
  voc_ok m → (VM_LITERAL_BASE + N.of_nat (base_literal_count m + length (m_literal_values m) + S n) <=
    u64_modulus)%N →
  (∀ e, a = AEntity e → (entity_value e < VM_LITERAL_BASE)%N) →
  ∃ c m', atom_cell a m = (Ok c, m') ∧ voc_ok m' ∧ cells_only m m' ∧
    voc_grown 0 1 m m' ∧ atom_from_cell m' c = Some a.
Proof.
  intros Hm Hroom He. destruct a as [e|l]; simpl.
  { specialize (He e eq_refl). rewrite (proj2 (N.ltb_lt _ _)) by done.
    exists (entity_value e), m. split_and!; [done|done|done|split; [done|lia..]|].
    unfold atom_from_cell. rewrite (proj2 (N.ltb_lt _ _)) by done. by destruct e. }
  assert (∀ i, ((VM_LITERAL_BASE + i <? VM_LITERAL_BASE) = false)%N) as Hge
    by (intros i; apply N.ltb_ge; lia).
  assert (∀ i, N.to_nat (VM_LITERAL_BASE + N.of_nat i - VM_LITERAL_BASE) = i) as Hsub by lia.
  destruct (m_literals m !! l) as [c|] eqn:E.
  { exists c, m. split_and!; [done|done|done|split; [done|lia..]|].
    apply (vk_literal m Hm) in E as (i & -> & Hi). unfold atom_from_cell, base_literal_count.
    rewrite Hge, Hsub. destruct (m_mapped m) as [b|]; simpl; [|by rewrite Hi].
    rewrite (proj2 (Nat.ltb_ge _ _)) by lia. replace (_ + i - _) with i by lia. by rewrite Hi. }
  destruct (m_mapped m ≫= _) as [t|] eqn:Ht.
  { do 2 eexists. split; [done|]. split_and!; [done|done|split; [done|lia..]|].
    destruct (m_mapped m) as [b|] eqn:Hb; [|done]. simpl in Ht.
    apply mv_literal_decodes in Ht as [Hlt Hv]. unfold atom_from_cell. rewrite Hge, Hb.
    replace (N.to_nat (VM_LITERAL_BASE + t - VM_LITERAL_BASE)) with (N.to_nat t) by lia.
    rewrite (proj2 (Nat.ltb_lt _ _)) by done. rewrite Hv. by destruct l. }
  unfold u64_checked_add. rewrite (proj2 (N.ltb_lt _ _)) by lia.
  do 2 eexists. split; [done|]. destruct Hm. split_and!.
  - split; simpl; try done.
    { intros q c. rewrite lookup_insert_Some. intros [[<- <-]|[Hne Hq]].
      + exists (length (m_literal_values m)). split; [done|]. by apply list_lookup_middle.
      + apply vk_literal0 in Hq as (i & -> & Hi). exists i. split; [done|]. by apply lookup_app_l_Some. }
    intros i q. rewrite lookup_snoc_Some. intros [Hi|[-> <-]].
    + destruct (vk_literal_value0 i q Hi) as [Hq Hnone]. split; [|done].
      rewrite lookup_insert_ne; [done|]. intros ->. congruence.
    + by rewrite lookup_insert_eq.
  - split; simpl; try done. split; simpl; try done. by apply prefix_app_r.
  - split; simpl; [done|done|]. rewrite length_app. simpl. lia.
  - unfold atom_from_cell, base_literal_count. simpl. rewrite Hge, Hsub.
    destruct (m_mapped m) as [b|]; simpl.
    + rewrite (proj2 (Nat.ltb_ge _ _)) by lia.
      replace (_ + length _ - _) with (length (m_literal_values m)) by lia.
      by rewrite list_lookup_middle.
    + by rewrite list_lookup_middle.
Qed.

Lemma slot_token_ok m s sts :
  voc_ok m → (N.of_nat (base_slot_count m + size (m_slots m) + 1) <= u32_modulus)%N →
  vm_ok false (m_workspace m) sts →
  ∃ t m' extra, slot_token s m = (Ok t, m') ∧ voc_ok m' ∧ voc_le m m' ∧ quiet m m' ∧
    voc_grown 1 0 m m' ∧ lookup_slot m' s = Some t ∧
    vm_ok false (m_workspace m') (sts ++ replicate extra []) ∧
    (∀ s', lookup_slot m' s' = if decide (s' = s) then Some t else lookup_slot m s') ∧
    (lookup_slot m s = None →
      N.to_nat t = base_slot_count m + size (m_slots m) ∧ N.to_nat t < length sts + extra).
Proof.
  intros Hm Hroom Hok. unfold slot_token. destruct (lookup_slot m s) as [t|] eqn:E.
  { exists t, m, 0. rewrite app_nil_r. split_and!; try done; [apply quiet_refl|split; [done|lia..]|].
    intros s'. case_decide; by subst. }
  assert (m_slots m !! s = None ∧ (base ← m_mapped m; mv_slot_token base (slot_str s)) = None)
    as [Hs Hb] by (unfold lookup_slot in E; by case_match).
  assert (as_u32 (base_slot_count m + size (m_slots m)) = N.of_nat (base_slot_count m + size (m_slots m)))
    as Ht by (apply N.mod_small; lia).
  pose proof (map_size_insert_None s (as_u32 (base_slot_count m + size (m_slots m))) _ Hs) as Hsz.
  assert (length (vm_heads (m_workspace m)) = length sts) as Hlen by apply (vo_rep _ _ _ Hok).
  assert (∀ s', lookup_slot (m_set_workspace (ensure_slot_count (base_slot_count m + size (<[s:=as_u32
      (base_slot_count m + size (m_slots m))]> (m_slots m))) (m_workspace m)) (m_set_slots (<[s:=as_u32
      (base_slot_count m + size (m_slots m))]> (m_slots m)) m)) s' =
      if decide (s' = s) then Some (as_u32 (base_slot_count m + size (m_slots m)))
      else lookup_slot m s') as Hlook.
  { intros s'. unfold lookup_slot. simpl. case_decide as Hd; [subst; by rewrite lookup_insert_eq|].
    by rewrite lookup_insert_ne. }
  do 2 eexists. eexists. split; [done|]. destruct Hm. split_and!.
  - split; simpl; try done.
    + unfold ensure_slot_count. case_match eqn:Hlt; simpl; [|by apply Nat.ltb_ge in Hlt].
      apply Nat.ltb_lt in Hlt. rewrite length_app, length_replicate. unfold base_slot_count in *. simpl in *. lia.
    + intros s' t'. rewrite Hsz, lookup_insert_Some, Ht. unfold base_slot_count in *. simpl.
      intros [[<- <-]|[Hne Hq%vk_slots0]]; lia.
    + intros s1 s2 t'. rewrite Ht, !lookup_insert_Some.
      intros [[<- <-]|[? Hl1]] [[<- Hl2]|[? Hl2]]; try done.
      * apply vk_slots0 in Hl2. lia.
      * subst t'. apply vk_slots0 in Hl1. lia.
      * by eapply vk_slots_inj0.
  - split; simpl; try done. intros s' t' Hl. rewrite Hlook. case_decide; [|done]. subst. congruence.
  - split; [done|]. simpl. unfold ensure_slot_count. case_match; [by eexists|].
    exists (vm_heads (m_workspace m)). by destruct (m_workspace m).
  - split; cbn [m_mapped m_slots m_literal_values m_set_workspace m_set_slots]; [done|lia|done].
  - rewrite Hlook. by rewrite decide_True.
  - simpl. exact (ensure_slot_count_ok false _ _ (base_slot_count m + size (<[s:=as_u32
      (base_slot_count m + size (m_slots m))]> (m_slots m))) Hok).
  - done.
  - intros _. rewrite Hsz, Ht, Nat2N.id. split; [done|]. lia.
Qed.
End vocabulary.
