(* ===== verification/VmEpochFacts.v ===== *)
(** The VM epoch materializer against the event history: its slot stacks decode to
    the definitions of the slots, compiled operations run to their events, and
    its loop decides what the epoch workspace decides. *)
From Stdlib Require Import NArith ZArith Lia.
From stdpp Require Import base gmap list strings option list_monad.
From S2P Require Import Prelude Ord Terms Bytes Query QueryFacts Spec Index Kernel Frames.
From S2P Require Import VmProjection Worlds WorldFacts Intents Epochs.
From S2P Require Import StackVm StackVmFacts StackVmTrial StackVmRoots.
From S2P Require Import VmEpochs VmVocabulary.

Section facts.
Context {P : Type} `{MappedVocabularyLaws P}.
Implicit Types (m : VmEpochMaterializer P) (evs : list Event) (sts : vm_stacks).

(** The slot stacks decode to the definitions of the slots. *)
Record stacks_rep m sts evs : Prop := {
  sr_slot s t : lookup_slot m s = Some t →
    ∃ st, sts !! N.to_nat t = Some st ∧
      Forall2 (λ c f, fact_from_cells m c = Some f) st (spec_definitions evs s);
  sr_unknown s : lookup_slot m s = None → stack evs s = [];
  sr_cover t st : sts !! t = Some st → st ≠ [] → ∃ s, lookup_slot m s = Some (N.of_nat t);
}.

Lemma spec_definitions_snoc evs ev s :
  spec_definitions (evs ++ [ev]) s =
  if decide (s = event_slot ev)
  then match ev with
       | EvDefine _ f => f :: spec_definitions evs s
       | EvForget _ => tail (spec_definitions evs s)
       end
  else spec_definitions evs s.
Proof.
  unfold spec_definitions. rewrite stack_snoc. case_decide; [|done].
  destruct ev; [done|]. by destruct (stack evs s).
Qed.

(** ** Compilation *)

(** The code of an operation in a vocabulary. *)
Definition op_code m (op : Operation) (code : list Instruction) : Prop :=
  match op with
  | AllocateEntity _ => code = [i_allocate_discard]
  | OpDefine s f => ∃ t a b c, lookup_slot m s = Some t ∧ fact_from_cells m (a, b, c) = Some f ∧
      code = [i_push a; i_push b; i_push c; i_define t]
  | OpForget s => ∃ t, lookup_slot m s = Some t ∧ code = [i_forget t]
  end.

Lemma voc_le_code m m' op code : voc_le m m' → op_code m op code → op_code m' op code.
Proof.
  intros Hle. destruct op as [e|s f|s]; simpl; [done| |].
  - intros (t & a & b & c & Ht & Hf & ->). exists t, a, b, c.
    split_and!; [by apply Hle|by eapply voc_le_fact|done].
  - intros (t & Ht & ->). exists t. split; [by apply Hle|done].
Qed.

(** The entities an operation names lie below the literal cells. *)
Definition atom_fits (a : Atom) : Prop :=
  match a with AEntity e => (entity_value e < VM_LITERAL_BASE)%N | ALiteral _ => True end.

Definition operation_compiles (op : Operation) : Prop :=
  match op with
  | AllocateEntity e => (entity_value e < VM_LITERAL_BASE)%N
  | OpDefine _ f => atom_fits (fact_subject f) ∧ atom_fits (fact_object f)
  | OpForget _ => True
  end.

(** Growth of the vocabulary keeps the decoded stacks. *)
Lemma stacks_rep_le m m' sts evs :
  voc_le m m' → (∀ s, lookup_slot m' s = lookup_slot m s) → stacks_rep m sts evs → stacks_rep m' sts evs.
Proof.
  intros Hle Hl []. split.
  - intros s t. rewrite Hl. intros (st & Hst & Hf)%sr_slot0. exists st. split; [done|].
    eapply Forall2_impl; [done|]. intros c f. by apply voc_le_fact.
  - intros s. rewrite Hl. apply sr_unknown0.
  - intros t st Ht Hne. destruct (sr_cover0 t st Ht Hne) as [s Hs]. exists s. by rewrite Hl.
Qed.

(** More empty stacks. *)
Lemma stacks_rep_app m sts evs extra : stacks_rep m sts evs → stacks_rep m (sts ++ replicate extra []) evs.
Proof.
  intros []. split; [|done|].
  - intros s t (st & Hst & Hf)%sr_slot0. exists st. split; [by apply lookup_app_l_Some|done].
  - intros t st Hst Hne. apply lookup_app_Some in Hst as [Hst|[Hge Hst]]; [by eapply sr_cover0|].
    by apply lookup_replicate in Hst as [-> _].
Qed.

(** A token taken for [s] is free: its stack is empty. *)
Lemma stacks_rep_slot m m' sts evs s t extra :
  voc_ok m → voc_le m m' → stacks_rep m sts evs →
  (∀ s', lookup_slot m' s' = if decide (s' = s) then Some t else lookup_slot m s') →
  (lookup_slot m s = None →
    N.to_nat t = base_slot_count m + size (m_slots m) ∧ N.to_nat t < length sts + extra) →
  stacks_rep m' (sts ++ replicate extra []) evs.
Proof.
  intros Hvoc Hle Hrep%(stacks_rep_app _ _ _ extra) Hl Hnew. destruct (lookup_slot m s) as [t0|] eqn:E.
  - apply (stacks_rep_le m); [done| |done]. intros s'. rewrite Hl. case_decide; [|done]. subst.
    rewrite E. apply (vl_slots _ _ Hle) in E. rewrite Hl, decide_True in E by done. done.
  - destruct (Hnew eq_refl) as [Ht Hlt]. destruct Hrep. split.
    + intros s' t'. rewrite Hl. case_decide as Hs; [intros [= <-]; subst|].
      * destruct (lookup_lt_is_Some_2 (sts ++ replicate extra []) (N.to_nat t)) as [st Hst];
          [by rewrite length_app, length_replicate|].
        exists st. split; [done|]. unfold spec_definitions. rewrite (sr_unknown0 _ E).
        destruct st as [|c st]; [constructor|exfalso].
        destruct (sr_cover0 _ _ Hst ltac:(done)) as [s' Hs']. apply (lookup_slot_bound _ _ _ Hvoc) in Hs'.
        lia.
      * intros (st & Hst & Hf)%sr_slot0. exists st. split; [done|].
        eapply Forall2_impl; [done|]. intros c f. by apply voc_le_fact.
    + intros s'. rewrite Hl. case_decide; [done|]. apply sr_unknown0.
    + intros t' st Hst Hne. destruct (sr_cover0 t' st Hst Hne) as [s' Hs']. exists s'. by apply Hle.
Qed.

(** A vocabulary, its workspace and the history. *)
Record mat_rep m sts evs : Prop := {
  mr_voc : voc_ok m;
  mr_vm : vm_ok false (m_workspace m) sts;
  mr_stacks : stacks_rep m sts evs;
}.

Lemma quiet_vm m m' sts : quiet m m' → vm_heads (m_workspace m') = vm_heads (m_workspace m) →
  vm_ok false (m_workspace m) sts → vm_ok false (m_workspace m') sts.
Proof. intros [_ [h Hw]] Hh []. rewrite Hw in *. simpl in Hh. subst h. by split. Qed.

Lemma mat_bind_Ok {A B} (c : mat A) (k : A → mat B) m a m' :
  c m = (Ok a, m') → (c ≫= k) m = k a m'.
Proof. intros Hc. unfold mbind, mat_bind. by rewrite Hc. Qed.

(** What compiling one or more operations does to the materializer. *)
Record compiled n m sts evs m' sts' : Prop := {
  cp_rep : mat_rep m' sts' evs;
  cp_le : voc_le m m';
  cp_quiet : quiet m m';
  cp_grown : voc_grown n (2 * n) m m';
}.

Lemma compiled_refl m sts evs : mat_rep m sts evs → compiled 0 m sts evs m sts.
Proof. intros Hr. split; [done|done|apply quiet_refl|by split]. Qed.

Lemma compiled_trans n1 n2 m1 sts1 m2 sts2 m3 sts3 evs :
  compiled n1 m1 sts1 evs m2 sts2 → compiled n2 m2 sts2 evs m3 sts3 →
  compiled (n1 + n2) m1 sts1 evs m3 sts3.
Proof.
  intros [] []. split; [done|by etrans|by eapply quiet_trans|].
  replace (2 * (n1 + n2)) with (2 * n1 + 2 * n2) by lia. by eapply voc_grown_trans.
Qed.

Lemma compile_operation_ok m sts evs op n :
  mat_rep m sts evs → voc_room m (S n) → operation_compiles op →
  ∃ code m' sts', compile_operation op m = (Ok code, m') ∧ compiled 1 m sts evs m' sts' ∧
    op_code m' op code.
Proof.
  intros [Hvoc Hvm Hst] Hroom Hop.
  destruct op as [e|s f|s]; cbn [compile_operation];
    [|pose proof (slot_token_ok m s sts Hvoc) as Hslot; destruct Hslot as
      (t & m1 & extra & E1 & Hvoc1 & Hle1 & Hq1 & Hg1 & Hl1 & Hvm1 & Hlook & Hnew);
      [destruct Hroom; lia|done|];
      pose proof (stacks_rep_slot _ _ _ _ _ _ _ Hvoc Hle1 Hst Hlook Hnew) as Hst1;
      rewrite (mat_bind_Ok _ _ _ _ _ E1)..].
  - simpl in Hop. rewrite (proj2 (N.leb_gt _ _)) by done.
    exists [i_allocate_discard], m, sts. split; [done|]. split; [|done].
    split; [done|done|apply quiet_refl|split; [done|lia..]].
  - destruct Hop as [Hs Ho].
    assert (∀ k m', voc_grown 1 k m m' → k ≤ 1 → (VM_LITERAL_BASE + N.of_nat (base_literal_count m' +
      length (m_literal_values m') + 1) <= u64_modulus)%N) as Hfit.
    { intros k m' [Hmp _ Hl] Hk. destruct Hroom. unfold base_literal_count in *. rewrite Hmp. lia. }
    destruct (atom_cell_ok m1 (fact_subject f) 0 Hvoc1) as (a & m2 & E2 & Hvoc2 & Hc2 & Hg2 & Ha);
      [apply (Hfit 0); [done|lia]|intros e He; by rewrite He in Hs|].
    destruct (predicate_cell_ok m2 (fact_predicate f) Hvoc2) as (b & m3 & E3 & Hvoc3 & Hc3 & Hg3 & Hb).
    pose proof (voc_grown_trans _ _ _ _ _ _ _ (voc_grown_trans _ _ _ _ _ _ _ Hg1 Hg2) Hg3) as Hg13.
    destruct (atom_cell_ok m3 (fact_object f) 0 Hvoc3) as (c & m4 & E4 & Hvoc4 & Hc4 & Hg4 & Hc);
      [apply (Hfit 1); [done|lia]|intros e He; by rewrite He in Ho|].
    rewrite (mat_bind_Ok _ _ _ _ _ E2), (mat_bind_Ok _ _ _ _ _ E3), (mat_bind_Ok _ _ _ _ _ E4).
    assert (cells_only m1 m4) as Hc14 by (by do 2 (etrans; [eassumption|])).
    assert (cells_only m2 m4) as Hc24 by (by etrans).
    exists [i_push a; i_push b; i_push c; i_define t], m4, (sts ++ replicate extra []).
    split; [done|]. split; [split|].
    + split; [done|by rewrite (cl_workspace _ _ Hc14)|].
      apply (stacks_rep_le m1); [apply Hc14|by intros s'; apply cells_only_lookup|done].
    + etrans; [done|apply Hc14].
    + eapply quiet_trans; [done|by apply cells_only_quiet].
    + pose proof (voc_grown_trans _ _ _ _ _ _ _ Hg13 Hg4) as []. by split.
    + exists t, a, b, c. rewrite (cells_only_lookup _ _ _ Hc14). split_and!; [done| |done].
      unfold fact_from_cells.
      rewrite (voc_le_atom _ _ _ _ (cl_le _ _ Hc24) Ha), option_bind_Some.
      rewrite (voc_le_predicate _ _ _ _ (cl_le _ _ Hc4) Hb), option_bind_Some.
      rewrite Hc, option_bind_Some. by destruct f.
  - exists [i_forget t], m1, (sts ++ replicate extra []). split; [done|]. split; [|by exists t].
    split; [by split|done|done|]. destruct Hg1. split; [done|done|lia].
Qed.

Lemma compile_loop_ok ops m sts evs n :
  mat_rep m sts evs → voc_room m (length ops + n) → Forall operation_compiles ops →
  ∃ codes m' sts', compile_loop ops m = (Ok (concat codes), m') ∧
    compiled (length ops) m sts evs m' sts' ∧ Forall2 (op_code m') ops codes.
Proof.
  revert m sts. induction ops as [|op ops IH]; intros m sts Hm Hroom Hops; cbn [compile_loop length].
  { exists [], m, sts. split; [done|]. split; [by apply compiled_refl|constructor]. }
  apply Forall_cons in Hops as [Hop Hops].
  destruct (compile_operation_ok m sts evs op (length ops + n) Hm Hroom Hop)
    as (code & m1 & sts1 & E1 & Hc1 & Hcode).
  destruct (IH m1 sts1) as (codes & m2 & sts2 & E2 & Hc2 & Hcodes); [apply Hc1| |done|].
  { eapply (voc_room_grown m m1 _ 1); [apply Hc1|done]. }
  rewrite (mat_bind_Ok _ _ _ _ _ E1), (mat_bind_Ok _ _ _ _ _ E2).
  exists (code :: codes), m2, sts2. split; [done|]. split.
  - by apply (compiled_trans 1 (length ops) _ _ _ _ _ _ _ Hc1 Hc2).
  - constructor; [|done]. by eapply voc_le_code; [apply Hc2|].
Qed.

(** ** Running the code of operations *)

Lemma literal_base_small n : (n < VM_LITERAL_BASE)%N → (n + 1 < u64_max)%N.
Proof.
  change VM_LITERAL_BASE with 9223372036854775808%N. change u64_max with 18446744073709551615%N. lia.
Qed.

Lemma saturating_next n : (n < VM_LITERAL_BASE)%N → u64_saturating_add n 1 = u64_add n 1.
Proof.
  intros Hn%literal_base_small. unfold u64_saturating_add, u64_add.
  rewrite N.min_l by lia. unfold u64_wrap. rewrite N.mod_small; [done|].
  unfold u64_max in Hn. lia.
Qed.

Lemma stacks_rep_set m sts evs ev t st :
  voc_ok m → stacks_rep m sts evs → lookup_slot m (event_slot ev) = Some t →
  Forall2 (λ c f, fact_from_cells m c = Some f) st (spec_definitions (evs ++ [ev]) (event_slot ev)) →
  stacks_rep m (<[N.to_nat t := st]> sts) (evs ++ [ev]).
Proof.
  intros Hvoc Hrep Ht Hst. pose proof Hrep as []. split.
  - intros s' t' Ht'. destruct (decide (s' = event_slot ev)) as [->|Hne].
    + rewrite Ht in Ht'. injection Ht' as <-. exists st. split; [|done].
      apply list_lookup_insert_eq. destruct (sr_slot0 _ _ Ht) as (? & Hl & _).
      by eapply lookup_lt_Some.
    + rewrite spec_definitions_snoc, decide_False by done.
      rewrite list_lookup_insert_ne; [by apply sr_slot0|].
      intros Heq. apply Hne. apply N2Nat.inj in Heq. subst t'. by eapply lookup_slot_inj.
  - intros s' Hs'. rewrite stack_snoc, decide_False; [by apply sr_unknown0|]. intros ->. congruence.
  - intros t' st' Hl Hne. destruct (decide (t' = N.to_nat t)) as [->|Hnt].
    + exists (event_slot ev). by rewrite N2Nat.id.
    + rewrite list_lookup_insert_ne in Hl by done. by eapply sr_cover0.
Qed.

Lemma run_op_code k hash m sts evs op code next next' :
  voc_ok m → stacks_rep m sts evs → op_code m op code → operation_compiles op →
  allocate next [op] = Ok next' →
  ∃ sts', spec_loop (3 + k) hash code (Trial_mk [] sts next) = Ok (Trial_mk [] sts' next') ∧
    stacks_rep m sts' (evs ++ events_of [op]) ∧ length sts' = length sts.
Proof.
  intros Hvoc Hst Hcode Hop Ha. destruct op as [e|s f|s]; simpl in Hcode.
  - subst code. simpl in Ha. case_decide as He; [done|].
    injection Ha as <-. simpl in Hop. rewrite He in Hop.
    exists sts. cbn [events_of omap list_omap]. rewrite app_nil_r. split_and!; [|done|done].
    unfold spec_loop. cbn -[u64_saturating_add u64_add]. by rewrite saturating_next.
  - destruct Hcode as (t & a & b & c & Ht & Hf & ->). simpl in Ha. injection Ha as <-.
    destruct (sr_slot _ _ _ Hst s t Ht) as (st & Hl & Hd).
    exists (<[N.to_nat t := (a, b, c) :: st]> sts). split_and!; [| |by rewrite length_insert].
    + unfold spec_loop. cbn -[u64_saturating_add]. unfold t_set_stack. cbn. rewrite Hl. done.
    + apply (stacks_rep_set m sts evs (EvDefine s f)); [done|done|done|].
      rewrite spec_definitions_snoc, decide_True by done. by constructor.
  - destruct Hcode as (t & Ht & ->). simpl in Ha. injection Ha as <-.
    destruct (sr_slot _ _ _ Hst s t Ht) as (st & Hl & Hd).
    exists (<[N.to_nat t := tail st]> sts). split_and!; [| |by rewrite length_insert].
    + unfold spec_loop. cbn. unfold t_set_stack. cbn. rewrite Hl. done.
    + apply (stacks_rep_set m sts evs (EvForget s)); [done|done|done|].
      rewrite spec_definitions_snoc, decide_True by done. cbn [event_slot]. by destruct Hd; [constructor|].
Qed.

Lemma run_codes k hash m sts evs ops codes next next' :
  voc_ok m → stacks_rep m sts evs → Forall2 (op_code m) ops codes → Forall operation_compiles ops →
  allocate next ops = Ok next' →
  ∃ sts', spec_loop (3 + k) hash (concat codes) (Trial_mk [] sts next) = Ok (Trial_mk [] sts' next') ∧
    stacks_rep m sts' (evs ++ events_of ops) ∧ length sts' = length sts.
Proof.
  intros Hvoc Hst Hc. revert sts evs next Hst.
  induction Hc as [|op code ops codes Hcode _ IH]; intros sts evs next Hst Hops Ha.
  { simpl in *. injection Ha as <-. exists sts. by rewrite app_nil_r. }
  apply Forall_cons in Hops as [Hop Hops].
  change (op :: ops) with ([op] ++ ops) in Ha |- *. rewrite allocate_app in Ha.
  destruct (allocate next [op]) as [n1|e|] eqn:Ha1; [|done..]. cbn [outcome_bind] in Ha.
  destruct (run_op_code k hash m sts evs op code next n1 Hvoc Hst Hcode Hop Ha1)
    as (sts1 & E1 & Hst1 & Hl1).
  destruct (IH _ _ _ Hst1 Hops Ha) as (sts2 & E2 & Hst2 & Hl2).
  exists sts2. rewrite events_of_app, (assoc_L (++)). split_and!; [|done|congruence].
  cbn [concat]. unfold spec_loop in *. rewrite outcome_fold_app, E1. exact E2.
Qed.

Lemma program_writes_app a b : program_writes (a ++ b) = program_writes a + program_writes b.
Proof.
  induction a as [|i a IH]; [done|].
  change (instruction_writes i + program_writes (a ++ b) =
    instruction_writes i + program_writes a + program_writes b). lia.
Qed.

Lemma codes_writes m ops codes :
  Forall2 (op_code m) ops codes → program_writes (concat codes) = length (events_of ops).
Proof.
  induction 1 as [|op code ops codes Hc _ IH]; [done|].
  change (op :: ops) with ([op] ++ ops). rewrite events_of_app, length_app, <- IH. cbn [concat].
  rewrite program_writes_app. f_equal. destruct op as [e|s f|s]; simpl in Hc; naive_solver.
Qed.

Lemma codes_length m ops codes :
  Forall2 (op_code m) ops codes → length (concat codes) ≤ 4 * length ops.
Proof.
  induction 1 as [|op code ops codes Hc _ IH]; [done|]. cbn [concat length]. rewrite length_app.
  enough (length code ≤ 4) by lia. destruct op as [e|s f|s]; simpl in Hc; naive_solver lia.
Qed.

Lemma events_of_length ops : length (events_of ops) ≤ length ops.
Proof. induction ops as [|[] ops IH]; simpl; lia. Qed.
End facts.

(** Runs of the VM epoch materializer: an accepted intent advances the workspace
    by its events, reads agree with the history, and the loop of the epoch
    decides what the epoch workspace decides. *)

(** The slots with a visible definition, by token. *)
Fixpoint active_tokens (k : nat) (hs : list N) : list nat :=
  match hs with
  | [] => []
  | h :: hs => if decide (h ≠ NONE) then k :: active_tokens (S k) hs else active_tokens (S k) hs
  end.

Lemma active_tokens_length k hs : length (active_tokens k hs) = length (filter (λ h, h ≠ NONE) hs).
Proof.
  revert k. induction hs as [|h hs IH]; intros k; [done|]. cbn [active_tokens].
  rewrite filter_cons. case_decide; simpl; by rewrite IH.
Qed.

Lemma elem_of_active_tokens k hs t :
  t ∈ active_tokens k hs ↔ ∃ i h, t = k + i ∧ hs !! i = Some h ∧ h ≠ NONE.
Proof.
  revert k. induction hs as [|h hs IH]; intros k.
  { split; [by intros ?%elem_of_nil|naive_solver]. }
  assert ((∃ i g, t = k + i ∧ (h :: hs) !! i = Some g ∧ g ≠ NONE) ↔
    (t = k ∧ h ≠ NONE) ∨ ∃ i g, t = S k + i ∧ hs !! i = Some g ∧ g ≠ NONE) as ->.
  { split.
    - intros ([|i] & g & -> & Hg & Hn); simpl in Hg; [left; simplify_eq; split; [lia|done]|].
      right. exists i, g. split_and!; [lia|done..].
    - intros [[-> Hn]|(i & g & -> & Hg & Hn)]; [exists 0, h|exists (S i), g]; split_and!; simpl; done || lia. }
  cbn [active_tokens]. case_decide; rewrite ?elem_of_cons, IH; naive_solver.
Qed.

Lemma NoDup_active_tokens k hs : NoDup (active_tokens k hs).
Proof.
  revert k. induction hs as [|h hs IH]; intros k; [constructor|]. cbn [active_tokens].
  case_decide; [|done]. constructor; [|done]. intros (i & ? & ? & _)%elem_of_active_tokens. lia.
Qed.

Lemma chain_visible rs slot h st : chain rs slot h st → h ≠ NONE ↔ st ≠ [].
Proof. by destruct 1. Qed.

Section run.
Context {P : Type} `{MappedVocabularyLaws P}.
Implicit Types (m : VmEpochMaterializer P) (evs : list Event) (sts : vm_stacks).

(** The materializer after the history [evs]. *)
Record mat_ok m evs (next : N) : Prop := {
  mk_voc : voc_ok m;
  mk_vm : ∃ sts, vm_ok false (m_workspace m) sts ∧ stacks_rep m sts evs;
  mk_stack : vm_sp (m_workspace m) + 3 ≤ length (vm_stack (m_workspace m));
  mk_count : vm_delta_count (m_workspace m) = length evs;
  mk_next : vm_next (m_workspace m) = next;
}.

(** ** Reads *)

Lemma mat_resolve m evs next s :
  mat_ok m evs next → materializer_resolve_fact m s = Some (spec_resolve evs s).
Proof.
  intros [Hvoc (sts & Hok & Hst) _ _ _]. unfold materializer_resolve_fact, spec_resolve, top.
  destruct (lookup_slot m s) as [t|] eqn:Ht; [|by rewrite (sr_unknown _ _ _ Hst s Ht)].
  destruct (sr_slot _ _ _ Hst s t Ht) as (st & Hl & Hd). destruct Hok.
  pose proof (heads_rep_lookup _ _ _ (N.to_nat t) vo_rep) as Hh.
  unfold resolve_fact_cells, accepted_head.
  destruct (vm_heads (m_workspace m) !! N.to_nat t) as [h|] eqn:Eh; [|congruence].
  destruct Hh as (st' & Hst' & Hc). simplify_eq.
  unfold spec_definitions in Hd. cbn [ok_or].
  destruct Hc as [|i r st Hi Hr Hs Hc].
  { rewrite decide_True by done. apply Forall2_nil_inv_l, fmap_nil_inv in Hd. by rewrite Hd. }
  rewrite decide_False, pa_get_ok, Hr by done. cbn [mbind option_bind].
  destruct (stack evs s) as [|[j f] l]; simpl in Hd; [by inversion Hd|].
  apply Forall2_cons in Hd as [Hd _]. by rewrite Hd.
Qed.

Lemma mat_active m evs next :
  mat_ok m evs next → vm_active_slot_count (m_workspace m) = spec_active_count evs.
Proof.
  intros [Hvoc (sts & Hok & Hst) _ _ _]. unfold vm_active_slot_count, spec_active_count.
  rewrite <- (active_tokens_length 0), <- size_dom. unfold size, set_size. cbn.
  rewrite <- (length_fmap (λ s, N.to_nat (default 0%N (lookup_slot m s))) (elements (dom (stacks evs)))).
  assert (∀ s, s ∈ elements (dom (stacks evs)) → ∃ t, lookup_slot m s = Some t) as Htok.
  { intros s Hs%elem_of_elements%elem_of_dom. destruct Hs as [l Hl%stacks_lookup].
    destruct (lookup_slot m s) eqn:E; [by eexists|]. apply (sr_unknown _ _ _ Hst) in E. naive_solver. }
  pose proof (vo_rep _ _ _ Hok) as Hrep.
  apply Permutation_length, NoDup_Permutation.
  - apply NoDup_active_tokens.
  - apply NoDup_fmap_2_strong; [|apply NoDup_elements]. intros s1 s2 Hs1 Hs2.
    destruct (Htok s1 Hs1) as [t1 E1], (Htok s2 Hs2) as [t2 E2]. rewrite E1, E2. simpl.
    intros ->%N2Nat.inj. by eapply lookup_slot_inj.
  - intros t. rewrite elem_of_active_tokens, list_elem_of_fmap. split.
    + intros (i & h & -> & Hh & Hn). simpl. pose proof (heads_rep_lookup _ _ _ i Hrep) as Hl.
      rewrite Hh in Hl. destruct Hl as (st & Hl & Hc). rewrite (chain_visible _ _ _ _ Hc) in Hn.
      destruct (sr_cover _ _ _ Hst i st Hl Hn) as [s Hs]. exists s. rewrite Hs. simpl.
      split; [lia|]. apply elem_of_elements, elem_of_dom.
      destruct (sr_slot _ _ _ Hst s _ Hs) as (st' & Hl' & Hd). rewrite Nat2N.id in Hl'. simplify_eq.
      exists (stack evs s). apply stacks_lookup. split; [done|]. unfold spec_definitions in Hd.
      intros E. rewrite E in Hd. by apply Forall2_nil_inv_r in Hd.
    + intros (s & -> & Hs). destruct (Htok s Hs) as [t Ht]. rewrite Ht. simpl.
      apply elem_of_elements, elem_of_dom in Hs as [l [Hl1 Hl2]%stacks_lookup].
      destruct (sr_slot _ _ _ Hst s t Ht) as (st & Hl & Hd).
      pose proof (heads_rep_lookup _ _ _ (N.to_nat t) Hrep) as Hh.
      destruct (vm_heads (m_workspace m) !! N.to_nat t) as [h|] eqn:Eh; [|congruence].
      destruct Hh as (st' & Hst' & Hc). simplify_eq. exists (N.to_nat t), h. split_and!; [done..|].
      apply (chain_visible _ _ _ _ Hc). intros ->. unfold spec_definitions in Hd.
      by apply Forall2_nil_inv_l, fmap_nil_inv in Hd.
Qed.

(** ** Running an intent *)

(** Room for [n] more operations in the vocabularies and the arenas. *)
Record mat_room m (n : nat) : Prop := {
  rm_voc : voc_room m n;
  rm_vm : room (m_workspace m) (4 * n);
}.

Lemma room_le w n k : k ≤ n → room w n → room w k.
Proof. unfold room. intros ? (? & ? & ?). lia. Qed.

Lemma quiet_room m m' n : quiet m m' → room (m_workspace m) n → room (m_workspace m') n.
Proof. by intros [_ [h ->]]. Qed.

(** Compiled code runs to the events of its operations. *)
Lemma execute_codes m sts evs next ops codes next' :
  mat_rep m sts evs → vm_sp (m_workspace m) + 3 ≤ length (vm_stack (m_workspace m)) →
  vm_next (m_workspace m) = next → room (m_workspace m) (4 * length ops) →
  Forall2 (op_code m) ops codes → Forall operation_compiles ops → allocate next ops = Ok next' →
  ∃ w', execute (IntentProgram_new 0 (concat codes)) (m_workspace m) = Some (Accepted, w') ∧
    (∃ sts', vm_ok false w' sts' ∧ stacks_rep m sts' (evs ++ events_of ops) ∧ length sts' = length sts) ∧
    vm_next w' = next' ∧ extends (m_workspace m) w' ∧ wrote (length (events_of ops)) (m_workspace m) w'.
Proof.
  intros [Hvoc Hvm Hst] Hsp Hn Hroom Hcodes Hops Ha. set (w := m_workspace m) in *.
  destruct (run_codes (length (vm_stack w) - vm_sp w - 3) (vm_hash w) m sts evs ops codes next next'
    Hvoc Hst Hcodes Hops Ha) as (sts' & Hrun & Hst' & Hlen).
  replace (3 + _) with (length (vm_stack w) - vm_sp w) in Hrun by lia.
  assert (start_trial w 0 sts = Trial_mk [] sts next) as Hstart.
  { unfold start_trial. rewrite Hn. f_equal. apply drop_ge. rewrite length_take. lia. }
  pose proof (execute_spec false w sts 0 (concat codes) Hvm) as Hex.
  specialize (Hex (room_le _ _ _ (codes_length _ _ _ Hcodes) Hroom)).
  rewrite Hstart, Hrun in Hex. change (execute (IntentProgram_new 0 (concat codes)) w)
    with (execute_instructions 0 (concat codes) w).
  destruct (execute_instructions 0 (concat codes) w) as [[[|e] w']|] eqn:He; [| |done].
  - destruct Hex as (_ & t & Ht & Hok & Hn' & Hext & _). simplify_eq. exists w'. split; [done|].
    split; [by exists sts'|]. split_and!; [done|done|]. rewrite <- (codes_writes m ops codes Hcodes).
    by eapply execute_wrote.
  - destruct Hex as (_ & _ & Hex). rewrite (proj2 (Nat.ltb_ge _ _)) in Hex by lia. done.
Qed.

(** Setting the workspace keeps the vocabularies. *)
Lemma set_workspace_voc m w' :
  voc_ok m → length (vm_heads (m_workspace m)) ≤ length (vm_heads w') → voc_ok (m_set_workspace w' m).
Proof.
  intros [Hh] Hl. split; try done. cbn [m_set_workspace m_workspace m_slots].
  unfold base_slot_count in *. cbn. lia.
Qed.

Lemma set_workspace_stacks m w' sts evs : stacks_rep m sts evs → stacks_rep (m_set_workspace w' m) sts evs.
Proof. by apply stacks_rep_le. Qed.

Lemma vm_ok_heads ix w sts : vm_ok ix w sts → length (vm_heads w) = length sts.
Proof. intros []. by destruct vo_rep as [-> _]. Qed.

(** A materializer after an accepted run: [m1] is [m] with the names the code
    needed. *)
Lemma mat_ok_accepted m m1 evs next sts1 w' sts2 evs2 next' :
  mat_ok m evs next → mat_rep m1 sts1 evs → quiet m m1 →
  vm_ok false w' sts2 → stacks_rep m1 sts2 (evs ++ evs2) → length sts2 = length sts1 →
  extends (m_workspace m1) w' → wrote (length evs2) (m_workspace m1) w' → vm_next w' = next' →
  mat_ok (m_set_workspace w' m1) (evs ++ evs2) next'.
Proof.
  intros [_ _ Hsp Hcount _] Hrep [Hver [h Hw]] Hok Hst Hl Hext Hwr Hn.
  split; [|exists sts2; split; [done|by apply set_workspace_stacks]| | |done].
  - apply set_workspace_voc; [apply Hrep|].
    by rewrite (vm_ok_heads _ _ _ Hok), Hl, (vm_ok_heads _ _ _ (mr_vm _ _ _ Hrep)).
  - cbn. by rewrite (ex_sp _ _ Hext), (wr_stack _ _ _ Hwr), Hw.
  - cbn. rewrite length_app, <- Hcount. unfold vm_delta_count.
    destruct (ex_flags _ _ Hext) as [_ ->]. rewrite (wr_deltas _ _ _ Hwr), Hw. cbn. lia.
Qed.

(** A rejected run leaves the arenas' frontiers. *)
Lemma same_state_frontiers ix w w' sts :
  same_state w w' → vm_ok ix w sts → vm_ok ix w' sts →
  pa_frontier (vm_records w') = pa_frontier (vm_records w) ∧
  pa_frontier (vm_deltas w') = pa_frontier (vm_deltas w) ∧
  pa_frontier (vm_index_deltas w') = pa_frontier (vm_index_deltas w).
Proof. intros [] [] []. split_and!; erewrite <- !pa_list_length by done; congruence. Qed.

(** A materializer after a rejected run: the names [m1] took for the code are
    dropped, the empty slots stay. *)
Lemma mat_ok_rejected m m1 evs next k sts w' :
  mat_ok m evs next → vm_ok false (m_workspace m) sts → stacks_rep m sts evs → quiet m m1 →
  vm_ok false (m_workspace m1) (sts ++ replicate k []) →
  same_state (m_workspace m1) w' → vm_ok false w' (sts ++ replicate k []) →
  mat_ok (m_set_workspace w' m) evs next.
Proof.
  intros [Hvoc _ Hsp Hcount Hn] Hvm Hst [_ [h Hw]] Hvm1 Hs Hok.
  destruct (same_state_frontiers _ _ _ _ Hs Hvm1 Hok) as (_ & Hd & _). destruct Hs. rewrite Hw in *. cbn in *.
  split; [|eexists; split; [done|by apply set_workspace_stacks, stacks_rep_app]|cbn|cbn|cbn; congruence].
  - apply set_workspace_voc; [done|].
    rewrite (vm_ok_heads _ _ _ Hok), (vm_ok_heads _ _ _ Hvm), length_app. lia.
  - destruct ss_stack. congruence.
  - rewrite <- Hcount. unfold vm_delta_count. destruct ss_flags. congruence.
Qed.

Lemma mat_room_rejected m m1 sts w' n :
  mat_room m n → quiet m m1 → vm_ok false (m_workspace m1) sts → same_state (m_workspace m1) w' →
  vm_ok false w' sts → mat_room (m_set_workspace w' m) n.
Proof.
  intros [[] Hr] Hq Hvm1 Hs Hok. split; [by split|].
  destruct (same_state_frontiers _ _ _ _ Hs Hvm1 Hok) as (H1 & H2 & H3).
  apply (quiet_room _ _ _ Hq) in Hr. unfold room in *. cbn. by rewrite H1, H2, H3.
Qed.

Lemma run_operations m evs next ops next' n :
  mat_ok m evs next → mat_room m (length ops + n) → Forall operation_compiles ops →
  allocate next ops = Ok next' →
  ∃ program m1 m2, compile_operations ops m = (Ok program, m1) ∧
    run_program program m1 = (Ok Accepted, m2) ∧
    mat_ok m2 (evs ++ events_of ops) next' ∧ mat_room m2 n ∧ m_version m2 = m_version m.
Proof.
  intros Hm [Hvr Hroom] Hops Ha. pose proof Hm as [Hvoc (sts & Hvm & Hst) Hsp Hcount Hn].
  destruct (compile_loop_ok ops m sts evs n) as (codes & m1 & sts1 & E1 & [Hrep Hle Hq Hg] & Hcodes);
    [by split|done..|]. pose proof Hq as [Hver [h Hw]].
  destruct (execute_codes m1 sts1 evs next ops codes next' Hrep) as (w' & Hex & (sts2 & Hok2 & Hst2 & Hl2)
    & Hn2 & Hext & Hwr); [by rewrite Hw..| |done|done|done|].
  { apply (quiet_room _ _ _ Hq). eapply room_le; [|done]. lia. }
  exists (IntentProgram_new 0 (concat codes)), m1, (m_set_workspace w' m1).
  split_and!.
  - unfold compile_operations. by rewrite (mat_bind_Ok _ _ _ _ _ E1).
  - unfold run_program. by rewrite Hex.
  - by eapply (mat_ok_accepted m).
  - split; [destruct (voc_room_grown m m1 n (length ops) Hg Hvr); by split|].
    cbn. apply (wrote_room _ _ _ _ Hwr). apply (quiet_room _ _ _ Hq).
    eapply room_le; [|done]. pose proof (events_of_length ops). lia.
  - done.
Qed.
End run.

(** ** Intents the VM can take *)

Definition intent_atom_fits (a : IntentAtom) : Prop :=
  match a with IEntity e => (entity_value e < VM_LITERAL_BASE)%N | _ => True end.
Definition intent_operation_fits (op : IntentOperation) : Prop :=
  match op with
  | IDefine _ f => intent_atom_fits (if_subject f) ∧ intent_atom_fits (if_object f)
  | _ => True
  end.
Definition intents_fit (intents : list QueuedIntent) : Prop :=
  Forall (λ i, Forall intent_operation_fits (qi_operations i)) intents.

Definition intent_total (intents : list QueuedIntent) : nat :=
  foldr (λ i n, length (qi_operations i) + n) 0 intents.

(** A resolution in progress that has stayed below the literal cells. *)
Record below (st : N * gmap TempEntity EntityId * list Operation) : Prop := {
  bl_entities t e : st.1.2 !! t = Some e → (entity_value e < VM_LITERAL_BASE)%N;
  bl_operations : Forall operation_compiles st.2;
}.

Lemma resolve_atom_fits ns a st a' :
  below st → intent_atom_fits a → resolve_atom a ns st.1.2 = Ok a' → atom_fits a'.
Proof.
  intros [He _] Ha. destruct a as [e|t|l]; simpl; [by intros [= <-]| |by intros [= <-]].
  case_decide; [done|]. destruct (st.1.2 !! t) as [e|] eqn:E; [|done].
  intros [= <-]. by apply (He t).
Qed.

Lemma resolve_operation_fits ns st op st' :
  below st → intent_operation_fits op → (st.1.1 + 1 <= VM_LITERAL_BASE)%N →
  resolve_operation ns st op = Ok st' →
  below st' ∧ (st'.1.1 <= st.1.1 + 1)%N ∧ length st'.2 = S (length st.2).
Proof.
  intros Hst Hop Hn. pose proof Hst as [He Ho]. destruct st as [[next es] ops], op as [t|s f|s]; simpl in *.
  - case_decide; [done|]. unfold u64_checked_add. case_match; [|done]. intros [= <-]. simpl.
    rewrite length_app. split_and!; [|lia|simpl; lia]. split; simpl.
    + intros t' e'. rewrite lookup_insert_Some. intros [[<- <-]|[_ Hl]]; [simpl; lia|by eapply He].
    + apply Forall_app. split; [done|]. apply Forall_singleton. simpl. lia.
  - intros Hr. unfold resolve_fact in Hr. inv_outcome. simplify_eq. simpl.
    rewrite length_app. split_and!; [|lia|simpl; lia]. split; simpl; [done|].
    apply Forall_app. split; [done|]. apply Forall_singleton. simpl. destruct Hop.
    split; (eapply (resolve_atom_fits ns _ (next, es, ops)); [done| |done]; done).
  - intros [= <-]. simpl. rewrite length_app. split_and!; [|lia|simpl; lia]. split; simpl; [done|].
    apply Forall_app. split; [done|]. by apply Forall_singleton.
Qed.

Lemma resolve_fold_fits ns ops st st' :
  below st → Forall intent_operation_fits ops →
  (st.1.1 + N.of_nat (length ops) <= VM_LITERAL_BASE)%N →
  outcome_fold (resolve_operation ns) ops st = Ok st' →
  below st' ∧ (st'.1.1 <= st.1.1 + N.of_nat (length ops))%N ∧ length st'.2 = length st.2 + length ops.
Proof.
  revert st. induction ops as [|op ops IH]; intros st Hst Hops Hn; cbn [outcome_fold length].
  { intros [= <-]. split_and!; [done|lia..]. }
  apply Forall_cons in Hops as [Hop Hops]. cbn [length] in Hn. intros Hr. inv_outcome.
  destruct (resolve_operation_fits ns st op x Hst Hop) as (H1 & H2 & H3); [lia|done|].
  destruct (IH x H1 Hops) as (H4 & H5 & H6); [lia|done|]. split_and!; [done|lia..].
Qed.

Lemma resolve_fits next ns ops ops' es :
  Forall intent_operation_fits ops → (next + N.of_nat (length ops) <= VM_LITERAL_BASE)%N →
  resolve_operations_from next ns ops = Ok (ops', es) →
  ∃ next', allocate next ops' = Ok next' ∧ (next' <= next + N.of_nat (length ops))%N ∧
    Forall operation_compiles ops' ∧ length ops' = length ops.
Proof.
  unfold resolve_operations_from. intros Hops Hn Hr. inv_outcome. simplify_eq.
  assert (below (next, ∅, [])) as Hb by (split; [by intros t e; cbn; rewrite lookup_empty|constructor]).
  destruct (resolve_fold_fits ns ops _ x Hb Hops Hn) as ([_ H1] & H2 & H3); [done|].
  exists x.1.1. split_and!; [|done..]. by eapply (resolve_fold_allocate next ns ops (next, ∅, [])).
Qed.

Lemma resolve_fact_no_panic f ns es : resolve_fact f ns es ≠ Panic.
Proof.
  assert (∀ a, resolve_atom a ns es ≠ Panic) as Ha.
  { intros [e|t|l]; simpl; [done| |done]. case_decide; [done|]. by destruct (es !! t). }
  unfold resolve_fact. pose proof (Ha (if_subject f)). pose proof (Ha (if_object f)).
  destruct (resolve_atom (if_subject f) _ _); [|done..].
  by destruct (resolve_atom (if_object f) _ _).
Qed.

Lemma resolve_fold_no_panic ns ops st :
  (st.1.1 + N.of_nat (length ops) <= VM_LITERAL_BASE)%N →
  outcome_fold (resolve_operation ns) ops st ≠ Panic.
Proof.
  revert st. induction ops as [|op ops IH]; intros [[next es] done_] Hn; [done|].
  cbn [outcome_fold length fst] in *.
  assert (∀ n' es' l', (n' <= next + 1)%N →
    outcome_fold (resolve_operation ns) ops (n', es', l') ≠ Panic) as Hgo.
  { intros n' es' l' Hl. apply IH. simpl. lia. }
  destruct op as [t|s f|s]; cbn [resolve_operation].
  - case_decide; [done|]. pose proof (literal_base_small next).
    unfold u64_checked_add. rewrite (proj2 (N.ltb_lt _ _)) by (unfold u64_max in *; lia).
    cbn [or_panic outcome_bind]. by apply Hgo.
  - pose proof (resolve_fact_no_panic f ns es). destruct (resolve_fact f ns es); [|done..].
    cbn [outcome_bind]. apply Hgo. lia.
  - cbn [outcome_bind]. apply Hgo. lia.
Qed.

(** ** The loop *)

Section loop.
Context {D P : Type} `{KernelLaws D, MappedRootLaws P, !MappedVocabulary P, !MappedVocabularyLaws P}.
Implicit Types (m : VmEpochMaterializer P) (evs : list Event) (st : EpochState D).

Lemma mat_preconditions m evs next k id ps :
  mat_ok m evs next → k_rep k evs next →
  check_vm_preconditions m id ps = check_workspace_preconditions id k ps.
Proof.
  intros Hm Hk. unfold check_vm_preconditions, check_workspace_preconditions.
  induction ps as [|p ps IH]; [done|]. simpl.
  replace (check_vm_precondition m id p) with (check_workspace_precondition id k p).
  { destruct (check_workspace_precondition id k p) as [[]|e|]; [apply IH|done..]. }
  destruct p as [e|s expected]; [done|]. simpl.
  by rewrite (mat_resolve _ _ _ s Hm), (k_rep_resolve _ _ _ s Hk).
Qed.

(** The trial of the workspace, in the terms of the VM's. *)
Lemma workspace_trial_alt st m evs intent :
  mat_ok m evs (es_next_entity st) → k_rep (es_kernel st) evs (es_next_entity st) →
  match vm_resolve_intent m (es_id st) intent with
  | Ok (ops, es) => ∀ next', allocate (es_next_entity st) ops = Ok next' →
      ∃ k, workspace_trial st intent [] = Ok (CandidateWorld_mk (es_id st) (es_version st)
          (calculate_world_id (es_id st) (u64_add (es_version st) 1) next' ops)
          (u64_add (es_version st) 1) next' (es_operation_count st) ops k, es) ∧
        k_rep k (evs ++ events_of ops) next'
  | Err e => workspace_trial st intent [] = Err e
  | Panic => workspace_trial st intent [] = Panic
  end.
Proof.
  intros Hm Hk. unfold vm_resolve_intent, workspace_trial.
  rewrite (mat_preconditions _ _ _ _ _ _ Hm Hk), (mk_next _ _ _ Hm).
  destruct (check_workspace_preconditions _ _ _) as [[]|e|]; [|done..]. cbn [outcome_bind].
  destruct (resolve_operations_from _ _ _) as [[ops es]|e|]; [|done..]. cbn [outcome_bind].
  intros next' Ha. pose proof (apply_operations_spec _ _ _ ops Hk) as Hs. rewrite Ha in Hs.
  destruct Hs as (k & Hs & Hk'). unfold construct_from_state. rewrite Hs. cbn [outcome_bind].
  rewrite (k_rep_validate _ _ _ Hk'). cbn [map_err outcome_bind run_validators]. eauto.
Qed.

Record loop_agrees st m evs next ops m' st' : Prop := {
  lg_mat : mat_ok m' (evs ++ events_of ops) (es_next_entity st');
  lg_kernel : k_rep (es_kernel st') (evs ++ events_of ops) (es_next_entity st');
  lg_allocate : allocate next ops = Ok (es_next_entity st');
  lg_version : m_version m' = m_version m;
}.

Lemma resolve_intent_fits m id intent ops es next :
  vm_next (m_workspace m) = next → Forall intent_operation_fits (qi_operations intent) →
  (next + N.of_nat (length (qi_operations intent)) <= VM_LITERAL_BASE)%N →
  vm_resolve_intent m id intent = Ok (ops, es) →
  ∃ next', allocate next ops = Ok next' ∧
    (next' <= next + N.of_nat (length (qi_operations intent)))%N ∧
    Forall operation_compiles ops ∧ length ops = length (qi_operations intent).
Proof.
  intros <- Hf Hn Hr. unfold vm_resolve_intent in Hr. inv_outcome. by eapply resolve_fits.
Qed.

Lemma mat_room_le m n k : k ≤ n → mat_room m n → mat_room m k.
Proof. intros Hk [[] Hr]. split; [split; lia|]. eapply room_le; [|done]. lia. Qed.

Lemma version_next v n : (v + N.of_nat (S n) < u64_modulus)%N →
  u64_saturating_add v 1 = u64_add v 1 ∧ (u64_add v 1 + N.of_nat n < u64_modulus)%N.
Proof.
  intros Hv. unfold u64_add. rewrite u64_wrap_small by (unfold u64_ok; lia).
  unfold u64_saturating_add, u64_max. lia.
Qed.

Lemma resolve_intent_no_panic m evs next id intent :
  mat_ok m evs next → (next + N.of_nat (length (qi_operations intent)) <= VM_LITERAL_BASE)%N →
  vm_resolve_intent m id intent ≠ Panic.
Proof.
  intros Hm Hn. unfold vm_resolve_intent.
  assert (check_vm_preconditions m id (qi_preconditions intent) ≠ Panic) as Hp.
  { unfold check_vm_preconditions. induction (qi_preconditions intent) as [|[e|s f] ps IH]; simpl; [done|..].
    - case_decide; [done|apply IH].
    - rewrite (mat_resolve _ _ _ s Hm). simpl. case_decide; [done|apply IH]. }
  destruct (check_vm_preconditions _ _ _) as [[]|e|]; [|done..]. cbn [outcome_bind].
  unfold resolve_operations_from. rewrite (mk_next _ _ _ Hm).
  pose proof (resolve_fold_no_panic (qi_namespace intent) (qi_operations intent) (next, ∅, []) Hn).
  by destruct (outcome_fold _ _ _).
Qed.

Lemma vm_loop_ok intents : ∀ position st m evs,
  mat_ok m evs (es_next_entity st) → k_rep (es_kernel st) evs (es_next_entity st) →
  intents_fit intents → (es_next_entity st + N.of_nat (intent_total intents) <= VM_LITERAL_BASE)%N →
  (es_version st + N.of_nat (length intents) < u64_modulus)%N → mat_room m (intent_total intents) →
  ∃ st' ops outs m', workspace_loop [] position st intents = Some (st', ops, outs) ∧
    vm_loop position (es_id st) (es_version st) intents m = (Ok (ops, outs), m') ∧
    loop_agrees st m evs (es_next_entity st) ops m' st'.
Proof.
  induction intents as [|intent intents IH]; intros position st m evs Hm Hk Hfit Hnext Hver Hroom.
  { exists st, [], [], m. split_and!; [done..|]. split; cbn [events_of omap list_omap];
      rewrite ?app_nil_r; done. }
  apply Forall_cons in Hfit as [Hf Hfit]. cbn [intent_total foldr length] in Hnext, Hver, Hroom.
  fold (intent_total intents) in Hnext, Hroom.
  pose proof (workspace_trial_alt st m evs intent Hm Hk) as Ht.
  cbn [vm_loop workspace_loop]. destruct (vm_resolve_intent _ _ _) as [[ops es]|e|] eqn:Hr.
  - destruct (resolve_intent_fits m (es_id st) intent ops es _ (mk_next _ _ _ Hm) Hf) as (next' & Ha & Hle & Hops & Hlen);
      [lia|done|].
    destruct (Ht next' Ha) as (k & -> & Hk'). cbn [into_materialized_state c_id c_version c_next_entity
      c_base_operation_count c_operations c_kernel].
    destruct (run_operations m evs _ ops next' (intent_total intents) Hm) as
      (program & m1 & m2 & E1 & E2 & Hm2 & Hr2 & Hv2); [by rewrite Hlen|done|done|].
    rewrite (mat_bind_Ok _ _ _ _ _ E1), (mat_bind_Ok _ _ _ _ _ E2).
    destruct (version_next (es_version st) (length intents)) as [Hsat Hver']; [lia|].
    set (id := calculate_world_id (es_id st) _ next' ops).
    set (st1 := EpochState_mk id (u64_add (es_version st) 1) next'
      (es_operation_count st + length ops) k).
    destruct (IH (S position) st1 m2 (evs ++ events_of ops)) as (st' & ops' & outs & m' & Hw & Hv & Hl);
      [done|done|done|simpl; lia|done|done|].
    rewrite Hw. unfold mat_get. erewrite mat_bind_Ok by done. cbv zeta.
    rewrite Hsat, (mk_next _ _ _ Hm2). fold id. rewrite (mat_bind_Ok _ _ _ _ _ Hv).
    cbn [mbind option_bind fst snd]. do 4 eexists. split_and!; [done..|].
    destruct Hl as [L1 L2 L3 L4]. split.
    + by rewrite events_of_app, (assoc_L (++)).
    + by rewrite events_of_app, (assoc_L (++)).
    + by rewrite allocate_app, Ha.
    + congruence.
  - rewrite Ht. edestruct (IH (S position) st m evs) as (st' & ops & outs & m' & Hw & Hv & Hl);
      [done..|lia|lia|eapply mat_room_le; [|done]; lia|].
    rewrite Hw, (mat_bind_Ok _ _ _ _ _ Hv). cbn [mbind option_bind fst snd].
    do 4 eexists. split_and!; [done..|]. by destruct Hl.
  - exfalso. apply (resolve_intent_no_panic _ _ _ _ _ Hm) in Hr; [done|lia].
Qed.
End loop.
