(* ===== verification/VmEpochProps.v ===== *)
(** The properties of the VM epoch materializer: epochs executed on the stack VM
    against epochs derived on worlds. *)
From Stdlib Require Import NArith ZArith Lia.
From stdpp Require Import base gmap list strings option list_monad.
From S2P Require Import Prelude Ord Terms Bytes Query QueryFacts Spec Index Kernel Frames.
From S2P Require Import LegacyDb KernelProps VmProjection Worlds WorldFacts WorldProps Intents Epochs.
From S2P Require Import StackVm StackVmFacts StackVmTrial StackVmRoots.
From S2P Require Import EpochProps VmEpochs VmVocabulary VmEpochFacts.

Section props.
Context {D P : Type} `{KernelLaws D, MappedRootLaws P, !MappedVocabulary P, !MappedVocabularyLaws P}.

(** The same decision, published in the same frame. *)
Definition published_alike (o1 o2 : EpochOutcome D P) : Prop :=
  match o1, o2 with
  | EpochAccepted a1, EpochAccepted a2 =>
      ai_position a1 = ai_position a2 ∧ ai_entities a1 = ai_entities a2 ∧ ai_frame a1 = ai_frame a2
  | EpochRejected r1, EpochRejected r2 => r1 = r2
  | _, _ => False
  end.

Lemma published_outcomes_alike (w1 w2 : World D P) f outs :
  Forall2 published_alike (published_outcome w1 f <$> outs) (published_outcome w2 f <$> outs).
Proof. induction outs as [|[pos es|r] outs IH]; simpl; constructor; done. Qed.

Lemma rejected_outcomes_alike outs (os : list (EpochOutcome D P)) :
  mapM only_rejected outs = Some os → Forall2 published_alike os os.
Proof.
  revert os. induction outs as [|[pos es|r] outs IH]; intros os; simpl; [by intros [= <-]|done|].
  destruct (mapM only_rejected outs) as [os'|]; [|done]. intros [= <-]. constructor; [done|by apply IH].
Qed.

Lemma only_rejected_all outs :
  length (filter workspace_accepted outs) = 0 → is_Some (mapM (only_rejected (D := D) (P := P)) outs).
Proof.
  induction outs as [|[pos es|r] outs IH]; simpl; [by eexists|done|].
  intros [os ->]%IH. by eexists.
Qed.

(** Nothing accepted, nothing done. *)
Lemma workspace_loop_rejected intents position (st st' : EpochState D) ops outs :
  workspace_loop [] position st intents = Some (st', ops, outs) →
  length (filter workspace_accepted outs) = 0 → st' = st ∧ ops = [].
Proof.
  revert position st st' ops outs.
  induction intents as [|intent intents IH]; intros position st st' ops outs; cbn [workspace_loop].
  { by intros [= <- <- <-]. }
  destruct (workspace_trial st intent []) as [[c es]|e|]; [| |done].
  - destruct (into_materialized_state c) as [[[[[id v] n] count] acc] k].
    destruct (workspace_loop _ _ _ _) as [[[st1 ops1] outs1]|]; [|done]. intros [= <- <- <-]. simpl. done.
  - destruct (workspace_loop _ _ _ _) as [[[st1 ops1] outs1]|] eqn:Hw; [|done].
    intros [= <- <- <-] Hz. exact (IH (S position) _ _ _ _ Hw Hz).
Qed.
End props.

(** C18: Executing an epoch on the stack VM decides what the world planner
    decides.  From a materializer that holds the history of the base, within
    the capacity of its tokens, literal cells and arenas, deriving the epoch by
    compiling and running the intents succeeds, accepts and rejects the same
    intents with the same entities and reasons as the planner on kernels, and
    publishes the very same frame.  The successor world, which the VM builds
    without a kernel, has a valid history with the right counts, and the
    materializer holds that history. *)
Theorem vm_epoch_agrees {D P : Type}
    `{KernelLaws D, MappedRootLaws P, !MappedVocabulary P, !MappedVocabularyLaws P}
    (base : World D P) fs (m : VmEpochMaterializer P) (intents : list QueuedIntent) :
  world_ok base fs → mat_ok m (frame_events fs) (w_next_entity base) → intents_fit intents →
  (w_next_entity base + N.of_nat (intent_total intents) <= VM_LITERAL_BASE)%N →
  (w_version base + N.of_nat (length intents) < u64_modulus)%N → mat_room m (intent_total intents) →
  ∃ plan vm_plan m',
    derive_epoch_world base intents [] = Some plan ∧
    derive_vm_epoch base intents m = (Ok vm_plan, m') ∧
    ep_frames vm_plan = ep_frames plan ∧
    Forall2 published_alike (ep_outcomes plan) (ep_outcomes vm_plan) ∧
    world_ok (ep_tail vm_plan) (fs ++ ep_frames vm_plan) ∧
    mat_ok m' (frame_events (fs ++ ep_frames vm_plan)) (w_next_entity (ep_tail vm_plan)).
Proof.
  intros Hw Hm Hfit Hnext Hver Hroom. destruct (world_kernel_ok _ _ Hw) as (k & w1 & Hk & Hkr & _).
  destruct (vm_loop_ok intents 0 (state_of base k) m (frame_events fs)) as
    (st' & ops & outs & m' & Hwl & Hvl & [L1 L2 L3 L4]); [done..|].
  unfold derive_epoch_world, derive_vm_epoch. rewrite Hk. cbn [mbind option_bind].
  change (EpochState_mk _ _ _ _ k) with (state_of base k). rewrite Hwl. cbn [mbind option_bind].
  destruct (decide (vm_next (m_workspace m) ≠ w_next_entity base)) as [Hne|_];
    [by destruct Hne; apply (mk_next _ _ _ Hm)|]. cbn [state_of es_id es_version] in Hvl.
  rewrite Hvl. destruct (decide (length (filter workspace_accepted outs) = 0)) as [Hz|Hz].
  - destruct (only_rejected_all (D := D) (P := P) outs Hz) as [os Hos].
    rewrite !Hos. cbn [mbind option_bind]. do 3 eexists. split_and!; [done..| | |]; cbn.
    + by eapply rejected_outcomes_alike.
    + by rewrite app_nil_r.
    + rewrite app_nil_r. destruct (workspace_loop_rejected _ _ _ _ _ _ Hwl Hz) as [-> ->].
      by rewrite app_nil_r in L1.
  - assert (u64_ok (w_version base + 1)) as Hv.
    { destruct intents; [by simplify_eq/=|]. simpl in Hver. unfold u64_ok. lia. }
    rewrite (mk_next _ _ _ L1), (mat_active _ _ _ L1), (mk_count _ _ _ L1).
    destruct (from_vm_epoch_ok base fs ops (es_next_entity st') _ _ Hw Hv L3 eq_refl eq_refl) as [Hok Hops].
    unfold from_vm_epoch in *. cbn [fst snd] in Hok, Hops |- *. do 3 eexists.
    split_and!; [done..| |done|]; cbn.
    + apply published_outcomes_alike.
    + by rewrite frame_events_snoc.
Qed.

(** ** Replaying a history *)

Section replay.
Context {D P : Type} `{KernelLaws D, MappedRootLaws P, !MappedVocabulary P, !MappedVocabularyLaws P}.
Implicit Types (m : VmEpochMaterializer P) (evs : list Event) (fs : list CommitFrame).

(** Every frame advances the version by one. *)
Definition versions_step fs : Prop := Forall (λ f, resulting_version f = parent_version f + 1)%N fs.

Fixpoint versions_from (v : N) fs : Prop :=
  match fs with
  | [] => True
  | f :: fs => parent_version f = v ∧ versions_from (v + 1)%N fs
  end.

Lemma check_chain_versions fs st st' :
  outcome_fold check_frame fs st = Ok st' → versions_step fs →
  versions_from st.1.2 fs ∧ st'.1.2 = (st.1.2 + N.of_nat (length fs))%N.
Proof.
  revert st. induction fs as [|f fs IH]; intros st; cbn [outcome_fold versions_from length].
  { intros [= <-] _. split; [done|lia]. }
  intros Hr [Hf Hfs]%Forall_cons. inv_outcome.
  match goal with Hc : check_frame st f = Ok _ |- _ =>
    apply check_frame_ok in Hc as (-> & -> & _) end.
  destruct (IH (resulting_world f, resulting_version f, resulting_allocator f)) as [R3 R4]; [done..|].
  simpl in *. rewrite Hf in *. split; [done|]. lia.
Qed.

Lemma materializer_new_ok next : mat_ok (materializer_new (P := P) next) [] next.
Proof.
  split; [|exists []; split|cbn; lia|done|done].
  - by split.
  - destruct (vm_new_ok false 0 32 1024 1024 true) as [V1 V2 V3 V4 V5 V6]; [done|]. by split.
  - by split.
Qed.

Lemma materializer_new_room next n :
  (24 * N.of_nat n <= NONE)%N → mat_room (materializer_new (P := P) next) n.
Proof.
  unfold NONE. intros Hn. split; [|unfold room, NONE; simpl; lia].
  split; simpl; unfold u32_modulus, u64_modulus, VM_LITERAL_BASE; rewrite ?map_size_empty; lia.
Qed.

Lemma apply_committed_ok m evs next ops next' n :
  mat_ok m evs next → mat_room m (length ops + n) → Forall operation_compiles ops →
  allocate next ops = Ok next' →
  ∃ m', apply_committed ops m = (Ok tt, m') ∧ mat_ok m' (evs ++ events_of ops) next' ∧
    mat_room m' n ∧ m_version m' = m_version m.
Proof.
  intros Hm Hr Hops Ha.
  destruct (run_operations m evs next ops next' n Hm Hr Hops Ha) as (p & m1 & m2 & E1 & E2 & R3 & R4 & R5).
  exists m2. unfold apply_committed. by rewrite (mat_bind_Ok _ _ _ _ _ E1), (mat_bind_Ok _ _ _ _ _ E2).
Qed.

Lemma set_version_ok v m evs next n :
  mat_ok m evs next → mat_room m n →
  mat_ok (m_set_version v m) evs next ∧ mat_room (m_set_version v m) n.
Proof.
  intros [[] (sts & Hvm & []) R3 R4 R5] [[] Hroom].
  split; [|by split]. split; [by split| |done..]. exists sts. split; [done|]. by split.
Qed.

Lemma synchronize_frames_ok fs : ∀ m evs next next' v n,
  mat_ok m evs next → m_version m = v → versions_from v fs →
  (v + N.of_nat (length fs) < u64_modulus)%N →
  mat_room m (length (chain_operations fs) + n) → Forall operation_compiles (chain_operations fs) →
  allocate next (chain_operations fs) = Ok next' →
  ∃ m', synchronize_frames fs m = (Ok tt, m') ∧
    mat_ok m' (evs ++ events_of (chain_operations fs)) next' ∧ mat_room m' n ∧
    m_version m' = (v + N.of_nat (length fs))%N.
Proof.
  induction fs as [|f fs IH]; intros m evs next next' v n Hm Hv Hvs Hlen Hroom Hops Ha.
  { simpl in *. injection Ha as <-. exists m. rewrite app_nil_r. split_and!; [done..|lia]. }
  cbn [synchronize_frames versions_from length] in *. destruct Hvs as [Hp Hvs].
  change (chain_operations (f :: fs)) with (frame_operations f ++ chain_operations fs) in *.
  rewrite allocate_app in Ha. rewrite length_app in Hroom.
  destruct (allocate next (frame_operations f)) as [n1|e|] eqn:Ha1; [|done..]. cbn [outcome_bind] in Ha.
  apply Forall_app in Hops as [Hf Hops].
  destruct (apply_committed_ok m evs next (frame_operations f) n1 (length (chain_operations fs) + n))
    as (m1 & E1 & Hm1 & Hr1 & Hv1); [done|by rewrite Nat.add_assoc|done..|].
  assert (synchronize_frame f m = (Ok tt, m_set_version (v + 1)%N m1)) as E2.
  { unfold synchronize_frame, u64_add. rewrite Hp, Hv.
    rewrite u64_wrap_small by (unfold u64_ok; lia). rewrite (proj2 (N.ltb_lt _ _)) by lia.
    by rewrite (mat_bind_Ok _ _ _ _ _ E1). }
  rewrite (mat_bind_Ok _ _ _ _ _ E2). destruct (set_version_ok (v + 1) _ _ _ _ Hm1 Hr1) as [Hm2 Hr2].
  destruct (IH _ _ _ next' (v + 1)%N n Hm2 eq_refl Hvs) as (m' & E3 & R6 & R7 & R8); [lia|done..|].
  exists m'. rewrite events_of_app, (assoc_L (++)). split_and!; [done..|lia].
Qed.
End replay.

(** A materializer built from a world holds the world's history.  If every
    frame of the world advances the version by one, the entities it names lie
    below the literal cells and its operations fit into the arenas, with room
    for [n] more, [from_world] replays the frames without error: every slot
    reads as in the history, the allocator and the version are the world's, and
    the room is left. *)
Theorem materializer_replays {D P : Type}
    `{KernelLaws D, MappedRootLaws P, !MappedVocabulary P, !MappedVocabularyLaws P}
    (base : World D P) fs n :
  world_ok base fs → versions_step fs → Forall operation_compiles (chain_operations fs) →
  (24 * N.of_nat (length (chain_operations fs) + n) <= NONE)%N →
  (N.of_nat (length fs) < u64_modulus)%N →
  ∃ m, materializer_from_world base = Ok m ∧ mat_ok m (frame_events fs) (w_next_entity base) ∧
    (∀ s, materializer_resolve_fact m s = Some (spec_resolve (frame_events fs) s)) ∧
    vm_active_slot_count (m_workspace m) = spec_active_count (frame_events fs) ∧
    m_version m = w_version base ∧ mat_room m n.
Proof.
  intros Hw Hvs Hops Hroom Hlen.
  destruct (check_chain_versions fs _ _ (wo_chain _ _ Hw) Hvs) as [Hv1 Hv2]. cbn [fst snd genesis_state] in *.
  pose proof (check_chain_allocate _ _ (wo_chain _ _ Hw)) as Ha. cbn [snd] in Ha.
  assert (∃ m, materializer_from_world base = Ok m ∧ mat_ok m (frame_events fs) (w_next_entity base) ∧
    m_version m = w_version base ∧ mat_room m n) as (m & R3 & R4 & R5 & R6).
  2: { exists m. split_and!; [done..| | |done|done]; [|by eapply mat_active].
       intros s. by eapply mat_resolve. }
  unfold materializer_from_world, synchronize_to. cbn [m_version materializer_new].
  rewrite (proj2 (N.ltb_ge _ _)) by lia. destruct (0 =? w_version base)%N eqn:E.
  - apply N.eqb_eq in E. destruct fs; [|simpl in *; lia]. simpl in Ha. injection Ha as Ha.
    rewrite <- Ha. eexists. split_and!; [done|apply materializer_new_ok|done|].
    apply materializer_new_room. simpl in *. lia.
  - apply N.eqb_neq in E. rewrite (proj2 (N.ltb_lt 0 _)) by lia. cbn [N.eqb andb].
    rewrite (wo_frames _ _ Hw).
    destruct (synchronize_frames_ok fs (materializer_new 1) [] 1 (w_next_entity base) 0 n) as
      (m' & E1 & R3 & R4 & R5); [apply materializer_new_ok|done..| |done|done|].
    { by apply materializer_new_room. }
    change (m_set_workspace (with_indexes_from 1 0 32 1024 1024) (materializer_new (w_next_entity base)))
      with (materializer_new (P := P) 1). rewrite E1. exists m'.
    rewrite frame_events_ops. split_and!; [done..|lia|done].
Qed.

(** ** Concrete runs *)

(** Without a mapped snapshot there are no tokens below the vocabularies. *)
#[export] Instance no_vocabulary : MappedVocabulary Empty_set := {
  mv_slot_token p := match p with end;
  mv_predicate_token p := match p with end;
  mv_literal_token p := match p with end;
  mv_slot_count p := match p with end;
  mv_predicate_count p := match p with end;
  mv_literal_count p := match p with end;
  mv_predicate_value p := match p with end;
  mv_literal_value p := match p with end;
  mv_workspace_image p := match p with end;
}.

#[export] Instance no_vocabulary_laws : MappedVocabularyLaws Empty_set.
Proof. by split; intros []. Qed.

Lemma vm_epoch_agrees_witness :
  ∃ plan vm_plan m',
    derive_epoch_world (genesis (D := LegacyDb.ForthDb) (P := Empty_set)) sample_epoch [] = Some plan ∧
    derive_vm_epoch genesis sample_epoch (materializer_new 1) = (Ok vm_plan, m') ∧
    ep_frames vm_plan = ep_frames plan ∧
    Forall2 published_alike (ep_outcomes plan) (ep_outcomes vm_plan) ∧
    world_ok (ep_tail vm_plan) ([] ++ ep_frames vm_plan) ∧
    mat_ok m' (frame_events ([] ++ ep_frames vm_plan)) (w_next_entity (ep_tail vm_plan)).
Proof.
  apply (vm_epoch_agrees genesis [] (materializer_new 1) sample_epoch).
  - apply genesis_ok.
  - apply materializer_new_ok.
  - repeat constructor.
  - by vm_compute.
  - by vm_compute.
  - apply materializer_new_room. by vm_compute.
Defined.

Lemma materializer_replays_witness :
  let base := (from_vm_epoch (db_current WorldProps.fresh) (tx_operations WorldProps.sample_tx) 2 1 1).1 in
  let fs := [(from_vm_epoch (db_current WorldProps.fresh) (tx_operations WorldProps.sample_tx) 2 1 1).2] in
  ∃ m, materializer_from_world base = Ok m ∧ mat_ok m (frame_events fs) (w_next_entity base) ∧
    (∀ s, materializer_resolve_fact m s = Some (spec_resolve (frame_events fs) s)) ∧
    vm_active_slot_count (m_workspace m) = spec_active_count (frame_events fs) ∧
    m_version m = w_version base ∧ mat_room m 5.
Proof.
  apply (materializer_replays _ _ 5).
  - apply (from_vm_epoch_ok (db_current WorldProps.fresh) [] (tx_operations WorldProps.sample_tx) 2 1 1);
      [apply WorldProps.fresh_ok|reflexivity|reflexivity|vm_compute; reflexivity|reflexivity].
  - repeat constructor.
  - repeat constructor.
  - by vm_compute.
  - by vm_compute.
Defined.
