(* ===== verification/Parser.v ===== *)
(** A parser monad over the decoding cursor, and exactness: a parser accepts
    precisely the byte strings of a relation, stops right after them in the same
    buffer and never panics.  Exactness composes with the monad. *)
From Stdlib Require Import NArith Lia.
From Stdlib Require Import Strings.Byte.
From stdpp Require Import base gmap list strings option list_monad.
From S2P Require Import Prelude Ord Terms Bytes Codec.

Definition parser (E A : Type) : Type := Decoder → outcome E (A * Decoder).

#[export] Instance parser_ret E : MRet (parser E) := λ A a d, Ok (a, d).
#[export] Instance parser_bind E : MBind (parser E) := λ A B k m d,
  let* r := m d in k r.1 r.2.

Definition p_fail {E A} (e : E) : parser E A := λ _, Err e.
(** [ok_or(e)?] *)
Definition p_lift {E A} (o : option A) (e : E) : parser E A :=
  match o with Some a => mret a | None => p_fail e end.

(** [for _ in 0..n]. *)
Fixpoint p_repeat {E A} (n : nat) (p : parser E A) : parser E (list A) :=
  match n with
  | 0 => mret []
  | S n => x ← p; xs ← p_repeat n p; mret (x :: xs)
  end.

Record exact {E A} (p : parser E A) (R : list u8 → A → Prop) : Prop := {
  exact_sound d rest : dec_at d rest →
    match p d with
    | Ok (x, d') => ∃ b rest', rest = b ++ rest' ∧ R b x ∧ dec_at d' rest' ∧ d_bytes d' = d_bytes d
    | Err _ => True
    | Panic => False
    end;
  exact_complete b x d rest : R b x → dec_at d (b ++ rest) →
    ∃ d', p d = Ok (x, d') ∧ dec_at d' rest;
}.

Section exact.
Context {E : Type}.

Lemma exact_iff {A} (p : parser E A) (R R' : list u8 → A → Prop) :
  (∀ b x, R b x ↔ R' b x) → exact p R → exact p R'.
Proof.
  intros HR [Hs Hc]. split.
  - intros d rest Hd. specialize (Hs d rest Hd). destruct (p d) as [[x d']|e|]; [|done..].
    destruct Hs as (b & rest' & -> & Hb & Hd'). exists b, rest'. by rewrite <- HR.
  - intros b x d rest Hb. apply Hc. by apply HR.
Qed.

Lemma exact_ret {A} (a : A) : exact (E := E) (mret a) (λ b x, b = [] ∧ x = a).
Proof.
  split.
  - intros d rest Hd. by exists [], rest.
  - intros b x d rest [-> ->] Hd. by exists d.
Qed.

Lemma exact_fail {A} (e : E) : exact (A := A) (p_fail e) (λ _ _, False).
Proof. by split. Qed.

Lemma exact_bind {A B} (p : parser E A) (k : A → parser E B) R (S : A → list u8 → B → Prop) :
  exact p R → (∀ x, exact (k x) (S x)) →
  exact (p ≫= k) (λ b y, ∃ x b1 b2, b = b1 ++ b2 ∧ R b1 x ∧ S x b2 y).
Proof.
  intros [Hs Hc] Hk. split.
  - intros d rest Hd. specialize (Hs d rest Hd). unfold mbind, parser_bind.
    destruct (p d) as [[x d']|e|]; cbn [outcome_bind fst snd]; [|done..].
    destruct Hs as (b1 & rest1 & -> & H1 & Hd1 & Hk1).
    pose proof (exact_sound _ _ (Hk x) d' rest1 Hd1) as H2.
    destruct (k x d') as [[y d'']|e|]; [|done..].
    destruct H2 as (b2 & rest2 & -> & H2 & Hd2 & Hk2).
    exists (b1 ++ b2), rest2. split; [by rewrite (assoc_L (++))|].
    split; [by exists x, b1, b2|]. split; [done|by rewrite Hk2].
  - intros b y d rest (x & b1 & b2 & -> & H1 & H2) Hd. rewrite <- (assoc_L (++)) in Hd.
    destruct (Hc b1 x d _ H1 Hd) as (d1 & Hp & Hd1). unfold mbind, parser_bind. rewrite Hp.
    cbn [outcome_bind fst snd]. by apply (exact_complete _ _ (Hk x) b2).
Qed.

Lemma exact_fmap {A B} (p : parser E A) (f : A → B) R :
  exact p R → exact (x ← p; mret (f x)) (λ b y, ∃ x, R b x ∧ y = f x).
Proof.
  intros Hp. eapply exact_iff; [|eapply exact_bind; [exact Hp|intros x; apply exact_ret]].
  intros b y. split.
  - intros (x & b1 & b2 & -> & Hx & -> & ->). exists x. by rewrite app_nil_r.
  - intros (x & Hx & ->). exists x, b, []. by rewrite app_nil_r.
Qed.

Lemma exact_map_err {F A} (e : F → E) (p : parser F A) R :
  exact p R → exact (λ d, map_err e (p d)) R.
Proof.
  intros [Hs Hc]. split.
  - intros d rest Hd. specialize (Hs d rest Hd). by destruct (p d).
  - intros b x d rest Hb Hd. destruct (Hc b x d rest Hb Hd) as (d' & Hp & Hd').
    exists d'. by rewrite Hp.
Qed.

Lemma exact_if {A} (P : Prop) `{Decision P} (p q : parser E A) R S :
  exact p R → exact q S →
  exact (if decide P then p else q) (λ b x, (P ∧ R b x) ∨ (¬ P ∧ S b x)).
Proof. intros Hp Hq. case_decide; (eapply exact_iff; [|done]); tauto. Qed.

Lemma exact_lift {A} (o : option A) (e : E) : exact (p_lift o e) (λ b x, b = [] ∧ o = Some x).
Proof.
  destruct o as [a|]; simpl.
  - eapply exact_iff; [|apply exact_ret]. naive_solver.
  - eapply exact_iff; [|apply exact_fail]. naive_solver.
Qed.

Lemma exact_repeat {A} (p : parser E A) (put : A → list u8) (wf : A → Prop) n :
  exact p (λ b x, b = put x ∧ wf x) →
  exact (p_repeat n p) (λ b xs, b = (x ← xs; put x) ∧ Forall wf xs ∧ length xs = n).
Proof.
  intros Hp. induction n as [|n IH]; simpl.
  - eapply exact_iff; [|apply exact_ret]. intros b xs. split.
    + intros [-> ->]. done.
    + intros (-> & _ & Hl). by destruct xs.
  - eapply exact_iff; [|eapply exact_bind; [exact Hp|intros x]].
    2: { eapply exact_bind; [exact IH|intros xs]. apply exact_ret. }
    intros b xs. split.
    + intros (x & b1 & b2 & -> & [-> Hx] & ys & b3 & b4 & -> & (-> & Hys & <-) & -> & ->).
      rewrite app_nil_r. split; [done|]. split; [by constructor|done].
    + intros (-> & Hwf & Hl). destruct xs as [|x xs]; [done|]. apply Forall_cons in Hwf as [Hx Hxs].
      injection Hl as Hl. exists x, (put x), (y ← xs; put y). split_and!; [done|done|done|].
      exists xs, (y ← xs; put y), []. by rewrite app_nil_r.
Qed.

(** On an input that is one encoding, the decoder stops at its end. *)
Lemma exact_whole {A} (p : parser E A) R b x :
  exact p R → R b x → u64_ok (N.of_nat (length b)) →
  ∃ d, p (Decoder_new b) = Ok (x, d) ∧ d_position d = length b.
Proof.
  intros [Hs Hc] Hb Hlen. pose proof (dec_at_new b Hlen) as Hd.
  destruct (Hc b x (Decoder_new b) [] Hb) as (d & Hp & Hd'); [by rewrite app_nil_r|].
  exists d. split; [done|]. specialize (Hs _ _ Hd). rewrite Hp in Hs.
  destruct Hs as (_ & _ & _ & _ & _ & Hk). pose proof (dec_at_length _ _ Hd') as Hl.
  destruct Hd' as (Hpos & _). rewrite Hk in Hl, Hpos. simpl in Hl, Hpos. lia.
Qed.

(** Take a fixed number of bytes. *)
Lemma exact_bytes (p : parser E (list u8)) n :
  (∀ d rest, dec_at d rest →
     if n <=? length rest
     then ∃ d', p d = Ok (take n rest, d') ∧ dec_at d' (drop n rest) ∧ d_bytes d' = d_bytes d
     else ∃ e, p d = Err e) →
  exact p (λ b x, b = x ∧ length x = n).
Proof.
  intros Hp. split.
  - intros d rest Hd. specialize (Hp d rest Hd). destruct (n <=? length rest) eqn:E1.
    + apply Nat.leb_le in E1. destruct Hp as (d' & -> & Hd'). exists (take n rest), (drop n rest).
      rewrite take_drop. split_and!; [done|done|by rewrite length_take, Nat.min_l|apply Hd'..].
    + by destruct Hp as [e ->].
  - intros b x d rest [-> Hl] Hd. specialize (Hp d _ Hd). rewrite length_app, Hl in Hp.
    assert ((n <=? n + length rest) = true) as E1 by (apply Nat.leb_le; lia). rewrite E1 in Hp.
    destruct Hp as (d' & Hp & Hd' & _). exists d'. rewrite Hp. rewrite <- Hl in *.
    by rewrite take_app_length, drop_app_length in *.
Qed.
End exact.
