(* ===== verification/Isa.v ===== *)
(** The Semantic ISA v1 stream codec (forthdb-world/src/semantic_isa.rs): framing
    of a dictionary and an instruction stream, with the exactness of its
    decoder.

    The [Cursor] is the decoding cursor of Codec.v; the size hints of
    [Vec::with_capacity] are not modelled. *)
From Stdlib Require Import NArith Lia.
From Stdlib Require Import Strings.Byte.
From stdpp Require Import base gmap list strings option list_monad.
From S2P Require Import Prelude Ord Terms Bytes Codec Parser StackVm.

Definition SEMANTIC_ISA_VERSION_1 : N := 1.
Definition STREAM_MAGIC : list u8 := string_bytes "SISA".

Record StreamDictionary := StreamDictionary_mk {
  dict_slots : list (SlotToken * SlotId);
  dict_predicates : list (Cell * Predicate);
  dict_literals : list (Cell * Literal);
}.

Definition StreamDictionary_new : StreamDictionary := StreamDictionary_mk [] [] [].

Record InstructionStreamFrame := InstructionStreamFrame_mk {
  isa_version : N;
  isa_namespace : N;
  isa_dictionary : StreamDictionary;
  isa_local_count : N;
  isa_instructions : list Instruction;
}.

Definition InstructionStreamFrame_new (namespace : N) (dictionary : StreamDictionary)
    (local_count : N) (instructions : list Instruction) : InstructionStreamFrame :=
  InstructionStreamFrame_mk SEMANTIC_ISA_VERSION_1 namespace dictionary local_count instructions.

(** ** Encoding *)

Definition isa_put_u32 (n : N) : list u8 := u32_bytes n.
Definition isa_put_u64 (n : N) : list u8 := u64_bytes n.
Definition isa_put_string (s : string) : list u8 :=
  isa_put_u32 (as_u32 (length (string_bytes s))) ++ string_bytes s.

Definition encode_instruction (i : Instruction) : list u8 :=
  [byte_of_N (opcode_u8 (opcode i))] ++ isa_put_u32 (argument i) ++ isa_put_u64 (immediate i).

Definition put_slot_entry (e : SlotToken * SlotId) : list u8 :=
  isa_put_u32 e.1 ++ isa_put_string (slot_str e.2).
Definition put_predicate_entry (e : Cell * Predicate) : list u8 :=
  isa_put_u64 e.1 ++ isa_put_string (predicate_str e.2).
Definition put_literal_entry (e : Cell * Literal) : list u8 :=
  isa_put_u64 e.1 ++ isa_put_string (literal_str e.2).

Definition encode_instruction_stream_frame (f : InstructionStreamFrame) : list u8 :=
  STREAM_MAGIC ++
  isa_put_u32 (isa_version f) ++
  isa_put_u64 (isa_namespace f) ++
  isa_put_u32 (as_u32 (length (dict_slots (isa_dictionary f)))) ++
  (e ← dict_slots (isa_dictionary f); put_slot_entry e) ++
  isa_put_u32 (as_u32 (length (dict_predicates (isa_dictionary f)))) ++
  (e ← dict_predicates (isa_dictionary f); put_predicate_entry e) ++
  isa_put_u32 (as_u32 (length (dict_literals (isa_dictionary f)))) ++
  (e ← dict_literals (isa_dictionary f); put_literal_entry e) ++
  isa_put_u32 (isa_local_count f) ++
  isa_put_u32 (as_u32 (length (isa_instructions f))) ++
  (i ← isa_instructions f; encode_instruction i).

(** ** Decoding *)

Inductive IsaError :=
| StreamMagicUnreadable
| InvalidStreamMagic (magic : list u8)
| UnsupportedIsaVersion (version : N)
| ReadFailed (width : nat)
| StringLengthOverflow
| TruncatedString
| IsaInvalidUtf8
| UnknownOpcode (value : N).

Abbreviation isa := (parser IsaError) (only parsing).

(** [read_exact] into a buffer of [n] bytes. *)
Definition read_exact (n : nat) (e : IsaError) : isa (list u8) := λ d,
  let rest := drop (d_position d) (d_bytes d) in
  if n <=? length rest
  then Ok (take n rest, Decoder_mk (d_bytes d) (d_position d + n)) else Err e.

Definition take_u8 : isa u8 :=
  buf ← read_exact 1 (ReadFailed 1); p_lift (buf !! 0) (ReadFailed 1).
Definition take_u32 : isa N := buf ← read_exact 4 (ReadFailed 4); mret (le_N buf).
Definition take_u64 : isa N := buf ← read_exact 8 (ReadFailed 8); mret (le_N buf).

(** [&buf[pos..end]] with its checks. *)
Definition take_slice (len : N) : isa (list u8) := λ d,
  match u64_checked_add (N.of_nat (d_position d)) len with
  | None => Err StringLengthOverflow
  | Some past =>
      if (N.of_nat (length (d_bytes d)) <? past)%N then Err TruncatedString
      else Ok (take (N.to_nat len) (drop (d_position d) (d_bytes d)),
               Decoder_mk (d_bytes d) (N.to_nat past))
  end.

Definition take_string : isa string :=
  len ← take_u32;
  buf ← take_slice len;
  p_lift (from_utf8 buf) IsaInvalidUtf8.

Definition decode_instruction : isa Instruction :=
  opcode_byte ← take_u8;
  argument ← take_u32;
  immediate ← take_u64;
  opcode ← p_lift (opcode_from_u8 (Byte.to_N opcode_byte)) (UnknownOpcode (Byte.to_N opcode_byte));
  mret (Instruction_raw opcode argument immediate).

Definition take_slot_entry : isa (SlotToken * SlotId) :=
  token ← take_u32; slot ← take_string; mret (token, SlotId_new slot).
Definition take_predicate_entry : isa (Cell * Predicate) :=
  cell ← take_u64; pred ← take_string; mret (cell, Predicate_new pred).
Definition take_literal_entry : isa (Cell * Literal) :=
  cell ← take_u64; lit ← take_string; mret (cell, Literal_new lit).

(** A count, then that many entries. *)
Definition take_list {A} (p : isa A) : isa (list A) :=
  count ← take_u32; p_repeat (N.to_nat count) p.

Definition decode_instruction_stream_frame : isa InstructionStreamFrame :=
  magic ← read_exact 4 StreamMagicUnreadable;
  if decide (magic ≠ STREAM_MAGIC) then p_fail (InvalidStreamMagic magic)
  else
    version ← take_u32;
    if decide (version ≠ SEMANTIC_ISA_VERSION_1) then p_fail (UnsupportedIsaVersion version)
    else
      namespace ← take_u64;
      slots ← take_list take_slot_entry;
      predicates ← take_list take_predicate_entry;
      literals ← take_list take_literal_entry;
      local_count ← take_u32;
      instructions ← take_list decode_instruction;
      mret (InstructionStreamFrame_mk version namespace
        (StreamDictionary_mk slots predicates literals) local_count instructions).

(** ** Exactness of the pieces *)

Definition str32_wf (s : string) : Prop := string_ok s ∧ u32_ok (N.of_nat (length (string_bytes s))).
Definition instruction_wf (i : Instruction) : Prop := u32_ok (argument i) ∧ u64_ok (immediate i).

Lemma le_N_ok n bs : length bs = n → (le_N bs < 256 ^ N.of_nat n)%N.
Proof. intros <-. apply le_N_bound. Qed.

Lemma le_bytes_le_N n bs : length bs = n → le_bytes n (le_N bs) = bs.
Proof. intros <-. apply le_bytes_N. Qed.

Lemma read_exact_exact n e : exact (read_exact n e) (λ b x, b = x ∧ length x = n).
Proof.
  apply exact_bytes. intros d rest (H1 & H2 & H3). unfold read_exact. rewrite H2.
  destruct (n <=? length rest) eqn:E; [|by eexists]. apply Nat.leb_le in E.
  eexists. split; [done|]. split; [|done]. split_and!; simpl; [|by rewrite <- H2, drop_drop|done].
  rewrite <- H2, length_drop in E. lia.
Qed.

Lemma take_u8_exact : exact take_u8 (λ b x, b = [x]).
Proof.
  eapply exact_iff; [|eapply exact_bind; [apply read_exact_exact|intros x; apply exact_lift]].
  intros b x. split.
  - intros (y & b1 & b2 & -> & [-> Hl] & -> & Hy). destruct y as [|z [|? ?]]; try done.
    injection Hy as ->. done.
  - intros ->. by exists [x], [x], [].
Qed.

Lemma take_u32_exact : exact take_u32 (λ b x, b = isa_put_u32 x ∧ u32_ok x).
Proof.
  eapply exact_iff; [|eapply exact_bind; [apply read_exact_exact|intros x; apply exact_ret]].
  intros b x. split.
  - intros (y & b1 & b2 & -> & [-> Hl] & -> & ->). rewrite app_nil_r. unfold isa_put_u32, u32_bytes.
    split; [by rewrite le_bytes_le_N|]. by apply le_N_ok in Hl.
  - intros [-> Hx]. exists (u32_bytes x), (u32_bytes x), []. rewrite app_nil_r.
    split_and!; [done|done|apply length_le_bytes|done|]. by rewrite le_N_u32_bytes.
Qed.

Lemma take_u64_exact : exact take_u64 (λ b x, b = isa_put_u64 x ∧ u64_ok x).
Proof.
  eapply exact_iff; [|eapply exact_bind; [apply read_exact_exact|intros x; apply exact_ret]].
  intros b x. split.
  - intros (y & b1 & b2 & -> & [-> Hl] & -> & ->). rewrite app_nil_r. unfold isa_put_u64, u64_bytes.
    split; [by rewrite le_bytes_le_N|]. by apply le_N_ok in Hl.
  - intros [-> Hx]. exists (u64_bytes x), (u64_bytes x), []. rewrite app_nil_r.
    split_and!; [done|done|apply length_le_bytes|done|]. by rewrite le_N_u64_bytes.
Qed.

Lemma take_slice_exact len : exact (take_slice len) (λ b x, b = x ∧ length x = N.to_nat len).
Proof.
  apply exact_bytes. intros d rest Hd. pose proof (dec_at_length _ _ Hd) as Hl.
  destruct Hd as (H1 & H2 & H3). unfold take_slice, u64_checked_add. unfold u64_ok in H3.
  destruct (N.to_nat len <=? length rest) eqn:E.
  - apply Nat.leb_le in E.
    assert ((N.of_nat (d_position d) + len <? u64_modulus)%N = true) as -> by (apply N.ltb_lt; lia).
    assert ((N.of_nat (length (d_bytes d)) <? N.of_nat (d_position d) + len)%N = false) as ->
      by (apply N.ltb_ge; lia).
    rewrite H2. eexists. split; [done|]. split; [|done]. split_and!; simpl; [lia| |done].
    rewrite <- H2, drop_drop. f_equal. lia.
  - apply Nat.leb_gt in E. destruct (_ <? u64_modulus)%N; [|by eexists].
    assert ((N.of_nat (length (d_bytes d)) <? N.of_nat (d_position d) + len)%N = true) as ->
      by (apply N.ltb_lt; lia). by eexists.
Qed.

Lemma as_u32_ok n : u32_ok (N.of_nat n) → as_u32 n = N.of_nat n.
Proof. intros H. by apply N.mod_small. Qed.

Lemma take_string_exact : exact take_string (λ b s, b = isa_put_string s ∧ str32_wf s).
Proof.
  eapply exact_iff; [|eapply exact_bind; [apply take_u32_exact|intros len]].
  2: { eapply exact_bind; [apply (take_slice_exact len)|intros buf; apply exact_lift]. }
  intros b s. unfold str32_wf, isa_put_string. split.
  - intros (len & b1 & b2 & -> & [-> Hlen] & buf & b3 & b4 & -> & [-> Hl] & -> & Hs).
    apply from_utf8_Some in Hs as [<- Hok]. rewrite app_nil_r.
    assert (u32_ok (N.of_nat (length (string_bytes s)))) as Hu by (by rewrite Hl, N2Nat.id).
    split_and!; [|done|done]. by rewrite (as_u32_ok _ Hu), Hl, N2Nat.id.
  - intros (-> & Hok & Hu). exists (N.of_nat (length (string_bytes s))).
    do 2 eexists. rewrite (as_u32_ok _ Hu). split_and!; [done|done|done|].
    exists (string_bytes s), (string_bytes s), []. rewrite app_nil_r.
    split_and!; [done|done|by rewrite Nat2N.id|done|by apply from_utf8_bytes].
Qed.

Lemma opcode_round_trip n o :
  opcode_from_u8 n = Some o ↔ n = opcode_u8 o.
Proof.
  split; [|intros ->; by destruct o]. unfold opcode_from_u8.
  destruct n as [|p]; [by intros [= <-]|]. do 4 (try destruct p as [p|p|]); simpl;
    try done; by intros [= <-].
Qed.

Lemma decode_instruction_exact :
  exact decode_instruction (λ b i, b = encode_instruction i ∧ instruction_wf i).
Proof.
  eapply exact_iff; [|eapply exact_bind; [apply take_u8_exact|intros x]].
  2: { eapply exact_bind; [apply take_u32_exact|intros a].
       eapply exact_bind; [apply take_u64_exact|intros i].
       eapply exact_bind; [apply exact_lift|intros o]. apply exact_ret. }
  intros b i. unfold instruction_wf, encode_instruction. split.
  - intros (x & b1 & b2 & -> & -> & a & b3 & b4 & -> & [-> Ha] & im & b5 & b6 & -> & [-> Him] &
      o & b7 & b8 & -> & [-> Ho] & -> & ->). cbn [opcode argument immediate app]. rewrite app_nil_r.
    apply opcode_round_trip in Ho. rewrite <- Ho, byte_of_N_to_N. done.
  - intros (-> & Ha & Him). do 3 eexists. split_and!; [done|done|].
    do 3 eexists. split_and!; [done|done|done|].
    exists (immediate i), (isa_put_u64 (immediate i)), []. rewrite app_nil_r.
    split_and!; [done|done|done|]. exists (opcode i), [], []. split_and!; [done|done| |done|by destruct i].
    rewrite byte_to_N_of_N. by destruct (opcode i).
Qed.

(** An entry of the dictionary: a number, then a string. *)
Lemma entry_exact {K V} (get : isa N) (put : N → list u8) (ok : N → Prop) (mk : N → string → K)
    (num : K → N) (str : K → string) (R : V → K) :
  exact get (λ b n, b = put n ∧ ok n) →
  (∀ k, mk (num k) (str k) = k) → (∀ n s, num (mk n s) = n) → (∀ n s, str (mk n s) = s) →
  exact (n ← get; s ← take_string; mret (mk n s))
    (λ b k, b = put (num k) ++ isa_put_string (str k) ∧ ok (num k) ∧ str32_wf (str k)).
Proof.
  intros Hget Hmk Hnum Hstr.
  eapply exact_iff; [|eapply exact_bind; [exact Hget|intros n]].
  2: { eapply exact_bind; [apply take_string_exact|intros s; apply exact_ret]. }
  intros b k. split.
  - intros (n & b1 & b2 & -> & [-> Hn] & s & b3 & b4 & -> & [-> Hs] & -> & ->).
    by rewrite app_nil_r, Hnum, Hstr.
  - intros (-> & Hn & Hs). do 3 eexists. split_and!; [done|done|done|].
    exists (str k), (isa_put_string (str k)), []. by rewrite app_nil_r, Hmk.
Qed.

(** A [u32] count, then that many items. *)
Lemma counted_exact {E A} (get : parser E N) (p : parser E A) (put : A → list u8) (wf : A → Prop) :
  exact get (λ b n, b = isa_put_u32 n ∧ u32_ok n) →
  exact p (λ b x, b = put x ∧ wf x) →
  exact (count ← get; p_repeat (N.to_nat count) p) (λ b xs,
    b = isa_put_u32 (as_u32 (length xs)) ++ (x ← xs; put x) ∧
    Forall wf xs ∧ u32_ok (N.of_nat (length xs))).
Proof.
  intros Hget Hp. eapply exact_iff; [|eapply exact_bind; [exact Hget|intros n]].
  2: { apply (exact_repeat p put wf (N.to_nat n) Hp). }
  intros b xs. split.
  - intros (n & b1 & b2 & -> & [-> Hn] & -> & Hxs & Hl).
    assert (u32_ok (N.of_nat (length xs))) as Hu by (by rewrite Hl, N2Nat.id).
    split_and!; [|done|done]. by rewrite (as_u32_ok _ Hu), Hl, N2Nat.id.
  - intros (-> & Hxs & Hu). rewrite (as_u32_ok _ Hu). exists (N.of_nat (length xs)).
    do 2 eexists. split_and!; [done|done|done|done|done|by rewrite Nat2N.id].
Qed.

Lemma take_list_exact {A} (p : isa A) (put : A → list u8) (wf : A → Prop) :
  exact p (λ b x, b = put x ∧ wf x) →
  exact (take_list p) (λ b xs,
    b = isa_put_u32 (as_u32 (length xs)) ++ (x ← xs; put x) ∧
    Forall wf xs ∧ u32_ok (N.of_nat (length xs))).
Proof. apply counted_exact, take_u32_exact. Qed.

(** A frame the stream format can carry. *)
Definition isa_frame_wf (f : InstructionStreamFrame) : Prop :=
  let d := isa_dictionary f in
  isa_version f = SEMANTIC_ISA_VERSION_1 ∧ u64_ok (isa_namespace f) ∧
  (Forall (λ e, u32_ok e.1 ∧ str32_wf (slot_str e.2)) (dict_slots d) ∧
   u32_ok (N.of_nat (length (dict_slots d)))) ∧
  (Forall (λ e, u64_ok e.1 ∧ str32_wf (predicate_str e.2)) (dict_predicates d) ∧
   u32_ok (N.of_nat (length (dict_predicates d)))) ∧
  (Forall (λ e, u64_ok e.1 ∧ str32_wf (literal_str e.2)) (dict_literals d) ∧
   u32_ok (N.of_nat (length (dict_literals d)))) ∧
  u32_ok (isa_local_count f) ∧
  (Forall instruction_wf (isa_instructions f) ∧ u32_ok (N.of_nat (length (isa_instructions f)))).

Lemma frame_exact :
  exact decode_instruction_stream_frame
    (λ b f, b = encode_instruction_stream_frame f ∧ isa_frame_wf f).
Proof.
  assert (exact take_slot_entry (λ b e, b = put_slot_entry e ∧ u32_ok e.1 ∧ str32_wf (slot_str e.2))) as Hslot.
  { apply (entry_exact (V := unit) take_u32 isa_put_u32 u32_ok (λ n s, (n, SlotId_new s)) fst
      (λ e, slot_str e.2)); [exact (λ _, (0%N, SlotId_new ""))|apply take_u32_exact|by intros [? []]|done|done]. }
  assert (exact take_predicate_entry
    (λ b e, b = put_predicate_entry e ∧ u64_ok e.1 ∧ str32_wf (predicate_str e.2))) as Hpred.
  { apply (entry_exact (V := unit) take_u64 isa_put_u64 u64_ok (λ n s, (n, Predicate_new s)) fst
      (λ e, predicate_str e.2)); [exact (λ _, (0%N, Predicate_new ""))|apply take_u64_exact|by intros [? []]|done|done]. }
  assert (exact take_literal_entry
    (λ b e, b = put_literal_entry e ∧ u64_ok e.1 ∧ str32_wf (literal_str e.2))) as Hlit.
  { apply (entry_exact (V := unit) take_u64 isa_put_u64 u64_ok (λ n s, (n, Literal_new s)) fst
      (λ e, literal_str e.2)); [exact (λ _, (0%N, Literal_new ""))|apply take_u64_exact|by intros [? []]|done|done]. }
  eapply exact_iff; [|eapply exact_bind; [apply read_exact_exact|intros magic]].
  2: { apply exact_if; [apply exact_fail|].
       eapply exact_bind; [apply take_u32_exact|intros version].
       apply exact_if; [apply exact_fail|].
       eapply exact_bind; [apply take_u64_exact|intros namespace].
       eapply exact_bind; [apply (take_list_exact _ _ _ Hslot)|intros slots].
       eapply exact_bind; [apply (take_list_exact _ _ _ Hpred)|intros predicates].
       eapply exact_bind; [apply (take_list_exact _ _ _ Hlit)|intros literals].
       eapply exact_bind; [apply take_u32_exact|intros locals].
       eapply exact_bind; [apply (take_list_exact _ _ _ decode_instruction_exact)|intros instrs].
       apply exact_ret. }
  intros b f. unfold isa_frame_wf, encode_instruction_stream_frame. split.
  - intros (magic & b1 & b2 & -> & [-> _] & [[_ []]|[Hm H]]).
    apply dec_stable in Hm as ->.
    destruct H as (version & b3 & b4 & -> & [-> _] & [[_ []]|[Hv H]]). apply dec_stable in Hv as ->.
    destruct H as (ns & b5 & b6 & -> & [-> Hns] & slots & b7 & b8 & -> & [-> Hs] & preds & b9 & b10 & -> &
      [-> Hp] & lits & b11 & b12 & -> & [-> Hl] & locals & b13 & b14 & -> & [-> Hlc] & instrs & b15 & b16 &
      -> & [-> Hi] & -> & ->).
    cbn [isa_version isa_namespace isa_dictionary isa_local_count isa_instructions dict_slots
      dict_predicates dict_literals]. rewrite app_nil_r.
    split; [by rewrite <- !(assoc_L (++))|done].
  - destruct f as [version ns [slots preds lits] locals instrs].
    cbn [isa_version isa_namespace isa_dictionary isa_local_count isa_instructions dict_slots
      dict_predicates dict_literals].
    intros (-> & -> & Hns & Hs & Hp & Hl & Hlc & Hi).
    exists STREAM_MAGIC. do 2 eexists. split; [reflexivity|]. split; [split; reflexivity|]. right. split; [tauto|].
    do 3 eexists. split_and!; [done|done|done|]. right. split; [tauto|].
    do 3 eexists. split_and!; [done|done|done|].
    exists slots. do 2 eexists. split; [rewrite (assoc_L (++)); done|]. split; [done|].
    exists preds. do 2 eexists. split; [rewrite (assoc_L (++)); done|]. split; [done|].
    exists lits. do 2 eexists. split; [rewrite (assoc_L (++)); done|]. split; [done|].
    do 3 eexists. split_and!; [done|done|done|].
    exists instrs. do 2 eexists. split; [symmetry; apply app_nil_r|]. by split.
Qed.

(** C27: The instruction-stream codec is exact.  From any position of any input
    the decoder returns a frame or an error, never panicking; what it returns is
    a well-formed version 1 frame whose encoding is precisely the bytes it
    consumed, and it stops right after them; and every well-formed frame is
    decoded from its encoding, whatever follows it. *)
Theorem instruction_stream_exact (d : Decoder) (rest : list u8) :
  dec_at d rest →
  match decode_instruction_stream_frame d with
  | Ok (f, d') => isa_frame_wf f ∧
      ∃ rest', rest = encode_instruction_stream_frame f ++ rest' ∧ dec_at d' rest'
  | Err _ => ∀ f rest', isa_frame_wf f → rest ≠ encode_instruction_stream_frame f ++ rest'
  | Panic => False
  end.
Proof.
  intros Hd. destruct frame_exact as [Hs Hc]. specialize (Hs d rest Hd).
  destruct (decode_instruction_stream_frame d) as [[f d']|e|] eqn:He; [| |done].
  - destruct Hs as (b & rest' & -> & [-> Hwf] & Hd' & _). eauto.
  - intros f rest' Hwf ->. destruct (Hc _ f d rest' (conj eq_refl Hwf) Hd) as (d' & Hok & _).
    by rewrite He in Hok.
Qed.

Definition sample_stream : InstructionStreamFrame :=
  InstructionStreamFrame_new 42
    (StreamDictionary_mk [(1%N, SlotId_new "user/name")] [(10%N, Predicate_new "name")]
      [(100%N, Literal_new "Alice")]) 2 [i_push 5; i_define 1].

Lemma instruction_stream_exact_witness :
  let rest := encode_instruction_stream_frame sample_stream ++ [x00] in
  match decode_instruction_stream_frame (Decoder_new rest) with
  | Ok (f, d') => isa_frame_wf f ∧
      ∃ rest', rest = encode_instruction_stream_frame f ++ rest' ∧ dec_at d' rest'
  | Err _ => ∀ f rest', isa_frame_wf f → rest ≠ encode_instruction_stream_frame f ++ rest'
  | Panic => False
  end.
Proof.
  apply (instruction_stream_exact (Decoder_new (encode_instruction_stream_frame sample_stream ++ [x00]))).
  apply dec_at_new. vm_compute. reflexivity.
Defined.
