(* ===== verification/IntentStream.v ===== *)
(** Queued intents as semantic instruction streams (forthdb-world/src/queued.rs,
    lines 191-490): [compile_to_stream_frame] interns the slots, predicates and
    literals of an intent in a stream dictionary and emits instructions,
    [from_stream_frame] runs the instructions over a small stack to rebuild the
    intent.  What a client can build comes back unchanged. *)
From Stdlib Require Import NArith Lia.
From stdpp Require Import base gmap countable list strings pretty option list_monad.
From S2P Require Import Prelude Ord Terms Query Spec Index Kernel Frames Intents StackVm Parser Isa Epochs VmEpochs.
From S2P Require Import Bytes Codec VmEpochFacts.

(** ** Interning

    The three closures [get_slot], [get_predicate] and [get_literal] keep a map
    and a vector each and differ in the code they give to the [n]-th key. *)

Record Interned (K : Type) `{Countable K} := Interned_mk {
  in_map : gmap K N;
  in_vec : list (N * K);
}.
Arguments Interned_mk {K _ _} _ _.
Arguments in_map {K _ _} _.
Arguments in_vec {K _ _} _.

Definition Interned_new {K} `{Countable K} : Interned K := Interned_mk ∅ [].

Definition intern {K} `{Countable K} (code : nat → N) (t : Interned K) (k : K) : N * Interned K :=
  match in_map t !! k with
  | Some c => (c, t)
  | None =>
      let c := code (size (in_map t)) in
      (c, Interned_mk (<[k := c]> (in_map t)) (in_vec t ++ [(c, k)]))
  end.

Record Tables := Tables_mk {
  tb_slots : Interned SlotId;
  tb_predicates : Interned Predicate;
  tb_literals : Interned Literal;
}.

Definition Tables_new : Tables := Tables_mk Interned_new Interned_new Interned_new.

Definition slot_code (n : nat) : N := as_u32 n.
Definition predicate_code (n : nat) : N := usize_of n.
Definition literal_code (n : nat) : N := u64_add VM_LITERAL_BASE (usize_of n).

Definition get_slot (t : Tables) (slot : SlotId) : SlotToken * Tables :=
  let r := intern slot_code (tb_slots t) slot in
  (r.1, Tables_mk r.2 (tb_predicates t) (tb_literals t)).
Definition get_predicate (t : Tables) (p : Predicate) : Cell * Tables :=
  let r := intern predicate_code (tb_predicates t) p in
  (r.1, Tables_mk (tb_slots t) r.2 (tb_literals t)).
Definition get_literal (t : Tables) (l : Literal) : Cell * Tables :=
  let r := intern literal_code (tb_literals t) l in
  (r.1, Tables_mk (tb_slots t) (tb_predicates t) r.2).

(** ** Compiling *)

(** The instruction that pushes an atom, [load_local] for a temporary. *)
Definition push_atom (t : Tables) (a : IntentAtom) : Instruction * Tables :=
  match a with
  | IEntity e => (i_push (entity_value e), t)
  | ITemporary temp => (i_load_local (te_index temp), t)
  | ILiteral l => let r := get_literal t l in (i_push r.1, r.2)
  end.

Definition push_fact (t : Tables) (f : IntentFact) : list Instruction * Tables :=
  let s := push_atom t (if_subject f) in
  let p := get_predicate s.2 (if_predicate f) in
  let o := push_atom p.2 (if_object f) in
  ([s.1; i_push p.1; o.1], o.2).

Definition u32_MAX : N := (u32_modulus - 1)%N.

Definition compile_precondition (t : Tables) (p : IntentPrecondition) : list Instruction * Tables :=
  match p with
  | ExpectedWorld w => ([Instruction_raw ExpectObject u32_MAX (world_value w)], t)
  | ExpectedSlot slot expected =>
      let s := get_slot t slot in
      match expected with
      | Some fact =>
          let f := push_fact s.2 (IntentFact_from fact) in
          (f.1 ++ [i_expect_object s.1 1], f.2)
      | None => ([i_expect_object s.1 0], s.2)
      end
  end.

Definition compile_stream_operation (t : Tables) (op : IntentOperation) : list Instruction * Tables :=
  match op with
  | IAllocate temp => ([i_allocate; i_store_local (te_index temp)], t)
  | IDefine slot fact =>
      let s := get_slot t slot in
      let f := push_fact s.2 fact in
      (f.1 ++ [i_define s.1], f.2)
  | IForget slot => let s := get_slot t slot in ([i_forget s.1], s.2)
  end.

(** One of the two loops: the instructions accumulate, the tables are threaded. *)
Definition stream_compile {A} (f : Tables → A → list Instruction * Tables) (l : list A)
    (st : list Instruction * Tables) : list Instruction * Tables :=
  foldl (λ st x, let r := f st.2 x in (st.1 ++ r.1, r.2)) st l.

Definition Tables_dictionary (t : Tables) : StreamDictionary :=
  StreamDictionary_mk (in_vec (tb_slots t)) (in_vec (tb_predicates t)) (in_vec (tb_literals t)).

Definition compile_to_stream_frame (i : QueuedIntent) : outcome string InstructionStreamFrame :=
  let st := stream_compile compile_precondition (qi_preconditions i) ([], Tables_new) in
  let st := stream_compile compile_stream_operation (qi_operations i) st in
  Ok (InstructionStreamFrame_new (qi_namespace i) (Tables_dictionary st.2)
        (qi_next_temporary i) st.1).

(** ** Rebuilding *)

Inductive StackVal :=
| SAtom (a : IntentAtom)
| SCell (c : N).

(** [for (key, value) in entries { map.insert(key, value) }]. *)
Definition insert_entries {A} (entries : list (N * A)) : gmap N A :=
  foldl (λ m e, <[e.1 := e.2]> m) ∅ entries.

Record StreamMaps := StreamMaps_mk {
  sm_slots : gmap N SlotId;
  sm_predicates : gmap N Predicate;
  sm_literals : gmap N Literal;
}.

Definition stream_maps (d : StreamDictionary) : StreamMaps :=
  StreamMaps_mk (insert_entries (dict_slots d)) (insert_entries (dict_predicates d))
    (insert_entries (dict_literals d)).

Definition resolve_stack_atom (m : StreamMaps) (v : StackVal) : IntentAtom :=
  match v with
  | SAtom a => a
  | SCell c =>
      if (c <? VM_LITERAL_BASE)%N then IEntity (EntityId_new c)
      else match sm_literals m !! c with
           | Some l => ILiteral l
           | None => ILiteral (Literal_new ("lit_" +:+ pretty c))
           end
  end.

Definition resolve_stack_predicate (m : StreamMaps) (v : StackVal) : Predicate :=
  match v with
  | SCell c => default (Predicate_new ("pred_" +:+ pretty c)) (sm_predicates m !! c)
  | SAtom (ILiteral l) => Predicate_new (literal_str l)
  | SAtom _ => Predicate_new "predicate"
  end.

(** The three values that [Define] and [ExpectObject] pop. *)
Definition pop_fact (m : StreamMaps) (obj pred subj : StackVal) : IntentFact :=
  IntentFact_new (resolve_stack_atom m subj) (resolve_stack_predicate m pred)
    (resolve_stack_atom m obj).

(** An expected fact has no temporaries: they become entity 0. *)
Definition expected_atom (a : IntentAtom) : Atom :=
  match a with
  | IEntity e => AEntity e
  | ILiteral l => ALiteral l
  | ITemporary _ => AEntity (EntityId_new 0)
  end.

Definition expected_fact (f : IntentFact) : Fact :=
  Fact_new (expected_atom (if_subject f)) (if_predicate f) (expected_atom (if_object f)).

Definition UnknownSlotToken (token : N) : string := "unknown slot token " +:+ pretty token.

(** The body of the loop; the stack has its top first. *)
Definition stream_step (m : StreamMaps) (inst : Instruction) (st : QueuedIntent * list StackVal) :
    outcome string (QueuedIntent * list StackVal) :=
  let '(intent, stack) := st in
  let slot := ok_or (sm_slots m !! argument inst) (UnknownSlotToken (argument inst)) in
  match opcode inst with
  | Allocate | AllocateDiscard =>
      let* r := or_panic (intent_entity intent) in Ok (r.2, stack)
  | PushCell => Ok (intent, SCell (immediate inst) :: stack)
  | LoadLocal =>
      Ok (intent, SAtom (ITemporary (TempEntity_mk (qi_namespace intent) (argument inst))) :: stack)
  | VmDefine =>
      match stack with
      | obj :: pred :: subj :: stack =>
          let* slot := slot in Ok (intent_define intent slot (pop_fact m obj pred subj), stack)
      | _ => Ok (intent, stack)
      end
  | VmForget => let* slot := slot in Ok (intent_forget intent slot, stack)
  | ExpectObject =>
      if decide (argument inst = u32_MAX) then
        Ok (expect_world intent (WorldId_new (immediate inst)), stack)
      else
        let* slot := slot in
        if decide (immediate inst = 0%N) then Ok (expect_absent intent slot, stack)
        else match stack with
             | obj :: pred :: subj :: stack =>
                 Ok (expect_value intent slot (expected_fact (pop_fact m obj pred subj)), stack)
             | _ => Ok (intent, stack)
             end
  | _ => Ok (intent, stack)
  end.

(** [while idx < instructions.len()]: an [Allocate] swallows the [StoreLocal]
    that follows it. *)
Fixpoint stream_loop (m : StreamMaps) (insts : list Instruction) (st : QueuedIntent * list StackVal) :
    outcome string (QueuedIntent * list StackVal) :=
  match insts with
  | [] => Ok st
  | inst :: rest =>
      let* st := stream_step m inst st in
      match rest with
      | next :: rest' =>
          if decide (opcode inst = Allocate ∧ opcode next = StoreLocal)
          then stream_loop m rest' st else stream_loop m rest st
      | [] => Ok st
      end
  end.

(** [counter] is the global [NEXT_INTENT_NAMESPACE]; it is advanced on the
    error path too, which the model does not report. *)
Definition from_stream_frame (counter : N) (f : InstructionStreamFrame) :
    outcome string (QueuedIntent * N) :=
  let m := stream_maps (isa_dictionary f) in
  let '(fresh, counter) := intent_new counter in
  let intent := QueuedIntent_mk (isa_namespace f) (qi_next_temporary fresh)
    (qi_preconditions fresh) (qi_operations fresh) in
  let* st := stream_loop m (isa_instructions f) (intent, []) in
  Ok (st.1, counter).

(** What the instruction stream of an intent carries: interned codes name one
    key, a group of instructions rebuilds the operation it was compiled from, and
    the frame of a client's intent is within the stream format. *)

(** ** Interning *)

Section interned.
Context {K : Type} `{EqK : EqDecision K} `{!Countable K}.
Variable code : nat → N.
Implicit Types (t : Interned K) (k : K).

Record interned_ok t : Prop := {
  io_vec : in_vec t = imap (λ i k, (code i, k)) (in_vec t).*2;
  io_size : size (in_map t) = length (in_vec t);
  io_map k c : in_map t !! k = Some c → (c, k) ∈ in_vec t;
}.

Lemma interned_ok_new : interned_ok Interned_new.
Proof. split; [done|apply map_size_empty|]. intros k c. simpl. by rewrite lookup_empty. Qed.

Lemma intern_spec t k : interned_ok t →
  interned_ok (intern code t k).2 ∧ in_vec t `prefix_of` in_vec (intern code t k).2 ∧
  ((intern code t k).1, k) ∈ in_vec (intern code t k).2 ∧
  length (in_vec (intern code t k).2) ≤ S (length (in_vec t)).
Proof.
  intros [Hvec Hsize Hmap]. unfold intern. destruct (in_map t !! k) as [c|] eqn:Hk; simpl.
  - split_and!; [by split|done|by apply Hmap|lia].
  - split_and!; [|by eexists|set_solver|rewrite length_app; simpl; lia]. split; simpl.
    + rewrite fmap_app, imap_app, <- Hvec, length_fmap, <- Hsize. simpl. by rewrite Nat.add_0_r.
    + rewrite map_size_insert_None, length_app, Hsize by done. simpl. lia.
    + intros k' c'. rewrite lookup_insert_Some, elem_of_app.
      intros [[<- <-]|[_ H]]; [right; set_solver|left; by apply Hmap].
Qed.

(** The codes of the first [n] keys are distinct. *)
Definition distinct_codes (n : nat) : Prop :=
  ∀ i j, i < n → j < n → code i = code j → i = j.

Lemma interned_entry t c k : interned_ok t → distinct_codes (length (in_vec t)) →
  (c, k) ∈ in_vec t →
  insert_entries (in_vec t) !! c = Some k ∧ ∃ i, i < length (in_vec t) ∧ c = code i.
Proof.
  intros Hok Hd Hin. rewrite (io_vec _ Hok) in Hin.
  apply elem_of_lookup_imap in Hin as (i & k0 & [= -> <-] & Hi).
  assert (i < length (in_vec t)) as Hlt
    by (apply lookup_lt_Some in Hi; by rewrite length_fmap in Hi).
  split; [|by exists i].
  assert (∀ (es : list (N * K)) (m : gmap N K), NoDup es.*1 →
    ((code i, k) ∈ es ∨ ((code i ∉ es.*1) ∧ m !! code i = Some k)) →
    foldl (λ m e, <[e.1 := e.2]> m) m es !! code i = Some k) as Hfold.
  { induction es as [|[c' k'] es IH]; simpl; intros m Hnd Hor; [set_solver|].
    apply NoDup_cons in Hnd as [Hn Hnd]. apply IH; [done|].
    destruct Hor as [[[= -> ->]|H]%elem_of_cons|[H Hm]].
    - right. split; [done|]. by rewrite lookup_insert_eq.
    - by left.
    - right. split; [set_solver|]. rewrite lookup_insert_ne by set_solver. done. }
  apply Hfold.
  - rewrite (io_vec _ Hok). apply NoDup_alt. intros a b c Ha Hb.
    rewrite list_lookup_fmap, list_lookup_imap, list_lookup_fmap in Ha, Hb.
    destruct (in_vec t !! a) eqn:Ea; [|done]. destruct (in_vec t !! b) eqn:Eb; [|done].
    simplify_eq/=. apply lookup_lt_Some in Ea, Eb. by apply Hd.
  - left. rewrite (io_vec _ Hok). apply elem_of_lookup_imap. eauto.
Qed.
End interned.

(** ** Tables *)

Record tables_ok (t : Tables) : Prop := {
  to_slots : interned_ok slot_code (tb_slots t);
  to_predicates : interned_ok predicate_code (tb_predicates t);
  to_literals : interned_ok literal_code (tb_literals t);
}.

(** The dictionary of [t'] extends that of [t]. *)
Record tables_le (t t' : Tables) : Prop := {
  tl_slots : in_vec (tb_slots t) `prefix_of` in_vec (tb_slots t');
  tl_predicates : in_vec (tb_predicates t) `prefix_of` in_vec (tb_predicates t');
  tl_literals : in_vec (tb_literals t) `prefix_of` in_vec (tb_literals t');
}.

#[export] Instance tables_le_preorder : PreOrder tables_le.
Proof.
  split; [by split|]. intros t1 t2 t3 [] []. split; by etrans.
Qed.

(** At most [s] slots, [p] predicates and [l] literals more. *)
Record tables_grow (s p l : nat) (t t' : Tables) : Prop := {
  tg_slots : length (in_vec (tb_slots t')) ≤ s + length (in_vec (tb_slots t));
  tg_predicates : length (in_vec (tb_predicates t')) ≤ p + length (in_vec (tb_predicates t));
  tg_literals : length (in_vec (tb_literals t')) ≤ l + length (in_vec (tb_literals t));
}.

(** A dictionary whose codes have not wrapped. *)
Record tables_fit (t : Tables) : Prop := {
  tf_slots : (N.of_nat (length (in_vec (tb_slots t))) < u32_modulus)%N;
  tf_predicates : (N.of_nat (length (in_vec (tb_predicates t))) < u32_modulus)%N;
  tf_literals : (N.of_nat (length (in_vec (tb_literals t))) < u32_modulus)%N;
}.

Definition tables_step (s p l : nat) (t t' : Tables) : Prop :=
  tables_ok t' ∧ tables_le t t' ∧ tables_grow s p l t t'.

Lemma tables_step_refl s p l t : tables_ok t → tables_step s p l t t.
Proof. intros H. split; [done|]. split; [done || reflexivity|]. split; lia. Qed.

Lemma tables_step_trans s p l s' p' l' t1 t2 t3 :
  tables_step s p l t1 t2 → tables_step s' p' l' t2 t3 → tables_step (s + s') (p + p') (l + l') t1 t3.
Proof.
  intros (_ & Hle & []) (Hok & Hle' & []). split; [done|]. split; [by etrans|]. split; lia.
Qed.

Lemma tables_step_weaken s p l s' p' l' t t' :
  tables_step s p l t t' → s ≤ s' → p ≤ p' → l ≤ l' → tables_step s' p' l' t t'.
Proof. intros (Hok & Hle & []) ???. split; [done|]. split; [done || reflexivity|]. split; lia. Qed.

Lemma get_slot_step t slot : tables_ok t → tables_step 1 0 0 t (get_slot t slot).2 ∧
  ((get_slot t slot).1, slot) ∈ in_vec (tb_slots (get_slot t slot).2).
Proof.
  intros []. destruct (intern_spec slot_code (tb_slots t) slot) as (? & ? & ? & ?); [done|].
  split; [|done]. split; [by split|]. split; split; simpl; done || lia.
Qed.

Lemma get_predicate_step t p : tables_ok t → tables_step 0 1 0 t (get_predicate t p).2 ∧
  ((get_predicate t p).1, p) ∈ in_vec (tb_predicates (get_predicate t p).2).
Proof.
  intros []. destruct (intern_spec predicate_code (tb_predicates t) p) as (? & ? & ? & ?); [done|].
  split; [|done]. split; [by split|]. split; split; simpl; done || lia.
Qed.

Lemma get_literal_step t l : tables_ok t → tables_step 0 0 1 t (get_literal t l).2 ∧
  ((get_literal t l).1, l) ∈ in_vec (tb_literals (get_literal t l).2).
Proof.
  intros []. destruct (intern_spec literal_code (tb_literals t) l) as (? & ? & ? & ?); [done|].
  split; [|done]. split; [by split|]. split; split; simpl; done || lia.
Qed.

Definition maps_of (t : Tables) : StreamMaps := stream_maps (Tables_dictionary t).

Lemma slot_code_small n i : (N.of_nat n < u32_modulus)%N → i < n → slot_code i = N.of_nat i.
Proof. intros Hn Hi. apply N.mod_small. lia. Qed.

Lemma predicate_code_small n i :
  (N.of_nat n < u32_modulus)%N → i < n → predicate_code i = N.of_nat i.
Proof.
  intros Hn Hi. apply N.mod_small. unfold u32_modulus, u64_modulus in *. lia.
Qed.

Lemma literal_code_small n i :
  (N.of_nat n < u32_modulus)%N → i < n → literal_code i = (VM_LITERAL_BASE + N.of_nat i)%N.
Proof.
  intros Hn Hi. unfold literal_code. change (usize_of i) with (predicate_code i).
  rewrite (predicate_code_small n) by done. apply N.mod_small.
  unfold u32_modulus, u64_modulus, VM_LITERAL_BASE in *. lia.
Qed.

(** What the final tables say of the entries of an earlier stage. *)
Section final.
Variables t T : Tables.
Hypothesis Hok : tables_ok T.
Hypothesis Hfit : tables_fit T.
Hypothesis Hle : tables_le t T.

Lemma final_slot c slot : (c, slot) ∈ in_vec (tb_slots t) →
  sm_slots (maps_of T) !! c = Some slot ∧ c ≠ u32_MAX ∧ u32_ok c.
Proof.
  intros Hin. destruct Hfit as [Hs _ _].
  destruct (interned_entry slot_code (tb_slots T) c slot) as [Hl (i & Hi & ->)].
  - by destruct Hok.
  - intros i j Hi Hj. rewrite !(slot_code_small _ _ Hs) by done. lia.
  - eapply elem_of_prefix; [done|apply Hle].
  - split; [done|]. rewrite (slot_code_small _ _ Hs) by done.
    unfold u32_MAX, u32_ok. lia.
Qed.

Lemma final_predicate c p : (c, p) ∈ in_vec (tb_predicates t) →
  sm_predicates (maps_of T) !! c = Some p ∧ u64_ok c.
Proof.
  intros Hin. destruct Hfit as [_ Hp _].
  destruct (interned_entry predicate_code (tb_predicates T) c p) as [Hl (i & Hi & ->)].
  - by destruct Hok.
  - intros i j Hi Hj. rewrite !(predicate_code_small _ _ Hp) by done. lia.
  - eapply elem_of_prefix; [done|apply Hle].
  - split; [done|]. apply u64_wrap_ok.
Qed.

Lemma final_literal c l : (c, l) ∈ in_vec (tb_literals t) →
  sm_literals (maps_of T) !! c = Some l ∧ (VM_LITERAL_BASE ≤ c)%N ∧ u64_ok c.
Proof.
  intros Hin. destruct Hfit as [_ _ Hl].
  destruct (interned_entry literal_code (tb_literals T) c l) as [Hm (i & Hi & ->)].
  - by destruct Hok.
  - intros i j Hi Hj. rewrite !(literal_code_small _ _ Hl) by done. lia.
  - eapply elem_of_prefix; [done|apply Hle].
  - split; [done|]. split; [rewrite (literal_code_small _ _ Hl) by done; lia|apply u64_wrap_ok].
Qed.
End final.

(** ** Rebuilding what was compiled *)

Lemma stream_loop_cons m inst rest st : opcode inst ≠ Allocate →
  stream_loop m (inst :: rest) st = let* st' := stream_step m inst st in stream_loop m rest st'.
Proof.
  intros Hne. simpl. destruct (stream_step m inst st) as [st'| |]; [|done..]. simpl.
  destruct rest as [|next rest]; [done|]. rewrite decide_False by tauto. done.
Qed.

(** An atom that an instruction can push: a temporary of the intent, an entity
    whose identifier is no literal cell. *)
Definition atom_pushable (namespace : N) (a : IntentAtom) : Prop :=
  match a with
  | IEntity e => (entity_value e < VM_LITERAL_BASE)%N
  | ITemporary t => te_namespace t = namespace ∧ u32_ok (te_index t)
  | ILiteral _ => True
  end.

Definition fact_pushable (namespace : N) (f : IntentFact) : Prop :=
  atom_pushable namespace (if_subject f) ∧ atom_pushable namespace (if_object f).

Lemma push_atom_step t a ns : tables_ok t → atom_pushable ns a →
  tables_step 0 0 1 t (push_atom t a).2 ∧
  ∀ T i stack, qi_namespace i = ns → tables_ok T → tables_fit T → tables_le (push_atom t a).2 T →
    instruction_wf (push_atom t a).1 ∧
    ∃ v, resolve_stack_atom (maps_of T) v = a ∧
      ∀ rest, stream_loop (maps_of T) ((push_atom t a).1 :: rest) (i, stack) =
        stream_loop (maps_of T) rest (i, v :: stack).
Proof.
  intros Hok Ha. destruct a as [e|temp|l]; simpl in Ha.
  - split; [by apply tables_step_refl|]. intros T i stack Hns HT Hfit Hle. split.
    { split; [done|]. unfold u64_ok, u64_modulus, VM_LITERAL_BASE in *. simpl. lia. }
    exists (SCell (entity_value e)). split; [|intros rest; by rewrite stream_loop_cons].
    simpl. rewrite (proj2 (N.ltb_lt _ _)) by done. by destruct e.
  - split; [by apply tables_step_refl|]. intros T i stack Hns HT Hfit Hle. split.
    { split; [apply Ha|done]. }
    eexists (SAtom (ITemporary temp)). split; [done|]. intros rest. rewrite stream_loop_cons by done.
    simpl. destruct temp, Ha as [Ha _]. simpl in *. by rewrite Hns, Ha.
  - destruct (get_literal_step t l Hok) as [Hstep Hin]. split; [done|].
    intros T i stack Hns HT Hfit Hle. cbn [push_atom fst snd] in Hle |- *.
    destruct (final_literal _ _ HT Hfit Hle _ _ Hin) as (Hl & Hb & Hu). split; [by split|].
    exists (SCell (get_literal t l).1). split; [|intros rest; by rewrite stream_loop_cons].
    cbn [resolve_stack_atom]. rewrite (proj2 (N.ltb_ge _ _)) by done. by rewrite Hl.
Qed.

Lemma push_fact_step t f ns : tables_ok t → fact_pushable ns f →
  tables_step 0 1 2 t (push_fact t f).2 ∧
  ∀ T i stack, qi_namespace i = ns → tables_ok T → tables_fit T → tables_le (push_fact t f).2 T →
    Forall instruction_wf (push_fact t f).1 ∧ length (push_fact t f).1 = 3 ∧
    ∃ o p s, pop_fact (maps_of T) o p s = f ∧
      ∀ rest, stream_loop (maps_of T) ((push_fact t f).1 ++ rest) (i, stack) =
        stream_loop (maps_of T) rest (i, o :: p :: s :: stack).
Proof.
  intros Hok [Hs Ho]. unfold push_fact.
  destruct (push_atom_step t _ ns Hok Hs) as [Hstep1 Hrun1].
  set (t1 := (push_atom t (if_subject f)).2) in *.
  destruct (get_predicate_step t1 (if_predicate f)) as [Hstep2 Hin2]; [apply Hstep1|].
  set (t2 := (get_predicate t1 (if_predicate f)).2) in *.
  destruct (push_atom_step t2 _ ns (proj1 Hstep2) Ho) as [Hstep3 Hrun3].
  set (t3 := (push_atom t2 (if_object f)).2) in *. cbn [fst snd].
  split; [exact (tables_step_trans _ _ _ _ _ _ _ _ _ (tables_step_trans _ _ _ _ _ _ _ _ _ Hstep1 Hstep2) Hstep3)|].
  intros T i stack Hns HT Hfit Hle. destruct Hstep2 as (_ & Hle2 & _), Hstep3 as (_ & Hle3 & _).
  assert (tables_le t2 T) as Hle2T by (by etrans).
  destruct (Hrun1 T i stack Hns HT Hfit) as (Hw1 & vs & Hvs & Hr1); [by etrans|].
  destruct (final_predicate _ _ HT Hfit Hle2T _ _ Hin2) as [Hp Hu].
  destruct (Hrun3 T i (SCell (get_predicate t1 (if_predicate f)).1 :: vs :: stack) Hns HT Hfit Hle)
    as (Hw3 & vo & Hvo & Hr3).
  split; [repeat constructor; apply Hw1 || apply Hw3 || done|]. split; [done|].
  exists vo, (SCell (get_predicate t1 (if_predicate f)).1), vs. split.
  - unfold pop_fact. cbn [resolve_stack_predicate]. rewrite Hvo, Hvs, Hp. by destruct f.
  - intros rest. cbn [app]. rewrite Hr1, stream_loop_cons by done. cbn. apply Hr3.
Qed.

Lemma expected_fact_from f : expected_fact (IntentFact_from f) = f.
Proof. by destruct f as [[] p []]. Qed.

(** The operation recorded again by the builder. *)
Definition replay_operation (i : QueuedIntent) (op : IntentOperation) : outcome string QueuedIntent :=
  match op with
  | IAllocate t =>
      let* r := or_panic (intent_entity i) in if decide (r.1 = t) then Ok r.2 else Panic
  | _ => Ok (push_operation i op)
  end.

Definition operation_pushable (ns : N) (op : IntentOperation) : Prop :=
  match op with IDefine _ f => fact_pushable ns f | _ => True end.

Definition precondition_pushable (p : IntentPrecondition) : Prop :=
  match p with
  | ExpectedWorld w => u64_ok (world_value w)
  | ExpectedSlot _ (Some f) => fact_pushable 0 (IntentFact_from f)
  | ExpectedSlot _ None => True
  end.

(** [insts], compiled from one item, turn [i] into [i']. *)
Definition rebuilds (t' : Tables) (insts : list Instruction) (i i' : QueuedIntent) : Prop :=
  ∀ T stack rest, tables_ok T → tables_fit T → tables_le t' T →
    Forall instruction_wf insts ∧
    stream_loop (maps_of T) (insts ++ rest) (i, stack) = stream_loop (maps_of T) rest (i', stack).

Definition item_spec (t t' : Tables) (insts : list Instruction) (i i' : QueuedIntent) : Prop :=
  tables_step 1 1 2 t t' ∧ length insts ≤ 4 ∧ 1 ≤ length insts ∧ rebuilds t' insts i i'.

Lemma fact_pushable_namespace ns f :
  fact_pushable 0 (IntentFact_from f) → fact_pushable ns (IntentFact_from f).
Proof. by destruct f as [[] p []]. Qed.

Lemma precondition_item t p i : tables_ok t → precondition_pushable p →
  item_spec t (compile_precondition t p).2 (compile_precondition t p).1 i (push_precondition i p).
Proof.
  intros Hok Hp. destruct p as [w|slot [f|]]; cbn [compile_precondition fst snd].
  - split; [by apply tables_step_refl|]. split; [simpl; lia|]. split; [simpl; lia|].
    intros T stack rest HT Hfit Hle. split; [repeat constructor; done|].
    cbn [app]. rewrite stream_loop_cons by done. cbn [stream_step opcode argument immediate].
    rewrite decide_True by done. cbn [outcome_bind]. by destruct w.
  - destruct (get_slot_step t slot Hok) as [Hstep1 Hin]. set (t1 := (get_slot t slot).2) in *.
    destruct (push_fact_step t1 _ (qi_namespace i) (proj1 Hstep1) (fact_pushable_namespace _ _ Hp))
      as [Hstep2 Hrun].
    split; [eapply tables_step_weaken; [exact (tables_step_trans _ _ _ _ _ _ _ _ _ Hstep1 Hstep2)|lia..]|].
    set (pf := push_fact t1 (IntentFact_from f)) in *.
    assert (length pf.1 = 3) as Hlen by done. rewrite length_app, Hlen. split; [simpl; lia|].
    split; [simpl; lia|]. intros T stack rest HT Hfit Hle.
    assert (tables_le t1 T) as Hle1 by (etrans; [apply Hstep2|done]).
    destruct (final_slot _ _ HT Hfit Hle1 _ _ Hin) as (Hs & Hmax & Hu).
    destruct (Hrun T i stack eq_refl HT Hfit Hle) as (Hw & _ & o & q & s & Hpop & Hr).
    split; [apply Forall_app; split; [done|]; repeat constructor; done|].
    rewrite <- (assoc_L (++)), Hr. cbn [app]. rewrite stream_loop_cons by done.
    cbn [stream_step i_expect_object opcode argument immediate].
    rewrite decide_False, Hs by done. cbn [ok_or outcome_bind]. rewrite decide_False, Hpop by done.
    cbn [outcome_bind]. by rewrite expected_fact_from.
  - destruct (get_slot_step t slot Hok) as [Hstep1 Hin].
    split; [eapply tables_step_weaken; [exact Hstep1|lia..]|]. split; [simpl; lia|].
    split; [simpl; lia|]. intros T stack rest HT Hfit Hle.
    destruct (final_slot _ _ HT Hfit Hle _ _ Hin) as (Hs & Hmax & Hu).
    split; [repeat constructor; done|]. cbn [app]. rewrite stream_loop_cons by done.
    cbn [stream_step i_expect_object opcode argument immediate].
    rewrite decide_False, Hs by done. done.
Qed.

Lemma operation_item t op i i' : tables_ok t → operation_pushable (qi_namespace i) op →
  replay_operation i op = Ok i' →
  item_spec t (compile_stream_operation t op).2 (compile_stream_operation t op).1 i i'.
Proof.
  intros Hok Hop Hi. destruct op as [temp|slot f|slot]; cbn [compile_stream_operation fst snd].
  - cbn [replay_operation] in Hi. destruct (intent_entity i) as [r|] eqn:He; [|done].
    cbn [or_panic outcome_bind] in Hi. case_decide as Ht; [|done]. injection Hi as <-.
    assert (u32_ok (te_index temp)) as Hu.
    { unfold intent_entity in He. destruct (_ <? _)%N eqn:Hlt; [|done]. injection He as <-.
      simpl in Ht. subst temp. apply N.ltb_lt in Hlt. unfold u32_ok. simpl. lia. }
    split; [by apply tables_step_refl|]. split; [simpl; lia|]. split; [simpl; lia|].
    intros T stack rest HT Hfit Hle. split; [repeat constructor; done|].
    cbn [app stream_loop]. cbn [stream_step i_allocate opcode]. rewrite He.
    cbn [or_panic outcome_bind i_store_local opcode]. by rewrite decide_True by done.
  - destruct (get_slot_step t slot Hok) as [Hstep1 Hin]. set (t1 := (get_slot t slot).2) in *.
    destruct (push_fact_step t1 _ (qi_namespace i) (proj1 Hstep1) Hop) as [Hstep2 Hrun].
    split; [eapply tables_step_weaken; [exact (tables_step_trans _ _ _ _ _ _ _ _ _ Hstep1 Hstep2)|lia..]|].
    set (pf := push_fact t1 f) in *.
    assert (length pf.1 = 3) as Hlen by done. rewrite length_app, Hlen. split; [simpl; lia|].
    split; [simpl; lia|]. intros T stack rest HT Hfit Hle.
    assert (tables_le t1 T) as Hle1 by (etrans; [apply Hstep2|done]).
    destruct (final_slot _ _ HT Hfit Hle1 _ _ Hin) as (Hs & Hmax & Hu).
    destruct (Hrun T i stack eq_refl HT Hfit Hle) as (Hw & _ & o & q & s & Hpop & Hr).
    split; [apply Forall_app; split; [done|]; repeat constructor; done|].
    rewrite <- (assoc_L (++)), Hr. cbn [app]. rewrite stream_loop_cons by done.
    cbn [stream_step i_define opcode argument immediate]. rewrite Hs, Hpop.
    cbn [ok_or outcome_bind]. injection Hi as <-. done.
  - destruct (get_slot_step t slot Hok) as [Hstep1 Hin].
    split; [eapply tables_step_weaken; [exact Hstep1|lia..]|]. split; [simpl; lia|].
    split; [simpl; lia|]. intros T stack rest HT Hfit Hle.
    destruct (final_slot _ _ HT Hfit Hle _ _ Hin) as (Hs & Hmax & Hu).
    split; [repeat constructor; done|]. cbn [app]. rewrite stream_loop_cons by done.
    cbn [stream_step i_forget opcode argument immediate]. rewrite Hs. injection Hi as <-. done.
Qed.

(** ** The loops *)

Section loop.
Context {A : Type}.
Variable f : Tables → A → list Instruction * Tables.
Variable g : QueuedIntent → A → outcome string QueuedIntent.
Variable ns : N.
Variable ok : A → Prop.
Hypothesis Hitem : ∀ t x i i', tables_ok t → ok x → qi_namespace i = ns → g i x = Ok i' →
  item_spec t (f t x).2 (f t x).1 i i' ∧ qi_namespace i' = ns.

Lemma stream_compile_spec l : ∀ insts0 t i i',
  tables_ok t → Forall ok l → qi_namespace i = ns → outcome_fold g l i = Ok i' →
  ∃ insts t', stream_compile f l (insts0, t) = (insts0 ++ insts, t') ∧
    tables_step (length l) (length l) (2 * length l) t t' ∧ length insts ≤ 4 * length l ∧
    rebuilds t' insts i i' ∧ qi_namespace i' = ns.
Proof.
  induction l as [|x l IH]; intros insts0 t i i' Hok Hl Hns Hg.
  - simpl in Hg. injection Hg as <-. exists [], t. rewrite app_nil_r. split; [done|].
    split; [by apply tables_step_refl|]. split; [done|]. split; [|done].
    intros T stack rest _ _ _. by split; [constructor|].
  - apply Forall_cons in Hl as [Hx Hl]. simpl in Hg. apply outcome_bind_ok in Hg as (i1 & Hi1 & Hg).
    destruct (Hitem t x i i1 Hok Hx Hns Hi1) as [(Hstep & H4 & _ & Hr) Hns1].
    destruct (IH (insts0 ++ (f t x).1) (f t x).2 i1 i' (proj1 Hstep) Hl Hns1 Hg)
      as (insts & t' & Hloop & Hstep' & Hlen & Hr' & Hns').
    exists ((f t x).1 ++ insts), t'. rewrite (assoc_L (++)). split; [exact Hloop|].
    split; [eapply tables_step_weaken; [exact (tables_step_trans _ _ _ _ _ _ _ _ _ Hstep Hstep')|simpl; lia..]|].
    split; [rewrite length_app; simpl; lia|]. split; [|done].
    intros T stack rest HT Hfit Hle.
    destruct (Hr T stack (insts ++ rest) HT Hfit) as [Hw Hrun]; [etrans; [apply Hstep'|done]|].
    destruct (Hr' T stack rest HT Hfit Hle) as [Hw' Hrun']. split; [by apply Forall_app|].
    by rewrite <- (assoc_L (++)), Hrun.
Qed.
End loop.

(** What an instruction stream can carry of an intent. *)
Record streamable (i : QueuedIntent) : Prop := {
  sb_preconditions : Forall precondition_pushable (qi_preconditions i);
  sb_operations : Forall (operation_pushable (qi_namespace i)) (qi_operations i);
  sb_replays : ∀ pre, outcome_fold replay_operation (qi_operations i)
    (QueuedIntent_mk (qi_namespace i) 0 pre []) =
    Ok (QueuedIntent_mk (qi_namespace i) (qi_next_temporary i) pre (qi_operations i));
  sb_size : (4 * N.of_nat (length (qi_preconditions i) + length (qi_operations i)) < u32_modulus)%N;
}.

Lemma replay_preconditions ps i :
  outcome_fold (λ i p, Ok (push_precondition i p)) ps i =
  Ok (E := string) (QueuedIntent_mk (qi_namespace i) (qi_next_temporary i) (qi_preconditions i ++ ps)
    (qi_operations i)).
Proof.
  revert i. induction ps as [|p ps IH]; intros i; simpl; [by rewrite app_nil_r; destruct i|].
  rewrite IH. simpl. by rewrite <- (assoc_L (++)).
Qed.

Lemma replay_operation_namespace i op i' :
  replay_operation i op = Ok i' → qi_namespace i' = qi_namespace i.
Proof.
  destruct op; simpl; [|by intros [= <-]..]. unfold intent_entity.
  destruct (_ <? _)%N; simpl; [|done]. case_decide; [|done]. by intros [= <-].
Qed.

Definition new_intent (ns : N) : QueuedIntent := QueuedIntent_mk ns 0 [] [].

Lemma compile_streamable i : streamable i →
  ∃ insts t, compile_to_stream_frame i =
      Ok (InstructionStreamFrame_new (qi_namespace i) (Tables_dictionary t) (qi_next_temporary i) insts) ∧
    tables_ok t ∧ tables_fit t ∧ Forall instruction_wf insts ∧ u32_ok (N.of_nat (length insts)) ∧
    stream_loop (maps_of t) insts (new_intent (qi_namespace i), []) = Ok (i, []).
Proof.
  intros [Hpre Hops Hrep Hsize]. unfold compile_to_stream_frame.
  set (ns := qi_namespace i) in *. assert (tables_ok Tables_new) as H0 by (split; apply interned_ok_new).
  destruct (stream_compile_spec compile_precondition (λ i p, Ok (push_precondition i p)) ns
    precondition_pushable) with (l := qi_preconditions i) (insts0 := @nil Instruction) (t := Tables_new)
    (i := new_intent ns) (i' := QueuedIntent_mk ns 0 (qi_preconditions i) [])
    as (is1 & t1 & -> & Hstep1 & Hlen1 & Hr1 & _); [|done|done|done|apply replay_preconditions|].
  { intros t p j j' Ht Hp Hj [= <-]. split; [by apply precondition_item|done]. }
  destruct (stream_compile_spec compile_stream_operation replay_operation ns (operation_pushable ns))
    with (l := qi_operations i) (insts0 := [] ++ is1) (t := t1)
    (i := QueuedIntent_mk ns 0 (qi_preconditions i) []) (i' := i)
    as (is2 & t2 & -> & Hstep2 & Hlen2 & Hr2 & _); [|apply Hstep1|done|done|rewrite Hrep; by destruct i|].
  { intros t op j j' Ht Hop Hj Hi. rewrite <- Hj in Hop. split; [by apply operation_item|].
    by rewrite (replay_operation_namespace _ _ _ Hi). }
  destruct Hstep2 as (Hok2 & Hle2 & Hg2), Hstep1 as (_ & _ & Hg1).
  assert (tables_fit t2) as Hfit.
  { destruct Hg1 as [a1 b1 c1], Hg2 as [a2 b2 c2]. simpl in a1, b1, c1. unfold u32_modulus in *.
    split; unfold u32_modulus; lia. }
  destruct (Hr1 t2 [] is2 Hok2 Hfit Hle2) as [Hw1 Hrun1].
  destruct (Hr2 t2 [] [] Hok2 Hfit) as [Hw2 Hrun2]; [done|].
  exists (is1 ++ is2), t2. split; [done|]. split; [done|]. split; [done|].
  split; [by apply Forall_app|]. split.
  - rewrite length_app. unfold u32_ok, u32_modulus in *. lia.
  - rewrite Hrun1. rewrite app_nil_r in Hrun2. by rewrite Hrun2.
Qed.

(** The round trip. *)
Lemma stream_round_trip counter i f : streamable i → compile_to_stream_frame i = Ok f →
  from_stream_frame counter f = Ok (i, u64_add counter 1).
Proof.
  intros Hi Hf. destruct (compile_streamable i Hi) as (insts & t & Hc & Hok & Hfit & _ & _ & Hrun).
  rewrite Hc in Hf. injection Hf as <-. unfold from_stream_frame, InstructionStreamFrame_new.
  cbn [isa_dictionary isa_instructions isa_namespace intent_new qi_next_temporary
    qi_preconditions qi_operations].
  change (stream_maps (Tables_dictionary t)) with (maps_of t).
  change (QueuedIntent_mk (qi_namespace i) 0 [] []) with (new_intent (qi_namespace i)).
  by rewrite Hrun.
Qed.

(** ** Within the stream format *)

Definition atom_text (a : IntentAtom) : Prop :=
  match a with ILiteral l => str32_wf (literal_str l) | _ => True end.
Definition fact_text (f : IntentFact) : Prop :=
  atom_text (if_subject f) ∧ str32_wf (predicate_str (if_predicate f)) ∧ atom_text (if_object f).
Definition precondition_text (p : IntentPrecondition) : Prop :=
  match p with
  | ExpectedWorld _ => True
  | ExpectedSlot slot expected => str32_wf (slot_str slot) ∧
      match expected with Some f => fact_text (IntentFact_from f) | None => True end
  end.
Definition operation_text (op : IntentOperation) : Prop :=
  match op with
  | IAllocate _ => True
  | IDefine slot f => str32_wf (slot_str slot) ∧ fact_text f
  | IForget slot => str32_wf (slot_str slot)
  end.

(** The strings of an intent are Rust strings that a [u32] length can frame. *)
Definition intent_text (i : QueuedIntent) : Prop :=
  Forall precondition_text (qi_preconditions i) ∧ Forall operation_text (qi_operations i).

Record tables_text (t : Tables) : Prop := {
  tt_slots : Forall (λ e, str32_wf (slot_str e.2)) (in_vec (tb_slots t));
  tt_predicates : Forall (λ e, str32_wf (predicate_str e.2)) (in_vec (tb_predicates t));
  tt_literals : Forall (λ e, str32_wf (literal_str e.2)) (in_vec (tb_literals t));
}.

Lemma intern_Forall {K} `{Countable K} (P : K → Prop) code (t : Interned K) k :
  P k → Forall (λ e, P e.2) (in_vec t) → Forall (λ e, P e.2) (in_vec (intern code t k).2).
Proof.
  intros Hk Ht. unfold intern. destruct (in_map t !! k); simpl; [done|].
  apply Forall_app. split; [done|by constructor].
Qed.

Lemma push_atom_text t a : tables_text t → atom_text a → tables_text (push_atom t a).2.
Proof.
  intros [] Ha. destruct a; simpl in *; [by split..|]. split; [done..|].
  by apply (intern_Forall (λ l, str32_wf (literal_str l))).
Qed.

Lemma get_slot_text t slot : tables_text t → str32_wf (slot_str slot) → tables_text (get_slot t slot).2.
Proof.
  intros [] Hs. split; [|done..]. by apply (intern_Forall (λ l, str32_wf (slot_str l))).
Qed.

Lemma push_fact_text t f : tables_text t → fact_text f → tables_text (push_fact t f).2.
Proof.
  intros Ht (Hs & Hp & Ho). unfold push_fact. cbn [snd]. apply push_atom_text; [|done].
  pose proof (push_atom_text _ _ Ht Hs) as []. split; [done| |done].
  by apply (intern_Forall (λ l, str32_wf (predicate_str l))).
Qed.

Lemma compile_precondition_text t p :
  tables_text t → precondition_text p → tables_text (compile_precondition t p).2.
Proof.
  intros Ht Hp. destruct p as [w|slot [f|]]; cbn [compile_precondition snd]; [done|..].
  - destruct Hp. by apply push_fact_text; [apply get_slot_text|].
  - by apply get_slot_text; [|apply Hp].
Qed.

Lemma compile_operation_text t op :
  tables_text t → operation_text op → tables_text (compile_stream_operation t op).2.
Proof.
  intros Ht Hop. destruct op as [temp|slot f|slot]; cbn [compile_stream_operation snd]; [done|..].
  - destruct Hop. by apply push_fact_text; [apply get_slot_text|].
  - by apply get_slot_text.
Qed.

Lemma stream_compile_text {A} (f : Tables → A → list Instruction * Tables) (P : A → Prop) l st :
  (∀ t x, tables_text t → P x → tables_text (f t x).2) →
  Forall P l → tables_text st.2 → tables_text (stream_compile f l st).2.
Proof.
  intros Hf Hl. revert st. induction Hl as [|x l Hx Hl IH]; intros st Hst; simpl; [done|].
  apply IH. by apply Hf.
Qed.

Lemma Forall_and_in {A} (P Q : A → Prop) (l : list A) :
  Forall P l → (∀ x, x ∈ l → Q x) → Forall (λ x, Q x ∧ P x) l.
Proof. rewrite !Forall_forall. naive_solver. Qed.

Lemma compile_frame_wf i f : streamable i → intent_text i → u64_ok (qi_namespace i) →
  u32_ok (qi_next_temporary i) → compile_to_stream_frame i = Ok f → isa_frame_wf f.
Proof.
  intros Hi [Htp Hto] Hns Hnext Hf.
  destruct (compile_streamable i Hi) as (insts & t & Hc & Hok & Hfit & Hw & Hlen & _).
  assert (tables_text t) as [].
  { apply (f_equal (λ o, match o with Ok f => isa_dictionary f | _ => Tables_dictionary t end)) in Hc.
    cbn [compile_to_stream_frame isa_dictionary InstructionStreamFrame_new] in Hc.
    assert (∀ t', tables_text t' → Tables_dictionary t' = Tables_dictionary t → tables_text t) as Hsame.
    { intros t' [] Heq. unfold Tables_dictionary in Heq. simplify_eq. split; congruence. }
    eapply Hsame; [|exact Hc].
    eapply stream_compile_text; [apply compile_operation_text|done|].
    eapply stream_compile_text; [apply compile_precondition_text|done|]. by split. }
  rewrite Hc in Hf. injection Hf as <-.
  unfold isa_frame_wf, InstructionStreamFrame_new.
  cbn [isa_version isa_namespace isa_dictionary isa_local_count isa_instructions Tables_dictionary
    dict_slots dict_predicates dict_literals].
  split; [done|]. split; [done|]. assert (tables_le t t) as Hle by done.
  split_and!; [|by apply Hfit| |by apply Hfit| |by apply Hfit|done|done|done].
  - apply Forall_and_in; [done|]. intros [c s] Hin. simpl.
    by apply (final_slot t t Hok Hfit Hle c s).
  - apply Forall_and_in; [done|]. intros [c p] Hin. simpl.
    by apply (final_predicate t t Hok Hfit Hle c p).
  - apply Forall_and_in; [done|]. intros [c l] Hin. simpl.
    by apply (final_literal t t Hok Hfit Hle c l).
Qed.

(** ** The intents a client can build *)

Definition precondition_cells (p : IntentPrecondition) : Prop :=
  match p with
  | ExpectedWorld w => u64_ok (world_value w)
  | ExpectedSlot _ (Some f) => intent_atom_fits (if_subject (IntentFact_from f)) ∧
      intent_atom_fits (if_object (IntentFact_from f))
  | ExpectedSlot _ None => True
  end.

(** The numbers of an intent: entities below the literal cells, and fewer
    operations than a [u32] counts instructions. *)
Record intent_cells (i : QueuedIntent) : Prop := {
  ic_namespace : u64_ok (qi_namespace i);
  ic_preconditions : Forall precondition_cells (qi_preconditions i);
  ic_operations : Forall intent_operation_fits (qi_operations i);
  ic_size : (4 * N.of_nat (length (qi_preconditions i) + length (qi_operations i)) < u32_modulus)%N;
}.

Lemma built_scope i known : intent_built i known →
  (∀ t, t ∈ known → te_namespace t = qi_namespace i ∧ u32_ok (te_index t)) ∧
  u32_ok (qi_next_temporary i) ∧
  (∀ pre, outcome_fold replay_operation (qi_operations i) (QueuedIntent_mk (qi_namespace i) 0 pre []) =
    Ok (QueuedIntent_mk (qi_namespace i) (qi_next_temporary i) pre (qi_operations i))) ∧
  (Forall intent_operation_fits (qi_operations i) → Forall (operation_pushable (qi_namespace i)) (qi_operations i)).
Proof.
  assert (∀ i known a, (∀ t, t ∈ known → te_namespace t = qi_namespace i ∧ u32_ok (te_index t)) →
    atom_scoped known a → intent_atom_fits a → atom_pushable (qi_namespace i) a) as Hatom.
  { intros j kn [] Hkn; simpl; auto. }
  assert (∀ op (i : QueuedIntent), Forall intent_operation_fits (qi_operations i ++ [op]) →
    Forall intent_operation_fits (qi_operations i) ∧ intent_operation_fits op) as Hsnoc.
  { intros op j. by rewrite Forall_app, Forall_singleton. }
  induction 1 as [counter|i known p _ IH|i known t i' _ IH He|i known slot f _ IH Hf|i known slot _ IH].
  - split; [set_solver|]. split; [done|]. split; [done|]. constructor.
  - exact IH.
  - destruct IH as (Hkn & Hnext & Hrep & Hops). unfold intent_entity in He.
    destruct (_ <? _)%N eqn:Hlt; [|done]. injection He as <- <-. cbn [qi_namespace qi_operations qi_next_temporary].
    apply N.ltb_lt in Hlt as Hlt'. split_and!.
    + intros t [->%elem_of_singleton|Ht]%elem_of_union; [|by apply Hkn].
      split; [done|]. unfold u32_ok. cbn. lia.
    + exact Hlt'.
    + intros pre. rewrite outcome_fold_app, Hrep. cbn [outcome_bind outcome_fold replay_operation].
      unfold intent_entity. cbn [qi_next_temporary qi_namespace]. rewrite Hlt. cbn.
      by rewrite decide_True.
    + intros [Hc _]%Hsnoc. apply Forall_app. split; [by apply Hops|]. by repeat constructor.
  - destruct IH as (Hkn & Hnext & Hrep & Hops). split_and!; [done|done| |].
    + intros pre. cbn. by rewrite outcome_fold_app, Hrep.
    + intros [Hc [Hc1 Hc2]]%Hsnoc. apply Forall_app. split; [by apply Hops|].
      apply Forall_singleton. destruct Hf. split; by eapply Hatom.
  - destruct IH as (Hkn & Hnext & Hrep & Hops). split_and!; [done|done| |].
    + intros pre. cbn. by rewrite outcome_fold_app, Hrep.
    + intros [Hc _]%Hsnoc. apply Forall_app. split; [by apply Hops|]. by apply Forall_singleton.
Qed.

Lemma built_streamable i known : intent_built i known → intent_cells i → streamable i.
Proof.
  intros Hb [Hns Hp Ho Hsize]. destruct (built_scope i known Hb) as (_ & _ & Hrep & Hops).
  split; [|by apply Hops|done|done]. eapply Forall_impl; [exact Hp|].
  intros [w|slot [[[] p []]|]]; simpl; try done; by intros [].
Qed.
