(* ===== verification/IntentCodec.v ===== *)
(** The binary form of a queued intent (forthdb-world/src/queued.rs, lines
    493-722), and its exactness.  The readers are the ones of Isa.v, which the
    source repeats with messages of its own. *)
From Stdlib Require Import NArith Lia.
From Stdlib Require Import Strings.Byte.
From stdpp Require Import base gmap list strings option list_monad.
From S2P Require Import Prelude Ord Terms Bytes Query Spec Index Kernel Frames Intents Codec StackVm.
From S2P Require Import Parser Isa.

Inductive IntentDecodeError :=
| IntentRead (e : IsaError)
| InvalidExpectedFactTag (tag : N)
| InvalidPreconditionTag (tag : N)
| InvalidOperationTag (tag : N)
| InvalidIntentAtomTag (tag : N)
| InvalidFactAtomTag (tag : N).

Abbreviation reader := (parser IntentDecodeError) (only parsing).

Definition q_take {A} (p : parser IsaError A) : reader A := λ d, map_err IntentRead (p d).
Definition q_u8 : reader u8 := q_take take_u8.
Definition q_u32 : reader N := q_take take_u32.
Definition q_u64 : reader N := q_take take_u64.
Definition q_string : reader string := q_take take_string.

(** ** Encoding *)

Definition encode_temporary (t : TempEntity) : list u8 :=
  isa_put_u64 (te_namespace t) ++ isa_put_u32 (te_index t).

Definition encode_intent_atom (a : IntentAtom) : list u8 :=
  match a with
  | IEntity e => x00 :: isa_put_u64 (entity_value e)
  | ITemporary t => x01 :: encode_temporary t
  | ILiteral l => x02 :: isa_put_string (literal_str l)
  end.

Definition encode_intent_fact (f : IntentFact) : list u8 :=
  encode_intent_atom (if_subject f) ++ isa_put_string (predicate_str (if_predicate f)) ++
  encode_intent_atom (if_object f).

Definition encode_atom (a : Atom) : list u8 :=
  match a with
  | AEntity e => x00 :: isa_put_u64 (entity_value e)
  | ALiteral l => x01 :: isa_put_string (literal_str l)
  end.

Definition encode_fact (f : Fact) : list u8 :=
  encode_atom (fact_subject f) ++ isa_put_string (predicate_str (fact_predicate f)) ++
  encode_atom (fact_object f).

Definition encode_precondition (p : IntentPrecondition) : list u8 :=
  match p with
  | ExpectedWorld w => x00 :: isa_put_u64 (world_value w)
  | ExpectedSlot slot expected =>
      x01 :: isa_put_string (slot_str slot) ++
      match expected with Some fact => x01 :: encode_fact fact | None => [x00] end
  end.

Definition encode_operation (op : IntentOperation) : list u8 :=
  match op with
  | IAllocate t => x00 :: encode_temporary t
  | IDefine slot fact => x01 :: isa_put_string (slot_str slot) ++ encode_intent_fact fact
  | IForget slot => x02 :: isa_put_string (slot_str slot)
  end.

Definition encode_queued_intent (i : QueuedIntent) : list u8 :=
  isa_put_u64 (qi_namespace i) ++
  isa_put_u32 (qi_next_temporary i) ++
  isa_put_u32 (as_u32 (length (qi_preconditions i))) ++
  (p ← qi_preconditions i; encode_precondition p) ++
  isa_put_u32 (as_u32 (length (qi_operations i))) ++
  (op ← qi_operations i; encode_operation op).

(** ** Decoding *)

Definition decode_temporary : reader TempEntity :=
  namespace ← q_u64; index ← q_u32; mret (TempEntity_mk namespace index).

Definition decode_intent_atom : reader IntentAtom :=
  tag ← q_u8;
  match Byte.to_N tag with
  | 0 => v ← q_u64; mret (IEntity (EntityId_new v))
  | 1 => t ← decode_temporary; mret (ITemporary t)
  | 2 => s ← q_string; mret (ILiteral (Literal_new s))
  | tag => p_fail (InvalidIntentAtomTag tag)
  end%N.

Definition decode_intent_fact : reader IntentFact :=
  subject ← decode_intent_atom;
  predicate ← q_string;
  object ← decode_intent_atom;
  mret (IntentFact_new subject (Predicate_new predicate) object).

Definition decode_atom : reader Atom :=
  tag ← q_u8;
  match Byte.to_N tag with
  | 0 => v ← q_u64; mret (AEntity (EntityId_new v))
  | 1 => s ← q_string; mret (ALiteral (Literal_new s))
  | tag => p_fail (InvalidFactAtomTag tag)
  end%N.

Definition decode_fact : reader Fact :=
  subject ← decode_atom;
  predicate ← q_string;
  object ← decode_atom;
  mret (Fact_new subject (Predicate_new predicate) object).

Definition decode_expected : reader (option Fact) :=
  tag ← q_u8;
  match Byte.to_N tag with
  | 0 => mret None
  | 1 => fact ← decode_fact; mret (Some fact)
  | tag => p_fail (InvalidExpectedFactTag tag)
  end%N.

Definition decode_precondition : reader IntentPrecondition :=
  tag ← q_u8;
  match Byte.to_N tag with
  | 0 => w ← q_u64; mret (ExpectedWorld (WorldId_new w))
  | 1 => slot ← q_string; expected ← decode_expected; mret (ExpectedSlot (SlotId_new slot) expected)
  | tag => p_fail (InvalidPreconditionTag tag)
  end%N.

Definition decode_operation : reader IntentOperation :=
  tag ← q_u8;
  match Byte.to_N tag with
  | 0 => t ← decode_temporary; mret (IAllocate t)
  | 1 => slot ← q_string; fact ← decode_intent_fact; mret (IDefine (SlotId_new slot) fact)
  | 2 => slot ← q_string; mret (IForget (SlotId_new slot))
  | tag => p_fail (InvalidOperationTag tag)
  end%N.

(** A count, then that many items. *)
Definition q_list {A} (p : reader A) : reader (list A) :=
  count ← q_u32; p_repeat (N.to_nat count) p.

Definition decode_queued_intent : reader QueuedIntent :=
  namespace ← q_u64;
  next_temporary ← q_u32;
  preconditions ← q_list decode_precondition;
  operations ← q_list decode_operation;
  mret (QueuedIntent_mk namespace next_temporary preconditions operations).

(** [NEXT_INTENT_NAMESPACE.fetch_max(namespace.saturating_add(1))], after a
    successful decoding. *)
Definition bump_namespace (counter namespace : N) : N :=
  N.max counter (u64_saturating_add namespace 1).

(** ** What the format carries *)

Definition temporary_wf (t : TempEntity) : Prop := u64_ok (te_namespace t) ∧ u32_ok (te_index t).
Definition intent_atom_wf (a : IntentAtom) : Prop :=
  match a with
  | IEntity e => u64_ok (entity_value e)
  | ITemporary t => temporary_wf t
  | ILiteral l => str32_wf (literal_str l)
  end.
Definition intent_fact_wf (f : IntentFact) : Prop :=
  intent_atom_wf (if_subject f) ∧ str32_wf (predicate_str (if_predicate f)) ∧ intent_atom_wf (if_object f).
Definition fact_wf (f : Fact) : Prop := intent_fact_wf (IntentFact_from f).
Definition expected_wf (e : option Fact) : Prop :=
  match e with Some f => fact_wf f | None => True end.
Definition precondition_wf (p : IntentPrecondition) : Prop :=
  match p with
  | ExpectedWorld w => u64_ok (world_value w)
  | ExpectedSlot slot expected => str32_wf (slot_str slot) ∧ expected_wf expected
  end.
Definition operation_wf (op : IntentOperation) : Prop :=
  match op with
  | IAllocate t => temporary_wf t
  | IDefine slot f => str32_wf (slot_str slot) ∧ intent_fact_wf f
  | IForget slot => str32_wf (slot_str slot)
  end.
Definition queued_intent_wf (i : QueuedIntent) : Prop :=
  u64_ok (qi_namespace i) ∧ u32_ok (qi_next_temporary i) ∧
  (Forall precondition_wf (qi_preconditions i) ∧ u32_ok (N.of_nat (length (qi_preconditions i)))) ∧
  (Forall operation_wf (qi_operations i) ∧ u32_ok (N.of_nat (length (qi_operations i)))).

(** The binary form of a queued intent is exact: the decoder accepts precisely
    the encodings of the well-formed intents and never panics. *)

Abbreviation encodes put wf := (λ b x, b = put x ∧ wf x) (only parsing).

Lemma q_u8_exact : exact q_u8 (λ b x, b = [x]).
Proof. apply exact_map_err, take_u8_exact. Qed.
Lemma q_u32_exact : exact q_u32 (encodes isa_put_u32 u32_ok).
Proof. apply exact_map_err, take_u32_exact. Qed.
Lemma q_u64_exact : exact q_u64 (encodes isa_put_u64 u64_ok).
Proof. apply exact_map_err, take_u64_exact. Qed.
Lemma q_string_exact : exact q_string (encodes isa_put_string str32_wf).
Proof. apply exact_map_err, take_string_exact. Qed.

(** A tag byte, then the branch of the tag. *)
Lemma exact_tagged {A} (k : u8 → reader A) (S : N → list u8 → A → Prop) (put : A → list u8) (wf : A → Prop) :
  (∀ t, exact (k t) (S (Byte.to_N t))) →
  (∀ t b x, S (Byte.to_N t) b x → t :: b = put x ∧ wf x) →
  (∀ x, wf x → ∃ t b, put x = t :: b ∧ S (Byte.to_N t) b x) →
  exact (tag ← q_u8; k tag) (encodes put wf).
Proof.
  intros Hk Hs Hc. eapply exact_iff; [|eapply exact_bind; [apply q_u8_exact|intros t; apply Hk]].
  intros b x. split.
  - intros (t & b1 & b2 & -> & -> & H). by apply Hs.
  - intros [-> Hx]. destruct (Hc x Hx) as (t & b & -> & H). by exists t, [t], b.
Qed.

(** Parsing two things in turn. *)
Lemma exact_pair {A B C} (p : reader A) (q : reader B) (f : A → B → C) R S :
  exact p R → exact q S →
  exact (x ← p; y ← q; mret (f x y))
    (λ b z, ∃ x y b1 b2, b = b1 ++ b2 ∧ R b1 x ∧ S b2 y ∧ z = f x y).
Proof.
  intros Hp Hq. eapply exact_iff; [|eapply exact_bind; [exact Hp|intros x; exact (exact_fmap q (f x) S Hq)]].
  intros b z. split.
  - intros (x & b1 & b2 & -> & H1 & y & H2 & ->). by exists x, y, b1, b2.
  - intros (x & y & b1 & b2 & -> & H1 & H2 & ->). exists x, b1, b2. eauto.
Qed.

Lemma exact_triple {A B C D} (p : reader A) (q : reader B) (r : reader C) (f : A → B → C → D) R S T :
  exact p R → exact q S → exact r T →
  exact (x ← p; y ← q; z ← r; mret (f x y z))
    (λ b w, ∃ x y z b1 b2 b3, b = b1 ++ b2 ++ b3 ∧ R b1 x ∧ S b2 y ∧ T b3 z ∧ w = f x y z).
Proof.
  intros Hp Hq Hr.
  eapply exact_iff; [|eapply exact_bind; [exact Hp|intros x; exact (exact_pair q r (f x) S T Hq Hr)]].
  intros b w. split.
  - intros (x & b1 & b2 & -> & H1 & y & z & b3 & b4 & -> & H2 & H3 & ->). by exists x, y, z, b1, b3, b4.
  - intros (x & y & z & b1 & b2 & b3 & -> & H1 & H2 & H3 & ->). exists x, b1, (b2 ++ b3). naive_solver.
Qed.

Lemma decode_temporary_exact : exact decode_temporary (encodes encode_temporary temporary_wf).
Proof.
  eapply exact_iff; [|apply exact_pair; [apply q_u64_exact|apply q_u32_exact]].
  intros b t. unfold encode_temporary, temporary_wf. split.
  - intros (n & m & b1 & b2 & -> & [-> Hn] & [-> Hm] & ->). done.
  - intros (-> & Hn & Hm). exists (te_namespace t), (te_index t). destruct t. eauto 10.
Qed.

(** The tag bytes, from their values. *)
Lemma tag_is t n : Byte.to_N t = n → t = byte_of_N n.
Proof. intros <-. by rewrite byte_of_N_to_N. Qed.

(** Case analysis on the value of a tag, keeping what it says of the byte. *)
Ltac on_tag t := let H := fresh "Htag" in
  destruct (Byte.to_N t) as [|[[]|[]|]] eqn:H; try apply tag_is in H as ->.

Lemma decode_intent_atom_exact : exact decode_intent_atom (encodes encode_intent_atom intent_atom_wf).
Proof.
  apply (exact_tagged _ (λ n b a, match n with
    | 0 => ∃ v, (b = isa_put_u64 v ∧ u64_ok v) ∧ a = IEntity (EntityId_new v)
    | 1 => ∃ t, (b = encode_temporary t ∧ temporary_wf t) ∧ a = ITemporary t
    | 2 => ∃ s, (b = isa_put_string s ∧ str32_wf s) ∧ a = ILiteral (Literal_new s)
    | _ => False end)%N).
  - intros t. destruct (Byte.to_N t) as [|[[]|[]|]]; try apply exact_fail.
    + apply exact_fmap, q_u64_exact.
    + apply exact_fmap, q_string_exact.
    + apply exact_fmap, decode_temporary_exact.
  - intros t b a. on_tag t; try done; by intros (v & [-> Hv] & ->).
  - intros [[v]|t|[l]] Ha; do 2 eexists; (split; [reflexivity|]); cbn; eauto.
Qed.

Lemma decode_intent_fact_exact : exact decode_intent_fact (encodes encode_intent_fact intent_fact_wf).
Proof.
  eapply exact_iff; [|apply exact_triple; [apply decode_intent_atom_exact|apply q_string_exact|apply decode_intent_atom_exact]].
  intros b f. unfold encode_intent_fact, intent_fact_wf. split.
  - intros (s & p & o & b1 & b2 & b3 & -> & [-> Hs] & [-> Hp] & [-> Ho] & ->). done.
  - intros (-> & Hs & Hp & Ho). destruct f as [s [p] o]. exists s, p, o. eauto 15.
Qed.

Lemma decode_atom_exact :
  exact decode_atom (encodes encode_atom (λ a, intent_atom_wf (IntentAtom_from a))).
Proof.
  apply (exact_tagged _ (λ n b a, match n with
    | 0 => ∃ v, (b = isa_put_u64 v ∧ u64_ok v) ∧ a = AEntity (EntityId_new v)
    | 1 => ∃ s, (b = isa_put_string s ∧ str32_wf s) ∧ a = ALiteral (Literal_new s)
    | _ => False end)%N).
  - intros t. destruct (Byte.to_N t) as [|[[]|[]|]]; try apply exact_fail.
    + apply exact_fmap, q_u64_exact.
    + apply exact_fmap, q_string_exact.
  - intros t b a. on_tag t; try done; by intros (v & [-> Hv] & ->).
  - intros [[v]|[l]] Ha; do 2 eexists; (split; [reflexivity|]); cbn; eauto.
Qed.

Lemma decode_fact_exact : exact decode_fact (encodes encode_fact fact_wf).
Proof.
  eapply exact_iff; [|apply exact_triple; [apply decode_atom_exact|apply q_string_exact|apply decode_atom_exact]].
  intros b f. unfold encode_fact, fact_wf, intent_fact_wf. split.
  - intros (s & p & o & b1 & b2 & b3 & -> & [-> Hs] & [-> Hp] & [-> Ho] & ->). done.
  - intros (-> & Hs & Hp & Ho). destruct f as [s [p] o]. exists s, p, o. eauto 15.
Qed.

Definition encode_expected (e : option Fact) : list u8 :=
  match e with Some fact => x01 :: encode_fact fact | None => [x00] end.

Lemma decode_expected_exact : exact decode_expected (encodes encode_expected expected_wf).
Proof.
  apply (exact_tagged _ (λ n b e, match n with
    | 0 => b = [] ∧ e = None
    | 1 => ∃ f, (b = encode_fact f ∧ fact_wf f) ∧ e = Some f
    | _ => False end)%N).
  - intros t. destruct (Byte.to_N t) as [|[[]|[]|]]; try apply exact_fail.
    + apply exact_ret.
    + apply exact_fmap, decode_fact_exact.
  - intros t b e. on_tag t; try done; [by intros [-> ->]|by intros (v & [-> Hv] & ->)].
  - intros [f|] Ha; do 2 eexists; (split; [reflexivity|]); cbn; eauto.
Qed.

Lemma decode_precondition_exact : exact decode_precondition (encodes encode_precondition precondition_wf).
Proof.
  apply (exact_tagged _ (λ n b p, match n with
    | 0 => ∃ v, (b = isa_put_u64 v ∧ u64_ok v) ∧ p = ExpectedWorld (WorldId_new v)
    | 1 => ∃ s e b1 b2, b = b1 ++ b2 ∧ (b1 = isa_put_string s ∧ str32_wf s) ∧
        (b2 = encode_expected e ∧ expected_wf e) ∧ p = ExpectedSlot (SlotId_new s) e
    | _ => False end)%N).
  - intros t. destruct (Byte.to_N t) as [|[[]|[]|]]; try apply exact_fail.
    + apply exact_fmap, q_u64_exact.
    + apply exact_pair; [apply q_string_exact|apply decode_expected_exact].
  - intros t b p. on_tag t; try done; [by intros (v & [-> Hv] & ->)|].
    intros (s & e & b1 & b2 & -> & [-> Hs] & [-> He] & ->). done.
  - intros [[w]|[s] e] Hp; do 2 eexists; (split; [reflexivity|]); cbn; [by eauto|].
    destruct Hp. do 4 eexists. split_and!; reflexivity || done.
Qed.

Lemma decode_operation_exact : exact decode_operation (encodes encode_operation operation_wf).
Proof.
  apply (exact_tagged _ (λ n b op, match n with
    | 0 => ∃ t, (b = encode_temporary t ∧ temporary_wf t) ∧ op = IAllocate t
    | 1 => ∃ s f b1 b2, b = b1 ++ b2 ∧ (b1 = isa_put_string s ∧ str32_wf s) ∧
        (b2 = encode_intent_fact f ∧ intent_fact_wf f) ∧ op = IDefine (SlotId_new s) f
    | 2 => ∃ s, (b = isa_put_string s ∧ str32_wf s) ∧ op = IForget (SlotId_new s)
    | _ => False end)%N).
  - intros t. destruct (Byte.to_N t) as [|[[]|[]|]]; try apply exact_fail.
    + apply exact_fmap, decode_temporary_exact.
    + apply exact_fmap, q_string_exact.
    + apply exact_pair; [apply q_string_exact|apply decode_intent_fact_exact].
  - intros t b op. on_tag t; try done; [by intros (v & [-> Hv] & ->)..|].
    intros (s & e & b1 & b2 & -> & [-> Hs] & [-> He] & ->). done.
  - intros [t|[s] f|[s]] Hp; do 2 eexists; (split; [reflexivity|]); cbn; [by eauto| |by eauto].
    destruct Hp. do 4 eexists. split_and!; reflexivity || done.
Qed.

Lemma decode_queued_intent_exact :
  exact decode_queued_intent (encodes encode_queued_intent queued_intent_wf).
Proof.
  eapply exact_iff; [|eapply exact_bind; [apply q_u64_exact|intros ns]].
  2: { apply exact_triple; [apply q_u32_exact| |].
       - apply (counted_exact _ _ _ _ q_u32_exact decode_precondition_exact).
       - apply (counted_exact _ _ _ _ q_u32_exact decode_operation_exact). }
  intros b i. unfold encode_queued_intent, queued_intent_wf. split.
  - intros (ns & b1 & b2 & -> & [-> Hns] & n & ps & ops & b3 & b4 & b5 & -> & [-> Hn] & [-> Hps] &
      [-> Hops] & ->). cbn [qi_namespace qi_next_temporary qi_preconditions qi_operations].
    split; [by rewrite <- !(assoc_L (++))|done].
  - intros (-> & Hns & Hn & Hps & Hops). destruct i as [ns n ps ops].
    cbn [qi_namespace qi_next_temporary qi_preconditions qi_operations] in *.
    do 3 eexists. split_and!; [done|done|done|]. exists n, ps, ops. do 3 eexists.
    split; [rewrite (assoc_L (++) (isa_put_u32 (as_u32 (length ps)))); done|]. done.
Qed.
