(* ===== verification/Journal.v ===== *)
(** The admission journal (forthdb-world/src/admission_epoch.rs, lines 21-30 and
    1043-1285): the records that make epochs of intents durable, the recovery of
    a journal and the replay of its epochs.

    The mapped snapshot that may stand for a whole journal is the interface
    [MappedJournal].  Recovery threads the global [NEXT_INTENT_NAMESPACE]. *)
From Stdlib Require Import NArith Lia.
From Stdlib Require Import Strings.Byte.
From stdpp Require Import base gmap list strings option list_monad.
From S2P Require Import Prelude Ord Terms Bytes Query QueryFacts Spec Index Kernel Frames Codec.
From S2P Require Import VmProjection Worlds Intents Epochs FileStore StackVm VmEpochs Parser Isa.
From S2P Require Import IntentStream IntentCodec.
From S2P Require Import VmEpochFacts.

Definition JOURNAL_MAGIC : list u8 := string_bytes "FTHADM01".
Definition JOURNAL_VERSION : N := 1.
Definition JOURNAL_HEADER_LEN : nat := 16.
Definition EPOCH_MAGIC : list u8 := string_bytes "AEP1".
Definition EPOCH_TRAILER : list u8 := string_bytes "END1".
Definition EPOCH_PREFIX_LEN : nat := 20.
Definition MAX_EPOCH_BYTES : N := 64 * 1024 * 1024.

(** [digest]: the same FNV-1a fold as the file store's checksum. *)
Definition journal_digest (bytes : list u8) : N := foldl fnv_step FNV_OFFSET_BASIS bytes.

(** ** Encoding *)

Definition encode_staged (i : QueuedIntent) : list u8 :=
  match compile_to_stream_frame i with
  | Ok frame => encode_instruction_stream_frame frame
  | _ => encode_queued_intent i
  end.

Definition encode_staged_entry (i : QueuedIntent) : list u8 :=
  let encoded := encode_staged i in u32_bytes (as_u32 (length encoded)) ++ encoded.

Definition encode_epoch_payload (id : N) (intents : list QueuedIntent) : list u8 :=
  u64_bytes id ++ u32_bytes (as_u32 (length intents)) ++ (i ← intents; encode_staged_entry i).

Definition encode_epoch (id : N) (intents : list QueuedIntent) : list u8 :=
  let payload := encode_epoch_payload id intents in
  EPOCH_MAGIC ++ u64_bytes (N.of_nat (length payload)) ++ u64_bytes (journal_digest payload) ++
  payload ++ EPOCH_TRAILER.

(** ** Decoding *)

Inductive PayloadError :=
| PayloadRead (e : IsaError)
| IntentLengthOverflow
| TruncatedIntent
| StreamDecode (e : IsaError)
| StreamRebuild (message : string)
| IntentDecode (e : IntentDecodeError)
| IntentNotConsumed
| TrailingPayloadBytes.

(** One intent: its value, the position its decoder stopped at and the
    namespace counter. *)
Definition decode_staged (counter : N) (bytes : list u8) :
    outcome PayloadError (QueuedIntent * nat * N) :=
  if decide (4 ≤ length bytes ∧ take 4 bytes = STREAM_MAGIC) then
    let* r := map_err StreamDecode (decode_instruction_stream_frame (Decoder_new bytes)) in
    let* s := map_err StreamRebuild (from_stream_frame counter r.1) in
    Ok (s.1, d_position r.2, s.2)
  else
    let* r := map_err IntentDecode (decode_queued_intent (Decoder_new bytes)) in
    Ok (r.1, d_position r.2, bump_namespace counter (qi_namespace r.1)).

Definition read_u32 : parser PayloadError N := λ d, map_err PayloadRead (take_u32 d).
Definition read_u64 : parser PayloadError N := λ d, map_err PayloadRead (take_u64 d).

Definition decode_staged_entry (counter : N) (d : Decoder) :
    outcome PayloadError (QueuedIntent * N * Decoder) :=
  let* r := read_u32 d in
  let '(length_, d) := r in
  let start := d_position d in
  let* past := ok_or (u64_checked_add (N.of_nat start) length_) IntentLengthOverflow in
  if (N.of_nat (length (d_bytes d)) <? past)%N then Err TruncatedIntent
  else
    let* intent_bytes := or_panic (slice (d_bytes d) start (N.to_nat length_)) in
    let* s := decode_staged counter intent_bytes in
    let '(intent, position, counter) := s in
    if decide (N.of_nat position ≠ length_) then Err IntentNotConsumed
    else Ok (intent, counter, Decoder_mk (d_bytes d) (N.to_nat past)).

Fixpoint decode_staged_entries (n : nat) (counter : N) (d : Decoder) :
    outcome PayloadError (list QueuedIntent * N * Decoder) :=
  match n with
  | 0 => Ok ([], counter, d)
  | S n =>
      let* r := decode_staged_entry counter d in
      let '(intent, counter, d) := r in
      let* s := decode_staged_entries n counter d in
      let '(intents, counter, d) := s in
      Ok (intent :: intents, counter, d)
  end.

Definition decode_epoch_payload (counter : N) (payload : list u8) :
    outcome PayloadError (N * list QueuedIntent * N) :=
  let* r := read_u64 (Decoder_new payload) in
  let '(epoch_id, d) := r in
  let* r := read_u32 d in
  let '(count, d) := r in
  let* s := decode_staged_entries (N.to_nat count) counter d in
  let '(intents, counter, d) := s in
  if decide (d_position d ≠ length payload) then Err TrailingPayloadBytes
  else Ok (epoch_id, intents, counter).

(** ** Recovery *)

Inductive JournalError :=
| JournalIo
| JournalHeaderInvalid
| JournalVersionUnsupported
| EpochMagicInvalid (offset : nat)
| EpochTooLarge
| EpochLengthOverflow
| EpochTrailerInvalid (offset : nat)
| EpochChecksumMismatch (offset : nat)
| EpochPayload (e : PayloadError)
| EpochOutOfOrder (expected found : N)
| ReplayFailed (e : MaterializeError).

(** One iteration of [while offset < bytes.len()]; [None] is the break of a torn
    record, otherwise the epoch, the offset after it and the counter. *)
Definition recover_record (counter : N) (bytes : list u8) (epochs : list (list QueuedIntent))
    (offset : nat) : outcome JournalError (option (list QueuedIntent * nat * N)) :=
  if length bytes - offset <? EPOCH_PREFIX_LEN then Ok None
  else
    let* magic := or_panic (slice bytes offset 4) in
    if decide (magic ≠ EPOCH_MAGIC) then Err (EpochMagicInvalid offset)
    else
      let* len := or_panic (slice bytes (offset + 4) 8) in
      let payload_len := le_N len in
      if (MAX_EPOCH_BYTES <? payload_len)%N then Err EpochTooLarge
      else
        let* sum := or_panic (slice bytes (offset + 12) 8) in
        let checksum := le_N sum in
        let* past := ok_or (u64_checked_add (N.of_nat offset)
            (N.of_nat EPOCH_PREFIX_LEN + payload_len + N.of_nat (length EPOCH_TRAILER)))
          EpochLengthOverflow in
        if (N.of_nat (length bytes) <? past)%N then Ok None
        else
          let past := N.to_nat past in
          let* trailer := or_panic (slice bytes (past - 4) 4) in
          if decide (trailer ≠ EPOCH_TRAILER) then Err (EpochTrailerInvalid offset)
          else
            let* payload := or_panic
              (slice bytes (offset + EPOCH_PREFIX_LEN) (past - 4 - (offset + EPOCH_PREFIX_LEN))) in
            if decide (journal_digest payload ≠ checksum) then Err (EpochChecksumMismatch offset)
            else
              let* r := map_err EpochPayload (decode_epoch_payload counter payload) in
              let '(epoch_id, intents, counter) := r in
              let expected_epoch := (N.of_nat (length epochs) + 1)%N in
              if decide (epoch_id ≠ expected_epoch)
              then Err (EpochOutOfOrder expected_epoch epoch_id)
              else Ok (Some (intents, past, counter)).

(** The loop; an iteration that continues advances by a whole record. *)
Fixpoint recover_loop (fuel : nat) (counter : N) (bytes : list u8)
    (epochs : list (list QueuedIntent)) (offset : nat) :
    outcome JournalError (list (list QueuedIntent) * nat * N) :=
  if length bytes <=? offset then Ok (epochs, offset, counter)
  else
    match fuel with
    | 0 => Panic
    | S fuel =>
        let* r := recover_record counter bytes epochs offset in
        match r with
        | None => Ok (epochs, offset, counter)
        | Some (intents, past, counter) => recover_loop fuel counter bytes (epochs ++ [intents]) past
        end
    end.

(** The mapped image of a journal's state (mmap_vm_snapshot.rs): [mj_open] is
    [MmapVmSnapshot::open] on the journal's bytes. *)
Class MappedJournal (P : Type) := {
  mj_open : list u8 → option P;
  mj_journal_offset : P → N;
  mj_epoch_count : P → N;
}.

(** The outcomes of the file operations of recovery: how many bytes of the
    header reach an empty file when writing it fails, whether the file can be
    read, and whether the torn tail can be cut and the cut made durable. *)
Record JournalIoEnv := JournalIoEnv_mk {
  jio_header : option nat;
  jio_read : bool;
  jio_truncate : bool;
  jio_sync : bool;
}.

Definition journal_io_ok : JournalIoEnv := JournalIoEnv_mk None true true true.

Definition journal_header : list u8 := JOURNAL_MAGIC ++ u32_bytes JOURNAL_VERSION ++ u32_bytes 0.

Section journal.
Context {P : Type} `{MappedJournal P}.

Record RecoveredJournal := RecoveredJournal_mk {
  rj_epochs : list (list QueuedIntent);
  rj_file_len : N;
  rj_total_epochs : N;
  rj_snapshot : option P;
}.

(** The checks of the header. *)
Definition check_header (bytes : list u8) : outcome JournalError unit :=
  if decide (length bytes < JOURNAL_HEADER_LEN) then Err JournalHeaderInvalid
  else
    let* magic := or_panic (slice bytes 0 8) in
    if decide (magic ≠ JOURNAL_MAGIC) then Err JournalHeaderInvalid
    else
      let* version := or_panic (slice bytes 8 4) in
      if decide (le_N version ≠ JOURNAL_VERSION) then Err JournalVersionUnsupported
      else Ok tt.

(** The epochs that the bytes hold, past a checked header. *)
Definition recover_epochs (io : JournalIoEnv) (counter : N) (bytes : list u8) :
    outcome JournalError (RecoveredJournal * N) * list u8 :=
  match recover_loop (length bytes) counter bytes [] JOURNAL_HEADER_LEN with
  | Err e => (Err e, bytes)
  | Panic => (Panic, bytes)
  | Ok (epochs, offset, counter) =>
      let recovered := RecoveredJournal_mk epochs (N.of_nat offset) (N.of_nat (length epochs)) None in
      if decide (offset ≠ length bytes) then
        if jio_truncate io then
          let bytes := take offset bytes in
          (if jio_sync io then Ok (recovered, counter) else Err JournalIo, bytes)
        else (Err JournalIo, bytes)
      else (Ok (recovered, counter), bytes)
  end.

Definition recover_journal (io : JournalIoEnv) (allow_mmap_snapshot : bool) (counter : N)
    (file : list u8) : outcome JournalError (RecoveredJournal * N) * list u8 :=
  match (if decide (length file = 0) then jio_header io else None) with
  | Some written => (Err JournalIo, take written journal_header)
  | None =>
      let bytes := if decide (length file = 0) then journal_header else file in
      if jio_read io then
        match check_header bytes with
        | Err e => (Err e, bytes)
        | Panic => (Panic, bytes)
        | Ok _ =>
            match (if allow_mmap_snapshot then mj_open bytes else None) with
            | Some snapshot =>
                if decide (mj_journal_offset snapshot = N.of_nat (length bytes))
                then (Ok (RecoveredJournal_mk [] (N.of_nat (length bytes)) (mj_epoch_count snapshot)
                            (Some snapshot), counter), bytes)
                else recover_epochs io counter bytes
            | None => recover_epochs io counter bytes
            end
        end
      else (Err JournalIo, bytes)
  end.
End journal.
Arguments RecoveredJournal : clear implicits.

(** ** Replay *)

Inductive AdmissionMaterializer := MaterializeWorld | MaterializeTokenVm.

Section replay.
Context {D P : Type} `{Kernel D, MappedRoot P, MappedVocabulary P}.

Abbreviation Validator := (CandidateWorld D → outcome string unit) (only parsing).

Inductive EpochMaterializer :=
| WorldMaterializer
| TokenVm (vm : VmEpochMaterializer P).

(** The [catch_unwind] body of [materialize], which replay also runs: the plan,
    whether the VM made it, and the materializer. *)
Definition plan_epoch (world : World D P) (intents : list QueuedIntent) (validators : list Validator)
    (m : EpochMaterializer) : outcome MaterializeError (EpochPlan D P * bool) * EpochMaterializer :=
  match m with
  | WorldMaterializer =>
      (let* plan := or_panic (derive_epoch_world world intents validators) in Ok (plan, false), m)
  | TokenVm vm =>
      let r := materialize world intents validators vm in (r.1, TokenVm r.2)
  end.

Definition replay_start (snapshot : option P) : World D P :=
  match snapshot with Some s => world_from_mmap s | None => genesis end.

Definition replay_materializer (snapshot : option P) (kind : AdmissionMaterializer) :
    outcome JournalError EpochMaterializer :=
  match kind with
  | MaterializeWorld => Ok WorldMaterializer
  | MaterializeTokenVm =>
      let* vm := match snapshot with
        | Some s => map_err ReplayFailed (materializer_from_mmap s)
        | None => Ok (materializer_new (w_next_entity (replay_start snapshot)))
        end in
      Ok (TokenVm vm)
  end.

(** One iteration of the loop of [replay_epochs]. *)
Definition replay_step (validators : list Validator) (st : World D P * EpochMaterializer)
    (intents : list QueuedIntent) : outcome JournalError (World D P * EpochMaterializer) :=
  let r := plan_epoch st.1 intents validators st.2 in
  let* plan := map_err ReplayFailed r.1 in
  Ok (ep_tail plan.1, r.2).

Definition replay_epochs (snapshot : option P) (epochs : list (list QueuedIntent))
    (validators : list Validator) (kind : AdmissionMaterializer) :
    outcome JournalError (World D P * EpochMaterializer) :=
  let* m := replay_materializer snapshot kind in
  outcome_fold (replay_step validators) epochs (replay_start snapshot, m).
End replay.

(** The journal's records decode to the intents they were made of, a torn record
    ends the recovery, and recovery never panics. *)

(** ** One intent *)

(** An intent a client can build, within the stream format. *)
Record journalable (i : QueuedIntent) : Prop := {
  jb_built : ∃ known, intent_built i known;
  jb_cells : intent_cells i;
  jb_text : intent_text i;
  jb_length : u32_ok (N.of_nat (length (encode_staged i)));
}.

Lemma journalable_frame i : journalable i →
  ∃ f, compile_to_stream_frame i = Ok f ∧ isa_frame_wf f ∧
    encode_staged i = encode_instruction_stream_frame f ∧
    ∀ counter, from_stream_frame counter f = Ok (i, u64_add counter 1).
Proof.
  intros [[known Hb] Hcells Htext Hlen].
  pose proof (built_streamable _ _ Hb Hcells) as Hs.
  destruct (compile_to_stream_frame i) as [f|e|] eqn:Hf; [|done..]. exists f.
  split; [done|]. split; [|split; [by unfold encode_staged; rewrite Hf|]].
  - eapply compile_frame_wf; [done..|apply Hcells| |done]. by apply (built_scope _ _ Hb).
  - intros counter. by eapply stream_round_trip.
Qed.

(** The counter after [n] intents were rebuilt. *)
Fixpoint bump_counter (n : nat) (counter : N) : N :=
  match n with 0 => counter | S n => bump_counter n (u64_add counter 1) end.

Lemma decode_staged_ok counter i : journalable i →
  decode_staged counter (encode_staged i) =
  Ok (i, length (encode_staged i), u64_add counter 1).
Proof.
  intros Hi. destruct (journalable_frame i Hi) as (f & Hf & Hwf & Henc & Hrt).
  pose proof (jb_length _ Hi) as Hlen. unfold decode_staged. rewrite Henc in Hlen |- *.
  rewrite decide_True.
  - destruct (exact_whole _ _ _ f frame_exact (conj eq_refl Hwf)) as (d & -> & Hd).
    { unfold u32_ok, u32_modulus in Hlen. unfold u64_ok, u64_modulus. lia. }
    cbn [map_err outcome_bind fst snd]. rewrite Hrt. cbn [map_err outcome_bind fst snd]. by rewrite Hd.
  - unfold encode_instruction_stream_frame. rewrite length_app. split; [simpl; lia|].
    by rewrite take_app_length'.
Qed.

Lemma read_u32_exact : exact read_u32 (λ b x, b = isa_put_u32 x ∧ u32_ok x).
Proof. apply exact_map_err, take_u32_exact. Qed.
Lemma read_u64_exact : exact read_u64 (λ b x, b = isa_put_u64 x ∧ u64_ok x).
Proof. apply exact_map_err, take_u64_exact. Qed.

(** What is sliced at the cursor is what comes next. *)
Lemma slice_dec_at d b rest : dec_at d (b ++ rest) →
  slice (d_bytes d) (d_position d) (length b) = Some b ∧
  dec_at (Decoder_mk (d_bytes d) (d_position d + length b)) rest ∧
  d_position d + length b ≤ length (d_bytes d).
Proof.
  intros Hd. pose proof (dec_at_length _ _ Hd) as Hl. rewrite length_app in Hl.
  destruct Hd as (H1 & H2 & H3). unfold slice.
  rewrite (proj2 (Nat.leb_le _ _)) by lia. rewrite H2, take_app_length. split; [done|].
  split; [|lia]. split; simpl; [lia|]. split; [|done]. by rewrite <- drop_drop, H2, drop_app_length.
Qed.

Lemma decode_staged_entry_ok counter i d rest : journalable i →
  dec_at d (encode_staged_entry i ++ rest) →
  ∃ d', decode_staged_entry counter d = Ok (i, u64_add counter 1, d') ∧ dec_at d' rest ∧
    d_bytes d' = d_bytes d.
Proof.
  intros Hi Hd. pose proof (jb_length _ Hi) as Hlen. unfold encode_staged_entry in Hd.
  rewrite (as_u32_ok _ Hlen), <- (assoc_L (++)) in Hd. unfold decode_staged_entry.
  destruct (exact_complete _ _ read_u32_exact _ _ _ _ (conj eq_refl Hlen) Hd) as (d1 & Hr & Hd1).
  pose proof (exact_sound _ _ read_u32_exact _ _ Hd) as Hs. rewrite Hr in Hs |- *.
  destruct Hs as (_ & _ & _ & _ & _ & Hk). cbn [outcome_bind].
  destruct (slice_dec_at _ _ _ Hd1) as (Hsl & Hd2 & Hle). pose proof Hd1 as (_ & _ & Hu).
  unfold u64_checked_add. unfold u64_ok in Hu.
  rewrite (proj2 (N.ltb_lt _ _)) by lia. cbn [ok_or outcome_bind].
  rewrite (proj2 (N.ltb_ge _ _)) by lia. rewrite Nat2N.id, Hsl. cbn [or_panic outcome_bind].
  rewrite decode_staged_ok by done. cbn [outcome_bind]. rewrite decide_False by lia.
  eexists. split; [done|].
  replace (N.to_nat (N.of_nat (d_position d1) + N.of_nat (length (encode_staged i))))
    with (d_position d1 + length (encode_staged i)) by lia. done.
Qed.

Lemma decode_staged_entries_ok js counter d rest : Forall journalable js →
  dec_at d ((i ← js; encode_staged_entry i) ++ rest) →
  ∃ d', decode_staged_entries (length js) counter d = Ok (js, bump_counter (length js) counter, d') ∧
    dec_at d' rest ∧ d_bytes d' = d_bytes d.
Proof.
  intros His. revert counter d. induction His as [|i js Hi His IH]; intros counter d Hd.
  - by exists d.
  - rewrite bind_cons, <- (assoc_L (++)) in Hd.
    destruct (decode_staged_entry_ok counter i d _ Hi Hd) as (d1 & H1 & Hd1 & Hk1).
    destruct (IH (u64_add counter 1) d1 Hd1) as (d2 & H2 & Hd2 & Hk2).
    exists d2. cbn [length decode_staged_entries]. rewrite H1. cbn [outcome_bind]. rewrite H2.
    split; [done|]. split; [done|congruence].
Qed.

(** ** One epoch *)

(** An epoch that the controller can admit and a reader takes. *)
Record epoch_journalable (id : N) (js : list QueuedIntent) : Prop := {
  ej_id : u64_ok id;
  ej_intents : Forall journalable js;
  ej_length : (N.of_nat (length (encode_epoch_payload id js)) ≤ MAX_EPOCH_BYTES)%N;
}.

Lemma length_entries js : length js ≤ length (i ← js; encode_staged_entry i).
Proof.
  induction js as [|i js IH]; [done|]. rewrite bind_cons, length_app. cbn [length].
  unfold encode_staged_entry at 1. rewrite length_app. unfold u32_bytes. rewrite length_le_bytes. lia.
Qed.

Lemma decode_epoch_payload_ok counter id js : epoch_journalable id js →
  decode_epoch_payload counter (encode_epoch_payload id js) = Ok (id, js, bump_counter (length js) counter).
Proof.
  intros [Hid His Hlen]. unfold decode_epoch_payload.
  set (payload := encode_epoch_payload id js) in *.
  assert (u64_ok (N.of_nat (length payload))) as Hu.
  { eapply N.le_lt_trans; [exact Hlen|reflexivity]. }
  assert (u32_ok (N.of_nat (length js))) as Hcount.
  { eapply N.le_lt_trans; [|apply (N.le_lt_trans _ _ u32_modulus Hlen); reflexivity].
    subst payload. unfold encode_epoch_payload. rewrite !length_app.
    pose proof (length_entries js). lia. }
  pose proof (dec_at_new payload Hu) as Hd. assert (d_bytes (Decoder_new payload) = payload) as Hb by done.
  revert Hd Hb. generalize (Decoder_new payload) as d0. intros d0 Hd Hb.
  unfold payload in Hd. unfold encode_epoch_payload in Hd. rewrite (as_u32_ok _ Hcount) in Hd.
  destruct (exact_complete _ _ read_u64_exact _ _ _ _ (conj eq_refl Hid) Hd) as (d1 & H1 & Hd1).
  pose proof (exact_sound _ _ read_u64_exact _ _ Hd) as Hs. rewrite H1 in Hs |- *.
  destruct Hs as (_ & _ & _ & _ & _ & Hk1). cbn [outcome_bind].
  destruct (exact_complete _ _ read_u32_exact _ _ _ _ (conj eq_refl Hcount) Hd1) as (d2 & H2 & Hd2).
  pose proof (exact_sound _ _ read_u32_exact _ _ Hd1) as Hs. rewrite H2 in Hs |- *.
  destruct Hs as (_ & _ & _ & _ & _ & Hk2). cbn [outcome_bind]. rewrite Nat2N.id.
  destruct (decode_staged_entries_ok js counter d2 [] His) as (d3 & H3 & Hd3 & Hk3).
  { by rewrite app_nil_r. }
  rewrite H3. cbn [outcome_bind]. rewrite decide_False; [done|].
  pose proof (dec_at_length _ _ Hd3) as Hl. destruct Hd3 as (Hp & _ & _).
  rewrite Hk3, Hk2, Hk1, Hb in Hl, Hp. cbn [length] in Hl. fold payload in Hl, Hp. lia.
Qed.

(** ** One record *)

(** The record around a payload. *)
Definition journal_record (payload : list u8) : list u8 :=
  EPOCH_MAGIC ++ u64_bytes (N.of_nat (length payload)) ++ u64_bytes (journal_digest payload) ++
  payload ++ EPOCH_TRAILER.

Lemma encode_epoch_record id js : encode_epoch id js = journal_record (encode_epoch_payload id js).
Proof. done. Qed.

Lemma journal_record_length payload : length (journal_record payload) = 24 + length payload.
Proof. unfold journal_record. rewrite !length_app, !length_u64_bytes. simpl. lia. Qed.

Lemma journal_digest_ok payload : u64_ok (journal_digest payload).
Proof. apply (fnv_write_ok FNV_OFFSET_BASIS). reflexivity. Qed.

#[local] Opaque journal_digest le_N u64_bytes encode_epoch_payload.

Ltac slice_part pre b rest :=
  rewrite (slice_at pre b rest);
  [|by rewrite <- ?(assoc_L (++))
   |rewrite ?length_app, ?length_u64_bytes; unfold EPOCH_PREFIX_LEN; simpl; lia
   |rewrite ?length_u64_bytes; done || lia];
  cbn [or_panic outcome_bind].

(** The start of a record: magic, length and what comes after them. *)
Lemma recover_record_prefix counter pre n tl epochs :
  8 ≤ length tl → u64_ok n →
  recover_record counter (pre ++ EPOCH_MAGIC ++ u64_bytes n ++ tl) epochs (length pre) =
  (let bytes := pre ++ EPOCH_MAGIC ++ u64_bytes n ++ tl in
   if (MAX_EPOCH_BYTES <? n)%N then Err EpochTooLarge
   else
     let* sum := or_panic (slice bytes (length pre + 12) 8) in
     let* past := ok_or (u64_checked_add (N.of_nat (length pre)) (24 + n)) EpochLengthOverflow in
     if (N.of_nat (length bytes) <? past)%N then Ok None
     else
       let past := N.to_nat past in
       let* trailer := or_panic (slice bytes (past - 4) 4) in
       if decide (trailer ≠ EPOCH_TRAILER) then Err (EpochTrailerInvalid (length pre))
       else
         let* payload := or_panic (slice bytes (length pre + 20) (past - 4 - (length pre + 20))) in
         if decide (journal_digest payload ≠ le_N sum) then Err (EpochChecksumMismatch (length pre))
         else
           let* r := map_err EpochPayload (decode_epoch_payload counter payload) in
           let '(epoch_id, intents, counter) := r in
           let expected_epoch := (N.of_nat (length epochs) + 1)%N in
           if decide (epoch_id ≠ expected_epoch)
           then Err (EpochOutOfOrder expected_epoch epoch_id)
           else Ok (Some (intents, past, counter))).
Proof.
  intros Htl Hn. unfold recover_record.
  rewrite (proj2 (Nat.ltb_ge _ _)) by (rewrite !length_app, length_u64_bytes; unfold EPOCH_PREFIX_LEN; simpl; lia).
  slice_part pre EPOCH_MAGIC (u64_bytes n ++ tl).
  rewrite decide_False by (intros Hne; by apply Hne).
  slice_part (pre ++ EPOCH_MAGIC) (u64_bytes n) tl. rewrite le_N_u64_bytes by done.
  unfold EPOCH_PREFIX_LEN. cbv zeta.
  replace (N.of_nat 20 + n + N.of_nat (length EPOCH_TRAILER))%N with (24 + n)%N by (simpl; lia).
  done.
Qed.

(** A record whose payload is too long stops every recovery that reaches it. *)
Lemma recover_record_too_long counter pre payload post epochs :
  u64_ok (N.of_nat (length payload)) → (MAX_EPOCH_BYTES < N.of_nat (length payload))%N →
  recover_record counter (pre ++ journal_record payload ++ post) epochs (length pre) = Err EpochTooLarge.
Proof.
  intros Hu Hmax. unfold journal_record. rewrite <- !(assoc_L (++)).
  rewrite recover_record_prefix by (done || rewrite !length_app, length_u64_bytes; lia).
  cbv zeta. by rewrite (proj2 (N.ltb_lt _ _) Hmax).
Qed.

Lemma recover_record_payload counter pre payload post epochs :
  (N.of_nat (length payload) ≤ MAX_EPOCH_BYTES)%N →
  u64_ok (N.of_nat (length (pre ++ journal_record payload ++ post))) →
  recover_record counter (pre ++ journal_record payload ++ post) epochs (length pre) =
  (let* r := map_err EpochPayload (decode_epoch_payload counter payload) in
   let '(epoch_id, intents, counter) := r in
   let expected_epoch := (N.of_nat (length epochs) + 1)%N in
   if decide (epoch_id ≠ expected_epoch) then Err (EpochOutOfOrder expected_epoch epoch_id)
   else Ok (Some (intents, length pre + length (journal_record payload), counter))).
Proof.
  intros Hmax Hu. pose proof (journal_record_length payload) as Hlen.
  rewrite !length_app, Hlen in Hu.
  assert (u64_ok (N.of_nat (length payload))) as Hn by (unfold u64_ok in *; lia).
  unfold journal_record. rewrite <- !(assoc_L (++)).
  rewrite recover_record_prefix by (done || rewrite !length_app, length_u64_bytes; lia).
  cbv zeta. rewrite (proj2 (N.ltb_ge _ _) Hmax).
  slice_part (pre ++ EPOCH_MAGIC ++ u64_bytes (N.of_nat (length payload)))
    (u64_bytes (journal_digest payload)) (payload ++ EPOCH_TRAILER ++ post).
  unfold u64_checked_add. rewrite (proj2 (N.ltb_lt _ _)) by (unfold u64_ok in Hu; lia).
  cbn [ok_or outcome_bind].
  rewrite (proj2 (N.ltb_ge _ _)) by (rewrite !length_app, !length_u64_bytes; simpl; lia).
  replace (N.to_nat (N.of_nat (length pre) + (24 + N.of_nat (length payload))))
    with (length pre + (24 + length payload)) by lia.
  slice_part (pre ++ EPOCH_MAGIC ++ u64_bytes (N.of_nat (length payload)) ++
    u64_bytes (journal_digest payload) ++ payload) EPOCH_TRAILER post.
  rewrite decide_False by (intros Hne; by apply Hne).
  slice_part (pre ++ EPOCH_MAGIC ++ u64_bytes (N.of_nat (length payload)) ++
    u64_bytes (journal_digest payload)) payload (EPOCH_TRAILER ++ post).
  rewrite le_N_u64_bytes by apply journal_digest_ok.
  rewrite decide_False by (intros Hne; by apply Hne).
  replace (length (EPOCH_MAGIC ++ u64_bytes (N.of_nat (length payload)) ++
    u64_bytes (journal_digest payload) ++ payload ++ EPOCH_TRAILER)) with (24 + length payload)
    by (symmetry; exact Hlen).
  done.
Qed.

(** A torn record ends the loop. *)
Lemma recover_record_torn counter pre payload n epochs :
  (N.of_nat (length payload) ≤ MAX_EPOCH_BYTES)%N →
  u64_ok (N.of_nat (length pre + length (journal_record payload))) →
  n < length (journal_record payload) →
  recover_record counter (pre ++ take n (journal_record payload)) epochs (length pre) = Ok None.
Proof.
  intros Hmax Hu Hn. rewrite journal_record_length in Hu, Hn.
  destruct (decide (n < EPOCH_PREFIX_LEN)) as [Hlt|Hge].
  { unfold recover_record. rewrite (proj2 (Nat.ltb_lt _ _)); [done|].
    rewrite length_app, length_take. lia. }
  unfold EPOCH_PREFIX_LEN in Hge.
  assert (u64_ok (N.of_nat (length payload))) as Hlen by (unfold u64_ok in *; lia).
  set (tl := take (n - 12) (u64_bytes (journal_digest payload) ++ payload ++ EPOCH_TRAILER)).
  assert (length tl = n - 12) as Htl.
  { unfold tl. rewrite length_take, !length_app, length_u64_bytes. simpl. lia. }
  assert (take n (journal_record payload) =
    EPOCH_MAGIC ++ u64_bytes (N.of_nat (length payload)) ++ tl) as ->.
  { unfold journal_record, tl. rewrite take_app_ge by (simpl; lia). f_equal.
    rewrite take_app_ge by (rewrite length_u64_bytes; simpl; lia). f_equal.
    rewrite length_u64_bytes. f_equal. simpl. lia. }
  rewrite recover_record_prefix by (done || lia). cbv zeta. rewrite (proj2 (N.ltb_ge _ _) Hmax).
  destruct (slice_in_range (pre ++ EPOCH_MAGIC ++ u64_bytes (N.of_nat (length payload)) ++ tl)
    (length pre + 12) 8) as [sum ->].
  { rewrite !length_app, length_u64_bytes. simpl. lia. }
  cbn [or_panic outcome_bind]. unfold u64_checked_add.
  rewrite (proj2 (N.ltb_lt _ _)) by (unfold u64_ok in *; lia). cbn [ok_or outcome_bind].
  rewrite (proj2 (N.ltb_lt _ _)); [done|]. rewrite !length_app, length_u64_bytes. simpl. lia.
Qed.

(** ** The whole journal *)

(** The records of epochs numbered from [id]. *)
Fixpoint journal_records (id : N) (epochs : list (list QueuedIntent)) : list u8 :=
  match epochs with
  | [] => []
  | e :: epochs => encode_epoch id e ++ journal_records (id + 1) epochs
  end.

Definition journal_file (epochs : list (list QueuedIntent)) : list u8 :=
  journal_header ++ journal_records 1 epochs.

Fixpoint epochs_journalable (id : N) (epochs : list (list QueuedIntent)) : Prop :=
  match epochs with
  | [] => True
  | e :: epochs => epoch_journalable id e ∧ epochs_journalable (id + 1) epochs
  end.

(** Intents within the format, in a journal no longer than the reader's limit for
    one epoch, are epochs within the format. *)
Lemma epochs_journalable_small id epochs :
  Forall journalable (concat epochs) → u64_ok (id + N.of_nat (length epochs)) →
  (N.of_nat (length (journal_records id epochs)) ≤ MAX_EPOCH_BYTES)%N → epochs_journalable id epochs.
Proof.
  revert id. induction epochs as [|e epochs IH]; intros id Hj Hid Hlen; [done|].
  cbn [concat journal_records length] in *. apply Forall_app in Hj as [He Hj].
  rewrite length_app, encode_epoch_record, journal_record_length in Hlen.
  split; [split; [unfold u64_ok in *; lia|done|lia]|].
  apply IH; [done|unfold u64_ok in *; lia|lia].
Qed.

(** What an interrupted append leaves after [pre]: nothing, or a proper prefix of
    a record. *)
Definition torn (pre tail : list u8) : Prop :=
  (tail = [] ∧ u64_ok (N.of_nat (length pre))) ∨
  ∃ payload n, tail = take n (journal_record payload) ∧ n < length (journal_record payload) ∧
    (N.of_nat (length payload) ≤ MAX_EPOCH_BYTES)%N ∧
    u64_ok (N.of_nat (length pre + length (journal_record payload))).

Lemma torn_length pre tail : torn pre tail → u64_ok (N.of_nat (length (pre ++ tail))).
Proof.
  rewrite length_app. intros [[-> Hu]|(payload & n & -> & Hn & _ & Hu)]; unfold u64_ok in *.
  - simpl. lia.
  - rewrite length_take. lia.
Qed.

Lemma bump_counter_add n m counter : bump_counter (n + m) counter = bump_counter m (bump_counter n counter).
Proof. revert counter. induction n as [|n IH]; intros counter; simpl; [done|apply IH]. Qed.

Lemma journal_records_length id epochs : length epochs ≤ length (journal_records id epochs).
Proof.
  revert id. induction epochs as [|e epochs IH]; intros id; [done|]. cbn [journal_records length].
  rewrite length_app, encode_epoch_record, journal_record_length. specialize (IH (id + 1)%N). lia.
Qed.

Lemma journal_records_snoc id epochs e :
  journal_records id (epochs ++ [e]) =
  journal_records id epochs ++ encode_epoch (id + N.of_nat (length epochs)) e.
Proof.
  revert id. induction epochs as [|e' epochs IH]; intros id; cbn [journal_records app length].
  - by rewrite app_nil_r, N.add_0_r.
  - rewrite IH, <- (assoc_L (++)). do 3 f_equal. lia.
Qed.

Lemma journal_file_snoc epochs e :
  journal_file (epochs ++ [e]) = journal_file epochs ++ encode_epoch (N.of_nat (length epochs) + 1) e.
Proof. unfold journal_file. rewrite journal_records_snoc, <- (assoc_L (++)). do 3 f_equal. lia. Qed.

(** The loop passes over the epochs it can read. *)
Lemma recover_loop_prefix epochs : ∀ fuel counter pre recovered tail,
  epochs_journalable (N.of_nat (length recovered) + 1) epochs →
  u64_ok (N.of_nat (length (pre ++ journal_records (N.of_nat (length recovered) + 1) epochs ++ tail))) →
  recover_loop (length epochs + fuel) counter
    (pre ++ journal_records (N.of_nat (length recovered) + 1) epochs ++ tail) recovered (length pre) =
  recover_loop fuel (bump_counter (length (concat epochs)) counter)
    ((pre ++ journal_records (N.of_nat (length recovered) + 1) epochs) ++ tail) (recovered ++ epochs)
    (length (pre ++ journal_records (N.of_nat (length recovered) + 1) epochs)).
Proof.
  induction epochs as [|e epochs IH]; intros fuel counter pre recovered tail Hok Hu.
  - cbn [journal_records length concat bump_counter app Nat.add]. by rewrite !app_nil_r.
  - destruct Hok as [He Hok]. cbn [journal_records] in *. rewrite <- !(assoc_L (++)) in Hu |- *.
    cbn [length Nat.add recover_loop]. rewrite encode_epoch_record in *.
    set (payload := encode_epoch_payload (N.of_nat (length recovered) + 1) e) in *.
    rewrite (proj2 (Nat.leb_gt _ _)) by (rewrite !length_app, journal_record_length; lia).
    assert (N.of_nat (length recovered) + 1 + 1 = N.of_nat (length (recovered ++ [e])) + 1)%N as Hid
      by (rewrite length_app; simpl; lia).
    rewrite Hid in *.
    rewrite recover_record_payload; [|apply He|exact Hu].
    unfold payload at 1. rewrite decode_epoch_payload_ok by done. cbn [map_err outcome_bind].
    rewrite decide_False by (intros Hne; by apply Hne). cbn [outcome_bind].
    rewrite (assoc_L (++) pre), <- length_app. rewrite IH; [|done|by rewrite <- (assoc_L (++) pre)].
    rewrite <- (assoc_L (++) recovered), <- !(assoc_L (++) pre). cbn [app concat].
    by rewrite (length_app e), bump_counter_add.
Qed.

(** A torn record ends it. *)
Lemma recover_loop_torn fuel counter pre recovered tail : torn pre tail → length tail ≤ fuel →
  recover_loop fuel counter (pre ++ tail) recovered (length pre) = Ok (recovered, length pre, counter).
Proof.
  intros Ht Hf. assert (tail = [] → recover_loop fuel counter (pre ++ tail) recovered (length pre) =
    Ok (recovered, length pre, counter)) as Hnil.
  { intros ->. destruct fuel; unfold recover_loop; fold recover_loop;
      rewrite (proj2 (Nat.leb_le _ _)); rewrite ?app_nil_r; done. }
  destruct Ht as [[-> _]|(payload & n & -> & Hn & Hmax & Hu)]; [by apply Hnil|].
  destruct fuel as [|fuel]; [apply Hnil; by apply nil_length_inv; lia|].
  cbn [recover_loop]. destruct (_ <=? _); [done|]. by rewrite recover_record_torn.
Qed.

Lemma recover_loop_ok epochs fuel counter pre tail :
  epochs_journalable 1 epochs → torn (pre ++ journal_records 1 epochs) tail →
  length epochs + length tail ≤ fuel →
  recover_loop fuel counter (pre ++ journal_records 1 epochs ++ tail) [] (length pre) =
  Ok (epochs, length (pre ++ journal_records 1 epochs), bump_counter (length (concat epochs)) counter).
Proof.
  intros Hok Ht Hf. pose proof (torn_length _ _ Ht) as Hu. rewrite <- (assoc_L (++)) in Hu.
  replace fuel with (length epochs + (fuel - length epochs)) by lia.
  rewrite (recover_loop_prefix epochs _ counter pre [] tail Hok Hu).
  cbn [length app]. change (N.of_nat 0 + 1)%N with 1%N. by rewrite recover_loop_torn by (done || lia).
Qed.

Section recovery.
Context {P : Type} `{MappedJournal P}.

(** No mapped image of exactly these bytes is used. *)
Definition no_image (allow : bool) (bytes : list u8) : Prop :=
  allow = true → ∀ s, mj_open bytes = Some s → mj_journal_offset s ≠ N.of_nat (length bytes).

Lemma check_header_ok rest : check_header (journal_header ++ rest) = Ok tt.
Proof.
  unfold check_header. rewrite decide_False.
  2: { rewrite length_app. unfold JOURNAL_HEADER_LEN. change (length journal_header) with 16. lia. }
  unfold journal_header. rewrite <- !(assoc_L (++)).
  rewrite (slice_at [] JOURNAL_MAGIC (u32_bytes JOURNAL_VERSION ++ u32_bytes 0 ++ rest)) by done.
  cbn [or_panic outcome_bind]. rewrite decide_False by (intros Hne; by apply Hne).
  rewrite (slice_at JOURNAL_MAGIC (u32_bytes JOURNAL_VERSION) (u32_bytes 0 ++ rest)) by done.
  cbn [or_panic outcome_bind]. rewrite le_N_u32_bytes by done.
  by rewrite decide_False by (intros Hne; by apply Hne).
Qed.

Lemma recover_journal_epochs allow counter rest :
  no_image allow (journal_header ++ rest) →
  recover_journal (P := P) journal_io_ok allow counter (journal_header ++ rest) =
  recover_epochs journal_io_ok counter (journal_header ++ rest).
Proof.
  intros Himg. unfold recover_journal. rewrite decide_False by (rewrite length_app; simpl; lia).
  cbn [jio_read journal_io_ok]. rewrite decide_False by (rewrite length_app; simpl; lia).
  rewrite check_header_ok. destruct allow; [|done].
  destruct (mj_open _) as [s|] eqn:Hs; [|done]. rewrite decide_False; [done|]. by apply Himg.
Qed.

Lemma recover_journal_ok allow counter epochs tail :
  epochs_journalable 1 epochs → torn (journal_file epochs) tail →
  no_image allow (journal_file epochs ++ tail) →
  recover_journal (P := P) journal_io_ok allow counter (journal_file epochs ++ tail) =
  (Ok (RecoveredJournal_mk epochs (N.of_nat (length (journal_file epochs)))
         (N.of_nat (length epochs)) None, bump_counter (length (concat epochs)) counter),
   journal_file epochs).
Proof.
  unfold journal_file. rewrite <- (assoc_L (++)). intros Hok Htorn Himg.
  rewrite recover_journal_epochs by done.
  unfold recover_epochs. change JOURNAL_HEADER_LEN with (length journal_header).
  rewrite (recover_loop_ok epochs _ counter journal_header tail Hok Htorn).
  2: { rewrite length_app, (length_app (journal_records _ _)).
       pose proof (journal_records_length 1 epochs). lia. }
  cbn [jio_truncate jio_sync journal_io_ok]. rewrite (assoc_L (++)).
  case_decide as Hne.
  - do 2 f_equal. by rewrite take_app_length.
  - rewrite (length_app (journal_header ++ _)) in Hne.
    assert (tail = []) as -> by (destruct tail; [done|simpl in Hne; lia]). by rewrite app_nil_r.
Qed.

(** The writer sets no limit: one epoch above the reader's limit makes its journal
    unreadable, the epochs before and after it included. *)
Lemma oversized_epoch_unreadable allow counter epochs payload rest :
  epochs_journalable 1 epochs → (MAX_EPOCH_BYTES < N.of_nat (length payload))%N →
  u64_ok (N.of_nat (length (journal_file epochs ++ journal_record payload ++ rest))) →
  no_image allow (journal_file epochs ++ journal_record payload ++ rest) →
  recover_journal (P := P) journal_io_ok allow counter
    (journal_file epochs ++ journal_record payload ++ rest) =
  (Err EpochTooLarge, journal_file epochs ++ journal_record payload ++ rest).
Proof.
  unfold journal_file. rewrite <- (assoc_L (++)). intros Hok Hmax Hu Himg.
  rewrite recover_journal_epochs by done. unfold recover_epochs.
  set (bytes := journal_header ++ _) in *. change JOURNAL_HEADER_LEN with (length journal_header).
  assert (length bytes = length epochs + S (length bytes - length epochs - 1)) as Hfuel.
  { unfold bytes. rewrite !length_app, journal_record_length.
    pose proof (journal_records_length 1 epochs). lia. }
  assert (recover_loop (length bytes) counter bytes [] (length journal_header) = Err EpochTooLarge) as ->; [|done].
  rewrite Hfuel at 1. unfold bytes at 2.
  rewrite (recover_loop_prefix epochs _ counter journal_header [] (journal_record payload ++ rest) Hok Hu).
  cbn [length app]. change (N.of_nat 0 + 1)%N with 1%N. cbn [recover_loop].
  rewrite (proj2 (Nat.leb_gt _ _)) by (rewrite !length_app, journal_record_length; lia).
  rewrite recover_record_too_long; [done| |done].
  unfold bytes in Hu. rewrite !length_app, journal_record_length in Hu. unfold u64_ok in *. lia.
Qed.
End recovery.
