(* ===== verification/SnapshotFormat.v ===== *)
(** The parts of the file format of mapped VM snapshots
    (forthdb-world/src/mmap_vm_snapshot.rs): fixed-width integers at offsets,
    string tables, records, indexes and the history section.

    Errors are the code's messages.  Where the code prints an error of the
    standard library (invalid UTF-8, a read past the end of a cursor) the
    message is a fixed text. *)
From Stdlib Require Import NArith Lia.
From Stdlib Require Import Strings.Byte.
From stdpp Require Import sorting base gmap list strings option list_monad.
From S2P Require Import Prelude Ord Terms Bytes Query QueryFacts Spec Index Kernel Frames.
From S2P Require Import VmProjection Worlds WorldFacts Codec FileStore MmapFormat StackVm VmEpochs.

Local Open Scope string_scope.
Local Open Scope nat_scope.
Local Open Scope list_scope.

Definition MAGIC : list u8 := string_bytes "FTHVMS01".
Definition TRAILER : list u8 := string_bytes "VMSEND01".
Definition VERSION : N := 1.
Definition HEADER_LEN : nat := 320.
Definition SECTION_COUNT : nat := 10.
Definition SECTION_TABLE_OFFSET : nat := 112.
Definition RECORD_LEN : nat := 48.
Definition INDEX_ENTRY_LEN : nat := 32.
Definition MAX_SNAPSHOT_BYTES : N := 512 * 1024 * 1024.

Definition SLOTS : nat := 0.
Definition PREDICATES : nat := 1.
Definition LITERALS : nat := 2.
Definition RECORDS : nat := 3.
Definition HEADS : nat := 4.
Definition ACTIVE : nat := 5.
Definition SPO : nat := 6.
Definition POS : nat := 7.
Definition OSP : nat := 8.
Definition FRAMES : nat := 9.

Record MappedRecord := MappedRecord_mk {
  original_id : N;
  mr_slot : N;
  mr_previous : N;
  mr_subject : N;
  mr_predicate : N;
  mr_object : N;
}.

Record IndexEntry := IndexEntry_mk {
  ie_first : N;
  ie_second : N;
  ie_third : N;
  ie_record : N;
}.

(** ** Collecting results *)

(** [iter().map(f).collect::<Result<Vec<_>, _>>()], or a loop that pushes. *)
Fixpoint outcome_map {E A B} (f : A → outcome E B) (l : list A) : outcome E (list B) :=
  match l with
  | [] => Ok []
  | x :: l => let* y := f x in let* ys := outcome_map f l in Ok (y :: ys)
  end.

(** [result.ok()]: the inner [None] of a panic is a panic. *)
Definition ok_option {E F A} (m : outcome E A) : outcome F (option A) :=
  match m with Ok a => Ok (Some a) | Err _ => Ok None | Panic => Panic end.

(** ** Integers at an offset *)

Definition read_u32_at (bytes : list u8) (offset : nat) : outcome string N :=
  let* b := ok_or (range bytes offset (offset + 4)) "truncated u32" in Ok (le_N b).

Definition read_u64_at (bytes : list u8) (offset : nat) : outcome string N :=
  let* b := ok_or (range bytes offset (offset + 8)) "truncated u64" in Ok (le_N b).

(** [bytes[offset..offset + n].copy_from_slice(value)]. *)
Definition copy_from_slice (bytes : list u8) (offset : nat) (value : list u8) :
    outcome string (list u8) :=
  if offset + length value <=? length bytes
  then Ok (take offset bytes ++ value ++ drop (offset + length value) bytes)
  else Panic.

Definition put_u32 (bytes : list u8) (offset : nat) (value : N) : outcome string (list u8) :=
  copy_from_slice bytes offset (u32_bytes value).

Definition put_u64 (bytes : list u8) (offset : nat) (value : N) : outcome string (list u8) :=
  copy_from_slice bytes offset (u64_bytes value).

Definition digest (bytes : list u8) : N := fnv_write FNV_OFFSET_BASIS bytes.

(** [while bytes.len() % 8 != 0 { bytes.push(0) }]: at most seven pushes. *)
Fixpoint align_loop (fuel : nat) (bytes : list u8) : list u8 :=
  match fuel with
  | 0 => bytes
  | S fuel => if length bytes mod 8 =? 0 then bytes else align_loop fuel (bytes ++ [x00])
  end.

Definition align_eight (bytes : list u8) : list u8 := align_loop 8 bytes.

(** [checked_mul] on [usize]. *)
Definition usize_checked_mul (a b : N) : option N :=
  if (a * b <? u64_modulus)%N then Some (a * b)%N else None.

(** ** String tables *)

Record StringTable := StringTable_mk {
  st_section : nat * nat;
  st_offsets : list nat;
  st_blob_start : nat;
}.

Definition st_len (t : StringTable) : nat := length (st_offsets t) - 1.

Definition st_value (t : StringTable) (mapping : list u8) (index : nat) : outcome string string :=
  let* start := ok_or (st_offsets t !! index) "string token is out of range" in
  let* end_ := ok_or (st_offsets t !! (index + 1)) "string token terminator is out of range" in
  let absolute := (st_section t).1 + st_blob_start t in
  let* bytes := ok_or (range mapping (absolute + start) (absolute + end_))
    "string token bytes are out of range" in
  ok_or (from_utf8 bytes) "invalid utf-8 sequence".

(** [offsets.windows(2).any(|pair| pair[0] > pair[1])]. *)
Fixpoint decreasesb (l : list nat) : bool :=
  match l with
  | x :: (y :: _) as l => (y <? x) || decreasesb l
  | _ => false
  end.

(** The last loop of [parse]. *)
Fixpoint check_sorted (t : StringTable) (mapping : list u8) (previous : option string)
    (indexes : list nat) : outcome string unit :=
  match indexes with
  | [] => Ok tt
  | index :: indexes =>
      let* value := st_value t mapping index in
      if match previous with
         | Some prior => match cmp prior value with Lt => false | _ => true end
         | None => false
         end
      then Err "string-table values are not strictly sorted"
      else check_sorted t mapping (Some value) indexes
  end.

Definition st_parse (mapping : list u8) (section : nat * nat) : outcome string StringTable :=
  let* bytes := ok_or (range mapping section.1 section.2) "string-table section is out of range" in
  if length bytes <? 8 then Err "truncated string-table header"
  else
    let* count := read_u32_at bytes 0 in
    let* offset_bytes := ok_or (usize_checked_mul (count + 1) 8) "string-table offset overflow" in
    let* blob_start := ok_or (u64_checked_add 8 offset_bytes) "string-table header overflow" in
    if (N.of_nat (length bytes) <? blob_start)%N then Err "truncated string-table offsets"
    else
      let blob_start := N.to_nat blob_start in
      let* offsets := outcome_map
        (λ index, let* value := read_u64_at bytes (8 + index * 8) in Ok (N.to_nat value))
        (seq 0 (S (N.to_nat count))) in
      if bool_decide (head offsets ≠ Some 0) || decreasesb offsets ||
         bool_decide (default 0 (last offsets) ≠ length bytes - blob_start)
      then Err "invalid string-table offset directory"
      else
        let table := StringTable_mk section offsets blob_start in
        let* _ := check_sorted table mapping None (seq 0 (st_len table)) in
        Ok table.

(** The loop of [lookup] between [low] and [high]. *)
Fixpoint st_search (fuel : nat) (t : StringTable) (mapping : list u8) (value : string)
    (low high : nat) : option N :=
  match fuel with
  | 0 => None
  | S fuel =>
      if low <? high then
        let middle := low + (high - low) / 2 in
        match st_value t mapping middle with
        | Ok candidate =>
            match cmp candidate value with
            | Lt => st_search fuel t mapping value (middle + 1) high
            | Gt => st_search fuel t mapping value low middle
            | Eq => if (N.of_nat middle <? u32_modulus)%N then Some (N.of_nat middle) else None
            end
        | _ => None
        end
      else None
  end.

Definition st_lookup (t : StringTable) (mapping : list u8) (value : string) : option N :=
  st_search (S (st_len t)) t mapping value 0 (st_len t).

(** The cumulative offsets written after [offset]. *)
Fixpoint table_offsets (offset : N) (values : list string) : list u8 :=
  match values with
  | [] => []
  | value :: values =>
      let offset := u64_add offset (usize_of (length (string_bytes value))) in
      u64_bytes offset ++ table_offsets offset values
  end.

Definition encode_string_table (values : list string) : list u8 :=
  u32_bytes (as_u32 (length values)) ++ u32_bytes 0 ++ u64_bytes 0 ++ table_offsets 0 values ++
  (value ← values; string_bytes value).

(** ** Records, numbers and indexes *)

Fixpoint put_records (output : list u8) (index : nat) (records : list MappedRecord) :
    outcome string (list u8) :=
  match records with
  | [] => Ok output
  | r :: records =>
      let start := index * RECORD_LEN in
      let* output := put_u64 output start (original_id r) in
      let* output := put_u32 output (start + 8) (mr_slot r) in
      let* output := put_u32 output (start + 12) (mr_previous r) in
      let* output := put_u64 output (start + 16) (mr_subject r) in
      let* output := put_u32 output (start + 24) (mr_predicate r) in
      let* output := put_u64 output (start + 32) (mr_object r) in
      put_records output (S index) records
  end.

Definition encode_records (records : list MappedRecord) : outcome string (list u8) :=
  put_records (replicate (length records * RECORD_LEN) x00) 0 records.

Definition encode_u32s (values : list N) : list u8 := value ← values; u32_bytes value.

Fixpoint put_indexes (output : list u8) (index : nat) (entries : list IndexEntry) :
    outcome string (list u8) :=
  match entries with
  | [] => Ok output
  | e :: entries =>
      let start := index * INDEX_ENTRY_LEN in
      let* output := put_u64 output start (ie_first e) in
      let* output := put_u64 output (start + 8) (ie_second e) in
      let* output := put_u64 output (start + 16) (ie_third e) in
      let* output := put_u32 output (start + 24) (ie_record e) in
      put_indexes output (S index) entries
  end.

Definition encode_indexes (entries : list IndexEntry) : outcome string (list u8) :=
  put_indexes (replicate (length entries * INDEX_ENTRY_LEN) x00) 0 entries.

(** ** The history section *)

(** [u32::try_from]. *)
Definition u32_try_from (n : nat) : option N :=
  if (N.of_nat n <? u32_modulus)%N then Some (N.of_nat n) else None.

Definition encode_string (value : string) : outcome string (list u8) :=
  let* len := ok_or (u32_try_from (length (string_bytes value))) "snapshot string too long" in
  Ok (u32_bytes len ++ string_bytes value).

Definition encode_atom (a : Atom) : outcome string (list u8) :=
  match a with
  | AEntity e => Ok ([x00] ++ u64_bytes (entity_value e))
  | ALiteral l => let* s := encode_string (literal_str l) in Ok ([x01] ++ s)
  end.

Definition encode_operation (op : Operation) : outcome string (list u8) :=
  match op with
  | AllocateEntity e => Ok ([x00] ++ u64_bytes (entity_value e))
  | OpDefine slot fact =>
      let* slot := encode_string (slot_str slot) in
      let* subject := encode_atom (fact_subject fact) in
      let* predicate := encode_string (predicate_str (fact_predicate fact)) in
      let* object := encode_atom (fact_object fact) in
      Ok ([x01] ++ slot ++ subject ++ predicate ++ object)
  | OpForget slot => let* slot := encode_string (slot_str slot) in Ok ([x02] ++ slot)
  end.

Definition encode_frame (f : CommitFrame) : outcome string (list u8) :=
  let* count := ok_or (u32_try_from (length (frame_operations f)))
    "snapshot frame has too many operations" in
  let* operations := outcome_map encode_operation (frame_operations f) in
  Ok (u64_bytes (world_value (parent_world f)) ++ u64_bytes (world_value (resulting_world f)) ++
      u64_bytes (parent_version f) ++ u64_bytes (resulting_version f) ++
      u64_bytes (resulting_allocator f) ++ u32_bytes count ++ concat operations).

Definition encode_frames (frames : list CommitFrame) : outcome string (list u8) :=
  let* encoded := outcome_map encode_frame frames in
  Ok (u64_bytes (usize_of (length frames)) ++ concat encoded).

(** [std::io::Cursor<&[u8]>]. *)
Record Cursor := Cursor_mk {
  c_bytes : list u8;
  c_position : nat;
}.

Abbreviation cur A := (Cursor → outcome string (A * Cursor)) (only parsing).

(** [read_exact] into a buffer of [n] bytes. *)
Definition read_exact (n : nat) : cur (list u8) := λ c,
  let* b := ok_or (range (c_bytes c) (c_position c) (c_position c + n))
    "failed to fill whole buffer" in
  Ok (b, Cursor_mk (c_bytes c) (c_position c + n)).

Definition read_cursor_u8 : cur u8 := λ c,
  let* r := read_exact 1 c in
  let* b := or_panic (r.1 !! 0) in Ok (b, r.2).

Definition read_cursor_u32 : cur N := λ c, let* r := read_exact 4 c in Ok (le_N r.1, r.2).

Definition read_cursor_u64 : cur N := λ c, let* r := read_exact 8 c in Ok (le_N r.1, r.2).

Definition read_cursor_string : cur string := λ c,
  let* length := read_cursor_u32 c in
  let c := length.2 in
  let start := N.of_nat (c_position c) in
  let* end_ := ok_or (u64_checked_add start length.1) "mapped history string overflow" in
  let end_ := N.to_nat end_ in
  let* bytes := ok_or (range (c_bytes c) (c_position c) end_) "truncated mapped history string" in
  let* value := ok_or (from_utf8 bytes) "invalid utf-8 sequence" in
  Ok (value, Cursor_mk (c_bytes c) end_).

Definition decode_atom : cur Atom := λ c,
  let* tag := read_cursor_u8 c in
  match Byte.to_N tag.1 with
  | 0%N => let* e := read_cursor_u64 tag.2 in Ok (AEntity (EntityId_new e.1), e.2)
  | 1%N => let* s := read_cursor_string tag.2 in Ok (ALiteral (Literal_new s.1), s.2)
  | _ => Err "unknown mapped history atom"
  end.

Definition decode_operation : cur Operation := λ c,
  let* tag := read_cursor_u8 c in
  match Byte.to_N tag.1 with
  | 0%N => let* e := read_cursor_u64 tag.2 in Ok (AllocateEntity (EntityId_new e.1), e.2)
  | 1%N =>
      let* slot := read_cursor_string tag.2 in
      let* subject := decode_atom slot.2 in
      let* predicate := read_cursor_string subject.2 in
      let* object := decode_atom predicate.2 in
      Ok (OpDefine (SlotId_new slot.1)
            (Fact_new subject.1 (Predicate_new predicate.1) object.1), object.2)
  | 2%N => let* slot := read_cursor_string tag.2 in Ok (OpForget (SlotId_new slot.1), slot.2)
  | _ => Err "unknown mapped history operation"
  end.

(** [for _ in 0..n] over a cursor. *)
Fixpoint cursor_repeat {A} (get : cur A) (n : nat) (c : Cursor) : outcome string (list A * Cursor) :=
  match n with
  | 0 => Ok ([], c)
  | S n =>
      let* x := get c in
      let* xs := cursor_repeat get n x.2 in
      Ok (x.1 :: xs.1, xs.2)
  end.

Definition decode_frame : cur CommitFrame := λ c,
  let* parent_world := read_cursor_u64 c in
  let* resulting_world := read_cursor_u64 parent_world.2 in
  let* parent_version := read_cursor_u64 resulting_world.2 in
  let* resulting_version := read_cursor_u64 parent_version.2 in
  let* resulting_allocator := read_cursor_u64 resulting_version.2 in
  let* operation_count := read_cursor_u32 resulting_allocator.2 in
  let* operations := cursor_repeat decode_operation (N.to_nat operation_count.1) operation_count.2 in
  Ok (CommitFrame_mk (WorldId_new parent_world.1) (WorldId_new resulting_world.1)
        parent_version.1 resulting_version.1 resulting_allocator.1 operations.1, operations.2).

Definition decode_frames (bytes : list u8) : outcome string (list CommitFrame) :=
  let* count := read_cursor_u64 (Cursor_mk bytes 0) in
  let* frames := cursor_repeat decode_frame (N.to_nat count.1) count.2 in
  if decide (c_position frames.2 ≠ length bytes) then Err "trailing mapped history bytes"
  else Ok frames.1.
