(* ===== verification/SnapshotFormatFacts.v ===== *)
(** What the encoders of a mapped snapshot write is what its readers read:
    integers at offsets, string tables, records, indexes and the history. *)
From Stdlib Require Import NArith Lia.
From Stdlib Require Import Strings.Byte.
From stdpp Require Import sorting base gmap list strings option list_monad.
From S2P Require Import Prelude Ord Terms Bytes Query QueryFacts Spec Index Kernel Frames.
From S2P Require Import VmProjection Worlds WorldFacts Codec FileStore MmapFormat StackVm VmEpochs.
From S2P Require Import SnapshotFormat.

Local Open Scope string_scope.
Local Open Scope nat_scope.
Local Open Scope list_scope.

Lemma length_u32_bytes n : length (u32_bytes n) = 4.
Proof. apply length_le_bytes. Qed.

Create Rewrite HintDb snap.
#[export] Hint Rewrite @length_app @length_replicate length_u64_bytes length_u32_bytes @length_drop
  @length_take : snap.

(** ** Results *)

Lemma outcome_map_ok {E A B} (f : A → outcome E B) l k :
  outcome_map f l = Ok k ↔ Forall2 (λ x y, f x = Ok y) l k.
Proof.
  revert k. induction l as [|x l IH]; intros k; simpl.
  - split; [intros [= <-]; constructor|by intros ->%Forall2_nil_inv_l].
  - split.
    + intros (y & Hy & (ys & Hys & [= <-])%outcome_bind_ok)%outcome_bind_ok.
      constructor; [done|]. by apply IH.
    + intros (y & ys & Hy & Hys & ->)%Forall2_cons_inv_l. rewrite Hy. simpl.
      by rewrite (proj2 (IH ys) Hys).
Qed.

Lemma outcome_map_pure {E A B} (f : A → outcome E B) (g : A → B) l :
  (∀ x, x ∈ l → f x = Ok (g x)) → outcome_map f l = Ok (g <$> l).
Proof.
  intros H. apply outcome_map_ok. induction l as [|x l IH]; [constructor|].
  constructor; [apply H; by left|]. apply IH. intros. apply H. by right.
Qed.

(** ** Ranges *)

Lemma range_Some bytes a b x :
  range bytes a b = Some x ↔ a ≤ b ∧ b ≤ length bytes ∧ x = take (b - a) (drop a bytes).
Proof.
  unfold range, slice. destruct (a <=? b) eqn:E; [apply Nat.leb_le in E|apply Nat.leb_gt in E].
  - destruct (_ <=? length bytes) eqn:E2; [apply Nat.leb_le in E2|apply Nat.leb_gt in E2].
    + split; [intros [= <-]; split_and!; [lia|lia|done]|by intros (_ & _ & ->)].
    + split; [done|]. intros (? & ? & _). lia.
  - split; [done|]. lia.
Qed.

(** A range that starts past a prefix does not depend on it. *)
Lemma range_app_r pre bytes a b : length pre ≤ a → a ≤ b →
  range (pre ++ bytes) a b = range bytes (a - length pre) (b - length pre).
Proof.
  intros Ha Hab. unfold range, slice. rewrite length_app, (proj2 (Nat.leb_le a b)) by lia.
  rewrite (proj2 (Nat.leb_le (a - length pre) (b - length pre))) by lia.
  replace (b - length pre - (a - length pre)) with (b - a) by lia.
  assert ((a + (b - a) <=? length pre + length bytes) =
    (a - length pre + (b - a) <=? length bytes)) as ->
    by (destruct (_ <=? _) eqn:E1; destruct (_ <=? length bytes) eqn:E2; try done;
        rewrite ?Nat.leb_le, ?Nat.leb_gt in *; lia).
  by rewrite drop_app_ge by lia.
Qed.

Lemma range_range bytes a b c d x :
  range bytes a b = Some x → c ≤ d → a + d ≤ b → range bytes (a + c) (a + d) = range x c d.
Proof.
  intros (Hab & Hb & ->)%range_Some Hcd Hd.
  destruct (range_in_range bytes (a + c) (a + d)) as [y Hy]; [lia..|]. rewrite Hy.
  apply range_Some in Hy as (_ & _ & ->). symmetry. apply range_Some.
  split_and!; [lia|rewrite length_take, length_drop; lia|].
  rewrite skipn_firstn_comm, take_take, drop_drop.
  replace (a + d - (a + c)) with (d - c) by lia.
  f_equal; lia.
Qed.

Lemma read_u64_at_app pre v post bytes o :
  bytes = pre ++ u64_bytes v ++ post → o = length pre → u64_ok v → read_u64_at bytes o = Ok v.
Proof.
  intros -> -> Hv. unfold read_u64_at.
  rewrite (range_at pre (u64_bytes v) post) by (by rewrite ?length_u64_bytes).
  cbn [ok_or outcome_bind]. by rewrite le_N_u64_bytes.
Qed.

Lemma read_u32_at_app pre v post bytes o :
  bytes = pre ++ u32_bytes v ++ post → o = length pre → u32_ok v → read_u32_at bytes o = Ok v.
Proof.
  intros -> -> Hv. unfold read_u32_at.
  rewrite (range_at pre (u32_bytes v) post) by (by rewrite ?length_u32_bytes).
  cbn [ok_or outcome_bind]. by rewrite le_N_u32_bytes.
Qed.

(** ** Writing over zeros *)

Lemma copy_zeros pre n body o v :
  o = length pre → length v ≤ n →
  copy_from_slice (pre ++ replicate n x00 ++ body) o v =
  Ok ((pre ++ v) ++ replicate (n - length v) x00 ++ body).
Proof.
  intros -> Hn. unfold copy_from_slice. rewrite !length_app, length_replicate.
  rewrite (proj2 (Nat.leb_le _ _)) by lia. f_equal.
  rewrite take_app_length, <- drop_drop, drop_app_length, <- (assoc_L (++)).
  do 2 f_equal. rewrite drop_app_le by (rewrite length_replicate; lia). by rewrite drop_replicate.
Qed.

Lemma put_u64_zeros pre n body o v :
  o = length pre → 8 ≤ n →
  put_u64 (pre ++ replicate n x00 ++ body) o v = Ok ((pre ++ u64_bytes v) ++ replicate (n - 8) x00 ++ body).
Proof. intros -> Hn. unfold put_u64. by rewrite copy_zeros by (by rewrite ?length_u64_bytes). Qed.

Lemma put_u32_zeros pre n body o v :
  o = length pre → 4 ≤ n →
  put_u32 (pre ++ replicate n x00 ++ body) o v = Ok ((pre ++ u32_bytes v) ++ replicate (n - 4) x00 ++ body).
Proof. intros -> Hn. unfold put_u32. by rewrite copy_zeros by (by rewrite ?length_u32_bytes). Qed.

(** Four bytes that stay zero. *)
Lemma zeros_split n k body : k ≤ n →
  replicate n x00 ++ body = replicate k x00 ++ replicate (n - k) x00 ++ body.
Proof. intros H. rewrite (assoc_L (++)), <- replicate_add. f_equal. f_equal. lia. Qed.

Definition record_image (r : MappedRecord) : list u8 :=
  u64_bytes (original_id r) ++ u32_bytes (mr_slot r) ++ u32_bytes (mr_previous r) ++
  u64_bytes (mr_subject r) ++ u32_bytes (mr_predicate r) ++ replicate 4 x00 ++
  u64_bytes (mr_object r) ++ replicate 8 x00.

Definition entry_image (e : IndexEntry) : list u8 :=
  u64_bytes (ie_first e) ++ u64_bytes (ie_second e) ++ u64_bytes (ie_third e) ++
  u32_bytes (ie_record e) ++ replicate 4 x00.

Lemma length_record_image r : length (record_image r) = RECORD_LEN.
Proof. unfold record_image. by autorewrite with snap. Qed.

Lemma length_entry_image e : length (entry_image e) = INDEX_ENTRY_LEN.
Proof. unfold entry_image. by autorewrite with snap. Qed.

Ltac put_step := first [rewrite put_u64_zeros | rewrite put_u32_zeros];
  [|autorewrite with snap; lia|lia]; cbn [outcome_bind Nat.sub].

Lemma put_records_spec rs pre index :
  length pre = index * RECORD_LEN →
  put_records (pre ++ replicate (length rs * RECORD_LEN) x00) index rs =
  Ok (pre ++ (r ← rs; record_image r)).
Proof.
  unfold RECORD_LEN. revert pre index. induction rs as [|r rs IH]; intros pre index Hpre; [done|].
  cbn [put_records length]. change RECORD_LEN with 48.
  rewrite <- (app_nil_r (replicate _ x00)), (zeros_split _ 48) by lia.
  replace (S (length rs) * 48 - 48) with (length rs * 48) by lia. set (tail := replicate _ x00 ++ []).
  do 5 put_step. rewrite (zeros_split 20 4) by lia. rewrite (assoc_L (++) _ (replicate 4 x00)).
  cbn [Nat.sub]. put_step.
  assert (tail = replicate (length rs * 48) x00) as -> by apply app_nil_r.
  rewrite (assoc_L (++) _ (replicate 8 x00)), IH.
  - f_equal. rewrite bind_cons. unfold record_image. by rewrite <- !(assoc_L (++)).
  - autorewrite with snap. lia.
Qed.

Lemma encode_records_spec rs : encode_records rs = Ok (r ← rs; record_image r).
Proof. by apply (put_records_spec rs [] 0). Qed.

Lemma put_indexes_spec es pre index :
  length pre = index * INDEX_ENTRY_LEN →
  put_indexes (pre ++ replicate (length es * INDEX_ENTRY_LEN) x00) index es =
  Ok (pre ++ (e ← es; entry_image e)).
Proof.
  unfold INDEX_ENTRY_LEN. revert pre index. induction es as [|e es IH]; intros pre index Hpre; [done|].
  cbn [put_indexes length]. change INDEX_ENTRY_LEN with 32.
  rewrite <- (app_nil_r (replicate _ x00)), (zeros_split _ 32) by lia.
  replace (S (length es) * 32 - 32) with (length es * 32) by lia. set (tail := replicate _ x00 ++ []).
  do 4 put_step.
  assert (tail = replicate (length es * 32) x00) as -> by apply app_nil_r.
  rewrite (assoc_L (++) _ (replicate 4 x00)), IH.
  - f_equal. rewrite bind_cons. unfold entry_image. by rewrite <- !(assoc_L (++)).
  - autorewrite with snap. lia.
Qed.

Lemma encode_indexes_spec es : encode_indexes es = Ok (e ← es; entry_image e).
Proof. by apply (put_indexes_spec es [] 0). Qed.

(** The [i]-th block of a section of fixed-width blocks. *)
Lemma bind_blocks {A} (f : A → list u8) (n : nat) (l : list A) i x :
  (∀ y, length (f y) = n) → l !! i = Some x →
  ∃ post, (y ← l; f y) = (y ← take i l; f y) ++ f x ++ post ∧ length (y ← take i l; f y) = i * n.
Proof.
  intros Hn Hi. exists (y ← drop (S i) l; f y). split.
  - rewrite <- (take_drop_middle l i x Hi) at 1. by rewrite bind_app, bind_cons.
  - assert (∀ k : list A, length (y ← k; f y) = length k * n) as ->
      by (induction k as [|y k IH]; [done|]; rewrite bind_cons, length_app, Hn, IH; simpl; lia).
    rewrite length_take. apply lookup_lt_Some in Hi. f_equal. lia.
Qed.

Lemma length_bind_blocks {A} (f : A → list u8) (n : nat) (l : list A) :
  (∀ y, length (f y) = n) → length (y ← l; f y) = length l * n.
Proof.
  intros Hn. induction l as [|y l IH]; [done|]. rewrite bind_cons, length_app, Hn, IH. simpl. lia.
Qed.

(** ** Reading records and entries back *)

Record record_ok (r : MappedRecord) : Prop := {
  ro_id : u64_ok (original_id r);
  ro_slot : u32_ok (mr_slot r);
  ro_previous : u32_ok (mr_previous r);
  ro_subject : u64_ok (mr_subject r);
  ro_predicate : u32_ok (mr_predicate r);
  ro_object : u64_ok (mr_object r);
}.

Record entry_ok (e : IndexEntry) : Prop := {
  eo_first : u64_ok (ie_first e);
  eo_second : u64_ok (ie_second e);
  eo_third : u64_ok (ie_third e);
  eo_record : u32_ok (ie_record e);
}.

(** The prefix before the field that is read, given explicitly. *)
Ltac read_at pre post :=
  first [rewrite (read_u64_at_app pre _ post) | rewrite (read_u32_at_app pre _ post)];
  [|unfold record_image, entry_image; by rewrite <- ?(assoc_L (++))
   |by autorewrite with snap|done].

Lemma read_record_image r :
  record_ok r →
  read_u64_at (record_image r) 0 = Ok (original_id r) ∧
  read_u32_at (record_image r) 8 = Ok (mr_slot r) ∧
  read_u32_at (record_image r) 12 = Ok (mr_previous r) ∧
  read_u64_at (record_image r) 16 = Ok (mr_subject r) ∧
  read_u32_at (record_image r) 24 = Ok (mr_predicate r) ∧
  read_u64_at (record_image r) 32 = Ok (mr_object r).
Proof.
  intros []. destruct r as [i s p su pr o]; cbn in *. split_and!.
  - by eapply (read_u64_at_app []); [unfold record_image|..].
  - by eapply (read_u32_at_app (u64_bytes i)); [unfold record_image|..].
  - by eapply (read_u32_at_app (u64_bytes i ++ u32_bytes s));
      [unfold record_image; by rewrite <- !(assoc_L (++))|..].
  - by eapply (read_u64_at_app (u64_bytes i ++ u32_bytes s ++ u32_bytes p));
      [unfold record_image; by rewrite <- !(assoc_L (++))|..].
  - by eapply (read_u32_at_app (u64_bytes i ++ u32_bytes s ++ u32_bytes p ++ u64_bytes su));
      [unfold record_image; by rewrite <- !(assoc_L (++))|..].
  - by eapply (read_u64_at_app (u64_bytes i ++ u32_bytes s ++ u32_bytes p ++ u64_bytes su ++
      u32_bytes pr ++ replicate 4 x00)); [unfold record_image; by rewrite <- !(assoc_L (++))|..].
Qed.

Lemma read_entry_image e :
  entry_ok e →
  read_u64_at (entry_image e) 0 = Ok (ie_first e) ∧
  read_u64_at (entry_image e) 8 = Ok (ie_second e) ∧
  read_u64_at (entry_image e) 16 = Ok (ie_third e) ∧
  read_u32_at (entry_image e) 24 = Ok (ie_record e).
Proof.
  intros []. destruct e as [a b c r]; cbn in *. split_and!.
  - by eapply (read_u64_at_app []); [unfold entry_image|..].
  - by eapply (read_u64_at_app (u64_bytes a)); [unfold entry_image|..].
  - by eapply (read_u64_at_app (u64_bytes a ++ u64_bytes b));
      [unfold entry_image; by rewrite <- !(assoc_L (++))|..].
  - by eapply (read_u32_at_app (u64_bytes a ++ u64_bytes b ++ u64_bytes c));
      [unfold entry_image; by rewrite <- !(assoc_L (++))|..].
Qed.

(** ** String tables *)

Abbreviation str_lt := (λ x y : string, cmp x y = Lt) (only parsing).

Definition strictly_sorted (values : list string) : Prop := StronglySorted str_lt values.

Fixpoint offsets_from (o : nat) (values : list string) : list nat :=
  o :: match values with
       | [] => []
       | v :: values => offsets_from (o + length (string_bytes v)) values
       end.

Definition table_blob (values : list string) : list u8 := v ← values; string_bytes v.

Lemma length_offsets_from o values : length (offsets_from o values) = S (length values).
Proof. revert o. induction values as [|v values IH]; intros o; simpl; [done|]. by rewrite IH. Qed.

Lemma last_offsets_from o values :
  last (offsets_from o values) = Some (o + length (table_blob values)).
Proof.
  revert o. induction values as [|v values IH]; intros o; cbn [offsets_from].
  - unfold table_blob. simpl. f_equal. lia.
  - rewrite last_cons, IH. unfold table_blob. rewrite bind_cons, length_app. f_equal. lia.
Qed.

Lemma offsets_from_lookup o values i v :
  values !! i = Some v →
  offsets_from o values !! i = Some (o + length (table_blob (take i values))) ∧
  offsets_from o values !! (i + 1) =
    Some (o + length (table_blob (take i values)) + length (string_bytes v)).
Proof.
  revert o i. induction values as [|w values IH]; intros o i Hi; [done|].
  destruct i as [|i]; cbn [offsets_from take].
  - injection Hi as ->. split; simpl; [by rewrite Nat.add_0_r|].
    destruct values; simpl; f_equal; lia.
  - destruct (IH (o + length (string_bytes w)) i Hi) as [H1 H2].
    unfold table_blob in *. rewrite bind_cons, length_app.
    split; [etrans; [exact H1|]|etrans; [exact H2|]]; f_equal; lia.
Qed.

Lemma offsets_from_increase o values : decreasesb (offsets_from o values) = false.
Proof.
  revert o. induction values as [|v values IH]; intros o; [done|].
  specialize (IH (o + length (string_bytes v))). cbn [offsets_from] in *.
  destruct values as [|w values]; cbn [offsets_from decreasesb] in *;
    (apply orb_false_iff; split; [apply Nat.ltb_ge; lia|done]).
Qed.

Lemma table_offsets_spec o values :
  u64_ok (N.of_nat (o + length (table_blob values))) →
  u64_bytes (N.of_nat o) ++ table_offsets (N.of_nat o) values =
  (x ← offsets_from o values; u64_bytes (N.of_nat x)).
Proof.
  revert o. induction values as [|v values IH]; intros o Ho; [done|].
  cbn [table_offsets offsets_from]. rewrite bind_cons. f_equal.
  unfold table_blob in Ho. rewrite bind_cons, length_app in Ho. unfold u64_ok in Ho.
  assert (u64_add (N.of_nat o) (usize_of (length (string_bytes v))) =
    N.of_nat (o + length (string_bytes v))) as ->.
  { unfold u64_add, usize_of. rewrite u64_wrap_add_r, Nat2N.inj_add.
    apply u64_wrap_small. unfold u64_ok. lia. }
  apply IH. unfold u64_ok, table_blob. lia.
Qed.

(** A table of the given values. *)
Record table_shows (t : StringTable) (mapping : list u8) (values : list string) : Prop := {
  ts_len : st_len t = length values;
  ts_value i v : values !! i = Some v → st_value t mapping i = Ok v;
  ts_none i : length values ≤ i → ∃ e, st_value t mapping i = Err e;
}.

Lemma encode_string_table_spec values :
  u64_ok (N.of_nat (length (table_blob values))) →
  encode_string_table values =
  (u32_bytes (as_u32 (length values)) ++ u32_bytes 0) ++
  (x ← offsets_from 0 values; u64_bytes (N.of_nat x)) ++ table_blob values.
Proof.
  intros H. unfold encode_string_table. rewrite <- (table_offsets_spec 0 values H).
  change (N.of_nat 0) with 0%N. by rewrite <- !(assoc_L (++)).
Qed.

Lemma as_u32_exact n : u32_ok (N.of_nat n) → as_u32 n = N.of_nat n.
Proof. intros H. unfold as_u32. by apply N.mod_small. Qed.

Lemma check_sorted_ok t mapping values previous i :
  (∀ j v, values !! j = Some v → st_value t mapping (i + j) = Ok v) →
  strictly_sorted values →
  (∀ p v, previous = Some p → v ∈ values → cmp p v = Lt) →
  check_sorted t mapping previous (seq i (length values)) = Ok tt.
Proof.
  revert previous i. induction values as [|v values IH]; intros previous i Hv Hs Hp; [done|].
  cbn [length seq check_sorted]. pose proof (Hv 0 v eq_refl) as Hv0. rewrite Nat.add_0_r in Hv0.
  rewrite Hv0. cbn [outcome_bind]. apply StronglySorted_cons in Hs as [Hall Hs].
  assert (match previous with
    | Some prior => match cmp prior v with Lt => false | _ => true end
    | None => false
    end = false) as ->.
  { destruct previous as [p|]; [|done]. by rewrite (Hp p v eq_refl ltac:(by left)). }
  apply IH; [|done|].
  - intros j w Hj. replace (S i + j) with (i + S j) by lia. by apply (Hv (S j)).
  - intros p w [= <-] Hw. by eapply Forall_forall in Hall.
Qed.

Lemma offsets_from_ok o values i y :
  u64_ok (N.of_nat (o + length (table_blob values))) → offsets_from o values !! i = Some y →
  u64_ok (N.of_nat y).
Proof.
  revert o i. induction values as [|v values IH]; intros o i Ho Hi; cbn [offsets_from] in Hi.
  - apply list_lookup_singleton_Some in Hi as [_ <-]. unfold u64_ok in *. lia.
  - unfold table_blob in Ho. rewrite bind_cons, length_app in Ho. destruct i as [|i].
    + injection Hi as <-. unfold u64_ok in *. lia.
    + apply (IH (o + length (string_bytes v)) i); [|done]. unfold u64_ok, table_blob in *. lia.
Qed.

(** The offset directory behind a header of eight bytes. *)
Lemma read_offsets hd values rest :
  length hd = 8 → u64_ok (N.of_nat (length (table_blob values))) →
  outcome_map (λ index,
    let* value := read_u64_at (hd ++ (x ← offsets_from 0 values; u64_bytes (N.of_nat x)) ++ rest)
      (8 + index * 8) in Ok (N.to_nat value)) (seq 0 (S (length values))) =
  Ok (offsets_from 0 values).
Proof.
  intros Hhd Hu. apply outcome_map_ok, Forall2_same_length_lookup.
  rewrite length_seq, length_offsets_from. split; [done|].
  intros i x y [Hx Hi]%lookup_seq Hy. subst x. cbn [Nat.add].
  destruct (bind_blocks (λ x, u64_bytes (N.of_nat x)) 8 _ _ _ (λ z, length_u64_bytes _) Hy)
    as (post & Hp & Hl).
  rewrite (read_u64_at_app (hd ++ (x ← take i (offsets_from 0 values); u64_bytes (N.of_nat x)))
    (N.of_nat y) (post ++ rest)).
  - cbn [outcome_bind]. by rewrite Nat2N.id.
  - rewrite Hp. by rewrite <- !(assoc_L (++)).
  - rewrite length_app. lia.
  - by apply (offsets_from_ok 0 values i).
Qed.

(** A table whose directory and blob lie behind a prefix of its section. *)
Lemma table_shows_at mapping start end_ pre values :
  range mapping start end_ = Some (pre ++ table_blob values) → Forall string_ok values →
  table_shows (StringTable_mk (start, end_) (offsets_from 0 values) (length pre)) mapping values.
Proof.
  intros Hr Hok. split.
  - unfold st_len. cbn [st_offsets]. rewrite length_offsets_from. simpl. lia.
  - intros i v Hv. destruct (offsets_from_lookup 0 values i v Hv) as [H1 H2].
    unfold st_value. cbn [st_offsets st_section st_blob_start fst]. rewrite H1, H2.
    cbn [ok_or outcome_bind].
    assert (table_blob values = table_blob (take i values) ++ string_bytes v ++
      table_blob (drop (S i) values)) as Hblob.
    { rewrite <- (take_drop_middle values i v Hv) at 1. unfold table_blob.
      by rewrite bind_app, bind_cons. }
    rewrite Hblob in Hr. pose proof (proj1 (range_Some _ _ _ _) Hr) as (Hse & Hem & Heq).
    apply (f_equal length) in Heq. rewrite !length_app, length_take, length_drop in Heq.
    replace (start + length pre + (0 + length (table_blob (take i values)))) with
      (start + (length pre + length (table_blob (take i values)))) by lia.
    replace (start + length pre + (0 + length (table_blob (take i values)) + length (string_bytes v)))
      with (start + (length pre + length (table_blob (take i values)) + length (string_bytes v))) by lia.
    rewrite (range_range mapping start end_ _ _ _ Hr) by lia.
    rewrite (range_at (pre ++ table_blob (take i values)) (string_bytes v)
      (table_blob (drop (S i) values))); [|by rewrite <- !(assoc_L (++))
      |rewrite !length_app; lia|rewrite !length_app; lia].
    cbn [ok_or outcome_bind]. rewrite from_utf8_bytes; [done|]. by eapply Forall_lookup in Hv.
  - intros i Hi. unfold st_value. cbn [st_offsets].
    destruct (offsets_from 0 values !! i); cbn [ok_or outcome_bind]; [|by eexists].
    rewrite (lookup_ge_None_2 (offsets_from 0 values) (i + 1))
      by (rewrite length_offsets_from; lia). by eexists.
Qed.

(** Parsing what was encoded. *)
Lemma st_parse_encoded mapping start end_ values :
  range mapping start end_ = Some (encode_string_table values) →
  u32_ok (N.of_nat (length values)) → u64_ok (N.of_nat (length (table_blob values))) →
  Forall string_ok values → strictly_sorted values →
  ∃ t, st_parse mapping (start, end_) = Ok t ∧ table_shows t mapping values.
Proof.
  intros Hr Hc Hu Hok Hs. unfold st_parse. cbn [fst snd]. rewrite Hr. cbn [ok_or outcome_bind].
  rewrite (encode_string_table_spec values Hu) in Hr |- *.
  set (hd := u32_bytes (as_u32 (length values)) ++ u32_bytes 0) in *.
  set (offs := x ← offsets_from 0 values; u64_bytes (N.of_nat x)) in *.
  assert (length hd = 8) as Hhd by (unfold hd; by autorewrite with snap).
  assert (length offs = S (length values) * 8) as Hoffs.
  { unfold offs. rewrite (length_bind_blocks (λ x, u64_bytes (N.of_nat x)) 8), length_offsets_from;
      [done|]. intros y. apply length_u64_bytes. }
  assert (length (hd ++ offs ++ table_blob values) =
    8 + S (length values) * 8 + length (table_blob values)) as Hlen by (rewrite !length_app; lia).
  rewrite Hlen. rewrite (proj2 (Nat.ltb_ge _ _)) by lia.
  rewrite (read_u32_at_app [] (as_u32 (length values)) (u32_bytes 0 ++ offs ++ table_blob values));
    [|unfold hd; by rewrite <- !(assoc_L (++))|done|by rewrite as_u32_exact].
  rewrite as_u32_exact by done. cbn [outcome_bind]. unfold u32_ok, u32_modulus in Hc.
  unfold usize_checked_mul. rewrite (proj2 (N.ltb_lt _ _)) by (unfold u64_modulus; lia).
  cbn [ok_or outcome_bind]. unfold u64_checked_add.
  rewrite (proj2 (N.ltb_lt _ _)) by (unfold u64_modulus; lia). cbn [ok_or outcome_bind].
  rewrite (proj2 (N.ltb_ge _ _)) by lia.
  assert (N.to_nat (8 + (N.of_nat (length values) + 1) * 8) = 8 + S (length values) * 8) as -> by lia.
  pose proof (read_offsets hd values (table_blob values) Hhd Hu) as Hro. fold offs in Hro.
  rewrite Nat2N.id, Hro. cbn [outcome_bind].
  assert (hd_error (offsets_from 0 values) = Some 0) as -> by (by destruct values).
  rewrite last_offsets_from. cbn [default].
  rewrite bool_decide_false by (intros Hne; by apply Hne).
  rewrite offsets_from_increase. rewrite bool_decide_false by (intros Hne; apply Hne; simpl; lia).
  cbn [orb]. rewrite (assoc_L (++)) in Hr.
  assert (length (hd ++ offs) = 8 + S (length values) * 8) as <- by (rewrite length_app; lia).
  pose proof (table_shows_at _ _ _ _ _ Hr Hok) as Ht. eexists. split; [|exact Ht].
  rewrite (ts_len _ _ _ Ht).
  by rewrite check_sorted_ok by (done || (intros j v Hj; by apply (ts_value _ _ _ Ht))).
Qed.

(** ** Looking a string up *)

Lemma strictly_sorted_lt values i j v w :
  strictly_sorted values → values !! i = Some v → values !! j = Some w → i < j → cmp v w = Lt.
Proof.
  revert i j. induction values as [|x values IH]; intros i j Hs Hi Hj Hij; [done|].
  apply StronglySorted_cons in Hs as [Hall Hs]. destruct j as [|j]; [lia|]. destruct i as [|i].
  - injection Hi as ->. eapply Forall_lookup in Hall; [exact Hall|exact Hj].
  - by apply (IH i j); [|..|lia].
Qed.

#[local] Opaque Nat.div.

Lemma st_search_sound fuel t mapping value low high token :
  st_search fuel t mapping value low high = Some token →
  st_value t mapping (N.to_nat token) = Ok value ∧ low ≤ N.to_nat token < high ∧ u32_ok token.
Proof.
  revert low high. induction fuel as [|fuel IH]; intros low high; cbn [st_search]; [done|].
  destruct (low <? high) eqn:E; [|done]. apply Nat.ltb_lt in E.
  pose proof (Nat.div_lt (high - low) 2 ltac:(lia) ltac:(lia)).
  destruct (st_value t mapping (low + (high - low) / 2)) as [c|e|] eqn:Hv; [|done..].
  destruct (cmp c value) eqn:Hc.
  - destruct (_ <? u32_modulus)%N eqn:Hu; [|done]. intros [= <-]. rewrite Nat2N.id.
    apply cmp_eq in Hc as ->. apply N.ltb_lt in Hu. split_and!; [done|lia|lia|done].
  - intros (H1 & H2 & H3)%IH. split_and!; [done|lia|lia|done].
  - intros (H1 & H2 & H3)%IH. split_and!; [done|lia|lia|done].
Qed.

(** What is found is the string that was asked for, whatever the table. *)
Lemma st_lookup_sound t mapping value token :
  st_lookup t mapping value = Some token →
  st_value t mapping (N.to_nat token) = Ok value ∧ N.to_nat token < st_len t ∧ u32_ok token.
Proof. intros (H1 & H2 & H3)%st_search_sound. split_and!; [done|lia|done]. Qed.

Lemma st_search_complete fuel t mapping values i value low high :
  table_shows t mapping values → strictly_sorted values → u32_ok (N.of_nat (length values)) →
  values !! i = Some value → low ≤ i < high → high ≤ length values → high - low < fuel →
  st_search fuel t mapping value low high = Some (N.of_nat i).
Proof.
  intros Ht Hs Hu Hi. revert low high. induction fuel as [|fuel IH]; intros low high Hlh Hh Hf; [lia|].
  cbn [st_search]. rewrite (proj2 (Nat.ltb_lt _ _)) by lia.
  pose proof (Nat.div_lt (high - low) 2 ltac:(lia) ltac:(lia)).
  set (middle := low + (high - low) / 2).
  destruct (lookup_lt_is_Some_2 values middle) as [c Hc]; [lia|].
  rewrite (ts_value _ _ _ Ht _ _ Hc). destruct (decide (middle = i)) as [->|Hne].
  - rewrite Hi in Hc. injection Hc as ->. rewrite cmp_refl.
    unfold u32_ok in Hu. by rewrite (proj2 (N.ltb_lt _ _)) by lia.
  - destruct (decide (middle < i)).
    + rewrite (strictly_sorted_lt _ _ _ _ _ Hs Hc Hi) by done. apply IH; lia.
    + assert (cmp value c = Lt) as Hlt by (eapply (strictly_sorted_lt values i middle); [done..|lia]).
      apply cmp_gt in Hlt. rewrite Hlt. apply IH; lia.
Qed.

Lemma st_lookup_spec t mapping values value token :
  table_shows t mapping values → strictly_sorted values → u32_ok (N.of_nat (length values)) →
  st_lookup t mapping value = Some token ↔ values !! N.to_nat token = Some value.
Proof.
  intros Ht Hs Hu. split.
  - intros (H1 & H2 & _)%st_lookup_sound. rewrite (ts_len _ _ _ Ht) in H2.
    destruct (lookup_lt_is_Some_2 _ _ H2) as [v Hv]. rewrite (ts_value _ _ _ Ht _ _ Hv) in H1.
    by injection H1 as ->.
  - intros Hi. unfold st_lookup. rewrite (ts_len _ _ _ Ht).
    pose proof (lookup_lt_Some _ _ _ Hi).
    rewrite (st_search_complete _ t mapping values (N.to_nat token) value); try done; [|lia..].
    by rewrite N2Nat.id.
Qed.

(** ** The history section *)

#[local] Opaque u32_bytes u64_bytes le_bytes.

(** A cursor over a section whose remaining bytes are [rest]. *)
Record cursor_at (section : list u8) (c : Cursor) (rest : list u8) : Prop := {
  ca_bytes : c_bytes c = section;
  ca_position : c_position c ≤ length section;
  ca_rest : drop (c_position c) section = rest;
  ca_small : u64_ok (N.of_nat (length section));
}.

Definition creads {A} (get : cur A) (bytes : list u8) (x : A) : Prop :=
  ∀ section c rest, cursor_at section c (bytes ++ rest) →
    ∃ c', get c = Ok (x, c') ∧ cursor_at section c' rest.

Lemma cursor_range section c bytes rest n :
  cursor_at section c (bytes ++ rest) → n = length bytes →
  range section (c_position c) (c_position c + n) = Some bytes ∧
  cursor_at section (Cursor_mk section (c_position c + n)) rest.
Proof.
  intros [Hb Hp Hr Hs] ->. assert (length bytes + length rest = length section - c_position c) as Hl
    by (rewrite <- length_app, <- Hr, length_drop; done).
  split.
  - apply range_Some. split_and!; [lia|lia|]. rewrite Hr.
    replace (c_position c + length bytes - c_position c) with (length bytes) by lia.
    by rewrite take_app_length.
  - split; cbn; [done|lia| |done]. rewrite <- drop_drop, Hr. apply drop_app_length.
Qed.

Lemma read_exact_reads bytes n : n = length bytes → creads (read_exact n) bytes bytes.
Proof.
  intros -> section c rest Hc. destruct (cursor_range _ _ _ _ _ Hc eq_refl) as [Hr Hc'].
  unfold read_exact. rewrite (ca_bytes _ _ _ Hc), Hr. cbn [ok_or outcome_bind]. eauto.
Qed.

Lemma read_u8_reads b : creads read_cursor_u8 [b] b.
Proof.
  intros section c rest Hc. unfold read_cursor_u8.
  destruct (read_exact_reads [b] 1 eq_refl section c rest Hc) as (c' & -> & Hc'). cbn. eauto.
Qed.

Lemma read_u32_reads v : u32_ok v → creads read_cursor_u32 (u32_bytes v) v.
Proof.
  intros Hv section c rest Hc. unfold read_cursor_u32.
  destruct (read_exact_reads (u32_bytes v) 4 eq_refl section c rest Hc) as (c' & -> & Hc').
  cbn [outcome_bind fst snd]. rewrite le_N_u32_bytes by done. eauto.
Qed.

Lemma read_u64_reads v : u64_ok v → creads read_cursor_u64 (u64_bytes v) v.
Proof.
  intros Hv section c rest Hc. unfold read_cursor_u64.
  destruct (read_exact_reads (u64_bytes v) 8 eq_refl section c rest Hc) as (c' & -> & Hc').
  cbn [outcome_bind fst snd]. rewrite le_N_u64_bytes by done. eauto.
Qed.

Lemma u32_try_from_Some n v : u32_try_from n = Some v ↔ v = N.of_nat n ∧ u32_ok v.
Proof.
  unfold u32_try_from, u32_ok. destruct (_ <? _)%N eqn:E.
  - apply N.ltb_lt in E. naive_solver.
  - apply N.ltb_ge in E. split; [done|]. intros [-> ?]. lia.
Qed.

Lemma encode_string_reads s bytes :
  string_ok s → encode_string s = Ok bytes → creads read_cursor_string bytes s.
Proof.
  intros Hs He section c rest Hc. unfold encode_string in He.
  destruct (u32_try_from _) as [n|] eqn:Hn; [|done]. injection He as <-.
  apply u32_try_from_Some in Hn as [-> Hu]. rewrite <- (assoc_L (++)) in Hc.
  unfold read_cursor_string.
  destruct (read_u32_reads _ Hu section c _ Hc) as (c' & -> & Hc'). cbn [outcome_bind fst snd].
  destruct (cursor_range _ _ _ _ _ Hc' eq_refl) as [Hr Hc''].
  pose proof (ca_position _ _ _ Hc'') as Hp. cbn [c_position] in Hp.
  pose proof (ca_small _ _ _ Hc') as Hsm. unfold u64_ok in Hsm.
  unfold u64_checked_add. rewrite (proj2 (N.ltb_lt _ _)) by lia. cbn [ok_or outcome_bind].
  assert (N.to_nat (N.of_nat (c_position c') + N.of_nat (length (string_bytes s))) =
    c_position c' + length (string_bytes s)) as -> by lia.
  rewrite (ca_bytes _ _ _ Hc'), Hr. cbn [ok_or outcome_bind].
  rewrite from_utf8_bytes by done. cbn [ok_or outcome_bind]. eauto.
Qed.

(** Flattens what a cursor is about to read. *)
Ltac cursor_norm H := cbn [app] in H; rewrite <- ?(assoc_L (++)) in H.

Lemma encode_atom_reads a bytes :
  atom_wf a → encode_atom a = Ok bytes → creads decode_atom bytes a.
Proof.
  intros Ha He section c rest Hc. unfold decode_atom. destruct a as [[v]|[s]]; cbn in He.
  - injection He as <-. cursor_norm Hc.
    destruct (read_u8_reads _ _ c _ Hc) as (c1 & -> & Hc1). cbn [outcome_bind fst snd].
    destruct (read_u64_reads v Ha _ _ _ Hc1) as (c2 & -> & Hc2). cbn [outcome_bind fst snd]. eauto.
  - destruct (encode_string s) as [b|e|] eqn:Hs; [|done..]. injection He as <-.
    cursor_norm Hc.
    destruct (read_u8_reads _ _ c _ Hc) as (c1 & -> & Hc1). cbn [outcome_bind fst snd].
    destruct (encode_string_reads s b (proj1 Ha) Hs _ _ _ Hc1) as (c2 & -> & Hc2).
    cbn [outcome_bind fst snd]. eauto.
Qed.

Lemma encode_operation_reads op bytes :
  operation_wf op → encode_operation op = Ok bytes → creads decode_operation bytes op.
Proof.
  intros Hop He section c rest Hc. unfold decode_operation.
  destruct op as [[v]|[s] [fs [p] fo]|[s]]; cbn in He, Hop.
  - injection He as <-. cursor_norm Hc.
    destruct (read_u8_reads _ _ c _ Hc) as (c1 & -> & Hc1). cbn [outcome_bind fst snd].
    destruct (read_u64_reads v Hop _ _ _ Hc1) as (c2 & -> & Hc2). cbn [outcome_bind fst snd]. eauto.
  - destruct Hop as ([H1 _] & H3 & [H4 _] & H6). cbn in *.
    destruct (encode_string s) as [b1|e|] eqn:E1; [|done..]. cbn [outcome_bind] in He.
    destruct (encode_atom fs) as [b2|e|] eqn:E2; [|done..]. cbn [outcome_bind] in He.
    destruct (encode_string p) as [b3|e|] eqn:E3; [|done..]. cbn [outcome_bind] in He.
    destruct (encode_atom fo) as [b4|e|] eqn:E4; [|done..]. cbn [outcome_bind] in He. injection He as <-.
    cursor_norm Hc.
    destruct (read_u8_reads _ _ c _ Hc) as (c1 & -> & Hc1). cbn [outcome_bind fst snd].
    destruct (encode_string_reads s b1 H1 E1 _ _ _ Hc1) as (c2 & -> & Hc2). cbn [outcome_bind fst snd].
    destruct (encode_atom_reads fs b2 H3 E2 _ _ _ Hc2) as (c3 & -> & Hc3). cbn [outcome_bind fst snd].
    destruct (encode_string_reads p b3 H4 E3 _ _ _ Hc3) as (c4 & -> & Hc4). cbn [outcome_bind fst snd].
    destruct (encode_atom_reads fo b4 H6 E4 _ _ _ Hc4) as (c5 & -> & Hc5). cbn [outcome_bind fst snd].
    eauto.
  - destruct (encode_string s) as [b|e|] eqn:Hs; [|done..]. injection He as <-.
    cursor_norm Hc.
    destruct (read_u8_reads _ _ c _ Hc) as (c1 & -> & Hc1). cbn [outcome_bind fst snd].
    destruct (encode_string_reads s b (proj1 Hop) Hs _ _ _ Hc1) as (c2 & -> & Hc2).
    cbn [outcome_bind fst snd]. eauto.
Qed.

Lemma cursor_repeat_reads {A} (get : cur A) l bs :
  Forall2 (λ x b, creads get b x) l bs → creads (cursor_repeat get (length l)) (concat bs) l.
Proof.
  induction 1 as [|x b l bs Hx Hl IH]; intros section c rest Hc; cbn [length cursor_repeat].
  - by exists c.
  - cbn [concat] in Hc. rewrite <- (assoc_L (++)) in Hc.
    destruct (Hx _ _ _ Hc) as (c1 & -> & Hc1). cbn [outcome_bind fst snd].
    destruct (IH _ _ _ Hc1) as (c2 & -> & Hc2). cbn [outcome_bind fst snd]. eauto.
Qed.

Lemma encode_frame_reads f bytes :
  frame_wf f → encode_frame f = Ok bytes → creads decode_frame bytes f.
Proof.
  intros (H1 & H2 & H3 & H4 & H5 & Hops) He section c rest Hc. unfold encode_frame in He.
  destruct (u32_try_from _) as [n|] eqn:Hn; [|done]. apply u32_try_from_Some in Hn as [-> Hu].
  cbn [ok_or outcome_bind] in He.
  destruct (outcome_map encode_operation _) as [bs|e|] eqn:Hm; [|done..]. injection He as <-.
  rewrite <- !(assoc_L (++)) in Hc. unfold decode_frame.
  destruct (read_u64_reads _ H1 _ _ _ Hc) as (c1 & -> & Hc1). cbn [outcome_bind fst snd].
  destruct (read_u64_reads _ H2 _ _ _ Hc1) as (c2 & -> & Hc2). cbn [outcome_bind fst snd].
  destruct (read_u64_reads _ H3 _ _ _ Hc2) as (c3 & -> & Hc3). cbn [outcome_bind fst snd].
  destruct (read_u64_reads _ H4 _ _ _ Hc3) as (c4 & -> & Hc4). cbn [outcome_bind fst snd].
  destruct (read_u64_reads _ H5 _ _ _ Hc4) as (c5 & -> & Hc5). cbn [outcome_bind fst snd].
  destruct (read_u32_reads _ Hu _ _ _ Hc5) as (c6 & -> & Hc6). cbn [outcome_bind fst snd].
  rewrite Nat2N.id. apply outcome_map_ok in Hm.
  destruct (cursor_repeat_reads decode_operation (frame_operations f) bs) with (2 := Hc6)
    as (c7 & -> & Hc7).
  - clear -Hm Hops. induction Hm; [constructor|]. apply Forall_cons in Hops as [Hop Hops].
    constructor; [by apply encode_operation_reads|by apply IHHm].
  - cbn [outcome_bind fst snd]. exists c7. split; [|done]. by destruct f as [[] [] ? ? ? ?].
Qed.

(** Every history that can be written is read back. *)
Lemma decode_encode_frames fs bytes :
  Forall frame_wf fs → encode_frames fs = Ok bytes → u64_ok (N.of_nat (length bytes)) →
  decode_frames bytes = Ok fs.
Proof.
  intros Hwf He Hu. unfold encode_frames in He.
  destruct (outcome_map encode_frame fs) as [bs|e|] eqn:Hm; [|done..].
  injection He as <-. apply outcome_map_ok in Hm.
  assert (length fs ≤ length (concat bs)) as Hlen.
  { clear -Hm. induction Hm as [|f b fs bs Hb _ IH]; [simpl; lia|]. unfold encode_frame in Hb.
    destruct (u32_try_from _); [|done]. cbn in Hb. destruct (outcome_map _ _); [|done..].
    injection Hb as <-. cbn [concat length]. rewrite !length_app, length_u64_bytes. lia. }
  rewrite length_app, length_u64_bytes in Hu. unfold u64_ok in Hu.
  assert (usize_of (length fs) = N.of_nat (length fs)) as Hn
    by (apply u64_wrap_small; unfold u64_ok; lia).
  unfold decode_frames. rewrite Hn in *. set (section := u64_bytes _ ++ concat bs).
  assert (cursor_at section (Cursor_mk section 0)
    (u64_bytes (N.of_nat (length fs)) ++ concat bs ++ [])) as Hc.
  { split; cbn; [done|lia| |unfold section, u64_ok; rewrite length_app, length_u64_bytes; done].
    by rewrite app_nil_r. }
  assert (u64_ok (N.of_nat (length fs))) as Hnu by (unfold u64_ok; lia).
  destruct (read_u64_reads _ Hnu _ _ _ Hc) as (c1 & -> & Hc1).
  cbn [outcome_bind fst snd]. rewrite Nat2N.id.
  destruct (cursor_repeat_reads decode_frame fs bs) with (2 := Hc1) as (c2 & -> & Hc2).
  - clear -Hm Hwf. induction Hm; [constructor|]. apply Forall_cons in Hwf as [Hf Hwf].
    constructor; [by apply encode_frame_reads|by apply IHHm].
  - cbn [outcome_bind fst snd]. destruct Hc2 as [_ Hp Hr _].
    apply (f_equal length) in Hr. rewrite length_drop in Hr. simpl in Hr.
    by rewrite decide_False by (intros Hne; apply Hne; lia).
Qed.
