(* ===== verification/MmapSnapshot.v ===== *)
(** Memory-mapped VM snapshots (forthdb-world/src/mmap_vm_snapshot.rs): writing
    the image of a world and its query projection, opening it with its checks,
    and answering from the mapped bytes.

    [bytes] and [mapping] are the content of the snapshot file; [journal] is the
    content of the journal it belongs to.  The fact cache and the cache of the
    decoded history hold values that are functions of the mapping, so they do
    not show.  [Panic], and [None] in a query, is a panic. *)
From Stdlib Require Import NArith Lia.
From stdpp Require Import sorting base gmap list strings option list_monad.
From S2P Require Import Prelude Ord Terms Bytes Query QueryFacts QueryOrder Spec Index Kernel Frames.
From S2P Require Import VmProjection Worlds WorldFacts Codec FileStore MmapFormat StackVm VmEpochs.
From S2P Require Import SnapshotFormat.

Local Open Scope string_scope.
Local Open Scope nat_scope.
Local Open Scope list_scope.

Record MmapSnapshotMetadata := MmapSnapshotMetadata_mk {
  md_epoch_count : N;
  md_journal_offset : N;
  md_snapshot_bytes : N;
  md_world_id : WorldId;
  md_world_version : N;
}.

(** ** Building the image *)

(** Iterating a [BTreeSet<String>] filled from a list. *)
Definition btree_strings (l : list string) : list string :=
  ord_sort (elements (list_to_set l : gset string)).

Definition collect_atom_string (a : Atom) : list string :=
  match a with ALiteral l => [literal_str l] | AEntity _ => [] end.

(** [names.iter().enumerate().map(...).collect::<BTreeMap<_, _>>()]. *)
Definition token_map (names : list string) : gmap string N :=
  list_to_map (imap (λ i value, (value, as_u32 i)) names).

Definition atom_cell (a : Atom) (literals : gmap string N) : outcome string N :=
  match a with
  | AEntity e =>
      if (entity_value e <? VM_LITERAL_BASE)%N then Ok (entity_value e)
      else Err "entity overlaps physical snapshot literal namespace"
  | ALiteral l =>
      let* token := ok_or (literals !! literal_str l)
        "literal is missing from physical snapshot dictionary" in
      Ok (VM_LITERAL_BASE + token)%N
  end.

(** The body of [for entry in stack]: the records and [previous]. *)
Definition push_record (predicates literals : gmap string N) (token : N)
    (st : list MappedRecord * N) (e : ProjectedFact) : outcome string (list MappedRecord * N) :=
  let '(records, previous) := st in
  let index := as_u32 (length records) in
  let* subject := atom_cell (fact_subject (pf_fact e)) literals in
  let* predicate := or_panic (predicates !! predicate_str (fact_predicate (pf_fact e))) in
  let* object := atom_cell (fact_object (pf_fact e)) literals in
  Ok (records ++ [MappedRecord_mk (usize_of (pf_record_id e)) token previous subject predicate object],
      index).

(** The body of [for slot_name in &slot_names]: the records and the heads. *)
Definition push_slot (definitions : gmap SlotId (list ProjectedFact))
    (slots predicates literals : gmap string N) (st : list MappedRecord * list N)
    (slot_name : string) : outcome string (list MappedRecord * list N) :=
  let '(records, heads) := st in
  let* token := or_panic (slots !! slot_name) in
  let* st := match definitions !! SlotId_new slot_name with
    | Some stack => outcome_fold (push_record predicates literals token) stack (records, NONE)
    | None => Ok (records, NONE)
    end in
  if N.to_nat token <? length heads then Ok (st.1, <[N.to_nat token := st.2]> heads) else Panic.

Definition first_le (x y : N * N) : Prop := (x.1 <= y.1)%N.

#[export] Instance first_le_dec : RelDecision first_le.
Proof. intros x y. unfold first_le. apply _. Defined.

(** [active.sort_unstable_by_key(|record| records[*record].original_id)]; record
    ids are distinct, so that stability does not show. *)
Definition sort_active (records : list MappedRecord) (active : list N) : outcome string (list N) :=
  let* keyed := outcome_map
    (λ record, let* r := or_panic (records !! N.to_nat record) in Ok (original_id r, record)) active in
  Ok (merge_sort first_le keyed).*2.

Definition spo_entry (record : N) (fact : MappedRecord) : IndexEntry :=
  IndexEntry_mk (mr_subject fact) (mr_predicate fact) (mr_object fact) record.
Definition pos_entry (record : N) (fact : MappedRecord) : IndexEntry :=
  IndexEntry_mk (mr_predicate fact) (mr_object fact) (mr_subject fact) record.
Definition osp_entry (record : N) (fact : MappedRecord) : IndexEntry :=
  IndexEntry_mk (mr_object fact) (mr_subject fact) (mr_predicate fact) record.

Definition entry_key (e : IndexEntry) : N * N * N := (ie_first e, ie_second e, ie_third e).

(** The comparison [order]: an entry with the id of its record. *)
Definition entry_le (x y : IndexEntry * N) : Prop :=
  ord_le (entry_key x.1, x.2) (entry_key y.1, y.2).

#[export] Instance entry_le_dec : RelDecision entry_le.
Proof. intros x y. unfold entry_le. apply _. Defined.

(** The entries of one index, pushed in the order of [active] and sorted. *)
Definition build_index (entry : N → MappedRecord → IndexEntry) (records : list MappedRecord)
    (active : list N) : outcome string (list IndexEntry) :=
  let* entries := outcome_map
    (λ record, let* r := or_panic (records !! N.to_nat record) in
               Ok (entry record r, original_id r)) active in
  Ok (merge_sort entry_le entries).*1.

(** ** Laying the sections out *)

Definition push_section (st : list u8 * list (nat * nat)) (section : list u8) :
    list u8 * list (nat * nat) :=
  let bytes := align_eight st.1 in
  let start := length bytes in
  let bytes := bytes ++ section in
  (bytes, st.2 ++ [(start, length bytes)]).

(** [for (index, range) in ranges.iter().enumerate()]. *)
Fixpoint put_ranges (bytes : list u8) (index : nat) (ranges : list (nat * nat)) :
    outcome string (list u8) :=
  match ranges with
  | [] => Ok bytes
  | range :: ranges =>
      let* bytes := put_u64 bytes (SECTION_TABLE_OFFSET + index * 16) (usize_of range.1) in
      let* bytes := put_u64 bytes (SECTION_TABLE_OFFSET + index * 16 + 8) (usize_of (range.2 - range.1)) in
      put_ranges bytes (S index) ranges
  end.

Section create.
Context {D P : Type} `{Kernel D, MappedRoot P}.

(** The ten sections, in order. *)
Definition snapshot_sections (world : World D P) (projection : VmQueryProjection P) :
    outcome string (list (list u8)) :=
  let definitions := vq_definitions projection in
  let slot_names := ord_sort (slot_str <$> (map_to_list definitions).*1) in
  let entries := kv ← map_to_list definitions; kv.2 in
  let predicate_names :=
    btree_strings ((λ e, predicate_str (fact_predicate (pf_fact e))) <$> entries) in
  let literal_names := btree_strings
    (e ← entries; collect_atom_string (fact_subject (pf_fact e)) ++
                  collect_atom_string (fact_object (pf_fact e))) in
  let slot_tokens := token_map slot_names in
  let predicate_tokens := token_map predicate_names in
  let literal_tokens := token_map literal_names in
  let* built := outcome_fold (push_slot definitions slot_tokens predicate_tokens literal_tokens)
    slot_names ([], replicate (length slot_names) NONE) in
  let '(records, heads) := built in
  let* active := sort_active records (filter (λ head, head ≠ NONE) heads) in
  let* spo := build_index spo_entry records active in
  let* pos := build_index pos_entry records active in
  let* osp := build_index osp_entry records active in
  let* record_bytes := encode_records records in
  let* spo_bytes := encode_indexes spo in
  let* pos_bytes := encode_indexes pos in
  let* osp_bytes := encode_indexes osp in
  let* frame_bytes := encode_frames (world_frames world) in
  Ok [encode_string_table slot_names; encode_string_table predicate_names;
      encode_string_table literal_names; record_bytes; encode_u32s heads; encode_u32s active;
      spo_bytes; pos_bytes; osp_bytes; frame_bytes].

(** The header words after the envelope, from offset 32 on. *)
Definition put_header (bytes : list u8) (journal : list u8) (epoch_count : N) (world : World D P)
    (ranges : list (nat * nat)) : outcome string (list u8) :=
  let* bytes := copy_from_slice bytes 0 MAGIC in
  let* bytes := put_u32 bytes 8 VERSION in
  let* bytes := put_u32 bytes 12 (as_u32 HEADER_LEN) in
  let* bytes := put_u64 bytes 16 (usize_of (length bytes)) in
  let* bytes := put_u64 bytes 24 (digest (drop HEADER_LEN bytes)) in
  let* bytes := put_u64 bytes 32 epoch_count in
  let* bytes := put_u64 bytes 40 (usize_of (length journal)) in
  let* bytes := put_u64 bytes 48 (digest journal) in
  let* bytes := put_u64 bytes 56 (world_value (w_id world)) in
  let* bytes := put_u64 bytes 64 (w_version world) in
  let* bytes := put_u64 bytes 72 (w_next_entity world) in
  let* bytes := put_u64 bytes 80 (usize_of (w_operation_count world)) in
  let* bytes := put_u64 bytes 88 (w_active_slot_count world) in
  let* bytes := put_u64 bytes 96 (usize_of (w_record_count world)) in
  let* bytes := put_u64 bytes 104 (usize_of (length (world_frames world))) in
  put_ranges bytes 0 ranges.

(** The bytes [create] writes. *)
Definition snapshot_bytes (journal : list u8) (epoch_count : N) (world : World D P)
    (projection : VmQueryProjection P) : outcome string (list u8) :=
  if vq_mapped projection is Some _
  then Err "rewriting a mapped snapshot with a tail is not implemented"
  else
    let* sections := snapshot_sections world projection in
    let '(bytes, ranges) := foldl push_section (replicate HEADER_LEN Byte.x00, []) sections in
    let bytes := bytes ++ TRAILER in
    if (MAX_SNAPSHOT_BYTES <? N.of_nat (length bytes))%N
    then Err "mmap VM snapshot exceeds size limit"
    else put_header bytes journal epoch_count world ranges.

(** What the file system answers: the temporary file cannot be opened, written
    or synced, the rename fails, or the directory cannot be synced. *)
Inductive create_io :=
| CreateOk
| TemporaryFails
| RenameFails
| DirectoryFails.

(** [MmapVmSnapshot::create]: the answer and the content of the snapshot file. *)
Definition create (io : create_io) (target : option (list u8)) (journal : list u8)
    (epoch_count : N) (world : World D P) (projection : VmQueryProjection P) :
    outcome string MmapSnapshotMetadata * option (list u8) :=
  match snapshot_bytes journal epoch_count world projection with
  | Err e => (Err e, target)
  | Panic => (Panic, target)
  | Ok bytes =>
      match io with
      | TemporaryFails => (Err "temporary snapshot file", target)
      | RenameFails => (Err "snapshot rename", target)
      | DirectoryFails => (Err "snapshot directory", Some bytes)
      | CreateOk =>
          (Ok (MmapSnapshotMetadata_mk epoch_count (usize_of (length journal))
                 (usize_of (length bytes)) (w_id world) (w_version world)), Some bytes)
      end
  end.
End create.

(** ** Opening *)

Record MmapVmSnapshot := MmapVmSnapshot_mk {
  ms_mapping : list u8;
  ms_epoch_count : N;
  ms_journal_offset : N;
  ms_world_id : WorldId;
  ms_world_version : N;
  ms_next_entity : N;
  ms_operation_count : N;
  ms_active_slot_count : nat;
  ms_record_count : N;
  ms_frame_count : N;
  ms_sections : list (nat * nat);
  ms_slots : StringTable;
  ms_predicates : StringTable;
  ms_literals : StringTable;
}.

(** [self.sections[index]]. *)
Definition section (s : MmapVmSnapshot) (index : nat) : nat * nat :=
  default (0, 0) (ms_sections s !! index).

Definition section_len (r : nat * nat) : nat := r.2 - r.1.

Definition slot_count (s : MmapVmSnapshot) : nat := st_len (ms_slots s).
Definition predicate_count (s : MmapVmSnapshot) : nat := st_len (ms_predicates s).
Definition literal_count (s : MmapVmSnapshot) : nat := st_len (ms_literals s).

Definition slot_token (s : MmapVmSnapshot) (value : string) : option N :=
  st_lookup (ms_slots s) (ms_mapping s) value.
Definition predicate_token (s : MmapVmSnapshot) (value : string) : option N :=
  st_lookup (ms_predicates s) (ms_mapping s) value.
Definition literal_token (s : MmapVmSnapshot) (value : string) : option N :=
  st_lookup (ms_literals s) (ms_mapping s) value.

Definition predicate_value (s : MmapVmSnapshot) (token : nat) : option Predicate :=
  match st_value (ms_predicates s) (ms_mapping s) token with
  | Ok value => Some (Predicate_new value)
  | _ => None
  end.

Definition literal_value (s : MmapVmSnapshot) (token : nat) : option Literal :=
  match st_value (ms_literals s) (ms_mapping s) token with
  | Ok value => Some (Literal_new value)
  | _ => None
  end.

Definition retained_record_count (s : MmapVmSnapshot) : nat :=
  section_len (section s RECORDS) / RECORD_LEN.

Definition record (s : MmapVmSnapshot) (index : N) : outcome string MappedRecord :=
  let start := (section s RECORDS).1 + N.to_nat index * RECORD_LEN in
  let* bytes := ok_or (range (ms_mapping s) start (start + RECORD_LEN))
    "mapped fact record is out of range" in
  let* original_id := read_u64_at bytes 0 in
  let* slot := read_u32_at bytes 8 in
  let* previous := read_u32_at bytes 12 in
  let* subject := read_u64_at bytes 16 in
  let* predicate := read_u32_at bytes 24 in
  let* object := read_u64_at bytes 32 in
  Ok (MappedRecord_mk original_id slot previous subject predicate object).

(** [&self.mapping[self.sections[index].clone()]]. *)
Definition section_bytes (s : MmapVmSnapshot) (index : nat) : outcome string (list u8) :=
  or_panic (range (ms_mapping s) (section s index).1 (section s index).2).

Definition head (s : MmapVmSnapshot) (token : N) : outcome string N :=
  let* bytes := section_bytes s HEADS in read_u32_at bytes (N.to_nat token * 4).

Definition active_record (s : MmapVmSnapshot) (index : nat) : outcome string N :=
  let* bytes := section_bytes s ACTIVE in read_u32_at bytes (index * 4).

Definition index_count (s : MmapVmSnapshot) (sec : nat) : nat :=
  section_len (section s sec) / INDEX_ENTRY_LEN.

Definition index_entry (s : MmapVmSnapshot) (sec index : nat) : outcome string IndexEntry :=
  let start := (section s sec).1 + index * INDEX_ENTRY_LEN in
  let* bytes := ok_or (range (ms_mapping s) start (start + INDEX_ENTRY_LEN))
    "mapped index entry is out of range" in
  let* first := read_u64_at bytes 0 in
  let* second := read_u64_at bytes 8 in
  let* third := read_u64_at bytes 16 in
  let* record := read_u32_at bytes 24 in
  Ok (IndexEntry_mk first second third record).

(** The first loop of [validate_records_and_indexes]. *)
Definition validate_record (s : MmapVmSnapshot) (_ : unit) (index : nat) : outcome string unit :=
  let* r := record s (as_u32 index) in
  if ((N.of_nat (slot_count s) <=? mr_slot r) || (N.of_nat (predicate_count s) <=? mr_predicate r) ||
      (negb (mr_previous r =? NONE) && (N.of_nat index <=? mr_previous r)) ||
      ((VM_LITERAL_BASE <=? mr_subject r) &&
       (N.of_nat (literal_count s) <=? mr_subject r - VM_LITERAL_BASE)) ||
      ((VM_LITERAL_BASE <=? mr_object r) &&
       (N.of_nat (literal_count s) <=? mr_object r - VM_LITERAL_BASE)))%N
  then Err "invalid mapped fact record"
  else Ok tt.

Definition validate_head (s : MmapVmSnapshot) (_ : unit) (token : nat) : outcome string unit :=
  let* h := head s (as_u32 token) in
  if (negb (h =? NONE) && (N.of_nat (retained_record_count s) <=? h))%N
  then Err "mapped slot head exceeds record section"
  else Ok tt.

Definition validate_entry (s : MmapVmSnapshot) (sec : nat) (previous : option (N * N * N))
    (index : nat) : outcome string (option (N * N * N)) :=
  let* entry := index_entry s sec index in
  if (N.of_nat (retained_record_count s) <=? ie_record entry)%N
  then Err "mapped index record exceeds arena"
  else
    let key := entry_key entry in
    if match previous with
       | Some value => match cmp value key with Gt => true | _ => false end
       | None => false
       end
    then Err "mapped index is not sorted"
    else Ok (Some key).

Definition validate_index (s : MmapVmSnapshot) (_ : unit) (sec : nat) : outcome string unit :=
  let* _ := outcome_fold (validate_entry s sec) (seq 0 (index_count s sec)) None in Ok tt.

Definition validate_records_and_indexes (s : MmapVmSnapshot) : outcome string unit :=
  let* _ := outcome_fold (validate_record s) (seq 0 (retained_record_count s)) tt in
  let* _ := outcome_fold (validate_head s) (seq 0 (slot_count s)) tt in
  outcome_fold (validate_index s) [SPO; POS; OSP] tt.

(** The chain of conditions of the envelope check, in order. *)
Definition check_envelope (mapping : list u8) : outcome string bool :=
  if (length mapping <? HEADER_LEN + length TRAILER) ||
     (MAX_SNAPSHOT_BYTES <? N.of_nat (length mapping))%N then Ok false
  else
    let* magic := or_panic (range mapping 0 8) in
    if bool_decide (magic ≠ MAGIC) then Ok false
    else
      let* version := read_u32_at mapping 8 in
      if bool_decide (version ≠ VERSION) then Ok false
      else
        let* header_len := read_u32_at mapping 12 in
        if bool_decide (header_len ≠ N.of_nat HEADER_LEN) then Ok false
        else
          let* file_len := read_u64_at mapping 16 in
          if bool_decide (file_len ≠ N.of_nat (length mapping)) then Ok false
          else
            let* trailer := or_panic
              (range mapping (length mapping - length TRAILER) (length mapping)) in
            if bool_decide (trailer ≠ TRAILER) then Ok false
            else
              let* body_digest := read_u64_at mapping 24 in
              Ok (bool_decide (body_digest = digest (drop HEADER_LEN mapping))).

(** One iteration of [for index in 0..SECTION_COUNT]. *)
Definition read_section (mapping : list u8) (index : nat) : outcome string (nat * nat) :=
  let* start := read_u64_at mapping (SECTION_TABLE_OFFSET + index * 16) in
  let* len := read_u64_at mapping (SECTION_TABLE_OFFSET + index * 16 + 8) in
  let* end_ := ok_or (u64_checked_add start len) "snapshot section length overflow" in
  if (start <? N.of_nat HEADER_LEN)%N || (N.of_nat (length mapping - length TRAILER) <? end_)%N
  then Err "snapshot section is out of range"
  else Ok (N.to_nat start, N.to_nat end_).

(** [ordered.sort_by_key(|range| range.start)], a stable sort. *)
Fixpoint insert_by_start (x : nat * nat) (l : list (nat * nat)) : list (nat * nat) :=
  match l with
  | [] => [x]
  | y :: l => if x.1 <=? y.1 then x :: y :: l else y :: insert_by_start x l
  end.

Definition sort_by_start (l : list (nat * nat)) : list (nat * nat) := foldr insert_by_start [] l.

(** [ordered.windows(2).any(|pair| pair[0].end > pair[1].start)]. *)
Fixpoint overlapb (l : list (nat * nat)) : bool :=
  match l with
  | x :: (y :: _) as l => (y.1 <? x.2) || overlapb l
  | _ => false
  end.

Definition open (mapping : list u8) (journal : list u8) : outcome string MmapVmSnapshot :=
  let* valid := check_envelope mapping in
  if negb valid then Err "invalid mmap VM snapshot envelope"
  else
    let* epoch_count := read_u64_at mapping 32 in
    let* journal_offset := read_u64_at mapping 40 in
    let* journal_digest := read_u64_at mapping 48 in
    if (journal_offset <? 16)%N || (N.of_nat (length journal) <? journal_offset)%N ||
       negb (digest (take (N.to_nat journal_offset) journal) =? journal_digest)%N
    then Err "mmap VM snapshot does not match the journal prefix"
    else
      let* sections := outcome_map (read_section mapping) (seq 0 SECTION_COUNT) in
      if overlapb (sort_by_start sections) then Err "snapshot sections overlap"
      else
        let sec i := default (0, 0) (sections !! i) in
        let len i := section_len (sec i) in
        let* slots := st_parse mapping (sec SLOTS) in
        let* predicates := st_parse mapping (sec PREDICATES) in
        let* literals := st_parse mapping (sec LITERALS) in
        if bool_decide (len RECORDS mod RECORD_LEN ≠ 0) ||
           bool_decide (len HEADS ≠ st_len slots * 4) ||
           bool_decide (len ACTIVE mod 4 ≠ 0) ||
           bool_decide (len SPO mod INDEX_ENTRY_LEN ≠ 0) ||
           bool_decide (len POS mod INDEX_ENTRY_LEN ≠ 0) ||
           bool_decide (len OSP mod INDEX_ENTRY_LEN ≠ 0)
        then Err "snapshot fixed-width section has an invalid length"
        else
          let active_count := len ACTIVE / 4 in
          let* declared_active := read_u64_at mapping 88 in
          if bool_decide (N.of_nat active_count ≠ declared_active) ||
             bool_decide (len SPO / INDEX_ENTRY_LEN ≠ active_count) ||
             bool_decide (len POS / INDEX_ENTRY_LEN ≠ active_count) ||
             bool_decide (len OSP / INDEX_ENTRY_LEN ≠ active_count)
          then Err "snapshot active index counts disagree"
          else
            let* world_id := read_u64_at mapping 56 in
            let* world_version := read_u64_at mapping 64 in
            let* next_entity := read_u64_at mapping 72 in
            let* operation_count := read_u64_at mapping 80 in
            let* record_count := read_u64_at mapping 96 in
            let* frame_count := read_u64_at mapping 104 in
            if len FRAMES <? 8 then Err "snapshot history count disagrees with metadata"
            else
              let* frames := or_panic (range mapping (sec FRAMES).1 (sec FRAMES).2) in
              let* declared_frames := read_u64_at frames 0 in
              if bool_decide (declared_frames ≠ frame_count)
              then Err "snapshot history count disagrees with metadata"
              else
                let snapshot := MmapVmSnapshot_mk mapping epoch_count journal_offset
                  (WorldId_new world_id) world_version next_entity operation_count active_count
                  record_count frame_count sections slots predicates literals in
                let* _ := validate_records_and_indexes snapshot in
                Ok snapshot.

(** ** Reading *)

Definition workspace_record (s : MmapVmSnapshot) (index : nat) : outcome string FactRecord :=
  let* r := record s (as_u32 index) in
  Ok (FactRecord_mk KDefine (mr_slot r) (mr_subject r) (mr_predicate r) (mr_object r)
        (mr_previous r) (as_u32 index)).

Definition workspace_image (s : MmapVmSnapshot) : outcome string (list FactRecord * list N) :=
  let* records := outcome_map (workspace_record s) (seq 0 (retained_record_count s)) in
  let* heads := outcome_map (λ token, head s (as_u32 token)) (seq 0 (slot_count s)) in
  Ok (records, heads).

Definition atom_value (s : MmapVmSnapshot) (cell : N) : outcome string Atom :=
  if (cell <? VM_LITERAL_BASE)%N then Ok (AEntity (EntityId_new cell))
  else
    let* l := ok_or (literal_value s (N.to_nat (cell - VM_LITERAL_BASE)))
      "mapped literal token is invalid" in
    Ok (ALiteral l).

(** [fact], whose cache has one cell per retained record. *)
Definition fact (s : MmapVmSnapshot) (index : N) : outcome string Fact :=
  if (N.of_nat (retained_record_count s) <=? index)%N then Err "mapped fact cache index is out of range"
  else
    let* r := record s index in
    let* subject := atom_value s (mr_subject r) in
    let* predicate := ok_or (predicate_value s (N.to_nat (mr_predicate r)))
      "mapped predicate token is invalid" in
    let* object := atom_value s (mr_object r) in
    Ok (Fact_new subject predicate object).

Definition resolve (s : MmapVmSnapshot) (slot : SlotId) : outcome string (option Fact) :=
  match slot_token s (slot_str slot) with
  | None => Ok None
  | Some token =>
      let* h := ok_option (head s token) in
      match h with
      | None => Ok None
      | Some h => if decide (h = NONE) then Ok None else ok_option (fact s h)
      end
  end.

(** The loop of [definitions]: [Panic] also stands for running out of fuel. *)
Fixpoint definition_chain (fuel : nat) (s : MmapVmSnapshot) (r : N) (output : list Fact) :
    outcome string (list Fact) :=
  if decide (r = NONE) then Ok output
  else
    match fuel with
    | 0 => Panic
    | S fuel =>
        let* f := ok_option (fact s r) in
        match f with
        | None => Ok output
        | Some f =>
            let* entry := ok_option (record s r) in
            let next := match entry with Some e => mr_previous e | None => NONE end in
            definition_chain fuel s next (output ++ [f])
        end
    end.

Definition definitions (s : MmapVmSnapshot) (slot : SlotId) : outcome string (list Fact) :=
  match slot_token s (slot_str slot) with
  | None => Ok []
  | Some token =>
      let* h := ok_option (head s token) in
      definition_chain (S (retained_record_count s)) s (default NONE h) []
  end.

Definition display_name (s : MmapVmSnapshot) (e : EntityId) : outcome string string :=
  let* r := resolve s (display_slot e) in
  Ok (default (EntityId_display e)
        (f ← r;
         match fact_object f with ALiteral l => Some (literal_str l) | AEntity _ => None end)).

Definition frames (s : MmapVmSnapshot) : outcome string (list CommitFrame) :=
  let* bytes := section_bytes s FRAMES in
  match decode_frames bytes with Ok fs => Ok fs | _ => Panic end.

(** ** Queries *)

Inductive Resolved :=
| Unbound
| Missing
| Value (cell : N).

Inductive CandidateSpec :=
| SpecAll
| SpecEmpty
| SpecRange (sec : nat) (key : list N) (len : nat).

Definition atom_cell_for_query (s : MmapVmSnapshot) (a : Atom) : Resolved :=
  match a with
  | AEntity e =>
      if (entity_value e <? VM_LITERAL_BASE)%N then Value (entity_value e) else Missing
  | ALiteral l =>
      match literal_token s (literal_str l) with
      | Some token => Value (VM_LITERAL_BASE + token)
      | None => Missing
      end
  end.

Definition predicate_cell_for_query (s : MmapVmSnapshot) (p : Predicate) : Resolved :=
  match predicate_token s (predicate_str p) with Some token => Value token | None => Missing end.

Definition resolved_atom_cell (s : MmapVmSnapshot) (t : Term) (b : Binding) : Resolved :=
  match t with
  | TAtom a => atom_cell_for_query s a
  | TVariable x =>
      match b !! variable_str x with
      | Some value =>
          match as_atom value with Some a => atom_cell_for_query s a | None => Missing end
      | None => Unbound
      end
  end.

Definition resolved_predicate_cell (s : MmapVmSnapshot) (t : PredicateTerm) (b : Binding) : Resolved :=
  match t with
  | PPredicate p => predicate_cell_for_query s p
  | PVariable x =>
      match b !! variable_str x with
      | Some value =>
          match as_predicate value with Some p => predicate_cell_for_query s p | None => Missing end
      | None => Unbound
      end
  end.

Definition candidate_spec (s : MmapVmSnapshot) (p : Pattern) (b : Binding) : CandidateSpec :=
  match resolved_atom_cell s (pat_subject p) b, resolved_predicate_cell s (pat_predicate p) b,
        resolved_atom_cell s (pat_object p) b with
  | Missing, _, _ | _, Missing, _ | _, _, Missing => SpecEmpty
  | Value subject, Value predicate, Value object => SpecRange SPO [subject; predicate; object] 3
  | Value subject, Value predicate, Unbound => SpecRange SPO [subject; predicate; 0%N] 2
  | Value subject, Unbound, Value object => SpecRange OSP [object; subject; 0%N] 2
  | Unbound, Value predicate, Value object => SpecRange POS [predicate; object; 0%N] 2
  | Value subject, Unbound, Unbound => SpecRange SPO [subject; 0%N; 0%N] 1
  | Unbound, Value predicate, Unbound => SpecRange POS [predicate; 0%N; 0%N] 1
  | Unbound, Unbound, Value object => SpecRange OSP [object; 0%N; 0%N] 1
  | Unbound, Unbound, Unbound => SpecAll
  end.

(** The loop of [lower_bound]; an entry that cannot be read is a panic. *)
Fixpoint lower_bound_loop (fuel : nat) (s : MmapVmSnapshot) (sec : nat) (key : list N) (len : nat)
    (low high : nat) : option nat :=
  if low <? high then
    match fuel with
    | 0 => None
    | S fuel =>
        let middle := low + (high - low) / 2 in
        match index_entry s sec middle with
        | Ok e =>
            let candidate := [ie_first e; ie_second e; ie_third e] in
            match cmp (take len candidate) (take len key) with
            | Lt => lower_bound_loop fuel s sec key len (middle + 1) high
            | _ => lower_bound_loop fuel s sec key len low middle
            end
        | _ => None
        end
    end
  else Some low.

Definition lower_bound (s : MmapVmSnapshot) (sec : nat) (key : list N) (len count : nat) : option nat :=
  lower_bound_loop count s sec key len 0 count.

Definition index_range (s : MmapVmSnapshot) (sec : nat) (key : list N) (len : nat) :
    option (nat * nat) :=
  let count := index_count s sec in
  lower ← lower_bound s sec key len count;
  if decide (len = 0) then Some (0, count)
  else
    let position := len - 1 in
    k ← key !! position;
    if decide (k = u64_max) then Some (lower, count)
    else
      upper ← lower_bound s sec (<[position := (k + 1)%N]> key) len count;
      Some (lower, upper).

(** [end - start]: a range whose end is before its start would overflow. *)
Definition candidate_count (s : MmapVmSnapshot) (p : Pattern) (b : Binding) : option nat :=
  match candidate_spec s p b with
  | SpecAll => Some (ms_active_slot_count s)
  | SpecRange sec key len =>
      '(start, end_) ← index_range s sec key len;
      if end_ <? start then None else Some (end_ - start)
  | SpecEmpty => Some 0
  end.

(** [filter_map(|index| f(index).ok())]. *)
Fixpoint filter_ok {A} (f : nat → outcome string A) (l : list nat) : option (list A) :=
  match l with
  | [] => Some []
  | i :: l =>
      match f i with
      | Ok x => xs ← filter_ok f l; Some (x :: xs)
      | Err _ => filter_ok f l
      | Panic => None
      end
  end.

Definition candidates (s : MmapVmSnapshot) (p : Pattern) (b : Binding) : option (list N) :=
  match candidate_spec s p b with
  | SpecAll => filter_ok (active_record s) (seq 0 (ms_active_slot_count s))
  | SpecRange sec key len =>
      '(start, end_) ← index_range s sec key len;
      entries ← filter_ok (index_entry s sec) (seq start (end_ - start));
      Some (map ie_record entries)
  | SpecEmpty => Some []
  end.

Definition mapped_unify_variable (name : string) (value : BoundValue) (b : Binding) : option Binding :=
  match b !! name with
  | Some existing => if decide (existing = value) then Some b else None
  | None => Some (<[name := value]> b)
  end.

Definition mapped_unify_term (s : MmapVmSnapshot) (t : Term) (cell : N) (b : Binding) : option Binding :=
  match atom_value s cell with
  | Ok a =>
      let value := BoundValue_from a in
      match t with
      | TAtom atom => if decide (as_atom value = Some atom) then Some b else None
      | TVariable x => mapped_unify_variable (variable_str x) value b
      end
  | _ => None
  end.

Definition mapped_unify_predicate (s : MmapVmSnapshot) (t : PredicateTerm) (token : N) (b : Binding) :
    option Binding :=
  p ← predicate_value s (N.to_nat token);
  let value := BPredicate p in
  match t with
  | PPredicate predicate => if decide (as_predicate value = Some predicate) then Some b else None
  | PVariable x => mapped_unify_variable (variable_str x) value b
  end.

Definition unify (s : MmapVmSnapshot) (p : Pattern) (r : MappedRecord) (b : Binding) : option Binding :=
  b ← mapped_unify_term s (pat_subject p) (mr_subject r) b;
  b ← mapped_unify_predicate s (pat_predicate p) (mr_predicate r) b;
  mapped_unify_term s (pat_object p) (mr_object r) b.

Definition choose_mapped (s : MmapVmSnapshot) (options : QueryOptions) (frame : QueryFrame)
    (remaining : list Pattern) : option nat :=
  if opt_optimize options
  then keys ← mapM (λ p, candidate_count s p (frame_binding frame)) remaining;
       Some (min_by_key_index id keys)
  else Some 0.

(** The body of [for record in candidates]. *)
Fixpoint walk_records (s : MmapVmSnapshot) (walk : QueryFrame → walk_state → option (walk_state * bool))
    (chosen : Pattern) (frame : QueryFrame) (records : list N) (st : walk_state) :
    option (walk_state * bool) :=
  match records with
  | [] => Some (st, false)
  | r :: records =>
      match record s r with
      | Ok value =>
          match unify s chosen value (frame_binding frame) with
          | Some binding =>
              match st_value (ms_slots s) (ms_mapping s) (N.to_nat (mr_slot value)) with
              | Ok slot =>
                  '(st', stop) ← walk
                    (QueryFrame_mk binding (frame_provenance frame ++ [SlotId_new slot]))
                    (ws_count_binding st);
                  if (stop : bool) then Some (st', true)
                  else walk_records s walk chosen frame records st'
              | _ => None
              end
          | None => walk_records s walk chosen frame records st
          end
      | Err _ => walk_records s walk chosen frame records st
      | Panic => None
      end
  end.

Fixpoint walk_mapped (fuel : nat) (s : MmapVmSnapshot) (options : QueryOptions) (frame : QueryFrame)
    (remaining : list Pattern) (depth : nat) (st : walk_state) : option (walk_state * bool) :=
  match remaining with
  | [] => let st := ws_push frame st in Some (st, limit_reached options st)
  | _ :: _ =>
      match fuel with
      | 0 => None
      | S fuel =>
          index ← choose_mapped s options frame remaining;
          chosen ← remaining !! index;
          let st := ws_choose depth chosen st in
          let rest := delete index remaining in
          records ← candidates s chosen (frame_binding frame);
          let st := ws_count_candidates (length records) st in
          walk_records s (λ frame' st', walk_mapped fuel s options frame' rest (S depth) st')
            chosen frame records st
      end
  end.

Definition mapped_query (s : MmapVmSnapshot) (patterns : list Pattern) (options : QueryOptions) :
    option QueryResult :=
  '(st, _) ← walk_mapped (length patterns) s options empty_frame patterns 0 empty_state;
  Some (finish_query options st).
