(* ===== verification/SnapshotLayout.v ===== *)
(** A snapshot file holds its sections: what [create] lays out is what [open]
    finds, byte range by byte range.

    [image] is the content of a snapshot as lists; [image_wf] says what the
    checks of [open] ask of it; [shows] says that the readers of an opened
    snapshot return it. *)
From Stdlib Require Import NArith Lia.
From Stdlib Require Import Strings.Byte.
From stdpp Require Import sorting base gmap list strings option list_monad.
From S2P Require Import Prelude Ord Terms Bytes Query QueryFacts QueryOrder Spec Index Kernel Frames.
From S2P Require Import VmProjection Worlds WorldFacts Codec FileStore MmapFormat StackVm VmEpochs.
From S2P Require Import SnapshotFormat SnapshotFormatFacts MmapSnapshot.

Local Open Scope string_scope.
Local Open Scope nat_scope.
Local Open Scope list_scope.

#[local] Opaque Nat.div Nat.modulo u32_bytes u64_bytes le_bytes.

Lemma length_MAGIC : length MAGIC = 8.
Proof. reflexivity. Qed.
#[export] Hint Rewrite length_MAGIC : snap.

(** ** The layout *)

Lemma align_eight_pad bytes : ∃ n, align_eight bytes = bytes ++ replicate n x00.
Proof.
  unfold align_eight. generalize 8. intros fuel. revert bytes.
  induction fuel as [|fuel IH]; intros bytes; cbn [align_loop]; [exists 0; by rewrite app_nil_r|].
  destruct (_ =? 0); [exists 0; by rewrite app_nil_r|].
  destruct (IH (bytes ++ [x00])) as [n ->]. exists (S n). by rewrite <- (assoc_L (++)).
Qed.

(** The ranges of the sections in a file that starts with [bytes]. *)
Record laid_out (start : nat) (bytes : list u8) (secs : list (list u8)) (rs : list (nat * nat)) :
    Prop := {
  lo_ranges i sec : secs !! i = Some sec → ∃ r, rs !! i = Some r ∧
    ∀ post, range (bytes ++ post) r.1 r.2 = Some sec;
  lo_length : length rs = length secs;
  lo_bounds : Forall (λ r, start ≤ r.1 ∧ r.1 ≤ r.2 ∧ r.2 ≤ length bytes) rs;
  lo_sorted : StronglySorted (λ x y, x.2 ≤ y.1) rs;
}.

Lemma layout_spec secs bytes0 rs0 :
  ∃ tail rs, foldl push_section (bytes0, rs0) secs = (bytes0 ++ tail, rs0 ++ rs) ∧
    laid_out (length bytes0) (bytes0 ++ tail) secs rs.
Proof.
  revert bytes0 rs0. induction secs as [|sec secs IH]; intros bytes0 rs0; cbn [foldl].
  - exists [], []. rewrite !app_nil_r. split; [done|]. split; [done|done|constructor|constructor].
  - unfold push_section at 2. cbn [fst snd]. destruct (align_eight_pad bytes0) as [n ->].
    set (pre := bytes0 ++ replicate n x00).
    destruct (IH (pre ++ sec) (rs0 ++ [(length pre, length (pre ++ sec))])) as (tail & rs & -> & [H1 H2 H3 H4]).
    exists (replicate n x00 ++ sec ++ tail), ((length pre, length (pre ++ sec)) :: rs).
    assert ((pre ++ sec) ++ tail = bytes0 ++ replicate n x00 ++ sec ++ tail) as Heq
      by (unfold pre; by rewrite <- !(assoc_L (++))).
    rewrite Heq in *. rewrite <- (assoc_L (++) rs0). split; [done|].
    assert (length bytes0 ≤ length pre ∧ length pre ≤ length (pre ++ sec)) as [Hp1 Hp2]
      by (unfold pre; rewrite !length_app; lia).
    assert (length (pre ++ sec) ≤ length (bytes0 ++ replicate n x00 ++ sec ++ tail)) as Hp3
      by (rewrite <- Heq, (length_app (pre ++ sec)); lia).
    split.
    + intros [|i] s Hi; [|by apply H1]. injection Hi as <-. eexists. split; [done|]. intros post.
      apply (range_at pre sec (tail ++ post)); [|done|apply length_app].
      rewrite <- Heq. by rewrite <- !(assoc_L (++)).
    + cbn [length]. by rewrite H2.
    + constructor; [cbn [fst snd]; lia|]. eapply Forall_impl; [exact H3|]. intros r (? & ? & ?). lia.
    + constructor; [done|]. eapply Forall_impl; [exact H3|]. intros r. cbn [fst snd]. lia.
Qed.

Lemma sort_by_start_id rs :
  Forall (λ r : nat * nat, r.1 ≤ r.2) rs → StronglySorted (λ x y, x.2 ≤ y.1) rs →
  sort_by_start rs = rs.
Proof.
  induction 1 as [|r rs Hr Hrs IH]; intros Hs; [done|].
  apply StronglySorted_cons in Hs as [Hall Hs]. unfold sort_by_start in *. cbn [foldr].
  rewrite IH by done. destruct rs as [|y rs]; [done|]. cbn [insert_by_start].
  apply Forall_cons in Hall as [Hy _]. by rewrite (proj2 (Nat.leb_le _ _)) by lia.
Qed.

Lemma overlapb_sorted rs : StronglySorted (λ x y, x.2 ≤ y.1) rs → overlapb rs = false.
Proof.
  induction 1 as [|x rs Hs IH Hall]; [done|]. destruct rs as [|y rs]; [done|].
  cbn [overlapb] in *. apply Forall_cons in Hall as [Hy _]. rewrite IH.
  by rewrite (proj2 (Nat.ltb_ge _ _)) by lia.
Qed.

(** ** The header *)

(** The words after the version and the header length, and what follows. *)
Definition header (vals : list N) : list u8 :=
  MAGIC ++ u32_bytes VERSION ++ u32_bytes (as_u32 HEADER_LEN) ++ (v ← vals; u64_bytes v) ++
  replicate 48 x00.

Definition range_words (rs : list (nat * nat)) : list N :=
  r ← rs; [usize_of r.1; usize_of (r.2 - r.1)].

Lemma length_range_words rs : length (range_words rs) = length rs * 2.
Proof. unfold range_words. induction rs as [|r rs IH]; [done|]. rewrite bind_cons, length_app, IH. simpl. lia. Qed.

Lemma length_words vals : length (v ← vals; u64_bytes v) = length vals * 8.
Proof. apply (length_bind_blocks u64_bytes). apply length_u64_bytes. Qed.

Lemma length_header vals : length vals = 32 → length (header vals) = HEADER_LEN.
Proof. intros H. unfold header. rewrite !length_app, length_words, H, !length_u32_bytes. done. Qed.

Lemma put_ranges_spec rs pre n body index :
  length pre = SECTION_TABLE_OFFSET + index * 16 → length rs * 16 ≤ n →
  put_ranges (pre ++ replicate n x00 ++ body) index rs =
  Ok (pre ++ (v ← range_words rs; u64_bytes v) ++ replicate (n - length rs * 16) x00 ++ body).
Proof.
  revert pre n index. induction rs as [|r rs IH]; intros pre n index Hpre Hn; cbn [put_ranges length].
  - cbn. by rewrite Nat.sub_0_r.
  - cbn [length] in Hn. rewrite put_u64_zeros by lia. cbn [outcome_bind].
    rewrite put_u64_zeros by (autorewrite with snap; lia). cbn [outcome_bind].
    rewrite (IH _ _ (S index)); [|autorewrite with snap; lia|lia].
    unfold range_words. rewrite (bind_cons _ r rs), bind_app. cbn [mbind list_bind]. rewrite app_nil_r.
    rewrite <- !(assoc_L (++)). by replace (n - 8 - 8 - length rs * 16) with (n - S (length rs) * 16) by lia.
Qed.

Section header.
Context {D P : Type} `{Kernel D, MappedRoot P}.

(** The fields of the header. *)
Definition header_words (total : nat) (body_digest : N) (journal : list u8) (epoch_count : N)
    (world : World D P) (rs : list (nat * nat)) : list N :=
  [usize_of total; body_digest; epoch_count; usize_of (length journal); digest journal;
   world_value (w_id world); w_version world; w_next_entity world; usize_of (w_operation_count world);
   w_active_slot_count world; usize_of (w_record_count world); usize_of (length (world_frames world))]
  ++ range_words rs.

Lemma put_header_spec body journal epoch_count (world : World D P) rs :
  length rs = SECTION_COUNT →
  put_header (replicate HEADER_LEN x00 ++ body) journal epoch_count world rs =
  Ok (header (header_words (HEADER_LEN + length body) (digest body) journal epoch_count world rs) ++ body).
Proof.
  intros Hrs. unfold put_header.
  assert (copy_from_slice (replicate HEADER_LEN x00 ++ body) 0 MAGIC =
    Ok (MAGIC ++ replicate 312 x00 ++ body)) as -> by apply (copy_zeros [] 320 body 0 MAGIC ltac:(done) ltac:(cbn; lia)).
  cbn [outcome_bind]. do 2 put_step.
  set (pre := (MAGIC ++ _) ++ _).
  assert (length pre = 16) as Hpre by (unfold pre; by autorewrite with snap).
  assert (length (pre ++ replicate 304 x00 ++ body) = HEADER_LEN + length body) as ->
    by (rewrite !length_app, length_replicate, Hpre; done).
  put_step.
  assert (drop HEADER_LEN ((pre ++ u64_bytes (usize_of (HEADER_LEN + length body))) ++
    replicate 296 x00 ++ body) = body) as ->.
  { rewrite (assoc_L (++)). rewrite drop_app_ge by (autorewrite with snap; rewrite Hpre; unfold HEADER_LEN; lia).
    autorewrite with snap. by rewrite Hpre. }
  do 11 put_step. rewrite put_ranges_spec.
  - rewrite Hrs. change (208 - SECTION_COUNT * 16) with 48. f_equal. unfold header, header_words, pre.
    rewrite bind_app. cbn [mbind list_bind]. by rewrite <- !(assoc_L (++)).
  - autorewrite with snap. rewrite Hpre. unfold SECTION_TABLE_OFFSET. lia.
  - rewrite Hrs. unfold SECTION_COUNT. lia.
Qed.
End header.

(** ** Reading the header *)

Definition words_ok (vals : list N) : Prop := length vals = 32 ∧ Forall u64_ok vals.

Lemma read_header_word vals i v body :
  words_ok vals → vals !! i = Some v → read_u64_at (header vals ++ body) (16 + i * 8) = Ok v.
Proof.
  intros [_ Hok] Hi.
  destruct (bind_blocks u64_bytes 8 vals i v length_u64_bytes Hi) as (post & Hp & Hl).
  apply (read_u64_at_app (MAGIC ++ u32_bytes VERSION ++ u32_bytes (as_u32 HEADER_LEN) ++
    (w ← take i vals; u64_bytes w)) v (post ++ replicate 48 x00 ++ body)).
  - unfold header. rewrite Hp. by rewrite <- !(assoc_L (++)).
  - rewrite !length_app, Hl, !length_u32_bytes. cbn. lia.
  - by eapply Forall_lookup.
Qed.

Lemma check_envelope_ok vals body :
  words_ok vals → vals !! 0 = Some (N.of_nat (HEADER_LEN + length (body ++ TRAILER))) →
  vals !! 1 = Some (digest (body ++ TRAILER)) →
  (N.of_nat (HEADER_LEN + length (body ++ TRAILER)) <= MAX_SNAPSHOT_BYTES)%N →
  check_envelope (header vals ++ body ++ TRAILER) = Ok true.
Proof.
  intros Hw H0 H1 Hmax. pose proof (length_header vals (proj1 Hw)) as Hh.
  unfold check_envelope.
  rewrite (length_app (header vals)), Hh. rewrite (length_app body).
  rewrite (length_app body) in Hmax. change (length TRAILER) with 8 in *.
  rewrite (proj2 (Nat.ltb_ge _ _)) by lia. rewrite (proj2 (N.ltb_ge _ _)) by lia. cbn [orb].
  rewrite (range_at [] MAGIC (drop 8 (header vals) ++ body ++ TRAILER)) by done.
  cbn [or_panic outcome_bind]. rewrite bool_decide_false by (intros Hne; by apply Hne).
  rewrite (read_u32_at_app MAGIC VERSION (u32_bytes (as_u32 HEADER_LEN) ++ (v ← vals; u64_bytes v) ++
    replicate 48 x00 ++ body ++ TRAILER));
    [|unfold header; by rewrite <- !(assoc_L (++))|done|done].
  cbn [outcome_bind]. rewrite bool_decide_false by (intros Hne; by apply Hne).
  rewrite (read_u32_at_app (MAGIC ++ u32_bytes VERSION) (as_u32 HEADER_LEN) ((v ← vals; u64_bytes v) ++
    replicate 48 x00 ++ body ++ TRAILER));
    [|unfold header; by rewrite <- !(assoc_L (++))|by rewrite length_app, length_u32_bytes|done].
  cbn [outcome_bind]. rewrite bool_decide_false by (intros Hne; by apply Hne).
  rewrite (read_header_word vals 0 _ _ Hw H0 : read_u64_at _ 16 = _).
  cbn [outcome_bind]. rewrite (length_app body). change (length TRAILER) with 8.
  rewrite bool_decide_false by (intros Hne; by apply Hne).
  rewrite (range_at (header vals ++ body) TRAILER []);
    [|by rewrite app_nil_r, <- (assoc_L (++))|rewrite length_app, Hh; lia
     |rewrite length_app, Hh; change (length TRAILER) with 8; lia].
  cbn [or_panic outcome_bind]. rewrite bool_decide_false by (intros Hne; by apply Hne).
  rewrite (read_header_word vals 1 _ _ Hw H1 : read_u64_at _ 24 = _). cbn [outcome_bind].
  rewrite <- Hh, drop_app_length. by rewrite bool_decide_true.
Qed.

(** The section table. *)
Lemma range_words_lookup rs i r :
  rs !! i = Some r →
  range_words rs !! (i * 2) = Some (usize_of r.1) ∧
  range_words rs !! (i * 2 + 1) = Some (usize_of (r.2 - r.1)).
Proof.
  revert i. induction rs as [|x rs IH]; intros [|i] Hi; try done.
  - by injection Hi as ->.
  - unfold range_words. rewrite bind_cons. cbn [Nat.mul Nat.add]. by apply (IH i).
Qed.

Lemma read_sections vals12 rs body mapping :
  mapping = header (vals12 ++ range_words rs) ++ body ++ TRAILER →
  length vals12 = 12 → words_ok (vals12 ++ range_words rs) → length rs = SECTION_COUNT →
  u64_ok (N.of_nat (length mapping)) →
  Forall (λ r, HEADER_LEN ≤ r.1 ∧ r.1 ≤ r.2 ∧ r.2 ≤ length mapping - length TRAILER) rs →
  outcome_map (read_section mapping) (seq 0 SECTION_COUNT) = Ok rs.
Proof.
  intros Hmap H12 Hw Hrs Hu Hb. apply outcome_map_ok, Forall2_same_length_lookup.
  rewrite length_seq. split; [done|]. intros i x r [Hx _]%lookup_seq Hr. cbn [Nat.add] in Hx. subst x.
  destruct (range_words_lookup rs i r Hr) as [H1 H2].
  pose proof (proj1 (Forall_lookup _ _) Hb i r Hr) as (B1 & B2 & B3). cbv beta in B1, B2, B3.
  assert (∀ n, n ≤ length mapping → usize_of n = N.of_nat n) as Hsmall.
  { intros n Hn. apply u64_wrap_small. unfold u64_ok in *. lia. }
  unfold read_section.
  assert (read_u64_at mapping (SECTION_TABLE_OFFSET + i * 16) = Ok (N.of_nat r.1)) as ->.
  { replace (SECTION_TABLE_OFFSET + i * 16) with (16 + (12 + i * 2) * 8)
      by (unfold SECTION_TABLE_OFFSET; lia).
    rewrite Hmap. apply read_header_word; [done|]. rewrite lookup_app_r by lia.
    rewrite H12. replace (12 + i * 2 - 12) with (i * 2) by lia. rewrite H1, Hsmall by lia. done. }
  cbn [outcome_bind].
  assert (read_u64_at mapping (SECTION_TABLE_OFFSET + i * 16 + 8) = Ok (N.of_nat (r.2 - r.1))) as ->.
  { replace (SECTION_TABLE_OFFSET + i * 16 + 8) with (16 + (12 + (i * 2 + 1)) * 8)
      by (unfold SECTION_TABLE_OFFSET; lia).
    rewrite Hmap. apply read_header_word; [done|]. rewrite lookup_app_r by lia.
    rewrite H12. replace (12 + (i * 2 + 1) - 12) with (i * 2 + 1) by lia. rewrite H2, Hsmall by lia. done. }
  cbn [outcome_bind]. unfold u64_checked_add. unfold u64_ok in Hu.
  rewrite (proj2 (N.ltb_lt _ _)) by lia. cbn [ok_or outcome_bind].
  rewrite (proj2 (N.ltb_ge _ _)) by lia. rewrite (proj2 (N.ltb_ge _ _)) by lia. cbn [orb].
  destruct r as [a b]. cbn [fst snd] in *. do 2 f_equal; lia.
Qed.

(** The content of a mapped VM snapshot as lists, what the checks of [open] ask
    of it, and that a file laid out from it opens and reads as it. *)

Local Open Scope string_scope.
Local Open Scope nat_scope.
Local Open Scope list_scope.

#[local] Opaque Nat.div Nat.modulo u32_bytes u64_bytes le_bytes.

Record image := Image {
  im_slots : list string;
  im_predicates : list string;
  im_literals : list string;
  im_records : list MappedRecord;
  im_heads : list N;
  im_active : list N;
  im_spo : list IndexEntry;
  im_pos : list IndexEntry;
  im_osp : list IndexEntry;
  im_frames : list CommitFrame;
}.

Definition im_index (im : image) (sec : nat) : option (list IndexEntry) :=
  if decide (sec = SPO) then Some (im_spo im)
  else if decide (sec = POS) then Some (im_pos im)
  else if decide (sec = OSP) then Some (im_osp im)
  else None.

(** The readers of an opened snapshot return the image. *)
Record shows (s : MmapVmSnapshot) (im : image) : Prop := {
  sh_slots : table_shows (ms_slots s) (ms_mapping s) (im_slots im);
  sh_predicates : table_shows (ms_predicates s) (ms_mapping s) (im_predicates im);
  sh_literals : table_shows (ms_literals s) (ms_mapping s) (im_literals im);
  sh_record_count : retained_record_count s = length (im_records im);
  sh_record i r : im_records im !! i = Some r → record s (N.of_nat i) = Ok r;
  sh_head i h : im_heads im !! i = Some h → head s (N.of_nat i) = Ok h;
  sh_active_count : ms_active_slot_count s = length (im_active im);
  sh_active i x : im_active im !! i = Some x → active_record s i = Ok x;
  sh_index sec l : im_index im sec = Some l → index_count s sec = length l;
  sh_entry sec l i e : im_index im sec = Some l → l !! i = Some e → index_entry s sec i = Ok e;
  sh_frames : frames s = Ok (im_frames im);
}.

(** ** Well-formed images *)

Definition cell_in (im : image) (cell : N) : Prop :=
  (VM_LITERAL_BASE <= cell → cell - VM_LITERAL_BASE < N.of_nat (length (im_literals im)))%N.

Record record_in (im : image) (i : nat) (r : MappedRecord) : Prop := {
  ri_ok : record_ok r;
  ri_slot : (mr_slot r < N.of_nat (length (im_slots im)))%N;
  ri_previous : mr_previous r = NONE ∨ (mr_previous r < N.of_nat i)%N;
  ri_subject : cell_in im (mr_subject r);
  ri_predicate : (mr_predicate r < N.of_nat (length (im_predicates im)))%N;
  ri_object : cell_in im (mr_object r);
}.

Definition key_le (x y : IndexEntry) : Prop := ord_le (entry_key x) (entry_key y).

Record index_in (im : image) (l : list IndexEntry) : Prop := {
  ii_length : length l = length (im_active im);
  ii_entries : Forall (λ e, entry_ok e ∧ (ie_record e < N.of_nat (length (im_records im)))%N) l;
  ii_sorted : StronglySorted key_le l;
}.

Record table_wf (values : list string) : Prop := {
  tw_ok : Forall string_ok values;
  tw_sorted : strictly_sorted values;
}.

Record image_wf (im : image) : Prop := {
  iw_slots : table_wf (im_slots im);
  iw_predicates : table_wf (im_predicates im);
  iw_literals : table_wf (im_literals im);
  iw_records i r : im_records im !! i = Some r → record_in im i r;
  iw_head_count : length (im_heads im) = length (im_slots im);
  iw_heads : Forall (λ h, h = NONE ∨ (h < N.of_nat (length (im_records im)))%N) (im_heads im);
  iw_active : Forall (λ x, (x < N.of_nat (length (im_records im)))%N) (im_active im);
  iw_index sec l : im_index im sec = Some l → index_in im l;
  iw_frames : Forall frame_wf (im_frames im);
}.

Definition image_sections (im : image) (frame_bytes : list u8) : list (list u8) :=
  [encode_string_table (im_slots im); encode_string_table (im_predicates im);
   encode_string_table (im_literals im); (r ← im_records im; record_image r);
   encode_u32s (im_heads im); encode_u32s (im_active im);
   (e ← im_spo im; entry_image e); (e ← im_pos im; entry_image e);
   (e ← im_osp im; entry_image e); frame_bytes].

(** ** Sections of an opened snapshot *)

Definition section_at (s : MmapVmSnapshot) (i : nat) (bytes : list u8) : Prop :=
  range (ms_mapping s) (section s i).1 (section s i).2 = Some bytes.

Lemma section_at_len s i bytes : section_at s i bytes → section_len (section s i) = length bytes.
Proof.
  intros (H1 & H2 & ->)%range_Some. unfold section_len. rewrite length_take, length_drop. lia.
Qed.

(** The [i]-th block of a section. *)
Lemma section_block {A} (f : A → list u8) n (l : list A) s sec i x :
  (∀ y, length (f y) = n) → section_at s sec (y ← l; f y) → l !! i = Some x →
  range (ms_mapping s) ((section s sec).1 + i * n) ((section s sec).1 + i * n + n) = Some (f x).
Proof.
  intros Hn Hs Hi. destruct (bind_blocks f n l i x Hn Hi) as (post & Hp & Hl).
  pose proof (proj1 (range_Some _ _ _ _) Hs) as (H1 & H2 & Heq).
  apply (f_equal length) in Heq. rewrite length_take, length_drop in Heq.
  rewrite Hp, !length_app, Hl, Hn in Heq.
  rewrite <- Nat.add_assoc. rewrite (range_range _ _ _ _ _ _ Hs) by lia. rewrite Hp.
  by eapply range_at; [done|rewrite Hl|rewrite Hl, Hn].
Qed.

Lemma section_count {A} (f : A → list u8) n (l : list A) s sec :
  (∀ y, length (f y) = n) → n ≠ 0 → section_at s sec (y ← l; f y) →
  section_len (section s sec) = length l * n ∧ section_len (section s sec) / n = length l.
Proof.
  intros Hn Hne Hs. rewrite (section_at_len _ _ _ Hs), (length_bind_blocks f n) by done.
  split; [done|]. by rewrite Nat.div_mul.
Qed.

(** A [u32] of a section of [u32]s. *)
Lemma section_u32 s sec l i x :
  section_at s sec (encode_u32s l) → l !! i = Some x → u32_ok x →
  (let* bytes := section_bytes s sec in read_u32_at bytes (i * 4)) = Ok x.
Proof.
  intros Hs Hi Hx. unfold section_bytes. rewrite Hs. cbn [or_panic outcome_bind].
  destruct (bind_blocks u32_bytes 4 l i x length_u32_bytes Hi) as (post & Hp & Hl).
  by eapply read_u32_at_app; [exact Hp|rewrite Hl|].
Qed.

(** What the sections of an opened snapshot hold. *)
Record holds (s : MmapVmSnapshot) (im : image) (frame_bytes : list u8) : Prop := {
  ho_section i sec : image_sections im frame_bytes !! i = Some sec → section_at s i sec;
  ho_small i sec : image_sections im frame_bytes !! i = Some sec →
    (N.of_nat (length sec) <= MAX_SNAPSHOT_BYTES)%N;
  ho_slots : table_shows (ms_slots s) (ms_mapping s) (im_slots im);
  ho_predicates : table_shows (ms_predicates s) (ms_mapping s) (im_predicates im);
  ho_literals : table_shows (ms_literals s) (ms_mapping s) (im_literals im);
  ho_active_count : ms_active_slot_count s = length (im_active im);
  ho_frames : encode_frames (im_frames im) = Ok frame_bytes;
}.

Lemma holds_record_count s im fb : holds s im fb →
  (N.of_nat (length (im_records im)) * 48 <= MAX_SNAPSHOT_BYTES)%N.
Proof.
  intros Hh. pose proof (ho_small _ _ _ Hh RECORDS _ eq_refl) as Hb.
  rewrite (length_bind_blocks record_image RECORD_LEN) in Hb by apply length_record_image.
  unfold RECORD_LEN in Hb. lia.
Qed.

Lemma im_index_section im fb sec l : im_index im sec = Some l →
  image_sections im fb !! sec = Some (e ← l; entry_image e).
Proof.
  unfold im_index. repeat (case_decide; [subst; by intros [= <-]|]). done.
Qed.

Lemma record_index_ok im s fb x : holds s im fb → (x < N.of_nat (length (im_records im)))%N → u32_ok x.
Proof.
  intros Hh Hx. pose proof (holds_record_count _ _ _ Hh) as Hc.
  unfold u32_ok, u32_modulus. unfold MAX_SNAPSHOT_BYTES in Hc. lia.
Qed.

Lemma holds_record s im fb i r :
  holds s im fb → record_ok r → im_records im !! i = Some r → record s (N.of_nat i) = Ok r.
Proof.
  intros Hh Hok Hi. unfold record. rewrite Nat2N.id.
  rewrite (section_block record_image RECORD_LEN _ _ _ _ _ length_record_image
    (ho_section _ _ _ Hh RECORDS _ eq_refl) Hi).
  cbn [ok_or outcome_bind]. destruct (read_record_image r Hok) as (-> & -> & -> & -> & -> & ->).
  by destruct r.
Qed.

Lemma holds_entry s im fb sec l i e :
  holds s im fb → im_index im sec = Some l → entry_ok e → l !! i = Some e → index_entry s sec i = Ok e.
Proof.
  intros Hh Hl Hok Hi. unfold index_entry.
  rewrite (section_block entry_image INDEX_ENTRY_LEN _ _ _ _ _ length_entry_image
    (ho_section _ _ _ Hh sec _ (im_index_section _ _ _ _ Hl)) Hi).
  cbn [ok_or outcome_bind]. destruct (read_entry_image e Hok) as (-> & -> & -> & ->).
  by destruct e.
Qed.

(** The readers return the image. *)
Lemma holds_shows s im fb : holds s im fb → image_wf im → shows s im.
Proof.
  intros Hh Hw. pose proof (ho_section _ _ _ Hh) as Hs. split.
  - apply Hh.
  - apply Hh.
  - apply Hh.
  - by apply (section_count record_image RECORD_LEN _ _ RECORDS length_record_image ltac:(done)), Hs.
  - intros i r Hi. eapply holds_record; [done| |done]. by apply (iw_records _ Hw i).
  - intros i h Hi. unfold head. rewrite Nat2N.id.
    eapply section_u32; [by apply (Hs HEADS)|done|].
    pose proof (proj1 (Forall_lookup _ _) (iw_heads _ Hw) i h Hi) as [->|Hlt]; [done|].
    by eapply record_index_ok.
  - apply Hh.
  - intros i x Hi. unfold active_record. eapply section_u32; [by apply (Hs ACTIVE)|done|].
    pose proof (proj1 (Forall_lookup _ _) (iw_active _ Hw) i x Hi). by eapply record_index_ok.
  - intros sec l Hl. unfold index_count.
    apply (section_count entry_image INDEX_ENTRY_LEN _ _ _ length_entry_image ltac:(done)), Hs.
    by apply im_index_section.
  - intros sec l i e Hl Hi. eapply holds_entry; [done..| |done].
    by apply (proj1 (Forall_lookup _ _) (ii_entries _ _ (iw_index _ Hw sec l Hl)) i e Hi).
  - unfold frames, section_bytes. rewrite (Hs FRAMES _ eq_refl). cbn [or_panic outcome_bind].
    rewrite (decode_encode_frames (im_frames im)); [done|apply Hw|apply Hh|].
    pose proof (ho_small _ _ _ Hh FRAMES _ eq_refl) as Hb.
    unfold u64_ok, u64_modulus. unfold MAX_SNAPSHOT_BYTES in Hb. lia.
Qed.

(** ** The checks of [open] *)

Lemma outcome_fold_unit {E A} (f : unit → A → outcome E unit) l :
  (∀ x, x ∈ l → f tt x = Ok tt) → outcome_fold f l tt = Ok tt.
Proof.
  induction l as [|x l IH]; intros Hf; [done|]. cbn [outcome_fold].
  rewrite Hf by left. apply IH. intros. apply Hf. by right.
Qed.

(** The counts of an image that fits a snapshot. *)
Record image_small (im : image) : Prop := {
  is_slots : u32_ok (N.of_nat (length (im_slots im)));
  is_predicates : u32_ok (N.of_nat (length (im_predicates im)));
  is_literals : u32_ok (N.of_nat (length (im_literals im)));
  is_records : u32_ok (N.of_nat (length (im_records im)));
}.

Section validate.
Context (s : MmapVmSnapshot) (im : image) (Hs : shows s im) (Hw : image_wf im) (Hsm : image_small im).

Lemma u32_index n i : u32_ok (N.of_nat n) → i < n → as_u32 i = N.of_nat i.
Proof. intros Hn Hi. apply as_u32_exact. unfold u32_ok in *. lia. Qed.

Lemma cell_in_check cell : cell_in im cell →
  ((VM_LITERAL_BASE <=? cell) && (N.of_nat (literal_count s) <=? cell - VM_LITERAL_BASE))%N = false.
Proof.
  intros Hc. unfold literal_count. rewrite (ts_len _ _ _ (sh_literals _ _ Hs)).
  destruct (N.leb_spec VM_LITERAL_BASE cell) as [Hb|]; [|done]. apply N.leb_gt. by apply Hc.
Qed.

Lemma validate_record_ok i : i < length (im_records im) → validate_record s tt i = Ok tt.
Proof.
  intros Hi. destruct (lookup_lt_is_Some_2 _ _ Hi) as [r Hr].
  destruct (iw_records _ Hw i r Hr) as [_ H1 H2 H3 H4 H5].
  unfold validate_record. rewrite (u32_index _ _ (is_records _ Hsm) Hi), (sh_record _ _ Hs i r Hr).
  cbn [outcome_bind]. rewrite !cell_in_check by done. unfold slot_count, predicate_count.
  rewrite (ts_len _ _ _ (sh_slots _ _ Hs)), (ts_len _ _ _ (sh_predicates _ _ Hs)).
  rewrite !(proj2 (N.leb_gt _ _)) by done. cbn [orb].
  destruct H2 as [->|H2]; [done|]. rewrite (proj2 (N.leb_gt _ _)) by done. by rewrite andb_false_r.
Qed.

Lemma validate_head_ok i : i < length (im_slots im) → validate_head s tt i = Ok tt.
Proof.
  intros Hi. pose proof Hi as Hi'. rewrite <- (iw_head_count _ Hw) in Hi'.
  destruct (lookup_lt_is_Some_2 _ _ Hi') as [h Hh].
  unfold validate_head. rewrite (u32_index _ _ (is_slots _ Hsm) Hi), (sh_head _ _ Hs i h Hh).
  cbn [outcome_bind]. rewrite (sh_record_count _ _ Hs).
  destruct (proj1 (Forall_lookup _ _) (iw_heads _ Hw) i h Hh) as [->|Hlt]; [done|].
  rewrite (proj2 (N.leb_gt _ _)) by done. by rewrite andb_false_r.
Qed.

Lemma validate_entries_ok sec l i previous :
  im_index im sec = Some l →
  (∀ p e, previous = Some p → e ∈ drop i l → ord_le p (entry_key e)) → i ≤ length l →
  ∃ p, outcome_fold (validate_entry s sec) (seq i (length l - i)) previous = Ok p.
Proof.
  intros Hl. remember (length l - i) as n eqn:Hn. revert i previous Hn.
  induction n as [|n IH]; intros i previous Hn Hp Hi; [by eexists|].
  cbn [seq outcome_fold]. destruct (lookup_lt_is_Some_2 l i) as [e He]; [lia|].
  destruct (iw_index _ Hw sec l Hl) as [_ Hall Hsort].
  destruct (proj1 (Forall_lookup _ _) Hall i e He) as [_ Hr].
  unfold validate_entry at 1. rewrite (sh_entry _ _ Hs sec l i e Hl He). cbn [outcome_bind].
  rewrite (sh_record_count _ _ Hs), (proj2 (N.leb_gt _ _)) by done.
  assert (match previous with
    | Some value => match cmp value (entry_key e) with Gt => true | _ => false end
    | None => false
    end = false) as ->.
  { destruct previous as [p|]; [|done]. specialize (Hp p e eq_refl).
    rewrite (drop_S _ _ _ He) in Hp. specialize (Hp ltac:(by left)). unfold ord_le in Hp.
    by destruct (cmp p (entry_key e)). }
  cbn [outcome_bind]. apply IH; [lia| |lia].
  intros p e' [= <-] He'. rewrite <- (take_drop_middle l i e He) in Hsort.
  apply StronglySorted_app_1_r in Hsort. apply StronglySorted_cons in Hsort as [Hall' _].
  by apply (proj1 (Forall_forall _ _) Hall').
Qed.

Lemma validate_ok : validate_records_and_indexes s = Ok tt.
Proof.
  unfold validate_records_and_indexes. rewrite outcome_fold_unit.
  2:{ intros i Hi%elem_of_seq. rewrite (sh_record_count _ _ Hs) in Hi. apply validate_record_ok. lia. }
  cbn [outcome_bind]. rewrite outcome_fold_unit.
  2:{ intros i Hi%elem_of_seq. unfold slot_count in Hi. rewrite (ts_len _ _ _ (sh_slots _ _ Hs)) in Hi.
      apply validate_head_ok. lia. }
  cbn [outcome_bind]. apply outcome_fold_unit. intros sec Hsec.
  assert (is_Some (im_index im sec)) as [l Hl]
    by (repeat (apply elem_of_cons in Hsec as [->|Hsec]; [by eexists|]); by apply elem_of_nil in Hsec).
  unfold validate_index. rewrite (sh_index _ _ Hs sec l Hl).
  destruct (validate_entries_ok sec l 0 None Hl) as [p Hp]; [done|lia|].
  rewrite Nat.sub_0_r in Hp. by rewrite Hp.
Qed.
End validate.

(** ** Opening what was laid out *)

(** The metadata of a snapshot. *)
Record snapshot_meta := SnapshotMeta {
  sm_epoch_count : N;
  sm_world_id : N;
  sm_version : N;
  sm_next_entity : N;
  sm_operation_count : N;
  sm_record_count : N;
}.

Definition meta_ok (m : snapshot_meta) : Prop :=
  u64_ok (sm_epoch_count m) ∧ u64_ok (sm_world_id m) ∧ u64_ok (sm_version m) ∧
  u64_ok (sm_next_entity m) ∧ u64_ok (sm_operation_count m) ∧ u64_ok (sm_record_count m).

(** The first twelve words of the header. *)
Definition meta_words (total : nat) (body_digest : N) (journal : list u8) (m : snapshot_meta)
    (im : image) : list N :=
  [usize_of total; body_digest; sm_epoch_count m; usize_of (length journal); digest journal;
   sm_world_id m; sm_version m; sm_next_entity m; sm_operation_count m;
   usize_of (length (im_active im)); sm_record_count m; usize_of (length (im_frames im))].

Definition has_meta (s : MmapVmSnapshot) (journal : list u8) (m : snapshot_meta) (im : image) : Prop :=
  ms_epoch_count s = sm_epoch_count m ∧ ms_journal_offset s = N.of_nat (length journal) ∧
  ms_world_id s = WorldId_new (sm_world_id m) ∧ ms_world_version s = sm_version m ∧
  ms_next_entity s = sm_next_entity m ∧ ms_operation_count s = sm_operation_count m ∧
  ms_record_count s = sm_record_count m ∧ ms_frame_count s = N.of_nat (length (im_frames im)).

Lemma digest_ok bytes : u64_ok (digest bytes).
Proof.
  unfold digest, fnv_write. assert (u64_ok FNV_OFFSET_BASIS) as H by done. revert H.
  generalize FNV_OFFSET_BASIS. induction bytes as [|b bytes IH]; intros h Hh; [done|].
  cbn [foldl]. apply IH. apply u64_wrap_ok.
Qed.

Lemma length_table_offsets o values : length (table_offsets o values) = length values * 8.
Proof.
  revert o. induction values as [|v values IH]; intros o; [done|]. cbn [table_offsets length].
  rewrite length_app, length_u64_bytes, IH. lia.
Qed.

(** A table of a section whose length is bounded. *)
Lemma encoded_table_small values n :
  (N.of_nat (length (encode_string_table values)) <= n)%N → (n < u64_modulus)%N →
  (N.of_nat (length values) * 8 <= n)%N ∧ (N.of_nat (length (table_blob values)) <= n)%N.
Proof.
  intros Hl Hn. unfold encode_string_table in Hl. rewrite !length_app, !length_u32_bytes, length_u64_bytes in Hl.
  fold (table_blob values) in Hl.
  rewrite length_table_offsets in Hl. lia.
Qed.

Section open.
Context (im : image) (fb journal : list u8) (m : snapshot_meta) (body : list u8) (rs : list (nat * nat)).
Context (Hw : image_wf im) (Hfb : encode_frames (im_frames im) = Ok fb) (Hm : meta_ok m).
Context (Hlayout : foldl push_section (replicate HEADER_LEN x00, []) (image_sections im fb) =
  (replicate HEADER_LEN x00 ++ body, rs)).
Context (Hmax : (N.of_nat (HEADER_LEN + length (body ++ TRAILER)) <= MAX_SNAPSHOT_BYTES)%N).
Context (Hju : u64_ok (N.of_nat (length journal))).

Definition image_words : list N :=
  meta_words (HEADER_LEN + length (body ++ TRAILER)) (digest (body ++ TRAILER)) journal m im ++
  range_words rs.

Definition image_file : list u8 := header image_words ++ body ++ TRAILER.

Lemma image_laid_out : laid_out HEADER_LEN (replicate HEADER_LEN x00 ++ body) (image_sections im fb) rs.
Proof.
  destruct (layout_spec (image_sections im fb) (replicate HEADER_LEN x00) []) as (tail & rs' & Heq & Hl).
  rewrite Hlayout in Heq. injection Heq as Hb ->. rewrite <- Hb in Hl.
  by rewrite length_replicate in Hl.
Qed.

Lemma length_rs : length rs = SECTION_COUNT.
Proof. by rewrite (lo_length _ _ _ _ image_laid_out). Qed.

Lemma length_image_words : length image_words = 32.
Proof. unfold image_words. by rewrite length_app, length_range_words, length_rs. Qed.

Lemma length_image_file : length image_file = HEADER_LEN + length (body ++ TRAILER).
Proof. unfold image_file. by rewrite length_app, length_header by apply length_image_words. Qed.

Lemma image_file_u64 : u64_ok (N.of_nat (length image_file)).
Proof. rewrite length_image_file. unfold u64_ok, u64_modulus. unfold MAX_SNAPSHOT_BYTES in Hmax. lia. Qed.

Lemma image_section i sec : image_sections im fb !! i = Some sec →
  ∃ r, rs !! i = Some r ∧ range image_file r.1 r.2 = Some sec.
Proof.
  intros Hi. destruct (lo_ranges _ _ _ _ image_laid_out i sec Hi) as (r & Hr & Hrange).
  exists r. split; [done|]. specialize (Hrange TRAILER).
  destruct (proj1 (Forall_lookup _ _) (lo_bounds _ _ _ _ image_laid_out) i r Hr) as (B1 & B2 & _).
  rewrite <- (assoc_L (++)), range_app_r in Hrange by (rewrite ?length_replicate; lia).
  rewrite length_replicate in Hrange. unfold image_file.
  assert (length (header image_words) = HEADER_LEN) as Hh by apply length_header, length_image_words.
  rewrite range_app_r by (rewrite ?Hh; lia). by rewrite Hh.
Qed.

Lemma image_section_small i sec : image_sections im fb !! i = Some sec →
  (N.of_nat (length sec) <= MAX_SNAPSHOT_BYTES)%N.
Proof.
  intros Hi. destruct (image_section i sec Hi) as (r & _ & (H1 & H2 & ->)%range_Some).
  rewrite length_take, length_drop. rewrite length_image_file in *. lia.
Qed.

Lemma table_small values sec : image_sections im fb !! sec = Some (encode_string_table values) →
  u32_ok (N.of_nat (length values)) ∧ u64_ok (N.of_nat (length (table_blob values))).
Proof.
  intros Hs%image_section_small.
  destruct (encoded_table_small values MAX_SNAPSHOT_BYTES Hs ltac:(done)) as [H1 H2].
  unfold u32_ok, u64_ok, u32_modulus, u64_modulus. unfold MAX_SNAPSHOT_BYTES in *. lia.
Qed.

Lemma image_file_small : image_small im.
Proof.
  split.
  - by apply (table_small _ SLOTS).
  - by apply (table_small _ PREDICATES).
  - by apply (table_small _ LITERALS).
  - pose proof (image_section_small RECORDS _ eq_refl) as Hr.
    rewrite (length_bind_blocks record_image RECORD_LEN) in Hr by apply length_record_image.
    unfold RECORD_LEN in Hr. unfold u32_ok, u32_modulus. unfold MAX_SNAPSHOT_BYTES in Hr. lia.
Qed.

Lemma image_words_ok : words_ok image_words.
Proof.
  split; [apply length_image_words|]. unfold image_words, meta_words.
  destruct Hm as (M1 & M2 & M3 & M4 & M5 & M6). apply Forall_app. split.
  - repeat first [apply Forall_nil_2 | apply Forall_cons_2; [first [assumption | apply digest_ok | apply u64_wrap_ok]|]].
  - unfold range_words. clear. induction rs as [|r rs' IH]; [constructor|].
    rewrite bind_cons. constructor; [apply u64_wrap_ok|]. constructor; [apply u64_wrap_ok|done].
Qed.

Lemma image_word i v : image_words !! i = Some v → read_u64_at image_file (16 + i * 8) = Ok v.
Proof. apply read_header_word, image_words_ok. Qed.

(** The tables parse. *)
Lemma image_table sec values : table_wf values →
  image_sections im fb !! sec = Some (encode_string_table values) →
  ∃ t, st_parse image_file (default (0, 0) (rs !! sec)) = Ok t ∧ table_shows t image_file values.
Proof.
  intros [Hok Hs] Hsec. destruct (image_section _ _ Hsec) as ([a b] & -> & Hr).
  destruct (table_small _ _ Hsec) as [H1 H2]. cbn [default fst snd] in *.
  by apply st_parse_encoded.
Qed.

(** The snapshot that [open] builds. *)
Definition image_snapshot (t1 t2 t3 : StringTable) : MmapVmSnapshot :=
  MmapVmSnapshot_mk image_file (sm_epoch_count m) (N.of_nat (length journal))
    (WorldId_new (sm_world_id m)) (sm_version m) (sm_next_entity m) (sm_operation_count m)
    (length (im_active im)) (sm_record_count m) (N.of_nat (length (im_frames im))) rs t1 t2 t3.

Lemma image_snapshot_holds t1 t2 t3 :
  table_shows t1 image_file (im_slots im) → table_shows t2 image_file (im_predicates im) →
  table_shows t3 image_file (im_literals im) → holds (image_snapshot t1 t2 t3) im fb.
Proof.
  intros H1 H2 H3. split; try done.
  - intros i sec (r & Hr & Hrange)%image_section. unfold section_at, section. cbn [ms_mapping ms_sections image_snapshot].
    by rewrite Hr.
  - apply image_section_small.
Qed.

Lemma image_len i sec : image_sections im fb !! i = Some sec →
  section_len (default (0, 0) (rs !! i)) = length sec.
Proof.
  intros (r & -> & (H1 & H2 & ->)%range_Some)%image_section.
  change (default (0, 0) (Some r)) with r.
  unfold section_len. rewrite length_take, length_drop. lia.
Qed.

Lemma length_encode_u32s l : length (encode_u32s l) = length l * 4.
Proof. apply (length_bind_blocks u32_bytes), length_u32_bytes. Qed.

Lemma image_lens :
  section_len (default (0, 0) (rs !! RECORDS)) = length (im_records im) * RECORD_LEN ∧
  section_len (default (0, 0) (rs !! HEADS)) = length (im_slots im) * 4 ∧
  section_len (default (0, 0) (rs !! ACTIVE)) = length (im_active im) * 4 ∧
  section_len (default (0, 0) (rs !! SPO)) = length (im_active im) * INDEX_ENTRY_LEN ∧
  section_len (default (0, 0) (rs !! POS)) = length (im_active im) * INDEX_ENTRY_LEN ∧
  section_len (default (0, 0) (rs !! OSP)) = length (im_active im) * INDEX_ENTRY_LEN.
Proof.
  assert (∀ sec l, im_index im sec = Some l →
    section_len (default (0, 0) (rs !! sec)) = length (im_active im) * INDEX_ENTRY_LEN) as Hx.
  { intros sec l Hl. rewrite (image_len _ _ (im_index_section _ _ _ _ Hl)).
    rewrite (length_bind_blocks entry_image INDEX_ENTRY_LEN) by apply length_entry_image.
    by rewrite (ii_length _ _ (iw_index _ Hw _ _ Hl)). }
  split_and!.
  - rewrite (image_len RECORDS _ eq_refl).
    apply (length_bind_blocks record_image), length_record_image.
  - by rewrite (image_len HEADS _ eq_refl), length_encode_u32s, (iw_head_count _ Hw).
  - by rewrite (image_len ACTIVE _ eq_refl), length_encode_u32s.
  - by apply (Hx SPO (im_spo im)).
  - by apply (Hx POS (im_pos im)).
  - by apply (Hx OSP (im_osp im)).
Qed.

Lemma frames_header : ∃ rest, fb = u64_bytes (usize_of (length (im_frames im))) ++ rest.
Proof.
  unfold encode_frames in Hfb. destruct (outcome_map encode_frame _); [|done..].
  injection Hfb as <-. by eexists.
Qed.

Lemma frames_count_small : usize_of (length (im_frames im)) = N.of_nat (length (im_frames im)).
Proof.
  apply u64_wrap_small. pose proof (image_section_small FRAMES fb eq_refl) as Hs.
  unfold encode_frames in Hfb. destruct (outcome_map encode_frame _) as [bs|e|] eqn:Hb; [|done..].
  injection Hfb as <-. apply outcome_map_ok in Hb.
  assert (length (im_frames im) ≤ length (concat bs)) as Hle.
  { clear -Hb. induction Hb as [|f b fs bs Hf _ IH]; [simpl; lia|]. cbn [concat length].
    rewrite length_app. assert (0 < length b); [|lia]. unfold encode_frame in Hf.
    destruct (u32_try_from _); [|done]. cbn [ok_or outcome_bind] in Hf.
    destruct (outcome_map _ _); [|done..]. injection Hf as <-. rewrite !length_app, !length_u64_bytes. lia. }
  rewrite length_app in Hs. unfold u64_ok, u64_modulus. unfold MAX_SNAPSHOT_BYTES in Hs. lia.
Qed.

Lemma active_count_small : usize_of (length (im_active im)) = N.of_nat (length (im_active im)).
Proof.
  apply u64_wrap_small. pose proof (image_section_small ACTIVE _ eq_refl) as Hs.
  rewrite length_encode_u32s in Hs. unfold u64_ok, u64_modulus. unfold MAX_SNAPSHOT_BYTES in Hs. lia.
Qed.

Lemma image_read_sections :
  outcome_map (read_section image_file) (seq 0 SECTION_COUNT) = Ok rs.
Proof.
  eapply (read_sections (meta_words (HEADER_LEN + length (body ++ TRAILER)) (digest (body ++ TRAILER))
    journal m im) rs body).
  - done.
  - done.
  - apply image_words_ok.
  - apply length_rs.
  - apply image_file_u64.
  - eapply Forall_impl; [apply (lo_bounds _ _ _ _ image_laid_out)|]. intros r (B1 & B2 & B3).
    split_and!; [done|done|]. rewrite length_image_file, (length_app body).
    rewrite length_app, length_replicate in B3. lia.
Qed.

Lemma image_sections_sorted : overlapb (sort_by_start rs) = false.
Proof.
  destruct image_laid_out as [_ _ Hb Hs]. rewrite sort_by_start_id; [by apply overlapb_sorted| |done].
  eapply Forall_impl; [exact Hb|]. intros r (_ & ? & _). done.
Qed.

Lemma image_envelope : check_envelope image_file = Ok true.
Proof.
  apply check_envelope_ok.
  - apply image_words_ok.
  - unfold image_words, meta_words. cbn [app lookup list_lookup]. f_equal. rewrite <- length_image_file.
    apply u64_wrap_small, image_file_u64.
  - done.
  - done.
Qed.

Lemma image_frames_read :
  ∃ r, rs !! FRAMES = Some r ∧ range image_file r.1 r.2 = Some fb ∧ 8 ≤ length fb ∧
    read_u64_at fb 0 = Ok (N.of_nat (length (im_frames im))).
Proof.
  destruct (image_section FRAMES fb eq_refl) as (r & Hr & Hrange). exists r.
  destruct frames_header as [rest Hrest]. split_and!; [done|done| |].
  - rewrite Hrest, length_app, length_u64_bytes. lia.
  - rewrite <- frames_count_small. eapply (read_u64_at_app []); [exact Hrest|done|].
    apply u64_wrap_ok.
Qed.

Lemma journal_prefix_digest suffix : take (N.to_nat (N.of_nat (length journal))) (journal ++ suffix) = journal.
Proof. by rewrite Nat2N.id, take_app_length. Qed.

(** The header, field by field. *)
Lemma image_fields :
  read_u64_at image_file 32 = Ok (sm_epoch_count m) ∧
  read_u64_at image_file 40 = Ok (N.of_nat (length journal)) ∧
  read_u64_at image_file 48 = Ok (digest journal) ∧
  read_u64_at image_file 56 = Ok (sm_world_id m) ∧
  read_u64_at image_file 64 = Ok (sm_version m) ∧
  read_u64_at image_file 72 = Ok (sm_next_entity m) ∧
  read_u64_at image_file 80 = Ok (sm_operation_count m) ∧
  read_u64_at image_file 88 = Ok (N.of_nat (length (im_active im))) ∧
  read_u64_at image_file 96 = Ok (sm_record_count m) ∧
  read_u64_at image_file 104 = Ok (N.of_nat (length (im_frames im))).
Proof.
  rewrite <- active_count_small, <- frames_count_small, <- (u64_wrap_small _ Hju).
  split_and!.
  - by apply (image_word 2).
  - by apply (image_word 3).
  - by apply (image_word 4).
  - by apply (image_word 5).
  - by apply (image_word 6).
  - by apply (image_word 7).
  - by apply (image_word 8).
  - by apply (image_word 9).
  - by apply (image_word 10).
  - by apply (image_word 11).
Qed.

(** A file laid out from a well-formed image opens, with any continuation of
    the journal it was written for, and reads as the image. *)
Lemma open_image suffix : 16 ≤ length journal →
  ∃ s, open image_file (journal ++ suffix) = Ok s ∧ shows s im ∧ has_meta s journal m im.
Proof.
  intros Hj. destruct (image_table SLOTS _ (iw_slots _ Hw) eq_refl) as (t1 & P1 & T1).
  destruct (image_table PREDICATES _ (iw_predicates _ Hw) eq_refl) as (t2 & P2 & T2).
  destruct (image_table LITERALS _ (iw_literals _ Hw) eq_refl) as (t3 & P3 & T3).
  pose proof (holds_shows _ _ _ (image_snapshot_holds t1 t2 t3 T1 T2 T3) Hw) as Hs.
  pose proof (validate_ok _ im Hs Hw image_file_small) as Hv.
  exists (image_snapshot t1 t2 t3). split; [|split; [done|by split_and!]].
  pose proof image_envelope as He. pose proof image_read_sections as Hrs.
  pose proof image_sections_sorted as Hov. pose proof image_lens as (L1 & L2 & L3 & L4 & L5 & L6).
  pose proof (image_len FRAMES fb eq_refl) as L7. pose proof image_fields as
    (F32 & F40 & F48 & F56 & F64 & F72 & F80 & F88 & F96 & F104).
  destruct image_frames_read as (r & Hr & Hrange & Hlen & Hread).
  pose proof (ts_len _ _ _ T1) as Ht1. unfold image_snapshot in *. clear Hs T1 T2 T3 Hmax.
  generalize dependent image_file. intros file **.
  unfold open. rewrite He. cbn [outcome_bind negb]. rewrite F32, F40, F48. cbn [outcome_bind].
  rewrite journal_prefix_digest, N.eqb_refl, length_app.
  rewrite !(proj2 (N.ltb_ge _ _)) by lia. cbn [orb negb].
  rewrite Hrs. cbn [outcome_bind]. rewrite Hov, P1, P2, P3. cbn [outcome_bind].
  rewrite L1, L2, L3, L4, L5, L6, Ht1. rewrite !Nat.Div0.mod_mul, !Nat.div_mul by done.
  rewrite !bool_decide_false by (intros Hne; by apply Hne). cbn [orb].
  rewrite F88. cbn [outcome_bind]. rewrite !bool_decide_false by (intros Hne; by apply Hne).
  cbn [orb]. rewrite F56, F64, F72, F80, F96, F104. cbn [outcome_bind].
  rewrite L7, Hr, (proj2 (Nat.ltb_ge _ _)) by lia. change (default (0, 0) (Some r)) with r.
  rewrite Hrange. cbn [or_panic outcome_bind]. rewrite Hread. cbn [outcome_bind].
  rewrite bool_decide_false by (intros Hne; by apply Hne). by rewrite Hv.
Qed.
End open.
