(* ===== verification/SnapshotRep.v ===== *)
(** What the content of a mapped VM snapshot says about a history: its records
    encode the definition stacks, its heads their tops, its indexes the active
    facts; and that resolving and listing definitions read it that way. *)
From Stdlib Require Import NArith Lia.
From Stdlib Require Import Strings.Byte.
From stdpp Require Import sorting base gmap list strings option list_monad.
From S2P Require Import Prelude Ord Terms Bytes Query QueryFacts QueryOrder Spec Index Kernel Frames.
From S2P Require Import VmProjection Worlds WorldFacts Codec FileStore MmapFormat StackVm VmEpochs.
From S2P Require Import SnapshotFormat SnapshotFormatFacts MmapSnapshot SnapshotLayout.

Local Open Scope string_scope.
Local Open Scope nat_scope.
Local Open Scope list_scope.

#[local] Opaque Nat.div Nat.modulo u32_bytes u64_bytes le_bytes.

(** A cell stands for an atom. *)
Definition cell_shows (im : image) (c : N) (a : Atom) : Prop :=
  match a with
  | AEntity e => c = entity_value e ∧ (c < VM_LITERAL_BASE)%N
  | ALiteral l => ∃ t, c = (VM_LITERAL_BASE + N.of_nat t)%N ∧ im_literals im !! t = Some (literal_str l)
  end.

(** A record states a fact of a slot. *)
Record record_shows (im : image) (r : MappedRecord) (s : SlotId) (f : Fact) : Prop := {
  rs_slot : im_slots im !! N.to_nat (mr_slot r) = Some (slot_str s);
  rs_subject : cell_shows im (mr_subject r) (fact_subject f);
  rs_predicate : im_predicates im !! N.to_nat (mr_predicate r) =
    Some (predicate_str (fact_predicate f));
  rs_object : cell_shows im (mr_object r) (fact_object f);
}.

(** The records reached from an index, newest definition first. *)
Inductive chain_shows (im : image) (s : SlotId) : N → list Fact → Prop :=
| chain_none : chain_shows im s NONE []
| chain_record i r f l :
    i ≠ NONE → im_records im !! N.to_nat i = Some r → record_shows im r s f →
    chain_shows im s (mr_previous r) l → chain_shows im s i (f :: l).

Definition index_entry_of (sec : nat) : N → MappedRecord → IndexEntry :=
  if decide (sec = SPO) then spo_entry else if decide (sec = POS) then pos_entry else osp_entry.

Lemma ie_record_of sec x r : ie_record (index_entry_of sec x r) = x.
Proof. unfold index_entry_of. case_decide; [done|]. by case_decide. Qed.

(** The active records and what they state. *)
Definition active_shows (im : image) (x : N) (e : SlotId * Fact) : Prop :=
  ∃ r, im_records im !! N.to_nat x = Some r ∧ record_shows im r e.1 e.2.

Record image_shows (im : image) (evs : list Event) : Prop := {
  is_slot s t : im_slots im !! t = Some (slot_str s) →
    ∃ h, im_heads im !! t = Some h ∧ chain_shows im s h (spec_definitions evs s);
  is_absent s : slot_str s ∉ im_slots im → spec_definitions evs s = [];
  is_active : Forall2 (active_shows im) (im_active im) (active_entries evs);
  is_index sec l : im_index im sec = Some l → ∃ l', l ≡ₚ l' ∧
    Forall2 (λ x en, ∃ r, im_records im !! N.to_nat x = Some r ∧ en = index_entry_of sec x r)
      (im_active im) l';
  is_retained : length (im_records im) ≤ length evs;
}.

(** ** Cells *)

Lemma strictly_sorted_NoDup values : strictly_sorted values → NoDup values.
Proof.
  induction 1 as [|v values Hs IH Hall]; constructor; [|done].
  intros Hin. eapply Forall_forall in Hall; [|exact Hin]. cbv beta in Hall. by rewrite cmp_refl in Hall.
Qed.

Section cells.
Context (im : image) (Hl : table_wf (im_literals im)).

Lemma cell_shows_atom c a a' : cell_shows im c a → cell_shows im c a' → a = a'.
Proof.
  destruct a as [[v]|[l]], a' as [[v']|[l']]; cbn.
  - by intros [-> _] [<- _].
  - intros [-> H1] (t & -> & _). lia.
  - intros (t & -> & _) [_ H1]. lia.
  - intros (t & -> & H1) (t' & Ht & H2). assert (t' = t) as -> by lia. congruence.
Qed.

Lemma cell_shows_cell c c' a : cell_shows im c a → cell_shows im c' a → c = c'.
Proof.
  destruct a as [[v]|[l]]; cbn.
  - by intros [-> _] [-> _].
  - intros (t & -> & H1) (t' & -> & H2).
    by rewrite (NoDup_lookup _ t t' l (strictly_sorted_NoDup _ (tw_sorted _ Hl)) H1 H2).
Qed.
End cells.

(** ** Reading facts *)

Section reads.
Context (s : MmapVmSnapshot) (im : image) (evs : list Event).
Context (Hs : shows s im) (Hw : image_wf im) (Hsm : image_small im) (Hr : image_shows im evs).

Lemma atom_value_shows c a : cell_shows im c a → atom_value s c = Ok a.
Proof.
  unfold atom_value. destruct a as [[v]|[l]]; cbn [cell_shows].
  - intros [-> H]. cbn. by rewrite (proj2 (N.ltb_lt _ _)).
  - intros (t & -> & Ht). rewrite (proj2 (N.ltb_ge _ _)) by lia.
    replace (N.to_nat (VM_LITERAL_BASE + N.of_nat t - VM_LITERAL_BASE)) with t by lia.
    unfold literal_value. by rewrite (ts_value _ _ _ (sh_literals _ _ Hs) _ _ Ht).
Qed.

Lemma predicate_value_shows t p :
  im_predicates im !! t = Some (predicate_str p) → predicate_value s t = Some p.
Proof.
  intros Ht. unfold predicate_value. rewrite (ts_value _ _ _ (sh_predicates _ _ Hs) _ _ Ht).
  by destruct p.
Qed.

Lemma record_shows_read i r : im_records im !! N.to_nat i = Some r → record s i = Ok r.
Proof. intros Hi. rewrite <- (N2Nat.id i). by apply (sh_record _ _ Hs). Qed.

Lemma fact_shows i r slot f :
  im_records im !! N.to_nat i = Some r → record_shows im r slot f → fact s i = Ok f.
Proof.
  intros Hi [_ H1 H2 H3]. unfold fact. rewrite (sh_record_count _ _ Hs).
  pose proof (lookup_lt_Some _ _ _ Hi). rewrite (proj2 (N.leb_gt _ _)) by lia.
  rewrite (record_shows_read i r Hi). cbn [outcome_bind].
  rewrite (atom_value_shows _ _ H1), (predicate_value_shows _ _ H2), (atom_value_shows _ _ H3).
  by destruct f.
Qed.

Lemma slot_token_shows slot t :
  slot_token s (slot_str slot) = Some t ↔ im_slots im !! N.to_nat t = Some (slot_str slot).
Proof.
  apply st_lookup_spec; [apply Hs|apply (iw_slots _ Hw)|apply Hsm].
Qed.

Lemma slot_token_absent slot : slot_token s (slot_str slot) = None → slot_str slot ∉ im_slots im.
Proof.
  intros Hn (t & Ht)%list_elem_of_lookup.
  assert (slot_token s (slot_str slot) = Some (N.of_nat t)) as Hc
    by (apply slot_token_shows; by rewrite Nat2N.id).
  congruence.
Qed.

Lemma head_shows t h : im_heads im !! N.to_nat t = Some h → head s t = Ok h.
Proof. intros Hh. rewrite <- (N2Nat.id t). by apply (sh_head _ _ Hs). Qed.

Lemma spec_resolve_definitions slot : spec_resolve evs slot = hd_error (spec_definitions evs slot).
Proof. unfold spec_resolve, spec_definitions, top. by destruct (stack evs slot). Qed.

Lemma resolve_shows slot : resolve s slot = Ok (spec_resolve evs slot).
Proof.
  rewrite spec_resolve_definitions. unfold resolve. destruct (slot_token s _) as [t|] eqn:Ht.
  - apply slot_token_shows in Ht. destruct (is_slot _ _ Hr slot _ Ht) as (h & Hh & Hc).
    rewrite (head_shows _ _ Hh). cbn [ok_option outcome_bind]. case_decide as Hn; inversion Hc; subst; try done.
    by rewrite (fact_shows _ _ slot f) by done.
  - by rewrite (is_absent _ _ Hr _ (slot_token_absent _ Ht)).
Qed.

(** Chains go down, so that they end before the fuel does. *)
Lemma chain_shows_read slot h l fuel output :
  chain_shows im slot h l → (h ≠ NONE → N.to_nat h < fuel) →
  definition_chain fuel s h output = Ok (output ++ l).
Proof.
  intros Hc. revert fuel output. induction Hc as [|i r f l Hn Hi Hsh Hc IH]; intros fuel output Hf.
  - destruct fuel; cbn [definition_chain]; by rewrite app_nil_r.
  - specialize (Hf Hn). destruct fuel as [|fuel]; [lia|]. cbn [definition_chain].
    rewrite decide_False by done. rewrite (fact_shows _ _ _ _ Hi Hsh). cbn [ok_option outcome_bind].
    rewrite (record_shows_read _ _ Hi). cbn [ok_option outcome_bind]. rewrite IH.
    + by rewrite <- (assoc_L (++)).
    + intros Hp. destruct (ri_previous _ _ _ (iw_records _ Hw _ _ Hi)); [done|lia].
Qed.

Lemma definitions_shows slot : definitions s slot = Ok (spec_definitions evs slot).
Proof.
  unfold definitions. destruct (slot_token s _) as [t|] eqn:Ht.
  - apply slot_token_shows in Ht. destruct (is_slot _ _ Hr slot _ Ht) as (h & Hh & Hc).
    rewrite (head_shows _ _ Hh). cbn [ok_option outcome_bind default].
    apply (chain_shows_read slot h _ _ []); [done|]. intros Hn.
    destruct (proj1 (Forall_lookup _ _) (iw_heads _ Hw) _ _ Hh) as [|Hlt]; [done|].
    rewrite (sh_record_count _ _ Hs). lia.
  - by rewrite (is_absent _ _ Hr _ (slot_token_absent _ Ht)).
Qed.
End reads.

(** Queries on a mapped VM snapshot: an index range holds exactly the entries
    with the key, the candidates of a pattern are the active facts that agree
    with it in the order of the index, and the walker is the one of the other
    engines over these candidates. *)

Local Open Scope string_scope.
Local Open Scope nat_scope.
Local Open Scope list_scope.

#[local] Opaque Nat.div Nat.modulo u32_bytes u64_bytes le_bytes.

(** ** Prefixes of keys *)

Definition entry_prefix (len : nat) (e : IndexEntry) : list N :=
  take len [ie_first e; ie_second e; ie_third e].

(** The order of entries is the order of their prefixes. *)
Lemma entry_prefix_mono len x y : key_le x y → ord_le (entry_prefix len x) (entry_prefix len y).
Proof.
  destruct x as [a b c i], y as [a' b' c' i']. unfold key_le, entry_key, ord_le, entry_prefix.
  cbn [ie_first ie_second ie_third]. rewrite !prod_cmp. unfold cmp at 4, list_ord.
  destruct len as [|[|[|[|len]]]]; cbn [take list_cmp]; try done;
    generalize (cmp a a'), (cmp b b'), (cmp c c'); intros [] [] []; done.
Qed.

Lemma compare_succ a k : cmp a (k + 1)%N = Lt ↔ cmp a k ≠ Gt.
Proof. unfold cmp, N_ord. rewrite N.compare_lt_iff, N.compare_gt_iff. lia. Qed.

Lemma compare_succ_eq a k : cmp a (k + 1)%N = Eq ↔ a = (k + 1)%N.
Proof. by rewrite cmp_eq. Qed.

(** Adding one to the last word of a key bounds the entries of the key. *)
Lemma entry_prefix_next len key k e :
  0 < len ≤ 3 → length key = 3 → key !! (len - 1) = Some k →
  cmp (entry_prefix len e) (take len (<[len - 1 := (k + 1)%N]> key)) = Lt ↔
  cmp (entry_prefix len e) (take len key) ≠ Gt.
Proof.
  intros Hlen Hkey Hk. destruct key as [|x [|y [|z []]]]; try done.
  destruct e as [a b c i]. unfold entry_prefix. unfold cmp at 1, cmp at 1, list_ord.
  destruct len as [|[|[|[|len]]]]; try lia; injection Hk as ->;
    cbn [take list_cmp insert list_insert Nat.sub ie_first ie_second ie_third].
  - pose proof (compare_succ a k). destruct (cmp a (k + 1)%N), (cmp a k); naive_solver.
  - pose proof (compare_succ b k). destruct (cmp a x), (cmp b (k + 1)%N), (cmp b k); naive_solver.
  - pose proof (compare_succ c k).
    destruct (cmp a x), (cmp b y), (cmp c (k + 1)%N), (cmp c k); naive_solver.
Qed.

Lemma filter_none {A} (Q : A → Prop) `{!∀ x, Decision (Q x)} (l : list A) :
  (∀ x, x ∈ l → ¬ Q x) → filter Q l = [].
Proof.
  induction l as [|x l IH]; intros Hl; [done|]. rewrite filter_cons, decide_False by (apply Hl; by left).
  apply IH. intros. apply Hl. by right.
Qed.

Lemma filter_all {A} (Q : A → Prop) `{!∀ x, Decision (Q x)} (l : list A) :
  (∀ x, x ∈ l → Q x) → filter Q l = l.
Proof.
  induction l as [|x l IH]; intros Hl; [done|]. rewrite filter_cons, decide_True by (apply Hl; by left).
  f_equal. apply IH. intros. apply Hl. by right.
Qed.

(** ** Binary search *)

Section search.
Context (s : MmapVmSnapshot) (sec : nat) (l : list IndexEntry).
Context (Hentry : ∀ i e, l !! i = Some e → index_entry s sec i = Ok e).
Context (Hsorted : StronglySorted key_le l).

Lemma sorted_lookup i j x y : l !! i = Some x → l !! j = Some y → i < j → key_le x y.
Proof.
  intros Hi Hj Hij. rewrite <- (take_drop_middle l j y Hj) in Hsorted.
  eapply StronglySorted_app_1_elem_of in Hsorted; [exact Hsorted| |by left].
  apply list_elem_of_lookup. exists i. by rewrite lookup_take_lt.
Qed.

(** [k] separates the entries below the key from the others. *)
Definition separates (len : nat) (key : list N) (k : nat) : Prop :=
  (∀ i e, l !! i = Some e → i < k → cmp (entry_prefix len e) (take len key) = Lt) ∧
  (∀ i e, l !! i = Some e → k ≤ i → cmp (entry_prefix len e) (take len key) ≠ Lt).

Lemma below_closed len key i j x y :
  l !! i = Some x → l !! j = Some y → i ≤ j →
  cmp (entry_prefix len y) (take len key) = Lt → cmp (entry_prefix len x) (take len key) = Lt.
Proof.
  intros Hi Hj Hij Hy. destruct (decide (i = j)) as [->|]; [congruence|].
  pose proof (entry_prefix_mono len _ _ (sorted_lookup i j x y Hi Hj ltac:(lia))) as Hle.
  unfold ord_le in Hle. destruct (cmp (entry_prefix len x) (entry_prefix len y)) eqn:E; [|by eapply cmp_trans|done].
  apply cmp_eq in E. by rewrite E.
Qed.

Lemma lower_bound_loop_spec fuel len key low high :
  low ≤ high ≤ length l → high - low ≤ fuel →
  (∀ i e, l !! i = Some e → i < low → cmp (entry_prefix len e) (take len key) = Lt) →
  (∀ i e, l !! i = Some e → high ≤ i → cmp (entry_prefix len e) (take len key) ≠ Lt) →
  ∃ k, lower_bound_loop fuel s sec key len low high = Some k ∧ k ≤ length l ∧ separates len key k.
Proof.
  revert low high. induction fuel as [|fuel IH]; intros low high Hlh Hf H1 H2; cbn [lower_bound_loop].
  - rewrite (proj2 (Nat.ltb_ge _ _)) by lia. exists low. split_and!; [done|lia|]. split; [done|].
    intros i e Hi Hle. apply (H2 i e Hi). lia.
  - destruct (low <? high) eqn:E; [apply Nat.ltb_lt in E|apply Nat.ltb_ge in E].
    2:{ exists low. split_and!; [done|lia|]. split; [done|]. intros i e Hi Hle. apply (H2 i e Hi). lia. }
    pose proof (Nat.div_lt (high - low) 2 ltac:(lia) ltac:(lia)).
    set (middle := low + (high - low) / 2).
    destruct (lookup_lt_is_Some_2 l middle) as [e He]; [lia|]. rewrite (Hentry _ _ He).
    fold (entry_prefix len e). destruct (cmp (entry_prefix len e) (take len key)) eqn:Hc.
    + apply IH; [lia|lia|done|]. intros i x Hi Hle Hx.
      by rewrite (below_closed len key middle i e x He Hi Hle Hx) in Hc.
    + apply IH; [lia|lia| |done]. intros i x Hi Hlt.
      apply (below_closed len key i middle x e Hi He); [lia|done].
    + apply IH; [lia|lia|done|]. intros i x Hi Hle Hx.
      by rewrite (below_closed len key middle i e x He Hi Hle Hx) in Hc.
Qed.

(** The entries between two bounds are those that satisfy what separates them. *)
Lemma filter_range (Q : IndexEntry → Prop) `{!∀ e, Decision (Q e)} a b :
  a ≤ b → b ≤ length l → (∀ i e, l !! i = Some e → Q e ↔ a ≤ i < b) →
  filter Q l = take (b - a) (drop a l).
Proof.
  intros Hab Hb HQ. rewrite <- (take_drop a l) at 1. rewrite <- (take_drop (b - a) (drop a l)) at 1.
  rewrite !filter_app, drop_drop.
  rewrite (filter_none Q (take a l)), (filter_none Q (drop (a + (b - a)) l)), app_nil_r.
  - cbn [app]. apply filter_all. intros e (i & Hi)%list_elem_of_lookup. apply lookup_take_Some in Hi as [Hi Hlt].
    rewrite lookup_drop in Hi. apply (HQ _ _ Hi). lia.
  - intros e (i & Hi)%list_elem_of_lookup. rewrite lookup_drop in Hi. rewrite (HQ _ _ Hi). lia.
  - intros e (i & Hi)%list_elem_of_lookup. apply lookup_take_Some in Hi as [Hi Hlt]. rewrite (HQ _ _ Hi). lia.
Qed.

Lemma index_range_spec len key k :
  index_count s sec = length l → 0 < len ≤ 3 → length key = 3 → key !! (len - 1) = Some k →
  k ≠ u64_max →
  ∃ a b, index_range s sec key len = Some (a, b) ∧ a ≤ b ∧ b ≤ length l ∧
    filter (λ e, entry_prefix len e = take len key) l = take (b - a) (drop a l).
Proof.
  intros Hcount Hlen Hkey Hk Hmax. unfold index_range, lower_bound. rewrite Hcount.
  destruct (lower_bound_loop_spec (length l) len key 0 (length l)) as (a & Ha & Hal & Ha1 & Ha2);
    [lia|lia|lia|intros i e Hi%lookup_lt_Some; lia|].
  rewrite Ha. cbn [mbind option_bind]. rewrite decide_False by lia. rewrite Hk. cbn [mbind option_bind].
  rewrite decide_False by done.
  destruct (lower_bound_loop_spec (length l) len (<[len - 1 := (k + 1)%N]> key) 0 (length l))
    as (b & Hb & Hbl & Hb1 & Hb2); [lia|lia|lia|intros i e Hi%lookup_lt_Some; lia|].
  rewrite Hb. cbn [mbind option_bind]. exists a, b.
  assert (∀ i e, l !! i = Some e → i < b ↔ cmp (entry_prefix len e) (take len key) ≠ Gt) as Hb'.
  { intros i e Hi. rewrite <- (entry_prefix_next len key k e) by done. split; [by eauto|].
    intros Hc. destruct (decide (i < b)); [done|]. by destruct (Hb2 i e Hi ltac:(lia)). }
  assert (∀ i e, l !! i = Some e → a ≤ i ↔ cmp (entry_prefix len e) (take len key) ≠ Lt) as Ha'.
  { intros i e Hi. split; [by eauto|]. intros Hc. destruct (decide (a ≤ i)); [done|].
    destruct Hc. apply (Ha1 i e Hi). lia. }
  assert (a ≤ b) as Hab.
  { destruct (decide (a ≤ b)); [done|]. destruct (lookup_lt_is_Some_2 l b) as [e He]; [lia|].
    pose proof (Ha1 b e He ltac:(lia)) as Hc.
    assert (b < b); [|lia]. apply (Hb' b e He). by rewrite Hc. }
  split_and!; [done|done|done|]. apply filter_range; [done|done|].
  intros i e Hi. rewrite (Ha' i e Hi), (Hb' i e Hi), <- cmp_eq.
  destruct (cmp (entry_prefix len e) (take len key)); naive_solver.
Qed.

Lemma filter_ok_range a b : b ≤ length l →
  filter_ok (index_entry s sec) (seq a (b - a)) = Some (take (b - a) (drop a l)).
Proof.
  intros Hb. remember (b - a) as n eqn:Hn. revert a Hn. induction n as [|n IH]; intros a Hn; [done|].
  cbn [seq filter_ok]. destruct (lookup_lt_is_Some_2 l a) as [e He]; [lia|].
  rewrite (Hentry _ _ He), (IH (S a)) by lia. rewrite (drop_S _ _ _ He). done.
Qed.
End search.

(** ** Candidates *)

Lemma Forall2_through {A B C} (R : A → B → Prop) (S : A → C → Prop) (T : B → C → Prop) l k1 k2 :
  Forall2 R l k1 → Forall2 S l k2 → (∀ x y z, R x y → S x z → T y z) → Forall2 T k1 k2.
Proof.
  intros H1 H2 HT. revert k2 H2. induction H1 as [|x y l k1 Hx Hl IH]; intros k2 H2.
  - apply Forall2_nil_inv_l in H2 as ->. constructor.
  - apply Forall2_cons_inv_l in H2 as (z & k2' & Hz & Hk & ->). constructor; eauto.
Qed.

Section candidates.
Context (s : MmapVmSnapshot) (im : image) (evs : list Event).
Context (Hs : shows s im) (Hw : image_wf im) (Hsm : image_small im) (Hr : image_shows im evs).

(** An index entry and the active fact it is for. *)
Definition entry_shows (sec : nat) (en : IndexEntry) (e : SlotId * Fact) : Prop :=
  ∃ r, im_records im !! N.to_nat (ie_record en) = Some r ∧
    en = index_entry_of sec (ie_record en) r ∧ record_shows im r e.1 e.2.

Lemma index_entries sec l : im_index im sec = Some l →
  ∃ es, es ≡ₚ active_entries evs ∧ Forall2 (entry_shows sec) l es.
Proof.
  intros Hl. destruct (is_index _ _ Hr sec l Hl) as (l' & Hp & Hl').
  assert (Forall2 (entry_shows sec) l' (active_entries evs)) as Hf.
  { eapply Forall2_through; [exact Hl'|exact (is_active _ _ Hr)|].
    intros x en e (r & Hx & ->) (r' & Hx' & Hsh). simplify_eq. exists r. by rewrite ie_record_of. }
  destruct (Permutation_Forall2 (symmetry Hp) Hf) as (es & Hes & Hf'). exists es. by split.
Qed.

Lemma range_candidates sec l key len k (Q : SlotId * Fact → Prop) `{!∀ e, Decision (Q e)} :
  im_index im sec = Some l → 0 < len ≤ 3 → length key = 3 → key !! (len - 1) = Some k →
  k ≠ u64_max → (∀ en e, entry_shows sec en e → entry_prefix len en = take len key ↔ Q e) →
  ∃ a b ens es, index_range s sec key len = Some (a, b) ∧ a ≤ b ∧
    filter_ok (index_entry s sec) (seq a (b - a)) = Some ens ∧ length ens = b - a ∧
    es ≡ₚ filter Q (active_entries evs) ∧ Forall2 (active_shows im) (map ie_record ens) es.
Proof.
  intros Hl Hlen Hkey Hk Hmax HQ.
  destruct (index_range_spec s sec l (λ i e, sh_entry _ _ Hs sec l i e Hl)
    (ii_sorted _ _ (iw_index _ Hw sec l Hl)) len key k (sh_index _ _ Hs sec l Hl) Hlen Hkey Hk Hmax)
    as (a & b & Hab & Hle & Hb & Hf).
  destruct (index_entries sec l Hl) as (es & Hes & Hsh).
  exists a, b, (take (b - a) (drop a l)), (filter Q es). split_and!; [done|done| | | |].
  - apply (filter_ok_range s sec l); [|done]. intros i e. by apply (sh_entry _ _ Hs).
  - rewrite length_take, length_drop. lia.
  - by rewrite Hes.
  - rewrite <- Hf. apply Forall2_fmap_l.
    eapply Forall2_impl; [eapply Forall2_filter; [exact HQ|exact Hsh]|].
    intros en e (r & H1 & _ & H3). by exists r.
Qed.

(** *** What a pattern position resolves to *)

Lemma cell_not_max c a : cell_shows im c a → c ≠ u64_max.
Proof.
  pose proof (is_literals _ Hsm) as Hlit. unfold u32_ok, u32_modulus in Hlit.
  assert (VM_LITERAL_BASE = 2 ^ 63)%N as Hb by done.
  assert (u64_max = 2 ^ 64 - 1)%N as Hm by done.
  destruct a as [[v]|[l]]; cbn [cell_shows].
  - intros [-> Hv] Hc. rewrite Hc, Hm, Hb in Hv. done.
  - intros (t & -> & Ht%lookup_lt_Some) Hc. rewrite Hm, Hb in Hc. lia.
Qed.

Lemma predicate_not_max t v : im_predicates im !! N.to_nat t = Some v → t ≠ u64_max.
Proof.
  pose proof (is_predicates _ Hsm) as Hp. unfold u32_ok, u32_modulus in Hp.
  assert (u64_max = 2 ^ 64 - 1)%N as Hm by done.
  intros Ht%lookup_lt_Some ->. rewrite Hm in Ht. lia.
Qed.

Lemma literal_token_shows v t :
  literal_token s v = Some t ↔ im_literals im !! N.to_nat t = Some v.
Proof. apply st_lookup_spec; [apply Hs|apply (iw_literals _ Hw)|apply Hsm]. Qed.

Lemma predicate_token_shows v t :
  predicate_token s v = Some t ↔ im_predicates im !! N.to_nat t = Some v.
Proof. apply st_lookup_spec; [apply Hs|apply (iw_predicates _ Hw)|apply Hsm]. Qed.

Lemma atom_cell_for_query_spec a :
  (∃ c, atom_cell_for_query s a = Value c ∧ cell_shows im c a) ∨
  (atom_cell_for_query s a = Missing ∧ ∀ c, ¬ cell_shows im c a).
Proof.
  destruct a as [[v]|[l]]; cbn [atom_cell_for_query entity_value literal_str].
  - destruct (N.ltb_spec v VM_LITERAL_BASE) as [H|H]; [left; by exists v|right]. split; [done|].
    intros c [-> Hc]. cbn in Hc. lia.
  - destruct (literal_token s l) as [t|] eqn:Ht; [left|right].
    + eexists. split; [done|]. apply literal_token_shows in Ht. exists (N.to_nat t).
      by rewrite N2Nat.id.
    + split; [done|]. intros c (t & -> & Hlt).
      assert (literal_token s l = Some (N.of_nat t)); [|congruence].
      apply literal_token_shows. by rewrite Nat2N.id.
Qed.

Lemma predicate_cell_for_query_spec p :
  (∃ t, predicate_cell_for_query s p = Value t ∧
     im_predicates im !! N.to_nat t = Some (predicate_str p)) ∨
  (predicate_cell_for_query s p = Missing ∧ ∀ t : nat, im_predicates im !! t ≠ Some (predicate_str p)).
Proof.
  unfold predicate_cell_for_query. destruct (predicate_token s _) as [t|] eqn:Ht; [left|right].
  - eexists. split; [done|]. by apply predicate_token_shows.
  - split; [done|]. intros t Hlt. assert (predicate_token s (predicate_str p) = Some (N.of_nat t));
      [|congruence]. apply predicate_token_shows. by rewrite Nat2N.id.
Qed.

(** The cell of a subject or object position. *)
Lemma resolved_atom_cell_spec t b :
  match resolved_atom_cell s t b with
  | Unbound => resolved_atom t b = None
  | Value c => ∃ a, resolved_atom t b = Some a ∧ cell_shows im c a
  | Missing =>
      (∃ a, resolved_atom t b = Some a ∧ ∀ c, ¬ cell_shows im c a) ∨
      (∃ x v, t = TVariable x ∧ b !! variable_str x = Some v ∧ as_atom v = None)
  end.
Proof.
  assert (∀ a, resolved_atom t b = Some a → match atom_cell_for_query s a with
    | Unbound => resolved_atom t b = None
    | Value c => ∃ a, resolved_atom t b = Some a ∧ cell_shows im c a
    | Missing => (∃ a, resolved_atom t b = Some a ∧ ∀ c, ¬ cell_shows im c a) ∨
        (∃ x v, t = TVariable x ∧ b !! variable_str x = Some v ∧ as_atom v = None)
    end) as Ha.
  { intros a Ha. destruct (atom_cell_for_query_spec a) as [(c & -> & Hc)|[-> Hc]]; eauto. }
  destruct t as [a|x]; cbn [resolved_atom_cell resolved_atom] in *; [by apply Ha|].
  destruct (b !! variable_str x) as [v|] eqn:Hb; cbn [mbind option_bind] in *; [|done].
  destruct (as_atom v) as [a|] eqn:Hv; [by apply Ha|]. right. eauto.
Qed.

Lemma resolved_predicate_cell_spec t b :
  match resolved_predicate_cell s t b with
  | Unbound => resolved_predicate t b = None
  | Value c => ∃ p, resolved_predicate t b = Some p ∧
      im_predicates im !! N.to_nat c = Some (predicate_str p)
  | Missing =>
      (∃ p, resolved_predicate t b = Some p ∧ ∀ t : nat, im_predicates im !! t ≠ Some (predicate_str p)) ∨
      (∃ x v, t = PVariable x ∧ b !! variable_str x = Some v ∧ as_predicate v = None)
  end.
Proof.
  assert (∀ p, resolved_predicate t b = Some p → match predicate_cell_for_query s p with
    | Unbound => resolved_predicate t b = None
    | Value c => ∃ p, resolved_predicate t b = Some p ∧
        im_predicates im !! N.to_nat c = Some (predicate_str p)
    | Missing =>
        (∃ p, resolved_predicate t b = Some p ∧ ∀ t : nat, im_predicates im !! t ≠ Some (predicate_str p)) ∨
        (∃ x v, t = PVariable x ∧ b !! variable_str x = Some v ∧ as_predicate v = None)
    end) as Hp.
  { intros p Hp. destruct (predicate_cell_for_query_spec p) as [(c & -> & Hc)|[-> Hc]]; eauto. }
  destruct t as [a|x]; cbn [resolved_predicate_cell resolved_predicate] in *; [by apply Hp|].
  destruct (b !! variable_str x) as [v|] eqn:Hb; cbn [mbind option_bind] in *; [|done].
  destruct (as_predicate v) as [p|] eqn:Hv; [by apply Hp|]. right. eauto.
Qed.

(** *** The candidates of a pattern *)

Lemma subject_matches r slot f c a :
  record_shows im r slot f → cell_shows im c a → mr_subject r = c ↔ fact_subject f = a.
Proof.
  intros [_ H _ _] Hc. split.
  - intros <-. by eapply cell_shows_atom.
  - intros <-. by eapply (cell_shows_cell im (iw_literals _ Hw)).
Qed.

Lemma object_matches r slot f c a :
  record_shows im r slot f → cell_shows im c a → mr_object r = c ↔ fact_object f = a.
Proof.
  intros [_ _ _ H] Hc. split.
  - intros <-. by eapply cell_shows_atom.
  - intros <-. by eapply (cell_shows_cell im (iw_literals _ Hw)).
Qed.

Lemma predicate_matches r slot f c p :
  record_shows im r slot f → im_predicates im !! N.to_nat c = Some (predicate_str p) →
  mr_predicate r = c ↔ fact_predicate f = p.
Proof.
  intros [_ _ H _] Hc. split.
  - intros <-. rewrite H in Hc. injection Hc as Hc. destruct p, (fact_predicate f). cbn in Hc. by subst.
  - intros Hp. rewrite Hp in H. apply N2Nat.inj.
    exact (NoDup_lookup _ _ _ _ (strictly_sorted_NoDup _ (tw_sorted _ (iw_predicates _ Hw))) H Hc).
Qed.

(** What the candidates of a pattern are among the active facts. *)
Record candidates_of (p : Pattern) (b : Binding) (es : list (SlotId * Fact)) : Prop := {
  cf_sound e : e ∈ es → e ∈ active_entries evs;
  cf_complete e b' : e ∈ active_entries evs → unify_pattern p e.2 b = Some b' → e ∈ es;
  cf_perm : sorted_at p b → es ≡ₚ spec_candidates (active_entries evs) p b;
}.

Lemma candidates_of_perm p b es :
  es ≡ₚ spec_candidates (active_entries evs) p b → candidates_of p b es.
Proof.
  intros Hp. split; [| |done].
  - intros e He. rewrite Hp in He. by eapply cand_source_sound.
  - intros e b' He Hu. rewrite Hp. by eapply cand_source_complete.
Qed.

(** Where a position resolves to nothing that is stored, nothing matches. *)
Lemma candidates_of_nil p b :
  (sorted_at p b → ∀ e, e ∈ active_entries evs → cand_matchb p b e.2 = false) →
  (∀ e b', e ∈ active_entries evs → unify_pattern p e.2 b ≠ Some b') → candidates_of p b [].
Proof.
  intros H1 H2. split; [by intros e ?%elem_of_nil|by intros e b' He Hu; destruct (H2 e b' He)|].
  intros Hsrt. unfold spec_candidates.
  assert (filter (λ e : SlotId * Fact, cand_matchb p b e.2 = true) (active_entries evs) = []) as ->; [|done].
  apply elem_of_nil_inv. intros e [Hm He]%list_elem_of_filter. by rewrite (H1 Hsrt e He) in Hm.
Qed.

Lemma active_entry_shows e : e ∈ active_entries evs → ∃ r, record_shows im r e.1 e.2.
Proof.
  intros (i & Hi)%list_elem_of_lookup.
  destruct (Forall2_lookup_r _ _ _ _ _ (is_active _ _ Hr) Hi) as (x & _ & r & _ & Hsh). eauto.
Qed.

Lemma missing_atom p b t (get : Fact → Atom) :
  resolved_atom_cell s t b = Missing →
  (∀ f, cand_match p b f → ∀ a, resolved_atom t b = Some a → get f = a) →
  (∀ x, x ∈ term_vars t → x ∈ atom_vars p) →
  (∀ f b', pattern_holds b' p f → term_holds b' t (BoundValue_from (get f))) →
  (∀ r slot f, record_shows im r slot f → ∃ c, cell_shows im c (get f)) →
  candidates_of p b [].
Proof.
  intros Hm Hmatch Hvars Hholds Hget. pose proof (resolved_atom_cell_spec t b) as Hsp. rewrite Hm in Hsp.
  destruct Hsp as [(a & Ha & Hno)|(x & v & -> & Hb & Hv)].
  - assert (∀ e, e ∈ active_entries evs → cand_matchb p b e.2 = false) as Hf.
    { intros e (r & Hsh)%active_entry_shows. apply not_true_iff_false. intros Hc%cand_matchb_spec.
      destruct (Hget _ _ _ Hsh) as [c Hc']. rewrite (Hmatch _ Hc a Ha) in Hc'. by destruct (Hno c). }
    apply candidates_of_nil; [by auto|]. intros e b' He Hu%unify_pattern_candidate.
    by rewrite Hf in Hu.
  - apply candidates_of_nil.
    + intros [Hs1 _]. destruct (Hs1 (variable_str x) v); [|done|congruence].
      apply Hvars. cbn [term_vars]. by apply elem_of_singleton.
    + intros e b' He (Hsub & Hh & _)%unify_pattern_sound. apply Hholds in Hh. cbn in Hh.
      rewrite (lookup_weaken _ _ _ _ Hb Hsub) in Hh. injection Hh as ->.
      by rewrite as_atom_from in Hv.
Qed.

Lemma missing_predicate p b :
  resolved_predicate_cell s (pat_predicate p) b = Missing → candidates_of p b [].
Proof.
  intros Hm. pose proof (resolved_predicate_cell_spec (pat_predicate p) b) as Hsp. rewrite Hm in Hsp.
  destruct Hsp as [(a & Ha & Hno)|(x & v & Hx & Hb & Hv)].
  - assert (∀ e, e ∈ active_entries evs → cand_matchb p b e.2 = false) as Hf.
    { intros e (r & Hsh)%active_entry_shows. apply not_true_iff_false. intros (_ & Hc & _)%cand_matchb_spec.
      pose proof (rs_predicate _ _ _ _ Hsh) as Hpr. rewrite (Hc a Ha) in Hpr. by destruct (Hno _ Hpr). }
    apply candidates_of_nil; [by auto|]. intros e b' He Hu%unify_pattern_candidate.
    by rewrite Hf in Hu.
  - apply candidates_of_nil.
    + intros [_ Hs1]. destruct (Hs1 (variable_str x) v); [|done|congruence].
      rewrite Hx. cbn [predicate_vars]. by apply elem_of_singleton.
    + intros e b' He (Hsub & (_ & Hh & _) & _)%unify_pattern_sound. rewrite Hx in Hh. cbn in Hh.
      rewrite (lookup_weaken _ _ _ _ Hb Hsub) in Hh. by injection Hh as ->.
Qed.

Lemma missing_subject p b :
  resolved_atom_cell s (pat_subject p) b = Missing → candidates_of p b [].
Proof.
  intros Hm. eapply (missing_atom p b _ fact_subject Hm).
  - intros f (H & _ & _). done.
  - intros x Hx. by apply elem_of_union_l.
  - intros f b' (H & _ & _). done.
  - intros r slot f [_ H _ _]. eauto.
Qed.

Lemma missing_object p b :
  resolved_atom_cell s (pat_object p) b = Missing → candidates_of p b [].
Proof.
  intros Hm. eapply (missing_atom p b _ fact_object Hm).
  - intros f (_ & _ & H). done.
  - intros x Hx. by apply elem_of_union_r.
  - intros f b' (_ & _ & H). done.
  - intros r slot f [_ _ _ H]. eauto.
Qed.

Definition candidates_ok (p : Pattern) (b : Binding) (ids : list N) (es : list (SlotId * Fact)) : Prop :=
  candidates s p b = Some ids ∧ candidate_count s p b = Some (length ids) ∧
  Forall2 (active_shows im) ids es ∧ candidates_of p b es.

Lemma candidates_empty p b : candidate_spec s p b = SpecEmpty → candidates_of p b [] →
  ∃ ids es, candidates_ok p b ids es.
Proof.
  intros Hspec Hc. exists [], []. unfold candidates_ok, candidates, candidate_count. rewrite Hspec.
  split_and!; [done|done|constructor|done].
Qed.

Lemma filter_ok_all {A} (f : nat → outcome string A) (l : list A) :
  (∀ i x, l !! i = Some x → f i = Ok x) → filter_ok f (seq 0 (length l)) = Some l.
Proof.
  intros Hf. assert (∀ k l', (∀ i x, l' !! i = Some x → f (k + i) = Ok x) →
    filter_ok f (seq k (length l')) = Some l') as Hgen.
  { intros k l'. revert k. induction l' as [|x l' IH]; intros k Hk; [done|]. cbn [length seq filter_ok].
    pose proof (Hk 0 x eq_refl) as H0. rewrite Nat.add_0_r in H0. rewrite H0.
    rewrite (IH (S k)); [done|]. intros i y Hi. replace (S k + i) with (k + S i) by lia. by apply Hk. }
  by apply Hgen.
Qed.

Lemma candidates_all p b : candidate_spec s p b = SpecAll →
  (∀ f, cand_matchb p b f = true) → ∃ ids es, candidates_ok p b ids es.
Proof.
  intros Hspec Hall. exists (im_active im), (active_entries evs).
  unfold candidates_ok, candidates, candidate_count. rewrite Hspec, (sh_active_count _ _ Hs).
  split_and!; [|done|apply Hr|].
  - apply filter_ok_all. apply (sh_active _ _ Hs).
  - apply candidates_of_perm. unfold spec_candidates. by rewrite filter_all by (intros e _; by rewrite Hall).
Qed.

Lemma candidates_range p b sec l key len k :
  candidate_spec s p b = SpecRange sec key len →
  im_index im sec = Some l → 0 < len ≤ 3 → length key = 3 → key !! (len - 1) = Some k → k ≠ u64_max →
  (∀ x r e, record_shows im r e.1 e.2 →
    entry_prefix len (index_entry_of sec x r) = take len key ↔ cand_match p b e.2) →
  ∃ ids es, candidates_ok p b ids es.
Proof.
  intros Hspec Hl Hlen Hkey Hk Hmax HQ.
  destruct (range_candidates sec l key len k (λ e, cand_matchb p b e.2 = true) Hl Hlen Hkey Hk Hmax)
    as (a & c & ens & es & Hr1 & Hac & Hens & Hlen' & Hes & Hsh).
  { intros en e (r & _ & Heq & Hr'). rewrite cand_matchb_spec, Heq. by apply HQ. }
  exists (map ie_record ens), es. unfold candidates_ok, candidates, candidate_count. rewrite Hspec, Hr1.
  cbn [mbind option_bind]. rewrite Hens. cbn [mbind option_bind].
  rewrite (proj2 (Nat.ltb_ge _ _)) by lia. rewrite length_map, Hlen'.
  split_and!; [done|done|done|]. by apply candidates_of_perm.
Qed.

(** Whatever a pattern resolves to, its candidates are active facts, none that
    unifies is missing, and they are the expected ones up to their order. *)
Lemma candidates_shows p b : ∃ ids es, candidates_ok p b ids es.
Proof.
  assert (∃ spec, candidate_spec s p b = spec) as [spec Hspec] by eauto. pose proof Hspec as Hsp.
  unfold candidate_spec in Hspec.
  pose proof (resolved_atom_cell_spec (pat_subject p) b) as H1.
  pose proof (resolved_predicate_cell_spec (pat_predicate p) b) as H2.
  pose proof (resolved_atom_cell_spec (pat_object p) b) as H3.
  destruct (resolved_atom_cell s (pat_subject p) b) as [| |c1] eqn:E1; [|by subst; apply candidates_empty, missing_subject|].
  all: destruct (resolved_predicate_cell s (pat_predicate p) b) as [| |c2] eqn:E2;
    [|by subst; apply candidates_empty, missing_predicate|].
  all: destruct (resolved_atom_cell s (pat_object p) b) as [| |c3] eqn:E3;
    [|by subst; apply candidates_empty, missing_object|]; subst spec.
  all: try destruct H1 as (a1 & H1 & S1); try destruct H2 as (a2 & H2 & S2);
    try destruct H3 as (a3 & H3 & S3).
  1: by apply candidates_all; [|intros f; unfold cand_matchb; rewrite H1, H2, H3].
  all: eapply (candidates_range p b _ _ _ _ _ Hsp); [done|lia|done|done
    |first [by eapply cell_not_max|by eapply predicate_not_max]|].
  all: intros x r e Hsh; unfold cand_match; rewrite H1, H2, H3.
  all: try pose proof (subject_matches _ _ _ _ _ Hsh S1) as M1.
  all: try pose proof (predicate_matches _ _ _ _ _ Hsh S2) as M2.
  all: try pose proof (object_matches _ _ _ _ _ Hsh S3) as M3.
  all: unfold entry_prefix; cbn [index_entry_of take]; cbn. all: naive_solver.
Qed.

(** ** The walker *)

(** What a record id stands for, and the candidates as active facts. *)
Definition mapped_entry (x : N) : option (SlotId * Fact) :=
  match record s x, fact s x with
  | Ok r, Ok f =>
      match st_value (ms_slots s) (ms_mapping s) (N.to_nat (mr_slot r)) with
      | Ok slot => Some (SlotId_new slot, f)
      | _ => None
      end
  | _, _ => None
  end.

Definition mapped_cands (p : Pattern) (b : Binding) : list (SlotId * Fact) :=
  omap mapped_entry (default [] (candidates s p b)).

Lemma mapped_entry_shows x e : active_shows im x e → mapped_entry x = Some e.
Proof.
  intros (r & Hx & Hsh). unfold mapped_entry.
  rewrite (record_shows_read s im Hs x r Hx), (fact_shows s im Hs x r e.1 e.2 Hx Hsh).
  rewrite (ts_value _ _ _ (sh_slots _ _ Hs) _ _ (rs_slot _ _ _ _ Hsh)). by destruct e as [[] ?].
Qed.

Lemma mapped_cands_shows p b :
  ∃ ids, candidates s p b = Some ids ∧ candidate_count s p b = Some (length (mapped_cands p b)) ∧
    length ids = length (mapped_cands p b) ∧
    Forall2 (active_shows im) ids (mapped_cands p b) ∧ candidates_of p b (mapped_cands p b).
Proof.
  destruct (candidates_shows p b) as (ids & es & H1 & H2 & H3 & H4). exists ids.
  assert (mapped_cands p b = es) as ->.
  { unfold mapped_cands. rewrite H1. change (default [] (Some ids)) with ids. clear H1 H2 H4.
    induction H3 as [|x e ids es Hx _ IH]; [done|]. csimpl. by rewrite (mapped_entry_shows x e Hx), IH. }
  pose proof (Forall2_length _ _ _ H3) as Hlen. rewrite Hlen in H2. by split_and!.
Qed.

#[export] Instance mapped_order_source : OrderSource mapped_cands (active_entries evs).
Proof.
  split; [split|].
  - intros p b e He. destruct (mapped_cands_shows p b) as (? & _ & _ & _ & _ & Hc). by apply Hc.
  - intros p b e b' He Hu. destruct (mapped_cands_shows p b) as (? & _ & _ & _ & _ & Hc).
    by eapply (cf_complete _ _ _ Hc).
  - intros p b Hb. destruct (mapped_cands_shows p b) as (? & _ & _ & _ & _ & Hc). by apply Hc.
Qed.

Lemma unify_shows p r slot f b : record_shows im r slot f → unify s p r b = unify_pattern p f b.
Proof.
  intros [_ H1 H2 H3]. unfold unify, unify_pattern.
  assert (∀ t c a b, cell_shows im c a → mapped_unify_term s t c b = unify_term t (BoundValue_from a) b) as Ht.
  { intros t c a b' Hc. unfold mapped_unify_term. rewrite (atom_value_shows s im Hs c a Hc).
    by destruct t. }
  rewrite (Ht _ _ _ _ H1). destruct (unify_term (pat_subject p) _ b) as [b1|]; [|done].
  cbn [mbind option_bind].
  assert (mapped_unify_predicate s (pat_predicate p) (mr_predicate r) b1 =
    unify_predicate (pat_predicate p) (BPredicate (fact_predicate f)) b1) as ->.
  { unfold mapped_unify_predicate. rewrite (predicate_value_shows s im Hs _ _ H2).
    by destruct (pat_predicate p). }
  destruct (unify_predicate _ _ b1) as [b2|]; [|done]. by apply Ht.
Qed.

Lemma walk_records_shows walk walk' chosen frame ids es st :
  (∀ f st, walk f st = Some (walk' f st)) → Forall2 (active_shows im) ids es →
  walk_records s walk chosen frame ids st = Some (cand_walk_entries walk' chosen frame es st).
Proof.
  intros Hwalk Hes. revert st. induction Hes as [|x [slot f] ids es (r & Hx & Hsh) _ IH]; intros st; [done|].
  cbn [walk_records cand_walk_entries]. rewrite (record_shows_read s im Hs x r Hx).
  rewrite (unify_shows chosen r slot f _ Hsh). destruct (unify_pattern _ _ _) as [b|]; [|apply IH].
  rewrite (ts_value _ _ _ (sh_slots _ _ Hs) _ _ (rs_slot _ _ _ _ Hsh)).
  replace (SlotId_new (slot_str (slot, f).1)) with slot by (by destruct slot).
  rewrite Hwalk. cbn [mbind option_bind]. destruct (walk' _ _) as [st' []]; [done|apply IH].
Qed.

Lemma choose_mapped_shows options frame ps :
  choose_mapped s options frame ps = Some (cand_choose_index mapped_cands options frame ps).
Proof.
  unfold choose_mapped, cand_choose_index. destruct (opt_optimize options); [|done].
  assert (mapM (λ p, candidate_count s p (frame_binding frame)) ps =
    Some ((λ p, length (mapped_cands p (frame_binding frame))) <$> ps)) as ->.
  { apply mapM_Some, Forall2_fmap_r, Forall_Forall2_diag, Forall_true. intros p.
    by destruct (mapped_cands_shows p (frame_binding frame)) as (? & _ & ? & _). }
  cbn [mbind option_bind]. by rewrite min_by_key_index_fmap.
Qed.

Lemma walk_mapped_shows fuel options frame ps depth st :
  length ps ≤ fuel →
  walk_mapped fuel s options frame ps depth st =
  Some (cand_walk mapped_cands fuel options frame ps depth st).
Proof.
  revert frame ps depth st. induction fuel as [|fuel IH]; intros frame [|q ps] depth st Hlen;
    cbn [walk_mapped cand_walk]; try done; [simpl in Hlen; lia|].
  rewrite choose_mapped_shows. cbn [mbind option_bind].
  pose proof (choose_index_bound mapped_cands options frame q ps) as Hb.
  destruct (lookup_lt_is_Some_2 _ _ Hb) as [chosen Hc]. rewrite Hc. cbn [mbind option_bind].
  destruct (mapped_cands_shows chosen (frame_binding frame)) as (ids & Hc' & _ & Hl & Hids & _).
  rewrite Hc'. cbn [mbind option_bind]. rewrite Hl. apply walk_records_shows; [|done]. intros f st'. apply IH.
  pose proof (delete_Permutation _ _ _ Hc) as Hp%Permutation_length. simpl in *. lia.
Qed.

Lemma mapped_query_shows ps o : mapped_query s ps o = Some (cand_query mapped_cands ps o).
Proof.
  unfold mapped_query, cand_query. rewrite walk_mapped_shows by done.
  cbn [mbind option_bind]. by destruct (cand_walk _ _ _ _ _ _ _).
Qed.
End candidates.
