(* ===== verification/SnapshotBuild.v ===== *)
(** The sections that [create] writes are those of an image that represents the
    history of the world: sorted tables, one chain of records per slot, the
    active records in record order, and sorted indexes. *)
From Stdlib Require Import NArith Lia.
From Stdlib Require Import Strings.Byte.
From stdpp Require Import sorting base gmap list strings fin_maps option list_monad.
From S2P Require Import Prelude Ord Terms Bytes Query QueryFacts QueryOrder Spec Index Kernel Frames.
From S2P Require Import VmProjection Worlds WorldFacts Codec FileStore MmapFormat StackVm VmEpochs.
From S2P Require Import SnapshotFormat SnapshotFormatFacts MmapSnapshot SnapshotLayout.
From S2P Require Import SnapshotRep.

Local Open Scope string_scope.
Local Open Scope nat_scope.
Local Open Scope list_scope.

#[local] Opaque Nat.div Nat.modulo u32_bytes u64_bytes le_bytes.

(** ** Lists *)

(** Permutations with the same keys are equal when keys are unique. *)
Lemma fmap_perm_eq {A B} (f : A → B) l1 l2 :
  l1 ≡ₚ l2 → f <$> l1 = f <$> l2 → NoDup (f <$> l2) → l1 = l2.
Proof.
  intros Hp Hf Hnd. apply list_eq. intros i.
  assert (f <$> l1 !! i = f <$> l2 !! i) as Hi by (by rewrite <- !list_lookup_fmap, Hf).
  destruct (l1 !! i) as [x|] eqn:E1, (l2 !! i) as [y|] eqn:E2; try done. injection Hi as Hxy.
  assert (x ∈ l2) as Hx by (rewrite <- Hp; by eapply list_elem_of_lookup_2).
  apply list_elem_of_lookup in Hx as [j Hj].
  assert (i = j) as ->; [|congruence].
  apply (NoDup_lookup (f <$> l2) i j (f x)); [done|..].
  - by rewrite list_lookup_fmap, E2, Hxy.
  - by rewrite list_lookup_fmap, Hj.
Qed.

Instance first_le_total : Total first_le.
Proof. intros x y. unfold first_le. lia. Qed.
Instance first_le_trans : Transitive first_le.
Proof. intros x y z. unfold first_le. lia. Qed.
Instance entry_le_total : Total entry_le.
Proof. intros x y. unfold entry_le. apply total, _. Qed.
Instance entry_le_trans : Transitive entry_le.
Proof. intros x y z. unfold entry_le. by etrans. Qed.

Lemma Forall2_StronglySorted {A B C} (R : A → A → Prop) (S : A → B → Prop) (g : B → C) (T : C → C → Prop) l k :
  StronglySorted R l → Forall2 S l k →
  (∀ x x' y y', S x y → S x' y' → R x x' → T (g y) (g y')) → StronglySorted T (g <$> k).
Proof.
  intros Hs Hf HT. revert k Hf. induction Hs as [|x l Hs IH Hall]; intros k Hf.
  - apply Forall2_nil_inv_l in Hf as ->. constructor.
  - apply Forall2_cons_inv_l in Hf as (y & k' & Hy & Hf & ->). rewrite fmap_cons. constructor; [by apply IH|].
    apply Forall_fmap. clear IH Hs. induction Hf as [|x' y' l k' Hy' _ IH]; [constructor|].
    apply Forall_cons in Hall as [Hx Hall]. constructor; [by eapply HT|]. by apply IH.
Qed.

Lemma cmp_then_not_gt c d : cmp_then c d ≠ Gt ↔ c = Lt ∨ (c = Eq ∧ d ≠ Gt).
Proof. destruct c; naive_solver. Qed.

Lemma entry_ok_of sec x r : record_ok r → u32_ok x → entry_ok (index_entry_of sec x r).
Proof.
  intros [_ _ _ H1 H2 H3] Hx. assert (u64_ok (mr_predicate r)) as H2'
    by (unfold u32_ok, u64_ok, u32_modulus, u64_modulus in *; lia).
  unfold index_entry_of. repeat case_decide; by split.
Qed.

(** A definition of a stack is an event of the history. *)
Lemma stack_elem evs s i f : (i, f) ∈ stack evs s → evs !! i = Some (EvDefine s f).
Proof.
  remember (stack evs s) as l eqn:Hl. revert evs Hl. induction l as [|[j g] l IH]; intros evs Hl Hin;
    [by apply elem_of_nil in Hin|].
  destruct (stack_cons evs s j g l (eq_sym Hl)) as (Hj & Hev & Htl).
  apply elem_of_cons in Hin as [[= -> ->]|Hin]; [done|].
  pose proof (IH _ Htl Hin) as Hi. pose proof (lookup_lt_Some _ _ _ Hi) as Hlt.
  rewrite length_take in Hlt. by rewrite lookup_take_lt in Hi by lia.
Qed.

Lemma stack_ids_NoDup evs s : NoDup (stack evs s).*1.
Proof.
  remember (stack evs s) as l eqn:Hl. revert evs Hl. induction l as [|[j g] l IH]; intros evs Hl; [constructor|].
  destruct (stack_cons evs s j g l (eq_sym Hl)) as (Hj & _ & Htl). csimpl. constructor; [|by eapply IH].
  intros ([i f] & -> & Hin)%list_elem_of_fmap. rewrite Htl in Hin. apply stack_elem, lookup_lt_Some in Hin.
  rewrite length_take in Hin. simpl in Hin. lia.
Qed.

Lemma sum_list_with_perm {A} (f : A → nat) l k : l ≡ₚ k → sum_list_with f l = sum_list_with f k.
Proof. by intros ->. Qed.

(** Distinct numbers below a bound are no more than the bound. *)
Lemma NoDup_below (l : list nat) n : NoDup l → (∀ i, i ∈ l → i < n) → length l ≤ n.
Proof.
  intros Hnd Hl. rewrite <- (length_seq n 0). apply submseteq_length, NoDup_submseteq; [done|].
  intros i Hi. apply elem_of_seq. specialize (Hl i Hi). lia.
Qed.

(** A history keeps at most one definition for each of its events. *)
Lemma definitions_rep_size m evs :
  definitions_rep m evs → length (kv ← map_to_list m; kv.2) ≤ length evs.
Proof.
  intros Hm. assert (∀ s l e, m !! s = Some l → e ∈ l → evs !! pf_record_id e = Some (EvDefine s (pf_fact e))) as Hev.
  { intros s l e Hl He. apply stack_elem. rewrite <- (dr_stack _ _ Hm s), Hl.
    apply (list_elem_of_fmap_2 pf_top). by apply elem_of_reverse. }
  rewrite <- (length_fmap pf_record_id). apply NoDup_below.
  - assert (∀ k : list (SlotId * list ProjectedFact), NoDup k.*1 → (∀ s l, (s, l) ∈ k → m !! s = Some l) →
      NoDup (pf_record_id <$> (kv ← k; kv.2))) as Hgen.
    { induction k as [|[s l] k IH]; intros Hk Hin; [constructor|].
      apply NoDup_cons in Hk as [Hs Hk]. rewrite bind_cons, fmap_app. cbn [fst snd] in *.
      pose proof (Hin s l ltac:(by left)) as Hl. apply NoDup_app. split_and!.
      - assert (pf_record_id <$> reverse l = (stack evs s).*1) as Hids.
        { rewrite <- (dr_stack _ _ Hm s), Hl. by rewrite <- list_fmap_compose. }
        pose proof (stack_ids_NoDup evs s) as Hnd. rewrite <- Hids in Hnd. by rewrite reverse_Permutation in Hnd.
      - intros i (e & -> & He)%list_elem_of_fmap (e' & Hid & ([s' l'] & He' & Hk')%list_elem_of_bind)%list_elem_of_fmap.
        pose proof (Hev s l e Hl He) as H1.
        pose proof (Hev s' l' e' (Hin s' l' ltac:(by right)) He') as H2. rewrite Hid, H2 in H1.
        injection H1 as -> _. apply Hs, list_elem_of_fmap. by exists (s, l').
      - apply IH; [done|]. intros. apply Hin. by right. }
    apply Hgen; [apply NoDup_fst_map_to_list|]. intros s l. apply elem_of_map_to_list.
  - intros i (e & -> & ([s l] & He & Hl%elem_of_map_to_list)%list_elem_of_bind)%list_elem_of_fmap.
    by eapply lookup_lt_Some, Hev.
Qed.

(** ** Tables and tokens *)

Lemma ord_sort_strict l : NoDup l → strictly_sorted (ord_sort l).
Proof.
  intros Hnd. assert (StronglySorted ord_le (ord_sort l)) as Hs by (apply StronglySorted_merge_sort; apply _).
  assert (NoDup (ord_sort l)) as Hnd' by (by rewrite ord_sort_Permutation).
  unfold strictly_sorted. induction Hs as [|x k Hs IH Hall]; [constructor|].
  apply NoDup_cons in Hnd' as [Hx Hnd']. constructor; [by apply IH|].
  apply Forall_forall. intros y Hy. apply (proj1 (Forall_forall _ _) Hall) in Hy as Hle. unfold ord_le in Hle.
  destruct (cmp x y) eqn:E; [|done|done]. apply cmp_eq in E. by subst.
Qed.

Lemma elem_of_btree_strings l v : v ∈ btree_strings l ↔ v ∈ l.
Proof. unfold btree_strings. by rewrite elem_of_ord_sort, elem_of_elements, elem_of_list_to_set. Qed.

Lemma btree_strings_strict l : strictly_sorted (btree_strings l).
Proof. apply ord_sort_strict, NoDup_elements. Qed.

Lemma token_map_fst (names : list string) : (imap (λ i value, (value, as_u32 i)) names).*1 = names.
Proof. rewrite fmap_imap. etrans; [apply (imap_const id)|apply list_fmap_id]. Qed.

Lemma token_map_Some names v t :
  NoDup names → u32_ok (N.of_nat (length names)) →
  token_map names !! v = Some t ↔ names !! N.to_nat t = Some v ∧ u32_ok t.
Proof.
  intros Hnd Hu. unfold token_map. rewrite <- elem_of_list_to_map by (by rewrite token_map_fst).
  rewrite elem_of_lookup_imap. unfold u32_ok in *. split.
  - intros (i & w & [= -> ->] & Hi). pose proof (lookup_lt_Some _ _ _ Hi).
    rewrite as_u32_exact by (unfold u32_ok; lia). rewrite Nat2N.id. split; [done|lia].
  - intros [Hi _]. exists (N.to_nat t), v. split; [|done]. pose proof (lookup_lt_Some _ _ _ Hi).
    rewrite as_u32_exact by (unfold u32_ok; lia). by rewrite N2Nat.id.
Qed.

(** ** Records *)

Section records.
Context (im : image) (Hsm : image_small im) (predicates literals : gmap string N).
Context (Hpred : ∀ v t, predicates !! v = Some t → im_predicates im !! N.to_nat t = Some v ∧ u32_ok t).
Context (Hlit : ∀ v t, literals !! v = Some t → im_literals im !! N.to_nat t = Some v ∧ u32_ok t).

Lemma atom_cell_shows a c :
  atom_cell a literals = Ok c → cell_shows im c a ∧ u64_ok c ∧ cell_in im c.
Proof.
  assert (VM_LITERAL_BASE = 2 ^ 63)%N as Hb by done. unfold u64_ok, u64_modulus, cell_in.
  destruct a as [[v]|[l]]; cbn [atom_cell cell_shows entity_value literal_str].
  - destruct (N.ltb_spec v VM_LITERAL_BASE) as [H|H]; [|done]. intros [= <-]. split_and!; [done|done|lia|lia].
  - destruct (literals !! l) as [t|] eqn:Ht; cbn [ok_or outcome_bind]; [|done]. intros [= <-].
    apply Hlit in Ht as [Ht Hu]. unfold u32_ok, u32_modulus in Hu. pose proof (lookup_lt_Some _ _ _ Ht).
    split_and!; [|lia|lia]. exists (N.to_nat t). by rewrite N2Nat.id.
Qed.

Definition built (records : list MappedRecord) : Prop :=
  ∀ i r, records !! i = Some r → record_in im i r.

(** The record of a fact. *)
Definition fact_record (x : N) (e : ProjectedFact) : Prop :=
  x ≠ NONE ∧ ∃ r, im_records im !! N.to_nat x = Some r ∧
    original_id r = usize_of (pf_record_id e) ∧ record_shows im r (pf_slot e) (pf_fact e).

Lemma push_record_mono token st e st' :
  push_record predicates literals token st e = Ok st' → ∃ r, st'.1 = st.1 ++ [r].
Proof.
  destruct st as [records previous]. unfold push_record.
  intros (c1 & _ & (c2 & _ & (c3 & _ & [= <-])%outcome_bind_ok)%outcome_bind_ok)%outcome_bind_ok. by eexists.
Qed.

Lemma push_records_mono token stack st st' :
  outcome_fold (push_record predicates literals token) stack st = Ok st' → st.1 `prefix_of` st'.1.
Proof.
  revert st. induction stack as [|e stack IH]; intros st; cbn [outcome_fold]; [by intros [= <-]|].
  intros (st1 & (r & Hr)%push_record_mono & H)%outcome_bind_ok. apply IH in H. rewrite Hr in H.
  etrans; [|exact H]. by eexists.
Qed.

Lemma push_records_length token stack st st' :
  outcome_fold (push_record predicates literals token) stack st = Ok st' →
  length st'.1 = length st.1 + length stack.
Proof.
  revert st. induction stack as [|e stack IH]; intros st; cbn [outcome_fold length]; [intros [= <-]; lia|].
  intros (st1 & (r & Hr)%push_record_mono & H%IH)%outcome_bind_ok. rewrite H, Hr, length_app. simpl. lia.
Qed.

Lemma push_record_spec token records previous e records' previous' l :
  push_record predicates literals token (records, previous) e = Ok (records', previous') →
  records' `prefix_of` im_records im → im_slots im !! N.to_nat token = Some (slot_str (pf_slot e)) →
  u32_ok token → built records → previous = NONE ∨ (previous < N.of_nat (length records))%N →
  chain_shows im (pf_slot e) previous l →
  built records' ∧ (previous' < N.of_nat (length records'))%N ∧
  chain_shows im (pf_slot e) previous' (pf_fact e :: l) ∧ fact_record previous' e.
Proof.
  unfold push_record.
  intros (c1 & (S1 & U1 & I1)%atom_cell_shows & (c2 & Hc2 & (c3 & (S3 & U3 & I3)%atom_cell_shows
    & [= <- <-])%outcome_bind_ok)%outcome_bind_ok)%outcome_bind_ok Hpre Hslot Ht Hb Hprev Hc.
  destruct (predicates !! _) as [c|] eqn:Hp; [|done]. injection Hc2 as <-. apply Hpred in Hp as [Hp Hcu].
  set (r := MappedRecord_mk _ _ _ _ _ _) in *.
  pose proof (is_records _ Hsm) as Hrec. unfold u32_ok, u32_modulus in Hrec.
  pose proof (prefix_length _ _ Hpre) as Hlen. rewrite length_app in Hlen. cbn [length] in Hlen.
  assert (as_u32 (length records) = N.of_nat (length records)) as Hidx
    by (apply as_u32_exact; unfold u32_ok, u32_modulus; lia).
  assert (im_records im !! N.to_nat (N.of_nat (length records)) = Some r) as Hr.
  { rewrite Nat2N.id. by eapply prefix_lookup_Some; [apply lookup_snoc_length|]. }
  assert (record_shows im r (pf_slot e) (pf_fact e)) as Hsh by (by split).
  assert (N.of_nat (length records) ≠ NONE) as Hnone.
  { assert (NONE = 2 ^ 32 - 1)%N as -> by done. lia. }
  rewrite Hidx. split_and!.
  - intros i r' [Hi|[-> <-]]%lookup_snoc_Some; [by apply Hb|].
    split; cbn; [split; cbn|..]; try done.
    + apply u64_wrap_ok.
    + destruct Hprev as [->|Hprev]; [done|]. unfold u32_ok, u32_modulus. lia.
    + apply lookup_lt_Some in Hslot. lia.
    + apply lookup_lt_Some in Hp. lia.
  - rewrite length_app. cbn [length]. lia.
  - by eapply chain_record.
  - split; [done|]. by exists r.
Qed.


Lemma push_records_spec token slot stack records previous records' previous' l :
  outcome_fold (push_record predicates literals token) stack (records, previous) = Ok (records', previous') →
  records' `prefix_of` im_records im → (∀ e, e ∈ stack → pf_slot e = slot) →
  im_slots im !! N.to_nat token = Some (slot_str slot) →
  u32_ok token → built records → previous = NONE ∨ (previous < N.of_nat (length records))%N →
  chain_shows im slot previous l →
  built records' ∧ (previous' = NONE ∨ previous' < N.of_nat (length records'))%N ∧
  chain_shows im slot previous' ((pf_fact <$> reverse stack) ++ l) ∧
  (∀ e, last stack = Some e → fact_record previous' e).
Proof.
  revert records previous l. induction stack as [|e stack IH]; intros records previous l; cbn [outcome_fold].
  { intros [= <- <-] _ _ _ _ Hb Hp Hc. by split_and!. }
  intros ([records1 previous1] & H1 & H2)%outcome_bind_ok Hpre Hsl Hslot Ht Hb Hprev Hc.
  assert (records1 `prefix_of` im_records im) as Hpre1
    by (etrans; [exact (push_records_mono _ _ _ _ H2)|done]).
  assert (pf_slot e = slot) as He by (apply Hsl; by left). subst slot.
  destruct (push_record_spec _ _ _ _ _ _ _ H1 Hpre1 Hslot Ht Hb Hprev Hc) as (B1 & P1 & C1 & F1).
  destruct (IH records1 previous1 (pf_fact e :: l) H2 Hpre) as (B2 & P2 & C2 & F2); try done.
  { intros e' He'. apply Hsl. by right. }
  { by right. }
  split_and!; [done|done| |].
  - rewrite reverse_cons, fmap_app. cbn. by rewrite <- (assoc_L (++)).
  - intros e' Hl. destruct stack as [|e2 stack]; [|by apply F2].
    injection Hl as <-. cbn in H2. by injection H2 as <- <-.
Qed.

(** ** Heads *)

Context (definitions : gmap SlotId (list ProjectedFact)) (slots : gmap string N).
Context (Hslots : ∀ v t, slots !! v = Some t → im_slots im !! N.to_nat t = Some v ∧ u32_ok t).
Context (Hdef : ∀ s l e, definitions !! s = Some l → e ∈ l → pf_slot e = s).
Context (Hne : ∀ s, definitions !! s ≠ Some []).

(** What the head of a slot leads to. *)
Definition head_of (v : string) (h : N) : Prop :=
  ∃ stack e, definitions !! SlotId_new v = Some stack ∧ last stack = Some e ∧
    chain_shows im (SlotId_new v) h (pf_fact <$> reverse stack) ∧ fact_record h e.

Lemma push_slot_mono st v st' :
  push_slot definitions slots predicates literals st v = Ok st' →
  st.1 `prefix_of` st'.1 ∧ length st'.2 = length st.2.
Proof.
  destruct st as [records heads]. unfold push_slot. cbn [fst snd].
  intros (t & _ & ([records1 previous] & H1 & H2)%outcome_bind_ok)%outcome_bind_ok. cbn [fst snd] in H2.
  destruct (_ <? _); [|done]. injection H2 as <-. cbn [fst snd]. rewrite length_insert. split; [|done].
  destruct (definitions !! _) as [stack|]; [by apply push_records_mono in H1|by injection H1 as <- _].
Qed.

Lemma push_slot_length st v st' :
  push_slot definitions slots predicates literals st v = Ok st' →
  length st'.1 = length st.1 + length (default [] (definitions !! SlotId_new v)).
Proof.
  destruct st as [records heads]. unfold push_slot. cbn [fst snd].
  intros (t & _ & ([records1 previous] & H1 & H2)%outcome_bind_ok)%outcome_bind_ok. cbn [fst snd] in H2.
  destruct (_ <? _); [|done]. injection H2 as <-. cbn [fst snd].
  destruct (definitions !! _) as [stack|]; [by apply push_records_length in H1|].
  injection H1 as <- _. cbn. lia.
Qed.

Lemma push_slots_length vs st st' :
  outcome_fold (push_slot definitions slots predicates literals) vs st = Ok st' →
  length st'.1 = length st.1 + sum_list_with (λ v, length (default [] (definitions !! SlotId_new v))) vs.
Proof.
  revert st. induction vs as [|v vs IH]; intros st; cbn [outcome_fold sum_list_with]; [intros [= <-]; lia|].
  intros (st1 & H1%push_slot_length & H2%IH)%outcome_bind_ok. lia.
Qed.

Lemma push_slots_mono vs st st' :
  outcome_fold (push_slot definitions slots predicates literals) vs st = Ok st' →
  st.1 `prefix_of` st'.1 ∧ length st'.2 = length st.2.
Proof.
  revert st. induction vs as [|v vs IH]; intros st; cbn [outcome_fold]; [by intros [= <-]|].
  intros (st1 & [H1 H2]%push_slot_mono & [H3 H4]%IH)%outcome_bind_ok.
  split; [by etrans|congruence].
Qed.

Lemma push_slot_spec records heads v t records' heads' :
  push_slot definitions slots predicates literals (records, heads) v = Ok (records', heads') →
  records' `prefix_of` im_records im → is_Some (definitions !! SlotId_new v) →
  slots !! v = Some t → built records →
  built records' ∧ ∃ h, heads' = <[N.to_nat t := h]> heads ∧ N.to_nat t < length heads ∧ head_of v h.
Proof.
  unfold push_slot. intros (t' & Ht' & ([records1 h] & H1 & H2)%outcome_bind_ok)%outcome_bind_ok
    Hpre [stack Hst] Ht Hb. rewrite Ht in Ht'. injection Ht' as <-. rewrite Hst in H1. cbn [fst snd] in H2.
  destruct (_ <? _) eqn:Hlt; [|done]. injection H2 as <- <-. apply Nat.ltb_lt in Hlt.
  apply Hslots in Ht as [Ht Hu].
  destruct (push_records_spec t (SlotId_new v) stack records NONE records1 h [] H1 Hpre) as (B & P & C & F).
  - intros e. by apply Hdef.
  - done.
  - done.
  - done.
  - by left.
  - constructor.
  - split; [done|]. exists h. split_and!; [done|done|]. rewrite app_nil_r in C.
    destruct (last stack) as [e|] eqn:Hl.
    + exists stack, e. split_and!; [done|done|done|by apply F].
    + apply last_None in Hl as ->. by destruct (Hne (SlotId_new v)).
Qed.

Context (Hnd : NoDup (im_slots im)).
Context (Htoken : ∀ i v, im_slots im !! i = Some v → slots !! v = Some (N.of_nat i)).
Context (Hall : ∀ v, v ∈ im_slots im → is_Some (definitions !! SlotId_new v)).

Lemma push_slots_spec past todo records heads records' heads' :
  im_slots im = past ++ todo →
  outcome_fold (push_slot definitions slots predicates literals) todo (records, heads) = Ok (records', heads') →
  records' `prefix_of` im_records im → built records → length heads = length (im_slots im) →
  (∀ i v, past !! i = Some v → ∃ h, heads !! i = Some h ∧ head_of v h) →
  built records' ∧ length heads' = length (im_slots im) ∧ Forall2 head_of (im_slots im) heads'.
Proof.
  revert past records heads. induction todo as [|v todo IH]; intros past records heads Hsl; cbn [outcome_fold].
  - rewrite app_nil_r in Hsl. subst past. intros [= <- <-] _ Hb Hlen Hpast. split_and!; [done|done|].
    apply Forall2_same_length_lookup. split; [done|]. intros i v h Hv Hh.
    destruct (Hpast i v Hv) as (h' & Hh' & ?). by simplify_eq.
  - intros ([records1 heads1] & H1 & H2)%outcome_bind_ok Hpre Hb Hlen Hpast.
    assert (records1 `prefix_of` im_records im) as Hpre1
      by (etrans; [exact (proj1 (push_slots_mono _ _ _ H2))|done]).
    assert (im_slots im !! length past = Some v) as Hv by (rewrite Hsl; by apply list_lookup_middle).
    destruct (push_slot_spec _ _ _ _ _ _ H1 Hpre1
      (Hall _ (list_elem_of_lookup_2 _ _ _ Hv)) (Htoken _ _ Hv) Hb) as (B & h & -> & Hlt & Hh).
    rewrite Nat2N.id in *.
    apply (IH (past ++ [v]) records1 (<[length past:=h]> heads)); try done.
    + by rewrite Hsl, <- (assoc_L (++)).
    + by rewrite length_insert.
    + intros i w [Hi|[-> <-]]%lookup_snoc_Some.
      * rewrite list_lookup_insert_ne; [by apply Hpast|]. apply lookup_lt_Some in Hi. lia.
      * exists h. split; [|done]. by apply list_lookup_insert_eq.
Qed.

(** *** The active records *)

Lemma heads_active vs heads : Forall2 head_of vs heads → filter (λ h, h ≠ NONE) heads = heads.
Proof.
  induction 1 as [|v h vs hs (stack & e & _ & _ & _ & Hf & _) _ IH]; [done|].
  rewrite filter_cons, decide_True by exact Hf. by rewrite IH.
Qed.

Definition top_of (v : string) : option ProjectedFact := stack ← definitions !! SlotId_new v; last stack.

Lemma heads_tops vs heads : Forall2 head_of vs heads → Forall2 fact_record heads (omap top_of vs).
Proof.
  induction 1 as [|v h vs hs (stack & e & Hst & Hl & _ & Hf) _ IH]; [constructor|].
  csimpl. unfold top_of at 1. rewrite Hst. cbn [mbind option_bind]. rewrite Hl. by constructor.
Qed.

Context (Hnames : im_slots im = ord_sort (slot_str <$> (map_to_list definitions).*1)).

Lemma tops_perm :
  omap top_of (im_slots im) ≡ₚ omap (λ kv : SlotId * list ProjectedFact, last kv.2) (map_to_list definitions).
Proof.
  rewrite Hnames, ord_sort_Permutation.
  assert (∀ l : list (SlotId * list ProjectedFact), (∀ kv, kv ∈ l → definitions !! kv.1 = Some kv.2) →
    omap top_of (slot_str <$> l.*1) = omap (λ kv : SlotId * list ProjectedFact, last kv.2) l) as ->; [|done|].
  { induction l as [|[[v] stack] l IH]; intros Hl; [done|]. csimpl. rewrite IH by (intros; apply Hl; by right).
    unfold top_of at 1. pose proof (Hl _ ltac:(by left)) as Hv. cbn in Hv. by rewrite Hv. }
  intros [k v] Hkv. by apply elem_of_map_to_list.
Qed.

Lemma slots_total :
  sum_list_with (λ v, length (default [] (definitions !! SlotId_new v))) (im_slots im) =
  length (kv ← map_to_list definitions; kv.2).
Proof.
  rewrite Hnames. rewrite (sum_list_with_perm _ _ _ (ord_sort_Permutation _)).
  assert (∀ l : list (SlotId * list ProjectedFact), (∀ kv, kv ∈ l → definitions !! kv.1 = Some kv.2) →
    sum_list_with (λ v, length (default [] (definitions !! SlotId_new v))) (slot_str <$> l.*1) =
    length (kv ← l; kv.2)) as ->; [|done|].
  { induction l as [|[[v] stack] l IH]; intros Hl; [done|]. rewrite bind_cons, length_app. csimpl.
    rewrite IH by (intros; apply Hl; by right). pose proof (Hl _ ltac:(by left)) as Hv. cbn in Hv. by rewrite Hv. }
  intros [k v] Hkv. by apply elem_of_map_to_list.
Qed.

Context (evs : list Event) (Hrep : definitions_rep definitions evs) (Hevs : u64_ok (N.of_nat (length evs))).

Lemma definition_event s l e : definitions !! s = Some l → e ∈ l →
  evs !! pf_record_id e = Some (EvDefine (pf_slot e) (pf_fact e)).
Proof.
  intros Hl He. rewrite (Hdef s l e Hl He). apply stack_elem.
  rewrite <- (dr_stack _ _ Hrep s), Hl. apply (list_elem_of_fmap_2 pf_top). by apply elem_of_reverse.
Qed.

Lemma definition_id s l e : definitions !! s = Some l → e ∈ l →
  usize_of (pf_record_id e) = N.of_nat (pf_record_id e).
Proof.
  intros Hl He. apply u64_wrap_small. pose proof (definition_event s l e Hl He) as Hlt%lookup_lt_Some.
  unfold u64_ok in *. lia.
Qed.

Lemma tops_id e : e ∈ omap top_of (im_slots im) → usize_of (pf_record_id e) = N.of_nat (pf_record_id e).
Proof.
  rewrite tops_perm. intros ([s l] & Hin%elem_of_map_to_list & Hl)%list_elem_of_omap.
  eapply definition_id; [exact Hin|]. by apply last_Some_elem_of.
Qed.

(** Sorted by the ids, the heads are the active facts in record order. *)
Lemma sort_active_spec heads active :
  Forall2 head_of (im_slots im) heads → sort_active (im_records im) heads = Ok active →
  active ≡ₚ heads ∧ Forall2 fact_record active (active_of definitions).
Proof.
  intros Hh. unfold sort_active. intros (keyed & Hk & [= <-])%outcome_bind_ok.
  apply outcome_map_ok in Hk. pose proof (heads_tops _ _ Hh) as Hf.
  assert (Forall2 (λ kx e, kx.1 = N.of_nat (pf_record_id e) ∧ fact_record kx.2 e) keyed
    (omap top_of (im_slots im))) as Hke.
  { assert (∀ e, e ∈ omap top_of (im_slots im) → usize_of (pf_record_id e) = N.of_nat (pf_record_id e))
      as Hid by apply tops_id. revert Hid. generalize dependent (omap top_of (im_slots im)). clear Hh.
    induction Hk as [|x kx xs ks Hx _ IH]; intros tops Hf Hid.
    - apply Forall2_nil_inv_l in Hf as ->. constructor.
    - apply Forall2_cons_inv_l in Hf as (e & tops' & He & Hf & ->).
      constructor; [|apply IH; [done|intros; apply Hid; by right]].
      destruct He as (Hn & r & Hr & Hi & Hsh). rewrite Hr in Hx. injection Hx as <-. cbn [fst snd].
      split; [by rewrite Hi, Hid by left|]. split; [done|]. eauto. }
  assert (heads = keyed.*2) as ->.
  { clear -Hk. induction Hk as [|x kx xs ks Hx _ IH]; [done|]. rewrite fmap_cons, <- IH.
    apply outcome_bind_ok in Hx as (r & _ & [= <-]). done. }
  split; [by rewrite merge_sort_Permutation|].
  destruct (Permutation_Forall2 (symmetry (merge_sort_Permutation first_le keyed)) Hke) as (tops & Ht & Hst).
  assert (tops = active_of definitions) as <-.
  { apply (fmap_perm_eq pf_record_id).
    - rewrite <- Ht, tops_perm. unfold active_of. by rewrite merge_sort_Permutation.
    - apply (Sorted_unique (≤)).
      + apply StronglySorted_Sorted, (Forall2_StronglySorted first_le _ pf_record_id (≤) _ _
          (StronglySorted_merge_sort first_le keyed) Hst).
        intros x x' y y' [H1 _] [H2 _]. unfold first_le. rewrite H1, H2. lia.
      + apply (Sorted_fmap pf_record_id record_id_le); [done|]. apply Sorted_merge_sort, _.
      + rewrite <- Ht, tops_perm. unfold active_of. by rewrite merge_sort_Permutation.
    - unfold active_of. rewrite merge_sort_Permutation. by eapply NoDup_last_ids. }
  apply Forall2_fmap_l. eapply Forall2_impl; [exact Hst|]. by intros kx e [_ ?].
Qed.

(** *** The indexes *)

Lemma build_index_spec sec active l :
  sec = SPO ∨ sec = POS ∨ sec = OSP → built (im_records im) →
  (∀ x, x ∈ active → (x < N.of_nat (length (im_records im)))%N) →
  length active = length (im_active im) →
  build_index (index_entry_of sec) (im_records im) active = Ok l →
  index_in im l ∧ ∃ l', l ≡ₚ l' ∧
    Forall2 (λ x en, ∃ r, im_records im !! N.to_nat x = Some r ∧ en = index_entry_of sec x r) active l'.
Proof.
  intros Hsec Hb Hact Hlen. unfold build_index. intros (entries & He & [= <-])%outcome_bind_ok.
  apply outcome_map_ok in He.
  assert (Forall2 (λ x en, ∃ r, im_records im !! N.to_nat x = Some r ∧ en = index_entry_of sec x r)
    active entries.*1) as Hf.
  { apply Forall2_fmap_r. eapply Forall2_impl; [exact He|]. intros x en (r & Hr & [= <-])%outcome_bind_ok.
    exists r. split; [|done]. by destruct (im_records im !! N.to_nat x); [injection Hr as ->|]. }
  assert ((merge_sort entry_le entries).*1 ≡ₚ entries.*1) as Hp by (by rewrite merge_sort_Permutation).
  split; [|by eexists]. split.
  - rewrite (Permutation_length Hp), <- (Forall2_length _ _ _ Hf). done.
  - apply Forall_forall. intros en Hen. rewrite Hp in Hen. apply list_elem_of_lookup in Hen as (i & Hi).
    destruct (Forall2_lookup_r _ _ _ _ _ Hf Hi) as (x & Hx & r & Hr & ->).
    apply list_elem_of_lookup_2 in Hx. specialize (Hact x Hx).
    pose proof (is_records _ Hsm) as Hrec. split.
    + apply entry_ok_of; [apply (Hb _ _ Hr)|]. unfold u32_ok in *. lia.
    + by rewrite ie_record_of.
  - apply (StronglySorted_fmap fst entry_le); [|apply StronglySorted_merge_sort; apply _].
    intros [x i] [y j]. unfold entry_le, key_le, ord_le. cbn [fst snd].
    generalize (entry_key x), (entry_key y). intros k k'. rewrite (prod_cmp k k' i j), cmp_then_not_gt.
    by intros [E|[E _]]; rewrite E.
Qed.

(** *** The image of the history *)

Lemma stack_facts s l : definitions !! s = Some l → pf_fact <$> reverse l = spec_definitions evs s.
Proof.
  intros Hl. unfold spec_definitions. rewrite <- (dr_stack _ _ Hrep s), Hl. cbn [default].
  by rewrite <- list_fmap_compose.
Qed.

Lemma fact_record_active active : Forall2 fact_record active (active_of definitions) →
  Forall2 (active_shows im) active (active_entries evs).
Proof.
  intros Hf. rewrite <- (active_of_entries _ _ Hrep). apply Forall2_fmap_r.
  eapply Forall2_impl; [exact Hf|]. intros x e (_ & r & Hr & _ & Hsh). by exists r.
Qed.

Lemma fact_record_bound active k : Forall2 fact_record active k →
  ∀ x, x ∈ active → (x < N.of_nat (length (im_records im)))%N.
Proof.
  intros Hf x (i & Hi)%list_elem_of_lookup.
  destruct (Forall2_lookup_l _ _ _ _ _ Hf Hi) as (e & _ & _ & r & Hr & _).
  apply lookup_lt_Some in Hr. lia.
Qed.

Lemma slot_shows s t : Forall2 head_of (im_slots im) (im_heads im) →
  im_slots im !! t = Some (slot_str s) →
  ∃ h, im_heads im !! t = Some h ∧ chain_shows im s h (spec_definitions evs s).
Proof.
  intros Hf Ht. destruct (Forall2_lookup_l _ _ _ _ _ Hf Ht) as (h & Hh & stack & e & Hst & _ & Hc & _).
  exists h. split; [done|]. destruct s as [v]. cbn [slot_str] in *. by rewrite <- (stack_facts _ _ Hst).
Qed.

Lemma absent_slot s : slot_str s ∉ im_slots im → spec_definitions evs s = [].
Proof.
  intros Hs. destruct (definitions !! s) as [l|] eqn:Hl.
  - destruct Hs. rewrite Hnames, elem_of_ord_sort. apply list_elem_of_fmap_2, list_elem_of_fmap.
    exists (s, l). split; [done|]. by apply elem_of_map_to_list.
  - unfold spec_definitions. by rewrite <- (dr_stack _ _ Hrep s), Hl.
Qed.
End records.

(** ** The sections of a snapshot *)

(** What the history defines has strings as Rust has them. *)
Lemma frame_event_wf fs i s f :
  Forall frame_wf fs → frame_events fs !! i = Some (EvDefine s f) → str_wf (slot_str s) ∧ fact_wf f.
Proof.
  intros Hwf Hi%list_elem_of_lookup_2. rewrite frame_events_ops in Hi.
  unfold events_of in Hi. apply list_elem_of_omap in Hi as (op & Hop & Hev).
  unfold chain_operations in Hop. apply list_elem_of_bind in Hop as (fr & Hop & Hfr).
  eapply Forall_forall in Hwf; [|exact Hfr]. destruct Hwf as (_ & _ & _ & _ & _ & Hops).
  eapply Forall_forall in Hops; [|exact Hop]. destruct op; cbn in *; try done. by simplify_eq.
Qed.

Section sections.
Context {D P : Type} `{Kernel D, MappedRoot P}.
Context (world : World D P) (q : VmQueryProjection P) (fs : list CommitFrame).
Context (Hframes : world_frames world = fs) (Hwf : Forall frame_wf fs).
Context (Hq : projection_rep q (frame_events fs)) (Hevs : u64_ok (N.of_nat (length (frame_events fs)))).

Let definitions := vq_definitions q.
Let slot_names := ord_sort (slot_str <$> (map_to_list definitions).*1).
Let entries := kv ← map_to_list definitions; kv.2.
Let predicate_names := btree_strings ((λ e, predicate_str (fact_predicate (pf_fact e))) <$> entries).
Let literal_names := btree_strings (e ← entries; collect_atom_string (fact_subject (pf_fact e)) ++
  collect_atom_string (fact_object (pf_fact e))).

Lemma slot_names_strict : strictly_sorted slot_names.
Proof.
  apply ord_sort_strict. apply (NoDup_fmap_2_strong slot_str); [|apply NoDup_fst_map_to_list].
  intros [] [] _ _. cbn. by intros ->.
Qed.

Lemma elem_of_slot_names v : v ∈ slot_names ↔ is_Some (definitions !! SlotId_new v).
Proof.
  unfold slot_names. rewrite elem_of_ord_sort, list_elem_of_fmap. split.
  - intros (s & -> & ([s' l] & -> & Hl%elem_of_map_to_list)%list_elem_of_fmap). destruct s'. by exists l.
  - intros [l Hl]. exists (SlotId_new v). split; [done|]. apply list_elem_of_fmap. exists (SlotId_new v, l).
    split; [done|]. by apply elem_of_map_to_list.
Qed.

Lemma elem_of_entries e : e ∈ entries → str_wf (slot_str (pf_slot e)) ∧ fact_wf (pf_fact e).
Proof.
  intros ([s l] & He & Hl%elem_of_map_to_list)%list_elem_of_bind.
  eapply frame_event_wf; [done|]. by eapply (definition_event definitions (dr_slots _ _ (pr_definitions _ _ Hq)) _ (pr_definitions _ _ Hq)).
Qed.

Lemma slot_names_wf : table_wf slot_names.
Proof.
  split; [|apply slot_names_strict]. apply Forall_forall. intros v [l Hl]%elem_of_slot_names.
  destruct l as [|e l]; [by destruct (dr_nonempty _ _ (pr_definitions _ _ Hq) (SlotId_new v))|].
  assert (e ∈ entries) as [Hs _]%elem_of_entries.
  { apply list_elem_of_bind. exists (SlotId_new v, e :: l). split; [by left|]. by apply elem_of_map_to_list. }
  rewrite (dr_slots _ _ (pr_definitions _ _ Hq) _ _ _ Hl ltac:(by left)) in Hs. apply Hs.
Qed.

Lemma predicate_names_wf : table_wf predicate_names.
Proof.
  split; [|apply btree_strings_strict]. apply Forall_forall. intros v Hv.
  unfold predicate_names in Hv. apply elem_of_btree_strings, list_elem_of_fmap in Hv as (e & -> & He).
  apply elem_of_entries in He as [_ (_ & [Hp _] & _)]. done.
Qed.

Lemma literal_names_wf : table_wf literal_names.
Proof.
  split; [|apply btree_strings_strict]. apply Forall_forall. intros v Hv.
  unfold literal_names in Hv. apply elem_of_btree_strings, list_elem_of_bind in Hv as (e & Hv & He).
  apply elem_of_entries in He as [_ (H1 & _ & H3)]. apply elem_of_app in Hv as [Hv|Hv].
  - destruct (fact_subject (pf_fact e)); [by apply elem_of_nil in Hv|]. cbn in Hv.
    apply list_elem_of_singleton in Hv as ->. apply H1.
  - destruct (fact_object (pf_fact e)); [by apply elem_of_nil in Hv|]. cbn in Hv.
    apply list_elem_of_singleton in Hv as ->. apply H3.
Qed.

(** The bounds that the size limit puts on the counts. *)
Lemma sections_small im fb :
  (∀ sec, sec ∈ image_sections im fb → (N.of_nat (length sec) <= MAX_SNAPSHOT_BYTES)%N) → image_small im.
Proof.
  intros Hs. assert (∀ values, encode_string_table values ∈ image_sections im fb →
    u32_ok (N.of_nat (length values))) as Ht.
  { intros values Hin%Hs. destruct (encoded_table_small values MAX_SNAPSHOT_BYTES Hin ltac:(done)) as [H1 _].
    unfold u32_ok, u32_modulus. unfold MAX_SNAPSHOT_BYTES in H1. lia. }
  split.
  - apply Ht. unfold image_sections. set_solver.
  - apply Ht. unfold image_sections. set_solver.
  - apply Ht. unfold image_sections. set_solver.
  - assert (N.of_nat (length (r ← im_records im; record_image r)) <= MAX_SNAPSHOT_BYTES)%N as Hr
      by (apply Hs; unfold image_sections; set_solver).
    rewrite (length_bind_blocks record_image RECORD_LEN) in Hr by apply length_record_image.
    unfold RECORD_LEN in Hr. unfold u32_ok, u32_modulus. unfold MAX_SNAPSHOT_BYTES in Hr. lia.
Qed.

Lemma snapshot_sections_image secs :
  snapshot_sections world q = Ok secs →
  (∀ sec, sec ∈ secs → (N.of_nat (length sec) <= MAX_SNAPSHOT_BYTES)%N) →
  ∃ im fb, secs = image_sections im fb ∧ encode_frames fs = Ok fb ∧ im_frames im = fs ∧
    image_wf im ∧ image_small im ∧ image_shows im (frame_events fs).
Proof.
  unfold snapshot_sections. cbv zeta. fold definitions. fold slot_names. fold entries.
  fold predicate_names. fold literal_names.
  intros ([records heads] & Hbuilt & H1)%outcome_bind_ok Hsize.
  apply outcome_bind_ok in H1 as (active & Hact & H1). apply outcome_bind_ok in H1 as (spo & Hspo & H1).
  apply outcome_bind_ok in H1 as (pos & Hpos & H1). apply outcome_bind_ok in H1 as (osp & Hosp & H1).
  rewrite encode_records_spec, !encode_indexes_spec, Hframes in H1. cbn [outcome_bind] in H1.
  apply outcome_bind_ok in H1 as (fb & Hfb & [= <-]).
  set (im := Image slot_names predicate_names literal_names records heads active spo pos osp fs).
  change (∀ sec, sec ∈ image_sections im fb → (N.of_nat (length sec) <= MAX_SNAPSHOT_BYTES)%N) in Hsize.
  exists im, fb. pose proof (sections_small _ _ Hsize) as Hsm. clear Hsize.
  pose proof (pr_definitions _ _ Hq) as Hrep. fold definitions in Hrep.
  assert (Hdef : ∀ s l e, definitions !! s = Some l → e ∈ l → pf_slot e = s) by apply (dr_slots _ _ Hrep).
  assert (Hne : ∀ s, definitions !! s ≠ Some []) by apply (dr_nonempty _ _ Hrep).
  assert (Hnd : NoDup (im_slots im)) by apply strictly_sorted_NoDup, slot_names_strict.
  assert (Htok : ∀ names v t, strictly_sorted names → u32_ok (N.of_nat (length names)) →
    token_map names !! v = Some t ↔ names !! N.to_nat t = Some v ∧ u32_ok t)
    by (intros; apply token_map_Some; [by apply strictly_sorted_NoDup|done]).
  assert (Hslots : ∀ v t, token_map slot_names !! v = Some t ↔ im_slots im !! N.to_nat t = Some v ∧ u32_ok t)
    by (intros v t; apply Htok; [apply slot_names_strict|apply (is_slots _ Hsm)]).
  assert (Hpred : ∀ v t, token_map predicate_names !! v = Some t →
    im_predicates im !! N.to_nat t = Some v ∧ u32_ok t)
    by (intros v t; apply Htok; [apply btree_strings_strict|apply (is_predicates _ Hsm)]).
  assert (Hlit : ∀ v t, token_map literal_names !! v = Some t →
    im_literals im !! N.to_nat t = Some v ∧ u32_ok t)
    by (intros v t; apply Htok; [apply btree_strings_strict|apply (is_literals _ Hsm)]).
  assert (Htoken : ∀ i v, im_slots im !! i = Some v → token_map slot_names !! v = Some (N.of_nat i)).
  { intros i v Hi. apply Hslots. rewrite Nat2N.id. split; [done|]. apply lookup_lt_Some in Hi.
    pose proof (is_slots _ Hsm). unfold u32_ok in *. lia. }
  destruct (push_slots_spec im Hsm _ _ Hpred Hlit definitions _ (λ v t Hv, proj1 (Hslots v t) Hv) Hdef Hne
    Htoken (λ v Hv, proj1 (elem_of_slot_names v) Hv) [] slot_names [] (replicate (length slot_names) NONE)
    records heads) as (Hb & Hlen & Hheads); [done|done|done|done|by rewrite length_replicate|done|].
  rewrite (heads_active im definitions _ _ Hheads) in Hact.
  destruct (sort_active_spec im definitions Hdef eq_refl _ Hrep Hevs heads active Hheads Hact)
    as (Hperm & Hactive).
  pose proof (fact_record_bound im _ _ Hactive) as Hbound.
  assert (Hix : ∀ sec l, im_index im sec = Some l → index_in im l ∧ ∃ l', l ≡ₚ l' ∧
    Forall2 (λ x en, ∃ r, im_records im !! N.to_nat x = Some r ∧ en = index_entry_of sec x r) active l').
  { intros sec l. unfold im_index. case_decide as E1; [|case_decide as E2; [|case_decide as E3; [|done]]];
      intros [= <-]; subst sec.
    - apply (build_index_spec im Hsm SPO active spo); auto.
    - apply (build_index_spec im Hsm POS active pos); auto.
    - apply (build_index_spec im Hsm OSP active osp); auto. }
  split_and!; [done|done|done| |done|].
  - split.
    + apply slot_names_wf.
    + apply predicate_names_wf.
    + apply literal_names_wf.
    + done.
    + done.
    + apply Forall_forall. intros h Hh. right. apply Hbound. by rewrite Hperm.
    + apply Forall_forall. done.
    + intros sec l Hl. by apply (Hix sec l).
    + done.
  - split.
    + intros s t. by apply (slot_shows im definitions _ Hrep).
    + intros s. by apply (absent_slot im definitions eq_refl _ Hrep).
    + by apply (fact_record_active im definitions _ Hrep).
    + intros sec l Hl. by apply (Hix sec l).
    + pose proof (push_slots_length _ _ _ _ _ _ _ Hbuilt) as Hn. cbn [fst snd length Nat.add] in Hn.
      change (im_records im) with records. rewrite Hn.
      rewrite (slots_total im definitions eq_refl : sum_list_with _ slot_names = _).
      by apply definitions_rep_size.
Qed.
End sections.

(** Writing and opening a snapshot: the file that [create] writes opens, with
    any continuation of its journal, to a snapshot that represents the history
    of the world it was made of. *)

Local Open Scope string_scope.
Local Open Scope nat_scope.
Local Open Scope list_scope.

#[local] Opaque Nat.div Nat.modulo u32_bytes u64_bytes le_bytes.

(** An opened snapshot represents its history: the content it shows, and the
    metadata it declares. *)
Record snapshot_ok (s : MmapVmSnapshot) (fs : list CommitFrame) : Prop := {
  so_image : ∃ im, shows s im ∧ image_wf im ∧ image_small im ∧ image_shows im (frame_events fs) ∧
    im_frames im = fs;
  so_chain : check_chain fs = Ok (ms_world_id s, ms_world_version s, ms_next_entity s);
  so_operations : N.to_nat (ms_operation_count s) = length (chain_operations fs);
  so_records : N.to_nat (ms_record_count s) = length (frame_events fs);
  so_active : ms_active_slot_count s = spec_active_count (frame_events fs);
}.

(** ** Bounds *)

Lemma length_events_of ops : length (events_of ops) ≤ length ops.
Proof.
  unfold events_of. induction ops as [|op ops IH]; [done|]. csimpl.
  destruct (operation_event op); simpl; lia.
Qed.

Lemma encode_operation_length op b : encode_operation op = Ok b → 1 ≤ length b.
Proof.
  destruct op as [e|s f|s]; cbn [encode_operation].
  - intros [= <-]. simpl. lia.
  - intros (? & _ & (? & _ & (? & _ & (? & _ & [= <-])%outcome_bind_ok)%outcome_bind_ok)%outcome_bind_ok)%outcome_bind_ok.
    simpl. lia.
  - intros (? & _ & [= <-])%outcome_bind_ok. simpl. lia.
Qed.

(** A history section has a byte for every operation. *)
Lemma encode_frames_length fs fb : encode_frames fs = Ok fb → length (chain_operations fs) ≤ length fb.
Proof.
  unfold encode_frames. intros (bs & Hb & [= <-])%outcome_bind_ok. apply outcome_map_ok in Hb.
  rewrite length_app. enough (length (chain_operations fs) ≤ length (concat bs)) by lia.
  unfold chain_operations. induction Hb as [|f b fs bs Hf _ IH]; [simpl; lia|].
  cbn [concat]. rewrite bind_cons, !length_app. enough (length (frame_operations f) ≤ length b) by lia.
  unfold encode_frame in Hf. apply outcome_bind_ok in Hf as (n & _ & Hf).
  apply outcome_bind_ok in Hf as (os & Ho & [= <-]). apply outcome_map_ok in Ho.
  rewrite !length_app. enough (length (frame_operations f) ≤ length (concat os)) by lia.
  clear -Ho. induction Ho as [|op o ops os Hop _ IH]; [simpl; lia|]. cbn [concat length]. rewrite length_app.
  apply encode_operation_length in Hop. lia.
Qed.

Lemma chain_state_ok fs id v n :
  Forall frame_wf fs → check_chain fs = Ok (id, v, n) → u64_ok (world_value id) ∧ u64_ok v ∧ u64_ok n.
Proof.
  intros Hwf Hc. destruct fs as [|f fs _] using rev_ind; [by injection Hc as <- <- <-|].
  pose proof (check_chain_last _ _ f Hc (last_snoc _ _)) as [= -> -> ->].
  apply Forall_app in Hwf as [_ Hf]. apply Forall_cons in Hf as [(_ & H2 & _ & H4 & H5 & _) _]. done.
Qed.

Lemma Ok_eq {E A} (x y : A) : Ok (E := E) x = Ok y → x = y.
Proof. by intros [= ->]. Qed.

Section file.
Context {D P : Type} `{Kernel D, MappedRoot P}.
Context (world : World D P) (q : VmQueryProjection P) (fs : list CommitFrame).

Lemma snapshot_sections_frames secs :
  snapshot_sections world q = Ok secs →
  ∃ fb, encode_frames (world_frames world) = Ok fb ∧ fb ∈ secs.
Proof.
  unfold snapshot_sections. cbv zeta.
  intros ([records heads] & _ & H1)%outcome_bind_ok.
  apply outcome_bind_ok in H1 as (? & _ & H1). do 3 apply outcome_bind_ok in H1 as (? & _ & H1).
  do 4 apply outcome_bind_ok in H1 as (? & _ & H1). apply outcome_bind_ok in H1 as (fb & Hfb & [= <-]).
  exists fb. split; [done|]. set_solver.
Qed.

Lemma laid_out_length start bytes secs rs i sec :
  laid_out start bytes secs rs → secs !! i = Some sec → length sec ≤ length bytes.
Proof.
  intros Hl Hi. destruct (lo_ranges _ _ _ _ Hl i sec Hi) as (r & _ & Hr). specialize (Hr []).
  rewrite app_nil_r in Hr. apply range_Some in Hr as (_ & _ & ->). rewrite length_take, length_drop. lia.
Qed.

(** The bytes of a snapshot are those of an image file. *)
Lemma snapshot_bytes_image journal epoch_count bytes :
  projection_rep q (frame_events fs) → world_frames world = fs → Forall frame_wf fs →
  u64_ok epoch_count → u64_ok (world_value (w_id world)) → u64_ok (w_version world) →
  u64_ok (w_next_entity world) → w_active_slot_count world = usize_of (spec_active_count (frame_events fs)) →
  snapshot_bytes journal epoch_count world q = Ok bytes →
  ∃ im fb body rs, let m := SnapshotMeta epoch_count (world_value (w_id world)) (w_version world)
      (w_next_entity world) (usize_of (w_operation_count world)) (usize_of (w_record_count world)) in
    bytes = image_file im journal m body rs ∧ meta_ok m ∧
    image_wf im ∧ image_small im ∧ image_shows im (frame_events fs) ∧ im_frames im = fs ∧
    encode_frames fs = Ok fb ∧ length fb ≤ length bytes ∧
    foldl push_section (replicate HEADER_LEN x00, []) (image_sections im fb) =
      (replicate HEADER_LEN x00 ++ body, rs) ∧
    (N.of_nat (HEADER_LEN + length (body ++ TRAILER)) <= MAX_SNAPSHOT_BYTES)%N.
Proof.
  intros Hq Hfs Hwf He Hid Hv Hn Hact. unfold snapshot_bytes. rewrite (pr_mapped _ _ Hq).
  intros (secs & Hsecs & H1)%outcome_bind_ok.
  destruct (layout_spec secs (replicate HEADER_LEN x00) []) as (body & rs & Hlay & Hlo).
  rewrite Hlay in H1. cbn [app] in H1.
  destruct (_ <? _)%N eqn:Hmax; [done|]. apply N.ltb_ge in Hmax.
  rewrite <- (assoc_L (++)), length_app, length_replicate in Hmax.
  assert (∀ sec, sec ∈ secs → (N.of_nat (length sec) <= MAX_SNAPSHOT_BYTES)%N) as Hsmall.
  { intros sec (i & Hi)%list_elem_of_lookup. pose proof (laid_out_length _ _ _ _ _ _ Hlo Hi) as Hl.
    rewrite length_app, length_replicate in Hl. rewrite length_app in Hmax. lia. }
  assert (u64_ok (N.of_nat (length (frame_events fs)))) as Hevs.
  { destruct (snapshot_sections_frames _ Hsecs) as (fb & Hfb & Hin%Hsmall). rewrite Hfs in Hfb.
    pose proof (encode_frames_length _ _ Hfb). pose proof (length_events_of (chain_operations fs)) as Hle.
    rewrite <- frame_events_ops in Hle. unfold u64_ok, u64_modulus. unfold MAX_SNAPSHOT_BYTES in Hin. lia. }
  destruct (snapshot_sections_image world q fs Hfs Hwf Hq Hevs secs Hsecs Hsmall)
    as (im & fb & -> & Hfb & Him & Himw & Hims & Hsh).
  pose proof (laid_out_length _ _ _ _ FRAMES fb Hlo eq_refl) as Hlf.
  rewrite <- (assoc_L (++)) in H1.
  assert (length rs = SECTION_COUNT) as Hrs by apply (lo_length _ _ _ _ Hlo).
  rewrite (put_header_spec (body ++ TRAILER) journal epoch_count world rs Hrs) in H1.
  exists im, fb, body, rs. cbv zeta. apply Ok_eq in H1 as <-.
  assert (usize_of (length (im_active im)) = w_active_slot_count world) as Hac.
  { rewrite (Forall2_length _ _ _ (is_active _ _ Hsh)), Hact, <- length_active_ids.
    f_equal. by rewrite <- (active_of_ids _ _ (pr_definitions _ _ Hq)), <- (active_of_entries _ _ (pr_definitions _ _ Hq)), !length_fmap. }
  split_and!; try done.
  - unfold image_file, image_words, header_words, meta_words. cbn [sm_epoch_count sm_world_id sm_version
      sm_next_entity sm_operation_count sm_record_count]. by rewrite Hac, Him, Hfs.
  - unfold meta_ok. cbn. split_and!; try done; apply u64_wrap_ok.
  - rewrite (length_app (header _)), length_header.
    + rewrite length_app, length_replicate in Hlf. rewrite length_app. lia.
    + unfold header_words. by rewrite length_app, length_range_words, Hrs.
Qed.
End file.

Section open.
Context {D P : Type} `{KernelLaws D, MappedRootLaws P}.

(** The file of a world opens to a snapshot of its history. *)
Lemma snapshot_bytes_open (world : World D P) q fs journal suffix epoch_count bytes :
  world_ok world fs → projection_rep q (frame_events fs) → Forall frame_wf fs →
  u64_ok epoch_count → u64_ok (N.of_nat (length journal)) → 16 ≤ length journal →
  snapshot_bytes journal epoch_count world q = Ok bytes →
  ∃ s, open bytes (journal ++ suffix) = Ok s ∧ snapshot_ok s fs ∧
    ms_epoch_count s = epoch_count ∧ ms_journal_offset s = N.of_nat (length journal) ∧
    ms_world_id s = w_id world ∧ ms_world_version s = w_version world ∧
    ms_next_entity s = w_next_entity world.
Proof.
  intros Hw Hq Hwf He Hju Hj Hbytes.
  destruct (chain_state_ok _ _ _ _ Hwf (wo_chain _ _ Hw)) as (Hid & Hv & Hn).
  destruct (snapshot_bytes_image world q fs journal epoch_count bytes Hq (wo_frames _ _ Hw) Hwf He Hid Hv Hn
    (wo_active _ _ Hw) Hbytes)
    as (im & fb & body & rs & -> & Hm & Himw & Hims & Hsh & Hfr & Hfb & Hlen & Hlay & Hmax).
  set (m := SnapshotMeta _ _ _ _ _ _) in *.
  assert (encode_frames (im_frames im) = Ok fb) as Hfb' by by rewrite Hfr.
  destruct (open_image im fb journal m body rs Himw Hfb' Hm Hlay Hmax Hju suffix Hj)
    as (s & Hopen & Hshows & (M1 & M2 & M3 & M4 & M5 & M6 & M7 & _)).
  exists s. split; [done|].
  pose proof (encode_frames_length _ _ Hfb) as Hops.
  pose proof (length_events_of (chain_operations fs)) as Hevs. rewrite <- frame_events_ops in Hevs.
  assert (length fb ≤ N.to_nat MAX_SNAPSHOT_BYTES) as Hfbmax.
  { rewrite (length_image_file im fb journal m body rs Hlay) in Hlen. lia. }
  assert (∀ n, n ≤ length (chain_operations fs) → N.to_nat (usize_of n) = n) as Hsmall.
  { intros n Hle. assert (u64_ok (N.of_nat n)) as Hu
      by (unfold u64_ok, u64_modulus; unfold MAX_SNAPSHOT_BYTES in Hfbmax; lia).
    rewrite (u64_wrap_small _ Hu : usize_of n = _). lia. }
  assert (ms_world_id s = w_id world) as Hwid by (rewrite M3; by destruct (w_id world)).
  split_and!; try done. split.
  - by exists im.
  - by rewrite Hwid, M4, M5, (wo_chain _ _ Hw).
  - rewrite M6. cbn [sm_operation_count m]. by rewrite (wo_operations _ _ Hw), Hsmall.
  - rewrite M7. cbn [sm_record_count m]. by rewrite (wo_records _ _ Hw), Hsmall.
  - rewrite (sh_active_count _ _ Hshows), (Forall2_length _ _ _ (is_active _ _ Hsh)).
    rewrite <- length_active_ids, <- (active_of_ids _ _ (pr_definitions _ _ Hq)).
    by rewrite <- (active_of_entries _ _ (pr_definitions _ _ Hq)), !length_fmap.
Qed.
End open.
