(* ===== verification/SnapshotSafety.v ===== *)
(** Opening and reading arbitrary bytes as a mapped VM snapshot: [open] never
    panics, and what it accepts has readable tables in strict order, records
    that point downwards, and heads inside the arena, so that resolving and
    listing definitions never panic and never run on. *)
From Stdlib Require Import NArith Lia.
From Stdlib Require Import Strings.Byte.
From stdpp Require Import sorting base gmap list strings option list_monad fin_maps.
From S2P Require Import Prelude Ord Terms Bytes Query QueryFacts QueryOrder Spec Index Kernel Frames.
From S2P Require Import VmProjection Worlds WorldFacts Codec FileStore MmapFormat StackVm VmEpochs.
From S2P Require Import SnapshotFormat SnapshotFormatFacts MmapSnapshot SnapshotLayout.
From S2P Require Import SnapshotRep SnapshotBuild.

Local Open Scope string_scope.
Local Open Scope nat_scope.
Local Open Scope list_scope.

#[local] Opaque Nat.div Nat.modulo u32_bytes u64_bytes le_bytes.

(** ** Results without panics *)

Definition safe {E A} (m : outcome E A) : Prop := m ≠ Panic.

Lemma safe_Ok {E A} (a : A) : safe (Ok (E := E) a).
Proof. done. Qed.
Lemma safe_Err {E A} (e : E) : safe (A := A) (Err e).
Proof. done. Qed.

Lemma safe_bind {E A B} (m : outcome E A) (f : A → outcome E B) :
  safe m → (∀ a, m = Ok a → safe (f a)) → safe (outcome_bind m f).
Proof. destruct m; cbn; intros Hm Hf; [by apply Hf|done|by destruct Hm]. Qed.

Lemma safe_ok_or {E A} (o : option A) (e : E) : safe (ok_or o e).
Proof. by destruct o. Qed.

Lemma safe_ok_option {E F A} (m : outcome E A) : safe m → safe (ok_option (F := F) m).
Proof. by destruct m. Qed.

Lemma safe_if {E A} (b : bool) (m1 m2 : outcome E A) : safe m1 → safe m2 → safe (if b then m1 else m2).
Proof. by destruct b. Qed.

Lemma safe_map {E A B} (f : A → outcome E B) l : (∀ x, safe (f x)) → safe (outcome_map f l).
Proof.
  intros Hf. induction l as [|x l IH]; [done|]. cbn [outcome_map].
  apply safe_bind; [apply Hf|]. intros y _. by apply safe_bind.
Qed.

Lemma safe_fold {E A S} (f : S → A → outcome E S) l s :
  (∀ s x, x ∈ l → safe (f s x)) → safe (outcome_fold f l s).
Proof.
  revert s. induction l as [|x l IH]; intros s Hf; [done|]. cbn [outcome_fold].
  apply safe_bind; [apply Hf; by left|]. intros s' _. apply IH. intros. apply Hf. by right.
Qed.

Create HintDb safe discriminated.
#[export] Hint Resolve safe_Ok safe_Err safe_ok_or safe_ok_option : safe.

(** Descends through binds and tests. *)
Ltac safe :=
  repeat first
    [ solve [auto with safe]
    | apply safe_if
    | apply safe_bind; [|intros ? ?] ].

Lemma read_u32_at_safe b o : safe (read_u32_at b o).
Proof. unfold read_u32_at. safe. Qed.
Lemma read_u64_at_safe b o : safe (read_u64_at b o).
Proof. unfold read_u64_at. safe. Qed.
#[export] Hint Resolve read_u32_at_safe read_u64_at_safe : safe.

Lemma st_value_safe t mapping i : safe (st_value t mapping i).
Proof. unfold st_value. safe. Qed.
#[export] Hint Resolve st_value_safe : safe.

Lemma check_sorted_safe t mapping previous l : safe (check_sorted t mapping previous l).
Proof. revert previous. induction l as [|i l IH]; intros previous; [done|]. cbn [check_sorted]. safe. Qed.
#[export] Hint Resolve check_sorted_safe : safe.

Lemma st_parse_safe mapping sec : safe (st_parse mapping sec).
Proof. unfold st_parse. safe. apply safe_map. intros i. safe. Qed.

Lemma read_section_safe mapping i : safe (read_section mapping i).
Proof. unfold read_section. safe. Qed.
#[export] Hint Resolve st_parse_safe read_section_safe : safe.

Lemma check_envelope_safe mapping : safe (check_envelope mapping).
Proof.
  unfold check_envelope. destruct (_ || _) eqn:E; [done|]. apply orb_false_iff in E as [E _].
  apply Nat.ltb_ge in E. change (length TRAILER) with 8 in *. unfold HEADER_LEN in E.
  destruct (range_in_range mapping 0 8) as [x ->]; [lia..|].
  destruct (range_in_range mapping (length mapping - 8) (length mapping)) as [y ->]; [lia..|].
  cbn [or_panic]. safe.
Qed.
#[export] Hint Resolve check_envelope_safe : safe.

(** ** Sections *)

Definition range_in (mapping : list u8) (r : nat * nat) : Prop := r.1 ≤ r.2 ∧ r.2 ≤ length mapping.

Definition sections_in (s : MmapVmSnapshot) : Prop := Forall (range_in (ms_mapping s)) (ms_sections s).

Lemma read_section_ok mapping i r :
  read_section mapping i = Ok r → range_in mapping r.
Proof.
  unfold read_section. intros (start & _ & (len & _ & (e & He & H1)%outcome_bind_ok)%outcome_bind_ok)%outcome_bind_ok.
  unfold u64_checked_add in He. destruct (_ <? u64_modulus)%N; [|done]. injection He as <-.
  destruct (_ || _) eqn:E; [done|]. apply orb_false_iff in E as [_ E]. apply N.ltb_ge in E.
  injection H1 as <-. split; cbn [fst snd]; lia.
Qed.

Lemma read_sections_ok mapping l rs :
  outcome_map (read_section mapping) l = Ok rs → Forall (range_in mapping) rs.
Proof.
  intros Hrs%outcome_map_ok. induction Hrs as [|i r l rs Hr _ IH]; constructor; [|done].
  by eapply read_section_ok.
Qed.

Lemma section_in mapping rs i : Forall (range_in mapping) rs → range_in mapping (default (0, 0) (rs !! i)).
Proof.
  intros Hrs. destruct (rs !! i) as [r|] eqn:Hi; [|split; cbn; lia].
  by apply (proj1 (Forall_lookup _ _) Hrs i).
Qed.

Lemma section_bytes_ok s i : sections_in s →
  ∃ b, section_bytes s i = Ok b ∧ length b = section_len (section s i).
Proof.
  intros Hs. destruct (section_in _ _ i Hs) as [H1 H2]. unfold section_bytes, section in *.
  destruct (range_in_range (ms_mapping s) (default (0, 0) (ms_sections s !! i)).1
    (default (0, 0) (ms_sections s !! i)).2) as [b Hb]; [done|done|].
  exists b. rewrite Hb. split; [done|]. apply range_Some in Hb as (_ & _ & ->).
  unfold section_len. rewrite length_take, length_drop. lia.
Qed.

Lemma section_bytes_safe s i : sections_in s → safe (section_bytes s i).
Proof. intros Hs. by destruct (section_bytes_ok s i Hs) as (b & -> & _). Qed.
#[export] Hint Resolve section_bytes_safe : safe.

Lemma record_safe s i : safe (record s i).
Proof. unfold record. safe. Qed.
Lemma index_entry_safe s sec i : safe (index_entry s sec i).
Proof. unfold index_entry. safe. Qed.
Lemma head_safe s i : sections_in s → safe (head s i).
Proof. intros Hs. unfold head. safe. Qed.
Lemma active_record_safe s i : sections_in s → safe (active_record s i).
Proof. intros Hs. unfold active_record. safe. Qed.
#[export] Hint Resolve record_safe index_entry_safe head_safe active_record_safe : safe.

Lemma validate_safe s : sections_in s → safe (validate_records_and_indexes s).
Proof.
  intros Hs. unfold validate_records_and_indexes. apply safe_bind.
  { apply safe_fold. intros [] i _. unfold validate_record. safe. }
  intros _ _. apply safe_bind.
  { apply safe_fold. intros [] i _. unfold validate_head. safe. }
  intros _ _. apply safe_fold. intros [] sec _. unfold validate_index.
  apply safe_bind; [|safe]. apply safe_fold. intros p i _. unfold validate_entry. safe.
Qed.
#[export] Hint Resolve validate_safe : safe.

(** ** [open] *)

Lemma open_safe mapping journal : safe (open mapping journal).
Proof.
  unfold open. apply safe_bind; [safe|]. intros valid _. apply safe_if; [safe|].
  do 3 (apply safe_bind; [safe|]; intros ? _). apply safe_if; [safe|].
  apply safe_bind; [by apply safe_map, read_section_safe|]. intros rs Hrs%read_sections_ok.
  apply safe_if; [safe|]. do 3 (apply safe_bind; [safe|]; intros ? _).
  apply safe_if; [safe|]. apply safe_bind; [safe|]. intros ? _. apply safe_if; [safe|].
  do 6 (apply safe_bind; [safe|]; intros ? _). apply safe_if; [safe|].
  destruct (section_in _ _ FRAMES Hrs) as [H1 H2].
  destruct (range_in_range mapping _ _ H1 H2) as [fb ->]. cbn [or_panic outcome_bind].
  apply safe_bind; [safe|]. intros ? _. apply safe_if; [safe|].
  apply safe_bind; [|safe]. by apply validate_safe.
Qed.

(** ** What parsing a table establishes *)

(** A table of some strings in strict order. *)
Definition table_in (t : StringTable) (mapping : list u8) : Prop :=
  ∃ values, table_shows t mapping values ∧ strictly_sorted values ∧ u32_ok (N.of_nat (length values)).

Lemma check_sorted_inv t mapping previous i n :
  check_sorted t mapping previous (seq i n) = Ok tt →
  ∃ values, length values = n ∧ (∀ j v, values !! j = Some v → st_value t mapping (i + j) = Ok v) ∧
    strictly_sorted values ∧ (∀ p v, previous = Some p → v ∈ values → cmp p v = Lt).
Proof.
  revert previous i. induction n as [|n IH]; intros previous i; cbn [seq check_sorted].
  { intros _. exists []. split_and!; [done|done|constructor|]. by intros p v _ ?%elem_of_nil. }
  intros (v & Hv & H1)%outcome_bind_ok.
  destruct (match previous with Some prior => _ | None => false end) eqn:Hp; [done|].
  destruct (IH _ _ H1) as (values & Hlen & Hvals & Hs & Hprev).
  exists (v :: values). split_and!.
  - simpl. by rewrite Hlen.
  - intros [|j] w Hj; [injection Hj as <-; by rewrite Nat.add_0_r|].
    replace (i + S j) with (S i + j) by lia. by apply Hvals.
  - constructor; [done|]. apply Forall_forall. intros w Hw. by eapply Hprev.
  - intros p w -> Hw. assert (cmp p v = Lt) as Hpv by (by destruct (cmp p v)).
    apply elem_of_cons in Hw as [->|Hw]; [done|]. eapply cmp_trans; [exact Hpv|]. by eapply Hprev.
Qed.

Lemma read_u32_at_ok b o n : read_u32_at b o = Ok n → u32_ok n.
Proof.
  unfold read_u32_at. intros (x & Hx & [= <-])%outcome_bind_ok.
  destruct (range b o (o + 4)) as [y|] eqn:Hr; [|done]. injection Hx as <-.
  apply range_Some in Hr as (_ & _ & ->). pose proof (le_N_bound (take (o + 4 - o) (drop o b))) as Hb.
  unfold u32_ok, u32_modulus. eapply N.lt_le_trans; [exact Hb|].
  change (2 ^ 32)%N with (256 ^ N.of_nat 4)%N. apply N.pow_le_mono_r; [lia|].
  rewrite length_take, length_drop. lia.
Qed.

Lemma read_u64_at_ok b o n : read_u64_at b o = Ok n → u64_ok n.
Proof.
  unfold read_u64_at. intros (x & Hx & [= <-])%outcome_bind_ok.
  destruct (range b o (o + 8)) as [y|] eqn:Hr; [|done]. injection Hx as <-.
  apply range_Some in Hr as (_ & _ & ->). pose proof (le_N_bound (take (o + 8 - o) (drop o b))) as Hb.
  unfold u64_ok, u64_modulus. eapply N.lt_le_trans; [exact Hb|].
  change (2 ^ 64)%N with (256 ^ N.of_nat 8)%N. apply N.pow_le_mono_r; [lia|].
  rewrite length_take, length_drop. lia.
Qed.

Lemma st_parse_table mapping sec t : st_parse mapping sec = Ok t → table_in t mapping.
Proof.
  unfold st_parse. intros (bytes & _ & H1)%outcome_bind_ok. destruct (_ <? 8); [done|].
  apply outcome_bind_ok in H1 as (count & Hc%read_u32_at_ok & H1).
  apply outcome_bind_ok in H1 as (? & _ & H1). apply outcome_bind_ok in H1 as (blob & _ & H1).
  destruct (_ <? _)%N; [done|]. apply outcome_bind_ok in H1 as (offsets & Ho & H1).
  destruct (_ || _); [done|]. set (table := StringTable_mk sec offsets (N.to_nat blob)) in *.
  apply outcome_bind_ok in H1 as ([] & Hck & [= <-]).
  apply outcome_map_ok, Forall2_length in Ho. rewrite length_seq in Ho.
  destruct (check_sorted_inv _ _ _ _ _ Hck) as (values & Hlen & Hv & Hs & _).
  assert (st_len table = N.to_nat count) as Hl by (unfold st_len, table; cbn [st_offsets]; lia).
  exists values. split_and!; [|done|].
  - split; [done|exact Hv|]. intros i Hi. unfold st_value.
    destruct (st_offsets table !! i) as [a|]; cbn [ok_or outcome_bind]; [|by eexists].
    rewrite (lookup_ge_None_2 (st_offsets table)); [by eexists|]. unfold table. cbn [st_offsets]. lia.
  - rewrite Hlen, Hl. by rewrite N2Nat.id.
Qed.

(** ** What opening establishes *)

Record opened (s : MmapVmSnapshot) : Prop := {
  op_sections : sections_in s;
  op_slots : table_in (ms_slots s) (ms_mapping s);
  op_predicates : table_in (ms_predicates s) (ms_mapping s);
  op_literals : table_in (ms_literals s) (ms_mapping s);
  op_heads : section_len (section s HEADS) = slot_count s * 4;
  op_active : section_len (section s ACTIVE) = ms_active_slot_count s * 4;
  op_size : (N.of_nat (length (ms_mapping s)) <= MAX_SNAPSHOT_BYTES)%N;
  op_valid : validate_records_and_indexes s = Ok tt;
}.

Lemma check_envelope_size mapping :
  check_envelope mapping = Ok true → (N.of_nat (length mapping) <= MAX_SNAPSHOT_BYTES)%N.
Proof.
  unfold check_envelope. destruct (_ || _) eqn:E; [done|]. apply orb_false_iff in E as [_ E].
  intros _. by apply N.ltb_ge.
Qed.

Lemma open_opened mapping journal s : open mapping journal = Ok s → opened s ∧ ms_mapping s = mapping.
Proof.
  unfold open. intros (valid & Hv & H1)%outcome_bind_ok. destruct valid; [|done]. cbn [negb] in H1.
  apply check_envelope_size in Hv.
  do 3 apply outcome_bind_ok in H1 as (? & _ & H1). destruct (_ || _); [done|].
  apply outcome_bind_ok in H1 as (rs & Hrs%read_sections_ok & H1). destruct (overlapb _); [done|].
  apply outcome_bind_ok in H1 as (t1 & T1%st_parse_table & H1).
  apply outcome_bind_ok in H1 as (t2 & T2%st_parse_table & H1).
  apply outcome_bind_ok in H1 as (t3 & T3%st_parse_table & H1).
  destruct (_ || _) eqn:E in H1; [done|]. rewrite !orb_false_iff, !bool_decide_eq_false in E.
  destruct E as (((((_ & E2) & E3) & _) & _) & _).
  apply outcome_bind_ok in H1 as (? & _ & H1). destruct (_ || _); [done|].
  do 6 apply outcome_bind_ok in H1 as (? & _ & H1). destruct (_ <? _); [done|].
  do 2 apply outcome_bind_ok in H1 as (? & _ & H1). destruct (bool_decide _); [done|].
  apply outcome_bind_ok in H1 as ([] & Hval & [= <-]). split; [|done].
  split; try done; unfold section, slot_count; cbn [ms_sections ms_slots ms_active_slot_count].
  - by apply dec_stable in E2.
  - apply dec_stable in E3. apply Nat.Div0.div_exact in E3. by rewrite Nat.mul_comm.
Qed.

(** ** Reading what was opened *)

Lemma outcome_fold_unit_inv {E A} (f : unit → A → outcome E unit) l :
  outcome_fold f l tt = Ok tt → ∀ x, x ∈ l → f tt x = Ok tt.
Proof.
  induction l as [|y l IH]; intros Hf x Hx; [by apply elem_of_nil in Hx|]. cbn [outcome_fold] in Hf.
  apply outcome_bind_ok in Hf as ([] & Hy & Hf). apply elem_of_cons in Hx as [->|Hx]; [done|]. by apply IH.
Qed.

Lemma atom_value_safe s c : safe (atom_value s c).
Proof. unfold atom_value. safe. Qed.
#[export] Hint Resolve atom_value_safe : safe.

Lemma fact_safe s i : safe (fact s i).
Proof. unfold fact. safe. Qed.
#[export] Hint Resolve fact_safe : safe.

Section opened.
Context (s : MmapVmSnapshot) (Ho : opened s).

Lemma retained_bound i : i < retained_record_count s → as_u32 i = N.of_nat i.
Proof.
  intros Hi. apply as_u32_exact. unfold retained_record_count in Hi.
  pose proof (Nat.Div0.mul_div_le (section_len (section s RECORDS)) RECORD_LEN) as Hm.
  destruct (section_in _ _ RECORDS (op_sections s Ho)) as [_ Hb]. fold (section s RECORDS) in Hb.
  pose proof (op_size s Ho) as Hsize. unfold section_len, RECORD_LEN in *.
  unfold u32_ok, u32_modulus. unfold MAX_SNAPSHOT_BYTES in Hsize. lia.
Qed.

(** What the validation says of a retained record. *)
Record record_valid (i : nat) (r : MappedRecord) : Prop := {
  rv_read : record s (N.of_nat i) = Ok r;
  rv_slot : (mr_slot r < N.of_nat (slot_count s))%N;
  rv_predicate : (mr_predicate r < N.of_nat (predicate_count s))%N;
  rv_previous : mr_previous r = NONE ∨ (mr_previous r < N.of_nat i)%N;
}.

Lemma opened_record i : i < retained_record_count s → ∃ r, record_valid i r.
Proof.
  intros Hi. pose proof (op_valid s Ho) as Hv. unfold validate_records_and_indexes in Hv.
  apply outcome_bind_ok in Hv as ([] & Hv & _).
  pose proof (outcome_fold_unit_inv _ _ Hv i ltac:(apply elem_of_seq; lia)) as Hr.
  unfold validate_record in Hr. rewrite (retained_bound i Hi) in Hr.
  apply outcome_bind_ok in Hr as (r & Hr & Hc). destruct (_ || _) eqn:E in Hc; [done|].
  rewrite !orb_false_iff in E. destruct E as ((((E1 & E2) & E3) & _) & _).
  apply N.leb_gt in E1, E2. exists r. split; [done..|].
  apply andb_false_iff in E3 as [E3|E3].
  - left. apply negb_false_iff in E3. by apply N.eqb_eq.
  - right. by apply N.leb_gt.
Qed.

Lemma definition_chain_total fuel h output :
  (h ≠ NONE → N.to_nat h < fuel) → ∃ l, definition_chain fuel s h output = Ok l.
Proof.
  revert h output. induction fuel as [|fuel IH]; intros h output Hh; cbn [definition_chain];
    (case_decide as Hn; [by eexists|]); specialize (Hh Hn); [lia|].
  pose proof (fact_safe s h) as Hs.
  destruct (fact s h) as [f|e|] eqn:Hf; cbn [ok_option outcome_bind]; [|by eexists|by destruct Hs].
  unfold fact in Hf. destruct (N.leb_spec (N.of_nat (retained_record_count s)) h) as [|Hlt]; [done|].
  destruct (opened_record (N.to_nat h)) as [r [Hr _ _ Hp]]; [lia|].
  rewrite N2Nat.id in Hr, Hp. rewrite Hr. cbn [ok_option outcome_bind]. apply IH.
  intros Hn'. destruct Hp as [|Hp]; [done|]. lia.
Qed.

Lemma slot_token_in value t : slot_token s value = Some t → N.to_nat t < slot_count s.
Proof. intros Ht. by apply st_lookup_sound in Ht as (_ & ? & _). Qed.

Lemma slot_count_u32 : u32_ok (N.of_nat (slot_count s)).
Proof.
  destruct (op_slots s Ho) as (values & Hv & _ & Hu). unfold slot_count. by rewrite (ts_len _ _ _ Hv).
Qed.

(** The head of a slot is read, and is no record or a retained one. *)
Lemma opened_head t : (N.to_nat t < slot_count s) → ∃ h, head s t = Ok h ∧
  (h = NONE ∨ (h < N.of_nat (retained_record_count s))%N).
Proof.
  intros Ht. pose proof (op_valid s Ho) as Hv. unfold validate_records_and_indexes in Hv.
  apply outcome_bind_ok in Hv as ([] & _ & Hv). apply outcome_bind_ok in Hv as ([] & Hv & _).
  pose proof (outcome_fold_unit_inv _ _ Hv (N.to_nat t) ltac:(apply elem_of_seq; lia)) as Hr.
  unfold validate_head in Hr. rewrite as_u32_exact in Hr
    by (pose proof slot_count_u32; unfold u32_ok in *; lia).
  rewrite N2Nat.id in Hr. apply outcome_bind_ok in Hr as (h & Hh & Hc).
  destruct (_ && _) eqn:E; [done|]. exists h. split; [done|].
  apply andb_false_iff in E as [E|E].
  - left. apply negb_false_iff in E. by apply N.eqb_eq.
  - right. by apply N.leb_gt.
Qed.

Lemma resolve_total slot : ∃ r, resolve s slot = Ok r.
Proof.
  unfold resolve. destruct (slot_token s _) as [t|] eqn:Ht; [|by eexists].
  destruct (opened_head t (slot_token_in _ _ Ht)) as (h & -> & _). cbn [ok_option outcome_bind].
  case_decide; [by eexists|]. pose proof (fact_safe s h) as Hs.
  destruct (fact s h); cbn [ok_option]; [by eexists|by eexists|by destruct Hs].
Qed.

Lemma definitions_total slot : ∃ l, definitions s slot = Ok l.
Proof.
  unfold definitions. destruct (slot_token s _) as [t|] eqn:Ht; [|by eexists].
  destruct (opened_head t (slot_token_in _ _ Ht)) as (h & -> & Hh). cbn [ok_option outcome_bind].
  change (default NONE (Some h)) with h. apply definition_chain_total. intros Hn.
  destruct Hh as [|Hh]; [done|]. lia.
Qed.

Lemma display_name_total e : ∃ n, display_name s e = Ok n.
Proof. unfold display_name. destruct (resolve_total (display_slot e)) as [r ->]. by eexists. Qed.

Lemma safe_workspace_image : safe (workspace_image s).
Proof.
  unfold workspace_image. apply safe_bind.
  { apply safe_map. intros i. unfold workspace_record. safe. }
  intros records _. apply safe_bind; [|safe]. apply safe_map. intros i. apply head_safe, Ho.
Qed.
End opened.

(** Writing a snapshot never panics: it gives the bytes, or refuses because a
    retained fact names an entity in the literal cells, the history does not fit
    its encoding, or the file would be too large. *)

Local Open Scope string_scope.
Local Open Scope nat_scope.
Local Open Scope list_scope.

#[local] Opaque Nat.div Nat.modulo u32_bytes u64_bytes le_bytes.

(** Entities below the literal cells. *)
Definition atom_small (a : Atom) : Prop :=
  match a with AEntity e => (entity_value e < VM_LITERAL_BASE)%N | ALiteral _ => True end.
Definition fact_small (f : Fact) : Prop := atom_small (fact_subject f) ∧ atom_small (fact_object f).

Definition OVERLAP : string := "entity overlaps physical snapshot literal namespace".
Definition TOO_LARGE : string := "mmap VM snapshot exceeds size limit".

Lemma token_map_is_Some names v : v ∈ names → is_Some (token_map names !! v).
Proof.
  intros Hv. unfold token_map. destruct (list_to_map _ !! v) eqn:E; [done|].
  apply not_elem_of_list_to_map in E. by rewrite token_map_fst in E.
Qed.

Lemma token_map_bound names v t : token_map names !! v = Some t → N.to_nat t < length names.
Proof.
  intros Ht%elem_of_list_to_map_2. apply list_elem_of_lookup in Ht as [i Hi].
  rewrite list_lookup_imap in Hi. destruct (names !! i) eqn:E; [|done]. injection Hi as <- <-.
  apply lookup_lt_Some in E. unfold as_u32. pose proof (N.Div0.mod_le (N.of_nat i) u32_modulus). lia.
Qed.

Section records.
Context (predicates literals : gmap string N).

(** The strings of a fact are in the tables. *)
Definition in_tables (f : Fact) : Prop :=
  is_Some (predicates !! predicate_str (fact_predicate f)) ∧
  ∀ v, v ∈ collect_atom_string (fact_subject f) ++ collect_atom_string (fact_object f) →
    is_Some (literals !! v).

Lemma atom_cell_total a :
  (∀ v, v ∈ collect_atom_string a → is_Some (literals !! v)) →
  match atom_cell a literals with
  | Ok _ => atom_small a
  | Err m => m = OVERLAP ∧ ¬ atom_small a
  | Panic => False
  end.
Proof.
  destruct a as [[v]|[l]]; cbn [atom_cell collect_atom_string atom_small entity_value literal_str]; intros Hin.
  - destruct (N.ltb_spec v VM_LITERAL_BASE); [done|]. split; [done|]. lia.
  - destruct (Hin l) as [t ->]; [by left|]. done.
Qed.

(** Every record a list of heads names is below the bound. *)
Definition heads_below (records : list MappedRecord) (heads : list N) : Prop :=
  ∀ h, h ∈ heads → h = NONE ∨ N.to_nat h < length records.

Lemma push_record_total token records previous e :
  in_tables (pf_fact e) →
  match push_record predicates literals token (records, previous) e with
  | Ok st => fact_small (pf_fact e) ∧ ∃ r, st = (records ++ [r], as_u32 (length records))
  | Err m => m = OVERLAP ∧ ¬ fact_small (pf_fact e)
  | Panic => False
  end.
Proof.
  intros [[p Hp] Hl]. unfold push_record.
  pose proof (atom_cell_total (fact_subject (pf_fact e))) as H1.
  pose proof (atom_cell_total (fact_object (pf_fact e))) as H2.
  unfold fact_small. destruct (atom_cell (fact_subject (pf_fact e)) literals) as [c|m|]; cbn [outcome_bind].
  2: { destruct H1 as [-> H1]; [intros; apply Hl; set_solver|]. split; [done|]. by intros []. }
  2: { apply H1. intros. apply Hl. set_solver. }
  rewrite Hp. cbn [or_panic outcome_bind].
  destruct (atom_cell (fact_object (pf_fact e)) literals) as [c'|m|]; cbn [outcome_bind].
  - split; [split; [apply H1|apply H2]; intros; apply Hl; set_solver|]. by eexists.
  - destruct H2 as [-> H2]; [intros; apply Hl; set_solver|]. split; [done|]. by intros [].
  - apply H2. intros. apply Hl. set_solver.
Qed.

Lemma as_u32_le n : N.to_nat (as_u32 n) ≤ n.
Proof. unfold as_u32. pose proof (N.Div0.mod_le (N.of_nat n) u32_modulus). lia. Qed.

Lemma push_records_total token stack records previous :
  (∀ e, e ∈ stack → in_tables (pf_fact e)) → (previous = NONE ∨ N.to_nat previous < length records) →
  match outcome_fold (push_record predicates literals token) stack (records, previous) with
  | Ok st => length records ≤ length st.1 ∧ (st.2 = NONE ∨ N.to_nat st.2 < length st.1)
  | Err m => m = OVERLAP ∧ ∃ e, e ∈ stack ∧ ¬ fact_small (pf_fact e)
  | Panic => False
  end.
Proof.
  revert records previous. induction stack as [|e stack IH]; intros records previous Hin Hp; [done|].
  cbn [outcome_fold]. pose proof (push_record_total token records previous e (Hin e ltac:(by left))) as Hr.
  destruct (push_record _ _ _ _ e) as [st|m|]; cbn [outcome_bind]; [|destruct Hr as [-> Hr]; split; [done|]; exists e; split; [by left|done]|done].
  - destruct Hr as (_ & r & ->).
    assert (N.to_nat (as_u32 (length records)) < length (records ++ [r])) as Hlt.
    { rewrite length_app. simpl. pose proof (as_u32_le (length records)). lia. }
    specialize (IH (records ++ [r]) (as_u32 (length records)) ltac:(intros; apply Hin; by right) ltac:(by right)).
    destruct (outcome_fold _ stack _) as [st|m|]; [| |done].
    + rewrite length_app in IH. simpl in IH. split; [lia|]. apply IH.
    + destruct IH as (-> & e' & He' & Hs). split; [done|]. exists e'. split; [by right|done].
Qed.
End records.

Section build.
Context (definitions : gmap SlotId (list ProjectedFact)).

Lemma push_slots_total slots predicates literals names : ∀ records heads,
  (∀ s l e, definitions !! s = Some l → e ∈ l → in_tables predicates literals (pf_fact e)) →
  (∀ v, v ∈ names → is_Some (slots !! v)) →
  (∀ v t, slots !! v = Some t → N.to_nat t < length heads) → heads_below records heads →
  match outcome_fold (push_slot definitions slots predicates literals) names (records, heads) with
  | Ok st => heads_below st.1 st.2
  | Err m => m = OVERLAP ∧ ∃ s l e, definitions !! s = Some l ∧ e ∈ l ∧ ¬ fact_small (pf_fact e)
  | Panic => False
  end.
Proof.
  induction names as [|v names IH]; intros records heads Hin Hn Ht Hh; [done|]. cbn [outcome_fold].
  unfold push_slot at 1. destruct (Hn v ltac:(by left)) as [t Hv]. rewrite Hv. cbn [or_panic outcome_bind].
  assert (match (match definitions !! SlotId_new v with
    | Some stack => outcome_fold (push_record predicates literals t) stack (records, NONE)
    | None => Ok (records, NONE)
    end) with
    | Ok st => length records ≤ length st.1 ∧ (st.2 = NONE ∨ N.to_nat st.2 < length st.1)
    | Err m => m = OVERLAP ∧ ∃ s l e, definitions !! s = Some l ∧ e ∈ l ∧ ¬ fact_small (pf_fact e)
    | Panic => False
    end) as Hst.
  { destruct (definitions !! SlotId_new v) as [stack|] eqn:Hd; [|split; [done|by left]].
    pose proof (push_records_total predicates literals t stack records NONE (λ e, Hin _ _ e Hd) ltac:(by left)) as Hp.
    destruct (outcome_fold _ stack _); [done| |done]. destruct Hp as (-> & e' & He & Hs). split; [done|].
    by exists (SlotId_new v), stack, e'. }
  destruct (match definitions !! SlotId_new v with Some _ => _ | None => _ end) as [[records' previous]|m|];
    cbn [outcome_bind fst snd] in *; [|done|done].
  rewrite (proj2 (Nat.ltb_lt _ _)) by by eapply Ht.
  cbn [outcome_bind]. apply IH; [done|intros; apply Hn; by right| |].
  - intros v' t' Hv'. rewrite length_insert. by eapply Ht.
  - destruct Hst as [Hle Hlt]. intros h Hhd. apply list_elem_of_lookup in Hhd as [i Hi].
    destruct (decide (i = N.to_nat t)) as [->|Hne].
    + rewrite list_lookup_insert_eq in Hi by by eapply Ht. by injection Hi as <-.
    + rewrite list_lookup_insert_ne in Hi by done. apply list_elem_of_lookup_2, Hh in Hi. destruct Hi; [by left|right; lia].
Qed.
End build.

(** Reading the records of active heads. *)
Lemma outcome_map_records {B} (records : list MappedRecord) (g : N → MappedRecord → B) active :
  (∀ h, h ∈ active → N.to_nat h < length records) →
  ∃ l, outcome_map (λ x, let* r := or_panic (records !! N.to_nat x) in Ok (E := string) (g x r)) active = Ok l ∧
    Forall2 (λ x y, ∃ r, y = g x r) active l.
Proof.
  induction active as [|h active IH]; intros Hb; [by exists []|]. cbn [outcome_map].
  destruct (lookup_lt_is_Some_2 records (N.to_nat h) (Hb h ltac:(by left))) as [r Hr]. rewrite Hr.
  cbn [or_panic outcome_bind]. destruct IH as (l & -> & Hf); [intros; apply Hb; by right|].
  cbn [outcome_bind]. exists (g h r :: l). split; [done|]. constructor; [by exists r|done].
Qed.

Lemma sort_active_total records active :
  (∀ h, h ∈ active → N.to_nat h < length records) →
  ∃ l, sort_active records active = Ok l ∧ active ≡ₚ l.
Proof.
  intros Hb. unfold sort_active.
  destruct (outcome_map_records records (λ x r, (original_id r, x)) active Hb) as (l & -> & Hf).
  cbn [outcome_bind]. eexists. split; [done|]. rewrite merge_sort_Permutation.
  assert (l.*2 = active) as ->; [|done]. induction Hf as [|x y active l [r ->] _ IH]; [done|]. csimpl.
  by rewrite IH by (intros; apply Hb; by right).
Qed.

Lemma build_index_total entry records active :
  (∀ h, h ∈ active → N.to_nat h < length records) → ∃ l, build_index entry records active = Ok l.
Proof.
  intros Hb. unfold build_index.
  destruct (outcome_map_records records (λ x r, (entry x r, original_id r)) active Hb) as (l & -> & _).
  by eexists.
Qed.

Lemma encode_string_safe s : safe (encode_string s).
Proof. apply safe_bind; auto with safe. Qed.

Lemma encode_atom_safe a : safe (encode_atom a).
Proof. destruct a; [done|]. apply safe_bind; [apply encode_string_safe|auto with safe]. Qed.

Lemma encode_operation_safe op : safe (encode_operation op).
Proof.
  destruct op as [e|s fact|s]; cbn [encode_operation]; [done| |].
  - apply safe_bind; [apply encode_string_safe|]. intros slot _.
    apply safe_bind; [apply encode_atom_safe|]. intros subject _.
    apply safe_bind; [apply encode_string_safe|]. intros predicate _.
    apply safe_bind; [apply encode_atom_safe|auto with safe].
  - apply safe_bind; [apply encode_string_safe|auto with safe].
Qed.

Lemma encode_frames_safe fs : safe (encode_frames fs).
Proof.
  apply safe_bind; [|auto with safe]. apply safe_map. intros f. apply safe_bind; [auto with safe|]. intros count _.
  apply safe_bind; [|auto with safe]. apply safe_map, encode_operation_safe.
Qed.

Section total.
Context {D P : Type} `{Kernel D, MappedRoot P}.
Context (world : World D P) (q : VmQueryProjection P) (evs : list Event).

(** Why the sections of a history cannot be written. *)
Definition sections_refused (m : string) : Prop :=
  (m = OVERLAP ∧ ∃ s f, f ∈ spec_definitions evs s ∧ ¬ fact_small f) ∨
  encode_frames (world_frames world) = Err m.

Lemma snapshot_sections_total :
  projection_rep q evs →
  match snapshot_sections world q with
  | Ok secs => length secs = SECTION_COUNT
  | Err m => sections_refused m
  | Panic => False
  end.
Proof.
  intros Hq. pose proof (pr_definitions _ _ Hq) as Hrep. unfold snapshot_sections. cbv zeta.
  set (slot_names := ord_sort _). set (entries := mbind _ _). set (predicate_names := btree_strings (fmap _ entries)).
  set (literal_names := btree_strings (mbind _ entries)).
  assert (∀ s l e, vq_definitions q !! s = Some l → e ∈ l →
    in_tables (token_map predicate_names) (token_map literal_names) (pf_fact e)) as Hin.
  { intros s l e Hl He. assert (e ∈ entries) as Hent.
    { apply list_elem_of_bind. exists (s, l). split; [done|]. by apply elem_of_map_to_list. }
    split.
    - apply token_map_is_Some, elem_of_btree_strings, list_elem_of_fmap. by exists e.
    - intros v Hv. apply token_map_is_Some, elem_of_btree_strings, list_elem_of_bind. by exists e. }
  assert (∀ v t, token_map slot_names !! v = Some t → N.to_nat t < length (replicate (length slot_names) NONE)) as Ht
    by (intros v t Ht; rewrite length_replicate; by eapply token_map_bound).
  assert (heads_below [] (replicate (length slot_names) NONE)) as Hh
    by (intros x [-> _]%elem_of_replicate; by left).
  pose proof (push_slots_total (vq_definitions q) (token_map slot_names) (token_map predicate_names)
    (token_map literal_names) slot_names [] _ Hin (token_map_is_Some slot_names) Ht Hh) as Hb.
  destruct (outcome_fold _ slot_names _) as [[records heads]|m|]; cbn [outcome_bind].
  - assert (∀ h, h ∈ filter (λ h, h ≠ NONE) heads → N.to_nat h < length records) as Hact.
    { intros h [Hne Hh']%list_elem_of_filter. by destruct (Hb h Hh'). }
    destruct (sort_active_total _ _ Hact) as (active & -> & Hp). cbn [outcome_bind].
    assert (∀ h, h ∈ active → N.to_nat h < length records) as Hact' by (intros h; rewrite <- Hp; apply Hact).
    destruct (build_index_total spo_entry _ _ Hact') as [spo ->].
    destruct (build_index_total pos_entry _ _ Hact') as [pos ->].
    destruct (build_index_total osp_entry _ _ Hact') as [osp ->]. cbn [outcome_bind].
    rewrite encode_records_spec, !encode_indexes_spec. cbn [outcome_bind].
    pose proof (encode_frames_safe (world_frames world)) as Hs.
    destruct (encode_frames _) eqn:He; [done|by right|done].
  - left. destruct Hb as (-> & s & l & e & Hl & He & Hs). split; [done|]. exists s, (pf_fact e).
    split; [|done]. unfold spec_definitions. rewrite <- (dr_stack _ _ Hrep s), Hl, <- list_fmap_compose.
    apply list_elem_of_fmap. exists e. split; [done|]. by apply elem_of_reverse.
  - done.
Qed.

(** [create] writes the bytes of a history, or says why not. *)
Lemma snapshot_bytes_total journal epoch_count :
  projection_rep q evs →
  match snapshot_bytes journal epoch_count world q with
  | Ok _ => True
  | Err m => sections_refused m ∨ m = TOO_LARGE
  | Panic => False
  end.
Proof.
  intros Hq. unfold snapshot_bytes. rewrite (pr_mapped _ _ Hq). pose proof (snapshot_sections_total Hq) as Hs.
  destruct (snapshot_sections world q) as [secs|m|] eqn:Hsecs; cbn [outcome_bind]; [|by left|done].
  destruct (layout_spec secs (replicate HEADER_LEN x00) []) as (body & rs & Hlay & Hlo). rewrite Hlay. cbn [app].
  destruct (_ <? _)%N; [by right|]. rewrite <- (assoc_L (++)), put_header_spec; [done|].
  by rewrite (lo_length _ _ _ _ Hlo), Hs.
Qed.
End total.
