(* ===== verification/SnapshotRoot.v ===== *)
(** Opened snapshots as the mapped roots of worlds, as the mapped vocabulary of
    the VM epoch materializer, and as the mapped image of a journal: the
    interfaces [MappedRoot], [MappedVocabulary] and [MappedJournal] with their
    laws. *)
From Stdlib Require Import NArith ZArith Lia.
From Stdlib Require Import Strings.Byte.
From stdpp Require Import sorting base gmap list strings option list_monad.
From S2P Require Import Prelude Ord Terms Bytes Query QueryFacts QueryOrder Spec Index Kernel Frames.
From S2P Require Import VmProjection Worlds WorldFacts Codec FileStore MmapFormat StackVm VmEpochs VmVocabulary.
From S2P Require Import StackVmFacts StackVmTrial VmEpochFacts.
From S2P Require Import SnapshotFormat SnapshotFormatFacts MmapSnapshot SnapshotLayout.
From S2P Require Import SnapshotRep SnapshotBuild SnapshotSafety Journal.

Local Open Scope string_scope.
Local Open Scope nat_scope.
Local Open Scope list_scope.

#[local] Opaque Nat.div Nat.modulo u32_bytes u64_bytes le_bytes.

(** A snapshot that [open] has checked. *)
Record OpenedSnapshot := OpenedSnapshot_mk {
  os_snapshot : MmapVmSnapshot;
  os_opened : opened os_snapshot;
}.

Definition open_snapshot (file journal : list u8) : option OpenedSnapshot :=
  match open file journal as r return open file journal = r → option OpenedSnapshot with
  | Ok s => λ e, Some (OpenedSnapshot_mk s (proj1 (open_opened _ _ _ e)))
  | _ => λ _, None
  end eq_refl.

Lemma open_snapshot_ok file journal s :
  open file journal = Ok s → ∃ p, open_snapshot file journal = Some p ∧ os_snapshot p = s.
Proof.
  intros Ho. unfold open_snapshot.
  assert (∀ r (e : open file journal = r), r = Ok s → ∃ p,
    match r as r return open file journal = r → option OpenedSnapshot with
    | Ok s => λ e, Some (OpenedSnapshot_mk s (proj1 (open_opened _ _ _ e)))
    | _ => λ _, None
    end e = Some p ∧ os_snapshot p = s) as Hgen; [|by apply Hgen].
  intros r e ->. by eexists.
Qed.

Lemma open_snapshot_Some file journal p :
  open_snapshot file journal = Some p → open file journal = Ok (os_snapshot p).
Proof.
  unfold open_snapshot.
  assert (∀ r (e : open file journal = r),
    match r as r return open file journal = r → option OpenedSnapshot with
    | Ok s => λ e, Some (OpenedSnapshot_mk s (proj1 (open_opened _ _ _ e)))
    | _ => λ _, None
    end e = Some p → r = Ok (os_snapshot p)) as Hgen; [|by apply Hgen].
  intros [s|e0|] e; [|done..]. by intros [= <-].
Qed.

(** A read that panics is given a value here; [snapshot_ok] snapshots have none. *)
#[export] Instance opened_root : MappedRoot OpenedSnapshot := {
  mr_frames p := match frames (os_snapshot p) with Ok fs => fs | _ => [] end;
  mr_resolve p s := match resolve (os_snapshot p) s with Ok f => f | _ => None end;
  mr_definitions p s := match definitions (os_snapshot p) s with Ok l => l | _ => [] end;
  mr_query p := mapped_query (os_snapshot p);
  mr_world_id p := ms_world_id (os_snapshot p);
  mr_world_version p := ms_world_version (os_snapshot p);
  mr_next_entity p := ms_next_entity (os_snapshot p);
  mr_operation_count p := N.to_nat (ms_operation_count (os_snapshot p));
  mr_active_slot_count p := usize_of (ms_active_slot_count (os_snapshot p));
  mr_record_count p := N.to_nat (ms_record_count (os_snapshot p));
}.

Lemma snapshot_ok_frames p fs : snapshot_ok (os_snapshot p) fs → mr_frames p = fs.
Proof. intros [(im & Hs & _ & _ & _ & <-) _ _ _ _]. cbn. by rewrite (sh_frames _ _ Hs). Qed.

#[export] Program Instance opened_root_laws : MappedRootLaws OpenedSnapshot := {
  mr_ok p := snapshot_ok (os_snapshot p) (mr_frames p);
}.
Next Obligation.
  intros p s [(im & Hs & Hw & Hsm & Hr & _) _ _ _ _]. cbn [mr_resolve opened_root].
  by rewrite (resolve_shows _ im _ Hs Hw Hsm Hr).
Qed.
Next Obligation.
  intros p s [(im & Hs & Hw & Hsm & Hr & _) _ _ _ _]. cbn [mr_definitions opened_root].
  by rewrite (definitions_shows _ im _ Hs Hw Hsm Hr).
Qed.
Next Obligation.
  intros p ps o [(im & Hs & Hw & Hsm & Hr & _) _ _ _ _]. cbn [mr_query opened_root].
  eexists. split; [by apply (mapped_query_shows _ im _ Hs Hw Hsm Hr)|].
  apply cand_query_agrees. by apply (mapped_order_source _ im).
Qed.
Next Obligation. intros p []. done. Qed.
Next Obligation. intros p []. done. Qed.
Next Obligation. intros p [_ _ _ _ Ha]. cbn [mr_active_slot_count opened_root]. by rewrite Ha. Qed.
Next Obligation. intros p []. done. Qed.

(** ** The vocabulary *)

#[export] Instance opened_vocabulary : MappedVocabulary OpenedSnapshot := {
  mv_slot_token p := slot_token (os_snapshot p);
  mv_predicate_token p := predicate_token (os_snapshot p);
  mv_literal_token p := literal_token (os_snapshot p);
  mv_slot_count p := slot_count (os_snapshot p);
  mv_predicate_count p := predicate_count (os_snapshot p);
  mv_literal_count p := literal_count (os_snapshot p);
  mv_predicate_value p := predicate_value (os_snapshot p);
  mv_literal_value p := literal_value (os_snapshot p);
  mv_workspace_image p := workspace_image (os_snapshot p);
}.

#[export] Instance opened_vocabulary_laws : MappedVocabularyLaws OpenedSnapshot.
Proof.
  split.
  - intros p s t (_ & Ht & _)%st_lookup_sound. exact Ht.
  - intros p s1 s2 t (H1 & _)%st_lookup_sound (H2 & _)%st_lookup_sound. rewrite H1 in H2. by injection H2.
  - intros p s t (H1 & H2 & _)%st_lookup_sound. split; [exact H2|].
    cbn. unfold predicate_value. by rewrite H1.
  - intros p s t (H1 & H2 & _)%st_lookup_sound. split; [exact H2|]. cbn. unfold literal_value. by rewrite H1.
  - intros p i l Hi Hl. cbn in *. unfold literal_value in Hl. unfold literal_token.
    destruct (op_literals _ (os_opened p)) as (values & Ht & Hs & Hu).
    apply (st_lookup_spec _ _ values); [done..|]. rewrite Nat2N.id.
    unfold literal_count in Hi. rewrite (ts_len _ _ _ Ht) in Hi.
    destruct (lookup_lt_is_Some_2 values i Hi) as [v Hv]. rewrite (ts_value _ _ _ Ht _ _ Hv) in Hl.
    by injection Hl as <-.
Qed.

(** ** The journal's image *)

(** The snapshot file of a journal, if there is one. *)
Definition opened_journal (file : option (list u8)) : MappedJournal OpenedSnapshot := {|
  mj_open journal := bytes ← file; open_snapshot bytes journal;
  mj_journal_offset p := ms_journal_offset (os_snapshot p);
  mj_epoch_count p := ms_epoch_count (os_snapshot p);
|}.

(** ** The world of a snapshot *)

Section world.
Context {D P : Type} `{KernelLaws D, MappedRootLaws P}.

Lemma world_from_mmap_ok (p : P) : mr_ok p → world_ok (D := D) (world_from_mmap p) (mr_frames p).
Proof.
  intros Hp. split; cbn; try done.
  - unfold world_frames. cbn. by rewrite app_nil_r.
  - by apply mr_chain_ok.
  - by apply mr_operation_count_ok.
  - by apply mr_active_ok.
  - by apply mr_record_count_ok.
  - intros q [= <-]. right. by exists p.
Qed.
End world.

(** A stack VM resumed from a mapped snapshot holds the history the snapshot
    represents, with its whole capacity for new epochs. *)

Local Open Scope string_scope.
Local Open Scope nat_scope.
Local Open Scope list_scope.

#[local] Opaque Nat.div Nat.modulo u32_bytes u64_bytes le_bytes.

(** One witness for each element of a list. *)
Lemma list_choice {A B} (R : nat → A → B → Prop) (l : list A) :
  (∀ i x, l !! i = Some x → ∃ y, R i x y) →
  ∃ k, length k = length l ∧ ∀ i x y, l !! i = Some x → k !! i = Some y → R i x y.
Proof.
  revert R. induction l as [|x l IH]; intros R Hl; [by exists []|].
  destruct (Hl 0 x eq_refl) as [y Hy]. destruct (IH (λ i, R (S i))) as (k & Hlen & Hk).
  { intros i z Hi. by apply (Hl (S i)). }
  exists (y :: k). split; [simpl; by rewrite Hlen|]. intros [|i] a b Ha Hb; [by simplify_eq/=|].
  by apply (Hk i).
Qed.

Section image.
Context (p : OpenedSnapshot) (im : image) (evs : list Event).
Let s := os_snapshot p.
Context (Hs : shows s im) (Hw : image_wf im) (Hsm : image_small im) (Hr : image_shows im evs).

(** The record that the VM keeps for the [i]-th record of the snapshot. *)
Definition physical_record (i : nat) (r : MappedRecord) : FactRecord :=
  FactRecord_mk KDefine (mr_slot r) (mr_subject r) (mr_predicate r) (mr_object r) (mr_previous r) (as_u32 i).

Definition physical_records : list FactRecord := imap physical_record (im_records im).

Lemma outcome_map_imap {E A B} (f : nat → outcome E B) (g : nat → A → B) (l : list A) :
  (∀ i x, l !! i = Some x → f i = Ok (g i x)) → outcome_map f (seq 0 (length l)) = Ok (imap g l).
Proof.
  intros Hf. apply outcome_map_ok, Forall2_same_length_lookup. rewrite length_seq, length_imap.
  split; [done|]. intros i j y [Hj Hlt]%lookup_seq Hy. cbn in Hj. subst j. rewrite list_lookup_imap in Hy.
  destruct (l !! i) as [x|] eqn:Hx; [|done]. injection Hy as <-. by apply Hf.
Qed.

Lemma u32_position n i : u32_ok (N.of_nat n) → i < n → as_u32 i = N.of_nat i.
Proof. intros Hn Hi. apply as_u32_exact. unfold u32_ok in *. lia. Qed.

Lemma slots_length : length (im_heads im) = slot_count s.
Proof. unfold slot_count. by rewrite (iw_head_count _ Hw), (ts_len _ _ _ (sh_slots _ _ Hs)). Qed.

Lemma workspace_image_shows : workspace_image s = Ok (physical_records, im_heads im).
Proof.
  unfold workspace_image. rewrite (sh_record_count _ _ Hs).
  rewrite (outcome_map_imap _ physical_record (im_records im)); cbn [outcome_bind].
  - rewrite <- slots_length. rewrite (outcome_map_imap _ (λ _ h, h) (im_heads im)); cbn [outcome_bind].
    + unfold physical_records. do 2 f_equal. etrans; [apply (imap_const id)|apply list_fmap_id].
    + intros i h Hh. pose proof (lookup_lt_Some _ _ _ Hh) as Hlt. rewrite (iw_head_count _ Hw) in Hlt.
      rewrite (u32_position _ _ (SnapshotLayout.is_slots _ Hsm) Hlt). by apply (sh_head _ _ Hs).
  - intros i r Hi. unfold workspace_record. pose proof (lookup_lt_Some _ _ _ Hi) as Hlt.
    rewrite (u32_position _ _ (is_records _ Hsm) Hlt), (sh_record _ _ Hs _ _ Hi). cbn [outcome_bind].
    unfold physical_record. by rewrite (u32_position _ _ (is_records _ Hsm) Hlt).
Qed.

Lemma check_physical_shows : check_physical (length (im_heads im)) 0 physical_records = Ok tt.
Proof.
  unfold physical_records.
  assert (∀ l k, (∀ i r, l !! i = Some r → im_records im !! (k + i) = Some r) →
    check_physical (length (im_heads im)) k (imap (λ i r, physical_record (k + i) r) l) = Ok tt) as Hgen.
  { induction l as [|r l IH]; intros k Hl; [done|]. cbn [imap check_physical].
    pose proof (Hl 0 r eq_refl) as H0. rewrite Nat.add_0_r in *.
    destruct (iw_records _ Hw _ _ H0) as [_ R1 R2 _ _ _].
    assert (physical_record_ok (length (im_heads im)) k (physical_record k r) = true) as ->.
    { unfold physical_record_ok, physical_record. cbn [fr_kind fr_slot fr_previous_visible fr_resulting_visible].
      rewrite bool_decide_true by done. cbn [andb]. rewrite N.eqb_refl, (iw_head_count _ Hw).
      rewrite (proj2 (N.ltb_lt (mr_slot r) _)) by lia. rewrite andb_true_r.
      destruct R2 as [->|R2]; [done|]. rewrite (proj2 (N.ltb_lt _ _)) by lia. by rewrite orb_true_r. }
    rewrite <- (IH (S k)).
    - f_equal. apply imap_ext. intros i x _. unfold compose. f_equal. lia.
    - intros i x Hi. replace (S k + i) with (k + S i) by lia. by apply Hl. }
  by apply (Hgen (im_records im) 0).
Qed.

(** *** The workspace *)

Definition resumed_workspace : Workspace :=
  Workspace_mk (replicate 32 0%N) 0 0 (PodArena_mk physical_records (length physical_records))
    pa_with_capacity pa_with_capacity pa_with_capacity (im_heads im) (ms_next_entity s) NONE 0
    (foldl hash_record SEMANTIC_SEED physical_records) true (N.to_nat (ms_record_count s)).

Definition resumed_materializer : VmEpochMaterializer OpenedSnapshot :=
  VmEpochMaterializer_mk resumed_workspace 0 (Some p) ∅ ∅ [] ∅ [].

Lemma materializer_from_mmap_shows :
  N.to_nat (ms_record_count s) = length evs → materializer_from_mmap p = Ok resumed_materializer.
Proof.
  intros Hcount. unfold materializer_from_mmap. cbn [mv_workspace_image opened_vocabulary]. fold s.
  rewrite workspace_image_shows. cbn [map_err outcome_bind]. unfold from_physical_snapshot.
  cbn [mr_next_entity mr_record_count opened_root]. fold s. rewrite Hcount.
  assert (length physical_records = length (im_records im)) as Hlen by apply length_imap.
  rewrite Hlen. rewrite (proj2 (Nat.ltb_ge _ _)) by apply (is_retained _ _ Hr).
  rewrite check_physical_shows. cbn [outcome_bind].
  assert (forallb (λ head, (head =? NONE)%N || (head <? N.of_nat (length (im_records im)))%N) (im_heads im) = true) as ->.
  { apply forallb_forall. intros h Hh%list_elem_of_In.
    destruct (proj1 (Forall_forall _ _) (iw_heads _ Hw) h Hh) as [->|Hlt]; [done|].
    rewrite (proj2 (N.ltb_lt _ _)) by lia. by rewrite orb_true_r. }
  cbn [map_err outcome_bind]. unfold resumed_materializer, resumed_workspace. by rewrite Hlen, Hcount.
Qed.

(** *** Its vocabulary and stacks *)

Lemma lookup_slot_shows slot t : lookup_slot resumed_materializer slot = Some t ↔
  im_slots im !! N.to_nat t = Some (slot_str slot).
Proof.
  unfold lookup_slot, resumed_materializer. cbn [m_slots m_mapped]. rewrite lookup_empty.
  cbn [mbind option_bind mv_slot_token opened_vocabulary]. by apply (slot_token_shows s im Hs Hw Hsm).
Qed.

Lemma resumed_voc : voc_ok resumed_materializer.
Proof.
  split; try by intros; cbn in *; rewrite ?lookup_empty in *.
  unfold base_slot_count, resumed_materializer. cbn [m_mapped m_slots m_workspace].
  rewrite map_size_empty, Nat.add_0_r. cbn [vm_heads resumed_workspace mv_slot_count opened_vocabulary].
  fold s. by rewrite slots_length.
Qed.

Lemma atom_from_cell_shows c a : cell_shows im c a → atom_from_cell resumed_materializer c = Some a.
Proof.
  unfold atom_from_cell, resumed_materializer. cbn [m_mapped mv_literal_count mv_literal_value opened_vocabulary].
  fold s. destruct a as [[v]|[l]]; cbn [cell_shows entity_value literal_str].
  - intros [-> H]. by rewrite (proj2 (N.ltb_lt _ _)).
  - intros (t & -> & Ht). rewrite (proj2 (N.ltb_ge _ _)) by lia.
    replace (N.to_nat (VM_LITERAL_BASE + N.of_nat t - VM_LITERAL_BASE)) with t by lia.
    unfold literal_count. rewrite (ts_len _ _ _ (sh_literals _ _ Hs)).
    rewrite (proj2 (Nat.ltb_lt _ _)) by by eapply lookup_lt_Some.
    unfold literal_value. by rewrite (ts_value _ _ _ (sh_literals _ _ Hs) _ _ Ht).
Qed.

Lemma fact_from_cells_shows r slot f : record_shows im r slot f →
  fact_from_cells resumed_materializer (mr_subject r, mr_predicate r, mr_object r) = Some f.
Proof.
  intros [_ H1 H2 H3]. unfold fact_from_cells.
  rewrite (atom_from_cell_shows _ _ H1), (atom_from_cell_shows _ _ H3). cbn [mbind option_bind].
  unfold predicate_from_cell, resumed_materializer. cbn [m_mapped mv_predicate_count mv_predicate_value opened_vocabulary].
  fold s. unfold predicate_count. rewrite (ts_len _ _ _ (sh_predicates _ _ Hs)).
  rewrite (proj2 (Nat.ltb_lt _ _)) by by eapply lookup_lt_Some.
  rewrite (predicate_value_shows s im Hs _ _ H2). cbn [mbind option_bind]. by destruct f.
Qed.

Lemma chain_shows_physical slot t h l :
  im_slots im !! t = Some (slot_str slot) → chain_shows im slot h l →
  ∃ st, chain physical_records t h st ∧ Forall2 (λ c f, fact_from_cells resumed_materializer c = Some f) st l.
Proof.
  intros Ht. induction 1 as [|i r f l Hn Hi Hsh Hc (st & IH1 & IH2)].
  - exists []. split; constructor.
  - exists ((mr_subject r, mr_predicate r, mr_object r) :: st). split.
    + apply (chain_cons physical_records t i (physical_record (N.to_nat i) r)); [done| | |done].
      * unfold physical_records. by rewrite list_lookup_imap, Hi.
      * cbn. pose proof (rs_slot _ _ _ _ Hsh) as Hsl.
        exact (NoDup_lookup _ _ _ _ (strictly_sorted_NoDup _ (tw_sorted _ (iw_slots _ Hw))) Hsl Ht).
    + constructor; [|done]. by eapply fact_from_cells_shows.
Qed.

Lemma resumed_stacks :
  ∃ sts, heads_rep physical_records (im_heads im) sts ∧ stacks_rep resumed_materializer sts evs.
Proof.
  destruct (list_choice (λ t v st, ∃ h, im_heads im !! t = Some h ∧ chain physical_records t h st ∧
    Forall2 (λ c f, fact_from_cells resumed_materializer c = Some f) st (spec_definitions evs (SlotId_new v)))
    (im_slots im)) as (sts & Hlen & Hsts).
  { intros t v Ht. destruct (is_slot _ _ Hr (SlotId_new v) t Ht) as (h & Hh & Hc).
    destruct (chain_shows_physical (SlotId_new v) t h _ Ht Hc) as (st & H1 & H2). eauto. }
  exists sts. split; [split|split].
  - by rewrite (iw_head_count _ Hw).
  - intros t h st Hh Hst. destruct (lookup_lt_is_Some_2 (im_slots im) t) as [v Hv].
    { apply lookup_lt_Some in Hst. lia. }
    destruct (Hsts t v st Hv Hst) as (h' & Hh' & Hc & _). by simplify_eq.
  - intros slot t Ht%lookup_slot_shows. destruct (lookup_lt_is_Some_2 sts (N.to_nat t)) as [st Hst].
    { apply lookup_lt_Some in Ht. lia. }
    exists st. split; [done|]. destruct (Hsts _ _ _ Ht Hst) as (h & _ & _ & Hf). by destruct slot.
  - intros slot Hn. assert (spec_definitions evs slot = []) as Hd.
    { apply (is_absent _ _ Hr). intros (t & Ht)%list_elem_of_lookup.
      assert (lookup_slot resumed_materializer slot = Some (N.of_nat t)); [|congruence].
      apply lookup_slot_shows. by rewrite Nat2N.id. }
    by apply fmap_nil_inv in Hd.
  - intros t st Hst _. destruct (lookup_lt_is_Some_2 (im_slots im) t) as [v Hv].
    { apply lookup_lt_Some in Hst. lia. }
    exists (SlotId_new v). apply lookup_slot_shows. by rewrite Nat2N.id.
Qed.

Lemma resumed_ok : N.to_nat (ms_record_count s) = length evs →
  mat_ok resumed_materializer evs (ms_next_entity s).
Proof.
  intros Hcount. split.
  - apply resumed_voc.
  - destruct resumed_stacks as (sts & H1 & H2). exists sts. split; [|done].
    split; [unfold arena_ok; cbn; lia..| |done].
    unfold pa_list. cbn. by rewrite firstn_all.
  - cbn. lia.
  - unfold vm_delta_count. cbn. by rewrite Hcount, Nat.add_0_r.
  - done.
Qed.

(** *** Its capacity *)

Lemma resumed_room n : (24 * N.of_nat n <= NONE)%N → mat_room resumed_materializer n.
Proof.
  intros Hn. pose proof (os_opened p) as Ho. fold s in Ho.
  pose proof (op_size _ Ho) as Hsize. unfold MAX_SNAPSHOT_BYTES in Hsize.
  assert (NONE = 4294967295)%N as Hnone by done. rewrite Hnone in Hn.
  assert (slot_count s * 4 ≤ length (ms_mapping s)) as Hslots.
  { rewrite <- (op_heads _ Ho). destruct (section_in _ _ HEADS (op_sections _ Ho)) as [_ H2].
    fold (section s HEADS) in H2. unfold section_len. lia. }
  assert (length physical_records * 48 ≤ length (ms_mapping s)) as Hrec.
  { unfold physical_records. rewrite length_imap, <- (sh_record_count _ _ Hs). unfold retained_record_count.
    pose proof (Nat.Div0.mul_div_le (section_len (section s RECORDS)) RECORD_LEN) as Hm.
    destruct (section_in _ _ RECORDS (op_sections _ Ho)) as [_ H2]. fold (section s RECORDS) in H2.
    unfold section_len, RECORD_LEN in *. lia. }
  assert (N.of_nat (literal_count s) < 4294967296)%N as Hlit.
  { unfold literal_count. rewrite (ts_len _ _ _ (sh_literals _ _ Hs)). apply (is_literals _ Hsm). }
  split; [split|unfold room]; unfold base_slot_count, base_literal_count, resumed_materializer;
    cbn [m_mapped m_slots m_literal_values mv_slot_count mv_literal_count opened_vocabulary m_workspace
         vm_records vm_deltas vm_index_deltas resumed_workspace pa_frontier pa_with_capacity length]; fold s.
  - rewrite map_size_empty. unfold u32_modulus. lia.
  - assert (VM_LITERAL_BASE = 9223372036854775808)%N as -> by done. unfold u64_modulus. lia.
  - rewrite Hnone. lia.
Qed.
End image.

(** A snapshot of a history resumes a VM that holds it, with room for as many
    operations as an empty VM has. *)
Lemma materializer_from_mmap_ok p fs n :
  snapshot_ok (os_snapshot p) fs → (24 * N.of_nat n <= NONE)%N →
  ∃ m, materializer_from_mmap p = Ok m ∧ mat_ok m (frame_events fs) (ms_next_entity (os_snapshot p)) ∧
    mat_room m n.
Proof.
  intros [(im & Hs & Hw & Hsm & Hr & _) _ _ Hcount _] Hn. exists (resumed_materializer p im). split_and!.
  - by eapply materializer_from_mmap_shows.
  - by apply resumed_ok.
  - by apply resumed_room.
Qed.
