(* ===== verification/SnapshotProps.v ===== *)
(** The properties of mapped VM snapshots: what is written opens, anywhere later
    in the journal, as the world that was written; opening is safe on any bytes;
    queries agree with the history; and the stack VM resumes from the image. *)
From Stdlib Require Import NArith Lia.
From Stdlib Require Import Strings.Byte.
From stdpp Require Import sorting base gmap list strings option list_monad.
From S2P Require Import Prelude Ord Terms Bytes Query QueryFacts QueryOrder Spec Index Kernel Frames.
From S2P Require Import LegacyDb VmProjection Worlds WorldFacts WorldProps Codec FileStore MmapFormat.
From S2P Require Import StackVm VmEpochs VmVocabulary VmEpochFacts.
From S2P Require Import SnapshotFormat SnapshotFormatFacts MmapSnapshot SnapshotLayout.
From S2P Require Import SnapshotRep SnapshotBuild SnapshotSafety.
From S2P Require Import SnapshotRoot.

Local Open Scope string_scope.
Local Open Scope nat_scope.
Local Open Scope list_scope.

#[local] Opaque Nat.div Nat.modulo u32_bytes u64_bytes le_bytes.

(** An opened snapshot stands for a history and its final state. *)
Record stands_for (p : OpenedSnapshot) (fs : list CommitFrame) (id : WorldId) (version next_entity : N) : Prop := {
  sf_ok : snapshot_ok (os_snapshot p) fs;
  sf_world_ok {D} `{KernelLaws D} : world_ok (D := D) (world_from_mmap p) fs;
  sf_observes {D} `{KernelLaws D} : world_observes (D := D) (world_from_mmap p) fs;
  sf_id : mr_world_id p = id;
  sf_version : mr_world_version p = version;
  sf_next_entity : mr_next_entity p = next_entity;
}.

Lemma snapshot_stands_for p fs : snapshot_ok (os_snapshot p) fs →
  stands_for p fs (mr_world_id p) (mr_world_version p) (mr_next_entity p).
Proof.
  intros Hp. pose proof (snapshot_ok_frames _ _ Hp) as Hfs.
  assert (mr_ok p) as Hok by (cbn [mr_ok opened_root_laws]; by rewrite Hfs).
  assert (∀ D `{KernelLaws D}, world_ok (D := D) (world_from_mmap p) fs) as Hw
    by (intros; rewrite <- Hfs; by apply world_from_mmap_ok).
  split; try done. intros. by apply world_ok_observes, Hw.
Qed.

(** C37: A snapshot is the world it was written from.  Writing the image of a
    world and of its query projection never panics.  A projection over a mapped
    base is always refused, and nothing is written.  A projection held in memory
    is refused only for a retained fact with an entity in the literal cells, a
    history that its encoding cannot hold, or a file above the size limit.
    Otherwise the file answers of the system decide whether it is published; a
    published file, whether or not the call then reports an error, opens on the
    journal it was written for and on every longer one, and what it opens to is a
    world with the same history, identity, version and allocator.  Its reads are
    those of the history; every row of a query is a solution of the history, and a
    query without a limit has all of them (with a limit the rows kept may be
    others than those of the world that was written). *)
Theorem snapshot_round_trip {D P : Type} `{KernelLaws D, MappedRootLaws P}
    (io : create_io) (target : option (list u8)) (journal suffix : list u8) (epoch_count : N)
    (world : World D P) (q : VmQueryProjection P) (fs : list CommitFrame) :
  world_ok world fs → vq_ok q (frame_events fs) → Forall frame_wf fs →
  u64_ok epoch_count → u64_ok (N.of_nat (length journal)) → 16 ≤ length journal →
  let published file := ∃ bytes p, file = Some bytes ∧
    open_snapshot bytes (journal ++ suffix) = Some p ∧
    stands_for p fs (w_id world) (w_version world) (w_next_entity world) ∧
    ms_epoch_count (os_snapshot p) = epoch_count ∧
    ms_journal_offset (os_snapshot p) = N.of_nat (length journal) in
  match vq_mapped q, create io target journal epoch_count world q with
  | Some _, written => written = (Err "rewriting a mapped snapshot with a tail is not implemented", target)
  | None, (Ok md, file) => published file ∧ md_epoch_count md = epoch_count ∧
      md_world_id md = w_id world ∧ md_world_version md = w_version world
  | None, (Err m, file) =>
      match io with
      | CreateOk => file = target ∧ (sections_refused world (frame_events fs) m ∨ m = TOO_LARGE)
      | DirectoryFails => file = target ∨ published file
      | _ => file = target
      end
  | None, (Panic, _) => False
  end.
Proof.
  intros Hw Hvq Hwf He Hju Hj published. destruct (vq_mapped q) as [base|] eqn:Hm.
  { unfold create, snapshot_bytes. by rewrite Hm. }
  destruct Hvq as [Hq|(base & Hb & _)]; [|by rewrite Hm in Hb]. unfold create.
  pose proof (snapshot_bytes_total world q (frame_events fs) journal epoch_count Hq) as Ht.
  destruct (snapshot_bytes journal epoch_count world q) as [bytes|m|] eqn:Hb; [|by destruct io; auto|done].
  assert (published (Some bytes)) as Hpub.
  { destruct (snapshot_bytes_open world q fs journal suffix epoch_count bytes Hw Hq Hwf He Hju Hj Hb)
      as (s & Hs & Hok & E1 & E2 & E3 & E4 & E5).
    destruct (open_snapshot_ok _ _ _ Hs) as (p & Hp & <-). exists bytes, p. split_and!; try done.
    pose proof (snapshot_stands_for p fs Hok) as Hst. cbn in Hst. by rewrite E3, E4, E5 in Hst. }
  destruct io; auto.
Qed.

(** Names, a link and a shadowed definition. *)
Definition sample_history : list CommitFrame :=
  let name e n := Fact_new (AEntity (EntityId_new e)) (Predicate_new "name") (ALiteral (Literal_new n)) in
  let ops1 := [AllocateEntity (EntityId_new 1); AllocateEntity (EntityId_new 2);
    OpDefine (SlotId_new "ada") (name 1%N "Zeta");
    OpDefine (SlotId_new "byron") (name 2%N "Alpha");
    OpDefine (SlotId_new "link") (Fact_new (AEntity (EntityId_new 1)) (Predicate_new "knows")
      (AEntity (EntityId_new 2)))] in
  let ops2 := [OpDefine (SlotId_new "ada") (name 1%N "Ada"); OpForget (SlotId_new "link")] in
  let id1 := calculate_world_id GENESIS 1 3 ops1 in
  [CommitFrame_mk GENESIS id1 0 1 3 ops1;
   CommitFrame_mk id1 (calculate_world_id id1 2 3 ops2) 1 2 3 ops2].

Definition sample_world : World ForthDb Empty_set :=
  match reconstruct sample_history with Ok w => w | _ => genesis end.

Lemma sample_world_ok : world_ok sample_world sample_history.
Proof.
  pose proof (reconstruct_ok (D := ForthDb) (P := Empty_set) sample_history) as Hr.
  assert (match check_chain sample_history with Ok _ => True | _ => False end) as Hc by (clear; vm_compute; exact I).
  unfold sample_world. destruct (check_chain sample_history) as [[[id v] n]|e|];
    [|destruct Hc..].
  destruct Hr as (w & -> & Hw & _). exact Hw.
Qed.

Definition sample_journal : list u8 := replicate 20 x41.

Lemma sample_history_wf : Forall frame_wf sample_history.
Proof.
  assert (∀ f, u64_ok (world_value (parent_world f)) → u64_ok (world_value (resulting_world f)) →
    u64_ok (parent_version f) → u64_ok (resulting_version f) → u64_ok (resulting_allocator f) →
    Forall operation_wf (frame_operations f) → frame_wf f) as Hf by (by intros; split_and!).
  repeat apply Forall_cons_2; [apply Hf..|apply Forall_nil_2]; try apply calculate_world_id_ok;
    try reflexivity; repeat constructor.
Qed.

Definition sample_created : outcome string MmapSnapshotMetadata * option (list u8) :=
  create CreateOk None sample_journal 2 sample_world (projection_from_frames sample_history).

Lemma sample_created_ok : match sample_created with (Ok _, Some _) => True | _ => False end.
Proof. vm_compute. done. Qed.

Lemma snapshot_round_trip_witness :
  ∃ md bytes p, sample_created = (Ok md, Some bytes) ∧ md_world_version md = w_version sample_world ∧
    open_snapshot bytes (sample_journal ++ [x42]) = Some p ∧
    stands_for p sample_history (w_id sample_world) (w_version sample_world) (w_next_entity sample_world).
Proof.
  pose proof sample_created_ok as Hok. unfold sample_created in *.
  pose proof (projection_from_frames_rep (P := Empty_set) sample_history) as Hq. revert Hok Hq.
  generalize (projection_from_frames (P := Empty_set) sample_history) as q. intros q Hok Hq.
  pose proof (snapshot_round_trip CreateOk None sample_journal [x42] 2 sample_world q sample_history
    sample_world_ok (or_introl Hq) sample_history_wf ltac:(done) ltac:(done)
    ltac:(apply Nat.leb_le; reflexivity)) as Hr.
  rewrite (pr_mapped _ _ Hq) in Hr.
  destruct (create _ _ _ _ _ q) as [[md|m|] [bytes|]]; try (by destruct Hok).
  destruct Hr as ((bytes' & p & [= <-] & Hp & Hst & _) & _ & _ & Hv).
  exists md, bytes, p. exact (conj eq_refl (conj Hv (conj Hp Hst))).
Defined.

(** The world of an opened snapshot cannot be written again. *)
Lemma rewriting_refused :
  match sample_created with
  | (Ok _, Some bytes) =>
      match open_snapshot bytes sample_journal with
      | Some p =>
          let world := world_from_mmap (D := ForthDb) p in
          match world_vm_query world with
          | Some (q, world) => create CreateOk (Some bytes) sample_journal 2 world q =
              (Err "rewriting a mapped snapshot with a tail is not implemented", Some bytes)
          | None => False
          end
      | None => False
      end
  | _ => False
  end.
Proof. vm_compute. reflexivity. Qed.

(** C38: Opening is safe.  Any bytes, given as a snapshot of any journal, are
    opened or refused without a panic; and of what is opened, damaged or crafted
    as it may be, every definition, every stack and every display name is read
    without a panic and without an endless chain, and the image that the stack VM
    asks for is given or refused.  (Queries are not in this list, see
    [stray_active_panics].) *)
Theorem snapshot_open_safe (file journal : list u8) :
  open file journal ≠ Panic ∧
  ∀ s, open file journal = Ok s →
    (∀ slot, ∃ r, resolve s slot = Ok r) ∧ (∀ slot, ∃ l, definitions s slot = Ok l) ∧
    (∀ e, ∃ n, display_name s e = Ok n) ∧ workspace_image s ≠ Panic.
Proof.
  split; [apply open_safe|]. intros s [Hs _]%open_opened. split_and!.
  - intros slot. by apply resolve_total.
  - intros slot. by apply definitions_total.
  - intros e. by apply display_name_total.
  - by apply safe_workspace_image.
Qed.

(** C39: Queries of a mapped snapshot.  The engine that walks the mapped indexes,
    ranges of sorted entries found by binary search, answers every query of every
    history that the snapshot stands for.  Without a limit, the answer has exactly
    the solutions among the active definitions; with duplicates dropped, also the
    bindings of the reference evaluation in its order, and its rows unless these
    carry provenance; and when no variable stands for an entity here and for a
    predicate there, the metrics of the reference and, with duplicates kept, its
    rows.  With a limit of [k] only this: every row is a solution, there are at
    most [max 1 k] of them, and under the same condition on variables, with
    duplicates kept, as many as in the reference.  Which ones may differ
    ([mapped_limit_differs]). *)
Theorem mapped_query_agrees (s : MmapVmSnapshot) (fs : list CommitFrame) (ps : list Pattern)
    (o : QueryOptions) :
  snapshot_ok s fs →
  let entries := active_entries (frame_events fs) in
  let reference := spec_query entries ps o in
  ∃ r, mapped_query s ps o = Some r ∧
    match opt_limit o with
    | None =>
        (∀ b, b ∈ row_binding <$> result_rows r ↔ solution entries ps b) ∧
        (opt_distinct o = true →
          row_binding <$> result_rows r = row_binding <$> result_rows reference ∧
          (opt_include_provenance o = false → result_rows r = result_rows reference)) ∧
        (sorted_query ps →
          result_metrics r = result_metrics reference ∧
          (opt_distinct o = false → result_rows r = result_rows reference))
    | Some k =>
        (∀ b, b ∈ row_binding <$> result_rows r → solution entries ps b) ∧
        length (result_rows r) ≤ Nat.max 1 k ∧
        (sorted_query ps → opt_distinct o = false →
          length (result_rows r) = length (result_rows reference))
    end.
Proof.
  intros [(im & Hs & Hw & Hsm & Hr & _) _ _ _ _] entries reference. eexists.
  split; [by apply (mapped_query_shows _ im _ Hs Hw Hsm Hr)|].
  pose proof (mapped_order_source _ im _ Hs Hw Hsm Hr) as Hord.
  set (cands := mapped_cands _) in *. destruct (cand_query_agrees cands entries ps o) as [Hso Hco Hd Hsd Hl].
  destruct (opt_limit o) as [k|] eqn:Hk.
  - split_and!; [done| |done]. replace o with (with_limit (Some k) o) by (destruct o; cbn in Hk; by subst).
    apply (cand_query_limit cands).
  - split_and!; [|by apply Hd|by intros; apply Hsd]. intros b. split; [apply Hso|by apply Hco].
Qed.

(** The snapshot of the sample world. *)
Definition sample_snapshot : option OpenedSnapshot :=
  bytes ← sample_created.2; open_snapshot bytes sample_journal.

Lemma sample_snapshot_ok : ∃ p, sample_snapshot = Some p ∧ snapshot_ok (os_snapshot p) sample_history.
Proof.
  unfold sample_snapshot, sample_created, create. pose proof sample_created_ok as Hok.
  unfold sample_created, create in Hok.
  destruct (snapshot_bytes _ _ _ _) as [bytes|m|] eqn:Hb; [|destruct Hok..]. cbn [snd mbind option_bind].
  destruct (snapshot_bytes_open sample_world _ sample_history sample_journal [] 2 bytes sample_world_ok
    (projection_from_frames_rep sample_history) sample_history_wf ltac:(done) ltac:(done)
    ltac:(apply Nat.leb_le; reflexivity) Hb) as (s & Hs & Hs' & _).
  rewrite app_nil_r in Hs. destruct (open_snapshot_ok _ _ _ Hs) as (p & Hp & E). exists p.
  rewrite E. exact (conj Hp Hs').
Qed.

(** Who is called what. *)
Definition names_query : list Pattern :=
  [Pattern_new (TVariable (QVariable_mk "who")) (PPredicate (Predicate_new "name"))
     (TVariable (QVariable_mk "name"))].

Lemma mapped_query_agrees_witness :
  ∃ p r, sample_snapshot = Some p ∧ mapped_query (os_snapshot p) names_query QueryOptions_default = Some r ∧
    (∀ b, b ∈ row_binding <$> result_rows r ↔
      solution (active_entries (frame_events sample_history)) names_query b) ∧
    ∃ r1, mapped_query (os_snapshot p) names_query (with_limit (Some 1) QueryOptions_default) = Some r1 ∧
      length (result_rows r1) ≤ 1.
Proof.
  destruct sample_snapshot_ok as (p & Hp & Hok).
  destruct (mapped_query_agrees (os_snapshot p) sample_history names_query QueryOptions_default Hok)
    as (r & Hq & Ha & _).
  destruct (mapped_query_agrees (os_snapshot p) sample_history names_query
    (with_limit (Some 1) QueryOptions_default) Hok) as (r1 & Hq1 & _ & Hlen & _).
  exists p, r. exact (conj Hp (conj Hq (conj Ha (ex_intro _ r1 (conj Hq1 Hlen))))).
Defined.

(** A limit shows the order: the mapped indexes are in the order of their keys,
    so that one row of two is not the row that the definitions give. *)
Lemma mapped_limit_differs :
  let o := QueryOptions_mk true false false (Some 1) in
  let names (r : QueryResult) := (λ row, row_binding row !! "name") <$> result_rows r in
  let literal v := Some (BLiteral (Literal_new v)) in
  (p ← sample_snapshot; names <$> mapped_query (os_snapshot p) names_query o) = Some [literal "Ada"] ∧
  names (spec_query (active_entries (frame_events sample_history)) names_query o) = [literal "Alpha"].
Proof. vm_compute. split; reflexivity. Qed.

(** The check of an opened file leaves out the section of active records.  One that
    names a record past the arena reads the bytes of another section as a record;
    under a correct checksum the file is opened, and the first query that
    enumerates the active definitions panics on the slot of that record. *)
Definition stray_active : outcome string (list u8) :=
  match p ← sample_snapshot; Some (ms_mapping (os_snapshot p), (section (os_snapshot p) ACTIVE).1) with
  | Some (bytes, start) =>
      let* bytes := put_u32 bytes start 8 in put_u64 bytes 24 (digest (drop HEADER_LEN bytes))
  | None => Panic
  end.

Definition everything : list Pattern :=
  [Pattern_new (TVariable (QVariable_mk "s")) (PVariable (QVariable_mk "p")) (TVariable (QVariable_mk "o"))].

Lemma stray_active_panics :
  match stray_active with
  | Ok bytes => match open_snapshot bytes sample_journal with
    | Some p => mapped_query (os_snapshot p) everything QueryOptions_default = None
    | None => False
    end
  | _ => False
  end.
Proof. vm_compute. reflexivity. Qed.

(** The stack VM resumes from a snapshot.  The image of a history, checked
    record by record, gives a VM that holds that history: it resolves every slot
    and counts the active slots as the history does, allocates where the history
    ended, and has room for as many new operations as an empty VM has. *)
Theorem snapshot_resumes_vm (p : OpenedSnapshot) (fs : list CommitFrame) (n : nat) :
  snapshot_ok (os_snapshot p) fs → (24 * N.of_nat n <= NONE)%N →
  ∃ m, materializer_from_mmap p = Ok m ∧ mat_ok m (frame_events fs) (mr_next_entity p) ∧
    (∀ s, materializer_resolve_fact m s = Some (spec_resolve (frame_events fs) s)) ∧
    vm_active_slot_count (m_workspace m) = spec_active_count (frame_events fs) ∧ mat_room m n.
Proof.
  intros Hp Hn. destruct (materializer_from_mmap_ok p fs n Hp Hn) as (m & Hm & Hok & Hroom).
  exists m. split_and!; [done|done| |by eapply mat_active|done]. intros s. by eapply mat_resolve.
Qed.

Lemma snapshot_resumes_vm_witness :
  ∃ p m, sample_snapshot = Some p ∧ materializer_from_mmap p = Ok m ∧
    (∀ s, materializer_resolve_fact m s = Some (spec_resolve (frame_events sample_history) s)) ∧ mat_room m 1000.
Proof.
  destruct sample_snapshot_ok as (p & Hp & Hok).
  destruct (snapshot_resumes_vm p sample_history 1000 Hok) as (m & Hm & _ & Hr & _ & Hroom); [done|].
  exists p, m. exact (conj Hp (conj Hm (conj Hr Hroom))).
Defined.
