(* ===== verification/IoUring.v ===== *)
(** The io_uring transport of epochs (forthdb-world/src/io_uring_epoch_io.rs): one
    linked write and data synchronisation per contiguous epoch, and the
    validation of their completions.

    The [io_uring] crate and the kernel behind it are the interface [Ring]; the
    plain file operations are those of [EpochFileIo].  The path and the raw
    descriptor are not modelled. *)
From Stdlib Require Import NArith ZArith Lia.
From Stdlib Require Import Strings.Byte.
From stdpp Require Import base gmap list strings option list_monad.
From S2P Require Import Prelude Bytes EpochStore.

Definition WRITE_USER_DATA_TAG : N := 0x5752495400000000.
Definition WRITE_USER_DATA_MASK : N := 0xffffffff00000000.
Definition FSYNC_USER_DATA : N := 0x4653594e435f4d36.

(** A submission entry of the transport: a write linked to what follows, or a
    data synchronisation. *)
Inductive Sqe :=
| SqeWrite (offset : N) (buffer : list u8) (user_data : N)
| SqeFsync (user_data : N).

Inductive CompletionReason :=
| CompletionCount (expected observed : nat)
| DuplicateFsync
| UnknownUserData (user_data : N)
| OutOfRangeWrite (index : nat)
| DuplicateWrite (index : nat)
| NoncanonicalWrite (index : nat)
| MissingWrite (index : nat)
| MissingFsync
| UnexpectedFsync (result : Z).

Inductive ring_error :=
| RingIo (e : io_error)
| EpochTooLong
| QueueFull
| RingUnavailable
| InvalidCompletion (r : CompletionReason)
| ShortWrite (index : nat) (result : Z) (expected : nat).

Abbreviation ring_result A := (outcome (EpochIoPhase * ring_error) A) (only parsing).

(** The crate: [IoUring::new], dropping a ring, [push_multiple] (all or none),
    [submit], [submit_and_wait] and [completion().next()]. *)
Class Ring (U : Type) := {
  ring_create : N → U → outcome io_error unit * U;
  ring_drop : U → U;
  ring_push : list Sqe → U → bool * U;
  ring_submit : U → outcome io_error unit * U;
  ring_wait : nat → U → outcome io_error unit * U;
  ring_next : U → option (N * Z) * U;
}.

Definition write_user_data (index : nat) : N := N.lor WRITE_USER_DATA_TAG (N.of_nat index).

Record PendingIoUringEpoch := PendingIoUringEpoch_mk {
  expected_writes : list (N * nat);
  expected_cqes : nat;
  pending_metrics : EpochPersistMetrics;
}.

(** ** Validation *)

Definition invalid_completion {A} (phase : EpochIoPhase) (r : CompletionReason) : ring_result A :=
  Err (phase, InvalidCompletion r).

(** One completion of the first loop: the results of the writes and of the
    synchronisation. *)
Definition scan_completion (st : list (option Z) * option Z) (c : N * Z) :
    ring_result (list (option Z) * option Z) :=
  let '(writes, fsync) := st in
  let '(user_data, result) := c in
  if decide (user_data = FSYNC_USER_DATA) then
    match fsync with
    | Some _ => invalid_completion EpochSync DuplicateFsync
    | None => Ok (writes, Some result)
    end
  else if decide (N.land user_data WRITE_USER_DATA_MASK ≠ WRITE_USER_DATA_TAG)
  then invalid_completion EpochWrite (UnknownUserData user_data)
  else
    let index := N.to_nat (N.land user_data 0xffffffff) in
    match writes !! index with
    | None => invalid_completion EpochWrite (OutOfRangeWrite index)
    | Some (Some _) => invalid_completion EpochWrite (DuplicateWrite index)
    | Some None => Ok (<[index := Some result]> writes, fsync)
    end.

(** The second loop, from [index] on. *)
Fixpoint check_writes (index : nat) (expected : list (N * nat)) (results : list (option Z)) :
    ring_result unit :=
  match expected, results with
  | (user_data, len) :: expected, result :: results =>
      if decide (user_data ≠ write_user_data index)
      then invalid_completion EpochWrite (NoncanonicalWrite index)
      else
        match result with
        | None => invalid_completion EpochWrite (MissingWrite index)
        | Some result =>
            if (result <? 0)%Z then Err (EpochWrite, RingIo (OsError (Z.to_N (- result))))
            else if decide (Z.to_nat result ≠ len)
            then Err (EpochWrite, ShortWrite index result len)
            else check_writes (S index) expected results
        end
  | _, _ => Ok tt
  end.

Definition check_fsync (fsync : option Z) : ring_result unit :=
  match fsync with
  | None => invalid_completion EpochSync MissingFsync
  | Some result =>
      if (result <? 0)%Z then Err (EpochSync, RingIo (OsError (Z.to_N (- result))))
      else if decide (result ≠ 0%Z) then invalid_completion EpochSync (UnexpectedFsync result)
      else Ok tt
  end.

Definition validate_completion_batch (writes : list (N * nat)) (cqes : nat)
    (completions : list (N * Z)) : ring_result unit :=
  if decide (length completions ≠ cqes)
  then invalid_completion EpochWrite (CompletionCount cqes (length completions))
  else
    let* st := outcome_fold scan_completion completions (replicate (length writes) None, None) in
    let* _ := check_writes 0 writes st.1 in
    check_fsync st.2.

(** ** The transport *)

Section transport.
Context {U : Type} `{Ring U, EpochFileIo U}.

(** The file and the kernel's rings are one environment; [ring_alive] is
    [self.ring.is_some()]. *)
Record IoUringEpochFileIo := IoUringEpochFileIo_mk {
  ur_system : U;
  ring_alive : bool;
  ring_entries : N;
}.

(** [IoUringEpochFileIo::open] on an open file. *)
Definition uring_open (entries : N) (u : U) : outcome io_error IoUringEpochFileIo * U :=
  let '(r, u) := ring_create entries u in
  (let* _ := r in Ok (IoUringEpochFileIo_mk u true entries), u).

(** [drop(self.ring.take()); self.ring = Some(IoUring::new(..)?)]. *)
Definition discard_and_recreate_ring (io : IoUringEpochFileIo) :
    outcome io_error unit * IoUringEpochFileIo :=
  let u := if ring_alive io then ring_drop (ur_system io) else ur_system io in
  match ring_create (ring_entries io) u with
  | (Ok _, u) => (Ok tt, IoUringEpochFileIo_mk u true (ring_entries io))
  | (Err e, u) => (Err e, IoUringEpochFileIo_mk u false (ring_entries io))
  | (Panic, u) => (Panic, IoUringEpochFileIo_mk u false (ring_entries io))
  end.

Definition set_system (u : U) (io : IoUringEpochFileIo) : IoUringEpochFileIo :=
  IoUringEpochFileIo_mk u (ring_alive io) (ring_entries io).

(** The closure that queues and submits the entries. *)
Definition submit_entries (entries : list Sqe) (io : IoUringEpochFileIo) :
    outcome ring_error unit * IoUringEpochFileIo :=
  if ring_alive io then
    let '(pushed, u) := ring_push entries (ur_system io) in
    if pushed then
      let '(r, u) := ring_submit u in (map_err RingIo r, set_system u io)
    else (Err QueueFull, set_system u io)
  else (Err RingUnavailable, io).

Definition submission_metrics (total : N) : EpochPersistMetrics :=
  EpochPersistMetrics_mk 1 1 total 1 0 1 0 total.

Definition submit_contiguous_epoch (start_offset : N) (records : list (list u8))
    (io : IoUringEpochFileIo) : ring_result PendingIoUringEpoch * IoUringEpochFileIo :=
  let arena := concat records in
  let total := length arena in
  if (u32_modulus <=? N.of_nat total)%N then (Err (EpochWrite, EpochTooLong), io)
  else
    let entries := [SqeWrite start_offset arena (write_user_data 0); SqeFsync FSYNC_USER_DATA] in
    match submit_entries entries io with
    | (Ok _, io) =>
        (Ok (PendingIoUringEpoch_mk [(write_user_data 0, total)] (length entries)
               (submission_metrics (N.of_nat total))), io)
    | (Err e, io) =>
        match discard_and_recreate_ring io with
        | (Err reset, io) => (Err (EpochWrite, RingIo reset), io)
        | (_, io) => (Err (EpochWrite, e), io)
        end
    | (Panic, io) => (Panic, io)
    end.

(** [while completions.len() < expected { let Some(entry) = next() else break }]. *)
Fixpoint reap (n : nat) (u : U) : list (N * Z) * U :=
  match n with
  | 0 => ([], u)
  | S n =>
      match ring_next u with
      | (None, u) => ([], u)
      | (Some entry, u) => let '(entries, u) := reap n u in (entry :: entries, u)
      end
  end.

Definition count_completions (n : nat) (m : EpochPersistMetrics) : EpochPersistMetrics :=
  EpochPersistMetrics_mk (pm_data_writes m) (pm_data_syncs m) (pm_bytes_written m)
    (pm_submission_calls m) (u64_add (pm_completion_events m) (N.of_nat n))
    (pm_maximum_in_flight_writes m) (pm_iovecs_submitted m) (pm_arena_bytes_copied m).

(** The closure: the metrics, the result and the transport. *)
Definition await_completions (p : PendingIoUringEpoch) (io : IoUringEpochFileIo) :
    EpochPersistMetrics * ring_result unit * IoUringEpochFileIo :=
  if ring_alive io then
    match ring_wait (expected_cqes p) (ur_system io) with
    | (Ok _, u) =>
        let '(completions, u) := reap (expected_cqes p) u in
        (count_completions (length completions) (pending_metrics p),
         validate_completion_batch (expected_writes p) (expected_cqes p) completions,
         set_system u io)
    | (Err e, u) => (pending_metrics p, Err (EpochWrite, RingIo e), set_system u io)
    | (Panic, u) => (pending_metrics p, Panic, set_system u io)
    end
  else (pending_metrics p, Err (EpochWrite, RingUnavailable), io).

Definition complete_contiguous_epoch (p : PendingIoUringEpoch) (io : IoUringEpochFileIo) :
    EpochPersistMetrics * ring_result unit * IoUringEpochFileIo :=
  let '(m, r, io) := await_completions p io in
  match r with
  | Err e =>
      match discard_and_recreate_ring io with
      | (Err reset, io) => (m, Err (EpochWrite, RingIo reset), io)
      | (_, io) => (m, Err e, io)
      end
  | _ => (m, r, io)
  end.

(** [impl EpochFileIo for IoUringEpochFileIo]: the operations of the file. *)
Definition on_file {A} (f : U → outcome io_error A * U) (io : IoUringEpochFileIo) :
    outcome io_error A * IoUringEpochFileIo :=
  let '(r, u) := f (ur_system io) in (r, set_system u io).

#[export] Instance uring_io : EpochFileIo IoUringEpochFileIo := {
  persist_epoch _ _ io := (None, io);
  io_len phase := on_file (io_len phase);
  io_write_at phase offset bytes := on_file (io_write_at phase offset bytes);
  io_sync_data phase := on_file (io_sync_data phase);
  io_set_len phase len := on_file (io_set_len phase len);
  io_read_all phase := on_file (io_read_all phase);
}.
End transport.
Arguments IoUringEpochFileIo : clear implicits.
