(* ===== verification/IoUringFacts.v ===== *)
(** What a completed epoch promises: validation accepts only a full write and a
    successful synchronisation, so an epoch the transport reports as complete is
    in the file, and one it refuses has touched nothing before its offset. *)
From Stdlib Require Import NArith ZArith Lia.
From Stdlib Require Import Strings.Byte.
From stdpp Require Import base gmap list strings option list_monad.
From S2P Require Import Prelude Bytes EpochStore EpochStoreFacts IoUring.

(** ** Validation *)

Lemma user_data_split ud : u64_ok ud → N.land ud WRITE_USER_DATA_MASK = WRITE_USER_DATA_TAG →
  ud = write_user_data (N.to_nat (N.land ud 0xffffffff)).
Proof.
  intros Hu Htag. unfold write_user_data. rewrite N2Nat.id, <- Htag, <- N.land_lor_distr_r.
  change (N.lor WRITE_USER_DATA_MASK 0xffffffff) with (N.ones 64).
  rewrite N.land_ones, N.mod_small by exact Hu. done.
Qed.

(** What the results scanned so far stand for. *)
Record scanned (cs : list (N * Z)) (st : list (option Z) * option Z) : Prop := {
  sc_writes i r : st.1 !! i = Some (Some r) → (write_user_data i, r) ∈ cs;
  sc_fsync r : st.2 = Some r → (FSYNC_USER_DATA, r) ∈ cs;
}.

Lemma scan_sound cs : ∀ seen st st',
  Forall (λ c, u64_ok c.1) cs → scanned seen st → outcome_fold scan_completion cs st = Ok st' →
  scanned (seen ++ cs) st' ∧ length st'.1 = length st.1.
Proof.
  induction cs as [|[ud r] cs IH]; intros seen [writes fsync] st' Hu Hs Hf.
  - injection Hf as <-. rewrite app_nil_r. done.
  - apply Forall_cons in Hu as [Hud Hu]. cbn [outcome_fold] in Hf.
    apply outcome_bind_ok in Hf as (st1 & H1 & Hf).
    assert (scanned (seen ++ [(ud, r)]) st1 ∧ length st1.1 = length writes) as [Hs1 Hl1].
    { destruct Hs as [Hw Hy]. cbn [fst snd] in Hw, Hy. unfold scan_completion in H1.
      destruct (decide (ud = FSYNC_USER_DATA)) as [->|_].
      { destruct fsync; [done|]. injection H1 as <-. split; [|done].
        split; cbn [fst snd]; [intros i x Hx; apply elem_of_app; left; by apply Hw|].
        intros x [= ->]. set_solver. }
      case_decide as Htag; [done|].
      set (index := N.to_nat (N.land ud 0xffffffff)) in H1.
      destruct (writes !! index) as [[?|]|] eqn:Hi; [done| |done]. injection H1 as <-.
      split; [|apply length_insert].
      split; cbn [fst snd]; [|intros x Hx; apply elem_of_app; left; by apply Hy].
      intros i x Hx. apply elem_of_app. destruct (decide (i = index)) as [->|Hne].
      - rewrite list_lookup_insert_eq in Hx by (by eapply lookup_lt_Some). injection Hx as ->.
        right. pose proof (user_data_split ud Hud Htag) as Heq. fold index in Heq.
        rewrite <- Heq. by apply list_elem_of_singleton.
      - rewrite list_lookup_insert_ne in Hx by done. left. by apply Hw. }
    destruct (IH _ _ _ Hu Hs1 Hf) as [Hs2 Hl2]. rewrite <- (assoc_L (++)) in Hs2.
    split; [done|]. cbn [fst] in *. congruence.
Qed.

Lemma check_writes_sound writes : ∀ index results,
  check_writes index writes results = Ok tt → length results = length writes →
  ∀ i ud len, writes !! i = Some (ud, len) →
    ud = write_user_data (index + i) ∧ results !! i = Some (Some (Z.of_nat len)).
Proof.
  induction writes as [|[ud0 len0] writes IH]; intros index [|r results] Hc Hl i ud len Hi; try done.
  cbn [check_writes] in Hc. case_decide as Hud; [done|].
  destruct r as [r|]; [|done]. destruct (Z.ltb_spec r 0); [done|]. case_decide as Hlen; [done|].
  destruct i as [|i].
  - injection Hi as -> ->. split; [by rewrite Nat.add_0_r|]. simpl. do 2 f_equal. lia.
  - destruct (IH (S index) results Hc ltac:(simpl in Hl; lia) i ud len Hi) as [-> Hr].
    split; [f_equal; lia|done].
Qed.

Lemma validate_sound writes cqes cs :
  Forall (λ c, u64_ok c.1) cs → validate_completion_batch writes cqes cs = Ok tt →
  length cs = cqes ∧ (FSYNC_USER_DATA, 0%Z) ∈ cs ∧
  ∀ i ud len, writes !! i = Some (ud, len) →
    ud = write_user_data i ∧ (ud, Z.of_nat len) ∈ cs.
Proof.
  intros Hu Hv. unfold validate_completion_batch in Hv. case_decide as Hlen; [done|].
  split; [done|].
  apply outcome_bind_ok in Hv as (st & Hscan & Hv). apply outcome_bind_ok in Hv as ([] & Hw & Hf).
  destruct (scan_sound cs [] (replicate (length writes) None, None) st Hu) as [[Hs1 Hs2] Hl]; [|done|].
  { split; cbn [fst snd]; [|done]. intros i r Hi. apply lookup_replicate in Hi as [? _]. done. }
  split.
  - apply Hs2. unfold check_fsync in Hf. destruct st.2 as [r|]; [|done].
    destruct (r <? 0)%Z; [done|]. case_decide as Hr; [done|]. by subst.
  - intros i ud len Hi. cbn [fst] in Hl. rewrite length_replicate in Hl.
    destruct (check_writes_sound writes 0 st.1 Hw Hl i ud len Hi) as [-> Hr].
    split; [done|]. by apply Hs1.
Qed.

Lemma validate_not_panic writes cqes cs : validate_completion_batch writes cqes cs ≠ Panic.
Proof.
  assert (∀ cs st, outcome_fold scan_completion cs st ≠ Panic) as Hscan.
  { clear. induction cs as [|[ud r] cs IH]; intros [ws f]; [done|]. cbn [outcome_fold scan_completion].
    unfold invalid_completion. repeat (case_decide || case_match; cbn [outcome_bind]); done. }
  assert (∀ ws i rs, check_writes i ws rs ≠ Panic) as Hcheck.
  { clear. induction ws as [|[ud len] ws IH]; intros i [|r rs]; cbn [check_writes]; try done.
    unfold invalid_completion. repeat (case_decide || case_match); done. }
  unfold validate_completion_batch. case_decide; [done|].
  specialize (Hscan cs (replicate (length writes) None, None)).
  destruct (outcome_fold _ _ _) as [st|e|]; cbn [outcome_bind]; [|done..].
  specialize (Hcheck writes 0 st.1). destruct (check_writes _ _ _); cbn [outcome_bind]; [|done..].
  unfold check_fsync, invalid_completion. repeat (case_decide || case_match); done.
Qed.

(** ** The documented behaviour of a ring *)

(** A linked write and synchronisation on a file that ends at or after the
    offset: whatever happens, the bytes before the offset stay; when the
    completions say that the whole buffer was written and synchronised, it is in
    the file.  [rl_epoch] is what the ring was last given and the content
    before it, [rl_reaped] the completions read since, [rl_ready] that no entry
    is in flight. *)
Class RingLaws (U : Type) `{Ring U, EpochFileIoLaws U} := {
  rl_epoch : U → option (list u8 * N * list u8);
  rl_reaped : U → list (N * Z);
  rl_ready : U → Prop;
  rl_create entries u : io_good u →
    let '(r, u') := ring_create entries u in
    io_good u' ∧ io_content u' = io_content u ∧ r ≠ Panic ∧ (r = Ok tt → rl_ready u');
  rl_drop u : io_good u →
    io_good (ring_drop u) ∧
    match rl_epoch u with
    | Some (content, offset, _) => take (N.to_nat offset) content `prefix_of` io_content (ring_drop u)
    | None => io_content (ring_drop u) = io_content u
    end;
  rl_push u offset buffer : io_good u → rl_ready u → N.to_nat offset ≤ length (io_content u) →
    let '(pushed, u') :=
      ring_push [SqeWrite offset buffer (write_user_data 0); SqeFsync FSYNC_USER_DATA] u in
    io_good u' ∧ io_content u' = io_content u ∧ rl_reaped u' = [] ∧
    rl_epoch u' = Some (io_content u, offset, buffer);
  rl_submit u content offset buffer : io_good u → rl_epoch u = Some (content, offset, buffer) →
    rl_reaped u = [] →
    let '(r, u') := ring_submit u in
    io_good u' ∧ r ≠ Panic ∧ rl_epoch u' = rl_epoch u ∧ rl_reaped u' = [];
  rl_wait u n content offset buffer : io_good u → rl_epoch u = Some (content, offset, buffer) →
    rl_reaped u = [] →
    let '(r, u') := ring_wait n u in
    io_good u' ∧ r ≠ Panic ∧ rl_epoch u' = rl_epoch u ∧ rl_reaped u' = [];
  rl_next u content offset buffer : io_good u → rl_epoch u = Some (content, offset, buffer) →
    let '(c, u') := ring_next u in
    io_good u' ∧ rl_epoch u' = rl_epoch u ∧
    match c with
    | Some c => u64_ok c.1 ∧ rl_reaped u' = rl_reaped u ++ [c]
    | None => rl_reaped u' = rl_reaped u
    end;
  rl_prefix u content offset buffer : io_good u → rl_epoch u = Some (content, offset, buffer) →
    take (N.to_nat offset) content `prefix_of` io_content u;
  rl_done u content offset buffer : io_good u → rl_epoch u = Some (content, offset, buffer) →
    (write_user_data 0, Z.of_nat (length buffer)) ∈ rl_reaped u → (FSYNC_USER_DATA, 0%Z) ∈ rl_reaped u →
    rl_ready u ∧ io_content u = overwrite content (N.to_nat offset) buffer;
}.

Section transport.
Context {U : Type} `{RingLaws U}.

Abbreviation transport := (IoUringEpochFileIo U) (only parsing).
Abbreviation content io := (io_content (ur_system io)) (only parsing).

(** A transport that can take an epoch. *)
Definition transport_ready (io : transport) : Prop :=
  io_good (ur_system io) ∧ ring_alive io = true ∧ rl_ready (ur_system io).

(** A transport in trouble keeps what was before [offset] of [before]. *)
Definition transport_kept (before : list u8) (offset : N) (io : transport) : Prop :=
  io_good (ur_system io) ∧ take (N.to_nat offset) before `prefix_of` content io.

(** A transport with an epoch in flight. *)
Record transport_busy (before : list u8) (offset : N) (buffer : list u8) (io : transport) : Prop := {
  tb_good : io_good (ur_system io);
  tb_alive : ring_alive io = true;
  tb_epoch : rl_epoch (ur_system io) = Some (before, offset, buffer);
  tb_reaped : rl_reaped (ur_system io) = [];
}.

Lemma discard_keeps before offset buffer io :
  io_good (ur_system io) → rl_epoch (ur_system io) = Some (before, offset, buffer) →
  (discard_and_recreate_ring io).1 ≠ Panic ∧
  transport_kept before offset (discard_and_recreate_ring io).2.
Proof.
  intros Hgood Hep. unfold discard_and_recreate_ring, transport_kept.
  set (u := if ring_alive io then _ else _).
  assert (io_good u ∧ take (N.to_nat offset) before `prefix_of` io_content u) as [Hg Hpre].
  { unfold u. destruct (ring_alive io).
    - destruct (rl_drop (ur_system io) Hgood) as [Hg Hd]. rewrite Hep in Hd. done.
    - split; [done|]. by eapply rl_prefix. }
  pose proof (rl_create (ring_entries io) u Hg) as Hc.
  destruct (ring_create (ring_entries io) u) as [[[]|e|] u']; destruct Hc as (Hg' & Hcont & Hp & _);
    cbn [fst snd ur_system]; rewrite ?Hcont; done.
Qed.

Lemma submit_spec offset records io :
  transport_ready io → N.to_nat offset ≤ length (content io) →
  let '(r, io') := submit_contiguous_epoch offset records io in
  match r with
  | Ok p => transport_busy (content io) offset (concat records) io' ∧
      expected_writes p = [(write_user_data 0, length (concat records))] ∧ expected_cqes p = 2
  | Err _ => transport_kept (content io) offset io'
  | Panic => False
  end.
Proof.
  intros (Hg & Ha & Hr) Hoff. unfold submit_contiguous_epoch.
  destruct (u32_modulus <=? _)%N.
  { split; [done|]. by apply prefix_take. }
  unfold submit_entries. rewrite Ha.
  pose proof (rl_push (ur_system io) offset (concat records) Hg Hr Hoff) as Hp.
  destruct (ring_push _ _) as [pushed u]. destruct Hp as (Hg1 & Hc1 & Hr1 & He1).
  assert (∀ u', io_good u' → rl_epoch u' = rl_epoch u → ∀ e,
    let '(r, io') := match discard_and_recreate_ring (set_system u' io) with
      | (Err reset, io) => (Err (A := PendingIoUringEpoch) (EpochWrite, RingIo reset), io)
      | (_, io) => (Err (EpochWrite, e), io)
      end in
    match r with
    | Ok _ => False
    | Err _ => transport_kept (content io) offset io'
    | Panic => False
    end) as Hreset.
  { intros u' Hg' He' e.
    destruct (discard_keeps (content io) offset (concat records) (set_system u' io)) as [Hnp Hk].
    - done.
    - cbn. by rewrite He'.
    - by destruct (discard_and_recreate_ring _) as [[[]|e'|] io']. }
  destruct pushed.
  - pose proof (rl_submit u _ _ _ Hg1 He1 Hr1) as Hs. destruct (ring_submit u) as [r u'].
    destruct Hs as (Hg2 & Hnp & He2 & Hr2). destruct r as [[]|e|]; cbn [map_err]; [| |done].
    2: { specialize (Hreset u' Hg2 He2 (RingIo e)).
         by destruct (discard_and_recreate_ring _) as [[[]|e'|] io']. }
    split; [|done]. split; cbn; [done|done|congruence|done].
  - specialize (Hreset u Hg1 eq_refl QueueFull).
    destruct (discard_and_recreate_ring _) as [[[]|e'|] io']; done.
Qed.

Lemma reap_spec n : ∀ u before offset buffer,
  io_good u → rl_epoch u = Some (before, offset, buffer) →
  let '(cs, u') := reap n u in
  io_good u' ∧ rl_epoch u' = rl_epoch u ∧ rl_reaped u' = rl_reaped u ++ cs ∧
  Forall (λ c, u64_ok c.1) cs.
Proof.
  induction n as [|n IH]; intros u before offset buffer Hg He; cbn [reap].
  - by rewrite app_nil_r.
  - pose proof (rl_next u _ _ _ Hg He) as Hn. destruct (ring_next u) as [[c|] u'].
    + destruct Hn as (Hg' & He' & Hu & Hr).
      specialize (IH u' before offset buffer Hg' ltac:(by rewrite He')).
      destruct (reap n u') as [cs u'']. destruct IH as (Hg2 & He2 & Hr2 & Hall).
      split; [done|]. split; [congruence|]. split; [by rewrite Hr2, Hr, <- (assoc_L (++))|by constructor].
    + destruct Hn as (Hg' & He' & Hr). rewrite app_nil_r. done.
Qed.

(** The epoch is in the file when it is complete, and otherwise nothing before
    its offset has changed. *)
Lemma complete_spec before offset buffer p io :
  transport_busy before offset buffer io →
  expected_writes p = [(write_user_data 0, length buffer)] → expected_cqes p = 2 →
  let '(_, r, io') := complete_contiguous_epoch p io in
  match r with
  | Ok _ => transport_ready io' ∧ content io' = overwrite before (N.to_nat offset) buffer
  | Err _ => transport_kept before offset io'
  | Panic => False
  end.
Proof.
  intros [Hg Ha He Hr] Hw Hn. unfold complete_contiguous_epoch.
  assert (let '(m, r, io') := await_completions p io in
    io_good (ur_system io') ∧ rl_epoch (ur_system io') = rl_epoch (ur_system io) ∧ r ≠ Panic ∧
    (r = Ok tt → transport_ready io' ∧ content io' = overwrite before (N.to_nat offset) buffer)) as Hawait.
  { unfold await_completions. rewrite Ha.
    pose proof (rl_wait (ur_system io) (expected_cqes p) _ _ _ Hg He Hr) as Hwait.
    destruct (ring_wait _ _) as [[[]|e|] u]; destruct Hwait as (Hg1 & Hnp & He1 & Hr1); [|by split_and!|done].
    pose proof (reap_spec (expected_cqes p) u before offset buffer Hg1 ltac:(by rewrite He1)) as Hreap.
    destruct (reap _ u) as [cs u']. destruct Hreap as (Hg2 & He2 & Hr2 & Hall).
    rewrite Hr1 in Hr2. cbn [app] in Hr2. cbn [set_system ur_system].
    split; [done|]. split; [congruence|]. split.
    - apply validate_not_panic.
    - intros Hv. destruct (validate_sound _ _ _ Hall Hv) as (_ & Hsync & Hwr).
      destruct (Hwr 0 (write_user_data 0) (length buffer)) as [_ Hin]; [by rewrite Hw|].
      destruct (rl_done u' before offset buffer) as [Hready Hcont];
        [done|by rewrite He2, He1|by rewrite Hr2..|]. split; [|done]. by split_and!. }
  destruct (await_completions p io) as [[m r] io1]. destruct Hawait as (Hg1 & He1 & Hnp & Hok).
  destruct r as [[]|e|]; [by apply Hok| |done].
  destruct (discard_keeps before offset buffer io1 Hg1 ltac:(by rewrite He1)) as [Hnp' Hk].
  by destruct (discard_and_recreate_ring io1) as [[[]|e'|] io2].
Qed.
End transport.

(** A simulated kernel for the io_uring transport: it runs the linked write and
    synchronisation when it is waited on, in full or, as its script says, short.
    It meets the documented behaviour, so the theorems about the transport hold
    of something. *)

(** The file, the epoch last pushed with the content before it, whether it has
    still to run, the completions read and to be read, and for each epoch to
    come whether its write stops short. *)
Record SimRing := SimRing_mk {
  sim_file : ScriptedIo;
  sim_epoch : option (list u8 * N * list u8);
  sim_inflight : bool;
  sim_reaped : list (N * Z);
  sim_queue : list (N * Z);
  sim_script : list (option nat);
}.

Definition ECANCELED : Z := (-125)%Z.

(** What the kernel does with the epoch in flight: the content and the
    completions. *)
Definition sim_run (u : SimRing) (offset : N) (buffer : list u8) : list u8 * list (N * Z) :=
  let content := si_content (sim_file u) in
  let stop := match sim_script u with short :: _ => short | [] => None end in
  let bytes := match stop with Some k => take k buffer | None => buffer end in
  match std_write_at (N.to_nat offset) bytes content with
  | (Ok n, content') =>
      (content', [(write_user_data 0, Z.of_nat n);
                  (FSYNC_USER_DATA, match stop with Some _ => ECANCELED | None => 0%Z end)])
  | (_, content') => (content', [(write_user_data 0, (- Z.of_N EFBIG)%Z); (FSYNC_USER_DATA, ECANCELED)])
  end.

(** An operation on the file; the ring is idle when it is called. *)
Definition sim_on_file {A} (f : ScriptedIo → outcome io_error A * ScriptedIo) (u : SimRing) :
    outcome io_error A * SimRing :=
  let '(r, io) := f (sim_file u) in (r, SimRing_mk io None false [] [] (sim_script u)).

#[export] Instance sim_file_io : EpochFileIo SimRing := {
  persist_epoch _ _ u := (None, u);
  io_len phase := sim_on_file (io_len phase);
  io_write_at phase offset bytes := sim_on_file (io_write_at phase offset bytes);
  io_sync_data phase := sim_on_file (io_sync_data phase);
  io_set_len phase len := sim_on_file (io_set_len phase len);
  io_read_all phase := sim_on_file (io_read_all phase);
}.

#[export] Instance sim_ring : Ring SimRing := {
  ring_create _ u := (Ok tt, SimRing_mk (sim_file u) None false [] [] (sim_script u));
  ring_drop u := SimRing_mk (sim_file u) None false [] [] (sim_script u);
  ring_push entries u :=
    match entries with
    | [SqeWrite offset buffer _; SqeFsync _] =>
        (true, SimRing_mk (sim_file u) (Some (si_content (sim_file u), offset, buffer)) true [] []
                 (sim_script u))
    | _ => (false, u)
    end;
  ring_submit u := (Ok tt, u);
  ring_wait _ u :=
    match sim_epoch u, sim_inflight u with
    | Some (_, offset, buffer), true =>
        let '(content, completions) := sim_run u offset buffer in
        (Ok tt, SimRing_mk (ScriptedIo_mk content (si_rules (sim_file u))) (sim_epoch u) false
                  (sim_reaped u) completions (tail (sim_script u)))
    | _, _ => (Ok tt, u)
    end;
  ring_next u :=
    match sim_queue u with
    | [] => (None, u)
    | c :: queue =>
        (Some c, SimRing_mk (sim_file u) (sim_epoch u) (sim_inflight u) (sim_reaped u ++ [c]) queue
                   (sim_script u))
    end;
}.

(** What the simulation keeps: the bytes before the epoch, and an epoch whose
    completions are both successful. *)
Definition sim_good (u : SimRing) : Prop :=
  io_good (sim_file u) ∧
  match sim_epoch u with
  | None => True
  | Some (content, offset, buffer) =>
      N.to_nat offset ≤ length content ∧
      take (N.to_nat offset) content `prefix_of` si_content (sim_file u) ∧
      Forall (λ c, u64_ok c.1) (sim_queue u) ∧
      (sim_inflight u = true → si_content (sim_file u) = content ∧ sim_reaped u = [] ∧ sim_queue u = []) ∧
      ((write_user_data 0, Z.of_nat (length buffer)) ∈ sim_reaped u ++ sim_queue u →
       (FSYNC_USER_DATA, 0%Z) ∈ sim_reaped u ++ sim_queue u →
       si_content (sim_file u) = overwrite content (N.to_nat offset) buffer)
  end.

#[export] Program Instance sim_file_laws : EpochFileIoLaws SimRing := {
  io_content u := si_content (sim_file u);
  io_good := sim_good;
}.
Next Obligation. intros u [Hg _]. exact (il_size (sim_file u) Hg). Qed.
Next Obligation.
  intros u phase [Hg _] Hp. pose proof (il_len (sim_file u) phase Hg Hp) as Hl.
  unfold io_len at 1, sim_file_io, sim_on_file. destruct (io_len phase (sim_file u)) as [r io'].
  destruct Hl as (Hg' & Hc & Hnp & Hr). split; [by split|]. split; [exact Hc|done].
Qed.
Next Obligation.
  intros u [Hg _]. pose proof (il_read (sim_file u) Hg) as Hl.
  unfold io_read_all at 1, sim_file_io, sim_on_file. destruct (io_read_all VerifyRead (sim_file u)) as [r io'].
  destruct Hl as (Hg' & Hc & Hnp & Hr). split; [by split|]. split; [exact Hc|done].
Qed.
Next Obligation.
  intros u phase [Hg _] Hp. pose proof (il_sync (sim_file u) phase Hg Hp) as Hl.
  unfold io_sync_data at 1, sim_file_io, sim_on_file. destruct (io_sync_data phase (sim_file u)) as [r io'].
  destruct Hl as (Hg' & Hc & Hnp). split; [by split|]. split; [exact Hc|done].
Qed.
Next Obligation.
  intros u offset bytes [Hg _] Ho. pose proof (il_write (sim_file u) offset bytes Hg Ho) as Hl.
  unfold io_write_at at 1, sim_file_io, sim_on_file.
  destruct (io_write_at EpochWrite offset bytes (sim_file u)) as [r io'].
  destruct Hl as [Hg' Hr]. split; [by split|done].
Qed.
Next Obligation.
  intros u n [Hg _] Hn. pose proof (il_set_len (sim_file u) n Hg Hn) as Hl.
  unfold io_set_len at 1, sim_file_io, sim_on_file.
  destruct (io_set_len RepairTruncate n (sim_file u)) as [r io'].
  destruct Hl as [Hg' Hr]. split; [by split|done].
Qed.
Next Obligation. intros u offset records Hg Ho. by split. Qed.

Lemma sim_run_spec u content offset buffer :
  sim_good u → sim_epoch u = Some (content, offset, buffer) → sim_inflight u = true →
  let '(content', cs) := sim_run u offset buffer in
  u64_ok (N.of_nat (length content')) ∧ take (N.to_nat offset) content `prefix_of` content' ∧
  Forall (λ c, u64_ok c.1) cs ∧
  ((FSYNC_USER_DATA, 0%Z) ∈ cs → content' = overwrite content (N.to_nat offset) buffer).
Proof.
  intros ([Hrules Hsz] & Hs) He Hi. rewrite He in Hs. destruct Hs as (Hoff & _ & _ & Hin & _).
  destruct (Hin Hi) as (Hc & _ & _). unfold sim_run. rewrite Hc in Hsz |- *.
  set (stop := match sim_script u with short :: _ => short | [] => None end).
  set (bytes := match stop with Some k => take k buffer | None => buffer end).
  pose proof (std_write_overwrite (N.to_nat offset) bytes content Hoff) as Hw.
  destruct (std_write_at _ _ _) as [[n|e|] c]; [| |done].
  - destruct Hw as (-> & -> & Hu). split; [done|]. split; [apply overwrite_prefix|].
    split; [by repeat constructor|]. unfold bytes. intros Hf.
    destruct stop as [k|]; [|done]. exfalso. set_unfold in Hf. destruct Hf as [Hf|[Hf|[]]]; done.
  - subst c. split; [done|]. split; [by apply prefix_take|]. split; [by repeat constructor|].
    intros Hf. exfalso. set_unfold in Hf. destruct Hf as [Hf|[Hf|[]]]; done.
Qed.

#[export] Program Instance sim_laws : RingLaws SimRing := {
  rl_epoch := sim_epoch;
  rl_reaped := sim_reaped;
  rl_ready _ := True;
}.
Next Obligation. intros entries u [Hg _]. by split_and!. Qed.
Next Obligation.
  intros u [Hg Hs]. split; [by split|]. destruct (sim_epoch u) as [[[content offset] buffer]|]; [|done]. apply Hs.
Qed.
Next Obligation.
  intros u offset buffer [Hg _] _ Hoff. split_and!; try done. split; [exact Hg|]. split; [exact Hoff|].
  split; [by apply prefix_take|]. split; [constructor|]. split; [done|]. cbn. set_solver.
Qed.
Next Obligation. intros u content offset buffer Hg He Hr. by split_and!. Qed.
Next Obligation.
  intros u n content offset buffer Hg He Hr. cbn. rewrite He. destruct (sim_inflight u) eqn:Hi; [|done].
  pose proof (sim_run_spec u _ _ _ Hg He Hi) as Hrun. destruct (sim_run u offset buffer) as [content' cs].
  destruct Hrun as (Hu & Hpre & Hall & Hf). split_and!; try done.
  destruct Hg as ([Hrules _] & Hs). rewrite He in Hs. destruct Hs as (Hoff & _).
  split; [by split|]. cbn. split_and!; try done. rewrite Hr. cbn. auto.
Qed.
Next Obligation.
  intros u content offset buffer Hg He. cbn. destruct (sim_queue u) as [|c queue] eqn:Hq; [done|].
  destruct Hg as (Hg & Hs). rewrite He, Hq in Hs. destruct Hs as (Hoff & Hpre & Hall & Hin & Hf).
  apply Forall_cons in Hall as [Hc Hall]. split; [|done]. split; [exact Hg|]. cbn. rewrite He.
  split; [done|]. split; [done|]. split; [done|].
  split; [intros Hi; by destruct (Hin Hi) as (_ & _ & ?)|]. by rewrite <- (assoc_L (++)).
Qed.
Next Obligation. intros u content offset buffer [_ Hs] He. rewrite He in Hs. apply Hs. Qed.
Next Obligation.
  intros u content offset buffer [_ Hs] He Hw Hf. rewrite He in Hs. destruct Hs as (_ & _ & _ & _ & Hd).
  split; [done|]. apply Hd; set_solver.
Qed.
