(* ===== verification/AdmissionWorker.v ===== *)
(** The admission worker (forthdb-world/src/admission_epoch.rs, lines 30-40,
    128-235 and 660-1042): commands become epochs, epochs become durable in the
    journal, durable epochs are materialized into the published world.

    The channel the worker receives from is a list of arrivals: [Some] command,
    or [None] for a poll that finds the channel empty; past its end the senders
    are gone.  What the worker sends to tickets and barriers is a log.  Channels
    to callers are ticket numbers; a send to a caller that is gone is ignored.  The
    validators are the content of a lock at the moment the worker reads it. *)
From Stdlib Require Import NArith Lia.
From stdpp Require Import base gmap list strings option list_monad.
From S2P Require Import Prelude Ord Terms Bytes Query QueryFacts Spec Index Kernel Frames.
From S2P Require Import VmProjection Worlds Intents Epochs EpochStore StackVm VmEpochs.
From S2P Require Import IntentStream IntentCodec Journal IoUring.

Record StagedIntent := StagedIntent_mk {
  staged_intent : QueuedIntent;
  staged_ticket : N;
}.

Inductive Command :=
| CmdIntent (s : StagedIntent)
| CmdEpoch (staged : list StagedIntent)
| CmdBarrier (barrier : N).

Record EpochBatch := EpochBatch_mk {
  eb_id : N;
  eb_staged : list StagedIntent;
}.

Definition batch_intents (b : EpochBatch) : list QueuedIntent := staged_intent <$> eb_staged b.

Inductive AdmissionError :=
| SubmissionFailed (phase : EpochIoPhase) (e : ring_error)
| AdmissionRepaired (phase : EpochIoPhase) (e : ring_error)
| AdmissionRepairFailed (phase : EpochIoPhase) (e : ring_error) (repair : io_error)
| MaterializeFailed (e : MaterializeError)
| MaterializerPanicked.

(** The counters of [Metrics] that the worker moves. *)
Record WorkerMetrics := WorkerMetrics_mk {
  wm_durable_epochs : N;
  wm_applied_epochs : N;
  wm_published_worlds : N;
  wm_accepted_intents : N;
  wm_rejected_intents : N;
  wm_admitted_bytes : N;
  wm_data_writes : N;
  wm_data_syncs : N;
  wm_completion_events : N;
  wm_maximum_semantic_lag : N;
  wm_vm_materialized_epochs : N;
  wm_world_materialized_epochs : N;
}.

Definition count_transport (t : EpochPersistMetrics) (m : WorkerMetrics) : WorkerMetrics :=
  WorkerMetrics_mk (wm_durable_epochs m) (wm_applied_epochs m) (wm_published_worlds m)
    (wm_accepted_intents m) (wm_rejected_intents m) (wm_admitted_bytes m)
    (u64_add (wm_data_writes m) (pm_data_writes t)) (u64_add (wm_data_syncs m) (pm_data_syncs t))
    (u64_add (wm_completion_events m) (pm_completion_events t)) (wm_maximum_semantic_lag m)
    (wm_vm_materialized_epochs m) (wm_world_materialized_epochs m).

(** [durable_epochs += 1; admitted_bytes += ..; observe_lag()]; the lag is a
    [saturating_sub]. *)
Definition count_durable (bytes : N) (m : WorkerMetrics) : WorkerMetrics :=
  let durable := u64_add (wm_durable_epochs m) 1 in
  WorkerMetrics_mk durable (wm_applied_epochs m) (wm_published_worlds m)
    (wm_accepted_intents m) (wm_rejected_intents m) (u64_add (wm_admitted_bytes m) bytes)
    (wm_data_writes m) (wm_data_syncs m) (wm_completion_events m)
    (N.max (wm_maximum_semantic_lag m) (durable - wm_applied_epochs m))
    (wm_vm_materialized_epochs m) (wm_world_materialized_epochs m).

Definition count_materialized (used_vm : bool) (m : WorkerMetrics) : WorkerMetrics :=
  WorkerMetrics_mk (wm_durable_epochs m) (wm_applied_epochs m) (wm_published_worlds m)
    (wm_accepted_intents m) (wm_rejected_intents m) (wm_admitted_bytes m)
    (wm_data_writes m) (wm_data_syncs m) (wm_completion_events m) (wm_maximum_semantic_lag m)
    (u64_add (wm_vm_materialized_epochs m) (if used_vm then 1 else 0))
    (u64_add (wm_world_materialized_epochs m) (if used_vm then 0 else 1)).

Definition count_applied (published accepted rejected : N) (m : WorkerMetrics) : WorkerMetrics :=
  WorkerMetrics_mk (wm_durable_epochs m) (u64_add (wm_applied_epochs m) 1)
    (u64_add (wm_published_worlds m) published)
    (u64_add (wm_accepted_intents m) accepted) (u64_add (wm_rejected_intents m) rejected)
    (wm_admitted_bytes m) (wm_data_writes m) (wm_data_syncs m) (wm_completion_events m)
    (wm_maximum_semantic_lag m) (wm_vm_materialized_epochs m) (wm_world_materialized_epochs m).

Section worker.
Context {D P U : Type} `{Kernel D, MappedRoot P, MappedVocabulary P, Ring U, EpochFileIo U}.

Abbreviation Validator := (CandidateWorld D → outcome string unit) (only parsing).

(** What the worker sends. *)
Inductive Notice :=
| TicketAdmitted (ticket epoch_id : N) (position : nat)
| AdmissionFailed (ticket : N) (e : AdmissionError)
| TicketAccepted (ticket epoch_id : N) (position : nat) (world : World D P)
    (entities : gmap TempEntity EntityId)
| TicketRejected (ticket epoch_id : N) (position : nat) (e : IntentRejection)
| TicketFailed (ticket : N) (e : AdmissionError)
| BarrierReached (barrier : N).

Record WorkerState := WorkerState_mk {
  wk_io : IoUringEpochFileIo U;
  wk_file_len : N;
  wk_next_epoch : N;
  wk_receiver : list (option Command);
  wk_pending : list Command;
  wk_backlog : list EpochBatch;
  wk_barrier : option N;
  wk_disconnected : bool;
  wk_current : World D P;
  wk_materializer : EpochMaterializer (P := P);
  wk_metrics : WorkerMetrics;
  wk_log : list Notice;
}.

(** Field updates. *)
Definition wk_set_io io s := WorkerState_mk io (wk_file_len s) (wk_next_epoch s) (wk_receiver s)
  (wk_pending s) (wk_backlog s) (wk_barrier s) (wk_disconnected s) (wk_current s)
  (wk_materializer s) (wk_metrics s) (wk_log s).
Definition wk_set_file_len n s := WorkerState_mk (wk_io s) n (wk_next_epoch s) (wk_receiver s)
  (wk_pending s) (wk_backlog s) (wk_barrier s) (wk_disconnected s) (wk_current s)
  (wk_materializer s) (wk_metrics s) (wk_log s).
Definition wk_set_next_epoch n s := WorkerState_mk (wk_io s) (wk_file_len s) n (wk_receiver s)
  (wk_pending s) (wk_backlog s) (wk_barrier s) (wk_disconnected s) (wk_current s)
  (wk_materializer s) (wk_metrics s) (wk_log s).
Definition wk_set_receiver r s := WorkerState_mk (wk_io s) (wk_file_len s) (wk_next_epoch s) r
  (wk_pending s) (wk_backlog s) (wk_barrier s) (wk_disconnected s) (wk_current s)
  (wk_materializer s) (wk_metrics s) (wk_log s).
Definition wk_set_pending p s := WorkerState_mk (wk_io s) (wk_file_len s) (wk_next_epoch s)
  (wk_receiver s) p (wk_backlog s) (wk_barrier s) (wk_disconnected s) (wk_current s)
  (wk_materializer s) (wk_metrics s) (wk_log s).
Definition wk_set_backlog b s := WorkerState_mk (wk_io s) (wk_file_len s) (wk_next_epoch s)
  (wk_receiver s) (wk_pending s) b (wk_barrier s) (wk_disconnected s) (wk_current s)
  (wk_materializer s) (wk_metrics s) (wk_log s).
Definition wk_set_barrier b s := WorkerState_mk (wk_io s) (wk_file_len s) (wk_next_epoch s)
  (wk_receiver s) (wk_pending s) (wk_backlog s) b (wk_disconnected s) (wk_current s)
  (wk_materializer s) (wk_metrics s) (wk_log s).
Definition wk_set_disconnected d s := WorkerState_mk (wk_io s) (wk_file_len s) (wk_next_epoch s)
  (wk_receiver s) (wk_pending s) (wk_backlog s) (wk_barrier s) d (wk_current s)
  (wk_materializer s) (wk_metrics s) (wk_log s).
Definition wk_set_current w s := WorkerState_mk (wk_io s) (wk_file_len s) (wk_next_epoch s)
  (wk_receiver s) (wk_pending s) (wk_backlog s) (wk_barrier s) (wk_disconnected s) w
  (wk_materializer s) (wk_metrics s) (wk_log s).
Definition wk_set_materializer m s := WorkerState_mk (wk_io s) (wk_file_len s) (wk_next_epoch s)
  (wk_receiver s) (wk_pending s) (wk_backlog s) (wk_barrier s) (wk_disconnected s) (wk_current s)
  m (wk_metrics s) (wk_log s).
Definition wk_count f s := WorkerState_mk (wk_io s) (wk_file_len s) (wk_next_epoch s)
  (wk_receiver s) (wk_pending s) (wk_backlog s) (wk_barrier s) (wk_disconnected s) (wk_current s)
  (wk_materializer s) (f (wk_metrics s)) (wk_log s).
Definition wk_send n s := WorkerState_mk (wk_io s) (wk_file_len s) (wk_next_epoch s)
  (wk_receiver s) (wk_pending s) (wk_backlog s) (wk_barrier s) (wk_disconnected s) (wk_current s)
  (wk_materializer s) (wk_metrics s) (wk_log s ++ n).

(** ** Receiving *)

(** [receiver.recv()]: waits past the empty polls; [None] is a disconnection. *)
Fixpoint recv (arrivals : list (option Command)) : option Command * list (option Command) :=
  match arrivals with
  | [] => (None, [])
  | None :: arrivals => recv arrivals
  | Some c :: arrivals => (Some c, arrivals)
  end.

Inductive Polled := PollCommand (c : Command) | PollEmpty | PollDisconnected.

(** [receiver.try_recv()]. *)
Definition try_recv (arrivals : list (option Command)) : Polled * list (option Command) :=
  match arrivals with
  | [] => (PollDisconnected, [])
  | None :: arrivals => (PollEmpty, arrivals)
  | Some c :: arrivals => (PollCommand c, arrivals)
  end.

(** The match on [receiver.try_recv()] that marks a disconnection. *)
Definition poll_command (s : WorkerState) : option Command * WorkerState :=
  let '(polled, receiver) := try_recv (wk_receiver s) in
  let s := wk_set_receiver receiver s in
  match polled with
  | PollCommand c => (Some c, s)
  | PollEmpty => (None, s)
  | PollDisconnected => (None, wk_set_disconnected true s)
  end.

(** The next command of the first phase. *)
Definition next_command (s : WorkerState) : option Command * WorkerState :=
  match wk_pending s with
  | c :: pending => (Some c, wk_set_pending pending s)
  | [] =>
      match wk_backlog s with
      | [] =>
          let '(c, receiver) := recv (wk_receiver s) in
          let s := wk_set_receiver receiver s in
          (c, match c with Some _ => s | None => wk_set_disconnected true s end)
      | _ :: _ => poll_command s
      end
  end.

(** [claim_batch]: [n] is [max_batch - batch.len()]. *)
Fixpoint claim_loop (n : nat) (batch : list StagedIntent) (s : WorkerState) :
    list StagedIntent * WorkerState :=
  match n with
  | 0 => (batch, s)
  | S n =>
      let '(polled, receiver) := try_recv (wk_receiver s) in
      let s := wk_set_receiver receiver s in
      match polled with
      | PollCommand (CmdIntent intent) => claim_loop n (batch ++ [intent]) s
      | PollCommand c => (batch, wk_set_pending (wk_pending s ++ [c]) s)
      | _ => (batch, s)
      end
  end.

Definition claim_batch (first : StagedIntent) (max_batch : nat) (s : WorkerState) :
    list StagedIntent * WorkerState := claim_loop (max_batch - 1) [first] s.

(** ** Notifications *)

Definition notify_admitted (b : EpochBatch) : WorkerState → WorkerState :=
  wk_send (imap (λ position s, TicketAdmitted (staged_ticket s) (eb_id b) position) (eb_staged b)).

Definition fail_batch (b : EpochBatch) (e : AdmissionError) : WorkerState → WorkerState :=
  wk_send (s ← eb_staged b; [AdmissionFailed (staged_ticket s) e; TicketFailed (staged_ticket s) e]).

Definition fail_outcomes (b : EpochBatch) (e : AdmissionError) : WorkerState → WorkerState :=
  wk_send ((λ s, TicketFailed (staged_ticket s) e) <$> eb_staged b).

Definition fail_durable_backlog (e : AdmissionError) (s : WorkerState) : WorkerState :=
  wk_set_backlog [] (foldl (λ s b, fail_outcomes b e s) s (wk_backlog s)).

(** ** Admission *)

Record PendingAdmission := PendingAdmission_mk {
  pa_batch : EpochBatch;
  pa_start_offset : N;
  pa_record_len : nat;
  pa_pending : PendingIoUringEpoch;
}.

Definition submit_admission (b : EpochBatch) (s : WorkerState) :
    outcome (EpochBatch * AdmissionError) PendingAdmission * WorkerState :=
  let record := encode_epoch (eb_id b) (batch_intents b) in
  let '(r, io) := submit_contiguous_epoch (wk_file_len s) [record] (wk_io s) in
  let s := wk_set_io io s in
  (match r with
   | Ok p => Ok (PendingAdmission_mk b (wk_file_len s) (length record) p)
   | Err (phase, e) => Err (b, SubmissionFailed phase e)
   | Panic => Panic
   end, s).

(** [io.set_len(..).and_then(|_| io.sync_data(..))]. *)
Definition repair_admission (offset : N) (io : IoUringEpochFileIo U) :
    outcome io_error unit * IoUringEpochFileIo U :=
  match io_set_len RepairTruncate offset io with
  | (Ok _, io) => io_sync_data RepairSync io
  | r => r
  end.

Definition complete_admission (p : PendingAdmission) (s : WorkerState) :
    outcome (EpochBatch * AdmissionError) EpochBatch * WorkerState :=
  let '(transport, r, io) := complete_contiguous_epoch (pa_pending p) (wk_io s) in
  let s := wk_count (count_transport transport) (wk_set_io io s) in
  match r with
  | Err (phase, e) =>
      let '(repair, io) := repair_admission (pa_start_offset p) (wk_io s) in
      (Err (pa_batch p,
            match repair with
            | Err repair => AdmissionRepairFailed phase e repair
            | _ => AdmissionRepaired phase e
            end), wk_set_io io s)
  | Panic => (Panic, s)
  | Ok _ =>
      (Ok (pa_batch p),
       wk_count (count_durable (N.of_nat (pa_record_len p)))
         (wk_set_file_len (u64_add (wk_file_len s) (N.of_nat (pa_record_len p))) s))
  end.

(** ** Materialization *)

(** [AdmissionEpochController::register_validator], on what the lock holds. *)
Definition register_validator (validator : Validator) (validators : list Validator) : list Validator :=
  validators ++ [validator].

(** The lock through the life of a controller: it holds the validators given to
    [open], and [calls id] are the registrations that callers complete between the
    reads for epochs [id - 1] and [id]. *)
Definition live_validators (opened : list Validator) (calls : N → list Validator) (id : N) : list Validator :=
  foldl (λ vs v, register_validator v vs) opened (k ← seq 0 (S (N.to_nat id)); calls (N.of_nat k)).

Lemma live_validators_fixed opened calls id :
  (∀ id, calls id = []) → live_validators opened calls id = opened.
Proof.
  intros Hc. unfold live_validators. replace (k ← _; _) with (@nil Validator); [done|].
  induction (seq 0 _) as [|k ks IH]; [done|]. by rewrite bind_cons, Hc, <- IH.
Qed.

(** What a ticket is told, from the outcome of its intent. *)
Definition ticket_outcome (epoch_id : N) (position : nat) (s : StagedIntent) (o : EpochOutcome D P) :
    Notice :=
  match o with
  | EpochAccepted a => TicketAccepted (staged_ticket s) epoch_id position (ai_world a) (ai_entities a)
  | EpochRejected r => TicketRejected (staged_ticket s) epoch_id position (ri_error r)
  end.

Definition outcome_accepted (o : EpochOutcome D P) : bool :=
  match o with EpochAccepted _ => true | EpochRejected _ => false end.

Definition zip_outcomes (b : EpochBatch) (outcomes : list (EpochOutcome D P)) : list Notice :=
  imap (λ position so, ticket_outcome (eb_id b) position so.1 so.2) (zip (eb_staged b) outcomes).

(** [materialize]; [validators] is the shared lock, as what it holds when it is
    read for an epoch. *)
Definition worker_materialize (b : EpochBatch) (validators : N → list Validator) (s : WorkerState) :
    outcome (EpochBatch * AdmissionError) unit * WorkerState :=
  let validator_snapshot := validators (eb_id b) in
  let '(r, m) := plan_epoch (wk_current s) (batch_intents b) validator_snapshot (wk_materializer s) in
  let s := wk_set_materializer m s in
  match r with
  | Err e => (Err (b, MaterializeFailed e), s)
  | Panic => (Err (b, MaterializerPanicked), s)
  | Ok (plan, used_vm) =>
      let s := wk_count (count_materialized used_vm) s in
      let s := if plan_is_empty plan then s else wk_set_current (ep_tail plan) s in
      let served := zip (eb_staged b) (ep_outcomes plan) in
      let accepted := length (filter (λ so, outcome_accepted so.2 = true) served) in
      let s := wk_send (zip_outcomes b (ep_outcomes plan)) s in
      (Ok tt, wk_count (count_applied (if plan_is_empty plan then 0 else 1)
                 (N.of_nat accepted) (N.of_nat (length served - accepted))) s)
  end.

(** ** The loop *)

(** A stretch of the worker's body: [Some] value when it falls through, [None]
    when the worker returns. *)
Definition wk (A : Type) : Type := WorkerState → option A * WorkerState.

#[export] Instance wk_ret : MRet wk := λ A a s, (Some a, s).
#[export] Instance wk_bind : MBind wk := λ A B k m s,
  match m s with (Some a, s) => k a s | (None, s) => (None, s) end.

Definition wk_do (f : WorkerState → WorkerState) : wk unit := λ s, (Some tt, f s).
(** [return], after [f]. *)
Definition wk_return {A} (f : WorkerState → WorkerState) : wk A := λ s, (None, f s).

Variable max_batch max_unapplied_epochs : nat.
Variable validators : N → list Validator.

(** [EpochBatch { id: next_epoch, staged }; next_epoch += 1]. *)
Definition number_epoch (staged : list StagedIntent) : wk EpochBatch := λ s,
  (Some (EpochBatch_mk (wk_next_epoch s) staged),
   wk_set_next_epoch (u64_add (wk_next_epoch s) 1) s).

(** The batch of a command; a barrier is remembered. *)
Definition command_batch (c : Command) : wk (option (list StagedIntent)) := λ s,
  match c with
  | CmdBarrier completed => (Some None, wk_set_barrier (Some completed) s)
  | CmdIntent first => let '(batch, s) := claim_batch first max_batch s in (Some (Some batch), s)
  | CmdEpoch batch => (Some (Some batch), s)
  end.

(** A failed admission ends the worker; [also] is what else fails. *)
Definition admit_or_return {A} (m : WorkerState → outcome (EpochBatch * AdmissionError) A * WorkerState)
    (also : AdmissionError → WorkerState → WorkerState) : wk A := λ s,
  match m s with
  | (Ok a, s) => (Some a, s)
  | (Err (batch, e), s) => (None, fail_durable_backlog e (also e (fail_batch batch e s)))
  | (Panic, s) => (None, s)
  end.

Definition push_durable (b : EpochBatch) : wk unit :=
  wk_do (λ s, let s := notify_admitted b s in wk_set_backlog (wk_backlog s ++ [b]) s).

(** The first phase: [n] is what the backlog has room for. *)
Fixpoint fill_backlog (n : nat) : wk unit :=
  match n with
  | 0 => mret tt
  | S n => λ s,
      if decide (wk_barrier s = None ∧ wk_disconnected s = false) then
        match next_command s with
        | (None, s) => (Some tt, s)
        | (Some c, s) =>
            (staged ← command_batch c;
             match staged with
             | None => mret tt
             | Some staged =>
                 epoch ← number_epoch staged;
                 pending ← admit_or_return (submit_admission epoch) (λ _, id);
                 durable ← admit_or_return (complete_admission pending) (λ _, id);
                 _ ← push_durable durable;
                 fill_backlog n
             end) s
        end
      else (Some tt, s)
  end.

(** Submitting the successor of the epoch about to be materialized. *)
Definition submit_successor (durable : EpochBatch) : wk (option PendingAdmission) := λ s,
  if decide (wk_barrier s = None ∧ wk_disconnected s = false ∧
             length (wk_backlog s) < max_unapplied_epochs) then
    match (match wk_pending s with
           | c :: pending => (Some c, wk_set_pending pending s)
           | [] => poll_command s
           end) with
    | (None, s) => (Some None, s)
    | (Some c, s) =>
        (staged ← command_batch c;
         match staged with
         | None => mret None
         | Some staged =>
             epoch ← number_epoch staged;
             pending ← admit_or_return (submit_admission epoch) (fail_outcomes durable);
             mret (Some pending)
         end) s
    end
  else (Some None, s).

(** The materialization failed: the batch's outcomes fail, a successor in flight
    is completed first so that its buffers outlive the ring's use of them, and
    the worker returns. *)
Definition abandon {A} (b : EpochBatch) (e : AdmissionError) (successor : option PendingAdmission) : wk A :=
  wk_return (λ s,
    let s := fail_outcomes b e s in
    let s := match successor with
      | None => s
      | Some pending =>
          match complete_admission pending s with
          | (Ok batch, s) => fail_outcomes batch e (notify_admitted batch s)
          | (Err (batch, failure), s) => fail_batch batch failure s
          | (Panic, s) => s
          end
      end in
    fail_durable_backlog e s).

Definition materialize_or_return (durable : EpochBatch) (successor : option PendingAdmission) : wk unit := λ s,
  match worker_materialize durable validators s with
  | (Ok _, s) => (Some tt, s)
  | (Err (batch, e), s) => abandon batch e successor s
  | (Panic, s) => (None, s)
  end.

(** The second phase, on the front of the backlog. *)
Definition apply_durable (durable : EpochBatch) : wk unit :=
  successor ← submit_successor durable;
  _ ← materialize_or_return durable successor;
  match successor with
  | None => mret tt
  | Some pending =>
      batch ← admit_or_return (complete_admission pending) (λ _, id);
      push_durable batch
  end.

Definition fill_phase : wk unit := λ s, fill_backlog (max_unapplied_epochs - length (wk_backlog s)) s.

(** The rest of an iteration; [false] is the [break]. *)
Definition drain_phase : wk bool := λ s,
  match wk_backlog s with
  | durable :: backlog => (_ ← apply_durable durable; mret true) (wk_set_backlog backlog s)
  | [] =>
      match wk_barrier s with
      | Some completed => (Some true, wk_send [BarrierReached completed] (wk_set_barrier None s))
      | None => (Some (negb (wk_disconnected s)), s)
      end
  end.

(** One iteration of [loop]. *)
Definition worker_step : wk bool := _ ← fill_phase; drain_phase.

(** The loop; [None] is exhaustion, otherwise whether it broke out (rather than
    returned after a failure) and the final state. *)
Fixpoint run_worker (fuel : nat) (s : WorkerState) : option (bool * WorkerState) :=
  match fuel with
  | 0 => None
  | S fuel =>
      match worker_step s with
      | (Some true, s) => run_worker fuel s
      | (Some false, s) => Some (true, s)
      | (None, s) => Some (false, s)
      end
  end.
End worker.
Arguments Notice : clear implicits.
Arguments WorkerState : clear implicits.
