(* ===== verification/AdmissionPlans.v ===== *)
(** The plans of both materializers have one outcome per intent, and an empty plan
    keeps the world it was derived from. *)
From Stdlib Require Import NArith Lia.
From stdpp Require Import base gmap list strings option list_monad.
From S2P Require Import Prelude Ord Terms Bytes Query QueryFacts Spec Index Kernel Frames.
From S2P Require Import VmProjection Worlds Intents Epochs StackVm VmEpochs Journal.
From S2P Require Import EpochStore EpochStoreFacts IntentStream IntentCodec IoUring IoUringFacts AdmissionWorker.

Section plans.
Context {D P : Type} `{KernelD : Kernel D, RootP : MappedRoot P, VocP : MappedVocabulary P}.

Abbreviation Validator := (CandidateWorld D → outcome string unit) (only parsing).

(** One outcome per intent, and nothing published means nothing changed. *)
Definition plan_shape (base : World D P) (intents : list QueuedIntent) (plan : EpochPlan D P) : Prop :=
  length (ep_outcomes plan) = length intents ∧ (ep_frames plan = [] → ep_tail plan = base).

Lemma derive_epoch_world_shape base intents (vs : list Validator) plan :
  derive_epoch_world base intents vs = Some plan → plan_shape base intents plan.
Proof.
  intros Hd. unfold derive_epoch_world in Hd. apply bind_Some in Hd as ([k w] & _ & Hd).
  apply bind_Some in Hd as ([[st ops] outs] & Hl & Hd). apply workspace_loop_length in Hl.
  case_decide.
  - apply bind_Some in Hd as (os & Hm & Hd). injection Hd as <-. split; [|done].
    cbn. by rewrite <- Hl, <- (length_mapM _ _ _ Hm).
  - injection Hd as <-. split; [|done]. cbn. by rewrite length_fmap.
Qed.

Lemma derive_vm_epoch_shape (base : World D P) intents m plan m' :
  derive_vm_epoch base intents m = (Ok plan, m') → plan_shape base intents plan.
Proof.
  intros Hd. unfold derive_vm_epoch in Hd. case_decide; [done|].
  destruct (vm_loop _ _ _ intents m) as [[[ops outs]|e|] m1] eqn:Hl; [|done..].
  apply vm_loop_length in Hl. case_decide.
  - destruct (mapM only_rejected outs) as [os|] eqn:Hm; [|done]. injection Hd as <- _. split; [|done].
    cbn. by rewrite <- Hl, <- (length_mapM _ _ _ Hm).
  - destruct (from_vm_epoch _ _ _ _ _) as [world frame]. injection Hd as <- _. split; [|done].
    cbn. by rewrite length_fmap.
Qed.

Lemma plan_epoch_shape (base : World D P) intents (vs : list Validator) m plan used m' :
  plan_epoch base intents vs m = (Ok (plan, used), m') → plan_shape base intents plan.
Proof.
  intros Hp. destruct m as [|vm]; cbn [plan_epoch] in Hp.
  - injection Hp as Hp _. destruct (derive_epoch_world base intents vs) as [p|] eqn:Hd; [|done].
    injection Hp as <- _. by eapply derive_epoch_world_shape.
  - injection Hp as Hp _. unfold materialize in Hp. destruct vs as [|v vs].
    + unfold mbind, mat_bind in Hp. destruct (derive_vm_epoch base intents vm) as [[p|e|] m1] eqn:Hd; [|done..].
      injection Hp as <- _. by eapply derive_vm_epoch_shape.
    + destruct (derive_epoch_world base intents (v :: vs)) as [p|] eqn:Hd; [|done].
      unfold mbind, mat_bind in Hp. destruct (match head (ep_frames p) with _ => _ end vm) as [[[]|e|] m1]; [|done..].
      injection Hp as <- _. by eapply derive_epoch_world_shape.
Qed.

(** What the worker publishes is the tail that replay goes on from. *)
Lemma published_tail (base : World D P) intents plan :
  plan_shape base intents plan →
  (if plan_is_empty plan then base else ep_tail plan) = ep_tail plan.
Proof.
  intros [_ Ht]. unfold plan_is_empty. destruct (ep_frames plan); [symmetry; by apply Ht|done].
Qed.
End plans.

(** The invariant of the admission worker: the journal holds exactly the durable
    epochs, the published world is their replay up to the last applied one,
    commands are admitted in the order they arrive, and every receipt and outcome
    sent is accounted for. *)

(** The intents of a command, in order. *)
Definition command_staged (c : Command) : list StagedIntent :=
  match c with CmdIntent s => [s] | CmdEpoch staged => staged | CmdBarrier _ => [] end.

Definition arrivals_staged (arrivals : list (option Command)) : list StagedIntent :=
  c ← omap id arrivals; command_staged c.

Definition epochs_of (bs : list EpochBatch) : list (list QueuedIntent) := batch_intents <$> bs.

(** The receipts of a batch: ticket, epoch and position. *)
Definition receipts (b : EpochBatch) : list (N * N * nat) :=
  imap (λ position s, (staged_ticket s, eb_id b, position)) (eb_staged b).

Section live.
Context {D P : Type} `{KernelD : Kernel D, RootP : MappedRoot P, VocP : MappedVocabulary P}.

(** A replay that goes on with what the lock held when an epoch was materialized. *)
Definition live_step (validators : N → list (CandidateWorld D → outcome string unit))
    (st : World D P * EpochMaterializer (P := P)) (b : EpochBatch) :
    outcome JournalError (World D P * EpochMaterializer (P := P)) :=
  replay_step (validators (eb_id b)) st (batch_intents b).

(** With a lock that never changes it is the journal's own replay. *)
Lemma live_fold_fixed validators vs bs st : (∀ id, validators id = vs) →
  outcome_fold (live_step validators) bs st = outcome_fold (replay_step vs) (epochs_of bs) st.
Proof.
  intros Hv. revert st. induction bs as [|b bs IH]; intros st; [done|].
  cbn. unfold live_step at 1. rewrite Hv. fold (batch_intents b).
  destruct (replay_step vs st (batch_intents b)); cbn; [apply IH|done..].
Qed.
End live.

Definition not_intent (c : Command) : Prop := match c with CmdIntent _ => False | _ => True end.

Section facts.
Context {D P U : Type} `{KernelD : Kernel D, RootP : MappedRoot P, VocP : MappedVocabulary P}.
Context `{RingU : Ring U, IoU : EpochFileIo U, IoLawsU : !EpochFileIoLaws U, LawsU : !RingLaws U}.

Abbreviation Validator := (CandidateWorld D → outcome string unit) (only parsing).
Abbreviation State := (WorkerState D P U) (only parsing).
Implicit Types (s : WorkerState D P U) (b : EpochBatch).

(** What the log says of admissions, of outcomes and of failures. *)
Definition admission_of (n : Notice D P) : option (N * N * nat) :=
  match n with TicketAdmitted ticket id position => Some (ticket, id, position) | _ => None end.
Definition outcome_of (n : Notice D P) : option (N * N * nat) :=
  match n with
  | TicketAccepted ticket id position _ _ | TicketRejected ticket id position _ => Some (ticket, id, position)
  | _ => None
  end.
Definition failure_of (n : Notice D P) : option AdmissionError :=
  match n with AdmissionFailed _ e | TicketFailed _ e => Some e | _ => None end.

(** What the worker has still to serve. *)
Definition waiting s : list StagedIntent :=
  (c ← wk_pending s; command_staged c) ++ arrivals_staged (wk_receiver s).

(** Every iteration of the loop makes this smaller. *)
Definition work_left s : nat :=
  3 * (length (wk_receiver s) + length (wk_pending s)) + 2 * length (wk_backlog s) +
  match wk_barrier s with Some _ => 1 | None => 0 end.

Variable E0 : list (list QueuedIntent).
Variable start : World D P * EpochMaterializer (P := P).
Variable validators : N → list Validator.
Variable all : list StagedIntent.
Variable max_batch max_unapplied : nat.

Definition journal (bs : list EpochBatch) : list u8 := journal_file (E0 ++ epochs_of bs).

(** [applied] epochs were materialized, [unapplied] ones are durable, [flight]
    ones are numbered and not admitted yet. *)
Record core (applied unapplied flight : list EpochBatch) s : Prop := {
  co_next : wk_next_epoch s = (N.of_nat (length E0 + length (applied ++ unapplied ++ flight)) + 1)%N;
  co_replay : outcome_fold (live_step validators) applied start =
    Ok (wk_current s, wk_materializer s);
  co_order : concat (eb_staged <$> applied ++ unapplied ++ flight) ++ waiting s = all;
  co_pending : wk_pending s = [] ∨ ∃ c, wk_pending s = [c] ∧ not_intent c;
  co_disconnected : wk_disconnected s = true → wk_receiver s = [] ∧ wk_pending s = [];
  co_admitted : omap admission_of (wk_log s) = concat (receipts <$> applied ++ unapplied);
  co_served : omap outcome_of (wk_log s) = concat (receipts <$> applied);
  co_failures : omap failure_of (wk_log s) = [];
}.

(** The journal holds the epochs of [bs] and nothing else. *)
Definition disk_idle (bs : list EpochBatch) s : Prop :=
  transport_ready (wk_io s) ∧ io_content (ur_system (wk_io s)) = journal bs ∧
  wk_file_len s = N.of_nat (length (journal bs)).

(** It holds those of [bs] and the record of [b] is being written. *)
Definition disk_busy (bs : list EpochBatch) b (p : PendingAdmission) s : Prop :=
  let record := encode_epoch (eb_id b) (batch_intents b) in
  transport_busy (journal bs) (wk_file_len s) record (wk_io s) ∧
  wk_file_len s = N.of_nat (length (journal bs)) ∧
  eb_id b = (N.of_nat (length E0 + length bs) + 1)%N ∧
  pa_batch p = b ∧ pa_start_offset p = wk_file_len s ∧ pa_record_len p = length record ∧
  expected_writes (pa_pending p) = [(write_user_data 0, length record)] ∧
  expected_cqes (pa_pending p) = 2.

(** The worker has given up: the durable epochs [bs] are still at the front of
    the journal and are exactly the ones that were acknowledged. *)
Definition stopped s : Prop :=
  ∃ bs, journal bs `prefix_of` io_content (ur_system (wk_io s)) ∧
    omap admission_of (wk_log s) = concat (receipts <$> bs).

(** ** Receiving *)

Lemma waiting_pending c pending s : wk_pending s = c :: pending →
  waiting s = command_staged c ++ waiting (wk_set_pending pending s).
Proof. intros Hp. unfold waiting. cbn. by rewrite Hp, bind_cons, (assoc_L (++)). Qed.

Lemma recv_spec arrivals :
  let '(c, rest) := recv arrivals in
  arrivals_staged arrivals = (match c with Some c => command_staged c | None => [] end) ++ arrivals_staged rest ∧
  length rest + match c with Some _ => 1 | None => 0 end ≤ length arrivals ∧
  (c = None → rest = []).
Proof.
  induction arrivals as [|[c|] arrivals IH]; cbn [recv]; [done| |].
  - split; [done|]. split; [simpl; lia|done].
  - destruct (recv arrivals) as [c rest]. destruct IH as (IH1 & IH2 & IH3). split; [exact IH1|].
    split; [simpl; lia|done].
Qed.

(** A command was taken: what is left, and that nothing else changed. *)
Definition took (c : Command) s s' : Prop :=
  ∃ receiver, s' = wk_set_receiver receiver (wk_set_pending [] s) ∧
    waiting s = command_staged c ++ waiting s' ∧
    length receiver + 1 ≤ length (wk_receiver s) + length (wk_pending s) ∧
    (wk_disconnected s = false ∨ receiver = []).

(** Nothing was there. *)
Definition took_nothing s s' : Prop :=
  ∃ receiver disconnected, s' = wk_set_disconnected disconnected (wk_set_receiver receiver s) ∧
    wk_pending s = [] ∧ waiting s = waiting s' ∧ length receiver ≤ length (wk_receiver s) ∧
    (disconnected = true → receiver = []).

Lemma took_pending c pending s :
  (wk_pending s = [] ∨ ∃ c, wk_pending s = [c] ∧ not_intent c) →
  (wk_disconnected s = true → wk_receiver s = [] ∧ wk_pending s = []) →
  wk_pending s = c :: pending → took c s (wk_set_pending pending s).
Proof.
  intros Hshape Hdisc Hp. destruct Hshape as [He|(c' & He & _)]; rewrite He in Hp; [done|].
  injection Hp as -> <-. exists (wk_receiver s). split; [by destruct s|].
  split; [by apply waiting_pending|]. rewrite He. split; [simpl; lia|].
  destruct (wk_disconnected s); [|by left]. destruct Hdisc; [done|]. congruence.
Qed.

Lemma set_pending_nil s : wk_pending s = [] → wk_set_pending [] s = s.
Proof. destruct s; cbn. by intros ->. Qed.

Lemma poll_spec s :
  wk_pending s = [] → (wk_disconnected s = true → wk_receiver s = [] ∧ wk_pending s = []) →
  let '(c, s') := poll_command s in
  match c with Some c => took c s s' | None => took_nothing s s' end.
Proof.
  intros Hp Hdisc. unfold poll_command, try_recv.
  destruct (wk_receiver s) as [|[c|] rest] eqn:Hr.
  - exists [], true. split; [done|]. split; [done|]. split; [|by rewrite Hr].
    unfold waiting. cbn. by rewrite Hr.
  - exists rest. rewrite set_pending_nil by done. split; [done|].
    split; [unfold waiting; cbn; by rewrite Hr, Hp|].
    split; [rewrite Hr, Hp; simpl; lia|]. destruct (wk_disconnected s); [|by left].
    by destruct Hdisc.
  - exists rest, (wk_disconnected s). split; [by destruct s|]. split; [done|].
    split; [unfold waiting; cbn; by rewrite Hr|]. split; [rewrite Hr; simpl; lia|].
    intros Hd. by destruct Hdisc.
Qed.

Lemma next_command_spec s :
  (wk_pending s = [] ∨ ∃ c, wk_pending s = [c] ∧ not_intent c) →
  (wk_disconnected s = true → wk_receiver s = [] ∧ wk_pending s = []) →
  let '(c, s') := next_command s in
  match c with
  | Some c => took c s s'
  | None => took_nothing s s' ∧ (wk_backlog s = [] → wk_disconnected s' = true)
  end.
Proof.
  intros Hshape Hdisc. unfold next_command. destruct (wk_pending s) as [|c pending] eqn:Hp.
  - destruct (wk_backlog s) as [|b backlog].
    + pose proof (recv_spec (wk_receiver s)) as Hr. destruct (recv (wk_receiver s)) as [[c|] rest].
      * destruct Hr as (Hr1 & Hr2 & _). exists rest. rewrite set_pending_nil by done.
        split; [done|]. split; [unfold waiting; cbn; by rewrite Hr1, Hp|].
        split; [rewrite Hp; simpl; lia|]. destruct (wk_disconnected s); [right|by left].
        destruct Hdisc as [Hnil _]; [done|]. rewrite Hnil in Hr2. simpl in Hr2. lia.
      * destruct Hr as (Hr1 & Hr2 & Hr3). split; [|done]. exists rest, true.
        split; [done|]. split; [done|]. split; [unfold waiting; cbn; by rewrite Hr1, (Hr3 eq_refl)|].
        split; [lia|]. intros _. by apply Hr3.
    + pose proof (poll_spec s Hp) as Hpoll. rewrite Hp in Hpoll. specialize (Hpoll Hdisc).
      by destruct (poll_command s) as [[c|] s'].
  - rewrite <- Hp in Hdisc, Hshape. by apply took_pending.
Qed.

Lemma claim_loop_spec n : ∀ batch s, wk_pending s = [] →
  let '(batch', s') := claim_loop n batch s in
  ∃ receiver pending, s' = wk_set_receiver receiver (wk_set_pending pending s) ∧
    batch' ++ waiting s' = batch ++ waiting s ∧
    (pending = [] ∨ ∃ c, pending = [c] ∧ not_intent c) ∧
    length receiver + length pending ≤ length (wk_receiver s) ∧
    (wk_receiver s = [] → receiver = [] ∧ pending = []).
Proof.
  induction n as [|n IH]; intros batch s Hp; cbn [claim_loop].
  - exists (wk_receiver s), []. rewrite set_pending_nil by done. split; [by destruct s|].
    split; [done|]. split; [by left|]. split; [simpl; lia|done].
  - unfold try_recv. destruct (wk_receiver s) as [|[c|] rest] eqn:Hr.
    + exists [], []. rewrite set_pending_nil by done. split; [done|].
      split; [unfold waiting; cbn; by rewrite Hr|]. split; [by left|]. done.
    + assert (∀ c', c = c' → not_intent c' →
        let '(batch', s') := (batch, wk_set_pending (wk_pending (wk_set_receiver rest s) ++ [c'])
          (wk_set_receiver rest s)) in
        ∃ receiver pending, s' = wk_set_receiver receiver (wk_set_pending pending s) ∧
          batch' ++ waiting s' = batch ++ waiting s ∧
          (pending = [] ∨ ∃ c, pending = [c] ∧ not_intent c) ∧
          length receiver + length pending ≤ length (Some c :: rest) ∧
          (Some c :: rest = [] → receiver = [] ∧ pending = [])) as Hother.
      { intros c' <- Hn. exists rest, [c]. cbn. rewrite Hp. split; [done|].
        split; [f_equal; unfold waiting; cbn; rewrite Hr, Hp; cbn; by rewrite app_nil_r|].
        split; [right; by eexists|]. split; [simpl; lia|done]. }
      destruct c as [i|staged|bar]; [|by apply Hother..].
      specialize (IH (batch ++ [i]) (wk_set_receiver rest s) Hp).
      destruct (claim_loop n _ _) as [batch' s'].
      destruct IH as (receiver & pending & -> & Heq & Hs & Hl & _). exists receiver, pending.
      split; [by destruct s|]. split.
      { rewrite Heq, <- (assoc_L (++)). f_equal. unfold waiting. cbn. by rewrite Hr, Hp. }
      split; [done|]. split; [cbn in Hl; simpl; lia|done].
    + exists rest, []. rewrite set_pending_nil by done. split; [done|].
      split; [unfold waiting; cbn; by rewrite Hr|]. split; [by left|]. split; [simpl; lia|done].
Qed.

(** ** From a command to an epoch *)

(** Nothing but the commands was touched. *)
Record kept s s' : Prop := {
  kp_io : wk_io s' = wk_io s;
  kp_file_len : wk_file_len s' = wk_file_len s;
  kp_backlog : wk_backlog s' = wk_backlog s;
}.

Lemma disk_idle_kept bs s s' : kept s s' → disk_idle bs s → disk_idle bs s'.
Proof. unfold disk_idle. by intros [-> -> _]. Qed.

Lemma journal_room bs s : disk_idle bs s →
  (N.of_nat (length E0 + length bs) + 2 < u64_modulus)%N.
Proof.
  intros ((Hg & _ & _) & Hc & _). pose proof (il_size (ur_system (wk_io s)) Hg) as Hu.
  rewrite Hc in Hu. unfold journal, journal_file in Hu.
  pose proof (journal_records_length 1 (E0 ++ epochs_of bs)) as Hl. unfold u64_ok in Hu.
  rewrite length_app in Hu, Hl. change (length journal_header) with 16 in Hu.
  assert (length (epochs_of bs) = length bs) as Hb by apply length_fmap. lia.
Qed.

(** The commands of a state in which nothing is in flight, after [c] was taken. *)
Definition claim_epoch (c : Command) : wk (D := D) (P := P) (U := U) (option EpochBatch) :=
  staged ← command_batch max_batch c;
  match staged with
  | None => mret None
  | Some staged => b ← number_epoch staged; mret (Some b)
  end.

(** What claiming an epoch from [s] comes to. *)
Definition claimed applied unapplied s (r : option (option EpochBatch) * State) : Prop :=
  kept s r.2 ∧
  match r.1 with
  | Some (Some b) => core applied unapplied [b] r.2 ∧
      eb_id b = (N.of_nat (length E0 + length (applied ++ unapplied)) + 1)%N ∧
      wk_barrier r.2 = None ∧ work_left r.2 + 3 ≤ work_left s
  | Some None => core applied unapplied [] r.2 ∧ work_left r.2 + 2 ≤ work_left s ∧
      wk_barrier r.2 ≠ None
  | None => False
  end.

Lemma claim_epoch_spec applied unapplied c s s1 :
  core applied unapplied [] s → disk_idle (applied ++ unapplied) s → took c s s1 →
  wk_barrier s = None → claimed applied unapplied s (claim_epoch c s1).
Proof.
  intros Hc Hdisk (receiver & -> & Hwait & Hlen & Hdisc) Hbar.
  pose proof (journal_room _ _ Hdisk) as Hroom.
  destruct Hc as [Hnext Hrep Hord Hpend Hd Hadm Hserved Hfail].
  rewrite !app_nil_r in Hnext, Hord. unfold claim_epoch, mbind, wk_bind.
  set (s1 := wk_set_receiver receiver (wk_set_pending [] s)) in *.
  assert (∀ staged receiver' pending,
    staged ++ waiting (wk_set_receiver receiver' (wk_set_pending pending s1)) =
      command_staged c ++ waiting s1 →
    (pending = [] ∨ ∃ c, pending = [c] ∧ not_intent c) →
    length receiver' + length pending ≤ length receiver →
    (receiver = [] → receiver' = [] ∧ pending = []) →
    claimed applied unapplied s ((b ← number_epoch staged; mret (Some b))
      (wk_set_receiver receiver' (wk_set_pending pending s1)))) as Hnumber.
  { intros staged receiver' pending Heq Hshape Hl Hnil. unfold mbind, wk_bind, number_epoch, mret, wk_ret.
    cbn [wk_next_epoch wk_set_receiver wk_set_pending s1]. split; [done|]. cbn [fst snd].
    split; [|split; [done|split; [done|]]].
    - split; cbn; try done.
      + rewrite Hnext. unfold u64_add. rewrite u64_wrap_small by (unfold u64_ok; lia).
        rewrite !length_app. simpl. lia.
      + rewrite (assoc_L (++) applied), (fmap_app _ (applied ++ unapplied)), concat_app, <- Hord.
        rewrite <- (assoc_L (++) (concat _)). f_equal. rewrite Hwait, <- Heq.
        change (concat (eb_staged <$> [_])) with (staged ++ []). by rewrite app_nil_r.
      + intros Hdd. destruct Hdisc as [Hx|Hx]; [congruence|by apply Hnil].
    - unfold work_left. cbn. rewrite Hbar. lia. }
  destruct c as [i|staged|bar]; cbn [command_batch].
  - unfold claim_batch. pose proof (claim_loop_spec (max_batch - 1) [i] s1 eq_refl) as Hclaim.
    destruct (claim_loop _ _ _) as [batch' s2].
    destruct Hclaim as (receiver' & pending & -> & Heq & Hshape & Hl & Hnil).
    exact (Hnumber batch' receiver' pending Heq Hshape Hl Hnil).
  - specialize (Hnumber staged receiver []).
    change (wk_set_receiver receiver (wk_set_pending [] s1)) with s1 in Hnumber.
    exact (Hnumber eq_refl ltac:(by left) ltac:(simpl; lia) ltac:(done)).
  - split; [done|]. cbn [fst snd mret wk_ret]. split; [|split; [|done]].
    + split; cbn; try done.
      * by rewrite !app_nil_r.
      * rewrite !app_nil_r. by rewrite <- Hord, Hwait.
      * by left.
      * intros Hdd. destruct Hdisc as [Hx|Hx]; [congruence|done].
    + unfold work_left. cbn. rewrite Hbar. lia.
Qed.

(** ** Notices *)

Lemma omap_none {A B} (f : A → option B) (l : list A) : Forall (λ x, f x = None) l → omap f l = [].
Proof. induction 1 as [|x l Hx _ IH]; [done|]. cbn. by rewrite Hx. Qed.

Lemma omap_some {A B} (f : A → option B) (g : A → B) (l : list A) :
  Forall (λ x, f x = Some (g x)) l → omap f l = g <$> l.
Proof. induction 1 as [|x l Hx _ IH]; [done|]. cbn. rewrite Hx. f_equal. exact IH. Qed.

Lemma omap_imap {A B C} (f : B → option C) (g : nat → A → B) (h : nat → A → C) (l : list A) :
  (∀ i x, f (g i x) = Some (h i x)) → omap f (imap g l) = imap h l.
Proof.
  revert g h. induction l as [|x l IH]; intros g h Hf; [done|].
  cbn. rewrite Hf. f_equal. apply IH. intros i y. apply (Hf (S i)).
Qed.

Lemma omap_imap_none {A B C} (f : B → option C) (g : nat → A → B) (l : list A) :
  (∀ i x, f (g i x) = None) → omap f (imap g l) = [].
Proof.
  revert g. induction l as [|x l IH]; intros g Hf; [done|]. cbn. rewrite Hf. apply IH. intros i y. apply (Hf (S i)).
Qed.

(** The failures of a batch are no admissions. *)
Lemma fail_batch_admitted b e s : omap admission_of (wk_log (fail_batch b e s)) = omap admission_of (wk_log s).
Proof.
  unfold fail_batch. cbn. rewrite omap_app. rewrite (omap_none admission_of (_ ≫= _)), app_nil_r; [done|].
  apply Forall_bind, Forall_true. intros x. by repeat constructor.
Qed.

Lemma fail_outcomes_admitted b e s :
  omap admission_of (wk_log (fail_outcomes b e s)) = omap admission_of (wk_log s).
Proof.
  unfold fail_outcomes. cbn. rewrite omap_app. rewrite (omap_none admission_of (_ <$> _)), app_nil_r; [done|].
  apply Forall_fmap, Forall_true. done.
Qed.

Lemma fail_backlog_log e s :
  omap admission_of (wk_log (fail_durable_backlog e s)) = omap admission_of (wk_log s) ∧
  wk_io (fail_durable_backlog e s) = wk_io s.
Proof.
  unfold fail_durable_backlog. cbn. generalize (wk_backlog s) as bs. intros bs. revert s.
  induction bs as [|b bs IH]; intros s; [done|]. cbn [foldl].
  destruct (IH (fail_outcomes b e s)) as [-> ->]. split; [apply fail_outcomes_admitted|done].
Qed.

Lemma notify_log b s :
  omap admission_of (wk_log (notify_admitted b s)) = omap admission_of (wk_log s) ++ receipts b ∧
  omap outcome_of (wk_log (notify_admitted b s)) = omap outcome_of (wk_log s) ∧
  omap failure_of (wk_log (notify_admitted b s)) = omap failure_of (wk_log s).
Proof.
  unfold notify_admitted. cbn. rewrite !omap_app. split_and!.
  - f_equal. by apply omap_imap.
  - rewrite (omap_imap_none outcome_of), app_nil_r; done.
  - rewrite (omap_imap_none failure_of), app_nil_r; done.
Qed.

Lemma imap_zip {A B C} (f : nat → A → C) (l : list A) (k : list B) : length k = length l →
  imap (λ i ab, f i ab.1) (zip l k) = imap f l.
Proof.
  revert f k. induction l as [|x l IH]; intros f [|y k] Hl; try done. cbn. f_equal.
  apply (IH (λ i, f (S i))). by injection Hl.
Qed.

Lemma zip_outcomes_log b (os : list (EpochOutcome D P)) : length os = length (eb_staged b) →
  omap admission_of (zip_outcomes b os) = [] ∧ omap outcome_of (zip_outcomes b os) = receipts b ∧
  omap failure_of (zip_outcomes b os) = [].
Proof.
  intros Hl. unfold zip_outcomes. split_and!.
  - apply omap_imap_none. by intros i [x []].
  - rewrite (omap_imap outcome_of _ (λ i so, (staged_ticket so.1, eb_id b, i))) by (by intros i [x []]).
    by apply (imap_zip (λ i (x : StagedIntent), (staged_ticket x, eb_id b, i))).
  - apply omap_imap_none. by intros i [x []].
Qed.
End facts.
