(* ===== verification/AdmissionRun.v ===== *)
(** The admission worker's steps keep its invariant, and its loop ends. *)
From Stdlib Require Import NArith Lia.
From stdpp Require Import base gmap list strings option list_monad.
From S2P Require Import Prelude Ord Terms Bytes Query QueryFacts Spec Index Kernel Frames.
From S2P Require Import VmProjection Worlds Intents Epochs EpochStore EpochStoreFacts StackVm VmEpochs.
From S2P Require Import IntentStream IntentCodec Journal IoUring IoUringFacts.
From S2P Require Import AdmissionWorker AdmissionPlans.

Section run.
Context {D P U : Type} `{KernelD : Kernel D, RootP : MappedRoot P, VocP : MappedVocabulary P}.
Context `{RingU : Ring U, IoU : EpochFileIo U, IoLawsU : !EpochFileIoLaws U, LawsU : !RingLaws U}.

Abbreviation Validator := (CandidateWorld D → outcome string unit) (only parsing).
Implicit Types (s : WorkerState D P U) (b : EpochBatch).

Variable E0 : list (list QueuedIntent).
Variable start : World D P * EpochMaterializer (P := P).
Variable validators : N → list Validator.
Variable all : list StagedIntent.
Variable max_batch max_unapplied : nat.

Abbreviation core := (core E0 start validators all).
Abbreviation disk_idle := (disk_idle E0).
Abbreviation disk_busy := (disk_busy E0).
Abbreviation journal := (journal E0).
Abbreviation stopped := (stopped E0).
Abbreviation content s := (io_content (ur_system (wk_io s))).

(** Nothing but the transport, the file length and the counters differs. *)
Record same_rest s s' : Prop := {
  sr_next : wk_next_epoch s' = wk_next_epoch s;
  sr_receiver : wk_receiver s' = wk_receiver s;
  sr_pending : wk_pending s' = wk_pending s;
  sr_backlog : wk_backlog s' = wk_backlog s;
  sr_barrier : wk_barrier s' = wk_barrier s;
  sr_disconnected : wk_disconnected s' = wk_disconnected s;
  sr_current : wk_current s' = wk_current s;
  sr_materializer : wk_materializer s' = wk_materializer s;
  sr_log : wk_log s' = wk_log s;
}.

Lemma core_same applied unapplied flight s s' :
  same_rest s s' → core applied unapplied flight s → core applied unapplied flight s'.
Proof.
  intros [] []. destruct s, s'. cbn in *. subst. by split.
Qed.

Lemma work_left_same s s' : same_rest s s' → work_left s' = work_left s.
Proof. intros []. destruct s, s'. cbn in *. by subst. Qed.

Lemma journal_snoc bs b : eb_id b = (N.of_nat (length E0 + length bs) + 1)%N →
  journal (bs ++ [b]) = journal bs ++ encode_epoch (eb_id b) (batch_intents b).
Proof.
  intros Hid. unfold AdmissionPlans.journal, epochs_of. rewrite fmap_app, (assoc_L (++)).
  change (batch_intents <$> [b]) with [batch_intents b].
  rewrite journal_file_snoc, Hid. do 3 f_equal. rewrite length_app, length_fmap. done.
Qed.

Lemma stopped_prefix bs s :
  journal bs `prefix_of` content s → omap admission_of (wk_log s) = concat (receipts <$> bs) → stopped s.
Proof. intros H1 H2. by exists bs. Qed.

(** ** Admission *)

Lemma submit_admission_spec bs b s :
  disk_idle bs s → eb_id b = (N.of_nat (length E0 + length bs) + 1)%N →
  match submit_admission b s with
  | (Ok p, s') => disk_busy bs b p s' ∧ same_rest s s'
  | (Err (b', _), s') => b' = b ∧ journal bs `prefix_of` content s' ∧ same_rest s s'
  | (Panic, _) => False
  end.
Proof.
  intros (Hready & Hcont & Hlen) Hid. unfold submit_admission.
  set (record := encode_epoch _ _).
  pose proof (submit_spec (wk_file_len s) [record] (wk_io s) Hready) as Hsub.
  rewrite Hcont, Hlen, Nat2N.id in Hsub. specialize (Hsub (le_n _)). rewrite <- Hlen in Hsub.
  destruct (submit_contiguous_epoch _ _ _) as [[p|[phase e]|] io]; [| |done].
  - destruct Hsub as (Hbusy & Hw & Hn). cbn [concat] in Hbusy, Hw. rewrite app_nil_r in Hbusy, Hw.
    split; [|done]. split; [exact Hbusy|]. by split_and!.
  - destruct Hsub as [_ Hpre]. rewrite Hlen, Nat2N.id, firstn_all in Hpre. done.
Qed.

Lemma complete_admission_spec bs b p s :
  disk_busy bs b p s →
  match complete_admission p s with
  | (Ok b', s') => b' = b ∧ disk_idle (bs ++ [b]) s' ∧ same_rest s s'
  | (Err (b', _), s') => b' = b ∧ journal bs `prefix_of` content s' ∧ same_rest s s'
  | (Panic, _) => False
  end.
Proof.
  intros (Hbusy & Hlen & Hid & Hb & Hoff & Hrec & Hw & Hn). unfold complete_admission.
  pose proof (complete_spec _ _ _ _ _ Hbusy Hw Hn) as Hc.
  destruct (complete_contiguous_epoch _ _) as [[t r] io]. destruct r as [[]|[phase e]|]; [| |done].
  - destruct Hc as [Hready Hcont]. split; [done|]. split; [|done].
    rewrite Hlen, Nat2N.id, overwrite_end in Hcont. rewrite <- journal_snoc in Hcont by done.
    split; [exact Hready|]. split; [exact Hcont|]. cbn [wk_file_len wk_count wk_set_file_len wk_set_io]. rewrite Hlen, Hrec.
    destruct Hready as (Hg & _ & _). pose proof (il_size _ Hg) as Hu. rewrite Hcont in Hu.
    rewrite journal_snoc, length_app in Hu |- * by done. rewrite u64_add_small; [lia|].
    unfold u64_ok in *. lia.
  - destruct Hc as [Hg Hpre]. rewrite Hlen, Nat2N.id, firstn_all in Hpre.
    cbn [wk_io wk_count wk_set_io]. rewrite Hoff, Hlen.
    unfold repair_admission, io_set_len, io_sync_data. cbn [uring_io]. unfold on_file.
    pose proof (il_set_len (ur_system io) (N.of_nat (length (journal bs))) Hg) as Hset.
    rewrite Nat2N.id in Hset. specialize (Hset (prefix_length _ _ Hpre)).
    assert (take (length (journal bs)) (io_content (ur_system io)) = journal bs) as Htake
      by (destruct Hpre as [k ->]; apply take_app_length).
    rewrite Htake in Hset.
    destruct (io_set_len RepairTruncate _ (ur_system io)) as [[[]|e'|] u]; destruct Hset as [Hg' Hc'];
      [| |done].
    + pose proof (il_sync u RepairSync Hg' ltac:(by right)) as Hsync. cbn [set_system ur_system].
      destruct (io_sync_data RepairSync u) as [[[]|e'|] u']; destruct Hsync as (_ & Hc'' & _);
        (split; [done|]; split; [|done]); cbn; by rewrite Hc'', Hc'.
    + split; [done|]. split; [exact Hc'|done].
Qed.

(** An admitted batch joins the backlog. *)
Lemma notify_core applied unapplied b s :
  core applied unapplied [b] s → core applied (unapplied ++ [b]) [] (notify_admitted b s).
Proof.
  intros []. destruct (notify_log b s) as (Ha & Hs & Hf).
  split; rewrite ?Ha, ?Hs, ?Hf; unfold waiting in *; cbn; rewrite ?app_nil_r; try done.
  rewrite co_admitted, (assoc_L (++) applied), (fmap_app _ (applied ++ unapplied)), concat_app. f_equal.
  change (concat (receipts <$> [b])) with (receipts b ++ []). by rewrite app_nil_r.
Qed.

(** ** Materialization *)

Lemma worker_materialize_spec applied b unapplied flight s :
  core applied (b :: unapplied) flight s →
  wk_io (worker_materialize b validators s).2 = wk_io s ∧
  wk_file_len (worker_materialize b validators s).2 = wk_file_len s ∧
  wk_backlog (worker_materialize b validators s).2 = wk_backlog s ∧
  wk_barrier (worker_materialize b validators s).2 = wk_barrier s ∧
  work_left (worker_materialize b validators s).2 = work_left s ∧
  match worker_materialize b validators s with
  | (Ok _, s') => core (applied ++ [b]) unapplied flight s'
  | (Err (b', _), s') => b' = b ∧ wk_log s' = wk_log s
  | (Panic, _) => False
  end.
Proof.
  intros []. unfold worker_materialize.
  destruct (plan_epoch (wk_current s) (batch_intents b) (validators (eb_id b)) (wk_materializer s)) as [r m] eqn:Hp.
  destruct r as [[plan used]|e|]; [|by split_and!..].
  pose proof (plan_epoch_shape _ _ _ _ _ _ _ Hp) as Hshape.
  pose proof (published_tail _ _ _ Hshape) as Htail. destruct Hshape as [Hlen _].
  set (s1 := wk_count (count_materialized used) (wk_set_materializer m s)).
  assert (wk_set_current (ep_tail plan) s1 =
    (if plan_is_empty plan then s1 else wk_set_current (ep_tail plan) s1)) as <-.
  { destruct (plan_is_empty plan); [|done]. by rewrite <- Htail. }
  destruct (zip_outcomes_log b (ep_outcomes plan)) as (Ha & Hs & Hf).
  { rewrite Hlen. apply length_fmap. }
  split_and!; try done. split; cbn; try done.
  - rewrite <- (assoc_L (++)). done.
  - rewrite outcome_fold_app, co_replay. cbn [outcome_bind outcome_fold].
    unfold live_step, replay_step. cbn [fst snd]. by rewrite Hp.
  - rewrite <- (assoc_L (++)). done.
  - rewrite omap_app, Ha, app_nil_r, co_admitted, <- (assoc_L (++)). done.
  - rewrite omap_app, Hs, co_served, fmap_app, concat_app. f_equal. cbn. by rewrite app_nil_r.
  - by rewrite omap_app, Hf, co_failures.
Qed.

(** ** The phases *)

(** Between two steps: the backlog is what is durable and not applied. *)
Definition settled applied s : Prop :=
  core applied (wk_backlog s) [] s ∧ disk_idle (applied ++ wk_backlog s) s.

Lemma settled_stopped applied s : settled applied s → stopped s.
Proof.
  intros [Hc (_ & Hd & _)]. eapply stopped_prefix; [by rewrite Hd|]. apply Hc.
Qed.

(** A failed admission leaves a worker that has stopped. *)
Lemma failed_stopped bs b e (also : AdmissionError → WorkerState D P U → WorkerState D P U) s :
  (∀ e s, omap admission_of (wk_log (also e s)) = omap admission_of (wk_log s) ∧ wk_io (also e s) = wk_io s) →
  journal bs `prefix_of` content s → omap admission_of (wk_log s) = concat (receipts <$> bs) →
  stopped (fail_durable_backlog e (also e (fail_batch b e s))).
Proof.
  intros Halso Hpre Hlog. destruct (fail_backlog_log e (also e (fail_batch b e s))) as [Hl Hio].
  destruct (Halso e (fail_batch b e s)) as [Hl' Hio'].
  eapply stopped_prefix; [by rewrite Hio, Hio'|]. by rewrite Hl, Hl', fail_batch_admitted.
Qed.

Lemma also_id (e : AdmissionError) s :
  omap admission_of (wk_log (id s)) = omap admission_of (wk_log s) ∧ wk_io (id s) = wk_io s.
Proof. done. Qed.

Lemma also_outcomes b (e : AdmissionError) s :
  omap admission_of (wk_log (fail_outcomes b e s)) = omap admission_of (wk_log s) ∧
  wk_io (fail_outcomes b e s) = wk_io s.
Proof. split; [apply fail_outcomes_admitted|done]. Qed.

(** Submitting the epoch just numbered, [also] failing with it. *)
Lemma admit_submit bs applied unapplied b also s :
  (∀ e s, omap admission_of (wk_log (also e s)) = omap admission_of (wk_log s) ∧ wk_io (also e s) = wk_io s) →
  bs = applied ++ unapplied → core applied unapplied [b] s → disk_idle bs s →
  eb_id b = (N.of_nat (length E0 + length bs) + 1)%N →
  match admit_or_return (submit_admission b) also s with
  | (Some p, s') => disk_busy bs b p s' ∧ core applied unapplied [b] s' ∧ same_rest s s'
  | (None, s') => stopped s'
  end.
Proof.
  intros Halso -> Hc Hd Hid. unfold admit_or_return.
  pose proof (submit_admission_spec _ _ _ Hd Hid) as Hs.
  destruct (submit_admission b s) as [[p|[b' e]|] s']; [| |done].
  - destruct Hs as [Hbusy Hrest]. split; [done|]. split; [by eapply core_same|done].
  - destruct Hs as (-> & Hpre & Hrest). apply (failed_stopped (applied ++ unapplied) b e also); [done..|].
    rewrite (sr_log _ _ Hrest). apply Hc.
Qed.

Lemma admit_complete bs applied unapplied b p s :
  bs = applied ++ unapplied → core applied unapplied [b] s → disk_busy bs b p s →
  match admit_or_return (complete_admission p) (λ _, id) s with
  | (Some b', s') => b' = b ∧ disk_idle (bs ++ [b]) s' ∧ core applied unapplied [b] s' ∧ same_rest s s'
  | (None, s') => stopped s'
  end.
Proof.
  intros -> Hc Hd. unfold admit_or_return. pose proof (complete_admission_spec _ _ _ _ Hd) as Hs.
  destruct (complete_admission p s) as [[b'|[b' e]|] s']; [| |done].
  - destruct Hs as (-> & Hidle & Hrest). split; [done|]. split; [done|]. split; [by eapply core_same|done].
  - destruct Hs as (-> & Hpre & Hrest). apply (failed_stopped (applied ++ unapplied) b e (λ _, id)); [apply also_id|done|].
    rewrite (sr_log _ _ Hrest). apply Hc.
Qed.

(** The first phase. *)
Definition filled applied s0 n (r : option unit * WorkerState D P U) : Prop :=
  match r with
  | (Some _, s) => settled applied s ∧ work_left s ≤ work_left s0 ∧
      (0 < n ∨ wk_backlog s0 ≠ [] → wk_backlog s = [] → wk_barrier s ≠ None ∨ wk_disconnected s = true)
  | (None, s) => stopped s
  end.

Lemma fill_backlog_spec applied n : ∀ s, settled applied s →
  filled applied s n (fill_backlog max_batch n s).
Proof.
  induction n as [|n IH]; intros s Hs; cbn [fill_backlog]; [by split_and!; [done|done|intros [?|?] ?; [lia|done]]|].
  destruct (decide (wk_barrier s = None ∧ wk_disconnected s = false)) as [[Hbar Hdis]|Hno].
  2: { split; [done|]. split; [done|]. intros _ _. destruct (wk_barrier s); [by left|].
       right. destruct (wk_disconnected s); [done|]. by destruct Hno. }
  destruct Hs as [Hc Hd].
  pose proof (next_command_spec s (co_pending _ _ _ _ _ _ _ _ Hc) (co_disconnected _ _ _ _ _ _ _ _ Hc)) as Hnext.
  destruct (next_command s) as [[c|] s1].
  - pose proof (claim_epoch_spec _ _ _ _ max_batch _ _ c s s1 Hc Hd Hnext Hbar) as Hclaim.
    unfold claim_epoch, mbind, wk_bind in Hclaim |- *.
    destruct (command_batch max_batch c s1) as [[[staged|]|] s2]; [| |by destruct Hclaim].
    2: { unfold mret, wk_ret in Hclaim |- *. destruct Hclaim as ([Hio Hlen Hback] & Hc2 & Hw & Hb).
         cbn [fst snd] in *. split; [split; [by rewrite Hback|]|].
         - rewrite Hback. unfold AdmissionPlans.disk_idle. by rewrite Hio, Hlen.
         - split; [lia|]. intros _ _. by left. }
    destruct (number_epoch staged s2) as [[b|] s3]; [|by destruct Hclaim].
    unfold mret, wk_ret in Hclaim. destruct Hclaim as (Hkept & Hc3 & Hid & Hb3 & Hw3). cbn [fst snd] in *.
    pose proof (disk_idle_kept _ _ _ _ Hkept Hd) as Hd3.
    pose proof (admit_submit _ _ _ b (λ _, id) s3 also_id eq_refl Hc3 Hd3 Hid) as Hsub.
    destruct (admit_or_return (submit_admission b) _ s3) as [[p|] s4]; [|exact Hsub].
    destruct Hsub as (Hbusy & Hc4 & Hr4).
    pose proof (admit_complete _ _ _ b p s4 eq_refl Hc4 Hbusy) as Hcom.
    destruct (admit_or_return (complete_admission p) _ s4) as [[b'|] s5]; [|exact Hcom].
    destruct Hcom as (-> & Hd5 & Hc5 & Hr5). unfold push_durable, wk_do. cbn [fst snd].
    set (s6 := wk_set_backlog _ _).
    assert (wk_backlog s6 = wk_backlog s ++ [b]) as Hback.
    { cbn. by rewrite (sr_backlog _ _ Hr5), (sr_backlog _ _ Hr4), (kp_backlog _ _ Hkept). }
    assert (settled applied s6) as Hs6.
    { split; rewrite Hback.
      - pose proof (notify_core _ _ _ _ Hc5) as []. by split.
      - rewrite (assoc_L (++)). exact Hd5. }
    assert (work_left s6 + 1 ≤ work_left s) as Hw6.
    { rewrite <- (work_left_same _ _ Hr4), <- (work_left_same _ _ Hr5) in Hw3.
      unfold work_left in *. rewrite Hback. cbn.
      rewrite (sr_backlog _ _ Hr5), (sr_backlog _ _ Hr4), (kp_backlog _ _ Hkept) in Hw3.
      rewrite length_app. simpl. lia. }
    specialize (IH s6 Hs6). destruct (fill_backlog max_batch n s6) as [[[]|] s7]; [|exact IH].
    destruct IH as (Hs7 & Hw7 & Hp7). split; [done|]. split; [lia|]. intros _. apply Hp7. right.
    rewrite Hback. by destruct (wk_backlog s).
  - destruct Hnext as [(receiver & disconnected & -> & Hp & Hwait & Hlen & Hdisc) Hprog]. split; [|split].
    + split; [|exact Hd]. destruct Hc. split; cbn; try done.
      * rewrite <- co_order, Hwait. done.
      * intros Hdd. split; [by apply Hdisc|done].
    + unfold work_left. cbn. lia.
    + intros _ Hnil. right. by apply Hprog.
Qed.

(** The second phase: [durable] has left the backlog and is not applied yet. *)
Definition popped applied durable s : Prop :=
  core applied (durable :: wk_backlog s) [] s ∧ disk_idle (applied ++ durable :: wk_backlog s) s.

Lemma submit_successor_spec applied durable s :
  popped applied durable s →
  match submit_successor max_batch max_unapplied durable s with
  | (Some None, s') => popped applied durable s' ∧ work_left s' ≤ work_left s
  | (Some (Some p), s') => ∃ b, core applied (durable :: wk_backlog s') [b] s' ∧
      disk_busy (applied ++ durable :: wk_backlog s') b p s' ∧ work_left s' + 3 ≤ work_left s
  | (None, s') => stopped s'
  end.
Proof.
  intros [Hc Hd]. unfold submit_successor. case_decide as Hroom; [|done].
  destruct Hroom as (Hbar & Hdis & _).
  set (r := match wk_pending s with [] => _ | _ => _ end).
  assert (match r with (Some c, s1) => took c s s1 | (None, s1) => took_nothing s s1 end) as Hr.
  { unfold r. destruct (wk_pending s) as [|c pending] eqn:Hp.
    - pose proof (poll_spec s Hp (co_disconnected _ _ _ _ _ _ _ _ Hc)) as Hpoll.
      by destruct (poll_command s) as [[c|] s1].
    - apply took_pending; [apply Hc..|done]. }
  destruct r as [[c|] s1].
  - pose proof (claim_epoch_spec _ _ _ _ max_batch _ _ c s s1 Hc Hd Hr Hbar) as Hclaim.
    unfold claim_epoch, mbind, wk_bind in Hclaim |- *.
    destruct (command_batch max_batch c s1) as [[[staged|]|] s2]; [| |by destruct Hclaim].
    2: { unfold mret, wk_ret in Hclaim |- *. destruct Hclaim as (Hkept & Hc2 & Hw & _).
         cbn [fst snd] in *. pose proof (disk_idle_kept _ _ _ _ Hkept Hd) as Hd2.
         rewrite <- (kp_backlog _ _ Hkept) in Hc2, Hd2. split; [by split|lia]. }
    destruct (number_epoch staged s2) as [[b|] s3]; [|by destruct Hclaim].
    unfold mret, wk_ret in Hclaim. destruct Hclaim as (Hkept & Hc3 & Hid & Hb3 & Hw3). cbn [fst snd] in *.
    pose proof (disk_idle_kept _ _ _ _ Hkept Hd) as Hd3.
    pose proof (admit_submit _ _ _ b (fail_outcomes durable) s3 (also_outcomes durable) eq_refl Hc3 Hd3 Hid) as Hsub.
    destruct (admit_or_return (submit_admission b) _ s3) as [[p|] s4]; [|exact Hsub].
    destruct Hsub as (Hbusy & Hc4 & Hr4). exists b.
    assert (wk_backlog s4 = wk_backlog s) as Hback
      by (by rewrite (sr_backlog _ _ Hr4), (kp_backlog _ _ Hkept)).
    rewrite Hback, (work_left_same _ _ Hr4). done.
  - destruct Hr as (receiver & disconnected & -> & Hp & Hwait & Hlen & Hdisc). split.
    + split; [|exact Hd]. destruct Hc. split; cbn; try done.
      * rewrite <- co_order, Hwait. done.
      * intros Hdd. split; [by apply Hdisc|done].
    + unfold work_left. cbn. lia.
Qed.

(** A materialization that fails. *)
Lemma abandon_spec applied durable successor b e s s0 :
  match successor with
  | None => popped applied durable s0
  | Some p => ∃ b, core applied (durable :: wk_backlog s0) [b] s0 ∧
      disk_busy (applied ++ durable :: wk_backlog s0) b p s0
  end →
  wk_io s = wk_io s0 → wk_file_len s = wk_file_len s0 → wk_log s = wk_log s0 →
  match abandon (A := unit) b e successor s with (Some _, _) => False | (None, s') => stopped s' end.
Proof.
  intros Hs Hio Hlen Hlog. unfold abandon, wk_return.
  set (s1 := fail_outcomes b e s).
  assert (omap admission_of (wk_log s1) = omap admission_of (wk_log s0)) as Hlog1
    by (unfold s1; by rewrite fail_outcomes_admitted, Hlog).
  destruct successor as [p|].
  - destruct Hs as (b' & Hc & Hd).
    assert (disk_busy (applied ++ durable :: wk_backlog s0) b' p s1) as Hd1.
    { unfold AdmissionPlans.disk_busy in *. unfold s1. cbn [wk_io wk_file_len fail_outcomes wk_send].
      by rewrite Hio, Hlen. }
    pose proof (complete_admission_spec _ _ _ _ Hd1) as Hcom.
    destruct (complete_admission p s1) as [[b''|[b'' f]|] s2]; [| |done].
    + destruct Hcom as (-> & (_ & Hcont & _) & Hrest).
      destruct (fail_backlog_log e (fail_outcomes b' e (notify_admitted b' s2))) as [Hl Hi].
      eapply (stopped_prefix ((applied ++ durable :: wk_backlog s0) ++ [b'])).
      * rewrite Hi. cbn [wk_io fail_outcomes wk_send notify_admitted]. by rewrite Hcont.
      * rewrite Hl, fail_outcomes_admitted. destruct (notify_log b' s2) as [-> _].
        rewrite (sr_log _ _ Hrest), Hlog1, (co_admitted _ _ _ _ _ _ _ _ Hc).
        rewrite (fmap_app _ (_ ++ _)), concat_app. f_equal.
        change (concat (receipts <$> [b'])) with (receipts b' ++ []). by rewrite app_nil_r.
    + destruct Hcom as (-> & Hpre & Hrest).
      destruct (fail_backlog_log e (fail_batch b' f s2)) as [Hl Hi].
      eapply stopped_prefix; [by rewrite Hi|].
      rewrite Hl, fail_batch_admitted, (sr_log _ _ Hrest), Hlog1. apply Hc.
  - destruct Hs as [Hc (_ & Hcont & _)]. destruct (fail_backlog_log e s1) as [Hl Hi].
    eapply stopped_prefix; [rewrite Hi; change (wk_io s1) with (wk_io s); by rewrite Hio, Hcont|].
    rewrite Hl, Hlog1. apply Hc.
Qed.

Lemma apply_durable_spec applied durable s :
  popped applied durable s →
  match apply_durable max_batch max_unapplied validators durable s with
  | (Some _, s') => settled (applied ++ [durable]) s' ∧ work_left s' ≤ work_left s
  | (None, s') => stopped s'
  end.
Proof.
  intros Hs. unfold apply_durable, mbind, wk_bind.
  pose proof (submit_successor_spec applied durable s Hs) as Hsub.
  destruct (submit_successor _ _ durable s) as [[successor|] s1]; [|exact Hsub].
  unfold materialize_or_return.
  assert (∃ flight, core applied (durable :: wk_backlog s1) flight s1) as [flight Hc1].
  { destruct successor; [destruct Hsub as (b & Hc & _); by eexists|destruct Hsub as [[Hc _] _]; by eexists]. }
  destruct (worker_materialize_spec applied durable (wk_backlog s1) flight s1 Hc1)
    as (Hio & Hlen & Hback & Hbar & Hw & Hres).
  destruct (worker_materialize durable validators s1) as [[[]|[b' e]|] s2] eqn:Hm; [| |done].
  2: { destruct Hres as [-> Hlog].
       pose proof (abandon_spec applied durable successor durable e s2 s1) as Hab.
       destruct (abandon durable e successor s2) as [[[]|] s3]; [exfalso|]; apply Hab; try done.
       - destruct successor; [destruct Hsub as (b & ? & ? & ?); by exists b|by destruct Hsub].
       - destruct successor; [destruct Hsub as (b & ? & ? & ?); by exists b|by destruct Hsub]. }
  cbn [fst snd] in *.
  destruct successor as [p|].
  - destruct Hsub as (b & Hc & Hd & Hwl).
    destruct (worker_materialize_spec applied durable (wk_backlog s1) [b] s1 Hc) as (_ & _ & _ & _ & _ & Hres').
    rewrite Hm in Hres'. assert ((applied ++ [durable]) ++ wk_backlog s1 = applied ++ durable :: wk_backlog s1)
      as Happ by (by rewrite <- (assoc_L (++))).
    rewrite <- Happ in Hd.
    assert (disk_busy ((applied ++ [durable]) ++ wk_backlog s1) b p s2) as Hd2.
    { unfold AdmissionPlans.disk_busy in *. by rewrite Hio, Hlen. }
    pose proof (admit_complete _ _ _ b p s2 eq_refl Hres' Hd2) as Hcom.
    destruct (admit_or_return (complete_admission p) _ s2) as [[b'|] s3]; [|exact Hcom].
    destruct Hcom as (-> & Hd3 & Hc3 & Hr3). unfold push_durable, wk_do. cbn [fst snd].
    set (s4 := wk_set_backlog _ _).
    assert (wk_backlog s4 = wk_backlog s1 ++ [b]) as Hback4.
    { cbn. by rewrite (sr_backlog _ _ Hr3), Hback. }
    split; [split; rewrite Hback4|].
    + pose proof (notify_core _ _ _ _ Hc3) as []. by split.
    + rewrite (assoc_L (++)). exact Hd3.
    + rewrite <- Hw, <- (work_left_same _ _ Hr3) in Hwl. unfold work_left in *. rewrite Hback4. cbn.
      rewrite (sr_backlog _ _ Hr3), Hback in Hwl. rewrite length_app. simpl. lia.
  - destruct Hsub as [[Hc Hd] Hwl].
    destruct (worker_materialize_spec applied durable (wk_backlog s1) [] s1 Hc) as (_ & _ & _ & _ & _ & Hres').
    rewrite Hm in Hres'. split; [|lia]. split; rewrite Hback; [done|].
    unfold AdmissionPlans.disk_idle. rewrite Hio, Hlen, <- (assoc_L (++)). exact Hd.
Qed.

(** ** The loop *)

Hypothesis Hroom : 0 < max_unapplied.

Lemma worker_step_spec applied s :
  settled applied s →
  match worker_step max_batch max_unapplied validators s with
  | (Some true, s') => (∃ applied', settled applied' s') ∧ work_left s' < work_left s
  | (Some false, s') => settled applied s' ∧ wk_backlog s' = [] ∧ wk_barrier s' = None ∧ wk_disconnected s' = true
  | (None, s') => stopped s'
  end.
Proof.
  intros Hs. unfold worker_step, mbind, wk_bind, fill_phase.
  pose proof (fill_backlog_spec applied (max_unapplied - length (wk_backlog s)) s Hs) as Hfill.
  destruct (fill_backlog _ _ s) as [[[]|] s1]; [|exact Hfill].
  destruct Hfill as (Hs1 & Hw1 & Hprog). unfold drain_phase.
  destruct (wk_backlog s1) as [|durable backlog] eqn:Hback.
  - destruct (wk_barrier s1) as [completed|] eqn:Hbar.
    + split; [|unfold work_left in *; cbn; rewrite Hbar in Hw1; lia].
      exists applied. destruct Hs1 as [Hc Hd]. rewrite Hback in Hc, Hd.
      split; cbn; rewrite Hback; [|exact Hd].
      destruct Hc. split; cbn; try done; by rewrite omap_app, app_nil_r.
    + assert (wk_disconnected s1 = true) as Hdis.
      { destruct Hprog as [?|?]; [|done|done|done].
        destruct (wk_backlog s); [left; simpl; lia|by right]. }
      rewrite Hdis. cbn. by split_and!.
  - unfold mbind, wk_bind.
    assert (popped applied durable (wk_set_backlog backlog s1)) as Hpop.
    { destruct Hs1 as [Hc Hd]. rewrite Hback in Hc, Hd. split; cbn; [|exact Hd].
      destruct Hc. by split. }
    pose proof (apply_durable_spec _ _ _ Hpop) as Happ.
    destruct (apply_durable _ _ _ durable _) as [[[]|] s2]; [|exact Happ].
    destruct Happ as [Hs2 Hw2]. split; [by eexists|].
    unfold work_left in Hw1, Hw2 |- *. cbn in Hw2. rewrite Hback in Hw1. simpl in Hw1. lia.
Qed.

(** The loop ends, either after serving everything or stopped by a failure. *)
Lemma run_worker_spec fuel : ∀ applied s, settled applied s → work_left s < fuel →
  match run_worker max_batch max_unapplied validators fuel s with
  | Some (true, s') => (∃ applied', settled applied' s') ∧ wk_backlog s' = [] ∧ wk_disconnected s' = true
  | Some (false, s') => stopped s'
  | None => False
  end.
Proof.
  induction fuel as [|fuel IH]; intros applied s Hs Hw; [lia|]. cbn [run_worker].
  pose proof (worker_step_spec applied s Hs) as Hstep.
  destruct (worker_step _ _ _ s) as [[[|]|] s1]; [| |exact Hstep].
  - destruct Hstep as [[applied' Hs1] Hw1]. apply (IH applied'); [done|lia].
  - destruct Hstep as (Hs1 & Hback & _ & Hdis). split; [by eexists|done].
Qed.
End run.
