(* ===== verification/AdmissionController.v ===== *)
(** The admission controller (forthdb-world/src/admission_epoch.rs, lines 71-92
    and 235-660): opening a journal, and the calls that feed the worker through a
    bounded channel.

    The writer lease and the spawning of the thread are environment answers.  A
    ticket's two channels are a fresh number. *)
From Stdlib Require Import NArith Lia.
From stdpp Require Import base gmap list strings option list_monad.
From S2P Require Import Prelude Ord Terms Bytes Query QueryFacts Spec Index Kernel Frames.
From S2P Require Import VmProjection Worlds Intents Epochs EpochStore EpochStoreFacts StackVm VmEpochs.
From S2P Require Import IntentStream IntentCodec Journal IoUring IoUringFacts AdmissionWorker.
From S2P Require Import AdmissionPlans.

Inductive AdmissionEpochOpenError :=
| OpenIo (e : io_error)
| OpenJournal (e : JournalError)
| OpenConfig
| OpenWriter.

Inductive SubmitError (A : Type) := SubmitFull (returned : A) | SubmitClosed (returned : A).
Arguments SubmitFull {A} _.
Arguments SubmitClosed {A} _.

(** The sending side: the commands in the channel ([None] once the sender is
    dropped), whether the worker still holds the receiver, and the counters. *)
Record AdmissionEpochController := AdmissionEpochController_mk {
  ac_closed : bool;
  ac_sender : option (list Command);
  ac_capacity : nat;
  ac_receiving : bool;
  ac_next_ticket : N;
  ac_submitted_intents : N;
  ac_backpressured_intents : N;
}.

Inductive TrySend := Sent (queue : list Command) | TrySendFull | TrySendDisconnected.

(** [SyncSender::try_send]. *)
Definition try_send (c : AdmissionEpochController) (queue : list Command) (command : Command) : TrySend :=
  if ac_receiving c then
    if length queue <? ac_capacity c then Sent (queue ++ [command]) else TrySendFull
  else TrySendDisconnected.

Definition ac_sent (queue : list Command) (tickets : nat) (c : AdmissionEpochController) :=
  AdmissionEpochController_mk (ac_closed c) (Some queue) (ac_capacity c) (ac_receiving c)
    (ac_next_ticket c + N.of_nat tickets) (u64_add (ac_submitted_intents c) (N.of_nat tickets))
    (ac_backpressured_intents c).
Definition ac_full (intents : nat) (c : AdmissionEpochController) :=
  AdmissionEpochController_mk (ac_closed c) (ac_sender c) (ac_capacity c) (ac_receiving c)
    (ac_next_ticket c) (ac_submitted_intents c) (u64_add (ac_backpressured_intents c) (N.of_nat intents)).

(** [submit]: the ticket, or the intent back. *)
Definition admission_submit (intent : QueuedIntent) (c : AdmissionEpochController) :
    outcome (SubmitError QueuedIntent) N * AdmissionEpochController :=
  if ac_closed c then (Err (SubmitClosed intent), c)
  else
    let staged := StagedIntent_mk intent (ac_next_ticket c) in
    match ac_sender c with
    | None => (Err (SubmitClosed (staged_intent staged)), c)
    | Some queue =>
        match try_send c queue (CmdIntent staged) with
        | Sent queue => (Ok (ac_next_ticket c), ac_sent queue 1 c)
        | TrySendFull => (Err (SubmitFull (staged_intent staged)), ac_full 1 c)
        | TrySendDisconnected => (Err (SubmitClosed (staged_intent staged)), c)
        end
    end.

(** [submit_epoch]: a ticket per intent, or all of them back. *)
Definition submit_epoch (intents : list QueuedIntent) (c : AdmissionEpochController) :
    outcome (SubmitError (list QueuedIntent)) (list N) * AdmissionEpochController :=
  match intents with
  | [] => (Ok [], c)
  | _ =>
      if ac_closed c then (Err (SubmitClosed intents), c)
      else
        let tickets := imap (λ k _, (ac_next_ticket c + N.of_nat k)%N) intents in
        let staged := zip_with StagedIntent_mk intents tickets in
        match ac_sender c with
        | None => (Err (SubmitClosed (staged_intent <$> staged)), c)
        | Some queue =>
            match try_send c queue (CmdEpoch staged) with
            | Sent queue => (Ok tickets, ac_sent queue (length tickets) c)
            | TrySendFull => (Err (SubmitFull (staged_intent <$> staged)), ac_full (length staged) c)
            | TrySendDisconnected => (Err (SubmitClosed (staged_intent <$> staged)), c)
            end
        end
  end.

(** The request of [flush]: [send] blocks until there is room, and [recv] until
    the worker answers; [None] is an error. *)
Definition flush_request (barrier : N) (c : AdmissionEpochController) :
    option AdmissionEpochController :=
  queue ← ac_sender c;
  if ac_receiving c then
    Some (AdmissionEpochController_mk (ac_closed c) (Some (queue ++ [CmdBarrier barrier]))
      (ac_capacity c) (ac_receiving c) (ac_next_ticket c) (ac_submitted_intents c)
      (ac_backpressured_intents c))
  else None.

(** [shutdown], after the worker has been joined; the queue it leaves behind is
    what the worker received. *)
Definition admission_shutdown (c : AdmissionEpochController) : AdmissionEpochController :=
  AdmissionEpochController_mk true None (ac_capacity c) false (ac_next_ticket c)
    (ac_submitted_intents c) (ac_backpressured_intents c).

(** The drop of a controller: as [shutdown], but the flag stays. *)
Definition admission_drop (c : AdmissionEpochController) : AdmissionEpochController :=
  AdmissionEpochController_mk (ac_closed c) None (ac_capacity c) false (ac_next_ticket c)
    (ac_submitted_intents c) (ac_backpressured_intents c).

Section open.
Context {D P U : Type}.
Context `{KernelD : Kernel D, RootP : MappedRoot P, VocP : MappedVocabulary P, JournalP : MappedJournal P}.
Context `{RingU : Ring U, IoU : EpochFileIo U}.

Abbreviation Validator := (CandidateWorld D → outcome string unit) (only parsing).

(** The counters of a worker on a recovered journal. *)
Definition recovered_metrics (total version : N) : WorkerMetrics :=
  WorkerMetrics_mk total total version 0 0 0 0 0 0 0 0 0.

(** [open_with_materializer]: [lease] is whether the writer lease is free, [file]
    the journal's bytes, [system] the file as the ring will see it.  The result
    is the controller, the worker it starts (with nothing received yet) and the
    namespace counter; in any case, the file. *)
Definition open_with_materializer (jio : JournalIoEnv) (lease : bool) (system : list u8 → U)
    (capacity max_batch max_unapplied_epochs : nat) (entries : N) (validators : list Validator)
    (kind : AdmissionMaterializer) (counter : N) (file : list u8) :
    outcome AdmissionEpochOpenError (AdmissionEpochController * WorkerState D P U * N) * list u8 :=
  if decide (capacity = 0 ∨ max_batch = 0 ∨ max_unapplied_epochs = 0) then (Err OpenConfig, file)
  else if lease then
    let allow := match kind, validators with MaterializeTokenVm, [] => true | _, _ => false end in
    let '(r, file) := recover_journal jio allow counter file in
    (let* recovered := map_err OpenJournal r in
     let '(recovered, counter) := recovered in
     let* replayed := map_err OpenJournal
       (replay_epochs (rj_snapshot recovered) (rj_epochs recovered) validators kind) in
     let '(world, materializer) := replayed in
     let* io := map_err OpenIo (uring_open entries (system file)).1 in
     Ok (AdmissionEpochController_mk false (Some []) capacity true 0 0 0,
         WorkerState_mk io (rj_file_len recovered) (u64_add (rj_total_epochs recovered) 1) [] [] []
           None false world materializer
           (recovered_metrics (rj_total_epochs recovered) (w_version world)) [],
         counter), file)
  else (Err OpenWriter, file).

Section variants.
Variables (jio : JournalIoEnv) (lease : bool) (system : list u8 → U).
Variables (capacity max_batch : nat) (ring_entries : N) (counter : N) (file : list u8).

Abbreviation Opened := (outcome AdmissionEpochOpenError (AdmissionEpochController * WorkerState D P U * N) * list u8)%type
  (only parsing).

Definition open_with_validators_and_window (max_unapplied_epochs : nat) (validators : list Validator) : Opened :=
  open_with_materializer jio lease system capacity max_batch max_unapplied_epochs ring_entries validators
    MaterializeWorld counter file.
Definition open_vm_with_validators_and_window (max_unapplied_epochs : nat) (validators : list Validator) : Opened :=
  open_with_materializer jio lease system capacity max_batch max_unapplied_epochs ring_entries validators
    MaterializeTokenVm counter file.
Definition admission_open : Opened := open_with_validators_and_window 1 [].
Definition open_vm : Opened :=
  open_with_materializer jio lease system capacity max_batch 1 ring_entries [] MaterializeTokenVm counter file.
Definition open_vm_with_window (max_unapplied_epochs : nat) : Opened :=
  open_with_materializer jio lease system capacity max_batch max_unapplied_epochs ring_entries [] MaterializeTokenVm
    counter file.
Definition open_with_window (max_unapplied_epochs : nat) : Opened :=
  open_with_validators_and_window max_unapplied_epochs [].
Definition open_with_validators (validators : list Validator) : Opened := open_with_validators_and_window 1 validators.
End variants.
End open.

(** ** Tickets *)

Record AdmissionEpochReceipt := AdmissionEpochReceipt_mk { receipt_epoch_id : N; receipt_position : nat }.

Section tickets.
Context {D P : Type}.

Inductive AdmissionEpochTicketOutcome :=
| EpochTicketAccepted (receipt : AdmissionEpochReceipt) (world : World D P) (entities : gmap TempEntity EntityId)
| EpochTicketRejected (receipt : AdmissionEpochReceipt) (error : IntentRejection)
| EpochTicketFailed (e : AdmissionError).

Inductive TicketWaitError :=
| AdmissionRefused (e : AdmissionError)
| StoppedBeforeDurability
| StoppedBeforeOutcome.

(** What the worker sent on the two channels of a ticket. *)
Definition admission_message (ticket : N) (n : Notice D P) : option (outcome AdmissionError AdmissionEpochReceipt) :=
  match n with
  | TicketAdmitted t id position =>
      if decide (t = ticket) then Some (Ok (AdmissionEpochReceipt_mk id position)) else None
  | AdmissionFailed t e => if decide (t = ticket) then Some (Err e) else None
  | _ => None
  end.
Definition outcome_message (ticket : N) (n : Notice D P) : option AdmissionEpochTicketOutcome :=
  match n with
  | TicketAccepted t id position world entities =>
      if decide (t = ticket) then Some (EpochTicketAccepted (AdmissionEpochReceipt_mk id position) world entities)
      else None
  | TicketRejected t id position e =>
      if decide (t = ticket) then Some (EpochTicketRejected (AdmissionEpochReceipt_mk id position) e) else None
  | TicketFailed t e => if decide (t = ticket) then Some (EpochTicketFailed e) else None
  | _ => None
  end.

(** [wait_admitted] and [wait] once the worker has sent all it will send. *)
Definition wait_admitted (ticket : N) (log : list (Notice D P)) : outcome TicketWaitError AdmissionEpochReceipt :=
  match omap (admission_message ticket) log with
  | r :: _ => map_err AdmissionRefused r
  | [] => Err StoppedBeforeDurability
  end.
Definition admission_wait (ticket : N) (log : list (Notice D P)) : outcome TicketWaitError AdmissionEpochTicketOutcome :=
  ok_or (head (omap (outcome_message ticket) log)) StoppedBeforeOutcome.

Definition outcome_receipt (o : AdmissionEpochTicketOutcome) : option AdmissionEpochReceipt :=
  match o with EpochTicketAccepted r _ _ | EpochTicketRejected r _ => Some r | EpochTicketFailed _ => None end.

(** A worker that failed nothing answers both waits of every ticket it served,
    with the receipt of the intent. *)
Lemma waits_return (log : list (Notice D P)) ticket id position :
  NoDup (fst ∘ fst <$> omap admission_of log) → NoDup (fst ∘ fst <$> omap outcome_of log) →
  omap failure_of log = [] →
  (ticket, id, position) ∈ omap admission_of log → (ticket, id, position) ∈ omap outcome_of log →
  wait_admitted ticket log = Ok (AdmissionEpochReceipt_mk id position) ∧
  ∃ o, admission_wait ticket log = Ok o ∧ outcome_receipt o = Some (AdmissionEpochReceipt_mk id position).
Proof.
  intros Hn1 Hn2 Hf Ha Ho. split.
  - unfold wait_admitted. assert (∃ l, omap (admission_message ticket) log = Ok (AdmissionEpochReceipt_mk id position) :: l) as [l ->];
      [|done]. clear Hn2 Ho. induction log as [|n log IH]; [by apply not_elem_of_nil in Ha|].
    destruct n as [t i k|t e|t i k w es|t i k e|t e|b]; cbn in *; try done; try by apply IH.
    case_decide as Ht; [subst t|].
    + rewrite NoDup_cons in Hn1. destruct Hn1 as [Hn1 _]. apply elem_of_cons in Ha as [[= -> ->]|Ha]; [by eexists|].
      destruct Hn1. by apply (list_elem_of_fmap_2 (fst ∘ fst)) in Ha.
    + apply elem_of_cons in Ha as [[= ? ? ?]|Ha]; [by subst|]. apply NoDup_cons in Hn1 as [_ Hn1]. by apply IH.
  - unfold admission_wait.
    assert (∃ o l, omap (outcome_message ticket) log = o :: l ∧ outcome_receipt o = Some (AdmissionEpochReceipt_mk id position))
      as (o & l & -> & Hr); [|by exists o]. clear Hn1 Ha. induction log as [|n log IH]; [by apply not_elem_of_nil in Ho|].
    destruct n as [t i k|t e|t i k w es|t i k e|t e|b]; cbn in *; try done; try by apply IH.
    all: case_decide as Ht; [subst t|].
    all: try (apply elem_of_cons in Ho as [[= ? ? ?]|Ho]; [by subst|]; apply NoDup_cons in Hn2 as [_ Hn2]; by apply IH).
    all: rewrite NoDup_cons in Hn2; destruct Hn2 as [Hn2 _]; apply elem_of_cons in Ho as [[= -> ->]|Ho]; [by eexists _, _|].
    all: destruct Hn2; by apply (list_elem_of_fmap_2 (fst ∘ fst)) in Ho.
Qed.
End tickets.

(** ** What callers can rely on *)

Lemma staged_intents_back (intents : list QueuedIntent) (c : AdmissionEpochController) :
  staged_intent <$> zip_with StagedIntent_mk intents (imap (λ k _, (ac_next_ticket c + N.of_nat k)%N) intents) =
  intents.
Proof.
  generalize (λ (k : nat) (_ : QueuedIntent), (ac_next_ticket c + N.of_nat k)%N) as f. revert intents.
  induction intents as [|i intents IH]; intros f; [done|]. cbn. by rewrite IH.
Qed.

(** A submission that is refused gives its intents back and leaves the channel
    alone; one that is taken appends them all, in order, with fresh tickets. *)
Lemma submit_epoch_spec intents c : intents ≠ [] →
  match submit_epoch intents c with
  | (Ok tickets, c') => ∃ queue staged, ac_sender c = Some queue ∧ length queue < ac_capacity c ∧
      ac_sender c' = Some (queue ++ [CmdEpoch staged]) ∧ staged_intent <$> staged = intents ∧
      staged_ticket <$> staged = tickets ∧ NoDup tickets
  | (Err (SubmitFull returned), c') => returned = intents ∧ ac_sender c' = ac_sender c
  | (Err (SubmitClosed returned), c') => returned = intents ∧ c' = c
  | (Panic, _) => False
  end.
Proof.
  intros Hne. destruct intents as [|i js]; [done|]. set (intents := i :: js). unfold submit_epoch.
  change (match intents with [] => _ | _ => ?k end) with k.
  pose proof (staged_intents_back intents c) as Hback.
  destruct (ac_closed c); [done|]. destruct (ac_sender c) as [queue|] eqn:Hsender; [|done].
  unfold try_send. destruct (ac_receiving c); [|done].
  destruct (Nat.ltb_spec (length queue) (ac_capacity c)); [|done].
  eexists queue, _. split; [done|]. split; [done|]. split; [reflexivity|]. split; [exact Hback|].
  split.
  - clear. generalize (λ (k : nat) (_ : QueuedIntent), (ac_next_ticket c + N.of_nat k)%N) as f.
    generalize intents as l. induction l as [|x l IH]; intros f; [done|]. cbn. f_equal. apply IH.
  - apply NoDup_alt. intros j k x Hj Hk. rewrite list_lookup_imap in Hj, Hk.
    destruct (intents !! j); [|done]. destruct (intents !! k); [|done]. simplify_eq/=. lia.
Qed.
