(* ===== verification/AdmissionProps.v ===== *)
(** What admission promises: an interrupted journal is recovered exactly, and the
    worker serves every command in order, keeping the journal, the receipts and
    the published world in step. *)
From Stdlib Require Import NArith ZArith Lia.
From Stdlib Require Import Strings.Byte.
From stdpp Require Import base gmap list strings option list_monad.
From S2P Require Import Prelude Ord Terms Bytes Query QueryFacts Spec Index Kernel Frames Codec.
From S2P Require Import LegacyDb VmProjection Worlds WorldProps Intents Epochs FileStore EpochStore EpochStoreFacts.
From S2P Require Import StackVm VmEpochs VmEpochFacts VmEpochProps Parser Isa IntentStream.
From S2P Require Import IntentCodec Journal IoUring IoUringFacts.
From S2P Require Import AdmissionWorker AdmissionPlans AdmissionRun AdmissionController.

(** C34: A journal cut at any byte of the record being appended is recovered
    exactly.  If the epochs before it are within the format (intents that clients
    can build, with entities below the literal cells, and payloads within the
    reader's limit), recovery yields those intents unchanged, in their epochs and
    order, with the length and the number of epochs of the whole records, and
    cuts the file back to them. *)
Theorem journal_recovery_exact {P : Type} `{MappedJournal P} (allow : bool) (counter : N)
    (epochs : list (list QueuedIntent)) (next : list QueuedIntent) (n : nat) :
  let record := encode_epoch (N.of_nat (length epochs) + 1) next in
  let file := journal_file epochs in
  epochs_journalable 1 epochs → epoch_journalable (N.of_nat (length epochs) + 1) next →
  n < length record → u64_ok (N.of_nat (length file + length record)) →
  no_image (P := P) allow (file ++ take n record) →
  recover_journal (P := P) journal_io_ok allow counter (file ++ take n record) =
  (Ok (RecoveredJournal_mk epochs (N.of_nat (length file)) (N.of_nat (length epochs)) None,
       bump_counter (length (concat epochs)) counter), file).
Proof.
  intros record file Hok [_ _ Hmax] Hn Hu Himg. apply recover_journal_ok; [done| |done].
  right. by exists (encode_epoch_payload (N.of_nat (length epochs) + 1) next), n.
Qed.

(** A journal without mapped images. *)
#[export] Instance no_journal_image : MappedJournal Empty_set := {
  mj_open _ := None;
  mj_journal_offset p := match p with end;
  mj_epoch_count p := match p with end;
}.

(** An intent that names a new entity. *)
Definition named_intent (counter : N) (name : string) : QueuedIntent :=
  let i := (intent_new counter).1 in
  match intent_entity i with
  | Some (t, i) =>
      intent_define (expect_absent i (SlotId_new "user/ada")) (SlotId_new "user/ada")
        (IntentFact_new (ITemporary t) (Predicate_new "name") (ILiteral (Literal_new name)))
  | None => i
  end.

Lemma named_intent_journalable counter name :
  u64_ok counter → str32_wf name → u32_ok (N.of_nat (length (encode_staged (named_intent counter name)))) →
  journalable (named_intent counter name).
Proof.
  intros Hc Hn Hl. split; [|split|split|done].
  - eexists. unfold named_intent. cbn. apply built_define; [apply built_precondition|].
    + eapply (built_entity (intent_new counter).1 ∅); [apply built_new|reflexivity].
    + split; [|done]. cbn. set_solver.
  - exact Hc.
  - by repeat constructor.
  - by repeat constructor.
  - done.
  - apply Forall_singleton. by split.
  - apply Forall_cons. split; [done|]. apply Forall_singleton. split; [done|]. by split_and!.
Qed.

Lemma journal_recovery_exact_witness :
  let epochs := [[named_intent 1 "Ada"; named_intent 2 "Lovelace"]; [named_intent 3 "Ada"]] in
  let next := [named_intent 4 "Byron"] in
  recover_journal (P := Empty_set) journal_io_ok true 1
    (journal_file epochs ++ take 30 (encode_epoch 3 next)) =
  (Ok (RecoveredJournal_mk epochs (N.of_nat (length (journal_file epochs))) 2 None, 4%N),
   journal_file epochs).
Proof.
  apply (journal_recovery_exact (P := Empty_set) true 1
    [[named_intent 1 "Ada"; named_intent 2 "Lovelace"]; [named_intent 3 "Ada"]] [named_intent 4 "Byron"] 30).
  - repeat split; try (vm_compute; reflexivity || discriminate);
      repeat constructor; apply named_intent_journalable; vm_compute; done.
  - repeat split; try (vm_compute; reflexivity || discriminate);
      repeat constructor; apply named_intent_journalable; vm_compute; done.
  - vm_compute. lia.
  - vm_compute. reflexivity.
  - intros _ s Hs. discriminate Hs.
Defined.

(** ** The worker *)

(** The worker that [open] starts on a recovered journal. *)
Definition worker_start {D P U} (io : IoUringEpochFileIo U) (recovered : list (list QueuedIntent))
    (arrivals : list (option Command)) (st : World D P * EpochMaterializer (P := P))
    (metrics : WorkerMetrics) : WorkerState D P U :=
  WorkerState_mk io (N.of_nat (length (journal_file recovered))) (N.of_nat (length recovered) + 1)
    arrivals [] [] None false st.1 st.2 metrics [].

(** Opening a journal of readable epochs starts the worker on them, with the world
    that replays them. *)
Lemma open_starts_worker {D P U : Type}
    `{Kernel D, MappedRoot P, MappedVocabulary P, MappedJournal P, RingU : Ring U, IoU : EpochFileIo U}
    (system : list u8 → U) (capacity max_batch max_unapplied : nat) (entries : N)
    (validators : list (CandidateWorld D → outcome string unit)) (kind : AdmissionMaterializer)
    (counter : N) (epochs : list (list QueuedIntent)) (st : World D P * EpochMaterializer (P := P)) io u :
  0 < capacity → 0 < max_batch → 0 < max_unapplied →
  epochs_journalable 1 epochs → u64_ok (N.of_nat (length (journal_file epochs))) →
  (∀ allow, no_image (P := P) allow (journal_file epochs)) →
  replay_epochs None epochs validators kind = Ok st →
  uring_open entries (system (journal_file epochs)) = (Ok io, u) →
  open_with_materializer journal_io_ok true system capacity max_batch max_unapplied entries validators kind
    counter (journal_file epochs) =
  (Ok (AdmissionEpochController_mk false (Some []) capacity true 0 0 0,
       worker_start io epochs [] st (recovered_metrics (N.of_nat (length epochs)) (w_version st.1)),
       bump_counter (length (concat epochs)) counter), journal_file epochs).
Proof.
  intros Hcap Hbatch Hwin Hok Hu Himg Hreplay Hopen. unfold open_with_materializer.
  rewrite decide_False by lia. pose proof (Himg (match kind, validators with MaterializeTokenVm, [] => true | _, _ => false end)) as Hno.
  rewrite <- (app_nil_r (journal_file epochs)) in Hno |- * at 1.
  rewrite recover_journal_ok; [|done|by left|done].
  cbn [map_err outcome_bind rj_snapshot rj_epochs rj_file_len rj_total_epochs].
  rewrite Hreplay. cbn [map_err outcome_bind]. destruct st as [world m]. cbn [map_err outcome_bind].
  rewrite Hopen. cbn [fst map_err outcome_bind]. unfold worker_start. do 4 f_equal.
  rewrite u64_add_small; [done|]. unfold u64_ok in *. unfold journal_file in Hu. rewrite length_app in Hu.
  change (length journal_header) with 16 in Hu. pose proof (journal_records_length 1 epochs). lia.
Qed.

(** A whole journal is recovered as its epochs. *)
Lemma recover_file {P : Type} `{MappedJournal P} (epochs : list (list QueuedIntent)) (allow : bool) (counter : N) :
  epochs_journalable 1 epochs → no_image (P := P) allow (journal_file epochs) →
  u64_ok (N.of_nat (length (journal_file epochs))) →
  recover_journal (P := P) journal_io_ok allow counter (journal_file epochs) =
  (Ok (RecoveredJournal_mk epochs (N.of_nat (length (journal_file epochs))) (N.of_nat (length epochs)) None,
       bump_counter (length (concat epochs)) counter), journal_file epochs).
Proof.
  intros Hok Himg Hu. pose proof (recover_journal_ok (P := P) allow counter epochs [] Hok (or_introl (conj eq_refl Hu))) as Hr.
  rewrite app_nil_r in Hr. exact (Hr Himg).
Qed.

(** Replay goes on from where it stopped. *)
Lemma replay_epochs_app {D P : Type} `{Kernel D, MappedRoot P, MappedVocabulary P}
    recovered epochs (validators : list (CandidateWorld D → outcome string unit)) kind
    (st st' : World D P * EpochMaterializer (P := P)) :
  replay_epochs None recovered validators kind = Ok st →
  outcome_fold (replay_step validators) epochs st = Ok st' →
  replay_epochs None (recovered ++ epochs) validators kind = Ok st'.
Proof.
  unfold replay_epochs. destruct (replay_materializer None kind) as [m| |]; [|done..].
  cbn [outcome_bind]. rewrite outcome_fold_app. by intros ->.
Qed.

(** C35: The admission worker serves and survives.  It is started on a journal
    recovered from its records, with any commands arriving in any timing, validators registered
    between any two epochs, and a transport that behaves as documented but may
    fail at any call.  The worker always ends.  Whatever happened, the journal
    file still begins with the recovered epochs and every epoch it acknowledged,
    and with those acknowledgements only.  If no admission or materialization
    failed: the file is exactly those epochs; every intent was admitted, in the
    order of arrival, with one receipt and one outcome for the same epoch and
    position and no failure; the world and the materializer that the worker ended
    with are the admitted intents materialized epoch after epoch, each with the
    validators the lock held then; and if the epochs are within the format
    (intents that clients can build, with entities below the literal cells, and
    payloads within the reader's limit) and no snapshot image stands for the whole
    file, recovery decodes the bytes of the file to those intents, and, if no
    validator was registered after the opening, the replay of what it decoded gives
    that world and that materializer. *)
Theorem admission_serves_and_survives {D P U : Type}
    `{Kernel D, MappedRoot P, MappedVocabulary P, MappedJournal P, RingU : Ring U, IoU : EpochFileIo U}
    `{!EpochFileIoLaws U, !RingLaws U}
    (opened : list (CandidateWorld D → outcome string unit))
    (calls : N → list (CandidateWorld D → outcome string unit)) (kind : AdmissionMaterializer)
    (recovered : list (list QueuedIntent)) (st : World D P * EpochMaterializer (P := P))
    (max_batch max_unapplied : nat) (arrivals : list (option Command))
    (io : IoUringEpochFileIo U) (metrics : WorkerMetrics) :
  0 < max_unapplied → transport_ready io → io_content (ur_system io) = journal_file recovered →
  replay_epochs None recovered opened kind = Ok st →
  ∃ finished s epochs,
    run_worker max_batch max_unapplied (live_validators opened calls) (3 * length arrivals + 1)
      (worker_start io recovered arrivals st metrics) = Some (finished, s) ∧
    journal_file (recovered ++ epochs_of epochs) `prefix_of` io_content (ur_system (wk_io s)) ∧
    omap admission_of (wk_log s) = concat (receipts <$> epochs) ∧
    (finished = true →
      let file := io_content (ur_system (wk_io s)) in
      file = journal_file (recovered ++ epochs_of epochs) ∧
      concat (eb_staged <$> epochs) = arrivals_staged arrivals ∧
      omap outcome_of (wk_log s) = concat (receipts <$> epochs) ∧
      omap failure_of (wk_log s) = [] ∧
      outcome_fold (live_step (live_validators opened calls)) epochs st =
        Ok (wk_current s, wk_materializer s) ∧
      (∀ allow counter, epochs_journalable 1 (recovered ++ epochs_of epochs) →
        no_image (P := P) allow file →
        ∃ r counter',
          recover_journal (P := P) journal_io_ok allow counter file = (Ok (r, counter'), file) ∧
          rj_epochs r = recovered ++ epochs_of epochs ∧
          ((∀ id, calls id = []) →
            replay_epochs (rj_snapshot r) (rj_epochs r) opened kind =
              Ok (wk_current s, wk_materializer s)))).
Proof.
  intros Hmax Hready Hcont Hreplay. set (s0 := worker_start _ _ _ _ _).
  set (live := live_validators opened calls).
  assert (settled recovered st live (arrivals_staged arrivals) [] s0) as Hs0.
  { split.
    - split; cbn; try done; [by rewrite Nat.add_0_r|by destruct st|by left].
    - split; [exact Hready|]. unfold journal. cbn. by rewrite app_nil_r. }
  pose proof (run_worker_spec recovered st live (arrivals_staged arrivals) max_batch max_unapplied Hmax
    (3 * length arrivals + 1) [] s0 Hs0) as Hrun.
  destruct (run_worker _ _ _ _ s0) as [[finished s]|]; [|exfalso; apply Hrun; unfold work_left; cbn; lia].
  exists finished, s. specialize (Hrun ltac:(unfold work_left; cbn; lia)). destruct finished.
  - destruct Hrun as ([applied [Hc (Hidle & Hj & _)]] & Hback & Hdis). exists applied.
    rewrite Hback, !app_nil_r in *. destruct Hc. unfold journal in Hj.
    destruct (co_disconnected Hdis) as [Hrecv Hpend]. rewrite !app_nil_r in *.
    unfold waiting in co_order. rewrite Hrecv, Hpend in co_order. cbn in co_order. rewrite app_nil_r in co_order.
    split; [done|]. split; [by rewrite Hj|]. split; [done|]. intros _. cbn zeta. split_and!; try done.
    intros allow counter Hok Himg. rewrite Hj in Himg |- *.
    rewrite (recover_file (recovered ++ epochs_of applied)); [|done..|].
    2: { rewrite <- Hj. apply il_size, Hidle. }
    eexists _, _. split; [reflexivity|]. split; [done|]. intros Hcalls.
    apply (replay_epochs_app _ _ _ _ st); [done|].
    rewrite <- (live_fold_fixed live opened); [done|]. intros id. by apply live_validators_fixed.
  - destruct Hrun as (bs & Hpre & Hlog). exists bs. by split_and!.
Qed.

Definition sample_arrivals : list (option Command) :=
  [Some (CmdIntent (StagedIntent_mk (named_intent 1 "Ada") 10)); None;
   Some (CmdEpoch [StagedIntent_mk (named_intent 2 "Grace") 11; StagedIntent_mk (named_intent 3 "Alan") 12]);
   Some (CmdBarrier 7)].

Definition sample_transport (script : list (option nat)) : IoUringEpochFileIo SimRing :=
  IoUringEpochFileIo_mk (SimRing_mk (ScriptedIo_mk journal_header []) None false [] [] script) true 64.

Definition no_metrics : WorkerMetrics := WorkerMetrics_mk 0 0 0 0 0 0 0 0 0 0 0 0.

Definition sample_worker (script : list (option nat)) : WorkerState ForthDb Empty_set SimRing :=
  worker_start (sample_transport script) [] sample_arrivals (genesis, WorldMaterializer) no_metrics.

Lemma sample_journalable : Forall (journalable ∘ staged_intent) (arrivals_staged sample_arrivals).
Proof. repeat constructor; apply named_intent_journalable; vm_compute; done. Qed.

Lemma small_epochs_journalable epochs :
  concat (eb_staged <$> epochs) = arrivals_staged sample_arrivals →
  length (journal_file ([] ++ epochs_of epochs)) ≤ 4000 →
  epochs_journalable 1 ([] ++ epochs_of epochs).
Proof.
  cbn [app]. intros Hs Hlen. unfold journal_file in Hlen. rewrite length_app in Hlen.
  pose proof (journal_records_length 1 (epochs_of epochs)).
  apply epochs_journalable_small.
  - replace (concat (epochs_of epochs)) with (staged_intent <$> arrivals_staged sample_arrivals).
    + apply Forall_fmap, sample_journalable.
    + rewrite <- Hs. clear. induction epochs as [|b epochs IH]; [done|].
      cbn. rewrite fmap_app. f_equal. exact IH.
  - unfold u64_ok, u64_modulus. lia.
  - unfold MAX_EPOCH_BYTES. lia.
Qed.

Lemma healthy_run : ∃ s,
  run_worker 4 2 (live_validators [] (λ _, [])) (3 * length sample_arrivals + 1) (sample_worker []) = Some (true, s) ∧
  length (io_content (ur_system (wk_io s))) ≤ 4000.
Proof.
  assert (match run_worker 4 2 (live_validators [] (λ _, [])) (3 * length sample_arrivals + 1) (sample_worker []) with
    | Some (true, s) => (length (io_content (ur_system (wk_io s))) <=? 4000) = true
    | _ => False
    end) as Hr by (vm_compute; reflexivity).
  destruct (run_worker _ _ _ _ _) as [[[|] s]|]; [|done..]. exists s. split; [done|]. by apply Nat.leb_le.
Qed.

(** The run on a transport that never fails, with no registration: what the file
    decodes to replays to the world that the worker published. *)
Lemma admission_serves_and_survives_witness :
  ∃ s r counter,
    run_worker 4 2 (live_validators [] (λ _, [])) (3 * length sample_arrivals + 1) (sample_worker []) =
      Some (true, s) ∧
    recover_journal (P := Empty_set) journal_io_ok true 1 (io_content (ur_system (wk_io s))) =
      (Ok (r, counter), io_content (ur_system (wk_io s))) ∧
    replay_epochs (rj_snapshot r) (rj_epochs r) [] MaterializeWorld =
      Ok (wk_current s, wk_materializer s).
Proof.
  destruct (admission_serves_and_survives (D := ForthDb) (P := Empty_set) (U := SimRing) [] (λ _, [])
    MaterializeWorld [] (genesis, WorldMaterializer) 4 2 sample_arrivals (sample_transport []) no_metrics)
    as (finished & s & epochs & Hrun & _ & _ & Hfin).
  - lia.
  - split; [|by split]. split; [|done]. split; [constructor|vm_compute; reflexivity].
  - reflexivity.
  - reflexivity.
  - destruct healthy_run as (s' & Hs & Hlen). unfold sample_worker in Hs. rewrite Hs in Hrun.
    injection Hrun as <- <-. destruct (Hfin eq_refl) as (Hfile & Hstaged & _ & _ & _ & Hrec).
    destruct (Hrec true 1%N) as (r & counter & Hr & _ & Hreplay).
    + rewrite Hfile in Hlen. by apply small_epochs_journalable.
    + intros _ p Hp. discriminate Hp.
    + exists s', r, counter. exact (conj Hs (conj Hr (Hreplay ltac:(done)))).
Defined.

(** On a healthy transport every ticket is served and the second name is refused:
    the slot is taken. *)
Example healthy_worker_serves :
  match run_worker 4 2 (live_validators [] (λ _, [])) 100 (sample_worker []) with
  | Some (true, s) =>
      omap outcome_of (wk_log s) = [(10%N, 1%N, 0); (11%N, 2%N, 0); (12%N, 2%N, 1)] ∧
      w_version (wk_current s) = 1%N ∧ wm_rejected_intents (wk_metrics s) = 2%N
  | _ => False
  end.
Proof. vm_compute. done. Qed.

(** A write that stops short ends the worker; the epoch before it stays. *)
Example short_write_stops :
  match run_worker 4 2 (live_validators [] (λ _, [])) 100 (sample_worker [None; Some 3]) with
  | Some (false, s) =>
      omap admission_of (wk_log s) = [(10%N, 1%N, 0)] ∧
      io_content (ur_system (wk_io s)) = journal_file [[named_intent 1 "Ada"]]
  | _ => False
  end.
Proof. vm_compute. done. Qed.

(** ** Where the journal is not the intents *)

(** An entity identifier at or above the literal cells is compiled unchecked and
    comes back as a literal: the replayed intent is not the admitted one. *)
Lemma journal_confuses_entities :
  let i := intent_define (intent_new 1).1 (SlotId_new "s")
    (IntentFact_new (IEntity (EntityId_new VM_LITERAL_BASE)) (Predicate_new "p") (ILiteral (Literal_new "x"))) in
  match compile_to_stream_frame i with
  | Ok f => match from_stream_frame 2 f with
            | Ok (j, _) => qi_operations j =
                [IDefine (SlotId_new "s") (IntentFact_new (ILiteral (Literal_new "x")) (Predicate_new "p")
                   (ILiteral (Literal_new "x")))] ∧ qi_operations j ≠ qi_operations i
            | _ => False
            end
  | _ => False
  end.
Proof. vm_compute. done. Qed.

(** Rebuilding an intent does not move the namespace counter past the intent's:
    the next intent made may get the same handles. *)
Lemma replayed_handles_alias :
  let i := named_intent 2 "Ada" in
  match compile_to_stream_frame i with
  | Ok f => match from_stream_frame 1 f with
            | Ok (j, counter) =>
                (fst <$> intent_entity (intent_new counter).1) = Some (TempEntity_mk 2 0) ∧
                IAllocate (TempEntity_mk 2 0) ∈ qi_operations j
            | _ => False
            end
  | _ => False
  end.
Proof. vm_compute. split; [done|]. left. Qed.

(** It shows in the world: what is published live and what the same journal gives
    when it is opened again differ, and with the VM the live epoch fails where its
    replay succeeds. *)
Lemma replay_diverges :
  let intent := intent_define (intent_new 1).1 (SlotId_new "s")
    (IntentFact_new (IEntity (EntityId_new VM_LITERAL_BASE)) (Predicate_new "p") (ILiteral (Literal_new "x"))) in
  let run m := run_worker 4 2 (live_validators [] (λ _, [])) 100 (worker_start (D := ForthDb) (P := Empty_set) (sample_transport []) []
    [Some (CmdIntent (StagedIntent_mk intent 1))] (genesis, m) no_metrics) in
  let reopened (s : WorkerState ForthDb Empty_set SimRing) kind :=
    match recover_journal (P := Empty_set) journal_io_ok false 1 (io_content (ur_system (wk_io s))) with
    | (Ok (r, _), _) =>
        match replay_epochs (D := ForthDb) (P := Empty_set) None (rj_epochs r) [] kind with
        | Ok (w, _) => Some (w_version w, w_id w)
        | _ => None
        end
    | _ => None
    end in
  match run WorldMaterializer, run (TokenVm (materializer_new 1)) with
  | Some (true, s), Some (false, v) =>
      (w_version (wk_current s) = 1%N ∧ ∃ id, reopened s MaterializeWorld = Some (1%N, id) ∧
         id ≠ w_id (wk_current s)) ∧
      (omap failure_of (wk_log v) = [MaterializeFailed EntityOverlapsLiterals] ∧
       ∃ id, reopened v MaterializeTokenVm = Some (1%N, id))
  | _, _ => False
  end.
Proof. vm_compute. split; split; try done; eexists; (split; [reflexivity|done]) || reflexivity. Qed.
