(* ===== verification/AdmissionSnapshot.v ===== *)
(** Snapshots of a running controller (forthdb-world/src/admission_epoch.rs, lines
    614-641): what [write_mmap_snapshot] writes, what a journal with such an image
    recovers to, and what the race in it loses.

    The call makes its observations one after the other without a lock: the
    answer of the flush, the published world, the bytes of the journal and the
    count of durable epochs are its arguments here, and may be of different
    moments. *)
From Stdlib Require Import NArith Lia.
From Stdlib Require Import Strings.Byte.
From stdpp Require Import base gmap list strings option list_monad.
From S2P Require Import Prelude Ord Terms Bytes Query QueryFacts QueryOrder Spec Index Kernel Frames Codec.
From S2P Require Import LegacyDb VmProjection Worlds WorldFacts WorldProps Intents Epochs FileStore FileProps.
From S2P Require Import StackVm VmEpochs VmVocabulary VmEpochFacts Parser Isa IntentStream IntentCodec Journal.
From S2P Require Import SnapshotFormat MmapSnapshot SnapshotBuild SnapshotSafety SnapshotRoot.
From S2P Require Import VmEpochProps SnapshotProps AdmissionProps.

Local Open Scope string_scope.
Local Open Scope nat_scope.
Local Open Scope list_scope.

#[local] Opaque Nat.div Nat.modulo u32_bytes u64_bytes le_bytes.

Section write.
Context {D P : Type} `{Kernel D, MappedRoot P}.

Abbreviation Validator := (CandidateWorld D → outcome string unit) (only parsing).

(** [AdmissionEpochController::write_mmap_snapshot]: the answer and the content
    of the snapshot file.  A journal that cannot be read is [None]. *)
Definition write_mmap_snapshot (io : create_io) (kind : AdmissionMaterializer)
    (validators : list Validator) (flush : outcome string unit) (snapshot : World D P)
    (journal : option (list u8)) (durable_epochs : N) (target : option (list u8)) :
    outcome string MmapSnapshotMetadata * option (list u8) :=
  match kind, validators with
  | MaterializeWorld, _ => (Err "mmap VM snapshots require the token VM materializer", target)
  | _, _ :: _ => (Err "mmap VM snapshots do not yet capture host validators", target)
  | MaterializeTokenVm, [] =>
      match (let* _ := flush in or_panic (materialize_query_projection snapshot)) with
      | Err e => (Err e, target)
      | Panic => (Panic, target)
      | Ok world =>
          match journal with
          | None => (Err "journal cannot be read", target)
          | Some journal =>
              match world_vm_query world with
              | None => (Panic, target)
              | Some (projection, world) =>
                  create io target journal durable_epochs world projection
              end
          end
      end
  end.
End write.

(** ** Recovery *)

Section recovery.
Context {D P : Type} `{KernelLaws D, MappedRootLaws P}.
Implicit Types (w : World D P) (fs : list CommitFrame).

(** The world with its caches filled is the same world. *)
Record same_state (w w' : World D P) : Prop := {
  ss_id : w_id w' = w_id w;
  ss_version : w_version w' = w_version w;
  ss_next_entity : w_next_entity w' = w_next_entity w;
}.

Lemma world_vm_query_native w fs q w' :
  world_ok w fs → (∀ q, w_vm_query w = Some q → vq_mapped q = None) → world_vm_query w = Some (q, w') →
  projection_rep q (frame_events fs) ∧ world_ok w' fs ∧ same_state w w' ∧ w_vm_query w' = Some q.
Proof.
  intros Hw Hm. unfold world_vm_query. destruct (w_vm_query w) as [q'|] eqn:Hq.
  - intros [= <- <-]. split_and!; [|done..].
    destruct (wo_query _ _ Hw _ Hq) as [?|(p & Hp & _)]; [done|]. by rewrite (Hm _ eq_refl) in Hp.
  - destruct (w_history w); [|done]. intros [= <- <-]. rewrite (wo_frames _ _ Hw).
    pose proof (projection_from_frames_rep (P := P) fs) as Hr. split_and!; [done| |done|done].
    apply set_vm_query_ok; [done|by left].
Qed.

(** What is written is the projection of the history. *)
Lemma write_creates io kind validators flush w fs journal durable target md file :
  world_ok w fs → (∀ q, w_vm_query w = Some q → vq_mapped q = None) →
  write_mmap_snapshot io kind validators flush w (Some journal) durable target = (Ok md, file) →
  ∃ q w', projection_rep q (frame_events fs) ∧ world_ok w' fs ∧ same_state w w' ∧
    create io target journal durable w' q = (Ok md, file).
Proof.
  intros Hw Hm. unfold write_mmap_snapshot. destruct kind; [done|]. destruct validators; [|done].
  destruct flush; cbn [outcome_bind]; [|done..].
  unfold materialize_query_projection. destruct (w_eager_kernel w) as [k|] eqn:He.
  - unfold world_kernel at 1. rewrite He. cbn [fmap option_fmap option_map or_panic snd].
    destruct (world_vm_query w) as [[q w']|] eqn:Hq; [|done]. intros Hc. exists q, w'.
    by destruct (world_vm_query_native _ _ _ _ Hw Hm Hq) as (? & ? & ? & _).
  - destruct (world_vm_query w) as [[q w']|] eqn:Hq; [|done]. cbn [fmap option_fmap option_map or_panic snd].
    destruct (world_vm_query_native _ _ _ _ Hw Hm Hq) as (Hr & Hw' & Hs & Hq'). unfold world_vm_query.
    rewrite Hq'. intros Hc. by exists q, w'.
Qed.

Lemma create_Ok io target journal durable w q md file :
  create io target journal durable w q = (Ok md, file) →
  ∃ bytes, snapshot_bytes journal durable w q = Ok bytes ∧ file = Some bytes.
Proof.
  unfold create. destruct (snapshot_bytes _ _ _ _) as [bytes|e|]; [|done..].
  destruct io; try done. intros [= _ <-]. by exists bytes.
Qed.
End recovery.

(** C40: Recovery from a snapshot.  When a controller writes a snapshot, the
    journal that the call read, exactly, reopens without replaying an epoch: no
    epoch is decoded, the count of epochs is the one the snapshot was given, and
    the world and the VM that the controller starts from hold the history of the
    world that the call read, with its identity, version and allocator.  On any
    other journal that goes on from those bytes the image is not used, so that
    recovery is that of the journal alone. *)
Theorem journal_snapshot_recovery {D P : Type} `{KernelLaws D, MappedRootLaws P}
    io kind (validators : list (CandidateWorld D → outcome string unit)) flush (world : World D P)
    (fs : list CommitFrame) journal durable target md bytes (counter : N) :
  world_ok world fs → Forall frame_wf fs → (∀ q, w_vm_query world = Some q → vq_mapped q = None) →
  u64_ok durable → u64_ok (N.of_nat (length journal)) → check_header journal = Ok tt →
  write_mmap_snapshot io kind validators flush world (Some journal) durable target = (Ok md, Some bytes) →
  let image := opened_journal (Some bytes) in
  (∃ p m,
    @recover_journal _ image journal_io_ok true counter journal =
      (Ok (RecoveredJournal_mk [] (N.of_nat (length journal)) durable (Some p), counter), journal) ∧
    replay_epochs (D := D) (Some p) [] [] MaterializeTokenVm = Ok (world_from_mmap p, TokenVm m) ∧
    stands_for p fs (w_id world) (w_version world) (w_next_entity world) ∧
    mat_ok m (frame_events fs) (w_next_entity world)) ∧
  (∀ allow tail, tail ≠ [] → @no_image _ image allow (journal ++ tail)).
Proof.
  intros Hw Hwf Hm Hd Hju Hh Hwr.
  destruct (write_creates _ _ _ _ _ _ _ _ _ _ _ Hw Hm Hwr) as (q & w' & Hq & Hw' & [Hs1 Hs2 Hs3] & Hc).
  apply create_Ok in Hc as (bytes' & Hb & [= <-]). rewrite <- Hs1, <- Hs2, <- Hs3.
  assert (16 ≤ length journal) as H16.
  { unfold check_header in Hh. case_decide as Hlen; [done|]. unfold JOURNAL_HEADER_LEN in Hlen. lia. }
  assert (∀ suffix, ∃ p, open_snapshot bytes (journal ++ suffix) = Some p ∧
    snapshot_ok (os_snapshot p) fs ∧ ms_epoch_count (os_snapshot p) = durable ∧
    ms_journal_offset (os_snapshot p) = N.of_nat (length journal) ∧
    mr_world_id p = w_id w' ∧ mr_world_version p = w_version w' ∧ mr_next_entity p = w_next_entity w') as Hopen.
  { intros suffix.
    destruct (snapshot_bytes_open w' q fs journal suffix durable bytes Hw' Hq Hwf Hd Hju H16 Hb)
      as (s & Ho & Hok & Hrest). destruct (open_snapshot_ok _ _ _ Ho) as (p & Hp & <-).
    exists p. exact (conj Hp (conj Hok Hrest)). }
  split.
  - destruct (Hopen []) as (p & Hp & Hok & He & Ho & H1' & H2' & H3'). rewrite app_nil_r in Hp.
    destruct (materializer_from_mmap_ok p fs 0 Hok ltac:(done)) as (m & Hmat & Hmok & _). exists p, m. split_and!.
    + unfold recover_journal. rewrite !(decide_False (P := length journal = 0)) by lia.
      cbn [jio_read journal_io_ok]. rewrite Hh. cbn [mj_open opened_journal mbind option_bind]. rewrite Hp.
      cbn [mj_journal_offset mj_epoch_count opened_journal]. by rewrite Ho, decide_True, He.
    + unfold replay_epochs, replay_materializer. cbn [replay_start]. by rewrite Hmat.
    + rewrite <- H1', <- H2', <- H3'. by apply snapshot_stands_for.
    + rewrite <- H3'. exact Hmok.
  - intros allow tail Ht _ p' Hp'. destruct (Hopen tail) as (p & Hp & _ & _ & Ho & _).
    cbn [mj_open opened_journal mbind option_bind] in Hp'. rewrite Hp in Hp'. injection Hp' as <-.
    cbn [mj_journal_offset opened_journal]. rewrite Ho, length_app. destruct tail; [done|]. simpl. lia.
Qed.

Definition first_epoch : list QueuedIntent := [named_intent 1 "Ada"].

(** The world that the token VM makes of a journal's epochs. *)
Definition vm_world (epochs : list (list QueuedIntent)) : World ForthDb Empty_set :=
  match replay_epochs None epochs [] MaterializeTokenVm with Ok (w, _) => w | _ => genesis end.

Definition first_operations : list Operation :=
  [AllocateEntity (EntityId_new 1);
   OpDefine (SlotId_new "user/ada")
     (Fact_new (AEntity (EntityId_new 1)) (Predicate_new "name") (ALiteral (Literal_new "Ada")))].

Definition first_frame : CommitFrame := (from_vm_epoch (D := ForthDb) (P := Empty_set) genesis first_operations 2 1 1).2.

Lemma first_world : vm_world [first_epoch] = (from_vm_epoch genesis first_operations 2 1 1).1.
Proof. vm_compute. reflexivity. Qed.

Lemma first_world_ok : world_ok (vm_world [first_epoch]) [first_frame].
Proof.
  rewrite first_world. apply (from_vm_epoch_ok genesis [] first_operations 2 1 1);
    [apply genesis_ok|reflexivity|reflexivity|vm_compute; reflexivity|reflexivity].
Qed.

Lemma first_frame_wf : Forall frame_wf [first_frame].
Proof.
  apply Forall_singleton. split_and!; [reflexivity|apply calculate_world_id_ok|reflexivity..|].
  repeat constructor.
Qed.

(** The snapshot of a quiet controller. *)
Definition first_snapshot : outcome string MmapSnapshotMetadata * option (list u8) :=
  write_mmap_snapshot CreateOk MaterializeTokenVm [] (Ok tt) (vm_world [first_epoch])
    (Some (journal_file [first_epoch])) 1 None.

Lemma journal_snapshot_recovery_witness :
  ∃ md bytes p m, first_snapshot = (Ok md, Some bytes) ∧
    @recover_journal _ (opened_journal (Some bytes)) journal_io_ok true 1 (journal_file [first_epoch]) =
      (Ok (RecoveredJournal_mk [] (N.of_nat (length (journal_file [first_epoch]))) 1 (Some p), 1%N),
       journal_file [first_epoch]) ∧
    replay_epochs (D := ForthDb) (Some p) [] [] MaterializeTokenVm = Ok (world_from_mmap p, TokenVm m) ∧
    stands_for p [first_frame] (w_id (vm_world [first_epoch])) 1 2.
Proof.
  assert (match first_snapshot with (Ok _, Some _) => True | _ => False end) as Hok by (vm_compute; exact I).
  destruct first_snapshot as [[md|m|] [bytes|]] eqn:Hc; [|destruct Hok..].
  assert (w_version (vm_world [first_epoch]) = 1%N ∧ w_next_entity (vm_world [first_epoch]) = 2%N) as [Hv Hn]
    by (rewrite first_world; split; reflexivity).
  destruct (journal_snapshot_recovery CreateOk MaterializeTokenVm [] (Ok tt) (vm_world [first_epoch])
    [first_frame] (journal_file [first_epoch]) 1 None md bytes 1 first_world_ok first_frame_wf
    ltac:(intros q; rewrite first_world; discriminate) ltac:(reflexivity) ltac:(vm_compute; reflexivity)
    ltac:(vm_compute; reflexivity) Hc) as [(p & m & Hr & Hp & Hs & _) _].
  exists md, bytes, p, m. rewrite Hv, Hn in Hs. exact (conj eq_refl (conj Hr (conj Hp Hs))).
Defined.

(** ** Where the call goes wrong *)

(** A controller that has published nothing has a world without a history: asking
    for its query view fails an assertion. *)
Lemma empty_snapshot_panics (journal : list u8) target :
  write_mmap_snapshot (D := ForthDb) (P := Empty_set) CreateOk MaterializeTokenVm [] (Ok tt) genesis
    (Some journal) 0 target = (Panic, target).
Proof. reflexivity. Qed.

Definition second_epoch : list QueuedIntent :=
  [intent_define (expect_absent (intent_new 2).1 (SlotId_new "user/byron")) (SlotId_new "user/byron")
     (IntentFact_new (ILiteral (Literal_new "Byron")) (Predicate_new "is") (ILiteral (Literal_new "here")))].

Definition resolves (w : World ForthDb Empty_set) (slot : string) : option bool :=
  '(f, _) ← world_resolve w (SlotId_new slot); Some (bool_decide (is_Some f)).

(** The first epoch is published when the call reads the world; the second is
    durable when it reads the journal.  The image then says that it covers the
    whole journal.  When the journal is opened again, it has two epochs, none is
    replayed, and what the second one defined, which the journal's replay has, is
    gone. *)
Lemma snapshot_race_loses_epoch :
  let journal := journal_file [first_epoch; second_epoch] in
  match write_mmap_snapshot CreateOk MaterializeTokenVm [] (Ok tt) (vm_world [first_epoch]) (Some journal) 2 None with
  | (Ok md, Some bytes) =>
      md_world_version md = 1%N ∧
      match @recover_journal _ (opened_journal (Some bytes)) journal_io_ok true 3 journal with
      | (Ok (r, _), _) => rj_epochs r = [] ∧ rj_total_epochs r = 2%N ∧
          match replay_epochs (D := ForthDb) (rj_snapshot r) (rj_epochs r) [] MaterializeTokenVm with
          | Ok (w, _) => w_version w = 1%N ∧
              (fst <$> world_resolve w (SlotId_new "user/byron")) = Some None
          | _ => False
          end
      | _ => False
      end
  | _ => False
  end ∧
  w_version (vm_world [first_epoch; second_epoch]) = 2%N ∧
  resolves (vm_world [first_epoch; second_epoch]) "user/byron" = Some true.
Proof. vm_compute. repeat split; reflexivity. Qed.
