(* ===== verification/Ast.v ===== *)
(** Transactions as trees and their lowering (forthdb-world/src/transaction_ast.rs):
    a transaction names slots, predicates, literals and the entities it
    allocates by strings; lowering numbers the names and emits a frame of the
    semantic ISA.

    The lowering works on references into the transaction (a [StrRef] is an
    operation index and a field), sorts and deduplicates them, and finds names
    by binary search.  [lower_to_sisa_reference] is the earlier lowering that
    the tests keep, on ordered sets and maps. *)
From Stdlib Require Import NArith Lia.
From stdpp Require Import sorting base gmap list strings option list_monad.
From S2P Require Import Prelude Ord Terms Query Spec Index Kernel StackVm Parser Isa.

(** ** Transactions *)

Record AstEntityId := AstEntityId_mk { ast_entity : N }.
Record AstWorldId := AstWorldId_mk { ast_world : N }.

Inductive AtomRef :=
| RefEntity (e : AstEntityId)
| RefLiteral (l : string)
| RefSymbol (s : string).

Inductive TransactionOp :=
| TxAllocate (result : string)
| TxExpectWorld (expected : AstWorldId)
| TxExpectObject (slot : string) (expected : AtomRef)
| TxDefine (slot : string) (subject : AtomRef) (predicate : string) (object : AtomRef)
| TxForget (slot : string)
| TxReject.

Record TransactionAST := TransactionAST_new {
  ast_namespace : N;
  ast_operations : list TransactionOp;
}.

Record SemanticIntent := SemanticIntent_new { si_ast : TransactionAST }.

(** [SemanticBindings]: names in the order given. *)
Record SemanticBindings := SemanticBindings_new { sb_entries : list (string * AstEntityId) }.

Definition bindings_get (b : SemanticBindings) (symbol : string) : option AstEntityId :=
  snd ∘ snd <$> list_find (λ e, e.1 = symbol) (sb_entries b).

(** Borrowed views. *)
Inductive AtomRefView :=
| ViewEntity (e : AstEntityId)
| ViewLiteral (l : string)
| ViewSymbol (s : string).

Inductive TransactionOpView :=
| ViewAllocate (result : string)
| ViewExpectWorld (expected : AstWorldId)
| ViewExpectObject (slot : string) (expected : AtomRefView)
| ViewDefine (slot : string) (subject : AtomRefView) (predicate : string) (object : AtomRefView)
| ViewForget (slot : string)
| ViewReject.

Definition atom_view (a : AtomRef) : AtomRefView :=
  match a with
  | RefEntity e => ViewEntity e
  | RefLiteral l => ViewLiteral l
  | RefSymbol s => ViewSymbol s
  end.

Definition op_view (op : TransactionOp) : TransactionOpView :=
  match op with
  | TxAllocate result => ViewAllocate result
  | TxExpectWorld expected => ViewExpectWorld expected
  | TxExpectObject slot expected => ViewExpectObject slot (atom_view expected)
  | TxDefine slot subject predicate object =>
      ViewDefine slot (atom_view subject) predicate (atom_view object)
  | TxForget slot => ViewForget slot
  | TxReject => ViewReject
  end.

(** [trait OperationSource]; an index out of range panics. *)
Record OperationSource := OperationSource_mk {
  source_len : nat;
  source_operation : nat → option TransactionOpView;
}.

Definition OwnedOperationSource (ops : list TransactionOp) : OperationSource :=
  OperationSource_mk (length ops) (λ i, op_view <$> ops !! i).
Definition BorrowedOperationSource (views : list TransactionOpView) : OperationSource :=
  OperationSource_mk (length views) (λ i, views !! i).

Record TransactionView := TransactionView_borrowed {
  tv_namespace : N;
  tv_operations : list TransactionOpView;
}.

(** ** References into a transaction *)

Inductive LoweringError :=
| DuplicateAllocation (symbol : string)
| UndefinedSymbol (symbol : string)
| LocalCountOverflow
| UnsupportedDynamicSymbolExpectObject.

Inductive StrRef :=
| StrAlloc (i : nat)
| StrExpectSlot (i : nat)
| StrExpectExpected (i : nat)
| StrDefSlot (i : nat)
| StrDefSubject (i : nat)
| StrDefPredicate (i : nat)
| StrDefObject (i : nat)
| StrForgetSlot (i : nat).

(** [StrRef::as_str]: [None] is [unreachable!]. *)
Definition as_str (src : OperationSource) (r : StrRef) : option string :=
  match r with
  | StrAlloc i => op ← source_operation src i;
      match op with ViewAllocate result => Some result | _ => None end
  | StrExpectSlot i => op ← source_operation src i;
      match op with ViewExpectObject slot _ => Some slot | _ => None end
  | StrExpectExpected i => op ← source_operation src i;
      match op with ViewExpectObject _ (ViewLiteral l) => Some l | _ => None end
  | StrDefSlot i => op ← source_operation src i;
      match op with ViewDefine slot _ _ _ => Some slot | _ => None end
  | StrDefSubject i => op ← source_operation src i;
      match op with ViewDefine _ (ViewLiteral l) _ _ => Some l | _ => None end
  | StrDefPredicate i => op ← source_operation src i;
      match op with ViewDefine _ _ predicate _ => Some predicate | _ => None end
  | StrDefObject i => op ← source_operation src i;
      match op with ViewDefine _ _ _ (ViewLiteral l) => Some l | _ => None end
  | StrForgetSlot i => op ← source_operation src i;
      match op with ViewForget slot => Some slot | _ => None end
  end.

Definition as_strs (src : OperationSource) (refs : list StrRef) : option (list string) :=
  mapM (as_str src) refs.

(** [iter().position(..)], and [binary_search_by_key] on a strictly sorted slice,
    where the match is unique. *)
Definition position (key : string) (keys : list string) : option nat :=
  fst <$> list_find (λ k, k = key) keys.

(** Elements with the key of their predecessor are dropped. *)
Fixpoint dedup_by_key (l : list (string * StrRef)) : list (string * StrRef) :=
  match l with
  | [] => []
  | x :: l =>
      match dedup_by_key l with
      | y :: kept => if decide (x.1 = y.1) then x :: kept else x :: y :: kept
      | [] => [x]
      end
  end.

(** [sort_unstable_by_key] then [dedup_by]; which of several references to the
    same string survives does not show, since a reference is only ever read. *)
Definition key_le (x y : string * StrRef) : Prop := ord_le x.1 y.1.
#[export] Instance key_le_dec : RelDecision key_le.
Proof. intros x y. unfold key_le. apply _. Defined.

Definition sort_dedup (src : OperationSource) (refs : list StrRef) : option (list StrRef) :=
  keys ← as_strs src refs;
  Some (dedup_by_key (merge_sort key_le (zip keys refs))).*2.

(** ** The lowering context *)

Record LoweringContext := LoweringContext_mk {
  scratch_slots : list StrRef;
  scratch_predicates : list StrRef;
  scratch_literals : list StrRef;
  scratch_symbols : list StrRef;
  lc_instructions : list Instruction;
  lc_dict_slots : list (SlotToken * SlotId);
  lc_dict_predicates : list (Cell * Predicate);
  lc_dict_literals : list (Cell * Literal);
}.

Definition LoweringContext_new : LoweringContext := LoweringContext_mk [] [] [] [] [] [] [] [].

(** Field updates. *)
Definition lc_scratch (slots predicates literals symbols : list StrRef) (c : LoweringContext) :
    LoweringContext :=
  LoweringContext_mk slots predicates literals symbols (lc_instructions c) (lc_dict_slots c)
    (lc_dict_predicates c) (lc_dict_literals c).
Definition lc_emit (code : list Instruction) (c : LoweringContext) : LoweringContext :=
  LoweringContext_mk (scratch_slots c) (scratch_predicates c) (scratch_literals c) (scratch_symbols c)
    (lc_instructions c ++ code) (lc_dict_slots c) (lc_dict_predicates c) (lc_dict_literals c).
Definition lc_set_output (code : list Instruction) (d : StreamDictionary) (c : LoweringContext) :
    LoweringContext :=
  LoweringContext_mk (scratch_slots c) (scratch_predicates c) (scratch_literals c) (scratch_symbols c)
    code (dict_slots d) (dict_predicates d) (dict_literals d).

Definition lc_push (slots predicates literals symbols : list StrRef) (c : LoweringContext) :
    LoweringContext :=
  lc_scratch (scratch_slots c ++ slots) (scratch_predicates c ++ predicates)
    (scratch_literals c ++ literals) (scratch_symbols c ++ symbols) c.

Definition lc_clear (c : LoweringContext) : LoweringContext := LoweringContext_new.

(** [reclaim]: the buffers of a frame are taken back, then cleared. *)
Definition reclaim (frame : InstructionStreamFrame) (c : LoweringContext) : LoweringContext :=
  lc_clear (lc_set_output (isa_instructions frame) (isa_dictionary frame) c).

(** A method on [&mut self] that may fail. *)
Definition low (A : Type) : Type := LoweringContext → outcome LoweringError A * LoweringContext.

#[export] Instance low_ret : MRet low := λ A a c, (Ok a, c).
#[export] Instance low_bind : MBind low := λ A B k m c,
  match m c with
  | (Ok a, c) => k a c
  | (Err e, c) => (Err e, c)
  | (Panic, c) => (Panic, c)
  end.

Definition low_get : low LoweringContext := λ c, (Ok c, c).
Definition low_modify (f : LoweringContext → LoweringContext) : low unit := λ c, (Ok tt, f c).
Definition low_lift {A} (o : outcome LoweringError A) : low A := λ c, (o, c).

(** [for i in l { f(i)? }]. *)
Fixpoint low_for (f : nat → low unit) (l : list nat) : low unit :=
  match l with
  | [] => mret tt
  | i :: l => _ ← f i; low_for f l
  end.

(** ** Lowering *)

(** [if let Literal(_) = atom { push(r) }]. *)
Definition literal_ref (a : AtomRefView) (r : StrRef) : list StrRef :=
  match a with ViewLiteral _ => [r] | _ => [] end.

(** The first loop. *)
Definition collect (src : OperationSource) (i : nat) : low unit :=
  op ← low_lift (or_panic (source_operation src i));
  match op with
  | ViewAllocate result =>
      c ← low_get;
      seen ← low_lift (or_panic (as_strs src (scratch_symbols c)));
      if decide (result ∈ seen) then low_lift (Err (DuplicateAllocation result))
      else low_modify (lc_push [] [] [] [StrAlloc i])
  | ViewExpectWorld _ => mret tt
  | ViewExpectObject _ expected =>
      low_modify (lc_push [StrExpectSlot i] [] (literal_ref expected (StrExpectExpected i)) [])
  | ViewDefine _ subject _ object =>
      low_modify (lc_push [StrDefSlot i] [StrDefPredicate i]
        (literal_ref subject (StrDefSubject i) ++ literal_ref object (StrDefObject i)) [])
  | ViewForget _ => low_modify (lc_push [StrForgetSlot i] [] [] [])
  | ViewReject => mret tt
  end.

Definition sort_scratch (src : OperationSource) : low unit :=
  c ← low_get;
  slots ← low_lift (or_panic (sort_dedup src (scratch_slots c)));
  predicates ← low_lift (or_panic (sort_dedup src (scratch_predicates c)));
  literals ← low_lift (or_panic (sort_dedup src (scratch_literals c)));
  low_modify (lc_scratch slots predicates literals (scratch_symbols c)).

(** The index of a name that must be there. *)
Definition find_ref (src : OperationSource) (refs : list StrRef) (key : string) :
    outcome LoweringError nat :=
  let* keys := or_panic (as_strs src refs) in
  or_panic (position key keys).

Definition find_literal (src : OperationSource) (c : LoweringContext) (l : string) :
    outcome LoweringError Cell :=
  let* i := find_ref src (scratch_literals c) l in
  Ok (N.of_nat (i + length (scratch_predicates c))).

Definition find_slot (src : OperationSource) (c : LoweringContext) (slot : string) :
    outcome LoweringError SlotToken :=
  let* i := find_ref src (scratch_slots c) slot in Ok (as_u32 i).

Definition load_atom (src : OperationSource) (c : LoweringContext) (a : AtomRefView) :
    outcome LoweringError Instruction :=
  match a with
  | ViewEntity e => Ok (i_push (ast_entity e))
  | ViewLiteral l => let* cell := find_literal src c l in Ok (i_push cell)
  | ViewSymbol s =>
      let* symbols := or_panic (as_strs src (scratch_symbols c)) in
      match position s symbols with
      | Some local => Ok (i_load_local (as_u32 local))
      | None => Err (UndefinedSymbol s)
      end
  end.

(** The second loop. *)
Definition emit (src : OperationSource) (i : nat) : low unit :=
  op ← low_lift (or_panic (source_operation src i));
  match op with
  | ViewAllocate result =>
      c ← low_get;
      local ← low_lift (find_ref src (scratch_symbols c) result);
      low_modify (lc_emit [i_allocate; i_store_local (as_u32 local)])
  | ViewExpectWorld expected =>
      low_modify (lc_emit [Instruction_raw ExpectObject NONE (ast_world expected)])
  | ViewExpectObject slot expected =>
      c ← low_get;
      token ← low_lift (find_slot src c slot);
      cell ← low_lift (match expected with
        | ViewEntity e => Ok (ast_entity e)
        | ViewLiteral l => find_literal src c l
        | ViewSymbol _ => Err UnsupportedDynamicSymbolExpectObject
        end);
      low_modify (lc_emit [Instruction_raw ExpectObject token cell])
  | ViewDefine slot subject predicate object =>
      c ← low_get;
      s ← low_lift (load_atom src c subject);
      _ ← low_modify (lc_emit [s]);
      pred ← low_lift (find_ref src (scratch_predicates c) predicate);
      _ ← low_modify (lc_emit [i_push (N.of_nat pred)]);
      o ← low_lift (load_atom src c object);
      _ ← low_modify (lc_emit [o]);
      token ← low_lift (find_slot src c slot);
      low_modify (lc_emit [i_define token])
  | ViewForget slot =>
      c ← low_get;
      token ← low_lift (find_slot src c slot);
      low_modify (lc_emit [i_forget token])
  | ViewReject => low_modify (lc_emit [i_reject])
  end.

Definition lower_transient (namespace : N) (src : OperationSource) : low N :=
  _ ← low_modify lc_clear;
  _ ← low_for (collect src) (seq 0 (source_len src));
  c ← low_get;
  let local_count := as_u32 (length (scratch_symbols c)) in
  _ ← sort_scratch src;
  _ ← low_for (emit src) (seq 0 (source_len src));
  mret local_count.

(** The dictionaries, from the sorted names; [std::mem::take] leaves the context's
    output empty. *)
Definition lower_from_source (namespace : N) (src : OperationSource) : low InstructionStreamFrame :=
  local_count ← lower_transient namespace src;
  c ← low_get;
  slots ← low_lift (or_panic (as_strs src (scratch_slots c)));
  predicates ← low_lift (or_panic (as_strs src (scratch_predicates c)));
  literals ← low_lift (or_panic (as_strs src (scratch_literals c)));
  let literal_offset := length (scratch_predicates c) in
  let dict := StreamDictionary_mk
    (lc_dict_slots c ++ imap (λ i s, (as_u32 i, SlotId_new s)) slots)
    (lc_dict_predicates c ++ imap (λ i p, (N.of_nat i, Predicate_new p)) predicates)
    (lc_dict_literals c ++ imap (λ i l, (N.of_nat (i + literal_offset), Literal_new l)) literals) in
  _ ← low_modify (lc_set_output [] StreamDictionary_new);
  mret (InstructionStreamFrame_new namespace dict local_count (lc_instructions c)).

(** [TransactionAST::lower_to_sisa_with], [lower_to_sisa] with a context of its
    own, and [TransactionView::lower_to_sisa_with]. *)
Definition lower_to_sisa_with (ast : TransactionAST) : low InstructionStreamFrame :=
  lower_from_source (ast_namespace ast) (OwnedOperationSource (ast_operations ast)).
Definition lower_to_sisa (ast : TransactionAST) : outcome LoweringError InstructionStreamFrame :=
  (lower_to_sisa_with ast LoweringContext_new).1.
Definition view_lower_to_sisa_with (v : TransactionView) : low InstructionStreamFrame :=
  lower_from_source (tv_namespace v) (BorrowedOperationSource (tv_operations v)).

(** [with_lowered]: the callback runs on the program, which stays in the context. *)
Definition with_lowered {R} (namespace : N) (src : OperationSource) (callback : IntentProgram → R) :
    low R :=
  local_count ← lower_transient namespace src;
  c ← low_get;
  mret (callback (IntentProgram_new local_count (lc_instructions c))).

(** ** The reference lowering *)

(** The elements of a [BTreeSet<String>] in order. *)
Definition btree_elements (s : gset string) : list string := ord_sort (elements s).

Record RefNames := RefNames_mk {
  rn_slots : gset string;
  rn_predicates : gset string;
  rn_literals : gset string;
  rn_symbols : gmap string N;
  rn_locals : N;
}.

Definition literal_name (a : AtomRef) : gset string :=
  match a with RefLiteral l => {[ l ]} | _ => ∅ end.

Definition reference_collect (n : RefNames) (op : TransactionOp) : outcome LoweringError RefNames :=
  match op with
  | TxAllocate result =>
      match rn_symbols n !! result with
      | Some _ => Err (DuplicateAllocation result)
      | None =>
          if (rn_locals n + 1 <? u32_modulus)%N
          then Ok (RefNames_mk (rn_slots n) (rn_predicates n) (rn_literals n)
                     (<[result := rn_locals n]> (rn_symbols n)) (rn_locals n + 1))
          else Err LocalCountOverflow
      end
  | TxExpectWorld _ => Ok n
  | TxExpectObject slot expected =>
      Ok (RefNames_mk ({[ slot ]} ∪ rn_slots n) (rn_predicates n) (literal_name expected ∪ rn_literals n)
            (rn_symbols n) (rn_locals n))
  | TxDefine slot subject predicate object =>
      Ok (RefNames_mk ({[ slot ]} ∪ rn_slots n) ({[ predicate ]} ∪ rn_predicates n)
            (literal_name object ∪ (literal_name subject ∪ rn_literals n)) (rn_symbols n) (rn_locals n))
  | TxForget slot =>
      Ok (RefNames_mk ({[ slot ]} ∪ rn_slots n) (rn_predicates n) (rn_literals n) (rn_symbols n)
            (rn_locals n))
  | TxReject => Ok n
  end.

Record RefMaps := RefMaps_mk {
  rm_slots : gmap string SlotToken;
  rm_predicates : gmap string Cell;
  rm_literals : gmap string Cell;
  rm_symbols : gmap string N;
}.

(** [for (i, name) in names.enumerate() { map.insert(name, code(i)) }]. *)
Definition enumerate_map (code : nat → N) (names : list string) : gmap string N :=
  list_to_map (imap (λ i name, (name, code i)) names).

Definition reference_maps (n : RefNames) : RefMaps :=
  let predicates := btree_elements (rn_predicates n) in
  let predicate_map := enumerate_map N.of_nat predicates in
  RefMaps_mk (enumerate_map as_u32 (btree_elements (rn_slots n))) predicate_map
    (enumerate_map (λ i, N.of_nat (i + size predicate_map)) (btree_elements (rn_literals n)))
    (rn_symbols n).

Definition reference_dictionary (n : RefNames) : StreamDictionary :=
  let predicates := btree_elements (rn_predicates n) in
  StreamDictionary_mk
    (imap (λ i s, (as_u32 i, SlotId_new s)) (btree_elements (rn_slots n)))
    (imap (λ i p, (N.of_nat i, Predicate_new p)) predicates)
    (imap (λ i l, (N.of_nat (i + size (enumerate_map N.of_nat predicates)), Literal_new l))
       (btree_elements (rn_literals n))).

Definition reference_atom (m : RefMaps) (a : AtomRef) : outcome LoweringError Instruction :=
  match a with
  | RefEntity e => Ok (i_push (ast_entity e))
  | RefLiteral l => let* cell := or_panic (rm_literals m !! l) in Ok (i_push cell)
  | RefSymbol s =>
      match rm_symbols m !! s with
      | Some local => Ok (i_load_local local)
      | None => Err (UndefinedSymbol s)
      end
  end.

Definition reference_emit (m : RefMaps) (op : TransactionOp) : outcome LoweringError (list Instruction) :=
  match op with
  | TxAllocate result =>
      let* local := or_panic (rm_symbols m !! result) in
      Ok [i_allocate; i_store_local local]
  | TxExpectWorld expected => Ok [Instruction_raw ExpectObject NONE (ast_world expected)]
  | TxExpectObject slot expected =>
      let* token := or_panic (rm_slots m !! slot) in
      let* cell := match expected with
        | RefEntity e => Ok (ast_entity e)
        | RefLiteral l => or_panic (rm_literals m !! l)
        | RefSymbol _ => Err UnsupportedDynamicSymbolExpectObject
        end in
      Ok [Instruction_raw ExpectObject token cell]
  | TxDefine slot subject predicate object =>
      let* s := reference_atom m subject in
      let* p := or_panic (rm_predicates m !! predicate) in
      let* o := reference_atom m object in
      let* token := or_panic (rm_slots m !! slot) in
      Ok [s; i_push p; o; i_define token]
  | TxForget slot => let* token := or_panic (rm_slots m !! slot) in Ok [i_forget token]
  | TxReject => Ok [i_reject]
  end.

Definition reference_names (ops : list TransactionOp) : outcome LoweringError RefNames :=
  outcome_fold reference_collect ops (RefNames_mk ∅ ∅ ∅ ∅ 0).

Definition reference_program (m : RefMaps) (ops : list TransactionOp) :
    outcome LoweringError (list Instruction) :=
  outcome_fold (λ acc op, let* code := reference_emit m op in Ok (acc ++ code)) ops [].

Definition lower_to_sisa_reference (ast : TransactionAST) :
    outcome LoweringError InstructionStreamFrame :=
  let* names := reference_names (ast_operations ast) in
  let* code := reference_program (reference_maps names) (ast_operations ast) in
  Ok (InstructionStreamFrame_new (ast_namespace ast) (reference_dictionary names) (rn_locals names) code).
