(* ===== verification/AstFacts.v ===== *)
(** The lowering of transactions against the reference lowering: references
    stand for strings, sorting and deduplicating them enumerates an ordered set,
    and both loops keep step with the loops of the reference. *)
From Stdlib Require Import NArith Lia.
From stdpp Require Import sorting base gmap list strings option list_monad.
From S2P Require Import Prelude Ord Terms Query Spec Index Kernel StackVm Parser Isa Ast.

(** ** References and the strings they stand for *)

Section refs.
Context (src : OperationSource).

Definition stand_for (refs : list StrRef) (keys : list string) : Prop :=
  Forall2 (λ r k, as_str src r = Some k) refs keys.

Lemma stand_for_strs refs keys : as_strs src refs = Some keys ↔ stand_for refs keys.
Proof. apply mapM_Some. Qed.

Lemma stand_for_snoc refs keys refs' keys' :
  stand_for refs keys → stand_for refs' keys' → stand_for (refs ++ refs') (keys ++ keys').
Proof. apply Forall2_app. Qed.

(** ** Sorting and deduplicating *)

Lemma elem_of_dedup l k : k ∈ (dedup_by_key l).*1 ↔ k ∈ l.*1.
Proof.
  induction l as [|x l IH]; [done|]. cbn [dedup_by_key fmap list_fmap]. rewrite elem_of_cons, <- IH.
  destruct (dedup_by_key l) as [|y kept]; [set_solver|].
  case_decide as Hk; cbn [fmap list_fmap]; rewrite !elem_of_cons; [rewrite Hk; tauto|done].
Qed.

Lemma Forall_dedup (Q : string * StrRef → Prop) l : Forall Q l → Forall Q (dedup_by_key l).
Proof.
  induction 1 as [|x l Hx _ IH]; [constructor|]. cbn [dedup_by_key].
  destruct (dedup_by_key l) as [|y kept]; [by repeat constructor|].
  case_decide; [|by constructor]. constructor; [done|]. by apply Forall_inv_tail in IH.
Qed.

Definition str_lt (x y : string) : Prop := cmp x y = Lt.

Lemma dedup_sorted l : StronglySorted key_le l → StronglySorted str_lt (dedup_by_key l).*1.
Proof.
  induction 1 as [|x l Hl IH Hx]; [constructor|]. cbn [dedup_by_key].
  pose proof (Forall_dedup _ _ Hx) as Hd.
  destruct (dedup_by_key l) as [|y kept]; [by repeat constructor|].
  apply Forall_cons in Hd as [Hxy _]. inversion IH as [|? ? Hk Hy]; subst.
  case_decide as Heq; cbn [fmap list_fmap]; constructor; [done|by rewrite Heq|by constructor|].
  assert (str_lt x.1 y.1) as Hlt.
  { unfold key_le, ord_le in Hxy. unfold str_lt. destruct (cmp x.1 y.1) eqn:E; try done.
    by apply cmp_eq in E. }
  constructor; [done|]. eapply Forall_impl; [exact Hy|]. intros k. by apply cmp_trans.
Qed.

Lemma str_lt_NoDup l : StronglySorted str_lt l → NoDup l.
Proof.
  induction 1 as [|x l _ IH Hx]; constructor; [|done].
  intros Hin. rewrite Forall_forall in Hx. specialize (Hx _ Hin). unfold str_lt in Hx.
  by rewrite cmp_refl in Hx.
Qed.

Lemma str_lt_sorted l : StronglySorted str_lt l → Sorted ord_le l.
Proof.
  intros Hl. apply StronglySorted_Sorted. induction Hl as [|x l _ IH Hx]; constructor; [done|].
  eapply Forall_impl; [exact Hx|]. unfold str_lt, ord_le. by intros y ->.
Qed.

#[local] Instance key_le_total : Total key_le.
Proof. intros x y. apply (ord_le_total (A := string)). Qed.
#[local] Instance key_le_trans : Transitive key_le.
Proof. intros x y z. apply (ord_le_trans (A := string)). Qed.

Lemma sort_dedup_spec refs keys :
  stand_for refs keys →
  ∃ refs', sort_dedup src refs = Some refs' ∧ stand_for refs' (btree_elements (list_to_set keys)).
Proof.
  intros Hs. pose proof Hs as Hk. apply stand_for_strs in Hk.
  unfold sort_dedup. rewrite Hk. cbn [mbind option_bind]. eexists. split; [done|].
  set (l := merge_sort key_le (zip keys refs)).
  assert (l ≡ₚ zip keys refs) as Hp by apply merge_sort_Permutation.
  assert (Forall (λ x, as_str src x.2 = Some x.1) (dedup_by_key l)) as Hall.
  { apply Forall_dedup. rewrite Hp. clear -Hs. induction Hs; by constructor. }
  assert ((dedup_by_key l).*1 = btree_elements (list_to_set keys)) as <-.
  { assert (StronglySorted str_lt (dedup_by_key l).*1) as Hlt.
    { apply dedup_sorted, Sorted_StronglySorted; [apply _|]. apply Sorted_merge_sort, _. }
    apply (Sorted_unique ord_le); [by apply str_lt_sorted|apply Sorted_merge_sort, _|].
    unfold btree_elements. rewrite ord_sort_Permutation.
    apply NoDup_Permutation; [by apply str_lt_NoDup|apply NoDup_elements|]. intros k.
    rewrite elem_of_dedup, elem_of_elements, elem_of_list_to_set, Hp.
    rewrite fst_zip; [done|]. by rewrite (Forall2_length _ _ _ Hs). }
  clear -Hall. unfold stand_for. induction Hall as [|x l' Hx _ IH]; constructor; [done|exact IH].
Qed.
End refs.

(** ** Positions *)

Lemma enumerate_cons code x keys :
  enumerate_map code (x :: keys) = <[x := code 0]> (enumerate_map (code ∘ S) keys).
Proof. done. Qed.

Lemma position_cons k x keys :
  position k (x :: keys) = if decide (x = k) then Some 0 else S <$> position k keys.
Proof.
  unfold position. cbn [list_find]. case_decide; [done|]. by destruct (list_find _ keys) as [[i y]|].
Qed.

Lemma position_enumerate code keys k : enumerate_map code keys !! k = code <$> position k keys.
Proof.
  revert code. induction keys as [|x keys IH]; intros code; [done|].
  rewrite enumerate_cons, position_cons. case_decide as Hx; [subst; by rewrite lookup_insert_eq|].
  rewrite lookup_insert_ne, IH by done. by destruct (position k keys).
Qed.

Lemma position_Some k keys : is_Some (position k keys) ↔ k ∈ keys.
Proof.
  unfold position. rewrite fmap_is_Some. split.
  - intros [[i x] (Hi & -> & _)%list_find_Some]. by eapply list_elem_of_lookup_2.
  - intros Hk. destruct (list_find_elem_of (λ k0, k0 = k) keys k Hk eq_refl) as [r ->]. by eexists.
Qed.

Lemma position_snoc k keys x :
  position k (keys ++ [x]) =
  match position k keys with
  | Some i => Some i
  | None => if decide (x = k) then Some (length keys) else None
  end.
Proof.
  induction keys as [|y keys IH]; cbn [app length]; rewrite !position_cons; [by case_decide|].
  destruct (decide (y = k)); [done|]. rewrite IH. destruct (position k keys); [done|].
  by destruct (decide (x = k)).
Qed.

Lemma position_lookup k keys i : position k keys = Some i → keys !! i = Some k.
Proof. unfold position. intros ([j x] & (Hj & -> & _)%list_find_Some & ->)%fmap_Some. done. Qed.

Lemma btree_NoDup s : NoDup (btree_elements s).
Proof. unfold btree_elements. rewrite ord_sort_Permutation. apply NoDup_elements. Qed.

Lemma size_enumerate code keys : NoDup keys → size (enumerate_map code keys) = length keys.
Proof.
  intros Hk. revert code. induction Hk as [|x keys Hx Hk IH]; intros code; [done|].
  rewrite enumerate_cons. cbn [length].
  rewrite map_size_insert_None; [f_equal; apply IH|]. rewrite position_enumerate.
  destruct (position x keys) eqn:E; [|done]. destruct Hx. apply position_Some. by rewrite E.
Qed.

(** ** The two loops *)

(** A source of the operations [ops], owned or borrowed. *)
Definition sources (src : OperationSource) (ops : list TransactionOp) : Prop :=
  source_len src = length ops ∧ ∀ i, source_operation src i = op_view <$> ops !! i.

Lemma owned_sources ops : sources (OwnedOperationSource ops) ops.
Proof. done. Qed.

Lemma borrowed_sources ops : sources (BorrowedOperationSource (op_view <$> ops)) ops.
Proof. split; [apply length_fmap|]. intros i. simpl. by rewrite list_lookup_fmap. Qed.

Lemma low_bind_Ok {A B} (m : low A) (k : A → low B) c a c' : m c = (Ok a, c') → (m ≫= k) c = k a c'.
Proof. intros Hm. unfold mbind, low_bind. by rewrite Hm. Qed.

Lemma low_bind_Err {A B} (m : low A) (k : A → low B) c e : (m c).1 = Err e → ((m ≫= k) c).1 = Err e.
Proof. unfold mbind, low_bind. destruct (m c) as [[a|e'|] c']; naive_solver. Qed.
Lemma low_bind_Panic {A B} (m : low A) (k : A → low B) c : (m c).1 = Panic → ((m ≫= k) c).1 = Panic.
Proof. unfold mbind, low_bind. destruct (m c) as [[a|e'|] c']; naive_solver. Qed.

(** The body of a loop and its rest. *)
Lemma low_for_cons (f : nat → low unit) i l c : low_for f (i :: l) c =
  match f i c with
  | (Ok _, c) => low_for f l c
  | (Err e, c) => (Err e, c)
  | (Panic, c) => (Panic, c)
  end.
Proof. done. Qed.

Section loops.
Context (src : OperationSource) (ops : list TransactionOp).
Hypothesis Hsrc : sources src ops.

(** The scratch vectors stand for the names of the reference. *)
Record collected (c : LoweringContext) (n : RefNames) : Prop := {
  cd_slots : ∃ ks, stand_for src (scratch_slots c) ks ∧ rn_slots n = list_to_set ks;
  cd_predicates : ∃ ks, stand_for src (scratch_predicates c) ks ∧ rn_predicates n = list_to_set ks;
  cd_literals : ∃ ks, stand_for src (scratch_literals c) ks ∧ rn_literals n = list_to_set ks;
  cd_symbols : ∃ ks, stand_for src (scratch_symbols c) ks ∧ rn_locals n = N.of_nat (length ks) ∧
    ∀ s, rn_symbols n !! s = N.of_nat <$> position s ks;
  cd_output : lc_instructions c = [] ∧ lc_dict_slots c = [] ∧ lc_dict_predicates c = [] ∧
    lc_dict_literals c = [];
}.

Lemma stand_for_names refs keys refs' keys' (s s' : gset string) :
  stand_for src refs keys → s = list_to_set keys → stand_for src refs' keys' → s' = list_to_set keys' →
  ∃ ks, stand_for src (refs ++ refs') ks ∧ s' ∪ s = list_to_set ks.
Proof.
  intros Hs -> Hs' ->. exists (keys ++ keys'). split; [by apply stand_for_snoc|].
  rewrite list_to_set_app_L. apply (comm_L (∪)).
Qed.

Lemma stand_for_nil : stand_for src [] [].
Proof. constructor. Qed.
Lemma stand_for_one r k : as_str src r = Some k → stand_for src [r] [k].
Proof. by repeat constructor. Qed.

Lemma stand_for_name refs keys r k (s : gset string) :
  stand_for src refs keys → s = list_to_set keys → as_str src r = Some k →
  ∃ ks, stand_for src (refs ++ [r]) ks ∧ {[ k ]} ∪ s = list_to_set ks.
Proof.
  intros Hs Es Hr. eapply stand_for_names; [done..|by apply stand_for_one|]. simpl.
  by rewrite (right_id_L ∅ (∪)).
Qed.

(** The literal of an operand, if it is one. *)
Lemma literal_stands a r :
  (∀ l, a = RefLiteral l → as_str src r = Some l) →
  ∃ ks, stand_for src (literal_ref (atom_view a) r) ks ∧ literal_name a = list_to_set ks.
Proof.
  intros Hr. destruct a as [e|l|s]; simpl.
  - exists []. split; [constructor|done].
  - exists [l]. split; [apply stand_for_one; by apply Hr|]. simpl. by rewrite (right_id_L ∅ (∪)).
  - exists []. split; [constructor|done].
Qed.

Lemma collect_step c n i op :
  collected c n → ops !! i = Some op → (rn_locals n + 1 < u32_modulus)%N →
  match reference_collect n op with
  | Ok n' => ∃ c', collect src i c = (Ok tt, c') ∧ collected c' n' ∧ (rn_locals n' <= rn_locals n + 1)%N
  | Err e => (collect src i c).1 = Err e
  | Panic => False
  end.
Proof.
  intros [(ks & Hks & Eks) (ps & Hps & Eps) (ls & Hls & Els) (ss & Hss & En & Es) Hout] Hi Hn.
  pose proof (proj2 Hsrc i) as Hop. rewrite Hi in Hop. cbn [fmap option_fmap option_map] in Hop.
  unfold collect. erewrite low_bind_Ok by (unfold low_lift; by rewrite Hop).
  destruct op as [s|w|slot a|slot a p b|slot|]; cbn [op_view reference_collect].
  - unfold low_get. erewrite low_bind_Ok by done.
    erewrite low_bind_Ok by (unfold low_lift; by rewrite (proj2 (stand_for_strs _ _ _) Hss)).
    rewrite Es. destruct (position s ss) as [j|] eqn:Ep; cbn [fmap option_fmap option_map].
    { rewrite decide_True; [done|]. apply position_Some. by rewrite Ep. }
    rewrite decide_False by (rewrite <- position_Some, Ep; by intros [? ?]).
    rewrite (proj2 (N.ltb_lt _ _)) by done. eexists. split; [done|]. split; [|simpl; lia].
    split; cbn; rewrite ?app_nil_r; [by exists ks|by exists ps|by exists ls| |done].
    exists (ss ++ [s]). split; [apply stand_for_snoc; [done|by apply stand_for_one; simpl; rewrite Hop]|].
    split; [rewrite length_app, En; simpl; lia|]. intros s'. rewrite position_snoc.
    destruct (decide (s = s')) as [<-|Hne].
    + rewrite lookup_insert_eq, Ep, En. done.
    + rewrite lookup_insert_ne, Es by done. by destruct (position s' ss).
  - exists c. split; [done|]. split; [|lia]. split; eauto 10.
  - destruct (literal_stands a (StrExpectExpected i)) as (ks' & H1 & H2);
      [intros l ->; simpl; by rewrite Hop|].
    eexists. split; [done|]. split; [|simpl; lia].
    split; cbn; rewrite ?app_nil_r; [|by exists ps|by eapply stand_for_names|by exists ss|done].
    eapply stand_for_name; [done..|]. simpl. by rewrite Hop.
  - destruct (literal_stands a (StrDefSubject i)) as (ks1 & H1 & H2);
      [intros l ->; simpl; by rewrite Hop|].
    destruct (literal_stands b (StrDefObject i)) as (ks2 & H3 & H4);
      [intros l ->; simpl; by rewrite Hop|].
    eexists. split; [done|]. split; [|simpl; lia].
    split; cbn; rewrite ?app_nil_r; [| | |by exists ss|done].
    + eapply stand_for_name; [done..|]. simpl. by rewrite Hop.
    + eapply stand_for_name; [done..|]. simpl. by rewrite Hop.
    + destruct (stand_for_names _ _ _ _ _ _ Hls Els H1 H2) as (ls' & Hls' & Els').
      destruct (stand_for_names _ _ _ _ _ _ Hls' Els' H3 H4) as (ls2 & Hls2 & Els2).
      exists ls2. by rewrite (assoc_L (++)).
  - eexists. split; [done|]. split; [|simpl; lia].
    split; cbn; rewrite ?app_nil_r; [|by exists ps|by exists ls|by exists ss|done].
    eapply stand_for_name; [done..|]. simpl. by rewrite Hop.
  - exists c. split; [done|]. split; [|lia]. split; eauto 10.
Qed.

Lemma drop_lookup_cons i op rest : drop i ops = op :: rest → ops !! i = Some op ∧ drop (S i) ops = rest.
Proof.
  intros Hd. split.
  - rewrite <- (Nat.add_0_r i), <- lookup_drop, Hd. done.
  - replace (S i) with (i + 1) by lia. by rewrite <- drop_drop, Hd.
Qed.

Lemma collect_loop rest : ∀ i c n,
  collected c n → drop i ops = rest → (rn_locals n + N.of_nat (length rest) < u32_modulus)%N →
  match outcome_fold reference_collect rest n with
  | Ok n' => ∃ c', low_for (collect src) (seq i (length rest)) c = (Ok tt, c') ∧ collected c' n' ∧
      (rn_locals n' < u32_modulus)%N
  | Err e => (low_for (collect src) (seq i (length rest)) c).1 = Err e
  | Panic => False
  end.
Proof.
  induction rest as [|op rest IH]; intros i c n Hc Hd Hn; cbn [outcome_fold length seq].
  { exists c. split; [done|]. split; [done|]. simpl in Hn. lia. }
  destruct (drop_lookup_cons _ _ _ Hd) as [Hi Hd']. cbn [length] in Hn.
  pose proof (collect_step c n i op Hc Hi ltac:(lia)) as Hs. rewrite low_for_cons.
  destruct (reference_collect n op) as [n1|e|]; cbn [outcome_bind]; [| |done].
  - destruct Hs as (c1 & -> & Hc1 & Hn1). apply IH; [done|done|lia].
  - by destruct (collect src i c) as [[[]|e'|] c'].
Qed.

(** The context when the second loop starts. *)
Record ready (c : LoweringContext) (n : RefNames) : Prop := {
  rd_slots : stand_for src (scratch_slots c) (btree_elements (rn_slots n));
  rd_predicates : stand_for src (scratch_predicates c) (btree_elements (rn_predicates n));
  rd_literals : stand_for src (scratch_literals c) (btree_elements (rn_literals n));
  rd_symbols : ∃ ks, stand_for src (scratch_symbols c) ks ∧ (N.of_nat (length ks) < u32_modulus)%N ∧
    ∀ s, rn_symbols n !! s = N.of_nat <$> position s ks;
}.

Lemma sort_scratch_spec c n :
  collected c n → (rn_locals n < u32_modulus)%N →
  ∃ c', sort_scratch src c = (Ok tt, c') ∧ ready c' n ∧ scratch_symbols c' = scratch_symbols c ∧
    lc_instructions c' = [] ∧ lc_dict_slots c' = [] ∧ lc_dict_predicates c' = [] ∧ lc_dict_literals c' = [].
Proof.
  intros [(ks & Hks & Eks) (ps & Hps & Eps) (ls & Hls & Els) (ss & Hss & En & Es) Hout] Hn.
  destruct (sort_dedup_spec src _ _ Hks) as (ks' & Ek & Hks').
  destruct (sort_dedup_spec src _ _ Hps) as (ps' & Ep & Hps').
  destruct (sort_dedup_spec src _ _ Hls) as (ls' & El & Hls').
  unfold sort_scratch, low_get, low_lift. erewrite low_bind_Ok by done.
  erewrite low_bind_Ok by (by rewrite Ek). erewrite low_bind_Ok by (by rewrite Ep).
  erewrite low_bind_Ok by (by rewrite El). eexists. split; [done|]. split; [|done].
  split; cbn; [by rewrite Eks|by rewrite Eps|by rewrite Els|].
  exists ss. split; [done|]. split; [lia|done].
Qed.

Lemma find_ref_spec refs keys key : stand_for src refs keys → find_ref src refs key = or_panic (position key keys).
Proof. intros Hs%stand_for_strs. unfold find_ref. by rewrite Hs. Qed.

Lemma or_panic_fmap {E A B} (f : A → B) (o : option A) :
  (let* a := or_panic o in Ok (f a)) = (or_panic (f <$> o) : outcome E B).
Proof. by destruct o. Qed.

Lemma find_slot_spec c n slot :
  ready c n → find_slot src c slot = or_panic (rm_slots (reference_maps n) !! slot).
Proof.
  intros [Hs _ _ _]. unfold find_slot. rewrite (find_ref_spec _ _ _ Hs). cbn [reference_maps rm_slots].
  by rewrite position_enumerate, or_panic_fmap.
Qed.

Lemma find_literal_spec c n l :
  ready c n → find_literal src c l = or_panic (rm_literals (reference_maps n) !! l).
Proof.
  intros [_ Hp Hl _]. unfold find_literal. rewrite (find_ref_spec _ _ _ Hl).
  cbn [reference_maps rm_literals]. rewrite position_enumerate, <- or_panic_fmap.
  rewrite size_enumerate by apply btree_NoDup. by rewrite (Forall2_length _ _ _ Hp).
Qed.

Lemma find_predicate_spec c n p :
  ready c n →
  (let* i := find_ref src (scratch_predicates c) p in Ok (N.of_nat i)) =
  or_panic (rm_predicates (reference_maps n) !! p).
Proof.
  intros [_ Hp _ _]. rewrite (find_ref_spec _ _ _ Hp). cbn [reference_maps rm_predicates].
  by rewrite position_enumerate, or_panic_fmap.
Qed.

Lemma find_symbol_spec c n s :
  ready c n →
  ∃ ks, as_strs src (scratch_symbols c) = Some ks ∧
    as_u32 <$> position s ks = rm_symbols (reference_maps n) !! s.
Proof.
  intros [_ _ _ (ks & Hks & Hlt & Hs)]. exists ks. split; [by apply stand_for_strs|].
  cbn [reference_maps rm_symbols]. rewrite Hs. destruct (position s ks) as [i|] eqn:Ep; [|done].
  apply position_lookup, lookup_lt_Some in Ep. simpl. f_equal. apply N.mod_small. lia.
Qed.

Lemma load_atom_spec c n a :
  ready c n → load_atom src c (atom_view a) = reference_atom (reference_maps n) a.
Proof.
  intros Hr. destruct a as [e|l|s]; cbn [atom_view load_atom reference_atom]; [done| |].
  - by rewrite (find_literal_spec _ _ _ Hr).
  - destruct (find_symbol_spec c n s Hr) as (ks & -> & Hs). cbn [or_panic outcome_bind].
    rewrite <- Hs. by destruct (position s ks).
Qed.

Lemma ready_emit c n code : ready c n → ready (lc_emit code c) n.
Proof. by intros []. Qed.

Lemma lc_emit_app c a b : lc_emit b (lc_emit a c) = lc_emit (a ++ b) c.
Proof. unfold lc_emit. cbn. by rewrite (assoc_L (++)). Qed.

(** An operation is emitted as by the reference, in order and with its error. *)
Lemma emit_step c n i op :
  ready c n → ops !! i = Some op →
  match reference_emit (reference_maps n) op with
  | Ok code => emit src i c = (Ok tt, lc_emit code c)
  | Err e => (emit src i c).1 = Err e
  | Panic => (emit src i c).1 = Panic
  end.
Proof.
  intros Hr Hi. pose proof (proj2 Hsrc i) as Hop. rewrite Hi in Hop.
  cbn [fmap option_fmap option_map] in Hop.
  unfold emit, low_lift, low_get. erewrite low_bind_Ok by (by rewrite Hop).
  destruct op as [s|w|slot a|slot a p b|slot|]; cbn [op_view reference_emit]; [|done| | | |done];
    erewrite low_bind_Ok by done.
  - destruct (find_symbol_spec c n s Hr) as (ks & Hks & Hs). apply stand_for_strs in Hks.
    rewrite (find_ref_spec _ _ _ Hks), <- Hs. by destruct (position s ks).
  - rewrite (find_slot_spec _ _ _ Hr).
    destruct (rm_slots _ !! slot); cbn [or_panic outcome_bind]; [erewrite low_bind_Ok by done|done].
    destruct a as [e|l|s]; cbn [atom_view]; [done| |done].
    rewrite (find_literal_spec _ _ _ Hr). by destruct (rm_literals _ !! l).
  - rewrite (load_atom_spec _ _ a Hr).
    destruct (reference_atom _ a) as [x|e|]; cbn [outcome_bind]; [erewrite !low_bind_Ok by done|done..].
    pose proof (find_predicate_spec c n p Hr) as Hp.
    destruct (find_ref src (scratch_predicates c) p) as [j|e|]; cbn [outcome_bind] in Hp;
      destruct (rm_predicates _ !! p) as [pc|]; try done; cbn [or_panic outcome_bind];
      injection Hp as <-.
    erewrite !low_bind_Ok by done.
    rewrite (load_atom_spec _ _ b Hr).
    destruct (reference_atom _ b) as [y|e|]; cbn [outcome_bind]; [erewrite !low_bind_Ok by done|done..].
    rewrite (find_slot_spec _ _ _ Hr).
    destruct (rm_slots _ !! slot); cbn [or_panic outcome_bind]; [erewrite low_bind_Ok by done|done].
    unfold low_modify. by rewrite !lc_emit_app.
  - rewrite (find_slot_spec _ _ _ Hr). by destruct (rm_slots _ !! slot).
Qed.

Lemma emit_loop n rest : ∀ i c acc,
  ready c n → drop i ops = rest →
  match outcome_fold (λ acc op, let* code := reference_emit (reference_maps n) op in Ok (acc ++ code)) rest acc with
  | Ok acc' => ∃ code, acc' = acc ++ code ∧
      low_for (emit src) (seq i (length rest)) c = (Ok tt, lc_emit code c)
  | Err e => (low_for (emit src) (seq i (length rest)) c).1 = Err e
  | Panic => (low_for (emit src) (seq i (length rest)) c).1 = Panic
  end.
Proof.
  induction rest as [|op rest IH]; intros i c acc Hr Hd; cbn [outcome_fold length seq].
  { exists []. rewrite app_nil_r. split; [done|]. unfold lc_emit. rewrite app_nil_r. by destruct c. }
  destruct (drop_lookup_cons _ _ _ Hd) as [Hi Hd'].
  pose proof (emit_step c n i op Hr Hi) as Hs. rewrite low_for_cons.
  destruct (reference_emit _ op) as [code|e|]; cbn [outcome_bind].
  - rewrite Hs. specialize (IH (S i) (lc_emit code c) (acc ++ code) (ready_emit _ _ _ Hr) Hd').
    destruct (outcome_fold _ rest _) as [acc'|e|]; [|done..].
    destruct IH as (more & -> & ->). exists (code ++ more). rewrite lc_emit_app. by rewrite (assoc_L (++)).
  - by destruct (emit src i c) as [[[]|e'|] c'].
  - by destruct (emit src i c) as [[[]|e'|] c'].
Qed.

Lemma cleared_collected : collected LoweringContext_new (RefNames_mk ∅ ∅ ∅ ∅ 0).
Proof. split; cbn; [exists []..|done]; (split; [constructor|done]). Qed.

(** The lowering finds the names and the program of the reference, whatever the
    context held before. *)
Lemma lower_transient_spec namespace c :
  (N.of_nat (length ops) < u32_modulus)%N →
  match (let* names := reference_names ops in
         let* code := reference_program (reference_maps names) ops in Ok (names, code)) with
  | Ok (names, code) => ∃ c', lower_transient namespace src c = (Ok (rn_locals names), c') ∧
      ready c' names ∧ lc_instructions c' = code ∧ lc_dict_slots c' = [] ∧ lc_dict_predicates c' = [] ∧
      lc_dict_literals c' = []
  | Err e => (lower_transient namespace src c).1 = Err e
  | Panic => (lower_transient namespace src c).1 = Panic
  end.
Proof.
  intros Hlen. unfold lower_transient, reference_names, reference_program.
  pose proof (collect_loop ops 0 LoweringContext_new _ cleared_collected eq_refl Hlen) as Hcollect.
  erewrite low_bind_Ok by done. rewrite (proj1 Hsrc). change (lc_clear c) with LoweringContext_new.
  destruct (outcome_fold reference_collect ops _) as [names|e|]; cbn [outcome_bind]; [| |done].
  2: by apply low_bind_Err.
  destruct Hcollect as (c1 & E1 & Hc1 & Hlt). rewrite (low_bind_Ok _ _ _ _ _ E1).
  unfold low_get. erewrite low_bind_Ok by done. cbv zeta.
  destruct (sort_scratch_spec _ _ Hc1 Hlt) as (c2 & E2 & Hr & Hsym & H1 & H2 & H3 & H4).
  rewrite (low_bind_Ok _ _ _ _ _ E2).
  pose proof (emit_loop names ops 0 c2 [] Hr eq_refl) as Hemit.
  destruct (outcome_fold _ ops []) as [code|e|]; cbn [outcome_bind].
  - destruct Hemit as (code' & -> & E3). rewrite (low_bind_Ok _ _ _ _ _ E3).
    exists (lc_emit code' c2). split; [|by split_and!; [apply ready_emit|cbn; by rewrite H1|..]].
    destruct (cd_symbols _ _ Hc1) as (ss & Hss & Hn & _).
    rewrite (Forall2_length _ _ _ Hss). unfold as_u32. rewrite <- Hn, N.mod_small by done. done.
  - by apply low_bind_Err.
  - by apply low_bind_Panic.
Qed.

Lemma lower_from_source_spec namespace c :
  (N.of_nat (length ops) < u32_modulus)%N →
  (lower_from_source namespace src c).1 = lower_to_sisa_reference (TransactionAST_new namespace ops).
Proof.
  intros Hlen. pose proof (lower_transient_spec namespace c Hlen) as Hs.
  unfold lower_from_source, lower_to_sisa_reference. cbn [ast_operations ast_namespace].
  destruct (reference_names ops) as [names|e|]; cbn [outcome_bind] in Hs |- *; [destruct (reference_program _ ops) as [code|e|]|..];
    cbn [outcome_bind] in Hs |- *;
    [|by (apply low_bind_Err || apply low_bind_Panic)..].
  destruct Hs as (c' & E & [Hks Hps Hls _] & Hcode & H1 & H2 & H3).
  rewrite (low_bind_Ok _ _ _ _ _ E). unfold low_get, low_lift. erewrite low_bind_Ok by done.
  pose proof (Forall2_length _ _ _ Hps) as Hlp.
  apply stand_for_strs in Hks, Hps, Hls.
  erewrite low_bind_Ok by (by rewrite Hks). erewrite low_bind_Ok by (by rewrite Hps).
  erewrite low_bind_Ok by (by rewrite Hls). cbv zeta.
  erewrite low_bind_Ok by done. rewrite H1, H2, H3, Hcode, Hlp. cbn [app].
  unfold reference_dictionary. rewrite size_enumerate by apply btree_NoDup. done.
Qed.
End loops.

(** ** The reference never panics *)

(** The names of an operation are collected. *)
Definition op_named (n : RefNames) (op : TransactionOp) : Prop :=
  match op with
  | TxAllocate result => is_Some (rn_symbols n !! result)
  | TxExpectObject slot expected => slot ∈ rn_slots n ∧ literal_name expected ⊆ rn_literals n
  | TxDefine slot subject predicate object =>
      slot ∈ rn_slots n ∧ predicate ∈ rn_predicates n ∧ literal_name subject ⊆ rn_literals n ∧
      literal_name object ⊆ rn_literals n
  | TxForget slot => slot ∈ rn_slots n
  | TxExpectWorld _ | TxReject => True
  end.

Record names_le (n n' : RefNames) : Prop := {
  nl_slots : rn_slots n ⊆ rn_slots n';
  nl_predicates : rn_predicates n ⊆ rn_predicates n';
  nl_literals : rn_literals n ⊆ rn_literals n';
  nl_symbols : rn_symbols n ⊆ rn_symbols n';
}.

#[export] Instance names_le_preorder : PreOrder names_le.
Proof. split; [intros n; by split|]. intros n1 n2 n3 [] []. split; by etrans. Qed.

Lemma op_named_le n n' op : names_le n n' → op_named n op → op_named n' op.
Proof.
  intros []. destruct op; simpl; try set_solver. intros [x Hx]. exists x. by eapply lookup_weaken.
Qed.

Lemma reference_collect_named n op n' :
  reference_collect n op = Ok n' → names_le n n' ∧ op_named n' op.
Proof.
  destruct op as [s|w|slot a|slot a p b|slot|]; cbn [reference_collect].
  - destruct (rn_symbols n !! s) eqn:E; [done|]. case_match; [|done]. intros [= <-].
    split; [split; cbn; [done..|by apply insert_subseteq]|]. simpl. by rewrite lookup_insert_eq.
  - intros [= <-]. done.
  - intros [= <-]. split; [split|split]; simpl; set_solver.
  - intros [= <-]. split; [split|split_and!]; simpl; set_solver.
  - intros [= <-]. split; [split|]; simpl; set_solver.
  - intros [= <-]. done.
Qed.

Lemma reference_names_named ops n n' :
  outcome_fold reference_collect ops n = Ok n' → names_le n n' ∧ Forall (op_named n') ops.
Proof.
  revert n. induction ops as [|op ops IH]; intros n; cbn [outcome_fold]; [by intros [= <-]|].
  destruct (reference_collect n op) as [n1|e|] eqn:E; cbn [outcome_bind]; [|done..].
  intros [Hle Hall]%IH. apply reference_collect_named in E as [Hle1 Hop]. split; [by etrans|].
  constructor; [by eapply op_named_le|done].
Qed.

Lemma btree_position s k : k ∈ s → is_Some (position k (btree_elements s)).
Proof.
  intros Hk. apply position_Some. unfold btree_elements. by rewrite elem_of_ord_sort, elem_of_elements.
Qed.

Lemma enumerate_is_Some code s k : k ∈ s → is_Some (enumerate_map code (btree_elements s) !! k).
Proof. intros Hk%btree_position. rewrite position_enumerate. by apply fmap_is_Some. Qed.

Lemma reference_atom_no_panic n a :
  literal_name a ⊆ rn_literals n → reference_atom (reference_maps n) a ≠ Panic.
Proof.
  destruct a as [e|l|s]; simpl; [done| |by case_match].
  intros Hl. edestruct (enumerate_is_Some (λ i, N.of_nat (i + size (enumerate_map N.of_nat
    (btree_elements (rn_predicates n))))) (rn_literals n) l) as [c ->]; [set_solver|done].
Qed.

Lemma reference_emit_no_panic n op : op_named n op → reference_emit (reference_maps n) op ≠ Panic.
Proof.
  destruct op as [s|w|slot a|slot a p b|slot|]; cbn [reference_emit op_named]; [|done| | | |done].
  - intros [c Hc]. cbn [reference_maps rm_symbols]. by rewrite Hc.
  - intros [Hs Hl]. destruct (enumerate_is_Some as_u32 _ _ Hs) as [t Ht].
    cbn [reference_maps rm_slots]. rewrite Ht. cbn [or_panic outcome_bind].
    destruct a as [e|l|x]; [done| |done]. pose proof (reference_atom_no_panic n (RefLiteral l) Hl) as Hn.
    simpl in Hn |- *. by destruct (enumerate_map _ _ !! l).
  - intros (Hs & Hp & Ha & Hb). destruct (enumerate_is_Some as_u32 _ _ Hs) as [t Ht].
    destruct (enumerate_is_Some N.of_nat _ _ Hp) as [c Hc].
    pose proof (reference_atom_no_panic n a Ha). pose proof (reference_atom_no_panic n b Hb).
    destruct (reference_atom _ a); [|done..]. cbn [outcome_bind].
    cbn [reference_maps rm_predicates]. rewrite Hc. cbn [or_panic outcome_bind].
    destruct (reference_atom _ b); [|done..]. cbn [outcome_bind reference_maps rm_slots]. by rewrite Ht.
  - intros Hs. destruct (enumerate_is_Some as_u32 _ _ Hs) as [t Ht].
    cbn [reference_maps rm_slots]. by rewrite Ht.
Qed.

Lemma reference_no_panic ast : lower_to_sisa_reference ast ≠ Panic.
Proof.
  unfold lower_to_sisa_reference, reference_names, reference_program.
  assert (∀ ops n, outcome_fold reference_collect ops n ≠ Panic) as Hcollect.
  { induction ops as [|op ops IH]; intros n; [done|]. cbn [outcome_fold].
    destruct (reference_collect n op) as [n1|e|] eqn:E; cbn [outcome_bind]; [apply IH|done|].
    destruct op; simpl in E; repeat case_match; done. }
  pose proof (Hcollect (ast_operations ast) (RefNames_mk ∅ ∅ ∅ ∅ 0)) as Hc.
  destruct (outcome_fold reference_collect _ _) as [n|e|] eqn:En; cbn [outcome_bind]; [|done..].
  apply reference_names_named in En as [_ Hall].
  assert (∀ acc, outcome_fold (λ acc op, let* code := reference_emit (reference_maps n) op in Ok (acc ++ code))
    (ast_operations ast) acc ≠ Panic) as Hemit.
  { induction Hall as [|op ops Hop _ IH]; intros acc; [done|]. cbn [outcome_fold].
    pose proof (reference_emit_no_panic n op Hop).
    destruct (reference_emit _ op) as [code|e|]; cbn [outcome_bind]; [apply IH|done..]. }
  specialize (Hemit []). by destruct (outcome_fold _ _ []).
Qed.
