(* ===== verification/AstProps.v ===== *)
(** What a transaction means, and what its lowering does: a machine that runs the
    operations of a transaction over named locals and slot stacks, the lowered
    program as a simulation of it on the abstract stack machine, and the theorems
    on lowering. *)
From Stdlib Require Import NArith Lia.
From stdpp Require Import sorting base gmap list strings option list_monad.
From S2P Require Import Prelude Ord Terms Query Spec Index Kernel StackVm StackVmFacts Parser Isa Ast AstFacts.
From S2P Require Import StackVmTrial.

(** ** The machine *)

(** The code a dictionary gives to a name. *)
Definition dict_find {K} `{EqDecision K} (entries : list (N * K)) (k : K) : option N :=
  fst ∘ snd <$> list_find (λ e, e.2 = k) entries.

(** The symbols of a transaction in the order of their locals. *)
Definition ast_symbols (ops : list TransactionOp) : list string :=
  omap (λ op, match op with TxAllocate result => Some result | _ => None end) ops.

Record AstState := AstState_mk {
  as_env : gmap string Cell;
  as_stacks : vm_stacks;
  as_next : N;
}.

Section machine.
(** The dictionary that numbers the names, and the identity of the state. *)
Context (d : StreamDictionary) (hash : N).

Definition ast_slot (slot : string) : option SlotToken := dict_find (dict_slots d) (SlotId_new slot).
Definition ast_predicate (p : string) : option Cell := dict_find (dict_predicates d) (Predicate_new p).
Definition ast_literal (l : string) : option Cell := dict_find (dict_literals d) (Literal_new l).

Definition ast_atom (env : gmap string Cell) (a : AtomRef) : option Cell :=
  match a with
  | RefEntity e => Some (ast_entity e)
  | RefLiteral l => ast_literal l
  | RefSymbol s => env !! s
  end.

(** The stack of a slot is replaced. *)
Definition ast_update (slot : string) (f : list vfact → list vfact) (st : AstState) :
    outcome ExecError AstState :=
  let* token := or_panic (ast_slot slot) in
  let* stack := ok_or (as_stacks st !! N.to_nat token) InvalidSlot in
  Ok (AstState_mk (as_env st) (<[N.to_nat token := f stack]> (as_stacks st)) (as_next st)).

Definition ast_step (st : AstState) (op : TransactionOp) : outcome ExecError AstState :=
  match op with
  | TxAllocate result =>
      Ok (AstState_mk (<[result := as_next st]> (as_env st)) (as_stacks st)
            (u64_saturating_add (as_next st) 1))
  | TxExpectWorld expected =>
      if decide (hash = ast_world expected) then Ok st else Err ExpectedValueMismatch
  | TxExpectObject slot expected =>
      let* token := or_panic (ast_slot slot) in
      let* cell := or_panic (ast_atom (as_env st) expected) in
      let* stack := ok_or (as_stacks st !! N.to_nat token) InvalidSlot in
      match stack with
      | [] => Err MissingExpectedValue
      | (_, _, object) :: _ => if decide (object = cell) then Ok st else Err ExpectedValueMismatch
      end
  | TxDefine slot subject predicate object =>
      let* s := or_panic (ast_atom (as_env st) subject) in
      let* p := or_panic (ast_predicate predicate) in
      let* o := or_panic (ast_atom (as_env st) object) in
      ast_update slot (λ stack, (s, p, o) :: stack) st
  | TxForget slot => ast_update slot tail st
  | TxReject => Err ExplicitRejection
  end.

Definition ast_run (ops : list TransactionOp) (st : AstState) : outcome ExecError AstState :=
  outcome_fold ast_step ops st.
End machine.

(** The locals by name. *)
Definition env_of (symbols : list string) (cells : list Cell) : gmap string Cell :=
  list_to_map (zip symbols cells).

Lemma env_lookup symbols cells s :
  env_of symbols cells !! s = position s symbols ≫= λ i, cells !! i.
Proof.
  unfold env_of. revert cells. induction symbols as [|x symbols IH]; intros cells; [done|].
  rewrite position_cons. destruct cells as [|v cells]; cbn [zip zip_with list_to_map foldr].
  { rewrite lookup_empty. case_decide; [done|]. by destruct (position s symbols). }
  cbn [fst snd]. case_decide as Hx; [subst; by rewrite lookup_insert_eq|].
  rewrite lookup_insert_ne by done. change (foldr _ _ _) with (list_to_map (M := gmap string Cell) (zip symbols cells)).
  rewrite IH. by destruct (position s symbols).
Qed.

(** ** Dictionaries and the maps of the reference *)

Lemma dict_find_imap {K} `{EqDecision K} (mk : string → K) (code : nat → N) keys k :
  Inj (=) (=) mk →
  dict_find (imap (λ i s, (code i, mk s)) keys) (mk k) = code <$> position k keys.
Proof.
  intros Hmk. unfold dict_find. revert code. induction keys as [|x keys IH]; intros code; [done|].
  rewrite position_cons. cbn [imap list_find fst snd].
  destruct (decide (x = k)) as [->|Hne]; [by rewrite decide_True|].
  rewrite decide_False by (intros ?%Hmk; done). specialize (IH (code ∘ S)).
  change (imap (λ i s, ((code ∘ S) i, mk s)) keys) with (imap ((λ i s, (code i, mk s)) ∘ S) keys) in IH.
  destruct (list_find _ (imap _ keys)) as [[i e]|], (position k keys); simpl in *; naive_solver.
Qed.

Lemma reference_slot n s :
  ast_slot (reference_dictionary n) s = rm_slots (reference_maps n) !! s.
Proof.
  unfold ast_slot. cbn [reference_dictionary reference_maps dict_slots rm_slots].
  rewrite dict_find_imap by (intros ?? [= ->]; done). by rewrite position_enumerate.
Qed.

Lemma reference_predicate n p :
  ast_predicate (reference_dictionary n) p = rm_predicates (reference_maps n) !! p.
Proof.
  unfold ast_predicate. cbn [reference_dictionary reference_maps dict_predicates rm_predicates].
  rewrite dict_find_imap by (intros ?? [= ->]; done). by rewrite position_enumerate.
Qed.

Lemma reference_literal n l :
  ast_literal (reference_dictionary n) l = rm_literals (reference_maps n) !! l.
Proof.
  unfold ast_literal. cbn [reference_dictionary reference_maps dict_literals rm_literals].
  rewrite dict_find_imap by (intros ?? [= ->]; done). by rewrite position_enumerate.
Qed.

(** The symbols of the reference are the allocations in order. *)
Lemma reference_symbols ops n n' ss :
  rn_locals n = N.of_nat (length ss) → (∀ s, rn_symbols n !! s = N.of_nat <$> position s ss) → NoDup ss →
  outcome_fold reference_collect ops n = Ok n' →
  rn_locals n' = N.of_nat (length (ss ++ ast_symbols ops)) ∧
  (∀ s, rn_symbols n' !! s = N.of_nat <$> position s (ss ++ ast_symbols ops)) ∧
  NoDup (ss ++ ast_symbols ops).
Proof.
  revert n ss. induction ops as [|op ops IH]; intros n ss Hn Hs Hnd; cbn [outcome_fold].
  { intros [= <-]. by rewrite app_nil_r. }
  destruct (reference_collect n op) as [n1|e|] eqn:E; cbn [outcome_bind]; [|done..].
  destruct op as [x|w|slot a|slot a p b|slot|]; cbn [reference_collect] in E;
    [|injection E as <-; apply IH; done..].
  destruct (rn_symbols n !! x) eqn:Ex; [done|]. case_match; [|done]. injection E as <-.
  intros Hf. change (ast_symbols (TxAllocate x :: ops)) with ([x] ++ ast_symbols ops).
  rewrite (assoc_L (++)). eapply IH; [| | |exact Hf]; cbn.
  - rewrite length_app, Hn. simpl. lia.
  - intros s. rewrite position_snoc. rewrite Hs in Ex. destruct (decide (x = s)) as [<-|Hne].
    + rewrite lookup_insert_eq, Hn. by destruct (position x ss).
    + rewrite lookup_insert_ne, Hs by done. by destruct (position s ss).
  - apply NoDup_app. split_and!; [done| |apply NoDup_singleton].
    intros s Hin ->%list_elem_of_singleton. apply position_Some in Hin. rewrite Hs in Ex.
    by destruct (position x ss), Hin.
Qed.

(** At most a slot for each operation. *)
Lemma reference_slots ops n n' :
  outcome_fold reference_collect ops n = Ok n' → size (rn_slots n') ≤ size (rn_slots n) + length ops.
Proof.
  revert n. induction ops as [|op ops IH]; intros n; cbn [outcome_fold length]; [intros [= <-]; lia|].
  destruct (reference_collect n op) as [n1|e|] eqn:E; cbn [outcome_bind]; [|done..]. intros Hf%IH.
  assert (∀ slot : string, size ({[ slot ]} ∪ rn_slots n) ≤ S (size (rn_slots n))) as Hadd.
  { intros slot. rewrite size_union_alt, size_singleton.
    pose proof (subseteq_size (rn_slots n ∖ {[ slot ]}) (rn_slots n) ltac:(set_solver)). lia. }
  assert (size (rn_slots n1) ≤ S (size (rn_slots n))); [|lia].
  destruct op; cbn [reference_collect] in E; repeat (case_match; try done); simplify_eq; cbn; auto.
Qed.

Lemma reference_token n slot token :
  (N.of_nat (size (rn_slots n)) < NONE)%N → rm_slots (reference_maps n) !! slot = Some token → token ≠ NONE.
Proof.
  intros Hn. cbn [reference_maps rm_slots]. rewrite position_enumerate.
  intros (i & Hi%position_lookup%lookup_lt_Some & ->)%fmap_Some.
  unfold btree_elements in Hi. rewrite (Permutation_length (ord_sort_Permutation _)) in Hi.
  change (length (elements (rn_slots n))) with (size (rn_slots n)) in Hi. unfold as_u32.
  rewrite N.mod_small; [lia|]. change u32_modulus with (NONE + 1)%N. lia.
Qed.

(** ** The simulation *)

Lemma t_pop_snoc cells v sts next :
  t_pop (Trial_mk (cells ++ [v]) sts next) = Ok (v, Trial_mk cells sts next).
Proof.
  unfold t_pop. cbn [t_cells]. rewrite last_snoc, length_app. cbn [length].
  replace (length cells + 1 - 1) with (length cells) by lia. by rewrite take_app_length.
Qed.

Lemma t_push_ok capacity v cells sts next :
  length cells < capacity →
  t_push capacity v (Trial_mk cells sts next) = Ok (Trial_mk (cells ++ [v]) sts next).
Proof. intros Hc. unfold t_push. cbn [t_cells]. by rewrite (proj2 (Nat.ltb_lt _ _)). Qed.

Section simulation.
Context (n : RefNames) (hash : N) (capacity : nat) (symbols : list string).
Hypothesis Hsymbols : ∀ s, rn_symbols n !! s = N.of_nat <$> position s symbols.
Hypothesis Hcapacity : length symbols + 3 ≤ capacity.

Abbreviation m := (reference_maps n) (only parsing).
Abbreviation d := (reference_dictionary n) (only parsing).

Definition locals_of (cells : list Cell) (sts : vm_stacks) (next : N) : AstState :=
  AstState_mk (env_of symbols cells) sts next.

Lemma local_position s i : rm_symbols m !! s = Some i →
  ∃ k, i = N.of_nat k ∧ position s symbols = Some k ∧ k < length symbols.
Proof.
  cbn [reference_maps rm_symbols]. rewrite Hsymbols. intros (k & Hk & ->)%fmap_Some.
  exists k. split_and!; [done|done|]. by eapply lookup_lt_Some, position_lookup.
Qed.

Lemma load_step a i cells temps sts next :
  reference_atom m a = Ok i → length cells = length symbols → length temps < 3 →
  ∃ v, ast_atom d (env_of symbols cells) a = Some v ∧
    spec_instruction capacity hash i (Trial_mk (cells ++ temps) sts next) =
    Ok (Trial_mk (cells ++ (temps ++ [v])) sts next).
Proof.
  intros Ha Hlen Htemps.
  assert (∀ v, t_push capacity v (Trial_mk (cells ++ temps) sts next) =
    Ok (Trial_mk (cells ++ temps ++ [v]) sts next)) as Hpush.
  { intros v. rewrite t_push_ok, <- (assoc_L (++)); [done|]. rewrite length_app. lia. }
  destruct a as [e|l|s]; cbn [reference_atom ast_atom] in *.
  - injection Ha as <-. eexists. split; [done|]. apply Hpush.
  - rewrite reference_literal. destruct (rm_literals m !! l) as [c|]; [|done]. injection Ha as <-.
    eexists. split; [done|]. apply Hpush.
  - destruct (rm_symbols m !! s) as [j|] eqn:Ej; [|done]. injection Ha as <-.
    apply local_position in Ej as (k & -> & Hk & Hlt). rewrite env_lookup, Hk. cbn [mbind option_bind].
    destruct (lookup_lt_is_Some_2 cells k) as [v Hv]; [lia|]. exists v. split; [done|].
    unfold spec_instruction. cbn [opcode i_load_local argument t_cells]. rewrite Nat2N.id.
    rewrite lookup_app_l, Hv by lia. cbn [ok_or outcome_bind]. apply Hpush.
Qed.

Lemma set_local_env cells s k v :
  NoDup symbols → position s symbols = Some k → k < length cells →
  env_of symbols (<[k := v]> cells) = <[s := v]> (env_of symbols cells).
Proof.
  intros Hnd Hk Hlt. apply map_eq. intros s'. rewrite env_lookup.
  destruct (decide (s = s')) as [<-|Hne].
  - rewrite lookup_insert_eq, Hk. cbn [mbind option_bind]. by apply list_lookup_insert_eq.
  - rewrite lookup_insert_ne, env_lookup by done. destruct (position s' symbols) as [k'|] eqn:Hk'; [|done].
    cbn [mbind option_bind]. apply list_lookup_insert_ne. intros ->.
    apply position_lookup in Hk, Hk'. congruence.
Qed.

(** What a run of the code of an operation does to the locals. *)
Definition runs_as (code : list Instruction) (op : TransactionOp) (cells : list Cell) (sts : vm_stacks)
    (next : N) : Prop :=
  match ast_step d hash (locals_of cells sts next) op with
  | Ok st => ∃ cells', length cells' = length symbols ∧ as_env st = env_of symbols cells' ∧
      length (as_stacks st) = length sts ∧
      spec_loop capacity hash code (Trial_mk cells sts next) = Ok (Trial_mk cells' (as_stacks st) (as_next st))
  | Err e => spec_loop capacity hash code (Trial_mk cells sts next) = Err e
  | Panic => False
  end.

Lemma update_step f slot token cells sts next :
  rm_slots m !! slot = Some token → length cells = length symbols →
  match ast_update d slot f (locals_of cells sts next) with
  | Ok st => as_env st = env_of symbols cells ∧ length (as_stacks st) = length sts ∧
      t_set_stack token f (Trial_mk cells sts next) = Ok (Trial_mk cells (as_stacks st) (as_next st))
  | Err e => t_set_stack token f (Trial_mk cells sts next) = Err e
  | Panic => False
  end.
Proof.
  intros Ht Hlen. unfold ast_update, t_set_stack. rewrite reference_slot, Ht. cbn.
  destruct (sts !! N.to_nat token) as [st|]; cbn; [|done]. by rewrite length_insert.
Qed.

Lemma op_runs op code cells sts next :
  NoDup symbols → length cells = length symbols →
  (∀ slot token, rm_slots m !! slot = Some token → token ≠ NONE) →
  reference_emit m op = Ok code → runs_as code op cells sts next.
Proof.
  intros Hnd Hlen Hslots Hcode. unfold runs_as.
  destruct op as [s|w|slot a|slot a p b|slot|]; cbn [reference_emit] in Hcode; cbn [ast_step].
  - destruct (rm_symbols m !! s) as [i|] eqn:Ei; [|done]. injection Hcode as <-.
    apply local_position in Ei as (k & -> & Hk & Hlt).
    exists (<[k := next]> cells). cbn [as_env as_stacks as_next locals_of].
    split_and!; [by rewrite length_insert|by rewrite (set_local_env _ _ _ _ Hnd Hk) by lia|done|].
    unfold spec_loop. cbn [outcome_fold spec_instruction opcode i_allocate t_next t_cells t_stacks].
    rewrite t_push_ok by lia. cbn [outcome_bind spec_instruction opcode i_store_local argument].
    rewrite t_pop_snoc. cbn [outcome_bind fst snd t_cells t_stacks t_next]. rewrite Nat2N.id.
    by rewrite (proj2 (Nat.ltb_lt _ _)) by lia.
  - injection Hcode as <-. unfold spec_loop. cbn [outcome_fold spec_instruction opcode argument immediate].
    rewrite (decide_True (P := NONE = NONE)) by done. case_decide; [|done]. exists cells. done.
  - destruct (rm_slots m !! slot) as [token|] eqn:Et; [|done]. cbn [or_panic outcome_bind] in Hcode.
    rewrite reference_slot, Et. cbn [or_panic outcome_bind].
    assert (∃ v, ast_atom d (env_of symbols cells) a = Some v ∧ code = [Instruction_raw ExpectObject token v])
      as (v & Hv & ->).
    { destruct a as [e|l|s]; cbn [ast_atom]; [injection Hcode as <-; by eexists| |done].
      rewrite reference_literal. destruct (rm_literals m !! l); [|done]. injection Hcode as <-. by eexists. }
    unfold locals_of. cbn [as_env as_stacks]. rewrite Hv. cbn [or_panic outcome_bind].
    unfold spec_loop. cbn [outcome_fold spec_instruction opcode argument immediate t_stacks].
    rewrite decide_False by (by eapply Hslots).
    destruct (sts !! N.to_nat token) as [[|[[x y] o] st]|]; cbn [ok_or outcome_bind]; [done| |done].
    case_decide; [|done]. exists cells. done.
  - destruct (reference_atom m a) as [i1|e|] eqn:Ea; [|done..]. cbn [outcome_bind] in Hcode.
    destruct (rm_predicates m !! p) as [pc|] eqn:Ep; [|done]. cbn [or_panic outcome_bind] in Hcode.
    destruct (reference_atom m b) as [i2|e|] eqn:Eb; [|done..]. cbn [outcome_bind] in Hcode.
    destruct (rm_slots m !! slot) as [token|] eqn:Et; [|done]. injection Hcode as <-.
    destruct (load_step a i1 cells [] sts next Ea Hlen) as (v1 & Hv1 & E1); [simpl; lia|].
    destruct (load_step b i2 cells [v1; pc] sts next Eb Hlen) as (v2 & Hv2 & E2); [simpl; lia|].
    cbn [locals_of as_env]. rewrite Hv1, reference_predicate, Ep, Hv2. cbn [or_panic outcome_bind].
    pose proof (update_step (λ st, (v1, pc, v2) :: st) slot token cells sts next Et Hlen) as Hu.
    unfold spec_loop. cbn [outcome_fold]. rewrite app_nil_r in E1. rewrite E1. cbn [outcome_bind app].
    cbn [spec_instruction opcode i_push immediate]. rewrite t_push_ok by (rewrite length_app; simpl; lia).
    cbn [outcome_bind]. rewrite <- (assoc_L (++)). cbn [app]. rewrite E2. cbn [outcome_bind].
    cbn [spec_instruction opcode i_define argument]. change [v1; pc] with ([v1] ++ [pc]).
    rewrite !(assoc_L (++)). do 3 (rewrite t_pop_snoc; cbn [outcome_bind fst snd]).
    destruct (ast_update d slot _ _) as [st|e|]; [|by rewrite Hu|done].
    destruct Hu as (-> & Hl & ->). exists cells. done.
  - destruct (rm_slots m !! slot) as [token|] eqn:Et; [|done]. injection Hcode as <-.
    pose proof (update_step tail slot token cells sts next Et Hlen) as Hu.
    unfold spec_loop. cbn [outcome_fold spec_instruction opcode i_forget argument].
    destruct (ast_update d slot _ _) as [st|e|]; [|by rewrite Hu|done].
    destruct Hu as (-> & Hl & ->). exists cells. done.
  - injection Hcode as <-. done.
Qed.

Lemma program_extends ops acc acc' :
  outcome_fold (λ acc op, let* code := reference_emit m op in Ok (acc ++ code)) ops acc = Ok acc' →
  ∃ code, acc' = acc ++ code.
Proof.
  revert acc. induction ops as [|op ops IH]; intros acc; cbn [outcome_fold].
  { intros [= <-]. exists []. by rewrite app_nil_r. }
  destruct (reference_emit m op) as [code|e|]; cbn [outcome_bind]; [|done..].
  intros (more & ->)%IH. exists (code ++ more). by rewrite (assoc_L (++)).
Qed.

Lemma program_runs ops : ∀ code cells sts next acc,
  NoDup symbols → length cells = length symbols →
  (∀ slot token, rm_slots m !! slot = Some token → token ≠ NONE) →
  outcome_fold (λ acc op, let* code := reference_emit m op in Ok (acc ++ code)) ops acc = Ok (acc ++ code) →
  match ast_run d hash ops (locals_of cells sts next) with
  | Ok st => ∃ cells', length cells' = length symbols ∧ as_env st = env_of symbols cells' ∧
      spec_loop capacity hash code (Trial_mk cells sts next) = Ok (Trial_mk cells' (as_stacks st) (as_next st))
  | Err e => spec_loop capacity hash code (Trial_mk cells sts next) = Err e
  | Panic => False
  end.
Proof.
  induction ops as [|op ops IH]; intros code cells sts next acc Hnd Hlen Hslots Hcode; cbn [outcome_fold] in Hcode.
  { assert (code = []) as -> by (injection Hcode as Hc; by apply app_inv_head with acc; rewrite app_nil_r).
    exists cells. done. }
  destruct (reference_emit m op) as [code1|e|] eqn:E; cbn [outcome_bind] in Hcode; [|done..].
  destruct (program_extends ops (acc ++ code1) _ Hcode) as (code2 & Hcode2).
  rewrite <- (assoc_L (++)) in Hcode2. apply app_inv_head in Hcode2. subst code.
  rewrite (assoc_L (++)) in Hcode.
  pose proof (op_runs op code1 cells sts next Hnd Hlen Hslots E) as Hop. unfold runs_as in Hop.
  unfold ast_run, spec_loop. cbn [outcome_fold]. rewrite outcome_fold_app.
  destruct (ast_step d hash _ op) as [st|e|]; cbn [outcome_bind]; [|by unfold spec_loop in Hop; rewrite Hop|done].
  destruct Hop as (cells1 & Hlen1 & Henv & _ & Hop). unfold spec_loop in Hop. rewrite Hop.
  cbn [outcome_bind]. specialize (IH code2 cells1 (as_stacks st) (as_next st) _ Hnd Hlen1 Hslots Hcode).
  unfold locals_of in IH. rewrite <- Henv in IH. destruct st. exact IH.
Qed.
End simulation.

(** ** The properties of lowering: it is the reference lowering, and the lowered
    program runs as the transaction says. *)

(** C23: Lowering through sorted references is lowering through ordered sets and
    maps.  Whatever a pooled context held before, and whether the operations are
    owned or borrowed, the lowering returns the frame of the reference lowering
    or fails with its error, and never panics. *)
Theorem lowering_is_reference (src : OperationSource) (ops : list TransactionOp) (namespace : N)
    (c : LoweringContext) :
  sources src ops → (N.of_nat (length ops) < u32_modulus)%N →
  let lowered := (lower_from_source namespace src c).1 in
  lowered = lower_to_sisa_reference (TransactionAST_new namespace ops) ∧
  lowered = lower_to_sisa (TransactionAST_new namespace ops) ∧
  lowered ≠ Panic.
Proof.
  intros Hsrc Hlen. cbv zeta. rewrite (lower_from_source_spec src ops Hsrc namespace c Hlen).
  split; [done|]. split; [|apply reference_no_panic]. unfold lower_to_sisa, lower_to_sisa_with.
  symmetry. by apply lower_from_source_spec.
Qed.

Definition sample_transaction : list TransactionOp :=
  [TxAllocate "zebra"; TxAllocate "apple";
   TxDefine "gamma" (RefSymbol "zebra") "is" (RefLiteral "zoo");
   TxDefine "alpha" (RefSymbol "apple") "has" (RefLiteral "ant");
   TxExpectObject "gamma" (RefLiteral "zoo"); TxForget "alpha"].

Lemma lowering_is_reference_witness :
  let lowered := (lower_from_source 100 (BorrowedOperationSource (op_view <$> sample_transaction))
    (LoweringContext_mk [StrAlloc 7] [] [] [] [i_reject] [] [] [])).1 in
  lowered = lower_to_sisa_reference (TransactionAST_new 100 sample_transaction) ∧
  lowered = lower_to_sisa (TransactionAST_new 100 sample_transaction) ∧ lowered ≠ Panic.
Proof.
  apply (lowering_is_reference (BorrowedOperationSource (op_view <$> sample_transaction)) sample_transaction).
  - apply borrowed_sources.
  - vm_compute. reflexivity.
Defined.

(** C24: A lowered transaction runs as written.  Executed by the VM, the program of
    a transaction is accepted exactly when the transaction's own machine, which
    reads names through the dictionary of the frame and keeps its entities by
    name, succeeds; the stacks and the allocator are then those of the machine.
    Otherwise it is rejected with the machine's error and the workspace is as
    before. *)
Theorem lowering_runs (ix : bool) (w : Workspace) (sts : vm_stacks) (src : OperationSource)
    (ops : list TransactionOp) (namespace : N) (c : LoweringContext) (frame : InstructionStreamFrame) :
  sources src ops → (N.of_nat (length ops) < NONE)%N →
  (lower_from_source namespace src c).1 = Ok frame →
  vm_ok ix w sts → room w (length (isa_instructions frame)) →
  vm_sp w + length (ast_symbols ops) + 3 ≤ length (vm_stack w) →
  let locals := take (length (ast_symbols ops)) (drop (vm_sp w) (vm_stack w)) in
  let run := ast_run (isa_dictionary frame) (vm_hash w) ops
    (AstState_mk (env_of (ast_symbols ops) locals) sts (vm_next w)) in
  match execute_instructions (isa_local_count frame) (isa_instructions frame) w with
  | Some (Accepted, w') => ∃ st, run = Ok st ∧ vm_ok ix w' (as_stacks st) ∧ vm_next w' = as_next st
  | Some (Rejected e, w') => same_state w w' ∧ vm_ok ix w' sts ∧ run = Err e
  | None => False
  end.
Proof.
  intros Hsrc Hlen Hlower Hok Hroom Hsp. cbv zeta.
  assert (N.of_nat (length ops) < u32_modulus)%N as Hlen' by (change u32_modulus with (NONE + 1)%N; lia).
  pose proof (lower_from_source_spec src ops Hsrc namespace c Hlen') as Href. rewrite Hlower in Href.
  unfold lower_to_sisa_reference, reference_program in Href. cbn [ast_operations ast_namespace] in Href.
  destruct (reference_names ops) as [n|e|] eqn:En; cbn [outcome_bind] in Href; [|done..].
  destruct (outcome_fold _ ops []) as [code|e|] eqn:Ecode; cbn [outcome_bind] in Href; [|done..].
  injection Href as ->. cbn [isa_instructions isa_local_count isa_dictionary InstructionStreamFrame_new] in *.
  unfold reference_names in En. pose proof (reference_slots _ _ _ En) as Hslots.
  cbn [rn_slots] in Hslots. rewrite size_empty in Hslots.
  destruct (reference_symbols ops (RefNames_mk ∅ ∅ ∅ ∅ 0) n [] eq_refl (λ s, lookup_empty s) NoDup_nil_2 En) as (Hn & Hs & Hnd).
  cbn [app] in Hn, Hs, Hnd. rewrite Hn. set (cells := take _ _).
  assert (length cells = length (ast_symbols ops)) as Hcells
    by (unfold cells; rewrite length_take, length_drop; lia).
  pose proof (program_runs n (vm_hash w) (length (vm_stack w) - vm_sp w) (ast_symbols ops) Hs ltac:(lia)
    ops code cells sts (vm_next w) [] Hnd Hcells) as Hrun.
  specialize (Hrun ltac:(intros; eapply reference_token; [|done]; lia) Ecode).
  pose proof (execute_spec ix w sts (N.of_nat (length (ast_symbols ops))) code Hok Hroom) as Hex.
  assert (start_trial w (N.of_nat (length (ast_symbols ops))) sts = Trial_mk cells sts (vm_next w)) as Hstart.
  { unfold start_trial, cells. by rewrite Nat2N.id, take_drop_commute. }
  rewrite Hstart in Hex. unfold locals_of in Hrun.
  destruct (ast_run _ _ _ _) as [st|e|]; [| |done].
  - destruct Hrun as (cells' & _ & _ & Hrun). rewrite Hrun in Hex.
    destruct (execute_instructions _ _ _) as [[[|e] w']|]; [| |done].
    + destruct Hex as (_ & t & [= <-] & Hok' & Hn' & _). by exists st.
    + destruct Hex as (_ & _ & Hex). rewrite (proj2 (Nat.ltb_ge _ _)) in Hex by lia. done.
  - rewrite Hrun in Hex. destruct (execute_instructions _ _ _) as [[[|e'] w']|]; [| |done].
    + by destruct Hex as (_ & t & ? & _).
    + destruct Hex as (Hs1 & Hs2 & Hex). rewrite (proj2 (Nat.ltb_ge _ _)) in Hex by lia.
      split_and!; [done|done|congruence].
Qed.

Definition sample_frame : InstructionStreamFrame :=
  match lower_to_sisa (TransactionAST_new 100 sample_transaction) with
  | Ok frame => frame
  | _ => InstructionStreamFrame_new 0 StreamDictionary_new 0 []
  end.

Lemma lowering_runs_witness :
  let w := with_indexes 2 8 8 8 in
  let run := ast_run (isa_dictionary sample_frame) (vm_hash w) sample_transaction
    (AstState_mk (env_of ["zebra"; "apple"]%string [0; 0]%N) (replicate 2 []) 1) in
  match execute_instructions (isa_local_count sample_frame) (isa_instructions sample_frame) w with
  | Some (Accepted, w') => ∃ st, run = Ok st ∧ vm_ok true w' (as_stacks st) ∧ vm_next w' = as_next st
  | Some (Rejected e, w') => same_state w w' ∧ vm_ok true w' (replicate 2 []) ∧ run = Err e
  | None => False
  end.
Proof.
  apply (lowering_runs true (with_indexes 2 8 8 8) (replicate 2 [])
    (OwnedOperationSource sample_transaction) sample_transaction 100 LoweringContext_new sample_frame).
  - apply owned_sources.
  - vm_compute. reflexivity.
  - vm_compute. reflexivity.
  - by apply vm_new_ok.
  - split_and!; vm_compute; discriminate.
  - vm_compute. lia.
Defined.

(** ** Scope *)

(** Every symbol is read after its allocation. *)
Fixpoint scoped (known : gset string) (ops : list TransactionOp) : bool :=
  let atom a := match a with RefSymbol s => bool_decide (s ∈ known) | _ => true end in
  match ops with
  | [] => true
  | TxAllocate s :: ops => scoped ({[ s ]} ∪ known) ops
  | TxExpectObject _ a :: ops => atom a && scoped known ops
  | TxDefine _ a _ b :: ops => atom a && atom b && scoped known ops
  | _ :: ops => scoped known ops
  end.

(** What the locals held before a scoped transaction does not show. *)
Lemma scoped_run d hash ops : ∀ known env1 env2 sts next,
  scoped known ops = true → (∀ s, s ∈ known → env1 !! s = env2 !! s) →
  (let* st := ast_run d hash ops (AstState_mk env1 sts next) in Ok (as_stacks st, as_next st)) =
  (let* st := ast_run d hash ops (AstState_mk env2 sts next) in Ok (as_stacks st, as_next st)).
Proof.
  unfold ast_run. induction ops as [|op ops IH]; intros known env1 env2 sts next Hs Henv; [done|].
  cbn [outcome_fold].
  assert (∀ a, match a with RefSymbol s => bool_decide (s ∈ known) | _ => true end = true →
    ast_atom d env1 a = ast_atom d env2 a) as Hatom.
  { intros [e|l|s]; simpl; [done..|]. intros Hk%bool_decide_eq_true. by apply Henv. }
  assert (∀ slot f env, ast_update d slot f (AstState_mk env sts next) =
      (let* st := ast_update d slot f (AstState_mk ∅ sts next) in
       Ok (AstState_mk env (as_stacks st) (as_next st)))) as Hupdate.
  { intros slot f env. unfold ast_update. destruct (ast_slot d slot) as [t|]; [|done]. cbn.
    by destruct (sts !! N.to_nat t). }
  destruct op as [x|w|slot a|slot a p b|slot|]; cbn [scoped ast_step] in *.
  - apply (IH ({[ x ]} ∪ known)); [done|]. cbn. intros s [->%elem_of_singleton|Hin]%elem_of_union;
      [by rewrite !lookup_insert_eq|].
    destruct (decide (x = s)) as [<-|]; [by rewrite !lookup_insert_eq|].
    rewrite !lookup_insert_ne by done. by apply Henv.
  - case_decide; [|done]. by apply (IH known).
  - apply andb_true_iff in Hs as [Ha Hs]. cbn [as_env as_stacks]. rewrite (Hatom a Ha).
    destruct (ast_slot d slot) as [t|]; [|done]. cbn [or_panic outcome_bind].
    destruct (ast_atom d env2 a) as [v|]; [|done]. cbn [or_panic outcome_bind].
    destruct (sts !! N.to_nat t) as [[|[[? ?] o] st]|]; [done| |done]. cbn [ok_or outcome_bind].
    case_decide; [|done]. by apply (IH known).
  - apply andb_true_iff in Hs as [[Ha Hb]%andb_true_iff Hs]. cbn [as_env]. rewrite (Hatom a Ha), (Hatom b Hb).
    destruct (ast_atom d env2 a) as [v1|]; [|done]. cbn [or_panic outcome_bind].
    destruct (ast_predicate d p) as [v2|]; [|done]. cbn [or_panic outcome_bind].
    destruct (ast_atom d env2 b) as [v3|]; [|done]. cbn [or_panic outcome_bind].
    rewrite !(Hupdate _ _ env1), !(Hupdate _ _ env2).
    destruct (ast_update d slot _ _) as [st|e|]; [|done..]. cbn [outcome_bind]. by apply (IH known).
  - rewrite !(Hupdate _ _ env1), !(Hupdate _ _ env2).
    destruct (ast_update d slot _ _) as [st|e|]; [|done..]. cbn [outcome_bind]. by apply (IH known).
  - done.
Qed.

(** ** Where lowering is not faithful *)

(** Predicates and literals are numbered from zero, among the identifiers of
    entities: a transaction about an entity and one about a literal become the
    same program. *)
Lemma lowering_confuses_entities :
  let about atom := TransactionAST_new 1 [TxDefine "s" atom "p" (RefLiteral "x")] in
  lower_to_sisa (about (RefEntity (AstEntityId_mk 1))) = lower_to_sisa (about (RefLiteral "x")) ∧
  ∃ frame, lower_to_sisa (about (RefLiteral "x")) = Ok frame.
Proof. vm_compute. split; [done|by eexists]. Qed.

(** A symbol may be read before it is allocated: the lowering succeeds, and the
    program reads a local that nothing has stored, whatever an earlier intent
    left in its cell. *)
Lemma lowering_reads_unset_locals :
  let ops := [TxDefine "s" (RefSymbol "x") "p" (RefLiteral "y"); TxAllocate "x"]%string in
  scoped ∅ ops = false ∧
  match lower_to_sisa (TransactionAST_new 1 ops) with
  | Ok frame => head (isa_instructions frame) = Some (i_load_local 0) ∧
      let run cell := ast_run (isa_dictionary frame) 0 ops (AstState_mk {[ "x"%string := cell ]} [[]] 1) in
      (as_stacks <$> match run 7%N with Ok st => Some st | _ => None end) = Some [[(7, 0, 1)]]%N ∧
      (as_stacks <$> match run 8%N with Ok st => Some st | _ => None end) = Some [[(8, 0, 1)]]%N
  | _ => False
  end.
Proof. vm_compute. done. Qed.
