(* ===== verification/MixedEpochs.v ===== *)
(** Mixed epochs of queued intents and semantic transactions
    (forthdb-world/src/queued.rs, lines 853-963, 1102-1710, 2020-2246 and
    2562-2608): the trial vocabulary that compiles a transaction without
    committing its names, the epoch planner on the VM for both kinds of intent,
    and the in-memory publication of a mixed epoch.

    With validators the planner decides each intent on a candidate world before
    it touches the VM; without, the VM decides.  Error messages that the code
    formats are one constructor per message here, except where a queued intent
    is rejected with the text itself. *)
From Stdlib Require Import NArith ZArith Lia.
From stdpp Require Import base gmap list strings option list_monad.
From S2P Require Import Prelude Ord Terms Bytes Query QueryFacts Spec Index Kernel Frames.
From S2P Require Import VmProjection Worlds WorldFacts Intents Epochs StackVm VmEpochs Parser Isa Ast.

(** [ControllerIntent] of queued_controller.rs. *)
Inductive ControllerIntent :=
| QueuedCI (intent : QueuedIntent)
| SemanticCI (intent : SemanticIntent).

(** The messages of [compile_semantic_trial]. *)
Inductive TrialError :=
| TrialDuplicate (symbol : string)
| TrialExhausted
| TrialUndefined (symbol : string).

(** [SemanticTicketRejection]: [Validation] with its three kinds of message and
    [Lowering]; the planner makes no other. *)
Inductive SemanticRejection :=
| SemanticCandidate (e : CandidateError)
| SemanticValidation (message : string)
| SemanticExecution (e : ExecError)
| SemanticLowering (e : TrialError).

Record RejectedSemanticIntent := RejectedSemanticIntent_mk {
  rsi_position : nat;
  rsi_error : SemanticRejection;
}.

(** [{error:?}] and the messages of [compile_operations]. *)
Definition exec_error_debug (e : ExecError) : string :=
  match e with
  | ExplicitRejection => "ExplicitRejection"%string
  | MissingExpectedValue => "MissingExpectedValue"%string
  | ExpectedValueMismatch => "ExpectedValueMismatch"%string
  | StackUnderflow => "StackUnderflow"%string
  | StackOverflow => "StackOverflow"%string
  | InvalidLocal => "InvalidLocal"%string
  | InvalidSlot => "InvalidSlot"%string
  end.

Definition compile_message (e : MaterializeError) : string :=
  match e with
  | AllocatorExhausted => "entity allocator exhausted the VM atom namespace"%string
  | EntityOverlapsLiterals => "entity identifier overlaps the VM literal namespace"%string
  | LiteralTokenOverflow => "VM literal token overflow"%string
  | _ => ""%string
  end.

Section mixed.
Context {D P : Type} `{Kernel D, MappedRoot P, MappedVocabulary P}.

Abbreviation materializer := (VmEpochMaterializer P) (only parsing).
Abbreviation Validator := (CandidateWorld D → outcome string unit) (only parsing).

(** ** The trial vocabulary *)

Record TrialVocabulary := TrialVocabulary_mk {
  tr_materializer : materializer;
  tr_slots : gmap SlotId SlotToken;
  tr_predicates : gmap Predicate Cell;
  tr_literals : gmap Literal Cell;
}.

Definition TrialVocabulary_new (m : materializer) : TrialVocabulary := TrialVocabulary_mk m ∅ ∅ ∅.

(** The keys of a [BTreeMap] in order. *)
Definition btree_keys {K A} `{Countable K, Ord K} (m : gmap K A) : list K := ord_sort (map_to_list m).*1.

(** [commit]: the maps are drained in the order of their keys. *)
Definition trial_commit (t : TrialVocabulary) : materializer :=
  let m := tr_materializer t in
  let m := m_set_slots (tr_slots t ∪ m_slots m) m in
  let m := m_set_predicates (tr_predicates t ∪ m_predicates m)
    (m_predicate_values m ++ btree_keys (tr_predicates t)) m in
  m_set_literals (tr_literals t ∪ m_literals m) (m_literal_values m ++ btree_keys (tr_literals t)) m.

Definition trial (A : Type) : Type := TrialVocabulary → outcome TrialError A * TrialVocabulary.

#[export] Instance trial_ret : MRet trial := λ A a t, (Ok a, t).
#[export] Instance trial_bind : MBind trial := λ A B k c t,
  match c t with
  | (Ok a, t) => k a t
  | (Err e, t) => (Err e, t)
  | (Panic, t) => (Panic, t)
  end.

Definition trial_err {A} (e : TrialError) : trial A := λ t, (Err e, t).

Definition trial_slot_token (slot : SlotId) : trial SlotToken := λ t,
  let m := tr_materializer t in
  match tr_slots t !! slot with
  | Some token => (Ok token, t)
  | None =>
      match lookup_slot m slot with
      | Some token => (Ok token, t)
      | None =>
          let total_slots := base_slot_count m + size (m_slots m) + size (tr_slots t) in
          let token := as_u32 total_slots in
          (Ok token,
           TrialVocabulary_mk (m_set_workspace (ensure_slot_count (total_slots + 1) (m_workspace m)) m)
             (<[slot := token]> (tr_slots t)) (tr_predicates t) (tr_literals t))
      end
  end.

Definition trial_predicate_cell (predicate : Predicate) : trial Cell := λ t,
  let m := tr_materializer t in
  match tr_predicates t !! predicate with
  | Some cell => (Ok cell, t)
  | None =>
      match m_predicates m !! predicate with
      | Some cell => (Ok cell, t)
      | None =>
          match base ← m_mapped m; mv_predicate_token base (predicate_str predicate) with
          | Some token => (Ok token, t)
          | None =>
              let cell := N.of_nat (base_predicate_count m + size (m_predicates m) + size (tr_predicates t)) in
              (Ok cell, TrialVocabulary_mk m (tr_slots t) (<[predicate := cell]> (tr_predicates t))
                          (tr_literals t))
          end
      end
  end.

Definition trial_literal_cell (literal : Literal) : trial Cell := λ t,
  let m := tr_materializer t in
  match tr_literals t !! literal with
  | Some cell => (Ok cell, t)
  | None =>
      match m_literals m !! literal with
      | Some cell => (Ok cell, t)
      | None =>
          match base ← m_mapped m; mv_literal_token base (literal_str literal) with
          | Some token => (Ok (VM_LITERAL_BASE + token)%N, t)
          | None =>
              let offset := N.of_nat (base_literal_count m + length (m_literal_values m) + size (tr_literals t)) in
              match u64_checked_add VM_LITERAL_BASE offset with
              | Some cell =>
                  (Ok cell, TrialVocabulary_mk m (tr_slots t) (tr_predicates t)
                              (<[literal := cell]> (tr_literals t)))
              | None => (Panic, t)
              end
          end
      end
  end.

(** The cell of an operand. *)
Definition trial_atom (bindings : gmap string EntityId) (a : AtomRefView) : trial Cell :=
  match a with
  | ViewEntity e => mret (ast_entity e)
  | ViewLiteral l => trial_literal_cell (Literal_new l)
  | ViewSymbol s =>
      match bindings !! s with
      | Some e => mret (entity_value e)
      | None => trial_err (TrialUndefined s)
      end
  end.

(** One operation: the instructions and what is bound.  The number of entities
    allocated so far is the number of bindings. *)
Definition trial_operation (bindings : gmap string EntityId) (local_entity_count : N)
    (op : TransactionOpView) : trial (list Instruction * gmap string EntityId * N) :=
  match op with
  | ViewAllocate result => λ t,
      match bindings !! result with
      | Some _ => (Err (TrialDuplicate result), t)
      | None =>
          let entity_id := u64_add (vm_next (m_workspace (tr_materializer t))) local_entity_count in
          if (VM_LITERAL_BASE <=? entity_id)%N then (Err TrialExhausted, t)
          else (Ok ([i_allocate_discard], <[result := EntityId_new entity_id]> bindings,
                    u64_add local_entity_count 1), t)
      end
  | ViewExpectWorld _ => mret ([], bindings, local_entity_count)
  | ViewExpectObject slot expected =>
      token ← trial_slot_token (SlotId_new slot);
      cell ← trial_atom bindings expected;
      mret ([i_expect_object token cell], bindings, local_entity_count)
  | ViewDefine slot subject predicate object =>
      token ← trial_slot_token (SlotId_new slot);
      s ← trial_atom bindings subject;
      p ← trial_predicate_cell (Predicate_new predicate);
      o ← trial_atom bindings object;
      mret ([i_push s; i_push p; i_push o; i_define token], bindings, local_entity_count)
  | ViewForget slot =>
      token ← trial_slot_token (SlotId_new slot);
      mret ([i_forget token], bindings, local_entity_count)
  | ViewReject => mret ([i_reject], bindings, local_entity_count)
  end.

Fixpoint trial_loop (bindings : gmap string EntityId) (local_entity_count : N)
    (ops : list TransactionOpView) : trial (list Instruction * gmap string EntityId) :=
  match ops with
  | [] => mret ([], bindings)
  | op :: ops =>
      r ← trial_operation bindings local_entity_count op;
      let '(code, bindings, count) := r in
      rest ← trial_loop bindings count ops;
      mret (code ++ rest.1, rest.2)
  end.

Definition compile_semantic_trial (view : TransactionView) :
    trial (IntentProgram * gmap string EntityId) :=
  r ← trial_loop ∅ 0 (tv_operations view);
  mret (IntentProgram_new 0 r.1, r.2).

(** ** Running a transaction *)

Inductive SemanticRun :=
| RunAccepted (bindings : gmap string EntityId)
| RunLowering (e : TrialError)
| RunRejected (e : ExecError).

(** Compile on a trial vocabulary, execute, and commit the names of an accepted
    transaction. *)
Definition run_semantic (view : TransactionView) : mat SemanticRun := λ m,
  match compile_semantic_trial view (TrialVocabulary_new m) with
  | (Ok (program, bindings), t) =>
      match execute program (m_workspace (tr_materializer t)) with
      | Some (Accepted, w) =>
          (Ok (RunAccepted bindings),
           trial_commit (TrialVocabulary_mk (m_set_workspace w (tr_materializer t)) (tr_slots t)
                           (tr_predicates t) (tr_literals t)))
      | Some (Rejected e, w) => (Ok (RunRejected e), m_set_workspace w (tr_materializer t))
      | None => (Panic, tr_materializer t)
      end
  | (Err e, t) => (Ok (RunLowering e), tr_materializer t)
  | (Panic, t) => (Panic, tr_materializer t)
  end.

(** [SemanticBindings::new(bindings.into_iter()..)]. *)
Definition semantic_bindings (bindings : gmap string EntityId) : SemanticBindings :=
  SemanticBindings_new (omap (λ s, e ← bindings !! s; Some (s, AstEntityId_mk (entity_value e)))
    (btree_keys bindings)).

(** ** The operations of a transaction *)

Definition temps_step (st : gmap string N * N) (op : TransactionOp) : gmap string N * N :=
  match op with
  | TxAllocate result => (<[result := st.2]> st.1, u64_add st.2 1)
  | _ => st
  end.

(** The entities the allocations will get, and the allocator after them. *)
Definition semantic_temps (next : N) (ops : list TransactionOp) : gmap string N * N :=
  foldl temps_step (∅, next) ops.

(** [None]: [temps.get(s).unwrap()] panics. *)
Definition synthesize_atom (temps : gmap string N) (a : AtomRef) : option Atom :=
  match a with
  | RefEntity e => Some (AEntity (EntityId_new (ast_entity e)))
  | RefLiteral l => Some (ALiteral (Literal_new l))
  | RefSymbol s => e ← temps !! s; Some (AEntity (EntityId_new e))
  end.

Definition synthesize_operation (temps : gmap string N) (op : TransactionOp) : option (list Operation) :=
  match op with
  | TxAllocate result => e ← temps !! result; Some [AllocateEntity (EntityId_new e)]
  | TxDefine slot subject predicate object =>
      s ← synthesize_atom temps subject;
      o ← synthesize_atom temps object;
      Some [OpDefine (SlotId_new slot) (Fact_new s (Predicate_new predicate) o)]
  | TxForget slot => Some [OpForget (SlotId_new slot)]
  | _ => Some []
  end.

Definition synthesize_operations (next : N) (ops : list TransactionOp) : option (list Operation) :=
  (λ ls, concat ls) <$> mapM (synthesize_operation (semantic_temps next ops).1) ops.

Definition semantic_view (ast : TransactionAST) : TransactionView :=
  TransactionView_borrowed (ast_namespace ast) (op_view <$> ast_operations ast).

(** ** The epoch *)

Inductive MixedVmOutcome :=
| MixedQueuedAccepted (position : nat) (entities : gmap TempEntity EntityId)
| MixedQueuedRejected (r : RejectedIntent)
| MixedSemanticAccepted (position : nat) (bindings : SemanticBindings)
| MixedSemanticRejected (r : RejectedSemanticIntent).

(** What the loop carries besides the materializer: the predecessor of the next
    intent. *)
Record Predecessor := Predecessor_mk { pr_id : WorldId; pr_version : N }.

(** Operations accepted on top of a predecessor, as the loop does in every
    accepting branch. *)
Definition advance (p : Predecessor) (operations : list Operation) (m : materializer) : Predecessor :=
  let version := u64_saturating_add (pr_version p) 1 in
  Predecessor_mk (calculate_world_id (pr_id p) version (vm_next (m_workspace m)) operations) version.

(** The result of one intent: its operations if it was accepted, and its
    outcome. *)
Abbreviation step_result := (option (list Operation) * MixedVmOutcome)%type (only parsing).

Definition queued_rejected (position : nat) (e : IntentRejection) : step_result :=
  (None, MixedQueuedRejected (RejectedIntent_mk position e)).
Definition semantic_rejected (position : nat) (e : SemanticRejection) : step_result :=
  (None, MixedSemanticRejected (RejectedSemanticIntent_mk position e)).

(** Compiling and executing the operations of a queued intent. *)
Definition run_queued (position : nat) (operations : list Operation)
    (entities : gmap TempEntity EntityId) : mat step_result := λ m,
  match compile_operations operations m with
  | (Ok program, m) =>
      match execute program (m_workspace m) with
      | Some (Accepted, w) =>
          (Ok (Some operations, MixedQueuedAccepted position entities), m_set_workspace w m)
      | Some (Rejected e, w) =>
          (Ok (queued_rejected position (IntentValidation (exec_error_debug e))), m_set_workspace w m)
      | None => (Panic, m)
      end
  | (Err e, m) => (Ok (queued_rejected position (IntentValidation (compile_message e))), m)
  | (Panic, m) => (Panic, m)
  end.

(** The verdict of the validators on operations; the kernel is that of the base
    of the epoch. *)
Definition candidate_verdict (base : World D P) (kernel : D) (p : Predecessor) (next : N)
    (validators : list Validator) (operations : list Operation) : outcome (CandidateError + string) unit :=
  let* candidate := map_err inl (construct_from_state (pr_id p) (pr_version p) next
    (w_operation_count base) kernel operations) in
  map_err inr (run_validators validators candidate).

(** A queued intent, with validators and without. *)
Definition mixed_queued (base : World D P) (kernel : D) (validators : list Validator) (position : nat)
    (p : Predecessor) (queued : QueuedIntent) : mat step_result := λ m,
  match vm_resolve_intent m (pr_id p) queued with
  | Err error => (Ok (queued_rejected position error), m)
  | Panic => (Panic, m)
  | Ok (operations, entities) =>
      match validators with
      | [] => run_queued position operations entities m
      | _ :: _ =>
          match candidate_verdict base kernel p (vm_next (m_workspace m)) validators operations with
          | Err (inl e) => (Ok (queued_rejected position (IntentCandidate e)), m)
          | Err (inr e) => (Ok (queued_rejected position (IntentValidation e)), m)
          | Panic => (Panic, m)
          | Ok _ => run_queued position operations entities m
          end
      end
  end.

(** The outcome of a transaction that ran; its operations are synthesized from
    the allocator before it. *)
Definition semantic_outcome (position : nat) (operations : option (list Operation)) (r : SemanticRun) :
    outcome MaterializeError step_result :=
  match r with
  | RunAccepted bindings =>
      let* operations := or_panic operations in
      Ok (Some operations, MixedSemanticAccepted position (semantic_bindings bindings))
  | RunLowering e => Ok (semantic_rejected position (SemanticLowering e))
  | RunRejected e => Ok (semantic_rejected position (SemanticExecution e))
  end.

(** A semantic transaction: with validators its operations are synthesized and
    judged first. *)
Definition mixed_semantic (base : World D P) (kernel : D) (validators : list Validator) (position : nat)
    (p : Predecessor) (semantic : SemanticIntent) : mat step_result := λ m,
  let ast := si_ast semantic in
  let next := vm_next (m_workspace m) in
  let operations := synthesize_operations next (ast_operations ast) in
  let run m :=
    match run_semantic (semantic_view ast) m with
    | (Ok r, m) => (semantic_outcome position operations r, m)
    | (Err e, m) => (Err e, m)
    | (Panic, m) => (Panic, m)
    end in
  match validators with
  | [] => run m
  | _ :: _ =>
      match operations with
      | None => (Panic, m)
      | Some operations =>
          match candidate_verdict base kernel p next validators operations with
          | Err (inl e) => (Ok (semantic_rejected position (SemanticCandidate e)), m)
          | Err (inr e) => (Ok (semantic_rejected position (SemanticValidation e)), m)
          | Panic => (Panic, m)
          | Ok _ => run m
          end
      end
  end.

Definition mixed_intent (base : World D P) (kernel : D) (validators : list Validator) (position : nat)
    (p : Predecessor) (intent : ControllerIntent) : mat step_result :=
  match intent with
  | QueuedCI queued => mixed_queued base kernel validators position p queued
  | SemanticCI semantic => mixed_semantic base kernel validators position p semantic
  end.

(** The loop from [position] on: the accepted operations and the outcomes. *)
Fixpoint mixed_loop (base : World D P) (kernel : D) (validators : list Validator) (position : nat)
    (p : Predecessor) (intents : list ControllerIntent) : mat (list Operation * list MixedVmOutcome) :=
  match intents with
  | [] => mret ([], [])
  | intent :: intents =>
      r ← mixed_intent base kernel validators position p intent;
      m ← mat_get;
      let p := match r.1 with Some operations => advance p operations m | None => p end in
      rest ← mixed_loop base kernel validators (S position) p intents;
      mret (default [] r.1 ++ rest.1, r.2 :: rest.2)
  end.

Record AcceptedSemanticIntent := AcceptedSemanticIntent_mk {
  asi_position : nat;
  asi_world : World D P;
  asi_frame : CommitFrame;
  asi_bindings : SemanticBindings;
}.

Inductive MixedEpochOutcome :=
| QueuedAccepted (a : AcceptedIntent D P)
| QueuedRejected (r : RejectedIntent)
| SemanticAccepted (a : AcceptedSemanticIntent)
| SemanticRejected (r : RejectedSemanticIntent).

Record MixedEpochPlan := MixedEpochPlan_new {
  mp_base : World D P;
  mp_tail : World D P;
  mp_outcomes : list MixedEpochOutcome;
  mp_frames : list CommitFrame;
}.

Definition mixed_is_empty (p : MixedEpochPlan) : bool := match mp_frames p with [] => true | _ => false end.

Definition mixed_accepted (o : MixedVmOutcome) : bool :=
  match o with MixedQueuedAccepted _ _ | MixedSemanticAccepted _ _ => true | _ => false end.

(** [unreachable!()] on an accepted intent. *)
Definition mixed_only_rejected (o : MixedVmOutcome) : option MixedEpochOutcome :=
  match o with
  | MixedQueuedRejected r => Some (QueuedRejected r)
  | MixedSemanticRejected r => Some (SemanticRejected r)
  | _ => None
  end.

Definition mixed_published (world : World D P) (frame : CommitFrame) (o : MixedVmOutcome) : MixedEpochOutcome :=
  match o with
  | MixedQueuedAccepted position entities => QueuedAccepted (AcceptedIntent_mk position world frame entities)
  | MixedQueuedRejected r => QueuedRejected r
  | MixedSemanticAccepted position bindings =>
      SemanticAccepted (AcceptedSemanticIntent_mk position world frame bindings)
  | MixedSemanticRejected r => SemanticRejected r
  end.

Definition materialize_mixed (base : World D P) (intents : list ControllerIntent)
    (validators : list Validator) : mat MixedEpochPlan := λ m,
  match world_kernel base with
  | None => (Panic, m)
  | Some (kernel, _) =>
      match mixed_loop base kernel validators 0 (Predecessor_mk (w_id base) (w_version base)) intents m with
      | (Err e, m) => (Err e, m)
      | (Panic, m) => (Panic, m)
      | (Ok (operations, outcomes), m) =>
          if decide (length (filter mixed_accepted outcomes) = 0)
          then
            match mapM mixed_only_rejected outcomes with
            | Some outcomes => (Ok (MixedEpochPlan_new base base outcomes []), m)
            | None => (Panic, m)
            end
          else
            let '(world, frame) := from_vm_epoch base operations (vm_next (m_workspace m))
              (usize_of (vm_active_slot_count (m_workspace m))) (vm_delta_count (m_workspace m)) in
            (Ok (MixedEpochPlan_new base world (mixed_published world frame <$> outcomes) [frame]), m)
      end
  end.
End mixed.
Arguments TrialVocabulary : clear implicits.
Arguments AcceptedSemanticIntent : clear implicits.
Arguments MixedEpochOutcome : clear implicits.
Arguments MixedEpochPlan : clear implicits.

(** ** Publication *)

Section publish.
Context {D P : Type} `{Kernel D, MappedRoot P, MappedVocabulary P}.

(** [Database::commit_mixed_epoch]: the materializer is brought to the published
    world (a failure to do so panics), the plan is published and its version
    recorded. *)
Definition commit_mixed_epoch (db : Database D P MemoryCommitStore) (intents : list ControllerIntent)
    (m : VmEpochMaterializer P) :
    outcome MaterializeError (MixedEpochPlan D P) * Database D P MemoryCommitStore * VmEpochMaterializer P :=
  let base := db_current db in
  match synchronize_to base m with
  | (Err _, m) | (Panic, m) => (Panic, db, m)
  | (Ok _, m) =>
      match materialize_mixed base intents (db_validators db) m with
      | (Err e, m) => (Err e, db, m)
      | (Panic, m) => (Panic, db, m)
      | (Ok plan, m) =>
          (Ok plan,
           if mixed_is_empty plan then db
           else Database_mk (mp_tail plan) (append_all (db_store db) (mp_frames plan)) (db_validators db),
           m_set_version (w_version (mp_tail plan)) m)
      end
  end.
End publish.
