(* ===== verification/MixedFacts.v ===== *)
(** The trial vocabulary: compiling against it takes the same cells and tokens as
    compiling against the materializer, and committing it gives that
    materializer when new names came up in the order of their spelling. *)
From Stdlib Require Import NArith ZArith Lia.
From stdpp Require Import sorting base gmap list strings option list_monad.
From S2P Require Import Prelude Ord Terms Bytes Query QueryFacts Spec Index Kernel Frames.
From S2P Require Import VmProjection Worlds WorldFacts Intents Epochs.
From S2P Require Import StackVm StackVmFacts StackVmTrial StackVmRoots.
From S2P Require Import VmEpochs VmVocabulary VmEpochFacts Parser Isa Ast MixedEpochs.

(** ** Tables of new names

    A trial map over the table [known] numbers the names [names] from [base]. *)
Section table.
Context {K : Type} `{Countable K}.

Record table (base : N) (known fresh : gmap K N) (names : list K) : Prop := {
  tb_fresh k c : fresh !! k = Some c ↔ ∃ i, names !! i = Some k ∧ c = (base + N.of_nat i)%N;
  tb_nodup : NoDup names;
  tb_disjoint : known ##ₘ fresh;
}.

Lemma table_empty base known : table base known ∅ [].
Proof.
  split; [|constructor|apply map_disjoint_empty_r]. intros k c. rewrite lookup_empty. split; [done|].
  by intros (i & Hi & _).
Qed.

Lemma table_keys base known fresh names k : table base known fresh names → is_Some (fresh !! k) ↔ k ∈ names.
Proof.
  intros [Hf _ _]. rewrite list_elem_of_lookup. split.
  - intros [c (i & Hi & _)%Hf]. by exists i.
  - intros [i Hi]. eexists. apply Hf. by exists i.
Qed.

Lemma table_size base known fresh names : table base known fresh names → size fresh = length names.
Proof.
  intros Ht. rewrite <- size_dom.
  assert (dom fresh = list_to_set (C := gset K) names) as ->.
  { apply set_eq. intros k. rewrite elem_of_dom, elem_of_list_to_set. by eapply table_keys. }
  apply size_list_to_set, Ht.
Qed.

Lemma table_add base known fresh names k :
  table base known fresh names → known !! k = None → fresh !! k = None →
  table base known (<[k := (base + N.of_nat (length names))%N]> fresh) (names ++ [k]).
Proof.
  intros Ht Hk Hf. pose proof Ht as [H1 H2 H3]. split.
  - intros k' c. rewrite lookup_insert_Some. setoid_rewrite lookup_snoc_Some. split.
    + intros [[<- <-]|[Hne (i & Hi & ->)%H1]]; [exists (length names); split; [by right|done]|].
      exists i. split; [by left|done].
    + intros (i & [Hi|[-> <-]] & ->); [|by left]. right. split; [|apply H1; by exists i].
      intros ->. assert (is_Some (fresh !! k')) as [? ?] by (eapply table_keys; [done|by eapply list_elem_of_lookup_2]).
      congruence.
  - apply NoDup_app. split_and!; [done| |apply NoDup_singleton]. intros k' Hin ->%list_elem_of_singleton.
    eapply table_keys in Hin as [? ?]; [|done]. congruence.
  - by apply map_disjoint_insert_r.
Qed.

Lemma table_union_lookup base known fresh names k :
  table base known fresh names →
  (fresh ∪ known) !! k = match fresh !! k with Some c => Some c | None => known !! k end.
Proof. intros _. rewrite lookup_union. by destruct (fresh !! k), (known !! k). Qed.

Lemma table_union_size base known fresh names :
  table base known fresh names → size (fresh ∪ known) = size known + length names.
Proof.
  intros Ht. rewrite <- (table_size _ _ _ _ Ht). rewrite map_size_disj_union; [lia|].
  symmetry. apply Ht.
Qed.

(** The names in the order of their spelling. *)
Lemma table_btree `{OrdLaws K} base known fresh names :
  table base known fresh names → btree_keys fresh = ord_sort names.
Proof.
  intros Ht. unfold btree_keys. apply ord_sort_unique.
  apply NoDup_Permutation; [apply NoDup_fst_map_to_list|apply Ht|]. intros k.
  rewrite <- (table_keys _ _ _ _ k Ht). rewrite list_elem_of_fmap. split.
  - intros ([k' c] & -> & Hin%elem_of_map_to_list). by eexists.
  - intros [c Hc]. exists (k, c). split; [done|]. by apply elem_of_map_to_list.
Qed.
End table.

(** ** Names in use

    The names taken are among the names used, in the order of their first use. *)
Section used.
Context {K : Type} `{EqDecision K}.

Definition add_use (acc : list K) (k : K) : list K := if decide (k ∈ acc) then acc else acc ++ [k].
Definition first_uses (us : list K) : list K := foldl add_use [] us.

Lemma first_uses_snoc us k : first_uses (us ++ [k]) = add_use (first_uses us) k.
Proof. unfold first_uses. by rewrite foldl_app. Qed.

Lemma elem_of_first_uses us k : k ∈ first_uses us ↔ k ∈ us.
Proof.
  induction us as [|x us IH] using rev_ind; [done|]. rewrite first_uses_snoc, elem_of_app, <- IH.
  unfold add_use. case_decide; [set_solver|]. by rewrite elem_of_app.
Qed.

Definition used (known : K → Prop) (names us : list K) : Prop :=
  names `sublist_of` first_uses us ∧ ∀ k, k ∈ us → known k.

Lemma used_nil known : used known [] [].
Proof. split; [done|]. by intros k ?%elem_of_nil. Qed.

Lemma used_known (known : K → Prop) names us k : known k → used known names us → used known names (us ++ [k]).
Proof.
  intros Hk [Hs Hu]. split.
  - rewrite first_uses_snoc. unfold add_use. case_decide; [done|]. by apply sublist_inserts_r.
  - intros q [Hq| ->%list_elem_of_singleton]%elem_of_app; auto.
Qed.

Lemma used_new (known known' : K → Prop) names us k :
  used known names us → (∀ q, known q → known' q) → known' k → ¬ known k → used known' (names ++ [k]) (us ++ [k]).
Proof.
  intros [Hs Hu] Hmono Hk Hnew. split.
  - rewrite first_uses_snoc. unfold add_use. rewrite decide_False.
    + by apply sublist_app.
    + rewrite elem_of_first_uses. intros ?%Hu. done.
  - intros q [Hq| ->%list_elem_of_singleton]%elem_of_app; auto.
Qed.
End used.

Section trial.
Context {P : Type} `{MappedVocabularyLaws P}.
Implicit Types (m mv : VmEpochMaterializer P) (t : TrialVocabulary P).

(** [mv] is the materializer that has taken the trial's names in the order in
    which they came up: [ps] and [ls] are the new predicates and literals. *)
Record trial_sim m t mv (ps : list Predicate) (ls : list Literal) : Prop := {
  ts_materializer : tr_materializer t = m_set_workspace (m_workspace mv) m;
  ts_slots : m_slots mv = tr_slots t ∪ m_slots m;
  ts_slots_disjoint : tr_slots t ##ₘ m_slots m;
  ts_predicates : m_predicates mv = tr_predicates t ∪ m_predicates m;
  ts_predicate_table : table (N.of_nat (base_predicate_count m + size (m_predicates m)))
    (m_predicates m) (tr_predicates t) ps;
  ts_predicate_values : m_predicate_values mv = m_predicate_values m ++ ps;
  ts_literals : m_literals mv = tr_literals t ∪ m_literals m;
  ts_literal_table : table (VM_LITERAL_BASE + N.of_nat (base_literal_count m + length (m_literal_values m)))
    (m_literals m) (tr_literals t) ls;
  ts_literal_values : m_literal_values mv = m_literal_values m ++ ls;
  ts_mapped : m_mapped mv = m_mapped m;
  ts_version : m_version mv = m_version m;
}.

Lemma trial_sim_new m : trial_sim m (TrialVocabulary_new m) m [] [].
Proof.
  split; cbn; rewrite ?(left_id_L ∅ (∪)), ?app_nil_r;
    first [done | by destruct m | by apply map_disjoint_empty_l | apply table_empty].
Qed.

(** Committing: the names in the order of their spelling. *)
Lemma trial_commit_sim m t mv ps ls w :
  trial_sim m t mv ps ls →
  let t' := TrialVocabulary_mk (m_set_workspace w (tr_materializer t)) (tr_slots t) (tr_predicates t)
    (tr_literals t) in
  trial_commit t' =
  m_set_literals (m_literals mv) (m_literal_values m ++ ord_sort ls)
    (m_set_predicates (m_predicates mv) (m_predicate_values m ++ ord_sort ps) (m_set_workspace w mv)).
Proof.
  intros []. cbv zeta. unfold trial_commit. cbn [tr_materializer tr_slots tr_predicates tr_literals].
  rewrite (table_btree _ _ _ _ ts_predicate_table0), (table_btree _ _ _ _ ts_literal_table0).
  rewrite ts_materializer0. destruct mv. cbn in *. by subst.
Qed.

Lemma trial_commit_ordered m t mv ps ls w :
  trial_sim m t mv ps ls → ord_sort ps = ps → ord_sort ls = ls →
  trial_commit (TrialVocabulary_mk (m_set_workspace w (tr_materializer t)) (tr_slots t) (tr_predicates t)
    (tr_literals t)) = m_set_workspace w mv.
Proof.
  intros Hs Hp Hl. rewrite (trial_commit_sim _ _ _ _ _ w Hs), Hp, Hl. destruct Hs.
  rewrite <- ts_predicate_values0, <- ts_literal_values0. by destruct mv.
Qed.

(** ** The lookups in step *)

Lemma base_counts m mv : m_mapped mv = m_mapped m →
  base_slot_count mv = base_slot_count m ∧ base_predicate_count mv = base_predicate_count m ∧
  base_literal_count mv = base_literal_count m.
Proof. intros Hm. unfold base_slot_count, base_predicate_count, base_literal_count. by rewrite Hm. Qed.

Lemma trial_lookup_slot m t mv ps ls s :
  trial_sim m t mv ps ls →
  lookup_slot mv s = match tr_slots t !! s with Some token => Some token | None => lookup_slot m s end ∧
  lookup_slot (tr_materializer t) s = lookup_slot m s.
Proof.
  intros []. unfold lookup_slot. rewrite ts_materializer0, ts_slots0, ts_mapped0. cbn.
  split; [|done]. rewrite lookup_union. destruct (tr_slots t !! s), (m_slots m !! s); done.
Qed.

(** Slots have no values to keep in order. *)
Lemma trial_slot_sim m t mv ps ls s :
  trial_sim m t mv ps ls →
  ∃ token t' mv', trial_slot_token s t = (Ok token, t') ∧ slot_token s mv = (Ok token, mv') ∧
    trial_sim m t' mv' ps ls.
Proof.
  intros Hs. destruct (trial_lookup_slot _ _ _ _ _ s Hs) as [H1 H2]. unfold trial_slot_token, slot_token.
  rewrite H1, H2. destruct (tr_slots t !! s) as [token|] eqn:E; [by exists token, t, mv|].
  destruct (lookup_slot m s) as [token|] eqn:E2; [by exists token, t, mv|].
  destruct (base_counts m mv (ts_mapped _ _ _ _ _ Hs)) as (Hb & _ & _).
  assert (base_slot_count (tr_materializer t) + size (m_slots (tr_materializer t)) + size (tr_slots t) =
    base_slot_count mv + size (m_slots mv)) as Htotal.
  { rewrite Hb, (ts_slots _ _ _ _ _ Hs), (ts_materializer _ _ _ _ _ Hs). cbn.
    rewrite map_size_disj_union by apply Hs. change (base_slot_count (m_set_workspace _ m)) with (base_slot_count m). lia. }
  assert (m_slots m !! s = None) as Hms by (unfold lookup_slot in E2; by destruct (m_slots m !! s)).
  assert (m_slots mv !! s = None) as Hmv.
  { rewrite (ts_slots _ _ _ _ _ Hs), lookup_union, E. by rewrite Hms. }
  rewrite Htotal. do 3 eexists. split; [done|]. split.
  { rewrite (map_size_insert_None _ _ _ Hmv), Nat.add_succ_r, <- Nat.add_1_r. done. }
  destruct Hs. split; cbn [tr_materializer tr_slots tr_predicates tr_literals m_set_workspace m_set_slots
    m_workspace m_slots m_predicates m_predicate_values m_literals m_literal_values m_mapped m_version]; try done.
  - rewrite ts_materializer0. reflexivity.
  - by rewrite ts_slots0, insert_union_l.
  - by apply map_disjoint_insert_l.
Qed.

(** What a materializer knows. *)
Definition known_predicate mv (p : Predicate) : Prop :=
  is_Some (m_predicates mv !! p) ∨ is_Some (base ← m_mapped mv; mv_predicate_token base (predicate_str p)).
Definition known_literal mv (l : Literal) : Prop :=
  is_Some (m_literals mv !! l) ∨ is_Some (base ← m_mapped mv; mv_literal_token base (literal_str l)).

(** The trial with the names used so far: [us] predicates and [vs] literals. *)
Record trial_used m t mv (us : list Predicate) (vs : list Literal) : Prop := {
  tu_sim : ∃ ps ls, trial_sim m t mv ps ls ∧ used (known_predicate mv) ps us ∧ used (known_literal mv) ls vs;
}.

Lemma trial_used_new m : trial_used m (TrialVocabulary_new m) m [] [].
Proof. split. exists [], []. split; [apply trial_sim_new|]. split; apply used_nil. Qed.

Lemma trial_slot_used m t mv us vs s :
  trial_used m t mv us vs →
  ∃ token t' mv', trial_slot_token s t = (Ok token, t') ∧ slot_token s mv = (Ok token, mv') ∧
    trial_used m t' mv' us vs.
Proof.
  intros [(ps & ls & Hs & Hp & Hl)]. destruct (trial_slot_sim _ _ _ _ _ s Hs) as (token & t' & mv' & E1 & E2 & Hs').
  exists token, t', mv'. split_and!; [done|done|]. split. exists ps, ls. split; [done|].
  assert (m_predicates mv' = m_predicates mv ∧ m_literals mv' = m_literals mv ∧ m_mapped mv' = m_mapped mv)
    as (Ep & El & Em).
  { unfold slot_token in E2. by destruct (lookup_slot mv s); simplify_eq/=. }
  unfold known_predicate, known_literal. by rewrite Ep, El, Em.
Qed.

Lemma trial_predicate_used m t mv us vs p :
  trial_used m t mv us vs →
  ∃ c t' mv', trial_predicate_cell p t = (Ok c, t') ∧ predicate_cell p mv = (Ok c, mv') ∧
    trial_used m t' mv' (us ++ [p]) vs.
Proof.
  intros [(ps & ls & Hs & Hp & Hl)]. pose proof Hs as [].
  destruct (base_counts m mv ts_mapped0) as (_ & Hb & _).
  unfold trial_predicate_cell, predicate_cell. rewrite ts_materializer0, ts_predicates0, ts_mapped0.
  cbn [m_set_workspace m_predicates m_mapped].
  pose proof (table_union_lookup _ _ _ _ p ts_predicate_table0) as Hlook. rewrite Hlook.
  assert (∀ c : Cell, known_predicate mv p →
    ∃ (c' : Cell) t' mv', (Ok (E := TrialError) c, t) = (Ok c', t') ∧ (Ok (E := MaterializeError) c, mv) = (Ok c', mv') ∧
      trial_used m t' mv' (us ++ [p]) vs) as Hknown.
  { intros c Hk. exists c, t, mv. split_and!; [done|done|]. split. exists ps, ls. split; [done|].
    split; [by apply (used_known (known_predicate mv))|done]. }
  destruct (tr_predicates t !! p) as [c|] eqn:E1.
  { apply Hknown. left. by rewrite ts_predicates0, Hlook. }
  destruct (m_predicates m !! p) as [c|] eqn:E2.
  { apply Hknown. left. by rewrite ts_predicates0, Hlook. }
  destruct (m_mapped m ≫= _) as [token|] eqn:E3.
  { apply Hknown. right. by rewrite ts_mapped0, E3. }
  do 3 eexists. split; [done|]. split.
  { rewrite Hb, (table_union_size _ _ _ _ ts_predicate_table0), <- (table_size _ _ _ _ ts_predicate_table0).
    rewrite Nat.add_assoc. done. }
  assert (¬ known_predicate mv p) as Hnew.
  { intros [[c Hc]|[c Hc]]; [|rewrite ts_mapped0 in Hc; congruence].
    rewrite ts_predicates0, Hlook in Hc. done. }
  split. exists (ps ++ [p]), ls. split; [|split].
  - split; cbn; try done.
    + by rewrite insert_union_l.
    + rewrite (table_size _ _ _ _ ts_predicate_table0).
      replace (N.of_nat (base_predicate_count (m_set_workspace (m_workspace mv) m) + size (m_predicates m) + length ps))
        with (N.of_nat (base_predicate_count m + size (m_predicates m)) + N.of_nat (length ps))%N; [by apply table_add|].
      unfold base_predicate_count. cbn. lia.
    + by rewrite ts_predicate_values0, (assoc_L (++)).
  - apply (used_new (known_predicate mv)); [done| | |done].
    + intros q [Hq|Hq]; [|by right]. left. cbn. apply lookup_insert_is_Some'. right.
      by rewrite ts_predicates0 in Hq.
    + left. cbn. by rewrite lookup_insert_eq.
  - done.
Qed.

Lemma trial_literal_used m t mv us vs l :
  trial_used m t mv us vs →
  (VM_LITERAL_BASE + N.of_nat (base_literal_count mv + length (m_literal_values mv)) < u64_modulus)%N →
  ∃ c t' mv', trial_literal_cell l t = (Ok c, t') ∧ atom_cell (ALiteral l) mv = (Ok c, mv') ∧
    trial_used m t' mv' us (vs ++ [l]).
Proof.
  intros [(ps & ls & Hs & Hp & Hl)] Hroom. pose proof Hs as [].
  destruct (base_counts m mv ts_mapped0) as (_ & _ & Hb).
  unfold trial_literal_cell, atom_cell. rewrite ts_materializer0, ts_literals0, ts_mapped0.
  cbn [m_set_workspace m_literals m_literal_values m_mapped].
  pose proof (table_union_lookup _ _ _ _ l ts_literal_table0) as Hlook. rewrite Hlook.
  assert (∀ c : Cell, known_literal mv l →
    ∃ (c' : Cell) t' mv', (Ok (E := TrialError) c, t) = (Ok c', t') ∧ (Ok (E := MaterializeError) c, mv) = (Ok c', mv') ∧
      trial_used m t' mv' us (vs ++ [l])) as Hknown.
  { intros c Hk. exists c, t, mv. split_and!; [done|done|]. split. exists ps, ls. split; [done|].
    split; [done|by apply (used_known (known_literal mv))]. }
  destruct (tr_literals t !! l) as [c|] eqn:E1.
  { apply Hknown. left. by rewrite ts_literals0, Hlook. }
  destruct (m_literals m !! l) as [c|] eqn:E2.
  { apply Hknown. left. by rewrite ts_literals0, Hlook. }
  destruct (m_mapped m ≫= _) as [token|] eqn:E3.
  { apply Hknown. right. by rewrite ts_mapped0, E3. }
  assert (¬ known_literal mv l) as Hnew.
  { intros [[c Hc]|[c Hc]]; [|rewrite ts_mapped0 in Hc; congruence].
    rewrite ts_literals0, Hlook in Hc. done. }
  change (base_literal_count (m_set_workspace (m_workspace mv) m)) with (base_literal_count m).
  rewrite Hb, ts_literal_values0, length_app, Nat.add_assoc in Hroom |- *.
  rewrite (table_size _ _ _ _ ts_literal_table0).
  unfold u64_checked_add. rewrite (proj2 (N.ltb_lt _ _)) by exact Hroom.
  do 3 eexists. split; [done|]. split; [done|]. split. exists ps, (ls ++ [l]). split; [|split].
  - split; cbn; try done.
    + by rewrite insert_union_l.
    + replace (VM_LITERAL_BASE + N.of_nat (base_literal_count m + length (m_literal_values m) + length ls))%N
        with (VM_LITERAL_BASE + N.of_nat (base_literal_count m + length (m_literal_values m)) +
          N.of_nat (length ls))%N by lia. by apply table_add.
    + by rewrite (assoc_L (++)).
  - done.
  - apply (used_new (known_literal mv)); [done| | |done].
    + intros q [Hq|Hq]; [|by right]. left. cbn. apply lookup_insert_is_Some'. right.
      by rewrite ts_literals0 in Hq.
    + left. cbn. by rewrite lookup_insert_eq.
Qed.
End trial.

(** What a semantic transaction does to a history, and the trial of the VM
    materializer as an implementation of it. *)

(** ** The specification *)

Definition check_symbol (bound : gset string) (a : AtomRef) : outcome TrialError unit :=
  match a with
  | RefSymbol s => if decide (s ∈ bound) then Ok tt else Err (TrialUndefined s)
  | _ => Ok tt
  end.

(** The symbols bound after an operation, if its own symbols are in scope. *)
Definition scope_step (bound : gset string) (op : TransactionOp) : outcome TrialError (gset string) :=
  match op with
  | TxAllocate s => if decide (s ∈ bound) then Err (TrialDuplicate s) else Ok ({[ s ]} ∪ bound)
  | TxExpectObject _ a => let* _ := check_symbol bound a in Ok bound
  | TxDefine _ a _ b =>
      let* _ := check_symbol bound a in
      let* _ := check_symbol bound b in
      Ok bound
  | TxExpectWorld _ | TxForget _ | TxReject => Ok bound
  end.

(** The effect of an operation on the history, the symbols standing for
    [temps]; the world a transaction expects is its predecessor, [world]. *)
Definition semantic_event (world : WorldId) (temps : gmap string N) (evs : list Event) (op : TransactionOp) :
    outcome ExecError (list Event) :=
  match op with
  | TxExpectObject slot a =>
      match spec_resolve evs (SlotId_new slot) with
      | None => Err MissingExpectedValue
      | Some f =>
          let* x := or_panic (synthesize_atom temps a) in
          if decide (fact_object f = x) then Ok evs else Err ExpectedValueMismatch
      end
  | TxDefine _ _ _ _ | TxForget _ =>
      let* ops := or_panic (synthesize_operation temps op) in Ok (evs ++ events_of ops)
  | TxReject => Err ExplicitRejection
  | TxExpectWorld expected =>
      if decide (ast_world expected = world_value world) then Ok evs else Err ExpectedValueMismatch
  | TxAllocate _ => Ok evs
  end.

(** A transaction: its symbols must be in scope, then its operations run on the
    history; an accepted transaction commits the operations and binds its
    symbols. *)
Definition semantic_spec (world : WorldId) (evs : list Event) (next : N) (ops : list TransactionOp) :
    outcome SemanticRejection (list Operation * SemanticBindings) :=
  let* _ := map_err SemanticLowering (outcome_fold scope_step ops ∅) in
  let temps := (semantic_temps next ops).1 in
  let* _ := map_err SemanticExecution (outcome_fold (semantic_event world temps) ops evs) in
  let* operations := or_panic (synthesize_operations next ops) in
  Ok (operations, semantic_bindings (EntityId_new <$> temps)).

(** ** Transactions within the format *)

Definition ref_fits (a : AtomRef) : Prop :=
  match a with RefEntity e => (ast_entity e < VM_LITERAL_BASE)%N | _ => True end.

Definition tx_fits (op : TransactionOp) : Prop :=
  match op with
  | TxExpectObject _ a => ref_fits a
  | TxDefine _ a _ b => ref_fits a ∧ ref_fits b
  | _ => True
  end.

(** No operation expects a world. *)
Definition world_free (op : TransactionOp) : Prop :=
  match op with TxExpectWorld _ => False | _ => True end.

Definition ref_literals (a : AtomRef) : list Literal :=
  match a with RefLiteral l => [Literal_new l] | _ => [] end.

(** The names an operation uses, in order. *)
Definition tx_predicates (op : TransactionOp) : list Predicate :=
  match op with TxDefine _ _ p _ => [Predicate_new p] | _ => [] end.
Definition tx_literals (op : TransactionOp) : list Literal :=
  match op with
  | TxExpectObject _ a => ref_literals a
  | TxDefine _ a _ b => ref_literals a ++ ref_literals b
  | _ => []
  end.

(** Names are first used in the order of their spelling. *)
Definition orderly (ops : list TransactionOp) : Prop :=
  Sorted ord_le (first_uses (ops ≫= tx_predicates)) ∧ Sorted ord_le (first_uses (ops ≫= tx_literals)).

#[export] Instance orderly_dec ops : Decision (orderly ops).
Proof. unfold orderly. apply _. Defined.

Lemma sublist_Sorted {A} `{OrdLaws A} (l k : list A) : l `sublist_of` k → Sorted ord_le k → Sorted ord_le l.
Proof.
  intros Hs Hk. apply StronglySorted_Sorted. apply Sorted_StronglySorted in Hk; [|apply _].
  induction Hs as [|x l k Hs IH|x l k Hs IH]; [constructor| |].
  - apply StronglySorted_inv in Hk as [Hk Hx]. constructor; [by apply IH|].
    apply Forall_forall. intros y Hy. rewrite Forall_forall in Hx. apply Hx.
    by eapply (elem_of_submseteq _ _ _ Hy), sublist_submseteq.
  - apply StronglySorted_inv in Hk as [Hk _]. by apply IH.
Qed.

Lemma ord_sort_sorted {A} `{OrdLaws A} (l : list A) : Sorted ord_le l → ord_sort l = l.
Proof.
  intros Hl. apply (Sorted_unique ord_le); [apply Sorted_merge_sort, _|done|apply merge_sort_Permutation].
Qed.

Lemma used_ordered {A} `{OrdLaws A, !EqDecision A} known (names us : list A) :
  used known names us → Sorted ord_le (first_uses us) → ord_sort names = names.
Proof. intros [Hs _] Hu. apply ord_sort_sorted. by eapply sublist_Sorted. Qed.

(** ** Symbols *)

Lemma temps_step_dom st op bound :
  scope_step (dom st.1) op = Ok bound → bound = dom (temps_step st op).1.
Proof.
  destruct op as [s|w|slot a|slot a p b|slot|]; cbn [scope_step temps_step]; try by intros [= <-].
  - case_decide; [done|]. intros [= <-]. cbn. by rewrite dom_insert_L.
  - destruct (check_symbol _ a); [|done..]. by intros [= <-].
  - destruct (check_symbol _ a); [|done..]. destruct (check_symbol _ b); [|done..]. by intros [= <-].
Qed.

Lemma temps_step_mono st op bound : scope_step (dom st.1) op = Ok bound → st.1 ⊆ (temps_step st op).1.
Proof.
  destruct op as [s|w|slot a|slot a p b|slot|]; cbn [scope_step temps_step]; try done.
  case_decide as Hs; [done|]. intros _. cbn. apply insert_subseteq. by apply not_elem_of_dom.
Qed.

Lemma temps_mono ops : ∀ st bound,
  outcome_fold scope_step ops (dom st.1) = Ok bound → st.1 ⊆ (foldl temps_step st ops).1.
Proof.
  induction ops as [|op ops IH]; intros st bound; [done|]. cbn [outcome_fold foldl].
  destruct (scope_step _ op) as [b|e|] eqn:E; cbn [outcome_bind]; [|done..]. intros Hf.
  etrans; [by eapply temps_step_mono|]. eapply IH. by rewrite <- (temps_step_dom _ _ _ E).
Qed.

Lemma scope_not_panic ops bound : outcome_fold scope_step ops bound ≠ Panic.
Proof.
  assert (∀ bound a, check_symbol bound a ≠ Panic) as Ha by (intros b [e|l|s]; simpl; [done..|by case_decide]).
  revert bound. induction ops as [|op ops IH]; intros bound; [done|]. cbn [outcome_fold].
  destruct op as [s|w|slot a|slot a p b|slot|]; cbn [scope_step]; try apply IH.
  - case_decide; [done|apply IH].
  - pose proof (Ha bound a). destruct (check_symbol bound a); [apply IH|done..].
  - pose proof (Ha bound a). pose proof (Ha bound b).
    destruct (check_symbol bound a); [|done..]. cbn [outcome_bind].
    destruct (check_symbol bound b); [apply IH|done..].
Qed.

(** The bindings of the compiler, and the allocator it expects. *)
Record bound_as (next : N) (bindings : gmap string EntityId) (count : N) (st : gmap string N * N) : Prop := {
  ba_bindings : bindings = EntityId_new <$> st.1;
  ba_next : st.2 = (next + count)%N;
  ba_below : map_Forall (λ _ e, (e < VM_LITERAL_BASE)%N) st.1;
}.

Lemma below_u64 n : (n <= VM_LITERAL_BASE)%N → u64_ok n.
Proof. unfold u64_ok. change u64_modulus with (VM_LITERAL_BASE * 2)%N. change VM_LITERAL_BASE with (2 ^ 63)%N. lia. Qed.

Lemma bound_as_step next bindings count st s :
  bound_as next bindings count st → (next + count < VM_LITERAL_BASE)%N →
  bound_as next (<[s := EntityId_new (u64_add next count)]> bindings) (u64_add count 1) (temps_step st (TxAllocate s)).
Proof.
  intros [Hb Hn Hlt] Hle. rewrite !u64_add_small by (apply below_u64; lia). split; cbn.
  - by rewrite fmap_insert, Hn, Hb.
  - rewrite Hn, u64_add_small by (apply below_u64; lia). lia.
  - rewrite Hn. by apply map_Forall_insert_2.
Qed.

(** ** Compiling a transaction *)

Section compile.
Context {P : Type} `{MappedVocabularyLaws P}.
Implicit Types (m mv : VmEpochMaterializer P) (t : TrialVocabulary P) (evs : list Event) (sts : vm_stacks).

(** A trial over the materializer [m] that has taken at most [n] slots and [l]
    literals. *)
Record compiling m sts evs (n l : nat) t mv (us : list Predicate) (vs : list Literal) : Prop := {
  cg_used : trial_used m t mv us vs;
  cg_rep : ∃ k, mat_rep mv (sts ++ replicate k []) evs;
  cg_le : voc_le m mv;
  cg_quiet : quiet m mv;
  cg_grown : voc_grown n l m mv;
}.

Lemma compiling_new m sts evs : mat_rep m sts evs → compiling m sts evs 0 0 (TrialVocabulary_new m) m [] [].
Proof.
  intros Hm. split; [apply trial_used_new|exists 0; by rewrite app_nil_r|done|apply quiet_refl|by split].
Qed.

(** The code of an operation in a vocabulary. *)
Definition sem_code mv (temps : gmap string N) (op : TransactionOp) (code : list Instruction) : Prop :=
  match op with
  | TxAllocate _ => code = [i_allocate_discard]
  | TxExpectWorld _ => code = []
  | TxExpectObject slot a => ∃ tok c x, lookup_slot mv (SlotId_new slot) = Some tok ∧
      synthesize_atom temps a = Some x ∧ atom_from_cell mv c = Some x ∧ code = [i_expect_object tok c] ∧
      tok ≠ NONE
  | TxDefine slot _ _ _ => ∃ f, synthesize_operation temps op = Some [OpDefine (SlotId_new slot) f] ∧
      operation_compiles (OpDefine (SlotId_new slot) f) ∧ op_code mv (OpDefine (SlotId_new slot) f) code
  | TxForget slot => op_code mv (OpForget (SlotId_new slot)) code
  | TxReject => code = [i_reject]
  end.

Lemma voc_le_sem_code mv mv' temps op code :
  voc_le mv mv' → sem_code mv temps op code → sem_code mv' temps op code.
Proof.
  intros Hle. destruct op as [s|w|slot a|slot a p b|slot|]; cbn [sem_code]; try done.
  - intros (tok & c & x & Ht & Hx & Hc & -> & Hn). exists tok, c, x.
    split_and!; [by apply Hle|done|by eapply voc_le_atom|done|done].
  - intros (f & Hf & Hfit & Hc). exists f. split_and!; [done|done|]. by eapply voc_le_code.
  - by apply voc_le_code.
Qed.

(** An operand of the trial. *)
Lemma trial_atom_ok m t mv us vs next bindings count st temps a n :
  trial_used m t mv us vs → voc_ok mv →
  (VM_LITERAL_BASE + N.of_nat (base_literal_count mv + length (m_literal_values mv)) + N.of_nat (S n) <= u64_modulus)%N →
  ref_fits a → bound_as next bindings count st → st.1 ⊆ temps →
  match check_symbol (dom st.1) a with
  | Ok _ => ∃ c t' mv' x, trial_atom bindings (atom_view a) t = (Ok c, t') ∧
      trial_used m t' mv' us (vs ++ ref_literals a) ∧ voc_ok mv' ∧ cells_only mv mv' ∧ voc_grown 0 1 mv mv' ∧
      synthesize_atom temps a = Some x ∧ atom_fits x ∧ atom_from_cell mv' c = Some x
  | Err e => trial_atom bindings (atom_view a) t = (Err e, t)
  | Panic => False
  end.
Proof.
  intros Hu Hvoc Hroom Hfit Hb Htemps.
  destruct a as [e|l|s]; cbn [check_symbol atom_view trial_atom ref_literals synthesize_atom].
  - exists (ast_entity e), t, mv. eexists. rewrite app_nil_r.
    split_and!; [done|done|done|done|split; [done|lia..]|done|done|].
    unfold atom_from_cell. by rewrite (proj2 (N.ltb_lt _ _)).
  - destruct (trial_literal_used m t mv us vs (Literal_new l) Hu) as (c & t' & mv' & E1 & E2 & Hu'); [lia|].
    destruct (atom_cell_ok mv (ALiteral (Literal_new l)) n Hvoc) as (c' & mv2 & E3 & H1 & H2 & H3 & H4); [lia|done|].
    rewrite E2 in E3. injection E3 as <- <-.
    exists c, t', mv', (ALiteral (Literal_new l)). split_and!; done.
  - rewrite (ba_bindings _ _ _ _ Hb), lookup_fmap. case_decide as Hs.
    + apply elem_of_dom in Hs as [e He]. rewrite He. cbn [fmap option_fmap option_map].
      pose proof (ba_below _ _ _ _ Hb s e He) as Hlt. cbn in Hlt.
      rewrite (lookup_weaken _ _ _ _ He Htemps). cbn [mbind option_bind]. rewrite app_nil_r.
      exists e, t, mv. eexists. split_and!; [done|done|done|done|split; [done|lia..]|done|done|].
      unfold atom_from_cell. by rewrite (proj2 (N.ltb_lt _ _)).
    + apply not_elem_of_dom in Hs. by rewrite Hs.
Qed.

(** A slot. *)
Lemma compiling_slot m sts evs n l t mv us vs s :
  compiling m sts evs n l t mv us vs →
  (N.of_nat (base_slot_count mv + size (m_slots mv)) + 2 <= u32_modulus)%N →
  ∃ tok t' mv', trial_slot_token s t = (Ok tok, t') ∧ compiling m sts evs (S n) l t' mv' us vs ∧
    voc_le mv mv' ∧ voc_grown 1 0 mv mv' ∧ lookup_slot mv' s = Some tok ∧ tok ≠ NONE.
Proof.
  intros [Hu [k [Hvoc Hvm Hst]] Hle Hq Hg] Hroom.
  destruct (trial_slot_used m t mv us vs s Hu) as (tok & t' & mv' & E1 & E2 & Hu').
  destruct (slot_token_ok mv s (sts ++ replicate k []) Hvoc) as
    (tok' & mv2 & extra & E3 & Hvoc' & Hle' & Hq' & Hg' & Hl & Hvm' & Hlook & Hnew); [lia|done|].
  rewrite E2 in E3. injection E3 as <- <-.
  pose proof (stacks_rep_slot _ _ _ _ _ _ _ Hvoc Hle' Hst Hlook Hnew) as Hst'.
  exists tok, t', mv'. split_and!; [done| |done|done|done|].
  - split; [done| |by etrans|by eapply quiet_trans|].
    + exists (k + extra). rewrite replicate_add, (assoc_L (++)). done.
    + pose proof (voc_grown_trans _ _ _ _ _ _ _ Hg Hg') as []. split; [done|lia..].
  - apply (lookup_slot_bound _ _ _ Hvoc') in Hl. destruct Hg' as [Hmp Hsz _].
    unfold base_slot_count in *. rewrite Hmp in Hl. intros ->.
    change u32_modulus with (NONE + 1)%N in Hroom. lia.
Qed.

(** Cells of predicates and literals. *)
Lemma compiling_cells m sts evs n l l' t mv us vs t' mv' us' vs' :
  compiling m sts evs n l t mv us vs → trial_used m t' mv' us' vs' → voc_ok mv' → cells_only mv mv' →
  voc_grown 0 l' mv mv' → compiling m sts evs n (l + l') t' mv' us' vs'.
Proof.
  intros [Hu [k [Hvoc Hvm Hst]] Hle Hq Hg] Hu' Hvoc' Hc Hg'. split; [done| | | |].
  - exists k. split; [done|by rewrite (cl_workspace _ _ Hc)|].
    apply (stacks_rep_le mv); [apply Hc|by intros s; apply cells_only_lookup|done].
  - etrans; [done|apply Hc].
  - eapply quiet_trans; [done|by apply cells_only_quiet].
  - pose proof (voc_grown_trans _ _ _ _ _ _ _ Hg Hg') as []. split; [done|lia..].
Qed.

Lemma trial_bind_Ok {A B} (c : trial A) (k : A → trial B) t a t' :
  c t = (Ok a, t') → (c ≫= k) t = k a t'.
Proof. intros Hc. unfold mbind, trial_bind. by rewrite Hc. Qed.
Lemma trial_bind_Err {A B} (c : trial A) (k : A → trial B) t e t' :
  c t = (Err e, t') → (c ≫= k) t = (Err e, t').
Proof. intros Hc. unfold mbind, trial_bind. by rewrite Hc. Qed.

(** An operand, in a trial. *)
Lemma compiling_atom m sts evs n l t mv us vs next bindings count st temps a k :
  compiling m sts evs n l t mv us vs →
  (VM_LITERAL_BASE + N.of_nat (base_literal_count mv + length (m_literal_values mv)) + N.of_nat (S k) <= u64_modulus)%N →
  ref_fits a → bound_as next bindings count st → st.1 ⊆ temps →
  match check_symbol (dom st.1) a with
  | Ok _ => ∃ c t' mv' x, trial_atom bindings (atom_view a) t = (Ok c, t') ∧
      compiling m sts evs n (S l) t' mv' us (vs ++ ref_literals a) ∧ cells_only mv mv' ∧ voc_grown 0 1 mv mv' ∧
      synthesize_atom temps a = Some x ∧ atom_fits x ∧ atom_from_cell mv' c = Some x
  | Err e => trial_atom bindings (atom_view a) t = (Err e, t)
  | Panic => False
  end.
Proof.
  intros Hc Hroom Hfit Hb Htemps. pose proof Hc as [Hu [j [Hvoc _ _]] _ _ _].
  pose proof (trial_atom_ok m t mv us vs next bindings count st temps a k Hu Hvoc Hroom Hfit Hb Htemps) as Ha.
  destruct (check_symbol _ a); [|done..].
  destruct Ha as (c & t' & mv' & x & E & Hu' & Hvoc' & Hcl & Hg & Hx & Hxf & Hd).
  exists c, t', mv', x. split_and!; try done. rewrite <- (Nat.add_1_r l). by eapply compiling_cells.
Qed.

Lemma compiling_predicate m sts evs n l t mv us vs p :
  compiling m sts evs n l t mv us vs →
  ∃ c t' mv', trial_predicate_cell p t = (Ok c, t') ∧
    compiling m sts evs n l t' mv' (us ++ [p]) vs ∧ cells_only mv mv' ∧ voc_grown 0 0 mv mv' ∧
    predicate_from_cell mv' c = Some p.
Proof.
  intros Hc. pose proof Hc as [Hu [j [Hvoc _ _]] _ _ _].
  destruct (trial_predicate_used m t mv us vs p Hu) as (c & t' & mv' & E1 & E2 & Hu').
  destruct (predicate_cell_ok mv p Hvoc) as (c' & mv2 & E3 & H1 & H2 & H3 & H4).
  rewrite E2 in E3. injection E3 as <- <-. exists c, t', mv'. split_and!; try done.
  rewrite <- (Nat.add_0_r l). by eapply compiling_cells.
Qed.

(** Room for one more operation and then some. *)
Record op_room mv : Prop := {
  or_slots : (N.of_nat (base_slot_count mv + size (m_slots mv)) + 2 <= u32_modulus)%N;
  or_literals :
    (VM_LITERAL_BASE + N.of_nat (base_literal_count mv + length (m_literal_values mv)) + 2 <= u64_modulus)%N;
}.

Lemma compiling_next m t mv sts evs n l us vs :
  compiling m sts evs n l t mv us vs → vm_next (m_workspace (tr_materializer t)) = vm_next (m_workspace m).
Proof.
  intros [[(ps & ls & Hs & _)] _ _ [_ [h Hw]] _]. rewrite (ts_materializer _ _ _ _ _ Hs). cbn. by rewrite Hw.
Qed.

Lemma compiling_weaken m sts evs n l n' l' t mv us vs :
  compiling m sts evs n l t mv us vs → n ≤ n' → l ≤ l' → compiling m sts evs n' l' t mv us vs.
Proof. intros [? ? ? ? []] Hn Hl. split; try done. split; [done|lia..]. Qed.

(** The compilation of an operation that binds nothing. *)
Definition compiles_plain m sts evs n l t mv us vs bindings count (bound : gset string)
    (temps : gmap string N) (op : TransactionOp) : Prop :=
  match scope_step bound op with
  | Ok _ => ∃ code t' mv',
      trial_operation bindings count (op_view op) t = (Ok (code, bindings, count), t') ∧
      compiling m sts evs (S n) (2 + l) t' mv' (us ++ tx_predicates op) (vs ++ tx_literals op) ∧
      voc_le mv mv' ∧ voc_grown 1 2 mv mv' ∧ sem_code mv' temps op code
  | Err e => ∃ t' mv' us' vs', trial_operation bindings count (op_view op) t = (Err e, t') ∧
      compiling m sts evs (S n) (2 + l) t' mv' us' vs'
  | Panic => False
  end.

Lemma op_room_literal mv mv' k :
  op_room mv → voc_grown 1 k mv mv' → k ≤ 1 →
  (VM_LITERAL_BASE + N.of_nat (base_literal_count mv' + length (m_literal_values mv')) + N.of_nat 1 <= u64_modulus)%N.
Proof. intros [_ Hrl] [Hmp _ Hl] Hk. unfold base_literal_count in *. rewrite Hmp. lia. Qed.

Lemma trial_expect_ok m sts evs n l t mv us vs next bindings count st temps slot a :
  compiling m sts evs n l t mv us vs → op_room mv → tx_fits (TxExpectObject slot a) → bound_as next bindings count st →
  st.1 ⊆ temps → compiles_plain m sts evs n l t mv us vs bindings count (dom st.1) temps (TxExpectObject slot a).
Proof.
  intros Hc Hroom Hfit Hb Ht. unfold compiles_plain.
  cbn [op_view trial_operation scope_step tx_predicates tx_literals tx_fits] in *; rewrite ?app_nil_r.
  destruct (compiling_slot m sts evs n l t mv us vs (SlotId_new slot) Hc (or_slots _ Hroom)) as
    (tok & t1 & mv1 & E1 & Hc1 & Hle1 & Hg1 & Hl1 & Hn1). rewrite (trial_bind_Ok _ _ _ _ _ E1).
  pose proof (compiling_atom m sts evs (S n) l t1 mv1 us vs _ bindings count st temps a 0 Hc1
    (op_room_literal _ _ _ Hroom Hg1 ltac:(lia)) Hfit Hb Ht) as Ha.
  destruct (check_symbol _ a) as [[]|e|]; cbn [outcome_bind]; [| |done].
  2: { rewrite (trial_bind_Err _ _ _ _ _ Ha). do 4 eexists. split; [done|].
       eapply compiling_weaken; [done|lia..]. }
  destruct Ha as (c & t2 & mv2 & x & E2 & Hc2 & Hcl2 & Hg2 & Hx & _ & Hd).
  rewrite (trial_bind_Ok _ _ _ _ _ E2). do 3 eexists. split; [done|].
  split; [eapply compiling_weaken; [done|lia..]|]. split_and!; [etrans; [done|apply Hcl2]| |].
  - pose proof (voc_grown_trans _ _ _ _ _ _ _ Hg1 Hg2) as []. split; [done|lia..].
  - exists tok, c, x. split_and!; [by rewrite (cells_only_lookup _ _ _ Hcl2)|done..].
Qed.

Lemma trial_define_ok m sts evs n l t mv us vs next bindings count st temps slot a p b :
  compiling m sts evs n l t mv us vs → op_room mv → tx_fits (TxDefine slot a p b) → bound_as next bindings count st →
  st.1 ⊆ temps → compiles_plain m sts evs n l t mv us vs bindings count (dom st.1) temps (TxDefine slot a p b).
Proof.
  intros Hc Hroom Hfit Hb Ht. unfold compiles_plain.
  cbn [op_view trial_operation scope_step tx_predicates tx_literals tx_fits] in *; rewrite ?app_nil_r.
  destruct Hfit as [Hfa Hfb].
  destruct (compiling_slot m sts evs n l t mv us vs (SlotId_new slot) Hc (or_slots _ Hroom)) as
    (tok & t1 & mv1 & E1 & Hc1 & Hle1 & Hg1 & Hl1 & Hn1). rewrite (trial_bind_Ok _ _ _ _ _ E1).
  pose proof (compiling_atom m sts evs (S n) l t1 mv1 us vs _ bindings count st temps a 0 Hc1
    (op_room_literal _ _ _ Hroom Hg1 ltac:(lia)) Hfa Hb Ht) as Ha.
  destruct (check_symbol _ a) as [[]|e|]; cbn [outcome_bind]; [| |done].
  2: { rewrite (trial_bind_Err _ _ _ _ _ Ha). do 4 eexists. split; [done|].
       eapply compiling_weaken; [done|lia..]. }
  destruct Ha as (c & t2 & mv2 & x & E2 & Hc2 & Hcl2 & Hg2 & Hx & Hxf & Hd).
  rewrite (trial_bind_Ok _ _ _ _ _ E2).
  destruct (compiling_predicate m sts evs (S n) (S l) t2 mv2 us _ (Predicate_new p) Hc2) as
    (pc & t3 & mv3 & E3 & Hc3 & Hcl3 & Hg3 & Hp). rewrite (trial_bind_Ok _ _ _ _ _ E3).
  pose proof (voc_grown_trans _ _ _ _ _ _ _ (voc_grown_trans _ _ _ _ _ _ _ Hg1 Hg2) Hg3) as Hg13.
  pose proof (compiling_atom m sts evs (S n) (S l) t3 mv3 _ _ _ bindings count st temps b 0 Hc3
    (op_room_literal _ _ _ Hroom Hg13 ltac:(lia)) Hfb Hb Ht) as Hb4.
  destruct (check_symbol _ b) as [[]|e|]; cbn [outcome_bind]; [| |done].
  2: { rewrite (trial_bind_Err _ _ _ _ _ Hb4). do 4 eexists. split; [done|].
       eapply compiling_weaken; [done|lia..]. }
  destruct Hb4 as (d & t4 & mv4 & y & E4 & Hc4 & Hcl4 & Hg4 & Hy & Hyf & Hd4).
  rewrite (trial_bind_Ok _ _ _ _ _ E4).
  assert (cells_only mv2 mv4) as Hc24 by (by etrans).
  do 3 eexists. split; [done|]. rewrite <- (assoc_L (++)) in Hc4.
  split; [exact Hc4|]. split_and!; [etrans; [done|]; etrans; [apply Hcl2|apply Hc24]| |].
  - pose proof (voc_grown_trans _ _ _ _ _ _ _ Hg13 Hg4) as []. split; [done|lia..].
  - cbn [sem_code synthesize_operation]. rewrite Hx, Hy. cbn [mbind option_bind]. eexists. split; [done|]. split; [done|].
    exists tok, c, pc, d. rewrite (cells_only_lookup _ _ _ Hc24), (cells_only_lookup _ _ _ Hcl2).
    split_and!; [done| |done]. unfold fact_from_cells.
    rewrite (voc_le_atom _ _ _ _ (cl_le _ _ Hc24) Hd), option_bind_Some.
    rewrite (voc_le_predicate _ _ _ _ (cl_le _ _ Hcl4) Hp), option_bind_Some.
    by rewrite Hd4, option_bind_Some.
Qed.

Lemma trial_operation_ok m sts evs n l t mv us vs bindings count st temps op :
  compiling m sts evs n l t mv us vs → op_room mv → tx_fits op →
  bound_as (vm_next (m_workspace m)) bindings count st →
  (vm_next (m_workspace m) + count < VM_LITERAL_BASE)%N → (temps_step st op).1 ⊆ temps →
  match scope_step (dom st.1) op with
  | Ok _ => ∃ code bindings' count' t' mv',
      trial_operation bindings count (op_view op) t = (Ok (code, bindings', count'), t') ∧
      compiling m sts evs (S n) (2 + l) t' mv' (us ++ tx_predicates op) (vs ++ tx_literals op) ∧
      voc_le mv mv' ∧ voc_grown 1 2 mv mv' ∧ sem_code mv' temps op code ∧
      bound_as (vm_next (m_workspace m)) bindings' count' (temps_step st op) ∧ (count' <= count + 1)%N
  | Err e => ∃ t' mv' us' vs', trial_operation bindings count (op_view op) t = (Err e, t') ∧
      compiling m sts evs (S n) (2 + l) t' mv' us' vs'
  | Panic => False
  end.
Proof.
  intros Hc Hroom Hfit Hb Hnext Htemps. pose proof (or_slots _ Hroom) as Hrs.
  destruct op as [s|w|slot a|slot a p b|slot|];
    cbn [op_view trial_operation scope_step tx_predicates tx_literals temps_step tx_fits] in *;
    rewrite ?app_nil_r.
  - rewrite (ba_bindings _ _ _ _ Hb), lookup_fmap, (compiling_next _ _ _ _ _ _ _ _ _ Hc). case_decide as Hs.
    { apply elem_of_dom in Hs as [e ->]. do 4 eexists. split; [done|]. eapply compiling_weaken; [done|lia..]. }
    apply not_elem_of_dom in Hs. rewrite Hs. cbn [fmap option_fmap option_map].
    rewrite (u64_add_small (vm_next (m_workspace m)) count) by (apply below_u64; lia).
    rewrite (proj2 (N.leb_gt _ _)) by done. do 5 eexists. split; [done|].
    split; [eapply compiling_weaken; [done|lia..]|]. split_and!; [done|split; [done|lia..]|done| |].
    + pose proof (bound_as_step _ _ _ _ s Hb Hnext) as Hb'.
      rewrite (u64_add_small (vm_next (m_workspace m)) count) in Hb' by (apply below_u64; lia).
      by rewrite (ba_bindings _ _ _ _ Hb) in Hb'.
    + rewrite u64_add_small; [lia|]. apply below_u64. lia.
  - do 5 eexists. split; [done|]. split; [eapply compiling_weaken; [done|lia..]|].
    split_and!; [done|split; [done|lia..]|done|done|lia].
  - pose proof (trial_expect_ok m sts evs n l t mv us vs _ bindings count st temps slot a Hc Hroom Hfit Hb Htemps) as Hp.
    unfold compiles_plain in Hp.
    cbn [op_view trial_operation scope_step tx_predicates tx_literals] in Hp; rewrite ?app_nil_r in Hp.
    destruct (outcome_bind _ _) as [bound|e|]; [|done..].
    destruct Hp as (code & t' & mv' & H1 & H2 & H3 & H4 & H5). exists code, bindings, count, t', mv'.
    by split_and!; [..|lia].
  - pose proof (trial_define_ok m sts evs n l t mv us vs _ bindings count st temps slot a p b Hc Hroom Hfit Hb Htemps) as Hp.
    unfold compiles_plain in Hp.
    cbn [op_view trial_operation scope_step tx_predicates tx_literals] in Hp; rewrite ?app_nil_r in Hp.
    destruct (outcome_bind _ _) as [bound|e|]; [|done..].
    destruct Hp as (code & t' & mv' & H1 & H2 & H3 & H4 & H5). exists code, bindings, count, t', mv'.
    by split_and!; [..|lia].
  - destruct (compiling_slot m sts evs n l t mv us vs (SlotId_new slot) Hc Hrs) as
      (tok & t1 & mv1 & E1 & Hc1 & Hle1 & Hg1 & Hl1 & Hn1). rewrite (trial_bind_Ok _ _ _ _ _ E1).
    do 5 eexists. split; [done|]. split; [eapply compiling_weaken; [done|lia..]|].
    split_and!; [done| | |done|lia]; [destruct Hg1; split; [done|lia..]|by exists tok].
  - do 5 eexists. split; [done|]. split; [eapply compiling_weaken; [done|lia..]|].
    split_and!; [done|split; [done|lia..]|done|done|lia].
Qed.

(** Room for [n] more operations and one. *)
Lemma op_room_grown mv mv' n l n' :
  voc_room mv (S (S n)) → voc_grown n' l mv mv' → n' ≤ n → l ≤ 2 * n → op_room mv'.
Proof.
  intros [Hs Hl] [Hmp Hgs Hgl] Hn Hl'. unfold base_slot_count, base_literal_count in *.
  split; unfold base_slot_count, base_literal_count; rewrite Hmp; lia.
Qed.

Lemma trial_loop_ok m sts evs ops : ∀ n l t mv us vs bindings count st,
  compiling m sts evs n l t mv us vs → voc_room mv (S (length ops)) → Forall tx_fits ops →
  bound_as (vm_next (m_workspace m)) bindings count st →
  (vm_next (m_workspace m) + count + N.of_nat (length ops) <= VM_LITERAL_BASE)%N →
  match outcome_fold scope_step ops (dom st.1) with
  | Ok _ => ∃ codes t' mv', let temps := (foldl temps_step st ops).1 in
      trial_loop bindings count (op_view <$> ops) t = (Ok (concat codes, EntityId_new <$> temps), t') ∧
      compiling m sts evs (length ops + n) (2 * length ops + l) t' mv'
        (us ++ (ops ≫= tx_predicates)) (vs ++ (ops ≫= tx_literals)) ∧
      voc_le mv mv' ∧ Forall2 (sem_code mv' temps) ops codes
  | Err e => ∃ t' mv' n' l' us' vs', trial_loop bindings count (op_view <$> ops) t = (Err e, t') ∧
      compiling m sts evs n' l' t' mv' us' vs' 
  | Panic => False
  end.
Proof.
  induction ops as [|op ops IH]; intros n l t mv us vs bindings count st Hc Hroom Hfit Hb Hnext;
    cbn [outcome_fold foldl fmap list_fmap trial_loop length mbind list_bind].
  { exists [], t, mv. rewrite !app_nil_r. rewrite (ba_bindings _ _ _ _ Hb).
    split; [done|]. split; [done|]. split; [done|constructor]. }
  apply Forall_cons in Hfit as [Hf Hfit]. cbn [length] in Hroom, Hnext.
  assert (op_room mv) as Hop by (eapply (op_room_grown mv mv 0 0 0);
    [destruct Hroom; split; lia|by split|lia..]).
  assert (∀ temps, (temps_step st op).1 ⊆ temps →
    match scope_step (dom st.1) op with
    | Ok _ => ∃ code bindings' count' t' mv',
        trial_operation bindings count (op_view op) t = (Ok (code, bindings', count'), t') ∧
        compiling m sts evs (S n) (2 + l) t' mv' (us ++ tx_predicates op) (vs ++ tx_literals op) ∧
        voc_le mv mv' ∧ voc_grown 1 2 mv mv' ∧ sem_code mv' temps op code ∧
        bound_as (vm_next (m_workspace m)) bindings' count' (temps_step st op) ∧ (count' <= count + 1)%N
    | Err e => ∃ t' mv' us' vs', trial_operation bindings count (op_view op) t = (Err e, t') ∧
        compiling m sts evs (S n) (2 + l) t' mv' us' vs'
    | Panic => False
    end) as Hstep by (intros temps Ht; apply (trial_operation_ok m sts evs n l t mv us vs); (done || lia)).
  destruct (scope_step (dom st.1) op) as [bound|e|] eqn:Es; cbn [outcome_bind].
  - rewrite (temps_step_dom _ _ _ Es).
    set (temps := (foldl temps_step (temps_step st op) ops).1).
    assert (∀ temps', (temps_step st op).1 ⊆ temps' → ∃ code bindings' count' t' mv',
      trial_operation bindings count (op_view op) t = (Ok (code, bindings', count'), t') ∧
      compiling m sts evs (S n) (2 + l) t' mv' (us ++ tx_predicates op) (vs ++ tx_literals op) ∧
      voc_le mv mv' ∧ sem_code mv' temps' op code ∧ voc_room mv' (S (length ops)) ∧
      bound_as (vm_next (m_workspace m)) bindings' count' (temps_step st op) ∧ (count' <= count + 1)%N) as Hone.
    { intros temps' Ht. destruct (Hstep temps' Ht) as (code & b' & c' & t' & mv' & E & H1 & H2 & H3 & H4 & H5 & H6).
      exists code, b', c', t', mv'. split_and!; try done. eapply (voc_room_grown mv mv' _ 1); done. }
    clear Hstep. destruct (outcome_fold scope_step ops _) as [bound'|e|] eqn:Ef.
    + destruct (Hone temps) as (code & b' & c' & t1 & mv1 & E1 & Hc1 & Hle1 & Hcode & Hr1 & Hb1 & Hcount).
      { eapply temps_mono. exact Ef. }
      specialize (IH (S n) (2 + l) t1 mv1 _ _ b' c' (temps_step st op) Hc1 Hr1 Hfit Hb1 ltac:(lia)).
      rewrite Ef in IH. destruct IH as (codes & t2 & mv2 & E2 & Hc2 & Hle2 & Hcodes). fold temps in E2, Hcodes.
      exists (code :: codes), t2, mv2. rewrite (trial_bind_Ok _ _ _ _ _ E1).
      rewrite (trial_bind_Ok _ _ _ _ _ E2). rewrite <- !(assoc_L (++)) in Hc2.
      split_and!; [done|eapply compiling_weaken; [exact Hc2|lia..]|by etrans|].
      constructor; [by eapply voc_le_sem_code|done].
    + destruct (Hone _ (reflexivity _)) as (code & b' & c' & t1 & mv1 & E1 & Hc1 & Hle1 & Hcode & Hr1 & Hb1 & Hcount).
      specialize (IH (S n) (2 + l) t1 mv1 _ _ b' c' (temps_step st op) Hc1 Hr1 Hfit Hb1 ltac:(lia)).
      rewrite Ef in IH. destruct IH as (t2 & mv2 & n' & l' & us' & vs' & E2 & Hc2).
      exists t2, mv2, n', l', us', vs'. rewrite (trial_bind_Ok _ _ _ _ _ E1). split; [|done].
      by rewrite (trial_bind_Err _ _ _ _ _ E2).
    + by apply scope_not_panic in Ef.
  - destruct (Hstep _ (reflexivity _)) as (t' & mv' & us' & vs' & E & Hc').
    exists t', mv', (S n), (2 + l), us', vs'. by rewrite (trial_bind_Err _ _ _ _ _ E).
  - by apply (Hstep _ (reflexivity _)).
Qed.
End compile.
