(* ===== verification/MixedProps.v ===== *)
(** Mixed epochs: executing a compiled transaction (the VM decides what the history
    decides, an accepted transaction takes its names into the materializer, a
    rejected one leaves nothing but empty slots), the planner on histories, and
    the theorems. *)
From Stdlib Require Import NArith ZArith Lia.
From stdpp Require Import sorting base gmap list strings option list_monad.
From S2P Require Import Prelude Ord Terms Bytes Query QueryFacts Spec Index Kernel Frames.
From S2P Require Import LegacyDb KernelProps VmProjection Worlds WorldFacts WorldProps Intents Epochs EpochProps.
From S2P Require Import StackVm StackVmFacts StackVmTrial StackVmRoots.
From S2P Require Import VmEpochs VmVocabulary VmEpochFacts VmEpochProps Parser Isa Ast MixedEpochs MixedFacts.

Lemma spec_resolve_head evs s : spec_resolve evs s = head (spec_definitions evs s).
Proof. unfold spec_resolve, spec_definitions, top. by destruct (stack evs s). Qed.

Section exec.
Context {P : Type} `{MappedVocabularyLaws P}.
Implicit Types (m mv : VmEpochMaterializer P) (evs : list Event) (sts : vm_stacks).

(** ** The code of an operation runs to its event *)

Lemma run_sem_code world k hash mv sts evs temps op code (x : gmap string N) next :
  voc_ok mv → stacks_rep mv sts evs → sem_code mv temps op code → world_free op → (next < VM_LITERAL_BASE)%N →
  match semantic_event world temps evs op with
  | Ok evs' => ∃ sts', spec_loop (3 + k) hash code (Trial_mk [] sts next) =
        Ok (Trial_mk [] sts' (temps_step (x, next) op).2) ∧
      stacks_rep mv sts' evs' ∧ length sts' = length sts
  | Err e => spec_loop (3 + k) hash code (Trial_mk [] sts next) = Err e
  | Panic => False
  end.
Proof.
  intros Hvoc Hst Hcode Hfree Hnext.
  destruct op as [s|w|slot a|slot a p b|slot|]; cbn [sem_code semantic_event temps_step snd] in *.
  - subst code. exists sts. unfold spec_loop. cbn -[u64_saturating_add u64_add].
    by rewrite saturating_next.
  - done.
  - destruct Hcode as (tok & c & y & Ht & Hy & Hc & -> & Hn). rewrite spec_resolve_head.
    destruct (sr_slot _ _ _ Hst _ _ Ht) as (st & Hl & Hd).
    unfold spec_loop. cbn [outcome_fold spec_instruction opcode i_expect_object argument immediate t_stacks].
    rewrite decide_False by done. rewrite Hl. cbn [ok_or outcome_bind].
    destruct Hd as [|[[u v] o] f st fs Hf _]; cbn [head]; [done|].
    rewrite Hy. cbn [or_panic outcome_bind].
    assert (atom_from_cell mv o = Some (fact_object f)) as Ho.
    { unfold fact_from_cells in Hf. repeat (apply option_bind_Some in Hf as (? & ? & Hf) || idtac).
      destruct (atom_from_cell mv u) as [a1|]; [|done]. rewrite option_bind_Some in Hf.
      destruct (predicate_from_cell mv v) as [p1|]; [|done]. rewrite option_bind_Some in Hf.
      destruct (atom_from_cell mv o) as [a2|]; [|done]. rewrite option_bind_Some in Hf.
      by injection Hf as <-. }
    destruct (decide (fact_object f = y)) as [<-|Hne].
    + rewrite decide_True by (by eapply atom_from_cell_inj). by exists sts.
    + rewrite decide_False; [done|]. intros ->. congruence.
  - destruct Hcode as (f & Hs & Hfit & Hcode). rewrite Hs. cbn [or_panic outcome_bind].
    destruct (run_op_code k hash mv sts evs (OpDefine (SlotId_new slot) f) code next next Hvoc Hst Hcode Hfit eq_refl)
      as (sts' & E & Hst' & Hlen). by exists sts'.
  - destruct (run_op_code k hash mv sts evs (OpForget (SlotId_new slot)) code next next Hvoc Hst Hcode I eq_refl)
      as (sts' & E & Hst' & Hlen). by exists sts'.
  - by subst code.
Qed.

Lemma run_sem_codes world k hash mv temps ops codes : ∀ sts evs st,
  voc_ok mv → stacks_rep mv sts evs → Forall2 (sem_code mv temps) ops codes → Forall world_free ops →
  (st.2 + N.of_nat (length ops) <= VM_LITERAL_BASE)%N →
  match outcome_fold (semantic_event world temps) ops evs with
  | Ok evs' => ∃ sts', spec_loop (3 + k) hash (concat codes) (Trial_mk [] sts st.2) =
        Ok (Trial_mk [] sts' (foldl temps_step st ops).2) ∧
      stacks_rep mv sts' evs' ∧ length sts' = length sts
  | Err e => spec_loop (3 + k) hash (concat codes) (Trial_mk [] sts st.2) = Err e
  | Panic => False
  end.
Proof.
  intros sts evs st Hvoc Hst Hcodes. revert sts evs st Hst.
  induction Hcodes as [|op code ops codes Hcode _ IH]; intros sts evs [x next] Hst Hfree Hnext.
  { exists sts. done. }
  cbn [length snd] in Hnext. cbn [outcome_fold concat foldl]. apply Forall_cons in Hfree as [Hf Hfree].
  pose proof (run_sem_code world k hash mv sts evs temps op code x next Hvoc Hst Hcode Hf ltac:(lia)) as Hop.
  unfold spec_loop in *. cbn [snd]. rewrite outcome_fold_app.
  destruct (semantic_event world temps evs op) as [evs1|e|]; cbn [outcome_bind]; [|by rewrite Hop|done].
  destruct Hop as (sts1 & -> & Hst1 & Hlen). cbn [outcome_bind].
  specialize (IH sts1 evs1 (temps_step (x, next) op) Hst1 Hfree).
  assert ((temps_step (x, next) op).2 + N.of_nat (length ops) <= VM_LITERAL_BASE)%N as Hn'.
  { destruct op; cbn [temps_step snd]; [rewrite u64_add_small by (apply below_u64; lia)|..]; lia. }
  specialize (IH Hn'). destruct (outcome_fold _ ops evs1) as [evs2|e|]; [|done..].
  destruct IH as (sts2 & E & Hst2 & Hlen2). exists sts2. split_and!; [done|done|congruence].
Qed.

(** ** The operations of an accepted transaction *)

Lemma synthesize_fold world temps ops : ∀ st bound evs evs',
  outcome_fold scope_step ops (dom st.1) = Ok bound → (foldl temps_step st ops).1 = temps →
  outcome_fold (semantic_event world temps) ops evs = Ok evs' →
  ∃ ls, mapM (synthesize_operation temps) ops = Some ls ∧ evs' = evs ++ events_of (concat ls) ∧
    allocate st.2 (concat ls) = Ok (foldl temps_step st ops).2 ∧ length (concat ls) ≤ length ops.
Proof.
  induction ops as [|op ops IH]; intros st bound evs evs'; cbn [outcome_fold foldl].
  { intros _ _ [= <-]. exists []. cbn. by rewrite app_nil_r. }
  destruct (scope_step (dom st.1) op) as [b|e|] eqn:Es; cbn [outcome_bind]; [|done..].
  rewrite (temps_step_dom _ _ _ Es). intros Hscope Htemps.
  pose proof (temps_mono _ _ _ Hscope) as Hmono. rewrite Htemps in Hmono.
  destruct (semantic_event world temps evs op) as [evs1|e|] eqn:Ev; cbn [outcome_bind]; [|done..]. intros Hrun.
  destruct (IH _ _ _ _ Hscope Htemps Hrun) as (ls & Hls & -> & Ha & Hlen).
  assert (∃ l, synthesize_operation temps op = Some l ∧ evs1 = evs ++ events_of l ∧
    (∀ rest, allocate st.2 (l ++ rest) = allocate (temps_step st op).2 rest) ∧ length l ≤ 1) as (l & Hl & -> & Hal & Hl1).
  { destruct op as [s|w|slot a|slot a p c|slot|]; cbn [semantic_event synthesize_operation temps_step] in *.
    - injection Ev as <-. rewrite (lookup_weaken _ _ s st.2 ltac:(cbn; by rewrite lookup_insert_eq) Hmono).
      cbn [mbind option_bind]. eexists. split; [done|]. cbn. rewrite app_nil_r. split_and!; [done| |lia].
      intros rest. cbn [app allocate entity_value]. by rewrite decide_False by (intros Hn; by apply Hn).
    - case_decide; [|done]. injection Ev as <-. exists []. cbn. rewrite app_nil_r. split_and!; done || lia.
    - exists []. split; [done|]. cbn. rewrite app_nil_r. split_and!; [|done|lia].
      destruct (spec_resolve evs _); [|done]. destruct (synthesize_atom temps a); [|done]. cbn in Ev.
      case_decide; by simplify_eq.
    - destruct (s ← synthesize_atom temps a; _) as [l|] eqn:El; [|done]. injection Ev as <-. exists l.
      split_and!; [done|done|..]; destruct (synthesize_atom temps a) as [y|]; cbn [mbind option_bind] in El; try done;
        destruct (synthesize_atom temps c) as [z|]; cbn [mbind option_bind] in El; try done;
        injection El as <-; cbn; done || lia.
    - injection Ev as <-. eexists. split; [done|]. cbn. split_and!; done || lia.
    - done. }
  exists (l :: ls). cbn [mapM]. split.
  { cbn [mapM]. rewrite Hl. cbn [mbind option_bind]. by rewrite Hls. }
  cbn [concat length]. rewrite events_of_app, (assoc_L (++)), Hal, length_app. split_and!; [done|done|lia].
Qed.

Lemma sem_codes_writes mv temps ops codes ls :
  Forall2 (sem_code mv temps) ops codes → mapM (synthesize_operation temps) ops = Some ls →
  program_writes (concat codes) = length (events_of (concat ls)).
Proof.
  intros Hc. revert ls. induction Hc as [|op code ops codes Hcode _ IH]; intros ls.
  { intros [= <-]. done. }
  cbn [mapM]. destruct (synthesize_operation temps op) as [l|] eqn:El; cbn [mbind option_bind]; [|done].
  destruct (mapM _ ops) as [ls'|] eqn:Els; cbn [mbind option_bind]; [|done]. intros [= <-].
  cbn [concat]. rewrite program_writes_app, events_of_app, length_app, (IH _ eq_refl). f_equal.
  destruct op as [s|w|slot a|slot a p b|slot|]; cbn [sem_code] in Hcode.
  - subst code. cbn in El. destruct (temps !! s); [|done]. by injection El as <-.
  - subst code. by injection El as <-.
  - destruct Hcode as (tok & c & y & _ & _ & _ & -> & _). by injection El as <-.
  - destruct Hcode as (f & Hs & _ & (tok & u & v & w & _ & _ & ->)). rewrite Hs in El. by injection El as <-.
  - destruct Hcode as (tok & _ & ->). by injection El as <-.
  - subst code. by injection El as <-.
Qed.

Lemma sem_codes_length mv temps ops codes :
  Forall2 (sem_code mv temps) ops codes → length (concat codes) ≤ 4 * length ops.
Proof.
  induction 1 as [|op code ops codes Hc _ IH]; [done|]. cbn [concat length]. rewrite length_app.
  enough (length code ≤ 4) by lia. destruct op; cbn [sem_code op_code] in Hc; naive_solver lia.
Qed.
(** Compiled code runs as the history does. *)
Lemma execute_sem_codes world mv sts evs temps ops codes st :
  mat_rep mv sts evs → vm_sp (m_workspace mv) + 3 ≤ length (vm_stack (m_workspace mv)) →
  vm_next (m_workspace mv) = st.2 → room (m_workspace mv) (4 * length ops) →
  Forall2 (sem_code mv temps) ops codes → Forall world_free ops → (st.2 + N.of_nat (length ops) <= VM_LITERAL_BASE)%N →
  let program := IntentProgram_new 0 (concat codes) in
  match outcome_fold (semantic_event world temps) ops evs with
  | Ok evs' => ∃ w' sts', execute program (m_workspace mv) = Some (Accepted, w') ∧
      vm_ok false w' sts' ∧ stacks_rep mv sts' evs' ∧ length sts' = length sts ∧
      vm_next w' = (foldl temps_step st ops).2 ∧ extends (m_workspace mv) w' ∧
      wrote (program_writes (concat codes)) (m_workspace mv) w'
  | Err e => ∃ w', execute program (m_workspace mv) = Some (Rejected e, w') ∧
      same_state (m_workspace mv) w' ∧ vm_ok false w' sts
  | Panic => False
  end.
Proof.
  intros [Hvoc Hvm Hst] Hsp Hn Hroom Hcodes Hfree Hle. set (w := m_workspace mv) in *. cbv zeta.
  pose proof (run_sem_codes world (length (vm_stack w) - vm_sp w - 3) (vm_hash w) mv temps ops codes sts evs st
    Hvoc Hst Hcodes Hfree Hle) as Hrun.
  replace (3 + _) with (length (vm_stack w) - vm_sp w) in Hrun by lia.
  assert (start_trial w 0 sts = Trial_mk [] sts st.2) as Hstart.
  { unfold start_trial. rewrite Hn. f_equal. apply drop_ge. rewrite length_take. lia. }
  pose proof (execute_spec false w sts 0 (concat codes) Hvm
    (room_le _ _ _ (sem_codes_length _ _ _ _ Hcodes) Hroom)) as Hex.
  rewrite Hstart in Hex. change (execute (IntentProgram_new 0 (concat codes)) w)
    with (execute_instructions 0 (concat codes) w).
  rewrite (proj2 (Nat.ltb_ge _ _)) in Hex by lia.
  destruct (outcome_fold _ ops evs) as [evs'|e|]; [| |done].
  - destruct Hrun as (sts' & Hrun & Hst' & Hlen). rewrite Hrun in Hex.
    destruct (execute_instructions 0 (concat codes) w) as [[[|e] w']|] eqn:He; [|naive_solver|done].
    destruct Hex as (_ & t & Ht & Hok & Hn' & Hext & _). simplify_eq. exists w', sts'.
    split_and!; try done. by eapply execute_wrote.
  - rewrite Hrun in Hex. destruct (execute_instructions 0 (concat codes) w) as [[[|e'] w']|]; [naive_solver| |done].
    destruct Hex as (Hs & Hok & ?). simplify_eq. by exists w'.
Qed.

(** ** Running a transaction *)

Lemma compiling_workspace m sts evs n l t mv us vs :
  compiling m sts evs n l t mv us vs → tr_materializer t = m_set_workspace (m_workspace mv) m.
Proof. intros [[(ps & ls & Hs & _)] _ _ _ _]. by destruct Hs. Qed.

(** A transaction that is not committed. *)
Lemma compiling_rejected m evs next n sts k l t mv us vs w' room :
  compiling m sts evs n l t mv us vs → mat_ok m evs next → mat_room m room →
  vm_ok false (m_workspace m) sts → stacks_rep m sts evs → vm_ok false (m_workspace mv) (sts ++ replicate k []) →
  same_state (m_workspace mv) w' → vm_ok false w' (sts ++ replicate k []) →
  let m' := m_set_workspace w' (tr_materializer t) in
  mat_ok m' evs next ∧ mat_room m' room ∧ m_version m' = m_version m.
Proof.
  intros Hc Hm Hr Hvm Hst Hvm1 Hs Hok. rewrite (compiling_workspace _ _ _ _ _ _ _ _ _ Hc). cbv zeta.
  change (m_set_workspace w' (m_set_workspace (m_workspace mv) m)) with (m_set_workspace w' m).
  split_and!; [|by eapply (mat_room_rejected m mv); [done|apply Hc|..]|done].
  by eapply (mat_ok_rejected m mv); try done; apply Hc.
Qed.

(** What a run of a transaction leaves. *)
Definition semantic_post m evs next ops (spec : outcome SemanticRejection (list Operation * SemanticBindings))
    (r : SemanticRun) m' : Prop :=
  match spec with
  | Ok (operations, bindings) => ∃ b next', r = RunAccepted b ∧ semantic_bindings b = bindings ∧
      synthesize_operations next ops = Some operations ∧ allocate next operations = Ok next' ∧
      (next' <= next + N.of_nat (length ops))%N ∧ mat_ok m' (evs ++ events_of operations) next'
  | Err (SemanticLowering e) => r = RunLowering e ∧ mat_ok m' evs next
  | Err (SemanticExecution e) => r = RunRejected e ∧ mat_ok m' evs next
  | _ => False
  end.

Lemma foldl_temps_bound ops : ∀ st, (st.2 + N.of_nat (length ops) <= VM_LITERAL_BASE)%N →
  ((foldl temps_step st ops).2 <= st.2 + N.of_nat (length ops))%N.
Proof.
  induction ops as [|op ops IH]; intros st Hle; cbn [foldl length] in *; [lia|].
  assert ((temps_step st op).2 <= st.2 + 1)%N as Hop.
  { destruct op; cbn [temps_step snd]; [rewrite u64_add_small by (apply below_u64; lia)|..]; lia. }
  specialize (IH (temps_step st op)). lia.
Qed.

Lemma run_semantic_ok world m evs next ns ops n :
  mat_ok m evs next → mat_room m (length ops + S n) → Forall tx_fits ops →
  (next + N.of_nat (length ops) <= VM_LITERAL_BASE)%N → orderly ops → Forall world_free ops →
  ∃ r m', run_semantic (TransactionView_borrowed ns (op_view <$> ops)) m = (Ok r, m') ∧
    m_version m' = m_version m ∧ mat_room m' (S n) ∧
    semantic_post m evs next ops (semantic_spec world evs next ops) r m'.
Proof.
  intros Hm Hroom Hfit Hnext [Hop Hol] Hfree. pose proof Hm as [Hvoc (sts & Hvm & Hst) Hsp Hcount Hn].
  assert (mat_rep m sts evs) as Hrep by done.
  assert (mat_room m (S n)) as Hroom' by (eapply mat_room_le; [|done]; lia).
  pose proof (trial_loop_ok m sts evs ops 0 0 (TrialVocabulary_new m) m [] [] ∅ 0 (∅, next)
    (compiling_new _ _ _ Hrep)) as Hl.
  specialize (Hl ltac:(destruct Hroom as [[] _]; split; lia) Hfit).
  assert (bound_as (vm_next (m_workspace m)) ∅ 0 (∅, next)) as Hb.
  { split; cbn; [by rewrite fmap_empty|lia|apply map_Forall_empty]. }
  specialize (Hl Hb ltac:(lia)). unfold run_semantic, compile_semantic_trial, semantic_spec. cbn [tv_operations].
  cbn [fst] in Hl. rewrite dom_empty_L in Hl.
  destruct (outcome_fold scope_step ops ∅) as [bound|e|] eqn:Esc; cbn [map_err outcome_bind]; [| |done].
  2: { destruct Hl as (t & mv & n' & l' & us & vs & E & Hc). rewrite (trial_bind_Err _ _ _ _ _ E).
       destruct (cg_rep _ _ _ _ _ _ _ _ _ Hc) as (k & [_ Hvm1 _]).
       destruct (compiling_rejected m evs next n' sts k l' t mv us vs (m_workspace mv) (S n) Hc Hm Hroom')
         as (H1 & H2 & H3); try done.
       rewrite (compiling_workspace _ _ _ _ _ _ _ _ _ Hc) in *. do 2 eexists. split; [done|]. by split_and!. }
  destruct Hl as (codes & t & mv & E & Hc & Hle & Hcodes). rewrite (trial_bind_Ok _ _ _ _ _ E).
  cbn [mret trial_ret fst snd]. fold (semantic_temps next ops) in Hcodes |- *.
  destruct (cg_rep _ _ _ _ _ _ _ _ _ Hc) as (k & Hrep1). pose proof (cg_quiet _ _ _ _ _ _ _ _ _ Hc) as Hq.
  pose proof Hq as [Hver [h Hw]].
  pose proof (execute_sem_codes world mv (sts ++ replicate k []) evs (semantic_temps next ops).1 ops
    codes (∅, next) Hrep1 ltac:(by rewrite Hw) ltac:(by rewrite Hw)) as Hex.
  specialize (Hex ltac:(apply (quiet_room _ _ _ Hq); eapply room_le; [|apply Hroom]; lia) Hcodes Hfree Hnext).
  cbv zeta in Hex. replace (m_workspace (tr_materializer t)) with (m_workspace mv)
    by by rewrite (compiling_workspace _ _ _ _ _ _ _ _ _ Hc).
  destruct (outcome_fold (semantic_event _ _) ops evs) as [evs'|e|] eqn:Eev; cbn [map_err outcome_bind]; [| |done].
  - destruct Hex as (w' & sts' & -> & Hok & Hst' & Hlen & Hn' & Hext & Hwr).
    destruct (synthesize_fold world (semantic_temps next ops).1 ops (∅, next) bound evs evs') as
      (ls & Hls & -> & Ha & Hlen'); [by cbn [fst]; rewrite dom_empty_L|done|done|].
    unfold synthesize_operations at 1. rewrite Hls. cbn [fmap option_fmap option_map or_panic outcome_bind].
    rewrite (sem_codes_writes _ _ _ _ _ Hcodes Hls) in Hwr.
    destruct (cg_used _ _ _ _ _ _ _ _ _ Hc) as [(ps & lits & Hsim & Hps & Hlits)].
    rewrite (trial_commit_ordered m t mv ps lits w' Hsim); [|by eapply used_ordered..].
    do 2 eexists. split; [done|]. split; [done|]. split.
    + split; [eapply (voc_room_grown m _ _ (length ops)); [|apply Hroom]; destruct (cg_grown _ _ _ _ _ _ _ _ _ Hc); split; cbn -[Nat.mul]; [done|lia..]|].
      cbn. apply (wrote_room _ _ _ _ Hwr), (quiet_room _ _ _ Hq). eapply room_le; [|apply Hroom].
      pose proof (events_of_length (concat ls)). lia.
    + eexists _, _. split_and!; [done|done| |exact Ha| |].
      * unfold synthesize_operations. by rewrite Hls.
      * by apply (foldl_temps_bound ops (∅, next)).
      * by eapply (mat_ok_accepted m).
  - destruct Hex as (w' & -> & Hs & Hok).
    destruct (compiling_rejected m evs next _ sts k _ t mv _ _ w' (S n) Hc Hm Hroom') as (H1 & H2 & H3);
      try done; [apply Hrep1|]. do 2 eexists. split; [done|]. by split_and!.
Qed.
End exec.

(** A mixed epoch on a history, and the loop of the planner as an implementation
    of it (without validators, where the VM decides). *)

(** ** The planner on histories *)

(** The state between two intents: what happened, the allocator and the
    predecessor's name. *)
Record History := History_mk {
  hs_events : list Event;
  hs_next : N;
  hs_predecessor : Predecessor;
}.

Definition spec_precondition (st : History) (p : IntentPrecondition) : outcome IntentRejection unit :=
  match p with
  | ExpectedWorld expected =>
      let id := pr_id (hs_predecessor st) in
      if decide (expected ≠ id) then Err (WorldPrecondition expected id) else Ok tt
  | ExpectedSlot slot expected =>
      let actual := spec_resolve (hs_events st) slot in
      if decide (actual ≠ expected) then Err (SlotPrecondition slot expected actual) else Ok tt
  end.

Definition spec_queued (st : History) (q : QueuedIntent) :
    outcome IntentRejection (list Operation * gmap TempEntity EntityId) :=
  let* _ := outcome_fold (λ _ p, spec_precondition st p) (qi_preconditions q) tt in
  resolve_operations_from (hs_next st) (qi_namespace q) (qi_operations q).

(** The decision on an intent: its operations if it is accepted, and its
    outcome. *)
Definition spec_intent (position : nat) (st : History) (intent : ControllerIntent) :
    outcome MaterializeError (option (list Operation) * MixedVmOutcome) :=
  match intent with
  | QueuedCI q =>
      match spec_queued st q with
      | Ok (operations, entities) => Ok (Some operations, MixedQueuedAccepted position entities)
      | Err e => Ok (queued_rejected position e)
      | Panic => Panic
      end
  | SemanticCI s =>
      match semantic_spec (pr_id (hs_predecessor st)) (hs_events st) (hs_next st) (ast_operations (si_ast s)) with
      | Ok (operations, bindings) => Ok (Some operations, MixedSemanticAccepted position bindings)
      | Err e => Ok (semantic_rejected position e)
      | Panic => Panic
      end
  end.

(** An accepted intent becomes the predecessor of the next. *)
Definition spec_advance (st : History) (operations : option (list Operation)) :
    outcome MaterializeError History :=
  match operations with
  | None => Ok st
  | Some operations =>
      match allocate (hs_next st) operations with
      | Ok next =>
          let version := (pr_version (hs_predecessor st) + 1)%N in
          Ok (History_mk (hs_events st ++ events_of operations) next
                (Predecessor_mk (calculate_world_id (pr_id (hs_predecessor st)) version next operations) version))
      | _ => Panic
      end
  end.

Fixpoint spec_epoch (position : nat) (st : History) (intents : list ControllerIntent) :
    outcome MaterializeError (list Operation * list MixedVmOutcome * History) :=
  match intents with
  | [] => Ok ([], [], st)
  | intent :: intents =>
      let* r := spec_intent position st intent in
      let* st := spec_advance st r.1 in
      let* rest := spec_epoch (S position) st intents in
      Ok (default [] r.1 ++ rest.1.1, r.2 :: rest.1.2, rest.2)
  end.

(** ** Intents within the format *)

(** The entities an intent names are below the literal cells; a transaction
    first uses its names in the order of their spelling and expects no world. *)
Definition controller_fits (i : ControllerIntent) : Prop :=
  match i with
  | QueuedCI q => Forall intent_operation_fits (qi_operations q)
  | SemanticCI s => Forall tx_fits (ast_operations (si_ast s)) ∧ orderly (ast_operations (si_ast s)) ∧
      Forall world_free (ast_operations (si_ast s))
  end.

Definition controller_size (i : ControllerIntent) : nat :=
  match i with
  | QueuedCI q => length (qi_operations q)
  | SemanticCI s => length (ast_operations (si_ast s))
  end.

Definition controller_total (intents : list ControllerIntent) : nat := sum_list (controller_size <$> intents).

Section loop.
Context {D P : Type} `{KernelLaws D, MappedRootLaws P, !MappedVocabulary P, !MappedVocabularyLaws P}.
Implicit Types (m : VmEpochMaterializer P) (evs : list Event).

(** The decision and its effect on the materializer. *)
Definition intent_post m evs next size (r : option (list Operation)) m' : Prop :=
  match r with
  | Some operations => ∃ next', allocate next operations = Ok next' ∧
      (next' <= next + N.of_nat size)%N ∧ mat_ok m' (evs ++ events_of operations) next'
  | None => mat_ok m' evs next
  end.

(** Preconditions and resolution read the history. *)
Lemma mat_resolve_intent m st q :
  mat_ok m (hs_events st) (hs_next st) →
  vm_resolve_intent m (pr_id (hs_predecessor st)) q = spec_queued st q.
Proof.
  intros Hm. unfold vm_resolve_intent, spec_queued, check_vm_preconditions. rewrite (mk_next _ _ _ Hm).
  enough (outcome_fold (λ _ p, check_vm_precondition m (pr_id (hs_predecessor st)) p) (qi_preconditions q) tt =
    outcome_fold (λ _ p, spec_precondition st p) (qi_preconditions q) tt) as -> by done.
  induction (qi_preconditions q) as [|p ps IH]; [done|]. cbn [outcome_fold].
  assert (check_vm_precondition m (pr_id (hs_predecessor st)) p = spec_precondition st p) as ->.
  { destruct p as [e|s f]; [done|]. cbn [check_vm_precondition]. by rewrite (mat_resolve _ _ _ s Hm). }
  destruct (spec_precondition st p) as [[]|e|]; [apply IH|done..].
Qed.

Lemma mixed_queued_ok (base : World D P) kernel position p m evs next q n :
  mat_ok m evs next → mat_room m (length (qi_operations q) + n) →
  Forall intent_operation_fits (qi_operations q) →
  (next + N.of_nat (length (qi_operations q)) <= VM_LITERAL_BASE)%N →
  ∃ r m', mixed_queued base kernel [] position p q m = (Ok r, m') ∧ m_version m' = m_version m ∧ mat_room m' n ∧
    spec_intent position (History_mk evs next p) (QueuedCI q) = Ok r ∧
    intent_post m evs next (length (qi_operations q)) r.1 m'.
Proof.
  intros Hm Hroom Hfit Hnext. unfold mixed_queued. cbn [spec_intent].
  pose proof (mat_resolve_intent m (History_mk evs next p) q Hm) as Hr. cbn [hs_predecessor] in Hr.
  rewrite Hr in *. destruct (spec_queued _ q) as [[ops es]|e|] eqn:Hs.
  - destruct (resolve_intent_fits m (pr_id p) q ops es next (mk_next _ _ _ Hm) Hfit Hnext Hr)
      as (next' & Ha & Hle & Hops & Hlen).
    destruct (run_operations m evs next ops next' n Hm) as (program & m1 & m2 & E1 & E2 & Hm2 & Hr2 & Hv2);
      [by rewrite Hlen|done..|].
    unfold run_queued. rewrite E1. unfold run_program in E2.
    destruct (execute program (m_workspace m1)) as [[x w]|]; [|done]. injection E2 as -> <-.
    do 2 eexists. split_and!; [done..|]. by exists next'.
  - do 2 eexists. split_and!; [done|done| |done|done]. eapply mat_room_le; [|done]. lia.
  - by apply (resolve_intent_no_panic _ _ _ _ _ Hm Hnext) in Hr.
Qed.

Lemma mixed_semantic_ok (base : World D P) kernel position p m evs next s n :
  mat_ok m evs next → mat_room m (length (ast_operations (si_ast s)) + S n) →
  Forall tx_fits (ast_operations (si_ast s)) → orderly (ast_operations (si_ast s)) →
  Forall world_free (ast_operations (si_ast s)) →
  (next + N.of_nat (length (ast_operations (si_ast s))) <= VM_LITERAL_BASE)%N →
  ∃ r m', mixed_semantic base kernel [] position p s m = (Ok r, m') ∧ m_version m' = m_version m ∧
    mat_room m' (S n) ∧ spec_intent position (History_mk evs next p) (SemanticCI s) = Ok r ∧
    intent_post m evs next (length (ast_operations (si_ast s))) r.1 m'.
Proof.
  intros Hm Hroom Hfit Hord Hfree Hnext. unfold mixed_semantic. cbn [spec_intent hs_events hs_next hs_predecessor].
  destruct (run_semantic_ok (pr_id p) m evs next (ast_namespace (si_ast s)) (ast_operations (si_ast s)) n
    Hm Hroom Hfit Hnext Hord Hfree) as (r & m' & E & Hv & Hr & Hpost).
  unfold semantic_view. rewrite E, (mk_next _ _ _ Hm). unfold semantic_post in Hpost.
  destruct (semantic_spec _ _ _ _) as [[ops b]|[ | | |]|]; try done.
  - destruct Hpost as (b' & next' & -> & <- & Hs & Ha & Hle & Hm'). rewrite Hs. cbn [semantic_outcome or_panic outcome_bind].
    do 2 eexists. split_and!; [done..|]. by exists next'.
  - destruct Hpost as [-> Hm']. do 2 eexists. by split_and!.
  - destruct Hpost as [-> Hm']. do 2 eexists. by split_and!.
Qed.

Lemma mixed_intent_ok (base : World D P) kernel position p m evs next i n :
  mat_ok m evs next → mat_room m (controller_size i + S n) → controller_fits i →
  (next + N.of_nat (controller_size i) <= VM_LITERAL_BASE)%N →
  ∃ r m', mixed_intent base kernel [] position p i m = (Ok r, m') ∧ m_version m' = m_version m ∧
    mat_room m' (S n) ∧ spec_intent position (History_mk evs next p) i = Ok r ∧
    intent_post m evs next (controller_size i) r.1 m'.
Proof.
  destruct i as [q|s]; cbn [controller_size controller_fits mixed_intent].
  - intros Hm Hr Hf Hn. by apply mixed_queued_ok.
  - intros Hm Hr (Hf & Ho & Hw) Hn. by apply mixed_semantic_ok.
Qed.

(** The loop decides what the history decides. *)
Lemma mixed_loop_ok (base : World D P) kernel intents : ∀ position p m evs next n,
  mat_ok m evs next → mat_room m (controller_total intents + S n) → Forall controller_fits intents →
  (next + N.of_nat (controller_total intents) <= VM_LITERAL_BASE)%N →
  (pr_version p + N.of_nat (length intents) < u64_modulus)%N →
  ∃ ops outs st' m', mixed_loop base kernel [] position p intents m = (Ok (ops, outs), m') ∧
    spec_epoch position (History_mk evs next p) intents = Ok (ops, outs, st') ∧
    m_version m' = m_version m ∧ mat_room m' (S n) ∧
    allocate next ops = Ok (hs_next st') ∧ hs_events st' = evs ++ events_of ops ∧
    (hs_next st' <= next + N.of_nat (controller_total intents))%N ∧
    mat_ok m' (evs ++ events_of ops) (hs_next st').
Proof.
  induction intents as [|i intents IH]; intros position p m evs next n Hm Hroom Hfit Hnext Hver.
  { exists [], [], (History_mk evs next p), m. cbn. rewrite app_nil_r. split_and!; try done. lia. }
  apply Forall_cons in Hfit as [Hf Hfit]. cbn [length mixed_loop spec_epoch] in *.
  change (controller_total (i :: intents)) with (controller_size i + controller_total intents) in *.
  destruct (mixed_intent_ok base kernel position p m evs next i (controller_total intents + n) Hm) as
    (r & m1 & E1 & Hv1 & Hr1 & Hs1 & Hpost); [|done|lia|].
  { by rewrite plus_n_Sm, Nat.add_assoc. }
  rewrite (mat_bind_Ok _ _ _ _ _ E1), Hs1. cbn [outcome_bind].
  unfold mat_get. erewrite mat_bind_Ok by done. cbv zeta.
  rewrite plus_n_Sm in Hr1. destruct r as [[ops|] out]; cbn [fst snd intent_post spec_advance hs_next hs_events] in *.
  - destruct Hpost as (next1 & Ha & Hle & Hm1). rewrite Ha. cbn [outcome_bind].
    destruct (version_next (pr_version p) (length intents)) as [Hsat Hver']; [lia|].
    assert (u64_add (pr_version p) 1 = pr_version p + 1)%N as Hadd.
    { apply u64_add_small. unfold u64_ok. lia. }
    unfold advance. rewrite Hsat, Hadd in *. rewrite (mk_next _ _ _ Hm1).
    destruct (IH (S position) (Predecessor_mk
      (calculate_world_id (pr_id p) (pr_version p + 1) next1 ops) (pr_version p + 1)) m1 _ next1 n Hm1 Hr1 Hfit)
      as (ops' & outs & st' & m' & E2 & Hs2 & Hv2 & Hr2 & Ha2 & He2 & Hle2 & Hm2); [lia|cbn; lia|].
    cbn [hs_predecessor]. rewrite (mat_bind_Ok _ _ _ _ _ E2), Hs2. cbn [outcome_bind fst snd default].
    do 4 eexists. split_and!; [done|done|congruence|done| | |lia|]; cbn [from_option id fst].
    + by rewrite allocate_app, Ha.
    + by rewrite events_of_app, (assoc_L (++)).
    + by rewrite events_of_app, (assoc_L (++)).
  - destruct (IH (S position) p m1 evs next n Hpost Hr1 Hfit) as
      (ops' & outs & st' & m' & E2 & Hs2 & Hv2 & Hr2 & Ha2 & He2 & Hle2 & Hm2); [lia..|].
    cbn [outcome_bind]. rewrite (mat_bind_Ok _ _ _ _ _ E2), Hs2. cbn [outcome_bind fst snd].
    do 4 eexists. split_and!; [done|done|congruence|done|done|done|lia|done].
Qed.

(** Nothing is accepted exactly when no operations and no predecessor came about. *)
Lemma spec_epoch_rejected intents : ∀ position st ops outs st',
  spec_epoch position st intents = Ok (ops, outs, st') →
  length (filter (λ o, mixed_accepted o) outs) = 0 → ops = [] ∧ st' = st.
Proof.
  induction intents as [|i intents IH]; intros position st ops outs st'; cbn [spec_epoch]; [by intros [= <- <- <-]|].
  destruct (spec_intent position st i) as [[r out]|e|] eqn:Ei; cbn [outcome_bind]; [|done..].
  assert (mixed_accepted out = false → r = None) as Hacc.
  { destruct i as [q|s]; cbn [spec_intent] in Ei; unfold queued_rejected, semantic_rejected in Ei.
    - destruct (spec_queued st q) as [[? ?]|e|]; [by injection Ei as <- <-..|done].
    - destruct (semantic_spec _ _ _ _) as [[? ?]|e|]; [by injection Ei as <- <-..|done]. }
  cbn [fst snd]. destruct (spec_advance st r) as [st1|e|] eqn:Ea; cbn [outcome_bind]; [|done..].
  destruct (spec_epoch _ st1 intents) as [[[ops' outs'] st2]|e|] eqn:Es; cbn [outcome_bind fst snd]; [|done..].
  intros [= <- <- <-]. rewrite filter_cons. destruct (mixed_accepted out); [done|]. cbn [Is_true].
  rewrite decide_False by (by intros []). intros Hz. rewrite (Hacc eq_refl) in *. injection Ea as <-.
  by apply (IH _ _ _ _ _ Es).
Qed.
End loop.

(** ** The properties of mixed epochs, and the behaviours outside their
    assumptions. *)

Section props.
Context {D P : Type} `{KernelLaws D, MappedRootLaws P, !MappedVocabulary P, !MappedVocabularyLaws P}.

Abbreviation MemoryDatabase := (Database D P MemoryCommitStore) (only parsing).

(** A decision as it is published: an accepted intent with the new world and the
    one frame of the epoch. *)
Definition decided_as (tail : World D P) (frames : list CommitFrame) (decision : MixedVmOutcome)
    (o : MixedEpochOutcome D P) : Prop :=
  match decision, o with
  | MixedQueuedAccepted position entities, QueuedAccepted a =>
      ai_position a = position ∧ ai_entities a = entities ∧ ai_world a = tail ∧ frames = [ai_frame a]
  | MixedSemanticAccepted position bindings, SemanticAccepted a =>
      asi_position a = position ∧ asi_bindings a = bindings ∧ asi_world a = tail ∧ frames = [asi_frame a]
  | MixedQueuedRejected r, QueuedRejected r' => r = r'
  | MixedSemanticRejected r, SemanticRejected r' => r = r'
  | _, _ => False
  end.

(** A database without validators and a materializer that has followed it. *)
Record mixed_db_ok (db : MemoryDatabase) (fs : list CommitFrame) (m : VmEpochMaterializer P) : Prop := {
  mdb_world : world_ok (db_current db) fs;
  mdb_store : db_store db = fs;
  mdb_validators : db_validators db = [];
  mdb_mat : mat_ok m (frame_events fs) (w_next_entity (db_current db));
  mdb_version : m_version m = w_version (db_current db);
}.

(** The state of the published world, as the planner on histories starts. *)
Definition history_of (w : World D P) (fs : list CommitFrame) : History :=
  History_mk (frame_events fs) (w_next_entity w) (Predecessor_mk (w_id w) (w_version w)).

Lemma mixed_decided_as tail f outs :
  Forall2 (decided_as tail [f]) outs (mixed_published tail f <$> outs).
Proof. induction outs as [|[] outs IH]; cbn; constructor; done. Qed.

Lemma mixed_rejected_decided tail outs :
  length (filter (λ o, mixed_accepted o) outs) = 0 →
  ∃ os, mapM (mixed_only_rejected (D := D) (P := P)) outs = Some os ∧ Forall2 (decided_as tail []) outs os.
Proof.
  induction outs as [|o outs IH]; [by exists []|]. rewrite filter_cons.
  case_decide as Ha; [done|]. intros Hz. destruct (IH Hz) as (os & E & Hos).
  destruct o; try (by destruct Ha); cbn [mapM mixed_only_rejected mbind option_bind];
    rewrite E; eexists; (split; [done|by constructor]).
Qed.

(** The plan of an epoch against the decisions of the history. *)
Record plan_ok (base : World D P) fs (intents : list ControllerIntent) (plan : MixedEpochPlan D P) : Prop := {
  po_base : mp_base plan = base;
  po_spec : ∃ ops outs st',
    spec_epoch 0 (history_of base fs) intents = Ok (ops, outs, st') ∧
    Forall2 (decided_as (mp_tail plan) (mp_frames plan)) outs (mp_outcomes plan) ∧
    chain_operations (mp_frames plan) = ops ∧
    length (mp_frames plan) = (if decide (length (filter (λ o, mixed_accepted o) outs) = 0) then 0 else 1) ∧
    frame_events (fs ++ mp_frames plan) = hs_events st' ∧ w_next_entity (mp_tail plan) = hs_next st';
  po_tail : world_ok (mp_tail plan) (fs ++ mp_frames plan);
  po_empty : mp_frames plan = [] → mp_tail plan = base;
  po_next : (w_next_entity (mp_tail plan) <= w_next_entity base + N.of_nat (controller_total intents))%N;
  po_version : (w_version (mp_tail plan) <= w_version base + N.of_nat (length (mp_frames plan)))%N;
}.

Lemma materialize_mixed_ok (base : World D P) fs m intents n :
  world_ok base fs → mat_ok m (frame_events fs) (w_next_entity base) → Forall controller_fits intents →
  (w_next_entity base + N.of_nat (controller_total intents) <= VM_LITERAL_BASE)%N →
  (w_version base + N.of_nat (length intents) < u64_modulus)%N →
  mat_room m (controller_total intents + S n) →
  ∃ plan m', materialize_mixed base intents [] m = (Ok plan, m') ∧ plan_ok base fs intents plan ∧
    mat_ok m' (frame_events (fs ++ mp_frames plan)) (w_next_entity (mp_tail plan)) ∧ mat_room m' (S n).
Proof.
  intros Hw Hm Hfit Hnext Hver Hroom. destruct (world_kernel_ok _ _ Hw) as (k & w1 & Hk & _).
  destruct (mixed_loop_ok base k intents 0 (Predecessor_mk (w_id base) (w_version base)) m _ _ n Hm Hroom Hfit
    Hnext Hver) as (ops & outs & st' & m' & E & Hs & Hv & Hr & Ha & He & Hle & Hm').
  unfold materialize_mixed. rewrite Hk, E. fold (history_of base fs) in Hs.
  destruct (decide (length (filter (λ o, mixed_accepted o) outs) = 0)) as [Hz|Hz].
  - destruct (mixed_rejected_decided base outs Hz) as (os & Hos & Hpub). rewrite Hos.
    destruct (spec_epoch_rejected _ _ _ _ _ _ Hs Hz) as [-> ->]. cbn in Hm'. rewrite app_nil_r in Hm'.
    do 2 eexists. split; [done|]. cbn [mp_frames mp_tail]. rewrite app_nil_r. split_and!; [|done|done].
    split; cbn; rewrite ?app_nil_r; [done| |done|done|lia|lia]. do 3 eexists.
    split; [done|]. rewrite decide_True by done. by split_and!.
  - assert (u64_ok (w_version base + 1)) as Hv1.
    { destruct intents; [by simplify_eq/=|]. simpl in Hver. unfold u64_ok. lia. }
    rewrite (mk_next _ _ _ Hm'), (mat_active _ _ _ Hm'), (mk_count _ _ _ Hm').
    destruct (from_vm_epoch_ok base fs ops (hs_next st') _ _ Hw Hv1 Ha eq_refl eq_refl) as [Hok Hops].
    unfold from_vm_epoch in *. cbn [fst snd] in Hok, Hops |- *. do 2 eexists. split; [done|].
    cbn [mp_frames mp_tail]. split_and!; [split|by rewrite frame_events_snoc|done]; cbn; [done| |done|done|done|].
    2: by rewrite u64_add_small by done.
    do 3 eexists. split; [done|]. rewrite decide_False by done. split_and!; [apply mixed_decided_as| |done| |done].
    + unfold chain_operations. cbn. by rewrite app_nil_r.
    + by rewrite frame_events_snoc, He.
Qed.
End props.

(** Committing an epoch: the plan of the history, published. *)
Lemma mixed_epoch_plan {D P : Type}
    `{KernelLaws D, MappedRootLaws P, !MappedVocabulary P, !MappedVocabularyLaws P}
    (db : Database D P MemoryCommitStore) fs m (intents : list ControllerIntent) n :
  mixed_db_ok db fs m → Forall controller_fits intents →
  (w_next_entity (db_current db) + N.of_nat (controller_total intents) <= VM_LITERAL_BASE)%N →
  (w_version (db_current db) + N.of_nat (length intents) < u64_modulus)%N →
  mat_room m (controller_total intents + S n) →
  ∃ plan db' m', commit_mixed_epoch db intents m = (Ok plan, db', m') ∧
    plan_ok (db_current db) fs intents plan ∧ db_current db' = mp_tail plan ∧
    mixed_db_ok db' (fs ++ mp_frames plan) m' ∧ mat_room m' (S n).
Proof.
  intros [Hw Hst Hval Hm Hv] Hfit Hnext Hver Hroom. unfold commit_mixed_epoch, synchronize_to.
  rewrite Hv, N.ltb_irrefl, N.eqb_refl, Hval.
  destruct (materialize_mixed_ok _ _ _ _ _ Hw Hm Hfit Hnext Hver Hroom) as (plan & m' & -> & Hp & Hm' & Hr).
  destruct (set_version_ok (w_version (mp_tail plan)) _ _ _ _ Hm' Hr) as [Hm2 Hr2].
  do 3 eexists. split; [done|]. split; [done|]. unfold mixed_is_empty.
  pose proof (po_tail _ _ _ _ Hp) as Ht. pose proof (po_empty _ _ _ _ Hp) as He.
  destruct (mp_frames plan) as [|f frames] eqn:Hf.
  - rewrite (He eq_refl), app_nil_r in *. split; [done|]. by split.
  - split_and!; [done|split|done]; cbn [db_current db_store db_validators]; try done.
    by rewrite append_all_app, Hst.
Qed.

(** C19: A mixed epoch without validators is the epoch of its history.  From a
    database and a materializer that has followed it, within the capacity of
    tokens, literal cells and arenas, if each transaction first uses its names in
    the order of their spelling and none of them expects a world, committing the
    epoch succeeds: every queued intent and every transaction is accepted or
    rejected as the planner on histories decides, with its entities, bindings or
    reason; the accepted operations make up the one published frame; the published
    world extends the history by them; and database and materializer are again in
    step, whatever the rejected transactions tried.  The planner on histories
    refuses a transaction that expects another world than its predecessor; the
    code does not compare them ([mixed_expected_world_ignored]), and names out of
    order come out exchanged ([trial_names_out_of_order]): hence the conditions. *)
Theorem mixed_epoch_refines {D P : Type}
    `{KernelLaws D, MappedRootLaws P, !MappedVocabulary P, !MappedVocabularyLaws P}
    (db : Database D P MemoryCommitStore) fs m (intents : list ControllerIntent) n :
  mixed_db_ok db fs m → Forall controller_fits intents →
  (w_next_entity (db_current db) + N.of_nat (controller_total intents) <= VM_LITERAL_BASE)%N →
  (w_version (db_current db) + N.of_nat (length intents) < u64_modulus)%N →
  mat_room m (controller_total intents + S n) →
  ∃ plan db' m', commit_mixed_epoch db intents m = (Ok plan, db', m') ∧
    plan_ok (db_current db) fs intents plan ∧ db_current db' = mp_tail plan ∧
    mixed_db_ok db' (fs ++ mp_frames plan) m' ∧ mat_room m' (S n).
Proof. apply mixed_epoch_plan. Qed.

(** ** A concrete epoch *)

Definition sample_transaction : SemanticIntent := SemanticIntent_new (TransactionAST_new 3
  [TxAllocate "a"; TxDefine "s" (RefSymbol "a") "p" (RefLiteral "x"); TxExpectObject "s" (RefLiteral "x")])%string.

Definition sample_refused : SemanticIntent := SemanticIntent_new (TransactionAST_new 4
  [TxForget "s"; TxDefine "t" (RefEntity (AstEntityId_mk 9)) "q" (RefLiteral "y"); TxReject])%string.

Definition mixed_sample : list ControllerIntent :=
  (QueuedCI <$> sample_epoch) ++ [SemanticCI sample_transaction; SemanticCI sample_refused].

Definition mixed_genesis : Database LegacyDb.ForthDb Empty_set MemoryCommitStore := Database_mk genesis [] [].

Lemma mixed_epoch_refines_witness :
  ∃ plan db' m', commit_mixed_epoch mixed_genesis mixed_sample (materializer_new 1) = (Ok plan, db', m') ∧
    plan_ok (db_current mixed_genesis) [] mixed_sample plan ∧ db_current db' = mp_tail plan ∧
    mixed_db_ok db' ([] ++ mp_frames plan) m' ∧ mat_room m' 2.
Proof.
  apply (mixed_epoch_refines mixed_genesis [] (materializer_new 1) mixed_sample 1).
  - split; [apply genesis_ok|done|done|apply materializer_new_ok|done].
  - repeat constructor; cbn; try (by vm_compute); by apply bool_decide_unpack; vm_compute.
  - by vm_compute.
  - by vm_compute.
  - apply materializer_new_room. by vm_compute.
Defined.

(** ** Outside the assumptions *)

Definition out_of_order : SemanticIntent := SemanticIntent_new (TransactionAST_new 1
  [TxAllocate "a"; TxDefine "s1" (RefSymbol "a") "z" (RefLiteral "l2");
   TxDefine "s2" (RefSymbol "a") "b" (RefLiteral "l1")])%string.

(** The names of a transaction are numbered as they come up, but stored in the
    order of their spelling: afterwards the materializer reads a fact in which
    both names are exchanged, against the world just published. *)
Lemma trial_names_out_of_order :
  let '(r, db, m) := commit_mixed_epoch mixed_genesis [SemanticCI out_of_order] (materializer_new 1) in
  let a := AEntity (EntityId_new 1) in
  match r with
  | Ok plan =>
      (fst <$> world_resolve (mp_tail plan) (SlotId_new "s1")) =
        Some (Some (Fact_new a (Predicate_new "z") (ALiteral (Literal_new "l2")))) ∧
      materializer_resolve_fact m (SlotId_new "s1") =
        Some (Some (Fact_new a (Predicate_new "b") (ALiteral (Literal_new "l1"))))
  | _ => False
  end.
Proof. vm_compute. done. Qed.

(** A validator that wants the slot [a] defined. *)
Definition wants_slot_a (c : CandidateWorld LegacyDb.ForthDb) : outcome string unit :=
  match db_resolve (c_kernel c) slot_a with
  | Some (Some _) => Ok tt
  | _ => Err "slot a is not defined"%string
  end.

Definition defines_slot_b : QueuedIntent :=
  intent_define (intent_new 9).1 slot_b
    (IntentFact_new (IEntity (EntityId_new 1)) (Predicate_new "p") (ILiteral (Literal_new "w"))).

Definition is_accepted {D P} (o : MixedEpochOutcome D P) : bool :=
  match o with QueuedAccepted _ | SemanticAccepted _ => true | _ => false end.
Definition is_epoch_accepted {D P} (o : EpochOutcome D P) : bool :=
  match o with EpochAccepted _ => true | _ => false end.

(** With validators every intent of a mixed epoch is judged on the kernel of the
    base: the second intent is refused although its predecessor defines the
    slot, and the planner of queued epochs accepts it. *)
Lemma mixed_validators_see_base :
  let intents := [sample_intent; defines_slot_b] in
  match (materialize_mixed genesis (QueuedCI <$> intents) [wants_slot_a] (materializer_new 1)).1,
        derive_epoch_world (P := Empty_set) genesis intents [wants_slot_a] with
  | Ok mixed, Some plan => is_accepted <$> mp_outcomes mixed = [true; false] ∧
      is_epoch_accepted <$> ep_outcomes plan = [true; true]
  | _, _ => False
  end.
Proof. vm_compute. done. Qed.

(** A transaction that reads an unbound symbol is rejected without validators,
    and panics with them. *)
Lemma mixed_unbound_symbol_panics :
  let intents := [SemanticCI (SemanticIntent_new (TransactionAST_new 1
    [TxDefine "s" (RefSymbol "a") "p" (RefLiteral "x")]))]%string in
  let run validators := (materialize_mixed (D := LegacyDb.ForthDb) genesis intents validators
    (materializer_new (P := Empty_set) 1)).1 in
  match run [], run [λ _, Ok tt] with
  | Ok plan, Panic => mp_outcomes plan =
      [SemanticRejected (RejectedSemanticIntent_mk 0 (SemanticLowering (TrialUndefined "a")))]
  | _, _ => False
  end.
Proof. vm_compute. done. Qed.

(** The world a transaction expects is not compared with anything: the epoch
    accepts what the planner on histories refuses. *)
Lemma mixed_expected_world_ignored :
  let intents := [SemanticCI (SemanticIntent_new (TransactionAST_new 1
    [TxExpectWorld (AstWorldId_mk 12345); TxAllocate "a"]))]%string in
  match (materialize_mixed (D := LegacyDb.ForthDb) genesis intents []
    (materializer_new (P := Empty_set) 1)).1 with
  | Ok plan => w_id (mp_base plan) ≠ WorldId_new 12345 ∧ is_accepted <$> mp_outcomes plan = [true]
  | _ => False
  end ∧
  spec_epoch 0 (history_of (D := LegacyDb.ForthDb) (P := Empty_set) genesis []) intents =
    Ok ([], [MixedSemanticRejected (RejectedSemanticIntent_mk 0 (SemanticExecution ExpectedValueMismatch))],
        history_of (D := LegacyDb.ForthDb) (P := Empty_set) genesis []).
Proof. by vm_compute. Qed.
