(* ===== verification/Batching.v ===== *)
(** What the two queued controllers share (forthdb-world/src/queued_controller.rs,
    lines 369-394 and 618-682, and the batching loops of both workers, lines
    913-1075 there and 1647-1802 of file_epoch_controller.rs): atomic counters,
    batch policies, the adaptive target width and the collection of one batch
    from the channel.

    A worker is driven by a script: the sequence of what its receiver meets (a
    command, or nothing in time) and of the moments at which another thread sets
    the controller draining.  Every schedule of the other threads is some script;
    the end of the script is the channel without senders.  The reads of the clock
    are answered by a function of their number.  What a worker does besides
    (counters, tickets, the state it tests) is the interface [BatchHost], which
    each controller implements.  Instants and durations are nanoseconds.

    Opening a batch can panic: [Vec::with_capacity] when the bytes of the maximal
    batch exceed the address space, [Instant::now() + max_delay] when the platform
    has no such instant ([Platform]; the constructors accept both). *)
From Stdlib Require Import NArith ZArith Lia SpecFloat.
From stdpp Require Import base gmap list option.
From S2P Require Import Prelude.

(** ** Atomic counters *)

Section atomics.
Context {K : Type} `{EqDecision K}.

(** The [AtomicU64] fields of a struct, by name. *)
Definition atomics : Type := K → N.
Definition zeroed : atomics := λ _, 0%N.
Definition store_at (k : K) (n : N) (a : atomics) : atomics := λ k', if decide (k' = k) then n else a k'.
Definition fetch_add (k : K) (n : N) (a : atomics) : atomics := store_at k (u64_add (a k) n) a.
Definition fetch_sub (k : K) (n : N) (a : atomics) : atomics := store_at k (u64_sub (a k) n) a.

(** The compare-and-exchange loops that raise a maximum. *)
Definition raise_to (k : K) (n : N) (a : atomics) : atomics :=
  if (a k <? n)%N then store_at k n a else a.
End atomics.
Arguments atomics : clear implicits.

(** ** Floating point: IEEE binary64 *)

Definition f64 : Type := spec_float.
Definition f64_of_N (n : N) : f64 := binary_normalize 53 1024 (Z.of_N n) 0 false.
Definition f64_add : f64 → f64 → f64 := SFadd 53 1024.
Definition f64_sub : f64 → f64 → f64 := SFsub 53 1024.
Definition f64_mul : f64 → f64 → f64 := SFmul 53 1024.

(** [as u64]: truncated and saturating, zero for NaN. *)
Definition f64_as_u64 (x : f64) : N :=
  match x with
  | S754_finite false m e =>
      N.min u64_max (if (0 <=? e)%Z then N.shiftl (N.pos m) (Z.to_N e) else N.shiftr (N.pos m) (Z.to_N (- e)))
  | S754_infinity false => u64_max
  | _ => 0%N
  end.

(** The literal [0.20], to the nearest binary64. *)
Definition ARRIVAL_ALPHA : f64 := S754_finite false 7205759403792794 (-55).

(** ** Policies *)

Inductive BatchPolicy :=
| ImmediateDrain (max_batch : N)
| Coalesce (max_batch : N) (max_delay : N)
| Adaptive (min_batch max_batch : N) (latency_budget : N).

Inductive BatchSealReason :=
| SealCapacity | SealTimeout | SealDrain | SealWidth | SealLatency | SealLowTraffic | SealSourceStalled
| SealBarrier.

Definition policy_max_batch (p : BatchPolicy) : N :=
  match p with ImmediateDrain m | Coalesce m _ | Adaptive _ m _ => m end.
Definition policy_min_batch (p : BatchPolicy) : N :=
  match p with Adaptive m _ _ => m | _ => 1%N end.

(** ** What the platform bounds *)

(** The elements of a batch that fit into [isize::MAX] bytes, and the last
    instant. *)
Class Platform := { max_elements : N; max_instant : N }.

(** [Vec::with_capacity] returns; it panics otherwise. *)
Definition reserves `{Platform} (capacity : N) : bool := (capacity <=? max_elements)%N.

(** [Instant + Duration]; [None] is the panic. *)
Definition instant_add `{Platform} (now delay : N) : option N :=
  if (now + delay <=? max_instant)%N then Some (now + delay)%N else None.

(** A 64-bit platform whose batch elements take 256 bytes. *)
Definition sample_platform : Platform := {|
  max_elements := 36028797018963967;
  max_instant := 9223372036854775807999999999;
|}.

(** ** The adaptive target *)

Record AdaptiveState := AdaptiveState_mk {
  ewma_interarrival_time_ns : f64;
  last_arrival_time : option N;
  target_width : N;
  epochs_sealed : N;
}.

Definition adaptive_new (initial_target : N) : AdaptiveState :=
  AdaptiveState_mk (f64_of_N 10000) None initial_target 0.

Definition observe_arrival (enqueued_at : N) (s : AdaptiveState) : AdaptiveState :=
  AdaptiveState_mk
    (match last_arrival_time s with
     | Some previous =>
         if (previous <=? enqueued_at)%N
         then f64_add (f64_mul (f64_sub (f64_of_N 1) ARRIVAL_ALPHA) (ewma_interarrival_time_ns s))
                (f64_mul ARRIVAL_ALPHA (f64_of_N (enqueued_at - previous)))
         else ewma_interarrival_time_ns s
     | None => ewma_interarrival_time_ns s
     end)
    (Some (match last_arrival_time s with
           | Some previous => N.max previous enqueued_at
           | None => enqueued_at
           end))
    (target_width s) (epochs_sealed s).

Definition u64_saturating_mul (a b : N) : N := N.min (a * b) u64_max.

Definition next_target (reason : BatchSealReason) (achieved target min_batch max_batch : N) : N :=
  match reason with
  | SealWidth =>
      if (target <=? achieved)%N then N.min (u64_saturating_mul (u64_add target 1) 2) max_batch
      else N.min (u64_saturating_add target (N.max min_batch 1)) max_batch
  | SealLatency => N.max (target / 2) min_batch
  | SealSourceStalled | SealLowTraffic => N.min (N.max achieved min_batch) max_batch
  | _ => target
  end.

Definition update_target (reason : BatchSealReason) (achieved_width min_batch max_batch : N)
    (s : AdaptiveState) : AdaptiveState :=
  AdaptiveState_mk (ewma_interarrival_time_ns s) (last_arrival_time s)
    (next_target reason achieved_width (target_width s) min_batch max_batch)
    (u64_add (epochs_sealed s) 1).

(** The width a worker starts with. *)
Definition initial_width (p : BatchPolicy) : N :=
  N.min (N.max (policy_min_batch p) 16) (policy_max_batch p).

(** ** Commands and scripts *)

Inductive Command (S : Type) :=
| CmdIntent (staged : S)
| CmdBarrier (completed : N).
Arguments CmdIntent {S} staged.
Arguments CmdBarrier {S} completed.

Inductive Arrival (S : Type) :=
| Arrives (c : Command S)
| Quiet
| Drains.
Arguments Arrives {S} c.
Arguments Quiet {S}.
Arguments Drains {S}.

(** What collecting a batch needs of the controller: when an intent was
    enqueued; claiming it; the clock; the three gauges of the adaptive policy;
    whether to go on claiming; and the draining set by another thread. *)
Class BatchHost (S W : Type) := {
  staged_at : S → N;
  host_claim : S → W → W;
  host_now : W → N * W;
  host_probe_wait : N → W → W;
  host_oldest_age : N → W → W;
  host_target_width : N → W → W;
  host_running : W → bool;
  host_drains : W → W;
}.

Section collect.
Context {S W : Type} `{BatchHost S W, Platform}.

Record Batch := Batch_mk {
  bt_staged : list S;
  bt_oldest : N;
  bt_adaptive : AdaptiveState;
  bt_pending : list (Command S);
  bt_host : W;
}.

Definition on_host (f : W → W) (b : Batch) : Batch :=
  Batch_mk (bt_staged b) (bt_oldest b) (bt_adaptive b) (bt_pending b) (f (bt_host b)).
Definition batch_now (b : Batch) : N * Batch :=
  let '(now, w) := host_now (bt_host b) in (now, on_host (λ _, w) b).
Definition batch_len (b : Batch) : N := N.of_nat (length (bt_staged b)).

Definition batch_first (s : S) (adaptive : AdaptiveState) (pending : list (Command S)) (w : W) : Batch :=
  Batch_mk [s] (staged_at s) (observe_arrival (staged_at s) adaptive) pending (host_claim s w).

Definition batch_claim (s : S) (b : Batch) : Batch :=
  Batch_mk (bt_staged b ++ [s]) (N.min (bt_oldest b) (staged_at s))
    (observe_arrival (staged_at s) (bt_adaptive b)) (bt_pending b) (host_claim s (bt_host b)).

Definition batch_defer (completed : N) (b : Batch) : Batch :=
  Batch_mk (bt_staged b) (bt_oldest b) (bt_adaptive b) (bt_pending b ++ [CmdBarrier completed]) (bt_host b).

Definition batch_sealed (adaptive : AdaptiveState) (b : Batch) : Batch :=
  Batch_mk (bt_staged b) (bt_oldest b) adaptive (bt_pending b) (bt_host b).

(** The [while] loop on [try_recv]. *)
Fixpoint drain (width : N) (script : list (Arrival S)) (b : Batch) : list (Arrival S) * Batch :=
  if (width <=? batch_len b)%N then (script, b)
  else
    match script with
    | [] => ([], b)
    | Drains :: script' => drain width script' (on_host host_drains b)
    | Quiet :: script' => if host_running (bt_host b) then (script', b) else (script, b)
    | Arrives (CmdIntent s) :: script' =>
        if host_running (bt_host b) then drain width script' (batch_claim s b) else (script, b)
    | Arrives (CmdBarrier completed) :: script' =>
        if host_running (bt_host b) then (script', batch_defer completed b) else (script, b)
    end.

(** The [while] loop on [recv_timeout] up to the deadline. *)
Fixpoint coalesce (deadline max_batch : N) (script : list (Arrival S)) (b : Batch) :
    list (Arrival S) * Batch :=
  if (max_batch <=? batch_len b)%N then (script, b)
  else
    match script with
    | Drains :: script' => coalesce deadline max_batch script' (on_host host_drains b)
    | _ =>
        if host_running (bt_host b) then
          let '(now, b) := batch_now b in
          if (deadline <=? now)%N then (script, b)
          else
            match script with
            | Arrives (CmdIntent s) :: script' => coalesce deadline max_batch script' (batch_claim s b)
            | Arrives (CmdBarrier completed) :: script' => (script', batch_defer completed b)
            | _ => (tail script, b)
            end
        else (script, b)
    end.

(** The state changes of other threads before the receiver meets something. *)
Fixpoint settle (script : list (Arrival S)) (w : W) : list (Arrival S) * W :=
  match script with
  | Drains :: script => settle script (host_drains w)
  | _ => (script, w)
  end.

(** The wait for one more command, and the drain after it. *)
Definition probe (latency_budget predicted probe_wait : N) (script : list (Arrival S)) (b : Batch) :
    list (Arrival S) * BatchSealReason * Batch :=
  let b := on_host (host_probe_wait probe_wait) b in
  let '(script, w) := settle script (bt_host b) in
  let b := on_host (λ _, w) b in
  match script with
  | Arrives (CmdIntent s) :: script =>
      let '(script, b) := drain (target_width (bt_adaptive b)) script (batch_claim s b) in
      (script, if (target_width (bt_adaptive b) <=? batch_len b)%N then SealWidth else SealLowTraffic, b)
  | Arrives (CmdBarrier completed) :: script => (script, SealBarrier, batch_defer completed b)
  | _ =>
      (tail script, if (latency_budget / 2 <? predicted)%N then SealLowTraffic else SealSourceStalled, b)
  end.

Definition adaptive_reason (latency_budget : N) (script : list (Arrival S)) (b : Batch) :
    list (Arrival S) * BatchSealReason * Batch :=
  if (target_width (bt_adaptive b) <=? batch_len b)%N then (script, SealWidth, b)
  else
    let '(now, b) := batch_now b in
    let age := (now - bt_oldest b)%N in
    if (latency_budget <=? age)%N then (script, SealLatency, b)
    else
      let predicted := f64_as_u64 (ewma_interarrival_time_ns (bt_adaptive b)) in
      let probe_wait := N.min (N.min (N.max (predicted * 2) 10000) 250000) (latency_budget - age) in
      probe latency_budget predicted probe_wait script b.

Definition adaptive_batch (min_batch max_batch latency_budget : N) (script : list (Arrival S)) (b : Batch) :
    list (Arrival S) * BatchSealReason * Batch :=
  let '(script, b) := drain (target_width (bt_adaptive b)) script b in
  let '(script, reason, b) := adaptive_reason latency_budget script b in
  let reason := if (max_batch <=? batch_len b)%N then SealCapacity else reason in
  let '(now, b) := batch_now b in
  let b := on_host (host_oldest_age (now - bt_oldest b)) b in
  let b := batch_sealed (update_target reason (batch_len b) min_batch max_batch (bt_adaptive b)) b in
  (script, reason, on_host (host_target_width (target_width (bt_adaptive b))) b).

(** The batch past its first claim: what is left of the script, why it was sealed,
    and the batch; on the right, the host at a panic. *)
Definition collect_batch (policy : BatchPolicy) (script : list (Arrival S)) (b : Batch) :
    list (Arrival S) * BatchSealReason * Batch + W :=
  match policy with
  | ImmediateDrain max_batch =>
      let '(script, b) := drain max_batch script b in
      inl (script, if (max_batch <=? batch_len b)%N then SealCapacity else SealDrain, b)
  | Coalesce max_batch max_delay =>
      let '(now, b) := batch_now b in
      match instant_add now max_delay with
      | None => inr (bt_host b)
      | Some deadline =>
          let '(script, b) := coalesce deadline max_batch script b in
          inl (script, if (max_batch <=? batch_len b)%N then SealCapacity else SealTimeout, b)
      end
  | Adaptive min_batch max_batch latency_budget =>
      inl (adaptive_batch min_batch max_batch latency_budget script b)
  end.

(** The batch that [first] opens, from its vector on. *)
Definition form_batch (policy : BatchPolicy) (script : list (Arrival S)) (first : S) (adaptive : AdaptiveState)
    (pending : list (Command S)) (w : W) : list (Arrival S) * BatchSealReason * Batch + W :=
  if reserves (policy_max_batch policy)
  then collect_batch policy script (batch_first first adaptive pending w)
  else inr w.

(** [receiver.recv()]: [None] once the channel has no senders left. *)
Fixpoint recv (script : list (Arrival S)) (w : W) : option (Command S) * list (Arrival S) * W :=
  match script with
  | [] => (None, [], w)
  | Quiet :: script => recv script w
  | Drains :: script => recv script (host_drains w)
  | Arrives c :: script => (Some c, script, w)
  end.

(** [pending.pop_front()], else the channel. *)
Definition next_command (pending : list (Command S)) (script : list (Arrival S)) (w : W) :
    option (Command S) * list (Command S) * list (Arrival S) * W :=
  match pending with
  | c :: pending => (Some c, pending, script, w)
  | [] => let '(c, script, w) := recv script w in (c, [], script, w)
  end.
End collect.
Arguments Batch : clear implicits.

(** ** What a batch takes *)

Section facts.
Context {S W : Type} `{BatchHost S W, Platform}.
Implicit Types (script : list (Arrival S)) (b : Batch S W) (cs : list (Command S)) (w : W).

(** The commands a script delivers; their intents and their barriers. *)
Definition arrived script : list (Command S) := omap (λ a, match a with Arrives c => Some c | _ => None end) script.
Definition staged_of cs : list S := omap (λ c, match c with CmdIntent s => Some s | _ => None end) cs.
Definition barriers_of cs : list N := omap (λ c, match c with CmdBarrier n => Some n | _ => None end) cs.

Lemma staged_of_app cs1 cs2 : staged_of (cs1 ++ cs2) = staged_of cs1 ++ staged_of cs2.
Proof. apply omap_app. Qed.
Lemma barriers_of_app cs1 cs2 : barriers_of (cs1 ++ cs2) = barriers_of cs1 ++ barriers_of cs2.
Proof. apply omap_app. Qed.
Lemma barriers_of_length cs : length (barriers_of cs) ≤ length cs.
Proof. induction cs as [|[s|n] cs IH]; cbn; unfold barriers_of in *; lia. Qed.

(** The calls on the host while the intents [ss] are claimed, in order. *)
Inductive host_steps : list S → W → W → Prop :=
| hs_refl w : host_steps [] w w
| hs_claim s ss w w' : host_steps ss (host_claim s w) w' → host_steps (s :: ss) w w'
| hs_now ss w w' : host_steps ss (host_now w).2 w' → host_steps ss w w'
| hs_probe n ss w w' : host_steps ss (host_probe_wait n w) w' → host_steps ss w w'
| hs_oldest n ss w w' : host_steps ss (host_oldest_age n w) w' → host_steps ss w w'
| hs_target n ss w w' : host_steps ss (host_target_width n w) w' → host_steps ss w w'
| hs_drains ss w w' : host_steps ss (host_drains w) w' → host_steps ss w w'.

Lemma host_steps_trans ss1 ss2 w1 w2 w3 :
  host_steps ss1 w1 w2 → host_steps ss2 w2 w3 → host_steps (ss1 ++ ss2) w1 w3.
Proof. induction 1; intros; cbn; eauto using host_steps. Qed.

(** From [b] to [b'] the commands [cs] were taken: their intents claimed, their
    barriers deferred. *)
Record collects cs b b' : Prop := {
  cl_staged : bt_staged b' = bt_staged b ++ staged_of cs;
  cl_pending : bt_pending b' = bt_pending b ++ (CmdBarrier <$> barriers_of cs);
  cl_host : host_steps (staged_of cs) (bt_host b) (bt_host b');
}.

(** A call on the host only. *)
Lemma collects_host b b' :
  bt_staged b' = bt_staged b → bt_pending b' = bt_pending b → host_steps [] (bt_host b) (bt_host b') →
  collects [] b b'.
Proof. intros H1 H2 H3. split; cbn; rewrite ?app_nil_r; done. Qed.

Lemma collects_refl b : collects [] b b.
Proof. apply collects_host; [done..|constructor]. Qed.

Lemma collects_trans cs1 cs2 b1 b2 b3 :
  collects cs1 b1 b2 → collects cs2 b2 b3 → collects (cs1 ++ cs2) b1 b3.
Proof.
  intros [A1 A2 A3] [B1 B2 B3]. split.
  - by rewrite B1, A1, staged_of_app, (assoc_L (++)).
  - by rewrite B2, A2, barriers_of_app, fmap_app, (assoc_L (++)).
  - rewrite staged_of_app. by eapply host_steps_trans.
Qed.

Lemma collects_claim s b : collects [CmdIntent s] b (batch_claim s b).
Proof. split; cbn; rewrite ?app_nil_r; [done..|]. apply hs_claim, hs_refl. Qed.

Lemma collects_defer n b : collects [CmdBarrier n] b (batch_defer n b).
Proof. split; cbn; rewrite ?app_nil_r; [done..|]. apply hs_refl. Qed.

(** [taken]: moreover, the commands are those the script delivered next. *)
Definition taken script b script' b' : Prop :=
  ∃ cs, arrived script = cs ++ arrived script' ∧ length cs + length script' ≤ length script ∧ collects cs b b'.

Lemma taken_none script b b' : collects [] b b' → taken script b script b'.
Proof. intros Hc. exists []. split_and!; [done|cbn; lia|done]. Qed.

Lemma taken_trans s1 b1 s2 b2 s3 b3 : taken s1 b1 s2 b2 → taken s2 b2 s3 b3 → taken s1 b1 s3 b3.
Proof.
  intros (cs1 & E1 & L1 & C1) (cs2 & E2 & L2 & C2). exists (cs1 ++ cs2).
  rewrite E1, E2, length_app, (assoc_L (++)). split_and!; [done|lia|by eapply collects_trans].
Qed.

Lemma taken_tail script b : match script with Arrives _ :: _ => False | _ => True end →
  taken script b (tail script) b.
Proof.
  intros Ha. exists []. destruct script as [|[] script]; cbn; split_and!; try done; try lia; apply collects_refl.
Qed.

Lemma taken_arrival c script b b' : collects [c] b b' → taken (Arrives c :: script) b script b'.
Proof. intros Hc. exists [c]. split_and!; [done|cbn; lia|done]. Qed.

Lemma taken_drains script b : taken (Drains :: script) b script (on_host host_drains b).
Proof. exists []. split_and!; [done|cbn; lia|]. apply collects_host; [done..|]. apply hs_drains, hs_refl. Qed.

Lemma collects_now b : collects [] b (batch_now b).2.
Proof.
  unfold batch_now. destruct (host_now (bt_host b)) as [n w] eqn:E. apply collects_host; [done..|].
  apply hs_now. rewrite E. cbn. apply hs_refl.
Qed.

Lemma batch_now_len b : batch_len (batch_now b).2 = batch_len b.
Proof. unfold batch_now. by destruct (host_now (bt_host b)). Qed.

Lemma batch_claim_len s b : batch_len (batch_claim s b) = (batch_len b + 1)%N.
Proof. unfold batch_len. cbn. rewrite length_app. cbn. lia. Qed.

(** Both loops take what arrives next and stop at the width. *)
Lemma drain_taken width script : ∀ b, let r := drain width script b in
  taken script b r.1 r.2 ∧ (batch_len r.2 <= N.max (batch_len b) width)%N ∧
  target_width (bt_adaptive r.2) = target_width (bt_adaptive b).
Proof.
  induction script as [|a script IH]; intros b; cbn [drain];
    (destruct (N.leb_spec width (batch_len b)) as [Hw|Hw];
      [split_and!; [apply taken_none, collects_refl|cbn; lia|done]|]).
  { split_and!; [apply taken_none, collects_refl|cbn; lia|done]. }
  destruct a as [[s|n]| |].
  - destruct (host_running (bt_host b)); [|split_and!; [apply taken_none, collects_refl|cbn; lia|done]].
    destruct (IH (batch_claim s b)) as (Ht & Hl & Ha). split_and!; [|rewrite batch_claim_len in Hl; lia|done].
    eapply taken_trans; [|exact Ht]. apply taken_arrival, collects_claim.
  - destruct (host_running (bt_host b)); (split_and!; [|cbn; unfold batch_len; cbn; lia|done]);
      [apply taken_arrival, collects_defer|apply taken_none, collects_refl].
  - destruct (host_running (bt_host b)); (split_and!; [|cbn; unfold batch_len; cbn; lia|done]);
      [by apply (taken_tail (Quiet :: script))|apply taken_none, collects_refl].
  - destruct (IH (on_host host_drains b)) as (Ht & Hl & Ha). split_and!; [|exact Hl|done].
    eapply taken_trans; [|exact Ht]. apply taken_drains.
Qed.

Lemma coalesce_taken deadline width script : ∀ b, let r := coalesce deadline width script b in
  taken script b r.1 r.2 ∧ (batch_len r.2 <= N.max (batch_len b) width)%N ∧
  target_width (bt_adaptive r.2) = target_width (bt_adaptive b).
Proof.
  induction script as [|a script IH]; intros b; cbn [coalesce];
    (destruct (N.leb_spec width (batch_len b)) as [Hw|Hw];
      [split_and!; [apply taken_none, collects_refl|cbn; lia|done]|]);
    pose proof (collects_now b) as Hn; pose proof (batch_now_len b) as Hnl;
    assert (target_width (bt_adaptive (batch_now b).2) = target_width (bt_adaptive b)) as Hna
      by (unfold batch_now; by destruct (host_now (bt_host b)));
    destruct (batch_now b) as [now b1]; cbn [snd] in Hn, Hnl, Hna.
  { repeat case_match; (split_and!; [|cbn; lia|done]);
      first [by apply taken_none|apply taken_none, collects_refl]. }
  destruct a as [[s|n]| |]; [| | |destruct (IH (on_host host_drains b)) as (Ht & Hl & Ha); split_and!; [|exact Hl|done];
    eapply taken_trans; [apply taken_drains|exact Ht]].
  all: destruct (host_running (bt_host b)); [|split_and!; [apply taken_none, collects_refl|cbn; lia|done]].
  all: destruct (deadline <=? now)%N; [split_and!; [by apply taken_none|cbn; lia|done]|].
  - destruct (IH (batch_claim s b1)) as (Ht & Hl & Ha). split_and!; [|rewrite batch_claim_len in Hl; lia|by rewrite Ha].
    eapply taken_trans; [by apply taken_none|]. eapply taken_trans; [|exact Ht].
    apply taken_arrival, collects_claim.
  - split_and!; [|cbn; unfold batch_len in *; cbn in *; lia|done]. eapply taken_trans; [by apply taken_none|].
    apply taken_arrival, collects_defer.
  - split_and!; [|cbn; lia|done]. eapply taken_trans; [by apply taken_none|].
    by apply (taken_tail (Quiet :: script)).
Qed.

Lemma settle_taken script : ∀ b, let r := settle script (bt_host b) in
  taken script b r.1 (on_host (λ _, r.2) b).
Proof.
  induction script as [|a script IH]; intros b; cbn [settle].
  { apply taken_none, collects_host; [done..|]. cbn. apply hs_refl. }
  destruct a as [c| |]; [apply taken_none, collects_host; [done..|cbn; apply hs_refl]| |].
  { apply taken_none, collects_host; [done..|]. cbn. apply hs_refl. }
  eapply taken_trans; [apply taken_drains|]. apply (IH (on_host host_drains b)).
Qed.

Lemma probe_taken budget predicted wait script b : let r := probe budget predicted wait script b in
  taken script b r.1.1 r.2 ∧ target_width (bt_adaptive r.2) = target_width (bt_adaptive b) ∧
  (batch_len b < target_width (bt_adaptive b) → batch_len r.2 <= target_width (bt_adaptive b))%N.
Proof.
  unfold probe. set (b1 := on_host (host_probe_wait wait) b).
  assert (taken script b script b1) as H1.
  { apply taken_none, collects_host; [done..|]. apply (hs_probe wait), hs_refl. }
  pose proof (settle_taken script b1) as H2. destruct (settle script (bt_host b1)) as [script1 w].
  cbn [fst snd] in H2. set (b2 := on_host (λ _, w) b1) in *.
  pose proof (taken_trans _ _ _ _ _ _ H1 H2) as H3.
  destruct script1 as [|[[s|n]| |] script1]; cbn [fst snd tail].
  - split_and!; [done|done|]. change (batch_len b2) with (batch_len b). lia.
  - pose proof (drain_taken (target_width (bt_adaptive (batch_claim s b2))) script1 (batch_claim s b2)) as Hd.
    change (target_width (bt_adaptive (batch_claim s b2))) with (target_width (bt_adaptive b)) in *.
    destruct (drain _ _ _) as [script2 b3]; cbn [fst snd] in Hd |- *. destruct Hd as (Ht & Hl & Ha).
    rewrite batch_claim_len in Hl. change (batch_len b2) with (batch_len b) in Hl.
    split_and!; [|exact Ha|intros; lia].
    eapply taken_trans; [exact H3|]. eapply taken_trans; [|exact Ht]. apply taken_arrival, collects_claim.
  - split_and!; [|done|change (batch_len (batch_defer n b2)) with (batch_len b); lia].
    eapply taken_trans; [exact H3|]. apply taken_arrival, collects_defer.
  - split_and!; [|done|change (batch_len b2) with (batch_len b); lia].
    eapply taken_trans; [exact H3|]. by apply (taken_tail (Quiet :: script1)).
  - split_and!; [|done|change (batch_len b2) with (batch_len b); lia].
    eapply taken_trans; [exact H3|]. by apply (taken_tail (Drains :: script1)).
Qed.

Lemma adaptive_reason_taken budget script b : let r := adaptive_reason budget script b in
  taken script b r.1.1 r.2 ∧ target_width (bt_adaptive r.2) = target_width (bt_adaptive b) ∧
  (batch_len r.2 <= N.max (batch_len b) (target_width (bt_adaptive b)))%N.
Proof.
  unfold adaptive_reason. destruct (N.leb_spec (target_width (bt_adaptive b)) (batch_len b)).
  { split_and!; [apply taken_none, collects_refl|done|cbn; lia]. }
  pose proof (collects_now b) as Hn. pose proof (batch_now_len b) as Hnl.
  assert (target_width (bt_adaptive (batch_now b).2) = target_width (bt_adaptive b)) as Hna
    by (unfold batch_now; by destruct (host_now (bt_host b))).
  destruct (batch_now b) as [now b1]; cbn [snd] in Hn, Hnl, Hna.
  destruct (budget <=? now - bt_oldest b1)%N; [split_and!; [by apply taken_none|done|cbn; lia]|].
  edestruct probe_taken as (Ht & Ha & Hl). split_and!; [|by rewrite Ha|].
  - eapply taken_trans; [by apply taken_none|]. exact Ht.
  - rewrite Hna, Hnl in Hl. specialize (Hl ltac:(lia)). lia.
Qed.

(** ** Bounds of the adaptive policy *)

Lemma next_target_le reason achieved target min_batch max_batch :
  (min_batch <= max_batch → target <= max_batch →
   next_target reason achieved target min_batch max_batch <= max_batch)%N.
Proof.
  intros H1 H2. assert (target / 2 <= target)%N by (apply N.Div0.div_le_upper_bound; lia).
  destruct reason; cbn [next_target]; try case_match; lia.
Qed.

Lemma initial_width_le p : (initial_width p <= policy_max_batch p)%N.
Proof. unfold initial_width. lia. Qed.

(** A policy whose bounds are in order, and an adaptive state within them. *)
Definition policy_ok (p : BatchPolicy) : Prop := (1 <= policy_max_batch p ∧ policy_min_batch p <= policy_max_batch p)%N.
Definition width_ok (p : BatchPolicy) (s : AdaptiveState) : Prop := (target_width s <= policy_max_batch p)%N.

Lemma adaptive_new_ok p : width_ok p (adaptive_new (initial_width p)).
Proof. apply initial_width_le. Qed.

(** The batch takes what arrives next; with its bounds in order, a policy never
    collects more than its maximum. *)
Lemma collect_batch_taken p script b :
  match collect_batch p script b with
  | inl r => taken script b r.1.1 r.2 ∧
      (policy_ok p → width_ok p (bt_adaptive b) → batch_len b = 1%N →
       (batch_len r.2 <= policy_max_batch p)%N ∧ width_ok p (bt_adaptive r.2))
  | inr w => host_steps [] (bt_host b) w
  end.
Proof.
  destruct p as [width|width delay|low width budget]; unfold collect_batch, policy_ok, width_ok, policy_max_batch, policy_min_batch.
  - pose proof (drain_taken width script b) as Hd.
    destruct (drain width script b) as [script1 b1]; cbn [fst snd] in Hd |- *. destruct Hd as (Ht & Hl & Ha).
    split; [done|]. intros [H1 _] Hw Hb. rewrite Ha. split; [lia|done].
  - pose proof (collects_now b) as Hn. pose proof (batch_now_len b) as Hnl.
    assert (target_width (bt_adaptive (batch_now b).2) = target_width (bt_adaptive b)) as Hna
      by (unfold batch_now; by destruct (host_now (bt_host b))).
    destruct (batch_now b) as [now b0]; cbn [snd] in Hn, Hnl, Hna.
    destruct (instant_add now delay) as [deadline|]; [|apply Hn].
    pose proof (coalesce_taken deadline width script b0) as Hd.
    destruct (coalesce _ _ _ _) as [script1 b1]; cbn [fst snd] in Hd |- *. destruct Hd as (Ht & Hl & Ha).
    split; [eapply taken_trans; [by apply taken_none|exact Ht]|].
    intros [H1 _] Hw Hb. rewrite Ha, Hna. split; [lia|done].
  - unfold adaptive_batch. pose proof (drain_taken (target_width (bt_adaptive b)) script b) as Hd.
    destruct (drain _ _ _) as [script1 b1]; cbn [fst snd] in Hd |- *. destruct Hd as (Ht & Hl & Ha).
    pose proof (adaptive_reason_taken budget script1 b1) as Hr.
    destruct (adaptive_reason _ _ _) as [[script2 reason] b2]; cbn [fst snd] in Hr |- *. destruct Hr as (Ht2 & Ha2 & Hl2).
    pose proof (collects_now b2) as Hn. pose proof (batch_now_len b2) as Hnl.
    assert (target_width (bt_adaptive (batch_now b2).2) = target_width (bt_adaptive b2)) as Hna
      by (unfold batch_now; by destruct (host_now (bt_host b2))).
    destruct (batch_now b2) as [now b3]; cbn [fst snd] in Hn, Hnl, Hna |- *. split.
    + eapply taken_trans; [exact Ht|]. eapply taken_trans; [exact Ht2|].
      eapply taken_trans; [by apply taken_none|]. apply taken_none, collects_host; [done..|]. cbn.
      eapply hs_oldest, hs_target, hs_refl.
    + intros [H1 H2] Hw Hb. cbn. unfold batch_len in *. cbn in *. split; [lia|].
      apply next_target_le; lia.
Qed.

(** Every command leaves the queue of a worker after this many rounds. *)
Definition worker_measure (pending : list (Command S)) script : nat := 2 * length script + length pending.

Lemma taken_measure script b script' b' : taken script b script' b' →
  worker_measure (bt_pending b') script' ≤ worker_measure (bt_pending b) script.
Proof.
  intros (cs & _ & Hl & [_ Hp _]). unfold worker_measure. rewrite Hp, length_app, length_fmap.
  pose proof (barriers_of_length cs). lia.
Qed.

(** The batch that [first] opens takes it and what arrives next; if it panics,
    nothing was taken besides [first], which was claimed or not. *)
Lemma form_batch_taken p script first adaptive pending w :
  match form_batch p script first adaptive pending w with
  | inl r => ∃ cs, arrived script = cs ++ arrived r.1.1 ∧ bt_staged r.2 = first :: staged_of cs ∧
      bt_pending r.2 = pending ++ (CmdBarrier <$> barriers_of cs) ∧
      worker_measure (bt_pending r.2) r.1.1 ≤ worker_measure pending script ∧
      host_steps (first :: staged_of cs) w (bt_host r.2) ∧
      (policy_ok p → width_ok p adaptive →
       (N.of_nat (length (bt_staged r.2)) <= policy_max_batch p)%N ∧ width_ok p (bt_adaptive r.2))
  | inr w' => ∃ ss, ss `prefix_of` [first] ∧ host_steps ss w w'
  end.
Proof.
  unfold form_batch. destruct (reserves _); [|exists []; split; [apply prefix_nil|apply hs_refl]].
  pose proof (collect_batch_taken p script (batch_first first adaptive pending w)) as Hc.
  destruct (collect_batch _ _ _) as [[[script' reason] b']|w']; cbn [fst snd] in *.
  - destruct Hc as [Ht Hw]. pose proof (taken_measure _ _ _ _ Ht) as Hm. destruct Ht as (cs & E & _ & [Hs Hp Hh]).
    exists cs. split_and!; [done|exact Hs|exact Hp|exact Hm|by apply (hs_claim first)|].
    intros H1 H2. by apply Hw.
  - exists [first]. split; [done|by apply (hs_claim first)].
Qed.

(** A policy whose batches can be opened at every reading of a clock. *)
Definition always_forms p (clock : nat → N) : Prop :=
  reserves (policy_max_batch p) = true ∧
  match p with Coalesce _ delay => ∀ i, (clock i + delay <= max_instant)%N | _ => True end.

Lemma form_batch_forms p script first adaptive pending w clock i :
  always_forms p clock → (host_now (host_claim first w)).1 = clock i →
  ∃ r, form_batch p script first adaptive pending w = inl r.
Proof.
  intros [Hr Hp] Hi. unfold form_batch, collect_batch. rewrite Hr. destruct p as [width|width delay|low width budget].
  - destruct (drain _ _ _). eauto.
  - unfold batch_now. cbn [bt_host batch_first]. destruct (host_now (host_claim first w)) as [now w']. cbn [fst] in Hi. subst now.
    specialize (Hp i). apply N.leb_le in Hp. unfold instant_add. rewrite Hp. destruct (coalesce _ _ _ _). eauto.
  - eauto.
Qed.

(** ** The loop of a worker *)

Lemma recv_arrived script w : let r := recv script w in
  match r.1.1 with
  | Some c => arrived script = c :: arrived r.1.2 ∧ length r.1.2 < length script
  | None => arrived script = [] ∧ r.1.2 = []
  end.
Proof.
  revert w. induction script as [|[c| |] script IH]; intros w; cbn; [done|by split; [|lia]| |].
  - specialize (IH w). cbv zeta in IH. destruct (recv script w) as [[[c|] s1] w1]; cbn in *; naive_solver lia.
  - specialize (IH (host_drains w)). cbv zeta in IH.
    destruct (recv script (host_drains w)) as [[[c|] s1] w1]; cbn in *; naive_solver lia.
Qed.

Lemma recv_host script w : host_steps [] w (recv script w).2.
Proof.
  revert w. induction script as [|[c| |] script IH]; intros w; cbn; try apply hs_refl; [apply IH|].
  apply hs_drains, IH.
Qed.

Lemma next_command_arrived pending script w : let r := next_command pending script w in
  match r.1.1.1 with
  | Some c => pending ++ arrived script = c :: r.1.1.2 ++ arrived r.1.2 ∧
      worker_measure r.1.1.2 r.1.2 < worker_measure pending script
  | None => pending = [] ∧ r.1.1.2 = [] ∧ arrived script = [] ∧ r.1.2 = []
  end ∧ host_steps [] w r.2 ∧ (pending = [] ∨ r.1.1.2 = tail pending ∧ r.2 = w ∧ r.1.2 = script) ∧
  (pending = [] → r.1.1.2 = []).
Proof.
  unfold next_command. destruct pending as [|c pending].
  - pose proof (recv_arrived script w) as Hr. pose proof (recv_host script w) as Hh.
    destruct (recv script w) as [[[c|] s1] w1]; cbn in *; split_and!; try done; try naive_solver; unfold worker_measure;
      cbn; naive_solver lia.
  - cbn. split_and!; [done|unfold worker_measure; cbn; lia|apply hs_refl|by right|done].
Qed.
End facts.
