(* ===== verification/QueuedController.v ===== *)
(** The in-memory queued controller (forthdb-world/src/queued_controller.rs):
    tickets, counters, admission through a bounded channel, and the worker that
    commits one mixed epoch per batch.

    Batching.v says how the worker is driven.  The sender of an answer and the
    lifecycle of a ticket are the number of the ticket; whether a ticket is still
    waited for when its answer is sent is a function of that number.  The text of
    a candidate error is the error. *)
From Stdlib Require Import NArith ZArith Lia.
From stdpp Require Import base gmap list strings option.
From S2P Require Import Prelude Ord Terms Bytes Query QueryFacts Spec Index Kernel Frames.
From S2P Require Import VmProjection Worlds Intents Epochs StackVm VmEpochs Parser Isa Ast MixedEpochs Batching.

(** ** Tickets *)

Inductive TicketPhase := PhaseQueued | PhaseClaimed | PhaseResolved.
Record TicketState := TicketState_mk { phase : TicketPhase; abandoned : bool }.

Definition lifecycle_new : TicketState := TicketState_mk PhaseQueued false.
Definition lifecycle_claim (s : TicketState) : TicketState := TicketState_mk PhaseClaimed (abandoned s).
Definition lifecycle_resolve (s : TicketState) : TicketState := TicketState_mk PhaseResolved (abandoned s).
(** The swap: whether this call abandoned the ticket. *)
Definition lifecycle_abandon (s : TicketState) : bool * TicketState :=
  (negb (abandoned s), TicketState_mk (phase s) true).

Inductive TicketRejection :=
| TicketWorldPrecondition (expected actual : WorldId)
| TicketSlotPrecondition (slot : SlotId) (expected actual : option Fact)
| TicketUnknownTemporaryEntity (t : TempEntity)
| TicketCandidate (error : CandidateError)
| TicketValidation (message : string).

Definition from_intent_rejection (e : IntentRejection) : TicketRejection :=
  match e with
  | WorldPrecondition expected actual => TicketWorldPrecondition expected actual
  | SlotPrecondition slot expected actual => TicketSlotPrecondition slot expected actual
  | UnknownTemporaryEntity t => TicketUnknownTemporaryEntity t
  | IntentCandidate error => TicketCandidate error
  | IntentValidation message => TicketValidation message
  end.

(** ** Counters *)

(** The [AtomicU64] fields of [ControllerMetricsInner]. *)
Inductive QueuedCounter :=
| QSubmitted | QBackpressured | QClaimed | QAccepted | QRejected | QEpochs | QAbandonedTickets
| QCompletionDeliveryFailures | QQueueDepth | QMaximumQueueDepth | QInFlight
| QSealedBy (reason : BatchSealReason)
| QMaximumTargetWidth | QTotalAdaptiveProbeWaitNs | QMaximumOldestAgeAtSealNs.

#[export] Instance BatchSealReason_eq_dec : EqDecision BatchSealReason.
Proof. solve_decision. Defined.
#[export] Instance QueuedCounter_eq_dec : EqDecision QueuedCounter.
Proof. solve_decision. Defined.

Section queued.
Context {D P : Type} `{Kernel D, MappedRoot P, MappedVocabulary P, Platform}.

Inductive TicketOutcome :=
| TicketAccepted (world : World D P) (entities : gmap TempEntity EntityId)
| TicketRejected (r : TicketRejection).

Definition from_epoch_outcome (o : EpochOutcome D P) : TicketOutcome :=
  match o with
  | EpochAccepted a => TicketAccepted (ai_world a) (ai_entities a)
  | EpochRejected r => TicketRejected (from_intent_rejection (ri_error r))
  end.

Inductive SemanticTicketOutcome :=
| SemanticTicketAccepted (world : World D P) (bindings : SemanticBindings)
| SemanticTicketRejected (r : SemanticRejection).

(** What a completion channel or a barrier is sent. *)
Inductive Answer :=
| AnswerQueued (ticket : N) (o : TicketOutcome)
| AnswerSemantic (ticket : N) (o : SemanticTicketOutcome)
| AnswerBarrier (completed : N).

(** What the threads share, with the environment's answers: the clock and
    whether a ticket's receiver is still there. *)
Record QueuedHost := QueuedHost_mk {
  qh_counters : atomics QueuedCounter;
  qh_worker_alive : bool;
  qh_tickets : gmap N TicketState;
  qh_next_ticket : N;
  qh_answers : list Answer;
  qh_clock : nat → N;
  qh_reads : nat;
  qh_waiting : N → bool;
}.

Definition on_counters (f : atomics QueuedCounter → atomics QueuedCounter) (h : QueuedHost) : QueuedHost :=
  QueuedHost_mk (f (qh_counters h)) (qh_worker_alive h) (qh_tickets h) (qh_next_ticket h) (qh_answers h)
    (qh_clock h) (qh_reads h) (qh_waiting h).
Definition count (k : QueuedCounter) : QueuedHost → QueuedHost := on_counters (fetch_add k 1).
Definition set_alive (alive : bool) (h : QueuedHost) : QueuedHost :=
  QueuedHost_mk (qh_counters h) alive (qh_tickets h) (qh_next_ticket h) (qh_answers h)
    (qh_clock h) (qh_reads h) (qh_waiting h).
Definition on_ticket (t : N) (f : TicketState → TicketState) (h : QueuedHost) : QueuedHost :=
  QueuedHost_mk (qh_counters h) (qh_worker_alive h) (alter f t (qh_tickets h)) (qh_next_ticket h)
    (qh_answers h) (qh_clock h) (qh_reads h) (qh_waiting h).
Definition log_answer (a : Answer) (h : QueuedHost) : QueuedHost :=
  QueuedHost_mk (qh_counters h) (qh_worker_alive h) (qh_tickets h) (qh_next_ticket h)
    (qh_answers h ++ [a]) (qh_clock h) (qh_reads h) (qh_waiting h).

(** [Instant::now()]. *)
Definition instant_now (h : QueuedHost) : N * QueuedHost :=
  (qh_clock h (qh_reads h),
   QueuedHost_mk (qh_counters h) (qh_worker_alive h) (qh_tickets h) (qh_next_ticket h) (qh_answers h)
     (qh_clock h) (S (qh_reads h)) (qh_waiting h)).

(** [reserve_ingress], run without interference; QueuedProps.v has its steps. *)
Definition reserve_ingress (capacity : N) (h : QueuedHost) : option N * QueuedHost :=
  let current := qh_counters h QQueueDepth in
  if (capacity <=? current)%N then (None, h)
  else (Some (current + 1)%N, on_counters (store_at QQueueDepth (current + 1)) h).

Definition release_ingress : QueuedHost → QueuedHost := on_counters (fetch_sub QQueueDepth 1).
Definition observe_queue_depth (depth : N) : QueuedHost → QueuedHost :=
  on_counters (raise_to QMaximumQueueDepth depth).
Definition record_seal_reason (reason : BatchSealReason) : QueuedHost → QueuedHost := count (QSealedBy reason).
Definition record_max_target_width (width : N) : QueuedHost → QueuedHost :=
  on_counters (raise_to QMaximumTargetWidth width).
Definition record_oldest_age_at_seal (age : N) : QueuedHost → QueuedHost :=
  on_counters (raise_to QMaximumOldestAgeAtSealNs (u64_wrap age)).

(** ** Staging *)

Inductive CompletionRoute :=
| RouteQueued (sender : N)
| RouteSemantic (sender : N).

Record StagedIntent := StagedIntent_mk {
  staged_intent : ControllerIntent;
  staged_completion : CompletionRoute;
  staged_lifecycle : N;
  staged_enqueued_at : N;
}.

(** [claim], less the push into the batch. *)
Definition claim (staged : StagedIntent) (h : QueuedHost) : QueuedHost :=
  on_ticket (staged_lifecycle staged) lifecycle_claim (count QClaimed (release_ingress h)).

#[export] Instance queued_host : BatchHost StagedIntent QueuedHost := {
  staged_at := staged_enqueued_at;
  host_claim := claim;
  host_now := instant_now;
  host_probe_wait n := on_counters (fetch_add QTotalAdaptiveProbeWaitNs (u64_wrap n));
  host_oldest_age := record_oldest_age_at_seal;
  host_target_width := record_max_target_width;
  host_running _ := true;
  host_drains h := h;
}.

(** ** One batch *)

(** [tx.send(out)], counted when the ticket is gone. *)
Definition send_answer (sender : N) (a : Answer) (h : QueuedHost) : QueuedHost :=
  let h := log_answer a h in
  if qh_waiting h sender then h else count QCompletionDeliveryFailures h.

(** One round of the delivery loop; [None] is the routing mismatch. *)
Definition deliver_outcome (completion : CompletionRoute) (lifecycle : N) (o : MixedEpochOutcome D P)
    (h : QueuedHost) : option QueuedHost :=
  '(accepted, h) ← match completion, o with
    | RouteQueued tx, QueuedAccepted a =>
        Some (true, send_answer tx (AnswerQueued tx (TicketAccepted (ai_world a) (ai_entities a))) h)
    | RouteQueued tx, QueuedRejected r =>
        Some (false, send_answer tx (AnswerQueued tx (TicketRejected (from_intent_rejection (ri_error r)))) h)
    | RouteSemantic tx, SemanticAccepted a =>
        Some (true, send_answer tx (AnswerSemantic tx (SemanticTicketAccepted (asi_world a) (asi_bindings a))) h)
    | RouteSemantic tx, SemanticRejected r =>
        Some (false, send_answer tx (AnswerSemantic tx (SemanticTicketRejected (rsi_error r))) h)
    | _, _ => None
    end;
  Some (on_ticket lifecycle lifecycle_resolve (count (if accepted : bool then QAccepted else QRejected) h)).

Fixpoint deliver_outcomes (routes : list (CompletionRoute * N)) (outcomes : list (MixedEpochOutcome D P))
    (h : QueuedHost) : option QueuedHost :=
  match routes, outcomes with
  | (completion, lifecycle) :: routes, o :: outcomes =>
      h ← deliver_outcome completion lifecycle o h;
      deliver_outcomes routes outcomes h
  | _, _ => Some h
  end.

(** [process_batch]: [false] when it panics. *)
Definition process_batch (db : Database D P MemoryCommitStore) (batch : list StagedIntent)
    (m : VmEpochMaterializer P) (h : QueuedHost) :
    bool * Database D P MemoryCommitStore * VmEpochMaterializer P * QueuedHost :=
  let h := on_counters (store_at QInFlight (N.of_nat (length batch))) h in
  let routes := (λ s, (staged_completion s, staged_lifecycle s)) <$> batch in
  match commit_mixed_epoch db (staged_intent <$> batch) m with
  | (Ok plan, db, m) =>
      match deliver_outcomes routes (mp_outcomes plan) h with
      | Some h => (true, db, m, on_counters (store_at QInFlight 0) (count QEpochs h))
      | None => (false, db, m, h)
      end
  | (_, db, m) => (false, db, m, h)
  end.

(** ** The worker *)

Record QueuedWorker := QueuedWorker_mk {
  qw_database : Database D P MemoryCommitStore;
  qw_materializer : VmEpochMaterializer P;
  qw_adaptive : AdaptiveState;
  qw_pending : list (Command StagedIntent);
  qw_script : list (Arrival StagedIntent);
  qw_host : QueuedHost;
}.

(** How a round ends: the loop goes on, breaks, or the thread unwinds. *)
Inductive Round := Continues (w : QueuedWorker) | Breaks (w : QueuedWorker) | Unwinds (w : QueuedWorker).

Definition worker_round (policy : BatchPolicy) (w : QueuedWorker) : Round :=
  let '(command, pending, script, h) := next_command (qw_pending w) (qw_script w) (qw_host w) in
  match command with
  | None => Breaks (QueuedWorker_mk (qw_database w) (qw_materializer w) (qw_adaptive w) pending script h)
  | Some (CmdIntent first) =>
      match form_batch policy script first (qw_adaptive w) pending h with
      | inr h => Unwinds (QueuedWorker_mk (qw_database w) (qw_materializer w) (qw_adaptive w) pending script h)
      | inl (script, reason, b) =>
          let h := record_seal_reason reason (bt_host b) in
          let '(ok, db, m, h) := process_batch (qw_database w) (bt_staged b) (qw_materializer w) h in
          (if ok : bool then Continues else Unwinds)
            (QueuedWorker_mk db m (bt_adaptive b) (bt_pending b) script h)
      end
  | Some (CmdBarrier completed) =>
      Continues (QueuedWorker_mk (qw_database w) (qw_materializer w) (qw_adaptive w) pending script
        (log_answer (AnswerBarrier completed) (record_seal_reason SealBarrier h)))
  end.

Definition with_host (f : QueuedHost → QueuedHost) (w : QueuedWorker) : QueuedWorker :=
  QueuedWorker_mk (qw_database w) (qw_materializer w) (qw_adaptive w) (qw_pending w) (qw_script w) (f (qw_host w)).

(** The loop, with the drop of [WorkerLiveness] at its end: whether it broke, and
    the worker; [None] when the fuel runs out. *)
Fixpoint worker_loop (fuel : nat) (policy : BatchPolicy) (w : QueuedWorker) : option (bool * QueuedWorker) :=
  match fuel with
  | 0 => None
  | S fuel =>
      match worker_round policy w with
      | Continues w => worker_loop fuel policy w
      | Breaks w => Some (true, with_host (set_alive false) w)
      | Unwinds w => Some (false, with_host (set_alive false) w)
      end
  end.

Definition worker_start (policy : BatchPolicy) (db : Database D P MemoryCommitStore)
    (script : list (Arrival StagedIntent)) (h : QueuedHost) : QueuedWorker :=
  QueuedWorker_mk db (materializer_new 1) (adaptive_new (initial_width policy)) [] script h.

Definition run_worker (policy : BatchPolicy) (db : Database D P MemoryCommitStore)
    (script : list (Arrival StagedIntent)) (h : QueuedHost) : option (bool * QueuedWorker) :=
  worker_loop (S (worker_measure [] script)) policy (worker_start policy db script h).
End queued.
Arguments TicketOutcome : clear implicits.
Arguments SemanticTicketOutcome : clear implicits.
Arguments Answer : clear implicits.
Arguments QueuedHost : clear implicits.
Arguments QueuedWorker : clear implicits.

(** ** The controller *)

Inductive ControllerConfigError := ZeroCapacity | ZeroBatchSize | SpawnFailed.
Inductive SubmitError (A : Type) := SubmitFull (returned : A) | SubmitClosed (returned : A).
Arguments SubmitFull {A} _.
Arguments SubmitClosed {A} _.

Section controller.
Context {D P : Type} `{Kernel D, MappedRoot P, MappedVocabulary P}.

(** The channel is the queue of the sender ([None] once dropped) and whether the
    worker still holds the receiver. *)
Record QueuedIntentController := QueuedIntentController_mk {
  qc_sender : option (list (Command StagedIntent));
  qc_receiving : bool;
  qc_capacity : N;
  qc_policy : BatchPolicy;
  qc_host : QueuedHost D P;
}.

Definition on_shared (f : QueuedHost D P → QueuedHost D P) (c : QueuedIntentController) : QueuedIntentController :=
  QueuedIntentController_mk (qc_sender c) (qc_receiving c) (qc_capacity c) (qc_policy c) (f (qc_host c)).
Definition set_queue (queue : list (Command StagedIntent)) (c : QueuedIntentController) : QueuedIntentController :=
  QueuedIntentController_mk (Some queue) (qc_receiving c) (qc_capacity c) (qc_policy c) (qc_host c).

(** [new]; [spawned] is whether the thread started. *)
Definition controller_new (capacity : N) (policy : BatchPolicy) (spawned : bool) (h : QueuedHost D P) :
    outcome ControllerConfigError QueuedIntentController :=
  if (capacity =? 0)%N then Err ZeroCapacity
  else if (policy_max_batch policy =? 0)%N then Err ZeroBatchSize
  else if spawned then
    Ok (QueuedIntentController_mk (Some []) true capacity policy
          (set_alive true (on_counters (λ _, zeroed) h)))
  else Err SpawnFailed.

(** [SyncSender::try_send]. *)
Inductive TrySend := Sent | TrySendFull | TrySendDisconnected.
Definition try_send (queue : list (Command StagedIntent)) (c : QueuedIntentController) : TrySend :=
  if qc_receiving c
  then if (N.of_nat (length queue) <? qc_capacity c)%N then Sent else TrySendFull
  else TrySendDisconnected.

(** [submit] and [submit_semantic], up to their next access to what other threads
    touch: before the load of the depth; before the exchange with the depth read;
    reserved; staged; announced; and, when the channel refused, before the
    release and before the retraction. *)
Inductive SubmitPc :=
| SubLoad (intent : ControllerIntent)
| SubExchange (intent : ControllerIntent) (current : N)
| SubReserved (intent : ControllerIntent) (depth : N)
| SubStaged (staged : StagedIntent)
| SubAnnounced (staged : StagedIntent)
| SubRelease (staged : StagedIntent) (full : bool)
| SubRetract (staged : StagedIntent) (full : bool)
| SubReturn (r : outcome (SubmitError ControllerIntent) N).

Definition route_of (intent : ControllerIntent) (ticket : N) : CompletionRoute :=
  match intent with QueuedCI _ => RouteQueued ticket | SemanticCI _ => RouteSemantic ticket end.

Definition new_ticket (h : QueuedHost D P) : N * QueuedHost D P :=
  (qh_next_ticket h,
   QueuedHost_mk (qh_counters h) (qh_worker_alive h) (<[qh_next_ticket h := lifecycle_new]> (qh_tickets h))
     (u64_add (qh_next_ticket h) 1) (qh_answers h) (qh_clock h) (qh_reads h) (qh_waiting h)).

(** One step of a call; [spurious] is whether a weak exchange fails for no
    reason. *)
Definition submit_step (spurious : bool) (pc : SubmitPc) (c : QueuedIntentController) :
    SubmitPc * QueuedIntentController :=
  match pc with
  | SubLoad intent =>
      match qc_sender c with
      | None => (SubReturn (Err (SubmitClosed intent)), c)
      | Some _ => (SubExchange intent (qh_counters (qc_host c) QQueueDepth), c)
      end
  | SubExchange intent current =>
      if (qc_capacity c <=? current)%N
      then (SubReturn (Err (SubmitFull intent)), on_shared (count QBackpressured) c)
      else
        let actual := qh_counters (qc_host c) QQueueDepth in
        if (actual =? current)%N && negb spurious
        then (SubReserved intent (current + 1),
              on_shared (on_counters (store_at QQueueDepth (current + 1))) c)
        else (SubExchange intent actual, c)
  | SubReserved intent depth =>
      let h := observe_queue_depth depth (qc_host c) in
      let '(ticket, h) := new_ticket h in
      let '(now, h) := instant_now h in
      (SubStaged (StagedIntent_mk intent (route_of intent ticket) ticket now),
       on_shared (λ _, count QSubmitted h) c)
  | SubStaged staged => (SubAnnounced staged, on_shared (count QInFlight) c)
  | SubAnnounced staged =>
      match qc_sender c with
      | None => (SubRelease staged false, c)
      | Some queue =>
          match try_send queue c with
          | Sent => (SubReturn (Ok (staged_lifecycle staged)), set_queue (queue ++ [CmdIntent staged]) c)
          | TrySendFull => (SubRelease staged true, c)
          | TrySendDisconnected => (SubRelease staged false, c)
          end
      end
  | SubRelease staged full => (SubRetract staged full, on_shared release_ingress c)
  | SubRetract staged full =>
      let c := on_shared (on_counters (fetch_sub QInFlight 1)) c in
      if full
      then (SubReturn (Err (SubmitFull (staged_intent staged))), on_shared (count QBackpressured) c)
      else (SubReturn (Err (SubmitClosed (staged_intent staged))), c)
  | SubReturn r => (SubReturn r, c)
  end.

(** A call that runs alone, of at most seven steps. *)
Fixpoint submit_run (n : nat) (pc : SubmitPc) (c : QueuedIntentController) :
    outcome (SubmitError ControllerIntent) N * QueuedIntentController :=
  match pc, n with
  | SubReturn r, _ => (r, c)
  | _, 0 => (Panic, c)
  | _, S n => let '(pc, c) := submit_step false pc c in submit_run n pc c
  end.

(** [let ControllerIntent::Queued(intent) = .. else unreachable!()]. *)
Definition as_queued (e : SubmitError ControllerIntent) : outcome (SubmitError QueuedIntent) N :=
  match e with
  | SubmitFull (QueuedCI i) => Err (SubmitFull i)
  | SubmitClosed (QueuedCI i) => Err (SubmitClosed i)
  | _ => Panic
  end.
Definition as_semantic (e : SubmitError ControllerIntent) : outcome (SubmitError SemanticIntent) N :=
  match e with
  | SubmitFull (SemanticCI i) => Err (SubmitFull i)
  | SubmitClosed (SemanticCI i) => Err (SubmitClosed i)
  | _ => Panic
  end.

Definition submit (intent : QueuedIntent) (c : QueuedIntentController) :
    outcome (SubmitError QueuedIntent) N * QueuedIntentController :=
  match submit_run 7 (SubLoad (QueuedCI intent)) c with
  | (Ok ticket, c) => (Ok ticket, c)
  | (Err e, c) => (as_queued e, c)
  | (Panic, c) => (Panic, c)
  end.

Definition submit_semantic (intent : SemanticIntent) (c : QueuedIntentController) :
    outcome (SubmitError SemanticIntent) N * QueuedIntentController :=
  match submit_run 7 (SubLoad (SemanticCI intent)) c with
  | (Ok ticket, c) => (Ok ticket, c)
  | (Err e, c) => (as_semantic e, c)
  | (Panic, c) => (Panic, c)
  end.

(** The request of [flush]; [send] waits for room, so a full queue has no step
    ([None]); a dropped sender or receiver is [ControllerStopped]. *)
Definition flush_request (completed : N) (c : QueuedIntentController) :
    option (outcome unit QueuedIntentController) :=
  match qc_sender c with
  | None => Some (Err tt)
  | Some queue =>
      match try_send queue c with
      | Sent => Some (Ok (set_queue (queue ++ [CmdBarrier completed]) c))
      | TrySendFull => None
      | TrySendDisconnected => Some (Err tt)
      end
  end.

(** [Drop]: the sender goes, and the worker is joined once it has read the rest
    of the channel. *)
Definition controller_drop (c : QueuedIntentController) : QueuedIntentController :=
  QueuedIntentController_mk None false (qc_capacity c) (qc_policy c) (qc_host c).

(** ** Waiting for a ticket *)

Definition answer_for (ticket : N) (a : Answer D P) : bool :=
  match a with
  | AnswerQueued t _ | AnswerSemantic t _ => bool_decide (t = ticket)
  | AnswerBarrier _ => false
  end.

(** Dropping a ticket whose outcome was not observed. *)
Definition drop_ticket (ticket : N) (h : QueuedHost D P) : QueuedHost D P :=
  match qh_tickets h !! ticket with
  | Some s =>
      let '(first, s) := lifecycle_abandon s in
      (if first then count QAbandonedTickets else id) (on_ticket ticket (λ _, s) h)
  | None => h
  end.

(** [wait]: the answer, or [WorkerStopped] once the sender of the ticket is gone;
    [None] while it blocks. *)
Definition wait (sender_gone : bool) (ticket : N) (h : QueuedHost D P) :
    option (outcome unit (Answer D P) * QueuedHost D P) :=
  match list_find (λ a, answer_for ticket a = true) (qh_answers h) with
  | Some (_, a) => Some (Ok a, h)
  | None => if sender_gone then Some (Err tt, drop_ticket ticket h) else None
  end.
End controller.
Arguments QueuedIntentController : clear implicits.
