(* ===== verification/QueuedProps.v ===== *)
(** The properties of the in-memory controller: its worker answers everything it
    receives, in order and once; its epochs are those of the planner on
    histories; and its admission counts every reservation. *)
From Stdlib Require Import NArith ZArith Lia.
From stdpp Require Import base gmap list strings option.
From S2P Require Import Prelude Ord Terms Bytes Query QueryFacts Spec Index Kernel Frames.
From S2P Require Import LegacyDb KernelProps VmProjection Worlds WorldFacts WorldProps Intents Epochs.
From S2P Require Import StackVm StackVmFacts StackVmTrial EpochProps VmEpochs VmVocabulary VmEpochFacts.
From S2P Require Import VmEpochProps Parser Isa Ast MixedEpochs MixedFacts MixedProps.
From S2P Require Import Batching QueuedController.

(** ** Outcomes follow their intents *)

Section kinds.
Context {D P : Type} `{Kernel D, MappedRoot P, MappedVocabulary P}.
Implicit Types (m : VmEpochMaterializer P).

Definition decided_kind (i : ControllerIntent) (o : MixedVmOutcome) : Prop :=
  match i, o with
  | QueuedCI _, (MixedQueuedAccepted _ _ | MixedQueuedRejected _) => True
  | SemanticCI _, (MixedSemanticAccepted _ _ | MixedSemanticRejected _) => True
  | _, _ => False
  end.

Definition outcome_kind (i : ControllerIntent) (o : MixedEpochOutcome D P) : Prop :=
  match i, o with
  | QueuedCI _, (QueuedAccepted _ | QueuedRejected _) => True
  | SemanticCI _, (SemanticAccepted _ | SemanticRejected _) => True
  | _, _ => False
  end.

Lemma run_queued_kind q position operations entities m r m' :
  run_queued position operations entities m = (Ok r, m') → decided_kind (QueuedCI q) r.2.
Proof. unfold run_queued. repeat case_match; intros [= <- <-]; exact I. Qed.

Lemma semantic_outcome_kind s position operations x r :
  semantic_outcome position operations x = Ok r → decided_kind (SemanticCI s) r.2.
Proof. destruct x; cbn; [destruct operations|..]; intros [= <-]; exact I. Qed.

Lemma mixed_intent_kind (base : World D P) kernel validators position p i m r m' :
  mixed_intent base kernel validators position p i m = (Ok r, m') → decided_kind i r.2.
Proof.
  destruct i as [q|s]; cbn [mixed_intent]; unfold mixed_queued, mixed_semantic.
  - repeat case_match; intros E; try discriminate E; try (by apply (run_queued_kind q) in E);
      injection E as <- _; exact I.
  - repeat case_match; intros E; injection E as E _; try discriminate E;
      first [by apply (semantic_outcome_kind s) in E|subst r; exact I].
Qed.

Lemma mixed_loop_kinds (base : World D P) kernel validators intents : ∀ position p m r m',
  mixed_loop base kernel validators position p intents m = (Ok r, m') → Forall2 decided_kind intents r.2.
Proof.
  induction intents as [|i intents IH]; intros position p m r m'; cbn [mixed_loop].
  { intros [= <- <-]. constructor. }
  unfold mbind, mat_bind, mat_get.
  destruct (mixed_intent _ _ _ _ _ i m) as [[x|e|] m1] eqn:Ei; [|done..].
  destruct (mixed_loop _ _ _ _ _ intents m1) as [[y|e|] m2] eqn:El; [|done..].
  intros [= <- <-]. cbn [snd]. constructor; [by eapply mixed_intent_kind|by eapply IH].
Qed.

Lemma mixed_published_kind (w : World D P) f i o : decided_kind i o → outcome_kind i (mixed_published w f o).
Proof. by destruct i, o. Qed.

Lemma only_rejected_kind i o (o' : MixedEpochOutcome D P) :
  mixed_only_rejected o = Some o' → decided_kind i o → outcome_kind i o'.
Proof. destruct o; cbn; intros [= <-]; by destruct i. Qed.

Lemma materialize_mixed_kinds (base : World D P) intents validators m plan m' :
  materialize_mixed base intents validators m = (Ok plan, m') → Forall2 outcome_kind intents (mp_outcomes plan).
Proof.
  unfold materialize_mixed. destruct (world_kernel base) as [[k w]|]; [|done].
  destruct (mixed_loop _ _ _ _ _ _ _) as [[[ops outs]|e|] m1] eqn:El; [|done..].
  pose proof (mixed_loop_kinds _ _ _ _ _ _ _ _ _ El) as Hk. cbn [snd] in Hk.
  destruct (decide _).
  - destruct (mapM _ outs) as [os|] eqn:Em; [|done]. intros [= <- <-]. cbn.
    apply mapM_Some in Em. clear -Hk Em. revert os Em.
    induction Hk as [|i o l os' Hi _ IH]; intros os Em; inversion Em; subst; [constructor|].
    constructor; [by eapply only_rejected_kind|by apply IH].
  - destruct (from_vm_epoch _ _ _ _ _) as [w1 f]. intros [= <- <-]. cbn.
    apply Forall2_fmap_r. eapply Forall2_impl; [|exact Hk]. intros. by apply mixed_published_kind.
Qed.

Lemma commit_mixed_kinds (db : Database D P MemoryCommitStore) intents m plan db' m' :
  commit_mixed_epoch db intents m = (Ok plan, db', m') → Forall2 outcome_kind intents (mp_outcomes plan).
Proof.
  unfold commit_mixed_epoch. destruct (synchronize_to _ m) as [[u|e|] m1]; [|done..].
  destruct (materialize_mixed _ _ _ m1) as [[plan'|e|] m2] eqn:Em; [|done..].
  intros [= <- <- <-]. by eapply materialize_mixed_kinds.
Qed.
End kinds.

(** ** Delivery *)

Section delivery.
Context {D P : Type} `{Kernel D, MappedRoot P, MappedVocabulary P}.
Implicit Types (h : QueuedHost D P) (s : StagedIntent).

(** As [submit] stages them: the route is of the kind of the intent, and leads to
    the ticket whose lifecycle it carries. *)
Definition staged_ok s : Prop := staged_completion s = route_of (staged_intent s) (staged_lifecycle s).

(** The answer to a staged intent. *)
Definition answer_of s (o : MixedEpochOutcome D P) : Answer D P :=
  let t := staged_lifecycle s in
  match o with
  | QueuedAccepted a => AnswerQueued t (TicketAccepted (ai_world a) (ai_entities a))
  | QueuedRejected r => AnswerQueued t (TicketRejected (from_intent_rejection (ri_error r)))
  | SemanticAccepted a => AnswerSemantic t (SemanticTicketAccepted (asi_world a) (asi_bindings a))
  | SemanticRejected r => AnswerSemantic t (SemanticTicketRejected (rsi_error r))
  end.

Definition outcome_accepted (o : MixedEpochOutcome D P) : bool :=
  match o with QueuedAccepted _ | SemanticAccepted _ => true | _ => false end.

(** What delivering [pairs] does to the shared state. *)
Record delivered (pairs : list (StagedIntent * MixedEpochOutcome D P)) h h' : Prop := {
  dl_answers : qh_answers h' = qh_answers h ++ ((λ p, answer_of p.1 p.2) <$> pairs);
  dl_counters k : k ≠ QAccepted → k ≠ QRejected → k ≠ QCompletionDeliveryFailures →
    qh_counters h' k = qh_counters h k;
  dl_decided : u64_add (qh_counters h' QAccepted) (qh_counters h' QRejected) =
    u64_add (u64_add (qh_counters h QAccepted) (qh_counters h QRejected)) (N.of_nat (length pairs));
  dl_resolved t st : qh_tickets h !! t = Some st → t ∈ (λ p, staged_lifecycle p.1) <$> pairs →
    qh_tickets h' !! t = Some (lifecycle_resolve st);
  dl_others t : t ∉ (λ p, staged_lifecycle p.1) <$> pairs → qh_tickets h' !! t = qh_tickets h !! t;
  dl_alive : qh_worker_alive h' = qh_worker_alive h;
  dl_clock : qh_clock h' = qh_clock h;
}.

Lemma u64_add_swap a b c : u64_add (u64_add a c) b = u64_add (u64_add a b) c.
Proof. rewrite !u64_add_assoc. f_equal. apply u64_add_comm. Qed.
Lemma u64_add_count a n : u64_add (u64_add a 1) (N.of_nat n) = u64_add a (N.of_nat (S n)).
Proof. unfold u64_add. rewrite u64_wrap_add_l. f_equal. lia. Qed.
Lemma u64_add_plus a b c : u64_add (u64_add a b) c = u64_add a (b + c).
Proof. unfold u64_add. rewrite u64_wrap_add_l. f_equal. lia. Qed.
Lemma u64_add_add_r a b : u64_add a (u64_wrap b) = u64_add a b.
Proof. apply u64_wrap_add_r. Qed.

Lemma store_at_ne {K} `{EqDecision K} (k k' : K) n (a : atomics K) : k' ≠ k → store_at k n a k' = a k'.
Proof. intros. unfold store_at. by rewrite decide_False. Qed.
Lemma store_at_eq {K} `{EqDecision K} (k : K) n (a : atomics K) : store_at k n a k = n.
Proof. unfold store_at. by rewrite decide_True. Qed.

Lemma fetch_add_ne {K} `{EqDecision K} (k k' : K) n (a : atomics K) : k' ≠ k → fetch_add k n a k' = a k'.
Proof. apply store_at_ne. Qed.

Lemma fetch_sub_ne {K} `{EqDecision K} (k k' : K) n (a : atomics K) : k' ≠ k → fetch_sub k n a k' = a k'.
Proof. apply store_at_ne. Qed.

Lemma delivered_nil h : delivered [] h h.
Proof.
  split; intros; cbn in *; rewrite ?app_nil_r; try done; [|set_solver].
  unfold u64_add at 2. rewrite N.add_0_r. symmetry. apply u64_wrap_wrap.
Qed.

Lemma delivered_trans ps1 ps2 h1 h2 h3 :
  delivered ps1 h1 h2 → delivered ps2 h2 h3 → delivered (ps1 ++ ps2) h1 h3.
Proof.
  intros [A1 A2 A3 A4 A5 A6 A7] [B1 B2 B3 B4 B5 B6 B7]. split.
  - by rewrite B1, A1, fmap_app, (assoc_L (++)).
  - intros. by rewrite B2, A2.
  - by rewrite B3, A3, length_app, u64_add_plus, Nat2N.inj_add.
  - intros t st Ht. rewrite fmap_app, elem_of_app. intros Hin.
    destruct (decide (t ∈ (λ p, staged_lifecycle p.1) <$> ps1)) as [H1'|H1'].
    + specialize (A4 t st Ht H1'). destruct (decide (t ∈ (λ p, staged_lifecycle p.1) <$> ps2)) as [H2'|H2'].
      * by rewrite (B4 t _ A4 H2').
      * by rewrite B5.
    + destruct Hin as [Hin|Hin]; [done|]. apply B4; [|done]. by rewrite A5.
  - intros t. rewrite fmap_app, not_elem_of_app. intros [Hn1 Hn2]. by rewrite B5, A5.
  - by rewrite B6, A6.
  - by rewrite B7, A7.
Qed.

Lemma deliver_outcome_ok s o h : staged_ok s → outcome_kind (staged_intent s) o →
  ∃ h', deliver_outcome (staged_completion s) (staged_lifecycle s) o h = Some h' ∧ delivered [(s, o)] h h'.
Proof.
  intros Hs Hk. rewrite Hs. unfold deliver_outcome.
  assert (∀ (accepted : bool), delivered [(s, o)] h
    (on_ticket (staged_lifecycle s) lifecycle_resolve (count (if accepted then QAccepted else QRejected)
      (send_answer (staged_lifecycle s) (answer_of s o) h)))) as Hd.
  { intros accepted. unfold send_answer. split.
    - destruct accepted; case_match; done.
    - intros k K1 K2 K3. destruct accepted; case_match; cbn; unfold fetch_add; rewrite !store_at_ne by done; done.
    - assert (∀ a b, u64_add (u64_add a 1) b = u64_add (u64_add a b) (N.of_nat 1)) as E1
        by (intros; apply u64_add_swap).
      assert (∀ a b, u64_add a (u64_add b 1) = u64_add (u64_add a b) (N.of_nat 1)) as E2
        by (intros; by rewrite <- u64_add_assoc).
      destruct accepted; case_match; cbn [length on_ticket count on_counters log_answer qh_counters];
        unfold fetch_add; rewrite ?(store_at_ne _ QRejected), ?(store_at_ne _ QAccepted) by done;
        rewrite !store_at_eq, ?(store_at_ne _ QRejected), ?(store_at_ne _ QAccepted) by done; auto.
    - intros t st Ht Hin. cbn in Hin. apply list_elem_of_singleton in Hin as ->.
      destruct accepted; case_match; cbn; by rewrite lookup_alter_eq, Ht.
    - intros t Hin. cbn in Hin. rewrite list_elem_of_singleton in Hin.
      destruct accepted; case_match; cbn; by rewrite lookup_alter_ne.
    - destruct accepted; case_match; done.
    - destruct accepted; case_match; done. }
  unfold answer_of in Hd. destruct (staged_intent s), o; try done; cbn; eexists; (split; [done|]);
    first [apply (Hd true)|apply (Hd false)].
Qed.

Lemma deliver_outcomes_ok batch outcomes h : Forall staged_ok batch →
  Forall2 outcome_kind (staged_intent <$> batch) outcomes →
  ∃ h', deliver_outcomes ((λ s, (staged_completion s, staged_lifecycle s)) <$> batch) outcomes h = Some h' ∧
    delivered (zip batch outcomes) h h'.
Proof.
  intros Hs. revert outcomes h. induction Hs as [|s batch Hs _ IH]; intros outcomes h; cbn [fmap list_fmap].
  { intros Hk. apply Forall2_nil_inv_l in Hk as ->. exists h. split; [done|apply delivered_nil]. }
  intros (o & os & Ho & Hos & ->)%Forall2_cons_inv_l. cbn [deliver_outcomes zip zip_with].
  destruct (deliver_outcome_ok s o h Hs Ho) as (h1 & -> & H1'). cbn [mbind option_bind].
  destruct (IH os h1 Hos) as (h2 & -> & H2'). exists h2. split; [done|].
  by apply (delivered_trans [(s, o)] _ _ _ _ H1').
Qed.

Lemma zip_lifecycles batch (outcomes : list (MixedEpochOutcome D P)) : length batch = length outcomes →
  (λ p : StagedIntent * MixedEpochOutcome D P, staged_lifecycle p.1) <$> zip batch outcomes = staged_lifecycle <$> batch.
Proof.
  revert outcomes. induction batch as [|s batch IH]; intros [|o os]; cbn; intros; simplify_eq; [done|].
  f_equal. by apply IH.
Qed.

(** What serving one batch of [n] intents does to the shared state. *)
Record batch_served (batch : list StagedIntent) (outcomes : list (MixedEpochOutcome D P)) h h' : Prop := {
  bs_answers : qh_answers h' = qh_answers h ++ zip_with answer_of batch outcomes;
  bs_counters k : k ≠ QAccepted → k ≠ QRejected → k ≠ QCompletionDeliveryFailures → k ≠ QEpochs → k ≠ QInFlight →
    qh_counters h' k = qh_counters h k;
  bs_decided : u64_add (qh_counters h' QAccepted) (qh_counters h' QRejected) =
    u64_add (u64_add (qh_counters h QAccepted) (qh_counters h QRejected)) (N.of_nat (length batch));
  bs_epochs : qh_counters h' QEpochs = u64_add (qh_counters h QEpochs) 1;
  bs_in_flight : qh_counters h' QInFlight = 0%N;
  bs_resolved t st : qh_tickets h !! t = Some st → t ∈ staged_lifecycle <$> batch →
    qh_tickets h' !! t = Some (lifecycle_resolve st);
  bs_others t : t ∉ staged_lifecycle <$> batch → qh_tickets h' !! t = qh_tickets h !! t;
  bs_alive : qh_worker_alive h' = qh_worker_alive h;
  bs_clock : qh_clock h' = qh_clock h;
}.

Lemma process_batch_ok (db : Database D P MemoryCommitStore) batch m h : Forall staged_ok batch →
  let r := process_batch db batch m h in
  match commit_mixed_epoch db (staged_intent <$> batch) m with
  | (Ok plan, db', m') => r.1 = (true, db', m') ∧ batch_served batch (mp_outcomes plan) h r.2
  | (_, db', m') => r.1 = (false, db', m') ∧ qh_answers r.2 = qh_answers h
  end.
Proof.
  intros Hs. unfold process_batch.
  destruct (commit_mixed_epoch db _ m) as [[[plan|e|] db'] m'] eqn:Ec; [|done..].
  pose proof (commit_mixed_kinds _ _ _ _ _ _ Ec) as Hk.
  set (h0 := on_counters (store_at QInFlight _) h).
  destruct (deliver_outcomes_ok batch (mp_outcomes plan) h0 Hs Hk) as (h' & -> & [A1 A2 A3 A4 A5 A6 A7]).
  cbn [fst snd]. apply Forall2_length in Hk. rewrite length_fmap in Hk. rewrite (zip_lifecycles _ _ Hk) in *.
  split; [done|]. split.
  - cbn. rewrite A1. cbn. f_equal. clear. generalize (mp_outcomes plan) as os.
    induction batch as [|s batch IH]; intros [|o os]; cbn; [done..|]. f_equal. apply IH.
  - intros k K1 K2 K3 K4 K5. cbn. unfold fetch_add. rewrite !store_at_ne by done. rewrite A2 by done. cbn.
    by rewrite store_at_ne.
  - cbn. unfold fetch_add. rewrite !(store_at_ne QInFlight), !(store_at_ne QEpochs) by done. rewrite A3. cbn.
    rewrite !(store_at_ne QInFlight) by done. rewrite length_zip_with. do 2 f_equal. lia.
  - cbn. unfold fetch_add. rewrite (store_at_ne QInFlight), store_at_eq by done. rewrite A2 by done. cbn.
    by rewrite (store_at_ne QInFlight).
  - cbn. by rewrite store_at_eq.
  - intros t st Ht Hin. apply (A4 t st Ht Hin).
  - intros t Hin. apply (A5 t Hin).
  - done.
  - exact A7.
Qed.

(** What claiming and the gauges do. *)
Record batch_claimed (ss : list StagedIntent) h h' : Prop := {
  bc_answers : qh_answers h' = qh_answers h;
  bc_counters k : k ∈ [QAccepted; QRejected; QEpochs; QInFlight; QSubmitted] → qh_counters h' k = qh_counters h k;
  bc_claimed : u64_wrap (qh_counters h' QClaimed) = u64_add (qh_counters h QClaimed) (N.of_nat (length ss));
  bc_depth : u64_add (qh_counters h' QQueueDepth) (N.of_nat (length ss)) = u64_wrap (qh_counters h QQueueDepth);
  bc_in t st : qh_tickets h !! t = Some st → t ∈ staged_lifecycle <$> ss →
    qh_tickets h' !! t = Some (lifecycle_claim st);
  bc_others t : t ∉ staged_lifecycle <$> ss → qh_tickets h' !! t = qh_tickets h !! t;
  bc_alive : qh_worker_alive h' = qh_worker_alive h;
  bc_clock : qh_clock h' = qh_clock h;
}.

Lemma batch_claimed_keeps ss h h1 h' :
  qh_answers h1 = qh_answers h → qh_tickets h1 = qh_tickets h → qh_worker_alive h1 = qh_worker_alive h →
  qh_clock h1 = qh_clock h →
  (∀ k, k ∈ [QAccepted; QRejected; QEpochs; QInFlight; QSubmitted; QClaimed; QQueueDepth] →
    qh_counters h1 k = qh_counters h k) →
  batch_claimed ss h1 h' → batch_claimed ss h h'.
Proof.
  intros E1 E2 E3 E0 E4 [A1 A2 A3 A4 A5 A6 A7 A8]. split; try congruence.
  - intros k Hk. rewrite A2, E4 by set_solver. done.
  - rewrite A3, E4 by set_solver. done.
  - rewrite A4, E4 by set_solver. done.
  - rewrite <- E2. apply A5.
  - rewrite <- E2. apply A6.
Qed.

Lemma batch_claimed_seal ss h h' reason : batch_claimed ss h h' → batch_claimed ss h (record_seal_reason reason h').
Proof.
  assert (∀ k, k ∈ [QAccepted; QRejected; QEpochs; QInFlight; QSubmitted; QClaimed; QQueueDepth] →
    qh_counters (record_seal_reason reason h') k = qh_counters h' k) as Hk.
  { intros k Hk. cbn. unfold fetch_add. rewrite store_at_ne; [done|]. intros ->. set_solver. }
  intros [A1 A2 A3 A4 A5 A6 A7 A8]. split; rewrite ?Hk by set_solver; try done.
  intros k Hin. rewrite Hk by set_solver. by apply A2.
Qed.

Lemma u64_sub_count a n : u64_add (u64_sub a 1) (N.of_nat (S n)) = u64_add a (N.of_nat n).
Proof.
  rewrite Nat2N.inj_succ, <- N.add_1_l. unfold u64_add, u64_sub. rewrite u64_wrap_add_l.
  replace (a + (u64_modulus - u64_wrap 1) + (1 + N.of_nat n))%N with (a + N.of_nat n + u64_modulus)%N.
  - rewrite <- u64_wrap_add_r. replace (u64_wrap u64_modulus) with 0%N by done. by rewrite N.add_0_r.
  - rewrite (u64_wrap_small 1) by done. unfold u64_modulus. lia.
Qed.

Lemma queued_host_steps ss h h' : host_steps ss h h' → batch_claimed ss h h'.
Proof.
  induction 1 as [h|s ss h h' _ IH|ss h h' _ IH|n ss h h' _ IH|n ss h h' _ IH|n ss h h' _ IH|ss h h' _ IH].
  - split; try done; cbn; [|unfold u64_add; by rewrite N.add_0_r|set_solver].
    unfold u64_add. by rewrite N.add_0_r.
  - destruct IH as [A1 A2 A3 A4 A5 A6 A7 A8]. split; try done.
    + intros k Hk. rewrite A2 by done. cbn. unfold fetch_add, fetch_sub.
      rewrite !store_at_ne by (by intros ->; set_solver). done.
    + rewrite A3. cbn -[N.of_nat]. unfold fetch_add, fetch_sub. rewrite store_at_eq, (store_at_ne QQueueDepth) by done.
      apply u64_add_count.
    + rewrite (Nat.add_1_r (length ss)) || cbn [length].
      rewrite <- Nat.add_1_r, Nat2N.inj_add, <- u64_add_add_r.
      change (N.of_nat 1) with 1%N.
      assert (u64_add (u64_add (qh_counters h' QQueueDepth) (N.of_nat (length ss))) 1 =
        u64_add (qh_counters h' QQueueDepth) (u64_wrap (N.of_nat (length ss) + 1))) as <-.
      { rewrite u64_add_assoc. unfold u64_add at 2. done. }
      rewrite A4. cbn. unfold fetch_add, fetch_sub. rewrite (store_at_ne QClaimed), store_at_eq by done.
      unfold u64_add. rewrite u64_wrap_add_l.
      change (u64_wrap (u64_sub (qh_counters h QQueueDepth) 1 + 1)) with (u64_add (u64_sub (qh_counters h QQueueDepth) 1) 1).
      rewrite <- u64_add_sub_assoc, u64_add_sub. done.
    + intros t st Ht Hin. destruct (decide (t ∈ staged_lifecycle <$> ss)) as [Hd|Hd].
      * destruct (decide (t = staged_lifecycle s)) as [->|Hne].
        -- rewrite (A5 _ (lifecycle_claim st)); [done| |done]. cbn. by rewrite lookup_alter_eq, Ht.
        -- apply A5; [|done]. cbn. by rewrite lookup_alter_ne.
      * rewrite A6 by done. cbn in Hin. apply elem_of_cons in Hin as [->|]; [|done]. cbn.
        by rewrite lookup_alter_eq, Ht.
    + intros t Hin. cbn in Hin. apply not_elem_of_cons in Hin as [H1' H2']. rewrite A6 by done. cbn.
      by rewrite lookup_alter_ne.
  - by apply (batch_claimed_keeps ss h (instant_now h).2).
  - eapply batch_claimed_keeps; [..|exact IH]; try done. intros k Hk. cbn. unfold fetch_add.
    rewrite store_at_ne; [done|]. intros ->. set_solver.
  - eapply batch_claimed_keeps; [..|exact IH]; try done. intros k Hk. cbn. unfold raise_to.
    case_match; [|done]. rewrite store_at_ne; [done|]. intros ->. set_solver.
  - eapply batch_claimed_keeps; [..|exact IH]; try done. intros k Hk. cbn. unfold raise_to.
    case_match; [|done]. rewrite store_at_ne; [done|]. intros ->. set_solver.
  - exact IH.
Qed.
End delivery.

(** ** The specification of a worker *)

Section worker.
Context {D P : Type} `{Kernel D, MappedRoot P, MappedVocabulary P, Platform}.
Implicit Types (h : QueuedHost D P) (m : VmEpochMaterializer P) (cs : list (Command StagedIntent)).

Abbreviation MemoryDatabase := (Database D P MemoryCommitStore) (only parsing).

(** What a worker served: a batch with the plan of its epoch, or a barrier. *)
Inductive Served :=
| ServedBatch (batch : list StagedIntent) (plan : MixedEpochPlan D P)
| ServedBarrier (completed : N).

Definition served_answers (s : Served) : list (Answer D P) :=
  match s with
  | ServedBatch batch plan => zip_with answer_of batch (mp_outcomes plan)
  | ServedBarrier completed => [AnswerBarrier completed]
  end.
Definition served_intents (s : Served) : list StagedIntent :=
  match s with ServedBatch batch _ => batch | ServedBarrier _ => [] end.
Definition served_barriers (s : Served) : list N :=
  match s with ServedBatch _ _ => [] | ServedBarrier completed => [completed] end.
Definition is_batch (s : Served) : bool := match s with ServedBatch _ _ => true | _ => false end.

(** Serving commands on a database: a batch is a command's intent with those
    taken after it, past barriers too, which are then served first; each batch is
    one epoch.  [false] when an epoch cannot be committed, or a batch cannot be
    opened, which can only be if not [opens]. *)
Inductive serves (opens : Prop) : bool → MemoryDatabase → VmEpochMaterializer P → list (Command StagedIntent) → list Served →
    MemoryDatabase → VmEpochMaterializer P → Prop :=
| serves_end db m : serves opens true db m [] [] db m
| serves_barrier ok db m completed cs tr db' m' :
    serves opens ok db m cs tr db' m' →
    serves opens ok db m (CmdBarrier completed :: cs) (ServedBarrier completed :: tr) db' m'
| serves_batch ok db m first taken rest plan db1 m1 tr db' m' :
    commit_mixed_epoch db (staged_intent <$> first :: staged_of taken) m = (Ok plan, db1, m1) →
    serves opens ok db1 m1 ((CmdBarrier <$> barriers_of taken) ++ rest) tr db' m' →
    serves opens ok db m (CmdIntent first :: taken ++ rest) (ServedBatch (first :: staged_of taken) plan :: tr) db' m'
| serves_died db m first taken rest e db' m' :
    commit_mixed_epoch db (staged_intent <$> first :: staged_of taken) m = (e, db', m') →
    match e with Ok _ => False | _ => True end →
    serves opens false db m (CmdIntent first :: taken ++ rest) [] db' m'
| serves_unopened db m first rest : ¬ opens → serves opens false db m (CmdIntent first :: rest) [] db m.

Lemma staged_of_barriers ns : staged_of (CmdBarrier (S := StagedIntent) <$> ns) = [].
Proof. by induction ns. Qed.
Lemma barriers_of_barriers ns : barriers_of (CmdBarrier (S := StagedIntent) <$> ns) = ns.
Proof. induction ns; cbn; [done|]. by f_equal. Qed.

(** All intents are served, once each and in the order of arrival. *)
Lemma serves_intents opens ok db m cs tr db' m' : serves opens ok db m cs tr db' m' → ok = true →
  concat (served_intents <$> tr) = staged_of cs.
Proof.
  induction 1 as [|? ? ? ? ? ? ? ? _ IH|? ? ? first taken rest ? ? ? ? ? ? _ _ IH| |]; intros Hok; [done| | |done..].
  - apply (IH Hok).
  - cbn [fmap list_fmap concat served_intents]. rewrite (IH Hok).
    change (staged_of (CmdIntent first :: taken ++ rest)) with (first :: staged_of (taken ++ rest)).
    by rewrite !staged_of_app, staged_of_barriers.
Qed.

Lemma serves_barriers opens ok db m cs tr db' m' : serves opens ok db m cs tr db' m' → ok = true →
  concat (served_barriers <$> tr) = barriers_of cs.
Proof.
  induction 1 as [|? ? ? ? ? ? ? ? _ IH|? ? ? first taken rest ? ? ? ? ? ? _ _ IH| |]; intros Hok; [done| | |done..].
  - cbn. f_equal. apply (IH Hok).
  - cbn [fmap list_fmap concat served_barriers app]. rewrite (IH Hok).
    change (barriers_of (CmdIntent first :: taken ++ rest)) with (barriers_of (taken ++ rest)).
    by rewrite !barriers_of_app, barriers_of_barriers.
Qed.

(** A barrier is served after every intent that arrived before it. *)
Lemma serves_in_order opens ok db m cs tr db' m' : serves opens ok db m cs tr db' m' → ok = true →
  ∀ cs1 n cs2, cs = cs1 ++ CmdBarrier n :: cs2 →
  ∃ t1 t2, tr = t1 ++ ServedBarrier n :: t2 ∧ concat (served_barriers <$> t1) = barriers_of cs1 ∧
    staged_of cs1 `prefix_of` concat (served_intents <$> t1).
Proof.
  induction 1 as [|ok db m n0 cs tr db' m' _ IH|ok db m first taken rest plan db1 m1 tr db' m' _ _ IH| |];
    intros Hok cs1 n cs2 E; [by destruct cs1| | |done..].
  - destruct cs1 as [|c cs1]; [injection E as <- <-|injection E as <- E].
    + by exists [], tr.
    + destruct (IH Hok cs1 n cs2 E) as (t1 & t2 & -> & Hb & Hp). exists (ServedBarrier n0 :: t1), t2.
      split_and!; [done|cbn; by f_equal|done].
  - destruct cs1 as [|c cs1]; [done|]. injection E as <- E.
    apply app_eq_inv in E as [(k & -> & E)|(k & -> & E)].
    + destruct k as [|c k].
      * destruct (IH Hok (CmdBarrier <$> barriers_of cs1) n cs2) as (t1 & t2 & -> & Hb & Hp).
        { cbn in E. by rewrite app_nil_r, E. }
        rewrite !app_nil_r. exists (ServedBatch (first :: staged_of cs1) plan :: t1), t2.
        split_and!; [done| |].
        -- cbn. by rewrite Hb, barriers_of_barriers.
        -- cbn. apply prefix_cons. by apply prefix_app_r.
      * injection E as <- ->. rewrite barriers_of_app in IH. cbn in IH.
        destruct (IH Hok (CmdBarrier <$> barriers_of cs1) n ((CmdBarrier <$> barriers_of k) ++ rest))
          as (t1 & t2 & -> & Hb & Hp).
        { by rewrite fmap_app, <- (assoc_L (++)). }
        exists (ServedBatch (first :: staged_of (cs1 ++ CmdBarrier n :: k)) plan :: t1), t2.
        split_and!; [done| |].
        -- cbn. by rewrite Hb, barriers_of_barriers.
        -- cbn. rewrite staged_of_app. apply prefix_cons. rewrite <- (assoc_L (++)). by apply prefix_app_r.
    + destruct (IH Hok ((CmdBarrier <$> barriers_of taken) ++ k) n cs2) as (t1 & t2 & -> & Hb & Hp).
      { by rewrite E, (assoc_L (++)). }
      exists (ServedBatch (first :: staged_of taken) plan :: t1), t2.
      rewrite barriers_of_app, barriers_of_barriers in Hb. rewrite staged_of_app, staged_of_barriers in Hp.
      change (barriers_of (CmdIntent first :: taken ++ k)) with (barriers_of (taken ++ k)).
      change (staged_of (CmdIntent first :: taken ++ k)) with (first :: staged_of (taken ++ k)).
      rewrite barriers_of_app, staged_of_app. split_and!; [done|done|]. cbn. by apply prefix_cons, prefix_app.
Qed.

(** ** The accounts of a worker *)

Record accounts (tr : list Served) h h' : Prop := {
  ac_claimed : u64_wrap (qh_counters h' QClaimed) =
    u64_add (qh_counters h QClaimed) (N.of_nat (length (concat (served_intents <$> tr))));
  ac_depth : u64_add (qh_counters h' QQueueDepth) (N.of_nat (length (concat (served_intents <$> tr)))) =
    u64_wrap (qh_counters h QQueueDepth);
  ac_decided : u64_add (qh_counters h' QAccepted) (qh_counters h' QRejected) =
    u64_add (u64_add (qh_counters h QAccepted) (qh_counters h QRejected))
      (N.of_nat (length (concat (served_intents <$> tr))));
  ac_epochs : u64_wrap (qh_counters h' QEpochs) =
    u64_add (qh_counters h QEpochs) (N.of_nat (length (filter (λ s, is_batch s = true) tr)));
  ac_resolved t st : qh_tickets h !! t = Some st →
    t ∈ staged_lifecycle <$> concat (served_intents <$> tr) →
    qh_tickets h' !! t = Some (lifecycle_resolve st);
  ac_others t : t ∉ staged_lifecycle <$> concat (served_intents <$> tr) →
    qh_tickets h' !! t = qh_tickets h !! t;
}.

Lemma accounts_end h h' : qh_tickets h' = qh_tickets h → (∀ k, qh_counters h' k = qh_counters h k) → accounts [] h h'.
Proof.
  intros Ht Hc. split; rewrite ?Ht, ?Hc; cbn [fmap list_fmap concat length filter list_filter N.of_nat];
    try (unfold u64_add; by rewrite N.add_0_r).
  - unfold u64_add at 2. rewrite N.add_0_r. symmetry. apply u64_wrap_wrap.
  - by intros ? ? _ ?%not_elem_of_nil.
  - done.
Qed.

(** Calls between rounds: nothing claimed, and perhaps a seal recorded. *)
Lemma accounts_before tr h h1 h' : qh_tickets h1 = qh_tickets h →
  (∀ k, k ∈ [QClaimed; QQueueDepth; QAccepted; QRejected; QEpochs] → qh_counters h1 k = qh_counters h k) →
  accounts tr h1 h' → accounts tr h h'.
Proof.
  intros Ht Hc [A1 A2 A3 A4 A5 A6]. rewrite !Hc in * by set_solver. rewrite Ht in *. by split.
Qed.

Lemma accounts_barrier n tr h h' : accounts tr h h' → accounts (ServedBarrier n :: tr) h h'.
Proof. intros [A1 A2 A3 A4 A5 A6]. by split. Qed.

Lemma u64_add_nat_split a n k : u64_add a (N.of_nat (n + k)) = u64_add (u64_add a (N.of_nat n)) (N.of_nat k).
Proof. by rewrite u64_add_plus, Nat2N.inj_add. Qed.

Lemma accounts_batch batch plan tr h h1 h2 h' :
  batch_claimed batch h h1 → batch_served batch (mp_outcomes plan) h1 h2 → accounts tr h2 h' →
  accounts (ServedBatch batch plan :: tr) h h'.
Proof.
  intros [B1 B2 B3 B4 B5 B6 _ _] [C1 C2 C3 C4 C5 C6 C7 _ _] [A1 A2 A3 A4 A5 A6].
  assert (qh_counters h2 QClaimed = qh_counters h1 QClaimed) as E1 by by apply C2.
  assert (qh_counters h2 QQueueDepth = qh_counters h1 QQueueDepth) as E2 by by apply C2.
  split; cbn [fmap list_fmap concat served_intents]; rewrite ?length_app.
  - rewrite A1, E1, u64_add_nat_split, <- B3. unfold u64_add. by rewrite !u64_wrap_add_l.
  - rewrite Nat.add_comm, u64_add_nat_split, A2, E2, <- B4. unfold u64_add. by rewrite u64_wrap_add_l.
  - rewrite A3, C3, !(B2 QAccepted), !(B2 QRejected) by set_solver. by rewrite u64_add_nat_split.
  - rewrite A4, C4, (B2 QEpochs) by set_solver. cbn [filter list_filter is_batch]. rewrite decide_True by done.
    cbn [length]. apply u64_add_count.
  - intros t st Ht. rewrite fmap_app, elem_of_app. intros Hin.
    destruct (decide (t ∈ staged_lifecycle <$> batch)) as [Hb|Hb].
    + pose proof (C6 t _ (B5 t st Ht Hb) Hb) as H2'.
      destruct (decide (t ∈ staged_lifecycle <$> concat (served_intents <$> tr))) as [Hr|Hr].
      * by rewrite (A5 t _ H2' Hr).
      * by rewrite A6.
    + destruct Hin as [Hin|Hin]; [done|]. apply A5; [|done]. by rewrite C7, B6.
  - intros t. rewrite fmap_app, not_elem_of_app. intros [Hb Hr]. by rewrite A6, C7, B6.
Qed.

(** ** The worker serves *)

(** Between rounds only barriers are pending. *)
Definition round_ok (w : QueuedWorker D P) : Prop :=
  (∃ ns, qw_pending w = CmdBarrier <$> ns) ∧ Forall staged_ok (staged_of (arrived (qw_script w))).

Definition commands_left (w : QueuedWorker D P) : list (Command StagedIntent) := qw_pending w ++ arrived (qw_script w).

Definition batches_within (p : BatchPolicy) (tr : list Served) : Prop :=
  Forall (λ s, (N.of_nat (length (served_intents s)) <= policy_max_batch p)%N) tr.

Lemma next_command_host pending script h : (next_command pending script h).2 = h.
Proof.
  destruct pending as [|c pending]; [|done]. cbn.
  enough ((recv script h).2 = h) as E by (destruct (recv script h) as [[? ?] ?]; exact E).
  induction script as [|[]]; cbn; done.
Qed.

Lemma claimed_and_sealed ss h h' reason : batch_claimed ss h h' →
  qh_answers (record_seal_reason reason h') = qh_answers h ∧
  batch_claimed ss h (record_seal_reason reason h').
Proof. intros Hc. split; [apply (bc_answers _ _ _ Hc)|by apply batch_claimed_seal]. Qed.

(** What one round did, and what is left. *)
Inductive round_spec (policy : BatchPolicy) (w : QueuedWorker D P) : Round → Prop :=
| round_closed w' : commands_left w = [] → qw_database w' = qw_database w → qw_materializer w' = qw_materializer w →
    qw_host w' = qw_host w → round_spec policy w (Breaks w')
| round_barrier n w' : commands_left w = CmdBarrier n :: commands_left w' →
    qw_database w' = qw_database w → qw_materializer w' = qw_materializer w → qw_adaptive w' = qw_adaptive w →
    qw_host w' = log_answer (AnswerBarrier n) (record_seal_reason SealBarrier (qw_host w)) →
    worker_measure (qw_pending w') (qw_script w') < worker_measure (qw_pending w) (qw_script w) → round_ok w' →
    round_spec policy w (Continues w')
| round_batch first taken rest plan h1 w' : commands_left w = CmdIntent first :: taken ++ rest →
    commands_left w' = (CmdBarrier <$> barriers_of taken) ++ rest →
    commit_mixed_epoch (qw_database w) (staged_intent <$> first :: staged_of taken) (qw_materializer w) =
      (Ok plan, qw_database w', qw_materializer w') →
    batch_claimed (first :: staged_of taken) (qw_host w) h1 →
    batch_served (first :: staged_of taken) (mp_outcomes plan) h1 (qw_host w') →
    (policy_ok policy → width_ok policy (qw_adaptive w) →
      (N.of_nat (length (first :: staged_of taken)) <= policy_max_batch policy)%N ∧
      width_ok policy (qw_adaptive w')) →
    worker_measure (qw_pending w') (qw_script w') < worker_measure (qw_pending w) (qw_script w) → round_ok w' →
    round_spec policy w (Continues w')
| round_died first taken rest e w' : commands_left w = CmdIntent first :: taken ++ rest →
    commit_mixed_epoch (qw_database w) (staged_intent <$> first :: staged_of taken) (qw_materializer w) =
      (e, qw_database w', qw_materializer w') →
    match e with Ok _ => False | _ => True end →
    qh_answers (qw_host w') = qh_answers (qw_host w) → round_spec policy w (Unwinds w')
| round_unopened first rest w' : commands_left w = CmdIntent first :: rest →
    ¬ always_forms policy (qh_clock (qw_host w)) →
    qw_database w' = qw_database w → qw_materializer w' = qw_materializer w →
    qh_answers (qw_host w') = qh_answers (qw_host w) → round_spec policy w (Unwinds w').

(** The round of an intent, past its arrival. *)
Lemma batch_round policy w first script :
  qw_pending w = [] → arrived (qw_script w) = CmdIntent first :: arrived script →
  Forall staged_ok (staged_of (arrived (qw_script w))) →
  worker_measure [] script < worker_measure [] (qw_script w) →
  round_spec policy w (
    match form_batch policy script first (qw_adaptive w) [] (qw_host w) with
    | inr h => Unwinds (QueuedWorker_mk (qw_database w) (qw_materializer w) (qw_adaptive w) [] script h)
    | inl (script, reason, b) =>
        let h := record_seal_reason reason (bt_host b) in
        let '(ok, db, m, h) := process_batch (qw_database w) (bt_staged b) (qw_materializer w) h in
        (if ok : bool then Continues else Unwinds) (QueuedWorker_mk db m (bt_adaptive b) (bt_pending b) script h)
    end).
Proof.
  intros Hp0 Harr Hst Hmeas.
  pose proof (form_batch_taken policy script first (qw_adaptive w) [] (qw_host w)) as Hb.
  destruct (form_batch policy script first (qw_adaptive w) [] (qw_host w)) as [[[script' reason] b]|h'] eqn:Hform.
  2: { destruct Hb as (ss & _ & Hsteps). apply queued_host_steps in Hsteps.
       eapply round_unopened; try done; [unfold commands_left; by rewrite Hp0, Harr| |apply Hsteps].
       intros Hopens. destruct (form_batch_forms policy script first (qw_adaptive w) [] (qw_host w) _ (qh_reads (qw_host w)) Hopens)
         as [r Hr]; [done|]. congruence. }
  cbn [fst snd app] in Hb.
  destruct Hb as (cs & Ecs & Hbst & Hbp & Hbm & Hbc%queued_host_steps & Hbw). rewrite Hbst in *.
  rewrite Harr, Ecs in Hst.
  change (Forall staged_ok (first :: staged_of (cs ++ arrived script'))) in Hst.
  rewrite staged_of_app in Hst. apply Forall_cons_1 in Hst as [Hok1 Hst]. apply Forall_app in Hst as [Hok2 Hok3].
  destruct (claimed_and_sealed _ _ _ reason Hbc) as [Hans Hclaim].
  cbv zeta. set (h1 := record_seal_reason reason (bt_host b)) in *.
  assert (commands_left w = CmdIntent first :: cs ++ arrived script') as Hleft
    by (unfold commands_left; by rewrite Hp0, Harr, Ecs).
  pose proof (process_batch_ok (qw_database w) (first :: staged_of cs) (qw_materializer w) h1
    (Forall_cons_2 _ _ _ Hok1 Hok2)) as Hpb.
  destruct (process_batch _ _ _ h1) as [[[ok db1] m1] h2]. cbn [fst snd] in Hpb.
  destruct (commit_mixed_epoch _ _ _) as [[e db2] m2] eqn:Ecommit.
  destruct e as [plan|e|]; destruct Hpb as [[= -> -> ->] Hserved]; [|by eapply round_died; cbn; rewrite ?Hserved..].
  eapply round_batch; try done; cbn [qw_pending qw_script qw_database qw_materializer].
  - unfold commands_left. cbn. by rewrite Hbp.
  - rewrite Hp0. lia.
  - split; [by exists (barriers_of cs)|done].
Qed.

Lemma worker_round_ok policy w : round_ok w → round_spec policy w (worker_round policy w).
Proof.
  intros [[ns Hns] Hst]. unfold worker_round.
  pose proof (next_command_arrived (qw_pending w) (qw_script w) (qw_host w)) as Hn.
  pose proof (next_command_host (qw_pending w) (qw_script w) (qw_host w)) as Hh.
  destruct (next_command (qw_pending w) (qw_script w) (qw_host w)) as [[[c pending] script] h].
  cbn [fst snd] in Hn, Hh. destruct Hn as (Hc & _ & Hpop & Hnil). rewrite Hh in *. destruct c as [[first|completed]|].
  - destruct Hc as [Hcmds Hmeas].
    assert (pending = [] ∧ qw_pending w = []) as [-> Hp0].
    { rewrite Hns in *. destruct ns as [|n ns]; [by split; [apply Hnil|]|by cbn in Hcmds]. }
    rewrite Hp0 in *. by apply batch_round.
  - destruct Hc as [Hcmds Hmeas]. eapply round_barrier; try done. split; cbn [qw_pending qw_script].
    + rewrite Hns in *. destruct ns as [|n ns]; [by exists []; apply Hnil|].
      destruct Hpop as [|(-> & _)]; [done|]. by exists ns.
    + destruct Hpop as [Hp|(_ & _ & ->)]; [|done]. rewrite Hp, (Hnil Hp) in Hcmds. cbn [app] in Hcmds.
      by rewrite Hcmds in Hst.
  - destruct Hc as (Hp0 & -> & Harr & ->). apply round_closed; try done. unfold commands_left. by rewrite Hp0, Harr.
Qed.

Lemma worker_loop_serves fuel policy : ∀ w : QueuedWorker D P,
  worker_measure (qw_pending w) (qw_script w) < fuel → round_ok w →
  ∃ ok w' tr, worker_loop fuel policy w = Some (ok, w') ∧
    serves (always_forms policy (qh_clock (qw_host w))) ok (qw_database w) (qw_materializer w) (commands_left w) tr
      (qw_database w') (qw_materializer w') ∧
    qh_answers (qw_host w') = qh_answers (qw_host w) ++ concat (served_answers <$> tr) ∧
    qh_worker_alive (qw_host w') = false ∧
    (policy_ok policy → width_ok policy (qw_adaptive w) → batches_within policy tr) ∧
    (ok = true → accounts tr (qw_host w) (qw_host w')).
Proof.
  induction fuel as [|fuel IH]; intros w Hfuel Hw; [lia|]. cbn [worker_loop].
  destruct (worker_round_ok policy w Hw) as
    [w' Hl Hd Hm Hh|n w' Hl Hd Hm Ha Hh Hf Hok|first taken rest plan h1 w' Hl Hl' Hcommit Hclaim Hserved Hwid Hf Hok
    |first taken rest e w' Hl Hcommit He Ha|first rest w' Hl Hopen Hd Hm Ha].
  - exists true. do 2 eexists. split; [done|]. rewrite Hl. cbn. rewrite Hd, Hm, Hh. split; [constructor|].
    cbn. rewrite app_nil_r. split_and!; try done; [constructor|]. intros _. by apply accounts_end.
  - destruct (IH w') as (ok & w2 & tr & E & Hserves & Hans & Halive & Hw2 & Hacc); [lia|done|].
    rewrite Hd, Hm in Hserves. assert (qh_clock (qw_host w') = qh_clock (qw_host w)) as Hck by by rewrite Hh.
    rewrite Hck in Hserves. exists ok, w2, (ServedBarrier n :: tr). rewrite E, Hl.
    split_and!; [done|by constructor| |done| |].
    + rewrite Hans, Hh. cbn. by rewrite <- (assoc_L (++)).
    + rewrite Ha in Hw2. intros Hp Hwo. constructor; [cbn; lia|by apply Hw2].
    + intros Hk. apply accounts_barrier. eapply accounts_before; [| |by apply Hacc]; rewrite Hh; [done|].
      intros k Hin. cbn. unfold fetch_add. rewrite store_at_ne; [done|]. intros ->. set_solver.
  - destruct (IH w') as (ok & w2 & tr & E & Hserves & Hans & Halive & Hw2 & Hacc); [lia|done|].
    assert (qh_clock (qw_host w') = qh_clock (qw_host w)) as Hck
      by by rewrite (bs_clock _ _ _ _ Hserved), (bc_clock _ _ _ Hclaim).
    rewrite Hl', Hck in Hserves. exists ok, w2, (ServedBatch (first :: staged_of taken) plan :: tr). rewrite E, Hl.
    split_and!; [done|by eapply serves_batch| |done| |].
    + rewrite Hans, (bs_answers _ _ _ _ Hserved), (bc_answers _ _ _ Hclaim). cbn. by rewrite <- (assoc_L (++)).
    + intros Hp Hwo. destruct (Hwid Hp Hwo) as [Hlen Hwo']. constructor; [done|by apply Hw2].
    + intros Hk. eapply accounts_batch; [exact Hclaim|exact Hserved|by apply Hacc].
  - exists false. do 2 eexists. split; [done|]. rewrite Hl. split; [by eapply serves_died|].
    cbn. rewrite app_nil_r. split_and!; try done. constructor.
  - exists false. do 2 eexists. split; [done|]. rewrite Hl. cbn [with_host qw_database qw_materializer].
    rewrite Hd, Hm. split; [by apply serves_unopened|].
    cbn. rewrite app_nil_r. split_and!; try done. constructor.
Qed.
End worker.
Arguments Served : clear implicits.

(** A barrier of [cs] is served once all intents before it are. *)
Definition barriers_follow {D P : Type} (cs : list (Command StagedIntent)) (tr : list (Served D P)) : Prop :=
  ∀ cs1 n cs2, cs = cs1 ++ CmdBarrier n :: cs2 →
  ∃ t1 t2, tr = t1 ++ ServedBarrier n :: t2 ∧ concat (served_barriers <$> t1) = barriers_of cs1 ∧
    staged_of cs1 `prefix_of` concat (served_intents <$> t1).

(** C13: The worker of the in-memory controller, and when it answers for all it
    received.  Whatever the batching policy, the clock, and the moments at which
    commands arrive, the worker's thread ends and clears its liveness; it commits
    one mixed epoch per batch, and the answers it sends are those of the epochs it
    committed and of the barriers, in that order.  If the bounds of the policy are
    in order, no batch exceeds its maximum (otherwise one may:
    [batch_exceeds_maximum]).  The thread dies, leaving what it received
    unanswered, exactly at an epoch that cannot be committed, or, unless the
    platform can reserve the maximal batch and add the policy's delay to every
    instant, at a batch it cannot open.  If it does not die, it ends with the
    channel: then every intent that arrived was answered exactly once and in the
    order of arrival, a barrier only after every intent before it; each of their
    tickets is resolved and no other touched; and the counters of claims, decisions
    and epochs and the depth of the queue moved by exactly what was served. *)
Theorem queued_worker_serves {D P : Type} `{Kernel D, MappedRoot P, MappedVocabulary P, Platform}
    (policy : BatchPolicy) (db : Database D P MemoryCommitStore) script (h : QueuedHost D P) :
  Forall staged_ok (staged_of (arrived script)) →
  ∃ ok w tr, run_worker policy db script h = Some (ok, w) ∧
    serves (always_forms policy (qh_clock h)) ok db (materializer_new 1) (arrived script) tr
      (qw_database w) (qw_materializer w) ∧
    qh_answers (qw_host w) = qh_answers h ++ concat (served_answers <$> tr) ∧
    qh_worker_alive (qw_host w) = false ∧ (policy_ok policy → batches_within policy tr) ∧
    (ok = true → concat (served_intents <$> tr) = staged_of (arrived script) ∧
      concat (served_barriers <$> tr) = barriers_of (arrived script) ∧
      barriers_follow (arrived script) tr ∧ accounts tr h (qw_host w)).
Proof.
  intros Hs. unfold run_worker.
  destruct (worker_loop_serves (S (worker_measure [] script)) policy (worker_start policy db script h))
    as (ok & w & tr & E & Hserves & Hans & Halive & Hwid & Hacc); [cbn; lia|by split; [exists []|]|].
  exists ok, w, tr. split_and!; [done..| |].
  - intros Hp. apply Hwid; [done|apply adaptive_new_ok].
  - intros Hok. split_and!; [by eapply serves_intents|by eapply serves_barriers| |by apply Hacc].
    intros cs1 n cs2 E'. by eapply serves_in_order.
Qed.

(** ** The worker and the planner on histories *)

Section refines.
Context {D P : Type} `{KernelLaws D, MappedRootLaws P, !MappedVocabulary P, !MappedVocabularyLaws P}.
Implicit Types (db : Database D P MemoryCommitStore) (m : VmEpochMaterializer P) (fs : list CommitFrame).

(** A database and a materializer that can be brought to it. *)
Definition worker_ready db fs m n : Prop :=
  ∃ m0, synchronize_to (db_current db) m = (Ok tt, m0) ∧ mixed_db_ok db fs m0 ∧ mat_room m0 n.

(** What the intents of the commands may still use. *)
Definition intents_of (cs : list (Command StagedIntent)) : list ControllerIntent := staged_intent <$> staged_of cs.

Record commands_fit db (intents : list ControllerIntent) : Prop := {
  cf_fits : Forall controller_fits intents;
  cf_next : (w_next_entity (db_current db) + N.of_nat (controller_total intents) <= VM_LITERAL_BASE)%N;
  cf_version : (w_version (db_current db) + N.of_nat (length intents) < u64_modulus)%N;
}.

(** Each batch is the epoch that the planner on histories makes of its intents,
    on the history of the epochs before it. *)
Inductive served_epochs : World D P → list CommitFrame → list (Served D P) → World D P → list CommitFrame → Prop :=
| se_end w fs : served_epochs w fs [] w fs
| se_barrier w fs n tr w' fs' : served_epochs w fs tr w' fs' → served_epochs w fs (ServedBarrier n :: tr) w' fs'
| se_batch w fs batch plan tr w' fs' : plan_ok w fs (staged_intent <$> batch) plan →
    served_epochs (mp_tail plan) (fs ++ mp_frames plan) tr w' fs' →
    served_epochs w fs (ServedBatch batch plan :: tr) w' fs'.

Lemma commit_after_sync db m m0 intents : synchronize_to (db_current db) m = (Ok tt, m0) →
  m_version m0 = w_version (db_current db) → commit_mixed_epoch db intents m = commit_mixed_epoch db intents m0.
Proof.
  intros E Hv. unfold commit_mixed_epoch. rewrite E. unfold synchronize_to.
  by rewrite Hv, N.ltb_irrefl, N.eqb_refl.
Qed.

Lemma ready_after db fs m n : mixed_db_ok db fs m → mat_room m n → worker_ready db fs m n.
Proof.
  intros Hd Hr. exists m. split_and!; [|done|done]. unfold synchronize_to.
  by rewrite (mdb_version _ _ _ Hd), N.ltb_irrefl, N.eqb_refl.
Qed.

Lemma controller_total_app l k : controller_total (l ++ k) = controller_total l + controller_total k.
Proof. unfold controller_total. rewrite fmap_app. induction (controller_size <$> l); cbn; lia. Qed.

Lemma batch_epoch db fs m batch rest n :
  worker_ready db fs m (controller_total (batch ++ rest) + S n) → commands_fit db (batch ++ rest) → batch ≠ [] →
  ∃ plan db' m', commit_mixed_epoch db batch m = (Ok plan, db', m') ∧ plan_ok (db_current db) fs batch plan ∧
    db_current db' = mp_tail plan ∧
    worker_ready db' (fs ++ mp_frames plan) m' (controller_total rest + S n) ∧ commands_fit db' rest.
Proof.
  intros (m0 & Hsync & Hd & Hroom) [Hf Hn Hv] Hne. rewrite controller_total_app in *. rewrite length_app in Hv.
  apply Forall_app in Hf as [Hf1 Hf2].
  destruct (mixed_epoch_plan db fs m0 batch (controller_total rest + n)) as
    (plan & db' & m' & E & Hp & Hcur & Hd' & Hr'); [done|done|lia|lia| |].
  { by replace (controller_total batch + S (controller_total rest + n)) with
      (controller_total batch + controller_total rest + S n) by lia. }
  exists plan, db', m'. rewrite (commit_after_sync _ _ _ _ Hsync) by apply Hd. split_and!; [done..| |].
  - apply ready_after; [done|]. by rewrite <- plus_n_Sm.
  - pose proof (po_next _ _ _ _ Hp). pose proof (po_version _ _ _ _ Hp) as Hver.
    destruct (po_spec _ _ _ _ Hp) as (ops & outs & st' & _ & _ & _ & Hlen & _).
    assert (length (mp_frames plan) ≤ length batch).
    { destruct batch; [done|]. rewrite Hlen. cbn [length]. destruct (decide _); lia. }
    split; [done|rewrite Hcur; lia|rewrite Hcur; lia].
Qed.

Lemma intents_of_round first taken rest :
  intents_of (CmdIntent first :: taken ++ rest) =
  (staged_intent <$> first :: staged_of taken) ++ intents_of ((CmdBarrier <$> barriers_of taken) ++ rest).
Proof.
  unfold intents_of. change (staged_of (CmdIntent first :: taken ++ rest)) with (first :: staged_of (taken ++ rest)).
  rewrite !staged_of_app, staged_of_barriers. cbn [app]. rewrite <- fmap_app. done.
Qed.

Lemma serves_epochs (opens : Prop) ok db m cs tr db' m' n fs : opens → serves opens ok db m cs tr db' m' →
  worker_ready db fs m (controller_total (intents_of cs) + S n) → commands_fit db (intents_of cs) →
  ok = true ∧ ∃ fs', served_epochs (db_current db) fs tr (db_current db') fs' ∧ worker_ready db' fs' m' (S n).
Proof.
  intros Hop Hs. revert fs. induction Hs as [db m|ok db m c cs tr db' m' _ IH
    |ok db m first taken rest plan db1 m1 tr db' m' Ec _ IH|db m first taken rest e db' m' Ec He|]; intros fs Hr Hf; [..|done].
  - split; [done|]. exists fs. split; [constructor|done].
  - destruct (IH fs Hr Hf) as (-> & fs' & He & Hr'). split; [done|]. exists fs'. split; [by constructor|done].
  - rewrite intents_of_round in Hr, Hf.
    destruct (batch_epoch db fs m _ _ n Hr Hf) as (plan' & db2 & m2 & E & Hp & Hcur & Hr' & Hf'); [done|].
    rewrite E in Ec. injection Ec as -> -> ->. destruct (IH _ Hr' Hf') as (-> & fs' & He & Hr2). split; [done|].
    exists fs'. split; [|done]. rewrite Hcur in He. by econstructor.
  - rewrite intents_of_round in Hr, Hf.
    destruct (batch_epoch db fs m _ _ n Hr Hf) as (plan' & db2 & m2 & E & _); [done|].
    rewrite E in Ec. injection Ec as <- _ _. done.
Qed.
End refines.

(** C21: What the worker commits is what the planner on histories decides.  From a
    database without validators whose history the worker can replay; for intents
    within the capacity of tokens, literal cells and arenas, where each transaction
    first uses its names in the order of their spelling and expects no world
    ([commands_fit]); and for a policy whose batches the platform can open at
    every instant of the clock: the worker never dies, it serves all intents in the
    order of arrival, each batch is the epoch that the planner makes of it on the
    history of the epochs before, and the published world at the end holds the
    history of all of them.  Without these conditions on transactions the epochs
    differ from the planner's ([trial_names_out_of_order],
    [mixed_expected_world_ignored]). *)
Theorem queued_worker_refines {D P : Type}
    `{KernelLaws D, MappedRootLaws P, !MappedVocabulary P, !MappedVocabularyLaws P, Platform}
    (policy : BatchPolicy) (db : Database D P MemoryCommitStore) fs script (h : QueuedHost D P) n :
  Forall staged_ok (staged_of (arrived script)) → always_forms policy (qh_clock h) →
  worker_ready db fs (materializer_new 1) (controller_total (intents_of (arrived script)) + S n) →
  commands_fit db (intents_of (arrived script)) →
  ∃ w tr fs', run_worker policy db script h = Some (true, w) ∧
    concat (served_intents <$> tr) = staged_of (arrived script) ∧
    served_epochs (db_current db) fs tr (db_current (qw_database w)) fs' ∧
    qh_answers (qw_host w) = qh_answers h ++ concat (served_answers <$> tr) ∧
    worker_ready (qw_database w) fs' (qw_materializer w) (S n).
Proof.
  intros Hs Hop Hr Hf. unfold run_worker.
  destruct (worker_loop_serves (S (worker_measure [] script)) policy (worker_start policy db script h))
    as (ok & w & tr & E & Hserves & Hans & _); [cbn; lia|by split; [exists []|]|].
  destruct (serves_epochs _ _ _ _ _ _ _ _ n fs Hop Hserves Hr Hf) as (-> & fs' & He & Hr').
  exists w, tr, fs'. split_and!; [done|by eapply serves_intents|done..].
Qed.

(** ** A run *)

#[local] Existing Instance sample_platform.

(** Two batches: a barrier ends the first, and the policy the second. *)
Definition sample_staged : list StagedIntent :=
  imap (λ k i, StagedIntent_mk i (route_of i (N.of_nat k)) (N.of_nat k) (1000 * N.of_nat k)) mixed_sample.
Definition sample_script : list (Arrival StagedIntent) :=
  Quiet :: (Arrives ∘ CmdIntent <$> take 2 sample_staged) ++ Arrives (CmdBarrier 7) :: Drains ::
  (Arrives ∘ CmdIntent <$> drop 2 sample_staged) ++ [Quiet].
Definition sample_policy : BatchPolicy := Adaptive 1 8 50000.
Definition sample_host : QueuedHost LegacyDb.ForthDb Empty_set :=
  QueuedHost_mk (store_at QQueueDepth 5 zeroed) true
    (list_to_map ((λ s, (staged_lifecycle s, lifecycle_new)) <$> sample_staged)) 9 [] (λ k, 10000 + 100 * N.of_nat k)%N 0
    (λ t, negb (t =? 1)%N).

Lemma sample_arrived : arrived sample_script =
  (CmdIntent <$> take 2 sample_staged) ++ CmdBarrier 7 :: (CmdIntent <$> drop 2 sample_staged).
Proof. reflexivity. Qed.

Lemma sample_staged_ok : Forall staged_ok (staged_of (arrived sample_script)).
Proof. repeat constructor. Qed.

Lemma queued_worker_serves_witness :
  ∃ ok w tr, run_worker sample_policy mixed_genesis sample_script sample_host = Some (ok, w) ∧
    serves (always_forms sample_policy (qh_clock sample_host)) ok mixed_genesis (materializer_new 1)
      (arrived sample_script) tr (qw_database w) (qw_materializer w) ∧
    qh_answers (qw_host w) = qh_answers sample_host ++ concat (served_answers <$> tr) ∧
    qh_worker_alive (qw_host w) = false ∧ (policy_ok sample_policy → batches_within sample_policy tr) ∧
    (ok = true → concat (served_intents <$> tr) = staged_of (arrived sample_script) ∧
      concat (served_barriers <$> tr) = barriers_of (arrived sample_script) ∧
      barriers_follow (arrived sample_script) tr ∧ accounts tr sample_host (qw_host w)).
Proof. exact (queued_worker_serves sample_policy mixed_genesis sample_script sample_host sample_staged_ok). Defined.

Lemma queued_worker_refines_witness :
  ∃ w tr fs', run_worker sample_policy mixed_genesis sample_script sample_host = Some (true, w) ∧
    concat (served_intents <$> tr) = staged_of (arrived sample_script) ∧
    served_epochs (db_current mixed_genesis) [] tr (db_current (qw_database w)) fs' ∧
    qh_answers (qw_host w) = qh_answers sample_host ++ concat (served_answers <$> tr) ∧
    worker_ready (qw_database w) fs' (qw_materializer w) 2.
Proof.
  apply (queued_worker_refines sample_policy mixed_genesis [] sample_script sample_host 1).
  - exact sample_staged_ok.
  - done.
  - apply ready_after; [|apply materializer_new_room; by vm_compute].
    split; [apply genesis_ok|done|done|apply materializer_new_ok|done].
  - split; [|by vm_compute|by vm_compute].
    repeat constructor; cbn; try (by vm_compute); by apply bool_decide_unpack; vm_compute.
Defined.

(** The run itself: the answers in order, the batches, and the counters. *)
Definition answered (a : Answer LegacyDb.ForthDb Empty_set) : N * bool :=
  match a with
  | AnswerQueued t (TicketAccepted _ _) | AnswerSemantic t (SemanticTicketAccepted _ _) => (t, true)
  | AnswerQueued t (TicketRejected _) | AnswerSemantic t (SemanticTicketRejected _) => (t, false)
  | AnswerBarrier n => (n, true)
  end.

Example sample_run : run_worker sample_policy mixed_genesis sample_script sample_host ≫= (λ r,
    Some (r.1, answered <$> qh_answers (qw_host r.2),
      (λ k, qh_counters (qw_host r.2) k) <$> [QClaimed; QAccepted; QRejected; QEpochs; QQueueDepth; QInFlight;
        QCompletionDeliveryFailures; QSealedBy SealLowTraffic; QSealedBy SealBarrier],
      target_width (qw_adaptive r.2))) =
  Some (true, [(0, true); (1, false); (2, true); (3, true); (4, false); (7, true)], [5; 3; 2; 1; 0; 0; 1; 1; 1], 5)%N.
Proof. vm_compute. reflexivity. Qed.

(** A policy whose minimum exceeds its maximum is accepted, and its batches then
    exceed the maximum: the target is raised to the minimum when a batch is sealed
    by latency.  Two epochs for five intents, of at most two by the policy. *)
Definition inverted_policy : BatchPolicy := Adaptive 64 2 0.
Definition inverted_script : list (Arrival StagedIntent) :=
  (Arrives ∘ CmdIntent <$> take 1 sample_staged) ++ Quiet :: (Arrives ∘ CmdIntent <$> drop 1 sample_staged).

Lemma batch_exceeds_maximum :
  (∃ c, controller_new 8 inverted_policy true sample_host = Ok c) ∧
  run_worker inverted_policy mixed_genesis inverted_script sample_host ≫= (λ r,
    Some (r.1, (λ k, qh_counters (qw_host r.2) k) <$> [QClaimed; QEpochs; QMaximumTargetWidth])) =
  Some (true, [5; 2; 64])%N.
Proof. split; [by eexists|]. vm_compute. reflexivity. Qed.

(** A maximum or a delay beyond the platform is accepted too: the worker dies at
    its first batch, the intent is claimed or not, and nothing is answered. *)
Lemma unopened_batches : Forall (λ policy, (∃ c, controller_new 8 policy true sample_host = Ok c) ∧
  run_worker policy mixed_genesis sample_script sample_host ≫= (λ r,
    Some (r.1, answered <$> qh_answers (qw_host r.2), db_store (qw_database r.2))) = Some (false, [], []))
  [ImmediateDrain u64_max; Coalesce 4 (u64_max * 1000000000)].
Proof. apply Forall_cons_2; [|apply Forall_singleton]; (split; [by eexists|by vm_compute]). Qed.

(** ** Admission under interference *)

Section ingress.
Context {D P : Type} `{Kernel D, MappedRoot P, MappedVocabulary P}.

(** Where the worker stands between accesses to the shared counters: with a
    batch being collected, with a command received and not yet claimed, with an
    epoch being committed, or gone. *)
Inductive WorkerPc :=
| WkCollects (batch : list StagedIntent)
| WkReceived (staged : StagedIntent) (batch : list StagedIntent)
| WkCommits (batch : list StagedIntent)
| WkGone.

(** Threads in calls of [submit], the controller, the worker, and how many
    intents were received and not claimed, or in the channel, when it died. *)
Record System := System_mk {
  sy_threads : list SubmitPc;
  sy_controller : QueuedIntentController D P;
  sy_worker : WorkerPc;
  sy_lost : nat;
}.

Inductive Action :=
| ActSubmit (thread : nat) (spurious : bool)
| ActCall (thread : nat) (intent : ControllerIntent)
| ActFlush (completed : N)
| ActReceive
| ActClaim
| ActBegin
| ActEnd
| ActDie.

Definition system_with (s : System) (c : QueuedIntentController D P) (w : WorkerPc) : System :=
  System_mk (sy_threads s) c w (sy_lost s).

(** Where the worker can panic, and how many unclaimed intents die with it: when an
    epoch cannot be committed, when the vector of a batch cannot be reserved, and
    when its deadline cannot be computed. *)
Definition dies_with (w : WorkerPc) : option nat :=
  match w with
  | WkCommits _ | WkCollects [_] => Some 0
  | WkReceived _ [] => Some 1
  | _ => None
  end.

(** One action of the system; [None] when it cannot be taken. *)
Definition act (s : System) (a : Action) : option System :=
  let c := sy_controller s in
  match a with
  | ActSubmit thread spurious =>
      pc ← sy_threads s !! thread;
      let '(pc, c) := submit_step spurious pc c in
      Some (System_mk (<[thread := pc]> (sy_threads s)) c (sy_worker s) (sy_lost s))
  | ActCall thread intent =>
      pc ← sy_threads s !! thread;
      match pc with
      | SubReturn _ => Some (System_mk (<[thread := SubLoad intent]> (sy_threads s)) c (sy_worker s) (sy_lost s))
      | _ => None
      end
  | ActFlush completed =>
      match flush_request completed c with
      | Some (Ok c) => Some (system_with s c (sy_worker s))
      | _ => None
      end
  | ActReceive =>
      match sy_worker s, qc_sender c with
      | WkCollects batch, Some (CmdIntent staged :: queue) =>
          Some (system_with s (set_queue queue c) (WkReceived staged batch))
      | WkCollects batch, Some (CmdBarrier _ :: queue) => Some (system_with s (set_queue queue c) (WkCollects batch))
      | _, _ => None
      end
  | ActClaim =>
      match sy_worker s with
      | WkReceived staged batch => Some (system_with s (on_shared (claim staged) c) (WkCollects (batch ++ [staged])))
      | _ => None
      end
  | ActBegin =>
      match sy_worker s with
      | WkCollects batch =>
          Some (system_with s (on_shared (on_counters (store_at QInFlight (N.of_nat (length batch)))) c)
                  (WkCommits batch))
      | _ => None
      end
  | ActEnd =>
      match sy_worker s with
      | WkCommits batch =>
          Some (system_with s (on_shared (on_counters (store_at QInFlight 0)) c) (WkCollects []))
      | _ => None
      end
  | ActDie =>
      match qc_sender c, dies_with (sy_worker s) with
      | Some queue, Some n =>
          Some (System_mk (sy_threads s)
                  (QueuedIntentController_mk (Some []) false (qc_capacity c) (qc_policy c)
                     (set_alive false (qc_host c)))
                  WkGone (sy_lost s + n + length (staged_of queue)))
      | _, _ => None
      end
  end.

Fixpoint acts (s : System) (l : list Action) : option System :=
  match l with
  | [] => Some s
  | a :: l => s ← act s a; acts s l
  end.

(** A controller just made, and threads about to call it. *)
Definition initial_system (c : QueuedIntentController D P) (intents : list ControllerIntent) : System :=
  System_mk (SubLoad <$> intents) c (WkCollects []) 0.

(** Who holds a reservation. *)
Definition holds (pc : SubmitPc) : nat :=
  match pc with SubReserved _ _ | SubStaged _ | SubAnnounced _ | SubRelease _ _ => 1 | _ => 0 end.
Definition worker_holds (w : WorkerPc) : nat := match w with WkReceived _ _ => 1 | _ => 0 end.
Definition queued_intents (c : QueuedIntentController D P) : nat :=
  match qc_sender c with Some queue => length (staged_of queue) | None => 0 end.

Definition reservations (s : System) : nat :=
  sum_list (holds <$> sy_threads s) + queued_intents (sy_controller s) + worker_holds (sy_worker s) + sy_lost s.

Definition queue_depth (s : System) : N := qh_counters (qc_host (sy_controller s)) QQueueDepth.

Record ingress_ok (s : System) : Prop := {
  in_depth : queue_depth s = N.of_nat (reservations s);
  in_capacity : (queue_depth s <= qc_capacity (sy_controller s))%N;
  in_sender : is_Some (qc_sender (sy_controller s));
  in_width : u64_ok (qc_capacity (sy_controller s));
}.

Lemma sum_insert (f : SubmitPc → nat) l i x y : l !! i = Some x →
  sum_list (f <$> <[i := y]> l) + f x = sum_list (f <$> l) + f y.
Proof.
  revert i. induction l as [|z l IH]; intros [|i] Hl; simplify_eq/=; [lia|]. specialize (IH i Hl). lia.
Qed.

Lemma holds_le l i x : l !! i = Some x → holds x ≤ sum_list (holds <$> l).
Proof.
  revert i. induction l as [|y l IH]; intros [|i] Hl; simplify_eq/=; [lia|]. specialize (IH i Hl). lia.
Qed.

Lemma u64_sub_one n : u64_ok (N.of_nat (S n)) → u64_sub (N.of_nat (S n)) 1 = N.of_nat n.
Proof.
  intros Hok. replace (N.of_nat (S n)) with (u64_add (N.of_nat n) 1).
  - rewrite u64_add_sub. apply u64_wrap_small. unfold u64_ok in *. lia.
  - rewrite u64_add_small; [lia|]. unfold u64_ok in *. lia.
Qed.

(** A step of a call moves the counter by what it comes to hold. *)
Lemma submit_step_ok spurious pc c pc' c' n : submit_step spurious pc c = (pc', c') →
  is_Some (qc_sender c) → u64_ok (qc_capacity c) →
  qh_counters (qc_host c) QQueueDepth = N.of_nat (n + holds pc + queued_intents c) →
  (N.of_nat (n + holds pc + queued_intents c) <= qc_capacity c)%N →
  qh_counters (qc_host c') QQueueDepth = N.of_nat (n + holds pc' + queued_intents c') ∧
  (N.of_nat (n + holds pc' + queued_intents c') <= qc_capacity c)%N ∧
  qc_capacity c' = qc_capacity c ∧ is_Some (qc_sender c').
Proof.
  intros E [queue Hq] Hw Hd Hc. assert (queued_intents c = length (staged_of queue)) as Hqi
    by (unfold queued_intents; by rewrite Hq).
  destruct pc as [i|i current|i depth|st|st|st full|st full|r]; cbn [submit_step] in E.
  - rewrite Hq in E. injection E as <- <-. by split_and!.
  - destruct (N.leb_spec (qc_capacity c) current) as [Hle|Hlt]; [injection E as <- <-; by split_and!|].
    destruct (N.eqb_spec (qh_counters (qc_host c) QQueueDepth) current) as [He|He]; [|injection E as <- <-; by split_and!].
    destruct spurious; injection E as <- <-; [by split_and!|].
    change (queued_intents (on_shared _ c)) with (queued_intents c). cbn [holds] in *.
    split_and!; [cbn; rewrite store_at_eq; lia|lia|done|done].
  - cbn in E. injection E as <- <-. change (queued_intents (on_shared _ c)) with (queued_intents c). cbn [holds] in *.
    split_and!; [|done..]. cbn. unfold fetch_add, raise_to. rewrite store_at_ne by done.
    case_match; [by rewrite store_at_ne|done].
  - injection E as <- <-. change (queued_intents (on_shared _ c)) with (queued_intents c). by split_and!.
  - rewrite Hq in E. unfold try_send in E. destruct (qc_receiving c); [|injection E as <- <-; by split_and!].
    destruct (N.ltb_spec (N.of_nat (length queue)) (qc_capacity c)); injection E as <- <-; [|by split_and!].
    assert (queued_intents (set_queue (queue ++ [CmdIntent st]) c) = S (queued_intents c)) as ->.
    { rewrite Hqi. unfold queued_intents. cbn [qc_sender set_queue]. rewrite staged_of_app, length_app. cbn. lia. }
    cbn [holds] in *. split_and!; [cbn; lia|lia|done|by eexists].
  - injection E as <- <-. change (queued_intents (on_shared _ c)) with (queued_intents c). cbn [holds] in *.
    split_and!; [|lia|done|done]. cbn. unfold fetch_sub. rewrite store_at_eq, Hd.
    replace (n + 1 + queued_intents c) with (S (n + 0 + queued_intents c)) by lia. apply u64_sub_one. unfold u64_ok in *. lia.
  - destruct full; injection E as <- <-; by split_and!.
  - injection E as <- <-. by split_and!.
Qed.

Lemma act_ok s a s' : act s a = Some s' → ingress_ok s → ingress_ok s' ∧
  qc_capacity (sy_controller s') = qc_capacity (sy_controller s).
Proof.
  intros E [Hd Hc [queue Hq] Hw]. unfold queue_depth, reservations in *.
  assert (queued_intents (sy_controller s) = length (staged_of queue)) as Hqi by (unfold queued_intents; by rewrite Hq).
  destruct a as [t spurious|t i|n| | | | |]; cbn [act] in E.
  - destruct (sy_threads s !! t) as [pc|] eqn:Ht; [|done]. cbn [mbind option_bind] in E.
    destruct (submit_step spurious pc (sy_controller s)) as [pc' c'] eqn:Es. injection E as <-.
    pose proof (sum_insert holds _ _ _ pc' Ht) as Hsum.
    destruct (submit_step_ok _ _ _ _ _ (sum_list (holds <$> sy_threads s) - holds pc + worker_holds (sy_worker s) + sy_lost s)
      Es) as (E1 & E2 & E3 & E4); [by eexists|done| | |].
    + rewrite Hd. f_equal. pose proof (holds_le _ _ _ Ht). lia.
    + rewrite Hd in Hc. pose proof (holds_le _ _ _ Ht). lia.
    + pose proof (holds_le _ _ _ Ht).
      split; [split; unfold queue_depth, reservations; cbn [sy_threads sy_controller sy_worker sy_lost]|done].
      * rewrite E1. f_equal. lia.
      * rewrite E1, E3. lia.
      * done.
      * by rewrite E3.
  - destruct (sy_threads s !! t) as [pc|] eqn:Ht; [|done]. cbn [mbind option_bind] in E.
    destruct pc; try done. injection E as <-. pose proof (sum_insert holds _ _ _ (SubLoad i) Ht) as Hsum. cbn [holds] in Hsum.
    split; [split; unfold queue_depth, reservations; cbn [sy_threads sy_controller sy_worker sy_lost]|done];
      [rewrite Hd; f_equal; lia|done|by eexists|done].
  - unfold flush_request in E. rewrite Hq in E. destruct (try_send queue _); try done. injection E as <-.
    split; [split; unfold queue_depth, reservations, queued_intents; cbn|done]; [|done|by eexists|done].
    rewrite Hd, Hqi, staged_of_app, app_nil_r. done.
  - destruct (sy_worker s) eqn:Ewk; try done. rewrite Hq in E. destruct queue as [|[st|n] queue]; [done| |]; injection E as <-;
      (split; [split; unfold queue_depth, reservations, queued_intents; cbn -[N.of_nat]|done]; [|done|by eexists|done]);
      rewrite Hd, Hqi; f_equal; cbn; unfold staged_of; lia.
  - destruct (sy_worker s) eqn:Ewk; try done. injection E as <-. cbn [worker_holds] in *.
    split; [split; unfold queue_depth, reservations; cbn -[N.of_nat]|done].
    + unfold fetch_add, fetch_sub. rewrite store_at_ne, store_at_eq by done. rewrite Hd.
      change (queued_intents (on_shared _ _)) with (queued_intents (sy_controller s)).
      replace (sum_list (holds <$> sy_threads s) + queued_intents (sy_controller s) + 1 + sy_lost s)
        with (S (sum_list (holds <$> sy_threads s) + queued_intents (sy_controller s) + 0 + sy_lost s)) by lia.
      apply u64_sub_one. unfold u64_ok in *. lia.
    + unfold fetch_add, fetch_sub. rewrite store_at_ne, store_at_eq by done. rewrite Hd in *.
      replace (sum_list (holds <$> sy_threads s) + queued_intents (sy_controller s) + 1 + sy_lost s)
        with (S (sum_list (holds <$> sy_threads s) + queued_intents (sy_controller s) + sy_lost s)) in * by lia.
      rewrite u64_sub_one; unfold u64_ok in *; lia.
    + by eexists.
    + done.
  - destruct (sy_worker s) eqn:Ewk; try done. injection E as <-.
    split; [split; unfold queue_depth, reservations; cbn -[N.of_nat]|done]; [exact Hd|exact Hc|by eexists|done].
  - destruct (sy_worker s) eqn:Ewk; try done. injection E as <-.
    split; [split; unfold queue_depth, reservations; cbn -[N.of_nat]|done]; [exact Hd|exact Hc|by eexists|done].
  - rewrite Hq in E. destruct (dies_with (sy_worker s)) as [n|] eqn:Edie; [|done]. injection E as <-.
    assert (worker_holds (sy_worker s) = n) as Hn.
    { destruct (sy_worker s) as [[|? []]|? []|b|]; by simplify_eq/=. }
    split; [split; unfold queue_depth, reservations; cbn -[N.of_nat]|done]; [|exact Hc|by eexists|done].
    rewrite Hd, Hqi. f_equal. unfold queued_intents. cbn. lia.
Qed.

Lemma acts_ok l s s' : acts s l = Some s' → ingress_ok s → ingress_ok s' ∧
  qc_capacity (sy_controller s') = qc_capacity (sy_controller s).
Proof.
  revert s. induction l as [|a l IH]; intros s; cbn [acts]; [by intros [= <-]|].
  destruct (act s a) as [s1|] eqn:Ea; [|done]. cbn [mbind option_bind]. intros Es Hs.
  destruct (act_ok _ _ _ Ea Hs) as [H1' E1]. destruct (IH _ Es H1') as [H2' E2]. split; [done|congruence].
Qed.

Lemma initial_ok capacity policy h c intents : u64_ok capacity → controller_new capacity policy true h = Ok c →
  ingress_ok (initial_system c intents) ∧ qc_capacity c = capacity.
Proof.
  intros Hw. unfold controller_new. repeat case_match; try done. intros [= <-]. split; [|done].
  assert (sum_list (holds <$> (SubLoad <$> intents)) = 0) as E by by induction intents.
  split; unfold queue_depth, reservations; cbn; [by rewrite E|apply N.le_0_l|by eexists|done].
Qed.
End ingress.
Arguments System : clear implicits.

(** C22: Admission counts every reservation.  However the calls of any number of
    threads (with spuriously failing exchanges), barriers and the worker's steps
    interleave on a new controller, the depth of the queue is at every moment the
    number of threads between their reservation and its release or sending, plus
    the intents in the channel, plus the one the worker has received and not yet
    claimed, plus those lost with a worker that died.  It never exceeds the capacity, and
    whoever is about to release finds it positive, so it never wraps. *)
Theorem ingress_reservations {D P : Type} `{Kernel D, MappedRoot P, MappedVocabulary P}
    (capacity : N) policy (h : QueuedHost D P) c intents l s :
  u64_ok capacity → controller_new capacity policy true h = Ok c →
  acts (initial_system c intents) l = Some s →
  queue_depth s = N.of_nat (reservations s) ∧ (queue_depth s <= capacity)%N ∧
  (queued_intents (sy_controller s) ≤ N.to_nat capacity) ∧
  (∀ t staged full, sy_threads s !! t = Some (SubRelease staged full) → (0 < queue_depth s)%N) ∧
  (∀ staged batch, sy_worker s = WkReceived staged batch → (0 < queue_depth s)%N).
Proof.
  intros Hw Hnew Hacts. destruct (initial_ok capacity policy h c intents Hw Hnew) as [Hi Hcap].
  destruct (acts_ok _ _ _ Hacts Hi) as [[Hd Hc _ _] E]. cbn [sy_controller initial_system] in E. rewrite E, Hcap in Hc.
  split; [done|]. split; [done|]. unfold reservations in Hd. split; [lia|]. split.
  - intros t staged full Ht. pose proof (holds_le _ _ _ Ht) as Hle. cbn [holds] in Hle. lia.
  - intros staged batch Hwk. rewrite Hwk in Hd. cbn [worker_holds] in Hd. lia.
Qed.

Definition sample_controller : QueuedIntentController LegacyDb.ForthDb Empty_set :=
  QueuedIntentController_mk (Some []) true 1 (ImmediateDrain 4)
    (set_alive true (on_counters (λ _, zeroed) sample_host)).

(** One call after another step of the same thread. *)
Definition steps_of (thread n : nat) : list Action := replicate n (ActSubmit thread false).

Definition sample_calls : list ControllerIntent := take 2 mixed_sample.

Lemma ingress_reservations_witness :
  let s := default (initial_system sample_controller sample_calls)
    (acts (initial_system sample_controller sample_calls)
       (steps_of 0 1 ++ ActSubmit 0 true :: steps_of 0 5 ++ [ActReceive; ActSubmit 1 false])) in
  queue_depth s = N.of_nat (reservations s) ∧ (queue_depth s <= 1)%N ∧
  (queued_intents (sy_controller s) ≤ N.to_nat 1) ∧
  (∀ t staged full, sy_threads s !! t = Some (SubRelease staged full) → (0 < queue_depth s)%N) ∧
  (∀ staged batch, sy_worker s = WkReceived staged batch → (0 < queue_depth s)%N).
Proof.
  apply (ingress_reservations 1 (ImmediateDrain 4) sample_host sample_controller sample_calls
    (steps_of 0 1 ++ ActSubmit 0 true :: steps_of 0 5 ++ [ActReceive; ActSubmit 1 false])).
  - reflexivity.
  - reflexivity.
  - vm_compute. reflexivity.
Defined.

(** The gauge of intents in flight is stored by the worker while [submit] adds to
    it: here the worker ends an epoch between the announcement of a submission and
    its retraction, which a barrier in the channel forces, and the gauge wraps. *)
Lemma in_flight_wraps :
  ∃ s, acts (initial_system sample_controller sample_calls)
    (steps_of 0 5 ++ [ActReceive; ActClaim; ActBegin; ActFlush 0] ++ steps_of 1 4 ++ [ActEnd] ++ steps_of 1 3) = Some s ∧
  qh_counters (qc_host (sy_controller s)) QInFlight = u64_max ∧ sy_worker s = WkCollects [].
Proof. eexists. split; [vm_compute; reflexivity|]. split; reflexivity. Qed.

(** The reservations of intents that were in the channel when the worker died are
    never released: a controller whose channel was full then refuses every intent
    as full, not as closed. *)
Lemma dead_worker_is_full :
  ∃ s, acts (initial_system sample_controller sample_calls)
    (steps_of 0 5 ++ [ActReceive; ActClaim; ActBegin] ++ steps_of 1 5 ++ [ActDie]) = Some s ∧
  qc_receiving (sy_controller s) = false ∧ queue_depth s = 1%N ∧
  ∀ q, (submit q (sy_controller s)).1 = Err (SubmitFull q).
Proof. eexists. split; [vm_compute; reflexivity|]. split_and!; reflexivity. Qed.

(** ** One call at a time *)

(** A call that runs alone takes one step. *)
Lemma submit_run_step {D P : Type} `{Kernel D, MappedRoot P, MappedVocabulary P} n pc
    (c : QueuedIntentController D P) :
  (∀ r, pc ≠ SubReturn r) →
  submit_run (S n) pc c = submit_run n (submit_step false pc c).1 (submit_step false pc c).2.
Proof. intros Hpc. destruct pc as [| | | | | | |r]; cbn [submit_run]; [by destruct (submit_step _ _ _)..|by destruct (Hpc r)]. Qed.

(** What a call that runs alone does: the intent comes back exactly when it is
    refused, and a ticket is handed out exactly when the intent is queued. *)
Lemma submission_outcomes {D P : Type} `{Kernel D, MappedRoot P, MappedVocabulary P}
    (intent : ControllerIntent) (c : QueuedIntentController D P) :
  u64_ok (qc_capacity c) →
  let depth := qh_counters (qc_host c) QQueueDepth in
  let '(r, c') := submit_run 7 (SubLoad intent) c in
  match qc_sender c with
  | None => r = Err (SubmitClosed intent) ∧ c' = c
  | Some queue =>
      if (qc_capacity c <=? depth)%N
      then r = Err (SubmitFull intent) ∧ c' = on_shared (count QBackpressured) c
      else if qc_receiving c then
        if (N.of_nat (length queue) <? qc_capacity c)%N
        then ∃ staged, r = Ok (staged_lifecycle staged) ∧ staged_intent staged = intent ∧ staged_ok staged ∧
          staged_lifecycle staged = qh_next_ticket (qc_host c) ∧
          qc_sender c' = Some (queue ++ [CmdIntent staged]) ∧
          qh_tickets (qc_host c') = <[staged_lifecycle staged := lifecycle_new]> (qh_tickets (qc_host c)) ∧
          qh_counters (qc_host c') QQueueDepth = (depth + 1)%N
        else r = Err (SubmitFull intent) ∧ qc_sender c' = Some queue ∧ qh_counters (qc_host c') QQueueDepth = depth
      else r = Err (SubmitClosed intent) ∧ qc_sender c' = Some queue ∧ qh_counters (qc_host c') QQueueDepth = depth
  end.
Proof.
  intros Hw. cbv zeta. set (depth := qh_counters (qc_host c) QQueueDepth).
  rewrite submit_run_step by done. cbn [submit_step].
  destruct (qc_sender c) as [queue|] eqn:Hq; cbn [fst snd]; [|split; reflexivity].
  rewrite submit_run_step by done. cbn [submit_step]. fold depth.
  destruct (N.leb_spec (qc_capacity c) depth) as [Hle|Hlt]; cbn [fst snd]; [split; reflexivity|].
  rewrite N.eqb_refl. cbn [andb negb fst snd].
  assert (∀ a : atomics QueuedCounter, a QQueueDepth = (depth + 1)%N → u64_sub (a QQueueDepth) 1 = depth) as Hback.
  { intros a ->. replace (depth + 1)%N with (u64_add depth 1).
    - rewrite u64_add_sub. apply u64_wrap_small. unfold u64_ok in *. lia.
    - apply u64_add_small. unfold u64_ok in *. lia. }
  destruct (qc_receiving c) eqn:Hr; [destruct (N.ltb_spec (N.of_nat (length queue)) (qc_capacity c)) as [Hl|Hl]|].
  all: cbn -[u64_add u64_sub N.add store_at raise_to fetch_add fetch_sub N.of_nat]; rewrite Hq; unfold try_send;
    cbn -[u64_add u64_sub N.add store_at raise_to fetch_add fetch_sub N.of_nat N.ltb]; rewrite Hr.
  - rewrite (proj2 (N.ltb_lt _ _) Hl). cbn -[u64_add u64_sub N.add store_at raise_to fetch_add fetch_sub N.of_nat].
    eexists (StagedIntent_mk intent (route_of intent _) _ _). split_and!; [done..|]. rewrite !fetch_add_ne by done. unfold raise_to.
    case_match; rewrite ?store_at_ne by done; by rewrite store_at_eq.
  - rewrite (proj2 (N.ltb_ge _ _) Hl). cbn -[u64_add u64_sub N.add store_at raise_to fetch_add fetch_sub N.of_nat].
    split_and!; [done|done|]. rewrite fetch_add_ne, fetch_sub_ne by done. unfold fetch_sub. rewrite store_at_eq.
    apply Hback. rewrite !fetch_add_ne by done. unfold raise_to.
    case_match; rewrite ?store_at_ne by done; by rewrite store_at_eq.
  - cbn -[u64_add u64_sub N.add store_at raise_to fetch_add fetch_sub N.of_nat].
    split_and!; [done|done|]. rewrite fetch_sub_ne by done. unfold fetch_sub. rewrite store_at_eq.
    apply Hback. rewrite !fetch_add_ne by done. unfold raise_to.
    case_match; rewrite ?store_at_ne by done; by rewrite store_at_eq.
Qed.
