(* ===== verification/DurableController.v ===== *)
(** The durable queued controller (forthdb-world/src/file_epoch_controller.rs):
    its states, tickets and counters, admission, the worker that persists each
    epoch before it publishes it, shutdown, and the worker that derives one epoch
    ahead while io_uring persists the last.

    Batching.v says how a worker is driven; a [Drains] of its script is the first
    step of a shutdown on another thread.  Reasons are their texts up to the colon,
    without the panic's own message; the text of a store error is the error.  The
    lifecycle of a ticket is the code of the in-memory controller's.  Locks taken
    for one step only are not modelled, nor the feature of fault injection. *)
From Stdlib Require Import NArith ZArith Lia SpecFloat.
From stdpp Require Import base gmap list strings option.
From S2P Require Import Prelude Ord Terms Bytes Query QueryFacts Spec Index Kernel Frames.
From S2P Require Import VmProjection Worlds Intents Epochs FileStore EpochCodec EpochStore StackVm VmEpochs IoUring.
From S2P Require Import Batching.
From S2P Require Import MixedEpochs QueuedController.

(** ** States, tickets and counters *)

Inductive DurableControllerState := DStarting | DRunning | DDraining | DClosed | DPoisoned.
#[export] Instance DurableControllerState_eq_dec : EqDecision DurableControllerState.
Proof. solve_decision. Defined.

(** [from_raw] and the encoding of [set_state]; other bytes are unreachable. *)
Definition state_raw (s : DurableControllerState) : N :=
  match s with DStarting => 0 | DRunning => 1 | DDraining => 2 | DClosed => 3 | DPoisoned => 4 end.
Definition from_raw (n : N) : option DurableControllerState :=
  match n with
  | 0 => Some DStarting | 1 => Some DRunning | 2 => Some DDraining | 3 => Some DClosed | 4 => Some DPoisoned
  | _ => None
  end%N.

Inductive DurableTicketRejection :=
| DurableWorldPrecondition (expected actual : WorldId)
| DurableSlotPrecondition (slot : SlotId) (expected actual : option Fact)
| DurableUnknownTemporaryEntity (t : TempEntity)
| DurableCandidate (error : CandidateError)
| DurableValidation (message : string).

Definition from_intent (e : IntentRejection) : DurableTicketRejection :=
  match e with
  | WorldPrecondition expected actual => DurableWorldPrecondition expected actual
  | SlotPrecondition slot expected actual => DurableSlotPrecondition slot expected actual
  | UnknownTemporaryEntity t => DurableUnknownTemporaryEntity t
  | IntentCandidate error => DurableCandidate error
  | IntentValidation message => DurableValidation message
  end.

Inductive DurableTicketStopReason := ShutdownBeforeClaim | WorkerFailed (reason : string).

(** [DrainReason]. *)
Inductive DrainReason := DrainShutdown | DrainFailed (reason : string).

Record DurableControllerStopped := DurableControllerStopped_mk {
  stopped_state : DurableControllerState;
  stopped_reason : option string;
}.

Record DurableShutdownReport := DurableShutdownReport_mk {
  previous_state : DurableControllerState;
  final_state : DurableControllerState;
  queued_stopped : N;
  worker_failures : N;
  shutdown_reason : option string;
}.

(** The [AtomicU64] fields of [DurableControllerMetricsInner]. *)
Inductive DurableCounter :=
| DuSubmitted | DuBackpressured | DuClaimed | DuAccepted | DuRejected | DuDurabilityFailed
| DuShutdownBeforeClaim | DuWorkerFailed | DuEpochs | DuSpeculativePrepared | DuSpeculativeRederived
| DuAbandonedTickets | DuDeliveryFailures | DuQueueDepth | DuMaximumQueueDepth | DuInFlight
| DuQueueWaitNanos | DuDeriveNanos | DuPersistNanos | DuPublishNanos | DuDeliveryNanos | DuEpochTotalNanos
| DuSealedBy (reason : BatchSealReason)
| DuMaximumTargetWidth | DuTotalAdaptiveProbeWaitNs | DuMaximumOldestAgeAtSealNs.
#[export] Instance DurableCounter_eq_dec : EqDecision DurableCounter.
Proof. solve_decision. Defined.

(** [estimated_pipeline_speedup_ceiling] of a snapshot of the counters. *)
Definition pipeline_speedup_ceiling (c : atomics DurableCounter) : option f64 :=
  if ((c DuDeriveNanos =? 0) || (c DuPersistNanos =? 0))%N then None
  else Some (SFdiv 53 1024 (f64_of_N (u64_saturating_add (c DuDeriveNanos) (c DuPersistNanos)))
               (f64_of_N (N.max (c DuDeriveNanos) (c DuPersistNanos)))).

Section durable.
Context {D P I : Type} `{Kernel D, MappedRoot P, MappedVocabulary P, EpochFileIo I, Platform}.

Abbreviation Store := (FileEpochStore I) (only parsing).
Abbreviation DurableDatabase := (Database D P (FileEpochStore I)) (only parsing).

Inductive DurableTicketOutcome :=
| DurableAccepted (world : World D P) (frame : CommitFrame) (entities : gmap TempEntity EntityId)
| DurableRejected (r : DurableTicketRejection)
| DurabilityFailed (error : FileEpochStoreError)
| Stopped (reason : DurableTicketStopReason).

Definition outcome_world (o : DurableTicketOutcome) : option (World D P) :=
  match o with DurableAccepted world _ _ => Some world | _ => None end.
Definition outcome_rejection (o : DurableTicketOutcome) : option DurableTicketRejection :=
  match o with DurableRejected r => Some r | _ => None end.
Definition durability_error (o : DurableTicketOutcome) : option FileEpochStoreError :=
  match o with DurabilityFailed e => Some e | _ => None end.
Definition stop_reason (o : DurableTicketOutcome) : option DurableTicketStopReason :=
  match o with Stopped r => Some r | _ => None end.

Inductive DurableAnswer :=
| TicketAnswer (ticket : N) (o : DurableTicketOutcome)
| FlushAnswer (completed : N) (r : outcome DurableControllerStopped unit).

(** What the threads share, with the environment's answers.  [dh_sender] is
    whether the shared sender is still there. *)
Record DurableHost := DurableHost_mk {
  dh_state : DurableControllerState;
  dh_poison_reason : option string;
  dh_counters : atomics DurableCounter;
  dh_worker_alive : bool;
  dh_sender : bool;
  dh_tickets : gmap N TicketState;
  dh_next_ticket : N;
  dh_answers : list DurableAnswer;
  dh_clock : nat → N;
  dh_reads : nat;
  dh_waiting : N → bool;
}.

Definition dh_set_state (state : DurableControllerState) (h : DurableHost) : DurableHost :=
  DurableHost_mk state (dh_poison_reason h) (dh_counters h) (dh_worker_alive h) (dh_sender h) (dh_tickets h)
    (dh_next_ticket h) (dh_answers h) (dh_clock h) (dh_reads h) (dh_waiting h).
Definition dh_on_counters (f : atomics DurableCounter → atomics DurableCounter) (h : DurableHost) : DurableHost :=
  DurableHost_mk (dh_state h) (dh_poison_reason h) (f (dh_counters h)) (dh_worker_alive h) (dh_sender h)
    (dh_tickets h) (dh_next_ticket h) (dh_answers h) (dh_clock h) (dh_reads h) (dh_waiting h).
Definition dcount (k : DurableCounter) : DurableHost → DurableHost := dh_on_counters (fetch_add k 1).
Definition dh_set_alive (alive : bool) (h : DurableHost) : DurableHost :=
  DurableHost_mk (dh_state h) (dh_poison_reason h) (dh_counters h) alive (dh_sender h) (dh_tickets h)
    (dh_next_ticket h) (dh_answers h) (dh_clock h) (dh_reads h) (dh_waiting h).
(** [sender.lock().take()]. *)
Definition dh_take_sender (h : DurableHost) : DurableHost :=
  DurableHost_mk (dh_state h) (dh_poison_reason h) (dh_counters h) (dh_worker_alive h) false (dh_tickets h)
    (dh_next_ticket h) (dh_answers h) (dh_clock h) (dh_reads h) (dh_waiting h).
Definition dh_on_ticket (t : N) (f : TicketState → TicketState) (h : DurableHost) : DurableHost :=
  DurableHost_mk (dh_state h) (dh_poison_reason h) (dh_counters h) (dh_worker_alive h) (dh_sender h)
    (alter f t (dh_tickets h)) (dh_next_ticket h) (dh_answers h) (dh_clock h) (dh_reads h) (dh_waiting h).
Definition dh_log (a : DurableAnswer) (h : DurableHost) : DurableHost :=
  DurableHost_mk (dh_state h) (dh_poison_reason h) (dh_counters h) (dh_worker_alive h) (dh_sender h)
    (dh_tickets h) (dh_next_ticket h) (dh_answers h ++ [a]) (dh_clock h) (dh_reads h) (dh_waiting h).
Definition dh_now (h : DurableHost) : N * DurableHost :=
  (dh_clock h (dh_reads h),
   DurableHost_mk (dh_state h) (dh_poison_reason h) (dh_counters h) (dh_worker_alive h) (dh_sender h)
     (dh_tickets h) (dh_next_ticket h) (dh_answers h) (dh_clock h) (S (dh_reads h)) (dh_waiting h)).

(** [poison]: the reason, and the state. *)
Definition poison (reason : string) (h : DurableHost) : DurableHost :=
  DurableHost_mk DPoisoned (Some reason) (dh_counters h) (dh_worker_alive h) (dh_sender h) (dh_tickets h)
    (dh_next_ticket h) (dh_answers h) (dh_clock h) (dh_reads h) (dh_waiting h).

Definition stopped (h : DurableHost) : DurableControllerStopped :=
  DurableControllerStopped_mk (dh_state h) (dh_poison_reason h).

(** [nanos(started.elapsed())] added to a counter. *)
Definition nanos (duration : N) : N := N.min duration u64_max.
Definition count_elapsed (k : DurableCounter) (started : N) (h : DurableHost) : DurableHost :=
  let '(now, h) := dh_now h in dh_on_counters (fetch_add k (nanos (now - started))) h.

Definition durable_reserve_ingress (capacity : N) (h : DurableHost) : option N * DurableHost :=
  let current := dh_counters h DuQueueDepth in
  if (capacity <=? current)%N then (None, h)
  else (Some (current + 1)%N, dh_on_counters (store_at DuQueueDepth (current + 1)) h).
Definition durable_release_ingress : DurableHost → DurableHost := dh_on_counters (fetch_sub DuQueueDepth 1).
Definition durable_observe_queue_depth (depth : N) : DurableHost → DurableHost :=
  dh_on_counters (raise_to DuMaximumQueueDepth depth).
Definition durable_record_seal_reason (reason : BatchSealReason) : DurableHost → DurableHost :=
  dcount (DuSealedBy reason).
Definition durable_record_max_target_width (width : N) : DurableHost → DurableHost :=
  dh_on_counters (raise_to DuMaximumTargetWidth width).
Definition durable_record_oldest_age_at_seal (age : N) : DurableHost → DurableHost :=
  dh_on_counters (raise_to DuMaximumOldestAgeAtSealNs (u64_wrap age)).

(** ** Staging and claiming *)

(** The completion and the lifecycle are those of the ticket. *)
Record DurableStagedIntent := DurableStagedIntent_mk {
  ds_intent : QueuedIntent;
  ds_ticket : N;
  ds_admitted_at : N;
}.

Definition durable_claim (staged : DurableStagedIntent) (h : DurableHost) : DurableHost :=
  dh_on_ticket (ds_ticket staged) lifecycle_claim
    (count_elapsed DuQueueWaitNanos (ds_admitted_at staged) (dcount DuClaimed (durable_release_ingress h))).

(** The first step of [shutdown_internal]. *)
Definition shutdown_begin (h : DurableHost) : DurableHost :=
  match dh_state h with DStarting | DRunning => dh_set_state DDraining h | _ => h end.

#[export] Instance durable_host : BatchHost DurableStagedIntent DurableHost := {
  staged_at := ds_admitted_at;
  host_claim := durable_claim;
  host_now := dh_now;
  host_probe_wait n := dh_on_counters (fetch_add DuTotalAdaptiveProbeWaitNs (u64_wrap n));
  host_oldest_age := durable_record_oldest_age_at_seal;
  host_target_width := durable_record_max_target_width;
  host_running h := bool_decide (dh_state h = DRunning);
  host_drains := shutdown_begin;
}.

(** The batch that an intent opens, as this controller has it; on the right, a
    panic. *)
Definition durable_collect_batch (policy : BatchPolicy) (script : list (Arrival DurableStagedIntent))
    (first : DurableStagedIntent) (adaptive : AdaptiveState) (pending : list (Command DurableStagedIntent))
    (h : DurableHost) :
    list (Arrival DurableStagedIntent) * BatchSealReason * Batch DurableStagedIntent DurableHost + DurableHost :=
  form_batch policy script first adaptive pending h.

(** ** Resolution *)

Definition resolve (ticket : N) (o : DurableTicketOutcome) (h : DurableHost) : DurableHost :=
  let h := dh_log (TicketAnswer ticket o) (dh_on_ticket ticket lifecycle_resolve h) in
  if dh_waiting h ticket then h else dcount DuDeliveryFailures h.

Fixpoint route_success (tickets : list N) (outcomes : list (EpochOutcome D P)) (h : DurableHost) : DurableHost :=
  match tickets, outcomes with
  | t :: tickets, EpochAccepted a :: outcomes =>
      route_success tickets outcomes
        (resolve t (DurableAccepted (ai_world a) (ai_frame a) (ai_entities a)) (dcount DuAccepted h))
  | t :: tickets, EpochRejected r :: outcomes =>
      route_success tickets outcomes (resolve t (DurableRejected (from_intent (ri_error r))) (dcount DuRejected h))
  | _, _ => h
  end.

Fixpoint route_failure (tickets : list N) (outcomes : list (EpochOutcome D P)) (error : FileEpochStoreError)
    (h : DurableHost) : DurableHost :=
  match tickets, outcomes with
  | t :: tickets, EpochAccepted _ :: outcomes =>
      route_failure tickets outcomes error (resolve t (DurabilityFailed error) (dcount DuDurabilityFailed h))
  | t :: tickets, EpochRejected r :: outcomes =>
      route_failure tickets outcomes error
        (resolve t (DurableRejected (from_intent (ri_error r))) (dcount DuRejected h))
  | _, _ => h
  end.

Fixpoint route_stopped (tickets : list N) (reason : DurableTicketStopReason) (h : DurableHost) : DurableHost :=
  match tickets with
  | t :: tickets => route_stopped tickets reason (resolve t (Stopped reason) h)
  | [] => h
  end.

Definition reject_command (reason : DrainReason) (command : Command DurableStagedIntent) (h : DurableHost) :
    DurableHost :=
  match command with
  | CmdIntent staged =>
      let h := durable_release_ingress h in
      match reason with
      | DrainShutdown => resolve (ds_ticket staged) (Stopped ShutdownBeforeClaim) (dcount DuShutdownBeforeClaim h)
      | DrainFailed message =>
          resolve (ds_ticket staged) (Stopped (WorkerFailed message)) (dcount DuWorkerFailed h)
      end
  | CmdBarrier completed => dh_log (FlushAnswer completed (Err (stopped h))) h
  end.

(** [drain_receiver]: until the channel is found empty; what arrives later is
    lost with the receiver. *)
Fixpoint drain_receiver (reason : DrainReason) (script : list (Arrival DurableStagedIntent)) (h : DurableHost) :
    list (Arrival DurableStagedIntent) * DurableHost :=
  match script with
  | Arrives c :: script => drain_receiver reason script (reject_command reason c h)
  | Drains :: script => drain_receiver reason script (shutdown_begin h)
  | Quiet :: script => (script, h)
  | [] => ([], h)
  end.

Definition drain_pending_and_receiver (reason : DrainReason) (pending : list (Command DurableStagedIntent))
    (script : list (Arrival DurableStagedIntent)) (h : DurableHost) :
    list (Arrival DurableStagedIntent) * DurableHost :=
  drain_receiver reason script (foldl (λ h c, reject_command reason c h) h pending).

(** ** One epoch *)

Definition with_store (s : Store) (db : DurableDatabase) : DurableDatabase :=
  Database_mk (db_current db) s (db_validators db).
Definition publish (w : World D P) (db : DurableDatabase) : DurableDatabase :=
  Database_mk w (db_store db) (db_validators db).

Definition poison_store (reason : string) (db : DurableDatabase) : DurableDatabase :=
  with_store (poison_external reason (db_store db)) db.

(** The plan of a batch; [None] is a panic of [expect]. *)
Definition derive_plan (base : World D P) (intents : list QueuedIntent)
    (validators : list (CandidateWorld D → outcome string unit)) : option (EpochPlan D P) :=
  match (materialize base intents validators (materializer_new (w_next_entity base))).1 with
  | Ok (plan, _) => Some plan
  | _ => None
  end.

Inductive CommitResult :=
| CommitDone (plan : EpochPlan D P)
| CommitFailed (plan : EpochPlan D P) (error : FileEpochStoreError)
| CommitPanicked.

(** [commit_durable_epoch]. *)
Definition commit_durable_epoch (db : DurableDatabase) (intents : list QueuedIntent) (h : DurableHost) :
    CommitResult * DurableDatabase * DurableHost :=
  let '(derive_started, h) := dh_now h in
  match derive_plan (db_current db) intents (db_validators db) with
  | None => (CommitPanicked, db, h)
  | Some plan =>
      let h := count_elapsed DuDeriveNanos derive_started h in
      if plan_is_empty plan then (CommitDone plan, db, h)
      else
        let '(persist_started, h) := dh_now h in
        let '(append_result, s) := append_epoch (D := D) (P := P) (ep_frames plan) (db_store db) in
        let db := with_store s db in
        match append_result with
        | Panic => (CommitPanicked, db, h)
        | Err error => (CommitFailed plan error, db, count_elapsed DuPersistNanos persist_started h)
        | Ok _ =>
            let h := count_elapsed DuPersistNanos persist_started h in
            let '(publish_started, h) := dh_now h in
            let db := publish (ep_tail plan) db in
            (CommitDone plan, db, count_elapsed DuPublishNanos publish_started h)
        end
  end.

(** [process_durable_batch]; [Some reason] is its error. *)
Definition process_durable_batch (db : DurableDatabase) (batch : list DurableStagedIntent) (h : DurableHost) :
    option string * DurableDatabase * DurableHost :=
  let '(epoch_started, h) := dh_now h in
  let h := dh_on_counters (store_at DuInFlight (N.of_nat (length batch))) h in
  let routes := ds_ticket <$> batch in
  let '(commit, db, h) := commit_durable_epoch db (ds_intent <$> batch) h in
  let '(delivery_started, h) := dh_now h in
  match commit with
  | CommitPanicked =>
      let reason := "durable epoch worker failed"%string in
      let h := dcount DuWorkerFailed (route_stopped routes (WorkerFailed reason) h) in
      let h := dh_on_counters (store_at DuInFlight 0) h in
      (Some reason, db, count_elapsed DuEpochTotalNanos epoch_started (count_elapsed DuDeliveryNanos delivery_started h))
  | CommitDone plan | CommitFailed plan _ =>
      let h := match commit with
               | CommitFailed _ error => route_failure routes (ep_outcomes plan) error h
               | _ => route_success routes (ep_outcomes plan) h
               end in
      let h := dcount DuEpochs (count_elapsed DuDeliveryNanos delivery_started h) in
      (None, db, count_elapsed DuEpochTotalNanos epoch_started (dh_on_counters (store_at DuInFlight 0) h))
  end.

(** ** The worker *)

Record DurableWorker := DurableWorker_mk {
  dw_database : DurableDatabase;
  dw_adaptive : AdaptiveState;
  dw_pending : list (Command DurableStagedIntent);
  dw_script : list (Arrival DurableStagedIntent);
  dw_host : DurableHost;
}.

(** A round goes on, breaks, or unwinds. *)
Inductive DurableRound :=
| DurableContinues (w : DurableWorker)
| DurableBreaks (w : DurableWorker)
| DurableUnwinds (w : DurableWorker).

(** The test of the state after a command is received: why the worker stops. *)
Definition stop_of (h : DurableHost) : option DrainReason :=
  match dh_state h with
  | DDraining | DClosed => Some DrainShutdown
  | DPoisoned => Some (DrainFailed (default "durable controller is poisoned"%string (dh_poison_reason h)))
  | DStarting | DRunning => None
  end.

Definition durable_worker_round (policy : BatchPolicy) (w : DurableWorker) : DurableRound :=
  let '(command, pending, script, h) := next_command (dw_pending w) (dw_script w) (dw_host w) in
  match command with
  | None => DurableBreaks (DurableWorker_mk (dw_database w) (dw_adaptive w) pending script h)
  | Some command =>
      let '(script, h) := settle script h in
      match stop_of h with
      | Some reason =>
          let h := reject_command reason command h in
          let '(script, h) := drain_pending_and_receiver reason pending script h in
          DurableBreaks (DurableWorker_mk (dw_database w) (dw_adaptive w) [] script h)
      | None =>
          match command with
          | CmdIntent first =>
              match durable_collect_batch policy script first (dw_adaptive w) pending h with
              | inr h => DurableUnwinds (DurableWorker_mk (dw_database w) (dw_adaptive w) pending script h)
              | inl (script, sealed, b) =>
                  let h := durable_record_seal_reason sealed (bt_host b) in
                  let '(failed, db, h) := process_durable_batch (dw_database w) (bt_staged b) h in
                  match failed with
                  | None => DurableContinues (DurableWorker_mk db (bt_adaptive b) (bt_pending b) script h)
                  | Some reason =>
                      let h := dh_take_sender (poison reason h) in
                      let '(script, h) := drain_pending_and_receiver (DrainFailed reason) (bt_pending b) script h in
                      DurableBreaks (DurableWorker_mk (poison_store reason db) (bt_adaptive b) [] script h)
                  end
              end
          | CmdBarrier completed =>
              DurableContinues (DurableWorker_mk (dw_database w) (dw_adaptive w) pending script
                (dh_log (FlushAnswer completed (Ok tt)) (durable_record_seal_reason SealBarrier h)))
          end
      end
  end.

(** [run_durable_worker_loop]: whether it broke, and the worker; [None] when the
    fuel runs out. *)
Fixpoint durable_worker_loop (fuel : nat) (policy : BatchPolicy) (w : DurableWorker) : option (bool * DurableWorker) :=
  match fuel with
  | 0 => None
  | S fuel =>
      match durable_worker_round policy w with
      | DurableContinues w => durable_worker_loop fuel policy w
      | DurableBreaks w => Some (true, w)
      | DurableUnwinds w => Some (false, w)
      end
  end.

(** What [run_durable_worker] makes of a panic that left the loop: its pending
    commands and its batch are dropped unanswered, the channel is drained. *)
Definition durable_worker_unwound (reason : string) (w : DurableWorker) : DurableWorker :=
  let '(script, h) := drain_receiver (DrainFailed reason) (dw_script w) (dh_take_sender (poison reason (dw_host w))) in
  DurableWorker_mk (poison_store reason (dw_database w)) (dw_adaptive w) [] script h.

(** What [run_durable_worker] does after the loop. *)
Definition durable_worker_exit (exited : string) (w : DurableWorker) : DurableWorker :=
  let '(script, h) := settle (dw_script w) (dw_host w) in
  let '(db, h) :=
    match dh_state h with
    | DRunning => (poison_store exited (dw_database w), poison exited h)
    | DDraining => (dw_database w, dh_set_state DClosed h)
    | _ => (dw_database w, h)
    end in
  DurableWorker_mk db (dw_adaptive w) (dw_pending w) script (dh_set_alive false h).

Definition run_durable_worker (policy : BatchPolicy) (db : DurableDatabase)
    (script : list (Arrival DurableStagedIntent)) (h : DurableHost) : option DurableWorker :=
  '(ok, w) ← durable_worker_loop (S (worker_measure [] script)) policy
    (DurableWorker_mk db (adaptive_new (initial_width policy)) [] script h);
  let w := if ok : bool then w else durable_worker_unwound "durable worker panicked outside epoch boundary" w in
  Some (durable_worker_exit "durable worker exited while controller was running" w).
End durable.
Arguments DurableTicketOutcome : clear implicits.
Arguments DurableAnswer : clear implicits.
Arguments DurableHost : clear implicits.
Arguments CommitResult : clear implicits.
Arguments DurableWorker : clear implicits.

(** ** The controller *)

Inductive DurableSubmitError :=
| DurableFull (intent : QueuedIntent)
| DurableClosed (intent : QueuedIntent)
| DurablePoisoned (intent : QueuedIntent) (reason : string).

Definition into_intent (e : DurableSubmitError) : QueuedIntent :=
  match e with DurableFull intent | DurableClosed intent | DurablePoisoned intent _ => intent end.

Inductive DurableControllerConfigError := DurableZeroCapacity | DurableZeroBatchSize | DurableSpawn.
Inductive DurableControllerOpenError :=
| OpenWriterLease
| OpenStore (e : FileEpochStoreError)
| OpenHistory (e : CandidateError)
| OpenController (e : DurableControllerConfigError).

Section controller.
Context {D P I : Type} `{Kernel D, MappedRoot P, MappedVocabulary P, EpochFileIo I}.

(** The commands in the channel, whether the worker still holds the receiver,
    and whether the writer lease is held; the sender is [dh_sender]. *)
Record DurableController := DurableController_mk {
  dc_database : Database D P (FileEpochStore I);
  dc_queue : list (Command DurableStagedIntent);
  dc_receiving : bool;
  dc_capacity : N;
  dc_max_batch : N;
  dc_lease : bool;
  dc_host : DurableHost D P;
}.

Definition dc_on_host (f : DurableHost D P → DurableHost D P) (c : DurableController) : DurableController :=
  DurableController_mk (dc_database c) (dc_queue c) (dc_receiving c) (dc_capacity c) (dc_max_batch c) (dc_lease c)
    (f (dc_host c)).
Definition dc_push (command : Command DurableStagedIntent) (c : DurableController) : DurableController :=
  DurableController_mk (dc_database c) (dc_queue c ++ [command]) (dc_receiving c) (dc_capacity c) (dc_max_batch c)
    (dc_lease c) (dc_host c).

(** The metrics a controller starts with. *)
Definition durable_started (h : DurableHost D P) : DurableHost D P :=
  DurableHost_mk DRunning None zeroed true true (dh_tickets h) (dh_next_ticket h) (dh_answers h)
    (dh_clock h) (dh_reads h) (dh_waiting h).

(** [new_with_runner]; [spawned] is whether the thread started. *)
Definition durable_new (db : Database D P (FileEpochStore I)) (capacity : N) (policy : BatchPolicy)
    (lease spawned : bool) (h : DurableHost D P) : outcome DurableControllerConfigError DurableController :=
  let max_batch := policy_max_batch policy in
  if (capacity =? 0)%N then Err DurableZeroCapacity
  else if (max_batch =? 0)%N then Err DurableZeroBatchSize
  else if spawned
  then Ok (DurableController_mk db [] true capacity max_batch lease (durable_started h))
  else Err DurableSpawn.

(** [open_owned_with_policy] on a file with the given bytes; [lease] is whether
    the writer lease is free. *)
Definition open_owned_with_policy (lease : bool) (open_file : list u8 → outcome io_error I) (bytes : list u8)
    (sync_policy : FileEpochSyncPolicy) (capacity : N) (policy : BatchPolicy) (spawned : bool)
    (h : DurableHost D P) : outcome DurableControllerOpenError DurableController :=
  if lease then
    let* store := map_err OpenStore (epoch_open (D := D) (P := P) open_file bytes sync_policy) in
    let* db := map_err OpenHistory (database_new (H1 := epoch_store (D := D) (P := P)) store) in
    map_err OpenController (durable_new db capacity policy true spawned h)
  else Err OpenWriterLease.

(** [submit] up to the reservation: the tests under the lock of the sender. *)
Definition submit_check (intent : QueuedIntent) (h : DurableHost D P) : option DurableSubmitError :=
  match dh_state h with
  | DPoisoned =>
      Some (DurablePoisoned intent (default "worker or store state is uncertain"%string (dh_poison_reason h)))
  | DRunning => if dh_sender h then None else Some (DurableClosed intent)
  | DStarting | DDraining | DClosed => Some (DurableClosed intent)
  end.

(** ... and from there on. *)
Definition submit_send (intent : QueuedIntent) (c : DurableController) :
    outcome DurableSubmitError N * DurableController :=
  match durable_reserve_ingress (dc_capacity c) (dc_host c) with
  | (None, h) => (Err (DurableFull intent), dc_on_host (λ _, dcount DuBackpressured h) c)
  | (Some depth, h) =>
      let '(now, h) := dh_now h in
      let ticket := dh_next_ticket h in
      let c := dc_on_host (λ _, h) c in
      if dc_receiving c then
        if (N.of_nat (length (dc_queue c)) <? dc_capacity c)%N then
          let h := dcount DuSubmitted (durable_observe_queue_depth depth h) in
          (Ok ticket,
           dc_push (CmdIntent (DurableStagedIntent_mk intent ticket now))
             (dc_on_host (λ _, DurableHost_mk (dh_state h) (dh_poison_reason h) (dh_counters h) (dh_worker_alive h)
                (dh_sender h) (<[ticket := lifecycle_new]> (dh_tickets h)) (u64_add ticket 1) (dh_answers h)
                (dh_clock h) (dh_reads h) (dh_waiting h)) c))
        else
          (Err (DurableFull intent), dc_on_host (dcount DuBackpressured ∘ durable_release_ingress) c)
      else
        let reason := "durable worker command channel disconnected unexpectedly"%string in
        (Err (DurablePoisoned intent reason), dc_on_host (poison reason ∘ durable_release_ingress) c)
  end.

Definition durable_submit (intent : QueuedIntent) (c : DurableController) :
    outcome DurableSubmitError N * DurableController :=
  match submit_check intent (dc_host c) with
  | Some e => (Err e, c)
  | None => submit_send intent c
  end.

(** The request of [flush], which waits for room ([None]). *)
Definition durable_flush_request (completed : N) (c : DurableController) :
    option (outcome DurableControllerStopped DurableController) :=
  if decide (dh_state (dc_host c) ≠ DRunning) then Some (Err (stopped (dc_host c)))
  else if dh_sender (dc_host c) then
    if dc_receiving c then
      if (N.of_nat (length (dc_queue c)) <? dc_capacity c)%N
      then Some (Ok (dc_push (CmdBarrier completed) c)) else None
    else Some (Err (stopped (dc_host c)))
  else Some (Err (stopped (dc_host c))).

(** [shutdown_internal] once the worker is gone: what joining it told, the final
    state, the lease, the report. *)
Definition shutdown_finish (previous : DurableControllerState) (joined : bool) (c : DurableController) :
    DurableShutdownReport * DurableController :=
  let reason := "durable worker join observed panic"%string in
  let h := if joined then dc_host c else poison reason (dc_host c) in
  let db := if joined then dc_database c else poison_store reason (dc_database c) in
  let h := match dh_state h with DDraining => dh_set_state DClosed h | _ => h end in
  (DurableShutdownReport_mk previous (dh_state h) (dh_counters h DuShutdownBeforeClaim)
     (dh_counters h DuWorkerFailed) (dh_poison_reason h),
   DurableController_mk db (dc_queue c) (dc_receiving c) (dc_capacity c) (dc_max_batch c) false h).

(** ** Waiting for a ticket *)

Definition ticket_answer (ticket : N) (h : DurableHost D P) : option (DurableTicketOutcome D P) :=
  head (omap (λ a, match a with
                   | TicketAnswer t o => if decide (t = ticket) then Some o else None
                   | FlushAnswer _ _ => None
                   end) (dh_answers h)).

(** [try_wait]: nothing yet, the outcome, or an error once the sender is gone. *)
Definition try_wait (sender_gone : bool) (ticket : N) (h : DurableHost D P) :
    outcome unit (option (DurableTicketOutcome D P)) :=
  match ticket_answer ticket h with
  | Some o => Ok (Some o)
  | None => if sender_gone then Err tt else Ok None
  end.

(** [Drop]: a ticket whose result was never observed is abandoned, once. *)
Definition durable_drop_ticket (observed : bool) (ticket : N) (h : DurableHost D P) : DurableHost D P :=
  if observed then h
  else
    match dh_tickets h !! ticket with
    | Some s =>
        let '(first, s) := lifecycle_abandon s in
        (if first then dcount DuAbandonedTickets else id) (dh_on_ticket ticket (λ _, s) h)
    | None => h
    end.
End controller.
Arguments DurableController : clear implicits.

(** ** One epoch ahead *)

(** The text of an error of the transport, without the numbers in it. *)
Definition ring_cause (e : ring_error) : io_error :=
  match e with
  | RingIo e => e
  | EpochTooLong => CustomError "contiguous epoch exceeds one io_uring write length"
  | QueueFull => CustomError "io_uring submission queue could not accept the epoch"
  | RingUnavailable => CustomError "io_uring epoch transport is unavailable after ring failure"
  | InvalidCompletion (CompletionCount _ _) => CustomError "expected CQEs, observed"
  | InvalidCompletion DuplicateFsync => CustomError "duplicate fsync completion"
  | InvalidCompletion (UnknownUserData _) => CustomError "unknown completion user_data"
  | InvalidCompletion (OutOfRangeWrite _) => CustomError "out-of-range write completion"
  | InvalidCompletion (DuplicateWrite _) => CustomError "duplicate write completion"
  | InvalidCompletion (NoncanonicalWrite _) => CustomError "noncanonical expected write identifier at index"
  | InvalidCompletion (MissingWrite _) => CustomError "missing write completion"
  | InvalidCompletion MissingFsync => CustomError "missing data-synchronization completion"
  | InvalidCompletion (UnexpectedFsync _) => CustomError "io_uring fsync returned unexpected result"
  | ShortWrite _ _ _ => CustomError "io_uring write completed of bytes"
  end%string.

Definition phase_cause {A} (r : outcome (EpochIoPhase * ring_error) A) : outcome (EpochIoPhase * io_error) A :=
  map_err (λ e, (e.1, ring_cause e.2)) r.

Section speculative.
Context {D P U : Type} `{Kernel D, MappedRoot P, MappedVocabulary P, Ring U, EpochFileIo U, Platform}.

Abbreviation RingStore := (FileEpochStore (IoUringEpochFileIo U)) (only parsing).
Abbreviation RingDatabase := (Database D P (FileEpochStore (IoUringEpochFileIo U))) (only parsing).

(** [open_store_with_entries] on a file with the given bytes. *)
Definition open_store_with_entries (entries : N) (system : list u8 → U) (bytes : list u8) :
    outcome FileEpochStoreError RingStore :=
  if (entries <? 2)%N
  then Err (EpochIo VerifyRead (CustomError "io_uring epoch transport requires at least two ring entries"))
  else
    let '(cold, bytes) := open_store (D := D) (P := P) bytes in
    let* _ := map_err (λ e, EpochFile (ColdOpen e)) cold in
    let* io := map_err (EpochIo VerifyRead) (uring_open entries (system bytes)).1 in
    (from_io (D := D) (P := P) io PerEpoch).1.

(** [new_speculative], and [open_owned_speculative] on a file with the given bytes;
    the controllers run [run_speculative_io_uring_worker] below. *)
Definition new_speculative (db : RingDatabase) (capacity max_batch : N) (spawned : bool) (h : DurableHost D P) :
    outcome DurableControllerConfigError (DurableController D P (IoUringEpochFileIo U)) :=
  durable_new db capacity (ImmediateDrain max_batch) false spawned h.

Definition open_owned_speculative (lease : bool) (entries : N) (system : list u8 → U) (bytes : list u8)
    (capacity max_batch : N) (spawned : bool) (h : DurableHost D P) :
    outcome DurableControllerOpenError (DurableController D P (IoUringEpochFileIo U)) :=
  if lease then
    let* store := map_err OpenStore (open_store_with_entries entries system bytes) in
    let* db := map_err OpenHistory (database_new (H1 := epoch_store (D := D) (P := P)) store) in
    map_err OpenController (durable_new db capacity (ImmediateDrain max_batch) true spawned h)
  else Err OpenWriterLease.

Record UnplannedDurableBatch := UnplannedDurableBatch_mk {
  up_intents : list QueuedIntent;
  up_routes : list N;
  up_epoch_started : N;
}.

Record PreparedDurableBatch := PreparedDurableBatch_mk {
  pp_source : UnplannedDurableBatch;
  pp_plan : EpochPlan D P;
}.

Record SpeculativeWorker := SpeculativeWorker_mk {
  sw_database : RingDatabase;
  sw_pending : list (Command DurableStagedIntent);
  sw_script : list (Arrival DurableStagedIntent);
  sw_host : DurableHost D P;
}.

Definition sw_with (db : RingDatabase) (h : DurableHost D P) (w : SpeculativeWorker) : SpeculativeWorker :=
  SpeculativeWorker_mk db (sw_pending w) (sw_script w) h.

(** The loop of [claim_batch]. *)
Fixpoint claim_loop (max_batch : N) (batch : list DurableStagedIntent) (pending : list (Command DurableStagedIntent))
    (script : list (Arrival DurableStagedIntent)) (h : DurableHost D P) :
    list DurableStagedIntent * list (Command DurableStagedIntent) * list (Arrival DurableStagedIntent) *
    DurableHost D P :=
  if (max_batch <=? N.of_nat (length batch))%N then (batch, pending, script, h)
  else
    match script with
    | [] => (batch, pending, [], h)
    | Drains :: script' => claim_loop max_batch batch pending script' (shutdown_begin h)
    | Quiet :: script' => (batch, pending, if bool_decide (dh_state h = DRunning) then script' else script, h)
    | Arrives (CmdIntent staged) :: script' =>
        if bool_decide (dh_state h = DRunning)
        then claim_loop max_batch (batch ++ [staged]) pending script' (durable_claim staged h)
        else (batch, pending, script, h)
    | Arrives (CmdBarrier completed) :: script' =>
        if bool_decide (dh_state h = DRunning)
        then (batch, pending ++ [CmdBarrier completed], script', h)
        else (batch, pending, script, h)
    end.

(** [None] when the vector cannot be reserved: a panic. *)
Definition claim_batch (first : DurableStagedIntent) (max_batch : N) (w : SpeculativeWorker) :
    option (list DurableStagedIntent) * SpeculativeWorker :=
  if reserves max_batch then
    let '(batch, pending, script, h) :=
      claim_loop max_batch [first] (sw_pending w) (sw_script w) (durable_claim first (sw_host w)) in
    (Some batch, SpeculativeWorker_mk (sw_database w) pending script h)
  else (None, w).

(** [None] is the panic of [claim_batch]. *)
Definition try_claim_successor_batch (max_batch : N) (w : SpeculativeWorker) :
    option (option (list DurableStagedIntent)) * SpeculativeWorker :=
  let '(script, h) := settle (sw_script w) (sw_host w) in
  let w := SpeculativeWorker_mk (sw_database w) (sw_pending w) script h in
  if decide (dh_state h ≠ DRunning) then (Some None, w)
  else
    match script with
    | Arrives (CmdIntent first) :: script =>
        let '(batch, w) := claim_batch first max_batch
          (SpeculativeWorker_mk (sw_database w) (sw_pending w) script h) in
        (Some <$> batch, w)
    | Arrives (CmdBarrier completed) :: script =>
        (Some None, SpeculativeWorker_mk (sw_database w) (sw_pending w ++ [CmdBarrier completed]) script h)
    | _ => (Some None, SpeculativeWorker_mk (sw_database w) (sw_pending w) (tail script) h)
    end.

Definition unplan_batch (batch : list DurableStagedIntent) (h : DurableHost D P) :
    UnplannedDurableBatch * DurableHost D P :=
  let h := dh_on_counters (fetch_add DuInFlight (N.of_nat (length batch))) h in
  let '(now, h) := dh_now h in
  (UnplannedDurableBatch_mk (ds_intent <$> batch) (ds_ticket <$> batch) now, h).

Definition derivation_failed : string := "speculative epoch derivation failed".

(** [derive_prepared_batch]; [None] is the error, with the source and the reason
    the caller has. *)
Definition derive_prepared_batch (source : UnplannedDurableBatch) (base : World D P)
    (validators : list (CandidateWorld D → outcome string unit)) (h : DurableHost D P) :
    option PreparedDurableBatch * DurableHost D P :=
  let '(derive_started, h) := dh_now h in
  (PreparedDurableBatch_mk source <$> derive_plan base (up_intents source) validators,
   count_elapsed DuDeriveNanos derive_started h).

Definition finish_batch_metrics (intents : nat) (epoch_started delivery_started : N) (h : DurableHost D P) :
    DurableHost D P :=
  let h := dcount DuEpochs (count_elapsed DuDeliveryNanos delivery_started h) in
  count_elapsed DuEpochTotalNanos epoch_started (dh_on_counters (fetch_sub DuInFlight (N.of_nat intents)) h).

Definition publish_and_route_success (prepared : PreparedDurableBatch) (db : RingDatabase) (h : DurableHost D P) :
    RingDatabase * DurableHost D P :=
  let source := pp_source prepared in
  let '(publish_started, h) := dh_now h in
  let db := publish (ep_tail (pp_plan prepared)) db in
  let '(delivery_started, h) := dh_now (count_elapsed DuPublishNanos publish_started h) in
  let h := route_success (up_routes source) (ep_outcomes (pp_plan prepared)) h in
  (db, finish_batch_metrics (length (up_intents source)) (up_epoch_started source) delivery_started h).

Definition finish_failed_batch (prepared : PreparedDurableBatch) (error : FileEpochStoreError)
    (h : DurableHost D P) : DurableHost D P :=
  let source := pp_source prepared in
  let '(delivery_started, h) := dh_now h in
  let h := route_failure (up_routes source) (ep_outcomes (pp_plan prepared)) error h in
  finish_batch_metrics (length (up_intents source)) (up_epoch_started source) delivery_started h.

Definition finish_stopped_batch (source : UnplannedDurableBatch) (reason : string) (h : DurableHost D P) :
    DurableHost D P :=
  let '(delivery_started, h) := dh_now h in
  let h := dcount DuWorkerFailed (route_stopped (up_routes source) (WorkerFailed reason) h) in
  finish_batch_metrics (length (up_intents source)) (up_epoch_started source) delivery_started h.

(** How the pipeline goes on or ends: with its next batch, well, with an error,
    or unwinding. *)
Inductive PipelineStep :=
| PipelineNext (prepared : PreparedDurableBatch) (w : SpeculativeWorker)
| PipelineEnds (w : SpeculativeWorker)
| PipelineFails (reason : string) (w : SpeculativeWorker)
| PipelinePanics (w : SpeculativeWorker).

(** A batch derived against the published world. *)
Definition derive_next (source : UnplannedDurableBatch) (w : SpeculativeWorker) : PipelineStep :=
  let db := sw_database w in
  match derive_prepared_batch source (db_current db) (db_validators db) (sw_host w) with
  | (Some prepared, h) => PipelineNext prepared (sw_with db h w)
  | (None, h) => PipelineFails derivation_failed (sw_with db (finish_stopped_batch source derivation_failed h) w)
  end.

(** The successor claimed and derived while the epoch is in flight; [None] is the
    panic of [claim_batch]. *)
Definition speculate (max_batch : N) (base : World D P) (w : SpeculativeWorker) :
    option (option (UnplannedDurableBatch * option PreparedDurableBatch)) * SpeculativeWorker :=
  match try_claim_successor_batch max_batch w with
  | (None, w) => (None, w)
  | (Some None, w) => (Some None, w)
  | (Some (Some batch), w) =>
      let '(source, h) := unplan_batch batch (dcount DuSpeculativePrepared (sw_host w)) in
      let '(r, h) := derive_prepared_batch source base (db_validators (sw_database w)) h in
      (Some (Some (source, r)), sw_with (sw_database w) h w)
  end.

(** What follows the epoch: the successor as derived, derived again when the
    epoch was not persisted, or stopped. *)
Definition continue_with (persisted : bool)
    (successor : option (UnplannedDurableBatch * option PreparedDurableBatch)) (w : SpeculativeWorker) :
    PipelineStep :=
  match successor with
  | None => PipelineEnds w
  | Some (source, None) =>
      PipelineFails derivation_failed
        (sw_with (sw_database w) (finish_stopped_batch source derivation_failed (sw_host w)) w)
  | Some (source, Some prepared) =>
      if persisted then PipelineNext prepared w
      else derive_next source (sw_with (sw_database w) (dcount DuSpeculativeRederived (sw_host w)) w)
  end.

(** One round of the loop of [process_speculative_pipeline]. *)
Definition pipeline_round (max_batch : N) (prepared : PreparedDurableBatch) (w : SpeculativeWorker) : PipelineStep :=
  let db := sw_database w in
  if plan_is_empty (pp_plan prepared) then
    let '(db, h) := publish_and_route_success prepared db (sw_host w) in
    match try_claim_successor_batch max_batch (sw_with db h w) with
    | (None, w) => PipelinePanics w
    | (Some None, w) => PipelineEnds w
    | (Some (Some batch), w) =>
        let '(source, h) := unplan_batch batch (sw_host w) in derive_next source (sw_with (sw_database w) h w)
    end
  else
    match prepare_epoch (ep_frames (pp_plan prepared)) (db_store db) with
    | (Panic, s) => PipelinePanics (sw_with (with_store s db) (sw_host w) w)
    | (Err error, s) =>
        PipelineEnds (sw_with (with_store s db) (finish_failed_batch prepared error (sw_host w)) w)
    | (Ok file_epoch, s) =>
        let '(persist_started, h) := dh_now (sw_host w) in
        match submit_contiguous_epoch (ck_start_offset (pe_checkpoint file_epoch)) (pe_records file_epoch) (fe_io s) with
        | (Panic, io) => PipelinePanics (sw_with (with_store (set_io io s) db) h w)
        | (Err error, io) =>
            let error := (error.1, ring_cause error.2) in
            match finish_prepared_epoch (D := D) (P := P) file_epoch (Err error) (set_io io s) with
            | (Err error, s) =>
                PipelineEnds (sw_with (with_store s db) (finish_failed_batch prepared error h) w)
            | (_, s) => PipelinePanics (sw_with (with_store s db) h w)
            end
        | (Ok pending_io, io) =>
            match speculate max_batch (ep_tail (pp_plan prepared)) (sw_with db h w) with
            | (None, w) => PipelinePanics (sw_with (with_store (set_io io s) db) (sw_host w) w)
            | (Some successor, w) =>
                let '(transport, result, io) := complete_contiguous_epoch pending_io io in
                let s := set_metrics (record_persist transport) (set_io io s) in
                let '(persisted, s) := finish_prepared_epoch (D := D) (P := P) file_epoch (phase_cause result) s in
                let db := with_store s db in
                match persisted with
                | Panic => PipelinePanics (sw_with db (sw_host w) w)
                | Ok _ =>
                    let h := count_elapsed DuPersistNanos persist_started (sw_host w) in
                    let '(db, h) := publish_and_route_success prepared db h in
                    continue_with true successor (sw_with db h w)
                | Err error =>
                    let h := count_elapsed DuPersistNanos persist_started (sw_host w) in
                    continue_with false successor (sw_with db (finish_failed_batch prepared error h) w)
                end
            end
        end
    end.

(** How the pipeline ended. *)
Inductive PipelineEnd := EndedWell | EndedWith (reason : string) | EndedByPanic.

Fixpoint pipeline_loop (fuel : nat) (max_batch : N) (step : PipelineStep) : option (PipelineEnd * SpeculativeWorker) :=
  match step with
  | PipelineEnds w => Some (EndedWell, w)
  | PipelineFails reason w => Some (EndedWith reason, w)
  | PipelinePanics w => Some (EndedByPanic, w)
  | PipelineNext prepared w =>
      match fuel with
      | 0 => None
      | S fuel => pipeline_loop fuel max_batch (pipeline_round max_batch prepared w)
      end
  end.

(** [process_speculative_pipeline] on its first batch. *)
Definition process_speculative_pipeline (fuel : nat) (first : list DurableStagedIntent) (max_batch : N)
    (w : SpeculativeWorker) : option (PipelineEnd * SpeculativeWorker) :=
  let '(source, h) := unplan_batch first (sw_host w) in
  pipeline_loop fuel max_batch (derive_next source (sw_with (sw_database w) h w)).

(** A round of [run_speculative_io_uring_worker_loop]: it goes on, breaks, or
    unwinds. *)
Inductive SpeculativeRound :=
| SpeculativeContinues (w : SpeculativeWorker)
| SpeculativeBreaks (w : SpeculativeWorker)
| SpeculativeUnwinds (w : SpeculativeWorker).

(** The controller fails: poisoned, without sender, its commands rejected. *)
Definition speculative_fail (reason : string) (w : SpeculativeWorker) : SpeculativeWorker :=
  let h := dh_take_sender (poison reason (sw_host w)) in
  let '(script, h) := drain_pending_and_receiver (DrainFailed reason) (sw_pending w) (sw_script w) h in
  SpeculativeWorker_mk (poison_store reason (sw_database w)) [] script h.

Definition speculative_round (max_batch : N) (w : SpeculativeWorker) : option SpeculativeRound :=
  let '(command, pending, script, h) := next_command (sw_pending w) (sw_script w) (sw_host w) in
  match command with
  | None => Some (SpeculativeBreaks (SpeculativeWorker_mk (sw_database w) pending script h))
  | Some command =>
      let '(script, h) := settle script h in
      match stop_of h with
      | Some reason =>
          let h := reject_command reason command h in
          let '(script, h) := drain_pending_and_receiver reason pending script h in
          Some (SpeculativeBreaks (SpeculativeWorker_mk (sw_database w) [] script h))
      | None =>
          match command with
          | CmdIntent first =>
              match claim_batch first max_batch (SpeculativeWorker_mk (sw_database w) pending script h) with
              | (None, w) => Some (SpeculativeUnwinds w)
              | (Some batch, w) =>
                  '(e, w) ← process_speculative_pipeline (S (length (sw_script w))) batch max_batch w;
                  Some (match e with
                        | EndedWell => SpeculativeContinues w
                        | EndedWith reason => SpeculativeBreaks (speculative_fail reason w)
                        | EndedByPanic => SpeculativeUnwinds w
                        end)
              end
          | CmdBarrier completed =>
              Some (SpeculativeContinues (SpeculativeWorker_mk (sw_database w) pending script
                (dh_log (FlushAnswer completed (Ok tt)) h)))
          end
      end
  end.

Fixpoint speculative_loop (fuel : nat) (max_batch : N) (w : SpeculativeWorker) : option (bool * SpeculativeWorker) :=
  match fuel with
  | 0 => None
  | S fuel =>
      r ← speculative_round max_batch w;
      match r with
      | SpeculativeContinues w => speculative_loop fuel max_batch w
      | SpeculativeBreaks w => Some (true, w)
      | SpeculativeUnwinds w => Some (false, w)
      end
  end.

(** [run_speculative_io_uring_worker]: the loop, a panic that left it (its
    pending commands are dropped unanswered), and the exit. *)
Definition run_speculative_io_uring_worker (max_batch : N) (db : RingDatabase)
    (script : list (Arrival DurableStagedIntent)) (h : DurableHost D P) : option SpeculativeWorker :=
  '(ok, w) ← speculative_loop (S (worker_measure [] script)) max_batch (SpeculativeWorker_mk db [] script h);
  let w :=
    if ok : bool then w
    else
      let w := sw_with (sw_database w) (dcount DuWorkerFailed (sw_host w)) w in
      speculative_fail "speculative durability worker panicked"
        (SpeculativeWorker_mk (sw_database w) [] (sw_script w) (sw_host w)) in
  let e := durable_worker_exit "speculative durability worker exited while controller was running"
    (DurableWorker_mk (sw_database w) (adaptive_new 0) (sw_pending w) (sw_script w) (sw_host w)) in
  Some (SpeculativeWorker_mk (dw_database e) (dw_pending e) (dw_script e) (dw_host e)).
End speculative.
