(* ===== verification/DurableProps.v ===== *)
(** The properties of the durable controller: its worker answers everything it
    takes, acknowledges nothing that the store does not hold, and its epochs are
    those of the planner on histories, up to slot preconditions; and concrete runs:
    a torn write, slot preconditions across epochs, a submission that races with a
    shutdown. *)
From Stdlib Require Import NArith ZArith Lia.
From stdpp Require Import base gmap list strings option.
From S2P Require Import Prelude Ord Terms Bytes Query QueryFacts Spec Index Kernel Frames.
From S2P Require Import LegacyDb KernelProps VmProjection Worlds WorldFacts WorldProps Intents Epochs.
From S2P Require Import Codec FileStore FileProps EpochCodec EpochStore EpochStoreFacts EpochStoreProps.
From S2P Require Import StackVm StackVmFacts StackVmTrial EpochProps VmEpochs VmVocabulary VmEpochFacts.
From S2P Require Import VmEpochProps Parser Isa Ast MixedEpochs MixedFacts MixedProps IoUring IoUringFacts.
From S2P Require Import Batching QueuedController QueuedProps DurableController.

(** ** Plans *)

Section plans.
Context {D P : Type} `{Kernel D, MappedRoot P, MappedVocabulary P}.
Implicit Types (m : VmEpochMaterializer P).

(** One outcome per intent; an accepted one carries the epoch's world and frame;
    an epoch without frames leaves its base. *)
Record plan_shape (intents : list QueuedIntent) (plan : EpochPlan D P) : Prop := {
  ps_length : length (ep_outcomes plan) = length intents;
  ps_accepted a : EpochAccepted a ∈ ep_outcomes plan → ai_frame a ∈ ep_frames plan ∧ ai_world a = ep_tail plan;
  ps_empty : ep_frames plan = [] → ep_tail plan = ep_base plan;
}.

Lemma only_rejected_none outs (os : list (EpochOutcome D P)) a :
  mapM only_rejected outs = Some os → EpochAccepted a ∉ os.
Proof.
  intros Hm. apply mapM_Some in Hm. induction Hm as [|o o' outs os Ho _ IH]; [apply not_elem_of_nil|].
  apply not_elem_of_cons. split; [|done]. intros <-. by destruct o.
Qed.

Lemma rejected_shape (base : World D P) intents outs os : length outs = length intents →
  mapM only_rejected outs = Some os → plan_shape intents (EpochPlan_mk base base os []).
Proof.
  intros Hl Hm. split; cbn; [| |done].
  - apply mapM_Some, Forall2_length in Hm. congruence.
  - intros a Hin. by apply (only_rejected_none _ _ a) in Hm.
Qed.

Lemma published_shape (base w : World D P) f intents outs : length outs = length intents →
  plan_shape intents (EpochPlan_mk base w (published_outcome w f <$> outs) [f]).
Proof.
  intros Hl. split; cbn; [by rewrite length_fmap| |done].
  intros a (o & Ho & _)%list_elem_of_fmap. destruct o; [|done]. injection Ho as ->. cbn.
  split; [apply list_elem_of_here|done].
Qed.

Lemma derive_plan_shape (base : World D P) intents vs plan :
  derive_plan base intents vs = Some plan → plan_shape intents plan ∧ ep_base plan = base.
Proof.
  unfold derive_plan, materialize. destruct vs as [|v vs].
  - unfold derive_vm_epoch, mbind, mat_bind. destruct (decide _); [done|].
    destruct (vm_loop _ _ _ intents _) as [[[ops outs]|e|] m1] eqn:El; [|done..].
    pose proof (vm_loop_length _ _ _ _ _ _ _ _ El) as Hl. destruct (decide _).
    + destruct (mapM only_rejected outs) as [os|] eqn:Em; [|done]. intros [= <-]. split; [|done].
      by eapply rejected_shape.
    + destruct (from_vm_epoch _ _ _ _ _) as [w f]. intros [= <-]. split; [by apply published_shape|done].
  - destruct (derive_epoch_world base intents (v :: vs)) as [p|] eqn:Ed; [|done].
    intros E. assert (p = plan) as ->.
    { revert E. unfold mbind, mat_bind. destruct (head (ep_frames p)) as [f|]; [|by intros [= <-]].
      destruct (apply_committed _ _) as [[u|e|] m1]; by intros [= <-]. }
    clear E. unfold derive_epoch_world in Ed. destruct (world_kernel base) as [[k w]|]; [|done]. cbn [mbind option_bind] in Ed.
    destruct (workspace_loop _ _ _ intents) as [[[st ops] outs]|] eqn:El; [|done]. cbn [mbind option_bind] in Ed.
    pose proof (workspace_loop_length _ _ _ _ _ _ _ El) as Hl. destruct (decide _).
    + destruct (mapM only_rejected outs) as [os|] eqn:Eo; [|done]. injection Ed as <-. split; [|done].
      by eapply rejected_shape.
    + injection Ed as <-. split; [by apply published_shape|done].
Qed.
End plans.

(** ** The frames of a store, whatever its file does *)

Section frames.
Context {D P I : Type} `{Kernel D, MappedRoot P, EpochFileIo I}.

Definition keeps_frames {E A} (m : ep I E A) : Prop := ∀ s, fe_frames (m s).2 = fe_frames s.

Lemma keeps_bind {E A B} (m : ep I E A) (k : A → ep I E B) :
  keeps_frames m → (∀ a, keeps_frames (k a)) → keeps_frames (m ≫= k).
Proof.
  intros Hm Hk s. unfold mbind, ep_bind. specialize (Hm s). destruct (m s) as [[a|e|] s1]; cbn in *; [|done..].
  by rewrite Hk.
Qed.
Lemma keeps_ret {E A} (a : A) : keeps_frames (E := E) (mret a).
Proof. done. Qed.
Lemma keeps_of {E A} (r : FileEpochStore I → outcome E A) : keeps_frames (ep_of r).
Proof. done. Qed.
Lemma keeps_io {E A} (wrap : io_error → E) (call : I → outcome io_error A * I) : keeps_frames (ep_io wrap call).
Proof. intros s. unfold ep_io. by destruct (call (fe_io s)). Qed.
Lemma keeps_metrics {E} f : keeps_frames (E := E) (ep_modify (set_metrics f)).
Proof. done. Qed.
Create HintDb keeps.
#[local] Hint Resolve keeps_bind keeps_ret keeps_of keeps_io keeps_metrics : keeps.

Lemma keeps_write_loop fuel : ∀ offset bytes s r s',
  write_loop fuel offset bytes s = Some (r, s') → fe_frames s' = fe_frames s.
Proof.
  induction fuel as [|fuel IH]; intros offset [|x bytes] s r s'; cbn [write_loop];
    [by intros [= <- <-]|by intros [= <- <-]|by intros [= <- <-]|].
  destruct (io_write_at EpochWrite offset (x :: bytes) _) as [[[|n]|e|] io]; try (by intros [= <- <-]).
  destruct (_ <? _); [by intros [= <- <-]|]. intros E. by rewrite (IH _ _ _ _ _ E).
Qed.

Lemma keeps_write_all offset bytes : keeps_frames (write_all_at offset bytes).
Proof.
  intros s. unfold write_all_at. destruct (write_loop _ _ _ _) as [[r s']|] eqn:E; [|done].
  cbn. by rewrite (keeps_write_loop _ _ _ _ _ _ E).
Qed.

Lemma keeps_sync : keeps_frames sync_epoch.
Proof. unfold sync_epoch. auto with keeps. Qed.
#[local] Hint Resolve keeps_write_all keeps_sync : keeps.

Lemma keeps_per_frame records : ∀ offset, keeps_frames (write_per_frame offset records).
Proof. induction records as [|r records IH]; intros offset; cbn [write_per_frame]; auto with keeps. Qed.
#[local] Hint Resolve keeps_per_frame : keeps.

Lemma keeps_repair c : keeps_frames (repair (D := D) (P := P) c).
Proof.
  unfold repair. cbv zeta. repeat (apply keeps_bind; [by auto with keeps|intros ?]).
  destruct (decide _); auto with keeps.
Qed.

Lemma keeps_failure c phase e s : fe_frames (handle_primary_failure (D := D) (P := P) c phase e s).2 = fe_frames s.
Proof.
  unfold handle_primary_failure. pose proof (keeps_repair c (set_state Repairing (fe_poison_reason s) s)) as Hr.
  destruct (repair c _) as [[u|[ph r]|] s']; cbn in *; congruence.
Qed.

Lemma prepare_frames frames s : fe_frames (prepare_epoch frames s).2 = fe_frames s ∧
  ∀ p, (prepare_epoch frames s).1 = Ok p → pe_frames p = frames.
Proof.
  split.
  - assert (keeps_frames (prepare_epoch (I := I) frames)) as Hk; [|apply Hk].
    unfold prepare_epoch. destruct frames; repeat (apply keeps_bind; [by auto with keeps|intros ?]); auto with keeps.
  - intros p. unfold prepare_epoch. unfold mbind, ep_bind. destruct (ep_of _ s) as [[u|e|] s1]; [|done..].
    destruct frames as [|f fs]; [by intros [= <-]|].
    destruct (ep_of _ s1) as [[u1|e|] s2]; [|done..]. destruct (ep_of _ s2) as [[rs|e|] s3]; [|done..].
    destruct (ep_io _ _ s3) as [[n|e|] s4]; [|done..]. by intros [= <-].
Qed.

Lemma finish_frames p result s : let r := finish_prepared_epoch (D := D) (P := P) p result s in
  fe_frames r.2 = fe_frames s ++ (match r.1 with Ok _ => pe_frames p | _ => [] end).
Proof.
  unfold finish_prepared_epoch. destruct (pe_frames p) as [|f fs] eqn:Hp; [cbn; by rewrite app_nil_r|].
  destruct result as [u|[phase e]|]; cbn.
  - done.
  - pose proof (keeps_failure (pe_checkpoint p) phase e s) as Hf.
    destruct (handle_primary_failure _ _ _ s) as [[x|] s']; cbn in *; by rewrite app_nil_r.
  - by rewrite app_nil_r.
Qed.

(** An epoch is appended as acknowledged, or not at all. *)
Lemma append_frames frames s : let r := append_epoch (D := D) (P := P) frames s in
  fe_frames r.2 = fe_frames s ++ (match r.1 with Ok _ => frames | _ => [] end).
Proof.
  unfold append_epoch. cbv zeta. unfold mbind, ep_bind.
  destruct (prepare_frames frames s) as [Hs Hp]. destruct (prepare_epoch frames s) as [[p|e|] s1]; cbn [fst snd] in *;
    [|by rewrite app_nil_r..].
  specialize (Hp p eq_refl). destruct (pe_frames p) as [|f fs] eqn:Ef; [by subst; rewrite app_nil_r|].
  assert (fe_frames (persist_prepared p s1).2 = fe_frames s1) as Hper.
  { unfold persist_prepared. destruct (persist_epoch _ _ _) as [[[tm r]|] io]; [done|].
    destruct (fe_policy s1); [apply (keeps_per_frame _ _ (set_io io s1))|].
    assert (keeps_frames (write_one_epoch (I := I) (ck_start_offset (pe_checkpoint p)) (pe_records p))) as Hw
      by (unfold write_one_epoch; auto with keeps).
    apply (Hw (set_io io s1)). }
  destruct (persist_prepared p s1) as [result s2]. cbn [snd] in Hper.
  pose proof (finish_frames p result s2) as Hf. cbv zeta in Hf. rewrite Hf, Hper, Hs, Ef, Hp. done.
Qed.
End frames.

(** ** Answers *)

Section answers.
Context {D P I : Type} `{Kernel D, MappedRoot P, MappedVocabulary P, EpochFileIo I}.
Abbreviation Host := (DurableHost D P) (only parsing).
Abbreviation DurableDb := (Database D P (FileEpochStore I)) (only parsing).
Implicit Types (h : DurableHost D P).

(** From [h] to [h'] the answers [a] were sent, and the tickets [ts] resolved. *)
Record answered (ts : list N) (a : list (DurableAnswer D P)) h h' : Prop := {
  an_answers : dh_answers h' = dh_answers h ++ a;
  an_in t st : dh_tickets h !! t = Some st → t ∈ ts → dh_tickets h' !! t = Some (lifecycle_resolve st);
  an_others t : t ∉ ts → dh_tickets h' !! t = dh_tickets h !! t;
}.

(** The state of the controller changed only as another thread may change it. *)
Record steady h h' : Prop := {
  sd_reason : dh_poison_reason h' = dh_poison_reason h;
  sd_state : dh_state h' = dh_state h ∨ (dh_state h = DStarting ∨ dh_state h = DRunning) ∧ dh_state h' = DDraining;
  sd_clock : dh_clock h' = dh_clock h;
}.

(** As [answered], but for the tickets [ls], which were claimed or left alone. *)
Record answered_but (ls ts : list N) (a : list (DurableAnswer D P)) h h' : Prop := {
  ab_answers : dh_answers h' = dh_answers h ++ a;
  ab_in t st : dh_tickets h !! t = Some st → t ∈ ts → t ∉ ls → dh_tickets h' !! t = Some (lifecycle_resolve st);
  ab_lost t st : dh_tickets h !! t = Some st → t ∈ ls → t ∉ ts →
    dh_tickets h' !! t = Some st ∨ dh_tickets h' !! t = Some (lifecycle_claim st);
  ab_others t : t ∉ ts → t ∉ ls → dh_tickets h' !! t = dh_tickets h !! t;
}.

Lemma answered_but_none ts a h h' : answered ts a h h' → answered_but [] ts a h h'.
Proof. intros [A1 A2 A3]. split; [done|by intros; apply A2|set_solver|by intros; apply A3]. Qed.

Lemma answered_but_trans ls ts1 ts2 a1 a2 h1 h2 h3 :
  answered ts1 a1 h1 h2 → answered_but ls ts2 a2 h2 h3 → answered_but ls (ts1 ++ ts2) (a1 ++ a2) h1 h3.
Proof.
  intros [A1 A2 A3] [B1 B2 B3 B4]. split.
  - by rewrite B1, A1, (assoc_L (++)).
  - intros t st Ht Hin Hl. destruct (decide (t ∈ ts1)) as [H1'|H1'].
    + specialize (A2 t st Ht H1'). destruct (decide (t ∈ ts2)) as [H2'|H2']; [by rewrite (B2 t _ A2 H2')|by rewrite B4].
    + apply elem_of_app in Hin as [Hin|Hin]; [done|]. apply B2; [|done..]. by rewrite A3.
  - intros t st Ht Hl [Hn1 Hn2]%not_elem_of_app. apply B3; [by rewrite A3|done..].
  - intros t [Hn1 Hn2]%not_elem_of_app Hl. by rewrite B4, A3.
Qed.

Lemma answered_none h h' : dh_answers h' = dh_answers h → dh_tickets h' = dh_tickets h → answered [] [] h h'.
Proof. intros H1' H2'. split; intros; rewrite ?app_nil_r, ?H2'; try done. set_solver. Qed.

Lemma answered_trans ts1 ts2 a1 a2 h1 h2 h3 :
  answered ts1 a1 h1 h2 → answered ts2 a2 h2 h3 → answered (ts1 ++ ts2) (a1 ++ a2) h1 h3.
Proof.
  intros [A1 A2 A3] [B1 B2 B3]. split.
  - by rewrite B1, A1, (assoc_L (++)).
  - intros t st Ht. rewrite elem_of_app. intros Hin. destruct (decide (t ∈ ts1)) as [H1'|H1'].
    + specialize (A2 t st Ht H1'). destruct (decide (t ∈ ts2)) as [H2'|H2']; [by rewrite (B2 t _ A2 H2')|by rewrite B3].
    + destruct Hin as [Hin|Hin]; [done|]. apply B2; [|done]. by rewrite A3.
  - intros t. rewrite not_elem_of_app. intros [Hn1 Hn2]. by rewrite B3, A3.
Qed.

(** Only counters, the clock and the state change before or after. *)
Lemma answered_before ts a h h1 h' : answered [] [] h h1 → answered ts a h1 h' → answered ts a h h'.
Proof. apply (answered_trans []). Qed.
Lemma answered_after ts a h h1 h' : answered [] [] h1 h' → answered ts a h h1 → answered ts a h h'.
Proof. intros H1' H2'. rewrite <- (app_nil_r ts), <- (app_nil_r a). by eapply answered_trans. Qed.

Lemma steady_refl h : steady h h.
Proof. split; auto. Qed.
Lemma steady_trans h1 h2 h3 : steady h1 h2 → steady h2 h3 → steady h1 h3.
Proof. intros [A1 A2 A3] [B1 B2 B3]. split; [congruence| |congruence]. naive_solver congruence. Qed.
Lemma steady_same h h' : dh_poison_reason h' = dh_poison_reason h → dh_state h' = dh_state h →
  dh_clock h' = dh_clock h → steady h h'.
Proof. split; auto. Qed.
Lemma steady_begin h : steady h (shutdown_begin h).
Proof. split; unfold shutdown_begin; destruct (dh_state h) eqn:E; cbn; auto. Qed.

Lemma steady_count k started h : steady h (count_elapsed k started h) ∧ answered [] [] h (count_elapsed k started h).
Proof. split; [by apply steady_same|by apply answered_none]. Qed.
Lemma begin_answers h : answered [] [] h (shutdown_begin h).
Proof. unfold shutdown_begin. case_match; by apply answered_none. Qed.

Lemma resolve_answered ticket o h : let h' := resolve ticket o h in
  answered [ticket] [TicketAnswer ticket o] h h' ∧ steady h h'.
Proof.
  unfold resolve. split; [|case_match; by apply steady_same]. split.
  - case_match; done.
  - intros t st Ht ->%list_elem_of_singleton. case_match; cbn; by rewrite lookup_alter_eq, Ht.
  - intros t Hin. rewrite list_elem_of_singleton in Hin. case_match; cbn; by rewrite lookup_alter_ne.
Qed.

(** The answers to a batch, by what became of its epoch. *)
Definition success_answer (t : N) (o : EpochOutcome D P) : DurableAnswer D P :=
  TicketAnswer t (match o with
                  | EpochAccepted a => DurableAccepted (ai_world a) (ai_frame a) (ai_entities a)
                  | EpochRejected r => DurableRejected (from_intent (ri_error r))
                  end).
Definition failure_answer (error : FileEpochStoreError) (t : N) (o : EpochOutcome D P) : DurableAnswer D P :=
  TicketAnswer t (match o with
                  | EpochAccepted _ => DurabilityFailed error
                  | EpochRejected r => DurableRejected (from_intent (ri_error r))
                  end).
Definition stopped_answer (reason : DurableTicketStopReason) (t : N) : DurableAnswer D P := TicketAnswer t (Stopped reason).

Lemma answered_cons t a ts as' h h1 h' :
  answered [t] [a] h h1 ∧ steady h h1 → answered ts as' h1 h' ∧ steady h1 h' →
  answered (t :: ts) (a :: as') h h' ∧ steady h h'.
Proof. intros [A1 A2] [B1 B2]. split; [by apply (answered_trans [t] _ [a] _ _ h1)|by eapply steady_trans]. Qed.

Lemma counted_resolve k t o h : let h' := resolve t o (dcount k h) in
  answered [t] [TicketAnswer t o] h h' ∧ steady h h'.
Proof.
  destruct (resolve_answered t o (dcount k h)) as [A B]. split.
  - eapply answered_before; [|exact A]. by apply answered_none.
  - eapply steady_trans; [|exact B]. by apply steady_same.
Qed.

Lemma route_success_answered ts : ∀ outcomes h, length ts = length outcomes →
  let h' := route_success ts outcomes h in answered ts (zip_with success_answer ts outcomes) h h' ∧ steady h h'.
Proof.
  induction ts as [|t ts IH]; intros [|o os] h; cbn; intros; simplify_eq; [split; [by apply answered_none|apply steady_refl]|].
  destruct o; (eapply answered_cons; [apply counted_resolve|by apply IH]).
Qed.

Lemma route_failure_answered error ts : ∀ outcomes h, length ts = length outcomes →
  let h' := route_failure ts outcomes error h in
  answered ts (zip_with (failure_answer error) ts outcomes) h h' ∧ steady h h'.
Proof.
  induction ts as [|t ts IH]; intros [|o os] h; cbn; intros; simplify_eq; [split; [by apply answered_none|apply steady_refl]|].
  destruct o; (eapply answered_cons; [apply counted_resolve|by apply IH]).
Qed.

Lemma route_stopped_answered reason ts : ∀ h,
  let h' := route_stopped ts reason h in answered ts (stopped_answer reason <$> ts) h h' ∧ steady h h'.
Proof.
  induction ts as [|t ts IH]; intros h; cbn; [split; [by apply answered_none|apply steady_refl]|].
  eapply answered_cons; [apply resolve_answered|apply IH].
Qed.

(** ** The commit of an epoch, less the clock *)

Definition epoch_commit (db : DurableDb) (intents : list QueuedIntent) : CommitResult D P * DurableDb :=
  match derive_plan (db_current db) intents (db_validators db) with
  | None => (CommitPanicked, db)
  | Some plan =>
      if plan_is_empty plan then (CommitDone plan, db)
      else
        let '(r, s) := append_epoch (D := D) (P := P) (ep_frames plan) (db_store db) in
        match r with
        | Panic => (CommitPanicked, with_store s db)
        | Err error => (CommitFailed plan error, with_store s db)
        | Ok _ => (CommitDone plan, publish (ep_tail plan) (with_store s db))
        end
  end.

Lemma commit_is_epoch_commit (db : DurableDb) intents h : ∃ h',
  commit_durable_epoch db intents h = (epoch_commit db intents, h') ∧ answered [] [] h h' ∧ steady h h'.
Proof.
  unfold commit_durable_epoch, epoch_commit. cbn.
  destruct (derive_plan _ _ _) as [plan|]; [|eexists; split_and!; [done|by apply answered_none|by apply steady_same]].
  destruct (plan_is_empty plan); [eexists; split_and!; [done|by apply answered_none|by apply steady_same]|].
  destruct (append_epoch _ _) as [[u|e|] s]; cbn; eexists; (split_and!; [done|by apply answered_none|by apply steady_same]).
Qed.

(** What a commit leaves: all of its epoch, or nothing. *)
Lemma epoch_commit_frames (db : DurableDb) intents : let r := epoch_commit db intents in
  match r.1 with
  | CommitDone plan => plan_shape intents plan ∧ ep_base plan = db_current db ∧ db_current r.2 = ep_tail plan ∧
      fe_frames (db_store r.2) = fe_frames (db_store db) ++ ep_frames plan
  | CommitFailed plan _ => plan_shape intents plan ∧ db_current r.2 = db_current db ∧
      fe_frames (db_store r.2) = fe_frames (db_store db)
  | CommitPanicked => db_current r.2 = db_current db ∧ fe_frames (db_store r.2) = fe_frames (db_store db)
  end ∧ db_validators r.2 = db_validators db.
Proof.
  unfold epoch_commit. destruct (derive_plan _ _ _) as [plan|] eqn:Ed; [|done].
  apply derive_plan_shape in Ed as [Hs Hb]. unfold plan_is_empty. destruct (ep_frames plan) as [|f fs] eqn:Ef.
  - split; [|done]. split_and!; [done|done|by rewrite (ps_empty _ _ Hs Ef)|by rewrite Ef, app_nil_r].
  - pose proof (append_frames (D := D) (P := P) (f :: fs) (db_store db)) as Ha. cbv zeta in Ha.
    destruct (append_epoch (f :: fs) (db_store db)) as [[u|e|] s]; cbn [fst snd] in Ha; (split; [|done]); cbn;
      rewrite ?Ef, ?app_nil_r in *; split_and!; done.
Qed.

Definition batch_failure : string := "durable epoch worker failed".

(** The answers to a batch. *)
Definition commit_answers (ts : list N) (r : CommitResult D P) : list (DurableAnswer D P) :=
  match r with
  | CommitDone plan => zip_with success_answer ts (ep_outcomes plan)
  | CommitFailed plan error => zip_with (failure_answer error) ts (ep_outcomes plan)
  | CommitPanicked => stopped_answer (WorkerFailed batch_failure) <$> ts
  end.

Definition commit_panic (r : CommitResult D P) : bool := match r with CommitPanicked => true | _ => false end.

Lemma process_batch_answered (db : DurableDb) batch h : let r := epoch_commit db (ds_intent <$> batch) in
  ∃ h', process_durable_batch db batch h =
      (if commit_panic r.1 then Some batch_failure else None, r.2, h') ∧
    answered (ds_ticket <$> batch) (commit_answers (ds_ticket <$> batch) r.1) h h' ∧ steady h h'.
Proof.
  intros r. unfold process_durable_batch. cbn [dh_now].
  match goal with |- context [commit_durable_epoch db _ ?h0] => set (h1 := h0) end.
  destruct (commit_is_epoch_commit db (ds_intent <$> batch) h1) as (h2 & -> & A & B).
  pose proof (epoch_commit_frames db (ds_intent <$> batch)) as [Hf _]. fold r in Hf |- *.
  destruct r as [c db']. cbn [fst snd] in *.
  set (h3 := (dh_now h2).2).
  assert (answered [] [] h h3 ∧ steady h h3) as [A3 B3].
  { split; [apply (answered_before [] [] h h1); [by apply answered_none|]|apply (steady_trans h h1); [by apply steady_same|]].
    - apply (answered_after [] [] h1 h2); [by apply answered_none|done].
    - apply (steady_trans h1 h2); [done|by apply steady_same]. }
  assert (∀ ts a h4 h', answered ts a h3 h4 ∧ steady h3 h4 → dh_answers h' = dh_answers h4 → dh_tickets h' = dh_tickets h4 →
    dh_poison_reason h' = dh_poison_reason h4 → dh_state h' = dh_state h4 → dh_clock h' = dh_clock h4 →
    answered ts a h h' ∧ steady h h') as Hfin.
  { intros ts a h4 h' [A4 B4] E1 E2 E3 E4 E5. split.
    - eapply answered_before; [exact A3|]. eapply answered_after; [|exact A4]. by apply answered_none.
    - eapply steady_trans; [exact B3|]. eapply steady_trans; [exact B4|]. by apply steady_same. }
  destruct c as [plan|plan e|]; cbn [commit_panic commit_answers].
  - eexists. split; [done|]. destruct Hf as [Hs _]. eapply Hfin; [apply (route_success_answered _ (ep_outcomes plan) h3)|done..].
    by rewrite (ps_length _ _ Hs), !length_fmap.
  - eexists. split; [done|]. destruct Hf as [Hs _]. eapply Hfin; [apply (route_failure_answered e _ (ep_outcomes plan) h3)|done..].
    by rewrite (ps_length _ _ Hs), !length_fmap.
  - eexists. split; [done|]. eapply Hfin; [apply (route_stopped_answered (WorkerFailed batch_failure) _ h3)|done..].
Qed.

(** ** Claims and refusals *)

Record claimed (ss : list DurableStagedIntent) h h' : Prop := {
  cd_answers : dh_answers h' = dh_answers h;
  cd_in t st : dh_tickets h !! t = Some st → t ∈ ds_ticket <$> ss → dh_tickets h' !! t = Some (lifecycle_claim st);
  cd_others t : t ∉ ds_ticket <$> ss → dh_tickets h' !! t = dh_tickets h !! t;
}.

Lemma host_steps_claimed ss h h' : host_steps ss h h' → claimed ss h h' ∧ steady h h'.
Proof.
  assert (∀ ss h h1 h', dh_answers h1 = dh_answers h → dh_tickets h1 = dh_tickets h → steady h h1 →
    claimed ss h1 h' ∧ steady h1 h' → claimed ss h h' ∧ steady h h') as Hsame.
  { intros ss' h0 h1 h0' E1 E2 S1 [[A1 A2 A3] B]. rewrite E1, E2 in *. split; [done|by eapply steady_trans]. }
  induction 1 as [h|s ss h h' _ IH|ss h h' _ IH|n ss h h' _ IH|n ss h h' _ IH|n ss h h' _ IH|ss h h' _ IH].
  - split; [|apply steady_refl]. split; try done. set_solver.
  - destruct IH as [[A1 A2 A3] B]. split; [|eapply steady_trans; [|exact B]; by apply steady_same]. split; [done|..].
    + intros t st Ht Hin. destruct (decide (t ∈ ds_ticket <$> ss)) as [Hd|Hd].
      * destruct (decide (t = ds_ticket s)) as [->|Hne].
        -- rewrite (A2 _ (lifecycle_claim st)); [done| |done]. cbn. by rewrite lookup_alter_eq, Ht.
        -- apply A2; [|done]. cbn. by rewrite lookup_alter_ne.
      * rewrite A3 by done. cbn in Hin. apply elem_of_cons in Hin as [->|]; [|done]. cbn.
        by rewrite lookup_alter_eq, Ht.
    + intros t Hin. cbn in Hin. apply not_elem_of_cons in Hin as [H1' H2']. rewrite A3 by done. cbn.
      by rewrite lookup_alter_ne.
  - eapply Hsame; [..|exact IH]; [done|done|by apply steady_same].
  - eapply Hsame; [..|exact IH]; [done|done|by apply steady_same].
  - eapply Hsame; [..|exact IH]; [done|done|by apply steady_same].
  - eapply Hsame; [..|exact IH]; [done|done|by apply steady_same].
  - eapply Hsame; [..|exact IH]; [| |apply steady_begin]; cbn; unfold shutdown_begin; by case_match.
Qed.

(** What is claimed and then answered is answered. *)
Lemma claimed_answered ss a h h1 h' : claimed ss h h1 → answered (ds_ticket <$> ss) a h1 h' →
  answered (ds_ticket <$> ss) a h h'.
Proof.
  intros [A1 A2 A3] [B1 B2 B3]. split; [by rewrite B1, A1| |].
  - intros t st Ht Hin. by rewrite (B2 t _ (A2 t st Ht Hin) Hin).
  - intros t Hin. by rewrite B3, A3.
Qed.

(** What was received, claimed or not, and then lost. *)
Lemma claimed_lost first ss ts a h h1 h' : ss `prefix_of` [first] → claimed ss h h1 → answered ts a h1 h' →
  answered_but [ds_ticket first] ts a h h'.
Proof.
  intros Hss [A1 A2 A3] [B1 B2 B3].
  assert (∀ t, t ∉ [ds_ticket first] → dh_tickets h1 !! t = dh_tickets h !! t) as Hoth.
  { intros t Ht. apply A3. destruct Hss as [k Hk]. intros (s & -> & Hs)%list_elem_of_fmap. apply Ht.
    assert (s ∈ [first]) as ->%list_elem_of_singleton by (rewrite Hk; apply elem_of_app; by left). apply list_elem_of_here. }
  split; [by rewrite B1, A1| | |].
  - intros t st Ht Hin Hl. apply B2; [|done]. by rewrite Hoth.
  - intros t st Ht ->%list_elem_of_singleton Hn. rewrite (B3 _ Hn). destruct ss as [|s ss].
    { left. by rewrite A3 by apply not_elem_of_nil. }
    destruct Hss as [k [= -> _]]. right. apply (A2 _ st Ht), list_elem_of_here.
  - intros t Hn Hl. by rewrite B3, Hoth.
Qed.

Definition command_tickets (c : Command DurableStagedIntent) : list N :=
  match c with CmdIntent s => [ds_ticket s] | CmdBarrier _ => [] end.
Definition refused_answer (reason : DurableTicketStopReason) (s : DurableControllerStopped)
    (c : Command DurableStagedIntent) : DurableAnswer D P :=
  match c with
  | CmdIntent staged => stopped_answer reason (ds_ticket staged)
  | CmdBarrier completed => FlushAnswer completed (Err s)
  end.
Definition stop_reason_of (reason : DrainReason) : DurableTicketStopReason :=
  match reason with DrainShutdown => ShutdownBeforeClaim | DrainFailed message => WorkerFailed message end.

(** A controller that has stopped stays so while its commands are refused. *)
Definition ended h : Prop := dh_state h ≠ DStarting ∧ dh_state h ≠ DRunning.

Lemma steady_ended h h' : ended h → steady h h' → stopped h' = stopped h ∧ ended h'.
Proof. unfold ended, stopped. intros [H1' H2'] [-> [->|[[]]] _]; done. Qed.

Lemma reject_answered reason c h : let h' := reject_command reason c h in
  answered (command_tickets c) [refused_answer (stop_reason_of reason) (stopped h) c] h h' ∧ steady h h'.
Proof.
  destruct c as [s|n]; cbn [reject_command command_tickets refused_answer].
  - assert (answered [] [] h (durable_release_ingress h) ∧ steady h (durable_release_ingress h)) as [A B]
      by (split; [by apply answered_none|by apply steady_same]).
    destruct reason; cbn [stop_reason_of]; (split; [eapply answered_before; [exact A|]|eapply steady_trans; [exact B|]];
      apply counted_resolve).
  - split; [|by apply steady_same]. split; intros; try done. set_solver.
Qed.

Definition refuses reason (cs : list (Command DurableStagedIntent)) h h' : Prop :=
  answered (concat (command_tickets <$> cs)) (refused_answer (stop_reason_of reason) (stopped h) <$> cs) h h' ∧ steady h h'.

Lemma refuses_cons reason c cs h h1 h' : ended h → h1 = reject_command reason c h → refuses reason cs h1 h' →
  refuses reason (c :: cs) h h'.
Proof.
  intros He -> [A B]. destruct (reject_answered reason c h) as [A1 B1]. destruct (steady_ended _ _ He B1) as [Es _].
  rewrite Es in A. split; [|by eapply steady_trans]. cbn [fmap list_fmap concat].
  by apply (answered_trans _ _ [_] _ _ (reject_command reason c h)).
Qed.

Lemma refuses_none reason h : refuses reason [] h h.
Proof. split; [by apply answered_none|apply steady_refl]. Qed.

Lemma pending_refused reason cs : ∀ h, ended h → refuses reason cs h (foldl (λ h c, reject_command reason c h) h cs).
Proof.
  induction cs as [|c cs IH]; intros h He; cbn [foldl]; [apply refuses_none|].
  eapply refuses_cons; [done|done|]. apply IH. eapply steady_ended; [done|apply reject_answered].
Qed.

Lemma shutdown_begin_ended h : ended h → shutdown_begin h = h.
Proof. unfold ended, shutdown_begin. by destruct (dh_state h); intros []. Qed.

Lemma drain_refused reason script : ∀ h, ended h → let r := drain_receiver reason script h in
  ∃ cs, arrived script = cs ++ arrived r.1 ∧ refuses reason cs h r.2.
Proof.
  induction script as [|[c| |] script IH]; intros h He; cbn [drain_receiver].
  - exists []. split; [done|apply refuses_none].
  - destruct (IH (reject_command reason c h)) as (cs & E & Hr); [eapply steady_ended; [done|apply reject_answered]|].
    exists (c :: cs). split; [|by eapply refuses_cons].
    change (arrived (Arrives c :: script)) with (c :: arrived script). cbn. by f_equal.
  - exists []. split; [done|apply refuses_none].
  - rewrite shutdown_begin_ended by done. by apply IH.
Qed.

Lemma refuses_app reason cs1 cs2 h h1 h' : ended h → refuses reason cs1 h h1 → refuses reason cs2 h1 h' →
  refuses reason (cs1 ++ cs2) h h'.
Proof.
  intros He [A1 B1] [A2 B2]. destruct (steady_ended _ _ He B1) as [Es _]. rewrite Es in A2.
  split; [|by eapply steady_trans]. rewrite !fmap_app, concat_app. by eapply answered_trans.
Qed.

Lemma all_refused reason pending script h : ended h → let r := drain_pending_and_receiver reason pending script h in
  ∃ cs, pending ++ arrived script = cs ++ arrived r.1 ∧ pending `prefix_of` cs ∧ refuses reason cs h r.2.
Proof.
  intros He. unfold drain_pending_and_receiver. cbv zeta. pose proof (pending_refused reason pending h He) as Hp.
  destruct (steady_ended _ _ He (proj2 Hp)) as [_ He1].
  destruct (drain_refused reason script _ He1) as (cs & E & Hr). exists (pending ++ cs).
  split_and!; [by rewrite E, (assoc_L (++))|by apply prefix_app_r|by eapply refuses_app].
Qed.
End answers.

(** ** The worker *)

Section worker.
Context {D P I : Type} `{Kernel D, MappedRoot P, MappedVocabulary P, EpochFileIo I, Platform}.
Abbreviation DurableDb := (Database D P (FileEpochStore I)) (only parsing).
Implicit Types (h : DurableHost D P) (cs : list (Command DurableStagedIntent)).

(** What a worker did with what it took: a batch, with what became of its epoch;
    a barrier; a command refused by a controller that had stopped; an intent lost
    as its batch could not be opened. *)
Inductive DServed :=
| DBatch (batch : list DurableStagedIntent) (r : CommitResult D P)
| DBarrier (completed : N)
| DRefused (reason : DurableTicketStopReason) (s : DurableControllerStopped) (c : Command DurableStagedIntent)
| DLost (staged : DurableStagedIntent).

Definition d_answers (x : DServed) : list (DurableAnswer D P) :=
  match x with
  | DBatch batch r => commit_answers (ds_ticket <$> batch) r
  | DBarrier completed => [FlushAnswer completed (Ok tt)]
  | DRefused reason s c => [refused_answer reason s c]
  | DLost _ => []
  end.
(** The intents an item took; those it answered and those it lost; its barriers. *)
Definition d_intents (x : DServed) : list DurableStagedIntent :=
  match x with DBatch batch _ => batch | DBarrier _ => [] | DRefused _ _ c => staged_of [c] | DLost staged => [staged] end.
Definition d_settled (x : DServed) : list DurableStagedIntent :=
  match x with DLost _ => [] | _ => d_intents x end.
Definition d_lost (x : DServed) : list DurableStagedIntent :=
  match x with DLost staged => [staged] | _ => [] end.
Definition d_barriers (x : DServed) : list N :=
  match x with DBarrier completed => [completed] | DRefused _ _ c => barriers_of [c] | _ => [] end.
(** The frames an item acknowledged. *)
Definition d_frames (x : DServed) : list CommitFrame :=
  match x with DBatch _ (CommitDone plan) => ep_frames plan | _ => [] end.

(** How a worker ends: stopped by a shutdown, or as all senders were gone during
    one; without senders and without a shutdown; by a panic in an epoch; or by one
    outside of them. *)
Inductive DEnd := EndClosed | EndDisconnected | EndPanicked | EndUnwound.
#[export] Instance DEnd_eq_dec : EqDecision DEnd.
Proof. solve_decision. Defined.

Definition exited : string := "durable worker exited while controller was running".
Definition draining : DurableControllerStopped := DurableControllerStopped_mk DDraining None.
Definition failed : DurableControllerStopped := DurableControllerStopped_mk DPoisoned (Some batch_failure).
Definition unwound : string := "durable worker panicked outside epoch boundary".
Definition unwound_stop : DurableControllerStopped := DurableControllerStopped_mk DPoisoned (Some unwound).

(** Serving commands on a database: what was done, what was left in the channel,
    the database.  A batch can always be opened if [opens]. *)
Inductive dserves (opens : Prop) : DEnd → DurableDb → list (Command DurableStagedIntent) → list DServed →
    list (Command DurableStagedIntent) → DurableDb → Prop :=
| dv_end e db : e = EndClosed ∨ e = EndDisconnected → dserves opens e db [] [] [] db
| dv_barrier e db completed cs tr lost db' :
    dserves opens e db cs tr lost db' → dserves opens e db (CmdBarrier completed :: cs) (DBarrier completed :: tr) lost db'
| dv_batch e db first taken rest r db1 tr lost db' :
    epoch_commit db (ds_intent <$> first :: staged_of taken) = (r, db1) → commit_panic r = false →
    dserves opens e db1 ((CmdBarrier <$> barriers_of taken) ++ rest) tr lost db' →
    dserves opens e db (CmdIntent first :: taken ++ rest) (DBatch (first :: staged_of taken) r :: tr) lost db'
| dv_stopped db cs lost :
    dserves opens EndClosed db (cs ++ lost) (DRefused ShutdownBeforeClaim draining <$> cs) lost db
| dv_panicked db first taken rest db1 refused lost :
    epoch_commit db (ds_intent <$> first :: staged_of taken) = (CommitPanicked, db1) →
    (CmdBarrier <$> barriers_of taken) ++ rest = refused ++ lost →
    (CmdBarrier <$> barriers_of taken) `prefix_of` refused →
    dserves opens EndPanicked db (CmdIntent first :: taken ++ rest)
      (DBatch (first :: staged_of taken) CommitPanicked :: (DRefused (WorkerFailed batch_failure) failed <$> refused))
      lost db1
| dv_unwound db first refused lost : ¬ opens →
    dserves opens EndUnwound db (CmdIntent first :: refused ++ lost)
      (DLost first :: (DRefused (WorkerFailed unwound) unwound_stop <$> refused)) lost db.

Lemma d_staged_of_barriers ns : staged_of (CmdBarrier (S := DurableStagedIntent) <$> ns) = [].
Proof. by induction ns. Qed.
Lemma d_barriers_of_barriers ns : barriers_of (CmdBarrier (S := DurableStagedIntent) <$> ns) = ns.
Proof. induction ns; cbn; [done|]. by f_equal. Qed.

Lemma refused_intents reason s cs : concat (d_intents <$> (DRefused reason s <$> cs)) = staged_of cs.
Proof. induction cs as [|[] cs IH]; cbn; [done|by f_equal|exact IH]. Qed.
Lemma refused_barriers reason s cs : concat (d_barriers <$> (DRefused reason s <$> cs)) = barriers_of cs.
Proof. induction cs as [|[] cs IH]; cbn; [done|exact IH|by f_equal]. Qed.
Lemma refused_frames reason s cs : concat (d_frames <$> (DRefused reason s <$> cs)) = [].
Proof. by induction cs. Qed.

(** Every intent is served or refused, once and in the order of arrival, but for
    those left in the channel. *)
Lemma dserves_intents opens e db cs tr lost db' : dserves opens e db cs tr lost db' →
  concat (d_intents <$> tr) ++ staged_of lost = staged_of cs ∧
  concat (d_barriers <$> tr) ++ barriers_of lost = barriers_of cs.
Proof.
  induction 1 as [|? ? ? ? ? ? ? _ [IH1 IH2]|? ? first taken rest ? ? ? ? ? _ _ _ [IH1 IH2]|db cs lost
    |db first taken rest db1 refused lost _ E _|db first refused lost _].
  - done.
  - split; [exact IH1|]. cbn. f_equal. exact IH2.
  - change (staged_of (CmdIntent first :: taken ++ rest)) with (first :: staged_of (taken ++ rest)).
    change (barriers_of (CmdIntent first :: taken ++ rest)) with (barriers_of (taken ++ rest)).
    rewrite staged_of_app, d_staged_of_barriers in IH1. rewrite barriers_of_app, d_barriers_of_barriers in IH2.
    cbn [fmap list_fmap concat d_intents d_barriers]. rewrite staged_of_app, barriers_of_app, <- IH2. cbn.
    by rewrite <- (assoc_L (++)), IH1.
  - by rewrite refused_intents, refused_barriers, <- staged_of_app, <- barriers_of_app.
  - change (staged_of (CmdIntent first :: taken ++ rest)) with (first :: staged_of (taken ++ rest)).
    change (barriers_of (CmdIntent first :: taken ++ rest)) with (barriers_of (taken ++ rest)).
    cbn [fmap list_fmap concat d_intents d_barriers]. rewrite refused_intents, refused_barriers.
    pose proof (f_equal staged_of E) as E1. pose proof (f_equal barriers_of E) as E2.
    rewrite !staged_of_app, d_staged_of_barriers in E1. rewrite !barriers_of_app, d_barriers_of_barriers in E2.
    rewrite staged_of_app, barriers_of_app, E2. cbn in E1 |- *. by rewrite <- (assoc_L (++)), <- E1.
  - cbn [fmap list_fmap concat d_intents d_barriers]. rewrite refused_intents, refused_barriers.
    change (staged_of (CmdIntent first :: refused ++ lost)) with (first :: staged_of (refused ++ lost)).
    change (barriers_of (CmdIntent first :: refused ++ lost)) with (barriers_of (refused ++ lost)).
    by rewrite staged_of_app, barriers_of_app.
Qed.

(** Only a worker that unwinds loses an intent. *)
Lemma refused_settled reason s cs : concat (d_settled <$> (DRefused reason s <$> cs)) = staged_of cs.
Proof. induction cs as [|[] cs IH]; cbn; [done|by f_equal|exact IH]. Qed.
Lemma refused_lost reason s cs : concat (d_lost <$> (DRefused reason s <$> cs)) = [].
Proof. by induction cs. Qed.

Lemma dserves_lost opens e db cs tr lost db' : dserves opens e db cs tr lost db' →
  if decide (e = EndUnwound) then ¬ opens ∧ ∃ s, concat (d_lost <$> tr) = [s] else concat (d_lost <$> tr) = [].
Proof.
  induction 1 as [e db He|? ? ? ? ? ? ? _ IH|? ? ? ? ? ? ? ? ? ? _ _ _ IH|db cs lost|? ? ? ? ? ? ? _ _ _|db first refused lost Hn].
  - rewrite decide_False; [done|]. by intros ->; destruct He.
  - exact IH.
  - exact IH.
  - rewrite decide_False by done. apply refused_lost.
  - rewrite decide_False by done. apply refused_lost.
  - rewrite decide_True by done. split; [done|]. exists first. cbn. f_equal. apply refused_lost.
Qed.

(** The store holds exactly what was acknowledged, and the world is the last
    acknowledged one. *)
Definition last_tail (w : World D P) (tr : list DServed) : World D P :=
  foldl (λ w x, match x with DBatch _ (CommitDone plan) => ep_tail plan | _ => w end) w tr.

Lemma refused_tail reason s cs w : last_tail w (DRefused reason s <$> cs) = w.
Proof. by induction cs. Qed.

Lemma dserves_frames opens e db cs tr lost db' : dserves opens e db cs tr lost db' →
  fe_frames (db_store db') = fe_frames (db_store db) ++ concat (d_frames <$> tr) ∧
  db_current db' = last_tail (db_current db) tr.
Proof.
  induction 1 as [|? ? ? ? ? ? ? _ IH|? db first taken rest r db1 tr lost db' Ec _ _ [IH1 IH2]|db cs lost
    |db first taken rest db1 refused lost Ec E _|db first refused lost _].
  - cbn. by rewrite app_nil_r.
  - exact IH.
  - pose proof (epoch_commit_frames db (ds_intent <$> first :: staged_of taken)) as [Hf _]. rewrite Ec in Hf. cbn [fst snd] in Hf.
    rewrite IH1, IH2. destruct r as [plan|plan e'|]; cbn.
    + destruct Hf as (_ & _ & -> & ->). by rewrite (assoc_L (++)).
    + destruct Hf as (_ & -> & ->). done.
    + destruct Hf as (-> & ->). done.
  - by rewrite refused_frames, app_nil_r, refused_tail.
  - pose proof (epoch_commit_frames db (ds_intent <$> first :: staged_of taken)) as [Hf _]. rewrite Ec in Hf. cbn [fst snd] in Hf.
    destruct Hf as (-> & ->). cbn. by rewrite refused_frames, app_nil_r, refused_tail.
  - cbn. by rewrite refused_frames, app_nil_r, refused_tail.
Qed.

(** An acknowledged commit is in the store. *)
Lemma accepted_in_frames opens e db cs tr lost db' : dserves opens e db cs tr lost db' →
  ∀ t w f es, TicketAnswer t (DurableAccepted w f es) ∈ concat (d_answers <$> tr) →
  f ∈ concat (d_frames <$> tr).
Proof.
  assert (∀ reason s cs t w f es, TicketAnswer t (DurableAccepted w f es) ∉ concat (d_answers <$> (DRefused reason s <$> cs))) as Hr.
  { intros reason s cs0 t w f es. induction cs0 as [|[] cs0 IH]; cbn; [apply not_elem_of_nil|..];
      (apply not_elem_of_cons; split; [done|exact IH]). }
  assert (∀ db batch r db1 t w f es, epoch_commit db (ds_intent <$> batch) = (r, db1) →
    TicketAnswer t (DurableAccepted w f es) ∈ commit_answers (ds_ticket <$> batch) r → f ∈ d_frames (DBatch batch r)) as Hb.
  { intros db0 batch r db1 t w f es Ec Hin. pose proof (epoch_commit_frames db0 (ds_intent <$> batch)) as [Hf _].
    rewrite Ec in Hf. cbn [fst snd] in Hf. destruct r as [plan|plan err|]; cbn [commit_answers d_frames] in *.
    - apply elem_of_lookup_zip_with in Hin as (i & t' & o & E & _ & Ho). destruct o as [a|]; [|done].
      injection E as -> -> -> ->. apply (ps_accepted _ _ (proj1 Hf)). by eapply list_elem_of_lookup_2.
    - apply elem_of_lookup_zip_with in Hin as (i & t' & o & E & _ & Ho). by destruct o.
    - apply list_elem_of_fmap in Hin as (t' & E & _). done. }
  induction 1 as [|? ? ? ? ? ? ? _ IH|? db first taken rest r db1 tr lost db' Ec _ _ IH|db cs lost
    |db first taken rest db1 refused lost Ec E _|db first refused lost _]; intros t w f es.
  - by intros ?%not_elem_of_nil.
  - cbn. intros [|Hin]%elem_of_cons; [done|]. by eapply IH.
  - cbn [fmap list_fmap concat]. rewrite !elem_of_app. intros [Hin|Hin]; [left; by eapply Hb|right; by eapply IH].
  - by intros ?%Hr.
  - cbn [fmap list_fmap concat]. rewrite !elem_of_app. intros [Hin|Hin]; [left; by eapply Hb|by apply Hr in Hin].
  - cbn [fmap list_fmap concat d_answers app]. by intros ?%Hr.
Qed.

(** ** The loop *)

Definition live h : Prop := (dh_state h = DRunning ∨ dh_state h = DDraining) ∧ dh_poison_reason h = None.

Lemma steady_live h h' : live h → steady h h' → live h'.
Proof. unfold live. intros [Hs Hr] [-> Hst _]. split; [|done]. naive_solver congruence. Qed.

Lemma live_stop h : live h →
  match stop_of h with Some reason => reason = DrainShutdown ∧ ended h ∧ stopped h = draining | None => dh_state h = DRunning end.
Proof.
  unfold live, stop_of, ended, stopped, draining. intros [[E|E] Hr]; rewrite E; [done|].
  split_and!; [done|done|done|]. by rewrite Hr.
Qed.

Lemma settle_steady (script : list (Arrival DurableStagedIntent)) : ∀ h, let r := settle script h in
  arrived r.1 = arrived script ∧ length r.1 ≤ length script ∧ answered [] [] h r.2 ∧ steady h r.2.
Proof.
  induction script as [|[c| |] script IH]; intros h; cbn [settle];
    try (split_and!; [done|done|by apply answered_none|apply steady_refl]).
  destruct (IH (shutdown_begin h)) as (E & Hl & A & B). split_and!; [done|cbn; lia| |].
  - eapply answered_before; [apply begin_answers|done].
  - eapply steady_trans; [apply steady_begin|done].
Qed.

Definition d_tickets (tr : list DServed) : list N := ds_ticket <$> concat (d_settled <$> tr).
Definition lost_tickets (tr : list DServed) : list N := ds_ticket <$> concat (d_lost <$> tr).

Lemma refused_tickets reason s cs : d_tickets (DRefused reason s <$> cs) = concat (command_tickets <$> cs).
Proof. unfold d_tickets. rewrite refused_settled. induction cs as [|[] cs IH]; cbn; [done|by f_equal|exact IH]. Qed.
Lemma refused_answers reason s cs : concat (d_answers <$> (DRefused reason s <$> cs)) = refused_answer reason s <$> cs.
Proof. induction cs; cbn; [done|by f_equal]. Qed.

(** How the loop leaves the worker. *)
Definition left_as (e : DEnd) (db : DurableDb) (w : DurableWorker D P I) : Prop :=
  match e with
  | EndClosed => dw_database w = db ∧ dh_state (dw_host w) = DDraining ∧ dh_poison_reason (dw_host w) = None
  | EndDisconnected => dw_database w = db ∧ dh_state (dw_host w) = DRunning ∧ dh_poison_reason (dw_host w) = None ∧
      dw_script w = []
  | EndPanicked => dw_database w = poison_store batch_failure db ∧ dh_state (dw_host w) = DPoisoned ∧
      dh_poison_reason (dw_host w) = Some batch_failure
  | EndUnwound => dw_database w = poison_store unwound db ∧ dh_state (dw_host w) = DPoisoned ∧
      dh_poison_reason (dw_host w) = Some unwound
  end.

Definition d_within (p : BatchPolicy) (tr : list DServed) : Prop :=
  Forall (λ x, match x with DBatch batch _ => (N.of_nat (length batch) <= policy_max_batch p)%N | _ => True end) tr.

Definition d_commands (w : DurableWorker D P I) : list (Command DurableStagedIntent) := dw_pending w ++ arrived (dw_script w).

(** The platform can open every batch of the policy. *)
Definition opens (policy : BatchPolicy) h : Prop := always_forms policy (dh_clock h).

(** What the loop did until it left the worker as [w']. *)
Definition loop_did (policy : BatchPolicy) (w w' : DurableWorker D P I) : Prop :=
  dw_pending w' = [] ∧ ∃ e tr db',
    dserves (opens policy (dw_host w)) e (dw_database w) (d_commands w) tr (d_commands w') db' ∧
    answered_but (lost_tickets tr) (d_tickets tr) (concat (d_answers <$> tr)) (dw_host w) (dw_host w') ∧
    left_as e db' w' ∧ (policy_ok policy → width_ok policy (dw_adaptive w) → d_within policy tr).

(** What one round did: it ended with all it will do, or it did [x] and goes on. *)
Definition round_did (policy : BatchPolicy) (w : DurableWorker D P I) (r : DurableRound) : Prop :=
  match r with
  | DurableBreaks w' => loop_did policy w w'
  | DurableUnwinds w' => loop_did policy w (durable_worker_unwound unwound w')
  | DurableContinues w' => ∃ x,
      (∀ e tr lost db', dserves (opens policy (dw_host w)) e (dw_database w') (d_commands w') tr lost db' →
        dserves (opens policy (dw_host w)) e (dw_database w) (d_commands w) (x :: tr) lost db') ∧
      d_lost x = [] ∧ answered (d_tickets [x]) (d_answers x) (dw_host w) (dw_host w') ∧ live (dw_host w') ∧
      dh_clock (dw_host w') = dh_clock (dw_host w) ∧
      worker_measure (dw_pending w') (dw_script w') < worker_measure (dw_pending w) (dw_script w) ∧
      (∃ ns, dw_pending w' = CmdBarrier <$> ns) ∧
      (policy_ok policy → width_ok policy (dw_adaptive w) → d_within policy [x] ∧ width_ok policy (dw_adaptive w'))
  end.

(** A round that panics as it opens the batch of [first]. *)
Lemma unwound_did policy w first script h h1 :
  dw_pending w = [] → arrived (dw_script w) = CmdIntent first :: arrived script →
  answered [] [] (dw_host w) h → ¬ opens policy (dw_host w) →
  (∃ ss, ss `prefix_of` [first] ∧ claimed ss h h1) →
  round_did policy w (DurableUnwinds (DurableWorker_mk (dw_database w) (dw_adaptive w) [] script h1)).
Proof.
  intros Hp0 Harr Hah Hno (ss & Hss & Hc). cbn [round_did]. unfold durable_worker_unwound.
  cbn [dw_host dw_script dw_database dw_adaptive]. set (h3 := dh_take_sender (poison unwound h1)).
  assert (ended h3) as He by by split.
  destruct (drain_refused (DrainFailed unwound) script h3 He) as (refused & E & [A4 B4]).
  destruct (drain_receiver (DrainFailed unwound) script h3) as [script2 h4]. cbn [fst snd] in *. split; [done|].
  exists EndUnwound, (DLost first :: (DRefused (WorkerFailed unwound) unwound_stop <$> refused)), (dw_database w).
  unfold d_commands. cbn [dw_pending dw_script dw_host app]. rewrite Hp0, Harr, E. split_and!.
  - by apply dv_unwound.
  - unfold lost_tickets, d_tickets. cbn [fmap list_fmap concat d_lost d_settled d_answers app].
    rewrite refused_lost, refused_answers. pose proof (refused_tickets (WorkerFailed unwound) unwound_stop refused) as Et.
    unfold d_tickets in Et. rewrite Et. apply (answered_but_trans _ [] _ [] _ _ h _ Hah).
    eapply claimed_lost; [exact Hss|exact Hc|]. eapply answered_before; [by apply (answered_none h1 h3)|exact A4].
  - destruct (steady_ended _ _ He B4) as [Es _]; injection Es as E1 E2. by split_and!.
  - intros _ _. constructor; [done|]. by apply Forall_fmap, Forall_true.
Qed.

(** A round whose epoch panics. *)
Lemma panicked_did policy w first cs script' h2 db1 adaptive :
  d_commands w = CmdIntent first :: cs ++ arrived script' →
  epoch_commit (dw_database w) (ds_intent <$> first :: staged_of cs) = (CommitPanicked, db1) →
  answered (ds_ticket <$> first :: staged_of cs)
    (commit_answers (ds_ticket <$> first :: staged_of cs) (CommitPanicked (D := D) (P := P))) (dw_host w) h2 →
  (policy_ok policy → width_ok policy (dw_adaptive w) →
    (N.of_nat (length (first :: staged_of cs)) <= policy_max_batch policy)%N) →
  round_did policy w (
    let h := dh_take_sender (poison batch_failure h2) in
    let '(script, h) := drain_pending_and_receiver (DrainFailed batch_failure) (CmdBarrier <$> barriers_of cs) script' h in
    DurableBreaks (DurableWorker_mk (poison_store batch_failure db1) adaptive [] script h)).
Proof.
  intros Hleft Ec Hans Hwid. cbv zeta. set (h3 := dh_take_sender (poison batch_failure h2)).
  assert (ended h3) as He by by split.
  pose proof (all_refused (DrainFailed batch_failure) (CmdBarrier <$> barriers_of cs) script' h3 He) as Hd.
  destruct (drain_pending_and_receiver _ _ script' h3) as [script2 h4]. cbn [fst snd] in Hd.
  destruct Hd as (refused & E & Hpre & [A4 B4]). cbn [round_did]. unfold loop_did.
  assert (∀ db, d_commands (DurableWorker_mk db adaptive [] script2 h4) = arrived script2) as Hcmd by done.
  rewrite Hcmd. split; [done|]. exists EndPanicked,
    (DBatch (first :: staged_of cs) CommitPanicked :: (DRefused (WorkerFailed batch_failure) failed <$> refused)), db1.
  cbn [dw_host]. split_and!.
  - rewrite Hleft. by apply dv_panicked.
  - assert (d_tickets (DBatch (first :: staged_of cs) CommitPanicked :: (DRefused (WorkerFailed batch_failure) failed <$> refused)) =
      (ds_ticket <$> first :: staged_of cs) ++ concat (command_tickets <$> refused)) as ->.
    { rewrite <- (refused_tickets (WorkerFailed batch_failure) failed refused). apply fmap_app. }
    unfold lost_tickets. cbn [fmap list_fmap concat d_lost d_answers app]. rewrite refused_lost, refused_answers.
    apply answered_but_none. refine (answered_trans (_ :: _) _ _ _ _ h2 _ Hans _).
    eapply answered_before; [by apply (answered_none h2 h3)|exact A4].
  - split_and!; [done|cbn..]; destruct (steady_ended _ _ He B4) as [Es _]; injection Es as E1 E2; by rewrite ?E1, ?E2.
  - intros Hpk Hwk. constructor; [by apply Hwid|]. by apply Forall_fmap, Forall_true.
Qed.

(** The batch of a round that runs. *)
Lemma batch_did policy w first script h :
  dw_pending w = [] → arrived (dw_script w) = CmdIntent first :: arrived script →
  worker_measure [] script < worker_measure [] (dw_script w) →
  answered [] [] (dw_host w) h → live h → dh_clock h = dh_clock (dw_host w) →
  round_did policy w (
    match durable_collect_batch policy script first (dw_adaptive w) [] h with
    | inr h => DurableUnwinds (DurableWorker_mk (dw_database w) (dw_adaptive w) [] script h)
    | inl (script, sealed, b) =>
        let h := durable_record_seal_reason sealed (bt_host b) in
        let '(failed, db, h) := process_durable_batch (dw_database w) (bt_staged b) h in
        match failed with
        | None => DurableContinues (DurableWorker_mk db (bt_adaptive b) (bt_pending b) script h)
        | Some reason =>
            let h := dh_take_sender (poison reason h) in
            let '(script, h) := drain_pending_and_receiver (DrainFailed reason) (bt_pending b) script h in
            DurableBreaks (DurableWorker_mk (poison_store reason db) (bt_adaptive b) [] script h)
        end
    end).
Proof.
  intros Hp0 Harr Hmeas Hah Hlive Hclock. unfold durable_collect_batch.
  pose proof (form_batch_taken policy script first (dw_adaptive w) [] h) as Hb.
  destruct (form_batch policy script first (dw_adaptive w) [] h) as [[[script' sealed] b]|h'] eqn:Hform.
  2: { destruct Hb as (ss & Hss & [Hc _]%host_steps_claimed). apply (unwound_did policy w first script h h'); [done..| |by eauto].
       unfold opens. rewrite <- Hclock. intros Hopens.
       destruct (form_batch_forms policy script first (dw_adaptive w) [] h _ (S (dh_reads h)) Hopens) as [r Hr]; [done|]. congruence. }
  cbn [fst snd app] in Hb. destruct Hb as (cs & Ecs & Hbst & Hbp & Hbm & [Hbc Hbs]%host_steps_claimed & Hbw).
  rewrite Hbst, Hbp in *. cbv zeta.
  set (h1 := durable_record_seal_reason sealed (bt_host b)).
  assert (d_commands w = CmdIntent first :: cs ++ arrived script') as Hleft
    by (unfold d_commands; by rewrite Hp0, Harr, Ecs).
  destruct (process_batch_answered (dw_database w) (first :: staged_of cs) h1) as (h2 & -> & A2 & B2).
  assert (steady h h2) as Hst2.
  { eapply steady_trans; [exact Hbs|]. eapply steady_trans; [|exact B2]. by apply steady_same. }
  assert (answered (ds_ticket <$> first :: staged_of cs)
    (commit_answers (ds_ticket <$> first :: staged_of cs) (epoch_commit (dw_database w) (ds_intent <$> first :: staged_of cs)).1)
    (dw_host w) h2) as Hans.
  { eapply answered_before; [exact Hah|]. eapply claimed_answered; [exact Hbc|].
    eapply answered_before; [|exact A2]. by apply answered_none. }
  destruct (epoch_commit (dw_database w) (ds_intent <$> first :: staged_of cs)) as [r db1] eqn:Ec. cbn [fst snd] in *.
  destruct (commit_panic r) eqn:Er.
  - assert (r = CommitPanicked) as -> by by destruct r. apply (panicked_did policy w first cs script' h2 db1 (bt_adaptive b)); try done.
    intros Hpk Hwk. by apply Hbw.
  - cbn [round_did]. exists (DBatch (first :: staged_of cs) r). cbn [dw_host dw_pending dw_script dw_database dw_adaptive].
    split_and!.
    + intros e tr lost db' Hs. rewrite Hleft. by eapply dv_batch.
    + done.
    + unfold d_tickets. cbn [fmap list_fmap concat d_settled d_intents d_answers]. by rewrite app_nil_r.
    + by eapply steady_live.
    + by rewrite (sd_clock _ _ Hst2).
    + rewrite Hp0. lia.
    + by eexists.
    + intros Hpk Hwk. destruct (Hbw Hpk Hwk) as [H1' H2']. split; [by constructor|done].
Qed.

Lemma durable_round_did policy w : (∃ ns, dw_pending w = CmdBarrier <$> ns) → live (dw_host w) →
  round_did policy w (durable_worker_round policy w).
Proof.
  intros [ns Hns] Hlive. unfold durable_worker_round.
  pose proof (next_command_arrived (dw_pending w) (dw_script w) (dw_host w)) as Hn.
  destruct (next_command (dw_pending w) (dw_script w) (dw_host w)) as [[[c pending] script] h].
  cbn [fst snd] in Hn. destruct Hn as (Hc & Hhs & Hpop & Hnil).
  apply host_steps_claimed in Hhs as [[Hca Hcin Hcot] Hst]. assert (answered [] [] (dw_host w) h) as Hah.
  { split; [by rewrite app_nil_r|set_solver|intros t _; apply Hcot, not_elem_of_nil]. }
  assert (live h) as Hlh by by eapply steady_live.
  assert (∃ ns', pending = CmdBarrier <$> ns') as [ns' Hns'].
  { destruct Hpop as [Hp|(-> & _)]; [exists []; by rewrite (Hnil Hp)|]. rewrite Hns. exists (tail ns). by destruct ns. }
  destruct c as [c|].
  - destruct Hc as [Hcmds Hmeas]. pose proof (settle_steady script h) as Hset.
    destruct (settle script h) as [script1 h1]. cbn [fst snd] in Hset. destruct Hset as (Es & Hl & A1 & B1).
    assert (live h1) as Hl1 by by eapply steady_live.
    assert (answered [] [] (dw_host w) h1) as Ah1 by by eapply (answered_before [] []).
    pose proof (live_stop h1 Hl1) as Hstop. destruct (stop_of h1) as [reason|].
    + destruct Hstop as (-> & He & Estop).
      destruct (reject_answered DrainShutdown c h1) as [A2 B2]. destruct (steady_ended _ _ He B2) as [Es2 He2].
      pose proof (all_refused DrainShutdown pending script1 _ He2) as Hd.
      destruct (drain_pending_and_receiver _ pending script1 _) as [script2 h4]. cbn [fst snd] in Hd.
      destruct Hd as (refused & E & _ & Hr). cbn [round_did]. split; [done|].
      pose proof (refuses_cons DrainShutdown c refused h1 _ h4 He eq_refl Hr) as [A3 B3].
      rewrite Estop in A3. exists EndClosed, (DRefused ShutdownBeforeClaim draining <$> c :: refused), (dw_database w).
      unfold d_commands. cbn [dw_pending dw_script dw_host app]. rewrite Hcmds, <- Es, E. split_and!.
      * apply (dv_stopped _ _ (c :: refused)).
      * unfold lost_tickets. rewrite refused_answers, refused_tickets, refused_lost. apply answered_but_none.
        by eapply answered_before.
      * destruct (steady_ended _ _ He B3) as [E3 _]. rewrite Estop in E3. injection E3 as E3 E4. done.
      * intros _ _. by apply Forall_fmap, Forall_true.
    + destruct c as [first|completed].
      * assert (pending = [] ∧ dw_pending w = []) as [-> Hp0].
        { rewrite Hns in *. destruct ns as [|n ns]; [by split; [apply Hnil|]|by cbn in Hcmds]. }
        rewrite Hp0 in *. apply batch_did; try done; [by rewrite Es|unfold worker_measure in *; lia|].
        by rewrite (sd_clock _ _ B1), (sd_clock _ _ Hst).
      * cbn [round_did]. exists (DBarrier completed). cbn [dw_host dw_pending dw_script dw_database dw_adaptive].
        split_and!.
        -- intros e tr lost db' Hs. unfold d_commands. rewrite Hcmds. unfold d_commands in Hs.
           cbn [dw_pending dw_script] in Hs. rewrite Es in Hs. by constructor.
        -- done.
        -- eapply (answered_before _ _ _ h1); [done|]. split; intros; cbn; try done. set_solver.
        -- exact Hl1.
        -- cbn. by rewrite (sd_clock _ _ B1), (sd_clock _ _ Hst).
        -- unfold worker_measure in *. lia.
        -- by eexists.
        -- intros _ Hw. split; [by constructor|done].
  - destruct Hc as (Hp0 & -> & Harr & ->). cbn [round_did]. split; [done|].
    destruct Hlh as [[E|E] Er]; [exists EndDisconnected|exists EndClosed]; exists [], (dw_database w);
      unfold d_commands; cbn [dw_pending dw_script dw_host app]; rewrite Hp0, Harr;
      (split_and!; [constructor; auto|by apply answered_but_none|by split_and!|by constructor]).
Qed.

(** What a round did, and then the loop. *)
Lemma round_then_loop policy w w1 w2 :
  round_did policy w (DurableContinues w1) → loop_did policy w1 w2 → loop_did policy w w2.
Proof.
  intros (x & Hx & Hl & Ha & _ & Hck & _ & _ & Hw) (Hpn & e & tr & db' & Hs & Ha2 & Hleft & Hw2).
  unfold opens in Hs. rewrite Hck in Hs. split; [done|]. exists e, (x :: tr), db'. split_and!.
  - by apply Hx.
  - assert (d_tickets (x :: tr) = d_tickets [x] ++ d_tickets tr) as ->.
    { unfold d_tickets. cbn. by rewrite app_nil_r, fmap_app. }
    assert (lost_tickets (x :: tr) = lost_tickets tr) as -> by (unfold lost_tickets; cbn; by rewrite Hl).
    by eapply answered_but_trans.
  - done.
  - intros Hpk Hwk. destruct (Hw Hpk Hwk) as [H1' H2']. inversion H1'. constructor; [done|]. by apply Hw2.
Qed.

Lemma durable_loop_serves policy fuel : ∀ w, worker_measure (dw_pending w) (dw_script w) < fuel →
  (∃ ns, dw_pending w = CmdBarrier <$> ns) → live (dw_host w) →
  ∃ ok w', durable_worker_loop fuel policy w = Some (ok, w') ∧
    loop_did policy w (if ok : bool then w' else durable_worker_unwound unwound w').
Proof.
  induction fuel as [|fuel IH]; intros w Hf Hp Hl; [lia|]. cbn [durable_worker_loop].
  pose proof (durable_round_did policy w Hp Hl) as Hr.
  destruct (durable_worker_round policy w) as [w1|w1|w1]; [|by exists true, w1|by exists false, w1].
  pose proof Hr as (x & _ & _ & _ & Hl1 & _ & Hm & Hp1 & _).
  destruct (IH w1) as (ok & w2 & E & Hd); [lia|done|done|].
  exists ok, w2. split; [done|]. by eapply round_then_loop.
Qed.
End worker.
Arguments DServed : clear implicits.

(** The answers, tickets and state with which the worker leaves. *)
Definition exit_state (e : DEnd) : DurableControllerState :=
  match e with EndClosed => DClosed | _ => DPoisoned end.
Definition exit_reason (e : DEnd) : option string :=
  match e with
  | EndClosed => None
  | EndDisconnected => Some exited
  | EndPanicked => Some batch_failure
  | EndUnwound => Some unwound
  end.
Definition exit_database {D P I} (e : DEnd) (db : Database D P (FileEpochStore I)) : Database D P (FileEpochStore I) :=
  match exit_reason e with None => db | Some reason => poison_store reason db end.

Section run.
Context {D P I : Type} `{Kernel D, MappedRoot P, MappedVocabulary P, EpochFileIo I, Platform}.
Implicit Types (h : DurableHost D P).

(** What the exit of a worker thread does, by the state it finds. *)
Lemma exit_spec text (w : DurableWorker D P I) :
  match dh_state (dw_host w) with DDraining | DPoisoned => True | DRunning => dw_script w = [] | _ => False end →
  let w' := durable_worker_exit text w in
  dw_database w' = (match dh_state (dw_host w) with DRunning => poison_store text (dw_database w) | _ => dw_database w end) ∧
  dh_state (dw_host w') = (match dh_state (dw_host w) with DDraining => DClosed | _ => DPoisoned end) ∧
  dh_poison_reason (dw_host w') =
    (match dh_state (dw_host w) with DRunning => Some text | _ => dh_poison_reason (dw_host w) end) ∧
  dh_worker_alive (dw_host w') = false ∧ arrived (dw_script w') = arrived (dw_script w) ∧ dw_pending w' = dw_pending w ∧
  dh_answers (dw_host w') = dh_answers (dw_host w) ∧ dh_tickets (dw_host w') = dh_tickets (dw_host w).
Proof.
  intros Hst. unfold durable_worker_exit. cbv zeta.
  pose proof (settle_steady (dw_script w) (dw_host w)) as Hset.
  destruct (dh_state (dw_host w)) eqn:Es; try done.
  - rewrite Hst. cbn. rewrite Es. cbn; split_and!; try done; by rewrite Hst.
  - destruct (settle _ _) as [script h]. cbn [fst snd] in Hset. destruct Hset as (Ea & _ & [A1 _ A3] & [S1 S2]).
    destruct S2 as [E|[[E|E] _]]; [|congruence..]. rewrite E, Es. cbn. rewrite A1, app_nil_r, S1.
    split_and!; try done. apply map_eq. intros t. apply A3, not_elem_of_nil.
  - destruct (settle _ _) as [script h]. cbn [fst snd] in Hset. destruct Hset as (Ea & _ & [A1 _ A3] & [S1 S2]).
    destruct S2 as [E|[[E|E] _]]; [|congruence..]. rewrite E, Es. cbn. rewrite A1, app_nil_r, S1, E.
    split_and!; try done. apply map_eq. intros t. apply A3, not_elem_of_nil.
Qed.

Lemma exit_left e db (w : DurableWorker D P I) : left_as e db w → let w' := durable_worker_exit exited w in
  dw_database w' = exit_database e db ∧ dh_state (dw_host w') = exit_state e ∧
  dh_poison_reason (dw_host w') = exit_reason e ∧ dh_worker_alive (dw_host w') = false ∧
  arrived (dw_script w') = arrived (dw_script w) ∧ dw_pending w' = dw_pending w ∧
  dh_answers (dw_host w') = dh_answers (dw_host w) ∧ dh_tickets (dw_host w') = dh_tickets (dw_host w).
Proof.
  intros Hleft. pose proof (exit_spec exited w) as Hx. cbv zeta in *.
  destruct e; cbn [left_as] in Hleft; destruct Hleft as (Hd & Hs & Hr); rewrite Hs, Hd in Hx.
  - destruct (Hx Logic.I) as (-> & -> & -> & Hx'). by rewrite Hr.
  - destruct Hr as [Hr Hscr]. destruct (Hx Hscr) as (-> & -> & -> & Hx'). done.
  - destruct (Hx Logic.I) as (-> & -> & -> & Hx'). by rewrite Hr.
  - destruct (Hx Logic.I) as (-> & -> & -> & Hx'). by rewrite Hr.
Qed.

(** A controller that runs, as its constructor makes it. *)
Definition running h : Prop := dh_state h = DRunning ∧ dh_poison_reason h = None.

Lemma run_serves policy (db : Database D P (FileEpochStore I)) script h : running h →
  ∃ w e tr db', run_durable_worker policy db script h = Some w ∧
    dserves (opens policy h) e db (arrived script) tr (arrived (dw_script w)) db' ∧ dw_pending w = [] ∧
    answered_but (lost_tickets tr) (d_tickets tr) (concat (d_answers <$> tr)) h (dw_host w) ∧
    dw_database w = exit_database e db' ∧ dh_state (dw_host w) = exit_state e ∧
    dh_poison_reason (dw_host w) = exit_reason e ∧ dh_worker_alive (dw_host w) = false ∧
    (policy_ok policy → d_within policy tr).
Proof.
  intros [Hs Hr]. unfold run_durable_worker.
  destruct (durable_loop_serves policy (S (worker_measure [] script))
    (DurableWorker_mk db (adaptive_new (initial_width policy)) [] script h)) as (ok & w0 & E & Hp & e & tr & db' & Hd & Ha & Hl & Hw);
    [cbn; lia|by exists []|split; [by left|done]|].
  rewrite E. cbn [mbind option_bind]. set (w := if ok : bool then w0 else _) in *.
  change (if ok then w0 else durable_worker_unwound "durable worker panicked outside epoch boundary" w0) with w.
  destruct (exit_left e db' w Hl) as (X1 & X2 & X3 & X4 & X5 & X6 & X7 & X8).
  unfold d_commands in Hd. rewrite Hp in Hd. cbn [dw_pending dw_script dw_database dw_host app] in Hd, Ha.
  exists (durable_worker_exit exited w), e, tr, db'. split; [done|]. rewrite X5, X6. split_and!; [exact Hd|done| |done..|].
  - destruct Ha as [A1 A2 A3 A4]. split; rewrite ?X7, ?X8; done.
  - intros Hpk. apply Hw; [done|apply adaptive_new_ok].
Qed.
End run.

(** ** What the file holds *)

(** The frames of the epochs a worker planned can be written in the format. *)
Fixpoint d_encodable {D P} `{Kernel D, MappedRoot P, MappedVocabulary P}
    (vs : list (CandidateWorld D → outcome string unit)) (w : World D P) (tr : list (DServed D P)) : Prop :=
  match tr with
  | [] => True
  | DBatch batch r :: tr =>
      (∀ plan, derive_plan w (ds_intent <$> batch) vs = Some plan → Forall encodable (ep_frames plan)) ∧
      d_encodable vs (match r with CommitDone plan => ep_tail plan | _ => w end) tr
  | _ :: tr => d_encodable vs w tr
  end.

Section durable.
Context {D P I : Type} `{KernelLaws D, MappedRootLaws P, !MappedVocabulary P, EpochFileIoLaws I}.
Implicit Types (db : Database D P (FileEpochStore I)).

Lemma epoch_commit_store db intents :
  (∀ plan, derive_plan (db_current db) intents (db_validators db) = Some plan → Forall encodable (ep_frames plan)) →
  epoch_ok (db_store db) → epoch_ok (db_store (epoch_commit db intents).2).
Proof.
  intros He Hok. unfold epoch_commit. destruct (derive_plan _ _ _) as [plan|] eqn:Ed; [|done].
  destruct (plan_is_empty plan); [done|].
  pose proof (step_ok _ _ (step_append (D := D) (P := P) (db_store db) (ep_frames plan) (He plan eq_refl)) Hok) as [Hok' _].
  by destruct (append_epoch _ _) as [[u|e|] s].
Qed.

Lemma poison_store_ok reason db : epoch_ok (db_store db) → epoch_ok (db_store (poison_store reason db)).
Proof. intros Hok. by apply (step_ok (D := D) (P := P) _ _ (step_poison (D := D) (P := P) (db_store db) reason)). Qed.

Lemma dserves_store opens e db cs tr lost db' : dserves opens e db cs tr lost db' →
  d_encodable (db_validators db) (db_current db) tr → epoch_ok (db_store db) → epoch_ok (db_store db').
Proof.
  induction 1 as [|? ? ? ? ? ? ? _ IH|? db first taken rest r db1 tr lost db' Ec Ep _ IH|
    |db first taken rest db1 refused lost Ec _ _|]; try done.
  - intros [Hplan Htr] Hok. pose proof (epoch_commit_frames db (ds_intent <$> first :: staged_of taken)) as [Hf Hv].
    pose proof (epoch_commit_store db _ Hplan Hok) as Hok1. rewrite Ec in Hf, Hv, Hok1. cbn [fst snd] in *.
    apply IH; [|done]. rewrite Hv. destruct r as [plan|plan err|]; [| |done].
    + by destruct Hf as (_ & _ & -> & _).
    + by destruct Hf as (_ & -> & _).
  - intros [Hplan _] Hok. pose proof (epoch_commit_store db _ Hplan Hok) as Hok1. by rewrite Ec in Hok1.
Qed.
End durable.

Lemma exit_keeps {D P I} e (db : Database D P (FileEpochStore I)) :
  fe_frames (db_store (exit_database e db)) = fe_frames (db_store db) ∧
  db_current (exit_database e db) = db_current db ∧
  (e = EndClosed → exit_database e db = db) ∧ (e ≠ EndClosed → fe_state (db_store (exit_database e db)) = Poisoned).
Proof. by destruct e. Qed.

(** C11: The worker of the durable controller ends and accounts for all it takes.
    Whatever the batching policy, the clock, the failures of the file, the moments
    at which commands arrive and at which another thread begins a shutdown, the
    worker of a running controller ends: it committed one epoch per batch, within
    the maximum of a policy whose bounds are in order, until it was stopped, the
    channel was closed, an epoch panicked, or a batch could not be opened.  Every
    intent it took is answered exactly once, in the order of arrival: with the
    outcome of its epoch, or with the reason it was stopped; what it never took is
    what the channel still held; no other ticket is touched.  The exception is a
    batch that cannot be opened, only possible if the platform cannot reserve the
    maximal batch or cannot add the policy's delay to the time: the panic unwinds
    the loop, and the one intent that opened the batch is lost without an answer.
    The worker leaves the controller closed after a shutdown and else poisoned,
    with the reason, and the store poisoned with it. *)
Theorem durable_worker_serves {D P I : Type} `{Kernel D, MappedRoot P, MappedVocabulary P, EpochFileIo I, Platform}
    (policy : BatchPolicy) (db : Database D P (FileEpochStore I)) script (h : DurableHost D P) :
  running h →
  ∃ w e tr db', run_durable_worker policy db script h = Some w ∧
    dserves (opens policy h) e db (arrived script) tr (arrived (dw_script w)) db' ∧
    concat (d_intents <$> tr) ++ staged_of (arrived (dw_script w)) = staged_of (arrived script) ∧
    concat (d_barriers <$> tr) ++ barriers_of (arrived (dw_script w)) = barriers_of (arrived script) ∧
    answered_but (lost_tickets tr) (d_tickets tr) (concat (d_answers <$> tr)) h (dw_host w) ∧
    (if decide (e = EndUnwound) then ¬ opens policy h ∧ ∃ s, concat (d_lost <$> tr) = [s]
     else concat (d_lost <$> tr) = []) ∧
    (policy_ok policy → d_within policy tr) ∧ dh_worker_alive (dw_host w) = false ∧
    dw_database w = exit_database e db' ∧
    dh_state (dw_host w) = exit_state e ∧ dh_poison_reason (dw_host w) = exit_reason e ∧
    (e ≠ EndClosed → fe_state (db_store (dw_database w)) = Poisoned).
Proof.
  intros Hrun. destruct (run_serves policy db script h Hrun) as (w & e & tr & db' & E & Hs & _ & Ha & Hd & X & Y & Z & Hw).
  destruct (dserves_intents _ _ _ _ _ _ _ Hs) as [H1' H2']. pose proof (dserves_lost _ _ _ _ _ _ _ Hs) as H3'.
  exists w, e, tr, db'. split_and!; try done. rewrite Hd. apply exit_keeps.
Qed.

(** C10: An acknowledged commit is durable.  However the worker of a durable
    controller runs and ends, with what its run did (each batch an epoch derived from
    the world published before it, appended to the store, and published and answered
    as accepted only if the append succeeded): the store afterwards holds the frames
    it held and those of the epochs the worker acknowledged, in that order and no
    others; the published world is the world of the last acknowledged epoch; and every
    commit reported as accepted is a frame of the store.  If the frames of the epochs
    it planned can be written in the format (their numbers and lengths within 64 bits,
    at most a million operations each), then on a file that may fail at any call the
    file of the store begins with the records of all these frames, even when a failed
    repair or the end of the worker left the store poisoned. *)
Theorem durable_acknowledged {D P I : Type}
    `{KernelLaws D, MappedRootLaws P, !MappedVocabulary P, EpochFileIoLaws I, Platform}
    (policy : BatchPolicy) (db : Database D P (FileEpochStore I)) script (h : DurableHost D P) :
  running h → epoch_ok (db_store db) →
  ∃ w e tr db', run_durable_worker policy db script h = Some w ∧
    dserves (opens policy h) e db (arrived script) tr (arrived (dw_script w)) db' ∧
    dw_database w = exit_database e db' ∧
    let s := db_store (dw_database w) in
    dh_answers (dw_host w) = dh_answers h ++ concat (d_answers <$> tr) ∧
    fe_frames s = fe_frames (db_store db) ++ concat (d_frames <$> tr) ∧
    db_current (dw_database w) = last_tail (db_current db) tr ∧
    (∀ t world frame entities, TicketAnswer t (DurableAccepted world frame entities) ∈ concat (d_answers <$> tr) →
       frame ∈ fe_frames s) ∧
    (d_encodable (db_validators db) (db_current db) tr →
       linear (fe_frames s) ∧ file_of (fe_frames s) `prefix_of` content s ∧
       (fe_state s = Healthy → content s = file_of (fe_frames s))).
Proof.
  intros Hrun Hok.
  destruct (run_serves policy db script h Hrun) as (w & e & tr & db' & E & Hs & _ & Ha & Hd & _).
  destruct (dserves_frames _ _ _ _ _ _ _ Hs) as [Hf Hc]. destruct (exit_keeps e db') as (K1 & K2 & _).
  exists w, e, tr, db'. split; [done|]. split; [done|]. split; [done|]. cbv zeta. rewrite Hd, K1, K2.
  split_and!; [apply Ha|done|done| |].
  - intros t world frame entities Hin. rewrite Hf. apply elem_of_app. right.
    by eapply accepted_in_frames.
  - intros Henc. pose proof (dserves_store _ _ _ _ _ _ _ Hs Henc Hok) as Hok1.
    assert (epoch_ok (db_store (exit_database e db'))) as Hok2.
    { unfold exit_database. destruct (exit_reason e); [by apply poison_store_ok|done]. }
    rewrite <- K1. split_and!; [apply Hok2|apply Hok2|]. by apply Hok2.
Qed.

(** ** A run *)

#[local] Existing Instance sample_platform.

Definition durable_staged : list DurableStagedIntent :=
  imap (λ k i, DurableStagedIntent_mk i (N.of_nat k) (1000 * N.of_nat k)) (sample_epoch ++ sample_epoch).
(** Two batches, the first cut by a barrier; its write is torn and rolled back. Then a shutdown: one intent is
    refused, and one comes too late. *)
Definition durable_script : list (Arrival DurableStagedIntent) :=
  Quiet :: (Arrives ∘ CmdIntent <$> take 2 durable_staged) ++ Arrives (CmdBarrier 7) ::
  (Arrives ∘ CmdIntent <$> take 2 (drop 2 durable_staged)) ++
  Quiet :: Drains :: (Arrives ∘ CmdIntent <$> take 1 (drop 4 durable_staged)) ++
  Quiet :: (Arrives ∘ CmdIntent <$> take 1 (drop 5 durable_staged)).
Definition durable_genesis : Database LegacyDb.ForthDb Empty_set (FileEpochStore ScriptedIo) :=
  Database_mk genesis (scripted_store PerEpoch [(EpochWrite, WritePrefixThenFail 30 28)]) [].
Definition durable_sample_host : DurableHost LegacyDb.ForthDb Empty_set :=
  DurableHost_mk DRunning None (store_at DuQueueDepth 6 zeroed) true true
    (list_to_map ((λ s, (ds_ticket s, lifecycle_new)) <$> durable_staged)) 9 [] (λ k, 10000 + 100 * N.of_nat k)%N 0
    (λ t, negb (t =? 1)%N).

Definition answer_tag (a : DurableAnswer LegacyDb.ForthDb Empty_set) : N * string :=
  match a with
  | TicketAnswer t o => (t, match o with
      | DurableAccepted _ _ _ => "accepted" | DurableRejected _ => "rejected" | DurabilityFailed _ => "not durable"
      | Stopped ShutdownBeforeClaim => "shutdown" | Stopped (WorkerFailed _) => "worker failed" end)
  | FlushAnswer n (Ok _) => (n, "flushed")
  | FlushAnswer n _ => (n, "stopped")
  end%string.

Lemma durable_store_ok : epoch_ok (db_store durable_genesis).
Proof. apply scripted_store_ok. repeat constructor. Qed.

Lemma durable_worker_serves_witness :
  running durable_sample_host ∧
  ∃ w e tr db', run_durable_worker (ImmediateDrain 2) durable_genesis durable_script durable_sample_host = Some w ∧
    dserves (opens (ImmediateDrain 2) durable_sample_host) e durable_genesis (arrived durable_script) tr
      (arrived (dw_script w)) db' ∧
    concat (d_intents <$> tr) ++ staged_of (arrived (dw_script w)) = staged_of (arrived durable_script) ∧
    concat (d_barriers <$> tr) ++ barriers_of (arrived (dw_script w)) = barriers_of (arrived durable_script) ∧
    answered_but (lost_tickets tr) (d_tickets tr) (concat (d_answers <$> tr)) durable_sample_host (dw_host w) ∧
    (if decide (e = EndUnwound) then ¬ opens (ImmediateDrain 2) durable_sample_host ∧ ∃ s, concat (d_lost <$> tr) = [s]
     else concat (d_lost <$> tr) = []) ∧
    (policy_ok (ImmediateDrain 2) → d_within (ImmediateDrain 2) tr) ∧ dh_worker_alive (dw_host w) = false ∧
    dw_database w = exit_database e db' ∧
    dh_state (dw_host w) = exit_state e ∧ dh_poison_reason (dw_host w) = exit_reason e ∧
    (e ≠ EndClosed → fe_state (db_store (dw_database w)) = Poisoned).
Proof.
  split; [by split|].
  apply (durable_worker_serves (ImmediateDrain 2) durable_genesis durable_script durable_sample_host). by split.
Defined.

Lemma durable_acknowledged_witness :
  ∃ w e tr db', run_durable_worker (ImmediateDrain 2) durable_genesis durable_script durable_sample_host = Some w ∧
    dserves (opens (ImmediateDrain 2) durable_sample_host) e durable_genesis (arrived durable_script) tr
      (arrived (dw_script w)) db' ∧
    dw_database w = exit_database e db' ∧
    let s := db_store (dw_database w) in
    dh_answers (dw_host w) = dh_answers durable_sample_host ++ concat (d_answers <$> tr) ∧
    fe_frames s = fe_frames (db_store durable_genesis) ++ concat (d_frames <$> tr) ∧
    db_current (dw_database w) = last_tail (db_current durable_genesis) tr ∧
    (∀ t world frame entities, TicketAnswer t (DurableAccepted world frame entities) ∈ concat (d_answers <$> tr) →
       frame ∈ fe_frames s) ∧
    (d_encodable (db_validators durable_genesis) (db_current durable_genesis) tr →
       linear (fe_frames s) ∧ file_of (fe_frames s) `prefix_of` content s ∧
       (fe_state s = Healthy → content s = file_of (fe_frames s))).
Proof.
  apply (durable_acknowledged (ImmediateDrain 2) durable_genesis durable_script durable_sample_host);
    [by split|exact durable_store_ok].
Defined.

(** The run itself: the torn epoch is not durable, the next one is; one intent is
    refused by the shutdown, and one is lost in the channel. *)
Example durable_sample_run :
  run_durable_worker (ImmediateDrain 2) durable_genesis durable_script durable_sample_host ≫= (λ w,
    Some (answer_tag <$> dh_answers (dw_host w), dh_state (dw_host w),
      length (fe_frames (db_store (dw_database w))), fe_state (db_store (dw_database w)), length (dw_script w),
      (λ k, dh_counters (dw_host w) k) <$> [DuClaimed; DuAccepted; DuRejected; DuDurabilityFailed;
        DuShutdownBeforeClaim; DuEpochs; DuQueueDepth; DuInFlight; DuDeliveryFailures])) =
  Some ([(0, "not durable"); (1, "rejected"); (7, "flushed"); (2, "accepted"); (3, "accepted"); (4, "shutdown")]%N%string,
    DClosed, 1, Healthy, 1, [4; 2; 1; 1; 1; 2; 1; 0; 1]%N).
Proof. vm_compute. reflexivity. Qed.

(** A maximum or a delay beyond the platform: the worker unwinds at its first
    batch, that intent is lost without an answer, the others are refused, and
    controller and store are poisoned. *)
Lemma durable_unopened_batches : Forall (λ policy,
  run_durable_worker policy durable_genesis durable_script durable_sample_host ≫= (λ w,
    Some (answer_tag <$> dh_answers (dw_host w), dh_state (dw_host w), dh_poison_reason (dw_host w),
      fe_state (db_store (dw_database w)))) =
  Some ([(1, "worker failed"); (7, "stopped"); (2, "worker failed"); (3, "worker failed")]%N%string, DPoisoned,
    Some unwound, Poisoned))
  [ImmediateDrain u64_max; Coalesce 4 (u64_max * 1000000000)].
Proof. apply Forall_cons_2; [|apply Forall_singleton]; by vm_compute. Qed.

(** ** Slot preconditions *)

(** Two intents: one defines the slot [a], the other defines [b] and expects [a]
    to be absent.  In one epoch the second is rejected; in an epoch of its own,
    after the first was persisted and published, it is accepted. *)
Definition expects_absent_slot_a : QueuedIntent := expect_absent defines_slot_b slot_a.
Definition precondition_script : list (Arrival DurableStagedIntent) :=
  [Arrives (CmdIntent (DurableStagedIntent_mk sample_intent 0 0));
   Arrives (CmdIntent (DurableStagedIntent_mk expects_absent_slot_a 1 0))].
Definition precondition_answers (max_batch : N) : option (list (N * string)) :=
  run_durable_worker (ImmediateDrain max_batch) (Database_mk genesis (scripted_store PerEpoch []) [])
    precondition_script durable_sample_host ≫= (λ w, Some (answer_tag <$> dh_answers (dw_host w))).

(** The epoch of the durable worker starts from a materializer without a history,
    so a slot precondition sees only what the same epoch defined. *)
Lemma slot_preconditions_see_one_epoch :
  precondition_answers 2 = Some [(0, "accepted"); (1, "rejected")]%N%string ∧
  precondition_answers 1 = Some [(0, "accepted"); (1, "accepted")]%N%string.
Proof. split; vm_compute; reflexivity. Qed.

(** ** The epochs of the durable worker and the planner on histories *)

Section plans_refine.
Context {D P : Type} `{KernelLaws D, MappedRootLaws P, !MappedVocabulary P, !MappedVocabularyLaws P}.
Implicit Types (m : VmEpochMaterializer P) (evs : list Event) (base w : World D P) (fs : list CommitFrame).

Definition as_mixed (o : WorkspaceOutcome) : MixedVmOutcome :=
  match o with
  | WorkspaceAccepted position es => MixedQueuedAccepted position es
  | WorkspaceRejected r => MixedQueuedRejected r
  end.

Lemma vm_loop_spec intents : ∀ position p m evs next,
  mat_ok m evs next → intents_fit intents → (next + N.of_nat (intent_total intents) <= VM_LITERAL_BASE)%N →
  (pr_version p + N.of_nat (length intents) < u64_modulus)%N → mat_room m (intent_total intents) →
  ∃ ops outs st' m', vm_loop position (pr_id p) (pr_version p) intents m = (Ok (ops, outs), m') ∧
    spec_epoch position (History_mk evs next p) (QueuedCI <$> intents) = Ok (ops, as_mixed <$> outs, st') ∧
    allocate next ops = Ok (hs_next st') ∧ hs_events st' = evs ++ events_of ops ∧
    (hs_next st' <= next + N.of_nat (intent_total intents))%N ∧ mat_ok m' (evs ++ events_of ops) (hs_next st').
Proof.
  induction intents as [|q intents IH]; intros position p m evs next Hm Hfit Hnext Hver Hroom.
  { exists [], [], (History_mk evs next p), m. cbn. rewrite app_nil_r. split_and!; try done. lia. }
  apply Forall_cons_1 in Hfit as [Hf Hfit].
  cbn [intent_total foldr length fmap list_fmap vm_loop spec_epoch spec_intent] in *. fold (intent_total intents) in *.
  pose proof (mat_resolve_intent m (History_mk evs next p) q Hm) as Hr. cbn [hs_predecessor] in Hr. rewrite Hr in *.
  destruct (spec_queued _ q) as [[ops es]|e|]; cbn [outcome_bind].
  - destruct (resolve_intent_fits m (pr_id p) q ops es next (mk_next _ _ _ Hm) Hf) as (next1 & Ha & Hle & Hops & Hlen);
      [lia|done|].
    destruct (run_operations m evs next ops next1 (intent_total intents) Hm) as
      (program & m1 & m2 & E1 & E2 & Hm2 & Hr2 & Hv2); [by rewrite Hlen|done|done|].
    rewrite (mat_bind_Ok _ _ _ _ _ E1), (mat_bind_Ok _ _ _ _ _ E2). cbn [spec_advance fst hs_next hs_events].
    rewrite Ha. cbn [outcome_bind]. destruct (version_next (pr_version p) (length intents)) as [Hsat Hver']; [lia|].
    assert (u64_add (pr_version p) 1 = pr_version p + 1)%N as Hadd by (apply u64_add_small; unfold u64_ok; lia).
    rewrite Hadd in *. unfold mat_get. erewrite mat_bind_Ok by done. cbv zeta. rewrite Hsat, (mk_next _ _ _ Hm2).
    destruct (IH (S position) (Predecessor_mk (calculate_world_id (pr_id p) (pr_version p + 1) next1 ops)
      (pr_version p + 1)) m2 _ next1 Hm2 Hfit) as (ops' & outs & st' & m' & E3 & Hs3 & Ha3 & He3 & Hle3 & Hm3);
      [lia|cbn; lia|done|].
    cbn [hs_predecessor pr_id pr_version] in *. rewrite (mat_bind_Ok _ _ _ _ _ E3), Hs3.
    cbn [outcome_bind fst snd default from_option id].
    exists (ops ++ ops'), (WorkspaceAccepted position es :: outs), st', m'.
    split_and!; [done|done| | |lia|]; rewrite ?allocate_app, ?Ha, ?events_of_app, ?(assoc_L (++)); done.
  - edestruct (IH (S position) p m evs next) as (ops' & outs & st' & m' & E3 & Hs3 & Ha3 & He3 & Hle3 & Hm3);
      [done|done|lia|lia|eapply mat_room_le; [|done]; lia|].
    cbn [queued_rejected spec_advance outcome_bind fst]. rewrite (mat_bind_Ok _ _ _ _ _ E3), Hs3. cbn [outcome_bind fst snd].
    exists ops', (WorkspaceRejected (RejectedIntent_mk position e) :: outs), st', m'. split_and!; try done. lia.
  - apply (resolve_intent_no_panic _ _ _ _ _ Hm) in Hr; [done|lia].
Qed.

(** A world that extends a history, but for the numbers of slots and records it
    reports. *)
Definition recount (active : N) (records : nat) w : World D P :=
  World_mk (w_id w) (w_version w) (w_next_entity w) (w_operation_count w) active records (w_eager_kernel w)
    (w_lazy_kernel w) (w_vm_query w) (w_projection_base w) (w_history w) (w_history_prefix w).
Definition counted w fs : Prop := ∃ active records, world_ok (recount active records w) fs.

Lemma world_counted w fs : world_ok w fs → counted w fs.
Proof. intros Hw. exists (w_active_slot_count w), (w_record_count w). by destruct w. Qed.

(** The state of the world without its slots: where the durable worker starts. *)
Definition empty_history w : History := History_mk [] (w_next_entity w) (Predecessor_mk (w_id w) (w_version w)).

Definition durably_decided (tail : World D P) (frames : list CommitFrame) (d : MixedVmOutcome)
    (o : EpochOutcome D P) : Prop :=
  match d, o with
  | MixedQueuedAccepted position entities, EpochAccepted a =>
      ai_position a = position ∧ ai_entities a = entities ∧ ai_world a = tail ∧ frames = [ai_frame a]
  | MixedQueuedRejected r, EpochRejected r' => r = r'
  | _, _ => False
  end.

(** The plan of an epoch against the decisions of the planner on histories from
    a state. *)
Record decides_from (st : History) (intents : list QueuedIntent) (plan : EpochPlan D P) : Prop := {
  df_spec : ∃ ops outs st', spec_epoch 0 st (QueuedCI <$> intents) = Ok (ops, outs, st') ∧
    Forall2 (durably_decided (ep_tail plan) (ep_frames plan)) outs (ep_outcomes plan) ∧
    chain_operations (ep_frames plan) = ops ∧ w_next_entity (ep_tail plan) = hs_next st' ∧
    length (ep_frames plan) = (if decide (length (filter (λ o, mixed_accepted o) outs) = 0) then 0 else 1);
}.

(** Only the identity of the world is expected. *)
Definition slot_free (q : QueuedIntent) : Prop :=
  Forall (λ p, match p with ExpectedWorld _ => True | ExpectedSlot _ _ => False end) (qi_preconditions q).

Record durable_plan_ok base fs (intents : list QueuedIntent) (plan : EpochPlan D P) : Prop := {
  dp_base : ep_base plan = base;
  dp_empty_history : decides_from (empty_history base) intents plan;
  dp_history : Forall slot_free intents → decides_from (history_of base fs) intents plan;
  dp_tail : counted (ep_tail plan) (fs ++ ep_frames plan);
  dp_next : (w_next_entity (ep_tail plan) <= w_next_entity base + N.of_nat (intent_total intents))%N;
  dp_version : (w_version (ep_tail plan) <= w_version base + N.of_nat (length intents))%N;
}.

Lemma spec_queued_free st evs q : slot_free q →
  spec_queued (History_mk evs (hs_next st) (hs_predecessor st)) q = spec_queued st q.
Proof.
  intros Hq. unfold spec_queued. cbn [hs_next].
  enough (outcome_fold (λ _ p, spec_precondition (History_mk evs (hs_next st) (hs_predecessor st)) p) (qi_preconditions q) tt =
    outcome_fold (λ _ p, spec_precondition st p) (qi_preconditions q) tt) as -> by done.
  unfold slot_free in Hq. induction Hq as [|[e|s f] ps Hp _ IH]; [done| |done]. cbn [outcome_fold spec_precondition hs_predecessor].
  destruct (decide _); cbn; [done|apply IH].
Qed.

(** Without slot preconditions the slots of the history do not matter. *)
Lemma spec_epoch_free intents : ∀ position st evs ops outs st', Forall slot_free intents →
  spec_epoch position st (QueuedCI <$> intents) = Ok (ops, outs, st') →
  ∃ evs', spec_epoch position (History_mk evs (hs_next st) (hs_predecessor st)) (QueuedCI <$> intents) =
    Ok (ops, outs, History_mk evs' (hs_next st') (hs_predecessor st')).
Proof.
  induction intents as [|q intents IH]; intros position st evs ops outs st' Hf; cbn [fmap list_fmap spec_epoch spec_intent].
  { intros [= <- <- <-]. by exists evs. }
  apply Forall_cons_1 in Hf as [Hq Hf]. rewrite (spec_queued_free st evs q Hq).
  destruct (spec_queued st q) as [[o es]|e|]; cbn [queued_rejected spec_advance outcome_bind fst snd hs_next hs_events hs_predecessor];
    [|..|done].
  - destruct (allocate (hs_next st) o) as [next|e|]; cbn [outcome_bind]; [|done..].
    intros E. destruct (spec_epoch (S position) _ _) as [[[ops1 outs1] st1]|e|] eqn:E1; [|done..].
    injection E as <- <- <-. destruct (IH _ _ (evs ++ events_of o) _ _ _ Hf E1) as (evs' & E2).
    cbn [hs_next hs_predecessor] in E2. rewrite E2. by eexists.
  - intros E. destruct (spec_epoch (S position) st _) as [[[ops1 outs1] st1]|e'|] eqn:E1; [|done..].
    injection E as <- <- <-. destruct (IH _ _ evs _ _ _ Hf E1) as (evs' & ->). by eexists.
Qed.

Lemma decides_from_free st evs intents plan : Forall slot_free intents → decides_from st intents plan →
  decides_from (History_mk evs (hs_next st) (hs_predecessor st)) intents plan.
Proof.
  intros Hf [(ops & outs & st' & E & H1' & H2' & H3' & H4')].
  destruct (spec_epoch_free intents 0 st evs ops outs st' Hf E) as (evs' & E').
  split. exists ops, outs, (History_mk evs' (hs_next st') (hs_predecessor st')). by split_and!.
Qed.

Lemma as_mixed_accepted outs :
  length (filter (λ o, mixed_accepted o) (as_mixed <$> outs)) = length (filter workspace_accepted outs).
Proof.
  induction outs as [|[pos es|r] outs IH]; [done|..]; rewrite fmap_cons, !filter_cons; cbn [as_mixed mixed_accepted workspace_accepted];
    repeat case_decide; try done; cbn [length]; by rewrite IH.
Qed.

Lemma published_decided tail f outs :
  Forall2 (durably_decided tail [f]) (as_mixed <$> outs) (published_outcome tail f <$> outs).
Proof. induction outs as [|[] outs IH]; cbn; constructor; done. Qed.

Lemma rejected_decided tail outs os : mapM only_rejected outs = Some os →
  Forall2 (durably_decided tail []) (as_mixed <$> outs) os.
Proof.
  intros Hm. apply mapM_Some in Hm. induction Hm as [|o o' outs os Ho _ IH]; [constructor|].
  destruct o; [done|]. injection Ho as <-. by constructor.
Qed.

(** What the intents of an epoch may use. *)
Record epoch_fits base (intents : list QueuedIntent) : Prop := {
  ef_fits : intents_fit intents;
  ef_next : (w_next_entity base + N.of_nat (intent_total intents) <= VM_LITERAL_BASE)%N;
  ef_version : (w_version base + N.of_nat (length intents) < u64_modulus)%N;
  ef_room : (24 * N.of_nat (intent_total intents) <= NONE)%N;
}.

Lemma derive_plan_refines base fs intents : counted base fs → epoch_fits base intents →
  ∃ plan, derive_plan base intents [] = Some plan ∧ durable_plan_ok base fs intents plan.
Proof.
  intros (active & records & Hw) [Hfit Hnext Hver Hroom].
  unfold derive_plan, materialize, derive_vm_epoch, mbind, mat_bind.
  destruct (decide (vm_next (m_workspace (materializer_new (P := P) (w_next_entity base))) ≠ w_next_entity base)) as [Hne|_];
    [by destruct Hne|].
  destruct (vm_loop_spec intents 0 (Predecessor_mk (w_id base) (w_version base)) (materializer_new (w_next_entity base)) []
    (w_next_entity base)) as (ops & outs & st' & m' & E & Hs & Ha & He & Hle & Hm');
    [apply materializer_new_ok|done..|by apply materializer_new_room|].
  cbn [pr_id pr_version] in E. rewrite E.
  fold (empty_history base) in Hs. pose proof (as_mixed_accepted outs) as Hcount.
  assert (∀ plan, decides_from (empty_history base) intents plan → Forall slot_free intents →
    decides_from (history_of base fs) intents plan) as Hfree.
  { intros plan Hd Hf. apply (decides_from_free _ (frame_events fs) _ _ Hf Hd). }
  destruct (decide (length (filter workspace_accepted outs) = 0)) as [Hz|Hz].
  - destruct (only_rejected_all (D := D) (P := P) outs Hz) as [os Hos]. rewrite Hos. cbn.
    pose proof (spec_epoch_rejected _ _ _ _ _ _ Hs ltac:(congruence)) as [-> ->].
    eexists. split; [done|]. assert (decides_from (empty_history base) intents (EpochPlan_mk base base os [])) as Hd.
    { split. do 3 eexists. split; [done|]. split_and!; [by apply rejected_decided|done|done|].
      by rewrite Hcount, decide_True. }
    split; [done|done|by apply Hfree| | |]; cbn; [|lia|lia]. rewrite app_nil_r. by exists active, records.
  - assert (u64_ok (w_version base + 1)) as Hv1.
    { destruct intents; [by injection E as <- <- <-|]. simpl in Hver. unfold u64_ok. lia. }
    rewrite (mk_next _ _ _ Hm').
    destruct (from_vm_epoch_ok (recount active records base) fs ops (hs_next st') _ _ Hw Hv1 Ha eq_refl eq_refl) as [Hok Hops].
    unfold from_vm_epoch in *. cbn [fst snd recount w_id w_version w_next_entity w_operation_count w_eager_kernel w_lazy_kernel
      w_projection_base w_history w_history_prefix] in Hok, Hops |- *. eexists. split; [done|].
    match goal with |- durable_plan_ok _ _ _ ?p => assert (decides_from (empty_history base) intents p) as Hd end.
    { split. do 3 eexists. split; [done|]. cbn. split_and!; [apply published_decided|unfold chain_operations; cbn; by rewrite app_nil_r|done|].
      by rewrite Hcount, decide_False. }
    split; [done|done|by apply Hfree| |exact Hle|]; cbn.
    + eexists _, _. exact Hok.
    + rewrite u64_add_small by done. destruct intents; [by injection E as <- <- <-|]. cbn. lia.
Qed.
End plans_refine.

(** ** The epochs of a run *)

Section epochs.
Context {D P I : Type} `{KernelLaws D, MappedRootLaws P, !MappedVocabulary P, !MappedVocabularyLaws P, EpochFileIo I}.
Implicit Types (db : Database D P (FileEpochStore I)) (w : World D P) (fs : list CommitFrame).

(** The epochs of a worker from a world and its history: one that was persisted
    is followed by its successor, the others leave the world. *)
Inductive durable_epochs : World D P → list CommitFrame → list (DServed D P) → World D P → list CommitFrame → Prop :=
| de_end w fs : durable_epochs w fs [] w fs
| de_done w fs batch plan tr w' fs' : durable_plan_ok w fs (ds_intent <$> batch) plan →
    durable_epochs (ep_tail plan) (fs ++ ep_frames plan) tr w' fs' →
    durable_epochs w fs (DBatch batch (CommitDone plan) :: tr) w' fs'
| de_failed w fs batch plan error tr w' fs' : durable_plan_ok w fs (ds_intent <$> batch) plan →
    durable_epochs w fs tr w' fs' → durable_epochs w fs (DBatch batch (CommitFailed plan error) :: tr) w' fs'
| de_panicked w fs batch tr w' fs' :
    durable_epochs w fs tr w' fs' → durable_epochs w fs (DBatch batch CommitPanicked :: tr) w' fs'
| de_barrier w fs n tr w' fs' : durable_epochs w fs tr w' fs' → durable_epochs w fs (DBarrier n :: tr) w' fs'
| de_refused w fs reason s c tr w' fs' :
    durable_epochs w fs tr w' fs' → durable_epochs w fs (DRefused reason s c :: tr) w' fs'
| de_lost w fs s tr w' fs' : durable_epochs w fs tr w' fs' → durable_epochs w fs (DLost s :: tr) w' fs'.

Lemma intent_total_app l k : intent_total (l ++ k) = intent_total l + intent_total k.
Proof. unfold intent_total. induction l as [|i l IH]; cbn; [done|]. rewrite IH. lia. Qed.

Lemma epoch_fits_app w l k : epoch_fits w (l ++ k) →
  epoch_fits w l ∧ epoch_fits w k ∧ ∀ fs plan, durable_plan_ok w fs l plan → epoch_fits (ep_tail plan) k.
Proof.
  intros [Hf Hn Hv Hr]. unfold intents_fit in *. rewrite intent_total_app in *. rewrite length_app in Hv.
  apply Forall_app in Hf as [Hf1 Hf2]. split_and!; [split; [done|lia|lia|lia]..|].
  intros fs plan [_ _ _ _ Hpn Hpv]. split; [done|lia|lia|lia].
Qed.

Definition d_intents_of (cs : list (Command DurableStagedIntent)) : list QueuedIntent := ds_intent <$> staged_of cs.

Lemma refused_epochs w fs reason s cs : durable_epochs w fs (DRefused reason s <$> cs) w fs.
Proof. induction cs; cbn; by constructor. Qed.

Lemma epoch_commit_refines db intents fs : counted (db_current db) fs → db_validators db = [] →
  epoch_fits (db_current db) intents →
  match (epoch_commit db intents).1 with
  | CommitDone plan | CommitFailed plan _ => durable_plan_ok (db_current db) fs intents plan
  | CommitPanicked => True
  end.
Proof.
  intros Hw Hv Hf. destruct (derive_plan_refines _ _ _ Hw Hf) as (plan & E & Hp). unfold epoch_commit. rewrite Hv, E.
  destruct (plan_is_empty plan); [done|]. by destruct (append_epoch _ _) as [[u|err|] s].
Qed.

Lemma dserves_epochs opens e db cs tr lost db' fs : dserves opens e db cs tr lost db' →
  counted (db_current db) fs → db_validators db = [] → epoch_fits (db_current db) (d_intents_of cs) →
  ∃ fs', durable_epochs (db_current db) fs tr (db_current db') fs' ∧ counted (db_current db') fs' ∧
    fs' = fs ++ concat (d_frames <$> tr).
Proof.
  intros Hs. revert fs. induction Hs as [|? ? ? ? ? ? ? _ IH|e db first taken rest r db1 tr lost db' Ec Ep _ IH|db cs lost
    |db first taken rest db1 refused lost Ec _ _|db first refused lost _]; intros fs Hw Hv Hf.
  - exists fs. split_and!; [constructor|done|by rewrite app_nil_r].
  - destruct (IH fs Hw Hv Hf) as (fs' & He & Hw' & ->). eexists. split_and!; [by constructor|done|done].
  - set (batch := first :: staged_of taken) in *.
    assert (d_intents_of (CmdIntent first :: taken ++ rest) =
      (ds_intent <$> batch) ++ d_intents_of ((CmdBarrier <$> barriers_of taken) ++ rest)) as Heq.
    { unfold d_intents_of. change (staged_of (CmdIntent first :: taken ++ rest)) with (first :: staged_of (taken ++ rest)).
      rewrite !staged_of_app, d_staged_of_barriers. cbn [app]. by rewrite <- fmap_app. }
    rewrite Heq in Hf. destruct (epoch_fits_app _ _ _ Hf) as (Hf1 & Hf2 & Hf3).
    pose proof (epoch_commit_refines db _ fs Hw Hv Hf1) as Hp.
    pose proof (epoch_commit_frames db (ds_intent <$> batch)) as [Hfr Hval]. rewrite Ec in Hp, Hfr, Hval. cbn [fst snd] in *.
    rewrite Hv in Hval. destruct r as [plan|plan err|]; [| |done].
    + destruct Hfr as (_ & _ & Hcur & _). destruct (IH (fs ++ ep_frames plan)) as (fs' & He & Hw' & ->);
        [rewrite Hcur; apply Hp|done|rewrite Hcur; by eapply Hf3|]. rewrite Hcur in He.
      eexists. split_and!; [by eapply de_done|done|]. cbn. by rewrite (assoc_L (++)).
    + destruct Hfr as (_ & Hcur & _). destruct (IH fs) as (fs' & He & Hw' & ->); [by rewrite Hcur|done|by rewrite Hcur|].
      rewrite Hcur in He. eexists. split_and!; [by eapply de_failed|done|done].
  - exists fs. split_and!; [apply refused_epochs|done|by rewrite refused_frames, app_nil_r].
  - pose proof (epoch_commit_frames db (ds_intent <$> first :: staged_of taken)) as [Hfr _]. rewrite Ec in Hfr. cbn [fst snd] in Hfr.
    destruct Hfr as [Hcur _]. exists fs. rewrite Hcur. split_and!; [apply de_panicked, refused_epochs|done|].
    cbn. by rewrite refused_frames, app_nil_r.
  - exists fs. split_and!; [apply de_lost, refused_epochs|done|]. cbn. by rewrite refused_frames, app_nil_r.
Qed.
End epochs.

(** C20: What the durable worker commits, as the planner on histories decides it.
    From a published world without validators whose history is that of the store,
    and for intents within the capacity of tokens, literal cells and arenas, each
    epoch of the worker is the planner's on the state of the published world
    WITHOUT its slots: names, identities, versions and allocated entities are
    those of the history, and for intents without slot preconditions the epoch is
    the planner's on the history itself, but a slot precondition sees only the
    epoch's own definitions.  An epoch that was not persisted changes nothing.
    The published world then extends, up to the numbers of slots and records it
    reports, exactly the history that the store holds. *)
Theorem durable_worker_refines {D P I : Type}
    `{KernelLaws D, MappedRootLaws P, !MappedVocabulary P, !MappedVocabularyLaws P, EpochFileIo I, Platform}
    (policy : BatchPolicy) (db : Database D P (FileEpochStore I)) script (h : DurableHost D P) :
  running h → counted (db_current db) (fe_frames (db_store db)) → db_validators db = [] →
  epoch_fits (db_current db) (d_intents_of (arrived script)) →
  ∃ w tr, run_durable_worker policy db script h = Some w ∧
    dh_answers (dw_host w) = dh_answers h ++ concat (d_answers <$> tr) ∧
    concat (d_intents <$> tr) ++ staged_of (arrived (dw_script w)) = staged_of (arrived script) ∧
    durable_epochs (db_current db) (fe_frames (db_store db)) tr
      (db_current (dw_database w)) (fe_frames (db_store (dw_database w))) ∧
    counted (db_current (dw_database w)) (fe_frames (db_store (dw_database w))).
Proof.
  intros Hrun Hw Hv Hf.
  destruct (run_serves policy db script h Hrun) as (w & e & tr & db' & E & Hs & _ & Ha & Hd & _).
  destruct (dserves_epochs _ _ _ _ _ _ _ _ Hs Hw Hv Hf) as (fs' & He & Hw' & ->).
  destruct (dserves_frames _ _ _ _ _ _ _ Hs) as [Hfr _]. destruct (exit_keeps e db') as (K1 & K2 & _).
  destruct (dserves_intents _ _ _ _ _ _ _ Hs) as [Hin _].
  exists w, tr. rewrite Hd, K1, K2, Hfr. split_and!; [done|apply Ha|done|done|done].
Qed.

Lemma durable_worker_refines_witness :
  ∃ w tr, run_durable_worker (ImmediateDrain 2) durable_genesis durable_script durable_sample_host = Some w ∧
    dh_answers (dw_host w) = dh_answers durable_sample_host ++ concat (d_answers <$> tr) ∧
    concat (d_intents <$> tr) ++ staged_of (arrived (dw_script w)) = staged_of (arrived durable_script) ∧
    durable_epochs (db_current durable_genesis) (fe_frames (db_store durable_genesis)) tr
      (db_current (dw_database w)) (fe_frames (db_store (dw_database w))) ∧
    counted (db_current (dw_database w)) (fe_frames (db_store (dw_database w))).
Proof.
  apply (durable_worker_refines (ImmediateDrain 2) durable_genesis durable_script durable_sample_host).
  - by split.
  - apply world_counted, genesis_ok.
  - done.
  - split; [repeat constructor|by vm_compute|by vm_compute|by vm_compute].
Defined.

(** ** A submission that races with a shutdown *)

(** A caller has passed the tests of [submit]; a shutdown begins; the worker meets
    it with one intent in the channel, refuses that intent and exits cleanly; then
    the caller goes on, and the shutdown reports. *)
Definition race_states : option (DurableControllerState * DurableControllerState * option string) :=
  match durable_new durable_genesis 8 (ImmediateDrain 2) true true durable_sample_host with
  | Ok c =>
      let '(_, c) := durable_submit sample_intent c in
      match submit_check sample_intent (dc_host c) with
      | None =>
          w ← run_durable_worker (ImmediateDrain 2) (dc_database c) (Arrives <$> dc_queue c) (shutdown_begin (dc_host c));
          let '(_, c) := submit_send sample_intent
            (DurableController_mk (dw_database w) [] false (dc_capacity c) (dc_max_batch c) true (dw_host w)) in
          let '(report, _) := shutdown_finish DRunning true (dc_on_host dh_take_sender c) in
          Some (dh_state (dw_host w), final_state report, shutdown_reason report)
      | Some _ => None
      end
  | _ => None
  end.

Lemma orderly_shutdown_reports_poisoned : race_states =
  Some (DClosed, DPoisoned, Some "durable worker command channel disconnected unexpectedly"%string).
Proof. vm_compute. reflexivity. Qed.

(** A shutdown reads the state and then sets it: a worker that fails in between has
    its failure overwritten, and the report says closed. *)
Lemma shutdown_overwrites_a_failure {D P I} reason (c : DurableController D P I) :
  let failed := dc_on_host (dh_take_sender ∘ dh_set_state DDraining ∘ poison reason) c in
  let report := (shutdown_finish DRunning true failed).1 in
  final_state report = DClosed ∧ shutdown_reason report = Some reason.
Proof. done. Qed.

(** The published world counts only the slots and records of its last epoch. *)
Definition published_counts (max_batch : N) : option (N * nat * nat) :=
  w ← run_durable_worker (ImmediateDrain max_batch) (Database_mk genesis (scripted_store PerEpoch []) [])
        precondition_script durable_sample_host;
  let world := db_current (dw_database w) in
  Some (w_active_slot_count world, w_record_count world, length (frame_events (world_frames world))).

Lemma counts_are_of_the_last_epoch :
  published_counts 2 = Some (1%N, 1, 1) ∧ published_counts 1 = Some (1%N, 1, 2).
Proof. split; vm_compute; reflexivity. Qed.
