(* ===== verification/SpeculativeProps.v ===== *)
(** The properties of the worker that derives one epoch ahead while io_uring
    persists the last: its answers, its store and its published world are those of
    a worker that waits for each epoch before it looks at the next. *)
From Stdlib Require Import NArith ZArith Lia.
From stdpp Require Import base gmap list strings option.
From S2P Require Import Prelude Ord Terms Bytes Query QueryFacts Spec Index Kernel Frames.
From S2P Require Import LegacyDb KernelProps VmProjection Worlds WorldFacts WorldProps Intents Epochs.
From S2P Require Import Codec FileStore FileProps EpochCodec EpochStore EpochStoreFacts EpochStoreProps.
From S2P Require Import StackVm StackVmFacts StackVmTrial EpochProps VmEpochs VmVocabulary VmEpochFacts.
From S2P Require Import VmEpochProps Parser Isa Ast MixedEpochs MixedFacts MixedProps IoUring IoUringFacts.
From S2P Require Import Batching QueuedController QueuedProps DurableController DurableProps.

(** ** An epoch on the ring *)

Section ahead.
Context {D P U : Type} `{Kernel D, MappedRoot P, MappedVocabulary P, Ring U, EpochFileIo U, Platform}.
Abbreviation RingDb := (Database D P (FileEpochStore (IoUringEpochFileIo U))) (only parsing).
Abbreviation Worker := (SpeculativeWorker (D := D) (P := P) (U := U)) (only parsing).
Implicit Types (db : RingDb) (h : DurableHost D P) (b : list DurableStagedIntent).

Definition sent (a : list (DurableAnswer D P)) h h' : Prop := dh_answers h' = dh_answers h ++ a ∧ steady h h'.






(** ** Claims *)

(** The worker took commands from the channel, claiming the intents [b] and putting
    barriers aside, sent the answers [a], and left the database as [db]. *)
Record took (w : Worker) b (a : list (DurableAnswer D P)) db (w' : Worker) : Prop := {
  tk_commands : ∃ cs, arrived (sw_script w) = cs ++ arrived (sw_script w') ∧ staged_of cs = b ∧
    sw_pending w' = sw_pending w ++ (CmdBarrier <$> barriers_of cs) ∧
    length (sw_script w') + length cs ≤ length (sw_script w);
  tk_sent : sent a (sw_host w) (sw_host w');
  tk_database : sw_database w' = db;
}.




Lemma tk_measure w b a db w' : took w b a db w' →
  worker_measure (sw_pending w') (sw_script w') ≤ worker_measure (sw_pending w) (sw_script w).
Proof.
  intros [(cs & _ & _ & Hp & Hl) _ _]. unfold worker_measure. rewrite Hp, length_app, length_fmap.
  pose proof (barriers_of_length cs). lia.
Qed.







(** ** The steps of the pipeline *)

















(** ** The pipeline, one batch after the other *)














(** ** The worker that derives ahead *)













End ahead.

(** What the exit of the thread makes of the worker the loop left. *)
Section exit.
Context {D P U : Type} `{Kernel D, MappedRoot P, MappedVocabulary P, Ring U, EpochFileIo U}.
Abbreviation Worker := (SpeculativeWorker (D := D) (P := P) (U := U)) (only parsing).




End exit.


(** ** A run on the ring *)

#[local] Existing Instance sample_platform.

(** Six intents, two to a batch, a barrier before the third; the first write stops short. *)
Definition ring_system (bytes : list u8) : SimRing := SimRing_mk (ScriptedIo_mk bytes []) None false [] [] [Some 20].
Definition ring_script : list (Arrival DurableStagedIntent) :=
  (Arrives ∘ CmdIntent <$> take 3 durable_staged) ++ [Arrives (CmdBarrier 7)] ++
  (Arrives ∘ CmdIntent <$> drop 3 durable_staged) ++ [Quiet; Drains].
Definition ring_genesis : Database LegacyDb.ForthDb Empty_set (FileEpochStore (IoUringEpochFileIo SimRing)) :=
  Database_mk genesis (FileEpochStore_mk (IoUringEpochFileIo_mk (ring_system (file_of [])) true 8) [] PerEpoch Healthy None
    (digest (file_of [])) 0 metrics_default) [].

Lemma ring_genesis_opened :
  open_store_with_entries (D := LegacyDb.ForthDb) (P := Empty_set) 8 ring_system [] = Ok (db_store ring_genesis).
Proof. vm_compute. reflexivity. Qed.

Lemma ring_controller_opens : ∃ c,
  open_owned_speculative (D := LegacyDb.ForthDb) (P := Empty_set) true 8 ring_system [] 16 2 true durable_sample_host = Ok c ∧
  dc_lease c = true ∧ running (dc_host c) ∧ fe_frames (db_store (dc_database c)) = [].
Proof. eexists. split; [vm_compute; reflexivity|done]. Qed.


(** The run itself.  The first epoch is torn, so its successor is derived again;
    the barrier cuts the successor short, and intent 4 is rejected for what intent 3
    defines in the same epoch; the barrier, which arrived before the last three intents and well before the
    shutdown, is put off until the pipeline has no successor, and then refused. *)
Example speculative_sample_run :
  run_speculative_io_uring_worker 2 ring_genesis ring_script durable_sample_host ≫= (λ w,
    Some (answer_tag <$> dh_answers (sw_host w), dh_state (sw_host w),
      length (fe_frames (db_store (sw_database w))), fe_state (db_store (sw_database w)), length (sw_script w),
      (λ k, dh_counters (sw_host w) k) <$> [DuClaimed; DuAccepted; DuRejected; DuDurabilityFailed;
        DuEpochs; DuSpeculativePrepared; DuSpeculativeRederived; DuQueueDepth; DuInFlight])) =
  Some ([(0, "not durable"); (1, "rejected"); (2, "accepted"); (3, "accepted"); (4, "rejected"); (5, "accepted");
    (7, "stopped")]%N%string, DClosed, 3, Healthy, 0, [6; 3; 2; 1; 4; 3; 1; 0; 0]%N).
Proof. vm_compute. reflexivity. Qed.
